(* ===== verification/_CoqProject ===== *)
-Q . S2P
Prelude.v
Wire.v
Types.v
Bitmap.v
Emit.v
RsStrategy.v
RsCorrect.v
CtrlOut.v
Session.v
Reader.v
Channel.v
Actor.v
RsChannel.v
Queue.v
Engine.v
PeerIo.v
PeerOut.v
DataLoop.v
PeerIn.v
PeerWire.v
Handshake.v
PeerLife.v
Rlp.v
Identity.v
Enr.v
Control.v
View.v
ControlSession.v
Endpoint.v
TlsIdentity.v
Family.v
Opening.v
Supervisor.v
StackInv.v
StackRun.v
Dial.v
OnCancel.v
Broadcast.v
TlsConfig.v
SimObserver.v
SimTrace.v
SimNet.v
SimStats.v
SimConfig.v
SimHost.v
Recorder.v
Harness.v
