(* ===== verification/Prelude.v ===== *)
(** * A verification library for ethp2p

    ethp2p is a peer-to-peer stack in Go.  Its core is the broadcast engine:
    messages of a channel are cut into chunks by an erasure-coding scheme, the
    chunks travel over unidirectional streams to the peers that subscribe to the
    channel, and each peer reconstructs, delivers and relays.  This library is a
    shallow embedding of that program: every Go function is a Rocq function on
    explicit state, with the guards, early returns and order of effects of the
    source, and the theorems say what makes each part correct.

    ** The parts and where they are modelled

    - [Wire] (src/wire/wire.go): stream codes, length-prefixed frames with
      minimal varints, and stream headers (selectors), over readers that end
      with a FIN or an error.
    - [Types] (src/broadcast/types.go, errors.go, observer.go): the strategy and
      scheme interfaces as classes, with the strategy's documented contract as
      laws ([StrategyLaws]).
    - [Bitmap], [Emit], [RsStrategy], [RsCorrect] (src/broadcast/rs): chunk
      bitmaps, the heap of chunks to send, the Reed-Solomon strategy, and that
      the strategy satisfies the contract and decodes what was published.
    - [CtrlOut] (src/broadcast/ctrl_out.go): the state that coalesces what a
      peer's control stream has to say.
    - [Session] (src/broadcast/session.go), [Reader] (src/broadcast/wire.go and
      the payload readers), [Channel] (src/broadcast/channel.go), [Actor] (the
      channel's event loop interleaved with the goroutines of its sessions),
      [RsChannel] (the Reed-Solomon scheme plugged into all of them).
    - [Queue] (src/broadcast/queue.go, src/transport/queue.go): the hand-off
      queues.
    - [Engine] (src/broadcast/engine.go and the engine's side of peer.go,
      peer_in.go): channels, peers, bindings and handoff queues.
    - [PeerIo] (what a binding's goroutines work on: src/stream.go, the codes of
      src/broadcast/protocol.go, src/internal/ctxutil), [PeerOut] (the control
      loop and the sending of chunks, src/broadcast/peer_ctrl.go), [DataLoop]
      (the data loop), [PeerIn] (the readers of src/broadcast/peer_in.go and
      peer_ctrl.go), [PeerWire] (one peer's streams read by the other).
    - [Handshake] (handshake of src/broadcast/peer.go) and [PeerLife] (Run, Close
      and the accept loops of peer.go and peer_in.go, all goroutines of a binding
      interleaved).
    - [Rlp] (src/enr/rlp.go), [Identity] (src/identity/identity.go), [Enr]
      (src/enr/enr.go, entry.go): canonical RLP, keys and peer identities, node
      records with their signature and endpoints.
    - [Control] (src/control/control.go): HELLO and GOAWAY on the control stream;
      [ControlSession] (src/session.go): the control session of a view, from its
      HELLO to the view's release.
    - [View] (src/transport/conn.go, errors.go, the libp2p view of libp2p.go): the
      two views of a connection, their release and incoming streams.
    - [Endpoint] (src/transport/endpoint.go, ethp2p.go, libp2p.go): the shared
      endpoint, its queues of views, dials and shutdown.
    - [TlsIdentity] (src/transport/handshake.go, cert.go): certificates that bind
      an identity key.
    - [Family] (src/family.go, localFamilies of src/stack.go): registration of a
      family's protocols and the queue that delivers its peers and streams;
      [Opening]: streams opened through its handles.
    - [Supervisor] (src/supervisor.go and the tables of src/stack.go): admission
      of views, routing of their streams, releases; [StackInv] its invariant,
      [StackRun] the whole stack with all its goroutines interleaved.
    - [Dial] (NewStack, Start and Connect of src/stack.go): any number of callers
      connecting to a peer.
    - [OnCancel] (src/internal/ctxutil/cancel.go): the callback of a context and
      any number of callers of its stop.
    - [Broadcast] (src/broadcast/protocol.go, engine.go, channel.go): registration,
      the life of the engine's loop with the callers that attach, stop and drop
      channels and close it, and the watcher of asynchronous verdicts.
    - [TlsConfig] (src/transport/config.go, the configurations of handshake.go): an
      endpoint's settings, all its TLS handshakes interleaved, and a dial
      between two endpoints.
    - [SimObserver], [SimTrace], [SimNet], [SimStats], [SimConfig], [SimHost] (src/sim):
      counters, trace files and gossipsub's traces, topology and latencies,
      publishing and statistics, configuration, and the keys and sockets of
      simulated nodes.
    - [Recorder], [Harness] (src/internal/trace, src/internal/harness and
      src/sim/node.go): recorded events, matchers and waits; links, collectors
      and the set-up of nodes.

    The engine hands streams to peer bindings and posts membership changes to
    channels; a channel routes chunk streams and control events to sessions; a
    session drives a strategy and requests control messages of [CtrlOut].  Below
    them the stack admits one view per peer, routes its streams to the families
    and tells each family which peers are up; the engine is a consumer of one.
    [StackRun] discharges what [Family] assumes of the supervisors.
    [Channel], [Session] and [Actor] are proved for any strategy that keeps
    [StrategyLaws]; [RsChannel] discharges the laws for Reed-Solomon.

    ** Conventions

    A w-bit integer is a [Z] with its wrap-around written out; bytes are
    [Byte.byte].  A run-time panic, or a send that would block an actor forever,
    is the [None] of an option (notation [letp]); a returned error is a value of
    [result] (notation [let!]) or an option.  Shared objects (connections,
    contexts, streams, handles) are numbers, their identities, in a [world]
    that also has the log of effects.  Go's map iteration is an argument
    [choice] known only to list the keys ([choice_perm]), so theorems hold for
    every order.  Third-party code (the Reed-Solomon codec, SHA-256, protobuf, secp256k1,
    Keccak-256, protowire, x509)
    is a parameter of the definitions that use it, its documented behaviour a
    named hypothesis with an instance that satisfies it.

    ** What the theorems show

    - round trips and canonicity of everything written to the wire;
    - invariants kept by every handler, in every interleaving of the modelled
      goroutines, and that no handler panics in a reachable state;
    - refinement of heaps, bitmaps, control state and queues to sets, maps and
      lists;
    - accounting: no stream, view or connection handed over is leaked or handed
      over twice;
    - delivery: what reaches the subscriber is what was published;
    - agreement of the two ends of a handshake, a control stream and a dial;
    - liveness of the drains and of the event loops, that closing comes to an end,
      and the error branches.

    ** Fuel

    Loops over data recurse on it.  The two loops of container/heap ([Emit]),
    [phase_close] of [CtrlOut] and [close_loop] of [Queue] take fuel, bounded by
    the heap's depth, by one more than the number of sessions and by the
    queue's length; the theorems show that it never runs out.  [decode_fuel]
    of [Rlp] takes one more than the input's length, [unmarshal_loop] of
    [Identity] likewise, [search_loop] of [Family] one more than the list's, and
    [drain] one more than the pending events; [session_loop] and [ctrl_reader] of
    [PeerIn] take one more than the bytes left to read: each is proved enough.
    Everything that runs beside something else is a step function of a program
    counter, and its termination a measure ([effort] of [PeerLife], [steps_left]
    of [Dial], [ep_effort] of [Endpoint], [hub_effort] of [Broadcast], [oc_effort]
    of [OnCancel]).  [removeNodeLinks] of [Harness] takes one more than the links.

    ** Not modelled

    - quic-go, libp2p and simnet: what their calls return is the environment of
      [View], [Endpoint], [ControlSession], [Opening] and of the simulation;
    - time: a deadline is an event of the environment, which theorems let happen
      at any moment;
    - the node of the gossipsub strategy (src/sim/strategy_gossipsub.go but for its
      messages and traces) and the top of a scenario (RunSimnetScenario, reports
      of bandwidth, which are floating point), which connect other packages;
    - Run and Node of the test harness, src/transport/transporttest and the
      commands, which drive the testing package; the protobuf packages are
      generated. *)

From stdpp Require Export base tactics list gmap sorting relations.
From Stdlib Require Export ZArith Lia.
From Stdlib Require Import Strings.Byte.

#[export] Set Default Goal Selector "!".

(** ** Scopes and hint databases

    [ethp2p] collects the lemmas that close the routine side conditions of the
    components (byte ranges, bounds, list lengths); every file adds its own. *)

Declare Scope ethp2p_scope.
Delimit Scope ethp2p_scope with ethp2p.
Open Scope ethp2p_scope.

Create HintDb ethp2p.

(** ** Errors as values

    A Go function that returns [(T, error)] is a function into [result E T].  A
    run-time panic (index out of range, explicit [panic]) is the [None] of an
    [option]. *)

Inductive result (E A : Type) : Type :=
| Ok (a : A)
| Err (e : E).
Arguments Ok {E A} a.
Arguments Err {E A} e.

Definition rbind {E A B} (r : result E A) (k : A -> result E B) : result E B :=
  match r with Ok a => k a | Err e => Err e end.

Notation "'let!' x := r 'in' k" := (rbind r (fun x => k))
  (at level 10, x pattern, r at level 100, k at level 200) : ethp2p_scope.

Notation "'letp' x := r 'in' k" := (@mbind option _ _ _ (fun x => k) r)
  (at level 10, x pattern, r at level 100, k at level 200) : ethp2p_scope.

Definition is_ok {E A} (r : result E A) : bool :=
  match r with Ok _ => true | Err _ => false end.

Lemma rbind_Ok {E A B} (r : result E A) (k : A -> result E B) b :
  rbind r k = Ok b <-> exists a, r = Ok a /\ k a = Ok b.
Proof. destruct r; simpl; naive_solver. Qed.

Lemma rbind_Err {E A B} (r : result E A) (k : A -> result E B) e :
  rbind r k = Err e <-> r = Err e \/ exists a, r = Ok a /\ k a = Err e.
Proof. destruct r; simpl; naive_solver. Qed.

(** Case analysis on the innermost [match]/[if] of a hypothesis, keeping the
    equation; the work-horse of the "this branch was taken" proofs. *)
Ltac split_match H :=
  match type of H with
  | context [ match ?x with _ => _ end ] =>
      lazymatch x with
      | context [ match _ with _ => _ end ] => fail
      | _ => let Q := fresh "Q" in destruct x eqn:Q
      end
  end.
Ltac split_goal :=
  match goal with
  | |- context [ match ?x with _ => _ end ] =>
      lazymatch x with
      | context [ match _ with _ => _ end ] => fail
      | _ => let Q := fresh "Q" in destruct x eqn:Q
      end
  end.
Ltac split_matches H := repeat (split_match H; simplify_eq/=).

(** Boolean comparisons of the code turned into propositions. *)
Ltac z_bool :=
  repeat match goal with
  | H : (_ <? _)%Z = true |- _ => apply Z.ltb_lt in H
  | H : (_ <? _)%Z = false |- _ => apply Z.ltb_ge in H
  | H : (_ <=? _)%Z = true |- _ => apply Z.leb_le in H
  | H : (_ <=? _)%Z = false |- _ => apply Z.leb_gt in H
  | H : (_ =? _)%Z = true |- _ => apply Z.eqb_eq in H
  | H : (_ =? _)%Z = false |- _ => apply Z.eqb_neq in H
  | H : (_ >? _)%Z = _ |- _ => rewrite Z.gtb_ltb in H
  | H : (_ >=? _)%Z = _ |- _ => rewrite Z.geb_leb in H
  | H : (_ <? _)%nat = true |- _ => apply Nat.ltb_lt in H
  | H : (_ <? _)%nat = false |- _ => apply Nat.ltb_ge in H
  | H : (_ <=? _)%nat = true |- _ => apply Nat.leb_le in H
  | H : (_ <=? _)%nat = false |- _ => apply Nat.leb_gt in H
  | H : (_ =? _)%nat = true |- _ => apply Nat.eqb_eq in H
  | H : (_ =? _)%nat = false |- _ => apply Nat.eqb_neq in H
  | H : _ && _ = true |- _ => apply andb_true_iff in H as [? ?]
  | H : _ || _ = false |- _ => apply orb_false_iff in H as [? ?]
  | H : negb _ = true |- _ => apply negb_true_iff in H
  | H : negb _ = false |- _ => apply negb_false_iff in H
  end.

(** ** Bytes

    Go's [byte] is [Byte.byte]; [b2z] is [uint64(b)] and [z2b] is the
    truncating conversion [byte(x)]. *)

Abbreviation byte := Byte.byte.
Abbreviation bytes := (list Byte.byte).

Definition b2z (b : byte) : Z := Z.of_N (Byte.to_N b).
Definition z2b (z : Z) : byte :=
  match Byte.of_N (Z.to_N (z mod 256)) with Some b => b | None => Byte.x00 end.

#[global] Instance byte_eq_dec : EqDecision Byte.byte := Byte.byte_eq_dec.
#[global] Program Instance byte_countable : Countable Byte.byte :=
  inj_countable Byte.to_N Byte.of_N _.
Next Obligation. apply Byte.of_to_N. Qed.

Lemma b2z_range b : (0 <= b2z b < 256)%Z.
Proof. unfold b2z. pose proof (Byte.to_N_bounded b). lia. Qed.
#[export] Hint Resolve b2z_range : ethp2p.

Lemma b2z_z2b z : b2z (z2b z) = (z mod 256)%Z.
Proof.
  unfold b2z, z2b. pose proof (Z.mod_pos_bound z 256 eq_refl).
  destruct (Byte.of_N _) as [b|] eqn:E.
  - apply Byte.to_of_N in E. lia.
  - apply Byte.of_N_None_iff in E. lia.
Qed.

Lemma b2z_z2b_small z : (0 <= z < 256)%Z -> b2z (z2b z) = z.
Proof. intros. rewrite b2z_z2b. by apply Z.mod_small. Qed.

Lemma b2z_inj a b : b2z a = b2z b -> a = b.
Proof.
  unfold b2z. intros H. apply N2Z.inj in H.
  pose proof (Byte.of_to_N a). pose proof (Byte.of_to_N b). congruence.
Qed.

Lemma z2b_b2z b : z2b (b2z b) = b.
Proof. apply b2z_inj, b2z_z2b_small, b2z_range. Qed.

Lemma z2b_inj_small x y :
  (0 <= x < 256)%Z -> (0 <= y < 256)%Z -> z2b x = z2b y -> x = y.
Proof. intros Hx Hy E. rewrite <-(b2z_z2b_small x), <-(b2z_z2b_small y) by done. congruence. Qed.

(** ** Machine integers: [uint64], [uint32] and the 64-bit [int]. *)

Definition u64 (z : Z) : Z := (z mod 2 ^ 64)%Z.
Definition u32 (z : Z) : Z := (z mod 2 ^ 32)%Z.
Definition i64 (z : Z) : Z := ((z + 2 ^ 63) mod 2 ^ 64 - 2 ^ 63)%Z.
Definition i32 (z : Z) : Z := ((z + 2 ^ 31) mod 2 ^ 32 - 2 ^ 31)%Z.

Lemma u64_small z : (0 <= z < 2 ^ 64)%Z -> u64 z = z.
Proof. apply Z.mod_small. Qed.
Lemma u32_small z : (0 <= z < 2 ^ 32)%Z -> u32 z = z.
Proof. apply Z.mod_small. Qed.
Lemma i64_small z : (- 2 ^ 63 <= z < 2 ^ 63)%Z -> i64 z = z.
Proof. intros. unfold i64. rewrite Z.mod_small; lia. Qed.
Lemma i32_small z : (- 2 ^ 31 <= z < 2 ^ 31)%Z -> i32 z = z.
Proof. intros. unfold i32. rewrite Z.mod_small; lia. Qed.
Lemma u64_range z : (0 <= u64 z < 2 ^ 64)%Z.
Proof. by apply Z.mod_pos_bound. Qed.
Lemma u32_range z : (0 <= u32 z < 2 ^ 32)%Z.
Proof. by apply Z.mod_pos_bound. Qed.
#[export] Hint Resolve u64_range u32_range : ethp2p.

(** A shift and an or that do not overlap add. *)
Lemma lor_disjoint acc y s : (0 <= s -> 0 <= acc < 2 ^ s -> 0 <= y -> Z.lor acc (Z.shiftl y s) = acc + y * 2 ^ s)%Z.
Proof.
  intros Hs Hacc Hy. rewrite <-Z.shiftl_mul_pow2 by done.
  rewrite <-Z.lxor_lor; [rewrite <-Z.add_nocarry_lxor; [done|]|]; apply Z.bits_inj'; intros k Hk;
    rewrite Z.land_spec, Z.bits_0;
    (destruct (decide (k < s)%Z);
      [rewrite Z.shiftl_spec_low by done; apply andb_false_r
      |replace acc with (acc mod 2 ^ s)%Z by (by apply Z.mod_small);
       rewrite Z.mod_pow2_bits_high by lia; done]).
Qed.

#[global] Arguments Nat.div : simpl never.
#[global] Arguments Nat.modulo : simpl never.
#[global] Arguments b2z : simpl never.
#[global] Arguments z2b : simpl never.
#[global] Arguments u64 : simpl never.
#[global] Arguments u32 : simpl never.
#[global] Arguments i64 : simpl never.
#[global] Arguments i32 : simpl never.

(** ** Readers

    An [io.Reader] over a stream is the bytes still to come and the error that
    follows them: [EOF] for a FIN, anything else for a reset, a deadline or a
    connection end. *)

Inductive io_err :=
| EOF
| ErrUnexpectedEOF
| ErrStream (code : Z)
| ErrDeadline.

#[global] Instance io_err_eq_dec : EqDecision io_err.
Proof. solve_decision. Defined.

Record reader := mk_reader { rd_data : bytes; rd_end : io_err }.

(** [io.ReadFull(r, buf)] with [len(buf) = n]: all [n] bytes, or [EOF] when
    nothing was read, [ErrUnexpectedEOF] when a FIN cut the read short, and the
    stream's own error otherwise. *)
Definition read_full (r : reader) (n : nat) : result io_err bytes * reader :=
  if (n <=? length (rd_data r))%nat then
    (Ok (take n (rd_data r)), mk_reader (drop n (rd_data r)) (rd_end r))
  else
    (Err (match rd_data r, rd_end r with
          | _ :: _, EOF => ErrUnexpectedEOF
          | _, e => e
          end), mk_reader [] (rd_end r)).

Lemma read_full_app p rest e :
  read_full (mk_reader (p ++ rest) e) (length p) = (Ok p, mk_reader rest e).
Proof.
  unfold read_full; simpl. rewrite length_app.
  rewrite (proj2 (Nat.leb_le _ _)) by lia. by rewrite take_app_length, drop_app_length.
Qed.

Lemma read_full_cons b rest e :
  read_full (mk_reader (b :: rest) e) 1 = (Ok [b], mk_reader rest e).
Proof. reflexivity. Qed.

Lemma read_full_Ok r n p r' :
  read_full r n = (Ok p, r') ->
  rd_data r = p ++ rd_data r' /\ rd_end r' = rd_end r /\ length p = n.
Proof.
  unfold read_full. intros H. split_matches H. z_bool. simpl.
  rewrite take_drop, length_take. split; [done | split; [done | lia]].
Qed.

(** ** Lists *)

Lemma lookup_lt_is_Some_nat {A} (l : list A) i : (i < length l)%nat -> exists x, l !! i = Some x.
Proof. intros H. by apply lookup_lt_is_Some_2 in H as [x ?]; exists x. Qed.

Lemma app_eq_length_inv {A} (a b c d : list A) :
  length a = length c -> a ++ b = c ++ d -> a = c /\ b = d.
Proof. intros Hl E. by apply app_inj_1 in E. Qed.

Fixpoint sum_list_Z (l : list Z) : Z :=
  match l with [] => 0%Z | x :: l => (x + sum_list_Z l)%Z end.

Lemma Forall_impl_in {A} (P Q : A -> Prop) l :
  Forall P l -> (forall x, x ∈ l -> P x -> Q x) -> Forall Q l.
Proof. rewrite !Forall_forall. naive_solver. Qed.

(** ** Sums over maps *)

Definition map_sum {K A} `{Countable K} (f : A -> nat) (m : gmap K A) : nat :=
  map_fold (fun _ x n => f x + n)%nat 0%nat m.

Lemma map_sum_empty {K A} `{Countable K} (f : A -> nat) : map_sum f (∅ : gmap K A) = 0%nat.
Proof. apply map_fold_empty. Qed.

Lemma map_sum_delete {K A} `{Countable K} (f : A -> nat) (m : gmap K A) i x :
  m !! i = Some x -> map_sum f m = (f x + map_sum f (delete i m))%nat.
Proof. intros Hi. apply (map_fold_delete_L (fun _ x n => f x + n)%nat); [|done]. intros. lia. Qed.

Lemma map_sum_insert {K A} `{Countable K} (f : A -> nat) (m : gmap K A) i x :
  map_sum f (<[i := x]> m) = (f x + map_sum f (delete i m))%nat.
Proof. rewrite (map_sum_delete f _ i x) by apply lookup_insert_eq. by rewrite delete_insert_eq. Qed.

(** Replacing or dropping the value of a key changes the sum by that value. *)
Lemma map_sum_alter {K A} `{Countable K} (f : A -> nat) (m : gmap K A) i x y :
  m !! i = Some x -> (map_sum f (<[i := y]> m) + f x = map_sum f m + f y)%nat.
Proof. intros Hi. rewrite map_sum_insert, (map_sum_delete f m i x) by done. lia. Qed.
