(* ===== verification/Wire.v ===== *)
(** * Wire: the package wire (src/wire/wire.go)

    Outcome codes, frames and stream headers.  The variable-length integers of
    [encoding/binary] that every one of them uses are modelled first. *)

From S2P Require Import Prelude.
Open Scope Z_scope.

(** ** [encoding/binary]: AppendUvarint and ReadUvarint *)

Module Uvarint.

(** [binary.AppendUvarint(nil, x)]: seven bits a byte, low group first.  The
    argument is a [uint64], so the loop runs at most nine times before its
    last append; [n] counts those iterations. *)
Fixpoint append_loop (n : nat) (x : Z) : bytes :=
  match n with
  | O => [z2b x]
  | S n' =>
      if x <? 128 then [z2b x]
      else z2b (Z.lor (b2z (z2b x)) 128) :: append_loop n' (Z.shiftr x 7)
  end.

Definition AppendUvarint (dst : bytes) (x : Z) : bytes := dst ++ append_loop 9 x.

Inductive uv_err := UvIO (e : io_err) | UvOverflow.

(** [binary.ReadUvarint] over a counting byte reader: [k] iterations left, [i]
    done, [x] and [s] the accumulator and its shift, [cnt] the bytes read. *)
Fixpoint read_loop (k i : nat) (x s : Z) (r : reader) (cnt : nat) {struct k}
    : result uv_err Z * reader * nat :=
  match k with
  | O => (Err UvOverflow, r, cnt)
  | S k' =>
      match read_full r 1 with
      | (Err e, r') =>
          let e := match i, e with S _, EOF => ErrUnexpectedEOF | _, e => e end in
          (Err (UvIO e), r', cnt)
      | (Ok bs, r') =>
          let b := b2z (hd Byte.x00 bs) in
          if b <? 128 then
            if (i =? 9)%nat && (1 <? b) then (Err UvOverflow, r', S cnt)
            else (Ok (Z.lor x (u64 (Z.shiftl b s))), r', S cnt)
          else read_loop k' (S i) (Z.lor x (u64 (Z.shiftl (Z.land b 127) s))) (s + 7) r' (S cnt)
      end
  end.

Definition ReadUvarint (r : reader) : result uv_err Z * reader * nat :=
  read_loop 10 0 0 0 r 0.

(** *** The byte strings that denote an integer *)

Inductive uform : bytes -> Prop :=
| uform_last b : b2z b < 128 -> uform [b]
| uform_more b p : 128 <= b2z b -> uform p -> uform (b :: p).

Fixpoint uval (p : bytes) : Z :=
  match p with
  | [] => 0
  | b :: p => b2z b mod 128 + 128 * uval p
  end.

Lemma uval_nonneg p : 0 <= uval p.
Proof. induction p as [|b p IH]; simpl; [lia|]. pose proof (Z.mod_pos_bound (b2z b) 128). lia. Qed.
#[export] Hint Resolve uval_nonneg : ethp2p.

Lemma uform_length p : uform p -> (0 < length p)%nat.
Proof. destruct 1; simpl; lia. Qed.

Lemma uform_inj p q : uform p -> uform q -> length p = length q -> uval p = uval q -> p = q.
Proof.
  intros Hp. revert q. induction Hp as [b Hb|b p Hb Hp IH]; intros q Hq Hl Hv.
  - destruct Hq as [c Hc|c q Hc Hq]; [|apply uform_length in Hq; simpl in Hl; lia].
    simpl in Hv. pose proof (b2z_range b). pose proof (b2z_range c).
    rewrite !Z.mod_small in Hv by lia. f_equal. apply b2z_inj. lia.
  - destruct Hq as [c Hc|c q Hc Hq]; [apply uform_length in Hp; simpl in Hl; lia|].
    simpl in Hv, Hl. pose proof (b2z_range b). pose proof (b2z_range c).
    rewrite (Z.mod_eq (b2z b)), (Z.mod_eq (b2z c)) in Hv by lia.
    assert (b2z b / 128 = 1) as Eb by (Z.div_mod_to_equations; lia).
    assert (b2z c / 128 = 1) as Ec by (Z.div_mod_to_equations; lia).
    rewrite Eb, Ec in Hv.
    assert (b2z b = b2z c) by lia. f_equal; [by apply b2z_inj|].
    apply IH; [done|lia|lia].
Qed.

Lemma lor_128 x : 0 <= x < 256 -> Z.lor x 128 = x mod 128 + 128.
Proof.
  intros Hx. assert (x = b2z (z2b x)) as -> by (symmetry; by apply b2z_z2b_small).
  destruct (z2b x); reflexivity.
Qed.

Lemma mod_256_128 x : (x mod 256) mod 128 = x mod 128.
Proof. change 256 with (128 * 2). rewrite Z.rem_mul_r by lia. rewrite Z.mul_comm, Z.mod_add, Z.mod_mod; lia. Qed.

Lemma append_cont x : b2z (z2b (Z.lor (b2z (z2b x)) 128)) = x mod 128 + 128.
Proof.
  rewrite lor_128 by apply b2z_range. rewrite b2z_z2b_small.
  - rewrite b2z_z2b, mod_256_128. done.
  - pose proof (Z.mod_pos_bound (b2z (z2b x)) 128). lia.
Qed.

Lemma append_loop_spec n x :
  0 <= x < 2 ^ (7 * (Z.of_nat n + 1)) ->
  uform (append_loop n x) /\ uval (append_loop n x) = x.
Proof.
  revert x. induction n as [|n IH]; intros x Hx; simpl.
  - assert (x < 128) by (change 128 with (2 ^ 7); simpl in Hx; lia).
    split; [constructor; rewrite b2z_z2b_small; lia|].
    rewrite b2z_z2b_small, Z.mod_small; lia.
  - destruct (x <? 128) eqn:E; z_bool.
    + split; [constructor; rewrite b2z_z2b_small; lia|].
      simpl. rewrite b2z_z2b_small, Z.mod_small; lia.
    + rewrite Z.shiftr_div_pow2 by lia. change (2 ^ 7) with 128.
      destruct (IH (x / 128)) as [IHf IHv].
      { split; [apply Z.div_pos; lia|]. apply Z.div_lt_upper_bound; [lia|].
        replace (7 * (Z.of_nat (S n) + 1)) with (7 + 7 * (Z.of_nat n + 1)) in Hx by lia.
        rewrite Z.pow_add_r in Hx by lia. change (2 ^ 7) with 128 in Hx. lia. }
      pose proof (Z.mod_pos_bound x 128). split.
      * constructor; [|done]. rewrite append_cont. lia.
      * simpl. rewrite append_cont, IHv.
        replace (x mod 128 + 128) with (x mod 128 + 1 * 128) by lia.
        rewrite Z.mod_add, Z.mod_mod by lia.
        pose proof (Z.div_mod x 128). lia.
Qed.

Lemma AppendUvarint_spec x :
  0 <= x < 2 ^ 64 -> uform (AppendUvarint [] x) /\ uval (AppendUvarint [] x) = x.
Proof.
  intros. change (AppendUvarint [] x) with (append_loop 9 x). apply append_loop_spec.
  change (7 * (Z.of_nat 9 + 1)) with 70. lia.
Qed.

(** *** Reading back *)

Lemma read_step_acc acc b i :
  0 <= acc < 2 ^ (7 * Z.of_nat i) -> 0 <= b -> b * 2 ^ (7 * Z.of_nat i) < 2 ^ 64 ->
  Z.lor acc (u64 (Z.shiftl b (7 * Z.of_nat i))) = acc + b * 2 ^ (7 * Z.of_nat i).
Proof.
  intros Hacc Hb Hlt. rewrite u64_small.
  - apply lor_disjoint; lia.
  - rewrite Z.shiftl_mul_pow2 by lia. split; [|done]. apply Z.mul_nonneg_nonneg; lia.
Qed.

Lemma land_127 b : 0 <= b -> Z.land b 127 = b mod 128.
Proof. intros. change 127 with (Z.ones 7). by rewrite Z.land_ones by lia. Qed.

Lemma pow7_step i : 2 ^ (7 * Z.of_nat (S i)) = 128 * 2 ^ (7 * Z.of_nat i).
Proof. replace (7 * Z.of_nat (S i)) with (7 + 7 * Z.of_nat i) by lia. rewrite Z.pow_add_r by lia. done. Qed.

Lemma pow7_pos i : 0 < 2 ^ (7 * Z.of_nat i).
Proof. apply Z.pow_pos_nonneg; lia. Qed.
#[export] Hint Resolve pow7_pos : ethp2p.

Lemma read_loop_uform p : uform p -> forall k i acc rest e cnt,
  (length p <= k)%nat -> (i + k = 10)%nat -> 0 <= acc < 2 ^ (7 * Z.of_nat i) ->
  acc + uval p * 2 ^ (7 * Z.of_nat i) < 2 ^ 64 ->
  read_loop k i acc (7 * Z.of_nat i) (mk_reader (p ++ rest) e) cnt
  = (Ok (acc + uval p * 2 ^ (7 * Z.of_nat i)), mk_reader rest e, (cnt + length p)%nat).
Proof.
  induction 1 as [b Hb|b p Hb Hp IH]; intros k i acc rest e cnt Hk Hik Hacc Hlt;
    (destruct k as [|k]; [simpl in Hk; lia|]); simpl app;
    cbn [read_loop]; rewrite read_full_cons; cbn [hd];
    pose proof (b2z_range b); pose proof (pow7_pos i).
  - rewrite (proj2 (Z.ltb_lt _ _)) by done. simpl uval in Hlt.
    rewrite Z.mod_small in Hlt by lia. rewrite Z.mul_0_r, Z.add_0_r in Hlt.
    destruct ((i =? 9)%nat && (1 <? b2z b)) eqn:E; z_bool.
    + subst i. change (2 ^ (7 * Z.of_nat 9)) with (2 ^ 63) in *. lia.
    + rewrite read_step_acc by (lia || nia). simpl uval. rewrite Z.mod_small by lia.
      rewrite Z.mul_0_r, Z.add_0_r. simpl. by rewrite Nat.add_1_r.
  - rewrite (proj2 (Z.ltb_ge _ _)) by done. simpl uval in *.
    pose proof (Z.mod_pos_bound (b2z b) 128 ltac:(lia)). pose proof (uval_nonneg p).
    rewrite land_127 by lia.
    assert (128 * 2 ^ (7 * Z.of_nat i) <= 2 ^ 64 \/ i = 9%nat) as Hi.
    { destruct (decide (i = 9%nat)); [by right|left]. rewrite <-pow7_step.
      apply Z.pow_le_mono_r; lia. }
    destruct Hi as [Hi| ->]; [|apply uform_length in Hp; simpl in Hk; lia].
    rewrite read_step_acc by (lia || nia).
    replace (7 * Z.of_nat i + 7) with (7 * Z.of_nat (S i)) by lia.
    rewrite IH by (rewrite ?pow7_step; simpl in Hk; lia || nia).
    rewrite pow7_step. f_equal; [do 2 f_equal; ring|simpl; lia].
Qed.

Lemma read_loop_Ok k : forall i acc r cnt v r' cnt',
  (i + k = 10)%nat -> 0 <= acc < 2 ^ (7 * Z.of_nat i) ->
  read_loop k i acc (7 * Z.of_nat i) r cnt = (Ok v, r', cnt') ->
  exists p, uform p /\ rd_data r = p ++ rd_data r' /\ rd_end r' = rd_end r /\
    cnt' = (cnt + length p)%nat /\ v = acc + uval p * 2 ^ (7 * Z.of_nat i) /\ v < 2 ^ 64.
Proof.
  induction k as [|k IH]; intros i acc r cnt v r' cnt' Hik Hacc H; cbn [read_loop] in H; [done|].
  destruct (read_full r 1) as [[bs|e] r1] eqn:Hr; [|done].
  apply read_full_Ok in Hr as (Hd & He & Hl). destruct bs as [|b [|]]; try done. simpl hd in H.
  pose proof (b2z_range b). pose proof (pow7_pos i).
  destruct (b2z b <? 128) eqn:Eb; z_bool.
  - destruct ((i =? 9)%nat && (1 <? b2z b)) eqn:E9; [done|].
    assert (b2z b * 2 ^ (7 * Z.of_nat i) < 2 ^ 64 /\ acc + b2z b * 2 ^ (7 * Z.of_nat i) < 2 ^ 64) as [Hlt Hlt2].
    { destruct (decide (i = 9%nat)) as [-> |Hi].
      - simpl in E9. z_bool. change (2 ^ (7 * Z.of_nat 9)) with (2 ^ 63) in *. lia.
      - assert (128 * 2 ^ (7 * Z.of_nat i) <= 2 ^ 63).
        { rewrite <-pow7_step. apply Z.pow_le_mono_r; lia. } nia. }
    rewrite read_step_acc in H by lia. simplify_eq.
    exists [b]. simpl. rewrite Z.mod_small by lia. rewrite Z.mul_0_r, Z.add_0_r.
    split; [by constructor|]. repeat split; done || lia.
  - assert (128 * 2 ^ (7 * Z.of_nat i) <= 2 ^ 64 \/ i = 9%nat) as Hi.
    { destruct (decide (i = 9%nat)); [by right|left]. rewrite <-pow7_step.
      apply Z.pow_le_mono_r; lia. }
    pose proof (Z.mod_pos_bound (b2z b) 128 ltac:(lia)).
    destruct Hi as [Hi| ->]; [|assert (k = 0%nat) as -> by lia; done].
    rewrite land_127 in H by lia. rewrite read_step_acc in H by (lia || nia).
    replace (7 * Z.of_nat i + 7) with (7 * Z.of_nat (S i)) in H by lia.
    apply IH in H as (p & Hp & Hd' & He' & Hc & Hv & Hv64); [|lia|rewrite pow7_step; nia].
    exists (b :: p). simpl. rewrite pow7_step in Hv.
    split; [by constructor|]. split; [by rewrite Hd, Hd'|]. split; [congruence|]. split; [lia|].
    split; [|done]. rewrite Hv. ring.
Qed.

(** A FIN inside an integer is [ErrUnexpectedEOF], and [EOF] only before its
    first byte. *)
Lemma read_loop_truncated k : forall i acc s p q cnt,
  uform (p ++ q) -> q <> [] -> (length p < k)%nat ->
  (read_loop k i acc s (mk_reader p EOF) cnt).1.1
  = Err (UvIO (match i, p with O, [] => EOF | _, _ => ErrUnexpectedEOF end)).
Proof.
  induction k as [|k IH]; intros i acc s p q cnt Hp Hq Hk; [simpl in Hk; lia|].
  destruct p as [|b p]; cbn [read_loop].
  - simpl. by destruct i.
  - rewrite read_full_cons. cbn [hd].
    simpl in Hp. inversion Hp as [? Hb Hnil|? ? Hb Hf]; simplify_eq.
    { destruct p, q; done. }
    rewrite (proj2 (Z.ltb_ge _ _)) by done.
    rewrite (IH _ _ _ p q) by (simpl in Hk; done || lia). by destruct i.
Qed.

End Uvarint.

Export Uvarint (AppendUvarint).
#[global] Arguments AppendUvarint : simpl never.

(** ** Families, protocols, selectors and codes *)

Abbreviation Family := Z (only parsing).
Abbreviation Protocol := Z (only parsing).
Abbreviation FrameType := Z (only parsing).

Definition ReservedFamily : Z := 19.
Definition MaxHeaderLen : nat := 10.
Definition maxFieldLen : nat := 5.
Definition MaxUint32 : Z := 2 ^ 32 - 1.

Record Selector := mk_selector { sel_family : Z; sel_protocol : Z }.

#[global] Instance Selector_eq_dec : EqDecision Selector.
Proof. solve_decision. Defined.
#[global] Program Instance Selector_countable : Countable Selector :=
  inj_countable' (fun s => (sel_family s, sel_protocol s)) (fun p => mk_selector p.1 p.2) _.
Next Obligation. by intros []. Qed.

Record Code := mk_code { code_value : Z; code_protocol : bool }.

#[global] Instance Code_eq_dec : EqDecision Code.
Proof. solve_decision. Defined.

Definition Unspecified := mk_code 0 false.
Definition Refused := mk_code 1 false.
Definition Timeout := mk_code 2 false.
Definition BadSelector := mk_code 8 false.
Definition UnsupportedSelector := mk_code 9 false.
Definition Closing := mk_code 10 false.
Definition ControlViolation := mk_code 11 false.
Definition NoSharedProtocols := mk_code 12 false.
Definition Duplicate := mk_code 13 false.

(** The keys of [stackCodeNames], in the order of the source. *)
Definition stackCodeNames : list Z := [0; 1; 2; 8; 9; 10; 11; 12; 13].

Definition is_stack_code (v : Z) : bool := bool_decide (v ∈ stackCodeNames).

(** [ProtocolCode(value uint16)]. *)
Definition ProtocolCode (value : Z) : Code := mk_code value true.

Definition Wire (c : Code) : Z :=
  if code_protocol c then Z.lor (u64 (Z.shiftl (code_value c) 1)) 1
  else u64 (Z.shiftl (code_value c) 1).

Definition ParseCode (raw : Z) : Code :=
  let value := Z.shiftr raw 1 in
  if negb (Z.land raw 1 =? 0) then mk_code value true
  else if negb (is_stack_code value) then Unspecified
  else mk_code value false.

(** ** Frames *)

Definition AppendFrameHead (dst : bytes) (typ : Z) (length : Z) : bytes :=
  AppendUvarint (AppendUvarint dst typ) (u64 length).

Definition AppendFrame (dst : bytes) (typ : Z) (payload : bytes) : bytes :=
  AppendFrameHead dst typ (Z.of_nat (length payload)) ++ payload.

Inductive frame_err :=
| FrameIO (e : io_err)
| FrameOverflow                (* binary's errOverflow *)
| ErrFrameTooLarge
| errFrameLength.

Definition uv_frame_err (e : Uvarint.uv_err) : frame_err :=
  match e with Uvarint.UvIO e => FrameIO e | Uvarint.UvOverflow => FrameOverflow end.

Definition readMinimalUvarint (r : reader) : result frame_err Z * reader :=
  match Uvarint.ReadUvarint r with
  | (Err e, r', _) => (Err (uv_frame_err e), r')
  | (Ok value, r', n) =>
      if (n =? length (AppendUvarint [] value))%nat then (Ok value, r')
      else (Err errFrameLength, r')
  end.

Definition unexpected_eof (e : frame_err) : frame_err :=
  match e with FrameIO EOF => FrameIO ErrUnexpectedEOF | e => e end.

Definition ReadFrame (r : reader) (maxLen : Z) : result frame_err (Z * bytes) * reader :=
  match readMinimalUvarint r with
  | (Err e, r1) => (Err e, r1)
  | (Ok typ, r1) =>
      match readMinimalUvarint r1 with
      | (Err e, r2) => (Err (unexpected_eof e), r2)
      | (Ok len, r2) =>
          if u64 maxLen <? len then (Err ErrFrameTooLarge, r2)
          else match read_full r2 (Z.to_nat len) with
               | (Err e, r3) => (Err (unexpected_eof (FrameIO e)), r3)
               | (Ok payload, r3) => (Ok (typ, payload), r3)
               end
      end
  end.

(** ** Stream headers *)

Definition AppendSelector (dst : bytes) (s : Selector) : bytes :=
  AppendUvarint (AppendUvarint dst (sel_family s)) (sel_protocol s).

Inductive header_err :=
| NotMinimal
| Exceeds32
| FamilyReserved.

(** The [for] loop of [parseField] over [b[:min(len(b), maxFieldLen)]]; [None]
    when it ends without returning. *)
Fixpoint parse_field_loop (bs : bytes) (i : nat) (value : Z) : option (result header_err (Z * nat)) :=
  match bs with
  | [] => None
  | b :: bs' =>
      let value := Z.lor value (u64 (Z.shiftl (Z.land (b2z b) 127) (7 * Z.of_nat i))) in
      if b2z b <? 128 then
        Some (if (0 <? i)%nat && (b2z b =? 0) then Err NotMinimal
              else if MaxUint32 <? value then Err Exceeds32
              else Ok (u32 value, S i))
      else parse_field_loop bs' (S i) value
  end.

Definition parseField (b : bytes) : result header_err (Z * nat) :=
  match parse_field_loop (take maxFieldLen b) 0 0 with
  | Some r => r
  | None => if (maxFieldLen <=? length b)%nat then Err Exceeds32 else Ok (0, 0%nat)
  end.

(** Length 0 without an error is "only part of a valid header". *)
Definition ParseSelector (b : bytes) : result header_err (Selector * nat) :=
  let partial := (mk_selector 0 0, 0%nat) in
  match parseField b with
  | Err e => Err e
  | Ok (_, O) => Ok partial
  | Ok (family, n) =>
      if family =? ReservedFamily then Err FamilyReserved
      else match parseField (drop n b) with
           | Err e => Err e
           | Ok (_, O) => Ok partial
           | Ok (protocol, m) => Ok (mk_selector family protocol, (n + m)%nat)
           end
  end.

Inductive sel_err := SelIO (e : io_err) | SelHeader (e : header_err).

(** [ReadSelector]: [None] is its [panic("unreachable")]. *)
Fixpoint read_selector_loop (k : nat) (head : bytes) (r : reader)
    : option (result sel_err Selector) * reader :=
  match k with
  | O => (None, r)
  | S k' =>
      match read_full r 1 with
      | (Err e, r') =>
          let e := match e, head with EOF, _ :: _ => ErrUnexpectedEOF | e, _ => e end in
          (Some (Err (SelIO e)), r')
      | (Ok b, r') =>
          match ParseSelector (head ++ b) with
          | Err e => (Some (Err (SelHeader e)), r')
          | Ok (sel, S _) => (Some (Ok sel), r')
          | Ok (_, O) => read_selector_loop k' (head ++ b) r'
          end
      end
  end.

Definition ReadSelector (r : reader) : option (result sel_err Selector) * reader :=
  read_selector_loop MaxHeaderLen [] r.

(** ** Facts about codes *)

(** The codes an endpoint can hold: the named stack codes, and protocol values
    that fit the 63 bits ParseCode can produce. *)
Definition code_ok (c : Code) : bool :=
  if code_protocol c then (0 <=? code_value c) && (code_value c <? 2 ^ 63)
  else is_stack_code (code_value c).

Lemma is_stack_code_range v : is_stack_code v = true -> 0 <= v < 14.
Proof.
  unfold is_stack_code. rewrite bool_decide_eq_true. unfold stackCodeNames.
  rewrite !elem_of_cons, elem_of_nil. lia.
Qed.

Lemma shift1_or1 v : 0 <= v -> Z.lor (Z.shiftl v 1) 1 = 2 * v + 1.
Proof.
  intros. rewrite Z.lor_comm. rewrite lor_disjoint; lia.
Qed.

Lemma code_ok_range c : code_ok c = true -> 0 <= code_value c < 2 ^ 63.
Proof.
  unfold code_ok. destruct (code_protocol c); intros H; z_bool; [lia|].
  apply is_stack_code_range in H. lia.
Qed.

Lemma Wire_value c : code_ok c = true -> Wire c = 2 * code_value c + (if code_protocol c then 1 else 0).
Proof.
  intros H. pose proof (code_ok_range c H). unfold Wire.
  rewrite u64_small by (rewrite Z.shiftl_mul_pow2; lia).
  destruct (code_protocol c); [by rewrite shift1_or1 by lia|].
  rewrite Z.shiftl_mul_pow2; lia.
Qed.

Lemma land_1 z : Z.land z 1 = z mod 2.
Proof. change 1 with (Z.ones 1). by rewrite Z.land_ones by lia. Qed.

Lemma ParseCode_even v : 0 <= v -> ParseCode (2 * v) = if is_stack_code v then mk_code v false else Unspecified.
Proof.
  intros. unfold ParseCode. rewrite land_1, Z.shiftr_div_pow2 by lia. change (2 ^ 1) with 2.
  rewrite (Z.mul_comm 2 v), Z.mod_mul, Z.div_mul by lia. simpl. by destruct (is_stack_code v).
Qed.

Lemma ParseCode_odd v : 0 <= v -> ParseCode (2 * v + 1) = mk_code v true.
Proof.
  intros. unfold ParseCode. rewrite land_1, Z.shiftr_div_pow2 by lia. change (2 ^ 1) with 2.
  replace (2 * v + 1) with (1 + v * 2) by lia.
  rewrite Z.mod_add, Z.div_add by lia. simpl. done.
Qed.

Lemma ParseCode_Wire_ok c : code_ok c = true -> ParseCode (Wire c) = c.
Proof.
  intros H. rewrite (Wire_value c H). pose proof (code_ok_range c H). destruct c as [v []]; simpl in *.
  - apply ParseCode_odd. lia.
  - rewrite Z.add_0_r, ParseCode_even by lia. unfold code_ok in H; simpl in H. by rewrite H.
Qed.

Lemma ParseCode_code_ok raw : 0 <= raw < 2 ^ 64 -> code_ok (ParseCode raw) = true.
Proof.
  intros Hr. unfold ParseCode. destruct (negb (Z.land raw 1 =? 0)).
  - unfold code_ok; simpl. rewrite Z.shiftr_div_pow2 by lia. change (2 ^ 1) with 2.
    apply andb_true_iff. split; [apply Z.leb_le|apply Z.ltb_lt]; Z.div_mod_to_equations; lia.
  - destruct (is_stack_code (Z.shiftr raw 1)) eqn:E; simpl; [|done]. by unfold code_ok; simpl.
Qed.

(** ** Facts about minimal integers *)

Lemma last_cons_ne {A} (x : A) l : l <> [] -> last (x :: l) = last l.
Proof. by destruct l. Qed.

Lemma uform_last_pos p : Uvarint.uform p -> last p <> Some Byte.x00 -> 1 <= Uvarint.uval p.
Proof.
  induction 1 as [b Hb|b p Hb Hp IH]; simpl; intros Hl.
  - assert (b2z b <> 0). { intros E. apply Hl. f_equal. by apply b2z_inj. }
    pose proof (b2z_range b). rewrite Z.mod_small; lia.
  - assert (p <> []) by (destruct Hp; done).
    rewrite last_cons_ne in Hl by done. apply IH in Hl.
    pose proof (Z.mod_pos_bound (b2z b) 128). lia.
Qed.

Definition minimal (p : bytes) : Prop := last p <> Some Byte.x00 \/ length p = 1%nat.

Lemma uform_minimal_unique p n :
  Uvarint.uform p -> minimal p -> (length p <= S n)%nat -> p = Uvarint.append_loop n (Uvarint.uval p).
Proof.
  intros Hp. revert n. induction Hp as [b Hb|b p Hb Hp IH]; intros n Hm Hl; simpl Uvarint.uval.
  - pose proof (b2z_range b). rewrite Z.mod_small, Z.mul_0_r, Z.add_0_r by lia.
    destruct n; simpl; rewrite ?(proj2 (Z.ltb_lt _ _)) by done; by rewrite z2b_b2z.
  - pose proof (Uvarint.uform_length p Hp). assert (p <> []) by (by destruct Hp).
    destruct Hm as [Hm|Hm]; [|simpl in Hm; lia]. rewrite last_cons_ne in Hm by done.
    pose proof (uform_last_pos p Hp Hm). pose proof (Z.mod_pos_bound (b2z b) 128 ltac:(lia)).
    pose proof (b2z_range b).
    destruct n as [|n]; [simpl in Hl; lia|]. simpl.
    rewrite (proj2 (Z.ltb_ge _ _)) by lia. f_equal.
    + apply b2z_inj. rewrite Uvarint.append_cont.
      rewrite (Z.mul_comm 128), Z.mod_add, Z.mod_mod by lia. Z.div_mod_to_equations; lia.
    + rewrite Z.shiftr_div_pow2 by lia. change (2 ^ 7) with 128.
      rewrite (Z.mul_comm 128), Z.div_add, (Z.div_small (_ mod 128)) by lia. simpl Z.add.
      apply IH; [by left|simpl in Hl; lia].
Qed.

Lemma append_loop_minimal n x : 0 <= x < 2 ^ (7 * (Z.of_nat n + 1)) -> minimal (Uvarint.append_loop n x).
Proof.
  enough (forall x, 1 <= x < 2 ^ (7 * (Z.of_nat n + 1)) -> last (Uvarint.append_loop n x) <> Some Byte.x00) as H.
  { intros Hx. destruct (decide (x = 0)) as [->|]; [right; by destruct n|left; apply H; lia]. }
  clear x. induction n as [|n IH]; intros x Hx; simpl.
  - change (7 * (Z.of_nat 0 + 1)) with 7 in Hx. intros E; injection E as E.
    apply (f_equal b2z) in E. rewrite b2z_z2b_small in E by lia. change (b2z Byte.x00) with 0 in E. lia.
  - destruct (x <? 128) eqn:Ex; z_bool.
    + simpl. intros E; injection E as E. apply (f_equal b2z) in E. rewrite b2z_z2b_small in E by lia.
      change (b2z Byte.x00) with 0 in E. lia.
    + rewrite last_cons_ne by (by destruct n; simpl; repeat case_match).
      apply IH. rewrite Z.shiftr_div_pow2 by lia. change (2 ^ 7) with 128.
      replace (7 * (Z.of_nat (S n) + 1)) with (7 + 7 * (Z.of_nat n + 1)) in Hx by lia.
      rewrite Z.pow_add_r in Hx by lia. change (2 ^ 7) with 128 in Hx.
      split; [apply Z.div_le_lower_bound; lia|apply Z.div_lt_upper_bound; lia].
Qed.

Lemma append_loop_length n x m :
  0 <= x < 2 ^ (7 * Z.of_nat m) -> (1 <= m)%nat -> (length (Uvarint.append_loop n x) <= m)%nat.
Proof.
  revert x m. induction n as [|n IH]; intros x m Hx Hm; simpl; [lia|].
  destruct (x <? 128) eqn:E; z_bool; simpl; [lia|].
  destruct m as [|[|m]]; [lia|simpl in Hx; lia|].
  enough ((length (Uvarint.append_loop n (Z.shiftr x 7)) <= S m)%nat) by lia.
  apply IH; [|lia]. rewrite Z.shiftr_div_pow2 by lia. change (2 ^ 7) with 128.
  rewrite Uvarint.pow7_step in Hx.
  split; [apply Z.div_pos; lia|apply Z.div_lt_upper_bound; lia].
Qed.

Lemma AppendUvarint_length x : 0 <= x < 2 ^ 64 -> (length (AppendUvarint [] x) <= 10)%nat.
Proof. intros. apply append_loop_length; [|lia]. change (7 * Z.of_nat 10) with 70. lia. Qed.

Lemma append_loop_nonempty n x : Uvarint.append_loop n x <> [].
Proof. destruct n; simpl; [done|]. by destruct (x <? 128). Qed.

Lemma AppendUvarint_nonempty dst x : AppendUvarint dst x <> [].
Proof. intros E. apply app_eq_nil in E as [_ E]. by apply append_loop_nonempty in E. Qed.

Lemma AppendUvarint_dst dst x : AppendUvarint dst x = dst ++ AppendUvarint [] x.
Proof. reflexivity. Qed.

(** ** Facts about frames *)

Lemma readMinimalUvarint_append x rest e :
  0 <= x < 2 ^ 64 ->
  readMinimalUvarint (mk_reader (AppendUvarint [] x ++ rest) e) = (Ok x, mk_reader rest e).
Proof.
  intros Hx. destruct (Uvarint.AppendUvarint_spec x Hx) as [Hf Hv].
  pose proof (AppendUvarint_length x Hx).
  unfold readMinimalUvarint, Uvarint.ReadUvarint. change 0 with (7 * Z.of_nat 0) at 2.
  rewrite Uvarint.read_loop_uform; [|done|done|done|done|].
  - rewrite Hv. simpl (2 ^ (7 * Z.of_nat 0)). rewrite Z.mul_1_r, Z.add_0_l, Nat.add_0_l, Nat.eqb_refl. done.
  - rewrite Hv. simpl (2 ^ (7 * Z.of_nat 0)). lia.
Qed.

Lemma readMinimalUvarint_Ok r x r' :
  readMinimalUvarint r = (Ok x, r') ->
  rd_data r = AppendUvarint [] x ++ rd_data r' /\ rd_end r' = rd_end r /\ 0 <= x < 2 ^ 64.
Proof.
  unfold readMinimalUvarint, Uvarint.ReadUvarint. intros H.
  destruct (Uvarint.read_loop _ _ _ _ _ _) as [[[v|e] r1] n] eqn:E; [|done].
  change 0 with (7 * Z.of_nat 0) in E at 2.
  apply Uvarint.read_loop_Ok in E as (p & Hp & Hd & He & Hn & Hv & Hlt); [|done|done].
  change (2 ^ (7 * Z.of_nat 0)) with 1 in Hv. rewrite Z.mul_1_r, Z.add_0_l in Hv.
  destruct (n =? _)%nat eqn:En; [|done]. z_bool. simplify_eq.
  pose proof (Uvarint.uval_nonneg p).
  destruct (Uvarint.AppendUvarint_spec (Uvarint.uval p)) as [Hf Hv]; [lia|].
  assert (p = AppendUvarint [] (Uvarint.uval p)) as Hpe.
  { apply Uvarint.uform_inj; [done|done|simpl in *; lia|done]. }
  rewrite <-Hpe. split; [done|]. split; [done|lia].
Qed.

(** A truncated minimal integer. *)
Lemma readMinimalUvarint_truncated x p q :
  0 <= x < 2 ^ 64 -> AppendUvarint [] x = p ++ q -> q <> [] ->
  (readMinimalUvarint (mk_reader p EOF)).1
  = Err (FrameIO (match p with [] => EOF | _ => ErrUnexpectedEOF end)).
Proof.
  intros Hx Hpq Hq. destruct (Uvarint.AppendUvarint_spec x Hx) as [Hf _].
  pose proof (AppendUvarint_length x Hx) as Hl. rewrite Hpq in Hf, Hl. rewrite length_app in Hl.
  assert ((0 < length q)%nat) by (destruct q; simpl; [done|lia]).
  unfold readMinimalUvarint, Uvarint.ReadUvarint.
  pose proof (Uvarint.read_loop_truncated 10 0 0 0 p q 0 Hf Hq ltac:(lia)) as E.
  destruct (Uvarint.read_loop _ _ _ _ _ _) as [[[v|e] r1] n]; simpl in *; by simplify_eq.
Qed.

Lemma AppendFrame_dst dst typ payload : AppendFrame dst typ payload = dst ++ AppendFrame [] typ payload.
Proof.
  unfold AppendFrame, AppendFrameHead. rewrite (AppendUvarint_dst (AppendUvarint dst typ)), (AppendUvarint_dst (AppendUvarint [] typ)), (AppendUvarint_dst dst).
  by rewrite <-!app_assoc.
Qed.

Lemma AppendFrame_split typ payload :
  AppendFrame [] typ payload
  = AppendUvarint [] typ ++ AppendUvarint [] (u64 (Z.of_nat (length payload))) ++ payload.
Proof. unfold AppendFrame, AppendFrameHead. rewrite (AppendUvarint_dst (AppendUvarint _ _)). by rewrite <-app_assoc. Qed.

(** ** Facts about stream headers *)

Lemma parse_loop_uform p : Uvarint.uform p -> forall i acc rest,
  (i + length p <= 5)%nat -> 0 <= acc < 2 ^ (7 * Z.of_nat i) ->
  (last p <> Some Byte.x00 \/ (i + length p = 1)%nat) ->
  acc + Uvarint.uval p * 2 ^ (7 * Z.of_nat i) <= MaxUint32 ->
  parse_field_loop (p ++ rest) i acc
  = Some (Ok (acc + Uvarint.uval p * 2 ^ (7 * Z.of_nat i), (i + length p)%nat)).
Proof.
  induction 1 as [b Hb|b p Hb Hp IH]; intros i acc rest Hl Hacc Hm Hlt; simpl in *;
    pose proof (b2z_range b); pose proof (Uvarint.pow7_pos i);
    pose proof (Z.mod_pos_bound (b2z b) 128 ltac:(lia));
    assert (128 * 2 ^ (7 * Z.of_nat i) <= 2 ^ 35)
      by (rewrite <-Uvarint.pow7_step; apply Z.pow_le_mono_r; lia);
    rewrite Uvarint.land_127 by lia; rewrite Uvarint.read_step_acc by (lia || nia).
  - rewrite (proj2 (Z.ltb_lt _ _)) by done.
    destruct ((0 <? i)%nat && (b2z b =? 0)) eqn:E.
    { apply andb_true_iff in E as [Hi E]. apply Nat.ltb_lt in Hi. apply Z.eqb_eq in E.
      destruct Hm as [Hm|]; [|lia]. exfalso. apply Hm. f_equal. by apply b2z_inj. }
    rewrite Z.mul_0_r, Z.add_0_r in *. rewrite (proj2 (Z.ltb_ge _ _)) by lia.
    rewrite u32_small by (unfold MaxUint32 in *; nia). by rewrite Nat.add_1_r.
  - rewrite (proj2 (Z.ltb_ge _ _)) by done. assert (p <> []) by (by destruct Hp).
    pose proof (Uvarint.uform_length p Hp). pose proof (Uvarint.uval_nonneg p).
    rewrite IH; rewrite ?Uvarint.pow7_step; [|lia|nia| |nia].
    + do 2 f_equal. f_equal; [ring|lia].
    + destruct Hm as [Hm|]; [|lia]. rewrite last_cons_ne in Hm by done. by left.
Qed.

Lemma parse_loop_inv bs : forall i acc,
  (i + length bs <= 5)%nat -> 0 <= acc < 2 ^ (7 * Z.of_nat i) ->
  match parse_field_loop bs i acc with
  | Some (Ok (v, n)) => exists p rest, bs = p ++ rest /\ Uvarint.uform p /\ n = (i + length p)%nat /\
      v = acc + Uvarint.uval p * 2 ^ (7 * Z.of_nat i) /\ 0 <= v <= MaxUint32 /\
      (last p <> Some Byte.x00 \/ (i + length p = 1)%nat)
  | Some (Err _) => True
  | None => Forall (fun b => 128 <= b2z b) bs
  end.
Proof.
  induction bs as [|b bs IH]; intros i acc Hl Hacc; simpl in *; [done|].
  pose proof (b2z_range b). pose proof (Uvarint.pow7_pos i).
  pose proof (Z.mod_pos_bound (b2z b) 128 ltac:(lia)).
  assert (128 * 2 ^ (7 * Z.of_nat i) <= 2 ^ 35)
    by (rewrite <-Uvarint.pow7_step; apply Z.pow_le_mono_r; lia).
  rewrite Uvarint.land_127 by lia. rewrite Uvarint.read_step_acc by (lia || nia).
  destruct (b2z b <? 128) eqn:Eb; z_bool.
  - destruct ((0 <? i)%nat && (b2z b =? 0)) eqn:E; [done|].
    destruct (MaxUint32 <? _) eqn:Em; [done|]. z_bool.
    rewrite Z.mod_small in * by lia.
    exists [b], bs. split; [done|]. split; [by constructor|]. simpl. rewrite Z.mod_small by lia.
    rewrite u32_small by (unfold MaxUint32 in *; nia).
    split; [lia|]. split; [lia|]. split; [unfold MaxUint32 in *; nia|].
    destruct i; [right; lia|left]. simpl in E. z_bool. intros Heq. apply E. injection Heq as ->. done.
  - specialize (IH (S i) (acc + b2z b mod 128 * 2 ^ (7 * Z.of_nat i))).
    rewrite Uvarint.pow7_step in IH. specialize (IH ltac:(lia) ltac:(nia)).
    destruct (parse_field_loop _ _ _) as [[[v n]|]|]; [|done|by constructor].
    destruct IH as (p & rest & -> & Hp & -> & -> & Hv & Hm).
    pose proof (Uvarint.uform_length p Hp). assert (p <> []) by (by destruct Hp).
    exists (b :: p), rest. simpl. split; [done|]. split; [by constructor|]. split; [lia|].
    split; [ring|]. split; [done|]. rewrite last_cons_ne by done. destruct Hm; [by left|lia].
Qed.

Lemma take_5_app (p rest : bytes) :
  (length p <= 5)%nat -> take 5 (p ++ rest) = p ++ take (5 - length p) rest.
Proof. intros. rewrite take_app. by rewrite (take_ge p) by lia. Qed.

Lemma field_facts v : 0 <= v < 2 ^ 32 ->
  Uvarint.uform (AppendUvarint [] v) /\ Uvarint.uval (AppendUvarint [] v) = v /\
  minimal (AppendUvarint [] v) /\ (length (AppendUvarint [] v) <= 5)%nat.
Proof.
  intros Hv. destruct (Uvarint.AppendUvarint_spec v) as [Hf He]; [lia|].
  split; [done|]. split; [done|]. split.
  - apply append_loop_minimal. change (7 * (Z.of_nat 9 + 1)) with 70. lia.
  - apply append_loop_length; [change (7 * Z.of_nat 5) with 35; lia|lia].
Qed.

Lemma parseField_append v rest :
  0 <= v < 2 ^ 32 ->
  parseField (AppendUvarint [] v ++ rest) = Ok (v, length (AppendUvarint [] v)).
Proof.
  intros Hv. destruct (field_facts v Hv) as (Hf & He & Hm & Hl).
  unfold parseField, maxFieldLen. rewrite take_5_app by done.
  rewrite parse_loop_uform; [|done|done|done|done|].
  - rewrite He. simpl (2 ^ _). by rewrite Z.mul_1_r.
  - rewrite He. unfold MaxUint32. simpl (2 ^ (7 * Z.of_nat 0)). lia.
Qed.

Lemma parseField_Ok b v n :
  parseField b = Ok (v, S n) ->
  0 <= v < 2 ^ 32 /\ S n = length (AppendUvarint [] v) /\ (S n <= 5)%nat /\
  exists rest, b = AppendUvarint [] v ++ rest.
Proof.
  unfold parseField, maxFieldLen. intros H.
  pose proof (parse_loop_inv (take 5 b) 0 0) as I. rewrite length_take in I.
  specialize (I ltac:(lia) ltac:(done)). change (2 ^ (7 * Z.of_nat 0)) with 1 in I.
  destruct (parse_field_loop _ _ _) as [[[v' n']|]|]; [|done|by split_matches H].
  destruct I as (p & rest & Hb & Hp & Hn & Hv & Hr & Hm). simplify_eq.
  rewrite Z.mul_1_r, Z.add_0_l in *.
  assert (length p <= 5)%nat.
  { apply (f_equal length) in Hb. rewrite length_take, length_app in Hb. lia. }
  assert (p = AppendUvarint [] (Uvarint.uval p)) as Hpe.
  { apply uform_minimal_unique; [done|by destruct Hm; [left|right]|lia]. }
  unfold MaxUint32 in Hr. split; [lia|]. rewrite <-Hpe. split; [done|]. split; [lia|].
  exists (rest ++ drop 5 b). by rewrite app_assoc, <-Hb, take_drop.
Qed.

Lemma parseField_long b : (5 <= length b)%nat -> forall v, parseField b <> Ok (v, 0%nat).
Proof.
  intros Hb v. unfold parseField, maxFieldLen. rewrite (proj2 (Nat.leb_le _ _)) by done.
  pose proof (parse_loop_inv (take 5 b) 0 0) as I. rewrite length_take in I.
  specialize (I ltac:(lia) ltac:(done)).
  destruct (parse_field_loop _ _ _) as [[[v' n']|]|]; [|done|done].
  destruct I as (p & rest & _ & Hp & Hn & _). apply Uvarint.uform_length in Hp.
  intros E. injection E as _ E. lia.
Qed.

Lemma parse_loop_cont bs i acc : Forall (fun b => 128 <= b2z b) bs -> parse_field_loop bs i acc = None.
Proof.
  revert i acc. induction bs as [|b bs IH]; intros i acc H; [done|]. apply Forall_cons in H as [Hb H].
  simpl. rewrite (proj2 (Z.ltb_ge _ _)) by done. by apply IH.
Qed.

Lemma uform_proper_prefix p q : Uvarint.uform (p ++ q) -> q <> [] -> Forall (fun b => 128 <= b2z b) p.
Proof.
  revert q. induction p as [|b p IH]; intros q Hf Hq; [constructor|].
  simpl in Hf. inversion Hf as [? Hb E|? ? Hb Hf']; simplify_eq.
  - by destruct p, q.
  - constructor; [done|]. by eapply IH.
Qed.

Lemma parseField_partial v p q :
  0 <= v < 2 ^ 32 -> AppendUvarint [] v = p ++ q -> q <> [] -> parseField p = Ok (0, 0%nat).
Proof.
  intros Hv E Hq. destruct (field_facts v Hv) as (Hf & _ & _ & Hl). rewrite E in Hf, Hl.
  rewrite length_app in Hl. assert (0 < length q)%nat by (destruct q; simpl; [done|lia]).
  unfold parseField, maxFieldLen. rewrite take_ge by lia.
  rewrite parse_loop_cont by (by eapply uform_proper_prefix).
  by rewrite (proj2 (Nat.leb_gt _ _)) by lia.
Qed.

(** A selector that can name a stream: both numbers are [uint32]s and the
    family is not the reserved one. *)
Definition selector_ok (s : Selector) : Prop :=
  0 <= sel_family s < 2 ^ 32 /\ 0 <= sel_protocol s < 2 ^ 32 /\ sel_family s <> ReservedFamily.

Lemma AppendSelector_split s :
  AppendSelector [] s = AppendUvarint [] (sel_family s) ++ AppendUvarint [] (sel_protocol s).
Proof. unfold AppendSelector. by rewrite (AppendUvarint_dst (AppendUvarint _ _)). Qed.

Lemma parseField_append_S v rest :
  0 <= v < 2 ^ 32 -> exists n, length (AppendUvarint [] v) = S n /\
  parseField (AppendUvarint [] v ++ rest) = Ok (v, S n).
Proof.
  intros Hv. rewrite parseField_append by done.
  destruct (AppendUvarint [] v) as [|b l] eqn:E; [by apply AppendUvarint_nonempty in E|].
  by exists (length l).
Qed.

Lemma ParseSelector_append s rest :
  selector_ok s ->
  ParseSelector (AppendSelector [] s ++ rest) = Ok (s, length (AppendSelector [] s)).
Proof.
  intros (Hf & Hp & Hr). rewrite AppendSelector_split, <-app_assoc. unfold ParseSelector.
  destruct (parseField_append_S (sel_family s) (AppendUvarint [] (sel_protocol s) ++ rest) Hf) as (n & Hn & ->).
  rewrite (proj2 (Z.eqb_neq _ _)) by done. rewrite <-Hn, drop_app_length.
  destruct (parseField_append_S (sel_protocol s) rest Hp) as (m & Hm & ->).
  rewrite length_app, Hn, Hm. by destruct s.
Qed.

Lemma ParseSelector_partial s p q :
  selector_ok s -> AppendSelector [] s = p ++ q -> q <> [] ->
  ParseSelector p = Ok (mk_selector 0 0, 0%nat).
Proof.
  intros (Hf & Hp & Hr) E Hq. rewrite AppendSelector_split in E. unfold ParseSelector.
  apply app_eq_inv in E as [(k & E1 & E2)|(k & E1 & E2)].
  - destruct k as [|b k].
    + rewrite app_nil_r in E1. subst p. destruct (parseField_append_S (sel_family s) [] Hf) as (n & Hn & E).
      rewrite app_nil_r in E. rewrite E. rewrite (proj2 (Z.eqb_neq _ _)) by done.
      by rewrite drop_ge by lia.
    + by rewrite (parseField_partial (sel_family s) p (b :: k)).
  - subst p. destruct (parseField_append_S (sel_family s) k Hf) as (n & Hn & ->).
    rewrite (proj2 (Z.eqb_neq _ _)) by done. rewrite <-Hn, drop_app_length.
    by rewrite (parseField_partial (sel_protocol s) k q).
Qed.

Lemma ParseSelector_Ok b s n :
  ParseSelector b = Ok (s, S n) ->
  selector_ok s /\ S n = length (AppendSelector [] s) /\ exists rest, b = AppendSelector [] s ++ rest.
Proof.
  unfold ParseSelector. intros H.
  destruct (parseField b) as [[f [|n1]]|] eqn:Ef; try done.
  destruct (f =? ReservedFamily) eqn:Er; [done|]. z_bool.
  destruct (parseField (drop (S n1) b)) as [[p [|m]]|] eqn:Ep; try done. simplify_eq.
  apply parseField_Ok in Ef as (Hf & Hn & _ & rest & ->).
  rewrite Hn, drop_app_length in Ep.
  apply parseField_Ok in Ep as (Hp & Hm & _ & rest' & ->).
  split; [done|]. rewrite AppendSelector_split, length_app; simpl. split; [lia|].
  exists rest'. by rewrite app_assoc.
Qed.

Lemma ParseSelector_long b s : (10 <= length b)%nat -> ParseSelector b <> Ok (s, 0%nat).
Proof.
  intros Hb H. unfold ParseSelector in H.
  destruct (parseField b) as [[f [|n1]]|] eqn:Ef; [by apply parseField_long in Ef; [|lia]| |done].
  destruct (f =? ReservedFamily) eqn:Er; [done|].
  apply parseField_Ok in Ef as (_ & _ & Hn & _).
  destruct (parseField (drop (S n1) b)) as [[p [|m]]|] eqn:Ep; [|done|done].
  apply parseField_long in Ep; [done|]. rewrite length_drop. lia.
Qed.

Lemma read_selector_loop_read s q : forall k head rest e,
  selector_ok s -> AppendSelector [] s = head ++ q -> q <> [] -> (length q <= k)%nat ->
  read_selector_loop k head (mk_reader (q ++ rest) e) = (Some (Ok s), mk_reader rest e).
Proof.
  induction q as [|b q IH]; intros k head rest e Hs E Hq Hk; [done|].
  destruct k as [|k]; [simpl in Hk; lia|]. simpl app. cbn [read_selector_loop].
  rewrite read_full_cons. destruct q as [|c q].
  - rewrite <-E. rewrite <-(app_nil_r (AppendSelector [] s)), ParseSelector_append by done.
    rewrite E, length_app, Nat.add_comm. done.
  - rewrite (ParseSelector_partial s (head ++ [b]) (c :: q)); [|done| |done].
    + apply IH; [done|by rewrite <-app_assoc|done|simpl in *; lia].
    + by rewrite <-app_assoc.
Qed.

Lemma read_selector_loop_Ok k : forall head r s r',
  ParseSelector head = Ok (mk_selector 0 0, 0%nat) ->
  read_selector_loop k head r = (Some (Ok s), r') ->
  selector_ok s /\ head ++ rd_data r = AppendSelector [] s ++ rd_data r' /\ rd_end r' = rd_end r.
Proof.
  induction k as [|k IH]; intros head r s r' Hh H; cbn [read_selector_loop] in H; [done|].
  destruct (read_full r 1) as [[bs|e] r1] eqn:Hr; [|done].
  apply read_full_Ok in Hr as (Hd & He & Hl). destruct bs as [|b [|]]; try done.
  destruct (ParseSelector (head ++ [b])) as [[s' [|n]]|] eqn:Hp; [| |done].
  - assert (s' = mk_selector 0 0) as -> by (unfold ParseSelector in Hp; split_matches Hp; done).
    apply IH in H as (Hs & Hd' & He'); [|done]. split; [done|].
    rewrite Hd, app_assoc. split; [done|congruence].
  - simplify_eq. apply ParseSelector_Ok in Hp as (Hs & Hn & rest & E). split; [done|].
    split; [|done]. rewrite Hd, app_assoc. f_equal.
    destruct (decide (rest = [])) as [->|Hne]; [by rewrite app_nil_r in E|]. exfalso.
    destruct rest as [|c rest _] using rev_ind; [done|].
    rewrite app_assoc in E. apply app_inj_tail in E as [E _].
    rewrite E, ParseSelector_append in Hh by done. injection Hh as _ Hh.
    rewrite <-Hn in Hh. done.
Qed.

(** ** Properties *)

(** Outcome codes survive the wire: every code an endpoint can hold (a named
    stack code, or a protocol value) is decoded by ParseCode from its own
    encoding, and every 64-bit value received decodes to such a code. *)
Theorem ParseCode_Wire_roundtrip :
  (forall c, code_ok c = true -> ParseCode (Wire c) = c) /\
  (forall raw, 0 <= raw < 2 ^ 64 -> code_ok (ParseCode raw) = true) /\
  (forall v, 0 <= v < 2 ^ 16 -> code_ok (ProtocolCode v) = true).
Proof.
  split; [exact ParseCode_Wire_ok|]. split; [exact ParseCode_code_ok|].
  intros v Hv. unfold code_ok, ProtocolCode; simpl.
  apply andb_true_iff. split; [apply Z.leb_le|apply Z.ltb_lt]; lia.
Qed.

Lemma ReadFrame_append typ payload rest e maxLen :
  0 <= typ < 2 ^ 64 -> 0 <= maxLen < 2 ^ 63 -> Z.of_nat (length payload) <= maxLen ->
  ReadFrame (mk_reader (AppendFrame [] typ payload ++ rest) e) maxLen
  = (Ok (typ, payload), mk_reader rest e).
Proof.
  intros Ht Hm Hl. rewrite AppendFrame_split, <-!app_assoc. unfold ReadFrame.
  rewrite readMinimalUvarint_append by done.
  rewrite u64_small by lia. rewrite readMinimalUvarint_append by lia.
  rewrite u64_small by lia. rewrite (proj2 (Z.ltb_ge _ _)) by lia.
  by rewrite Nat2Z.id, read_full_app.
Qed.

(** Reading a frame that AppendFrame wrote returns its type and payload and
    leaves exactly the bytes after it. *)
Theorem ReadFrame_AppendFrame typ payload rest e maxLen :
  0 <= typ < 2 ^ 64 -> 0 <= maxLen < 2 ^ 63 -> Z.of_nat (length payload) <= maxLen ->
  ReadFrame (mk_reader (AppendFrame [] typ payload ++ rest) e) maxLen
  = (Ok (typ, payload), mk_reader rest e).
Proof. by apply ReadFrame_append. Qed.

Lemma ReadFrame_AppendFrame_witness :
  ReadFrame (mk_reader (AppendFrame [] 300 [Byte.x01; Byte.x02] ++ [Byte.xff]) EOF) 2
  = (Ok (300, [Byte.x01; Byte.x02]), mk_reader [Byte.xff] EOF).
Proof. apply ReadFrame_AppendFrame; simpl; lia. Defined.

Lemma ReadFrame_consumes r maxLen typ payload r' :
  0 <= maxLen < 2 ^ 63 ->
  ReadFrame r maxLen = (Ok (typ, payload), r') ->
  rd_data r = AppendFrame [] typ payload ++ rd_data r' /\ rd_end r' = rd_end r /\
  Z.of_nat (length payload) <= maxLen.
Proof.
  intros Hm H. unfold ReadFrame in H.
  destruct (readMinimalUvarint r) as [[t|] r1] eqn:E1; [|done].
  destruct (readMinimalUvarint r1) as [[len|] r2] eqn:E2; [|done].
  destruct (u64 maxLen <? len) eqn:El; [done|]. z_bool. rewrite u64_small in El by lia.
  destruct (read_full r2 (Z.to_nat len)) as [[p|] r3] eqn:E3; [|done]. simplify_eq.
  apply readMinimalUvarint_Ok in E1 as (H1 & He1 & _).
  apply readMinimalUvarint_Ok in E2 as (H2 & He2 & Hr2).
  apply read_full_Ok in E3 as (H3 & He3 & Hl3).
  rewrite H1, H2, H3, AppendFrame_split, <-!app_assoc.
  rewrite Hl3, Z2Nat.id, u64_small by lia. split; [done|]. split; [congruence|lia].
Qed.

(** Frames have one encoding: whenever ReadFrame accepts, the bytes it
    consumed are AppendFrame of what it returned, so no overlong type or length
    is ever accepted, and the payload is within the caller's limit. *)
Theorem ReadFrame_canonical r maxLen typ payload r' :
  0 <= maxLen < 2 ^ 63 ->
  ReadFrame r maxLen = (Ok (typ, payload), r') ->
  rd_data r = AppendFrame [] typ payload ++ rd_data r' /\ rd_end r' = rd_end r /\
  Z.of_nat (length payload) <= maxLen.
Proof. by apply ReadFrame_consumes. Qed.

Lemma ReadFrame_canonical_witness :
  [Byte.x07; Byte.x01; Byte.x05; Byte.x09] = AppendFrame [] 7 [Byte.x05] ++ [Byte.x09].
Proof.
  apply (ReadFrame_canonical (mk_reader [Byte.x07; Byte.x01; Byte.x05; Byte.x09] EOF) 1 7 [Byte.x05]
           (mk_reader [Byte.x09] EOF)); [lia|reflexivity].
Defined.

(** A FIN inside a frame is io.ErrUnexpectedEOF and a FIN before it is
    io.EOF: this holds at every byte at which a frame within the limit can be
    cut. *)
Theorem ReadFrame_truncated typ payload maxLen p q :
  0 <= typ < 2 ^ 64 -> 0 <= maxLen < 2 ^ 63 -> Z.of_nat (length payload) <= maxLen ->
  AppendFrame [] typ payload = p ++ q -> q <> [] ->
  (ReadFrame (mk_reader p EOF) maxLen).1
  = Err (FrameIO (match p with [] => EOF | _ => ErrUnexpectedEOF end)).
Proof.
  intros Ht Hm Hl E Hq. rewrite AppendFrame_split in E. rewrite u64_small in E by lia.
  unfold ReadFrame. apply app_eq_inv in E as [(k & E1 & E2)|(k & E1 & E2)].
  - destruct k as [|b k].
    + rewrite app_nil_r in E1. subst p. rewrite <-(app_nil_r (AppendUvarint [] typ)) at 1.
      rewrite readMinimalUvarint_append by done. simpl.
      destruct (AppendUvarint [] typ) eqn:En; [by apply AppendUvarint_nonempty in En|done].
    + pose proof (readMinimalUvarint_truncated typ p (b :: k) Ht E1 ltac:(done)) as T.
      destruct (readMinimalUvarint _) as [[]]; simpl in *; by simplify_eq.
  - subst p. rewrite readMinimalUvarint_append by done.
    assert (forall (A : Type) (x y : A), match AppendUvarint [] typ ++ k with [] => x | _ => y end = y) as Hne.
    { intros. destruct (AppendUvarint [] typ) eqn:En; [by apply AppendUvarint_nonempty in En|done]. }
    rewrite Hne. symmetry in E2. apply app_eq_inv in E2 as [(j & J1 & J2)|(j & J1 & J2)].
    + subst k. rewrite readMinimalUvarint_append by lia.
      rewrite u64_small by lia. rewrite (proj2 (Z.ltb_ge _ _)) by lia.
      unfold read_full; simpl. rewrite Nat2Z.id. subst payload. rewrite length_app.
      rewrite (proj2 (Nat.leb_gt _ _)); [by destruct j|]. destruct q; [done|simpl; lia].
    + destruct j as [|b j].
      * rewrite app_nil_r in J1. simpl in J2. subst q. rewrite <-J1.
        rewrite <-(app_nil_r (AppendUvarint [] _)), readMinimalUvarint_append by lia.
        rewrite u64_small by lia. rewrite (proj2 (Z.ltb_ge _ _)) by lia.
        unfold read_full; simpl. rewrite Nat2Z.id.
        rewrite (proj2 (Nat.leb_gt _ _)); [done|]. destruct payload; [done|simpl; lia].
      * pose proof (readMinimalUvarint_truncated (Z.of_nat (length payload)) k (b :: j) ltac:(lia) J1 ltac:(done)) as T.
        destruct (readMinimalUvarint _) as [[]]; simpl in *; simplify_eq. by destruct k.
Qed.

Lemma ReadFrame_truncated_witness :
  (ReadFrame (mk_reader [Byte.x07; Byte.x02; Byte.x05] EOF) 8).1 = Err (FrameIO ErrUnexpectedEOF).
Proof.
  apply (ReadFrame_truncated 7 [Byte.x05; Byte.x06] 8 [Byte.x07; Byte.x02; Byte.x05] [Byte.x06]);
    [lia|lia|simpl; lia|reflexivity|done].
Defined.

(** ReadSelector never reaches its panic("unreachable"): on every input it
    returns a selector or an error. *)
Theorem ReadSelector_total r : (ReadSelector r).1 <> None.
Proof.
  unfold ReadSelector, MaxHeaderLen.
  enough (forall k head r, (length head + S k = 10)%nat -> (read_selector_loop (S k) head r).1 <> None) as H
    by (by apply (H 9%nat [])).
  clear r. induction k as [|k IH]; intros head r Hk; cbn [read_selector_loop];
    (destruct (read_full r 1) as [[bs|e] r1] eqn:Hr; [|done]);
    apply read_full_Ok in Hr as (_ & _ & Hl);
    (destruct (ParseSelector (head ++ bs)) as [[s [|n]]|] eqn:Hp; [|done|done]).
  - apply ParseSelector_long in Hp; [done|]. rewrite length_app. lia.
  - apply IH. rewrite length_app. lia.
Qed.

Lemma ReadSelector_both :
  (forall s rest e, selector_ok s ->
     ReadSelector (mk_reader (AppendSelector [] s ++ rest) e) = (Some (Ok s), mk_reader rest e)) /\
  (forall r s r', ReadSelector r = (Some (Ok s), r') ->
     selector_ok s /\ rd_data r = AppendSelector [] s ++ rd_data r' /\ rd_end r' = rd_end r).
Proof.
  split.
  - intros s rest e Hs. apply read_selector_loop_read; [done|done| |].
    + rewrite AppendSelector_split. intros E. apply app_eq_nil in E as [E _].
      by apply AppendUvarint_nonempty in E.
    + destruct Hs as (Hf & Hp & _). rewrite AppendSelector_split, length_app.
      destruct (field_facts _ Hf) as (_ & _ & _ & ?). destruct (field_facts _ Hp) as (_ & _ & _ & ?).
      unfold MaxHeaderLen. lia.
  - intros r s r' H. by apply read_selector_loop_Ok in H.
Qed.

(** ReadSelector reads back the header AppendSelector writes for any selector
    whose family is not reserved, consuming exactly that header; and whatever it
    accepts is the unique (minimal) header of the selector it returns, whose
    family is not the reserved one. *)
Theorem ReadSelector_exact :
  (forall s rest e, selector_ok s ->
     ReadSelector (mk_reader (AppendSelector [] s ++ rest) e) = (Some (Ok s), mk_reader rest e)) /\
  (forall r s r', ReadSelector r = (Some (Ok s), r') ->
     selector_ok s /\ rd_data r = AppendSelector [] s ++ rd_data r' /\ rd_end r' = rd_end r).
Proof. exact ReadSelector_both. Qed.
