(* ===== verification/Types.v ===== *)
(** * Types: identifiers, verdicts and the strategy interface
    (src/broadcast/types.go, errors.go, observer.go)

    [Wire], [ChunkIdent] and [Strategy] are the Go interfaces of the same name
    as classes of operations.  [StrategyLaws] is the contract that the comment
    of [Strategy] demands of an implementation; the session's theorems are
    proved against it and the Reed-Solomon strategy discharges it. *)

From S2P Require Import Prelude.
From stdpp Require Export strings.
Open Scope Z_scope.

(** ** Identifiers and data *)

Abbreviation PeerID := bytes (only parsing).
Abbreviation MessageID := bytes (only parsing).
Abbreviation ChannelID := bytes (only parsing).

(** [ChunkHandle] is a [uint64]. *)
Abbreviation ChunkHandle := Z (only parsing).

Definition ProtocolV1 : Z := 1.

(** An error value is its message; the sentinels below are compared by it. *)
Abbreviation error := String.string.

Definition ErrChunkMarshal : error := "chunk ID marshal failed"%string.
Definition ErrChunkPeerGone : error := "peer not attached or data length mismatch"%string.
Definition ErrChunkSlotFull : error := "outbound chunk slot full"%string.
Definition ErrChunkWriteFail : error := "chunk write to peer failed"%string.
Definition ErrChunkCancelled : error := "chunk send cancelled"%string.

Inductive Verdict :=
| VerdictAccepted
| VerdictRedundant
| VerdictDecoding
| VerdictSurplus
| VerdictInvalid
| VerdictPending.

#[global] Instance Verdict_eq_dec : EqDecision Verdict.
Proof. solve_decision. Defined.

Record FullMessage := mk_FullMessage {
  fm_channelID : ChannelID;
  fm_messageID : MessageID;
  fm_data : bytes }.

Record ChunkDispatch (CI : Type) := mk_dispatch {
  cd_peer : PeerID;
  cd_chunkID : CI;
  cd_data : bytes }.
Arguments mk_dispatch {CI}.
Arguments cd_peer {CI}.
Arguments cd_chunkID {CI}.
Arguments cd_data {CI}.

Record ChunkProcessError := mk_cpe {
  cpe_peer : PeerID;
  cpe_channelID : ChannelID;
  cpe_messageID : MessageID;
  cpe_err : error }.

Inductive SessionRole := SessionRoleOrigin | SessionRoleRelay.

(** ** Interfaces *)

Class Wire (T : Type) := {
  w_Marshal : T -> result error bytes;
  w_Unmarshal : bytes -> result error T }.

Class ChunkIdentI (CI : Type) := {
  ci_wire :: Wire CI;
  ci_Handle : CI -> ChunkHandle }.

(** The methods of [Strategy].  A method that can index a slice returns [None]
    when it panics.  [TakeChunk]'s last result says whether it called
    [dedup.Cancel()]; [PollChunks] takes the order in which Go's [range] visits
    the peers. *)
Class Strategy (CI R St : Type) := {
  HaveChunk : St -> CI -> option bool;
  DedupKey : St -> CI -> option bytes;
  AttachPeer : St -> PeerID -> option St;
  DetachPeer : St -> PeerID -> bool -> St;
  VerifyChunk : St -> PeerID -> CI -> bytes -> Verdict;
  TakeChunk : St -> PeerID -> CI -> bytes -> option (St * (Verdict * bool * option error) * bool);
  RoutingUpdate : St -> PeerID -> R -> option (St * list ChunkHandle * option error);
  PollChunks : St -> list PeerID -> option (St * list (ChunkDispatch CI));
  PollRouting : St -> bool -> option (St * option R);
  ChunkSent : St -> PeerID -> ChunkHandle -> option error -> option St;
  Progress : St -> Z * Z;
  Decode : St -> result error bytes }.

(** What a strategy promises.  [st_wf] is its own invariant, [st_attached] the
    peers it tracks, [st_done] those of them that were detached as completed,
    [st_complete] whether it has reported completeness. *)
Class StrategyLaws (CI R St : Type) `{!Strategy CI R St} := {
  st_wf : St -> Prop;
  st_attached : St -> gset PeerID;
  st_done : St -> gset PeerID;
  st_complete : St -> bool;

  law_HaveChunk s c : st_wf s -> exists b, HaveChunk s c = Some b;
  law_Attach s p : st_wf s ->
    exists s', AttachPeer s p = Some s' /\ st_wf s' /\ st_attached s' = {[p]} ∪ st_attached s /\
      st_done s' = st_done s ∖ {[p]} /\ st_complete s' = st_complete s /\ Decode s' = Decode s;
  law_Detach s p (b : bool) : st_wf s ->
    let s' := DetachPeer s p b in
    st_wf s' /\ st_complete s' = st_complete s /\ Decode s' = Decode s /\
    st_attached s' = (if b then st_attached s else st_attached s ∖ {[p]}) /\
    st_done s' = (if b then st_done s ∪ ({[p]} ∩ st_attached s) else st_done s ∖ {[p]});
  law_Take s p c d : st_wf s ->
    exists s' v f e x, TakeChunk s p c d = Some (s', (v, f, e), x) /\ st_wf s' /\
      st_attached s' = st_attached s /\ st_done s' = st_done s /\
      (st_complete s = true -> v <> VerdictAccepted /\ f = false /\ s' = s) /\
      (v = VerdictAccepted -> f = st_complete s') /\ (v <> VerdictAccepted -> s' = s);
  law_Routing s p u : st_wf s ->
    exists s' l e, RoutingUpdate s p u = Some (s', l, e) /\ st_wf s' /\
      st_attached s' = st_attached s /\ st_done s' = st_done s /\
      st_complete s' = st_complete s /\ Decode s' = Decode s;
  law_PollChunks s order : st_wf s -> order ≡ₚ elements (st_attached s) ->
    exists s' l, PollChunks s order = Some (s', l) /\ st_wf s' /\
      st_attached s' = st_attached s /\ st_done s' = st_done s /\
      st_complete s' = st_complete s /\ Decode s' = Decode s /\
      Forall (fun d => cd_peer d ∈ st_attached s ∖ st_done s) l /\ NoDup (cd_peer <$> l);
  law_PollRouting s b : st_wf s ->
    exists s' r, PollRouting s b = Some (s', r) /\ st_wf s' /\
      st_attached s' = st_attached s /\ st_done s' = st_done s /\
      st_complete s' = st_complete s /\ Decode s' = Decode s;
  law_ChunkSent s p h e : st_wf s ->
    exists s', ChunkSent s p h e = Some s' /\ st_wf s' /\
      st_attached s' = st_attached s /\ st_done s' = st_done s /\
      st_complete s' = st_complete s /\ Decode s' = Decode s }.

(** [Scheme]: the factories of one channel.  [NewOrigin] may panic. *)
Record Scheme (CI R P St : Type) := mk_Scheme {
  NewOrigin : MessageID -> bytes -> option (result error (St * P));
  NewRelay : MessageID -> P -> option (result error St) }.
Arguments NewOrigin {CI R P St}.
Arguments NewRelay {CI R P St}.
