(* ===== verification/Bitmap.v ===== *)
(** * Bitmap: chunk inventories of the Reed-Solomon strategy (src/broadcast/rs/bitmap.go)

    A bitmap is its bytes; bit [i] is bit [i mod 8] of byte [i / 8].  Indices are
    Go [int]s, so an access outside the slice is the [None] of a panic. *)

From S2P Require Import Prelude.
Open Scope Z_scope.

Abbreviation Bitmap := (list Byte.byte).

(** ** Definitions *)

(** [(n + d - 1) / d] on 64-bit ints; division by zero panics. *)
Definition divCeil (n d : Z) : option Z :=
  if d =? 0 then None else Some (Z.quot (i64 (n + d - 1)) d).

(** [make(Bitmap, n)]: a negative length panics. *)
Definition make_bitmap (n : Z) : option Bitmap :=
  if n <? 0 then None else Some (replicate (Z.to_nat n) Byte.x00).

Definition NewBitmap (n : Z) : option Bitmap :=
  letp k := divCeil n 8 in make_bitmap k.

(** [b[i]] with a Go index. *)
Definition index {A} (l : list A) (i : Z) : option A :=
  if i <? 0 then None else l !! Z.to_nat i.

Definition bit_mask (i : Z) : Z := Z.shiftl 1 (u64 i mod 8).

Definition update_byte (b : Bitmap) (i : Z) (f : Z -> Z) : option Bitmap :=
  letp x := index b (Z.quot i 8) in
  Some (<[Z.to_nat (Z.quot i 8) := z2b (f (b2z x))]> b).

Definition Set_ (b : Bitmap) (i : Z) : option Bitmap :=
  if i >=? Z.of_nat (length b) * 8 then Some b
  else update_byte b i (fun x => Z.lor x (bit_mask i)).

Definition Get (b : Bitmap) (i : Z) : option bool :=
  if i >=? Z.of_nat (length b) * 8 then Some false
  else letp x := index b (Z.quot i 8) in Some (negb (Z.land (b2z x) (bit_mask i) =? 0)).

Definition Unset (b : Bitmap) (i : Z) : option Bitmap :=
  if i >=? Z.of_nat (length b) * 8 then Some b
  else update_byte b i (fun x => Z.ldiff x (bit_mask i)).

(** [for i := range n { b.Set(i) }]. *)
Fixpoint set_range (b : Bitmap) (i : Z) (n : nat) : option Bitmap :=
  match n with
  | O => Some b
  | S n' => letp b' := Set_ b i in set_range b' (i + 1) n'
  end.

Definition AllOnesBitmap (n : Z) : option Bitmap :=
  letp k := divCeil n 8 in
  letp b := make_bitmap k in set_range b 0 (Z.to_nat n).

(** [bits.OnesCount8]. *)
Definition OnesCount8 (b : byte) : nat :=
  length (filter (fun k => Z.testbit (b2z b) (Z.of_nat k) = true) (seq 0 8)).

Fixpoint OnesCount (b : Bitmap) : nat :=
  match b with [] => 0 | x :: b' => OnesCount8 x + OnesCount b' end.

Definition IsZero (b : Bitmap) : bool := forallb (fun x => b2z x =? 0) b.

Definition Clone (b : Bitmap) : Bitmap := b.

(** The in-place loops over [range min(len(b), len(other))]. *)
Fixpoint zip_bytes (f : Z -> Z -> Z) (b other : Bitmap) : Bitmap :=
  match b, other with
  | x :: b', y :: other' => z2b (f (b2z x) (b2z y)) :: zip_bytes f b' other'
  | _, _ => b
  end.

Definition Or : Bitmap -> Bitmap -> Bitmap := zip_bytes Z.lor.
Definition And : Bitmap -> Bitmap -> Bitmap := zip_bytes Z.land.

Definition Marshal (b : Bitmap) : bytes := b.
Definition Unmarshal (data : bytes) : Bitmap := data.

(** ** The set of bits a bitmap denotes *)

Definition gbit (b : Bitmap) (i : nat) : bool :=
  match b !! (i / 8)%nat with
  | Some x => Z.testbit (b2z x) (Z.of_nat (i mod 8))
  | None => false
  end.

Lemma gbit_ge b i : (8 * length b <= i)%nat -> gbit b i = false.
Proof.
  intros H. unfold gbit. rewrite lookup_ge_None_2; [done|].
  apply Nat.div_le_lower_bound; lia.
Qed.

Lemma div8_lt i n : (i < 8 * n)%nat -> (i / 8 < n)%nat.
Proof. intros. apply Nat.Div0.div_lt_upper_bound. lia. Qed.

Lemma quot8 i : Z.quot (Z.of_nat i) 8 = Z.of_nat (i / 8).
Proof. rewrite Z.quot_div_nonneg by lia. by rewrite Nat2Z.inj_div. Qed.

Lemma bit_mask_nat i : Z.of_nat i < 2 ^ 64 -> bit_mask (Z.of_nat i) = Z.shiftl 1 (Z.of_nat (i mod 8)).
Proof. intros. unfold bit_mask. rewrite u64_small by lia. by rewrite Nat2Z.inj_mod. Qed.

Lemma mod8_lt i : (i mod 8 < 8)%nat.
Proof. by apply Nat.mod_upper_bound. Qed.

Lemma testbit_byte b k : 8 <= k -> Z.testbit (b2z b) k = false.
Proof.
  intros. pose proof (b2z_range b).
  rewrite <-(Z.mod_small (b2z b) (2 ^ 8)) by lia. apply Z.mod_pow2_bits_high. lia.
Qed.

Lemma testbit_z2b z k : 0 <= k < 8 -> Z.testbit (b2z (z2b z)) k = Z.testbit z k.
Proof. intros. rewrite b2z_z2b. change 256 with (2 ^ 8). apply Z.mod_pow2_bits_low. lia. Qed.

Lemma testbit_mask m k : 0 <= m -> 0 <= k -> Z.testbit (Z.shiftl 1 m) k = (k =? m).
Proof.
  intros. rewrite Z.shiftl_spec by done. destruct (decide (k = m)) as [->|].
  - by rewrite Z.sub_diag, Z.eqb_refl.
  - rewrite (proj2 (Z.eqb_neq _ _)) by done. destruct (decide (k < m)).
    + apply Z.testbit_neg_r. lia.
    + change 1 with (2 ^ 0). rewrite Z.pow2_bits_eqb by lia. apply Z.eqb_neq. lia.
Qed.

Lemma land_mask_zero x m : 0 <= m -> (Z.land x (Z.shiftl 1 m) =? 0) = negb (Z.testbit x m).
Proof.
  intros Hm. destruct (Z.testbit x m) eqn:E; simpl.
  - apply Z.eqb_neq. intros H. apply (f_equal (fun z => Z.testbit z m)) in H.
    by rewrite Z.land_spec, testbit_mask, E, Z.eqb_refl, Z.bits_0 in H.
  - apply Z.eqb_eq, Z.bits_inj'. intros k Hk. rewrite Z.land_spec, testbit_mask, Z.bits_0 by done.
    destruct (Z.eqb_spec k m) as [->|]; [by rewrite E|]. apply andb_false_r.
Qed.

(** Bit indices of a slice that fits in memory are far below 2^64. *)
Definition bitmap_small (b : Bitmap) : Prop := 8 * Z.of_nat (length b) < 2 ^ 63.

Lemma Get_gbit b i : bitmap_small b -> Get b (Z.of_nat i) = Some (gbit b i).
Proof.
  intros Hs. unfold Get. rewrite Z.geb_leb. destruct (Z.leb_spec (Z.of_nat (length b) * 8) (Z.of_nat i)).
  - by rewrite gbit_ge by lia.
  - assert (i < 8 * length b)%nat by lia.
    rewrite quot8. unfold index. rewrite (proj2 (Z.ltb_ge _ _)) by lia. rewrite Nat2Z.id. unfold gbit.
    destruct (lookup_lt_is_Some_nat b (i / 8)) as [x ->]; [by apply div8_lt|]. simpl.
    rewrite bit_mask_nat by (unfold bitmap_small in *; lia).
    by rewrite land_mask_zero, negb_involutive by lia.
Qed.

Lemma update_byte_gbit b i f :
  (i < 8 * length b)%nat ->
  exists b', update_byte b (Z.of_nat i) f = Some b' /\ length b' = length b /\
    forall j, gbit b' j =
      if decide (j / 8 = i / 8)%nat
      then Z.testbit (f (b2z (nth (i / 8) b Byte.x00))) (Z.of_nat (j mod 8))
      else gbit b j.
Proof.
  intros Hi. pose proof (div8_lt _ _ Hi) as Hd. unfold update_byte, index. rewrite quot8.
  rewrite (proj2 (Z.ltb_ge _ _)) by lia. rewrite Nat2Z.id.
  destruct (lookup_lt_is_Some_nat b (i / 8) Hd) as [x Hx]. rewrite Hx. simpl.
  eexists. split; [done|]. split; [apply length_insert|]. intros j. unfold gbit.
  rewrite (nth_lookup_Some _ _ _ _ Hx). case_decide as E.
  - rewrite E, list_lookup_insert_eq by done. apply testbit_z2b. pose proof (mod8_lt j). lia.
  - by rewrite list_lookup_insert_ne by done.
Qed.

Lemma same_bit i j : (j / 8 = i / 8 -> j mod 8 = i mod 8 -> j = i)%nat.
Proof. intros. rewrite (Nat.div_mod_eq j 8), (Nat.div_mod_eq i 8). congruence. Qed.

Lemma gbit_nth b i j :
  (i < 8 * length b)%nat -> (j / 8 = i / 8)%nat ->
  Z.testbit (b2z (nth (i / 8) b Byte.x00)) (Z.of_nat (j mod 8)) = gbit b j.
Proof.
  intros Hi E. pose proof (div8_lt _ _ Hi) as Hd. unfold gbit. rewrite E.
  destruct (lookup_lt_is_Some_nat b (i / 8) Hd) as [x Hx]. by rewrite (nth_lookup_Some _ _ _ _ Hx), Hx.
Qed.

Lemma Set_spec b i :
  bitmap_small b ->
  exists b', Set_ b (Z.of_nat i) = Some b' /\ length b' = length b /\
    forall j, gbit b' j = (if decide (j = i /\ (i < 8 * length b)%nat) then true else gbit b j).
Proof.
  intros Hs. unfold Set_. rewrite Z.geb_leb.
  destruct (Z.leb_spec (Z.of_nat (length b) * 8) (Z.of_nat i)).
  { exists b. split; [done|]. split; [done|]. intros j. case_decide; [lia|done]. }
  assert (i < 8 * length b)%nat as Hi by lia.
  destruct (update_byte_gbit b i (fun x => Z.lor x (bit_mask (Z.of_nat i))) Hi) as (b' & E & Hl & Hg).
  exists b'. split; [done|]. split; [done|]. intros j. rewrite Hg. clear Hg.
  rewrite bit_mask_nat by (unfold bitmap_small in *; lia).
  pose proof (mod8_lt i). pose proof (mod8_lt j).
  destruct (decide (j / 8 = i / 8)%nat) as [Ed|Ed].
  - rewrite Z.lor_spec, gbit_nth, testbit_mask by (done || lia).
    destruct (decide (j = i /\ _)) as [[-> _]|Hne].
    + by rewrite Z.eqb_refl, orb_true_r.
    + rewrite (proj2 (Z.eqb_neq _ _)); [by rewrite orb_false_r|].
      intros Em. apply Hne. split; [|done]. apply same_bit; lia.
  - destruct (decide (j = i /\ _)) as [[-> _]|]; done.
Qed.

Lemma Unset_spec b i :
  bitmap_small b ->
  exists b', Unset b (Z.of_nat i) = Some b' /\ length b' = length b /\
    forall j, gbit b' j = (if decide (j = i) then false else gbit b j).
Proof.
  intros Hs. unfold Unset. rewrite Z.geb_leb.
  destruct (Z.leb_spec (Z.of_nat (length b) * 8) (Z.of_nat i)).
  { exists b. split; [done|]. split; [done|]. intros j.
    case_decide; [subst; by rewrite gbit_ge by lia|done]. }
  assert (i < 8 * length b)%nat as Hi by lia.
  destruct (update_byte_gbit b i (fun x => Z.ldiff x (bit_mask (Z.of_nat i))) Hi) as (b' & E & Hl & Hg).
  exists b'. split; [done|]. split; [done|]. intros j. rewrite Hg. clear Hg.
  rewrite bit_mask_nat by (unfold bitmap_small in *; lia).
  pose proof (mod8_lt i). pose proof (mod8_lt j).
  destruct (decide (j / 8 = i / 8)%nat) as [Ed|Ed].
  - rewrite Z.ldiff_spec, gbit_nth, testbit_mask by (done || lia).
    destruct (decide (j = i)) as [->|Hne].
    + by rewrite Z.eqb_refl, andb_false_r.
    + rewrite (proj2 (Z.eqb_neq _ _)); [by rewrite andb_true_r|].
      intros Em. apply Hne. apply same_bit; lia.
  - destruct (decide (j = i)) as [->|]; done.
Qed.

Lemma zip_bytes_spec f g b o :
  (forall x y k, 0 <= k -> Z.testbit (f x y) k = g (Z.testbit x k) (Z.testbit y k)) ->
  length (zip_bytes f b o) = length b /\
  forall i, gbit (zip_bytes f b o) i
    = if decide (i < 8 * Nat.min (length b) (length o))%nat then g (gbit b i) (gbit o i) else gbit b i.
Proof.
  intros Hf. assert (forall n, zip_bytes f b o !! n =
      match b !! n, o !! n with Some x, Some y => Some (z2b (f (b2z x) (b2z y))) | bx, _ => bx end) as L.
  { clear Hf. revert o. induction b as [|x b IH]; intros [|y o] [|n]; simpl; try done.
    all: first [by destruct (b !! n) | by apply IH]. }
  split.
  - clear. revert o. induction b as [|x b IH]; intros [|y o]; simpl; [done|done|done|]. by rewrite IH.
  - intros i. unfold gbit. rewrite L. case_decide as Hi.
    + assert (i / 8 < Nat.min (length b) (length o))%nat by (by apply div8_lt).
      destruct (lookup_lt_is_Some_nat b (i / 8)) as [x ->]; [lia|].
      destruct (lookup_lt_is_Some_nat o (i / 8)) as [y ->]; [lia|].
      pose proof (mod8_lt i). rewrite testbit_z2b by lia. by rewrite Hf by lia.
    + destruct (b !! (i / 8)%nat) eqn:Eb; [|done].
      destruct (o !! (i / 8)%nat) eqn:Eo; [|done]. exfalso. apply Hi.
      apply lookup_lt_Some in Eb, Eo. pose proof (mod8_lt i). pose proof (Nat.div_mod_eq i 8). lia.
Qed.

Lemma Or_length b o : length (Or b o) = length b.
Proof. apply (zip_bytes_spec Z.lor orb). intros. apply Z.lor_spec. Qed.

Lemma Or_gbit b o i :
  gbit (Or b o) i = gbit b i || (gbit o i && bool_decide (i < 8 * length b)%nat).
Proof.
  unfold Or. rewrite (proj2 (zip_bytes_spec Z.lor orb b o ltac:(intros; apply Z.lor_spec))).
  case_decide as H.
  - rewrite bool_decide_eq_true_2 by lia. by rewrite andb_true_r.
  - destruct (decide (i < 8 * length b)%nat).
    + rewrite (gbit_ge o) by lia. by rewrite orb_false_r.
    + rewrite bool_decide_eq_false_2 by lia. by rewrite andb_false_r, orb_false_r.
Qed.

Lemma And_gbit b o i :
  gbit (And b o) i = gbit b i && (gbit o i || bool_decide (8 * length o <= i)%nat).
Proof.
  unfold And. rewrite (proj2 (zip_bytes_spec Z.land andb b o ltac:(intros; apply Z.land_spec))).
  case_decide as H.
  - rewrite bool_decide_eq_false_2 by lia. by rewrite orb_false_r.
  - destruct (decide (8 * length o <= i)%nat).
    + rewrite bool_decide_eq_true_2 by lia. by rewrite orb_true_r, andb_true_r.
    + by rewrite (gbit_ge b) by lia.
Qed.

(** ** Counting *)

Definition count_bits (b : Bitmap) (n : nat) : nat := length (filter (fun i => gbit b i = true) (seq 0 n)).

Lemma filter_seq_shift (P : nat -> bool) a n :
  length (filter (fun i => P i = true) (seq a n)) = length (filter (fun i => P (a + i)%nat = true) (seq 0 n)).
Proof.
  revert a P. induction n as [|n IH]; intros a P; [done|]. simpl.
  rewrite !filter_cons, Nat.add_0_r.
  assert (length (filter (fun i => P i = true) (seq (S a) n))
          = length (filter (fun i => P (a + i)%nat = true) (seq 1 n))) as E.
  { rewrite (IH (S a)), (IH 1%nat (fun i => P (a + i)%nat)). f_equal. apply list_filter_iff.
    intros i. by replace (S a + i)%nat with (a + (1 + i))%nat by lia. }
  case_decide; simpl; by rewrite E.
Qed.

Lemma count_bits_app_0 b n m :
  (forall i, (n <= i)%nat -> gbit b i = false) -> count_bits b (n + m) = count_bits b n.
Proof.
  intros H. unfold count_bits. rewrite seq_app, filter_app, length_app.
  enough (filter (fun i => gbit b i = true) (seq (0 + n) m) = []) as -> by (simpl; lia).
  destruct (filter _ (seq (0 + n) m)) as [|x l] eqn:E; [done|]. exfalso.
  assert (x ∈ filter (fun i => gbit b i = true) (seq (0 + n) m)) as Hx by (rewrite E; left).
  apply list_elem_of_filter in Hx as [Hg Hx]. apply elem_of_seq in Hx. rewrite H in Hg; [done|lia].
Qed.

Lemma OnesCount_count b : OnesCount b = count_bits b (8 * length b).
Proof.
  induction b as [|x b IH]; [done|]. simpl OnesCount. rewrite IH.
  replace (8 * length (x :: b))%nat with (8 + 8 * length b)%nat by (simpl; lia).
  unfold count_bits. rewrite seq_app, filter_app, length_app. f_equal.
  symmetry. etrans; [apply (filter_seq_shift (gbit (x :: b)))|]. f_equal.
  apply list_filter_iff. intros i. unfold gbit.
  replace (0 + 8 + i)%nat with (i + 1 * 8)%nat by lia.
  rewrite Nat.div_add, Nat.Div0.mod_add by lia. by rewrite Nat.add_1_r.
Qed.

Lemma divCeil_8 n : 0 <= n < 2 ^ 62 -> divCeil n 8 = Some ((n + 7) / 8).
Proof.
  intros. unfold divCeil. simpl (8 =? 0). rewrite i64_small by lia.
  rewrite Z.quot_div_nonneg by lia. do 2 f_equal. lia.
Qed.

Definition zero_bits (n : nat) : Bitmap := replicate (Z.to_nat ((Z.of_nat n + 7) / 8)) Byte.x00.

Lemma zero_bits_length n : (n <= 8 * length (zero_bits n) < n + 8)%nat.
Proof. unfold zero_bits. rewrite length_replicate. Z.div_mod_to_equations; lia. Qed.

Lemma zero_bits_gbit n i : gbit (zero_bits n) i = false.
Proof.
  unfold gbit, zero_bits. destruct (_ !! _) eqn:E; [|done].
  apply lookup_replicate in E as [-> _]. apply Z.testbit_0_l.
Qed.

Lemma NewBitmap_spec n : Z.of_nat n < 2 ^ 62 -> NewBitmap (Z.of_nat n) = Some (zero_bits n).
Proof.
  intros. unfold NewBitmap. rewrite divCeil_8 by lia. simpl. unfold make_bitmap.
  rewrite (proj2 (Z.ltb_ge _ _)); [done|]. apply Z.div_pos; lia.
Qed.

Lemma zero_bits_small n : Z.of_nat n < 2 ^ 62 -> bitmap_small (zero_bits n).
Proof. intros. pose proof (zero_bits_length n). unfold bitmap_small. lia. Qed.

Lemma set_range_spec n : forall b i,
  bitmap_small b -> (i + n <= 8 * length b)%nat ->
  exists b', set_range b (Z.of_nat i) n = Some b' /\ length b' = length b /\
    forall j, gbit b' j = (if decide (i <= j < i + n)%nat then true else gbit b j).
Proof.
  induction n as [|n IH]; intros b i Hs Hn; simpl.
  - exists b. split; [done|]. split; [done|]. intros j. case_decide; [lia|done].
  - destruct (Set_spec b i Hs) as (b1 & -> & Hl1 & Hg1). simpl.
    replace (Z.of_nat i + 1) with (Z.of_nat (S i)) by lia.
    destruct (IH b1 (S i)) as (b' & -> & Hl & Hg); [unfold bitmap_small in *; by rewrite Hl1|lia|].
    exists b'. split; [done|]. split; [congruence|]. intros j. rewrite Hg, Hg1.
    repeat case_decide; (lia || done).
Qed.

Lemma AllOnesBitmap_spec n : Z.of_nat n < 2 ^ 62 ->
  exists b, AllOnesBitmap (Z.of_nat n) = Some b /\ length b = length (zero_bits n) /\
    forall j, gbit b j = bool_decide (j < n)%nat.
Proof.
  intros Hn. unfold AllOnesBitmap. rewrite divCeil_8 by lia. simpl. unfold make_bitmap.
  rewrite (proj2 (Z.ltb_ge _ _)) by (apply Z.div_pos; lia). simpl. rewrite Nat2Z.id.
  pose proof (zero_bits_length n).
  destruct (set_range_spec n (zero_bits n) 0) as (b & E & Hl & Hg); [by apply zero_bits_small|lia|].
  exists b. split; [exact E|]. split; [done|]. intros j. rewrite Hg, zero_bits_gbit. simpl.
  case_decide; symmetry; [apply bool_decide_eq_true_2|apply bool_decide_eq_false_2]; lia.
Qed.

(** ** Properties *)

(** Bitmaps are finite sets of chunk indices: Set, Unset and Get act on
    exactly the bit named (Set ignores an index past the end), Or adds exactly
    the other's bits that fit, And keeps a bit unless the other covers it
    without having it, and OnesCount counts the bits. *)
Theorem bitmap_set_algebra b o i :
  bitmap_small b ->
  (exists b', Set_ b (Z.of_nat i) = Some b' /\ length b' = length b /\
     forall j, Get b' (Z.of_nat j)
       = Some (if decide (j = i /\ (i < 8 * length b)%nat) then true else gbit b j)) /\
  (exists b', Unset b (Z.of_nat i) = Some b' /\ length b' = length b /\
     forall j, Get b' (Z.of_nat j) = Some (if decide (j = i) then false else gbit b j)) /\
  (forall j, Get (Or b o) (Z.of_nat j)
     = Some (gbit b j || (gbit o j && bool_decide (j < 8 * length b)%nat))) /\
  (forall j, gbit (And b o) j = gbit b j && (gbit o j || bool_decide (8 * length o <= j)%nat)) /\
  OnesCount b = length (filter (fun j => gbit b j = true) (seq 0 (8 * length b))).
Proof.
  intros Hs. split; [|split; [|split; [|split]]].
  - destruct (Set_spec b i Hs) as (b' & E & Hl & Hg). exists b'. split; [done|]. split; [done|].
    intros j. rewrite Get_gbit by (unfold bitmap_small in *; by rewrite Hl). by rewrite Hg.
  - destruct (Unset_spec b i Hs) as (b' & E & Hl & Hg). exists b'. split; [done|]. split; [done|].
    intros j. rewrite Get_gbit by (unfold bitmap_small in *; by rewrite Hl). by rewrite Hg.
  - intros j. rewrite Get_gbit by (unfold bitmap_small in *; by rewrite Or_length). by rewrite Or_gbit.
  - apply And_gbit.
  - apply OnesCount_count.
Qed.

Lemma bitmap_set_algebra_witness :
  exists b', Set_ [Byte.x80; Byte.x01] 9 = Some b' /\ length b' = 2%nat /\
    Get b' 9 = Some true /\ OnesCount [Byte.x80; Byte.x01] = 2%nat.
Proof.
  destruct (bitmap_set_algebra [Byte.x80; Byte.x01] [] 9) as ((b' & E & Hl & Hg) & _ & _ & _ & Hc); [done|].
  exists b'. split; [exact E|]. split; [exact Hl|]. split; [exact (Hg 9%nat)|]. rewrite Hc. reflexivity.
Defined.
