(* ===== verification/Emit.v ===== *)
(** * Emit: the heap of chunks to send (src/broadcast/rs/emit.go)

    [emitPlanner] is a binary min-heap kept by [container/heap], with an index
    from chunk to heap position.  An access outside the slice is a panic
    ([None]); the fuel of the two loops of [container/heap] is one more than the
    number of iterations they can make, so running out of it cannot be told from
    a panic, and the theorems below show that neither happens. *)

From S2P Require Import Prelude.
Open Scope Z_scope.

(** ** Data *)

Record emitEntry := mk_entry { Idx : Z; Times : Z; Sent : Z; Priority : Z }.

#[global] Instance emitEntry_eq_dec : EqDecision emitEntry.
Proof. solve_decision. Qed.

Record emitPlanner := mk_planner { idToIndex : gmap Z nat; entries : list emitEntry }.

Definition newEmitPlanner : emitPlanner := mk_planner ∅ [].

Definition Len (h : emitPlanner) : nat := length (entries h).

Definition less_entry (a b : emitEntry) : bool :=
  if negb (Times a =? Times b) then Times a <? Times b else Priority a <? Priority b.

Definition Less (h : emitPlanner) (i j : nat) : option bool :=
  letp a := entries h !! i in
  letp b := entries h !! j in
  Some (less_entry a b).

Definition Swap (h : emitPlanner) (i j : nat) : option emitPlanner :=
  letp a := entries h !! i in
  letp b := entries h !! j in
  let es := <[j := a]> (<[i := b]> (entries h)) in
  letp a' := es !! i in
  letp b' := es !! j in
  Some (mk_planner (<[Idx b' := j]> (<[Idx a' := i]> (idToIndex h))) es).

Definition Push (h : emitPlanner) (ec : emitEntry) : emitPlanner :=
  mk_planner (<[Idx ec := length (entries h)]> (idToIndex h)) (entries h ++ [ec]).

Definition Pop (h : emitPlanner) : option (emitEntry * emitPlanner) :=
  letp ec := last (entries h) in
  Some (ec, mk_planner (delete (Idx ec) (idToIndex h)) (take (length (entries h) - 1) (entries h))).

(** ** [container/heap] *)

Fixpoint up_loop (fuel : nat) (h : emitPlanner) (j : nat) : option emitPlanner :=
  match fuel with
  | O => None
  | S fuel' =>
      let i := ((j - 1) / 2)%nat in
      if (i =? j)%nat then Some h
      else letp l := Less h j i in
           if negb l then Some h
           else letp h' := Swap h i j in up_loop fuel' h' i
  end.

Definition up (h : emitPlanner) (j : nat) : option emitPlanner := up_loop (S j) h j.

Fixpoint down_loop (fuel : nat) (h : emitPlanner) (i n : nat) : option (emitPlanner * nat) :=
  match fuel with
  | O => None
  | S fuel' =>
      let j1 := (2 * i + 1)%nat in
      if (n <=? j1)%nat then Some (h, i)
      else
        letp j := (let j2 := (j1 + 1)%nat in
                   if (j2 <? n)%nat
                   then letp l := Less h j2 j1 in Some (if (l : bool) then j2 else j1)
                   else Some j1) in
        letp l := Less h j i in
        if negb l then Some (h, i)
        else letp h' := Swap h i j in down_loop fuel' h' j n
  end.

(** The position reached, compared with the start, is down's boolean result. *)
Definition down (h : emitPlanner) (i n : nat) : option (emitPlanner * bool) :=
  letp r := down_loop (S n) h i n in Some (r.1, (i <? r.2)%nat).

Definition heap_Push (h : emitPlanner) (ec : emitEntry) : option emitPlanner :=
  let h' := Push h ec in up h' (Len h' - 1).

Definition heap_Pop (h : emitPlanner) : option (emitEntry * emitPlanner) :=
  if (Len h =? 0)%nat then None
  else let n := (Len h - 1)%nat in
       letp h1 := Swap h 0 n in
       letp r := down h1 0 n in
       Pop r.1.

Definition heap_Fix (h : emitPlanner) (i : nat) : option emitPlanner :=
  letp r := down h i (Len h) in
  if (r.2 : bool) then Some r.1 else up r.1 i.

Definition heap_Remove (h : emitPlanner) (i : nat) : option (emitEntry * emitPlanner) :=
  if (Len h =? 0)%nat then None
  else let n := (Len h - 1)%nat in
       if (n =? i)%nat then Pop h
       else letp h1 := Swap h i n in
            letp r := down h1 i n in
            letp h2 := (if (r.2 : bool) then Some r.1 else up r.1 i) in
            Pop h2.

(** ** The planner's operations *)

Definition set_entry (h : emitPlanner) (i : nat) (ec : emitEntry) : option emitPlanner :=
  letp _ := entries h !! i in Some (mk_planner (idToIndex h) (<[i := ec]> (entries h))).

Definition Insert (h : emitPlanner) (ec : emitEntry) : option emitPlanner :=
  match idToIndex h !! Idx ec with
  | Some idx => letp h' := set_entry h idx ec in heap_Fix h' idx
  | None => heap_Push h ec
  end.

Definition Top (h : emitPlanner) : option emitEntry := entries h !! 0%nat.

Definition PopFront (h : emitPlanner) : option (emitEntry * emitPlanner) := heap_Pop h.

Definition add_times (d : Z) (e : emitEntry) : emitEntry :=
  mk_entry (Idx e) (Times e + d) (Sent e) (Priority e).
Definition add_sent (d : Z) (e : emitEntry) : emitEntry :=
  mk_entry (Idx e) (Times e) (Sent e + d) (Priority e).

Definition bump (h : emitPlanner) (id d : Z) : option emitPlanner :=
  match idToIndex h !! id with
  | None => Some h
  | Some idx =>
      letp e := entries h !! idx in
      letp h' := set_entry h idx (add_times d e) in heap_Fix h' idx
  end.

Definition Increment (h : emitPlanner) (id : Z) : option emitPlanner := bump h id 1.
Definition Decrement (h : emitPlanner) (id : Z) : option emitPlanner := bump h id (-1).

Definition Contains (h : emitPlanner) (id : Z) : bool := bool_decide (is_Some (idToIndex h !! id)).

Definition Delete (h : emitPlanner) (id : Z) : option emitPlanner :=
  match idToIndex h !! id with
  | None => Some h
  | Some idx => letp r := heap_Remove h idx in Some r.2
  end.

Definition GetSent (h : emitPlanner) (id : Z) : option (option Z) :=
  match idToIndex h !! id with
  | None => Some None
  | Some idx => letp e := entries h !! idx in Some (Some (Sent e))
  end.

Definition AddSent (h : emitPlanner) (id delta : Z) : option emitPlanner :=
  match idToIndex h !! id with
  | None => Some h
  | Some idx => letp e := entries h !! idx in set_entry h idx (add_sent delta e)
  end.

(** ** The order of entries *)

Lemma less_trans a b c : less_entry a b = true -> less_entry b c = true -> less_entry a c = true.
Proof.
  unfold less_entry. intros H1 H2.
  destruct (Z.eqb_spec (Times a) (Times b)), (Z.eqb_spec (Times b) (Times c)),
    (Z.eqb_spec (Times a) (Times c)); simpl in *; lia.
Qed.

Definition le_entry (a b : emitEntry) : Prop := less_entry b a = false.

Lemma le_entry_refl a : le_entry a a.
Proof. unfold le_entry, less_entry. rewrite Z.eqb_refl. apply Z.ltb_irrefl. Qed.

Lemma le_entry_trans a b c : le_entry a b -> le_entry b c -> le_entry a c.
Proof.
  unfold le_entry, less_entry. intros H1 H2.
  destruct (Z.eqb_spec (Times b) (Times a)), (Z.eqb_spec (Times c) (Times b)),
    (Z.eqb_spec (Times c) (Times a)); simpl in *; lia.
Qed.

Lemma less_le a b : less_entry a b = true -> le_entry a b.
Proof.
  unfold le_entry, less_entry. intros H.
  destruct (Z.eqb_spec (Times a) (Times b)), (Z.eqb_spec (Times b) (Times a));
    simpl in *; lia.
Qed.

#[export] Hint Resolve le_entry_refl less_le : ethp2p.

(** ** Heap shape, on plain lists *)

Definition parent (c : nat) : nat := ((c - 1) / 2)%nat.

Lemma parent_lt c : (0 < c)%nat -> (parent c < c)%nat.
Proof. intros. unfold parent. apply Nat.Div0.div_lt_upper_bound. lia. Qed.

Lemma parent_child c i : (0 < c)%nat -> parent c = i <-> (c = 2 * i + 1 \/ c = 2 * i + 2)%nat.
Proof.
  intros. unfold parent. pose proof (Nat.div_mod_eq (c - 1) 2).
  pose proof (Nat.mod_upper_bound (c - 1) 2 ltac:(lia)). lia.
Qed.

(** The entry at [a] is not above the entry at [b]. *)
Definition le_at (l : list emitEntry) (a b : nat) : Prop :=
  forall x y, l !! a = Some x -> l !! b = Some y -> le_entry x y.

Definition ok_at (l : list emitEntry) (c : nat) : Prop := le_at l (parent c) c.

Definition heap_upto (l : list emitEntry) (n : nat) : Prop :=
  forall c, (0 < c < n)%nat -> ok_at l c.

Definition swap_list (l : list emitEntry) (i j : nat) : list emitEntry :=
  match l !! i, l !! j with
  | Some a, Some b => <[j := a]> (<[i := b]> l)
  | _, _ => l
  end.

Lemma swap_list_length l i j : length (swap_list l i j) = length l.
Proof. unfold swap_list. repeat case_match; by rewrite ?length_insert. Qed.

Lemma swap_list_lookup l i j k :
  (i < length l)%nat -> (j < length l)%nat ->
  swap_list l i j !! k = if decide (k = j) then l !! i else if decide (k = i) then l !! j else l !! k.
Proof.
  intros Hi Hj. unfold swap_list.
  destruct (lookup_lt_is_Some_nat l i Hi) as [a Ha]. destruct (lookup_lt_is_Some_nat l j Hj) as [b Hb].
  rewrite Ha, Hb. case_decide as E; [subst; rewrite list_lookup_insert_eq; [done|by rewrite length_insert]|].
  rewrite list_lookup_insert_ne by done. case_decide as E'; [subst; by rewrite list_lookup_insert_eq|].
  by rewrite list_lookup_insert_ne.
Qed.

Lemma swap_list_perm l i j : (i < length l)%nat -> (j < length l)%nat -> swap_list l i j ≡ₚ l.
Proof.
  intros Hi Hj. symmetry. apply Permutation_inj. split; [by rewrite swap_list_length|].
  exists (fun k => if decide (k = j) then i else if decide (k = i) then j else k). split.
  - intros x y. repeat case_decide; congruence.
  - intros k. rewrite swap_list_lookup by done. repeat case_decide; by subst.
Qed.

Definition sw (i j k : nat) : nat := if decide (k = j) then i else if decide (k = i) then j else k.

Lemma swap_le_at l i j a b :
  (i < length l)%nat -> (j < length l)%nat ->
  le_at l (sw i j a) (sw i j b) -> le_at (swap_list l i j) a b.
Proof.
  intros Hi Hj H x y. rewrite !swap_list_lookup by done. unfold le_at, sw in H.
  repeat case_decide; apply H.
Qed.

Lemma sw_l i j : sw i j i = j.
Proof. unfold sw. repeat case_decide; congruence. Qed.
Lemma sw_r i j : sw i j j = i.
Proof. unfold sw. repeat case_decide; congruence. Qed.
Lemma sw_ne i j k : k <> i -> k <> j -> sw i j k = k.
Proof. intros. unfold sw. repeat case_decide; congruence. Qed.

Lemma le_at_refl l a : le_at l a a.
Proof. intros x y Hx Hy. simplify_eq. apply le_entry_refl. Qed.

Lemma le_at_trans l a b c : (b < length l)%nat -> le_at l a b -> le_at l b c -> le_at l a c.
Proof.
  intros Hb H1 H2 x z Hx Hz. destruct (lookup_lt_is_Some_nat l b Hb) as [y Hy].
  eapply le_entry_trans; [by apply H1|by apply H2].
Qed.

Lemma le_at_less l a b x y :
  l !! a = Some x -> l !! b = Some y -> less_entry x y = true -> le_at l a b.
Proof. intros Ha Hb H u v Hu Hv. simplify_eq. by apply less_le. Qed.

Lemma le_at_not_less l a b x y :
  l !! a = Some x -> l !! b = Some y -> less_entry x y = false -> le_at l b a.
Proof. intros Ha Hb H u v Hu Hv. by simplify_eq. Qed.

(** Heap order except between [j] and its parent. *)
Definition up_inv (l : list emitEntry) (j n : nat) : Prop :=
  (forall c, (0 < c < n)%nat -> c <> j -> ok_at l c) /\
  (forall c, (0 < c < n)%nat -> parent c = j -> (0 < j)%nat -> le_at l (parent j) c).

(** Heap order except around [i]. *)
Definition down_inv (l : list emitEntry) (i n : nat) : Prop :=
  (forall c, (0 < c < n)%nat -> parent c <> i -> c <> i -> ok_at l c) /\
  (forall c, (0 < c < n)%nat -> parent c = i -> (0 < i)%nat -> le_at l (parent i) c).

Lemma up_inv_swap l j n x y :
  (0 < j < n)%nat -> (n <= length l)%nat -> up_inv l j n ->
  l !! j = Some x -> l !! parent j = Some y -> less_entry x y = true ->
  up_inv (swap_list l (parent j) j) (parent j) n.
Proof.
  intros Hj Hn [H1 H2] Hx Hy Hless. pose proof (parent_lt j ltac:(lia)) as Hp.
  pose proof (le_at_less _ _ _ _ _ Hx Hy Hless) as Hle. split.
  - intros c Hc Hne. apply swap_le_at; [lia|lia|].
    destruct (decide (c = j)) as [->|Hcj]; [by rewrite sw_l, sw_r|].
    rewrite (sw_ne _ _ c) by done. pose proof (parent_lt c ltac:(lia)).
    destruct (decide (parent c = j)) as [Epj|].
    { rewrite Epj, sw_r. apply H2; [done|done|lia]. }
    destruct (decide (parent c = parent j)) as [Epp|].
    { rewrite Epp, sw_l. apply (le_at_trans l j (parent j) c); [lia|done|].
      rewrite <-Epp. by apply H1. }
    rewrite sw_ne by done. by apply H1.
  - intros c Hc Hpc H0. apply swap_le_at; [lia|lia|]. pose proof (parent_lt (parent j) ltac:(lia)).
    rewrite (sw_ne _ _ (parent (parent j))) by lia.
    assert (ok_at l (parent j)) as Hg by (apply H1; lia).
    destruct (decide (c = j)) as [->|Hcj]; [by rewrite sw_r|].
    assert (c <> parent j) by (intros ->; lia).
    rewrite sw_ne by done. apply (le_at_trans l _ (parent j)); [lia|done|].
    rewrite <-Hpc. by apply H1.
Qed.

Lemma up_inv_done l j n :
  up_inv l j n -> (j = 0%nat \/ ok_at l j) -> heap_upto l n.
Proof.
  intros [H1 _] Hj c Hc. destruct (decide (c = j)) as [->|]; [|by apply H1]. destruct Hj; [lia|done].
Qed.

(** The child [j] that [down] compares with is the smaller one. *)
Definition smaller_child (l : list emitEntry) (i j n : nat) : Prop :=
  (0 < j < n)%nat /\ parent j = i /\ forall c, (0 < c < n)%nat -> parent c = i -> le_at l j c.

Lemma down_inv_stop l i j n :
  (n <= length l)%nat -> smaller_child l i j n -> down_inv l i n -> le_at l i j ->
  forall c, (0 < c < n)%nat -> c <> i -> ok_at l c.
Proof.
  intros Hn (Hj & Hpj & Hmin) [H1 H2] Hle c Hc Hne.
  destruct (decide (parent c = i)) as [E|]; [|by apply H1].
  unfold ok_at. rewrite E. apply (le_at_trans l i j c); [lia|done|by apply Hmin].
Qed.

Lemma down_inv_swap l i j n x y :
  (n <= length l)%nat -> smaller_child l i j n -> down_inv l i n ->
  l !! j = Some x -> l !! i = Some y -> less_entry x y = true ->
  down_inv (swap_list l i j) j n /\
  (forall c, (0 < c < n)%nat -> parent c <> j -> ok_at (swap_list l i j) c).
Proof.
  intros Hn (Hj & Hpj & Hmin) [H1 H2] Hx Hy Hless.
  pose proof (le_at_less _ _ _ _ _ Hx Hy Hless) as Hle. pose proof (parent_lt j ltac:(lia)) as Hij.
  rewrite Hpj in Hij.
  assert (forall c, (0 < c < n)%nat -> parent c <> j -> ok_at (swap_list l i j) c) as Hall.
  { intros c Hc Hpc. apply swap_le_at; [lia|lia|]. pose proof (parent_lt c ltac:(lia)).
    destruct (decide (c = j)) as [->|]; [rewrite Hpj, sw_l, sw_r; done|].
    destruct (decide (c = i)) as [->|].
    { rewrite sw_l, sw_ne by lia. apply H2; [lia|done|lia]. }
    rewrite (sw_ne _ _ c) by done. destruct (decide (parent c = i)) as [E|].
    { rewrite E, sw_l. by apply Hmin. }
    rewrite sw_ne by done. by apply H1. }
  split; [|done]. split; [by auto|].
  intros c Hc Hpc _. rewrite Hpj. apply swap_le_at; [lia|lia|]. rewrite sw_l.
  pose proof (parent_lt c ltac:(lia)). rewrite sw_ne by lia.
  rewrite <-Hpc. apply H1; lia.
Qed.

(** ** The position index *)

Definition index_ok (h : emitPlanner) : Prop :=
  (forall i e, entries h !! i = Some e -> idToIndex h !! Idx e = Some i) /\
  (forall id i, idToIndex h !! id = Some i -> exists e, entries h !! i = Some e /\ Idx e = id).

Lemma index_ok_inj h i j e e' :
  index_ok h -> entries h !! i = Some e -> entries h !! j = Some e' -> Idx e = Idx e' -> i = j.
Proof. intros [H _] Hi Hj E. apply H in Hi, Hj. rewrite E in Hi. congruence. Qed.

Lemma index_ok_NoDup h : index_ok h -> NoDup (Idx <$> entries h).
Proof.
  intros H. apply NoDup_alt. intros i j x Hi Hj.
  apply list_lookup_fmap_Some in Hi as (a & -> & Ha). apply list_lookup_fmap_Some in Hj as (b & E & Hb).
  by eapply index_ok_inj.
Qed.

Lemma Less_Some h i j : (i < Len h)%nat -> (j < Len h)%nat ->
  exists a b, entries h !! i = Some a /\ entries h !! j = Some b /\ Less h i j = Some (less_entry a b).
Proof.
  intros Hi Hj. destruct (lookup_lt_is_Some_nat _ _ Hi) as [a Ha].
  destruct (lookup_lt_is_Some_nat _ _ Hj) as [b Hb]. exists a, b.
  unfold Less. by rewrite Ha, Hb.
Qed.

Lemma Swap_ok h i j :
  index_ok h -> (i < Len h)%nat -> (j < Len h)%nat ->
  exists h', Swap h i j = Some h' /\ entries h' = swap_list (entries h) i j /\ index_ok h'.
Proof.
  intros Hok Hi Hj. unfold Swap.
  destruct (lookup_lt_is_Some_nat _ _ Hi) as [a Ha]. destruct (lookup_lt_is_Some_nat _ _ Hj) as [b Hb].
  rewrite Ha, Hb. simpl.
  assert (<[j:=a]> (<[i:=b]> (entries h)) = swap_list (entries h) i j) as Es
    by (unfold swap_list; by rewrite Ha, Hb).
  rewrite !Es, !swap_list_lookup by done.
  assert ((if decide (i = j) then entries h !! i else if decide (i = i) then entries h !! j else entries h !! i) = Some b) as ->.
  { repeat case_decide; congruence. }
  rewrite decide_True by done. rewrite Ha. simpl. eexists. split; [done|]. split; [done|].
  pose proof Hok as [H1 H2]. split; simpl.
  - intros k e. rewrite swap_list_lookup by done. intros Hk.
    destruct (decide (k = j)) as [->|]; [simplify_eq; by rewrite lookup_insert_eq|].
    destruct (decide (k = i)) as [->|].
    { simplify_eq. rewrite lookup_insert_ne, lookup_insert_eq; [done|].
      intros E. apply n. by eapply (index_ok_inj h i j). }
    assert (forall k' e', k <> k' -> entries h !! k' = Some e' -> Idx e' <> Idx e) as Hn'.
    { intros k' e' Hne Hk' E. apply Hne. symmetry. by eapply (index_ok_inj h). }
    rewrite !lookup_insert_ne by eauto. by apply H1.
  - intros id k Hk. rewrite swap_list_lookup by done.
    apply lookup_insert_Some in Hk as [[<- <-]|[Hne Hk]].
    { rewrite decide_True by done. by eauto. }
    apply lookup_insert_Some in Hk as [[<- <-]|[Hne' Hk]].
    { destruct (decide (i = j)) as [->|]; [simplify_eq|]. rewrite decide_True by done. by eauto. }
    apply H2 in Hk as (e & He & <-).
    destruct (decide (k = j)) as [->|]; [congruence|].
    destruct (decide (k = i)) as [->|]; [congruence|]. by eauto.
Qed.

(** ** The loops of [container/heap] *)

(** What sifting keeps: the entries, their index and everything from [n] on. *)
Definition sifted (n : nat) (h h' : emitPlanner) : Prop :=
  index_ok h' /\ entries h' ≡ₚ entries h /\
  (forall k, (n <= k)%nat -> entries h' !! k = entries h !! k).

Lemma sifted_refl n h : index_ok h -> sifted n h h.
Proof. by split. Qed.

Lemma sifted_trans n h1 h2 h3 : sifted n h1 h2 -> sifted n h2 h3 -> sifted n h1 h3.
Proof.
  intros (_ & P1 & U1) (I2 & P2 & U2). split; [done|]. split; [by etrans|].
  intros k Hk. rewrite U2, U1; done.
Qed.

Lemma sifted_len n h h' : sifted n h h' -> Len h' = Len h.
Proof. intros (_ & P & _). unfold Len. by rewrite P. Qed.

Lemma Swap_sifted h i j n :
  index_ok h -> (i < n)%nat -> (j < n)%nat -> (n <= Len h)%nat ->
  exists h', Swap h i j = Some h' /\ entries h' = swap_list (entries h) i j /\ sifted n h h'.
Proof.
  intros Hok Hi Hj Hn. destruct (Swap_ok h i j) as (h' & E & Ee & Hok'); [done|lia|lia|].
  exists h'. split; [done|]. split; [done|]. split; [done|]. unfold Len in Hn.
  rewrite Ee. split; [apply swap_list_perm; lia|].
  intros k Hk. rewrite swap_list_lookup by lia. repeat case_decide; try lia; done.
Qed.

Lemma up_loop_ok n fuel : forall h j,
  index_ok h -> (j < n <= Len h)%nat -> (j < fuel)%nat -> up_inv (entries h) j n ->
  exists h', up_loop fuel h j = Some h' /\ sifted n h h' /\ heap_upto (entries h') n.
Proof.
  induction fuel as [|fuel IH]; intros h j Hok Hj Hf Hinv; [lia|]. simpl.
  fold (parent j). destruct (Nat.eqb_spec (parent j) j) as [E|E].
  { exists h. split; [done|]. split; [by apply sifted_refl|]. apply (up_inv_done _ j); [done|].
    left. destruct j; [done|]. pose proof (parent_lt (S j)). lia. }
  assert (0 < j)%nat as Hj0 by (destruct j; [done|lia]). pose proof (parent_lt j Hj0) as Hp.
  destruct (Less_Some h j (parent j)) as (a & b & Ha & Hb & ->); [lia|lia|]. simpl.
  destruct (less_entry a b) eqn:Hl; simpl.
  - destruct (Swap_sifted h (parent j) j n) as (h1 & -> & E1 & S1); [done|lia|lia|lia|]. simpl.
    destruct (IH h1 (parent j)) as (h' & -> & S2 & Hh).
    + apply S1.
    + rewrite (sifted_len _ _ _ S1). lia.
    + lia.
    + rewrite E1. eapply up_inv_swap; try done; unfold Len in Hj; lia.
    + exists h'. split; [done|]. split; [by eapply sifted_trans|done].
  - exists h. split; [done|]. split; [by apply sifted_refl|]. apply (up_inv_done _ j); [done|].
    right. by eapply le_at_not_less.
Qed.

(** The child that [down] picks. *)
Lemma pick_child h i n :
  (n <= Len h)%nat -> (2 * i + 1 < n)%nat ->
  exists j, (let j2 := (2 * i + 1 + 1)%nat in
             if (j2 <? n)%nat
             then letp l := Less h j2 (2 * i + 1) in Some (if (l : bool) then j2 else (2 * i + 1)%nat)
             else Some (2 * i + 1)%nat) = Some j /\ smaller_child (entries h) i j n.
Proof.
  intros Hn Hi. cbv zeta. destruct (Nat.ltb_spec (2 * i + 1 + 1) n) as [H2|H2].
  - destruct (Less_Some h (2 * i + 1 + 1) (2 * i + 1)) as (a & b & Ha & Hb & ->); [lia|lia|].
    simpl mbind. destruct (less_entry a b) eqn:Hl; eexists; (split; [done|]); (split; [lia|]);
      (split; [apply parent_child; lia|]); intros c Hc Hpc; apply parent_child in Hpc as [-> | ->]; try lia.
    + by eapply le_at_less.
    + replace (2 * i + 2)%nat with (2 * i + 1 + 1)%nat by lia. apply le_at_refl.
    + apply le_at_refl.
    + replace (2 * i + 2)%nat with (2 * i + 1 + 1)%nat by lia. by eapply le_at_not_less.
  - eexists. split; [done|]. split; [lia|]. split; [apply parent_child; lia|].
    intros c Hc Hpc. apply parent_child in Hpc as [-> | ->]; [apply le_at_refl|lia|lia].
Qed.

Lemma down_loop_ok n fuel : forall h i,
  index_ok h -> (n <= Len h)%nat -> (n - i < fuel)%nat -> down_inv (entries h) i n ->
  exists h' i', down_loop fuel h i n = Some (h', i') /\ sifted n h h' /\ (i <= i')%nat /\
    (i' = i -> h' = h /\ forall c, (0 < c < n)%nat -> c <> i -> ok_at (entries h) c) /\
    ((i < i')%nat -> heap_upto (entries h') n).
Proof.
  induction fuel as [|fuel IH]; intros h i Hok Hn Hf Hinv; [lia|]. cbn [down_loop].
  destruct (Nat.leb_spec n (2 * i + 1)) as [Hb|Hb].
  { exists h, i. split; [done|]. split; [by apply sifted_refl|]. split; [lia|]. split; [|lia].
    intros _. split; [done|]. intros c Hc Hne. apply Hinv; try done.
    intros Hpc. apply parent_child in Hpc; lia. }
  cbv zeta. destruct (pick_child h i n) as (j & Ej & Hsc); [done|done|]. cbv zeta in Ej. rewrite Ej.
  simpl mbind. pose proof Hsc as (Hj & Hpj & _). pose proof (parent_lt j ltac:(lia)) as Hij.
  destruct (Less_Some h j i) as (a & b & Ha & Hb' & ->); [lia|lia|]. simpl mbind.
  destruct (less_entry a b) eqn:Hl; simpl negb; cbv iota.
  - destruct (Swap_sifted h i j n) as (h1 & -> & E1 & S1); [done|lia|lia|lia|]. simpl mbind.
    destruct (down_inv_swap (entries h) i j n a b) as [Hd Hall]; try done.
    destruct (IH h1 j) as (h' & i' & -> & S2 & Hle & Heq & Hlt).
    + apply S1.
    + rewrite (sifted_len _ _ _ S1). lia.
    + lia.
    + by rewrite E1.
    + exists h', i'. split; [done|]. split; [by eapply sifted_trans|]. split; [lia|]. split; [lia|].
      intros _. destruct (decide (i' = j)) as [->|]; [|apply Hlt; lia].
      destruct (Heq eq_refl) as [-> Hc]. intros c Hcn.
      destruct (decide (c = j)) as [->|]; [|by apply Hc]. rewrite E1. apply Hall; [lia|lia].
  - exists h, i. split; [done|]. split; [by apply sifted_refl|]. split; [lia|]. split; [|lia].
    intros _. split; [done|]. eapply down_inv_stop; try done. by eapply le_at_not_less.
Qed.

(** ** The invariant, and the map the planner stands for *)

Definition planner_wf (h : emitPlanner) : Prop := index_ok h /\ heap_upto (entries h) (Len h).

Definition planner_map (h : emitPlanner) : gmap Z emitEntry :=
  list_to_map ((fun e => (Idx e, e)) <$> entries h).

Lemma planner_map_keys (l : list emitEntry) : ((fun e => (Idx e, e)) <$> l).*1 = Idx <$> l.
Proof. rewrite <-list_fmap_compose. by apply list_fmap_ext. Qed.

Lemma planner_map_lookup h id e :
  index_ok h -> planner_map h !! id = Some e <-> e ∈ entries h /\ Idx e = id.
Proof.
  intros Hok. unfold planner_map. rewrite <-elem_of_list_to_map.
  2:{ rewrite planner_map_keys. by apply index_ok_NoDup. }
  rewrite list_elem_of_fmap. naive_solver.
Qed.

Lemma planner_map_index h id i e :
  index_ok h -> idToIndex h !! id = Some i -> entries h !! i = Some e ->
  Idx e = id /\ planner_map h !! id = Some e.
Proof.
  intros Hok Hi He. pose proof (proj2 Hok _ _ Hi) as (e' & He' & Eid). simplify_eq.
  split; [done|]. apply planner_map_lookup; [done|]. split; [by eapply list_elem_of_lookup_2|done].
Qed.

Lemma planner_map_None h id : index_ok h -> planner_map h !! id = None <-> idToIndex h !! id = None.
Proof.
  intros Hok. split; intros H.
  - destruct (idToIndex h !! id) as [i|] eqn:E; [|done].
    destruct (proj2 Hok _ _ E) as (e & He & <-).
    destruct (planner_map_index h _ _ _ Hok E He). congruence.
  - destruct (planner_map h !! id) as [e|] eqn:E; [|done]. apply planner_map_lookup in E as [Hin <-]; [|done].
    apply list_elem_of_lookup in Hin as [i Hi]. apply (proj1 Hok) in Hi. congruence.
Qed.

Lemma planner_map_perm h h' :
  index_ok h -> index_ok h' -> entries h' ≡ₚ entries h -> planner_map h' = planner_map h.
Proof.
  intros Hok Hok' HP. apply map_eq. intros id. apply option_eq. intros e.
  rewrite !planner_map_lookup by done. by rewrite HP.
Qed.

Lemma planner_map_size h : index_ok h -> size (planner_map h) = Len h.
Proof.
  intros Hok. unfold planner_map. rewrite <-length_map_to_list, map_to_list_to_map, length_fmap; [done|].
  rewrite planner_map_keys. by apply index_ok_NoDup.
Qed.

(** Changing one entry leaves a heap except around it. *)
Lemma heap_change l l' i m n :
  (n <= m)%nat -> (i < n \/ i = 0)%nat -> (n <= length l)%nat -> heap_upto l m ->
  (i < m)%nat -> (m <= length l)%nat ->
  (forall k, (k < n)%nat -> k <> i -> l' !! k = l !! k) -> down_inv l' i n.
Proof.
  intros Hnm Hin Hn Hh Him Hm Hag. split.
  - intros c Hc Hpc Hci x y. pose proof (parent_lt c ltac:(lia)). rewrite !Hag by lia. by apply Hh; lia.
  - intros c Hc Hpc H0. pose proof (parent_lt i H0). pose proof (parent_lt c ltac:(lia)).
    intros x y. rewrite !Hag by lia. apply (le_at_trans l _ i); [lia|apply Hh; lia|].
    rewrite <-Hpc. apply Hh; lia.
Qed.

(** [down] and then, when nothing moved, [up]: what [Fix] and [Remove] do. *)
Lemma sift_ok h i n :
  index_ok h -> (i < n <= Len h)%nat -> down_inv (entries h) i n ->
  exists h', (letp r := down h i n in if (r.2 : bool) then Some r.1 else up r.1 i) = Some h' /\
             sifted n h h' /\ heap_upto (entries h') n.
Proof.
  intros Hok Hi Hd. unfold down.
  destruct (down_loop_ok n (S n) h i) as (h1 & i' & -> & S1 & Hle & Heq & Hlt); [done|lia|lia|done|].
  simpl mbind. cbn [fst snd]. destruct (Nat.ltb_spec i i') as [H|H].
  - exists h1. split; [done|]. split; [done|by apply Hlt].
  - assert (i' = i) as -> by lia. destruct (Heq eq_refl) as [-> Hc]. unfold up.
    destruct (up_loop_ok n (S i) h i) as (h' & E & S' & Hh); [done|lia|lia| |by exists h'].
    split; [by apply Hc|]. apply Hd.
Qed.

Lemma Fix_ok h i :
  index_ok h -> (i < Len h)%nat -> down_inv (entries h) i (Len h) ->
  exists h', heap_Fix h i = Some h' /\ planner_wf h' /\ planner_map h' = planner_map h.
Proof.
  intros Hok Hi Hd. destruct (sift_ok h i (Len h)) as (h' & E & S' & Hh); [done|lia|done|].
  exists h'. split; [exact E|]. pose proof S' as (Hok' & HP & _).
  split; [split; [done|by rewrite (sifted_len _ _ _ S')]|]. by apply planner_map_perm.
Qed.

Lemma set_entry_ok h i e e' :
  index_ok h -> entries h !! i = Some e -> Idx e' = Idx e ->
  exists h', set_entry h i e' = Some h' /\ index_ok h' /\ entries h' = <[i := e']> (entries h) /\
             planner_map h' = <[Idx e := e']> (planner_map h).
Proof.
  intros Hok He Eid. unfold set_entry. rewrite He. simpl. eexists. split; [done|].
  pose proof (lookup_lt_Some _ _ _ He) as Hlt.
  set (h' := mk_planner _ _). assert (index_ok h') as Hok'.
  { split; simpl.
    - intros k x Hk. apply list_lookup_insert_Some in Hk as [(<- & <- & _)|[_ Hk]]; [|by apply Hok].
      rewrite Eid. by apply Hok.
    - intros id k Hk. destruct (proj2 Hok _ _ Hk) as (x & Hx & <-).
      destruct (decide (k = i)) as [->|].
      + exists e'. rewrite list_lookup_insert_eq by done. split; [done|]. congruence.
      + exists x. by rewrite list_lookup_insert_ne. }
  split; [done|]. split; [done|]. apply map_eq. intros id. apply option_eq. intros x.
  rewrite planner_map_lookup by done. simpl. rewrite lookup_insert_Some, planner_map_lookup by done.
  rewrite !list_elem_of_lookup. split.
  - intros [[k Hk] <-]. apply list_lookup_insert_Some in Hk as [(<- & <- & _)|[Hne Hk]]; [by left|].
    right. split; [|by eauto]. intros E. apply Hne. by eapply (index_ok_inj h).
  - intros [[<- <-]|[Hne [[k Hk] <-]]].
    + split; [|done]. exists i. by rewrite list_lookup_insert_eq.
    + split; [|done]. exists k. rewrite list_lookup_insert_ne; [done|]. intros ->. congruence.
Qed.

(** Overwriting an entry and repairing the heap overwrites the key in the map. *)
Lemma set_fix_ok h i e e' :
  planner_wf h -> entries h !! i = Some e -> Idx e' = Idx e ->
  exists h', (letp h1 := set_entry h i e' in heap_Fix h1 i) = Some h' /\ planner_wf h' /\
             planner_map h' = <[Idx e := e']> (planner_map h).
Proof.
  intros [Hok Hh] He Eid. destruct (set_entry_ok h i e e') as (h1 & -> & Hok1 & E1 & <-); try done.
  simpl. pose proof (lookup_lt_Some _ _ _ He) as Hlt.
  assert (Len h1 = Len h) as EL by (unfold Len; by rewrite E1, length_insert).
  apply Fix_ok; [done|unfold Len in *; lia|]. rewrite EL, E1.
  apply (heap_change (entries h) _ i (Len h)); unfold Len; try lia; [done|].
  intros k _ Hne. by rewrite list_lookup_insert_ne.
Qed.

(** ** Insertion and removal *)

Lemma Push_ok h ec :
  planner_wf h -> idToIndex h !! Idx ec = None ->
  exists h', heap_Push h ec = Some h' /\ planner_wf h' /\
             planner_map h' = <[Idx ec := ec]> (planner_map h).
Proof.
  intros [Hok Hh] Hnew. unfold heap_Push. set (h1 := Push h ec).
  assert (Len h1 = S (Len h)) as EL by (unfold h1, Len; simpl; rewrite length_app; simpl; lia).
  assert (index_ok h1) as Hok1.
  { split; simpl.
    - intros k e Hk. apply lookup_snoc_Some in Hk as [[Hlt Hk]|[-> ->]]; [|by rewrite lookup_insert_eq].
      apply Hok in Hk. rewrite lookup_insert_ne; [done|]. congruence.
    - intros id k Hk. apply lookup_insert_Some in Hk as [[<- <-]|[Hne Hk]].
      + exists ec. by rewrite lookup_app_r, Nat.sub_diag.
      + apply Hok in Hk as (e & He & <-). exists e. split; [|done]. by apply lookup_app_l_Some. }
  destruct (up_loop_ok (Len h1) (S (Len h1 - 1)) h1 (Len h1 - 1)) as (h' & E & S' & Hh'); [done|lia|lia| |].
  { split.
    - intros c Hc Hne x y. simpl. rewrite !lookup_app_l; [apply Hh; lia|unfold Len in *; lia|].
      pose proof (parent_lt c ltac:(lia)). unfold Len in *; lia.
    - intros c Hc Hpc. pose proof (parent_lt c ltac:(lia)). lia. }
  exists h'. split; [exact E|]. pose proof S' as (Hok' & HP & _).
  split; [split; [done|by rewrite (sifted_len _ _ _ S')]|].
  rewrite (planner_map_perm h1 h') by done.
  apply map_eq. intros id. apply option_eq. intros e.
  rewrite planner_map_lookup by done. rewrite lookup_insert_Some, planner_map_lookup by done.
  simpl. rewrite elem_of_app, list_elem_of_singleton. split.
  - intros [[Hin | ->] <-]; [|by left]. right. split; [|done].
    apply list_elem_of_lookup in Hin as [k Hk]. apply Hok in Hk. congruence.
  - intros [[<- <-]|[Hne [Hin <-]]]; auto.
Qed.

Lemma Pop_ok h n e :
  index_ok h -> Len h = S n -> entries h !! n = Some e -> heap_upto (entries h) n ->
  exists h', Pop h = Some (e, h') /\ planner_wf h' /\ planner_map h' = delete (Idx e) (planner_map h).
Proof.
  intros Hok HL He Hh. unfold Pop. unfold Len in HL.
  rewrite last_lookup, HL. simpl. rewrite He. simpl. eexists. split; [done|].
  rewrite Nat.sub_0_r. set (h' := mk_planner _ _).
  assert (forall k x, take n (entries h) !! k = Some x <-> (k < n)%nat /\ entries h !! k = Some x) as Ht.
  { intros k x. rewrite lookup_take_Some. tauto. }
  assert (index_ok h') as Hok'.
  { split; simpl.
    - intros k x Hk. apply Ht in Hk as [Hlt Hk]. rewrite lookup_delete_ne; [by apply Hok|].
      intros E. pose proof (index_ok_inj h _ _ _ _ Hok He Hk E). lia.
    - intros id k Hk. apply lookup_delete_Some in Hk as [Hne Hk]. apply Hok in Hk as (x & Hx & <-).
      exists x. split; [|done]. apply Ht. split; [|done].
      pose proof (lookup_lt_Some _ _ _ Hx). destruct (decide (k = n)) as [->|]; [congruence|lia]. }
  split; [split; [done|]|].
  { unfold Len. simpl. rewrite length_take, Nat.min_l by lia.
    intros c Hc x y Hx Hy. apply Ht in Hx as [_ Hx], Hy as [_ Hy]. by eapply Hh. }
  apply map_eq. intros id. apply option_eq. intros x.
  rewrite planner_map_lookup by done. rewrite lookup_delete_Some, planner_map_lookup by done.
  simpl. rewrite !list_elem_of_lookup. setoid_rewrite Ht. split.
  - intros [(k & Hlt & Hk) <-]. split; [|by eauto]. intros E.
    pose proof (index_ok_inj h _ _ _ _ Hok He Hk E). lia.
  - intros [Hne [[k Hk] <-]]. split; [|done]. exists k. split; [|done].
    pose proof (lookup_lt_Some _ _ _ Hk). destruct (decide (k = n)) as [->|]; [congruence|lia].
Qed.

(** [Pop] after sifting the first [n] entries of a heap whose last entry was
    exchanged with the [i]-th. *)
Lemma swap_sift_pop h h1 h2 i n e :
  index_ok h -> Len h = S n -> (i < S n)%nat -> entries h !! i = Some e ->
  entries h1 = swap_list (entries h) i n -> index_ok h1 -> sifted n h1 h2 -> heap_upto (entries h2) n ->
  exists h', Pop h2 = Some (e, h') /\ planner_wf h' /\ planner_map h' = delete (Idx e) (planner_map h).
Proof.
  intros Hok HL Hi He E1 Hok1 S2 Hh. pose proof S2 as (Hok2 & HP & HU). unfold Len in HL.
  assert (Len h2 = S n) as EL.
  { rewrite (sifted_len _ _ _ S2). unfold Len. by rewrite E1, swap_list_length. }
  rewrite <-(planner_map_perm h h2); [|done|done|].
  - apply (Pop_ok h2 n e); [done|done| |done].
    rewrite HU, E1, swap_list_lookup by lia. by rewrite decide_True.
  - rewrite HP, E1. apply swap_list_perm; lia.
Qed.

Lemma heap_change_swap h h1 i n :
  planner_wf h -> Len h = S n -> (i < n \/ i = 0)%nat -> entries h1 = swap_list (entries h) i n ->
  down_inv (entries h1) i n.
Proof.
  intros [Hok Hh] HL Hi E1. unfold Len in *.
  apply (heap_change (entries h) _ i (S n)); try lia; [by rewrite <-HL|].
  intros k Hk Hne. rewrite E1, swap_list_lookup by lia. repeat case_decide; done || lia.
Qed.

Lemma heap_Pop_ok h e :
  planner_wf h -> entries h !! 0%nat = Some e ->
  exists h', heap_Pop h = Some (e, h') /\ planner_wf h' /\ planner_map h' = delete (Idx e) (planner_map h).
Proof.
  intros Hwf He. pose proof Hwf as [Hok Hh]. pose proof (lookup_lt_Some _ _ _ He) as Hlt. fold (Len h) in Hlt.
  unfold heap_Pop. destruct (Nat.eqb_spec (Len h) 0) as [|_]; [lia|].
  assert (Len h = S (Len h - 1)) as HL by lia. set (n := (Len h - 1)%nat) in *.
  destruct (Swap_ok h 0 n) as (h1 & -> & E1 & Hok1); [done|lia|lia|]. simpl mbind.
  pose proof (heap_change_swap h h1 0 n Hwf HL (or_intror eq_refl) E1) as Hd.
  unfold down. destruct (down_loop_ok n (S n) h1 0) as (h2 & i' & -> & S2 & Hle & Heq & Hgt);
    [done|unfold Len in *; rewrite E1, swap_list_length; lia|lia|done|]. simpl mbind.
  eapply (swap_sift_pop h h1 h2 0 n); try done; [lia|].
  destruct (decide (i' = 0%nat)) as [->|]; [|apply Hgt; lia].
  destruct (Heq eq_refl) as [-> Hc]. intros c Hcn. apply Hc; lia.
Qed.

Lemma heap_Remove_ok h i e :
  planner_wf h -> entries h !! i = Some e ->
  exists h', heap_Remove h i = Some (e, h') /\ planner_wf h' /\ planner_map h' = delete (Idx e) (planner_map h).
Proof.
  intros Hwf He. pose proof Hwf as [Hok Hh]. pose proof (lookup_lt_Some _ _ _ He) as Hlt. fold (Len h) in Hlt.
  unfold heap_Remove. destruct (Nat.eqb_spec (Len h) 0) as [|_]; [lia|].
  assert (Len h = S (Len h - 1)) as HL by lia. set (n := (Len h - 1)%nat) in *.
  destruct (Nat.eqb_spec n i) as [<-|Hni].
  { apply (Pop_ok h n); [done|done|done|]. intros c Hc. apply Hh. lia. }
  destruct (Swap_ok h i n) as (h1 & -> & E1 & Hok1); [done|lia|lia|]. simpl mbind.
  pose proof (heap_change_swap h h1 i n Hwf HL ltac:(lia) E1) as Hd.
  destruct (sift_ok h1 i n) as (h2 & E2 & S2 & Hh2);
    [done|unfold Len in *; rewrite E1, swap_list_length; lia|done|].
  destruct (down h1 i n) as [r|]; [|done]. cbn [mbind option_bind] in *. rewrite E2. simpl mbind.
  eapply (swap_sift_pop h h1 h2 i n); try done. lia.
Qed.

Lemma root_min l n : heap_upto l n -> (n <= length l)%nat -> forall c, (c < n)%nat -> le_at l 0 c.
Proof.
  intros Hh Hn c. induction c as [c IH] using lt_wf_ind. intros Hc.
  destruct (decide (c = 0%nat)) as [->|]; [apply le_at_refl|].
  pose proof (parent_lt c ltac:(lia)). apply (le_at_trans l 0 (parent c)); [lia|apply IH; lia|apply Hh; lia].
Qed.

(** ** The planner's operations, against the map *)

Lemma planner_wf_new : planner_wf newEmitPlanner.
Proof. split; [by split|]. intros c Hc. unfold Len in Hc. simpl in Hc. lia. Qed.

Lemma Insert_ok h ec :
  planner_wf h ->
  exists h', Insert h ec = Some h' /\ planner_wf h' /\ planner_map h' = <[Idx ec := ec]> (planner_map h).
Proof.
  intros Hwf. unfold Insert. destruct (idToIndex h !! Idx ec) as [i|] eqn:E; [|by apply Push_ok].
  pose proof (proj2 (proj1 Hwf) _ _ E) as (e & He & Eid).
  rewrite <-Eid. by apply set_fix_ok.
Qed.

Lemma bump_ok h id d :
  planner_wf h ->
  exists h', bump h id d = Some h' /\ planner_wf h' /\ planner_map h' = alter (add_times d) id (planner_map h).
Proof.
  intros Hwf. unfold bump. destruct (idToIndex h !! id) as [i|] eqn:E.
  - pose proof (proj2 (proj1 Hwf) _ _ E) as (e & He & Eid). rewrite He. simpl mbind.
    destruct (planner_map_index h id i e (proj1 Hwf) E He) as [_ Hm].
    destruct (set_fix_ok h i e (add_times d e)) as (h' & E' & Hwf' & Em); [done|done|done|].
    exists h'. split; [done|]. split; [done|]. rewrite Em, Eid. symmetry. apply map_eq. intros k.
    destruct (decide (k = id)) as [->|]; [by rewrite lookup_alter_eq, lookup_insert_eq, Hm|].
    by rewrite lookup_alter_ne, lookup_insert_ne.
  - exists h. split; [done|]. split; [done|]. symmetry. apply map_eq. intros k.
    destruct (decide (k = id)) as [->|]; [|by rewrite lookup_alter_ne].
    rewrite lookup_alter_eq. apply planner_map_None in E; [|apply Hwf]. by rewrite E.
Qed.

Lemma Delete_ok h id :
  planner_wf h ->
  exists h', Delete h id = Some h' /\ planner_wf h' /\ planner_map h' = delete id (planner_map h).
Proof.
  intros Hwf. unfold Delete. destruct (idToIndex h !! id) as [i|] eqn:E.
  - pose proof (proj2 (proj1 Hwf) _ _ E) as (e & He & <-).
    destruct (heap_Remove_ok h i e Hwf He) as (h' & -> & Hwf' & Em). by exists h'.
  - exists h. split; [done|]. split; [done|]. rewrite delete_id; [done|].
    apply planner_map_None; [apply Hwf|done].
Qed.

Lemma GetSent_ok h id : planner_wf h -> GetSent h id = Some (Sent <$> planner_map h !! id).
Proof.
  intros Hwf. unfold GetSent. destruct (idToIndex h !! id) as [i|] eqn:E.
  - pose proof (proj2 (proj1 Hwf) _ _ E) as (e & He & _). rewrite He. simpl.
    by destruct (planner_map_index h id i e (proj1 Hwf) E He) as [_ ->].
  - apply planner_map_None in E; [|apply Hwf]. by rewrite E.
Qed.

Lemma Contains_ok h id : planner_wf h -> Contains h id = bool_decide (is_Some (planner_map h !! id)).
Proof.
  intros Hwf. unfold Contains. apply bool_decide_ext. rewrite <-!not_eq_None_Some.
  by rewrite planner_map_None by apply Hwf.
Qed.

Lemma AddSent_ok h id d :
  planner_wf h ->
  exists h', AddSent h id d = Some h' /\ planner_wf h' /\ planner_map h' = alter (add_sent d) id (planner_map h).
Proof.
  intros Hwf. unfold AddSent. destruct (idToIndex h !! id) as [i|] eqn:E.
  - pose proof (proj2 (proj1 Hwf) _ _ E) as (e & He & Eid). rewrite He. simpl mbind.
    destruct (planner_map_index h id i e (proj1 Hwf) E He) as [_ Hm].
    destruct (set_entry_ok h i e (add_sent d e)) as (h' & E' & Hok' & Ee & Em); [apply Hwf|done|done|].
    exists h'. split; [done|]. split.
    + split; [done|]. pose proof (lookup_lt_Some _ _ _ He) as Hlt. unfold Len. rewrite Ee, length_insert.
      intros c Hc x y Hx Hy. pose proof (proj2 Hwf c Hc) as Hle.
      pose proof He as He1. pose proof He as He2.
      apply list_lookup_insert_Some in Hx as [(Ei & <- & _)|[_ Hx]]; [rewrite Ei in He1|];
        apply list_lookup_insert_Some in Hy as [(Ei' & <- & _)|[_ Hy]]; try rewrite Ei' in He2;
        first [apply le_entry_refl | exact (Hle _ _ He1 Hy) | exact (Hle _ _ Hx He2) | exact (Hle _ _ Hx Hy)].
    + rewrite Em, Eid. symmetry. apply map_eq. intros k.
      destruct (decide (k = id)) as [->|]; [by rewrite lookup_alter_eq, lookup_insert_eq, Hm|].
      by rewrite lookup_alter_ne, lookup_insert_ne.
  - exists h. split; [done|]. split; [done|]. symmetry. apply map_eq. intros k.
    destruct (decide (k = id)) as [->|]; [|by rewrite lookup_alter_ne].
    rewrite lookup_alter_eq. apply planner_map_None in E; [|apply Hwf]. by rewrite E.
Qed.

(** [Top] is a least entry, and there is one unless the map is empty. *)
Lemma Top_ok h :
  planner_wf h ->
  match Top h with
  | None => planner_map h = ∅
  | Some e => planner_map h !! Idx e = Some e /\
              forall id x, planner_map h !! id = Some x -> le_entry e x
  end.
Proof.
  intros Hwf. unfold Top. destruct (entries h !! 0%nat) as [e|] eqn:E.
  - split.
    + apply planner_map_lookup; [apply Hwf|]. split; [by eapply list_elem_of_lookup_2|done].
    + intros id x Hx. apply planner_map_lookup in Hx as [Hin _]; [|apply Hwf].
      apply list_elem_of_lookup in Hin as [k Hk]. pose proof (lookup_lt_Some _ _ _ Hk).
      exact (root_min _ (Len h) (proj2 Hwf) (le_n _) k ltac:(done) e x E Hk).
  - unfold planner_map. destruct (entries h); [done|discriminate].
Qed.

(** The planner is a priority map: from a well-formed planner every
    operation succeeds (no index panic, no loop left unfinished), leaves it
    well formed, and does to the entries by chunk index exactly the map
    operation of its name; [Top] and [PopFront] give an entry that no other
    entry precedes in (Times, Priority) order, and [PopFront] removes just it. *)
Theorem planner_refines_map h :
  planner_wf h ->
  let m := planner_map h in
  (forall ec, exists h', Insert h ec = Some h' /\ planner_wf h' /\ planner_map h' = <[Idx ec := ec]> m) /\
  (forall id, exists h', Increment h id = Some h' /\ planner_wf h' /\ planner_map h' = alter (add_times 1) id m) /\
  (forall id, exists h', Decrement h id = Some h' /\ planner_wf h' /\ planner_map h' = alter (add_times (-1)) id m) /\
  (forall id d, exists h', AddSent h id d = Some h' /\ planner_wf h' /\ planner_map h' = alter (add_sent d) id m) /\
  (forall id, exists h', Delete h id = Some h' /\ planner_wf h' /\ planner_map h' = delete id m) /\
  (forall id, GetSent h id = Some (Sent <$> m !! id) /\ Contains h id = bool_decide (is_Some (m !! id))) /\
  (m <> ∅ -> exists e h', Top h = Some e /\ PopFront h = Some (e, h') /\ planner_wf h' /\
     m !! Idx e = Some e /\ planner_map h' = delete (Idx e) m /\ forall id x, m !! id = Some x -> le_entry e x) /\
  (m = ∅ -> Top h = None /\ PopFront h = None).
Proof.
  intros Hwf m. split; [intros; by apply Insert_ok|]. split; [intros; by apply bump_ok|].
  split; [intros; by apply bump_ok|]. split; [intros; by apply AddSent_ok|].
  split; [intros; by apply Delete_ok|]. split; [intros; split; [by apply GetSent_ok|by apply Contains_ok]|].
  pose proof (Top_ok h Hwf) as HT. unfold Top in *. split.
  - intros Hne. destruct (entries h !! 0%nat) as [e|] eqn:E; [|done]. destruct HT as [Hm Hmin].
    destruct (heap_Pop_ok h e Hwf E) as (h' & E' & Hwf' & Em). by exists e, h'.
  - intros Hm. destruct (entries h !! 0%nat) as [e|] eqn:E.
    + destruct HT as [He _]. fold m in He. by rewrite Hm, lookup_empty in He.
    + split; [done|]. unfold PopFront, heap_Pop, Len. by destruct (entries h).
Qed.

(** Three chunks, the second allocated once more than the others. *)
Lemma planner_refines_map_witness :
  exists h, (letp h1 := Insert newEmitPlanner (mk_entry 0 1 0 7) in
             letp h2 := Insert h1 (mk_entry 1 2 0 3) in Insert h2 (mk_entry 2 1 0 5)) = Some h /\
  planner_wf h /\ exists e h', Top h = Some e /\ PopFront h = Some (e, h') /\ Idx e = 2.
Proof.
  destruct (Insert_ok newEmitPlanner (mk_entry 0 1 0 7) planner_wf_new) as (h1 & E1 & W1 & _).
  destruct (Insert_ok h1 (mk_entry 1 2 0 3) W1) as (h2 & E2 & W2 & _).
  destruct (Insert_ok h2 (mk_entry 2 1 0 5) W2) as (h3 & E3 & W3 & _).
  vm_compute in E1. injection E1 as <-. vm_compute in E2. injection E2 as <-.
  vm_compute in E3. injection E3 as <-. eexists. split; [vm_compute; reflexivity|]. split; [exact W3|].
  destruct (planner_refines_map _ W3) as (_ & _ & _ & _ & _ & _ & Hpop & _).
  destruct Hpop as (e & h' & ET & EP & _); [vm_compute; discriminate|].
  exists e, h'. split; [exact ET|]. split; [exact EP|]. vm_compute in ET. injection ET as <-. reflexivity.
Defined.
