(* ===== verification/RsStrategy.v ===== *)
(** * RsStrategy: the Reed-Solomon strategy (src/broadcast/rs/types.go, strategy.go)

    SHA-256, the Reed-Solomon codec and the protobuf codec are parameters.  A
    method that indexes a slice is in the option monad, [None] being a panic.
    The random seed of a relay is an argument of [newRelayStrategy]. *)

From S2P Require Import Prelude Types Bitmap Emit.
Open Scope Z_scope.

(** ** Configuration, chunk identifiers and preambles *)

Record Config := mk_Config {
  DataShards : Z;
  ParityShards : Z;
  ChunkLen : Z;
  BitmapThreshold : Z;
  ForwardMultiplier : Z;
  DisableBitmap : bool }.

Definition Validate (c : Config) : result error unit :=
  if (DataShards c <? 0) || (ParityShards c <? 0) || (ChunkLen c <? 0) || (BitmapThreshold c <? 0)
     || (ForwardMultiplier c <? 0)
  then Err "RS config fields must be non-negative"%string
  else if (ChunkLen c =? 0) && ((DataShards c =? 0) || (ParityShards c =? 0))
  then Err "data_shards and parity_shards must be positive when chunk_len is zero"%string
  else Ok tt.

Definition DefaultConfig : Config := mk_Config 16 16 0 50 4 false.

Record ChunkIdent := mk_ChunkIdent { Index : Z }.

(** [ChunkHandle(ci.Index)]: the conversion to [uint64]. *)
Definition Handle (ci : ChunkIdent) : ChunkHandle := u64 (Index ci).

Record Preamble := mk_Preamble {
  DataChunks : Z;
  ParityChunks : Z;
  MessageLength : Z;
  ChunkHashes : list bytes;
  MessageHash : bytes }.

(** Both counts come from int32 fields or from the configuration, so the sum
    stays far inside an int. *)
Definition TotalChunks (p : Preamble) : Z := DataChunks p + ParityChunks p.

Definition initPreamble (cfg : Config) (msgLen : Z) : option (Preamble * Z) :=
  if ChunkLen cfg =? 0 then
    letp chunkLen := divCeil msgLen (DataShards cfg) in
    let p := mk_Preamble (DataShards cfg) (ParityShards cfg) msgLen [] [] in
    let chunkLen := if TotalChunks p >=? 256
                    then chunkLen + Z.rem (64 - Z.rem chunkLen 64) 64 else chunkLen in
    Some (p, chunkLen)
  else
    letp d := divCeil msgLen (ChunkLen cfg) in
    Some (mk_Preamble d d msgLen [] [], ChunkLen cfg).

(** ** State *)

Record peerState := mk_peerState {
  bitmap : Bitmap;
  inflight : list Z;
  completed : bool }.

Record strategy := mk_strategy {
  config : Config;
  preamble : Preamble;
  isOrigin : bool;
  totalChunks : Z;
  chunks : list (option bytes);
  planner : emitPlanner;
  peers : gmap PeerID peerState;
  routingDirty : bool;
  seed : Z;
  have : Bitmap;
  complete : bool }.

Definition set_planner (s : strategy) (pl : emitPlanner) : strategy :=
  mk_strategy (config s) (preamble s) (isOrigin s) (totalChunks s) (chunks s) pl (peers s)
    (routingDirty s) (seed s) (have s) (complete s).
Definition set_peers (s : strategy) (m : gmap PeerID peerState) : strategy :=
  mk_strategy (config s) (preamble s) (isOrigin s) (totalChunks s) (chunks s) (planner s) m
    (routingDirty s) (seed s) (have s) (complete s).
Definition set_dirty (s : strategy) (b : bool) : strategy :=
  mk_strategy (config s) (preamble s) (isOrigin s) (totalChunks s) (chunks s) (planner s) (peers s)
    b (seed s) (have s) (complete s).
Definition set_complete (s : strategy) (b : bool) : strategy :=
  mk_strategy (config s) (preamble s) (isOrigin s) (totalChunks s) (chunks s) (planner s) (peers s)
    (routingDirty s) (seed s) (have s) b.
Definition set_chunk (s : strategy) (cs : list (option bytes)) (h : Bitmap) : strategy :=
  mk_strategy (config s) (preamble s) (isOrigin s) (totalChunks s) cs (planner s) (peers s)
    (routingDirty s) (seed s) h (complete s).

(** [l[i] = x] and [make([]T, n)] with a Go index or length. *)
Definition store {A} (l : list A) (i : Z) (x : A) : option (list A) :=
  letp _ := index l i in Some (<[Z.to_nat i := x]> l).
Definition make_slice {A} (n : Z) (zero : A) : option (list A) :=
  if n <? 0 then None else Some (replicate (Z.to_nat n) zero).

(** ** Queries *)

Definition strategy_HaveChunk (s : strategy) (ci : ChunkIdent) : option bool :=
  if (Index ci <? 0) || (Index ci >=? totalChunks s) then Some true
  else Get (have s) (Index ci).

(** The four big-endian bytes of [uint32(index)]. *)
Definition strategy_DedupKey (_ : strategy) (ci : ChunkIdent) : option bytes :=
  let v := u32 (Index ci) in
  Some [z2b (Z.shiftr v 24); z2b (Z.shiftr v 16); z2b (Z.shiftr v 8); z2b v].

Definition strategy_Progress (s : strategy) : Z * Z :=
  (Z.of_nat (OnesCount (have s)), DataChunks (preamble s)).

(** [uint32((seed ^ uint64(idx)*0x9E3779B97F4A7C15) >> 32)]. *)
Definition chunkPriority (s : strategy) (idx : Z) : Z :=
  u32 (Z.shiftr (Z.lxor (seed s) (u64 (u64 idx * 0x9E3779B97F4A7C15))) 32).

Definition shouldEmitRouting (s : strategy) : option bool :=
  if DisableBitmap (config s) then Some false
  else if BitmapThreshold (config s) <=? 0 then Some true
  else if totalChunks s =? 0 then None
  else Some (Z.quot (Z.of_nat (OnesCount (have s)) * 100) (totalChunks s) >=? BitmapThreshold (config s)).

(** ** Peers *)

Definition strategy_AttachPeer (s : strategy) (peer : PeerID) : option strategy :=
  letp bm := NewBitmap (totalChunks s) in
  letp fl := make_slice (totalChunks s) 0 in
  Some (set_peers s (<[peer := mk_peerState bm fl false]> (peers s))).

Definition strategy_DetachPeer (s : strategy) (peer : PeerID) (compl : bool) : strategy :=
  match peers s !! peer with
  | None => s
  | Some ps =>
      if compl then set_peers s (<[peer := mk_peerState (bitmap ps) (inflight ps) true]> (peers s))
      else set_peers s (delete peer (peers s))
  end.

(** ** Receiving *)

Definition strategy_TakeChunk (s : strategy) (peer : PeerID) (ci : ChunkIdent) (data : bytes)
  : option (strategy * (Verdict * bool * option error) * bool) :=
  if (Index ci <? 0) || (Index ci >=? totalChunks s) then Some (s, (VerdictInvalid, false, None), false)
  else if complete s then Some (s, (VerdictRedundant, false, None), false)
  else
    let idx := Index ci in
    letp old := index (chunks s) idx in
    match old with
    | Some _ => Some (s, (VerdictRedundant, false, None), false)
    | None =>
        letp cs := store (chunks s) idx (Some data) in
        letp h := Set_ (have s) idx in
        let s := set_dirty (set_chunk s cs h) true in
        letp pl := Insert (planner s) (mk_entry idx 0 0 (chunkPriority s idx)) in
        let s := set_planner s pl in
        letp s := match peers s !! peer with
                  | Some ps => letp bm := Set_ (bitmap ps) idx in
                               Some (set_peers s (<[peer := mk_peerState bm (inflight ps) (completed ps)]> (peers s)))
                  | None => Some s
                  end in
        let s := if negb (complete s) && (Z.of_nat (OnesCount (have s)) >=? DataChunks (preamble s))
                 then set_complete s true else s in
        Some (s, (VerdictAccepted, complete s, None), true)
    end.

(** [for idx, count := range ps.inflight]: the handles to cancel. *)
Fixpoint cancel_loop (bm : Bitmap) (idx : Z) (l : list Z) : option (list ChunkHandle) :=
  match l with
  | [] => Some []
  | count :: l =>
      letp g := (if count >? 0 then Get bm idx else Some false) in
      letp rest := cancel_loop bm (idx + 1) l in
      Some (if (g : bool) then u64 idx :: rest else rest)
  end.

Definition strategy_RoutingUpdate (s : strategy) (peer : PeerID) (update : option Bitmap)
  : option (strategy * list ChunkHandle * option error) :=
  match peers s !! peer with
  | None => Some (s, [], None)
  | Some ps =>
      let bm := match update with Some u => Or (bitmap ps) u | None => bitmap ps end in
      letp cancel := cancel_loop bm 0 (inflight ps) in
      Some (set_peers s (<[peer := mk_peerState bm (inflight ps) (completed ps)]> (peers s)), cancel, None)
  end.

(** ** Sending *)

(** The entry at the top cannot go to this peer now. *)
Definition skip_entry (s : strategy) (ps : peerState) (ec : emitEntry) : option bool :=
  letp has := Get (bitmap ps) (Idx ec) in
  if (has : bool) then Some true
  else letp fl := index (inflight ps) (Idx ec) in
       Some ((fl >? 0) || (negb (isOrigin s) && (Sent ec >=? ForwardMultiplier (config s)))).

(** The search loop: the found entry, the entries popped and the planner. *)
Fixpoint allocate_loop (fuel : nat) (s : strategy) (ps : peerState) (pl : emitPlanner) (skipped : list emitEntry)
  : option (option emitEntry * list emitEntry * emitPlanner) :=
  match Top pl with
  | None => Some (None, skipped, pl)
  | Some ec =>
      match fuel with
      | O => None
      | S fuel' =>
          letp sk := skip_entry s ps ec in
          if (sk : bool) then
            letp r := PopFront pl in
            allocate_loop fuel' s ps r.2 (skipped ++ [r.1])
          else Some (Some ec, skipped, pl)
      end
  end.

Fixpoint insert_all (pl : emitPlanner) (l : list emitEntry) : option emitPlanner :=
  match l with [] => Some pl | ec :: l => letp pl' := Insert pl ec in insert_all pl' l end.

(** [nil] data is read as the empty slice. *)
Definition allocate (s : strategy) (peer : PeerID) (ps : peerState) : option (strategy * option (ChunkIdent * bytes)) :=
  letp r := allocate_loop (Len (planner s)) s ps (planner s) [] in
  let '(found, skipped, pl) := r in
  letp data := match found with Some ec => index (chunks s) (Idx ec) | None => Some None end in
  letp pl := insert_all pl skipped in
  match found with
  | None => Some (set_planner s pl, None)
  | Some ec =>
      letp fl := index (inflight ps) (Idx ec) in
      letp fls := store (inflight ps) (Idx ec) (fl + 1) in
      letp pl := Increment pl (Idx ec) in
      Some (set_planner (set_peers s (<[peer := mk_peerState (bitmap ps) fls (completed ps)]> (peers s))) pl,
            Some (mk_ChunkIdent (Idx ec), default [] data))
  end.

Fixpoint strategy_PollChunks (s : strategy) (order : list PeerID)
  : option (strategy * list (ChunkDispatch ChunkIdent)) :=
  match order with
  | [] => Some (s, [])
  | peerID :: order =>
      match peers s !! peerID with
      | None => strategy_PollChunks s order
      | Some ps =>
          if completed ps then strategy_PollChunks s order
          else
            letp r := allocate s peerID ps in
            letp q := strategy_PollChunks r.1 order in
            Some (q.1, match r.2 with
                       | Some (ci, data) => mk_dispatch peerID ci data :: q.2
                       | None => q.2
                       end)
      end
  end.

Definition strategy_PollRouting (s : strategy) (force : bool) : option (strategy * option (option Bitmap)) :=
  letp emit := (if routingDirty s || force then shouldEmitRouting s else Some false) in
  if (emit : bool) then Some (set_dirty s false, Some (Some (Clone (have s)))) else Some (s, None).

Definition strategy_ChunkSent (s : strategy) (peer : PeerID) (handle : ChunkHandle) (err : option error) : option strategy :=
  match peers s !! peer with
  | None => Some s
  | Some ps =>
      let idx := i64 handle in
      if (idx <? 0) || (idx >=? totalChunks s) then Some s
      else
        letp fl := index (inflight ps) idx in
        if fl <=? 0 then Some s
        else
          letp fls := store (inflight ps) idx (fl - 1) in
          match err with
          | None =>
              letp bm := Set_ (bitmap ps) idx in
              let s := set_peers s (<[peer := mk_peerState bm fls (completed ps)]> (peers s)) in
              if negb (isOrigin s) then letp pl := AddSent (planner s) idx 1 in Some (set_planner s pl)
              else Some s
          | Some _ =>
              letp bm := Unset (bitmap ps) idx in
              let s := set_peers s (<[peer := mk_peerState bm fls (completed ps)]> (peers s)) in
              letp pl := Decrement (planner s) idx in Some (set_planner s pl)
          end
  end.

(** ** Construction, verification and decoding *)

Fixpoint chunk_list (fuel : nat) (n : nat) (l : bytes) : list bytes :=
  match fuel with
  | O => []
  | S fuel' => match l with [] => [] | _ => take n l :: chunk_list fuel' n (drop n l) end
  end.

(** [slices.Collect(slices.Chunk(s, n))]: panics when [n] is less than 1. *)
Definition slices_Chunk (l : bytes) (n : Z) : option (list bytes) :=
  if n <? 1 then None else Some (chunk_list (length l) (Z.to_nat n) l).

Section codec.
Context (sha256 : bytes -> bytes).
(** [reedsolomon.New(k, m)] succeeds. *)
Context (rs_new : Z -> Z -> bool).
(** [enc.Encode(shards)]: the shards with the parity filled in, or an error. *)
Context (rs_encode : Z -> Z -> list bytes -> option (list bytes)).
(** [enc.ReconstructData(shards)]: an empty shard is a missing one. *)
Context (rs_reconstruct : Z -> Z -> list bytes -> option (list bytes)).

(** The loop that fills the planner with one entry per shard. *)
Fixpoint plan_shards (pl : emitPlanner) (i : Z) (shards : list bytes) : option emitPlanner :=
  match shards with
  | [] => Some pl
  | _ :: rest => letp pl' := Insert pl (mk_entry i 0 0 0) in plan_shards pl' (i + 1) rest
  end.

Definition newOriginStrategy (cfg : Config) (payload : bytes) : option (result error strategy) :=
  let msgLen := Z.of_nat (length payload) in
  letp r := initPreamble cfg msgLen in
  let '(p, chunkLen) := r in
  if negb (rs_new (DataChunks p) (ParityChunks p)) then Some (Err "RS: failed to create encoder"%string)
  else
    let totalLen := chunkLen * TotalChunks p in
    let parityLen := totalLen - msgLen in
    if parityLen <? 0 then None
    else
      let msg := payload ++ replicate (Z.to_nat parityLen) Byte.x00 in
      letp shards := slices_Chunk msg chunkLen in
      match rs_encode (DataChunks p) (ParityChunks p) shards with
      | None => Some (Err "RS encode failed"%string)
      | Some shards =>
          letp pl := plan_shards newEmitPlanner 0 shards in
          let p := mk_Preamble (DataChunks p) (ParityChunks p) (MessageLength p)
                     (sha256 <$> shards) (sha256 payload) in
          letp h := AllOnesBitmap (TotalChunks p) in
          Some (Ok (mk_strategy cfg p true (TotalChunks p) (Some <$> shards) pl ∅ true 0 h false))
      end.

Definition newRelayStrategy (rand : Z) (cfg : Config) (p : option Preamble) : option (result error strategy) :=
  match p with
  | None => Some (Err "nil preamble"%string)
  | Some p =>
      if (DataChunks p <=? 0) || (ParityChunks p <? 0)
         || negb (Z.of_nat (length (ChunkHashes p)) =? TotalChunks p)
      then Some (Err "malformed preamble"%string)
      else
        let cfg := if ForwardMultiplier cfg <=? 0
                   then mk_Config (DataShards cfg) (ParityShards cfg) (ChunkLen cfg) (BitmapThreshold cfg) 4
                          (DisableBitmap cfg) else cfg in
        letp cs := make_slice (TotalChunks p) None in
        letp h := NewBitmap (TotalChunks p) in
        Some (Ok (mk_strategy cfg p false (TotalChunks p) cs newEmitPlanner ∅ false rand h false))
  end.

Definition verifyChunk (s : strategy) (idx : Z) (data : bytes) : Verdict :=
  match index (ChunkHashes (preamble s)) idx with
  | Some h => if bool_decide (sha256 data = h) then VerdictAccepted else VerdictInvalid
  | None => VerdictInvalid
  end.

Definition strategy_VerifyChunk (s : strategy) (_ : PeerID) (ci : ChunkIdent) (data : bytes) : Verdict :=
  if (Index ci <? 0) || (Index ci >=? totalChunks s) then VerdictInvalid
  else verifyChunk s (Index ci) data.

(** [shards[0]] and [shards[i]] are in range: reconstruction keeps the length
    of its argument. *)
Definition tryDecode (s : strategy) : result error bytes :=
  let p := preamble s in
  let shards := default [] <$> chunks s in
  if negb (rs_new (DataChunks p) (ParityChunks p)) then Err "create RS encoder"%string
  else
    match rs_reconstruct (DataChunks p) (ParityChunks p) shards with
    | None => Err "RS reconstruct failed"%string
    | Some shards =>
        let data := concat (take (Z.to_nat (DataChunks p)) shards) in
        if (MessageLength p <=? 0) || (MessageLength p >? Z.of_nat (length data))
        then Err "invalid message length"%string
        else
          let data := take (Z.to_nat (MessageLength p)) data in
          if bool_decide (sha256 data = MessageHash p) then Ok data
          else Err "message hash mismatch"%string
    end.

Definition strategy_Decode (s : strategy) : result error bytes := tryDecode s.

#[export] Instance rs_Strategy : Strategy ChunkIdent (option Bitmap) strategy := {
  HaveChunk := strategy_HaveChunk;
  DedupKey := strategy_DedupKey;
  AttachPeer := strategy_AttachPeer;
  DetachPeer := strategy_DetachPeer;
  VerifyChunk := strategy_VerifyChunk;
  TakeChunk := strategy_TakeChunk;
  RoutingUpdate := strategy_RoutingUpdate;
  PollChunks := strategy_PollChunks;
  PollRouting := strategy_PollRouting;
  ChunkSent := strategy_ChunkSent;
  Progress := strategy_Progress;
  Decode := strategy_Decode }.
End codec.

(** ** Wire forms *)

Section proto.
(** [proto.Marshal] and [proto.Unmarshal] of the two generated messages; the
    fields of the first are its int32 index, of the second three int32s, the
    chunk hashes and the message hash. *)
Context (pbCI_marshal : Z -> result error bytes) (pbCI_unmarshal : bytes -> result error Z).
Context (pbPre_marshal : Z * Z * Z * list bytes * bytes -> result error bytes)
        (pbPre_unmarshal : bytes -> result error (Z * Z * Z * list bytes * bytes)).

Definition ChunkIdent_Marshal (ci : ChunkIdent) : result error bytes := pbCI_marshal (i32 (Index ci)).
Definition ChunkIdent_Unmarshal (data : bytes) : result error ChunkIdent :=
  let! v := pbCI_unmarshal data in Ok (mk_ChunkIdent v).

Definition Preamble_Marshal (p : Preamble) : result error bytes :=
  pbPre_marshal (i32 (DataChunks p), i32 (ParityChunks p), i32 (MessageLength p), ChunkHashes p, MessageHash p).
Definition Preamble_Unmarshal (data : bytes) : result error Preamble :=
  let! f := pbPre_unmarshal data in
  let '(d, k, l, hs, h) := f in Ok (mk_Preamble d k l hs h).

#[export] Instance rs_ChunkIdent : ChunkIdentI ChunkIdent := {
  ci_wire := {| w_Marshal := ChunkIdent_Marshal; w_Unmarshal := ChunkIdent_Unmarshal |};
  ci_Handle := Handle }.
#[export] Instance rs_Bitmap_Wire : Wire (option Bitmap) := {
  w_Marshal b := Ok (Bitmap.Marshal (default [] b));
  w_Unmarshal data := Ok (Some (Bitmap.Unmarshal data)) }.
End proto.

(** ** Slices with Go indices *)

Lemma index_nat {A} (l : list A) i : index l (Z.of_nat i) = l !! i.
Proof. unfold index. rewrite (proj2 (Z.ltb_ge _ _)) by lia. by rewrite Nat2Z.id. Qed.

Lemma store_nat {A} (l : list A) i x : (i < length l)%nat -> store l (Z.of_nat i) x = Some (<[i := x]> l).
Proof.
  intros Hi. unfold store. rewrite index_nat.
  destruct (lookup_lt_is_Some_nat l i Hi) as [y ->]. simpl. by rewrite Nat2Z.id.
Qed.

Lemma in_range_nat i n :
  (i <? 0) || (i >=? Z.of_nat n) = false -> exists k : nat, i = Z.of_nat k /\ (k < n)%nat.
Proof. intros H. apply orb_false_iff in H as [H1 H2]. z_bool. exists (Z.to_nat i). lia. Qed.

(** ** The invariant *)

Record peer_wf (n : nat) (ps : peerState) : Prop := {
  pw_bitmap : length (bitmap ps) = length (zero_bits n);
  pw_inflight : length (inflight ps) = n;
  pw_nonneg : Forall (fun c => 0 <= c) (inflight ps) }.

Record strategy_wf (s : strategy) : Prop := {
  w_total : totalChunks s = Z.of_nat (length (chunks s));
  w_pos : (0 < length (chunks s))%nat;
  w_small : Z.of_nat (length (chunks s)) < 2 ^ 62;
  w_planner : planner_wf (planner s);
  w_keys : forall id, is_Some (planner_map (planner s) !! id) <->
           exists i d, id = Z.of_nat i /\ chunks s !! i = Some (Some d);
  w_have_len : length (have s) = length (zero_bits (length (chunks s)));
  w_have : forall i, gbit (have s) i = true <-> exists d, chunks s !! i = Some (Some d);
  w_origin : isOrigin s = true -> forall i, (i < length (chunks s))%nat -> exists d, chunks s !! i = Some (Some d);
  w_peers : forall p ps, peers s !! p = Some ps -> peer_wf (length (chunks s)) ps;
  w_complete : complete s = true <->
               isOrigin s = false /\ DataChunks (preamble s) <= Z.of_nat (OnesCount (have s)) }.

Lemma small_of_len n (b : Bitmap) : Z.of_nat n < 2 ^ 62 -> length b = length (zero_bits n) -> bitmap_small b.
Proof. intros Hn E. unfold bitmap_small. rewrite E. by apply zero_bits_small. Qed.

Lemma bitmap_range n (b : Bitmap) i : length b = length (zero_bits n) -> (i < n)%nat -> (i < 8 * length b)%nat.
Proof. intros E Hi. pose proof (zero_bits_length n). rewrite E. lia. Qed.

Lemma peer_small s p ps : strategy_wf s -> peers s !! p = Some ps -> bitmap_small (bitmap ps).
Proof.
  intros Hw Hp. destruct (w_peers s Hw p ps Hp) as [Hb _ _].
  eapply small_of_len; [exact (w_small s Hw)|done].
Qed.

Lemma have_small s : strategy_wf s -> bitmap_small (have s).
Proof. intros Hw. eapply small_of_len; [exact (w_small s Hw)|exact (w_have_len s Hw)]. Qed.

Lemma guard_nat s i :
  strategy_wf s -> (i <? 0) || (i >=? totalChunks s) = false ->
  exists k : nat, i = Z.of_nat k /\ (k < length (chunks s))%nat.
Proof. intros Hw. rewrite (w_total s Hw). apply in_range_nat. Qed.

(** Replacing one peer's state, the planner's counters or the dirty flag. *)
Lemma wf_set_peer s p ps :
  strategy_wf s -> peer_wf (length (chunks s)) ps -> strategy_wf (set_peers s (<[p := ps]> (peers s))).
Proof.
  intros Hw Hps. destruct Hw. split; simpl; try done.
  intros q qs. rewrite lookup_insert_Some. intros [[<- <-]|[_ H]]; eauto.
Qed.

Lemma wf_set_planner s pl :
  strategy_wf s -> planner_wf pl ->
  (forall id, is_Some (planner_map pl !! id) <-> is_Some (planner_map (planner s) !! id)) ->
  strategy_wf (set_planner s pl).
Proof. intros Hw Hpl Hk. destruct Hw. split; simpl; try done. intros id. by rewrite Hk. Qed.

Lemma alter_keys {A} (f : A -> A) (m : gmap Z A) k id : is_Some (alter f k m !! id) <-> is_Some (m !! id).
Proof.
  destruct (decide (k = id)) as [->|]; [by rewrite lookup_alter_eq, fmap_is_Some|by rewrite lookup_alter_ne].
Qed.

Lemma wf_set_dirty s b : strategy_wf s -> strategy_wf (set_dirty s b).
Proof. intros []. by split. Qed.

#[export] Hint Resolve wf_set_dirty wf_set_peer : ethp2p.

(** ** Attaching and detaching *)

Lemma AttachPeer_eq s p :
  strategy_wf s ->
  strategy_AttachPeer s p =
    Some (set_peers s (<[p := mk_peerState (zero_bits (length (chunks s))) (replicate (length (chunks s)) 0) false]> (peers s))).
Proof.
  intros Hw. unfold strategy_AttachPeer. rewrite (w_total s Hw), NewBitmap_spec by apply Hw. simpl.
  unfold make_slice. rewrite (proj2 (Z.ltb_ge _ _)) by lia. simpl. by rewrite Nat2Z.id.
Qed.

Lemma AttachPeer_wf s p : strategy_wf s -> exists s', strategy_AttachPeer s p = Some s' /\ strategy_wf s'.
Proof.
  intros Hw. rewrite AttachPeer_eq by done. eexists. split; [done|]. apply wf_set_peer; [done|].
  split; simpl; [done|apply length_replicate|]. by apply Forall_replicate.
Qed.

Lemma DetachPeer_wf s p b : strategy_wf s -> strategy_wf (strategy_DetachPeer s p b).
Proof.
  intros Hw. unfold strategy_DetachPeer. destruct (peers s !! p) as [ps|] eqn:E; [|done].
  destruct b.
  - apply wf_set_peer; [done|]. destruct (w_peers s Hw p ps E). by split.
  - destruct Hw. split; simpl; try done. intros q qs. rewrite lookup_delete_Some. naive_solver.
Qed.

(** ** Routing *)

Lemma cancel_loop_spec bm l : forall i,
  bitmap_small bm ->
  exists c, cancel_loop bm (Z.of_nat i) l = Some c /\
    forall h, h ∈ c <-> exists j x, l !! j = Some x /\ 0 < x /\ gbit bm (i + j) = true /\ h = u64 (Z.of_nat (i + j)).
Proof.
  induction l as [|x l IH]; intros i Hs; simpl.
  - exists []. split; [done|]. intros h. split; [by intros ?%elem_of_nil|]. intros (j & y & H & _). by rewrite lookup_nil in H.
  - destruct (IH (S i) Hs) as (c & E & Hc). replace (Z.of_nat i + 1) with (Z.of_nat (S i)) by lia.
    rewrite Get_gbit by done. rewrite E. exists (if (x >? 0) && gbit bm i then u64 (Z.of_nat i) :: c else c).
    split; [by destruct (x >? 0); simpl; destruct (gbit bm i)|]. intros h.
    assert (h ∈ c <-> exists j y, (x :: l) !! (S j) = Some y /\ 0 < y /\ gbit bm (i + S j) = true /\
                                  h = u64 (Z.of_nat (i + S j))) as Hc'.
    { rewrite Hc. by setoid_rewrite Nat.add_succ_r. }
    clear Hc. destruct ((x >? 0) && gbit bm i) eqn:G.
    + apply andb_true_iff in G as [G1 G2]. rewrite elem_of_cons, Hc'. split.
      * intros [-> | (j & y & H)]; [exists 0%nat, x|by exists (S j), y].
        rewrite Nat.add_0_r. split; [done|]. split; [lia|done].
      * intros ([|j] & y & H1 & H2 & H3 & ->); [left; by rewrite Nat.add_0_r|right; by exists j, y].
    + rewrite Hc'. split; [intros (j & y & H); by exists (S j), y|].
      intros ([|j] & y & H1 & H2 & H3 & ->); [|by exists j, y]. exfalso.
      rewrite Nat.add_0_r in H3. simpl in H1. simplify_eq. rewrite H3, andb_true_r in G. lia.
Qed.

Lemma RoutingUpdate_spec s p u :
  strategy_wf s ->
  exists s' c, strategy_RoutingUpdate s p u = Some (s', c, None) /\ strategy_wf s' /\
    match peers s !! p with
    | None => s' = s /\ c = []
    | Some ps =>
        let bm := match u with Some u => Or (bitmap ps) u | None => bitmap ps end in
        s' = set_peers s (<[p := mk_peerState bm (inflight ps) (completed ps)]> (peers s)) /\
        forall h, h ∈ c <-> exists j x, inflight ps !! j = Some x /\ 0 < x /\ gbit bm j = true /\ h = Z.of_nat j
    end.
Proof.
  intros Hw. unfold strategy_RoutingUpdate. destruct (peers s !! p) as [ps|] eqn:E; [|by exists s, []].
  set (bm := match u with Some u => _ | None => _ end). destruct (w_peers s Hw p ps E) as [Hb Hi Hn].
  assert (length bm = length (bitmap ps)) as Hl by (unfold bm; destruct u; [apply Or_length|done]).
  assert (bitmap_small bm) as Hs.
  { eapply small_of_len; [exact (w_small s Hw)|]. by rewrite Hl. }
  destruct (cancel_loop_spec bm (inflight ps) 0 Hs) as (c & Ec & Hc).
  change (Z.of_nat 0) with 0 in Ec. rewrite Ec. simpl. do 2 eexists. split; [done|].
  split; [apply wf_set_peer; [done|]; split; simpl; [by rewrite Hl|done|done]|].
  split; [done|]. intros h. rewrite Hc. simpl. split.
  - intros (j & x & H1 & H2 & H3 & ->). exists j, x. apply lookup_lt_Some in H1 as Hlt.
    pose proof (w_small s Hw). rewrite u64_small by lia. done.
  - intros (j & x & H1 & H2 & H3 & ->). exists j, x. apply lookup_lt_Some in H1 as Hlt.
    pose proof (w_small s Hw). rewrite u64_small by lia. done.
Qed.

Lemma PollRouting_spec s b :
  strategy_wf s ->
  exists emit : bool, strategy_PollRouting s b =
    Some (if emit then (set_dirty s false, Some (Some (have s))) else (s, None)) /\
    (emit = true -> routingDirty s = true \/ b = true).
Proof.
  intros Hw. unfold strategy_PollRouting, shouldEmitRouting.
  pose proof (w_pos s Hw). pose proof (w_total s Hw).
  destruct (routingDirty s || b) eqn:Ed; [|by exists false].
  apply orb_true_iff in Ed.
  destruct (DisableBitmap _); simpl; [by exists false|].
  destruct (BitmapThreshold _ <=? 0); simpl; [by exists true|].
  rewrite (proj2 (Z.eqb_neq _ _)) by lia. simpl.
  destruct (Z.quot _ _ >=? _); [by exists true|by exists false].
Qed.

(** ** Receiving a chunk *)

(** The state after a chunk is stored, before the peer's bitmap and the
    completeness flag are updated. *)
Lemma take_fresh_wf s i d pl h :
  strategy_wf s -> isOrigin s = false -> chunks s !! i = Some None ->
  planner_wf pl -> planner_map pl = <[Z.of_nat i := mk_entry (Z.of_nat i) 0 0 (chunkPriority s (Z.of_nat i))]> (planner_map (planner s)) ->
  length h = length (have s) -> (forall j, gbit h j = if decide (j = i) then true else gbit (have s) j) ->
  forall ps b, (forall p q, ps !! p = Some q -> peer_wf (length (chunks s)) q) ->
  (b = true <-> DataChunks (preamble s) <= Z.of_nat (OnesCount h)) ->
  strategy_wf (mk_strategy (config s) (preamble s) (isOrigin s) (totalChunks s) (<[i := Some d]> (chunks s)) pl ps
    true (seed s) h b).
Proof.
  intros Hw Ho Hi Hpl Em Hl Hg ps b Hps Hb. pose proof (lookup_lt_Some _ _ _ Hi) as Hlt.
  assert (forall j, (exists x, <[i := Some d]> (chunks s) !! j = Some (Some x)) <->
                    j = i \/ exists x, chunks s !! j = Some (Some x)) as Hc.
  { intros j. destruct (decide (j = i)) as [->|].
    - rewrite list_lookup_insert_eq by done. split; [by left|by eauto].
    - rewrite list_lookup_insert_ne by done. naive_solver. }
  destruct Hw. split; simpl; rewrite ?length_insert; try done.
  - intros id. rewrite Em. destruct (decide (Z.of_nat i = id)) as [<-|Hne].
    + rewrite lookup_insert_eq. split; [|by eauto]. intros _. exists i, d. by rewrite list_lookup_insert_eq.
    + rewrite lookup_insert_ne by done. rewrite w_keys0. split; intros (j & x & -> & Hj); exists j, x;
        (split; [done|]); [rewrite list_lookup_insert_ne; [done|]|rewrite list_lookup_insert_ne in Hj; [done|]];
        intros ->; done.
  - congruence.
  - intros j. rewrite Hc, Hg. case_decide; [naive_solver|]. rewrite w_have0. naive_solver.
  - congruence.
  - rewrite Ho, Hb. tauto.
Qed.

Definition takes (s : strategy) (i : nat) : Prop := complete s = false /\ chunks s !! i = Some None.

Lemma takes_relay s i : strategy_wf s -> takes s i -> isOrigin s = false.
Proof.
  intros Hw [_ Hi]. destruct (isOrigin s) eqn:E; [|done].
  destruct (w_origin s Hw E i) as [d Hd]; [by eapply lookup_lt_Some|]. congruence.
Qed.

Lemma TakeChunk_spec s p ci d :
  strategy_wf s ->
  exists s' v f x, strategy_TakeChunk s p ci d = Some (s', (v, f, None), x) /\ strategy_wf s' /\
    ((s' = s /\ f = false /\ x = false /\
      ((v = VerdictInvalid /\ ~ 0 <= Index ci < totalChunks s) \/
       (v = VerdictRedundant /\ exists i, Index ci = Z.of_nat i /\ (i < length (chunks s))%nat /\ ~ takes s i)))
     \/
     (v = VerdictAccepted /\ x = true /\ f = complete s' /\ exists i, Index ci = Z.of_nat i /\ takes s i /\
      chunks s' = <[i := Some d]> (chunks s) /\ preamble s' = preamble s /\ isOrigin s' = isOrigin s /\
      config s' = config s /\ dom (peers s') = dom (peers s) /\
      (forall q, completed <$> (peers s' !! q) = completed <$> (peers s !! q)))).
Proof.
  intros Hw. unfold strategy_TakeChunk. destruct ((Index ci <? 0) || _) eqn:Eg.
  { do 4 eexists. split; [done|]. split; [done|]. left. repeat (split; [done|]). left. split; [done|].
    intros [H1 H2]. apply orb_true_iff in Eg as [?|?]; lia. }
  destruct (guard_nat s _ Hw Eg) as (i & Ei & Hlt). rewrite Ei.
  destruct (complete s) eqn:Ec.
  { do 4 eexists. split; [done|]. split; [done|]. left. repeat (split; [done|]). right. split; [done|].
    exists i. split; [done|]. split; [done|]. intros [? _]. congruence. }
  rewrite index_nat. destruct (lookup_lt_is_Some_nat _ _ Hlt) as [[d'|] Hi]; rewrite Hi; simpl.
  { do 4 eexists. split; [done|]. split; [done|]. left. repeat (split; [done|]). right. split; [done|].
    exists i. split; [done|]. split; [done|]. intros [_ ?]. congruence. }
  assert (takes s i) as Ht by done. pose proof (takes_relay s i Hw Ht) as Ho.
  rewrite store_nat by done. simpl.
  destruct (Set_spec (have s) i (have_small s Hw)) as (h & -> & Hl & Hg). simpl.
  assert (forall j, gbit h j = if decide (j = i) then true else gbit (have s) j) as Hg'.
  { intros j. rewrite Hg. pose proof (bitmap_range _ _ _ (w_have_len s Hw) Hlt).
    destruct (decide (j = i)) as [->|]; [by rewrite decide_True|]. by rewrite decide_False by tauto. }
  destruct (Insert_ok (planner s) (mk_entry (Z.of_nat i) 0 0 (chunkPriority s (Z.of_nat i))) (w_planner s Hw))
    as (pl & Epl & Hpl & Em). unfold chunkPriority in *. simpl in *. rewrite Epl. simpl. clear Epl.
  set (b := Z.of_nat (OnesCount h) >=? DataChunks (preamble s)).
  assert (exists m, (match peers s !! p with
      | Some ps => letp bm := Set_ (bitmap ps) (Z.of_nat i) in
                   Some (<[p := mk_peerState bm (inflight ps) (completed ps)]> (peers s))
      | None => Some (peers s) end) = Some m /\
      (forall q ps, m !! q = Some ps -> peer_wf (length (chunks s)) ps) /\ dom m = dom (peers s) /\
      (forall q, completed <$> (m !! q) = completed <$> (peers s !! q))) as (m & Em' & Hpm & Hdom & Hcmp).
  { destruct (peers s !! p) as [ps|] eqn:Ep; [|by eexists; split; [done|]; split; [apply Hw|]].
    destruct (Set_spec (bitmap ps) i (peer_small s p ps Hw Ep)) as (bm & -> & Hbl & _). simpl.
    eexists. split; [done|]. destruct (w_peers s Hw p ps Ep) as [Hb Hfl Hn]. split; [|split].
    - intros q qs. rewrite lookup_insert_Some. intros [[_ <-]|[_ Hq]]; [split; simpl; congruence|by eapply Hw].
    - rewrite dom_insert_L. apply elem_of_dom_2 in Ep. set_solver.
    - intros q. destruct (decide (p = q)) as [<-|]; [by rewrite lookup_insert_eq, Ep|by rewrite lookup_insert_ne]. }
  exists (mk_strategy (config s) (preamble s) (isOrigin s) (totalChunks s) (<[i := Some d]> (chunks s)) pl m
            true (seed s) h b), VerdictAccepted, b, true.
  split; [|split].
  - destruct (peers s !! p) as [ps|] eqn:Ep.
    + destruct (Set_ (bitmap ps) (Z.of_nat i)) as [bm|]; [|done]. simpl in *. injection Em' as <-.
      unfold set_peers, set_planner, set_dirty, set_chunk, set_complete; simpl; rewrite Ec; simpl.
      fold b. by destruct b.
    + injection Em' as <-. unfold set_peers, set_planner, set_dirty, set_chunk, set_complete; simpl; rewrite Ec; simpl.
      fold b. by destruct b.
  - eapply take_fresh_wf; try done. unfold b. rewrite Z.geb_leb. by rewrite Z.leb_le.
  - right. split; [done|]. split; [done|]. split; [done|]. exists i. repeat (split; [done|]). done.
Qed.

(** ** Reporting a send *)

Lemma Forall_insert_nonneg (l : list Z) i x : Forall (fun c => 0 <= c) l -> 0 <= x -> Forall (fun c => 0 <= c) (<[i := x]> l).
Proof. intros. by apply Forall_insert. Qed.

(** A report that is acted on: some send of chunk [i] to [p] was outstanding. *)
Definition outstanding (s : strategy) (p : PeerID) (i : nat) (c : Z) : Prop :=
  exists ps, peers s !! p = Some ps /\ inflight ps !! i = Some c /\ 0 < c.

Lemma ChunkSent_spec s p h e :
  strategy_wf s ->
  exists s', strategy_ChunkSent s p h e = Some s' /\ strategy_wf s' /\
    chunks s' = chunks s /\ preamble s' = preamble s /\ isOrigin s' = isOrigin s /\ have s' = have s /\
    complete s' = complete s /\ config s' = config s /\
    (s' = s \/ exists i ps, i64 h = Z.of_nat i /\ (i < length (chunks s))%nat /\ peers s !! p = Some ps /\
       exists c bm, inflight ps !! i = Some c /\ 0 < c /\ length bm = length (bitmap ps) /\
       (forall j, gbit bm j = if decide (j = i) then (if e then false else true) else gbit (bitmap ps) j) /\
       peers s' = <[p := mk_peerState bm (<[i := c - 1]> (inflight ps)) (completed ps)]> (peers s) /\
       planner_map (planner s') =
         (if e then alter (add_times (-1)) (Z.of_nat i) (planner_map (planner s))
          else if isOrigin s then planner_map (planner s)
          else alter (add_sent 1) (Z.of_nat i) (planner_map (planner s)))).
Proof.
  intros Hw. unfold strategy_ChunkSent.
  destruct (peers s !! p) as [ps|] eqn:Ep; [|exists s; by repeat (split; [done|]); left].
  destruct ((i64 h <? 0) || _) eqn:Eg; [exists s; by repeat (split; [done|]); left|].
  destruct (guard_nat s _ Hw Eg) as (i & -> & Hlt). destruct (w_peers s Hw p ps Ep) as [Hb Hfl Hn].
  rewrite index_nat. destruct (lookup_lt_is_Some_nat (inflight ps) i) as [c Hc]; [lia|]. rewrite Hc. simpl.
  destruct (Z.leb_spec c 0) as [|Hpos]; [exists s; by repeat (split; [done|]); left|].
  rewrite store_nat by lia. simpl. pose proof (peer_small s p ps Hw Ep) as Hs.
  assert (forall bm, length bm = length (bitmap ps) ->
    peer_wf (length (chunks s)) (mk_peerState bm (<[i := c - 1]> (inflight ps)) (completed ps))) as Hpw.
  { intros bm Hbm. split; simpl; [congruence|by rewrite length_insert|]. apply Forall_insert_nonneg; [done|lia]. }
  destruct e as [e|].
  - destruct (Unset_spec (bitmap ps) i Hs) as (bm & -> & Hl & Hg). simpl. specialize (Hpw bm Hl).
    unfold Decrement. destruct (bump_ok (planner s) (Z.of_nat i) (-1) (w_planner s Hw)) as (pl & -> & Hpl & Em).
    simpl. eexists. split; [done|]. split.
    { apply wf_set_planner; [by apply wf_set_peer|done|]. intros id. simpl. rewrite Em. apply alter_keys. }
    repeat (split; [done|]). right. exists i, ps. repeat (split; [done|]).
    exists c, bm. repeat (split; [done|]). exact Em.
  - destruct (Set_spec (bitmap ps) i Hs) as (bm & -> & Hl & Hg). simpl. specialize (Hpw bm Hl).
    assert (forall j, gbit bm j = if decide (j = i) then true else gbit (bitmap ps) j) as Hg'.
    { intros j. rewrite Hg. pose proof (bitmap_range _ _ _ Hb Hlt).
      destruct (decide (j = i)) as [->|]; [by rewrite decide_True|]. by rewrite decide_False by tauto. }
    destruct (isOrigin s) eqn:Eo; simpl.
    + eexists. split; [done|]. split; [by apply wf_set_peer|]. repeat (split; [done|]). right.
      exists i, ps. repeat (split; [done|]). by exists c, bm.
    + destruct (AddSent_ok (planner s) (Z.of_nat i) 1 (w_planner s Hw)) as (pl & -> & Hpl & Em). simpl.
      eexists. split; [done|]. split.
      { apply wf_set_planner; [by apply wf_set_peer|done|]. intros id. simpl. rewrite Em. apply alter_keys. }
      repeat (split; [done|]). right. exists i, ps. repeat (split; [done|]). by exists c, bm.
Qed.

(** ** Choosing a chunk for a peer *)

Definition restore (m : gmap Z emitEntry) (l : list emitEntry) : gmap Z emitEntry :=
  foldl (fun m e => <[Idx e := e]> m) m l.

Lemma restore_insert l : forall m e, Idx e ∉ Idx <$> l -> restore (<[Idx e := e]> m) l = <[Idx e := e]> (restore m l).
Proof.
  induction l as [|x l IH]; intros m e Hn; [done|]. rewrite fmap_cons, not_elem_of_cons in Hn.
  destruct Hn as [Hne Hn]. simpl. rewrite <-IH by done. unfold restore. by rewrite insert_insert_ne by done.
Qed.

Lemma insert_all_ok l : forall pl,
  planner_wf pl -> exists pl', insert_all pl l = Some pl' /\ planner_wf pl' /\ planner_map pl' = restore (planner_map pl) l.
Proof.
  induction l as [|e l IH]; intros pl Hpl; simpl; [by exists pl|].
  destruct (Insert_ok pl e Hpl) as (pl1 & -> & Hpl1 & E1). simpl.
  destruct (IH pl1 Hpl1) as (pl' & -> & Hpl' & E). exists pl'. split; [done|]. split; [done|]. by rewrite E, E1.
Qed.

(** Whether an entry may go to the peer now, as a plain condition. *)
Definition eligible (s : strategy) (ps : peerState) (e : emitEntry) : Prop :=
  gbit (bitmap ps) (Z.to_nat (Idx e)) = false /\ inflight ps !! Z.to_nat (Idx e) = Some 0 /\
  (isOrigin s = false -> Sent e < ForwardMultiplier (config s)).

Lemma skip_entry_spec s ps e i :
  bitmap_small (bitmap ps) -> Idx e = Z.of_nat i -> (i < length (inflight ps))%nat ->
  Forall (fun c => 0 <= c) (inflight ps) ->
  exists b : bool, skip_entry s ps e = Some b /\ (b = false <-> eligible s ps e).
Proof.
  intros Hs Ei Hlt Hn. unfold skip_entry, eligible. rewrite Ei, Nat2Z.id, Get_gbit by done. simpl.
  destruct (gbit (bitmap ps) i) eqn:Hg; [exists true; split; [done|]; naive_solver|].
  rewrite index_nat. destruct (lookup_lt_is_Some_nat _ _ Hlt) as [c Hc]. rewrite Hc. simpl.
  assert (0 <= c) by (by eapply (Forall_lookup_1 _ _ _ _ Hn Hc)).
  eexists. split; [done|]. rewrite orb_false_iff. split.
  - intros [H1 H2]. split; [done|]. split; [f_equal; lia|]. intros Ho. rewrite Ho in H2. simpl in H2. lia.
  - intros (_ & H1 & H2). simplify_eq. split; [done|]. destruct (isOrigin s); [done|]. specialize (H2 eq_refl).
    simpl. lia.
Qed.

Section allocate_loop.
Context (s : strategy) (ps : peerState) (Hs : bitmap_small (bitmap ps))
        (Hn : Forall (fun c => 0 <= c) (inflight ps)).

(** Every chunk index of the planner has an in-flight counter. *)
Definition keyed (pl : emitPlanner) : Prop :=
  forall id, is_Some (planner_map pl !! id) -> exists i, id = Z.of_nat i /\ (i < length (inflight ps))%nat.

Lemma allocate_loop_spec fuel : forall pl acc,
  planner_wf pl -> keyed pl -> (Len pl <= fuel)%nat ->
  exists found sk pl', allocate_loop fuel s ps pl acc = Some (found, acc ++ sk, pl') /\ planner_wf pl' /\
    restore (planner_map pl') sk = planner_map pl /\
    Forall (fun e => planner_map pl !! Idx e = Some e /\ ~ eligible s ps e) sk /\
    match found with
    | None => planner_map pl' = ∅
    | Some e => planner_map pl !! Idx e = Some e /\ eligible s ps e /\
                forall id x, planner_map pl' !! id = Some x -> le_entry e x
    end.
Proof using Hs Hn.
  induction fuel as [|fuel IH]; intros pl acc Hpl Hk Hf; pose proof (Top_ok pl Hpl) as HT; unfold Top in *; simpl.
  - destruct (entries pl !! 0%nat) as [e|] eqn:E; unfold Top; rewrite E.
    + apply lookup_lt_Some in E. unfold Len in Hf. lia.
    + exists None, [], pl. rewrite app_nil_r. by repeat (split; [done|]).
  - unfold Top. destruct (entries pl !! 0%nat) as [e|] eqn:E.
    2:{ exists None, [], pl. rewrite app_nil_r. by repeat (split; [done|]). }
    destruct HT as [He Hmin]. destruct (Hk (Idx e)) as (i & Ei & Hi); [by eauto|].
    destruct (skip_entry_spec s ps e i Hs Ei Hi Hn) as (b & -> & Hb). simpl. destruct b.
    + destruct (heap_Pop_ok pl e Hpl E) as (pl1 & E1 & Hpl1 & Em). unfold PopFront. rewrite E1. simpl.
      destruct (IH pl1 (acc ++ [e])) as (f & sk & pl' & -> & Hpl' & Hr & Hsk & Hf').
      * done.
      * intros id. rewrite Em. intros [x Hx]. apply Hk. exists x. by apply lookup_delete_Some in Hx as [_ ?].
      * rewrite <-planner_map_size by apply Hpl1. rewrite Em, map_size_delete_Some by eauto.
        rewrite planner_map_size by apply Hpl. lia.
      * exists f, (e :: sk), pl'. rewrite <-app_assoc. split; [done|]. split; [done|]. rewrite Em in Hsk. split.
        { simpl. rewrite restore_insert, Hr, Em, insert_delete_id; [done|done|].
          intros Hin. apply list_elem_of_fmap in Hin as (x & Ex & Hx). rewrite Forall_forall in Hsk.
          apply Hsk in Hx as [Hx _]. rewrite <-Ex, lookup_delete_eq in Hx. done. }
        split; [|destruct f; [|done]; rewrite Em, lookup_delete_Some in Hf'; naive_solver]. constructor.
        { split; [done|]. rewrite <-Hb. done. }
        eapply Forall_impl; [exact Hsk|]. intros x [Hx Hnx]. split; [|done].
        by apply lookup_delete_Some in Hx as [_ ?].
    + exists (Some e), [], pl. rewrite app_nil_r. apply proj1 in Hb. by repeat (split; [by auto|]).
Qed.
End allocate_loop.

Lemma restore_lookup l : forall m id x, restore m l !! id = Some x -> m !! id = Some x \/ x ∈ l.
Proof.
  induction l as [|e l IH]; intros m id x H; simpl in *; [by left|].
  apply IH in H as [H|H]; [|right; by apply elem_of_cons; right].
  apply lookup_insert_Some in H as [[_ <-]|[_ H]]; [right; by apply elem_of_cons; left|by left].
Qed.

(** What sending leaves alone: the chunks, everything derived from them, and
    which peers are attached and completed. *)
Record frame (s s' : strategy) : Prop := {
  fr_chunks : chunks s' = chunks s;
  fr_preamble : preamble s' = preamble s;
  fr_origin : isOrigin s' = isOrigin s;
  fr_have : have s' = have s;
  fr_complete : complete s' = complete s;
  fr_config : config s' = config s;
  fr_peers : forall q, completed <$> (peers s' !! q) = completed <$> (peers s !! q) }.

#[global] Instance frame_preorder : PreOrder frame.
Proof. split; [by split|]. intros ??? [] []. split; congruence. Qed.

Lemma frame_set_peer s p ps ps' :
  peers s !! p = Some ps -> completed ps' = completed ps -> frame s (set_peers s (<[p := ps']> (peers s))).
Proof.
  intros Hp Hc. split; try done. intros q. simpl.
  destruct (decide (p = q)) as [<-|]; [rewrite lookup_insert_eq, Hp; simpl; congruence|by rewrite lookup_insert_ne].
Qed.

Lemma frame_set_planner s pl : frame s (set_planner s pl).
Proof. by split. Qed.

(** The choice [allocate] makes: a least entry among the eligible ones. *)
Definition chosen (s : strategy) (ps : peerState) (i : nat) (data : bytes) : Prop :=
  chunks s !! i = Some (Some data) /\
  exists e, planner_map (planner s) !! Z.of_nat i = Some e /\ eligible s ps e /\
    forall id x, planner_map (planner s) !! id = Some x -> eligible s ps x -> le_entry e x.

Lemma allocate_spec s p ps :
  strategy_wf s -> peers s !! p = Some ps ->
  exists s' r, allocate s p ps = Some (s', r) /\ strategy_wf s' /\ frame s s' /\
    match r with
    | None => peers s' = peers s /\ planner_map (planner s') = planner_map (planner s) /\
              forall id x, planner_map (planner s) !! id = Some x -> ~ eligible s ps x
    | Some (ci, data) => exists i, Index ci = Z.of_nat i /\ chosen s ps i data /\
        peers s' = <[p := mk_peerState (bitmap ps) (<[i := 1]> (inflight ps)) (completed ps)]> (peers s) /\
        planner_map (planner s') = alter (add_times 1) (Z.of_nat i) (planner_map (planner s))
    end.
Proof.
  intros Hw Hp. destruct (w_peers s Hw p ps Hp) as [Hb Hfl Hn]. unfold allocate.
  assert (keyed ps (planner s)) as Hk.
  { intros id. rewrite (w_keys s Hw). intros (i & d & -> & Hi). exists i. split; [done|].
    rewrite Hfl. by eapply lookup_lt_Some. }
  destruct (allocate_loop_spec s ps (peer_small s p ps Hw Hp) Hn (Len (planner s)) (planner s) [])
    as (found & sk & pl' & -> & Hpl' & Hr & Hsk & Hf); [apply Hw|done|done|]. simpl.
  destruct (insert_all_ok sk pl' Hpl') as (pl & Epl & Hpl & Em). rewrite Hr in Em. rewrite Forall_forall in Hsk.
  destruct found as [e|].
  - destruct Hf as (He & Hel & Hmin).
    destruct (proj1 (w_keys s Hw (Idx e)) ltac:(eauto)) as (i & d & Ei & Hd). pose proof (lookup_lt_Some _ _ _ Hd).
    rewrite Ei, !index_nat, Hd. simpl. rewrite Epl. simpl.
    pose proof Hel as (_ & H0 & _). rewrite Ei, Nat2Z.id in H0. rewrite H0. simpl. rewrite store_nat by lia. simpl.
    unfold Increment. destruct (bump_ok pl (Z.of_nat i) 1 Hpl) as (pl2 & -> & Hpl2 & Em2). simpl.
    do 2 eexists. split; [done|]. split; [|split].
    + apply wf_set_planner; [apply wf_set_peer; [done|]|done|].
      * split; simpl; [done|by rewrite length_insert|]. by apply Forall_insert_nonneg.
      * intros id. simpl. rewrite Em2, Em. apply alter_keys.
    + etrans; [|apply frame_set_planner]. by apply (frame_set_peer s p ps).
    + exists i. split; [done|]. split; [|split; [done|simpl; by rewrite Em2, Em]].
      split; [done|]. exists e. rewrite <-Ei. split; [done|]. split; [done|].
      intros id x Hx Hex. rewrite <-Hr in Hx. apply restore_lookup in Hx as [Hx|Hx]; [by eapply Hmin|].
      by destruct (Hsk x Hx).
  - simpl. rewrite Epl. simpl. do 2 eexists. split; [done|]. split; [|split; [apply frame_set_planner|]].
    + apply wf_set_planner; [done|done|]. intros id. by rewrite Em.
    + split; [done|]. split; [done|]. intros id x Hx. rewrite <-Hr in Hx.
      apply restore_lookup in Hx as [Hx|Hx]; [by rewrite Hf, lookup_empty in Hx|]. by destruct (Hsk x Hx).
Qed.

(** ** Polling *)

(** A dispatch that is right for the state [s] it was made in. *)
Definition good_dispatch (s : strategy) (d : ChunkDispatch ChunkIdent) : Prop :=
  exists ps i, peers s !! cd_peer d = Some ps /\ completed ps = false /\ Index (cd_chunkID d) = Z.of_nat i /\
    chunks s !! i = Some (Some (cd_data d)) /\ gbit (bitmap ps) i = false /\ inflight ps !! i = Some 0.

(** The in-flight count of a dispatched chunk goes from 0 to 1, the peer's
    bitmap stays. *)
Definition counted (s s' : strategy) (d : ChunkDispatch ChunkIdent) : Prop :=
  exists ps ps', peers s !! cd_peer d = Some ps /\ peers s' !! cd_peer d = Some ps' /\
    bitmap ps' = bitmap ps /\ inflight ps' = <[Z.to_nat (Index (cd_chunkID d)) := 1]> (inflight ps).

Record polled (order : list PeerID) (s s' : strategy) (l : list (ChunkDispatch ChunkIdent)) : Prop := {
  po_wf : strategy_wf s';
  po_frame : frame s s';
  po_good : forall d, d ∈ l -> good_dispatch s d /\ counted s s' d /\ cd_peer d ∈ order;
  po_once : NoDup (cd_peer <$> l);
  po_other : forall q, q ∉ order -> peers s' !! q = peers s !! q }.

Lemma polled_nil s : strategy_wf s -> polled [] s s [].
Proof. intros Hw. split; try done; [by intros d ?%elem_of_nil|constructor]. Qed.

Lemma polled_skip p order s s' l : polled order s s' l -> polled (p :: order) s s' l.
Proof.
  intros []. split; try done.
  - intros d Hd. apply po_good0 in Hd as (? & ? & ?). repeat (split; [done|]). by apply elem_of_cons; right.
  - intros q. rewrite not_elem_of_cons. naive_solver.
Qed.

(** Dispatches to the later peers are unaffected by the step for [p]. *)
Lemma polled_after p order s s1 s' l :
  frame s s1 -> (forall q, q <> p -> peers s1 !! q = peers s !! q) -> p ∉ order ->
  polled order s1 s' l -> polled (p :: order) s s' l.
Proof.
  intros Hfr Hq Hp []. split; try done.
  - by etrans.
  - intros d Hd. apply po_good0 in Hd as ((ps & i & H1 & H2) & (a & b & Ha & Hb) & Hin).
    assert (cd_peer d <> p) by (intros E; by rewrite E in Hin). rewrite Hq in H1, Ha by done.
    rewrite (fr_chunks _ _ Hfr) in H2. split; [by exists ps, i|]. split; [by exists a, b|].
    by apply elem_of_cons; right.
  - intros q [Hne Hn]%not_elem_of_cons. rewrite po_other0 by done. by apply Hq.
Qed.

Lemma polled_dispatch p order s s1 s' l ps i data :
  frame s s1 -> (forall q, q <> p -> peers s1 !! q = peers s !! q) -> p ∉ order -> strategy_wf s ->
  peers s !! p = Some ps -> completed ps = false -> chosen s ps i data ->
  peers s1 !! p = Some (mk_peerState (bitmap ps) (<[i := 1]> (inflight ps)) (completed ps)) ->
  polled order s1 s' l -> polled (p :: order) s s' (mk_dispatch p (mk_ChunkIdent (Z.of_nat i)) data :: l).
Proof.
  intros Hfr Hq Hp Hw Hps Hc (Hd & e & He & (Hb & Hf & _) & _) Hps1 HP.
  pose proof (polled_after p order s s1 s' l Hfr Hq Hp HP) as HP'.
  apply planner_map_lookup in He as [_ Eid]; [|apply Hw]. rewrite Eid, Nat2Z.id in Hb, Hf.
  split; [apply HP'|apply HP'| | |apply HP'].
  - intros d [-> | Hin]%elem_of_cons; [|by apply HP'].
    split; [by exists ps, i|]. split; [|by apply elem_of_cons; left].
    eexists ps, _. split; [done|]. split; [simpl; rewrite (po_other _ _ _ _ HP) by done; exact Hps1|].
    simpl. by rewrite Nat2Z.id.
  - simpl. constructor; [|apply HP']. intros (d & E & Hd')%list_elem_of_fmap.
    apply Hp. rewrite E. by apply (po_good _ _ _ _ HP).
Qed.

Lemma PollChunks_spec order : forall s,
  strategy_wf s -> NoDup order ->
  exists s' l, strategy_PollChunks s order = Some (s', l) /\ polled order s s' l.
Proof.
  induction order as [|p order IH]; intros s Hw Hnd; simpl.
  { exists s, []. split; [done|by apply polled_nil]. }
  apply NoDup_cons in Hnd as [Hp Hnd].
  destruct (peers s !! p) as [ps|] eqn:Ep; [destruct (completed ps) eqn:Ec|].
  2:{ destruct (allocate_spec s p ps Hw Ep) as (s1 & r & -> & Hw1 & Hfr & Hr). simpl.
      destruct (IH s1 Hw1 Hnd) as (s' & l & -> & HP). simpl. destruct r as [[[idx] data]|].
      - destruct Hr as (i & Ei & Hch & Eps & _). simpl in Ei. subst idx. do 2 eexists. split; [done|].
        eapply polled_dispatch; try done; [|by rewrite Eps, lookup_insert_eq].
        intros q Hne. by rewrite Eps, lookup_insert_ne.
      - destruct Hr as (Eps & _). do 2 eexists. split; [done|].
        eapply polled_after; try done. intros q _. by rewrite Eps. }
  all: destruct (IH s Hw Hnd) as (s' & l & -> & HP); do 2 eexists; (split; [done|]); by apply polled_skip.
Qed.
