(* ===== verification/RsCorrect.v ===== *)
(** * RsCorrect: what the Reed-Solomon strategy guarantees

    The constructors establish the invariant, every sequence of the session's
    calls keeps it without a panic, and a relay that reports completeness
    decodes the publisher's payload.  The laws assumed of the codec are those
    its documentation states; the end of the file has an instance of them. *)

From S2P Require Import Prelude Types Bitmap Emit RsStrategy.
Open Scope Z_scope.

(** ** Sequences of calls

    The calls a session makes.  [OpData] is what [handleChunkData] does with a
    received chunk: the inventory check, verification, then [TakeChunk]. *)

Inductive strat_op :=
| OpAttach (p : PeerID)
| OpDetach (p : PeerID) (completed : bool)
| OpData (p : PeerID) (ci : ChunkIdent) (data : bytes)
| OpRouting (p : PeerID) (u : option Bitmap)
| OpPollChunks (order : list PeerID)
| OpPollRouting (force : bool)
| OpSent (p : PeerID) (h : ChunkHandle) (e : option error).

Section run.
Context (sha256 : bytes -> bytes).

Definition run_op (s : strategy) (o : strat_op) : option strategy :=
  match o with
  | OpAttach p => strategy_AttachPeer s p
  | OpDetach p b => Some (strategy_DetachPeer s p b)
  | OpData p ci d =>
      letp h := strategy_HaveChunk s ci in
      if (h : bool) then Some s
      else match strategy_VerifyChunk sha256 s p ci d with
           | VerdictAccepted => letp r := strategy_TakeChunk s p ci d in Some r.1.1
           | _ => Some s
           end
  | OpRouting p u => letp r := strategy_RoutingUpdate s p u in Some r.1.1
  | OpPollChunks order => letp r := strategy_PollChunks s order in Some r.1
  | OpPollRouting b => letp r := strategy_PollRouting s b in Some r.1
  | OpSent p h e => strategy_ChunkSent s p h e
  end.

Fixpoint run_ops (s : strategy) (ops : list strat_op) : option strategy :=
  match ops with [] => Some s | o :: ops => letp s' := run_op s o in run_ops s' ops end.
End run.

(** Go's [range] visits every peer once. *)
Definition op_ok (o : strat_op) : Prop := match o with OpPollChunks order => NoDup order | _ => True end.

Lemma HaveChunk_spec s ci :
  strategy_wf s ->
  strategy_HaveChunk s ci =
    Some (if decide (0 <= Index ci < totalChunks s) then gbit (have s) (Z.to_nat (Index ci)) else true).
Proof.
  intros Hw. unfold strategy_HaveChunk. destruct ((Index ci <? 0) || _) eqn:Eg.
  - rewrite decide_False; [done|]. apply orb_true_iff in Eg as [?|?]; lia.
  - destruct (guard_nat s _ Hw Eg) as (i & -> & Hlt). rewrite Get_gbit by by apply have_small.
    rewrite Nat2Z.id, decide_True; [done|]. rewrite (w_total s Hw). lia.
Qed.

Section safe.
Context (sha256 : bytes -> bytes).

(** The part of the state that receiving reads and writes. *)
Definition offers (o : strat_op) (d : bytes) : Prop := exists p ci, o = OpData p ci d.

Definition core_step (o : strat_op) (s s' : strategy) : Prop :=
  preamble s' = preamble s /\ isOrigin s' = isOrigin s /\
  (chunks s' = chunks s \/
   exists i d, chunks s !! i = Some None /\ complete s = false /\ chunks s' = <[i := Some d]> (chunks s) /\
               verifyChunk sha256 s (Z.of_nat i) d = VerdictAccepted /\ offers o d).

Lemma frame_core o s s' : frame s s' -> core_step o s s'.
Proof. intros []. split; [done|]. split; [done|]. by left. Qed.

Lemma run_op_spec s o :
  strategy_wf s -> op_ok o -> exists s', run_op sha256 s o = Some s' /\ strategy_wf s' /\ core_step o s s'.
Proof.
  intros Hw Ho. destruct o as [p|p b|p ci d|p u|order|b|p h e]; simpl.
  - destruct (AttachPeer_wf s p Hw) as (s' & E & Hw'). exists s'. split; [done|]. split; [done|].
    rewrite AttachPeer_eq in E by done. injection E as <-. split; [done|]. split; [done|]. by left.
  - eexists. split; [done|]. split; [by apply DetachPeer_wf|]. unfold strategy_DetachPeer.
    destruct (peers s !! p); [destruct b|]; (split; [done|]; split; [done|]; by left).
  - rewrite HaveChunk_spec by done. simpl. case_decide as Hr; [|by exists s; split; [done|]; split; [done|]; apply frame_core].
    destruct (gbit _ _); [by exists s; split; [done|]; split; [done|]; apply frame_core|].
    destruct (strategy_VerifyChunk sha256 s p ci d) eqn:Ev;
      try (by exists s; split; [done|]; split; [done|]; apply frame_core).
    destruct (TakeChunk_spec s p ci d Hw) as (s' & v & f & x & -> & Hw' & Hcase). simpl.
    exists s'. split; [done|]. split; [done|].
    destruct Hcase as [(-> & _)|(_ & _ & _ & i & Ei & [Hc Hi] & Ech & Hp & Hor & _)]; [by apply frame_core|].
    split; [done|]. split; [done|]. right. exists i, d. repeat (split; [done|]).
    unfold strategy_VerifyChunk in Ev. rewrite Ei in Ev. split; [by destruct (_ || _)|]. by exists p, ci.
  - destruct (RoutingUpdate_spec s p u Hw) as (s' & c & -> & Hw' & Hr). simpl. exists s'. split; [done|].
    split; [done|]. destruct (peers s !! p) as [ps|] eqn:Ep; [destruct Hr as [-> _]|destruct Hr as [-> _]].
    + apply frame_core. by apply (frame_set_peer s p ps).
    + by apply frame_core.
  - destruct (PollChunks_spec order s Hw Ho) as (s' & l & -> & HP). simpl. exists s'. split; [done|].
    split; [apply HP|]. by apply frame_core, (po_frame _ _ _ _ HP).
  - destruct (PollRouting_spec s b Hw) as (em & -> & _). simpl. eexists. split; [done|].
    destruct em; simpl; (split; [by auto with ethp2p|]); (split; [done|]; split; [done|]; by left).
  - destruct (ChunkSent_spec s p h e Hw) as (s' & E & Hw' & H1 & H2 & H3 & _). exists s'. split; [done|].
    split; [done|]. split; [done|]. split; [done|]. by left.
Qed.

Lemma run_ops_wf ops : forall s,
  strategy_wf s -> Forall op_ok ops -> exists s', run_ops sha256 s ops = Some s' /\ strategy_wf s'.
Proof.
  induction ops as [|o ops IH]; intros s Hw Hok; simpl; [by exists s|].
  apply Forall_cons in Hok as [Ho Hok]. destruct (run_op_spec s o Hw Ho) as (s1 & -> & Hw1 & _). simpl.
  by apply IH.
Qed.
End safe.

(** ** Splitting the message into shards *)

Lemma chunk_list_spec n : (0 < n)%nat -> forall k fuel (l : bytes),
  length l = (k * n)%nat -> (k <= fuel)%nat ->
  length (chunk_list fuel n l) = k /\ Forall (fun c => length c = n) (chunk_list fuel n l) /\
  forall j, concat (take j (chunk_list fuel n l)) = take (j * n) l.
Proof.
  intros Hn. induction k as [|k IH]; intros fuel l Hl Hf.
  { destruct l; [|simpl in Hl; lia]. destruct fuel; simpl; (split; [done|]; split; [constructor|]);
      intros j; by rewrite !take_nil. }
  destruct fuel as [|fuel]; [lia|]. simpl. destruct l as [|b l'] eqn:El; [simpl in Hl; lia|]. rewrite <-El in *.
  assert (length (drop n l) = (k * n)%nat) as Hd by (rewrite length_drop; lia).
  destruct (IH fuel (drop n l) Hd ltac:(lia)) as (H1 & H2 & H3).
  split; [simpl; by rewrite H1|]. split; [constructor; [|done]; rewrite length_take; lia|].
  intros [|j]; [done|]. simpl. rewrite H3.
  rewrite <-(take_drop n l) at 3. rewrite take_app, take_take, length_take, Nat.min_r by lia.
  f_equal. f_equal. lia.
Qed.

(** ** Initial preambles *)

Lemma divCeil_spec a d : 0 < d -> 0 <= a -> a + d < 2 ^ 63 ->
  exists c, divCeil a d = Some c /\ a <= c * d < a + d.
Proof.
  intros Hd Ha Hs. unfold divCeil. rewrite (proj2 (Z.eqb_neq _ _)) by lia. rewrite i64_small by lia.
  eexists. split; [done|]. rewrite Z.quot_div_nonneg by lia. Z.div_mod_to_equations; nia.
Qed.

(** A configuration and a message of sizes that an int holds comfortably. *)
Definition sizes_ok (cfg : Config) (msgLen : Z) : Prop :=
  Validate cfg = Ok tt /\ DataShards cfg < 2 ^ 31 /\ ParityShards cfg < 2 ^ 31 /\ ChunkLen cfg < 2 ^ 31 /\
  0 < msgLen < 2 ^ 62.

Lemma initPreamble_spec cfg msgLen :
  sizes_ok cfg msgLen ->
  exists p len, initPreamble cfg msgLen = Some (p, len) /\ 1 <= len /\ 1 <= DataChunks p /\ 1 <= ParityChunks p /\
    msgLen <= len * DataChunks p /\ MessageLength p = msgLen /\
    (ChunkLen cfg = 0 -> DataChunks p = DataShards cfg /\ ParityChunks p = ParityShards cfg /\
                         (256 <= TotalChunks p -> Z.rem len 64 = 0)) /\
    (ChunkLen cfg <> 0 -> len = ChunkLen cfg /\ ParityChunks p = DataChunks p /\ (DataChunks p - 1) * len < msgLen).
Proof.
  intros (Hv & H1 & H2 & H3 & H4). unfold Validate in Hv.
  destruct (_ || _) eqn:E1 in Hv; [done|]. destruct (_ && _) eqn:E2 in Hv; [done|].
  repeat (apply orb_false_iff in E1 as [E1 ?]). z_bool. unfold initPreamble.
  destruct (Z.eqb_spec (ChunkLen cfg) 0) as [Ez|Ez].
  - simpl in E2. apply orb_false_iff in E2 as [? ?]. z_bool.
    destruct (divCeil_spec msgLen (DataShards cfg)) as (c & -> & Hc); [lia|lia|lia|]. simpl.
    assert (1 <= c) by nia. unfold TotalChunks; simpl. do 2 eexists. split; [done|]. simpl.
    destruct (Z.geb_spec (DataShards cfg + ParityShards cfg) 256).
    + rewrite (Z.rem_mod_nonneg c 64) by lia. rewrite (Z.rem_mod_nonneg (64 - _) 64) by (Z.div_mod_to_equations; lia).
      pose proof (Z.mod_pos_bound (64 - c mod 64) 64 eq_refl).
      assert ((c + (64 - c mod 64) mod 64) mod 64 = 0) by (Z.div_mod_to_equations; lia).
      split; [lia|]. split; [lia|]. split; [lia|]. split; [nia|]. split; [done|]. split; [|done].
      intros _. split; [done|]. split; [done|]. intros _. rewrite Z.rem_mod_nonneg by lia. done.
    + split; [lia|]. split; [lia|]. split; [lia|]. split; [nia|]. split; [done|]. split; [|done].
      intros _. split; [done|]. split; [done|]. lia.
  - destruct (divCeil_spec msgLen (ChunkLen cfg)) as (c & -> & Hc); [lia|lia|lia|]. simpl.
    assert (1 <= c) by nia. do 2 eexists. split; [done|]. simpl. split; [lia|]. split; [lia|]. split; [lia|].
    split; [nia|]. split; [done|]. split; [done|]. intros _. split; [done|]. split; [done|]. nia.
Qed.

(** ** Construction *)

(** A relay accepts exactly the well-formed preambles. *)
Definition preamble_ok (p : Preamble) : Prop :=
  0 < DataChunks p /\ 0 <= ParityChunks p /\ Z.of_nat (length (ChunkHashes p)) = TotalChunks p.

#[global] Instance preamble_ok_dec p : Decision (preamble_ok p) := _.

Lemma newRelay_ok rand cfg p :
  preamble_ok p -> TotalChunks p < 2 ^ 62 ->
  exists s, newRelayStrategy rand cfg (Some p) = Some (Ok s) /\ strategy_wf s /\ preamble s = p /\
    isOrigin s = false /\ complete s = false /\ peers s = ∅ /\
    chunks s = replicate (length (ChunkHashes p)) None /\ 0 < ForwardMultiplier (config s).
Proof.
  intros (H1 & H2 & H3) Hs. simpl. rewrite (proj2 (Z.leb_gt _ _)), (proj2 (Z.ltb_ge _ _)) by lia.
  rewrite H3, Z.eqb_refl. simpl. unfold make_slice. rewrite (proj2 (Z.ltb_ge _ _)) by lia. simpl.
  rewrite <-H3. rewrite NewBitmap_spec by lia. simpl. rewrite Nat2Z.id.
  eexists. split; [done|]. split.
  - unfold TotalChunks in *. split; simpl; rewrite ?length_replicate; try done; try lia.
    + intros id. unfold planner_map. simpl. rewrite lookup_empty. split; [by intros [? ?]|].
      intros (i & d & _ & H). by apply lookup_replicate in H as [? _].
    + intros i. rewrite zero_bits_gbit. split; [done|]. intros (d & H). by apply lookup_replicate in H as [? _].
    + split; [done|]. intros [_ H].
      assert (OnesCount (zero_bits (length (ChunkHashes p))) = 0%nat) as E0; [|lia].
      rewrite OnesCount_count. apply (count_bits_app_0 _ 0). intros i _. apply zero_bits_gbit.
  - simpl. repeat (split; [done|]). destruct (Z.leb_spec (ForwardMultiplier cfg) 0); simpl; lia.
Qed.

Lemma newRelay_err rand cfg p :
  ~ preamble_ok p -> exists e, newRelayStrategy rand cfg (Some p) = Some (Err e).
Proof.
  intros H. simpl. destruct ((_ || _) || _) eqn:E; [by eexists|]. exfalso. apply H. z_bool.
  unfold preamble_ok. lia.
Qed.

Lemma plan_shards_ok l : forall pl i,
  planner_wf pl -> (forall id, is_Some (planner_map pl !! id) <-> 0 <= id < Z.of_nat i) ->
  exists pl', plan_shards pl (Z.of_nat i) l = Some pl' /\ planner_wf pl' /\
    forall id, is_Some (planner_map pl' !! id) <-> 0 <= id < Z.of_nat (i + length l).
Proof.
  induction l as [|x l IH]; intros pl i Hpl Hk; simpl.
  { exists pl. rewrite Nat.add_0_r. done. }
  destruct (Insert_ok pl (mk_entry (Z.of_nat i) 0 0 0) Hpl) as (pl1 & -> & Hpl1 & Em). simpl.
  replace (Z.of_nat i + 1) with (Z.of_nat (S i)) by lia.
  destruct (IH pl1 (S i)) as (pl' & -> & Hpl' & Hk'); [done| |].
  - intros id. rewrite Em. simpl. rewrite lookup_insert_is_Some, Hk. lia.
  - exists pl'. split; [done|]. split; [done|]. intros id. rewrite Hk'. lia.
Qed.

Section codec.
Context (sha256 : bytes -> bytes) (rs_new : Z -> Z -> bool)
        (rs_encode rs_reconstruct : Z -> Z -> list bytes -> option (list bytes)).

(** [New] demands at least one data shard and at most 65536 shards. *)
Hypothesis rs_new_counts : forall k m, rs_new k m = true -> 0 < k /\ 0 <= m /\ k + m <= 65536.
(** [Encode] demands all the shards, keeps the data shards and the lengths. *)
Hypothesis rs_encode_systematic : forall k m sh full,
  rs_new k m = true -> rs_encode k m sh = Some full ->
  Z.of_nat (length sh) = k + m /\ length <$> full = length <$> sh /\ take (Z.to_nat k) full = take (Z.to_nat k) sh.
(** [ReconstructData] recovers the data shards from any [k] shards. *)
Hypothesis rs_reconstruct_mds : forall k m sh full known present,
  rs_new k m = true -> rs_encode k m sh = Some full -> length known = length full ->
  (forall i x, known !! i = Some x -> x = [] \/ full !! i = Some x) ->
  NoDup present -> (forall i, i ∈ present -> exists x, known !! i = Some x /\ x <> []) ->
  k <= Z.of_nat (length present) ->
  exists out, rs_reconstruct k m known = Some out /\ take (Z.to_nat k) out = take (Z.to_nat k) full.

Local Abbreviation newOrigin := (newOriginStrategy sha256 rs_new rs_encode).

(** What publishing establishes. *)
Record origin_of (payload : bytes) (o : strategy) : Prop := {
  oo_new : rs_new (DataChunks (preamble o)) (ParityChunks (preamble o)) = true;
  oo_msg : exists len sh full,
    (0 < len)%nat /\ chunks o = Some <$> full /\ Forall (fun c => length c = len) full /\
    rs_encode (DataChunks (preamble o)) (ParityChunks (preamble o)) sh = Some full /\
    (length payload <= Z.to_nat (DataChunks (preamble o)) * len)%nat /\
    exists pad, concat (take (Z.to_nat (DataChunks (preamble o))) sh)
                = take (Z.to_nat (DataChunks (preamble o)) * len) (payload ++ pad);
  oo_len : MessageLength (preamble o) = Z.of_nat (length payload);
  oo_hashes : Some <$> ChunkHashes (preamble o) = (fmap sha256) <$> chunks o;
  oo_hash : MessageHash (preamble o) = sha256 payload;
  oo_wf : strategy_wf o;
  oo_total : totalChunks o = TotalChunks (preamble o);
  oo_origin : isOrigin o = true;
  oo_nonempty : payload <> [] }.

Lemma shards_of_message payload len total :
  0 < len -> 0 < total -> len * total - Z.of_nat (length payload) >= 0 ->
  exists sh, slices_Chunk (payload ++ replicate (Z.to_nat (len * total - Z.of_nat (length payload))) Byte.x00) len = Some sh /\
    length sh = Z.to_nat total /\ Forall (fun c => length c = Z.to_nat len) sh /\
    forall j, concat (take j sh) = take (j * Z.to_nat len) (payload ++ replicate (Z.to_nat (len * total - Z.of_nat (length payload))) Byte.x00).
Proof.
  intros Hl Ht Hp. set (msg := payload ++ _). unfold slices_Chunk. rewrite (proj2 (Z.ltb_ge _ _)) by lia.
  assert (length msg = (Z.to_nat total * Z.to_nat len)%nat) as Hm.
  { unfold msg. rewrite length_app, length_replicate. nia. }
  destruct (chunk_list_spec (Z.to_nat len) ltac:(lia) (Z.to_nat total) (length msg) msg Hm) as (H1 & H2 & H3).
  { rewrite Hm. nia. }
  eexists. split; [done|]. done.
Qed.

Lemma Forall_length_fmap {A} (l l' : list (list A)) n :
  length <$> l' = length <$> l -> Forall (fun c => length c = n) l -> Forall (fun c => length c = n) l'.
Proof.
  intros E H. apply Forall_lookup_2. intros i x Hx.
  assert ((length <$> l') !! i = Some (length x)) as Hi by (by rewrite list_lookup_fmap, Hx).
  rewrite E, list_lookup_fmap in Hi. destruct (l !! i) as [y|] eqn:Ey; [|done]. simpl in Hi. simplify_eq.
  rewrite <-Hi. by apply (Forall_lookup_1 _ _ _ _ H Ey).
Qed.

Lemma origin_wf cfg p full pl h :
  0 < TotalChunks p < 2 ^ 62 -> Z.of_nat (length full) = TotalChunks p -> planner_wf pl ->
  (forall id, is_Some (planner_map pl !! id) <-> 0 <= id < Z.of_nat (length full)) ->
  length h = length (zero_bits (length full)) -> (forall j, gbit h j = bool_decide (j < length full)%nat) ->
  strategy_wf (mk_strategy cfg p true (TotalChunks p) (Some <$> full) pl ∅ true 0 h false).
Proof.
  intros Ht Hl Hpl Hk Hh Hg.
  assert (forall i, (exists d : bytes, (Some <$> full) !! i = Some (Some d)) <-> (i < length full)%nat) as Hc.
  { intros i. rewrite list_lookup_fmap. split.
    - intros [d H]. destruct (full !! i) eqn:E; [by eapply lookup_lt_Some|done].
    - intros H. destruct (lookup_lt_is_Some_nat _ _ H) as [d ->]. by exists d. }
  split; simpl; rewrite ?length_fmap; try done; try lia.
  - intros id. rewrite Hk. split.
    + intros Hid. destruct (proj2 (Hc (Z.to_nat id)) ltac:(lia)) as [d Hd]. exists (Z.to_nat id), d.
      split; [lia|done].
    + intros (i & d & -> & Hd). assert (i < length full)%nat by (apply Hc; eauto). lia.
  - intros i. rewrite Hg, bool_decide_eq_true. symmetry. apply Hc.
  - intros _ i Hi. by apply Hc.
Qed.

Lemma newOrigin_spec cfg payload o :
  sizes_ok cfg (Z.of_nat (length payload)) -> newOrigin cfg payload = Some (Ok o) -> origin_of payload o.
Proof using rs_encode_systematic rs_new_counts.
  intros Hsz E. unfold newOriginStrategy in E.
  destruct (initPreamble_spec cfg _ Hsz) as (p & len & Ei & H1 & H2 & H3 & H4 & H5 & _).
  rewrite Ei in E. simpl in E. destruct (rs_new _ _) eqn:En; [|done]. simpl in E.
  pose proof (rs_new_counts _ _ En) as (_ & _ & Hmax). unfold TotalChunks in E. simpl in E.
  destruct (Z.ltb_spec (len * (DataChunks p + ParityChunks p) - Z.of_nat (length payload)) 0); [done|].
  destruct (shards_of_message payload len (DataChunks p + ParityChunks p)) as (sh & Es & Hs1 & Hs2 & Hs3);
    [lia|lia|lia|]. rewrite Es in E. simpl in E.
  destruct (rs_encode (DataChunks p) (ParityChunks p) sh) as [full|] eqn:Ee; [|done].
  destruct (rs_encode_systematic _ _ _ _ En Ee) as (G1 & G2 & G3).
  assert (length full = length sh) as Hlen by (apply (f_equal length) in G2; by rewrite !length_fmap in G2).
  destruct (plan_shards_ok full newEmitPlanner 0 planner_wf_new) as (pl & Epl & Hpl & Hk).
  { intros id. unfold planner_map. simpl. rewrite lookup_empty. split; [by intros [? ?]|lia]. }
  change (Z.of_nat 0) with 0 in Epl. rewrite Epl in E. simpl in E.

  destruct (AllOnesBitmap_spec (length full)) as (h & Eh & Hh1 & Hh2); [lia|].
  replace (DataChunks p + ParityChunks p) with (Z.of_nat (length full)) in E by lia. rewrite Eh in E. simpl in E.
  injection E as <-.
  split; simpl; try done.
  - exists (Z.to_nat len), sh, full. split; [lia|]. split; [done|].
    split; [by eapply Forall_length_fmap|]. split; [done|]. split; [nia|]. eexists. apply Hs3.
  - rewrite <-!list_fmap_compose. done.
  - replace (Z.of_nat (length full)) with (TotalChunks (mk_Preamble (DataChunks p) (ParityChunks p) (MessageLength p) (sha256 <$> full) (sha256 payload))) by (unfold TotalChunks; simpl; lia).
    apply origin_wf; unfold TotalChunks; simpl; try done; lia.
  - unfold TotalChunks. simpl. lia.
  - intros ->. destruct Hsz as (_ & _ & _ & _ & Hpos). simpl in Hpos. lia.
Qed.

(** ** From publisher to decoder *)

(** [s] is a relay of [o]'s message, and every chunk it holds is [o]'s. *)
Record genuine (o s : strategy) : Prop := {
  ge_wf : strategy_wf s;
  ge_preamble : preamble s = preamble o;
  ge_relay : isOrigin s = false;
  ge_length : length (chunks s) = length (chunks o);
  ge_chunks : forall i d, chunks s !! i = Some (Some d) -> chunks o !! i = Some (Some d) }.

(** No chunk offered in the run collides under the hash with another chunk of
    the message. *)
Definition collision_free (o : strategy) (ops : list strat_op) : Prop :=
  forall op d i c, op ∈ ops -> offers op d -> chunks o !! i = Some (Some c) -> sha256 d = sha256 c -> d = c.

Lemma verify_origin payload o s i d :
  origin_of payload o -> genuine o s -> (i < length (chunks s))%nat -> verifyChunk sha256 s (Z.of_nat i) d = VerdictAccepted ->
  exists c, chunks o !! i = Some (Some c) /\ sha256 d = sha256 c.
Proof.
  intros Ho Hg Hi Hv. unfold verifyChunk in Hv. rewrite index_nat, (ge_preamble o s Hg) in Hv.
  destruct (ChunkHashes (preamble o) !! i) as [h|] eqn:Eh; [|done]. case_bool_decide as Ed; [|done].
  pose proof (f_equal (fun l => l !! i) (oo_hashes _ _ Ho)) as E. simpl in E.
  rewrite !list_lookup_fmap, Eh in E. simpl in E.
  destruct (chunks o !! i) as [[c|]|] eqn:Ec; simpl in E; [|done|done]. simplify_eq. by exists c.
Qed.

Lemma genuine_step payload o s op s' :
  origin_of payload o -> genuine o s -> op_ok op -> collision_free o [op] ->
  run_op sha256 s op = Some s' -> genuine o s'.
Proof.
  intros Ho Hg Hok Hcf E.
  destruct (run_op_spec sha256 s op (ge_wf o s Hg) Hok) as (s1 & E1 & Hw & Hp & Hi & Hc). simplify_eq.
  pose proof Hg as [_ G1 G2 G3 G4]. destruct Hc as [Ec|(i & d & Hn & Hcp & Ec & Hv & Hof)].
  - split; try congruence. intros i d. rewrite Ec. apply G4.
  - split; [done|congruence|congruence|by rewrite Ec, length_insert|].
    intros j x. rewrite Ec, list_lookup_insert_Some. intros [(<- & Ex & Hlt)|[_ Hx]]; [|by apply G4].
    injection Ex as <-. destruct (verify_origin payload o s i d Ho Hg Hlt Hv) as (c & Hc & Hs).
    rewrite (Hcf op d i c); [done|by apply list_elem_of_singleton|done|done|done].
Qed.

Lemma genuine_run payload o ops : origin_of payload o -> forall s,
  genuine o s -> Forall op_ok ops -> collision_free o ops ->
  exists s', run_ops sha256 s ops = Some s' /\ genuine o s'.
Proof.
  intros Ho. induction ops as [|op ops IH]; intros s Hg Hok Hcf; simpl; [by exists s|].
  apply Forall_cons in Hok as [Hop Hok].
  destruct (run_op_spec sha256 s op (ge_wf o s Hg) Hop) as (s1 & E1 & _). rewrite E1. simpl.
  apply IH; [|done|].
  - eapply genuine_step; try done. intros op' d i c ->%list_elem_of_singleton. apply Hcf. by apply elem_of_cons; left.
  - intros op' d i c Hin. apply Hcf. by apply elem_of_cons; right.
Qed.

Lemma decode_genuine payload o s :
  origin_of payload o -> genuine o s -> complete s = true ->
  tryDecode sha256 rs_new rs_reconstruct s = Ok payload.
Proof using rs_encode_systematic rs_new_counts rs_reconstruct_mds.
  intros Ho Hg Hc. unfold tryDecode. pose proof (ge_wf o s Hg) as Hw. rewrite (ge_preamble o s Hg).
  apply (w_complete s Hw) in Hc as [_ Hc]. rewrite (ge_preamble o s Hg) in Hc.
  rewrite (oo_new _ _ Ho). simpl.
  destruct (oo_msg _ _ Ho) as (len & sh & full & Hlen & Ech & Hfull & Ee & Hmsg & pad & Hcat).
  set (present := filter (fun i => gbit (have s) i = true) (seq 0 (8 * length (have s)))).
  assert (forall i x, (default [] <$> chunks s) !! i = Some x -> x = [] \/ full !! i = Some x) as Hk.
  { intros i x Hx. rewrite list_lookup_fmap in Hx. destruct (chunks s !! i) as [[d|]|] eqn:Ei; simplify_eq/=; [|by left].
    right. apply (ge_chunks o s Hg) in Ei. rewrite Ech, list_lookup_fmap in Ei. destruct (full !! i); by simplify_eq/=. }
  destruct (rs_reconstruct_mds _ _ sh full (default [] <$> chunks s) present (oo_new _ _ Ho) Ee) as (out & -> & Hout).
  - rewrite length_fmap, (ge_length o s Hg), Ech, length_fmap. done.
  - exact Hk.
  - apply NoDup_filter, NoDup_seq.
  - intros i [Hi _]%list_elem_of_filter. apply (w_have s Hw) in Hi as [d Hd]. exists d.
    rewrite list_lookup_fmap, Hd. split; [done|]. apply (ge_chunks o s Hg) in Hd.
    rewrite Ech, list_lookup_fmap in Hd. destruct (full !! i) as [y|] eqn:Ey; simplify_eq/=.
    apply (Forall_lookup_1 _ _ _ _ Hfull) in Ey. intros ->. simpl in Ey. lia.
  - rewrite OnesCount_count in Hc. exact Hc.
  - rewrite Hout. pose proof (rs_encode_systematic _ _ _ _ (oo_new _ _ Ho) Ee) as (_ & _ & ->).
    rewrite Hcat, (oo_len _ _ Ho). rewrite length_take, length_app, Nat2Z.id.
    assert (0 < length payload)%nat by (pose proof (oo_nonempty _ _ Ho); destruct payload; [done|simpl; lia]).
    destruct (_ || _) eqn:Eb.
    { exfalso. apply orb_true_iff in Eb as [Eb|Eb]; [lia|]. rewrite Z.gtb_ltb in Eb. apply Z.ltb_lt in Eb. lia. }
    rewrite take_take, Nat.min_l, take_app_length by lia. by rewrite (oo_hash _ _ Ho), bool_decide_eq_true_2.
Qed.

Lemma relay_genuine payload o rand cfg :
  origin_of payload o ->
  exists r, newRelayStrategy rand cfg (Some (preamble o)) = Some (Ok r) /\ genuine o r.
Proof using rs_new_counts.
  intros Ho. pose proof (rs_new_counts _ _ (oo_new _ _ Ho)) as (H1 & H2 & H3).
  pose proof (f_equal length (oo_hashes _ _ Ho)) as Hl. rewrite !length_fmap in Hl.
  assert (Z.of_nat (length (ChunkHashes (preamble o))) = TotalChunks (preamble o)) as Ht.
  { by rewrite Hl, <-(w_total o (oo_wf _ _ Ho)), (oo_total _ _ Ho). }
  destruct (newRelay_ok rand cfg (preamble o)) as (r & E & Hw & Hp & Hor & _ & _ & Hch & _);
    [by split|unfold TotalChunks; lia|].
  exists r. split; [done|]. split; try done; [by rewrite Hch, length_replicate|].
  intros i d. rewrite Hch. by intros [? _]%lookup_replicate.
Qed.

(** ** Any [DataChunks] of the publisher's chunks complete a relay *)

Lemma OnesCount_mono b b' :
  length b = length b' -> (forall i, gbit b i = true -> gbit b' i = true) -> (OnesCount b <= OnesCount b')%nat.
Proof.
  intros Hl Hm. rewrite !OnesCount_count, Hl. unfold count_bits. apply submseteq_length, NoDup_submseteq.
  - apply NoDup_filter, NoDup_seq.
  - intros i. rewrite !list_elem_of_filter. naive_solver.
Qed.

Definition holds (s : strategy) (i : nat) : Prop := exists d, chunks s !! i = Some (Some d).

(** Once held or complete, so it stays. *)
Lemma core_step_keeps op s s' :
  strategy_wf s -> strategy_wf s' -> isOrigin s = false -> core_step sha256 op s s' ->
  (forall i, holds s i -> holds s' i) /\ (complete s = true -> complete s' = true).
Proof.
  intros Hw Hw' Hr (Hp & Ho & Hc).
  assert (forall i, holds s i -> holds s' i) as Hh.
  { intros i [d Hd]. destruct Hc as [E|(j & x & Hj & _ & E & _)]; unfold holds; rewrite E; [by exists d|].
    exists d. rewrite list_lookup_insert_ne; [done|]. intros ->. congruence. }
  split; [done|]. rewrite !w_complete by done. intros [_ Hd]. split; [congruence|]. rewrite Hp.
  enough (OnesCount (have s) <= OnesCount (have s'))%nat by lia. apply OnesCount_mono.
  - assert (length (chunks s') = length (chunks s)) as El
      by (destruct Hc as [E|(j & x & Hj & _ & E & _)]; rewrite E; [done|by rewrite length_insert]).
    by rewrite !w_have_len, El by done.
  - intros i. rewrite !w_have by done. apply Hh.
Qed.

Lemma offer_genuine payload o s p i c s' :
  origin_of payload o -> genuine o s -> chunks o !! i = Some (Some c) ->
  run_op sha256 s (OpData p (mk_ChunkIdent (Z.of_nat i)) c) = Some s' -> holds s' i \/ complete s' = true.
Proof.
  intros Ho Hg Hc E. pose proof (ge_wf o s Hg) as Hw. simpl in E. rewrite HaveChunk_spec in E by done.
  pose proof (lookup_lt_Some _ _ _ Hc) as Hlt. rewrite <-(ge_length o s Hg) in Hlt.
  simpl in E. rewrite decide_True in E by (rewrite (w_total s Hw); lia). rewrite Nat2Z.id in E.
  destruct (gbit (have s) i) eqn:Eg; [injection E as <-; left; by apply (w_have s Hw)|].
  assert (strategy_VerifyChunk sha256 s p (mk_ChunkIdent (Z.of_nat i)) c = VerdictAccepted) as Ev.
  { unfold strategy_VerifyChunk. simpl. rewrite (proj2 (Z.ltb_ge _ _)) by lia.
    rewrite Z.geb_leb, (proj2 (Z.leb_gt _ _)) by (rewrite (w_total s Hw); lia). simpl. unfold verifyChunk.
    rewrite index_nat, (ge_preamble o s Hg).
    pose proof (f_equal (fun l => l !! i) (oo_hashes _ _ Ho)) as Eh. simpl in Eh.
    rewrite !list_lookup_fmap, Hc in Eh. destruct (ChunkHashes (preamble o) !! i); simplify_eq/=.
    by rewrite bool_decide_eq_true_2. }
  rewrite Ev in E. destruct (TakeChunk_spec s p (mk_ChunkIdent (Z.of_nat i)) c Hw) as (s1 & v & f & x & E1 & _ & Hcase).
  rewrite E1 in E. simpl in E. injection E as <-. simpl in Hcase.
  destruct Hcase as [(-> & _ & _ & [[_ Hr]|(_ & j & Ej & _ & Hn)])|(_ & _ & _ & j & Ej & _ & Ech & _)].
  - exfalso. apply Hr. rewrite (w_total s Hw). lia.
  - apply Nat2Z.inj in Ej as <-. right. destruct (complete s) eqn:Ec; [done|]. exfalso. apply Hn. split; [done|].
    destruct (lookup_lt_is_Some_nat _ _ Hlt) as [[d|] Hd]; [|done].
    assert (gbit (have s) i = true) by (apply (w_have s Hw); eauto). congruence.
  - apply Nat2Z.inj in Ej as <-. left. exists c. rewrite Ech. by apply list_lookup_insert_eq.
Qed.

Lemma run_keeps payload o ops : origin_of payload o -> forall s s',
  genuine o s -> Forall op_ok ops -> collision_free o ops -> run_ops sha256 s ops = Some s' ->
  (forall i, holds s i -> holds s' i) /\ (complete s = true -> complete s' = true) /\
  (forall p i c, OpData p (mk_ChunkIdent (Z.of_nat i)) c ∈ ops -> chunks o !! i = Some (Some c) ->
                 holds s' i \/ complete s' = true).
Proof.
  intros Ho. induction ops as [|op ops IH]; intros s s' Hg Hok Hcf E; simpl in E.
  { injection E as <-. split; [done|]. split; [done|]. by intros ? ? ? ?%elem_of_nil. }
  apply Forall_cons in Hok as [Hop Hok].
  destruct (run_op_spec sha256 s op (ge_wf o s Hg) Hop) as (s1 & E1 & Hw1 & Hcore). rewrite E1 in E. simpl in E.
  assert (genuine o s1) as Hg1.
  { eapply genuine_step; try done. intros op' d i c ->%list_elem_of_singleton. apply Hcf. by apply elem_of_cons; left. }
  destruct (IH s1 s' Hg1 Hok) as (H1 & H2 & H3); [|done|].
  { intros op' d i c Hin. apply Hcf. by apply elem_of_cons; right. }
  destruct (core_step_keeps op s s1 (ge_wf o s Hg) Hw1 (ge_relay o s Hg) Hcore) as [K1 K2].
  split; [naive_solver|]. split; [naive_solver|]. intros p i c [<- | Hin]%elem_of_cons Hc; [|by eapply H3].
  destruct (offer_genuine payload o s p i c s1 Ho Hg Hc E1) as [Hh|Hh]; [left; by apply H1|right; by apply H2].
Qed.

(** C1. Publisher to reader: a relay built from the publisher's preamble
    survives every sequence of session calls, including chunks with arbitrary
    bytes from any peer; as soon as it reports completeness its Decode returns
    exactly the published payload, and offering it any DataChunks distinct
    chunks of the publisher, in any order and mixed with anything else, makes
    it complete.  Only chunks that collide with a published chunk under the
    hash are excluded. *)
Theorem rs_delivery cfg payload o rand cfg' ops :
  sizes_ok cfg (Z.of_nat (length payload)) -> newOrigin cfg payload = Some (Ok o) ->
  Forall op_ok ops -> collision_free o ops ->
  exists r s, newRelayStrategy rand cfg' (Some (preamble o)) = Some (Ok r) /\
    run_ops sha256 r ops = Some s /\
    (complete s = true -> strategy_Decode sha256 rs_new rs_reconstruct s = Ok payload) /\
    (forall idxs, NoDup idxs -> DataChunks (preamble o) <= Z.of_nat (length idxs) ->
       (forall i, i ∈ idxs -> exists p c, OpData p (mk_ChunkIdent (Z.of_nat i)) c ∈ ops /\ chunks o !! i = Some (Some c)) ->
       complete s = true).
Proof using rs_encode_systematic rs_new_counts rs_reconstruct_mds.
  intros Hsz E Hok Hcf. pose proof (newOrigin_spec cfg payload o Hsz E) as Ho.
  destruct (relay_genuine payload o rand cfg' Ho) as (r & Er & Hg).
  destruct (genuine_run payload o ops Ho r Hg Hok Hcf) as (s & Es & Hgs).
  exists r, s. split; [done|]. split; [done|]. split; [intros Hc; by eapply decode_genuine|].
  intros idxs Hnd Hk Hin. destruct (run_keeps payload o ops Ho r s Hg Hok Hcf Es) as (_ & _ & H3).
  destruct (complete s) eqn:Ec; [done|]. rewrite <-Ec. pose proof (ge_wf o s Hgs) as Hw.
  apply (w_complete s Hw). split; [exact (ge_relay o s Hgs)|]. rewrite (ge_preamble o s Hgs).
  enough (length idxs <= OnesCount (have s))%nat by lia. rewrite OnesCount_count. unfold count_bits.
  apply submseteq_length, NoDup_submseteq; [done|]. intros i Hi. destruct (Hin i Hi) as (p & c & Hop & Hc).
  destruct (H3 p i c Hop Hc) as [Hh|]; [|congruence]. apply (w_have s Hw) in Hh as Hb.
  apply list_elem_of_filter. split; [done|]. apply elem_of_seq.
  destruct (decide (i < 8 * length (have s))%nat); [lia|]. rewrite gbit_ge in Hb by lia. done.
Qed.
End codec.

(** ** The contract of [Strategy] *)

Definition rs_attached (s : strategy) : gset PeerID := dom (peers s).
Definition rs_done (s : strategy) : gset PeerID := dom (filter (fun kv => completed kv.2 = true) (peers s)).

Lemma elem_attached s q : q ∈ rs_attached s <-> is_Some (completed <$> peers s !! q).
Proof. unfold rs_attached. rewrite elem_of_dom, fmap_is_Some. done. Qed.

Lemma elem_done s q : q ∈ rs_done s <-> completed <$> peers s !! q = Some true.
Proof.
  unfold rs_done. rewrite elem_of_dom. unfold is_Some. setoid_rewrite map_lookup_filter_Some. simpl.
  rewrite fmap_Some. split; intros (ps & H1 & H2); by exists ps.
Qed.

Lemma same_flags s s' :
  (forall q, completed <$> (peers s' !! q) = completed <$> (peers s !! q)) ->
  rs_attached s' = rs_attached s /\ rs_done s' = rs_done s.
Proof.
  intros H. split; apply set_eq; intros q; [by rewrite !elem_attached, H|by rewrite !elem_done, H].
Qed.

Section laws.
Context (sha256 : bytes -> bytes) (rs_new : Z -> Z -> bool)
        (rs_encode rs_reconstruct : Z -> Z -> list bytes -> option (list bytes)).

Local Abbreviation decode := (strategy_Decode sha256 rs_new rs_reconstruct).

Lemma decode_same s s' : chunks s' = chunks s -> preamble s' = preamble s -> decode s' = decode s.
Proof. intros E1 E2. unfold strategy_Decode, tryDecode. by rewrite E1, E2. Qed.

Lemma frame_laws s s' :
  frame s s' -> rs_attached s' = rs_attached s /\ rs_done s' = rs_done s /\ complete s' = complete s /\
                decode s' = decode s.
Proof.
  intros Hf. destruct (same_flags s s' (fr_peers _ _ Hf)) as [-> ->].
  split; [done|]. split; [done|]. split; [apply Hf|]. apply decode_same; apply Hf.
Qed.

Lemma attach_laws s p ps :
  completed ps = false ->
  let s' := set_peers s (<[p := ps]> (peers s)) in
  rs_attached s' = {[p]} ∪ rs_attached s /\ rs_done s' = rs_done s ∖ {[p]}.
Proof.
  intros Hc s'. split; apply set_eq; intros q.
  - unfold s', rs_attached. simpl. rewrite dom_insert_L. set_solver.
  - rewrite elem_of_difference, not_elem_of_singleton, !elem_done. unfold s'. simpl.
    destruct (decide (p = q)) as [<-|]; [rewrite lookup_insert_eq; simpl; rewrite Hc; naive_solver|].
    rewrite lookup_insert_ne by done. naive_solver.
Qed.

Lemma detach_laws s p b :
  let s' := strategy_DetachPeer s p b in
  rs_attached s' = (if b then rs_attached s else rs_attached s ∖ {[p]}) /\
  rs_done s' = (if b then rs_done s ∪ ({[p]} ∩ rs_attached s) else rs_done s ∖ {[p]}).
Proof.
  intros s'. unfold s', strategy_DetachPeer. destruct (peers s !! p) as [ps|] eqn:Ep.
  2:{ assert (p ∉ rs_attached s) by (unfold rs_attached; by rewrite not_elem_of_dom).
      assert (rs_done s ⊆ rs_attached s) by (apply dom_filter_subseteq).
      destruct b; (split; [done || set_solver|set_solver]). }
  assert (p ∈ rs_attached s) as Hin by (unfold rs_attached; by apply elem_of_dom_2 in Ep).
  destruct b; split; apply set_eq; intros q.
  - unfold rs_attached in *. simpl. rewrite dom_insert_L. set_solver.
  - rewrite elem_of_union, elem_of_intersection, elem_of_singleton, !elem_done. simpl.
    destruct (decide (p = q)) as [<-|]; [rewrite lookup_insert_eq; naive_solver|].
    rewrite lookup_insert_ne by done. naive_solver.
  - unfold rs_attached in *. simpl. rewrite dom_delete_L. done.
  - rewrite elem_of_difference, not_elem_of_singleton, !elem_done. simpl.
    destruct (decide (p = q)) as [<-|]; [rewrite lookup_delete_eq; naive_solver|].
    rewrite lookup_delete_ne by done. naive_solver.
Qed.

#[export] Program Instance rs_laws :
  @StrategyLaws ChunkIdent (option Bitmap) strategy (rs_Strategy sha256 rs_new rs_reconstruct) := {
  st_wf := strategy_wf; st_attached := rs_attached; st_done := rs_done; st_complete := complete }.
Next Obligation. intros s c Hw. simpl. rewrite HaveChunk_spec by done. by eexists. Qed.
Next Obligation.
  intros s p Hw. destruct (AttachPeer_wf s p Hw) as (s' & E & Hw'). exists s'. split; [done|]. split; [done|].
  rewrite AttachPeer_eq in E by done. injection E as <-.
  destruct (attach_laws s p (mk_peerState (zero_bits (length (chunks s))) (replicate (length (chunks s)) 0) false) eq_refl) as [-> ->].
  split; [done|]. split; [done|]. split; [done|]. by apply decode_same.
Qed.
Next Obligation.
  intros s p b Hw s'. split; [by apply DetachPeer_wf|]. unfold s'. simpl.
  split; [unfold strategy_DetachPeer; destruct (_ !! _); [destruct b|]; done|].
  split; [apply decode_same; unfold strategy_DetachPeer; destruct (_ !! _); [destruct b| |destruct b|]; done|].
  apply detach_laws.
Qed.
Next Obligation.
  intros s p c d Hw. destruct (TakeChunk_spec s p c d Hw) as (s' & v & f & x & E & Hw' & Hcase).
  exists s', v, f, None, x. split; [done|]. split; [done|].
  destruct Hcase as [(-> & -> & -> & Hv)|(-> & -> & -> & i & Ei & [Hc Hi] & _ & _ & _ & _ & _ & Hfl)].
  - split; [done|]. split; [done|]. split; [|done || (split; [|done]; intros ->; by destruct Hv as [[? _]|[? _]])].
    intros _. split; [|done]. by destruct Hv as [[-> _]|[-> _]].
  - destruct (same_flags s s' Hfl) as [-> ->]. split; [done|]. split; [done|]. rewrite Hc.
    split; [done|]. split; [done|]. by intros [].
Qed.
Next Obligation.
  intros s p u Hw. destruct (RoutingUpdate_spec s p u Hw) as (s' & c & E & Hw' & Hr). exists s', c, None.
  split; [done|]. split; [done|]. apply frame_laws.
  destruct (peers s !! p) as [ps|] eqn:Ep; destruct Hr as [-> _]; [by apply (frame_set_peer s p ps)|done].
Qed.
Next Obligation.
  intros s order Hw Ho. destruct (PollChunks_spec order s Hw) as (s' & l & E & HP).
  { rewrite Ho. apply NoDup_elements. }
  exists s', l. split; [done|]. split; [apply HP|].
  destruct (frame_laws s s' (po_frame _ _ _ _ HP)) as (-> & -> & -> & E'). repeat (split; [done|]).
  split; [|apply HP]. apply Forall_forall. intros d Hd.
  destruct (po_good _ _ _ _ HP d Hd) as ((ps & i & Hps & Hc & _) & _).
  apply elem_of_difference. rewrite elem_attached, elem_done, Hps. simpl. split; [by eexists|]. congruence.
Qed.
Next Obligation.
  intros s b Hw. destruct (PollRouting_spec s b Hw) as (em & E & _). destruct em; (do 2 eexists; split; [exact E|]); simpl; (split; [first [by apply wf_set_dirty|done]|]);
    (split; [done|]; split; [done|]; split; [done|]; by apply decode_same).
Qed.
Next Obligation.
  intros s p h e Hw. destruct (ChunkSent_spec s p h e Hw) as (s' & E & Hw' & H1 & H2 & H3 & H4 & H5 & H6 & Hc).
  exists s'. split; [done|]. split; [done|]. apply frame_laws. split; try done.
  destruct Hc as [->|(i & ps & _ & _ & Hp & c & bm & _ & _ & _ & _ & -> & _)]; [done|].
  intros q. destruct (decide (p = q)) as [<-|]; [by rewrite lookup_insert_eq, Hp|by rewrite lookup_insert_ne].
Qed.
End laws.

(** ** Properties of the single operations *)

(** The strategy never panics and never loses its invariant: from a relay
    built on any well-formed preamble, every sequence of session calls (peers
    attaching and detaching, chunks with any index and bytes, routing updates of
    any length, polls in any peer order, send reports with any handle) succeeds
    and ends in a well-formed state. *)
Theorem rs_run_safe sha256 rand cfg p ops :
  preamble_ok p -> TotalChunks p < 2 ^ 62 -> Forall op_ok ops ->
  exists r s, newRelayStrategy rand cfg (Some p) = Some (Ok r) /\ run_ops sha256 r ops = Some s /\ strategy_wf s.
Proof.
  intros Hp Ht Hok. destruct (newRelay_ok rand cfg p Hp Ht) as (r & E & Hw & _).
  destruct (run_ops_wf sha256 ops r Hw Hok) as (s & Es & Hws). by exists r, s.
Qed.

Lemma rs_run_safe_witness :
  exists r s, newRelayStrategy 7 DefaultConfig (Some (mk_Preamble 1 1 3 [[Byte.x01]; [Byte.x02]] [])) = Some (Ok r) /\
    run_ops (fun x => x) r [OpAttach [Byte.x61]; OpData [Byte.x61] (mk_ChunkIdent 1) [Byte.x02];
                            OpPollChunks [[Byte.x61]]; OpSent [Byte.x61] 1 None; OpSent [] (-5) None] = Some s /\ strategy_wf s.
Proof.
  apply rs_run_safe; [unfold preamble_ok, TotalChunks; simpl; lia|reflexivity|].
  repeat constructor; apply (bool_decide_unpack _); vm_compute; exact I.
Defined.

(** [TakeChunk] takes a chunk exactly when it is in range, not held and the
    relay is not complete: it is then stored, counted and reported Accepted,
    with the dedup group cancelled, and the completeness it reports is "at
    least DataChunks distinct chunks held".  Otherwise the state is untouched,
    an index out of range is Invalid and everything else Redundant. *)
Theorem TakeChunk_contract s p ci d :
  strategy_wf s ->
  exists s' v f x, strategy_TakeChunk s p ci d = Some (s', (v, f, None), x) /\ strategy_wf s' /\
    (v = VerdictAccepted <-> exists i, Index ci = Z.of_nat i /\ complete s = false /\ chunks s !! i = Some None) /\
    (v = VerdictInvalid <-> ~ 0 <= Index ci < totalChunks s) /\ (v <> VerdictAccepted -> v = VerdictInvalid \/ v = VerdictRedundant) /\
    (v <> VerdictAccepted -> s' = s /\ f = false /\ x = false) /\
    (v = VerdictAccepted -> x = true /\ chunks s' = <[Z.to_nat (Index ci) := Some d]> (chunks s) /\
       strategy_HaveChunk s' ci = Some true /\
       (f = true <-> DataChunks (preamble s) <= Z.of_nat (OnesCount (have s')))).
Proof.
  intros Hw. destruct (TakeChunk_spec s p ci d Hw) as (s' & v & f & x & E & Hw' & Hcase).
  exists s', v, f, x. split; [done|]. split; [done|].
  destruct Hcase as [(-> & -> & -> & [[-> Hr]|(-> & i & Ei & Hlt & Hn)])|(-> & -> & -> & i & Ei & Ht & Ech & Hp & Ho & _)].
  - split; [split; [done|]|naive_solver]. intros (i & Ei & _ & Hi). exfalso. apply Hr. rewrite Ei, (w_total s Hw).
    apply lookup_lt_Some in Hi. lia.
  - split; [split; [done|]|]; [intros (j & Ej & Hj); exfalso; apply Hn; rewrite Ei in Ej; by apply Nat2Z.inj in Ej as ->|].
    split; [split; [done|]; intros H; exfalso; apply H; rewrite Ei, (w_total s Hw); lia|]. naive_solver.
  - pose proof (lookup_lt_Some _ _ _ (proj2 Ht)) as Hlt. split; [split; [by exists i|done]|].
    split; [split; [done|]; intros H; exfalso; apply H; rewrite Ei, (w_total s Hw); lia|]. split; [done|]. split; [done|].
    intros _. rewrite Ei, Nat2Z.id. split; [done|]. split; [done|]. split.
    + rewrite HaveChunk_spec by done. rewrite Ei, Nat2Z.id. case_decide; [|done]. f_equal.
      apply (w_have s' Hw'). exists d. rewrite Ech. by rewrite list_lookup_insert_eq.
    + rewrite (w_complete s' Hw'), Hp, Ho, (takes_relay s i Hw Ht). tauto.
Qed.

(** [PollChunks] gives each attached, uncompleted peer at most one chunk, and
    only one this side holds, that the peer is not known to have and that is not
    already on its way to it; the dispatch is counted in flight and nothing else
    about the session changes. *)
Theorem PollChunks_contract s order :
  strategy_wf s -> order ≡ₚ elements (dom (peers s)) ->
  exists s' l, strategy_PollChunks s order = Some (s', l) /\ strategy_wf s' /\ frame s s' /\
    NoDup (cd_peer <$> l) /\
    forall d, d ∈ l -> exists ps ps' i, peers s !! cd_peer d = Some ps /\ completed ps = false /\
      Index (cd_chunkID d) = Z.of_nat i /\ chunks s !! i = Some (Some (cd_data d)) /\
      gbit (bitmap ps) i = false /\ inflight ps !! i = Some 0 /\
      peers s' !! cd_peer d = Some ps' /\ inflight ps' !! i = Some 1.
Proof.
  intros Hw Ho. destruct (PollChunks_spec order s Hw) as (s' & l & E & HP).
  { rewrite Ho. apply NoDup_elements. }
  exists s', l. split; [done|]. split; [apply HP|]. split; [apply HP|]. split; [apply HP|].
  intros d Hd. destruct (po_good _ _ _ _ HP d Hd) as ((ps & i & Hps & Hc & Ei & Hch & Hb & Hf) & (a & b & Ha & Hb' & _ & Hi) & _).
  exists ps, b, i. simplify_eq. repeat (split; [done|]). rewrite Hi, Ei, Nat2Z.id.
  apply list_lookup_insert_eq. by eapply lookup_lt_Some.
Qed.

(** [RoutingUpdate] merges the peer's bitmap and returns exactly the handles
    of the sends to that peer that are in flight for a chunk the peer now has;
    an update from a peer that is not attached changes nothing. *)
Theorem RoutingUpdate_contract s p u :
  strategy_wf s ->
  exists s' c, strategy_RoutingUpdate s p u = Some (s', c, None) /\ strategy_wf s' /\
    (peers s !! p = None -> s' = s /\ c = []) /\
    (forall ps, peers s !! p = Some ps -> exists ps', peers s' !! p = Some ps' /\ inflight ps' = inflight ps /\
       (forall j, (j < length (chunks s))%nat ->
          gbit (bitmap ps') j = gbit (bitmap ps) j || match u with Some u => gbit u j | None => false end) /\
       forall h, h ∈ c <-> exists j x, inflight ps !! j = Some x /\ 0 < x /\ gbit (bitmap ps') j = true /\ h = Z.of_nat j).
Proof.
  intros Hw. destruct (RoutingUpdate_spec s p u Hw) as (s' & c & E & Hw' & Hr). exists s', c.
  split; [done|]. split; [done|]. destruct (peers s !! p) as [ps|] eqn:Ep; [|split; [done|naive_solver]].
  split; [done|]. intros ps0 [= <-]. destruct Hr as [-> Hc]. eexists. simpl. rewrite lookup_insert_eq.
  split; [done|]. simpl. split; [done|]. split; [|exact Hc]. intros j Hj.
  destruct u as [u|]; [|by rewrite orb_false_r]. rewrite Or_gbit, bool_decide_eq_true_2; [by rewrite andb_true_r|].
  eapply bitmap_range; [|exact Hj]. by destruct (w_peers s Hw p ps Ep).
Qed.

(** Publishing does not panic: for a configuration that validates and a
    non-empty payload, [newOriginStrategy] returns a strategy or an error; the
    chunk length is at least one byte, the data chunks cover the payload, and
    with 256 shards or more (when the shard counts are configured) it is a
    multiple of 64. *)
Theorem newOrigin_no_panic sha256 rs_new rs_encode cfg payload :
  sizes_ok cfg (Z.of_nat (length payload)) ->
  (forall k m sh full, rs_encode k m sh = Some full -> length full = length sh) ->
  (forall k m, rs_new k m = true -> k + m <= 65536) ->
  is_Some (newOriginStrategy sha256 rs_new rs_encode cfg payload) /\
  exists p len, initPreamble cfg (Z.of_nat (length payload)) = Some (p, len) /\ 1 <= len /\
    Z.of_nat (length payload) <= len * DataChunks p /\
    (ChunkLen cfg = 0 -> 256 <= TotalChunks p -> Z.rem len 64 = 0).
Proof.
  intros Hsz Hlen Hmax.
  destruct (initPreamble_spec cfg _ Hsz) as (p & len & Ei & H1 & H2 & H3 & H4 & H5 & H6 & _).
  split; [|exists p, len; split; [done|]; split; [done|]; split; [done|]; naive_solver].
  unfold newOriginStrategy. rewrite Ei. simpl. destruct (rs_new _ _) eqn:En; simpl; [|by eexists].
  pose proof (Hmax _ _ En). unfold TotalChunks. simpl.
  rewrite (proj2 (Z.ltb_ge _ _)) by nia.
  destruct (shards_of_message payload len (DataChunks p + ParityChunks p)) as (sh & -> & Hs1 & _); [lia|lia|nia|].
  simpl. destruct (rs_encode _ _ sh) as [full|] eqn:Ee; [|by eexists]. pose proof (Hlen _ _ _ _ Ee) as Hl.
  destruct (plan_shards_ok full newEmitPlanner 0 planner_wf_new) as (pl & Epl & _).
  { intros id. unfold planner_map. simpl. rewrite lookup_empty. split; [by intros [? ?]|lia]. }
  change (Z.of_nat 0) with 0 in Epl. rewrite Epl. simpl.
  destruct (AllOnesBitmap_spec (length full)) as (h & Eh & _); [lia|].
  replace (DataChunks p + ParityChunks p) with (Z.of_nat (length full)) by lia. rewrite Eh. by eexists.
Qed.

(** An empty payload is the exception: with configured shard counts (as in
    the default configuration) the chunk length is zero and splitting the
    message panics instead of returning an error. *)
Theorem newOrigin_empty_panics sha256 rs_new rs_encode cfg :
  ChunkLen cfg = 0 -> 0 < DataShards cfg < 2 ^ 31 -> rs_new (DataShards cfg) (ParityShards cfg) = true ->
  newOriginStrategy sha256 rs_new rs_encode cfg [] = None.
Proof.
  intros Hc Hd Hn. unfold newOriginStrategy, initPreamble. change (Z.of_nat (length [])) with 0.
  rewrite Hc, Z.eqb_refl. destruct (divCeil_spec 0 (DataShards cfg)) as (c & -> & Hr); [lia|lia|lia|]. simpl.
  assert (c = 0) as -> by nia.
  destruct (TotalChunks _ >=? 256); simpl; by rewrite Hn.
Qed.

(** ** A codec that satisfies the laws

    One data shard, repeated: the smallest maximum-distance-separable code. *)

Definition rep_new (k m : Z) : bool := (k =? 1) && (0 <=? m) && (m <=? 65535).

Definition rep_encode (k m : Z) (sh : list bytes) : option (list bytes) :=
  match sh with
  | x :: _ => if (Z.of_nat (length sh) =? k + m) && negb (length x =? 0)%nat
                 && forallb (fun y => length y =? length x)%nat sh
              then Some (replicate (length sh) x) else None
  | [] => None
  end.

Definition rep_reconstruct (k m : Z) (known : list bytes) : option (list bytes) :=
  match filter (fun x => x <> []) known with
  | x :: _ => Some (replicate (length known) x)
  | [] => None
  end.

Lemma rep_new_counts k m : rep_new k m = true -> 0 < k /\ 0 <= m /\ k + m <= 65536.
Proof. unfold rep_new. intros. z_bool. lia. Qed.

Lemma rep_encode_inv k m sh full :
  rep_encode k m sh = Some full ->
  exists x rest, sh = x :: rest /\ full = replicate (length sh) x /\ Z.of_nat (length sh) = k + m /\
    x <> [] /\ Forall (fun y => length y = length x) sh.
Proof.
  destruct sh as [|x rest]; [done|]. unfold rep_encode. destruct (_ && _ && _) eqn:E; [|done]. intros [= <-].
  apply andb_true_iff in E as [E E3]. apply andb_true_iff in E as [E1 E2]. z_bool.
  exists x, rest. split; [done|]. split; [done|]. split; [done|]. split; [by intros ->|].
  apply Forall_forall. intros y Hy. apply list_elem_of_In in Hy.
  rewrite forallb_forall in E3. by apply E3, Nat.eqb_eq in Hy.
Qed.

Lemma rep_systematic k m sh full :
  rep_new k m = true -> rep_encode k m sh = Some full ->
  Z.of_nat (length sh) = k + m /\ length <$> full = length <$> sh /\ take (Z.to_nat k) full = take (Z.to_nat k) sh.
Proof.
  intros Hn E. destruct (rep_encode_inv _ _ _ _ E) as (x & rest & -> & -> & Hl & Hx & Hall).
  split; [done|]. unfold rep_new in Hn. z_bool. subst k. split; [|done].
  clear -Hall. revert Hall. generalize (x :: rest) as l. induction l as [|y l IH]; intros Hall; [done|].
  apply Forall_cons in Hall as [Hy Hall]. simpl. f_equal; [done|by apply IH].
Qed.

Lemma rep_mds k m sh full known present :
  rep_new k m = true -> rep_encode k m sh = Some full -> length known = length full ->
  (forall i x, known !! i = Some x -> x = [] \/ full !! i = Some x) ->
  NoDup present -> (forall i, i ∈ present -> exists x, known !! i = Some x /\ x <> []) ->
  k <= Z.of_nat (length present) ->
  exists out, rep_reconstruct k m known = Some out /\ take (Z.to_nat k) out = take (Z.to_nat k) full.
Proof.
  intros Hn E Hl Hk _ Hp Hlen. destruct (rep_encode_inv _ _ _ _ E) as (x & rest & -> & -> & _ & Hx & _).
  unfold rep_new in Hn. z_bool. subst k. unfold rep_reconstruct.
  destruct present as [|i present]; [simpl in Hlen; lia|]. destruct (Hp i) as (y & Hy & Hne); [by apply elem_of_cons; left|].
  assert (forall z, z ∈ filter (fun x => x <> []) known -> z = x) as Hall.
  { intros z [Hz Hin]%list_elem_of_filter. apply list_elem_of_lookup in Hin as [j Hj].
    apply Hk in Hj as [?|Hj]; [done|]. by apply lookup_replicate in Hj as [? _]. }
  assert (y ∈ filter (fun x => x <> []) known) as Hin by (apply list_elem_of_filter; split; [done|by eapply list_elem_of_lookup_2]).
  destruct (filter _ known) as [|z l]; [by apply elem_of_nil in Hin|]. rewrite (Hall z) by (by apply elem_of_cons; left).
  eexists. split; [done|]. by rewrite Hl, length_replicate.
Qed.

(** A failed send makes the strategy forget what the peer announced: when a
    send of chunk [i] is in flight and the peer is already known to have the
    chunk (its routing update arrived meanwhile, which is also what makes the
    session cancel the send), the failure report clears the peer's bit, so the
    chunk is eligible for that peer again. *)
Theorem ChunkSent_failure_forgets s p ps i c e :
  strategy_wf s -> peers s !! p = Some ps -> inflight ps !! i = Some c -> 0 < c -> gbit (bitmap ps) i = true ->
  exists s' ps', strategy_ChunkSent s p (Z.of_nat i) (Some e) = Some s' /\ peers s' !! p = Some ps' /\
    gbit (bitmap ps') i = false /\ inflight ps' !! i = Some (c - 1).
Proof.
  intros Hw Hp Hc Hpos _. destruct (w_peers s Hw p ps Hp) as [Hb Hfl _].
  pose proof (lookup_lt_Some _ _ _ Hc) as Hlt. pose proof (w_small s Hw).
  unfold strategy_ChunkSent. rewrite Hp, i64_small by lia.
  rewrite (proj2 (Z.ltb_ge _ _)) by lia. rewrite Z.geb_leb, (proj2 (Z.leb_gt _ _)) by (rewrite (w_total s Hw); lia). simpl.
  rewrite index_nat, Hc. simpl. rewrite (proj2 (Z.leb_gt _ _)) by lia. rewrite store_nat by lia. simpl.
  destruct (Unset_spec (bitmap ps) i (peer_small s p ps Hw Hp)) as (bm & -> & _ & Hg). simpl.
  unfold Decrement. destruct (bump_ok (planner s) (Z.of_nat i) (-1) (w_planner s Hw)) as (pl & -> & _). simpl.
  do 2 eexists. split; [done|]. simpl. rewrite lookup_insert_eq. split; [done|]. simpl.
  rewrite Hg, decide_True by done. split; [done|]. by apply list_lookup_insert_eq.
Qed.

(** ** A run to evaluate *)

Definition demo_peer : PeerID := [Byte.x61].
Definition demo_other : PeerID := [Byte.x62].
Definition demo_preamble : Preamble := mk_Preamble 2 1 2 [[Byte.x01]; [Byte.x02]; [Byte.x03]] [].

Definition demo_run (ops : list strat_op) : option strategy :=
  match newRelayStrategy 7 DefaultConfig (Some demo_preamble) with
  | Some (Ok r) => run_ops (fun x => x) r ops
  | _ => None
  end.

Lemma demo_run_ok ops : Forall op_ok ops -> exists s, demo_run ops = Some s /\ strategy_wf s.
Proof.
  intros Hok. unfold demo_run.
  destruct (newRelay_ok 7 DefaultConfig demo_preamble) as (r & -> & Hw & _);
    [unfold preamble_ok, TotalChunks; simpl; lia|reflexivity|]. by apply run_ops_wf.
Qed.

(** Evaluating a query on the state a run ends in. *)
Lemma demo_query {A} ops (f : strategy -> option A) s a :
  demo_run ops = Some s -> (letp s := demo_run ops in f s) = Some a -> f s = Some a.
Proof. intros ->. done. Qed.

(** One chunk held, offered to a second peer, which then announces it. *)
Definition demo_ops : list strat_op :=
  [OpAttach demo_peer; OpAttach demo_other; OpData demo_peer (mk_ChunkIdent 1) [Byte.x02];
   OpPollChunks [demo_peer; demo_other]; OpRouting demo_other (Some [Byte.x02])].

Lemma demo_ops_ok : Forall op_ok demo_ops.
Proof. repeat constructor; apply (bool_decide_unpack _); vm_compute; exact I. Qed.

(** The witness also follows the run: after the failure report the very chunk
    the peer announced is dispatched to it again. *)
Lemma ChunkSent_failure_forgets_witness :
  exists s ps s' ps', demo_run demo_ops = Some s /\ peers s !! demo_other = Some ps /\ gbit (bitmap ps) 1 = true /\
    strategy_ChunkSent s demo_other 1 (Some ErrChunkCancelled) = Some s' /\ peers s' !! demo_other = Some ps' /\
    gbit (bitmap ps') 1 = false /\
    snd <$> strategy_PollChunks s' [demo_other] = Some [mk_dispatch demo_other (mk_ChunkIdent 1) [Byte.x02]].
Proof.
  destruct (demo_run_ok _ demo_ops_ok) as (s & E & Hw). exists s.
  assert (peers s !! demo_other = Some (mk_peerState [Byte.x02] [0; 1; 0] false)) as Hp
    by (apply (demo_query demo_ops (fun s => peers s !! demo_other) s); [exact E|vm_compute; reflexivity]).
  destruct (ChunkSent_failure_forgets s demo_other _ 1 1 ErrChunkCancelled Hw Hp) as (s' & ps' & E' & Hp' & Hg' & _);
    [reflexivity|reflexivity|vm_compute; reflexivity|].
  eexists. exists s', ps'. split; [exact E|]. split; [exact Hp|]. split; [vm_compute; reflexivity|].
  split; [exact E'|]. split; [exact Hp'|]. split; [exact Hg'|].
  pose proof (demo_query demo_ops (fun s => letp s' := strategy_ChunkSent s demo_other 1 (Some ErrChunkCancelled) in
    snd <$> strategy_PollChunks s' [demo_other]) s [mk_dispatch demo_other (mk_ChunkIdent 1) [Byte.x02]] E) as Hq.
  change (Z.of_nat 1) with 1 in E'. cbv beta in Hq. rewrite E' in Hq. apply Hq. vm_compute. reflexivity.
Defined.

Lemma TakeChunk_contract_witness :
  exists s s' v f x, demo_run demo_ops = Some s /\
    strategy_TakeChunk s demo_other (mk_ChunkIdent 2) [Byte.x03] = Some (s', (v, f, None), x) /\
    v = VerdictAccepted /\ f = true /\ DataChunks (preamble s) <= Z.of_nat (OnesCount (have s')).
Proof.
  destruct (demo_run_ok _ demo_ops_ok) as (s & E & Hw).
  destruct (TakeChunk_contract s demo_other (mk_ChunkIdent 2) [Byte.x03] Hw) as (s' & v & f & x & ET & _ & _ & _ & _ & _ & H5).
  assert (Some (v, f) = Some (VerdictAccepted, true)) as Hv.
  { pose proof (demo_query demo_ops (fun s => (fun r => r.1.2.1) <$> strategy_TakeChunk s demo_other (mk_ChunkIdent 2) [Byte.x03])
      s (VerdictAccepted, true) E) as Hq. cbv beta in Hq. rewrite ET in Hq. apply Hq. vm_compute. reflexivity. }
  injection Hv as -> ->. exists s, s', VerdictAccepted, true, x. split; [exact E|]. split; [exact ET|].
  split; [reflexivity|]. split; [reflexivity|]. destruct (H5 eq_refl) as (_ & _ & _ & Hf). apply Hf. reflexivity.
Defined.

Lemma PollChunks_contract_witness :
  exists s s' l, demo_run [OpAttach demo_peer; OpAttach demo_other; OpData demo_peer (mk_ChunkIdent 1) [Byte.x02]] = Some s /\
    strategy_PollChunks s [demo_peer; demo_other] = Some (s', l) /\ strategy_wf s' /\
    l = [mk_dispatch demo_other (mk_ChunkIdent 1) [Byte.x02]].
Proof.
  set (ops := [OpAttach demo_peer; OpAttach demo_other; OpData demo_peer (mk_ChunkIdent 1) [Byte.x02]]).
  destruct (demo_run_ok ops) as (s & E & Hw); [repeat constructor|].
  destruct (PollChunks_contract s [demo_peer; demo_other] Hw) as (s' & l & EP & Hw' & _).
  { assert (elements (dom (peers s)) = [demo_other; demo_peer]) as ->; [|apply Permutation_swap].
    assert (Some (elements (dom (peers s))) = Some [demo_other; demo_peer]) as Hq; [|congruence].
    apply (demo_query ops (fun s => Some (elements (dom (peers s)))) s); [exact E|vm_compute; reflexivity]. }
  exists s, s', l. split; [exact E|]. split; [exact EP|]. split; [exact Hw'|].
  pose proof (demo_query ops (fun s => snd <$> strategy_PollChunks s [demo_peer; demo_other])
    s [mk_dispatch demo_other (mk_ChunkIdent 1) [Byte.x02]] E) as Hq.
  cbv beta in Hq. rewrite EP in Hq. simpl fmap in Hq. assert (Some l = Some [mk_dispatch demo_other (mk_ChunkIdent 1) [Byte.x02]]) as Hl; [|congruence].
  apply Hq. vm_compute. reflexivity.
Defined.

Lemma RoutingUpdate_contract_witness :
  exists s s' c, demo_run [OpAttach demo_other; OpData demo_peer (mk_ChunkIdent 1) [Byte.x02]; OpPollChunks [demo_other]] = Some s /\
    strategy_RoutingUpdate s demo_other (Some [Byte.x02]) = Some (s', c, None) /\ strategy_wf s' /\ c = [1].
Proof.
  set (ops := [OpAttach demo_other; OpData demo_peer (mk_ChunkIdent 1) [Byte.x02]; OpPollChunks [demo_other]]).
  destruct (demo_run_ok ops) as (s & E & Hw);
    [repeat constructor; apply (bool_decide_unpack _); vm_compute; exact I|].
  destruct (RoutingUpdate_contract s demo_other (Some [Byte.x02]) Hw) as (s' & c & ER & Hw' & _).
  exists s, s', c. split; [exact E|]. split; [exact ER|]. split; [exact Hw'|].
  pose proof (demo_query ops (fun s => (fun r => r.1.2) <$> strategy_RoutingUpdate s demo_other (Some [Byte.x02])) s [1] E) as Hq.
  cbv beta in Hq. rewrite ER in Hq. simpl fmap in Hq. assert (Some c = Some [1]) as Hc; [|congruence].
  apply Hq. vm_compute. reflexivity.
Defined.

Definition demo_cfg : Config := mk_Config 1 2 0 0 4 false.

Lemma newOrigin_no_panic_witness :
  is_Some (newOriginStrategy (fun x => x) rep_new rep_encode demo_cfg [Byte.x05; Byte.x06]).
Proof.
  apply (newOrigin_no_panic (fun x => x) rep_new rep_encode demo_cfg [Byte.x05; Byte.x06]).
  - unfold sizes_ok. simpl. split; [reflexivity|lia].
  - intros k m sh full H. destruct (rep_encode_inv k m sh full H) as (x & rest & -> & -> & _). by rewrite length_replicate.
  - intros k m H. apply rep_new_counts in H. lia.
Defined.

Lemma newOrigin_empty_panics_witness :
  newOriginStrategy (fun x => x) (fun _ _ => true) rep_encode DefaultConfig [] = None.
Proof. apply newOrigin_empty_panics; [reflexivity|simpl; lia|reflexivity]. Defined.

(** The relay decodes two bytes from the third shard alone, after one corrupt
    chunk. *)
Lemma rs_delivery_witness :
  exists o r s, newOriginStrategy (fun x => x) rep_new rep_encode demo_cfg [Byte.x05; Byte.x06] = Some (Ok o) /\
    newRelayStrategy 7 DefaultConfig (Some (preamble o)) = Some (Ok r) /\
    run_ops (fun x => x) r [OpAttach demo_peer; OpData demo_peer (mk_ChunkIdent 0) [Byte.x09];
                            OpData demo_peer (mk_ChunkIdent 2) [Byte.x05; Byte.x06]] = Some s /\
    strategy_Decode (fun x => x) rep_new rep_reconstruct s = Ok [Byte.x05; Byte.x06].
Proof.
  destruct (newOriginStrategy (fun x => x) rep_new rep_encode demo_cfg [Byte.x05; Byte.x06]) as [[o|]|] eqn:E;
    [|vm_compute in E; discriminate|vm_compute in E; discriminate].
  destruct (rs_delivery (fun x => x) rep_new rep_encode rep_reconstruct rep_new_counts rep_systematic rep_mds
    demo_cfg [Byte.x05; Byte.x06] o 7 DefaultConfig
    [OpAttach demo_peer; OpData demo_peer (mk_ChunkIdent 0) [Byte.x09];
     OpData demo_peer (mk_ChunkIdent 2) [Byte.x05; Byte.x06]]) as (r & s & Er & Es & Hd & Hlive).
  - unfold sizes_ok. simpl. split; [reflexivity|lia].
  - exact E.
  - repeat constructor.
  - intros op d i c _ _ _ H. exact H.
  - exists o, r, s. split; [reflexivity|]. split; [exact Er|]. split; [exact Es|]. apply Hd.
    assert ((fun r => match r with Ok o => Some (DataChunks (preamble o), chunks o) | Err _ => None end) <$>
            newOriginStrategy (fun x => x) rep_new rep_encode demo_cfg [Byte.x05; Byte.x06]
            = Some (Some (1, [Some [Byte.x05; Byte.x06]; Some [Byte.x05; Byte.x06]; Some [Byte.x05; Byte.x06]]))) as Hq
      by (vm_compute; reflexivity).
    rewrite E in Hq. injection Hq as Hk Hch. apply (Hlive [2%nat]); [apply NoDup_singleton|rewrite Hk; simpl; lia|].
    intros i ->%list_elem_of_singleton. exists demo_peer, [Byte.x05; Byte.x06].
    split; [right; right; left|]. rewrite Hch. reflexivity.
Defined.
