(* ===== verification/CtrlOut.v ===== *)
(** * CtrlOut: the outbound control state of a peer (src/broadcast/ctrl_out.go,
    the control events of events.go)

    [ctrlOutState] folds what the channels and sessions want announced to one
    peer into per-key flags; [next] turns them into events for the peer's
    control loop.  Go's map iteration order is an argument of [next] for the
    channels.  For the sessions it does not matter: creation orders are
    distinct, so [firstSession] has one possible result. *)

From S2P Require Import Prelude Types.
Open Scope Z_scope.

(** ** Data *)

Record sessionKey := mk_key { k_channel : ChannelID; k_message : MessageID }.

#[global] Instance sessionKey_eq_dec : EqDecision sessionKey.
Proof. solve_decision. Defined.
#[global] Program Instance sessionKey_countable : Countable sessionKey :=
  inj_countable' (fun k => (k_channel k, k_message k)) (fun p => mk_key p.1 p.2) _.
Next Obligation. by intros []. Qed.

(** [chunkOutbox] is the session's channel, by identity. *)
Record peerOpenSession := mk_open {
  po_key : sessionKey;
  po_preamble : bytes;
  po_initialRouting : bytes;
  po_chunkOutbox : nat }.

Record peerSendRouting := mk_routing { pr_key : sessionKey; pr_update : bytes }.

Inductive peerCtrlEvent :=
| EvOpenSession (e : peerOpenSession)
| EvSendRouting (e : peerSendRouting)
| EvSubscribe (id : ChannelID)
| EvUnsubscribe (id : ChannelID)
| EvCloseSession (key : sessionKey)
| EvCloseStream (key : sessionKey).

Record channelOut := mk_channelOut { want : bool; announced : bool; retire : bool }.

Record sessionOut := mk_sessionOut {
  pendingOpen : option peerOpenSession;
  open : bool;
  routing : option bytes;
  closeStream : bool;
  close : bool;
  order : Z }.

Record ctrlOutState := mk_ctrl {
  ready : bool;
  closed : bool;
  channels : gmap ChannelID channelOut;
  sessions : gmap sessionKey sessionOut;
  nextOrder : Z }.

Definition newCtrlOutState : ctrlOutState := mk_ctrl false false ∅ ∅ 0.

Definition set_channels (s : ctrlOutState) (m : gmap ChannelID channelOut) : ctrlOutState :=
  mk_ctrl (ready s) (closed s) m (sessions s) (nextOrder s).
Definition set_sessions (s : ctrlOutState) (m : gmap sessionKey sessionOut) : ctrlOutState :=
  mk_ctrl (ready s) (closed s) (channels s) m (nextOrder s).

(** ** Requests *)

Definition signal (s : ctrlOutState) : ctrlOutState :=
  mk_ctrl true (closed s) (channels s) (sessions s) (nextOrder s).

Fixpoint announceInitial_loop (m : gmap ChannelID channelOut) (ids : list ChannelID) : gmap ChannelID channelOut :=
  match ids with
  | [] => m
  | id :: ids => announceInitial_loop
      (match m !! id with None => <[id := mk_channelOut true true false]> m | Some _ => m end) ids
  end.

Definition announceInitial (s : ctrlOutState) (ids : list ChannelID) : ctrlOutState :=
  if closed s then s else set_channels s (announceInitial_loop (channels s) ids).

Definition drop_routing (out : sessionOut) : sessionOut :=
  mk_sessionOut (pendingOpen out) (open out) None (closeStream out) (close out) (order out).

Definition announce (s : ctrlOutState) (id : ChannelID) (present : bool) : ctrlOutState :=
  if closed s then s
  else
    let c := default (mk_channelOut false false false) (channels s !! id) in
    if present then
      let c := mk_channelOut true (announced c) (retire c || (announced c && negb (want c))) in
      signal (set_channels s (<[id := c]> (channels s)))
    else
      let c := mk_channelOut false (announced c) (retire c) in
      let ss := map_imap (fun key out => Some (if bool_decide (k_channel key = id) then drop_routing out else out)) (sessions s) in
      signal (set_sessions (set_channels s (<[id := c]> (channels s))) ss).

(** [s.session(key)]: the entry, created when missing. *)
Definition session (s : ctrlOutState) (key : sessionKey) : sessionOut * ctrlOutState :=
  match sessions s !! key with
  | Some out => (out, s)
  | None =>
      let n := u64 (nextOrder s + 1) in
      let out := mk_sessionOut None false None false false n in
      (out, mk_ctrl (ready s) (closed s) (channels s) (<[key := out]> (sessions s)) n)
  end.

Definition put_session (s : ctrlOutState) (key : sessionKey) (out : sessionOut) : ctrlOutState :=
  set_sessions s (<[key := out]> (sessions s)).

Definition openSession (s : ctrlOutState) (event : peerOpenSession) : ctrlOutState :=
  if closed s then s
  else
    let '(out, s) := session s (po_key event) in
    let out := if close out then mk_sessionOut (pendingOpen out) (open out) None false false (order out) else out in
    signal (put_session s (po_key event)
      (mk_sessionOut (Some event) (open out) (routing out) (closeStream out) (close out) (order out))).

Definition closeSession (s : ctrlOutState) (key : sessionKey) : ctrlOutState :=
  if closed s then s
  else
    let '(out, s) := session s key in
    signal (put_session s key
      (mk_sessionOut (pendingOpen out) (open out) (routing out) (closeStream out) true (order out))).

Definition closeSessionStream (s : ctrlOutState) (key : sessionKey) : ctrlOutState :=
  if closed s then s
  else
    let '(out, s) := session s key in
    signal (put_session s key
      (mk_sessionOut (pendingOpen out) (open out) (routing out) true (close out) (order out))).

(** A nil update is stored as an empty one; [bytes] does not tell them apart. *)
Definition setRouting (s : ctrlOutState) (event : peerSendRouting) : ctrlOutState * bool :=
  if closed s then (s, false)
  else match sessions s !! pr_key event with
       | None => (s, false)
       | Some out =>
           (signal (put_session s (pr_key event)
              (mk_sessionOut (pendingOpen out) (open out) (Some (pr_update event)) (closeStream out) (close out) (order out))),
            true)
       end.

Definition ctrl_close (s : ctrlOutState) : ctrlOutState := mk_ctrl (ready s) true ∅ ∅ (nextOrder s).

(** ** [next] *)

Definition pick (m : sessionOut -> bool) (acc : option (sessionKey * sessionOut)) (c : sessionKey * sessionOut)
  : option (sessionKey * sessionOut) :=
  if m c.2 && match acc with None => true | Some f => order c.2 <? order f.2 end then Some c else acc.

Definition firstSession_in (l : list (sessionKey * sessionOut)) (m : sessionOut -> bool) : option (sessionKey * sessionOut) :=
  foldl (pick m) None l.

Definition firstSession (s : ctrlOutState) (m : sessionOut -> bool) : option (sessionKey * sessionOut) :=
  firstSession_in (map_to_list (sessions s)) m.

(** The outer [None] is fuel running out; one more than the number of sessions
    is enough, since every round that continues deletes one. *)
Fixpoint phase_close (fuel : nat) (s : ctrlOutState) : option (option peerCtrlEvent * ctrlOutState) :=
  match fuel with
  | O => None
  | S fuel' =>
      match firstSession s close with
      | None => Some (None, s)
      | Some (key, out) =>
          if negb (open out) then phase_close fuel' (set_sessions s (delete key (sessions s)))
          else
            Some (Some (EvCloseSession key),
                  match pendingOpen out with
                  | None => set_sessions s (delete key (sessions s))
                  | Some _ => put_session s key
                      (mk_sessionOut (pendingOpen out) false (routing out) (closeStream out) false (order out))
                  end)
      end
  end.

Fixpoint phase_unsubscribe (ids : list ChannelID) (s : ctrlOutState) : option peerCtrlEvent * ctrlOutState :=
  match ids with
  | [] => (None, s)
  | id :: ids =>
      match channels s !! id with
      | None => phase_unsubscribe ids s
      | Some out =>
          if negb (want out) && negb (announced out) && negb (retire out) then
            phase_unsubscribe ids (set_channels s (delete id (channels s)))
          else if retire out || (negb (want out) && announced out) then
            (Some (EvUnsubscribe id),
             set_channels s (if negb (want out) then delete id (channels s)
                             else <[id := mk_channelOut (want out) false false]> (channels s)))
          else phase_unsubscribe ids s
      end
  end.

Fixpoint phase_subscribe (ids : list ChannelID) (s : ctrlOutState) : option peerCtrlEvent * ctrlOutState :=
  match ids with
  | [] => (None, s)
  | id :: ids =>
      match channels s !! id with
      | None => phase_subscribe ids s
      | Some out =>
          if want out && negb (announced out) then
            (Some (EvSubscribe id), set_channels s (<[id := mk_channelOut (want out) true (retire out)]> (channels s)))
          else phase_subscribe ids s
      end
  end.

Definition is_pending (out : sessionOut) : bool := bool_decide (is_Some (pendingOpen out)).
Definition wants_stream_close (out : sessionOut) : bool := closeStream out && open out.
Definition has_routing (out : sessionOut) : bool := bool_decide (is_Some (routing out)) && open out.

Definition phase_open (s : ctrlOutState) : option peerCtrlEvent * ctrlOutState :=
  match firstSession s is_pending with
  | Some (key, out) =>
      match pendingOpen out with
      | Some event =>
          (Some (EvOpenSession event),
           put_session s key (mk_sessionOut None true (routing out) (closeStream out) (close out) (order out)))
      | None => (None, s)
      end
  | None => (None, s)
  end.

Definition phase_stream (s : ctrlOutState) : option peerCtrlEvent * ctrlOutState :=
  match firstSession s wants_stream_close with
  | Some (key, out) =>
      (Some (EvCloseStream key),
       put_session s key (mk_sessionOut (pendingOpen out) (open out) (routing out) false (close out) (order out)))
  | None => (None, s)
  end.

Definition phase_routing (s : ctrlOutState) : option peerCtrlEvent * ctrlOutState :=
  match firstSession s has_routing with
  | Some (key, out) =>
      match routing out with
      | Some u => (Some (EvSendRouting (mk_routing key u)), put_session s key (drop_routing out))
      | None => (None, s)
      end
  | None => (None, s)
  end.

(** The first phase with an event wins. *)
Definition or_else (r : option peerCtrlEvent * ctrlOutState) (k : ctrlOutState -> option peerCtrlEvent * ctrlOutState)
  : option peerCtrlEvent * ctrlOutState :=
  match r.1 with Some e => r | None => k r.2 end.

Definition next (o1 o2 : list ChannelID) (s : ctrlOutState) : option (option peerCtrlEvent * ctrlOutState) :=
  if closed s then Some (None, s)
  else
    letp r := phase_close (S (size (sessions s))) s in
    Some (or_else r (fun s => or_else (phase_unsubscribe o1 s) (fun s =>
          or_else (phase_subscribe o2 s) (fun s => or_else (phase_open s) (fun s =>
          or_else (phase_stream s) phase_routing))))).

(** ** [firstSession] *)

Lemma pick_loop m l : forall acc,
  (forall f, acc = Some f -> m f.2 = true) ->
  match foldl (pick m) acc l with
  | None => acc = None /\ forall c, c ∈ l -> m c.2 = false
  | Some f => (acc = Some f \/ f ∈ l) /\ m f.2 = true /\
              (forall c, c ∈ l -> m c.2 = true -> order f.2 <= order c.2) /\
              (forall a, acc = Some a -> order f.2 <= order a.2)
  end.
Proof.
  induction l as [|c l IH]; intros acc Hacc; simpl.
  { destruct acc as [f|]; [|split; [done|]; by intros c ?%elem_of_nil].
    split; [by left|]. split; [by apply Hacc|]. split; [by intros c ?%elem_of_nil|]. intros a [= <-]. lia. }
  assert (forall f, pick m acc c = Some f -> m f.2 = true) as Hacc'.
  { intros f. unfold pick. destruct (m c.2 && _) eqn:E; [|by apply Hacc]. intros [= <-]. by apply andb_true_iff in E as [? _]. }
  specialize (IH (pick m acc c) Hacc'). destruct (foldl (pick m) (pick m acc c) l) as [f|].
  - destruct IH as (H1 & H2 & H3 & H4). unfold pick in H1, H4. destruct (m c.2 && _) eqn:E.
    + apply andb_true_iff in E as [E1 E2]. pose proof (H4 c eq_refl) as Hc. split.
      { right. destruct H1 as [[= <-]|H1]; apply elem_of_cons; auto. }
      split; [done|]. split.
      * intros x [-> | Hx]%elem_of_cons Hm; [done|by apply H3].
      * intros a ->. apply Z.ltb_lt in E2. lia.
    + split; [destruct H1 as [H1|H1]; [by left|right; apply elem_of_cons; auto]|]. split; [done|]. split; [|done].
      intros x [-> | Hx]%elem_of_cons Hm; [|by apply H3]. rewrite Hm in E. simpl in E.
      destruct acc as [a|]; [|done]. apply Z.ltb_ge in E. pose proof (H4 a eq_refl). lia.
  - destruct IH as (H1 & H2). unfold pick in H1. destruct (m c.2 && _) eqn:E; [done|]. split; [done|].
    intros x [-> | Hx]%elem_of_cons; [|by apply H2]. subst acc. by rewrite andb_true_r in E.
Qed.

Lemma firstSession_in_spec l m :
  match firstSession_in l m with
  | None => forall c, c ∈ l -> m c.2 = false
  | Some f => f ∈ l /\ m f.2 = true /\ forall c, c ∈ l -> m c.2 = true -> order f.2 <= order c.2
  end.
Proof.
  unfold firstSession_in. pose proof (pick_loop m l None ltac:(done)) as H.
  destruct (foldl _ _ l) as [f|]; [|by destruct H]. destruct H as ([?|?] & ? & ? & _); done.
Qed.

Lemma firstSession_None s m :
  firstSession s m = None <-> forall key out, sessions s !! key = Some out -> m out = false.
Proof.
  unfold firstSession. pose proof (firstSession_in_spec (map_to_list (sessions s)) m) as H.
  destruct (firstSession_in _ m) as [[k o]|]; split; intros G.
  - done.
  - destruct H as (Hin & Hm & _). apply elem_of_map_to_list in Hin. simpl in Hm. by rewrite (G k o Hin) in Hm.
  - intros key out Hk. apply (H (key, out)). by apply elem_of_map_to_list.
  - done.
Qed.

Lemma firstSession_Some s m key out :
  firstSession s m = Some (key, out) ->
  sessions s !! key = Some out /\ m out = true /\
  forall k o, sessions s !! k = Some o -> m o = true -> order out <= order o.
Proof.
  unfold firstSession. pose proof (firstSession_in_spec (map_to_list (sessions s)) m) as H.
  intros E. rewrite E in H. destruct H as (Hin & Hm & Hmin). split; [by apply elem_of_map_to_list|].
  split; [done|]. intros k o Hk Ho. apply (Hmin (k, o)); [by apply elem_of_map_to_list|done].
Qed.

(** With distinct creation orders the iteration order is irrelevant. *)
Definition orders_distinct (s : ctrlOutState) : Prop :=
  forall k1 o1 k2 o2, sessions s !! k1 = Some o1 -> sessions s !! k2 = Some o2 -> order o1 = order o2 -> k1 = k2.

Lemma firstSession_any_order s m l :
  orders_distinct s -> l ≡ₚ map_to_list (sessions s) -> firstSession_in l m = firstSession s m.
Proof.
  intros Hd Hl. unfold firstSession.
  pose proof (firstSession_in_spec l m) as H1. pose proof (firstSession_in_spec (map_to_list (sessions s)) m) as H2.
  assert (forall c, c ∈ l <-> c ∈ map_to_list (sessions s)) as Hin by (intros c; by rewrite Hl).
  destruct (firstSession_in l m) as [[k1 o1]|], (firstSession_in (map_to_list (sessions s)) m) as [[k2 o2]|]; try done.
  - destruct H1 as (A1 & B1 & C1), H2 as (A2 & B2 & C2).
    assert (order o1 = order o2) as E.
    { apply Z.le_antisymm; [apply (C1 (k2, o2)); [by apply Hin|done]|apply (C2 (k1, o1)); [by apply Hin|done]]. }
    apply Hin in A1. apply elem_of_map_to_list in A1, A2. assert (k1 = k2) as -> by (by eapply Hd). congruence.
  - destruct H1 as (A1 & B1 & _). apply Hin, H2 in A1. simpl in *. congruence.
  - destruct H2 as (A2 & B2 & _). apply Hin, H1 in A2. simpl in *. congruence.
Qed.

(** ** What a peer sees

    The specification has two halves, the set of channels the peer has been
    told about ([peer_view]) and the set of sessions it has been given
    ([sess_view]); [peer_sees] is both.  A subscription of a channel the peer
    already counts, the end of one it does not, and the close, the stream close
    or a routing update of a session it was not given would be errors.  The open
    of a session it already has replaces it, as the control loop does when it
    installs the new stream. *)

Definition peer_view (R : gset ChannelID) (ev : peerCtrlEvent) : option (gset ChannelID) :=
  match ev with
  | EvSubscribe id => if bool_decide (id ∈ R) then None else Some ({[id]} ∪ R)
  | EvUnsubscribe id => if bool_decide (id ∈ R) then Some (R ∖ {[id]}) else None
  | _ => Some R
  end.

Definition sess_view (K : gset sessionKey) (ev : peerCtrlEvent) : option (gset sessionKey) :=
  match ev with
  | EvOpenSession e => Some ({[po_key e]} ∪ K)
  | EvCloseSession k => if bool_decide (k ∈ K) then Some (K ∖ {[k]}) else None
  | EvCloseStream k => if bool_decide (k ∈ K) then Some K else None
  | EvSendRouting e => if bool_decide (pr_key e ∈ K) then Some K else None
  | _ => Some K
  end.

Definition peer_sees (V : gset ChannelID * gset sessionKey) (ev : peerCtrlEvent) : option (gset ChannelID * gset sessionKey) :=
  letp R := peer_view V.1 ev in
  letp K := sess_view V.2 ev in
  Some (R, K).

Lemma views_None {A} (f : A -> peerCtrlEvent -> option A) evs : foldl (fun a e => letp a := a in f a e) None evs = None.
Proof. by induction evs. Qed.

(** The two halves do not interact. *)
Lemma views_pair evs : forall R K R' K',
  foldl (fun R e => letp R := R in peer_view R e) (Some R) evs = Some R' ->
  foldl (fun K e => letp K := K in sess_view K e) (Some K) evs = Some K' ->
  foldl (fun V e => letp V := V in peer_sees V e) (Some (R, K)) evs = Some (R', K').
Proof.
  induction evs as [|e evs IH]; intros R K R' K'; [by intros [= ->] [= ->]|]. cbn [foldl mbind option_bind].
  unfold peer_sees at 2. cbn [fst snd]. destruct (peer_view R e) as [R1|]; [|by rewrite (views_None peer_view)].
  destruct (sess_view K e) as [K1|]; [|by rewrite (views_None sess_view)]. apply IH.
Qed.

Definition told (s : ctrlOutState) : gset ChannelID :=
  dom (filter (fun kv => announced kv.2 = true) (channels s)).
Definition wanted (s : ctrlOutState) : gset ChannelID :=
  dom (filter (fun kv => want kv.2 = true) (channels s)).

Lemma elem_flag (f : channelOut -> bool) (m : gmap ChannelID channelOut) id :
  id ∈ dom (filter (fun kv => f kv.2 = true) m) <-> exists c, m !! id = Some c /\ f c = true.
Proof. rewrite elem_of_dom. unfold is_Some. setoid_rewrite map_lookup_filter_Some. done. Qed.

Lemma elem_told s id : id ∈ told s <-> exists c, channels s !! id = Some c /\ announced c = true.
Proof. apply elem_flag. Qed.
Lemma elem_wanted s id : id ∈ wanted s <-> exists c, channels s !! id = Some c /\ want c = true.
Proof. apply elem_flag. Qed.

(** The sessions the peer has, by the record kept here. *)
Definition sess_told (s : ctrlOutState) : gset sessionKey := dom (filter (fun kv => open kv.2 = true) (sessions s)).

Definition is_open (o : option sessionOut) : bool := match o with Some x => open x | None => false end.

Lemma elem_sess (f : sessionOut -> bool) (m : gmap sessionKey sessionOut) k :
  k ∈ dom (filter (fun kv => f kv.2 = true) m) <-> exists o, m !! k = Some o /\ f o = true.
Proof. rewrite elem_of_dom. unfold is_Some. setoid_rewrite map_lookup_filter_Some. done. Qed.

Lemma elem_sess_told s k : k ∈ sess_told s <-> is_open (sessions s !! k) = true.
Proof. unfold sess_told. rewrite elem_sess. unfold is_open. destruct (sessions s !! k); naive_solver. Qed.

Lemma same_sess_told s s' : (forall k, is_open (sessions s' !! k) = is_open (sessions s !! k)) -> sess_told s' = sess_told s.
Proof. intros H. apply set_eq. intros k. by rewrite !elem_sess_told, H. Qed.

(** A pending retirement is of an announced channel. *)
Definition retire_ok (s : ctrlOutState) : Prop :=
  forall id c, channels s !! id = Some c -> retire c = true -> announced c = true.

Definition covers (o : list ChannelID) (s : ctrlOutState) : Prop :=
  forall id, is_Some (channels s !! id) -> id ∈ o.

(** Channel entries compared by their meaning: a missing entry is an idle one. *)
Definition chan (s : ctrlOutState) (id : ChannelID) : channelOut :=
  default (mk_channelOut false false false) (channels s !! id).

Lemma told_chan s id : id ∈ told s <-> announced (chan s id) = true.
Proof. rewrite elem_told. unfold chan. destruct (channels s !! id) as [c|]; simpl; naive_solver. Qed.
Lemma wanted_chan s id : id ∈ wanted s <-> want (chan s id) = true.
Proof. rewrite elem_wanted. unfold chan. destruct (channels s !! id) as [c|]; simpl; naive_solver. Qed.

Lemma same_told s s' : (forall id, announced (chan s' id) = announced (chan s id)) -> told s' = told s.
Proof. intros H. apply set_eq. intros id. by rewrite !told_chan, H. Qed.
Lemma same_wanted s s' : (forall id, want (chan s' id) = want (chan s id)) -> wanted s' = wanted s.
Proof. intros H. apply set_eq. intros id. by rewrite !wanted_chan, H. Qed.

Lemma chan_insert s id c id' : chan (set_channels s (<[id := c]> (channels s))) id' = if decide (id = id') then c else chan s id'.
Proof. unfold chan. simpl. case_decide; [subst; by rewrite lookup_insert_eq|by rewrite lookup_insert_ne]. Qed.

Lemma chan_delete s id id' :
  chan (set_channels s (delete id (channels s))) id' = if decide (id = id') then mk_channelOut false false false else chan s id'.
Proof. unfold chan. simpl. case_decide; [subst; by rewrite lookup_delete_eq|by rewrite lookup_delete_ne]. Qed.

Lemma retire_chan s : retire_ok s <-> forall id, retire (chan s id) = true -> announced (chan s id) = true.
Proof.
  unfold retire_ok, chan. split; intros H.
  - intros id. destruct (channels s !! id) eqn:E; simpl; [by eapply H|done].
  - intros id c Hc. specialize (H id). by rewrite Hc in H.
Qed.

(** ** One transition *)

Definition ev_key (ev : peerCtrlEvent) : option sessionKey :=
  match ev with
  | EvOpenSession e => Some (po_key e)
  | EvSendRouting e => Some (pr_key e)
  | EvCloseSession k | EvCloseStream k => Some k
  | _ => None
  end.

(** What a call of [next] that returns [ev] can do to the entry of [key]. *)
Inductive sess_step (key : sessionKey) (ev : option peerCtrlEvent) : option sessionOut -> option sessionOut -> Prop :=
| ss_same o : (forall e, ev = Some e -> ev_key e <> Some key) -> sess_step key ev o o
| ss_drop o : close o = true -> open o = false -> (forall e, ev = Some e -> ev_key e <> Some key) ->
    sess_step key ev (Some o) None
| ss_close o : ev = Some (EvCloseSession key) -> close o = true -> open o = true ->
    sess_step key ev (Some o)
      (match pendingOpen o with
       | None => None
       | Some p => Some (mk_sessionOut (Some p) false (routing o) (closeStream o) false (order o))
       end)
| ss_open o e : ev = Some (EvOpenSession e) -> pendingOpen o = Some e -> close o = false ->
    sess_step key ev (Some o) (Some (mk_sessionOut None true (routing o) (closeStream o) (close o) (order o)))
| ss_stream o : ev = Some (EvCloseStream key) -> closeStream o = true -> open o = true -> close o = false -> pendingOpen o = None ->
    sess_step key ev (Some o) (Some (mk_sessionOut (pendingOpen o) (open o) (routing o) false (close o) (order o)))
| ss_routing o u : ev = Some (EvSendRouting (mk_routing key u)) -> routing o = Some u -> open o = true ->
    close o = false -> pendingOpen o = None -> wants_stream_close o = false ->
    sess_step key ev (Some o) (Some (drop_routing o)).

(** And to the entry of channel [id]: an idle entry may be dropped. *)
Inductive chan_step (id : ChannelID) (ev : option peerCtrlEvent) : channelOut -> channelOut -> Prop :=
| cs_same c : ev <> Some (EvSubscribe id) -> ev <> Some (EvUnsubscribe id) -> chan_step id ev c c
| cs_unsub c : ev = Some (EvUnsubscribe id) -> retire c = true \/ (want c = false /\ announced c = true) ->
    chan_step id ev c (mk_channelOut (want c) false false)
| cs_sub c : ev = Some (EvSubscribe id) -> want c = true -> announced c = false -> retire c = false ->
    chan_step id ev c (mk_channelOut true true false).

Lemma chan_step_None id c c' : chan_step id None c c' -> c' = c.
Proof. by inversion 1. Qed.

Lemma chan_step_want id ev c c' : chan_step id ev c c' -> want c' = want c.
Proof. inversion 1; subst; simpl; congruence. Qed.

Lemma chan_step_retire id ev c c' :
  chan_step id ev c c' -> (retire c = true -> announced c = true) -> retire c' = true -> announced c' = true.
Proof. by inversion 1; subst; simpl. Qed.

Lemma chan_step_other id ev c c' :
  chan_step id ev c c' -> ev <> Some (EvSubscribe id) -> ev <> Some (EvUnsubscribe id) -> c' = c.
Proof. by inversion 1; subst. Qed.

(** Pending opens sit under their own key. *)
Definition keys_ok (s : ctrlOutState) : Prop :=
  forall k o p, sessions s !! k = Some o -> pendingOpen o = Some p -> po_key p = k.

Definition session_work (o : sessionOut) : nat :=
  (if pendingOpen o then 1 else 0) + (if close o then 1 else 0) + (if closeStream o then 1 else 0) + (if routing o then 1 else 0).
Definition channel_work (c : channelOut) : nat :=
  if retire c then (if want c then 2 else 1) else if eqb (want c) (announced c) then 0 else 1.
(** The number of events still owed is bounded by this. *)
Definition work (s : ctrlOutState) : nat := map_sum session_work (sessions s) + map_sum channel_work (channels s).

Record phase_ok (s : ctrlOutState) (ev : option peerCtrlEvent) (s' : ctrlOutState) : Prop := {
  ph_closed : closed s' = closed s;
  ph_order : nextOrder s' = nextOrder s;
  ph_sess : forall key, sess_step key ev (sessions s !! key) (sessions s' !! key);
  ph_chan : forall id, chan_step id ev (chan s id) (chan s' id);
  ph_work : (work s' + (if ev then 1 else 0) <= work s)%nat;
  ph_sub : dom (channels s') ⊆ dom (channels s) }.

Lemma phase_same s : phase_ok s None s.
Proof.
  split; try done; [intros key; by apply ss_same|intros id; by apply cs_same|lia].
Qed.

(** Silent progress followed by a phase. *)
Lemma phase_trans s1 s2 s3 ev : phase_ok s1 None s2 -> phase_ok s2 ev s3 -> phase_ok s1 ev s3.
Proof.
  intros [A1 A0 A2 A3 A4 A5] [B1 B0 B2 B3 B4 B5]. split; [congruence|congruence| | |simpl in A4; destruct ev; lia|set_solver].
  - intros key. specialize (A2 key). specialize (B2 key).
    inversion A2 as [o Hn E1 E2|o Hc Ho Hn E1 E2| | | | ]; try done; subst; [by rewrite <-E2 in B2|].
    rewrite <-E2 in B2. inversion B2 as [o' Hn' E1' E2'| | | | | ]. by apply ss_drop.
  - intros id. specialize (A3 id). specialize (B3 id).
    apply chan_step_None in A3. by rewrite <-A3.
Qed.

Lemma sess_step_other key k (m m' : gmap sessionKey sessionOut) ev :
  (forall e, ev = Some e -> ev_key e = Some key) -> k <> key -> m' !! k = m !! k -> sess_step k ev (m !! k) (m' !! k).
Proof. intros He Hk ->. apply ss_same. intros e E. rewrite (He e E). congruence. Qed.

(** Replacing or deleting one session. *)
Lemma phase_session s key o ev (o' : option sessionOut) :
  sessions s !! key = Some o -> (forall e, ev = Some e -> ev_key e = Some key) ->
  sess_step key ev (Some o) o' ->
  (match o' with Some x => session_work x | None => 0 end + (if ev then 1 else 0) <= session_work o)%nat ->
  phase_ok s ev (set_sessions s (match o' with Some x => <[key := x]> (sessions s) | None => delete key (sessions s) end)).
Proof.
  intros Hk He Hs Hw. split; simpl; try done.
  - intros k. destruct (decide (k = key)) as [->|Hne].
    + rewrite Hk. destruct o'; [by rewrite lookup_insert_eq|by rewrite lookup_delete_eq].
    + apply (sess_step_other key); [done|done|].
      destruct o'; [by rewrite lookup_insert_ne|by rewrite lookup_delete_ne].
  - intros id. apply cs_same; intros ->; by specialize (He _ eq_refl).
  - unfold work. simpl. destruct o' as [x|].
    + pose proof (map_sum_alter session_work (sessions s) key o x Hk). destruct ev; lia.
    + pose proof (map_sum_delete session_work (sessions s) key o Hk). destruct ev; lia.
Qed.

(** ** The phases *)

Definition no_close (s : ctrlOutState) : Prop := forall k o, sessions s !! k = Some o -> close o = false.

Lemma phase_close_ok fuel : forall s,
  (size (sessions s) < fuel)%nat ->
  exists ev s', phase_close fuel s = Some (ev, s') /\ phase_ok s ev s' /\ channels s' = channels s /\
    (ev = None -> no_close s').
Proof.
  induction fuel as [|fuel IH]; intros s Hf; [lia|]. simpl. destruct (firstSession s close) as [[key o]|] eqn:E.
  - apply firstSession_Some in E as (Hk & Hc & _). destruct (open o) eqn:Eo; simpl.
    + pose proof (phase_session s key o (Some (EvCloseSession key)) _ Hk ltac:(by intros e [= <-])
        (ss_close key _ o eq_refl Hc Eo)) as Hp.
      destruct (pendingOpen o) as [p|] eqn:Ep; (do 2 eexists; split; [done|]; split; [|done]);
        apply Hp; unfold session_work; simpl; rewrite ?Ep, ?Hc; lia.
    + pose proof (phase_session s key o None None Hk ltac:(done) (ss_drop key None o Hc Eo ltac:(done)) ltac:(simpl; lia)) as Hp.
      destruct (IH (set_sessions s (delete key (sessions s)))) as (ev & s' & -> & Hp' & Hch & Hn).
      { simpl. rewrite map_size_delete_Some by eauto. assert (size (sessions s) <> 0%nat); [|lia].
        intros H0%map_size_empty_inv. by rewrite H0, lookup_empty in Hk. }
      exists ev, s'. split; [done|]. split; [by eapply phase_trans|done].
  - rewrite firstSession_None in E. do 2 eexists. split; [done|]. split; [apply phase_same|done].
Qed.

Lemma phase_close_event fuel : forall s e s',
  phase_close fuel s = Some (Some e, s') -> exists key, e = EvCloseSession key.
Proof.
  induction fuel as [|fuel IH]; intros s e s'; simpl; [done|]. destruct (firstSession s close) as [[key o]|]; [|done].
  destruct (negb (open o)); [apply IH|]. intros [= <- _]. by exists key.
Qed.

(** Replacing or dropping one channel. *)
Lemma phase_channel s id c ev (c' : channelOut) m' :
  channels s !! id = Some c -> (ev = None \/ ev = Some (EvSubscribe id) \/ ev = Some (EvUnsubscribe id)) ->
  chan_step id ev c c' -> (channel_work c' + (if ev then 1 else 0) <= channel_work c)%nat ->
  m' = <[id := c']> (channels s) \/ (m' = delete id (channels s) /\ c' = mk_channelOut false false false) ->
  phase_ok s ev (set_channels s m').
Proof.
  intros Hc Hev Hs Hw Hm. assert (chan s id = c) as Ec by (unfold chan; by rewrite Hc). split; simpl; try done.
  - intros key. apply ss_same. intros e ->. by destruct Hev as [?|[[= ->]|[= ->]]].
  - intros id'. destruct (decide (id = id')) as [<-|Hne].
    + rewrite Ec. destruct Hm as [->|[-> ->]]; [rewrite chan_insert|rewrite chan_delete]; by rewrite decide_True.
    + assert (chan (set_channels s m') id' = chan s id') as ->.
      { destruct Hm as [->|[-> _]]; [rewrite chan_insert|rewrite chan_delete]; by rewrite decide_False. }
      apply cs_same; intros ->; destruct Hev as [?|[[= ?]|[= ?]]]; done.
  - unfold work. simpl. destruct Hm as [->|[-> ->]].
    + pose proof (map_sum_alter channel_work (channels s) id c c' Hc). destruct ev; lia.
    + pose proof (map_sum_delete channel_work (channels s) id c Hc). destruct ev; lia.
  - destruct Hm as [->|[-> _]]; [rewrite dom_insert_L|rewrite dom_delete_L; set_solver].
    apply elem_of_dom_2 in Hc. set_solver.
Qed.

Definition settled (c : channelOut) : Prop := retire c = false /\ (announced c = true -> want c = true).

Lemma phase_unsubscribe_ok ids : forall s ev s',
  phase_unsubscribe ids s = (ev, s') ->
  phase_ok s ev s' /\ sessions s' = sessions s /\
  (forall e, ev = Some e -> exists id, e = EvUnsubscribe id) /\
  (ev = None -> forall id, id ∈ ids -> settled (chan s' id)).
Proof.
  induction ids as [|id ids IH]; intros s ev s'; simpl.
  { intros [= <- <-]. split; [apply phase_same|]. split; [done|]. split; [done|]. by intros _ ? ?%elem_of_nil. }
  destruct (channels s !! id) as [c|] eqn:Ec.
  - assert (chan s id = c) as Ech by (unfold chan; by rewrite Ec).
    destruct (negb (want c) && negb (announced c) && negb (retire c)) eqn:Eidle.
    + intros E. apply IH in E as (Hp & Hss & Hk & Hn).
      assert (phase_ok s None (set_channels s (delete id (channels s)))) as Hp0.
      { destruct c as [[] [] []]; try done. eapply phase_channel; [done|by left|by apply cs_same|simpl; lia|by right]. }
      split; [by eapply phase_trans|]. split; [done|]. split; [done|].
      intros E0 id' [-> | Hin]%elem_of_cons; [|by apply Hn]. subst ev.
      pose proof (ph_chan _ _ _ Hp id) as Hcs. rewrite chan_delete, decide_True in Hcs by done.
      apply chan_step_None in Hcs as ->. by split.
    + destruct (retire c || (negb (want c) && announced c)) eqn:Eu.
      * intros [= <- <-]. split; [|split; [done|split; [by intros e [= <-]; eauto|done]]].
        assert (retire c = true \/ (want c = false /\ announced c = true)) as Hr by (destruct c as [[] [] []]; simpl in *; auto).
        eapply (phase_channel s id c _ (mk_channelOut (want c) false false)); [done|by right; right|by apply cs_unsub| |].
        -- destruct c as [[] [] []]; try done; unfold channel_work; simpl in *; try lia; destruct Hr as [?|[? ?]]; done.
        -- destruct (want c); simpl; [by left|by right].
      * intros E. apply IH in E as (Hp & Hss & Hk & Hn). split; [done|]. split; [done|]. split; [done|].
        intros -> id' [-> | Hin]%elem_of_cons; [|by apply Hn].
        pose proof (ph_chan _ _ _ Hp id) as Hcs. rewrite Ech in Hcs. apply chan_step_None in Hcs as ->.
        unfold settled. destruct c as [[] [] []]; simpl in *; done.
  - intros E. apply IH in E as (Hp & Hss & Hk & Hn). split; [done|]. split; [done|]. split; [done|].
    intros -> id' [-> | Hin]%elem_of_cons; [|by apply Hn].
    pose proof (ph_chan _ _ _ Hp id) as Hcs. unfold chan at 1 in Hcs. rewrite Ec in Hcs. simpl in Hcs.
    apply chan_step_None in Hcs as ->. by split.
Qed.

Lemma phase_subscribe_ok ids : forall s ev s',
  (forall id, settled (chan s id)) -> phase_subscribe ids s = (ev, s') ->
  phase_ok s ev s' /\ sessions s' = sessions s /\
  (forall e, ev = Some e -> exists id, e = EvSubscribe id) /\
  (ev = None -> s' = s /\ forall id, id ∈ ids -> want (chan s id) = announced (chan s id)).
Proof.
  induction ids as [|id ids IH]; intros s ev s' Hset; simpl.
  { intros [= <- <-]. split; [apply phase_same|]. split; [done|]. split; [done|]. split; [done|]. by intros ? ?%elem_of_nil. }
  destruct (channels s !! id) as [c|] eqn:Ec.
  - assert (chan s id = c) as Ech by (unfold chan; by rewrite Ec). pose proof (Hset id) as Hs. rewrite Ech in Hs.
    destruct (want c && negb (announced c)) eqn:Ew.
    + intros [= <- <-]. split; [|split; [done|split; [by intros e [= <-]; eauto|done]]].
      eapply (phase_channel s id c _ _); [done|by right; left| | |by left].
      * destruct c as [[] [] []]; try done; by apply cs_sub || by destruct Hs.
      * destruct c as [[] [] []]; try done; unfold channel_work; simpl in *; try lia. by destruct Hs.
    + intros E. apply IH in E as (Hp & Hss & Hk & Hn); [|done]. split; [done|]. split; [done|]. split; [done|].
      intros E0. destruct (Hn E0) as [-> Hn']. split; [done|]. intros id' [-> | Hin]%elem_of_cons; [|by apply Hn'].
      rewrite Ech. destruct Hs as [_ Hs]. destruct c as [[] [] []]; simpl in *; try done; by specialize (Hs eq_refl).
  - intros E. apply IH in E as (Hp & Hss & Hk & Hn); [|done]. split; [done|]. split; [done|]. split; [done|].
    intros E0. destruct (Hn E0) as [-> Hn']. split; [done|]. intros id' [-> | Hin]%elem_of_cons; [|by apply Hn'].
    unfold chan. by rewrite Ec.
Qed.

(** ** Priorities *)

Definition rank (ev : peerCtrlEvent) : nat :=
  match ev with
  | EvCloseSession _ => 0
  | EvUnsubscribe _ => 1
  | EvSubscribe _ => 2
  | EvOpenSession _ => 3
  | EvCloseStream _ => 4
  | EvSendRouting _ => 5
  end.

(** Some event of the given rank is owed. *)
Definition due (r : nat) (s : ctrlOutState) : Prop :=
  match r with
  | 0 => exists k o, sessions s !! k = Some o /\ close o = true /\ open o = true
  | 1 => exists id, retire (chan s id) = true \/ (announced (chan s id) = true /\ want (chan s id) = false)
  | 2 => exists id, want (chan s id) = true /\ announced (chan s id) = false
  | 3 => exists k o, sessions s !! k = Some o /\ close o = false /\ is_pending o = true
  | 4 => exists k o, sessions s !! k = Some o /\ close o = false /\ wants_stream_close o = true
  | _ => exists k o, sessions s !! k = Some o /\ close o = false /\ has_routing o = true
  end%nat.

Lemma sess_step_None key o o' :
  sess_step key None o o' -> o' = o \/ (o' = None /\ exists x, o = Some x /\ close x = true /\ open x = false).
Proof. inversion 1; try done; [by left|]. right. split; [done|]. by eexists. Qed.

Lemma due_silent r s s' : phase_ok s None s' -> due r s <-> due r s'.
Proof.
  intros Hp. assert (forall id, chan s' id = chan s id) as Hc by (intros id; by apply chan_step_None with id, Hp).
  assert (forall (P : sessionOut -> Prop), (forall o, P o -> ~ (close o = true /\ open o = false)) ->
    (exists k o, sessions s !! k = Some o /\ P o) <-> exists k o, sessions s' !! k = Some o /\ P o) as Hs.
  { intros P HP. split; intros (k & o & Hk & Ho); exists k, o; (split; [|done]);
      pose proof (ph_sess _ _ _ Hp k) as Hst; rewrite Hk in Hst;
      apply sess_step_None in Hst as [E|(E & x & Ex & Hx)]; try congruence.
    injection Ex as <-. by destruct (HP o Ho). }
  destruct r as [|[|[|[|[|r]]]]]; simpl; [apply Hs; intros o [? ?] [? ?]; congruence| | |apply Hs; intros o [? ?] [? ?]; congruence..];
    by setoid_rewrite Hc.
Qed.

Lemma no_close_silent s s' : phase_ok s None s' -> no_close s -> no_close s'.
Proof.
  intros Hp Hn k o Hk. pose proof (ph_sess _ _ _ Hp k) as Hs. rewrite Hk in Hs.
  apply sess_step_None in Hs as [E|[? _]]; [|done]. by apply (Hn k).
Qed.

Record tail_ok (lo hi : nat) (s : ctrlOutState) (ev : option peerCtrlEvent) (s' : ctrlOutState) : Prop := {
  tl_phase : phase_ok s ev s';
  tl_rank : forall e, ev = Some e -> (lo <= rank e <= hi)%nat /\ forall r, (lo <= r < rank e)%nat -> ~ due r s;
  tl_none : ev = None -> forall r, (lo <= r <= hi)%nat -> ~ due r s';
  tl_close : lo = 0%nat -> ev = None -> no_close s' }.

Lemma tail_or_else a b c s ev s' k :
  (a <= b <= c)%nat -> tail_ok a b s ev s' ->
  (ev = None -> exists ev2 s2, k s' = (ev2, s2) /\ tail_ok (S b) c s' ev2 s2) ->
  exists ev3 s3, or_else (ev, s') k = (ev3, s3) /\ tail_ok a c s ev3 s3.
Proof.
  intros Hab [H1 H2 H3 H0] Hk. unfold or_else. simpl. destruct ev as [e|].
  - exists (Some e), s'. split; [done|]. split; [done| |done|done].
    intros e' [= <-]. destruct (H2 e eq_refl). split; [lia|done].
  - destruct (Hk eq_refl) as (ev2 & s2 & E & [G1 G2 G3 G0]). exists ev2, s2. split; [done|]. split; [by eapply phase_trans| | |].
    + intros e Ee. destruct (G2 e Ee) as [G4 G5]. split; [lia|]. intros r Hr Hd. apply (due_silent r s s' H1) in Hd as Hd.
      destruct (decide (r <= b)%nat); [by apply (H3 eq_refl r); [lia|]|]. by apply (G5 r); [lia|].
    + intros -> r Hr Hd. destruct (decide (r <= b)%nat).
      * apply (H3 eq_refl r); [lia|]. by apply (due_silent r s' s2).
      * by apply (G3 eq_refl r); [lia|].
    + intros Ha ->. eapply no_close_silent; [done|by apply H0].
Qed.

(** Emitting for the first session that matches. *)
Lemma phase_first s m key o ev o' r :
  firstSession s m = Some (key, o) -> ev_key ev = Some key -> rank ev = r -> (2 < r)%nat ->
  sess_step key (Some ev) (Some o) (Some o') -> (session_work o' < session_work o)%nat ->
  tail_ok r r s (Some ev) (put_session s key o').
Proof.
  intros E Hk Hr Hr2 Hs Hw. apply firstSession_Some in E as (Hl & _ & _). split; [| |done|lia].
  - apply (phase_session s key o (Some ev) (Some o')); try done; [by intros e [= <-]|lia].
  - intros e [= <-]. split; [lia|]. intros; lia.
Qed.

Lemma phase_none s m r :
  firstSession s m = None -> (2 < r)%nat -> (forall s, due r s -> exists k o, sessions s !! k = Some o /\ m o = true) -> tail_ok r r s None s.
Proof.
  intros E Hr2 Hd. rewrite firstSession_None in E. split; [apply phase_same|done| |].
  2:{ lia. }
  intros _ r' Hr H. assert (r' = r) as -> by lia. destruct (Hd s H) as (k & o & Hk & Hm). by rewrite (E k o Hk) in Hm.
Qed.

Lemma phase_open_ok s : keys_ok s -> no_close s -> exists ev s', phase_open s = (ev, s') /\ tail_ok 3 3 s ev s'.
Proof.
  intros Hk Hc. unfold phase_open. destruct (firstSession s is_pending) as [[key o]|] eqn:E.
  - pose proof (firstSession_Some _ _ _ _ E) as (Hl & Hm & _). unfold is_pending in Hm. apply bool_decide_eq_true in Hm as [p Hp].
    rewrite Hp. do 2 eexists. split; [done|]. eapply (phase_first s is_pending key o); try done; [|lia| |].
    + simpl. by rewrite (Hk key o p Hl Hp).
    + by apply (ss_open key _ o p); [done|done|apply (Hc key)].
    + unfold session_work. simpl. rewrite Hp. lia.
  - do 2 eexists. split; [done|]. apply (phase_none s is_pending); [done|lia|]. intros s' (k & o & H1 & _ & H2). by exists k, o.
Qed.

Lemma not_pending s : ~ due 3 s -> no_close s -> forall k o, sessions s !! k = Some o -> pendingOpen o = None.
Proof.
  intros Hd Hc k o Hk. destruct (pendingOpen o) as [p|] eqn:E; [|done]. exfalso. apply Hd. exists k, o.
  split; [done|]. split; [by apply (Hc k)|]. unfold is_pending. rewrite E. by apply bool_decide_eq_true_2.
Qed.

Lemma phase_stream_ok s :
  no_close s -> ~ due 3 s -> exists ev s', phase_stream s = (ev, s') /\ tail_ok 4 4 s ev s'.
Proof.
  intros Hc Hd. unfold phase_stream. destruct (firstSession s wants_stream_close) as [[key o]|] eqn:E.
  - pose proof (firstSession_Some _ _ _ _ E) as (Hl & Hm & _). pose proof Hm as Hm'.
    unfold wants_stream_close in Hm. apply andb_true_iff in Hm as [Hm1 Hm2].
    do 2 eexists. split; [done|]. eapply (phase_first s wants_stream_close key o); try done; [lia| |].
    + apply ss_stream; try done; [by apply (Hc key)|by eapply not_pending].
    + unfold session_work. simpl. rewrite Hm1. lia.
  - do 2 eexists. split; [done|]. apply (phase_none s wants_stream_close); [done|lia|]. intros s' (k & o & H1 & _ & H2). by exists k, o.
Qed.

Lemma phase_routing_ok s :
  no_close s -> ~ due 3 s -> ~ due 4 s -> exists ev s', phase_routing s = (ev, s') /\ tail_ok 5 5 s ev s'.
Proof.
  intros Hc Hd3 Hd4. unfold phase_routing. destruct (firstSession s has_routing) as [[key o]|] eqn:E.
  - pose proof (firstSession_Some _ _ _ _ E) as (Hl & Hm & _). pose proof Hm as Hm'.
    unfold has_routing in Hm. apply andb_true_iff in Hm as [Hm1 Hm2]. apply bool_decide_eq_true in Hm1 as [u Hu]. rewrite Hu.
    do 2 eexists. split; [done|]. eapply (phase_first s has_routing key o); try done; [lia| |].
    + eapply ss_routing; try done; [by apply (Hc key)|by eapply not_pending|].
      destruct (wants_stream_close o) eqn:Ew; [|done]. exfalso. apply Hd4. exists key, o.
      split; [done|]. split; [by apply (Hc key)|done].
    + unfold session_work. simpl. rewrite Hu. lia.
  - do 2 eexists. split; [done|]. apply (phase_none s has_routing); [done|lia|]. intros s' (k & o & H1 & _ & H2). by exists k, o.
Qed.

(** ** [next] as a whole *)

Lemma keys_silent s s' : phase_ok s None s' -> keys_ok s -> keys_ok s'.
Proof.
  intros Hp Hn k o p Hk. pose proof (ph_sess _ _ _ Hp k) as Hs. rewrite Hk in Hs.
  apply sess_step_None in Hs as [E|[? _]]; [|done]. by apply (Hn k).
Qed.

Lemma covers_sub o s s' : covers o s -> dom (channels s') ⊆ dom (channels s) -> covers o s'.
Proof. intros Hc Hd id Hid. apply Hc. apply elem_of_dom, Hd. by apply elem_of_dom. Qed.

Lemma chan_uncovered o s id : covers o s -> id ∉ o -> chan s id = mk_channelOut false false false.
Proof. intros Hc Hn. unfold chan. destruct (channels s !! id) eqn:E; [|done]. destruct Hn. apply Hc. by rewrite E. Qed.

Lemma tail_unsubscribe o s : covers o s -> exists ev s', phase_unsubscribe o s = (ev, s') /\ tail_ok 1 1 s ev s' /\
  sessions s' = sessions s /\ (ev = None -> forall id, settled (chan s' id)).
Proof.
  intros Hc. destruct (phase_unsubscribe o s) as [ev s'] eqn:E. exists ev, s'. split; [done|].
  apply phase_unsubscribe_ok in E as (Hp & Hs & He & Hn).
  assert (ev = None -> forall id, settled (chan s' id)) as Hset.
  { intros E id. destruct (decide (id ∈ o)); [by apply Hn|].
    rewrite (chan_uncovered o); [by split|eapply covers_sub; [done|apply Hp]|done]. }
  split; [|done]. split; [done| | |lia].
  - intros e Ee. destruct (He e Ee) as [id ->]. simpl. split; [lia|]. intros; lia.
  - intros E r Hr. assert (r = 1%nat) as -> by lia. intros [id Hd]. destruct (Hset E id) as [S1 S2].
    destruct Hd as [Hd|[Hd1 Hd2]]; [congruence|]. rewrite S2 in Hd2; done.
Qed.

Lemma tail_subscribe o s : covers o s -> (forall id, settled (chan s id)) ->
  exists ev s', phase_subscribe o s = (ev, s') /\ tail_ok 2 2 s ev s' /\ sessions s' = sessions s.
Proof.
  intros Hc Hset. destruct (phase_subscribe o s) as [ev s'] eqn:E. exists ev, s'. split; [done|].
  apply phase_subscribe_ok in E as (Hp & Hs & He & Hn); [|done]. split; [|done]. split; [done| | |lia].
  - intros e Ee. destruct (He e Ee) as [id ->]. simpl. split; [lia|]. intros; lia.
  - intros E r Hr. assert (r = 2%nat) as -> by lia. intros [id [Hd1 Hd2]]. destruct (Hn E) as [-> Hw].
    destruct (decide (id ∈ o)); [rewrite Hw in Hd1 by done; congruence|].
    rewrite (chan_uncovered o) in Hd1; done.
Qed.

Lemma next_ok o1 o2 s :
  keys_ok s -> covers o1 s -> covers o2 s -> closed s = false ->
  exists ev s', next o1 o2 s = Some (ev, s') /\ tail_ok 0 5 s ev s'.
Proof.
  intros Hk H1 H2 Hcl. unfold next. rewrite Hcl.
  destruct (phase_close_ok (S (size (sessions s))) s ltac:(lia)) as (ev0 & s0 & E0 & P0 & Ech & N0).
  pose proof E0 as E0'. rewrite E0. simpl mbind. clear E0.
  assert (tail_ok 0 0 s ev0 s0) as T0.
  { split; [done| | |done].
    - intros e ->. pose proof (phase_close_event _ _ _ _ E0') as [key ->]. simpl. split; [lia|]. intros; lia.
    - intros E r Hr. assert (r = 0%nat) as -> by lia. intros (k & o & Hl & Hc & _). rewrite (N0 E k o Hl) in Hc. done. }
  enough (exists ev s', or_else (ev0, s0) (fun s => or_else (phase_unsubscribe o1 s) (fun s =>
          or_else (phase_subscribe o2 s) (fun s => or_else (phase_open s) (fun s =>
          or_else (phase_stream s) phase_routing)))) = (ev, s') /\ tail_ok 0 5 s ev s') as (ev & s' & E & T)
    by (exists ev, s'; split; [by rewrite E|done]).
  apply (tail_or_else 0 0 5 _ _ _ _ ltac:(lia) T0). intros ->. pose proof (N0 eq_refl) as C0. pose proof (keys_silent _ _ P0 Hk) as K0.
  destruct (tail_unsubscribe o1 s0) as (ev1 & s1 & -> & T1 & Es1 & Set1); [by unfold covers; rewrite Ech|].
  apply (tail_or_else 1 1 5 _ _ _ _ ltac:(lia) T1). intros ->.
  destruct (tail_subscribe o2 s1) as (ev2 & s2 & -> & T2 & Es2);
    [eapply covers_sub; [|apply T1]; by unfold covers; rewrite Ech|by apply Set1|].
  apply (tail_or_else 2 2 5 _ _ _ _ ltac:(lia) T2). intros ->.
  assert (no_close s2) as C2 by (unfold no_close; by rewrite Es2, Es1).
  destruct (phase_open_ok s2) as (ev3 & s3 & -> & T3); [unfold keys_ok; by rewrite Es2, Es1|done|].
  apply (tail_or_else 3 3 5 _ _ _ _ ltac:(lia) T3). intros ->. pose proof (no_close_silent _ _ (tl_phase _ _ _ _ _ T3) C2) as C3.
  pose proof (tl_none _ _ _ _ _ T3 eq_refl 3 ltac:(lia)) as D3.
  destruct (phase_stream_ok s3 C3 D3) as (ev4 & s4 & -> & T4).
  apply (tail_or_else 4 4 5 _ _ _ _ ltac:(lia) T4). intros ->.
  pose proof (no_close_silent _ _ (tl_phase _ _ _ _ _ T4) C3) as C4.
  apply phase_routing_ok; [done| |by apply (tl_none _ _ _ _ _ T4 eq_refl 4); lia].
  by rewrite <-(due_silent 3 s3 s4 (tl_phase _ _ _ _ _ T4)).
Qed.

(** ** Runs: requests interleaved with calls of [next] *)

Inductive ctrl_step : ctrlOutState -> list peerCtrlEvent -> ctrlOutState -> Prop :=
| st_announce s id b : ctrl_step s [] (announce s id b)
| st_open s e : ctrl_step s [] (openSession s e)
| st_close s k : ctrl_step s [] (closeSession s k)
| st_close_stream s k : ctrl_step s [] (closeSessionStream s k)
| st_routing s e : ctrl_step s [] (setRouting s e).1
| st_next s o1 o2 ev s' : covers o1 s -> covers o2 s -> next o1 o2 s = Some (ev, s') -> ctrl_step s (option_list ev) s'.

Inductive ctrl_run : ctrlOutState -> list peerCtrlEvent -> ctrlOutState -> Prop :=
| run_refl s : ctrl_run s [] s
| run_step s evs s1 evs' s2 : ctrl_step s evs s1 -> ctrl_run s1 evs' s2 -> ctrl_run s (evs ++ evs') s2.

(** Only [next], until it has nothing more to say. *)
Inductive drains : ctrlOutState -> list peerCtrlEvent -> ctrlOutState -> Prop :=
| dr_done s o1 o2 s' : covers o1 s -> covers o2 s -> next o1 o2 s = Some (None, s') -> drains s [] s'
| dr_emit s o1 o2 e s1 evs s' : covers o1 s -> covers o2 s -> next o1 o2 s = Some (Some e, s1) ->
    drains s1 evs s' -> drains s (e :: evs) s'.

Record ctrl_wf (s : ctrlOutState) : Prop := {
  cw_keys : keys_ok s;
  cw_retire : retire_ok s;
  cw_open : closed s = false }.

Definition opt_keyed (key : sessionKey) (o : option sessionOut) : Prop :=
  forall x p, o = Some x -> pendingOpen x = Some p -> po_key p = key.

Lemma sess_step_keyed key ev o o' : sess_step key ev o o' -> opt_keyed key o -> opt_keyed key o'.
Proof.
  intros H Hk. unfold opt_keyed in *.
  inversion H; subst; try done; intros x p; try (intros [= <-]; simpl; naive_solver).
  destruct (pendingOpen o0) as [q|] eqn:Eq; [|done]. intros [= <-]. simpl. intros [= <-]. by apply (Hk o0 q).
Qed.

Lemma keys_ok_opt s : keys_ok s <-> forall key, opt_keyed key (sessions s !! key).
Proof. unfold keys_ok, opt_keyed. naive_solver. Qed.

Lemma phase_wf s ev s' : phase_ok s ev s' -> ctrl_wf s -> ctrl_wf s'.
Proof.
  intros Hp [H1 H2 H3]. split; [| |by rewrite (ph_closed _ _ _ Hp)].
  - rewrite keys_ok_opt in *. intros key. eapply sess_step_keyed; [apply Hp|apply H1].
  - rewrite retire_chan in *. intros id. eapply chan_step_retire; [apply Hp|apply H2].
Qed.

(** The peer's view follows the events of [next]. *)
Lemma phase_view s ev s' :
  phase_ok s ev s' -> retire_ok s ->
  wanted s' = wanted s /\ match ev with Some e => peer_view (told s) e = Some (told s') | None => told s' = told s end.
Proof.
  intros Hp Hr. rewrite retire_chan in Hr. pose proof (ph_chan _ _ _ Hp) as Hc. split.
  { apply same_wanted. intros id. by eapply chan_step_want. }
  assert (forall id, ev <> Some (EvSubscribe id) -> ev <> Some (EvUnsubscribe id) -> announced (chan s' id) = announced (chan s id)) as Hs.
  { intros id N1 N2. by rewrite (chan_step_other _ _ _ _ (Hc id)). }
  destruct ev as [[e|e|id|id|k|k]|]; simpl; try (f_equal; symmetry; apply same_told; intros; by apply Hs); try (apply same_told; intros; by apply Hs).
  - pose proof (Hc id) as Hi. inversion Hi as [c N1 N2| |c _ Hw Ha _ E1 E2]; try done; subst.
    rewrite bool_decide_eq_false_2 by (rewrite told_chan; congruence). f_equal. apply set_eq. intros j.
    rewrite elem_of_union, elem_of_singleton, !told_chan. destruct (decide (j = id)) as [->|].
    + rewrite <-E2. simpl. naive_solver.
    + rewrite Hs by congruence. naive_solver.
  - pose proof (Hc id) as Hi. inversion Hi as [c N1 N2|c _ Hu E1 E2|]; try done; subst.
    rewrite bool_decide_eq_true_2 by (rewrite told_chan; destruct Hu as [Hu|[_ ?]]; [by apply Hr|done]). f_equal. apply set_eq. intros j.
    rewrite elem_of_difference, not_elem_of_singleton, !told_chan. destruct (decide (j = id)) as [->|].
    + rewrite <-E2. simpl. naive_solver.
    + rewrite Hs by congruence. naive_solver.
Qed.

Lemma sess_step_open key ev o o' :
  sess_step key ev o o' -> opt_keyed key o ->
  match ev with
  | Some e =>
      if decide (ev_key e = Some key) then
        match e with
        | EvOpenSession _ => is_open o' = true
        | EvCloseSession _ => is_open o = true /\ is_open o' = false
        | _ => is_open o = true /\ is_open o' = true
        end
      else is_open o' = is_open o
  | None => is_open o' = is_open o
  end.
Proof.
  intros H Hk. inversion H as [x Hn|x Hc Ho Hn|x -> Hc Ho|x e -> Hp Hc|x -> _ Ho|x u -> _ Ho]; subst; simpl.
  - destruct ev as [e|]; [|done]. rewrite decide_False; [done|by apply Hn].
  - destruct ev as [e|]; [|done]. rewrite decide_False; [done|by apply Hn].
  - rewrite decide_True by done. split; [done|]. by destruct (pendingOpen x).
  - by case_decide as E; [|destruct E; simpl; f_equal; apply (Hk x e)].
  - by rewrite decide_True.
  - by rewrite decide_True.
Qed.

Lemma phase_sess_view s ev s' :
  phase_ok s ev s' -> keys_ok s ->
  match ev with Some e => sess_view (sess_told s) e = Some (sess_told s') | None => sess_told s' = sess_told s end.
Proof.
  intros Hp Hk. rewrite keys_ok_opt in Hk.
  assert (forall k, _) as Ho by (intros k; exact (sess_step_open k ev _ _ (ph_sess _ _ _ Hp k) (Hk k))).
  destruct ev as [e|]; [|by apply same_sess_told].
  assert (ev_key e = None -> sess_told s' = sess_told s) as Hnone.
  { intros He. apply same_sess_told. intros k. specialize (Ho k). by rewrite He, decide_False in Ho. }
  assert (forall k, ev_key e = Some k -> (forall j, j <> k -> j ∈ sess_told s' <-> j ∈ sess_told s)) as Hoth.
  { intros k He j Hj. rewrite !elem_sess_told. specialize (Ho j). rewrite He, decide_False in Ho by congruence. by rewrite Ho. }
  destruct e as [e|e|id|id|k|k]; simpl in *; try (by rewrite Hnone).
  - specialize (Ho (po_key e)). rewrite decide_True in Ho by done. f_equal. apply set_eq. intros j.
    rewrite elem_of_union, elem_of_singleton. destruct (decide (j = po_key e)) as [->|Hj]; [|rewrite (Hoth _ eq_refl j Hj); naive_solver].
    rewrite (elem_sess_told s'), Ho. naive_solver.
  - specialize (Ho (pr_key e)). rewrite decide_True in Ho by done. destruct Ho as [O1 O2].
    rewrite bool_decide_eq_true_2 by (by rewrite elem_sess_told). f_equal. apply set_eq. intros j.
    destruct (decide (j = pr_key e)) as [->|Hj]; [by rewrite !elem_sess_told, O1, O2|by rewrite (Hoth _ eq_refl j Hj)].
  - specialize (Ho k). rewrite decide_True in Ho by done. destruct Ho as [O1 O2].
    rewrite bool_decide_eq_true_2 by (by rewrite elem_sess_told). f_equal. apply set_eq. intros j.
    rewrite elem_of_difference, not_elem_of_singleton.
    destruct (decide (j = k)) as [->|Hj]; [rewrite (elem_sess_told s'), O2; naive_solver|rewrite (Hoth _ eq_refl j Hj); naive_solver].
  - specialize (Ho k). rewrite decide_True in Ho by done. destruct Ho as [O1 O2].
    rewrite bool_decide_eq_true_2 by (by rewrite elem_sess_told). f_equal. apply set_eq. intros j.
    destruct (decide (j = k)) as [->|Hj]; [by rewrite !elem_sess_told, O1, O2|by rewrite (Hoth _ eq_refl j Hj)].
Qed.

(** *** Requests *)

Lemma wf_put s s1 key o o' :
  ctrl_wf s -> session s key = (o, s1) -> opt_keyed key (Some o') -> ctrl_wf (signal (put_session s1 key o')).
Proof.
  intros [H1 H2 H3] E Ho. unfold session in E.
  assert (channels s1 = channels s /\ closed s1 = closed s /\ exists m, sessions s1 = m /\ forall k, k <> key -> m !! k = sessions s !! k) as (Ec & Ecl & m & Em & Hm).
  { destruct (sessions s !! key); injection E as <- <-; simpl; (split; [done|]; split; [done|]; eexists; split; [done|]);
      [done|]. intros k Hk. by rewrite lookup_insert_ne. }
  split; simpl; [|unfold retire_ok; simpl; by rewrite Ec|congruence].
  rewrite keys_ok_opt in *. intros k. simpl. rewrite Em. destruct (decide (key = k)) as [<-|]; [by rewrite lookup_insert_eq|].
  rewrite lookup_insert_ne, Hm by done. apply H1.
Qed.

Lemma session_keyed s s1 key o : ctrl_wf s -> session s key = (o, s1) -> opt_keyed key (Some o).
Proof.
  intros Hw E. unfold session in E. destruct (sessions s !! key) as [x|] eqn:Ex; injection E as <- <-.
  - intros y p [= <-]. by apply (cw_keys s Hw).
  - by intros y p [= <-].
Qed.

Lemma session_channels s s1 key o : session s key = (o, s1) -> channels s1 = channels s.
Proof. unfold session. destruct (_ !! _); by intros [= _ <-]. Qed.

Lemma chan_ext s s' : channels s' = channels s -> told s' = told s /\ wanted s' = wanted s.
Proof. unfold told, wanted. by intros ->. Qed.

Lemma announce_ok s id b :
  ctrl_wf s -> ctrl_wf (announce s id b) /\ told (announce s id b) = told s /\
    wanted (announce s id b) = if b then {[id]} ∪ wanted s else wanted s ∖ {[id]}.
Proof.
  intros [H1 H2 H3]. unfold announce. rewrite H3. fold (chan s id). rewrite retire_chan in H2.
  assert (forall c ss, let s' := signal (set_sessions (set_channels s (<[id := c]> (channels s))) ss) in
     forall j, chan s' j = if decide (id = j) then c else chan s j) as Hch.
  { intros c ss s' j. unfold s', chan. simpl. case_decide; [subst; by rewrite lookup_insert_eq|by rewrite lookup_insert_ne]. }
  destruct b.
  - set (c := mk_channelOut true (announced (chan s id)) _).
    specialize (Hch c (sessions s)). simpl in Hch.
    replace (set_channels s (<[id := c]> (channels s))) with (set_sessions (set_channels s (<[id := c]> (channels s))) (sessions s)) by done.
    split; [|split].
    + split; [done| |done]. rewrite retire_chan. intros j. rewrite Hch. case_decide; [subst j|by apply H2].
      unfold c. simpl. specialize (H2 id). destruct (retire (chan s id)); simpl; [done|]. by intros [? _]%andb_true_iff.
    + apply same_told. intros j. rewrite Hch. case_decide; by subst.
    + apply set_eq. intros j. rewrite elem_of_union, elem_of_singleton, !wanted_chan, Hch. case_decide; subst; simpl; naive_solver.
  - set (ss := map_imap _ (sessions s)). set (c := mk_channelOut false _ _). specialize (Hch c ss). simpl in Hch.
    split; [|split].
    + split; [| |done].
      * intros k o p. simpl. unfold ss. rewrite map_lookup_imap. destruct (sessions s !! k) as [x|] eqn:Ex; [|done]. simpl.
        intros [= <-]. case_bool_decide; simpl; by apply (H1 k).
      * rewrite retire_chan. intros j. rewrite Hch. case_decide; [subst j|]; apply H2.
    + apply same_told. intros j. rewrite Hch. case_decide; by subst.
    + apply set_eq. intros j. rewrite elem_of_difference, not_elem_of_singleton, !wanted_chan, Hch. case_decide; subst; simpl; naive_solver.
Qed.

Lemma step_ok s evs s' :
  ctrl_step s evs s' -> ctrl_wf s ->
  ctrl_wf s' /\ foldl (fun R e => letp R := R in peer_view R e) (Some (told s)) evs = Some (told s').
Proof.
  intros H Hw. inversion H as [? id b|? e|? k|? k|? e|? o1 o2 ev ? H1 H2 E]; subst; simpl.
  - destruct (announce_ok s id b Hw) as (Hw' & -> & _). done.
  - unfold openSession. rewrite (cw_open s Hw). destruct (session s (po_key e)) as [o s1] eqn:E. split.
    + eapply wf_put; [done|done|]. intros x p [= <-]. simpl. by intros [= <-].
    + f_equal. symmetry. apply chan_ext. simpl. by eapply session_channels.
  - unfold closeSession. rewrite (cw_open s Hw). destruct (session s k) as [o s1] eqn:E. split.
    + eapply wf_put; [done|done|]. intros x p [= <-]. simpl. by apply (session_keyed s s1 k o Hw E o p).
    + f_equal. symmetry. apply chan_ext. simpl. by eapply session_channels.
  - unfold closeSessionStream. rewrite (cw_open s Hw). destruct (session s k) as [o s1] eqn:E. split.
    + eapply wf_put; [done|done|]. intros x p [= <-]. simpl. by apply (session_keyed s s1 k o Hw E o p).
    + f_equal. symmetry. apply chan_ext. simpl. by eapply session_channels.
  - unfold setRouting. rewrite (cw_open s Hw). destruct (sessions s !! pr_key e) as [o|] eqn:E; [|done]. simpl. split.
    + eapply (wf_put s s); [done|unfold session; by rewrite E|]. intros x p [= <-]. simpl. by apply (cw_keys s Hw).
    + f_equal.
  - destruct (next_ok o1 o2 s) as (ev' & s2 & E' & T); [apply Hw|done|done|apply Hw|]. simplify_eq.
    split; [eapply phase_wf; [apply T|done]|].
    destruct (phase_view _ _ _ (tl_phase _ _ _ _ _ T) (cw_retire s Hw)) as [_ Hv].
    destruct ev as [e|]; simpl; [by rewrite Hv|by rewrite Hv].
Qed.

(** Requests leave the sessions the peer has as they are; [next] keeps up. *)
Lemma put_sess_told s key o s1 o' : session s key = (o, s1) -> open o' = open o -> sess_told (signal (put_session s1 key o')) = sess_told s.
Proof.
  intros E Ho. apply same_sess_told. intros k. simpl. unfold session in E.
  destruct (sessions s !! key) as [x|] eqn:Ex; injection E as <- <-; simpl in *;
    (destruct (decide (key = k)) as [<-|]; [rewrite lookup_insert_eq, Ex; simpl; by rewrite Ho|by rewrite !lookup_insert_ne]).
Qed.

Lemma step_sess s evs s' :
  ctrl_step s evs s' -> ctrl_wf s ->
  foldl (fun K e => letp K := K in sess_view K e) (Some (sess_told s)) evs = Some (sess_told s').
Proof.
  intros H Hw. inversion H as [? id b|? e|? k|? k|? e|? o1 o2 ev ? H1 H2 E]; subst; simpl; try f_equal.
  - symmetry. apply same_sess_told. intros k. unfold announce. rewrite (cw_open s Hw). destruct b; [done|]. simpl.
    rewrite map_lookup_imap. destruct (sessions s !! k); [|done]. simpl. by case_bool_decide.
  - unfold openSession. rewrite (cw_open s Hw). destruct (session s (po_key e)) as [o s1] eqn:E. symmetry. eapply put_sess_told; [done|].
    simpl. by destruct (close o).
  - unfold closeSession. rewrite (cw_open s Hw). destruct (session s k) as [o s1] eqn:E. symmetry. by eapply put_sess_told.
  - unfold closeSessionStream. rewrite (cw_open s Hw). destruct (session s k) as [o s1] eqn:E. symmetry. by eapply put_sess_told.
  - unfold setRouting. rewrite (cw_open s Hw). destruct (sessions s !! pr_key e) as [o|] eqn:E; [|done]. symmetry.
    apply (put_sess_told s (pr_key e) o s); [unfold session; by rewrite E|done].
  - destruct (next_ok o1 o2 s) as (ev' & s2 & E' & T); [apply Hw|done|done|apply Hw|]. simplify_eq.
    pose proof (phase_sess_view _ _ _ (tl_phase _ _ _ _ _ T) (cw_keys s Hw)) as Hv. destruct ev as [e|]; simpl; by rewrite Hv.
Qed.

Lemma announceInitial_told ids : forall m s,
  channels s = m -> (forall id c, m !! id = Some c -> c = mk_channelOut true true false) ->
  let s' := set_channels s (announceInitial_loop m ids) in
  (forall id c, channels s' !! id = Some c -> c = mk_channelOut true true false) /\
  told s' = list_to_set ids ∪ told s.
Proof.
  induction ids as [|id ids IH]; intros m s Em Hm; simpl.
  { split; [done|]. subst m. destruct s. simpl. set_solver. }
  set (m1 := match m !! id with None => _ | Some _ => m end).
  destruct (IH m1 (set_channels s m1)) as [H1 H2]; [done| |].
  { intros j c. unfold m1. destruct (m !! id); [apply Hm|]. rewrite lookup_insert_Some. intros [[_ <-]|[_ ?]]; [done|by eapply Hm]. }
  split; [done|]. etrans; [exact H2|]. apply set_eq. intros j. rewrite !elem_of_union, elem_of_singleton, !elem_told. simpl. unfold m1.
  subst m. destruct (channels s !! id) as [c|] eqn:E.
  - pose proof (Hm id c E) as Ec. split; [naive_solver|]. intros [[->|?]|?]; [right; exists c; split; [done|by rewrite Ec]|naive_solver|naive_solver].
  - destruct (decide (j = id)) as [->|]; [rewrite lookup_insert_eq; naive_solver|]. rewrite lookup_insert_ne by done. naive_solver.
Qed.

Lemma initial_ok ids :
  ctrl_wf (announceInitial newCtrlOutState ids) /\ told (announceInitial newCtrlOutState ids) = list_to_set ids.
Proof.
  destruct (announceInitial_told ids ∅ newCtrlOutState) as [H1 H2]; [done|done|]. unfold announceInitial. simpl.
  split; [|rewrite H2; unfold told; simpl; rewrite map_filter_empty, dom_empty_L; set_solver].
  split; [done| |done]. intros id c Hc Hr. simpl in Hc. by rewrite (H1 id c Hc).
Qed.

(** ** Properties *)

Lemma ctrl_run_view ids evs s :
  ctrl_run (announceInitial newCtrlOutState ids) evs s ->
  foldl (fun R e => letp R := R in peer_view R e) (Some (list_to_set ids)) evs = Some (told s) /\
  forall o1 o2, covers o1 s -> covers o2 s -> is_Some (next o1 o2 s).
Proof.
  destruct (initial_ok ids) as [Hw <-]. generalize dependent (announceInitial newCtrlOutState ids).
  intros s0 Hw Hr. induction Hr as [s|s evs s1 evs' s2 Hst Hr IH].
  - split; [done|]. intros o1 o2 H1 H2. destruct (next_ok o1 o2 s) as (ev & s' & -> & _); [apply Hw|done|done|apply Hw|by eexists].
  - destruct (step_ok s evs s1 Hst Hw) as [Hw1 Hv]. rewrite foldl_app, Hv. by apply IH.
Qed.

Lemma ctrl_run_sess s0 evs s :
  ctrl_run s0 evs s -> ctrl_wf s0 -> foldl (fun K e => letp K := K in sess_view K e) (Some (sess_told s0)) evs = Some (sess_told s).
Proof.
  induction 1 as [s|s evs s1 evs' s2 Hst Hr IH]; intros Hw; [done|]. rewrite foldl_app, (step_sess s evs s1 Hst Hw).
  apply IH. by eapply step_ok.
Qed.

(** What the peer is told never goes wrong: start from the channel set of the
    handshake and interleave announcements, withdrawals, session requests and
    calls of [next] in any way, with any map iteration order; then [next] always
    returns, no channel is subscribed twice or unsubscribed while not
    subscribed, no session is closed or updated that the peer was not given, and
    what the peer has after the events are the channels recorded as announced
    and the sessions recorded as open. *)
Theorem ctrl_refines_peer_view ids evs s :
  ctrl_run (announceInitial newCtrlOutState ids) evs s ->
  foldl (fun V e => letp V := V in peer_sees V e) (Some (list_to_set ids, ∅)) evs = Some (told s, sess_told s) /\
  forall o1 o2, covers o1 s -> covers o2 s -> is_Some (next o1 o2 s).
Proof.
  intros Hr. destruct (ctrl_run_view ids evs s Hr) as [Hv Hn]. split; [|done]. apply views_pair; [done|].
  rewrite <-(ctrl_run_sess _ _ _ Hr (proj1 (initial_ok ids))). by f_equal.
Qed.

Lemma drains_view s evs s' :
  drains s evs s' -> ctrl_wf s ->
  ctrl_wf s' /\ wanted s' = wanted s /\ (length evs + work s' <= work s)%nat /\
  foldl (fun R e => letp R := R in peer_view R e) (Some (told s)) evs = Some (told s') /\
  no_close s' /\ forall r, (r <= 5)%nat -> ~ due r s'.
Proof.
  induction 1 as [s o1 o2 s' H1 H2 E|s o1 o2 e s1 evs s' H1 H2 E Hd IH]; intros Hw;
    destruct (next_ok o1 o2 s) as (ev' & s2 & E' & T); try done; try apply Hw; simplify_eq;
    pose proof (phase_view _ _ _ (tl_phase _ _ _ _ _ T) (cw_retire s Hw)) as [Ew Hv];
    pose proof (phase_wf _ _ _ (tl_phase _ _ _ _ _ T) Hw) as Hw'; pose proof (ph_work _ _ _ (tl_phase _ _ _ _ _ T)) as Hwk.
  - split; [done|]. split; [done|]. split; [simpl in *; lia|]. split; [simpl; by rewrite Hv|].
    split; [by apply (tl_close _ _ _ _ _ T)|]. intros r Hr. apply (tl_none _ _ _ _ _ T eq_refl). lia.
  - destruct (IH Hw') as (G1 & G2 & G3 & G4 & G5 & G6). split; [done|]. split; [congruence|]. split; [simpl in *; lia|].
    split; [|done]. simpl foldl. by rewrite Hv.
Qed.

Lemma drains_exists n : forall s, ctrl_wf s -> (work s <= n)%nat -> exists evs s', drains s evs s'.
Proof.
  induction n as [|n IH]; intros s Hw Hn;
    (destruct (next_ok (elements (dom (channels s))) (elements (dom (channels s))) s) as (ev & s1 & E & T);
      [apply Hw|intros id Hid; by apply elem_of_elements, elem_of_dom|intros id Hid; by apply elem_of_elements, elem_of_dom|apply Hw|]);
    assert (covers (elements (dom (channels s))) s) as Hc by (intros id Hid; by apply elem_of_elements, elem_of_dom);
    pose proof (ph_work _ _ _ (tl_phase _ _ _ _ _ T)) as Hk; destruct ev as [e|]; simpl in Hk.
  - lia.
  - exists [], s1. by eapply dr_done.
  - destruct (IH s1) as (evs & s' & Hd); [eapply phase_wf; [apply T|done]|lia|]. exists (e :: evs), s'. by eapply dr_emit.
  - exists [], s1. by eapply dr_done.
Qed.

(** *** What a drain says, key by key *)

Definition about (key : sessionKey) (evs : list peerCtrlEvent) : list peerCtrlEvent :=
  filter (fun e => ev_key e = Some key) evs.

Definition ev_channel (ev : peerCtrlEvent) : option ChannelID :=
  match ev with EvSubscribe id | EvUnsubscribe id => Some id | _ => None end.

Definition about_channel (id : ChannelID) (evs : list peerCtrlEvent) : list peerCtrlEvent :=
  filter (fun e => ev_channel e = Some id) evs.

(** A channel that was withdrawn and wanted again is ended before it is
    subscribed to again; otherwise one event closes the gap between what is
    wanted and what was announced. *)
Definition chan_owed (id : ChannelID) (c : channelOut) : list peerCtrlEvent :=
  (if retire c || (negb (want c) && announced c) then [EvUnsubscribe id] else []) ++
  (if want c && (retire c || negb (announced c)) then [EvSubscribe id] else []).

Definition owed_open (key : sessionKey) (o : sessionOut) : list peerCtrlEvent :=
  (if closeStream o then [EvCloseStream key] else []) ++
  match routing o with Some u => [EvSendRouting (mk_routing key u)] | None => [] end.

(** A session closed before the peer had it is never mentioned; one the peer
    has is closed; a pending open follows, and only an open session has its
    stream close and its routing sent, in that order. *)
Definition owed (key : sessionKey) (o : option sessionOut) : list peerCtrlEvent :=
  match o with
  | None => []
  | Some o =>
      match close o, open o, pendingOpen o with
      | true, false, _ => []
      | true, true, None => [EvCloseSession key]
      | true, true, Some p => EvCloseSession key :: EvOpenSession p :: owed_open key o
      | false, _, Some p => EvOpenSession p :: owed_open key o
      | false, true, None => owed_open key o
      | false, false, None => []
      end
  end.

(** And the entry it leaves. *)
Definition remains (o : option sessionOut) : option sessionOut :=
  match o with
  | None => None
  | Some o =>
      match close o, open o, pendingOpen o with
      | true, false, _ | true, true, None => None
      | false, false, None => Some o
      | _, _, _ => Some (mk_sessionOut None true None false false (order o))
      end
  end.

(** The sessions this side wants the peer to have, and those it closed for the
    second time while the open in between had not been sent: the second close
    is consumed with the first ([close_lost] below). *)
Definition sess_wanted (s : ctrlOutState) : gset sessionKey :=
  dom (filter (fun kv => negb (close kv.2) && (open kv.2 || is_pending kv.2) = true) (sessions s)).
Definition sess_stale (s : ctrlOutState) : gset sessionKey :=
  dom (filter (fun kv => close kv.2 && open kv.2 && is_pending kv.2 = true) (sessions s)).

Lemma sess_step_owed key ev o o' :
  sess_step key ev o o' -> opt_keyed key o ->
  owed key o = about key (option_list ev) ++ owed key o' /\ remains o = remains o'.
Proof.
  intros H Hk. unfold about.
  assert ((forall e, ev = Some e -> ev_key e <> Some key) -> filter (fun e => ev_key e = Some key) (option_list ev) = []) as Hnil.
  { intros Hn. destruct ev as [e|]; [|done]. simpl. rewrite filter_cons_False by (by apply Hn). done. }
  inversion H as [x Hn|x Hc Ho Hn|x -> Hc Ho|x e -> Hp Hc|x -> Hs Ho Hc Hp|x u -> Hr Ho Hc Hp Hs]; subst.
  - by rewrite Hnil.
  - rewrite Hnil by done. simpl. by rewrite Hc, Ho.
  - simpl option_list. rewrite filter_cons_True by done. rewrite filter_nil. simpl. rewrite Hc, Ho. by destruct (pendingOpen x).
  - simpl option_list. rewrite filter_cons_True by (simpl; f_equal; by apply (Hk x e)). rewrite filter_nil. simpl. rewrite Hc, Hp. by destruct (open x).
  - simpl option_list. rewrite filter_cons_True by done. rewrite filter_nil. unfold owed_open. simpl. unfold owed_open. by rewrite Hc, Hp, Ho, Hs.
  - simpl option_list. rewrite filter_cons_True by done. rewrite filter_nil. unfold wants_stream_close in Hs. rewrite Ho, andb_true_r in Hs.
    simpl. unfold owed_open. simpl. by rewrite Hc, Hp, Ho, Hs, Hr.
Qed.

Lemma chan_step_owed id ev c c' :
  chan_step id ev c c' -> (retire c = true -> announced c = true) ->
  chan_owed id c = about_channel id (option_list ev) ++ chan_owed id c'.
Proof.
  intros H Hr. unfold about_channel. inversion H as [x N1 N2|x -> Hu|x -> Hw Ha Hn]; subst.
  - destruct ev as [e|]; [|done]. simpl. rewrite filter_cons_False; [done|]. destruct e; simpl; congruence.
  - simpl. rewrite filter_cons_True, filter_nil by done. unfold chan_owed. destruct c as [[] [] []]; simpl in *; naive_solver.
  - simpl. rewrite filter_cons_True by done. unfold chan_owed. destruct c as [[] [] []]; done.
Qed.

(** Nothing is owed at rest. *)
Lemma rest_owed s k :
  no_close s -> (forall r, (r <= 5)%nat -> ~ due r s) -> owed k (sessions s !! k) = [] /\ remains (sessions s !! k) = sessions s !! k.
Proof.
  intros Hn Hd. destruct (sessions s !! k) as [o|] eqn:E; [|done]. simpl.
  pose proof (Hn k o E) as Hc. pose proof (not_pending s (Hd 3%nat ltac:(lia)) Hn k o E) as Hp. rewrite Hc, Hp.
  destruct (open o) eqn:Ho; [|done]. unfold owed_open.
  destruct (closeStream o) eqn:Es; [exfalso; apply (Hd 4%nat); [lia|]; exists k, o; unfold wants_stream_close; by rewrite Es, Ho|].
  destruct (routing o) as [u|] eqn:Er.
  - exfalso. apply (Hd 5%nat); [lia|]. exists k, o. unfold has_routing. rewrite Er, Ho. split; [done|]. split; [done|]. by rewrite bool_decide_eq_true_2 by eauto.
  - destruct o; simpl in *; by subst.
Qed.

Lemma rest_chan_owed s id : retire_ok s -> (forall r, (r <= 5)%nat -> ~ due r s) -> chan_owed id (chan s id) = [].
Proof.
  intros Hr Hd. rewrite retire_chan in Hr. specialize (Hr id). unfold chan_owed.
  destruct (chan s id) as [w a r] eqn:E. simpl in *.
  destruct r; [exfalso; apply (Hd 1%nat); [lia|]; exists id; rewrite E; by left|].
  destruct w, a; try done; exfalso; [apply (Hd 2%nat)|apply (Hd 1%nat)]; try lia; exists id; rewrite E; [done|by right].
Qed.

Lemma drains_owed s evs s' :
  drains s evs s' -> ctrl_wf s ->
  (forall id, about_channel id evs = chan_owed id (chan s id)) /\
  (forall k, about k evs = owed k (sessions s !! k) /\ sessions s' !! k = remains (sessions s !! k)) /\
  foldl (fun K e => letp K := K in sess_view K e) (Some (sess_told s)) evs = Some (sess_told s').
Proof.
  induction 1 as [s o1 o2 s' H1 H2 E|s o1 o2 e s1 evs s' H1 H2 E Hd IH]; intros Hw;
    destruct (next_ok o1 o2 s) as (ev' & s2 & E' & T); try done; try apply Hw; simplify_eq;
    pose proof (tl_phase _ _ _ _ _ T) as Hp; pose proof (phase_wf _ _ _ Hp Hw) as Hw';
    pose proof (phase_sess_view _ _ _ Hp (cw_keys s Hw)) as Hv;
    pose proof (proj1 (retire_chan s) (cw_retire s Hw)) as Hr; pose proof (proj1 (keys_ok_opt s) (cw_keys s Hw)) as Hk.
  - split; [|split].
    + intros id. rewrite (chan_step_owed _ _ _ _ (ph_chan _ _ _ Hp id) (Hr id)). simpl. symmetry.
      apply rest_chan_owed; [apply Hw'|]. intros r Hr'. apply (tl_none _ _ _ _ _ T eq_refl). lia.
    + intros k. destruct (sess_step_owed _ _ _ _ (ph_sess _ _ _ Hp k) (Hk k)) as [-> ->].
      destruct (rest_owed s' k) as [-> ->]; [by apply (tl_close _ _ _ _ _ T)| |done].
      intros r Hr'. apply (tl_none _ _ _ _ _ T eq_refl). lia.
    + simpl. by rewrite Hv.
  - destruct (IH Hw') as (G1 & G2 & G3). split; [|split].
    + intros id. rewrite (chan_step_owed _ _ _ _ (ph_chan _ _ _ Hp id) (Hr id)), <-G1. unfold about_channel. by rewrite <-filter_app.
    + intros k. destruct (sess_step_owed _ _ _ _ (ph_sess _ _ _ Hp k) (Hk k)) as [-> ->]. destruct (G2 k) as [<- ->].
      split; [|done]. unfold about. by rewrite <-filter_app.
    + cbn [foldl mbind option_bind]. by rewrite Hv.
Qed.

Lemma remains_told s s' :
  (forall k, sessions s' !! k = remains (sessions s !! k)) -> sess_told s' = sess_wanted s ∪ sess_stale s.
Proof.
  intros H. apply set_eq. intros k. rewrite elem_of_union, elem_sess_told, H. unfold sess_wanted, sess_stale.
  rewrite (elem_sess (fun o => negb (close o) && (open o || is_pending o))), (elem_sess (fun o => close o && open o && is_pending o)).
  unfold remains, is_pending. destruct (sessions s !! k) as [[p op ro cs cl or]|]; simpl; [|naive_solver].
  destruct cl, op, p; simpl; split; try done; (by intros [(x & [= <-] & ?)|(x & [= <-] & ?)]) || (intros _; (by left; eexists) || (by right; eexists)).
Qed.

(** C40. Draining converges.  From any well-formed state the control loop can
    drain, after at most [work] events.  However it drains (any map iteration
    order), the events about each channel and about each session are exactly
    those owed to it by its entry, in that order: an unsubscription and then a
    subscription for a channel withdrawn and wanted again, one of them where
    wanted and announced differ, none otherwise; for a session a close if the
    peer has it and none if it does not, then a pending open, then for an open
    session its stream close and its latest routing; and the entry left is the
    open session with nothing pending, or none.  The peer, starting from what it
    was told, sees no illegal event and ends up with exactly the channels wanted
    and exactly the sessions that are open or to be opened and not closed, plus
    those closed a second time before the open in between was sent. *)
Theorem ctrl_converges s :
  ctrl_wf s ->
  (exists evs s', drains s evs s') /\
  forall evs s', drains s evs s' ->
    (length evs <= work s)%nat /\
    (forall id, about_channel id evs = chan_owed id (chan s id)) /\
    (forall k, about k evs = owed k (sessions s !! k) /\ sessions s' !! k = remains (sessions s !! k)) /\
    foldl (fun V e => letp V := V in peer_sees V e) (Some (told s, sess_told s)) evs =
      Some (wanted s, sess_wanted s ∪ sess_stale s).
Proof.
  intros Hw. split; [by apply (drains_exists (work s))|]. intros evs s' Hd.
  destruct (drains_view s evs s' Hd Hw) as (Hw' & Ew & Hl & Hv & Hnc & Hdue).
  destruct (drains_owed s evs s' Hd Hw) as (Hc & Hs & Hsv). split; [lia|]. split; [done|]. split; [done|].
  apply views_pair.
  - rewrite Hv, <-Ew. f_equal. apply set_eq. intros id. rewrite told_chan, wanted_chan.
    destruct (announced (chan s' id)) eqn:Ea, (want (chan s' id)) eqn:Ewn; try done; exfalso.
    + apply (Hdue 1%nat); [lia|]. exists id. by right.
    + apply (Hdue 2%nat); [lia|]. by exists id.
  - rewrite Hsv. f_equal. apply remains_told. intros k. apply Hs.
Qed.

(** Events come in phase order: [next] never emits an event while one of an
    earlier phase is owed, the phases being session closes, unsubscriptions,
    subscriptions, session opens, stream closes, routing. *)
Theorem next_priority o1 o2 s e s' :
  ctrl_wf s -> covers o1 s -> covers o2 s -> next o1 o2 s = Some (Some e, s') ->
  forall r, (r < rank e)%nat -> ~ due r s.
Proof.
  intros Hw H1 H2 E r Hr. destruct (next_ok o1 o2 s) as (ev & s2 & E' & T); [apply Hw|done|done|apply Hw|]. simplify_eq.
  destruct (tl_rank _ _ _ _ _ T e eq_refl) as [_ Hd]. apply Hd. lia.
Qed.

(** *** Creation orders

    They stay distinct while fewer than 2^64 sessions were created, which is
    what makes the result of [firstSession] independent of the iteration order
    ([firstSession_any_order]). *)

Definition orders_ok (s : ctrlOutState) : Prop :=
  orders_distinct s /\ 0 <= nextOrder s /\ forall k o, sessions s !! k = Some o -> order o <= nextOrder s.

Lemma sess_step_order key ev o o' x :
  sess_step key ev o o' -> o' = Some x -> exists y, o = Some y /\ order y = order x.
Proof.
  intros H Ex. revert Ex. inversion H; subst; try (intros [= <-]; by eexists); try (intros ->; by eexists).
  destruct (pendingOpen o0); [|done]. intros [= <-]. by eexists.
Qed.

Lemma orders_mono s s' :
  orders_ok s -> nextOrder s' = nextOrder s ->
  (forall k x, sessions s' !! k = Some x -> exists y, sessions s !! k = Some y /\ order y = order x) -> orders_ok s'.
Proof.
  intros (H1 & H2 & H3) En Hs. split; [|split; [lia|]].
  - intros k1 o1 k2 o2 E1 E2 Eo. destruct (Hs _ _ E1) as (y1 & F1 & G1). destruct (Hs _ _ E2) as (y2 & F2 & G2).
    eapply H1; [done|done|congruence].
  - intros k o Hk. destruct (Hs _ _ Hk) as (y & Hy & <-). rewrite En. by apply (H3 k).
Qed.

Lemma session_orders s key o s1 :
  orders_ok s -> nextOrder s + 1 < 2 ^ 64 -> session s key = (o, s1) -> orders_ok s1 /\ sessions s1 !! key = Some o.
Proof.
  intros Ho Hn E. unfold session in E. destruct (sessions s !! key) as [x|] eqn:Ex; injection E as <- <-; [done|].
  destruct Ho as (H1 & H2 & H3). rewrite u64_small by lia. split; [|simpl; by rewrite lookup_insert_eq].
  split; [|split; [simpl; lia|]].
  - intros k1 o1 k2 o2. simpl. rewrite !lookup_insert_Some. intros [[<- <-]|[N1 E1]] [[<- <-]|[N2 E2]] Eo; simpl in *; try done.
    + pose proof (H3 k2 o2 E2). lia.
    + pose proof (H3 k1 o1 E1). lia.
    + by eapply H1.
  - intros k x. simpl. rewrite lookup_insert_Some. intros [[<- <-]|[_ Hx]]; simpl; [lia|]. pose proof (H3 k x Hx). lia.
Qed.

Lemma put_orders s key o o' :
  orders_ok s -> sessions s !! key = Some o -> order o' = order o -> orders_ok (signal (put_session s key o')).
Proof.
  intros Ho Hk Eo. apply (orders_mono s); [done|done|]. intros k x. simpl. rewrite lookup_insert_Some.
  intros [[<- <-]|[_ Hx]]; [by exists o|by exists x].
Qed.

Lemma orders_step s evs s' :
  ctrl_step s evs s' -> ctrl_wf s -> nextOrder s + 1 < 2 ^ 64 -> orders_ok s -> orders_ok s'.
Proof.
  intros H Hw Hn Ho. inversion H as [? id b|? e|? k|? k|? e|? o1 o2 ev ? H1 H2 E]; subst; simpl.
  - unfold announce. rewrite (cw_open s Hw). destruct b; [done|]. apply (orders_mono s); [done|done|].
    intros k x. simpl. rewrite map_lookup_imap. destruct (sessions s !! k) as [y|]; [|done]. simpl. intros [= <-].
    exists y. split; [done|]. by case_bool_decide.
  - unfold openSession. rewrite (cw_open s Hw). destruct (session s (po_key e)) as [o s1] eqn:E.
    destruct (session_orders _ _ _ _ Ho Hn E). eapply put_orders; [done|done|]. by destruct (close o).
  - unfold closeSession. rewrite (cw_open s Hw). destruct (session s k) as [o s1] eqn:E.
    destruct (session_orders _ _ _ _ Ho Hn E). by eapply put_orders.
  - unfold closeSessionStream. rewrite (cw_open s Hw). destruct (session s k) as [o s1] eqn:E.
    destruct (session_orders _ _ _ _ Ho Hn E). by eapply put_orders.
  - unfold setRouting. rewrite (cw_open s Hw). destruct (sessions s !! pr_key e) as [o|] eqn:E; [|done]. by eapply put_orders.
  - destruct (next_ok o1 o2 s) as (ev' & s2 & E' & T); [apply Hw|done|done|apply Hw|]. simplify_eq.
    apply (orders_mono s); [done|apply T|]. intros k x Hx. by eapply sess_step_order; [apply T|].
Qed.

(** ** Closing a session *)

Lemma absent_stays s evs s' key :
  drains s evs s' -> ctrl_wf s -> sessions s !! key = None -> about key evs = [] /\ sessions s' !! key = None.
Proof.
  induction 1 as [s o1 o2 s' H1 H2 E|s o1 o2 e s1 evs s' H1 H2 E Hd IH]; intros Hw Hk;
    destruct (next_ok o1 o2 s) as (ev' & s2 & E' & T); try done; try apply Hw; simplify_eq;
    pose proof (ph_sess _ _ _ (tl_phase _ _ _ _ _ T) key) as Hs; rewrite Hk in Hs; inversion Hs as [o Hn| | | | |]; subst.
  - done.
  - destruct (IH (phase_wf _ _ _ (tl_phase _ _ _ _ _ T) Hw)) as [Ha Hs']; [done|]. split; [|done].
    unfold about in *. rewrite filter_cons_False; [done|]. by apply Hn.
Qed.

(** Closing a session wins: when a close is recorded for a session and no
    newer open is stacked on one the peer already has, draining sends the peer
    exactly one close for it if it had been opened and nothing at all
    otherwise, and forgets it. *)
Theorem close_wins s evs s' key o :
  ctrl_wf s -> sessions s !! key = Some o -> close o = true -> (open o = true -> pendingOpen o = None) ->
  drains s evs s' ->
  about key evs = (if open o then [EvCloseSession key] else []) /\ sessions s' !! key = None.
Proof.
  intros Hw Hk Hc Hp Hd. induction Hd as [s o1 o2 s' H1 H2 E|s o1 o2 e s1 evs s' H1 H2 E Hd IH];
    (destruct (next_ok o1 o2 s) as (ev' & s2 & E' & T); [apply Hw|done|done|apply Hw|]); simplify_eq;
    pose proof (ph_sess _ _ _ (tl_phase _ _ _ _ _ T) key) as Hs; rewrite Hk in Hs.
  - apply sess_step_None in Hs as [E1|(E1 & x & [= <-] & _ & Ho)]; [|by rewrite Ho].
    pose proof (tl_close _ _ _ _ _ T eq_refl eq_refl key o E1). congruence.
  - pose proof (phase_wf _ _ _ (tl_phase _ _ _ _ _ T) Hw) as Hw1.
    inversion Hs as [x Hn Ex E1|x _ Ho Hn Ex E1|x Ee _ Ho Ex E1|x q _ _ Hc' Ex E1|x _ _ _ Hc' _ Ex E1|x u _ _ _ Hc' _ _ Ex E1]; subst; try congruence.
    + destruct (IH Hw1) as [Ha Hs']; [done|]. split; [|done].
      unfold about in *. rewrite filter_cons_False; [done|]. by apply Hn.
    + destruct (absent_stays s1 evs s' key Hd Hw1) as [Ha Hs']; [done|]. split; [|done]. rewrite Ho.
      unfold about in *. rewrite filter_cons_False; [done|]. by apply Hn.
    + injection Ee as ->. rewrite (Hp Ho) in E1. destruct (absent_stays s1 evs s' key Hd Hw1) as [Ha Hs']; [done|].
      split; [|done]. rewrite Ho. unfold about in *. rewrite filter_cons_True by done. by rewrite Ha.
Qed.

(** ** Concrete runs *)

Definition demo_key : sessionKey := mk_key [Byte.x63] [Byte.x6d].
Definition demo_open (n : nat) : peerOpenSession := mk_open demo_key [Byte.x70] [] n.

(** [next] with the order of [elements]. *)
Definition next' (s : ctrlOutState) : option (option peerCtrlEvent * ctrlOutState) :=
  next (elements (dom (channels s))) (elements (dom (channels s))) s.

Fixpoint drain (fuel : nat) (s : ctrlOutState) : list peerCtrlEvent * ctrlOutState :=
  match fuel with
  | O => ([], s)
  | S fuel' => match next' s with
               | Some (Some e, s') => let '(evs, s'') := drain fuel' s' in (e :: evs, s'')
               | Some (None, s') => ([], s')
               | None => ([], s)
               end
  end.

Lemma covers_elements s : covers (elements (dom (channels s))) s.
Proof. intros id Hid. by apply elem_of_elements, elem_of_dom. Qed.

(** The state after the first open has reached the writer. *)
Definition opened : ctrlOutState := (drain 3 (openSession newCtrlOutState (demo_open 1))).2.

(** A close can get lost.  The peer has the session; it is closed, opened
    again and closed again before the control loop runs.  The loop then emits
    one close (of the first generation) and after it the second open, whose
    close was consumed: the peer is left with a session that this side has
    already closed. *)
Theorem close_lost :
  let s := closeSession (openSession (closeSession opened demo_key) (demo_open 2)) demo_key in
  (drain 9 (openSession newCtrlOutState (demo_open 1))).1 = [EvOpenSession (demo_open 1)] /\
  (drain 9 s).1 = [EvCloseSession demo_key; EvOpenSession (demo_open 2)] /\
  open <$> sessions (drain 9 s).2 !! demo_key = Some true /\
  fst <$> next' (drain 9 s).2 = Some None.
Proof. vm_compute. done. Qed.

Lemma reachable_wf ids s evs : ctrl_run (announceInitial newCtrlOutState ids) evs s -> ctrl_wf s.
Proof.
  intros Hr. pose proof (proj1 (initial_ok ids)) as Hw.
  induction Hr as [s|s evs s1 evs' s2 Hst Hr IH]; [done|]. apply IH. by eapply step_ok.
Qed.

Lemma drain_run fuel : forall s, ctrl_run s (drain fuel s).1 (drain fuel s).2.
Proof.
  induction fuel as [|fuel IH]; intros s; simpl; [constructor|]. destruct (next' s) as [[[e|] s1]|] eqn:E; [|..|constructor].
  - pose proof (IH s1) as Hr. destruct (drain fuel s1) as [evs s2]. simpl in *.
    apply (run_step s [e] s1 evs s2); [|done]. apply (st_next s _ _ (Some e) s1 (covers_elements s) (covers_elements s) E).
  - simpl. apply (run_step s [] s1 [] s1); [|constructor]. apply (st_next s _ _ None s1 (covers_elements s) (covers_elements s) E).
Qed.

Lemma opened_wf : ctrl_wf opened.
Proof.
  eapply (reachable_wf []). apply (run_step _ [] (openSession newCtrlOutState (demo_open 1))); [constructor|]. apply drain_run.
Qed.

Lemma ctrl_refines_peer_view_witness :
  let s0 := announceInitial newCtrlOutState [[Byte.x61]] in
  let s1 := announce (announce s0 [Byte.x61] false) [Byte.x62] true in
  (drain 9 s1).1 = [EvUnsubscribe [Byte.x61]; EvSubscribe [Byte.x62]] /\
  foldl (fun V e => letp V := V in peer_sees V e) (Some (list_to_set [[Byte.x61]], ∅)) (drain 9 s1).1 =
    Some (told (drain 9 s1).2, sess_told (drain 9 s1).2).
Proof.
  intros s0 s1. split; [vm_compute; reflexivity|].
  apply (proj1 (ctrl_refines_peer_view [[Byte.x61]] (drain 9 s1).1 (drain 9 s1).2
    (run_step s0 [] _ _ _ (st_announce s0 [Byte.x61] false) (run_step _ [] _ _ _ (st_announce _ [Byte.x62] true) (drain_run 9 s1))))).
Defined.

Lemma closed_opened_wf : ctrl_wf (closeSession opened demo_key).
Proof. eapply step_ok; [apply st_close|apply opened_wf]. Qed.

(** The peer has channels [a] and [b] and the session of [demo_key]; [a] is
    withdrawn, [b] withdrawn and wanted again, [c] wanted, the session closed and
    another one opened with a routing update. *)
Definition demo_key2 : sessionKey := mk_key [Byte.x63] [Byte.x6e].
Definition demo_open2 : peerOpenSession := mk_open demo_key2 [Byte.x70] [] 7.

Definition demo_told : ctrlOutState :=
  (drain 9 (openSession (announceInitial newCtrlOutState [[Byte.x61]; [Byte.x62]]) (demo_open 1))).2.

Definition demo_requests (s : ctrlOutState) : ctrlOutState :=
  let s := announce (announce (announce (announce s [Byte.x61] false) [Byte.x62] false) [Byte.x62] true) [Byte.x63] true in
  (setRouting (openSession (closeSession s demo_key) demo_open2) (mk_routing demo_key2 [Byte.x01])).1.

Definition demo_busy : ctrlOutState := demo_requests demo_told.

Lemma demo_told_wf : ctrl_wf demo_told.
Proof.
  pose proof (drain_run 9 (openSession (announceInitial newCtrlOutState [[Byte.x61]; [Byte.x62]]) (demo_open 1))) as Hr.
  exact (reachable_wf _ _ _ (run_step _ _ _ _ _ (st_open _ (demo_open 1)) Hr)).
Qed.

Lemma demo_requests_wf s : ctrl_wf s -> ctrl_wf (demo_requests s).
Proof.
  intros Hw. unfold demo_requests. eapply step_ok; [apply st_routing|]. eapply step_ok; [apply st_open|]. eapply step_ok; [apply st_close|].
  by repeat apply announce_ok.
Qed.

Lemma demo_busy_wf : ctrl_wf demo_busy.
Proof. exact (demo_requests_wf _ demo_told_wf). Qed.

(** What the peer has, and what this side wants it to have. *)
Lemma demo_busy_views :
  (told demo_busy, sess_told demo_busy) = ({[ [Byte.x61]; [Byte.x62] ]}, {[ demo_key ]}) /\
  (wanted demo_busy, sess_wanted demo_busy ∪ sess_stale demo_busy) = ({[ [Byte.x62]; [Byte.x63] ]}, {[ demo_key2 ]}).
Proof. split; refine (bool_decide_eq_true_1 _ _); vm_compute; reflexivity. Qed.

Lemma ctrl_converges_witness :
  exists evs s', drains demo_busy evs s' /\ (length evs <= 7)%nat /\
    about_channel [Byte.x62] evs = [EvUnsubscribe [Byte.x62]; EvSubscribe [Byte.x62]] /\
    about demo_key evs = [EvCloseSession demo_key] /\
    about demo_key2 evs = [EvOpenSession demo_open2; EvSendRouting (mk_routing demo_key2 [Byte.x01])] /\
    foldl (fun V e => letp V := V in peer_sees V e) (Some ({[ [Byte.x61]; [Byte.x62] ]}, {[ demo_key ]})) evs =
      Some ({[ [Byte.x62]; [Byte.x63] ]}, {[ demo_key2 ]}).
Proof.
  destruct (ctrl_converges _ demo_busy_wf) as ((evs & s' & Hd) & Hall). exists evs, s'. split; [exact Hd|].
  destruct (Hall evs s' Hd) as (Hl & Hc & Hs & Hv). destruct demo_busy_views as [E1 E2]. rewrite E1, E2 in Hv.
  split; [exact Hl|]. split; [rewrite Hc; vm_compute; reflexivity|].
  split; [rewrite (proj1 (Hs _)); vm_compute; reflexivity|]. split; [rewrite (proj1 (Hs _)); vm_compute; reflexivity|exact Hv].
Defined.

Lemma next_priority_witness :
  let s := announce (closeSession opened demo_key) [Byte.x62] true in
  exists e s', next' s = Some (Some e, s') /\ e = EvCloseSession demo_key /\ forall r, (r < rank e)%nat -> ~ due r s.
Proof.
  intros s. destruct (next' s) as [[[e|] s']|] eqn:E; [|vm_compute in E; discriminate..].
  exists e, s'. split; [reflexivity|]. split.
  - assert (fst <$> next' s = Some (Some (EvCloseSession demo_key))) as Hq by (vm_compute; reflexivity). rewrite E in Hq. by injection Hq.
  - apply (next_priority (elements (dom (channels s))) (elements (dom (channels s))) s e s'); [|apply covers_elements|apply covers_elements|exact E].
    apply (announce_ok _ [Byte.x62] true closed_opened_wf).
Defined.

Lemma close_wins_witness :
  exists evs s', drains (closeSession opened demo_key) evs s' /\ about demo_key evs = [EvCloseSession demo_key].
Proof.
  destruct (drains_exists (work (closeSession opened demo_key)) _ closed_opened_wf (le_n _)) as (evs & s' & Hd).
  exists evs, s'. split; [exact Hd|].
  destruct (sessions (closeSession opened demo_key) !! demo_key) as [o|] eqn:Ho; [|vm_compute in Ho; discriminate].
  pose proof Ho as Ho'. vm_compute in Ho'.
  destruct (close_wins _ evs s' demo_key o closed_opened_wf Ho) as [Ha _]; [by injection Ho' as <-|by injection Ho' as <-|exact Hd|].
  rewrite Ha. injection Ho' as <-. reflexivity.
Defined.
