(* ===== verification/Session.v ===== *)
(** * Session: the per-message state machine (src/broadcast/session.go, with the
    events of events.go and the codes of protocol.go it uses)

    Everything runs on the owning channel's goroutine, so a handler is a
    function on the session and on the [world] outside it: the control states
    of the peer connections, the chunk outboxes they drain, the contexts that
    were cancelled, and a log of the effects in the order they happen.  Objects
    shared with other goroutines (connections, outboxes, contexts, streams) are
    numbers, their identities.  [None] is a panic of the strategy.

    Go's map iteration order is [choice]: the [n]-th [range] of a run visits the
    keys [X] in the order [choice n X], an arbitrary permutation of them. *)

From stdpp Require Import pretty.
From S2P Require Import Prelude Wire Types CtrlOut.
Open Scope Z_scope.

#[local] Set Default Proof Using "Type".

(** ** Constants and codes *)

Definition maxConcurrentReads : nat := 64.
Definition maxChunkDataSize : Z := 2 ^ 20.
Definition chunkOutboxCap : nat := 16.

Definition Reconstructed : Code := ProtocolCode 1.
Definition Redundant : Code := ProtocolCode 2.

(** The causes a session cancels contexts with. *)
Inductive cause := Canceled | errChunkRedundant | errStreamRefused.

(** [streamCancellationCode] on those causes (none of them is a timeout). *)
Definition streamCancellationCode (c : cause) : Code :=
  match c with
  | errChunkRedundant => Redundant
  | errStreamRefused => Refused
  | Canceled => Unspecified
  end.

(** ** Data *)

Record pendingChunkRead := mk_read {
  rd_peer : PeerID;
  rd_chunkID : bytes;
  rd_dataLen : Z;
  rd_stream : nat }.

Record peerSendChunk := mk_send {
  sc_peerID : PeerID;
  sc_channelID : ChannelID;
  sc_messageID : MessageID;
  sc_handle : ChunkHandle;
  sc_chunkID : bytes;
  sc_payload : bytes;
  sc_ctx : nat }.

(** [conn] is the PeerConn, [outbox] the chunk channel. *)
Record sessionPeer := mk_sessionPeer {
  sp_conn : nat;
  sp_outbox : nat;
  sp_completed : bool }.

Inductive sessionStage := stageConsuming | stageDecoding | stageReconstructed | stageOrigin.

Definition stage_nat (s : sessionStage) : nat :=
  match s with stageConsuming => 0 | stageDecoding => 1 | stageReconstructed => 2 | stageOrigin => 3 end.

#[global] Instance sessionStage_eq_dec : EqDecision sessionStage.
Proof. solve_decision. Defined.

(** A running payload reader and the context it watches; each holds a slot of
    the read semaphore. *)
Record readTask := mk_task { rt_read : pendingChunkRead; rt_ctx : nat }.

Record session_state (St : Type) := mk_session {
  ss_channelID : ChannelID;
  ss_messageID : MessageID;
  ss_preamble : bytes;
  ss_stage : sessionStage;
  ss_strategy : St;
  ss_createdAt : Z;
  ss_everHadPeers : bool;
  ss_peers : gmap PeerID sessionPeer;
  ss_outboundCancels : gmap (PeerID * ChunkHandle) nat;
  ss_readers : list readTask;
  ss_readQueue : list pendingChunkRead;
  ss_dedupGroups : gmap bytes nat;
  ss_ctx : nat }.
Arguments mk_session {St}.
Arguments ss_channelID {St}.
Arguments ss_messageID {St}.
Arguments ss_preamble {St}.
Arguments ss_stage {St}.
Arguments ss_strategy {St}.
Arguments ss_createdAt {St}.
Arguments ss_everHadPeers {St}.
Arguments ss_peers {St}.
Arguments ss_outboundCancels {St}.
Arguments ss_readers {St}.
Arguments ss_readQueue {St}.
Arguments ss_dedupGroups {St}.
Arguments ss_ctx {St}.

(** ** Effects *)

Inductive observation :=
| OnChunkError (e : ChunkProcessError)
| OnChunkRcvd (peer : PeerID) (ch : ChannelID) (msg : MessageID) (v : Verdict)
| OnChunkSent (peer : PeerID) (ch : ChannelID) (msg : MessageID) (size : Z)
| OnRoutingUpdate (peer : PeerID) (ch : ChannelID) (msg : MessageID)
| OnStrategyProgress (ch : ChannelID) (msg : MessageID) (have need : Z)
| OnSessionStarted (ch : ChannelID) (msg : MessageID) (role : SessionRole)
| OnSessionDecoded (ch : ChannelID) (msg : MessageID)
| OnSessionDisposed (ch : ChannelID) (msg : MessageID) (reason : error)
| OnChannelAttached (ch : ChannelID) (err : option error)
| OnChannelDropped (ch : ChannelID)
| OnPeerHandshook (peer : PeerID) (chs : list ChannelID)
| OnPeerSubscribed (peer : PeerID) (ch : ChannelID)
| OnPeerUnsubscribed (peer : PeerID) (ch : ChannelID)
| OnPeerGone (peer : PeerID).

Inductive effect :=
| FxObserve (o : observation)
(** A receive stream is finished with: cancelled with a code, or read to its end. *)
| FxStreamEnd (stream : nat) (how : option Code)
| FxCancelWrite (stream : nat) (c : Code)
| FxCancelChannel (handle : nat)
| FxWake (conn : nat)
| FxStartDecode (msg : MessageID)
| FxStrategyClosed (msg : MessageID)
| FxDeliver (m : FullMessage)
| FxDropDelivery (m : FullMessage)
| FxPublished (msg : MessageID)
| FxSchedule (deadline : Z)
| FxSubscriptionClosed.

Record world := mk_world {
  w_ctrl : gmap nat ctrlOutState;
  w_outbox : gmap nat (list peerSendChunk);
  w_cancelled : gmap nat cause;
  w_log : list effect;
  w_fresh : nat;
  w_ranges : nat }.

Definition emit (e : effect) (w : world) : world :=
  mk_world (w_ctrl w) (w_outbox w) (w_cancelled w) (w_log w ++ [e]) (w_fresh w) (w_ranges w).
Definition observe (o : observation) (w : world) : world := emit (FxObserve o) w.
Definition CancelRead (stream : nat) (c : Code) (w : world) : world := emit (FxStreamEnd stream (Some c)) w.
Definition CancelWrite (stream : nat) (c : Code) (w : world) : world := emit (FxCancelWrite stream c) w.

Definition ctrlState (w : world) (conn : nat) : ctrlOutState := default newCtrlOutState (w_ctrl w !! conn).
Definition on_ctrl (conn : nat) (f : ctrlOutState -> ctrlOutState) (w : world) : world :=
  mk_world (<[conn := f (ctrlState w conn)]> (w_ctrl w)) (w_outbox w) (w_cancelled w) (w_log w) (w_fresh w) (w_ranges w).

(** A new context, channel or other identity. *)
Definition fresh (w : world) : nat * world :=
  (w_fresh w, mk_world (w_ctrl w) (w_outbox w) (w_cancelled w) (w_log w) (S (w_fresh w)) (w_ranges w)).

(** The first cancellation of a context decides its cause. *)
Definition cancel (ctx : nat) (c : cause) (w : world) : world :=
  match w_cancelled w !! ctx with
  | Some _ => w
  | None => mk_world (w_ctrl w) (w_outbox w) (<[ctx := c]> (w_cancelled w)) (w_log w) (w_fresh w) (w_ranges w)
  end.

Definition set_outbox (ob : nat) (l : list peerSendChunk) (w : world) : world :=
  mk_world (w_ctrl w) (<[ob := l]> (w_outbox w)) (w_cancelled w) (w_log w) (w_fresh w) (w_ranges w).

(** ** Field updates *)

Section updates.
Context {St : Type}.
Implicit Types s : session_state St.

Definition with_stage (x : sessionStage) s : session_state St :=
  mk_session (ss_channelID s) (ss_messageID s) (ss_preamble s) x (ss_strategy s) (ss_createdAt s) (ss_everHadPeers s) (ss_peers s) (ss_outboundCancels s) (ss_readers s) (ss_readQueue s) (ss_dedupGroups s) (ss_ctx s).
Definition with_strategy (x : St) s : session_state St :=
  mk_session (ss_channelID s) (ss_messageID s) (ss_preamble s) (ss_stage s) x (ss_createdAt s) (ss_everHadPeers s) (ss_peers s) (ss_outboundCancels s) (ss_readers s) (ss_readQueue s) (ss_dedupGroups s) (ss_ctx s).
Definition with_peers (x : gmap PeerID sessionPeer) s : session_state St :=
  mk_session (ss_channelID s) (ss_messageID s) (ss_preamble s) (ss_stage s) (ss_strategy s) (ss_createdAt s) (ss_everHadPeers s) x (ss_outboundCancels s) (ss_readers s) (ss_readQueue s) (ss_dedupGroups s) (ss_ctx s).
Definition with_outboundCancels (x : gmap (PeerID * ChunkHandle) nat) s : session_state St :=
  mk_session (ss_channelID s) (ss_messageID s) (ss_preamble s) (ss_stage s) (ss_strategy s) (ss_createdAt s) (ss_everHadPeers s) (ss_peers s) x (ss_readers s) (ss_readQueue s) (ss_dedupGroups s) (ss_ctx s).
Definition with_readers (x : list readTask) s : session_state St :=
  mk_session (ss_channelID s) (ss_messageID s) (ss_preamble s) (ss_stage s) (ss_strategy s) (ss_createdAt s) (ss_everHadPeers s) (ss_peers s) (ss_outboundCancels s) x (ss_readQueue s) (ss_dedupGroups s) (ss_ctx s).
Definition with_readQueue (x : list pendingChunkRead) s : session_state St :=
  mk_session (ss_channelID s) (ss_messageID s) (ss_preamble s) (ss_stage s) (ss_strategy s) (ss_createdAt s) (ss_everHadPeers s) (ss_peers s) (ss_outboundCancels s) (ss_readers s) x (ss_dedupGroups s) (ss_ctx s).
Definition with_dedupGroups (x : gmap bytes nat) s : session_state St :=
  mk_session (ss_channelID s) (ss_messageID s) (ss_preamble s) (ss_stage s) (ss_strategy s) (ss_createdAt s) (ss_everHadPeers s) (ss_peers s) (ss_outboundCancels s) (ss_readers s) (ss_readQueue s) x (ss_ctx s).
Definition with_everHadPeers (x : bool) s : session_state St :=
  mk_session (ss_channelID s) (ss_messageID s) (ss_preamble s) (ss_stage s) (ss_strategy s) (ss_createdAt s) x (ss_peers s) (ss_outboundCancels s) (ss_readers s) (ss_readQueue s) (ss_dedupGroups s) (ss_ctx s).
End updates.

(** ** The session *)

Section session.
Context {CI R St : Type} `{!ChunkIdentI CI} `{!Wire R} `{!Strategy CI R St}.
Context (choice : nat -> gset bytes -> list bytes).

Implicit Types (s : session_state St) (w : world).

Definition range (X : gset bytes) w : list bytes * world :=
  (choice (w_ranges w) X,
   mk_world (w_ctrl w) (w_outbox w) (w_cancelled w) (w_log w) (w_fresh w) (S (w_ranges w))).

Definition key s : sessionKey := mk_key (ss_channelID s) (ss_messageID s).

Definition chunk_error s (peer : PeerID) (e : error) : observation :=
  OnChunkError (mk_cpe peer (ss_channelID s) (ss_messageID s) e).
Definition chunk_rcvd s (peer : PeerID) (v : Verdict) : observation :=
  OnChunkRcvd peer (ss_channelID s) (ss_messageID s) v.

(** [for _, sp := range s.peers { sp.conn.ctrlState.f(...) }] *)
Fixpoint each_peer (f : ctrlOutState -> ctrlOutState) (peers : gmap PeerID sessionPeer) (order : list PeerID) w : world :=
  match order with
  | [] => w
  | p :: order =>
      each_peer f peers order (match peers !! p with Some sp => on_ctrl (sp_conn sp) f w | None => w end)
  end.

Definition notifyPeersComplete s w : world :=
  let '(order, w) := range (dom (ss_peers s)) w in
  each_peer (fun c => closeSessionStream c (key s)) (ss_peers s) order w.

Definition notifyPeersSessionDone s w : world :=
  let '(order, w) := range (dom (ss_peers s)) w in
  each_peer (fun c => closeSession c (key s)) (ss_peers s) order w.

(** *** Sending *)

Definition sendChunk (d : ChunkDispatch CI) s w : option (session_state St * world) :=
  let peer := cd_peer d in
  let handle := ci_Handle (cd_chunkID d) in
  match w_Marshal (cd_chunkID d) with
  | Err _ => letp st := ChunkSent (ss_strategy s) peer handle (Some ErrChunkMarshal) in Some (with_strategy st s, w)
  | Ok chunkIDBytes =>
      match ss_peers s !! peer with
      | None => letp st := ChunkSent (ss_strategy s) peer handle (Some ErrChunkPeerGone) in Some (with_strategy st s, w)
      | Some sp =>
          let '(ctx, w) := fresh w in
          let chunk := mk_send peer (ss_channelID s) (ss_messageID s) handle chunkIDBytes (cd_data d) ctx in
          let box := default [] (w_outbox w !! sp_outbox sp) in
          if (length box <? chunkOutboxCap)%nat then
            Some (with_outboundCancels (<[(peer, handle) := ctx]> (ss_outboundCancels s)) s,
                  emit (FxWake (sp_conn sp)) (set_outbox (sp_outbox sp) (box ++ [chunk]) w))
          else
            letp st := ChunkSent (ss_strategy s) peer handle (Some ErrChunkSlotFull) in
            Some (with_strategy st s, cancel ctx Canceled w)
      end
  end.

Fixpoint sendChunks (l : list (ChunkDispatch CI)) s w : option (session_state St * world) :=
  match l with
  | [] => Some (s, w)
  | d :: l => letp r := sendChunk d s w in sendChunks l r.1 r.2
  end.

Fixpoint broadcast_loop (data : bytes) s (order : list PeerID) w : world :=
  match order with
  | [] => w
  | pid :: order =>
      broadcast_loop data s order
        (match ss_peers s !! pid with
         | Some sp =>
             if sp_completed sp then w
             else
               let '(c, ok) := setRouting (ctrlState w (sp_conn sp)) (mk_routing (key s) data) in
               let w := on_ctrl (sp_conn sp) (fun _ => c) w in
               if (ok : bool) then observe (OnRoutingUpdate pid (ss_channelID s) (ss_messageID s)) w else w
         | None => w
         end)
  end.

Definition broadcastRouting (update : R) s w : world :=
  match w_Marshal update with
  | Err _ => w
  | Ok data => let '(order, w) := range (dom (ss_peers s)) w in broadcast_loop data s order w
  end.

(** [PollChunks] ranges over the strategy's own peers; the set of them is an
    argument, since the interface hides it. *)
Context (attached : St -> gset PeerID).

Definition drainPolls s w : option (session_state St * world) :=
  letp r := PollRouting (ss_strategy s) false in
  let s := with_strategy r.1 s in
  let w := match r.2 with Some routing => broadcastRouting routing s w | None => w end in
  let '(order, w) := range (attached (ss_strategy s)) w in
  letp q := PollChunks (ss_strategy s) order in
  sendChunks q.2 (with_strategy q.1 s) w.

(** *** Receiving *)

(** The verdict reported for a chunk that is not read. *)
Definition late_verdict s : Verdict :=
  if (stage_nat stageReconstructed <=? stage_nat (ss_stage s))%nat then VerdictSurplus
  else if decide (ss_stage s = stageDecoding) then VerdictDecoding else VerdictRedundant.

Definition too_long (dataLen : Z) : error :=
  ("chunk data length " ++ pretty dataLen ++ " exceeds max " ++ pretty maxChunkDataSize)%string.

Definition handleChunkStream (peer : PeerID) (chunkID : bytes) (dataLen : Z) (stream : nat) s w
  : option (session_state St * world) :=
  match w_Unmarshal chunkID with
  | Err e => Some (s, CancelRead stream Unspecified (observe (chunk_error s peer ("unmarshal chunk id: " ++ e)%string) w))
  | Ok chunk =>
      if dataLen >? maxChunkDataSize then
        Some (s, CancelRead stream Unspecified (observe (chunk_error s peer (too_long dataLen)) w))
      else
        let consuming := (stage_nat (ss_stage s) <? stage_nat stageDecoding)%nat in
        letp haveChunk := (if consuming then HaveChunk (ss_strategy s) (chunk : CI) else Some false) in
        if negb consuming || haveChunk then
          Some (s, CancelRead stream Redundant (observe (chunk_rcvd s peer (late_verdict s)) w))
        else if (maxConcurrentReads <=? length (ss_readers s))%nat then
          Some (with_readQueue (ss_readQueue s ++ [mk_read peer chunkID dataLen stream]) s, w)
        else
          let task ctx := mk_task (mk_read peer chunkID dataLen stream) ctx in
          match DedupKey (ss_strategy s) chunk with
          | None => Some (with_readers (ss_readers s ++ [task (ss_ctx s)]) s, w)
          | Some k =>
              match ss_dedupGroups s !! k with
              | Some grp => Some (with_readers (ss_readers s ++ [task grp]) s, w)
              | None =>
                  let '(grp, w) := fresh w in
                  Some (with_readers (ss_readers s ++ [task grp]) (with_dedupGroups (<[k := grp]> (ss_dedupGroups s)) s), w)
              end
          end
  end.

(** The fuel is the length of the queue: a pop with a free slot never queues
    its read again. *)
Fixpoint drainReads_loop (fuel : nat) s w : option (session_state St * world) :=
  match ss_readQueue s with
  | [] => Some (s, w)
  | pending :: rest =>
      if (length (ss_readers s) <? maxConcurrentReads)%nat then
        match fuel with
        | O => None
        | S fuel' =>
            letp r := handleChunkStream (rd_peer pending) (rd_chunkID pending) (rd_dataLen pending) (rd_stream pending)
                        (with_readQueue rest s) w in
            drainReads_loop fuel' r.1 r.2
        end
      else Some (s, w)
  end.
Definition drainReads s w : option (session_state St * world) := drainReads_loop (length (ss_readQueue s)) s w.

(** [buildDedupCancel]: the group to cancel. *)
Definition buildDedupCancel (chunk : CI) s : option (bytes * nat) :=
  match DedupKey (ss_strategy s) chunk with
  | None => None
  | Some k => match ss_dedupGroups s !! k with Some grp => Some (k, grp) | None => None end
  end.

Definition acceptChunk (peer : PeerID) (chunk : CI) (payload : bytes) s w : option (session_state St * world) :=
  let dedup := buildDedupCancel chunk s in
  letp r := TakeChunk (ss_strategy s) peer chunk payload in
  let '(st, (verdict, complete, err), cancelled) := r in
  let s := with_strategy st s in
  let '(s, w) := match dedup with
                 | Some (k, grp) => if (cancelled : bool)
                                    then (with_dedupGroups (delete k (ss_dedupGroups s)) s, cancel grp errChunkRedundant w)
                                    else (s, w)
                 | None => (s, w)
                 end in
  let w := match err with Some e => observe (chunk_error s peer e) w | None => w end in
  let w := observe (chunk_rcvd s peer verdict) w in
  let '(s, w) :=
    if decide (verdict = VerdictAccepted) then
      let '(have, need) := Progress (ss_strategy s) in
      let w := observe (OnStrategyProgress (ss_channelID s) (ss_messageID s) have need) w in
      if complete && bool_decide (ss_stage s = stageConsuming) then
        let s := with_stage stageDecoding s in
        (s, emit (FxStartDecode (ss_messageID s)) (notifyPeersComplete s w))
      else (s, w)
    else (s, w) in
  drainPolls s w.

Definition handleChunkData (peer : PeerID) (chunkID payload : bytes) s w : option (session_state St * world) :=
  match w_Unmarshal chunkID with
  | Err e => Some (s, observe (chunk_error s peer ("unmarshal chunk id: " ++ e)%string) w)
  | Ok chunk =>
      letp have := HaveChunk (ss_strategy s) (chunk : CI) in
      if (have : bool) then Some (s, observe (chunk_rcvd s peer (late_verdict s)) w)
      else match VerifyChunk (ss_strategy s) peer chunk payload with
           | VerdictAccepted => acceptChunk peer chunk payload s w
           | VerdictPending => Some (s, w)
           | v => Some (s, observe (chunk_rcvd s peer v) w)
           end
  end.

Definition handleVerifyResult (peer : PeerID) (chunkID payload : bytes) (verdict : Verdict) s w
  : option (session_state St * world) :=
  match w_Unmarshal chunkID with
  | Err _ => Some (s, w)
  | Ok chunk =>
      match verdict with
      | VerdictAccepted => acceptChunk peer (chunk : CI) payload s w
      | v => Some (s, observe (chunk_rcvd s peer v) w)
      end
  end.

(** Cancel the outbound sends with the given keys, where they exist. *)
Fixpoint cancel_handles (peer : PeerID) (hs : list ChunkHandle) s w : session_state St * world :=
  match hs with
  | [] => (s, w)
  | h :: hs =>
      match ss_outboundCancels s !! (peer, h) with
      | Some ctx => cancel_handles peer hs (with_outboundCancels (delete (peer, h) (ss_outboundCancels s)) s) (cancel ctx Canceled w)
      | None => cancel_handles peer hs s w
      end
  end.

Definition handleRoutingUpdate (peer : PeerID) (data : bytes) s w : option (session_state St * world) :=
  match w_Unmarshal data with
  | Err e => Some (s, observe (chunk_error s peer e) w)
  | Ok update =>
      letp r := RoutingUpdate (ss_strategy s) peer (update : R) in
      let '(st, cancelHandles, err) := r in
      let s := with_strategy st s in
      let w := match err with Some e => observe (chunk_error s peer e) w | None => w end in
      let w := observe (OnRoutingUpdate peer (ss_channelID s) (ss_messageID s)) w in
      let '(s, w) := cancel_handles peer cancelHandles s w in
      drainPolls s w
  end.

Definition handleSendComplete (peer : PeerID) (handle : ChunkHandle) (err : option error) (size : Z) s w
  : option (session_state St * world) :=
  let '(s, w) := cancel_handles peer [handle] s w in
  letp st := ChunkSent (ss_strategy s) peer handle err in
  let s := with_strategy st s in
  let w := match err with None => observe (OnChunkSent peer (ss_channelID s) (ss_messageID s) size) w | Some _ => w end in
  drainPolls s w.

(** *** Peers *)

(** [conn] is the PeerConn and [pid] its id. *)
Definition handlePeerAttached (conn : nat) (pid : PeerID) s w : option (session_state St * world) :=
  match ss_peers s !! pid with
  | Some _ => Some (s, w)
  | None =>
      let '(outbox, w) := fresh w in
      let s := with_peers (<[pid := mk_sessionPeer conn outbox false]> (ss_peers s)) (with_everHadPeers true s) in
      letp st := AttachPeer (ss_strategy s) pid in
      letp r := PollRouting st true in
      let s := with_strategy r.1 s in
      let '(initialRouting, w) :=
        match r.2 with
        | Some routing => (match w_Marshal (routing : R) with Ok b => b | Err _ => [] end,
                           observe (OnRoutingUpdate pid (ss_channelID s) (ss_messageID s)) w)
        | None => ([], w)
        end in
      let w := on_ctrl conn (fun c => openSession c (mk_open (key s) (ss_preamble s) initialRouting outbox)) w in
      drainPolls s w
  end.

(** The contexts of all sends to a peer, cancelled and forgotten. *)
Definition cancelOutbound (peer : PeerID) s w : session_state St * world :=
  (with_outboundCancels (filter (fun kv => kv.1.1 <> peer) (ss_outboundCancels s)) s,
   foldr (fun kv w => cancel kv.2 Canceled w) w
     (map_to_list (filter (fun kv => kv.1.1 = peer) (ss_outboundCancels s)))).

Definition cancel_reads (l : list pendingChunkRead) (c : Code) w : world :=
  foldl (fun w r => CancelRead (rd_stream r) c w) w l.

Definition handlePeerDropped (peer : PeerID) s w : session_state St * world :=
  let w := match ss_peers s !! peer with
           | Some sp => on_ctrl (sp_conn sp) (fun c => closeSession c (key s)) w
           | None => w
           end in
  let w := cancel_reads (filter (fun r => rd_peer r = peer) (ss_readQueue s)) Unspecified w in
  let s := with_readQueue (filter (fun r => rd_peer r <> peer) (ss_readQueue s)) s in
  let s := with_peers (delete peer (ss_peers s)) s in
  let '(s, w) := cancelOutbound peer s w in
  (with_strategy (DetachPeer (ss_strategy s) peer false) s, w).

Definition handlePeerCompleted (peer : PeerID) s w : session_state St * world :=
  match ss_peers s !! peer with
  | None => (s, w)
  | Some sp =>
      if sp_completed sp then (s, w)
      else
        let s := with_peers (<[peer := mk_sessionPeer (sp_conn sp) (sp_outbox sp) true]> (ss_peers s)) s in
        let '(s, w) := cancelOutbound peer s w in
        (with_strategy (DetachPeer (ss_strategy s) peer true) s, w)
  end.

Definition idle s : bool :=
  if negb (ss_everHadPeers s) then false
  else if (stage_nat (ss_stage s) <? stage_nat stageReconstructed)%nat then bool_decide (ss_peers s = ∅)
  else bool_decide (map_Forall (fun _ sp => sp_completed sp = true) (ss_peers s)).

(** *** Closing

    [wg.Wait] is where the readers end: each sees its context cancelled and
    cancels its stream with the code of the cause. *)
Definition close_cause (code : Code) : cause :=
  if decide (code = Redundant) then errChunkRedundant
  else if decide (code = Refused) then errStreamRefused else Canceled.

Definition reader_code w (sessCtx : nat) (t : readTask) : Code :=
  streamCancellationCode
    (match w_cancelled w !! rt_ctx t with
     | Some c => c
     | None => default Canceled (w_cancelled w !! sessCtx)
     end).

Definition closeWithCode (code : Code) s w : session_state St * world :=
  let w := notifyPeersSessionDone s w in
  let w := cancel (ss_ctx s) (close_cause code) w in
  let w := cancel_reads (ss_readQueue s) code w in
  let s := with_readQueue [] s in
  let w := foldl (fun w t => CancelRead (rd_stream (rt_read t)) (reader_code w (ss_ctx s) t) w) w (ss_readers s) in
  let s := with_readers [] s in
  (s, emit (FxStrategyClosed (ss_messageID s)) w).
End session.

(** ** The invariant *)

(** The world only grows: effects are appended, cancellations are final,
    identities are never reused, and no outbox exceeds its capacity. *)
Record grows (w w' : world) : Prop := {
  gr_log : w_log w `prefix_of` w_log w';
  gr_cancelled : w_cancelled w ⊆ w_cancelled w';
  gr_fresh : (w_fresh w <= w_fresh w')%nat;
  gr_box : forall ob l', w_outbox w' !! ob = Some l' ->
    (length l' <= chunkOutboxCap)%nat \/ w_outbox w !! ob = Some l' }.

#[global] Instance grows_preorder : PreOrder grows.
Proof.
  split; [split; try done; naive_solver|]. intros a b c [] []. split; [by etrans|by etrans|lia|].
  intros ob l' H. destruct (gr_box1 ob l' H); [by left|by eapply gr_box0].
Qed.

Lemma grows_emit e w : grows w (emit e w).
Proof. split; simpl; try done; [by apply prefix_app_r|naive_solver]. Qed.
Lemma grows_on_ctrl c f w : grows w (on_ctrl c f w).
Proof. split; simpl; try done. naive_solver. Qed.
Lemma grows_fresh w : grows w (fresh w).2.
Proof. split; simpl; try done; [lia|naive_solver]. Qed.
Lemma grows_cancel c x w : grows w (cancel c x w).
Proof.
  unfold cancel. destruct (w_cancelled w !! c) eqn:E; [done|].
  split; simpl; try done; [by apply insert_subseteq|naive_solver].
Qed.
#[export] Hint Resolve grows_emit grows_on_ctrl grows_fresh grows_cancel : ethp2p.

(** Chaining: the goal's last world is some operation applied to an earlier one. *)
Ltac grow :=
  repeat first
    [ done
    | apply grows_emit | apply grows_on_ctrl | apply grows_fresh | apply grows_cancel
    | etrans; [|apply grows_emit] | etrans; [|apply grows_on_ctrl]
    | etrans; [|apply grows_cancel] ].

Section laws.
Context {CI R St : Type} `{!ChunkIdentI CI} `{!Wire R} `{!Strategy CI R St} `{!StrategyLaws CI R St}.
Context (choice : nat -> gset bytes -> list bytes).
(** [range] visits every key once. *)
Hypothesis choice_perm : forall n X, choice n X ≡ₚ elements X.

Implicit Types (s : session_state St) (w : world).

Definition completed_peers s : gset PeerID := dom (filter (fun kv => sp_completed kv.2 = true) (ss_peers s)).

Record session_wf s : Prop := {
  sw_strategy : st_wf (ss_strategy s);
  sw_attached : st_attached (ss_strategy s) = dom (ss_peers s);
  sw_done : st_done (ss_strategy s) = completed_peers s;
  sw_cancels : forall p h, is_Some (ss_outboundCancels s !! (p, h)) -> p ∈ dom (ss_peers s) /\ p ∉ completed_peers s;
  sw_readers : (length (ss_readers s) <= maxConcurrentReads)%nat;
  sw_consuming : ss_stage s = stageConsuming -> st_complete (ss_strategy s) = false;
  sw_decoding : ss_stage s = stageDecoding -> st_complete (ss_strategy s) = true }.

(** What sending and routing leave alone. *)
Record keeps s s' : Prop := {
  kp_channel : ss_channelID s' = ss_channelID s;
  kp_message : ss_messageID s' = ss_messageID s;
  kp_stage : ss_stage s' = ss_stage s;
  kp_ever : ss_everHadPeers s' = ss_everHadPeers s;
  kp_created : ss_createdAt s' = ss_createdAt s;
  kp_peers : ss_peers s' = ss_peers s;
  kp_readers : ss_readers s' = ss_readers s;
  kp_queue : ss_readQueue s' = ss_readQueue s;
  kp_ctx : ss_ctx s' = ss_ctx s;
  kp_complete : st_complete (ss_strategy s') = st_complete (ss_strategy s);
  kp_decode : Decode (ss_strategy s') = Decode (ss_strategy s) }.

#[local] Instance keeps_preorder : PreOrder keeps.
Proof. split; [by split|]. intros a b c [] []. split; congruence. Qed.

(** Replacing the strategy's state after one of its methods. *)
Lemma wf_strategy st s :
  session_wf s -> st_wf st -> st_attached st = st_attached (ss_strategy s) -> st_done st = st_done (ss_strategy s) ->
  st_complete st = st_complete (ss_strategy s) -> session_wf (with_strategy st s).
Proof.
  intros [] H1 H2 H3 H4. split; simpl; try done; try congruence.
  - by rewrite H3.
  - intros E. rewrite H4. by auto.
  - intros E. rewrite H4. by auto.
Qed.

Lemma keeps_strategy st s :
  st_complete st = st_complete (ss_strategy s) -> Decode st = Decode (ss_strategy s) -> keeps s (with_strategy st s).
Proof. intros. by split. Qed.

Lemma wf_cancels s m :
  session_wf s -> (forall p h, is_Some (m !! (p, h)) -> p ∈ dom (ss_peers s) /\ p ∉ completed_peers s) ->
  session_wf (with_outboundCancels m s).
Proof. intros [] H. by split. Qed.

Lemma elem_completed s p : p ∈ completed_peers s <-> exists sp, ss_peers s !! p = Some sp /\ sp_completed sp = true.
Proof. unfold completed_peers. rewrite elem_of_dom. unfold is_Some. by setoid_rewrite map_lookup_filter_Some. Qed.

(** *** Sending *)

(** Where a dispatched chunk went: into the peer's outbox with a live context
    that is registered for cancellation, or back to the strategy as failed. *)
Definition sent_or_reported (d : ChunkDispatch CI) s w s' w' : Prop :=
  (exists sp b, ss_peers s !! cd_peer d = Some sp /\ w_Marshal (cd_chunkID d) = Ok b /\
     let chunk := mk_send (cd_peer d) (ss_channelID s) (ss_messageID s) (ci_Handle (cd_chunkID d)) b (cd_data d) (w_fresh w) in
     w_outbox w' !! sp_outbox sp = Some (default [] (w_outbox w !! sp_outbox sp) ++ [chunk]) /\
     ss_outboundCancels s' !! (cd_peer d, ci_Handle (cd_chunkID d)) = Some (w_fresh w) /\
     w_cancelled w' = w_cancelled w) \/
  (exists e st, (e = ErrChunkMarshal \/ e = ErrChunkSlotFull) /\
     ChunkSent (ss_strategy s) (cd_peer d) (ci_Handle (cd_chunkID d)) (Some e) = Some st /\ s' = with_strategy st s).

Lemma sendChunk_spec d s w :
  session_wf s -> cd_peer d ∈ dom (ss_peers s) -> cd_peer d ∉ completed_peers s ->
  exists s' w', sendChunk d s w = Some (s', w') /\ session_wf s' /\ keeps s s' /\ grows w w' /\
    ss_dedupGroups s' = ss_dedupGroups s /\ sent_or_reported d s w s' w'.
Proof using StrategyLaws0.
  intros Hw Hp Hn. unfold sendChunk.
  assert (forall e, exists st, ChunkSent (ss_strategy s) (cd_peer d) (ci_Handle (cd_chunkID d)) (Some e) = Some st /\
    session_wf (with_strategy st s) /\ keeps s (with_strategy st s)) as Hsent.
  { intros e. destruct (law_ChunkSent (ss_strategy s) (cd_peer d) (ci_Handle (cd_chunkID d)) (Some e) (sw_strategy s Hw))
      as (st & E & H1 & H2 & H3 & H4 & H5). exists st. split; [done|]. split; [by apply wf_strategy|by apply keeps_strategy]. }
  destruct (w_Marshal (cd_chunkID d)) as [b|] eqn:Em.
  2:{ destruct (Hsent ErrChunkMarshal) as (st & E & Hw' & Hk). rewrite E. simpl. do 2 eexists. split; [done|].
      split; [done|]. split; [done|]. split; [done|]. split; [done|]. right. exists ErrChunkMarshal, st. auto. }
  apply elem_of_dom in Hp as [sp Hsp]. rewrite Hsp. simpl.
  destruct (Nat.ltb_spec (length (default [] (w_outbox w !! sp_outbox sp))) chunkOutboxCap) as [Hlt|Hge].
  - do 2 eexists. split; [done|]. split; [|split; [by split|split; [|split; [done|]]]].
    + apply wf_cancels; [done|]. intros p h [x Hx]. apply lookup_insert_Some in Hx as [[[= <- <-] _]|[_ Hx]].
      * split; [by apply elem_of_dom_2 in Hsp|done].
      * apply (sw_cancels s Hw p h). by eexists.
    + split; simpl; [by apply prefix_app_r|done|lia|]. intros ob l. rewrite lookup_insert_Some.
      intros [[<- <-]|[_ ?]]; [|by right]. left. rewrite length_app. simpl. lia.
    + left. exists sp, b. split; [done|]. split; [done|]. simpl. rewrite !lookup_insert_eq. done.
  - destruct (Hsent ErrChunkSlotFull) as (st & E & Hw' & Hk). rewrite E. simpl. do 2 eexists. split; [done|].
    split; [done|]. split; [done|]. split.
    + etrans; [apply grows_fresh|]. simpl. apply grows_cancel.
    + split; [done|]. right. exists ErrChunkSlotFull, st. auto.
Qed.

Lemma sendChunks_spec l : forall s w,
  session_wf s -> Forall (fun d => cd_peer d ∈ dom (ss_peers s) /\ cd_peer d ∉ completed_peers s) l ->
  exists s' w', sendChunks l s w = Some (s', w') /\ session_wf s' /\ keeps s s' /\ grows w w' /\
    ss_dedupGroups s' = ss_dedupGroups s.
Proof using StrategyLaws0.
  induction l as [|d l IH]; intros s w Hw Hl; simpl; [by exists s, w|].
  apply Forall_cons in Hl as [[Hd1 Hd2] Hl].
  destruct (sendChunk_spec d s w Hw Hd1 Hd2) as (s1 & w1 & -> & Hw1 & Hk1 & Hg1 & Hd & _). simpl.
  destruct (IH s1 w1 Hw1) as (s' & w' & -> & Hw' & Hk' & Hg' & Hd').
  { unfold completed_peers in *. by rewrite (kp_peers _ _ Hk1). }
  exists s', w'. split; [done|]. split; [done|]. split; [by etrans|]. split; [by etrans|congruence].
Qed.

Lemma broadcast_loop_grows data s order : forall w, grows w (broadcast_loop data s order w).
Proof.
  induction order as [|p order IH]; intros w; simpl; [done|]. etrans; [|apply IH].
  destruct (ss_peers s !! p) as [sp|]; [|done]. destruct (sp_completed sp); [done|].
  destruct (setRouting _ _) as [c ok]. destruct ok; grow.
Qed.

Lemma grows_range X w : grows w (range choice X w).2.
Proof. split; simpl; try done. naive_solver. Qed.

Lemma broadcastRouting_grows u s w : grows w (broadcastRouting choice u s w).
Proof.
  unfold broadcastRouting. destruct (w_Marshal u); [|done]. simpl.
  etrans; [apply (grows_range (dom (ss_peers s)))|]. simpl. apply broadcast_loop_grows.
Qed.

Local Abbreviation drain := (drainPolls choice st_attached).

Lemma drainPolls_spec s w :
  session_wf s ->
  exists s' w', drain s w = Some (s', w') /\ session_wf s' /\ keeps s s' /\ grows w w' /\
    ss_dedupGroups s' = ss_dedupGroups s.
Proof using choice_perm StrategyLaws0.
  intros Hw. unfold drainPolls.
  destruct (law_PollRouting (ss_strategy s) false (sw_strategy s Hw)) as (st & r & -> & P1 & P2 & P3 & P4 & P5). simpl.
  set (w1 := match r with Some _ => _ | None => w end).
  assert (grows w w1) as Hg1 by (unfold w1; destruct r; [apply broadcastRouting_grows|done]).
  assert (session_wf (with_strategy st s)) as Hw1 by (by apply wf_strategy).
  destruct (law_PollChunks st (choice (w_ranges w1) (st_attached st))) as (st2 & l & -> & Q1 & Q2 & Q3 & Q4 & Q5 & Q6 & _);
    [done|apply choice_perm|]. simpl.
  assert (session_wf (with_strategy st2 (with_strategy st s))) as Hw2 by (by apply wf_strategy).
  destruct (sendChunks_spec l (with_strategy st2 (with_strategy st s)) (range choice (st_attached st) w1).2 Hw2) as (s' & w' & E & H1 & H2 & H3 & H4).
  { eapply Forall_impl; [exact Q6|]. intros d. rewrite P2, P3, (sw_attached s Hw), (sw_done s Hw), elem_of_difference. done. }
  exists s', w'. split; [exact E|]. split; [done|]. split; [|split; [|done]].
  - etrans; [|exact H2]. destruct H2. split; simpl in *; try done; congruence.
  - etrans; [exact Hg1|]. etrans; [apply (grows_range (st_attached st))|done].
Qed.

(** *** Streams

    Every inbound chunk stream handed to the session is being read, waits in
    the queue, or has been cancelled. *)
Definition tracked s w (st : nat) : Prop :=
  (exists t, t ∈ ss_readers s /\ rd_stream (rt_read t) = st) \/
  (exists r, r ∈ ss_readQueue s /\ rd_stream r = st) \/
  (exists c, FxStreamEnd st c ∈ w_log w).

Definition carries s w s' w' : Prop := forall st, tracked s w st -> tracked s' w' st.

Lemma grows_log w w' e : grows w w' -> e ∈ w_log w -> e ∈ w_log w'.
Proof. intros [Hl _ _ _] He. destruct Hl as [l ->]. apply elem_of_app. by left. Qed.

Lemma carries_grows s w s' w' :
  grows w w' -> ss_readers s' = ss_readers s -> ss_readQueue s' = ss_readQueue s -> carries s w s' w'.
Proof.
  intros Hg Er Eq st [H|[H|[c Hc]]]; [left; by rewrite Er|right; left; by rewrite Eq|].
  right. right. exists c. by eapply grows_log.
Qed.

Lemma carries_trans s1 w1 s2 w2 s3 w3 : carries s1 w1 s2 w2 -> carries s2 w2 s3 w3 -> carries s1 w1 s3 w3.
Proof. intros H1 H2 st H. by apply H2, H1. Qed.

Lemma keeps_carries s w s' w' : keeps s s' -> grows w w' -> carries s w s' w'.
Proof. intros Hk Hg. apply carries_grows; [done|apply Hk|apply Hk]. Qed.

Lemma tracked_cancel s w st c : tracked s (CancelRead st c w) st.
Proof. right. right. exists (Some c). simpl. apply elem_of_app. right. by apply list_elem_of_singleton. Qed.

(** Connections a handler may attach ([N] peer connection). *)
Context (N : PeerID -> nat -> Prop).

Definition conns s s' : Prop := forall p sp', ss_peers s' !! p = Some sp' ->
  (exists sp, ss_peers s !! p = Some sp /\ sp_conn sp = sp_conn sp') \/ N p (sp_conn sp').

Lemma conns_same s s' : ss_peers s' = ss_peers s -> conns s s'.
Proof. intros E p sp' H. left. rewrite E in H. by exists sp'. Qed.

(** The result of a handler: it does not panic, keeps the invariant, loses no
    stream, never moves the stage back, starts the decode when it moves the
    stage, and leaves a decode in progress alone. *)
Record handled s w s' w' : Prop := {
  hd_wf : session_wf s';
  hd_grows : grows w w';
  hd_carries : carries s w s' w';
  hd_conns : conns s s';
  hd_stage : (stage_nat (ss_stage s) <= stage_nat (ss_stage s'))%nat;
  hd_not_reconstructed : ss_stage s' = ss_stage s \/ (ss_stage s = stageConsuming /\ ss_stage s' = stageDecoding);
  hd_ids : ss_channelID s' = ss_channelID s /\ ss_messageID s' = ss_messageID s /\ ss_createdAt s' = ss_createdAt s /\ ss_ctx s' = ss_ctx s;
  hd_decode : ss_stage s = stageDecoding -> Decode (ss_strategy s') = Decode (ss_strategy s);
  hd_started : ss_stage s' <> ss_stage s -> FxStartDecode (ss_messageID s) ∈ w_log w' }.

Lemma handled_trans s1 w1 s2 w2 s3 w3 : handled s1 w1 s2 w2 -> handled s2 w2 s3 w3 -> handled s1 w1 s3 w3.
Proof.
  intros [A1 A2 A3 A0 A4 A5 A6 A7 A8] [B1 B2 B3 B0 B4 B5 B6 B7 B8]. split; [done|by etrans|by eapply carries_trans| |lia| | | |].
  - intros p sp' H. destruct (B0 p sp' H) as [(sp & H2 & <-)|]; [|by right]. by apply A0.
  - destruct A5 as [E|[E1 E2]], B5 as [F|[F1 F2]]; try (rewrite E in *); try congruence; auto; right; split; congruence.
  - destruct A6 as (? & ? & ? & ?), B6 as (? & ? & ? & ?). repeat split; congruence.
  - intros E. assert (ss_stage s2 = stageDecoding) as E2.
    { destruct A5 as [->|[H _]]; [done|congruence]. }
    rewrite B7, A7; done.
  - intros Hne. destruct (decide (ss_stage s2 = ss_stage s1)) as [E|E].
    + rewrite E in B8. destruct A6 as (_ & <- & _). by apply B8.
    + eapply grows_log; [exact B2|by apply A8].
Qed.

Lemma handled_keeps s w s' w' : session_wf s' -> keeps s s' -> grows w w' -> handled s w s' w'.
Proof.
  intros Hw Hk Hg. pose proof (keeps_carries _ _ _ _ Hk Hg). destruct Hk. split; try done.
  - by apply conns_same.
  - rewrite kp_stage0. lia.
  - by left.
Qed.

(** Any change of the readers, the queue and the dedup groups. *)
Lemma handled_reads s w w' rs q dg :
  session_wf s -> (length rs <= maxConcurrentReads)%nat -> grows w w' ->
  carries s w (with_readers rs (with_readQueue q (with_dedupGroups dg s))) w' ->
  handled s w (with_readers rs (with_readQueue q (with_dedupGroups dg s))) w'.
Proof. intros [] Hl Hg Hc. split; try done; [by apply conns_same|by left]. Qed.

Lemma wf_same s s' : session_wf s -> ss_strategy s' = ss_strategy s -> ss_peers s' = ss_peers s ->
  ss_outboundCancels s' = ss_outboundCancels s -> ss_readers s' = ss_readers s -> ss_stage s' = ss_stage s -> session_wf s'.
Proof. intros [] E1 E2 E3 E4 E5. unfold completed_peers in *. split; unfold completed_peers; rewrite ?E1, ?E2, ?E3, ?E4, ?E5; done. Qed.

(** *** Receiving *)

(** A chunk that is not worth reading: its identifier does not parse, it is
    too long, the session no longer consumes, or the strategy has it. *)
Definition unwanted (id : bytes) (len : Z) s : Prop :=
  forall ci : CI, w_Unmarshal id = Ok ci -> len > maxChunkDataSize \/ ss_stage s <> stageConsuming \/ HaveChunk (ss_strategy s) ci = Some true.

(** What becomes of a stream handed in: it is cancelled, which only happens to
    an unwanted chunk; its read starts, in one of the 64 slots; or, all of them
    taken, it is the last of the queue. *)
Inductive taken (peer : PeerID) (id : bytes) (len : Z) (st : nat) s w s' w' : Prop :=
| tk_refused c : unwanted id len s -> s' = s -> FxStreamEnd st (Some c) ∈ w_log w' -> taken peer id len st s w s' w'
| tk_read ctx : ~ unwanted id len s -> (length (ss_readers s) < maxConcurrentReads)%nat ->
    ss_readers s' = ss_readers s ++ [mk_task (mk_read peer id len st) ctx] -> ss_readQueue s' = ss_readQueue s -> taken peer id len st s w s' w'
| tk_queued : ~ unwanted id len s -> (maxConcurrentReads <= length (ss_readers s))%nat ->
    ss_readers s' = ss_readers s -> ss_readQueue s' = ss_readQueue s ++ [mk_read peer id len st] -> taken peer id len st s w s' w'.

Lemma taken_tracked peer id len st s w s' w' : taken peer id len st s w s' w' -> tracked s' w' st.
Proof.
  intros [c _ _ Hc|ctx _ _ Hr _|_ _ _ Hq].
  - right. right. by exists (Some c).
  - left. eexists. rewrite Hr. split; [apply elem_of_app; right; by apply list_elem_of_singleton|done].
  - right. left. eexists. rewrite Hq. split; [apply elem_of_app; right; by apply list_elem_of_singleton|done].
Qed.

Lemma taken_queue peer id len st s w s' w' :
  taken peer id len st s w s' w' -> (length (ss_readers s) < maxConcurrentReads)%nat -> ss_readQueue s' = ss_readQueue s.
Proof. intros [c _ -> _|ctx _ _ _ Hq|_ Hl _ _] Hlt; [done|done|lia]. Qed.

Lemma handleChunkStream_taken peer id len st s w s' w' :
  handleChunkStream peer id len st s w = Some (s', w') -> taken peer id len st s w s' w'.
Proof.
  unfold handleChunkStream.
  assert (forall c o, FxStreamEnd st (Some c) ∈ w_log (CancelRead st c (observe o w))) as Hcan.
  { intros c o. simpl. apply elem_of_app. right. by apply list_elem_of_singleton. }
  destruct (w_Unmarshal id) as [ci|e] eqn:Eid; [|intros [= <- <-]; eapply tk_refused; [intros ? ?; congruence|done|apply Hcan]].
  destruct (Z.gtb_spec len maxChunkDataSize) as [Hl|Hl]; [intros [= <- <-]; eapply tk_refused; [by intros ? ?; left; lia|done|apply Hcan]|].
  destruct (Nat.ltb_spec (stage_nat (ss_stage s)) (stage_nat stageDecoding)) as [Hs|Hs].
  2:{ intros [= <- <-]. eapply tk_refused; [|done|apply Hcan]. intros ? _. right. left. intros E. rewrite E in Hs. simpl in Hs. lia. }
  assert (ss_stage s = stageConsuming) as Es by (destruct (ss_stage s); simpl in Hs; try done; lia).
  destruct (HaveChunk (ss_strategy s) ci) as [[]|] eqn:Eh; [|..|done].
  { intros [= <- <-]. eapply tk_refused; [|done|apply Hcan]. intros ci' E. assert (ci' = ci) as -> by congruence. by right; right. }
  assert (~ unwanted id len s) as Hw by (intros H; destruct (H ci Eid) as [?|[?|?]]; [lia|done|congruence]).
  cbn [mbind option_bind negb orb]. destruct (Nat.leb_spec maxConcurrentReads (length (ss_readers s))) as [Hf|Hf].
  - intros [= <- <-]. by apply tk_queued.
  - destruct (DedupKey (ss_strategy s) ci) as [k|]; [destruct (ss_dedupGroups s !! k) as [grp|]|];
      intros [= <- <-]; by eapply tk_read.
Qed.

Lemma handleChunkStream_spec peer id len st s w :
  session_wf s ->
  exists s' w', handleChunkStream peer id len st s w = Some (s', w') /\ handled s w s' w' /\ tracked s' w' st /\
    ((length (ss_readers s) < maxConcurrentReads)%nat -> ss_readQueue s' = ss_readQueue s).
Proof using StrategyLaws0.
  intros Hw. unfold handleChunkStream.
  assert (forall c o, handled s w s (CancelRead st c (observe o w)) /\ tracked s (CancelRead st c (observe o w)) st) as Hcan.
  { intros c o. split; [|apply tracked_cancel]. apply handled_keeps; [done|reflexivity|]. unfold CancelRead, observe. grow. }
  destruct (w_Unmarshal id) as [ci|e]; [|do 2 eexists; split; [done|]; split; [apply Hcan|split; [apply Hcan|done]]].
  destruct (len >? maxChunkDataSize); [do 2 eexists; split; [done|]; split; [apply Hcan|split; [apply Hcan|done]]|].
  set (consuming := (_ <? _)%nat).
  assert (exists b, (if consuming then HaveChunk (ss_strategy s) (ci : CI) else Some false) = Some b) as [b ->].
  { destruct consuming; [apply law_HaveChunk, Hw|by exists false]. }
  cbn [mbind option_bind]. destruct (negb consuming || b); [do 2 eexists; split; [done|]; split; [apply Hcan|split; [apply Hcan|done]]|].
  destruct (Nat.leb_spec maxConcurrentReads (length (ss_readers s))) as [Hfull|Hfree].
  - do 2 eexists. split; [done|]. split; [|split; [|lia]].
    + apply (handled_reads s w w (ss_readers s) (ss_readQueue s ++ [mk_read peer id len st]) (ss_dedupGroups s)); [done|apply Hw|done|].
      intros x [H|[(r & Hr & <-)|H]]; [by left| |by right; right]. right. left. exists r. split; [|done]. simpl. apply elem_of_app. by left.
    + right. left. eexists. split; [apply elem_of_app; right; by apply list_elem_of_singleton|done].
  - assert (forall g dg w', grows w w' -> let s' := with_readers (ss_readers s ++ [mk_task (mk_read peer id len st) g])
              (with_readQueue (ss_readQueue s) (with_dedupGroups dg s)) in handled s w s' w' /\ tracked s' w' st) as Hread.
    { intros g dg w' Hg s'. split.
      - apply handled_reads; [done|rewrite length_app; simpl; lia|done|].
        intros x [(t & Ht & <-)|[H|[c Hc]]]; [left|by right; left|right; right; exists c; by eapply grows_log].
        exists t. split; [|done]. simpl. apply elem_of_app. by left.
      - left. eexists. split; [apply elem_of_app; right; by apply list_elem_of_singleton|done]. }
    destruct (DedupKey (ss_strategy s) ci) as [k|]; [destruct (ss_dedupGroups s !! k) as [grp|]|].
    + do 2 eexists. split; [done|]. destruct (Hread grp (ss_dedupGroups s) w) as [H1 H2]; [done|]. split; [exact H1|]. split; [exact H2|done].
    + do 2 eexists. split; [done|]. destruct (Hread (w_fresh w) (<[k := w_fresh w]> (ss_dedupGroups s)) (fresh w).2) as [H1 H2]; [apply grows_fresh|].
      split; [exact H1|]. split; [exact H2|done].
    + do 2 eexists. split; [done|]. destruct (Hread (ss_ctx s) (ss_dedupGroups s) w) as [H1 H2]; [done|]. split; [exact H1|]. split; [exact H2|done].
Qed.

Lemma drainReads_loop_spec fuel : forall s w,
  session_wf s -> (length (ss_readQueue s) <= fuel)%nat ->
  exists s' w', drainReads_loop fuel s w = Some (s', w') /\ handled s w s' w' /\
    (ss_readQueue s' = [] \/ length (ss_readers s') = maxConcurrentReads).
Proof using StrategyLaws0.
  induction fuel as [|fuel IH]; intros s w Hw Hf; simpl; destruct (ss_readQueue s) as [|r rest] eqn:Eq; simpl in Hf; try lia;
    try (exists s, w; split; [done|]; split; [by apply handled_keeps|by left]).
  destruct (Nat.ltb_spec (length (ss_readers s)) maxConcurrentReads) as [Hlt|Hge].
  2:{ exists s, w. split; [done|]. split; [by apply handled_keeps|]. right. pose proof (sw_readers s Hw). lia. }
  destruct (handleChunkStream_spec (rd_peer r) (rd_chunkID r) (rd_dataLen r) (rd_stream r) (with_readQueue rest s) w) as (s1 & w1 & -> & H1 & T1 & Q1).
  { by eapply wf_same. }
  cbn [mbind option_bind fst snd]. specialize (Q1 Hlt). simpl in Q1.
  destruct (IH s1 w1 (hd_wf _ _ _ _ H1)) as (s' & w' & -> & H2 & Hq); [rewrite Q1; simpl; lia|].
  exists s', w'. split; [done|]. split; [|done]. eapply handled_trans; [|exact H2].
  destruct H1 as [A1 A2 A3 A0 A4 A5 A6 A7 A8]. split; try done.
  intros x [H|[(r' & Hr' & <-)|H]]; [by apply A3; left| |by apply A3; right; right].
  rewrite Eq in Hr'. apply elem_of_cons in Hr' as [->|Hr']; [done|]. apply A3. right. left. by exists r'.
Qed.

Lemma cancel_handles_spec peer hs : forall s w,
  session_wf s ->
  exists m w', cancel_handles peer hs s w = (with_outboundCancels m s, w') /\ session_wf (with_outboundCancels m s) /\
    grows w w' /\ m ⊆ ss_outboundCancels s.
Proof.
  induction hs as [|h hs IH]; intros s w Hw; simpl.
  { exists (ss_outboundCancels s), w. destruct s. by split. }
  destruct (ss_outboundCancels s !! (peer, h)) as [ctx|] eqn:E; [|by apply IH].
  destruct (IH (with_outboundCancels (delete (peer, h) (ss_outboundCancels s)) s) (cancel ctx Canceled w)) as (m & w' & Ec & Hw' & Hg & Hm).
  - apply wf_cancels; [done|]. intros p h' [x Hx]. apply lookup_delete_Some in Hx as [_ Hx].
    apply (sw_cancels s Hw p h'). by eexists.
  - exists m, w'. split; [exact Ec|]. split; [exact Hw'|]. split; [etrans; [apply grows_cancel|done]|].
    etrans; [exact Hm|]. apply delete_subseteq.
Qed.

Lemma keeps_cancels m s : keeps s (with_outboundCancels m s).
Proof. by split. Qed.

(** Finishing with [drainPolls]. *)
Lemma handled_drain s w s1 w1 :
  handled s w s1 w1 -> exists s' w', drain s1 w1 = Some (s', w') /\ handled s w s' w'.
Proof using choice_perm.
  intros H. destruct (drainPolls_spec s1 w1 (hd_wf _ _ _ _ H)) as (s' & w' & E & Hw & Hk & Hg & _).
  exists s', w'. split; [done|]. eapply handled_trans; [done|]. by apply handled_keeps.
Qed.

Lemma each_peer_grows f peers order : forall w, grows w (each_peer f peers order w).
Proof.
  induction order as [|p order IH]; intros w; simpl; [done|]. etrans; [|apply IH].
  destruct (peers !! p); [apply grows_on_ctrl|done].
Qed.

Lemma notifyPeersComplete_grows s w : grows w (notifyPeersComplete choice s w).
Proof. etrans; [apply (grows_range (dom (ss_peers s)))|]. apply each_peer_grows. Qed.

Lemma wf_take st g dg s :
  session_wf s -> st_wf st -> st_attached st = st_attached (ss_strategy s) -> st_done st = st_done (ss_strategy s) ->
  (g = stageConsuming -> st_complete st = false) -> (g = stageDecoding -> st_complete st = true) ->
  session_wf (with_stage g (with_dedupGroups dg (with_strategy st s))).
Proof. intros [] H1 H2 H3 H4 H5. split; simpl; try done; [congruence|by rewrite H3]. Qed.

Lemma handled_take s w w' st g dg :
  session_wf s -> grows w w' -> st_wf st -> st_attached st = st_attached (ss_strategy s) -> st_done st = st_done (ss_strategy s) ->
  (g = stageConsuming -> st_complete st = false) -> (g = stageDecoding -> st_complete st = true) ->
  (g = ss_stage s \/ (ss_stage s = stageConsuming /\ g = stageDecoding)) ->
  (ss_stage s = stageDecoding -> Decode st = Decode (ss_strategy s)) ->
  (g <> ss_stage s -> FxStartDecode (ss_messageID s) ∈ w_log w') ->
  handled s w (with_stage g (with_dedupGroups dg (with_strategy st s))) w'.
Proof.
  intros Hw Hg H1 H2 H3 H4 H5 H6 H7 H8. split; simpl; try done.
  - by apply wf_take.
  - by apply carries_grows.
  - by apply conns_same.
  - destruct H6 as [->|[-> ->]]; simpl; lia.
Qed.

Lemma acceptChunk_spec peer ci payload s w :
  session_wf s -> exists s' w', acceptChunk choice st_attached peer ci payload s w = Some (s', w') /\ handled s w s' w'.
Proof using choice_perm.
  intros Hw. unfold acceptChunk.
  destruct (law_Take (ss_strategy s) peer ci payload (sw_strategy s Hw)) as (st & v & f & e & x & -> & T1 & T2 & T3 & T4 & T5 & T6).
  cbn [mbind option_bind].
  set (dd := match buildDedupCancel ci s with Some _ => _ | None => _ end).
  assert (exists dg w1, dd = (with_dedupGroups dg (with_strategy st s), w1) /\ grows w w1) as (dg & w1 & Edd & Hg1).
  { unfold dd. destruct (buildDedupCancel ci s) as [[k grp]|]; [destruct x|].
    - do 2 eexists. split; [done|]. apply grows_cancel.
    - exists (ss_dedupGroups s), w. by destruct s.
    - exists (ss_dedupGroups s), w. by destruct s. }
  rewrite Edd. clear dd Edd.
  set (w2 := match e with Some _ => _ | None => w1 end).
  assert (grows w (observe (chunk_rcvd (with_dedupGroups dg (with_strategy st s)) peer v) w2)) as Hg2.
  { etrans; [exact Hg1|]. unfold w2, observe. destruct e; grow. }
  assert (st_complete (ss_strategy s) = true -> st = ss_strategy s) as Hfrz by naive_solver.
  assert (ss_stage s = stageDecoding -> Decode st = Decode (ss_strategy s)) as Hdec.
  { intros E. rewrite Hfrz; [done|]. by apply (sw_decoding s Hw). }
  destruct (decide (v = VerdictAccepted)) as [->|Hv].
  - specialize (T5 eq_refl).
    assert (st_complete (ss_strategy s) = false) as Hnc.
    { destruct (st_complete (ss_strategy s)) eqn:Ec; [|done]. by destruct (T4 eq_refl). }
    assert (ss_stage s <> stageDecoding) as N1.
    { intros E. rewrite (sw_decoding s Hw E) in Hnc. done. }
    simpl. destruct (Progress st) as [hv nd].
    destruct (f && bool_decide (ss_stage s = stageConsuming)) eqn:Ef.
    + apply andb_true_iff in Ef as [-> Ef]. apply bool_decide_eq_true in Ef. apply handled_drain.
      apply (handled_take s w _ st stageDecoding dg); auto; try done.
      * etrans; [exact Hg2|]. etrans; [apply grows_emit|]. etrans; [apply notifyPeersComplete_grows|apply grows_emit].
      * intros _. simpl. apply elem_of_app. right. by apply list_elem_of_singleton.
    + apply handled_drain.
      replace (with_dedupGroups dg (with_strategy st s)) with (with_stage (ss_stage s) (with_dedupGroups dg (with_strategy st s))) by by destruct s.
      apply (handled_take s w _ st (ss_stage s) dg); auto; [| |done].
      * etrans; [exact Hg2|]. apply grows_emit.
      * intros E. rewrite E, bool_decide_eq_true_2, andb_true_r in Ef by done. congruence.
  - rewrite (T6 Hv) in *. apply handled_drain.
    replace (with_dedupGroups dg (with_strategy (ss_strategy s) s)) with (with_stage (ss_stage s) (with_dedupGroups dg (with_strategy (ss_strategy s) s))) by by destruct s.
    apply (handled_take s w _ (ss_strategy s) (ss_stage s) dg); auto; [by apply (sw_consuming s)|by apply (sw_decoding s)|done].
Qed.

Lemma handled_observe o s w : session_wf s -> handled s w s (observe o w).
Proof. intros Hw. apply handled_keeps; [done|reflexivity|apply grows_emit]. Qed.

Lemma handled_refl s w : session_wf s -> handled s w s w.
Proof. intros Hw. by apply handled_keeps. Qed.

Lemma handleChunkData_spec peer id payload s w :
  session_wf s -> exists s' w', handleChunkData choice st_attached peer id payload s w = Some (s', w') /\ handled s w s' w'.
Proof using choice_perm.
  intros Hw. unfold handleChunkData. destruct (w_Unmarshal id) as [ci|e]; [|do 2 eexists; split; [done|]; by apply handled_observe].
  destruct (law_HaveChunk (ss_strategy s) ci (sw_strategy s Hw)) as [b ->]. cbn [mbind option_bind].
  destruct b; [do 2 eexists; split; [done|]; by apply handled_observe|].
  destruct (VerifyChunk (ss_strategy s) peer ci payload); try (do 2 eexists; split; [done|]; by apply handled_observe).
  - by apply acceptChunk_spec.
  - do 2 eexists. split; [done|]. by apply handled_refl.
Qed.

Lemma handleVerifyResult_spec peer id payload v s w :
  session_wf s -> exists s' w', handleVerifyResult choice st_attached peer id payload v s w = Some (s', w') /\ handled s w s' w'.
Proof using choice_perm.
  intros Hw. unfold handleVerifyResult. destruct (w_Unmarshal id) as [ci|e]; [|do 2 eexists; split; [done|]; by apply handled_refl].
  destruct v; try (do 2 eexists; split; [done|]; by apply handled_observe). by apply acceptChunk_spec.
Qed.

Lemma handleRoutingUpdate_spec peer data s w :
  session_wf s -> exists s' w', handleRoutingUpdate choice st_attached peer data s w = Some (s', w') /\ handled s w s' w'.
Proof using choice_perm.
  intros Hw. unfold handleRoutingUpdate. destruct (w_Unmarshal data) as [u|e]; [|do 2 eexists; split; [done|]; by apply handled_observe].
  destruct (law_Routing (ss_strategy s) peer u (sw_strategy s Hw)) as (st & l & e & -> & L1 & L2 & L3 & L4 & L5).
  cbn [mbind option_bind]. set (w1 := observe _ _).
  assert (session_wf (with_strategy st s)) as Hw1 by by apply wf_strategy.
  destruct (cancel_handles_spec peer l (with_strategy st s) w1 Hw1) as (m & w' & -> & Hw2 & Hg & _).
  apply handled_drain. apply handled_keeps; [done|by split|]. etrans; [|exact Hg].
  unfold w1, observe. destruct e; grow.
Qed.

Lemma handleSendComplete_spec peer h e size s w :
  session_wf s -> exists s' w', handleSendComplete choice st_attached peer h e size s w = Some (s', w') /\ handled s w s' w'.
Proof using choice_perm.
  intros Hw. unfold handleSendComplete.
  destruct (cancel_handles_spec peer [h] s w Hw) as (m & w1 & -> & Hw1 & Hg & _).
  destruct (law_ChunkSent (ss_strategy s) peer h e (sw_strategy s Hw)) as (st & E & L1 & L2 & L3 & L4 & L5).
  change (ss_strategy (with_outboundCancels m s)) with (ss_strategy s). rewrite E. cbn [mbind option_bind].
  apply handled_drain. apply handled_keeps; [by apply wf_strategy|by split|]. etrans; [exact Hg|].
  destruct e; [done|apply grows_emit].
Qed.

(** *** Peers *)

Lemma handlePeerAttached_spec conn pid s w :
  session_wf s -> N pid conn ->
  exists s' w', handlePeerAttached choice st_attached conn pid s w = Some (s', w') /\ handled s w s' w' /\
    (ss_peers s !! pid = None -> exists ob, ss_peers s' = <[pid := mk_sessionPeer conn ob false]> (ss_peers s)) /\
    (is_Some (ss_peers s !! pid) -> s' = s /\ w' = w).
Proof using choice_perm.
  intros Hw HN. unfold handlePeerAttached. destruct (ss_peers s !! pid) as [sp|] eqn:Ep.
  { do 2 eexists. split; [done|]. split; [by apply handled_refl|]. done. }
  cbn [fresh]. set (s1 := with_peers _ _). cbv zeta.
  destruct (law_Attach (ss_strategy s) pid (sw_strategy s Hw)) as (st & E & L1 & L2 & L3 & L4 & L5).
  change (ss_strategy s1) with (ss_strategy s). rewrite E. cbn [mbind option_bind].
  destruct (law_PollRouting st true L1) as (st2 & r & -> & Q1 & Q2 & Q3 & Q4 & Q5). cbn [mbind option_bind fst snd].
  assert (pid ∉ completed_peers s) as Hnc by (rewrite elem_completed; intros (sp & H & _); congruence).
  assert (completed_peers (with_strategy st2 s1) = completed_peers s) as Hcp.
  { apply set_eq. intros q. rewrite !elem_completed. unfold s1. simpl. destruct (decide (pid = q)) as [<-|].
    - rewrite lookup_insert_eq, Ep. naive_solver.
    - by rewrite lookup_insert_ne. }
  assert (session_wf (with_strategy st2 s1)) as Hw1.
  { split; [done|unfold s1; simpl; rewrite Q2, L2, (sw_attached s Hw), dom_insert_L; done| | |apply Hw| |].
    - change (ss_strategy (with_strategy st2 s1)) with st2. rewrite Hcp, Q3, L3, (sw_done s Hw). set_solver.
    - intros p h H. rewrite Hcp. destruct (sw_cancels s Hw p h H). split; [|done]. unfold s1. simpl. rewrite dom_insert_L. set_solver.
    - intros Es. simpl. rewrite Q4, L4. by apply (sw_consuming s Hw).
    - intros Es. simpl. rewrite Q4, L4. by apply (sw_decoding s Hw). }
  set (ir := match r with Some _ => _ | None => _ end).
  assert (grows w ir.2) as Hg.
  { unfold ir. destruct r; simpl; unfold observe; [etrans; [apply (grows_fresh w)|apply grows_emit]|apply (grows_fresh w)]. }
  destruct ir as [initial w1]. simpl in Hg.
  set (w2 := on_ctrl _ _ w1).
  destruct (drainPolls_spec (with_strategy st2 s1) w2 Hw1) as (s' & w' & -> & Hw' & Hk & Hg' & _).
  do 2 eexists. split; [done|]. split; [|split; [|by intros [? ?]]].
  - eapply handled_trans; [|by apply handled_keeps].
    split; [done|etrans; [exact Hg|apply grows_on_ctrl]| | |done|by left|done| |done].
    + apply carries_grows; [etrans; [exact Hg|apply grows_on_ctrl]|done|done].
    + intros p sp'. unfold s1. simpl. rewrite lookup_insert_Some. intros [[<- <-]|[_ H]]; [by right|left; by exists sp'].
    + intros _. simpl. by rewrite Q5, L5.
  - intros _. exists (w_fresh w). by rewrite (kp_peers _ _ Hk).
Qed.

Lemma cancel_is_cancelled c x w : is_Some (w_cancelled (cancel c x w) !! c).
Proof. unfold cancel. destruct (w_cancelled w !! c) eqn:E; [by rewrite E|]. simpl. rewrite lookup_insert_eq. by eexists. Qed.

Lemma grows_is_cancelled w w' c : grows w w' -> is_Some (w_cancelled w !! c) -> is_Some (w_cancelled w' !! c).
Proof. intros [_ Hc _ _] [x Hx]. exists x. by eapply lookup_weaken. Qed.

Lemma foldr_cancel (l : list (PeerID * ChunkHandle * nat)) w :
  let w' := foldr (fun kv w => cancel kv.2 Canceled w) w l in
  grows w w' /\ forall kv, kv ∈ l -> is_Some (w_cancelled w' !! kv.2).
Proof.
  induction l as [|kv l [IH1 IH2]]; simpl; [split; [done|]; by intros ? ?%elem_of_nil|].
  split; [etrans; [exact IH1|apply grows_cancel]|]. intros x [-> | Hx]%elem_of_cons; [apply cancel_is_cancelled|].
  eapply grows_is_cancelled; [apply grows_cancel|by apply IH2].
Qed.

Lemma cancelOutbound_spec peer s w :
  exists m w', cancelOutbound peer s w = (with_outboundCancels m s, w') /\ grows w w' /\
    (forall p h c, m !! (p, h) = Some c <-> ss_outboundCancels s !! (p, h) = Some c /\ p <> peer) /\
    (forall h c, ss_outboundCancels s !! (peer, h) = Some c -> is_Some (w_cancelled w' !! c)).
Proof.
  unfold cancelOutbound. do 2 eexists. split; [done|].
  destruct (foldr_cancel (map_to_list (filter (fun kv => kv.1.1 = peer) (ss_outboundCancels s))) w) as [Hg Hc].
  split; [exact Hg|]. split.
  - intros p h c. by rewrite map_lookup_filter_Some.
  - intros h c Hl. apply (Hc (peer, h, c)). by apply elem_of_map_to_list, map_lookup_filter_Some.
Qed.

Lemma cancel_reads_spec l c : forall w,
  grows w (cancel_reads l c w) /\ forall r, r ∈ l -> FxStreamEnd (rd_stream r) (Some c) ∈ w_log (cancel_reads l c w).
Proof.
  unfold cancel_reads. induction l as [|r l IH]; intros w; simpl; [split; [done|]; by intros ? ?%elem_of_nil|].
  destruct (IH (CancelRead (rd_stream r) c w)) as [Hg Hc]. split; [etrans; [apply grows_emit|exact Hg]|].
  intros r' [-> | Hr]%elem_of_cons; [|by apply Hc]. eapply grows_log; [exact Hg|]. simpl. apply elem_of_app. right.
  by apply list_elem_of_singleton.
Qed.

(** Dropping a peer leaves nothing of it behind. *)
Record dropped (peer : PeerID) s w s' w' : Prop := {
  dp_peers : ss_peers s' = delete peer (ss_peers s);
  dp_queue : ss_readQueue s' = filter (fun r => rd_peer r <> peer) (ss_readQueue s);
  dp_streams : forall r, r ∈ ss_readQueue s -> rd_peer r = peer -> FxStreamEnd (rd_stream r) (Some Unspecified) ∈ w_log w';
  dp_cancels : forall h, ss_outboundCancels s' !! (peer, h) = None;
  dp_contexts : forall h c, ss_outboundCancels s !! (peer, h) = Some c -> is_Some (w_cancelled w' !! c) }.

Lemma handlePeerDropped_spec peer s w :
  session_wf s ->
  exists s' w', handlePeerDropped peer s w = (s', w') /\ handled s w s' w' /\ dropped peer s w s' w'.
Proof.
  clear dependent choice. intros Hw. unfold handlePeerDropped. cbv zeta.
  set (w1 := match ss_peers s !! peer with Some _ => _ | None => w end).
  assert (grows w w1) as Hg1 by (unfold w1; destruct (ss_peers s !! peer); [apply grows_on_ctrl|done]).
  destruct (cancel_reads_spec (filter (fun r => rd_peer r = peer) (ss_readQueue s)) Unspecified w1) as [Hg2 Hc2].
  set (w2 := cancel_reads _ _ w1) in *. set (s1 := with_peers _ _).
  destruct (cancelOutbound_spec peer s1 w2) as (m & w3 & -> & Hg3 & Hm & Hc3).
  pose proof (law_Detach (ss_strategy s) peer false (sw_strategy s Hw)) as (L1 & L2 & L3 & L4 & L5). simpl in *.
  do 2 eexists. split; [done|].
  assert (completed_peers (with_strategy (DetachPeer (ss_strategy s) peer false) (with_outboundCancels m s1)) = completed_peers s ∖ {[peer]}) as Hcp.
  { apply set_eq. intros q. rewrite elem_of_difference, not_elem_of_singleton, !elem_completed. unfold s1. simpl.
    setoid_rewrite lookup_delete_Some. naive_solver. }
  assert (grows w w3) as Hg by (etrans; [exact Hg1|]; etrans; [exact Hg2|exact Hg3]).
  split.
  - split; simpl; try done; [| | |by left].
    + split; [done|unfold s1; simpl; by rewrite L4, (sw_attached s Hw), dom_delete_L| | |apply Hw| |].
      * rewrite Hcp. simpl. by rewrite L5, (sw_done s Hw).
      * intros p h [c Hc]. simpl in Hc. apply Hm in Hc as [Hc Hne]. destruct (sw_cancels s Hw p h) as [H1 H2]; [by eexists|].
        rewrite Hcp. unfold s1. simpl. rewrite dom_delete_L. set_solver.
      * simpl. rewrite L2. apply (sw_consuming s Hw).
      * simpl. rewrite L2. apply (sw_decoding s Hw).
    + intros st [H|[(r & Hr & <-)|[c Hc]]]; [by left| |right; right; exists c; by eapply grows_log].
      destruct (decide (rd_peer r = peer)).
      * right. right. exists (Some Unspecified). eapply grows_log; [exact Hg3|]. apply Hc2. by apply list_elem_of_filter.
      * right. left. exists r. split; [|done]. simpl. by apply list_elem_of_filter.
    + intros p sp'. unfold s1. simpl. rewrite lookup_delete_Some. intros [_ H]. left. by exists sp'.
  - split; simpl; try done.
    + intros r Hr <-. eapply grows_log; [exact Hg3|]. apply Hc2. by apply list_elem_of_filter.
    + intros h. destruct (m !! (peer, h)) eqn:E; [|done]. apply Hm in E as [_ ?]. done.
Qed.

Lemma handlePeerCompleted_spec peer s w :
  session_wf s ->
  exists s' w', handlePeerCompleted peer s w = (s', w') /\ handled s w s' w' /\
    (peer ∈ dom (ss_peers s) -> peer ∈ completed_peers s' /\ forall h, ss_outboundCancels s' !! (peer, h) = None).
Proof.
  clear dependent choice. intros Hw. unfold handlePeerCompleted. destruct (ss_peers s !! peer) as [sp|] eqn:Ep.
  2:{ do 2 eexists. split; [done|]. split; [by apply handled_refl|]. rewrite elem_of_dom, Ep. by intros [? ?]. }
  destruct (sp_completed sp) eqn:Ec.
  { do 2 eexists. split; [done|]. split; [by apply handled_refl|].
    assert (peer ∈ completed_peers s) as Hin by (apply elem_completed; eauto). intros _. split; [done|].
    intros h. destruct (ss_outboundCancels s !! (peer, h)) eqn:E; [|done].
    destruct (sw_cancels s Hw peer h) as [_ ?]; [by eexists|done]. }
  cbv zeta. set (s1 := with_peers _ s).
  destruct (cancelOutbound_spec peer s1 w) as (m & w' & -> & Hg & Hm & _).
  pose proof (law_Detach (ss_strategy s) peer true (sw_strategy s Hw)) as (L1 & L2 & L3 & L4 & L5). simpl in *.
  do 2 eexists. split; [done|].
  set (s' := with_strategy _ _).
  assert (completed_peers s' = completed_peers s ∪ {[peer]}) as Hcp.
  { apply set_eq. intros q. rewrite elem_of_union, elem_of_singleton, !elem_completed. unfold s', s1. simpl.
    destruct (decide (peer = q)) as [<-|]; [rewrite lookup_insert_eq; naive_solver|]. rewrite lookup_insert_ne by done. naive_solver. }
  assert (dom (ss_peers s') = dom (ss_peers s)) as Hdom.
  { unfold s', s1. simpl. rewrite dom_insert_L. apply elem_of_dom_2 in Ep. set_solver. }
  split.
  - split; simpl; try done; [|by apply carries_grows| |by left].
    2:{ intros p sp'. unfold s1. simpl. rewrite lookup_insert_Some. intros [[<- <-]|[_ H]]; left; [by exists sp|by exists sp']. }
    split; [done|rewrite Hdom; simpl; by rewrite L4, (sw_attached s Hw)| | |apply Hw| |].
    + rewrite Hcp. simpl. rewrite L5, (sw_done s Hw), (sw_attached s Hw). apply elem_of_dom_2 in Ep. set_solver.
    + intros p h [c Hc]. simpl in Hc. apply Hm in Hc as [Hc Hne]. destruct (sw_cancels s Hw p h) as [H1 H2]; [by eexists|].
      rewrite Hcp, Hdom. set_solver.
    + simpl. rewrite L2. apply (sw_consuming s Hw).
    + simpl. rewrite L2. apply (sw_decoding s Hw).
  - intros _. split; [rewrite Hcp; set_solver|]. intros h. simpl. destruct (m !! (peer, h)) eqn:E; [|done].
    apply Hm in E as [_ ?]. done.
Qed.

(** *** All handlers *)

Inductive session_event :=
| SevChunkStream (peer : PeerID) (chunkID : bytes) (dataLen : Z) (stream : nat)
| SevChunkData (peer : PeerID) (chunkID payload : bytes)
| SevVerifyResult (peer : PeerID) (chunkID payload : bytes) (v : Verdict)
| SevRoutingUpdate (peer : PeerID) (data : bytes)
| SevSendComplete (peer : PeerID) (h : ChunkHandle) (e : option error) (size : Z)
| SevPeerAttached (conn : nat) (pid : PeerID)
| SevPeerDropped (peer : PeerID)
| SevPeerCompleted (peer : PeerID)
| SevReadDone.

Definition handle_session (ev : session_event) s w : option (session_state St * world) :=
  match ev with
  | SevChunkStream p id len st => handleChunkStream p id len st s w
  | SevChunkData p id d => handleChunkData choice st_attached p id d s w
  | SevVerifyResult p id d v => handleVerifyResult choice st_attached p id d v s w
  | SevRoutingUpdate p d => handleRoutingUpdate choice st_attached p d s w
  | SevSendComplete p h e n => handleSendComplete choice st_attached p h e n s w
  | SevPeerAttached c p => handlePeerAttached choice st_attached c p s w
  | SevPeerDropped p => Some (handlePeerDropped p s w)
  | SevPeerCompleted p => Some (handlePeerCompleted p s w)
  | SevReadDone => drainReads s w
  end.

Lemma drainReads_spec s w :
  session_wf s ->
  exists s' w', drainReads s w = Some (s', w') /\ handled s w s' w' /\
    (ss_readQueue s' = [] \/ length (ss_readers s') = maxConcurrentReads).
Proof using StrategyLaws0. intros Hw. by apply drainReads_loop_spec. Qed.

(** What each event must achieve, beyond the invariant: a stream handed in is
    taken, a new peer is attached with its connection and one attached before is
    left alone, a dropped peer leaves nothing, a completed peer is recorded and
    no longer sent to, a finished send is released, and after a read ends every
    slot is busy or no read waits. *)
Definition settles (ev : session_event) s w s' w' : Prop :=
  match ev with
  | SevChunkStream p id len st => tracked s' w' st /\ taken p id len st s w s' w'
  | SevSendComplete p h _ _ => forall c, ss_outboundCancels s !! (p, h) = Some c -> is_Some (w_cancelled w' !! c)
  | SevPeerAttached conn p =>
      match ss_peers s !! p with
      | None => exists ob, ss_peers s' = <[p := mk_sessionPeer conn ob false]> (ss_peers s)
      | Some _ => s' = s /\ w' = w
      end
  | SevPeerDropped p => dropped p s w s' w' /\ p ∉ st_attached (ss_strategy s')
  | SevPeerCompleted p =>
      p ∈ dom (ss_peers s) -> p ∈ completed_peers s' /\ forall h, ss_outboundCancels s' !! (p, h) = None
  | SevReadDone => ss_readQueue s' = [] \/ length (ss_readers s') = maxConcurrentReads
  | SevChunkData _ _ _ | SevVerifyResult _ _ _ _ | SevRoutingUpdate _ _ => True
  end.

Lemma handleSendComplete_releases peer h e size s w s' w' c :
  session_wf s -> handleSendComplete choice st_attached peer h e size s w = Some (s', w') ->
  ss_outboundCancels s !! (peer, h) = Some c -> is_Some (w_cancelled w' !! c).
Proof using choice_perm.
  intros Hw E Hc. revert E. unfold handleSendComplete.
  destruct (cancel_handles_spec peer [h] s w Hw) as (m & w1 & E1 & Hw1 & _). rewrite E1.
  assert (is_Some (w_cancelled w1 !! c)) as Hx.
  { simpl in E1. rewrite Hc in E1. injection E1 as _ <-. apply cancel_is_cancelled. }
  destruct (law_ChunkSent (ss_strategy s) peer h e (sw_strategy s Hw)) as (st & E & L1 & L2 & L3 & L4 & L5).
  change (ss_strategy (with_outboundCancels m s)) with (ss_strategy s). rewrite E. cbn [mbind option_bind].
  set (w2 := match e with None => _ | Some _ => w1 end).
  destruct (drainPolls_spec (with_strategy st (with_outboundCancels m s)) w2) as (s2 & w3 & -> & _ & _ & Hg & _); [by apply wf_strategy|].
  intros [= <- <-]. eapply grows_is_cancelled; [exact Hg|]. unfold w2. by destruct e.
Qed.

Lemma handle_session_ok ev s w :
  session_wf s -> (forall c p, ev = SevPeerAttached c p -> N p c) ->
  exists s' w', handle_session ev s w = Some (s', w') /\ handled s w s' w' /\ settles ev s w s' w'.
Proof using choice_perm.
  intros Hw HN. destruct ev as [p id len st|p id d|p id d v|p d|p h e n|c p|p|p|]; simpl.
  - destruct (handleChunkStream_spec p id len st s w Hw) as (s' & w' & E & H & T & _). exists s', w'.
    split; [done|]. split; [done|]. split; [done|by apply handleChunkStream_taken].
  - destruct (handleChunkData_spec p id d s w Hw) as (s' & w' & E & H). by exists s', w'.
  - destruct (handleVerifyResult_spec p id d v s w Hw) as (s' & w' & E & H). by exists s', w'.
  - destruct (handleRoutingUpdate_spec p d s w Hw) as (s' & w' & E & H). by exists s', w'.
  - destruct (handleSendComplete_spec p h e n s w Hw) as (s' & w' & E & H). exists s', w'. split; [done|]. split; [done|].
    intros c. by eapply handleSendComplete_releases.
  - destruct (handlePeerAttached_spec c p s w Hw (HN c p eq_refl)) as (s' & w' & E & H & H1 & H2). exists s', w'.
    split; [done|]. split; [done|]. destruct (ss_peers s !! p); [by apply H2|by apply H1].
  - destruct (handlePeerDropped_spec p s w Hw) as (s' & w' & -> & H & D). exists s', w'. split; [done|]. split; [done|]. split; [done|].
    rewrite (sw_attached s' (hd_wf _ _ _ _ H)), (dp_peers _ _ _ _ _ D), dom_delete_L. set_solver.
  - destruct (handlePeerCompleted_spec p s w Hw) as (s' & w' & -> & H & C). by exists s', w'.
  - destruct (drainReads_spec s w Hw) as (s' & w' & E & H & Q). by exists s', w'.
Qed.

(** A dispatch of the strategy is never dropped silently: a chunk for an
    attached, uncompleted peer is put at the end of that peer's outbox with a
    fresh context that the session can cancel, or, when its identifier cannot
    be encoded or the outbox holds 16 chunks, the strategy is told of the
    failure; it is never reported for a missing peer. *)
Theorem sendChunk_accounted d s w :
  session_wf s -> cd_peer d ∈ st_attached (ss_strategy s) ∖ st_done (ss_strategy s) ->
  exists s' w', sendChunk d s w = Some (s', w') /\ session_wf s' /\ sent_or_reported d s w s' w'.
Proof.
  intros Hw Hp. rewrite (sw_attached s Hw), (sw_done s Hw) in Hp. apply elem_of_difference in Hp as [H1 H2].
  destruct (sendChunk_spec d s w Hw H1 H2) as (s' & w' & E & Hw' & _ & _ & _ & Hs). exists s', w'.
  by split.
Qed.

(** When a session is idle: never before a first peer attached; while not
    reconstructed exactly when no peer is left, and once reconstructed (or at
    the origin) exactly when every peer left is completed. *)
Theorem idle_spec s :
  idle s = true <->
  ss_everHadPeers s = true /\
  (ss_stage s = stageConsuming \/ ss_stage s = stageDecoding -> ss_peers s = ∅) /\
  (ss_stage s = stageReconstructed \/ ss_stage s = stageOrigin ->
     forall p sp, ss_peers s !! p = Some sp -> sp_completed sp = true).
Proof.
  clear dependent choice. clear N. unfold idle. destruct (ss_everHadPeers s); simpl; [|naive_solver].
  destruct (ss_stage s); simpl; rewrite bool_decide_eq_true; unfold map_Forall; naive_solver.
Qed.

(** *** Closing *)

Definition close_requested (c : ctrlOutState) (k : sessionKey) : Prop :=
  closed c = true \/ exists o, sessions c !! k = Some o /\ close o = true.

Lemma closeSession_requests c k : close_requested (closeSession c k) k.
Proof.
  unfold closeSession, close_requested. destruct (closed c) eqn:E; [by left|]. right.
  destruct (CtrlOut.session c k) as [o c1]. simpl. rewrite lookup_insert_eq. by eexists.
Qed.

Lemma closeSession_keeps c k k' : close_requested c k -> close_requested (closeSession c k') k.
Proof.
  intros H. destruct (decide (k' = k)) as [->|Hne]; [apply closeSession_requests|].
  unfold closeSession, close_requested in *. destruct (closed c) eqn:E; [by left|].
  destruct H as [?|(o & Ho & Hc)]; [congruence|]. right. unfold CtrlOut.session.
  destruct (sessions c !! k'); simpl; rewrite !lookup_insert_ne by done; by exists o.
Qed.

Lemma each_close_requests k peers order : forall w,
  (forall p sp, p ∈ order -> peers !! p = Some sp ->
     close_requested (ctrlState (each_peer (fun c => closeSession c k) peers order w) (sp_conn sp)) k) /\
  (forall conn, close_requested (ctrlState w conn) k ->
     close_requested (ctrlState (each_peer (fun c => closeSession c k) peers order w) conn) k).
Proof.
  assert (forall conn c w, close_requested (ctrlState w conn) k ->
    close_requested (ctrlState (on_ctrl c (fun c => closeSession c k) w) conn) k) as Hon.
  { intros conn c w H. unfold ctrlState, on_ctrl in *. simpl. destruct (decide (c = conn)) as [->|].
    - rewrite lookup_insert_eq. simpl. by apply closeSession_keeps.
    - by rewrite lookup_insert_ne. }
  induction order as [|q order IH]; intros w; simpl; [split; [by intros ? ? ?%elem_of_nil|done]|].
  set (w1 := match peers !! q with Some _ => _ | None => w end). destruct (IH w1) as [IH1 IH2]. split.
  - intros p sp [-> | Hp]%elem_of_cons Hsp; [|by apply (IH1 p)]. apply IH2. unfold w1. rewrite Hsp.
    unfold ctrlState at 1, on_ctrl. simpl. rewrite lookup_insert_eq. apply closeSession_requests.
  - intros conn H. apply IH2. unfold w1. destruct (peers !! q); [by apply Hon|done].
Qed.

Lemma each_peer_cancelled f peers order : forall w, w_cancelled (each_peer f peers order w) = w_cancelled w.
Proof. induction order as [|q l IH]; intros v; simpl; [done|]. rewrite IH. by destruct (peers !! q). Qed.

Lemma cancel_reads_ctrl l c : forall w, w_ctrl (cancel_reads l c w) = w_ctrl w.
Proof. unfold cancel_reads. induction l as [|r l IH]; intros v; simpl; [done|]. by rewrite IH. Qed.

Lemma readers_end sctx l : forall w,
  let w' := foldl (fun w t => CancelRead (rd_stream (rt_read t)) (reader_code w sctx t) w) w l in
  grows w w' /\ w_ctrl w' = w_ctrl w /\ forall t, t ∈ l -> exists c, FxStreamEnd (rd_stream (rt_read t)) c ∈ w_log w'.
Proof.
  induction l as [|t l IH]; intros w; simpl; [split; [done|]; split; [done|]; by intros ? ?%elem_of_nil|].
  destruct (IH (CancelRead (rd_stream (rt_read t)) (reader_code w sctx t) w)) as (Hg & Hc & Hs).
  split; [etrans; [apply grows_emit|exact Hg]|]. split; [by rewrite Hc|].
  intros t' [-> | Ht]%elem_of_cons; [|by apply Hs]. eexists. eapply grows_log; [exact Hg|]. simpl.
  apply elem_of_app. right. by apply list_elem_of_singleton.
Qed.

Lemma closeWithCode_spec code s w :
  exists s' w', closeWithCode choice code s w = (s', w') /\ grows w w' /\ ss_readers s' = [] /\ ss_readQueue s' = [] /\
    (forall st, tracked s w st -> exists c, FxStreamEnd st c ∈ w_log w') /\
    is_Some (w_cancelled w' !! ss_ctx s) /\
    (w_cancelled w !! ss_ctx s = None -> w_cancelled w' !! ss_ctx s = Some (close_cause code)) /\
    (forall p sp, ss_peers s !! p = Some sp -> close_requested (ctrlState w' (sp_conn sp)) (key s)) /\
    last (w_log w') = Some (FxStrategyClosed (ss_messageID s)).
Proof using choice_perm.
  unfold closeWithCode. cbv zeta.
  set (w1 := notifyPeersSessionDone choice s w). set (w2 := cancel (ss_ctx s) (close_cause code) w1).
  destruct (cancel_reads_spec (ss_readQueue s) code w2) as [Hg3 Hc3]. set (w3 := cancel_reads _ _ w2) in *.
  destruct (readers_end (ss_ctx s) (ss_readers s) w3) as (Hg4 & Ec4 & Hr4). simpl in Hr4.
  assert (grows w w1) as Hg1 by (etrans; [apply (grows_range (dom (ss_peers s)))|]; apply each_peer_grows).
  assert (grows w1 w2) as Hg2 by apply grows_cancel.
  do 2 eexists. split; [done|]. set (w4 := foldl _ w3 (ss_readers s)) in *.
  assert (grows w w4) as Hg by (etrans; [exact Hg1|]; etrans; [exact Hg2|]; etrans; [exact Hg3|exact Hg4]).
  split; [etrans; [exact Hg|apply grows_emit]|]. split; [done|]. split; [done|]. split; [|split; [|split; [|split]]].
  - assert (forall e, e ∈ w_log w4 -> e ∈ w_log (emit (FxStrategyClosed (ss_messageID s)) w4)) as Hin by (intros; by eapply grows_log; [apply grows_emit|]).
    intros st [(t & Ht & <-)|[(r & Hr & <-)|[c Hc]]].
    + destruct (Hr4 t Ht) as [c Hc]. exists c. by apply Hin.
    + exists (Some code). apply Hin. eapply grows_log; [exact Hg4|by apply Hc3].
    + exists c. apply Hin. by eapply grows_log.
  - eapply (grows_is_cancelled w4); [apply grows_emit|]. eapply (grows_is_cancelled w3); [done|]. eapply (grows_is_cancelled w2); [done|].
    apply cancel_is_cancelled.
  - intros Hn. assert (w_cancelled w2 !! ss_ctx s = Some (close_cause code)) as H2.
    { unfold w2, cancel. assert (w_cancelled w1 = w_cancelled w) as ->.
      { unfold w1, notifyPeersSessionDone. simpl. by rewrite each_peer_cancelled. }
      rewrite Hn. simpl. by rewrite lookup_insert_eq. }
    simpl. eapply lookup_weaken; [exact H2|]. etrans; [apply Hg3|apply Hg4].
  - intros p sp Hp.
    assert (forall e, ctrlState (emit e w4) (sp_conn sp) = ctrlState w1 (sp_conn sp)) as ->.
    { intros e. unfold ctrlState. simpl. rewrite Ec4. unfold w3. rewrite cancel_reads_ctrl.
      unfold w2, cancel. by destruct (w_cancelled w1 !! _). }
    unfold w1, notifyPeersSessionDone. simpl. apply (proj1 (each_close_requests (key s) (ss_peers s) _ _) p); [|done].
    rewrite choice_perm. apply elem_of_elements. by apply elem_of_dom_2 in Hp.
  - simpl. by rewrite last_snoc.
Qed.
End laws.

Section safe.
Context {CI R St : Type} `{!ChunkIdentI CI} `{!Wire R} `{!Strategy CI R St} `{!StrategyLaws CI R St}.
Context (choice : nat -> gset bytes -> list bytes).
Hypothesis choice_perm : forall n X, choice n X ≡ₚ elements X.

(** C4. Every handler of a session is safe, for any strategy that honours the
    interface's contract and any map iteration order: it does not panic, and
    keeps the session's invariant (the session and the strategy agree on the
    attached and completed peers, cancel functions are only kept for attached
    uncompleted peers, at most 64 reads run, completeness and stage agree); no
    chunk stream is lost: a stream that was being read, queued or cancelled
    still is, and the stream an event hands in is read when a slot is free,
    queued last when none is, and cancelled when (and only when) its chunk is
    malformed, too long, late or already held; after a read ends no read waits
    while a slot is free; a dropped peer leaves nothing behind, a completed one
    is no longer sent to, a finished send's context is cancelled, and a peer is
    attached once; effects and cancellations are never undone; the stage never
    goes back, a handler moves it only from consuming to decoding, and then it
    has started the decode; while decoding the value Decode returns does not
    change; only attaching brings a new connection. *)
Theorem session_handlers_safe ev (s : session_state St) w :
  session_wf s ->
  exists s' w', handle_session choice ev s w = Some (s', w') /\
    handled (fun p c => ev = SevPeerAttached c p) s w s' w' /\ settles ev s w s' w'.
Proof using choice_perm. intros Hw. apply handle_session_ok; [done|done|]. by intros c p ->. Qed.

(** A peer that drops leaves nothing behind in the session: it is gone from
    the session and from the strategy, its queued streams are cancelled, every
    send to it is cancelled and forgotten, and no other peer's queued read is
    touched. *)
Theorem peer_dropped_clean peer (s : session_state St) w :
  session_wf s ->
  exists s' w', handlePeerDropped peer s w = (s', w') /\ dropped peer s w s' w' /\
    peer ∉ st_attached (ss_strategy s') /\ session_wf s'.
Proof.
  intros Hw. destruct (handlePeerDropped_spec (fun _ _ => False) peer s w Hw) as (s' & w' & E & H & D). exists s', w'.
  clear dependent choice. split; [done|]. split; [done|]. split; [|apply H]. rewrite (sw_attached s' (hd_wf _ _ _ _ _ H)), (dp_peers _ _ _ _ _ D).
  rewrite dom_delete_L. set_solver.
Qed.

(** Closing a session releases everything: every stream it was reading or
    had queued is cancelled, its context is cancelled with the cause of the
    code, every attached peer's control state has the session's close
    requested, and the strategy is closed last. *)
Theorem close_releases code (s : session_state St) w :
  exists s' w', closeWithCode choice code s w = (s', w') /\ grows w w' /\ ss_readers s' = [] /\ ss_readQueue s' = [] /\
    (forall st, tracked s w st -> exists c, FxStreamEnd st c ∈ w_log w') /\
    is_Some (w_cancelled w' !! ss_ctx s) /\
    (w_cancelled w !! ss_ctx s = None -> w_cancelled w' !! ss_ctx s = Some (close_cause code)) /\
    (forall p sp, ss_peers s !! p = Some sp -> close_requested (ctrlState w' (sp_conn sp)) (key s)) /\
    last (w_log w') = Some (FxStrategyClosed (ss_messageID s)).
Proof using choice_perm. by apply closeWithCode_spec. Qed.
End safe.
