(* ===== verification/Reader.v ===== *)
(** * Reader: the payload readers of a session

    The frames of a broadcast stream (src/broadcast/wire.go), the code a failed
    stream is cancelled with (src/broadcast/protocol.go) and the end of the
    goroutine that [handleChunkStream] starts for each admitted chunk
    (src/broadcast/session.go). *)

From S2P Require Import Prelude Wire Types CtrlOut Session.
Open Scope Z_scope.

#[local] Set Default Proof Using "Type".

Definition maxBroadcastFrame : Z := 2 ^ 20.
Definition dataFrame : Z := 1.

Inductive read_err := ReadFailed (e : frame_err) | errUnexpectedFrame | UnmarshalFailed (e : error).

(** [readFrame]: the message is decoded by the [Wire] instance of its type. *)
Definition readFrame {M} `{!Types.Wire M} (r : reader) (want : Z) : result read_err M * reader :=
  match ReadFrame r maxBroadcastFrame with
  | (Err e, r') => (Err (ReadFailed e), r')
  | (Ok (typ, data), r') =>
      if typ =? want then
        (match w_Unmarshal data with Ok m => Ok m | Err e => Err (UnmarshalFailed e) end, r')
      else (Err errUnexpectedFrame, r')
  end.

Definition writeFrame {M} `{!Types.Wire M} (typ : Z) (msg : M) : result error bytes :=
  let! data := w_Marshal msg in Ok (AppendFrame [] typ data).

Definition readChunkData (r : reader) (dataLen : Z) : result read_err bytes :=
  match ReadFrame r dataLen with
  | (Err (FrameIO EOF), _) | (Err ErrFrameTooLarge, _) => Err errUnexpectedFrame
  | (Err e, _) => Err (ReadFailed e)
  | (Ok (typ, data), r') =>
      if negb (typ =? dataFrame) || negb (Z.of_nat (length data) =? dataLen) then Err errUnexpectedFrame
      else match (read_full r' 1).1 with
           | Err EOF => Ok data
           | Ok _ => Err errUnexpectedFrame
           | Err e => Err (ReadFailed (FrameIO e))
           end
  end.

(** [streamCancellationCode(errors.Join(err, cause))]. *)
Definition joinedCode (e : read_err) (c : option cause) : Code :=
  match e with
  | ReadFailed (FrameIO ErrDeadline) => Timeout
  | _ => match c with
         | Some errChunkRedundant => Redundant
         | _ => match e, c with
                | errUnexpectedFrame, _ | _, Some errStreamRefused => Refused
                | _, _ => Unspecified
                end
         end
  end.

Section reader.
Context {St : Type}.
Implicit Types (s : session_state St) (w : world).

(** The cause of the reader's context, a group's or the session's. *)
Definition read_cause w s (t : readTask) : option cause :=
  match w_cancelled w !! rt_ctx t with Some c => Some c | None => w_cancelled w !! ss_ctx s end.

(** The [i]-th reader ends with [r] what its stream held: [OnCancel]'s callback
    has run if the context ended, a failed read cancels the stream, and the
    slot is released.  The payload is what it has to post. *)
Definition endRead (i : nat) (r : reader) s w : option (session_state St * world * option bytes) :=
  t ← ss_readers s !! i;
  let st := rd_stream (rt_read t) in
  let s' := with_readers (delete i (ss_readers s)) s in
  let cz := read_cause w s t in
  let w := match cz with Some c => CancelRead st (streamCancellationCode c) w | None => w end in
  Some (match readChunkData r (rd_dataLen (rt_read t)) with
        | Err e => (s', CancelRead st (joinedCode e cz) w, None)
        | Ok buf => (s', emit (FxStreamEnd st None) w, Some buf)
        end).
End reader.

(** ** Payloads *)

(** Exactly one DATA frame of the announced length and then the FIN. *)
Lemma readChunkData_ok r dataLen data :
  0 <= dataLen < 2 ^ 63 ->
  readChunkData r dataLen = Ok data <->
  rd_data r = AppendFrame [] dataFrame data /\ rd_end r = EOF /\ Z.of_nat (length data) = dataLen.
Proof.
  intros Hd. unfold readChunkData. split.
  - destruct (ReadFrame r dataLen) as [[[typ d]|e] r'] eqn:E; [|by destruct e as [[]| | |]].
    destruct (typ =? dataFrame) eqn:Et; [|done]. destruct (Z.of_nat (length d) =? dataLen) eqn:El; [|done]. simpl.
    apply Z.eqb_eq in Et as ->. apply Z.eqb_eq in El.
    destruct (ReadFrame_consumes r dataLen dataFrame d r' Hd E) as (E1 & E2 & _). unfold read_full.
    destruct (rd_data r') as [|b l]; simpl; [|done]. destruct (rd_end r') eqn:Ee; try done. intros [= <-].
    rewrite app_nil_r in E1. by rewrite E1, <-E2.
  - intros (E1 & E2 & E3). destruct r as [bs e]. simpl in *. subst.
    rewrite <-(app_nil_r (AppendFrame _ _ _)), ReadFrame_append by (unfold dataFrame; lia). simpl.
    by rewrite (proj2 (Z.eqb_eq _ _)).
Qed.

(** A chunk's payload is accepted exactly when the stream, after its header,
    is one canonical DATA frame of the announced length followed by the FIN: no
    other bytes, frame type, length or end of the stream is accepted, and no
    chunk as the sender writes it is refused. *)
Theorem readChunkData_exact r dataLen data :
  0 <= dataLen <= MaxUint32 ->
  readChunkData r dataLen = Ok data <->
  rd_data r = AppendFrame [] dataFrame data /\ rd_end r = EOF /\ Z.of_nat (length data) = dataLen.
Proof. unfold MaxUint32. intros. apply readChunkData_ok. lia. Qed.

Lemma readChunkData_exact_witness :
  readChunkData (mk_reader [Byte.x01; Byte.x02; Byte.x07; Byte.x08] EOF) 2 = Ok [Byte.x07; Byte.x08].
Proof. apply readChunkData_exact; [unfold MaxUint32; lia|]. split; [reflexivity|]. split; reflexivity. Defined.

Section laws.
Context {CI R St : Type} `{!ChunkIdentI CI} `{!Types.Wire R} `{!Strategy CI R St} `{!StrategyLaws CI R St}.
Implicit Types (s : session_state St) (w : world).

(** A reader that ends frees its slot, loses no stream and posts a payload only
    of the announced length. *)
Lemma endRead_spec N i r s w :
  session_wf s -> (i < length (ss_readers s))%nat ->
  exists s' w' d, endRead i r s w = Some (s', w', d) /\ handled N s w s' w' /\
    ss_readers s' = delete i (ss_readers s) /\ ss_readQueue s' = ss_readQueue s.
Proof.
  intros Hw Hi. destruct (lookup_lt_is_Some_2 _ _ Hi) as [t Ht]. unfold endRead. rewrite Ht. cbn [mbind option_bind].
  set (s' := with_readers _ s). set (w1 := match read_cause w s t with Some _ => _ | None => w end).
  assert (grows w w1) as Hg1 by (unfold w1; destruct (read_cause w s t); [apply grows_emit|done]).
  assert (forall how, handled N s w s' (emit (FxStreamEnd (rd_stream (rt_read t)) how) w1)) as Hok.
  { intros how. assert (grows w (emit (FxStreamEnd (rd_stream (rt_read t)) how) w1)) as Hg by (etrans; [exact Hg1|apply grows_emit]).
    apply (handled_reads N s w _ (delete i (ss_readers s)) (ss_readQueue s) (ss_dedupGroups s)); [done| |done|].
    - etrans; [|apply Hw]. rewrite length_delete by done. lia.
    - intros st [(t' & Hin & <-)|[Hq|[c Hc]]].
      + apply list_elem_of_lookup in Hin as [j Hj]. destruct (decide (j = i)) as [->|Hne].
        * simplify_eq. right. right. exists how. simpl. apply elem_of_app. right. by apply list_elem_of_singleton.
        * left. exists t'. split; [|done]. simpl. destruct (decide (j < i)%nat).
          -- apply (list_elem_of_lookup_2 _ j). by rewrite list_lookup_delete_lt.
          -- apply (list_elem_of_lookup_2 _ (j - 1)). rewrite list_lookup_delete_ge by lia. by replace (S (j - 1)) with j by lia.
      + right. by left.
      + right. right. exists c. by eapply grows_log. }
  destruct (readChunkData _ _); do 3 eexists; (split; [done|]); (split; [apply Hok|done]).
Qed.
End laws.
