(* ===== verification/Channel.v ===== *)
(** * Channel: the channel actor (src/broadcast/channel.go, the events of events.go)

    One channel owns its members, its sessions and the chunk streams parked for
    messages whose session does not exist yet.  [handle] processes one event of
    the inbox; [now] is the clock it reads.  A chunk stream, a connection and a
    context are numbers as in [Session]. *)

From S2P Require Import Prelude Wire Types CtrlOut Session.
Open Scope Z_scope.

#[local] Set Default Proof Using "Type".

Definition maxParkedChunks : nat := 32.
(** Five minutes in nanoseconds. *)
Definition activeSessionTTL : Z := 300 * 10 ^ 9.

(** ** Events *)

Record channelChunkStream := mk_chunkStream {
  cs_peerID : PeerID;
  cs_objectId : MessageID;
  cs_chunkId : bytes;
  cs_dataLength : Z;
  cs_stream : nat }.

Inductive channelEvent (St : Type) :=
| channelExpiry
| channelReadDone (msg : MessageID)
| channelChunk (e : channelChunkStream)
| channelChunkData (msg : MessageID) (peer : PeerID) (chunkID payload : bytes)
| channelSessionOpen (peer : PeerID) (objectId : MessageID) (preamble initialUpdate : bytes)
| channelPeerChange (peer : PeerID) (peerRef : option nat)
| channelPublish (msg : MessageID) (st : St) (preambleData : bytes)
| channelChunkSent (msg : MessageID) (peer : PeerID) (h : ChunkHandle) (err : option error) (size : Z)
| channelRoutingUpdate (peer : PeerID) (msg : MessageID) (data : bytes)
| channelPeerReconstructed (msg : MessageID) (peer : PeerID)
| channelPeerSessionEnded (msg : MessageID) (peer : PeerID) (conn : nat)
| channelVerifyResult (msg : MessageID) (peer : PeerID) (chunkID payload : bytes) (v : Verdict)
| channelDecoded (msg : MessageID) (r : result error bytes).
Arguments channelExpiry {St}.
Arguments channelReadDone {St}.
Arguments channelChunk {St}.
Arguments channelChunkData {St}.
Arguments channelSessionOpen {St}.
Arguments channelPeerChange {St}.
Arguments channelPublish {St}.
Arguments channelChunkSent {St}.
Arguments channelRoutingUpdate {St}.
Arguments channelPeerReconstructed {St}.
Arguments channelPeerSessionEnded {St}.
Arguments channelVerifyResult {St}.
Arguments channelDecoded {St}.

(** ** State *)

Record parkedGroup := mk_parked { pg_at : Z; pg_streams : list channelChunkStream }.

(** The subscriber's Go channel: its capacity, everything sent on it and how many
    of those the subscriber has received; the rest is buffered. *)
Record subscription := mk_sub { sub_cap : nat; sub_sent : list FullMessage; sub_taken : nat }.

Record channel_state (St : Type) := mk_channel {
  tr_id : ChannelID;
  tr_sub : option subscription;
  tr_members : gmap PeerID nat;
  tr_sessions : gmap MessageID (session_state St);
  tr_parked : gmap MessageID parkedGroup }.
Arguments mk_channel {St}.
Arguments tr_id {St}.
Arguments tr_sub {St}.
Arguments tr_members {St}.
Arguments tr_sessions {St}.
Arguments tr_parked {St}.

Section channel.
Context {CI R P St : Type} `{!ChunkIdentI CI} `{!Wire R} `{!Wire P} `{!Strategy CI R St}.
Context (scheme : Scheme CI R P St).
Context (choice : nat -> gset bytes -> list bytes) (attached : St -> gset PeerID).

Implicit Types (tr : channel_state St) (s : session_state St) (w : world).

Definition with_sessions (m : gmap MessageID (session_state St)) tr : channel_state St :=
  mk_channel (tr_id tr) (tr_sub tr) (tr_members tr) m (tr_parked tr).
Definition with_parked (m : gmap MessageID parkedGroup) tr : channel_state St :=
  mk_channel (tr_id tr) (tr_sub tr) (tr_members tr) (tr_sessions tr) m.
Definition with_members (m : gmap PeerID nat) tr : channel_state St :=
  mk_channel (tr_id tr) (tr_sub tr) m (tr_sessions tr) (tr_parked tr).
Definition put_sess (msg : MessageID) s tr : channel_state St := with_sessions (<[msg := s]> (tr_sessions tr)) tr.

(** [AttachChannel]'s initial state. *)
Definition new_channel (id : ChannelID) : channel_state St := mk_channel id None ∅ ∅ ∅.

Definition Subscribe (cap : nat) tr : result error (channel_state St) :=
  match tr_sub tr with
  | Some _ => Err "channel already has a subscriber"%string
  | None => if (cap =? 0)%nat then Err "subscriber channel must be buffered"%string
            else Ok (mk_channel (tr_id tr) (Some (mk_sub cap [] 0)) (tr_members tr) (tr_sessions tr) (tr_parked tr))
  end.

(** The subscriber receives the next message. *)
Definition receive tr : option (FullMessage * channel_state St) :=
  sub ← tr_sub tr;
  m ← sub_sent sub !! sub_taken sub;
  Some (m, mk_channel (tr_id tr) (Some (mk_sub (sub_cap sub) (sub_sent sub) (S (sub_taken sub)))) (tr_members tr) (tr_sessions tr) (tr_parked tr)).

(** [Publish] up to the event it posts. *)
Definition Publish (msg : MessageID) (payload : bytes) : option (result error (channelEvent St)) :=
  letp r := NewOrigin scheme msg payload in
  Some (let! x := r in
        let! b := w_Marshal x.2 in
        Ok (channelPublish msg x.1 b)).

Definition newSession (now : Z) (msg : MessageID) (preamble : bytes) (isOrigin : bool) (st : St) tr w
  : session_state St * world :=
  let '(ctx, w) := fresh w in
  (mk_session (tr_id tr) msg preamble (if isOrigin then stageOrigin else stageConsuming) st now false ∅ ∅ [] [] ∅ ctx,
   emit (FxSchedule (now + activeSessionTTL)) w).

Definition deliverMessage (msg : MessageID) (payload : bytes) tr w : channel_state St * world :=
  let m := mk_FullMessage (tr_id tr) msg payload in
  let '(tr, w) :=
    match tr_sub tr with
    | None => (tr, w)
    | Some sub =>
        if (length (sub_sent sub) - sub_taken sub <? sub_cap sub)%nat
        then (mk_channel (tr_id tr) (Some (mk_sub (sub_cap sub) (sub_sent sub ++ [m]) (sub_taken sub))) (tr_members tr) (tr_sessions tr) (tr_parked tr),
              emit (FxDeliver m) w)
        else (tr, emit (FxDropDelivery m) w)
    end in
  (tr, observe (OnSessionDecoded (tr_id tr) msg) w).

Definition cancel_streams (l : list channelChunkStream) (c : Code) w : world :=
  foldl (fun w e => CancelRead (cs_stream e) c w) w l.

Definition disposeSession (msg : MessageID) (reason : error) tr w : channel_state St * world :=
  match tr_sessions tr !! msg with
  | None => (tr, w)
  | Some s =>
      let code := if (stage_nat stageDecoding <=? stage_nat (ss_stage s))%nat then Redundant
                  else if String.eqb reason "ttl_expired"%string then Refused else Unspecified in
      let w := match tr_parked tr !! msg with Some g => cancel_streams (pg_streams g) code w | None => w end in
      let tr := with_parked (delete msg (tr_parked tr)) (with_sessions (delete msg (tr_sessions tr)) tr) in
      let '(_, w) := closeWithCode choice code s w in
      (tr, observe (OnSessionDisposed (tr_id tr) msg reason) w)
  end.

Definition disposeIfIdle s tr w : channel_state St * world :=
  if idle s then disposeSession (ss_messageID s) "all_peers_done"%string tr w else (tr, w).

(** Handlers of one session, on the channel. *)
Definition on_session (msg : MessageID) (f : session_state St -> world -> option (session_state St * world)) tr w
  : option (channel_state St * world) :=
  match tr_sessions tr !! msg with
  | None => Some (tr, w)
  | Some s => letp r := f s w in Some (put_sess msg r.1 tr, r.2)
  end.

Definition handleChunk (now : Z) (e : channelChunkStream) tr w : option (channel_state St * world) :=
  let msg := cs_objectId e in
  match tr_sessions tr !! msg with
  | Some s =>
      letp r := drainReads s w in
      letp q := handleChunkStream (cs_peerID e) (cs_chunkId e) (cs_dataLength e) (cs_stream e) r.1 r.2 in
      Some (put_sess msg q.1 tr, q.2)
  | None =>
      match tr_parked tr !! msg with
      | Some g =>
          if (maxParkedChunks <=? length (pg_streams g))%nat then Some (tr, CancelRead (cs_stream e) Unspecified w)
          else Some (with_parked (<[msg := mk_parked (pg_at g) (pg_streams g ++ [e])]> (tr_parked tr)) tr, w)
      | None =>
          Some (with_parked (<[msg := mk_parked now [e]]> (tr_parked tr)) tr, emit (FxSchedule (now + activeSessionTTL)) w)
      end
  end.

(** [for _, peer := range tr.members { sess.handlePeerAttached(peer) }] *)
Fixpoint attach_members (members : gmap PeerID nat) (order : list PeerID) s w : option (session_state St * world) :=
  match order with
  | [] => Some (s, w)
  | p :: order =>
      match members !! p with
      | Some conn => letp r := handlePeerAttached choice attached conn p s w in attach_members members order r.1 r.2
      | None => attach_members members order s w
      end
  end.

Fixpoint flush_parked (l : list channelChunkStream) s w : option (session_state St * world) :=
  match l with
  | [] => Some (s, w)
  | c :: l => letp r := handleChunkStream (cs_peerID c) (cs_chunkId c) (cs_dataLength c) (cs_stream c) s w in
              flush_parked l r.1 r.2
  end.

Definition createRelaySession (now : Z) (msg : MessageID) (preambleBytes : bytes) (initialPeer : PeerID) (initialRouting : bytes) tr w
  : option (result error (channel_state St) * world) :=
  match w_Unmarshal preambleBytes with
  | Err e => Some (Err e, w)
  | Ok p =>
      letp r := NewRelay scheme msg (p : P) in
      match r with
      | Err e => Some (Err e, w)
      | Ok strat =>
          let '(s, w) := newSession now msg preambleBytes false strat tr w in
          let '(order, w) := range choice (dom (tr_members tr)) w in
          letp r := attach_members (tr_members tr) order s w in
          letp r := (match initialRouting with
                     | [] => Some r
                     | _ => handleRoutingUpdate choice attached initialPeer initialRouting r.1 r.2
                     end) in
          letp r := (match tr_parked tr !! msg with
                     | Some g => flush_parked (pg_streams g) r.1 r.2
                     | None => Some r
                     end) in
          Some (Ok (with_parked (delete msg (tr_parked tr)) (put_sess msg r.1 tr)),
                observe (OnSessionStarted (tr_id tr) msg SessionRoleRelay) r.2)
      end
  end.

Definition handleSessionOpen (now : Z) (peer : PeerID) (msg : MessageID) (preamble initialUpdate : bytes) tr w
  : option (channel_state St * world) :=
  match tr_sessions tr !! msg with
  | Some s =>
      match initialUpdate with
      | [] => Some (tr, w)
      | _ => on_session msg (handleRoutingUpdate choice attached peer initialUpdate) tr w
      end
  | None =>
      letp r := createRelaySession now msg preamble peer initialUpdate tr w in
      match r.1 with
      | Ok tr' => Some (tr', r.2)
      | Err e => Some (tr, observe (OnChunkError (mk_cpe peer (tr_id tr) msg e)) r.2)
      end
  end.

Fixpoint bind_sessions (conn : nat) (peer : PeerID) (order : list MessageID) tr w : option (channel_state St * world) :=
  match order with
  | [] => Some (tr, w)
  | msg :: order =>
      letp r := on_session msg (handlePeerAttached choice attached conn peer) tr w in
      bind_sessions conn peer order r.1 r.2
  end.

Definition handlePeerBound (peer : PeerID) (conn : nat) tr w : option (channel_state St * world) :=
  if decide (tr_members tr !! peer = Some conn) then Some (tr, w)
  else
    let tr := with_members (<[peer := conn]> (tr_members tr)) tr in
    let '(order, w) := range choice (dom (tr_sessions tr)) w in
    bind_sessions conn peer order tr w.

(** The parked streams of a peer that left, group by group. *)
Definition unpark_group (peer : PeerID) (msg : MessageID) tr w : channel_state St * world :=
  match tr_parked tr !! msg with
  | None => (tr, w)
  | Some g =>
      let w := cancel_streams (filter (fun c => cs_peerID c = peer) (pg_streams g)) Unspecified w in
      let kept := filter (fun c => cs_peerID c <> peer) (pg_streams g) in
      (with_parked (match kept with [] => delete msg (tr_parked tr) | _ => <[msg := mk_parked (pg_at g) kept]> (tr_parked tr) end) tr, w)
  end.

Fixpoint unpark_peer (peer : PeerID) (order : list MessageID) tr w : channel_state St * world :=
  match order with
  | [] => (tr, w)
  | msg :: order => let '(tr, w) := unpark_group peer msg tr w in unpark_peer peer order tr w
  end.

Definition drop_from_session (peer : PeerID) (msg : MessageID) tr w : channel_state St * world :=
  match tr_sessions tr !! msg with
  | None => (tr, w)
  | Some s =>
      let '(s', w) := handlePeerDropped peer s w in
      disposeIfIdle s' (put_sess msg s' tr) w
  end.

Fixpoint unbind_sessions (peer : PeerID) (order : list MessageID) tr w : channel_state St * world :=
  match order with
  | [] => (tr, w)
  | msg :: order => let '(tr, w) := drop_from_session peer msg tr w in unbind_sessions peer order tr w
  end.

Definition handlePeerUnbound (peer : PeerID) tr w : channel_state St * world :=
  let tr := with_members (delete peer (tr_members tr)) tr in
  let '(order, w) := range choice (dom (tr_parked tr)) w in
  let '(tr, w) := unpark_peer peer order tr w in
  let '(order, w) := range choice (dom (tr_sessions tr)) w in
  unbind_sessions peer order tr w.

Definition handlePublish (now : Z) (msg : MessageID) (st : St) (preambleData : bytes) tr w : option (channel_state St * world) :=
  let '(tr, w) := disposeSession msg "replaced"%string tr w in
  let '(s, w) := newSession now msg preambleData true st tr w in
  let '(order, w) := range choice (dom (tr_members tr)) w in
  letp r := attach_members (tr_members tr) order s w in
  letp r := drainPolls choice attached r.1 r.2 in
  Some (put_sess msg r.1 tr, emit (FxPublished msg) (observe (OnSessionStarted (tr_id tr) msg SessionRoleOrigin) r.2)).

Fixpoint expire_sessions (now : Z) (order : list MessageID) tr w : channel_state St * world :=
  match order with
  | [] => (tr, w)
  | msg :: order =>
      let '(tr, w) := match tr_sessions tr !! msg with
                      | Some s => if now - ss_createdAt s >=? activeSessionTTL
                                  then disposeSession msg "ttl_expired"%string tr w else (tr, w)
                      | None => (tr, w)
                      end in
      expire_sessions now order tr w
  end.

Fixpoint expire_parked (now : Z) (order : list MessageID) tr w : channel_state St * world :=
  match order with
  | [] => (tr, w)
  | msg :: order =>
      let '(tr, w) := match tr_parked tr !! msg with
                      | Some g => if now - pg_at g >=? activeSessionTTL
                                  then (with_parked (delete msg (tr_parked tr)) tr, cancel_streams (pg_streams g) Refused w)
                                  else (tr, w)
                      | None => (tr, w)
                      end in
      expire_parked now order tr w
  end.

Definition expireDue (now : Z) tr w : channel_state St * world :=
  let '(order, w) := range choice (dom (tr_sessions tr)) w in
  let '(tr, w) := expire_sessions now order tr w in
  let '(order, w) := range choice (dom (tr_parked tr)) w in
  expire_parked now order tr w.

Definition handleDecoded (msg : MessageID) (r : result error bytes) tr w : channel_state St * world :=
  match tr_sessions tr !! msg with
  | None => (tr, w)
  | Some s =>
      if (stage_nat (ss_stage s) <? stage_nat stageReconstructed)%nat then
        match r with
        | Err e => (tr, observe (OnChunkError (mk_cpe [] (ss_channelID s) (ss_messageID s) ("decode: " ++ e)%string)) w)
        | Ok payload =>
            let '(tr, w) := deliverMessage (ss_messageID s) payload tr w in
            let s := with_stage stageReconstructed s in
            disposeIfIdle s (put_sess msg s tr) w
        end
      else (tr, w)
  end.

Definition handle (now : Z) (evt : channelEvent St) tr w : option (channel_state St * world) :=
  match evt with
  | channelExpiry => Some (expireDue now tr w)
  | channelReadDone msg => on_session msg drainReads tr w
  | channelChunk e => handleChunk now e tr w
  | channelChunkData msg peer id payload => on_session msg (handleChunkData choice attached peer id payload) tr w
  | channelSessionOpen peer msg preamble update => handleSessionOpen now peer msg preamble update tr w
  | channelPeerChange peer (Some conn) => handlePeerBound peer conn tr w
  | channelPeerChange peer None => Some (handlePeerUnbound peer tr w)
  | channelPublish msg st preamble => handlePublish now msg st preamble tr w
  | channelChunkSent msg peer h err size => on_session msg (handleSendComplete choice attached peer h err size) tr w
  | channelRoutingUpdate peer msg data => on_session msg (handleRoutingUpdate choice attached peer data) tr w
  | channelPeerReconstructed msg peer =>
      match tr_sessions tr !! msg with
      | None => Some (tr, w)
      | Some s => let '(s', w) := handlePeerCompleted peer s w in Some (disposeIfIdle s' (put_sess msg s' tr) w)
      end
  | channelPeerSessionEnded msg peer conn =>
      if decide (tr_members tr !! peer = Some conn) then Some (drop_from_session peer msg tr w) else Some (tr, w)
  | channelVerifyResult msg peer id payload v => on_session msg (handleVerifyResult choice attached peer id payload v) tr w
  | channelDecoded msg r => Some (handleDecoded msg r tr w)
  end.

(** [drainInbox]: the chunk streams still in the inbox. *)
Definition drainInbox (inbox : list (channelEvent St)) w : world :=
  foldl (fun w evt => match evt with channelChunk e => CancelRead (cs_stream e) Unspecified w | _ => w end) w inbox.

Fixpoint close_sessions (order : list MessageID) tr w : world :=
  match order with
  | [] => w
  | msg :: order =>
      close_sessions order tr
        (match tr_sessions tr !! msg with Some s => (closeWithCode choice Unspecified s w).2 | None => w end)
  end.

Fixpoint cancel_parked (order : list MessageID) tr w : world :=
  match order with
  | [] => w
  | msg :: order =>
      cancel_parked order tr
        (match tr_parked tr !! msg with Some g => cancel_streams (pg_streams g) Unspecified w | None => w end)
  end.

Definition shutdown (inbox : list (channelEvent St)) tr w : world :=
  let '(order, w) := range choice (dom (tr_sessions tr)) w in
  let w := close_sessions order tr w in
  let '(order, w) := range choice (dom (tr_parked tr)) w in
  let w := cancel_parked order tr w in
  let w := drainInbox inbox w in
  match tr_sub tr with Some _ => emit FxSubscriptionClosed w | None => w end.
End channel.

(** ** The invariant *)

Section laws.
Context {CI R P St : Type} `{!ChunkIdentI CI} `{!Wire R} `{!Wire P} `{!Strategy CI R St} `{!StrategyLaws CI R St}.
Context (scheme : Scheme CI R P St) (choice : nat -> gset bytes -> list bytes).
Hypothesis choice_perm : forall n X, choice n X ≡ₚ elements X.

Implicit Types (tr : channel_state St) (s : session_state St) (w : world).

(** Sessions are well formed and sit under their own identifier; a session's
    peers are members with the same connection, except possibly those of [X];
    a parked group holds between 1 and 32 streams. *)
Record wf_except (X : gset PeerID) tr : Prop := {
  cw_session : forall msg s, tr_sessions tr !! msg = Some s -> session_wf s;
  cw_ids : forall msg s, tr_sessions tr !! msg = Some s -> ss_messageID s = msg /\ ss_channelID s = tr_id tr;
  cw_conn : forall msg s p sp, tr_sessions tr !! msg = Some s -> ss_peers s !! p = Some sp -> p ∉ X ->
            tr_members tr !! p = Some (sp_conn sp);
  cw_parked : forall msg g, tr_parked tr !! msg = Some g -> (0 < length (pg_streams g) <= maxParkedChunks)%nat }.

Definition channel_wf tr : Prop := wf_except ∅ tr.

(** A chunk stream the channel took over is parked, with a session, or
    cancelled. *)
Definition owned tr w (st : nat) : Prop :=
  (exists msg g e, tr_parked tr !! msg = Some g /\ e ∈ pg_streams g /\ cs_stream e = st) \/
  (exists msg s, tr_sessions tr !! msg = Some s /\ tracked s w st) \/
  (exists c, FxStreamEnd st c ∈ w_log w).

(** A session that may still deliver its message. *)
Definition live tr (msg : MessageID) : Prop :=
  exists s, tr_sessions tr !! msg = Some s /\ (stage_nat (ss_stage s) < stage_nat stageReconstructed)%nat.

(** The messages for which a session may be opened, and whether a message may
    be delivered. *)
Context (opens : MessageID -> Prop) (delivers : Prop).

(** The result of a handler of the channel. *)
Record chandled (X : gset PeerID) tr w tr' w' : Prop := {
  ch_wf : wf_except X tr';
  ch_grows : grows w w';
  ch_owned : forall st, owned tr w st -> owned tr' w' st;
  ch_id : tr_id tr' = tr_id tr;
  ch_live : forall msg, live tr' msg -> live tr msg \/ opens msg;
  ch_sub : tr_sub tr' = tr_sub tr \/ delivers }.

Lemma chandled_trans X tr1 w1 tr2 w2 tr3 w3 :
  chandled X tr1 w1 tr2 w2 -> chandled X tr2 w2 tr3 w3 -> chandled X tr1 w1 tr3 w3.
Proof.
  intros [] []. split; [done|by etrans|by auto|congruence| |].
  - intros msg [H|H]%ch_live1; auto.
  - destruct ch_sub0, ch_sub1; auto. left. congruence.
Qed.

Lemma owned_grows tr w w' st : grows w w' -> owned tr w st -> owned tr w' st.
Proof.
  intros Hg [H|[(msg & s & H1 & H2)|[c Hc]]]; [by left| |right; right; exists c; by eapply grows_log].
  right. left. exists msg, s. split; [done|]. by eapply carries_grows.
Qed.

Lemma chandled_refl X tr w w' : wf_except X tr -> grows w w' -> chandled X tr w tr w'.
Proof. intros Hw Hg. split; try done; [|by left|by left]. intros st. by apply owned_grows. Qed.

Lemma live_subset tr tr' msg : tr_sessions tr' ⊆ tr_sessions tr -> live tr' msg -> live tr msg.
Proof. intros Hs (x & Hx & Hl). exists x. split; [|done]. by eapply lookup_weaken. Qed.

(** Replacing one session by what a handler made of it. *)
Lemma chandled_put X msg s s' tr w w' N :
  wf_except X tr -> tr_sessions tr !! msg = Some s -> handled N s w s' w' ->
  (forall p c, N p c -> tr_members tr !! p = Some c) -> chandled X tr w (put_sess msg s' tr) w'.
Proof.
  intros [W1 W2 W3 W4] Hs [H1 H2 H3 H4 H5 _ H6 _] HN. split; [|done| |done| |by left].
  - split; simpl; [..|done].
    + intros m x. rewrite lookup_insert_Some. intros [[<- <-]|[_ Hx]]; [done|by eapply W1].
    + intros m x. rewrite lookup_insert_Some. intros [[<- <-]|[_ Hx]]; [|by eapply W2].
      destruct H6 as (-> & -> & _). by eapply W2.
    + intros m x p sp. rewrite lookup_insert_Some. intros [[<- <-]|[_ Hx]] Hp Hn; [|by eapply W3].
      destruct (H4 p sp Hp) as [(sp0 & Hp0 & <-)|Hnew]; [by eapply W3|by apply HN].
  - intros st [H|[(m & x & Hx & Ht)|[c Hc]]]; [by left| |right; right; exists c; by eapply grows_log].
    destruct (decide (msg = m)) as [<-|Hne].
    + simplify_eq. right. left. exists msg, s'. simpl. rewrite lookup_insert_eq. split; [done|]. by apply H3.
    + right. left. exists m, x. simpl. rewrite lookup_insert_ne by done. split; [done|].
      eapply carries_grows; [exact H2|done|done|exact Ht].
  - intros m (x & Hx & Hl). left. revert Hx. simpl. rewrite lookup_insert_Some. intros [[<- <-]|[_ Hx]]; [|by exists x].
    exists s. split; [done|lia].
Qed.

Definition none : PeerID -> nat -> Prop := fun _ _ => False.

Lemma on_session_ok X msg f tr w :
  wf_except X tr ->
  (forall s w, session_wf s -> exists s' w', f s w = Some (s', w') /\ handled none s w s' w') ->
  exists tr' w', on_session msg f tr w = Some (tr', w') /\ chandled X tr w tr' w'.
Proof.
  intros Hw Hf. unfold on_session. destruct (tr_sessions tr !! msg) as [s|] eqn:Es.
  2:{ do 2 eexists. split; [done|]. by apply chandled_refl. }
  destruct (Hf s w (cw_session _ _ Hw _ _ Es)) as (s' & w' & -> & H). do 2 eexists. split; [done|].
  by eapply chandled_put.
Qed.

Lemma cancel_streams_spec l c : forall w,
  grows w (cancel_streams l c w) /\ forall e, e ∈ l -> FxStreamEnd (cs_stream e) (Some c) ∈ w_log (cancel_streams l c w).
Proof.
  unfold cancel_streams. induction l as [|r l IH]; intros w; simpl; [split; [done|]; by intros ? ?%elem_of_nil|].
  destruct (IH (CancelRead (cs_stream r) c w)) as [Hg Hc]. split; [etrans; [apply grows_emit|exact Hg]|].
  intros r' [-> | Hr]%elem_of_cons; [|by apply Hc]. eapply grows_log; [exact Hg|]. simpl. apply elem_of_app. right.
  by apply list_elem_of_singleton.
Qed.

(** *** Disposal *)

Lemma disposeSession_spec X msg reason tr w :
  wf_except X tr ->
  exists tr' w', disposeSession choice msg reason tr w = (tr', w') /\ chandled X tr w tr' w' /\
    tr_sessions tr' = delete msg (tr_sessions tr) /\ tr_members tr' = tr_members tr /\
    tr_parked tr' ⊆ tr_parked tr /\ tr_sub tr' = tr_sub tr.
Proof using choice_perm.
  intros Hw. unfold disposeSession. destruct (tr_sessions tr !! msg) as [s|] eqn:Es.
  2:{ do 2 eexists. split; [done|]. split; [by apply chandled_refl|]. rewrite delete_id by done.
      repeat (split; [done|]). done. }
  cbv zeta. set (code := if (_ <=? _)%nat then _ else _). set (w1 := match tr_parked tr !! msg with Some _ => _ | None => w end).
  assert (grows w w1 /\ forall g e, tr_parked tr !! msg = Some g -> e ∈ pg_streams g -> FxStreamEnd (cs_stream e) (Some code) ∈ w_log w1) as [Hg1 Hp1].
  { unfold w1. destruct (tr_parked tr !! msg) as [g|]; [|by split].
    destruct (cancel_streams_spec (pg_streams g) code w) as [Hg Hc]. split; [done|]. intros g' e [= <-]. apply Hc. }
  destruct (closeWithCode_spec choice choice_perm code s w1) as (s' & w2 & E & Hg2 & _ & _ & Hst & _). rewrite E.
  do 2 eexists. split; [done|]. split.
  - split; [|etrans; [exact Hg1|]; etrans; [exact Hg2|apply grows_emit]| |done| |by left].
    + destruct Hw as [W1 W2 W3 W4]. split; simpl.
      * intros m x. rewrite lookup_delete_Some. intros [_ Hx]. by eapply W1.
      * intros m x. rewrite lookup_delete_Some. intros [_ Hx]. by eapply W2.
      * intros m x p sp. rewrite lookup_delete_Some. intros [_ Hx]. by eapply W3.
      * intros m g. rewrite lookup_delete_Some. intros [_ Hx]. by eapply W4.
    + assert (forall e, e ∈ w_log w2 -> e ∈ w_log (observe (OnSessionDisposed (tr_id tr) msg reason) w2)) as Hin
        by (intros e He; eapply grows_log; [apply grows_emit|done]).
      intros st [(m & g & e & Hg & He & <-)|[(m & x & Hx & Ht)|[c Hc]]].
      * destruct (decide (msg = m)) as [<-|Hne].
        -- right. right. exists (Some code). apply Hin. eapply grows_log; [exact Hg2|]. by eapply Hp1.
        -- left. exists m, g, e. simpl. by rewrite lookup_delete_ne.
      * destruct (decide (msg = m)) as [<-|Hne].
        -- simplify_eq. destruct (Hst st) as [c Hc]; [eapply carries_grows; [exact Hg1|done|done|exact Ht]|].
           right. right. exists c. by apply Hin.
        -- right. left. exists m, x. simpl. rewrite lookup_delete_ne by done. split; [done|].
           eapply carries_grows; [|done|done|exact Ht]. etrans; [exact Hg1|]. etrans; [exact Hg2|apply grows_emit].
      * right. right. exists c. apply Hin. eapply grows_log; [exact Hg2|]. by eapply grows_log.
    + intros m Hl. left. eapply live_subset; [|exact Hl]. apply delete_subseteq.
  - simpl. split; [done|]. split; [done|]. split; [apply delete_subseteq|done].
Qed.

Lemma disposeIfIdle_spec X msg s tr w :
  wf_except X tr -> tr_sessions tr !! msg = Some s ->
  exists tr' w', disposeIfIdle choice s tr w = (tr', w') /\ chandled X tr w tr' w' /\
    tr_sessions tr' = (if idle s then delete msg (tr_sessions tr) else tr_sessions tr) /\ tr_members tr' = tr_members tr /\
    tr_parked tr' ⊆ tr_parked tr /\ tr_sub tr' = tr_sub tr.
Proof using choice_perm.
  intros Hw Hs. unfold disposeIfIdle. destruct (idle s).
  - rewrite (proj1 (cw_ids _ _ Hw _ _ Hs)).
    destruct (disposeSession_spec X msg "all_peers_done"%string tr w Hw) as (tr' & w' & E & H & H1 & H2 & H3 & H4). by exists tr', w'.
  - do 2 eexists. split; [done|]. split; [by apply chandled_refl|done].
Qed.

Lemma drop_from_session_spec X peer msg tr w :
  wf_except X tr ->
  exists tr' w', drop_from_session choice peer msg tr w = (tr', w') /\ chandled X tr w tr' w' /\
    tr_members tr' = tr_members tr /\ tr_parked tr' ⊆ tr_parked tr /\
    (forall m, m <> msg -> tr_sessions tr' !! m = tr_sessions tr !! m) /\
    (forall s, tr_sessions tr' !! msg = Some s -> ss_peers s !! peer = None).
Proof using choice_perm.
  intros Hw. unfold drop_from_session. destruct (tr_sessions tr !! msg) as [s|] eqn:Es.
  2:{ do 2 eexists. split; [done|]. split; [by apply chandled_refl|]. repeat (split; [done|]). intros s. by rewrite Es. }
  destruct (handlePeerDropped_spec none peer s w (cw_session _ _ Hw _ _ Es)) as (s' & w1 & -> & H & D).
  pose proof (chandled_put X msg s s' tr w w1 none Hw Es H ltac:(done)) as H1.
  destruct (disposeIfIdle_spec X msg s' (put_sess msg s' tr) w1 (ch_wf _ _ _ _ _ H1)) as (tr' & w' & E & H2 & Ess & Em & Epk & _).
  { simpl. by rewrite lookup_insert_eq. }
  rewrite E. do 2 eexists. split; [done|]. split; [by eapply chandled_trans|]. split; [done|]. split; [done|]. split.
  - intros m Hm. rewrite Ess. destruct (idle s'); simpl; [rewrite lookup_delete_ne by done|]; by rewrite lookup_insert_ne.
  - intros x. rewrite Ess. destruct (idle s'); simpl; [by rewrite lookup_delete_eq|]. rewrite lookup_insert_eq. intros [= <-].
    rewrite (dp_peers _ _ _ _ _ D). apply lookup_delete_eq.
Qed.

Lemma unbind_sessions_spec X peer order : forall tr w,
  wf_except X tr ->
  exists tr' w', unbind_sessions choice peer order tr w = (tr', w') /\ chandled X tr w tr' w' /\
    tr_members tr' = tr_members tr /\ tr_parked tr' ⊆ tr_parked tr /\
    forall m s, tr_sessions tr' !! m = Some s ->
      (m ∈ order -> ss_peers s !! peer = None) /\ (m ∉ order -> tr_sessions tr !! m = Some s).
Proof using choice_perm.
  induction order as [|msg order IH]; intros tr w Hw; simpl.
  { do 2 eexists. split; [done|]. split; [by apply chandled_refl|]. repeat (split; [done|]). intros m s Hs. split; [by intros ?%elem_of_nil|done]. }
  destruct (drop_from_session_spec X peer msg tr w Hw) as (tr1 & w1 & -> & H1 & Em1 & Hk1 & Ho1 & Hp1).
  destruct (IH tr1 w1 (ch_wf _ _ _ _ _ H1)) as (tr' & w' & -> & H2 & Em2 & Hk2 & Hs2).
  do 2 eexists. split; [done|]. split; [by eapply chandled_trans|]. split; [congruence|]. split; [by etrans|].
  intros m s Hs. destruct (Hs2 m s Hs) as [A B]. split.
  - intros Hin. destruct (decide (m ∈ order)); [by apply A|]. apply elem_of_cons in Hin as [->|]; [|done]. by apply Hp1, B.
  - intros [Hne Hn]%not_elem_of_cons. rewrite <-Ho1 by done. by apply B.
Qed.

(** A parked group cancelled as a whole. *)
Lemma unpark_all X msg g c tr w :
  wf_except X tr -> tr_parked tr !! msg = Some g ->
  chandled X tr w (with_parked (delete msg (tr_parked tr)) tr) (cancel_streams (pg_streams g) c w).
Proof.
  intros [W1 W2 W3 W4] Hg. destruct (cancel_streams_spec (pg_streams g) c w) as [Hgr Hc]. split; [split; simpl; try done|done| |done|by left|by left].
  - intros m g'. rewrite lookup_delete_Some. intros [_ ?]. by eapply W4.
  - intros st [(m & g' & e & Hm & He & <-)|[(m & x & Hx & Ht)|[c' Hc']]].
    + destruct (decide (msg = m)) as [<-|Hne]; [|left; exists m, g', e; simpl; by rewrite lookup_delete_ne].
      simplify_eq. right. right. exists (Some c). by apply Hc.
    + right. left. exists m, x. split; [done|]. eapply carries_grows; [exact Hgr|done|done|exact Ht].
    + right. right. exists c'. by eapply grows_log.
Qed.

Lemma park_more X msg g tr w w' :
  wf_except X tr -> grows w w' -> (0 < length (pg_streams g) <= maxParkedChunks)%nat ->
  (forall g' c, tr_parked tr !! msg = Some g' -> c ∈ pg_streams g' -> c ∈ pg_streams g) ->
  chandled X tr w (with_parked (<[msg := g]> (tr_parked tr)) tr) w'.
Proof.
  intros [W1 W2 W3 W4] Hg Hl Hin. split; [split; simpl; try done|done| |done|by left|by left].
  - intros m g'. rewrite lookup_insert_Some. intros [[<- <-]|[_ ?]]; [done|by eapply W4].
  - intros st [(m & g' & e & Hm & He & <-)|[(m & x & Hx & Ht)|[c' Hc']]].
    + left. destruct (decide (msg = m)) as [<-|Hne]; [exists msg, g, e; simpl; rewrite lookup_insert_eq|exists m, g', e; simpl; by rewrite lookup_insert_ne].
      by eauto.
    + right. left. exists m, x. split; [done|]. eapply carries_grows; [exact Hg|done|done|exact Ht].
    + right. right. exists c'. by eapply grows_log.
Qed.

Lemma unpark_group_spec X peer msg tr w :
  wf_except X tr ->
  exists tr' w', unpark_group peer msg tr w = (tr', w') /\ chandled X tr w tr' w' /\
    tr_members tr' = tr_members tr /\ tr_sessions tr' = tr_sessions tr /\
    (forall m, m <> msg -> tr_parked tr' !! m = tr_parked tr !! m) /\
    (forall g, tr_parked tr' !! msg = Some g -> Forall (fun c => cs_peerID c <> peer) (pg_streams g)).
Proof.
  intros Hw. unfold unpark_group. destruct (tr_parked tr !! msg) as [g|] eqn:Eg.
  2:{ do 2 eexists. split; [done|]. split; [by apply chandled_refl|]. repeat (split; [done|]). intros g. by rewrite Eg. }
  cbv zeta. destruct (cancel_streams_spec (filter (fun c => cs_peerID c = peer) (pg_streams g)) Unspecified w) as [Hg1 Hc1].
  set (w1 := cancel_streams _ _ w) in *. set (kept := filter (fun c => cs_peerID c <> peer) (pg_streams g)).
  set (pk := match kept with [] => _ | _ => _ end).
  assert (forall m, m <> msg -> pk !! m = tr_parked tr !! m) as Hne
    by (intros m Hm; unfold pk; destruct kept; by rewrite ?lookup_delete_ne, ?lookup_insert_ne).
  assert (forall g', pk !! msg = Some g' -> pg_streams g' = kept /\ (0 < length kept)%nat) as Heq.
  { intros g'. unfold pk. destruct kept; [by rewrite lookup_delete_eq|rewrite lookup_insert_eq]. intros [= <-]. simpl. split; [done|lia]. }
  do 2 eexists. split; [done|]. split; [split; [|done| |done|by left|by left]|].
  - destruct Hw as [W1 W2 W3 W4]. split; simpl; try done. intros m g'. destruct (decide (m = msg)) as [->|]; [|rewrite Hne by done; apply W4].
    intros [-> Hpos]%Heq. split; [done|]. etrans; [apply length_filter|]. by eapply W4.
  - intros st [(m & g' & e & Hm & He & <-)|[(m & x & Hx & Ht)|[c Hc]]].
    + destruct (decide (m = msg)) as [->|Hm']; [|left; exists m, g', e; simpl; by rewrite Hne]. assert (g' = g) as -> by congruence.
      destruct (decide (cs_peerID e = peer)).
      * right. right. exists (Some Unspecified). apply Hc1. by apply list_elem_of_filter.
      * assert (e ∈ kept) as Hk by (by apply list_elem_of_filter). left. exists msg, (mk_parked (pg_at g) kept), e. simpl.
        unfold pk. destruct kept; [by apply elem_of_nil in Hk|]. by rewrite lookup_insert_eq.
    + right. left. exists m, x. split; [done|]. eapply carries_grows; [exact Hg1|done|done|exact Ht].
    + right. right. exists c. by eapply grows_log.
  - simpl. repeat (split; [done|]). intros g' [-> _]%Heq. apply Forall_forall. intros x Hx. by apply list_elem_of_filter in Hx as [? _].
Qed.

Lemma unpark_peer_spec X peer order : forall tr w,
  wf_except X tr ->
  exists tr' w', unpark_peer peer order tr w = (tr', w') /\ chandled X tr w tr' w' /\
    tr_members tr' = tr_members tr /\ tr_sessions tr' = tr_sessions tr /\
    forall m g, tr_parked tr' !! m = Some g ->
      (m ∈ order -> Forall (fun c => cs_peerID c <> peer) (pg_streams g)) /\ (m ∉ order -> tr_parked tr !! m = Some g).
Proof.
  induction order as [|msg order IH]; intros tr w Hw; simpl.
  { do 2 eexists. split; [done|]. split; [by apply chandled_refl|]. repeat (split; [done|]). intros m s Hs. split; [by intros ?%elem_of_nil|done]. }
  destruct (unpark_group_spec X peer msg tr w Hw) as (tr1 & w1 & -> & H1 & Em1 & Es1 & Hn1 & Hp1).
  destruct (IH tr1 w1 (ch_wf _ _ _ _ _ H1)) as (tr' & w' & -> & H2 & Em2 & Es2 & Hs2).
  do 2 eexists. split; [done|]. split; [by eapply chandled_trans|]. split; [congruence|]. split; [congruence|].
  intros m g Hg. destruct (Hs2 m g Hg) as [A B]. split.
  - intros Hin. destruct (decide (m ∈ order)); [by apply A|]. apply elem_of_cons in Hin as [->|]; [|done]. by apply Hp1, B.
  - intros [Hne Hn]%not_elem_of_cons. rewrite <-Hn1 by done. by apply B.
Qed.

(** *** New sessions *)

(** What the channel relies on of a strategy made for a new session. *)
Definition starts (isOrigin : bool) (st : St) : Prop :=
  st_wf st /\ st_attached st = ∅ /\ st_done st = ∅ /\ (isOrigin = false -> st_complete st = false).

Lemma newSession_spec now msg pre o st tr w :
  starts o st ->
  exists s w', newSession now msg pre o st tr w = (s, w') /\ session_wf s /\ grows w w' /\ ss_peers s = ∅ /\
    ss_messageID s = msg /\ ss_channelID s = tr_id tr /\ ss_stage s = (if o then stageOrigin else stageConsuming) /\
    ss_createdAt s = now.
Proof.
  intros (H1 & H2 & H3 & H4). unfold newSession. cbn [fresh]. do 2 eexists. split; [done|].
  split; [|split; [etrans; [apply grows_fresh|apply grows_emit]|done]]. split; simpl; try done.
  - by intros p h [? ?].
  - unfold maxConcurrentReads. lia.
  - destruct o; [done|]. by auto.
  - by destruct o.
Qed.

Definition joins (members : gmap PeerID nat) : PeerID -> nat -> Prop := fun p c => members !! p = Some c.

Lemma attach_members_spec members order : forall s w,
  session_wf s ->
  exists s' w', attach_members choice st_attached members order s w = Some (s', w') /\ handled (joins members) s w s' w'.
Proof using choice_perm.
  induction order as [|p order IH]; intros s w Hw; simpl; [do 2 eexists; split; [done|]; by apply handled_refl|].
  destruct (members !! p) as [conn|] eqn:Ep; [|by apply IH].
  destruct (handlePeerAttached_spec choice choice_perm (joins members) conn p s w Hw Ep) as (s1 & w1 & -> & H1 & _).
  cbn [mbind option_bind fst snd]. destruct (IH s1 w1 (hd_wf _ _ _ _ _ H1)) as (s2 & w2 & -> & H2).
  do 2 eexists. split; [done|]. by eapply handled_trans.
Qed.

Lemma flush_parked_spec N l : forall s w,
  session_wf s ->
  exists s' w', flush_parked l s w = Some (s', w') /\ handled N s w s' w' /\
    forall c, c ∈ l -> tracked s' w' (cs_stream c).
Proof.
  induction l as [|c l IH]; intros s w Hw; simpl.
  { do 2 eexists. split; [done|]. split; [by apply handled_refl|]. by intros ? ?%elem_of_nil. }
  destruct (handleChunkStream_spec N (cs_peerID c) (cs_chunkId c) (cs_dataLength c) (cs_stream c) s w Hw) as (s1 & w1 & -> & H1 & T1 & _).
  cbn [mbind option_bind fst snd]. destruct (IH s1 w1 (hd_wf _ _ _ _ _ H1)) as (s2 & w2 & -> & H2 & T2).
  do 2 eexists. split; [done|]. split; [by eapply handled_trans|].
  intros c' [->|Hc]%elem_of_cons; [|by apply T2]. by eapply hd_carries.
Qed.

(** A new session of the channel, with its message's parked group flushed into it or left. *)
Lemma chandled_add X msg s0 w0 s tr w w' pk :
  wf_except X tr -> tr_sessions tr !! msg = None -> opens msg \/ ss_stage s = stageOrigin -> grows w w0 -> handled (joins (tr_members tr)) s0 w0 s w' ->
  ss_peers s0 = ∅ -> ss_messageID s0 = msg -> ss_channelID s0 = tr_id tr ->
  (pk = tr_parked tr \/
   pk = delete msg (tr_parked tr) /\ forall g e, tr_parked tr !! msg = Some g -> e ∈ pg_streams g -> tracked s w' (cs_stream e)) ->
  chandled X tr w (with_parked pk (put_sess msg s tr)) w'.
Proof.
  intros [W1 W2 W3 W4] Hn Hop Hg0 [H1 H2 _ H4 _ _ H6 _] Ep0 Em0 Ec0 Hpk.
  assert (grows w w') as Hg by by etrans. split; [split; simpl|done| |done| |by left]; simpl.
  - intros m x. rewrite lookup_insert_Some. intros [[<- <-]|[_ Hx]]; [done|by eapply W1].
  - intros m x. rewrite lookup_insert_Some. intros [[<- <-]|[_ Hx]]; [|by eapply W2]. destruct H6 as (-> & -> & _). done.
  - intros m x p sp. rewrite lookup_insert_Some. intros [[<- <-]|[_ Hx]] Hp Hnx; [|by eapply W3].
    destruct (H4 p sp Hp) as [(sp0 & Hp0 & _)|HN]; [|done]. rewrite Ep0 in Hp0. done.
  - intros m g. destruct Hpk as [->|[-> _]]; [apply W4|]. rewrite lookup_delete_Some. intros [_ Hg']. by eapply W4.
  - intros st [(m & g & e & Hm & He & <-)|[(m & x & Hx & Ht)|[c Hc]]]; [|right; left|right; right; exists c; by eapply grows_log].
    + destruct (decide (msg = m)) as [<-|Hne].
      * destruct Hpk as [->|[-> Ht]]; [left; by exists msg, g, e|]. right. left. exists msg, s. simpl. rewrite lookup_insert_eq. split; [done|]. by eapply Ht.
      * left. exists m, g, e. simpl. destruct Hpk as [->|[-> _]]; [done|]. by rewrite lookup_delete_ne.
    + exists m, x. simpl. rewrite lookup_insert_ne by congruence. split; [done|]. eapply carries_grows; [exact Hg|done|done|exact Ht].
  - intros m (x & Hx & Hl). revert Hx. simpl. rewrite lookup_insert_Some. intros [[<- <-]|[_ Hx]]; [|left; by exists x].
    destruct Hop as [|E]; [by right|]. rewrite E in Hl. simpl in Hl. lia.
Qed.

(** A preamble from which a relay strategy is made without a panic. *)
Definition relay_ok (msg : MessageID) (preamble : bytes) : Prop :=
  forall p, w_Unmarshal preamble = Ok p ->
    exists r, NewRelay scheme msg p = Some r /\ forall st, r = Ok st -> starts false st.

Lemma createRelaySession_spec X now msg pre peer routing tr w :
  wf_except X tr -> opens msg -> tr_sessions tr !! msg = None -> relay_ok msg pre ->
  exists r w', createRelaySession scheme choice st_attached now msg pre peer routing tr w = Some (r, w') /\
    match r with
    | Err _ => w' = w
    | Ok tr' => chandled X tr w tr' w' /\ tr_parked tr' = delete msg (tr_parked tr) /\ tr_members tr' = tr_members tr /\
                exists s', tr_sessions tr' = <[msg := s']> (tr_sessions tr) /\ (stage_nat (ss_stage s') < stage_nat stageReconstructed)%nat
    end.
Proof using choice_perm.
  intros Hw Hop Hn Hr. unfold createRelaySession. destruct (w_Unmarshal pre) as [p|e] eqn:Eu; [|by do 2 eexists].
  destruct (Hr p Eu) as (r & -> & Hst). cbn [mbind option_bind]. destruct r as [st|e]; [|by do 2 eexists].
  destruct (newSession_spec now msg pre false st tr w (Hst st eq_refl)) as (s0 & w0 & -> & S1 & S2 & S3 & S4 & S5 & S6 & S7).
  cbn [range]. pose proof (grows_range choice (dom (tr_members tr)) w0) as Hgr. cbn [range snd] in Hgr. unfold range. set (w1 := mk_world _ _ _ _ _ _) in *.
  destruct (attach_members_spec (tr_members tr) (choice (w_ranges w0) (dom (tr_members tr))) s0 w1 S1) as (s1 & w2 & -> & H1).
  cbn [mbind option_bind fst snd].
  assert (exists s2 w3, match routing with [] => Some (s1, w2) | _ => handleRoutingUpdate choice st_attached peer routing s1 w2 end = Some (s2, w3)
    /\ handled (joins (tr_members tr)) s1 w2 s2 w3) as (s2 & w3 & -> & H2).
  { destruct routing; [do 2 eexists; split; [done|]; apply handled_refl, H1|]. apply handleRoutingUpdate_spec; [done|apply H1]. }
  cbn [mbind option_bind fst snd].
  assert (exists s3 w4, match tr_parked tr !! msg with Some g => flush_parked (pg_streams g) s2 w3 | None => Some (s2, w3) end = Some (s3, w4)
    /\ handled (joins (tr_members tr)) s2 w3 s3 w4 /\
    forall g e, tr_parked tr !! msg = Some g -> e ∈ pg_streams g -> tracked s3 w4 (cs_stream e)) as (s3 & w4 & -> & H3 & T3).
  { destruct (tr_parked tr !! msg) as [g|].
    - destruct (flush_parked_spec (joins (tr_members tr)) (pg_streams g) s2 w3 (hd_wf _ _ _ _ _ H2)) as (s3 & w4 & -> & H3 & T3).
      do 2 eexists. split; [done|]. split; [done|]. intros g' e [= <-]. apply T3.
    - do 2 eexists. split; [done|]. split; [apply handled_refl, H2|done]. }
  cbn [mbind option_bind fst snd]. do 2 eexists. split; [done|].
  pose proof (handled_trans _ _ _ _ _ _ _ H1 (handled_trans _ _ _ _ _ _ _ H2 H3)) as H.
  pose proof (chandled_add X msg s0 w1 s3 tr w w4 _ Hw Hn (or_introl Hop) (transitivity S2 Hgr) H S3 S4 S5 (or_intror (conj eq_refl T3))) as HC.
  split; [|split; [done|split; [done|]]].
  - eapply chandled_trans; [exact HC|]. apply chandled_refl; [apply HC|apply grows_emit].
  - exists s3. split; [done|]. destruct (hd_not_reconstructed _ _ _ _ _ H) as [->|[_ ->]]; [rewrite S6|]; simpl; lia.
Qed.

Lemma handleSessionOpen_spec X now peer msg pre update tr w :
  wf_except X tr -> opens msg -> (tr_sessions tr !! msg = None -> relay_ok msg pre) ->
  exists tr' w', handleSessionOpen scheme choice st_attached now peer msg pre update tr w = Some (tr', w') /\ chandled X tr w tr' w'.
Proof using choice_perm.
  intros Hw Hop Hr. unfold handleSessionOpen. destruct (tr_sessions tr !! msg) as [s|] eqn:Es.
  - destruct update; [do 2 eexists; split; [done|]; by apply chandled_refl|]. apply on_session_ok; [done|].
    intros. by apply handleRoutingUpdate_spec.
  - destruct (createRelaySession_spec X now msg pre peer update tr w Hw Hop Es (Hr eq_refl)) as (r & w' & -> & H).
    cbn [mbind option_bind fst snd]. destruct r as [tr'|e]; do 2 eexists; (split; [done|]); [apply H|]. subst w'. apply chandled_refl; [done|apply grows_emit].
Qed.

Lemma handlePublish_spec X now msg st pre tr w :
  wf_except X tr -> starts true st ->
  exists tr' w', handlePublish choice st_attached now msg st pre tr w = Some (tr', w') /\ chandled X tr w tr' w' /\
    last (w_log w') = Some (FxPublished msg) /\
    exists s', tr_sessions tr' !! msg = Some s' /\ ss_stage s' = stageOrigin.
Proof using choice_perm.
  intros Hw Hst. unfold handlePublish.
  destruct (disposeSession_spec X msg "replaced"%string tr w Hw) as (tr1 & w1 & -> & H1 & Es1 & Em1 & _).
  destruct (newSession_spec now msg pre true st tr1 w1 Hst) as (s0 & w2 & -> & S1 & S2 & S3 & S4 & S5 & S6 & S7).
  pose proof (grows_range choice (dom (tr_members tr1)) w2) as Hgr. cbn [range snd] in Hgr. unfold range. set (w3 := mk_world _ _ _ _ _ _) in *.
  destruct (attach_members_spec (tr_members tr1) (choice (w_ranges w2) (dom (tr_members tr1))) s0 w3 S1) as (s1 & w4 & -> & H2).
  cbn [mbind option_bind fst snd].
  destruct (handled_drain choice choice_perm (joins (tr_members tr1)) s0 w3 s1 w4 H2) as (s2 & w5 & -> & H3).
  cbn [mbind option_bind fst snd]. do 2 eexists. split; [done|].
  assert (ss_stage s2 = stageOrigin) as Est by (destruct (hd_not_reconstructed _ _ _ _ _ H3) as [->|[E _]]; congruence).
  assert (chandled X tr1 w1 (put_sess msg s2 tr1) w5) as H4.
  { change (put_sess msg s2 tr1) with (with_parked (tr_parked tr1) (put_sess msg s2 tr1)).
    refine (chandled_add X msg s0 w3 s2 tr1 w1 w5 _ (ch_wf _ _ _ _ _ H1) _ (or_intror Est) (transitivity S2 Hgr) H3 S3 S4 S5 (or_introl eq_refl)).
    by rewrite Es1, lookup_delete_eq. }
  split; [|split].
  - eapply chandled_trans; [exact H1|]. eapply chandled_trans; [exact H4|]. apply chandled_refl; [apply H4|]. etrans; [|apply grows_emit]. apply grows_emit.
  - simpl. by rewrite last_snoc.
  - exists s2. simpl. rewrite lookup_insert_eq. done.
Qed.

(** *** Membership *)

Lemma bind_sessions_spec X conn peer order : forall tr w,
  wf_except X tr -> tr_members tr !! peer = Some conn ->
  exists tr' w', bind_sessions choice st_attached conn peer order tr w = Some (tr', w') /\ chandled X tr w tr' w' /\
    tr_members tr' = tr_members tr /\ dom (tr_sessions tr') = dom (tr_sessions tr) /\
    forall m s, tr_sessions tr' !! m = Some s ->
      (m ∈ order -> is_Some (ss_peers s !! peer)) /\ (m ∉ order -> tr_sessions tr !! m = Some s).
Proof using choice_perm.
  induction order as [|msg order IH]; intros tr w Hw Hm; simpl.
  { do 2 eexists. split; [done|]. split; [by apply chandled_refl|]. repeat (split; [done|]). intros m s Hs. split; [by intros ?%elem_of_nil|done]. }
  assert (exists tr1 w1, on_session msg (handlePeerAttached choice st_attached conn peer) tr w = Some (tr1, w1) /\
    chandled X tr w tr1 w1 /\ tr_members tr1 = tr_members tr /\ dom (tr_sessions tr1) = dom (tr_sessions tr) /\
    (forall m, m <> msg -> tr_sessions tr1 !! m = tr_sessions tr !! m) /\
    forall s, tr_sessions tr1 !! msg = Some s -> is_Some (ss_peers s !! peer)) as (tr1 & w1 & -> & H1 & Em1 & Ed1 & Hn1 & Hp1).
  { unfold on_session. destruct (tr_sessions tr !! msg) as [s|] eqn:Es.
    2:{ do 2 eexists. split; [done|]. split; [by apply chandled_refl|]. repeat (split; [done|]). intros s. by rewrite Es. }
    destruct (handlePeerAttached_spec choice choice_perm (joins (tr_members tr)) conn peer s w (cw_session _ _ Hw _ _ Es) Hm) as (s' & w' & -> & H & A & B).
    do 2 eexists. split; [done|]. split; [by eapply chandled_put|]. split; [done|]. cbn [fst snd]. simpl. split; [|split].
    - rewrite dom_insert_L. apply elem_of_dom_2 in Es. clear dependent choice. set_solver.
    - intros m Hne. by rewrite lookup_insert_ne.
    - rewrite lookup_insert_eq. intros x [= <-]. destruct (ss_peers s !! peer) as [sp|] eqn:Ep.
      + destruct (B ltac:(by eexists)) as [-> _]. by rewrite Ep.
      + destruct (A eq_refl) as [ob ->]. rewrite lookup_insert_eq. by eexists. }
  cbn [mbind option_bind fst snd]. destruct (IH tr1 w1 (ch_wf _ _ _ _ _ H1)) as (tr' & w' & -> & H2 & Em2 & Ed2 & Hs2); [by rewrite Em1|].
  do 2 eexists. split; [done|]. split; [by eapply chandled_trans|]. split; [congruence|]. split; [congruence|].
  intros m s Hs. destruct (Hs2 m s Hs) as [A B]. split.
  - intros Hin. destruct (decide (m ∈ order)); [by apply A|]. apply elem_of_cons in Hin as [->|]; [|done]. by apply Hp1, B.
  - intros [Hne Hn]%not_elem_of_cons. rewrite <-Hn1 by done. by apply B.
Qed.

Lemma wf_members X X' m tr :
  wf_except X tr -> (forall msg s p sp, tr_sessions tr !! msg = Some s -> ss_peers s !! p = Some sp -> p ∉ X' -> m !! p = Some (sp_conn sp)) ->
  wf_except X' (with_members m tr).
Proof. intros [W1 W2 W3 W4] H. by split. Qed.

Lemma owned_members m tr w st : owned (with_members m tr) w st <-> owned tr w st.
Proof. done. Qed.

Lemma handlePeerBound_spec peer conn tr w :
  channel_wf tr -> (tr_members tr !! peer = None \/ tr_members tr !! peer = Some conn) ->
  exists tr' w', handlePeerBound choice st_attached peer conn tr w = Some (tr', w') /\ chandled ∅ tr w tr' w' /\
    tr_members tr' = <[peer := conn]> (tr_members tr) /\
    (tr_members tr !! peer = None -> forall m s, tr_sessions tr' !! m = Some s -> is_Some (ss_peers s !! peer)).
Proof using choice_perm.
  intros Hw Hm. unfold handlePeerBound. case_decide as Ed.
  { do 2 eexists. split; [done|]. split; [by apply chandled_refl|]. rewrite insert_id by done. split; [done|]. intros E. congruence. }
  destruct Hm as [Hm|]; [|done]. cbv zeta. set (tr1 := with_members _ tr).
  pose proof (grows_range choice (dom (tr_sessions tr1)) w) as Hgr. cbn [range snd] in Hgr. unfold range. set (w1 := mk_world _ _ _ _ _ _) in *.
  assert (channel_wf tr1) as Hw1.
  { eapply wf_members; [exact Hw|]. intros msg s p sp Hs Hp Hn. pose proof (cw_conn _ _ Hw msg s p sp Hs Hp Hn). rewrite lookup_insert_ne by congruence. done. }
  destruct (bind_sessions_spec ∅ conn peer (choice (w_ranges w) (dom (tr_sessions tr1))) tr1 w1 Hw1) as (tr' & w' & -> & H & Em & Edm & Hs).
  { simpl. by rewrite lookup_insert_eq. }
  do 2 eexists. split; [done|]. split; [|split; [done|]].
  - destruct H as [A1 A2 A3 A4 A5 A6]. split; [done|by etrans| |done|exact A5|exact A6]. intros st Ho. apply A3. eapply owned_grows; [exact Hgr|]. by apply owned_members.
  - intros _ m s Hl. apply (Hs m s Hl). rewrite choice_perm. apply elem_of_elements. rewrite <-Edm. by apply elem_of_dom_2 in Hl.
Qed.

Lemma handlePeerUnbound_spec peer tr w :
  channel_wf tr ->
  exists tr' w', handlePeerUnbound choice peer tr w = (tr', w') /\ chandled ∅ tr w tr' w' /\
    tr_members tr' = delete peer (tr_members tr) /\
    (forall m s, tr_sessions tr' !! m = Some s -> ss_peers s !! peer = None) /\
    (forall m g, tr_parked tr' !! m = Some g -> Forall (fun c => cs_peerID c <> peer) (pg_streams g)).
Proof using choice_perm.
  intros Hw. unfold handlePeerUnbound. cbv zeta. set (tr1 := with_members _ tr).
  pose proof (grows_range choice (dom (tr_parked tr1)) w) as Hgr. cbn [range snd] in Hgr. unfold range. set (w1 := mk_world _ _ _ _ _ _) in *.
  assert (wf_except {[peer]} tr1) as Hw1.
  { eapply wf_members; [exact Hw|]. intros msg s p sp Hs Hp Hn%not_elem_of_singleton. rewrite lookup_delete_ne by done. by eapply (cw_conn _ _ Hw). }
  destruct (unpark_peer_spec _ peer (choice (w_ranges w) (dom (tr_parked tr1))) tr1 w1 Hw1) as (tr2 & w2 & -> & H2 & Em2 & Es2 & Hp2).
  pose proof (grows_range choice (dom (tr_sessions tr2)) w2) as Hgr2. cbn [range snd] in Hgr2. set (w3 := mk_world (w_ctrl w2) _ _ _ _ _) in *.
  cbv beta iota.
  destruct (unbind_sessions_spec _ peer (choice (w_ranges w2) (dom (tr_sessions tr2))) tr2 w3 (ch_wf _ _ _ _ _ H2)) as (tr' & w' & -> & H3 & Em3 & Hk3 & Hs3).
  do 2 eexists. split; [done|].
  assert (forall m s, tr_sessions tr' !! m = Some s -> ss_peers s !! peer = None) as Hgone.
  { intros m s Hs. destruct (Hs3 m s Hs) as [A B]. apply A. rewrite choice_perm. apply elem_of_elements.
    destruct (decide (m ∈ dom (tr_sessions tr2))); [done|]. exfalso.
    assert (tr_sessions tr2 !! m = Some s) as Hl by (apply B; rewrite choice_perm; by rewrite elem_of_elements). by apply elem_of_dom_2 in Hl. }
  split; [|split; [by rewrite Em3, Em2|split; [done|]]].
  - destruct H2 as [A1 A2 A3 A4 A5 A6], H3 as [B1 B2 B3 B4 B5 B6]. split.
    + destruct B1 as [W1 W2 W3 W4]. split; try done. intros msg s p sp Hs Hp _. eapply W3; [done..|].
      intros ->%elem_of_singleton. rewrite (Hgone _ _ Hs) in Hp. done.
    + do 2 (etrans; [eassumption|]). by etrans.
    + intros st Ho. apply B3. eapply owned_grows; [exact Hgr2|]. apply A3. eapply owned_grows; [exact Hgr|]. by apply owned_members.
    + by rewrite B4, A4.
    + intros m [H|H]%B5; [|by right]. by apply A5.
    + destruct B6 as [->|]; [exact A6|by right].
  - intros m g Hg. eapply lookup_weaken in Hg; [|exact Hk3]. destruct (Hp2 m g Hg) as [A B]. apply A. rewrite choice_perm. apply elem_of_elements.
    destruct (decide (m ∈ dom (tr_parked tr1))); [done|]. exfalso.
    assert (tr_parked tr1 !! m = Some g) as Hl by (apply B; rewrite choice_perm; by rewrite elem_of_elements). by apply elem_of_dom_2 in Hl.
Qed.

(** *** Expiry *)

Lemma expire_sessions_spec X now order : forall tr w,
  wf_except X tr ->
  exists tr' w', expire_sessions choice now order tr w = (tr', w') /\ chandled X tr w tr' w' /\
    tr_members tr' = tr_members tr /\ tr_parked tr' ⊆ tr_parked tr /\
    forall m s, tr_sessions tr' !! m = Some s <->
      tr_sessions tr !! m = Some s /\ (m ∈ order -> now - ss_createdAt s < activeSessionTTL).
Proof using choice_perm.
  induction order as [|msg order IH]; intros tr w Hw; simpl.
  { do 2 eexists. split; [done|]. split; [by apply chandled_refl|]. repeat (split; [done|]). intros m s. split; [|by intros [? _]].
    intros. split; [done|]. by intros ?%elem_of_nil. }
  assert (exists tr1 w1, match tr_sessions tr !! msg with
                      | Some s => if now - ss_createdAt s >=? activeSessionTTL
                                  then disposeSession choice msg "ttl_expired"%string tr w else (tr, w)
                      | None => (tr, w)
                      end = (tr1, w1) /\ chandled X tr w tr1 w1 /\ tr_members tr1 = tr_members tr /\ tr_parked tr1 ⊆ tr_parked tr /\
    forall m s, tr_sessions tr1 !! m = Some s <-> tr_sessions tr !! m = Some s /\ (m = msg -> now - ss_createdAt s < activeSessionTTL))
    as (tr1 & w1 & -> & H1 & Em1 & Ek1 & Hs1).
  { destruct (tr_sessions tr !! msg) as [s|] eqn:Es; [case_match eqn:Et; z_bool|].
    - destruct (disposeSession_spec X msg "ttl_expired"%string tr w Hw) as (tr1 & w1 & -> & H1 & Es1 & Em1 & Hk1 & _).
      do 2 eexists. split; [done|]. repeat (split; [done|]). intros m x. rewrite Es1, lookup_delete_Some. split.
      + intros [Hne Hx]. split; [done|]. congruence.
      + intros [Hx Hm]. split; [|done]. intros <-. assert (x = s) as -> by congruence. specialize (Hm eq_refl). lia.
    - do 2 eexists. split; [done|]. split; [by apply chandled_refl|]. repeat (split; [done|]). intros m x. split; [|by intros [? _]].
      intros Hx. split; [done|]. intros ->. assert (x = s) as -> by congruence. lia.
    - do 2 eexists. split; [done|]. split; [by apply chandled_refl|]. repeat (split; [done|]). intros m x. split; [|by intros [? _]].
      intros Hx. split; [done|]. congruence. }
  destruct (IH tr1 w1 (ch_wf _ _ _ _ _ H1)) as (tr' & w' & -> & H2 & Em2 & Ek2 & Hs2).
  do 2 eexists. split; [done|]. split; [by eapply chandled_trans|]. split; [congruence|]. split; [by etrans|].
  intros m s. rewrite Hs2, Hs1, elem_of_cons. clear dependent choice. naive_solver.
Qed.

Lemma expire_parked_spec X now order : forall tr w,
  wf_except X tr ->
  exists tr' w', expire_parked now order tr w = (tr', w') /\ chandled X tr w tr' w' /\
    tr_members tr' = tr_members tr /\ tr_sessions tr' = tr_sessions tr /\
    forall m g, tr_parked tr' !! m = Some g <->
      tr_parked tr !! m = Some g /\ (m ∈ order -> now - pg_at g < activeSessionTTL).
Proof.
  induction order as [|msg order IH]; intros tr w Hw; simpl.
  { do 2 eexists. split; [done|]. split; [by apply chandled_refl|]. repeat (split; [done|]). intros m s. split; [|by intros [? _]].
    intros. split; [done|]. by intros ?%elem_of_nil. }
  assert (exists tr1 w1, match tr_parked tr !! msg with
                      | Some g => if now - pg_at g >=? activeSessionTTL
                                  then (with_parked (delete msg (tr_parked tr)) tr, cancel_streams (pg_streams g) Refused w)
                                  else (tr, w)
                      | None => (tr, w)
                      end = (tr1, w1) /\ chandled X tr w tr1 w1 /\ tr_members tr1 = tr_members tr /\ tr_sessions tr1 = tr_sessions tr /\
    forall m (s : parkedGroup), tr_parked tr1 !! m = Some s <-> tr_parked tr !! m = Some s /\ (m = msg -> now - pg_at s < activeSessionTTL))
    as (tr1 & w1 & -> & H1 & Em1 & Ek1 & Hs1).
  { destruct (tr_parked tr !! msg) as [g|] eqn:Es; [case_match eqn:Et; z_bool|].
    - do 2 eexists. split; [done|]. split; [by apply unpark_all|]. repeat (split; [done|]). intros m x. simpl. rewrite lookup_delete_Some. split.
      + intros [Hne Hx]. split; [done|]. congruence.
      + intros [Hx Hm]. split; [|done]. intros <-. assert (x = g) as -> by congruence. specialize (Hm eq_refl). lia.
    - do 2 eexists. split; [done|]. split; [by apply chandled_refl|]. repeat (split; [done|]). intros m x. split; [|by intros [? _]].
      intros Hx. split; [done|]. intros ->. assert (x = g) as -> by congruence. lia.
    - do 2 eexists. split; [done|]. split; [by apply chandled_refl|]. repeat (split; [done|]). intros m x. split; [|by intros [? _]].
      intros Hx. split; [done|]. congruence. }
  destruct (IH tr1 w1 (ch_wf _ _ _ _ _ H1)) as (tr' & w' & -> & H2 & Em2 & Ek2 & Hs2).
  do 2 eexists. split; [done|]. split; [by eapply chandled_trans|]. split; [congruence|]. split; [congruence|].
  intros m s. rewrite Hs2, Hs1, elem_of_cons. clear dependent choice. naive_solver.
Qed.

Lemma expireDue_spec X now tr w :
  wf_except X tr ->
  exists tr' w', expireDue choice now tr w = (tr', w') /\ chandled X tr w tr' w' /\ tr_members tr' = tr_members tr /\
    (forall m s, tr_sessions tr' !! m = Some s <-> tr_sessions tr !! m = Some s /\ now - ss_createdAt s < activeSessionTTL) /\
    (forall m g, tr_parked tr' !! m = Some g -> tr_parked tr !! m = Some g /\ now - pg_at g < activeSessionTTL).
Proof using choice_perm.
  intros Hw. unfold expireDue.
  pose proof (grows_range choice (dom (tr_sessions tr)) w) as Hgr. cbn [range snd] in Hgr. unfold range. set (w1 := mk_world (w_ctrl w) _ _ _ _ _) in *.
  destruct (expire_sessions_spec X now (choice (w_ranges w) (dom (tr_sessions tr))) tr w1 Hw) as (tr1 & w2 & -> & H1 & Em1 & Ek1 & Hs1).
  pose proof (grows_range choice (dom (tr_parked tr1)) w2) as Hgr2. cbn [range snd] in Hgr2. set (w3 := mk_world (w_ctrl w2) _ _ _ _ _) in *.
  cbv beta iota.
  destruct (expire_parked_spec X now (choice (w_ranges w2) (dom (tr_parked tr1))) tr1 w3 (ch_wf _ _ _ _ _ H1)) as (tr' & w' & -> & H2 & Em2 & Es2 & Hp2).
  do 2 eexists. split; [done|]. split; [|split; [congruence|]].
  - eapply chandled_trans; [apply (chandled_refl X tr w w1); [done|exact Hgr]|]. eapply chandled_trans; [exact H1|].
    eapply chandled_trans; [|exact H2]. apply chandled_refl; [apply H1|exact Hgr2].
  - split.
    + intros m s. rewrite Es2, Hs1, choice_perm, elem_of_elements, elem_of_dom. split; [|naive_solver]. intros [Hs Hy]. split; [done|]. by eauto.
    + intros m g. rewrite Hp2, choice_perm, elem_of_elements, elem_of_dom. intros [Hg Hy]. split; [by eapply lookup_weaken|by eauto].
Qed.

(** *** Decoding and delivery *)

Lemma chandled_sub X sub tr w w' :
  wf_except X tr -> delivers -> grows w w' ->
  chandled X tr w (mk_channel (tr_id tr) sub (tr_members tr) (tr_sessions tr) (tr_parked tr)) w'.
Proof.
  intros Hw Hd Hg. split; [|done| |done|by left|by right].
  - destruct Hw. by split.
  - intros st Ho. by apply (owned_grows tr w w').
Qed.

Lemma deliverMessage_spec X msg payload tr w :
  wf_except X tr -> delivers ->
  exists tr' w', deliverMessage msg payload tr w = (tr', w') /\ chandled X tr w tr' w' /\
    tr_sessions tr' = tr_sessions tr /\ tr_members tr' = tr_members tr /\ tr_parked tr' = tr_parked tr.
Proof.
  intros Hw Hd. unfold deliverMessage. destruct (tr_sub tr) as [sub|]; [destruct (length (sub_sent sub) - sub_taken sub <? sub_cap sub)%nat|];
    do 2 eexists; (split; [done|]); (split; [|done]).
  - apply chandled_sub; [done|done|]. etrans; [|apply grows_emit]. apply grows_emit.
  - apply chandled_refl; [done|]. etrans; [|apply grows_emit]. apply grows_emit.
  - apply chandled_refl; [done|]. apply grows_emit.
Qed.

(** A session that reconstructed still tracks its streams. *)
Lemma chandled_stage X msg s tr w :
  wf_except X tr -> tr_sessions tr !! msg = Some s ->
  chandled X tr w (put_sess msg (with_stage stageReconstructed s) tr) w.
Proof.
  intros [W1 W2 W3 W4] Hs. split; [split; simpl; [..|done]|done| |done| |by left].
  - intros m x. rewrite lookup_insert_Some. intros [[<- <-]|[_ Hx]]; [|by eapply W1]. destruct (W1 _ _ Hs). by split.
  - intros m x. rewrite lookup_insert_Some. intros [[<- <-]|[_ Hx]]; [by apply (W2 msg s)|by eapply W2].
  - intros m x p sp. rewrite lookup_insert_Some. intros [[<- <-]|[_ Hx]]; [|by eapply W3]. by apply (W3 msg s).
  - intros st [H|[(m & x & Hx & Ht)|H]]; [by left| |by right; right]. right. left. destruct (decide (msg = m)) as [<-|Hne].
    + simplify_eq. exists msg, (with_stage stageReconstructed s). simpl. rewrite lookup_insert_eq. by split.
    + exists m, x. simpl. rewrite lookup_insert_ne by done. by split.
  - intros m (x & Hx & Hl). left. revert Hx. simpl. rewrite lookup_insert_Some. intros [[<- <-]|[_ Hx]]; [|by exists x].
    simpl in Hl. lia.
Qed.

Lemma handleDecoded_spec X msg r tr w :
  wf_except X tr -> delivers ->
  exists tr' w', handleDecoded choice msg r tr w = (tr', w') /\ chandled X tr w tr' w' /\ tr_members tr' = tr_members tr.
Proof using choice_perm.
  intros Hw Hd. unfold handleDecoded. destruct (tr_sessions tr !! msg) as [s|] eqn:Es.
  2:{ do 2 eexists. split; [done|]. split; [by apply chandled_refl|done]. }
  case_match eqn:Est; [|do 2 eexists; split; [done|]; split; [by apply chandled_refl|done]].
  destruct r as [payload|e]; [|do 2 eexists; split; [done|]; split; [apply chandled_refl; [done|apply grows_emit]|done]].
  destruct (deliverMessage_spec X (ss_messageID s) payload tr w Hw Hd) as (tr1 & w1 & -> & H1 & E1 & E2 & E3). cbv zeta.
  assert (tr_sessions tr1 !! msg = Some s) as Es1 by by rewrite E1.
  pose proof (chandled_stage X msg s tr1 w1 (ch_wf _ _ _ _ _ H1) Es1) as H2.
  destruct (disposeIfIdle_spec X msg (with_stage stageReconstructed s) (put_sess msg (with_stage stageReconstructed s) tr1) w1 (ch_wf _ _ _ _ _ H2))
    as (tr' & w' & -> & H3 & _ & Em & _); [simpl; by rewrite lookup_insert_eq|].
  do 2 eexists. split; [done|]. split; [|by rewrite Em]. eapply chandled_trans; [exact H1|]. by eapply chandled_trans.
Qed.

(** *** Chunk streams *)

Lemma handleChunk_spec X now e tr w :
  wf_except X tr ->
  exists tr' w', handleChunk now e tr w = Some (tr', w') /\ chandled X tr w tr' w' /\ owned tr' w' (cs_stream e).
Proof.
  intros Hw. unfold handleChunk. destruct (tr_sessions tr !! cs_objectId e) as [s|] eqn:Es.
  - destruct (drainReads_spec none s w (cw_session _ _ Hw _ _ Es)) as (s1 & w1 & -> & H1 & _). cbn [mbind option_bind fst snd].
    destruct (handleChunkStream_spec none (cs_peerID e) (cs_chunkId e) (cs_dataLength e) (cs_stream e) s1 w1 (hd_wf _ _ _ _ _ H1)) as (s2 & w2 & -> & H2 & T & _).
    cbn [mbind option_bind fst snd]. do 2 eexists. split; [done|]. split.
    + eapply chandled_put; [done|done|by eapply handled_trans|done].
    + right. left. exists (cs_objectId e), s2. simpl. by rewrite lookup_insert_eq.
  - destruct (tr_parked tr !! cs_objectId e) as [g|] eqn:Eg; [destruct (Nat.leb_spec maxParkedChunks (length (pg_streams g)))|].
    + do 2 eexists. split; [done|]. split; [apply chandled_refl; [done|apply grows_emit]|].
      right. right. exists (Some Unspecified). simpl. apply elem_of_app. right. by apply list_elem_of_singleton.
    + do 2 eexists. split; [done|]. split; [|left; exists (cs_objectId e), (mk_parked (pg_at g) (pg_streams g ++ [e])), e].
      * apply park_more; [done|done|cbn [pg_streams]; rewrite length_app; cbn [length]; lia|]. intros g' c Hg' Hc. simplify_eq. apply elem_of_app. by left.
      * simpl. rewrite lookup_insert_eq. split; [done|]. split; [|done]. apply elem_of_app. right. by apply list_elem_of_singleton.
    + do 2 eexists. split; [done|]. split; [|left; exists (cs_objectId e), (mk_parked now [e]), e].
      * apply park_more; [done|apply grows_emit|unfold maxParkedChunks; simpl; lia|]. intros g' c Hg'. congruence.
      * simpl. rewrite lookup_insert_eq. split; [done|]. split; [|done]. by apply list_elem_of_singleton.
Qed.

(** *** Every event *)

(** What the channel relies on of an event: a peer is bound again only after it
    was unbound, and strategies start without peers (an open carries a
    preamble the scheme can make one from). *)
Definition ev_ok tr (evt : channelEvent St) : Prop :=
  match evt with
  | channelPeerChange peer (Some conn) => tr_members tr !! peer = None \/ tr_members tr !! peer = Some conn
  | channelPublish _ st _ => starts true st
  | channelSessionOpen _ msg preamble _ => tr_sessions tr !! msg = None -> relay_ok msg preamble
  | _ => True
  end.

Definition opened_by (evt : channelEvent St) (msg : MessageID) : Prop :=
  match evt with channelSessionOpen _ m _ _ => m = msg | _ => False end.
#[global] Instance opened_by_dec evt msg : Decision (opened_by evt msg).
Proof. destruct evt; simpl; apply _. Defined.
Definition decoded_by (evt : channelEvent St) : Prop :=
  match evt with channelDecoded _ _ => True | _ => False end.

Lemma handle_ok now evt tr w :
  channel_wf tr -> ev_ok tr evt -> (forall msg, opened_by evt msg -> opens msg) -> (decoded_by evt -> delivers) ->
  exists tr' w', handle scheme choice st_attached now evt tr w = Some (tr', w') /\ chandled ∅ tr w tr' w' /\
    (forall e, evt = channelChunk e -> owned tr' w' (cs_stream e)).
Proof using choice_perm.
  intros Hw He Ho Hd.
  assert (forall msg f, (forall s w, session_wf s -> exists s' w', f s w = Some (s', w') /\ handled none s w s' w') ->
    exists tr' w', on_session msg f tr w = Some (tr', w') /\ chandled ∅ tr w tr' w') as Hon by (intros; by apply on_session_ok).
  destruct evt as [|msg|e|msg p id d|p msg pre u|p [c|]|msg st pre|msg p h er n|p msg d|msg p|msg p c|msg p id d v|msg r]; simpl in *.
  - destruct (expireDue_spec ∅ now tr w Hw) as (tr' & w' & -> & H & _). by exists tr', w'.
  - destruct (Hon msg drainReads) as (tr' & w' & -> & H); [|by exists tr', w'].
    intros s v Hs. destruct (drainReads_spec none s v Hs) as (s' & v' & E & H & _). by exists s', v'.
  - destruct (handleChunk_spec ∅ now e tr w Hw) as (tr' & w' & -> & H & Hc). exists tr', w'. split; [done|]. split; [done|]. by intros ? [= <-].
  - destruct (Hon msg (handleChunkData choice st_attached p id d)) as (tr' & w' & -> & H); [|by exists tr', w'].
    intros. by apply handleChunkData_spec.
  - destruct (handleSessionOpen_spec ∅ now p msg pre u tr w Hw (Ho msg eq_refl) He) as (tr' & w' & -> & H). by exists tr', w'.
  - destruct (handlePeerBound_spec p c tr w Hw He) as (tr' & w' & -> & H & _). by exists tr', w'.
  - destruct (handlePeerUnbound_spec p tr w Hw) as (tr' & w' & -> & H & _). by exists tr', w'.
  - destruct (handlePublish_spec ∅ now msg st pre tr w Hw He) as (tr' & w' & -> & H & _). by exists tr', w'.
  - destruct (Hon msg (handleSendComplete choice st_attached p h er n)) as (tr' & w' & -> & H); [|by exists tr', w'].
    intros. by apply handleSendComplete_spec.
  - destruct (Hon msg (handleRoutingUpdate choice st_attached p d)) as (tr' & w' & -> & H); [|by exists tr', w'].
    intros. by apply handleRoutingUpdate_spec.
  - destruct (tr_sessions tr !! msg) as [s|] eqn:Es; [|exists tr, w; split; [done|]; split; [by apply chandled_refl|done]].
    destruct (handlePeerCompleted_spec none p s w (cw_session _ _ Hw _ _ Es)) as (s' & w1 & -> & H & _).
    pose proof (chandled_put ∅ msg s s' tr w w1 none Hw Es H ltac:(done)) as H1.
    destruct (disposeIfIdle_spec ∅ msg s' (put_sess msg s' tr) w1 (ch_wf _ _ _ _ _ H1)) as (tr' & w' & -> & H2 & _); [simpl; by rewrite lookup_insert_eq|].
    exists tr', w'. split; [done|]. split; [by eapply chandled_trans|done].
  - case_decide; [|exists tr, w; split; [done|]; split; [by apply chandled_refl|done]].
    destruct (drop_from_session_spec ∅ p msg tr w Hw) as (tr' & w' & -> & H1 & _). by exists tr', w'.
  - destruct (Hon msg (handleVerifyResult choice st_attached p id d v)) as (tr' & w' & -> & H); [|by exists tr', w'].
    intros. by apply handleVerifyResult_spec.
  - destruct (handleDecoded_spec ∅ msg r tr w Hw (Hd I)) as (tr' & w' & -> & H & _). by exists tr', w'.
Qed.
End laws.

(** ** Shutdown *)

Section shutdown.
Context {CI R St : Type} `{!ChunkIdentI CI} `{!Wire R} `{!Strategy CI R St} `{!StrategyLaws CI R St}.
Context (choice : nat -> gset bytes -> list bytes).
Hypothesis choice_perm : forall n X, choice n X ≡ₚ elements X.

Implicit Types (tr : channel_state St) (w : world).

Lemma close_sessions_spec order tr : forall w,
  grows w (close_sessions choice order tr w) /\
  forall m s st, m ∈ order -> tr_sessions tr !! m = Some s -> tracked s w st ->
    exists c, FxStreamEnd st c ∈ w_log (close_sessions choice order tr w).
Proof using choice_perm.
  induction order as [|msg order IH]; intros w; cbn [close_sessions]; [split; [done|]; by intros ? ? ? ?%elem_of_nil|].
  set (w1 := match tr_sessions tr !! msg with Some _ => _ | None => w end). destruct (IH w1) as [Hg Hs].
  assert (grows w w1 /\ forall s st, tr_sessions tr !! msg = Some s -> tracked s w st -> exists c, FxStreamEnd st c ∈ w_log w1) as [Hg1 Hs1].
  { unfold w1. destruct (tr_sessions tr !! msg) as [s|]; [|by split].
    destruct (closeWithCode_spec choice choice_perm Unspecified s w) as (s' & w' & -> & Hg' & _ & _ & Hst & _).
    split; [done|]. intros s0 st [= <-]. apply Hst. }
  split; [by etrans|]. intros m s st [->|Hm]%elem_of_cons Hl Ht.
  - destruct (Hs1 s st Hl Ht) as [c Hc]. exists c. by eapply grows_log.
  - apply (Hs m s st Hm Hl). eapply carries_grows; [exact Hg1|done|done|exact Ht].
Qed.

Lemma cancel_parked_spec order tr : forall w,
  grows w (cancel_parked order tr w) /\
  forall m g e, m ∈ order -> tr_parked tr !! m = Some g -> e ∈ pg_streams g ->
    FxStreamEnd (cs_stream e) (Some Unspecified) ∈ w_log (cancel_parked order tr w).
Proof.
  induction order as [|msg order IH]; intros w; simpl; [split; [done|]; by intros ? ? ? ?%elem_of_nil|].
  set (w1 := match tr_parked tr !! msg with Some _ => _ | None => w end). destruct (IH w1) as [Hg Hs].
  assert (grows w w1 /\ forall g e, tr_parked tr !! msg = Some g -> e ∈ pg_streams g -> FxStreamEnd (cs_stream e) (Some Unspecified) ∈ w_log w1) as [Hg1 Hs1].
  { unfold w1. destruct (tr_parked tr !! msg) as [g|]; [|by split].
    destruct (cancel_streams_spec (pg_streams g) Unspecified w) as [Hg' Hc]. split; [done|]. intros g0 e [= <-]. apply Hc. }
  split; [by etrans|]. intros m g e [->|Hm]%elem_of_cons Hl He; [|by apply (Hs m g e)]. eapply grows_log; [exact Hg|]. by eapply Hs1.
Qed.

Lemma drainInbox_spec (inbox : list (channelEvent St)) : forall w,
  grows w (drainInbox inbox w) /\
  forall e, channelChunk e ∈ inbox -> FxStreamEnd (cs_stream e) (Some Unspecified) ∈ w_log (drainInbox inbox w).
Proof.
  unfold drainInbox. induction inbox as [|evt inbox IH]; intros w; simpl; [split; [done|]; by intros ? ?%elem_of_nil|].
  set (w1 := match evt with channelChunk _ => _ | _ => w end). destruct (IH w1) as [Hg Hs].
  assert (grows w w1) as Hg1 by (unfold w1; destruct evt; first [apply grows_emit|done]).
  split; [by etrans|]. intros e [<-|He]%elem_of_cons; [|by apply Hs]. eapply grows_log; [exact Hg|]. unfold w1. simpl.
  apply elem_of_app. right. by apply list_elem_of_singleton.
Qed.

Lemma shutdown_spec inbox tr w :
  grows w (shutdown choice inbox tr w) /\
  (forall st, owned tr w st -> exists c, FxStreamEnd st c ∈ w_log (shutdown choice inbox tr w)) /\
  (forall e, channelChunk e ∈ inbox -> exists c, FxStreamEnd (cs_stream e) c ∈ w_log (shutdown choice inbox tr w)) /\
  (is_Some (tr_sub tr) -> last (w_log (shutdown choice inbox tr w)) = Some FxSubscriptionClosed).
Proof using choice_perm.
  unfold shutdown. pose proof (grows_range choice (dom (tr_sessions tr)) w) as Hg0. cbn [range snd] in Hg0. unfold range.
  set (w0 := mk_world (w_ctrl w) _ _ _ _ _) in *.
  destruct (close_sessions_spec (choice (w_ranges w) (dom (tr_sessions tr))) tr w0) as [Hg1 Hs1]. set (w1 := close_sessions _ _ _ _) in *. cbv zeta.
  pose proof (grows_range choice (dom (tr_parked tr)) w1) as Hg2. cbn [range snd] in Hg2. set (w2 := mk_world (w_ctrl w1) _ _ _ _ _) in *.
  destruct (cancel_parked_spec (choice (w_ranges w1) (dom (tr_parked tr))) tr w2) as [Hg3 Hs3]. set (w3 := cancel_parked _ _ _) in *.
  destruct (drainInbox_spec inbox w3) as [Hg4 Hs4]. set (w4 := drainInbox _ _) in *. set (w5 := match tr_sub tr with Some _ => _ | None => w4 end).
  assert (grows w4 w5) as Hg5 by (unfold w5; destruct (tr_sub tr); [apply grows_emit|done]).
  assert (grows w3 w5) as Hg35 by (etrans; [exact Hg4|exact Hg5]). assert (grows w1 w5) as Hg15 by (etrans; [exact Hg2|]; etrans; [exact Hg3|exact Hg35]).
  assert (grows w w5) as Hg by (etrans; [exact Hg0|]; etrans; [exact Hg1|exact Hg15]). split; [done|]. split; [|split].
  - intros st [(m & g & e & Hm & He & <-)|[(m & s & Hm & Ht)|[c Hc]]].
    + exists (Some Unspecified). eapply grows_log; [exact Hg35|]. apply (Hs3 m g); [|done|done]. rewrite choice_perm. apply elem_of_elements. by apply elem_of_dom_2 in Hm.
    + destruct (Hs1 m s st) as [c Hc]; [|done|eapply carries_grows; [exact Hg0|done|done|exact Ht]|exists c; eapply grows_log; [exact Hg15|exact Hc]].
      rewrite choice_perm. apply elem_of_elements. by apply elem_of_dom_2 in Hm.
    + exists c. by eapply grows_log.
  - intros e He. exists (Some Unspecified). eapply grows_log; [exact Hg5|]. by apply Hs4.
  - intros [sub Hsub]. unfold w5. rewrite Hsub. simpl. by rewrite last_snoc.
Qed.
End shutdown.

(** ** The channel's guarantees *)

Section guarantees.
Context {CI R P St : Type} `{!ChunkIdentI CI} `{!Wire R} `{!Wire P} `{!Strategy CI R St} `{!StrategyLaws CI R St}.
Context (scheme : Scheme CI R P St) (choice : nat -> gset bytes -> list bytes).
Hypothesis choice_perm : forall n X, choice n X ≡ₚ elements X.

Implicit Types (tr : channel_state St) (w : world).

(** Every event of the channel is handled safely, for any strategy and
    scheme that honour their contract and any map iteration order: the actor
    does not panic and keeps its invariant (every session is well formed and
    filed under its message, a session's peers are members with the same
    connection, a parked group holds 1 to 32 streams); every chunk stream it
    ever took over, the one of the event included, is parked, with a session
    or finished; only an open makes a session that can still deliver, and only
    a decode result reaches the subscriber. *)
Theorem channel_handle_safe now evt tr w :
  channel_wf tr -> ev_ok scheme tr evt ->
  exists tr' w', handle scheme choice st_attached now evt tr w = Some (tr', w') /\
    chandled (opened_by evt) (decoded_by evt) ∅ tr w tr' w' /\
    (forall e, evt = channelChunk e -> owned tr' w' (cs_stream e)).
Proof using choice_perm. intros. by apply handle_ok. Qed.

(** A peer that is unbound leaves nothing behind in the channel: it is no
    member, no session has it, no parked stream is its, and all of its parked
    streams were cancelled (like every other stream, none is lost). *)
Theorem peer_unbound_clean peer tr w :
  channel_wf tr ->
  exists tr' w', handlePeerUnbound choice peer tr w = (tr', w') /\ channel_wf tr' /\
    tr_members tr' = delete peer (tr_members tr) /\
    (forall m s, tr_sessions tr' !! m = Some s -> ss_peers s !! peer = None) /\
    (forall m g, tr_parked tr' !! m = Some g -> Forall (fun c => cs_peerID c <> peer) (pg_streams g)) /\
    (forall st, owned tr w st -> owned tr' w' st).
Proof using choice_perm.
  intros Hw. destruct (handlePeerUnbound_spec choice choice_perm (fun _ => False) False peer tr w Hw) as (tr' & w' & E & H & H1 & H2 & H3).
  exists tr', w'. repeat (split; [done || apply H|]). apply H.
Qed.

(** A bound peer takes part in every session at once: a peer that was not a
    member is attached to each of the channel's sessions over its connection. *)
Theorem peer_bound_everywhere peer conn tr w :
  channel_wf tr -> tr_members tr !! peer = None ->
  exists tr' w', handlePeerBound choice st_attached peer conn tr w = Some (tr', w') /\
    tr_members tr' = <[peer := conn]> (tr_members tr) /\
    forall m s, tr_sessions tr' !! m = Some s -> exists sp, ss_peers s !! peer = Some sp /\ sp_conn sp = conn.
Proof using choice_perm.
  intros Hw Hn. destruct (handlePeerBound_spec choice choice_perm (fun _ => False) False peer conn tr w Hw (or_introl Hn)) as (tr' & w' & E & H & H1 & H2).
  exists tr', w'. split; [done|]. split; [done|]. intros m s Hs. destruct (H2 Hn m s Hs) as [sp Hsp]. exists sp. split; [done|].
  pose proof (cw_conn _ _ (ch_wf _ _ _ _ _ _ _ H) m s peer sp Hs Hsp ltac:(done)) as Hm. rewrite H1, lookup_insert_eq in Hm. congruence.
Qed.

(** Expiry is exact for sessions and complete for parked streams: a session
    survives [expireDue] exactly when it is younger than the TTL of five
    minutes, and no parked group of that age or older remains; the streams
    concerned are finished, not lost. *)
Theorem expiry_exact now tr w :
  channel_wf tr ->
  exists tr' w', expireDue choice now tr w = (tr', w') /\ channel_wf tr' /\ tr_members tr' = tr_members tr /\
    (forall m s, tr_sessions tr' !! m = Some s <-> tr_sessions tr !! m = Some s /\ now - ss_createdAt s < activeSessionTTL) /\
    (forall m g, tr_parked tr' !! m = Some g -> tr_parked tr !! m = Some g /\ now - pg_at g < activeSessionTTL) /\
    (forall st, owned tr w st -> owned tr' w' st).
Proof using choice_perm.
  intros Hw. destruct (expireDue_spec choice choice_perm (fun _ => False) False ∅ now tr w Hw) as (tr' & w' & E & H & H1 & H2 & H3).
  exists tr', w'. repeat (split; [done || apply H|]). apply H.
Qed.

(** Publishing replaces whatever session the message had by an origin
    session, without a panic, and answers the publisher last. *)
Theorem publish_installs_origin now msg st pre tr w :
  channel_wf tr -> starts true st ->
  exists tr' w', handlePublish choice st_attached now msg st pre tr w = Some (tr', w') /\ channel_wf tr' /\
    (forall st, owned tr w st -> owned tr' w' st) /\
    last (w_log w') = Some (FxPublished msg) /\
    exists s', tr_sessions tr' !! msg = Some s' /\ ss_stage s' = stageOrigin.
Proof using choice_perm.
  intros Hw Hst. destruct (handlePublish_spec choice choice_perm (fun _ => False) False ∅ now msg st pre tr w Hw Hst) as (tr' & w' & E & H & H1 & H2).
  exists tr', w'. repeat (split; [done || apply H|]). done.
Qed.

(** Shutting a channel down finishes every chunk stream it holds: those
    parked, read or queued by a session and those still in the inbox; nothing
    done before is undone, and the subscription is closed last. *)
Theorem shutdown_releases inbox tr w :
  grows w (shutdown choice inbox tr w) /\
  (forall st, owned tr w st -> exists c, FxStreamEnd st c ∈ w_log (shutdown choice inbox tr w)) /\
  (forall e, channelChunk e ∈ inbox -> exists c, FxStreamEnd (cs_stream e) c ∈ w_log (shutdown choice inbox tr w)) /\
  (is_Some (tr_sub tr) -> last (w_log (shutdown choice inbox tr w)) = Some FxSubscriptionClosed).
Proof using choice_perm. by apply shutdown_spec. Qed.
End guarantees.
