(* ===== verification/Actor.v ===== *)
(** * Actor: the channel with its goroutines (src/broadcast/channel.go [run],
    src/broadcast/session.go)

    The channel's event loop runs beside the goroutines its sessions start: the
    payload readers and the decoder.  A state is the channel, the world, the
    inbox between them, and two histories: the chunk streams handed to the
    channel and the messages for which an open was handled.  [step] interleaves
    them freely; every interleaving of the code is a sequence of steps (a reader
    or decoder may post later, or more often, than the code would). *)

From S2P Require Import Prelude Wire Types CtrlOut Session Reader Channel.
Open Scope Z_scope.

#[local] Set Default Proof Using "Type".

Definition channelInboxCap : nat := 1024.

(** ** Counting deliveries *)

Section actor.
Context {CI R P St : Type} `{!ChunkIdentI CI} `{!Wire R} `{!Wire P} `{!Strategy CI R St} `{!StrategyLaws CI R St}.
Context (scheme : Scheme CI R P St) (choice : nat -> gset bytes -> list bytes).
Hypothesis choice_perm : forall n X, choice n X ≡ₚ elements X.

Implicit Types (tr : channel_state St) (w : world).

(** How often a message was sent to the subscriber. *)
Definition delivered tr (msg : MessageID) : nat :=
  match tr_sub tr with
  | Some sub => length (filter (fun m => fm_messageID m = msg) (sub_sent sub))
  | None => 0
  end.

(** 1 when there is a session that may still deliver the message. *)
Definition pending tr (msg : MessageID) : nat :=
  match tr_sessions tr !! msg with
  | Some s => if (stage_nat (ss_stage s) <? stage_nat stageReconstructed)%nat then 1 else 0
  | None => 0
  end.

Lemma pending_le tr tr' msg : (live tr' msg -> live tr msg) -> (pending tr' msg <= pending tr msg)%nat.
Proof.
  intros H. unfold pending at 1. destruct (tr_sessions tr' !! msg) as [s|] eqn:E; [|lia].
  destruct (Nat.ltb_spec (stage_nat (ss_stage s)) (stage_nat stageReconstructed)) as [Hl|]; [|lia].
  destruct H as (x & Hx & Hlx); [by exists s|]. unfold pending. rewrite Hx. apply Nat.ltb_lt in Hlx. by rewrite Hlx.
Qed.

Lemma pending_bound tr msg : (pending tr msg <= 1)%nat.
Proof. unfold pending. repeat case_match; lia. Qed.

Lemma delivered_sub tr tr' msg : tr_sub tr' = tr_sub tr -> delivered tr' msg = delivered tr msg.
Proof. unfold delivered. by intros ->. Qed.

Lemma deliverMessage_delivered m payload tr w msg :
  (delivered (deliverMessage m payload tr w).1 msg <= delivered tr msg + if decide (m = msg) then 1 else 0)%nat.
Proof.
  unfold deliverMessage, delivered. destruct (tr_sub tr) as [sub|] eqn:E; simpl; [|rewrite E; lia].
  destruct (_ <? _)%nat; simpl; [|rewrite E; lia]. rewrite filter_app, length_app. simpl.
  rewrite filter_cons, filter_nil. simpl. repeat case_decide; simpl; (lia || done).
Qed.

Lemma handleDecoded_delivers m r tr w msg :
  channel_wf tr ->
  let tr' := (handleDecoded choice m r tr w).1 in
  (delivered tr' msg + pending tr' msg <= delivered tr msg + pending tr msg)%nat.
Proof using choice_perm.
  intros Hw. unfold handleDecoded. destruct (tr_sessions tr !! m) as [s|] eqn:Es; [|done].
  case_match eqn:Est; [|done]. destruct r as [payload|e]; [|done].
  rewrite (proj1 (cw_ids _ _ Hw _ _ Es)).
  destruct (deliverMessage_spec (fun _ => False) True ∅ m payload tr w Hw I) as (tr1 & w1 & E1 & H1 & Es1 & _).
  pose proof (deliverMessage_delivered m payload tr w msg) as Hd. rewrite E1 in Hd |- *. simpl in Hd. cbv zeta.
  set (s1 := with_stage stageReconstructed s).
  pose proof (chandled_stage (fun _ => False) False ∅ m s tr1 w1 (ch_wf _ _ _ _ _ _ _ H1) ltac:(by rewrite Es1)) as H2.
  destruct (disposeIfIdle_spec choice choice_perm (fun _ => False) False ∅ m s1 (put_sess m s1 tr1) w1 (ch_wf _ _ _ _ _ _ _ H2))
    as (tr' & w' & -> & H3 & Ess & _ & _ & Esub); [simpl; by rewrite lookup_insert_eq|]. cbn [fst].
  rewrite (delivered_sub _ _ _ Esub). change (delivered (put_sess m s1 tr1) msg) with (delivered tr1 msg).
  unfold pending at 1. rewrite Ess. unfold pending at 1. destruct (decide (m = msg)) as [<-|Hne].
  - rewrite Es, Est. destruct (idle s1); simpl; [rewrite lookup_delete_eq|rewrite lookup_insert_eq; simpl]; lia.
  - destruct (idle s1); simpl; rewrite ?lookup_delete_ne, lookup_insert_ne, Es1 by done; lia.
Qed.

(** *** Steps *)

Record actor := mk_actor {
  ac_tr : channel_state St;
  ac_w : world;
  ac_inbox : list (channelEvent St);
  ac_taken : list nat;
  ac_opened : list MessageID }.

Definition stream_of (evt : channelEvent St) : list nat :=
  match evt with channelChunk e => [cs_stream e] | _ => [] end.
Definition open_of (evt : channelEvent St) : list MessageID :=
  match evt with channelSessionOpen _ m _ _ => [m] | _ => [] end.

(** Events posted by the engine, the peers, timers and the verifier. *)
Definition external (evt : channelEvent St) : Prop :=
  match evt with channelReadDone _ | channelChunkData _ _ _ _ | channelDecoded _ _ => False | _ => True end.

Inductive step : actor -> actor -> Prop :=
| step_post tr w inbox taken opened evt :
    external evt -> (length inbox < channelInboxCap)%nat ->
    step (mk_actor tr w inbox taken opened) (mk_actor tr w (inbox ++ [evt]) taken opened)
| step_handle now evt tr w inbox taken opened tr' w' :
    ev_ok scheme tr evt -> handle scheme choice st_attached now evt tr w = Some (tr', w') ->
    step (mk_actor tr w (evt :: inbox) taken opened) (mk_actor tr' w' inbox (taken ++ stream_of evt) (opened ++ open_of evt))
| step_read_post msg s t r buf tr w inbox taken opened :
    tr_sessions tr !! msg = Some s -> t ∈ ss_readers s -> readChunkData r (rd_dataLen (rt_read t)) = Ok buf ->
    (length inbox < channelInboxCap)%nat ->
    step (mk_actor tr w inbox taken opened)
         (mk_actor tr w (inbox ++ [channelChunkData msg (rd_peer (rt_read t)) (rd_chunkID (rt_read t)) buf]) taken opened)
| step_read_end msg s i r s' w' d (post : bool) tr w inbox taken opened :
    tr_sessions tr !! msg = Some s -> endRead i r s w = Some (s', w', d) -> (length inbox < channelInboxCap)%nat ->
    step (mk_actor tr w inbox taken opened)
         (mk_actor (put_sess msg s' tr) w' (if post then inbox ++ [channelReadDone msg] else inbox) taken opened)
| step_decode msg s tr w inbox taken opened :
    tr_sessions tr !! msg = Some s -> ss_stage s = stageDecoding -> (length inbox < channelInboxCap)%nat ->
    step (mk_actor tr w inbox taken opened)
         (mk_actor tr w (inbox ++ [channelDecoded msg (Decode (ss_strategy s))]) taken opened)
| step_receive m tr tr' w inbox taken opened :
    receive tr = Some (m, tr') ->
    step (mk_actor tr w inbox taken opened) (mk_actor tr' w inbox taken opened).

(** *** The invariant *)

Definition sent tr : list FullMessage := match tr_sub tr with Some sub => sub_sent sub | None => [] end.

(** The payload is what a complete strategy decodes to. *)
Definition genuine (d : bytes) : Prop := exists st : St, st_wf st /\ st_complete st = true /\ Decode st = Ok d.

Definition genuine_event (evt : channelEvent St) : Prop :=
  match evt with channelDecoded _ (Ok d) => genuine d | _ => True end.

Definition opens_of (msg : MessageID) (l : list MessageID) : nat := length (filter (fun m => m = msg) l).

Record actor_inv (a : actor) : Prop := {
  ai_wf : channel_wf (ac_tr a);
  ai_streams : Forall (owned (ac_tr a) (ac_w a)) (ac_taken a);
  ai_inbox : Forall genuine_event (ac_inbox a);
  ai_sent : Forall (fun m => fm_channelID m = tr_id (ac_tr a) /\ genuine (fm_data m)) (sent (ac_tr a));
  ai_once : forall msg, (delivered (ac_tr a) msg + pending (ac_tr a) msg <= opens_of msg (ac_opened a))%nat }.

Lemma deliverMessage_sent m d tr w :
  sent (deliverMessage m d tr w).1 = sent tr \/
  sent (deliverMessage m d tr w).1 = sent tr ++ [mk_FullMessage (tr_id tr) m d].
Proof.
  unfold deliverMessage, sent. destruct (tr_sub tr) as [sub|] eqn:E; simpl; [|left; by rewrite E].
  destruct (_ <? _)%nat; simpl; [by right|left; by rewrite E].
Qed.

Lemma handleDecoded_sent m r tr w :
  channel_wf tr ->
  let tr' := (handleDecoded choice m r tr w).1 in
  sent tr' = sent tr \/ exists d, r = Ok d /\ sent tr' = sent tr ++ [mk_FullMessage (tr_id tr) m d].
Proof using choice_perm.
  intros Hw. unfold handleDecoded. destruct (tr_sessions tr !! m) as [s|] eqn:Es; [|by left].
  case_match; [|by left]. destruct r as [d|e]; [|by left]. rewrite (proj1 (cw_ids _ _ Hw _ _ Es)).
  destruct (deliverMessage_spec (fun _ => False) True ∅ m d tr w Hw I) as (tr1 & w1 & E1 & H1 & Es1 & _).
  pose proof (deliverMessage_sent m d tr w) as Hd. rewrite E1 in Hd |- *. simpl in Hd. cbv zeta.
  set (s1 := with_stage stageReconstructed s).
  pose proof (chandled_stage (fun _ => False) False ∅ m s tr1 w1 (ch_wf _ _ _ _ _ _ _ H1) ltac:(by rewrite Es1)) as H2.
  destruct (disposeIfIdle_spec choice choice_perm (fun _ => False) False ∅ m s1 (put_sess m s1 tr1) w1 (ch_wf _ _ _ _ _ _ _ H2))
    as (tr' & w' & -> & _ & _ & _ & _ & Esub); [simpl; by rewrite lookup_insert_eq|]. cbn [fst].
  assert (sent tr' = sent tr1) as -> by (unfold sent; by rewrite Esub). destruct Hd as [-> | ->]; [by left|right; by exists d].
Qed.

Lemma opens_of_app msg l l' : opens_of msg (l ++ l') = (opens_of msg l + opens_of msg l')%nat.
Proof. unfold opens_of. by rewrite filter_app, length_app. Qed.

Lemma handle_delivery now evt tr w tr' w' :
  channel_wf tr -> ev_ok scheme tr evt -> handle scheme choice st_attached now evt tr w = Some (tr', w') ->
  (forall msg, (delivered tr' msg + pending tr' msg <= delivered tr msg + pending tr msg + opens_of msg (open_of evt))%nat) /\
  (sent tr' = sent tr \/ exists m d, evt = channelDecoded m (Ok d) /\ sent tr' = sent tr ++ [mk_FullMessage (tr_id tr) m d]).
Proof using choice_perm.
  intros Hw He Hh.
  assert ((~ decoded_by evt) \/ exists m r, evt = channelDecoded m r) as [Hn|(m & r & ->)] by (destruct evt; simpl; eauto).
  - destruct (handle_ok scheme choice choice_perm (opened_by evt) False now evt tr w Hw He) as (tr1 & w1 & E & [_ _ _ _ Hl Hs] & _); [done|done|].
    rewrite Hh in E. injection E as <- <-. destruct Hs as [Hs|]; [|done]. split; [|left; unfold sent; by rewrite Hs].
    intros msg. rewrite (delivered_sub _ _ _ Hs). specialize (Hl msg).
    destruct (decide (opened_by evt msg)) as [Ho|Hno].
    + pose proof (pending_bound tr' msg). destruct evt; simpl in Ho; try done. subst. unfold opens_of. simpl. rewrite filter_cons_True, filter_nil by done. simpl. lia.
    + assert (pending tr' msg <= pending tr msg)%nat by (apply pending_le; intros [?|?]%Hl; done). lia.
  - simpl in Hh. injection Hh as Hh. pose proof (handleDecoded_delivers m r tr w) as H1. pose proof (handleDecoded_sent m r tr w Hw) as H2.
    rewrite Hh in H1, H2. simpl in H1, H2. split.
    + intros msg. specialize (H1 msg Hw). lia.
    + destruct H2 as [H2|(d & -> & H2)]; [by left|right; by exists m, d].
Qed.

Lemma inv_handle now evt tr w inbox taken opened tr' w' :
  actor_inv (mk_actor tr w (evt :: inbox) taken opened) -> ev_ok scheme tr evt ->
  handle scheme choice st_attached now evt tr w = Some (tr', w') ->
  actor_inv (mk_actor tr' w' inbox (taken ++ stream_of evt) (opened ++ open_of evt)).
Proof using choice_perm.
  intros [I1 I2 I3 I4 I5] He Hh. simpl in *. apply Forall_cons in I3 as [Ig I3].
  destruct (handle_ok scheme choice choice_perm (fun _ => True) True now evt tr w I1 He) as (tr1 & w1 & E & H & Hc); [done|done|].
  rewrite Hh in E. injection E as <- <-. destruct (handle_delivery now evt tr w tr' w' I1 He Hh) as [Hd Hs].
  split; simpl; [apply H| |done| |].
  - apply Forall_app. split; [eapply Forall_impl; [exact I2|]; apply H|]. destruct evt; simpl; try done. apply Forall_singleton. by apply Hc.
  - rewrite (ch_id _ _ _ _ _ _ _ H). destruct Hs as [->|(m & d & -> & ->)]; [done|]. apply Forall_app. split; [done|]. apply Forall_singleton. by split.
  - intros msg. rewrite opens_of_app. specialize (Hd msg). specialize (I5 msg). lia.
Qed.

Lemma inv_read_end msg s i r s' w' d tr w :
  channel_wf tr -> tr_sessions tr !! msg = Some s -> endRead i r s w = Some (s', w', d) ->
  chandled (fun _ => False) False ∅ tr w (put_sess msg s' tr) w'.
Proof.
  intros Hw Hs He. assert (i < length (ss_readers s))%nat as Hi.
  { apply lookup_lt_is_Some. unfold endRead in He. destruct (ss_readers s !! i); [by eexists|done]. }
  destruct (endRead_spec none i r s w (cw_session _ _ Hw _ _ Hs) Hi) as (s1 & w1 & d1 & E & H & _).
  rewrite He in E. injection E as <- <- <-. by eapply chandled_put.
Qed.

Lemma inv_step a a' : actor_inv a -> step a a' -> actor_inv a'.
Proof using choice_perm.
  intros Hi Hs. destruct Hs as [tr w inbox taken opened evt He _|now evt tr w inbox taken opened tr' w' He Hh|
    msg s t r buf tr w inbox taken opened _ _ _ _|msg s i r s' w' d post tr w inbox taken opened Hs He _|
    msg s tr w inbox taken opened Hs Hd _|m tr tr' w inbox taken opened Hr].
  - destruct Hi as [I1 I2 I3 I4 I5]. split; try done. simpl in *. apply Forall_app. split; [done|]. apply Forall_singleton. by destruct evt.
  - by eapply inv_handle.
  - destruct Hi as [I1 I2 I3 I4 I5]. split; try done. simpl in *. apply Forall_app. split; [done|]. by apply Forall_singleton.
  - destruct Hi as [I1 I2 I3 I4 I5]. simpl in *. pose proof (inv_read_end msg s i r s' w' d tr w I1 Hs He) as H. split; simpl; [apply H| | |done|].
    + eapply Forall_impl; [exact I2|]. apply H.
    + destruct post; [|done]. apply Forall_app. split; [done|]. by apply Forall_singleton.
    + intros m. etrans; [|apply I5]. apply Nat.add_le_mono_l, pending_le. intros Hl. by destruct (ch_live _ _ _ _ _ _ _ H m Hl).
  - destruct Hi as [I1 I2 I3 I4 I5]. split; try done. simpl in *. apply Forall_app. split; [done|]. apply Forall_singleton.
    destruct (Decode (ss_strategy s)) as [d|e] eqn:Ed; simpl; [|done]. exists (ss_strategy s).
    pose proof (cw_session _ _ I1 _ _ Hs) as Hw. split; [apply Hw|]. split; [by apply Hw|done].
  - destruct Hi as [I1 I2 I3 I4 I5]. unfold receive in Hr. simpl in *. destruct (tr_sub tr) as [sub|] eqn:Es; [|done]. simpl in Hr.
    destruct (sub_sent sub !! sub_taken sub); [|done]. injection Hr as _ <-. split; simpl; try done.
    + destruct I1. by split.
    + unfold sent in *. simpl. by rewrite Es in I4.
    + intros msg. specialize (I5 msg). unfold delivered, pending in *. simpl in *. by rewrite Es in I5.
Qed.

Lemma inv_reachable a a' : actor_inv a -> rtc step a a' -> actor_inv a'.
Proof using choice_perm. intros Hi Hr. induction Hr as [|a b c Hab _ IH]; [done|]. by apply IH, (inv_step a). Qed.

(** A channel just attached, before or after it got its subscriber. *)
Definition initial (a : actor) : Prop :=
  exists id cap w, (ac_tr a = new_channel id \/ Subscribe cap (new_channel id) = Ok (ac_tr a)) /\
    a = mk_actor (ac_tr a) w [] [] [].

Lemma inv_initial a : initial a -> actor_inv a.
Proof.
  intros (id & cap & w & Ht & ->). destruct a as [tr ? ? ? ?]. simpl in *.
  assert (tr_members tr = ∅ /\ tr_sessions tr = ∅ /\ tr_parked tr = ∅ /\ sent tr = []) as (E1 & E2 & E3 & E4).
  { destruct Ht as [->|Ht]; [done|]. unfold Subscribe in Ht. simpl in Ht. destruct (cap =? 0)%nat; [done|]. by injection Ht as <-. }
  split; simpl; [|done|done|by rewrite E4|].
  - split; intros *; rewrite ?E2, ?E3; done.
  - intros msg. unfold pending, delivered. rewrite E2. unfold sent in E4. destruct (tr_sub tr); [by rewrite E4|done].
Qed.

(** C3. Whatever the peers send and however the event loop, the payload readers
    and the decoders interleave: every chunk stream handed to the channel is
    parked, with a session or finished, and the channel stays well formed. *)
Theorem actor_streams_accounted a a' :
  initial a -> rtc step a a' ->
  channel_wf (ac_tr a') /\ Forall (owned (ac_tr a') (ac_w a')) (ac_taken a').
Proof using choice_perm. intros Hi Hr. destruct (inv_reachable a a' (inv_initial a Hi) Hr). done. Qed.

(** C2. In every reachable state the subscriber was sent only messages of this
    channel whose payload is what a complete strategy decoded, and each
    message at most once per open handled for it. *)
Theorem actor_delivery a a' :
  initial a -> rtc step a a' ->
  Forall (fun m => fm_channelID m = tr_id (ac_tr a') /\ genuine (fm_data m)) (sent (ac_tr a')) /\
  forall msg, (delivered (ac_tr a') msg <= opens_of msg (ac_opened a'))%nat.
Proof using choice_perm.
  intros Hi Hr. destruct (inv_reachable a a' (inv_initial a Hi) Hr) as [_ _ _ I4 I5].
  split; [done|]. intros msg. specialize (I5 msg). lia.
Qed.

(** The event loop never gets stuck: in every reachable state the next event
    of the inbox, if it is one its poster may post, can be handled. *)
Theorem actor_progress a a' evt inbox :
  initial a -> rtc step a a' -> ac_inbox a' = evt :: inbox -> ev_ok scheme (ac_tr a') evt ->
  exists b, step a' b /\ ac_inbox b = inbox.
Proof using choice_perm.
  intros Hi Hr E He. destruct (inv_reachable a a' (inv_initial a Hi) Hr) as [I1 _ _ _ _].
  destruct a' as [tr w ib taken opened]. simpl in *. subst ib.
  destruct (handle_ok scheme choice choice_perm (fun _ => True) True 0 evt tr w I1 He) as (tr' & w' & Eh & _); [done|done|].
  exists (mk_actor tr' w' inbox (taken ++ stream_of evt) (opened ++ open_of evt)). split; [|done]. by eapply step_handle.
Qed.
End actor.
