(* ===== verification/RsChannel.v ===== *)
(** * RsChannel: Reed-Solomon channels

    The scheme of src/broadcast/rs/types.go keeps the contract the channel relies
    on, so everything proved of sessions, channels and actors for an arbitrary
    scheme holds of Reed-Solomon channels.  The second part runs such a channel
    on concrete events and instantiates those theorems in the states reached. *)

From S2P Require Import Prelude Wire Types Bitmap Emit RsStrategy RsCorrect CtrlOut Session Reader Channel Actor.
Open Scope Z_scope.

#[local] Set Default Proof Using "Type".

Section scheme.
Context (sha256 : bytes -> bytes) (rs_new : Z -> Z -> bool)
        (rs_encode rs_reconstruct : Z -> Z -> list bytes -> option (list bytes)).
Hypothesis rs_new_counts : forall k m, rs_new k m = true -> 0 < k /\ 0 <= m /\ k + m <= 65536.
Hypothesis rs_encode_systematic : forall k m sh full,
  rs_new k m = true -> rs_encode k m sh = Some full ->
  Z.of_nat (length sh) = k + m /\ length <$> full = length <$> sh /\ take (Z.to_nat k) full = take (Z.to_nat k) sh.

(** [rand] is what [rand.Uint64()] returns for the relay of a message. *)
Definition NewScheme (rand : MessageID -> Z) (config : Config) : Scheme ChunkIdent (option Bitmap) Preamble strategy :=
  mk_Scheme _ _ _ _
    (fun _ payload =>
       letp r := newOriginStrategy sha256 rs_new rs_encode config payload in
       Some (let! s := r in Ok (s, preamble s)))
    (fun msg p => newRelayStrategy (rand msg) config (Some p)).

#[local] Instance rs_St : Strategy ChunkIdent (option Bitmap) strategy := rs_Strategy sha256 rs_new rs_reconstruct.
#[local] Instance rs_L : StrategyLaws ChunkIdent (option Bitmap) strategy := rs_laws sha256 rs_new rs_reconstruct.

Lemma no_peers s : peers s = ∅ -> rs_attached s = ∅ /\ rs_done s = ∅.
Proof. intros E. unfold rs_attached, rs_done. rewrite E. by rewrite map_filter_empty, dom_empty_L. Qed.

(** An open with any preamble of fewer than 2^62 hashes makes a relay or an
    error, never a panic. *)
Lemma rs_relay_ok `{!Types.Wire Preamble} rand cfg msg pre :
  (forall p, w_Unmarshal pre = Ok p -> Z.of_nat (length (ChunkHashes p)) < 2 ^ 62) ->
  relay_ok (NewScheme rand cfg) msg pre.
Proof.
  intros Hp p Eu. specialize (Hp p Eu). simpl. destruct (decide (preamble_ok p)) as [Hok|Hbad].
  - destruct (newRelay_ok (rand msg) cfg p Hok) as (s & E & Hw & _ & _ & Hc & Hpe & _).
    { destruct Hok as (_ & _ & E). lia. }
    eexists. split; [exact E|]. intros st [= <-]. destruct (no_peers s Hpe) as [H1 H2]. split; [exact Hw|]. split; [exact H1|]. split; [exact H2|]. intros _. exact Hc.
  - unfold newRelayStrategy. destruct (_ || _ || _) eqn:E; [by eexists|].
    exfalso. apply Hbad. unfold preamble_ok. apply orb_false_iff in E as [E E3]. apply orb_false_iff in E as [E1 E2]. z_bool.
    lia.
Qed.

Lemma newOrigin_peers cfg payload o : newOriginStrategy sha256 rs_new rs_encode cfg payload = Some (Ok o) -> peers o = ∅.
Proof.
  unfold newOriginStrategy. intros E. destruct (initPreamble _ _) as [[p l]|]; simpl in E; [|done].
  destruct (negb _); [done|]. destruct (_ <? 0); [done|]. destruct (slices_Chunk _ _); simpl in E; [|done].
  destruct (rs_encode _ _ _); [|done]. destruct (plan_shards _ _ _); simpl in E; [|done].
  destruct (AllOnesBitmap _); simpl in E; [|done]. by injection E as <-.
Qed.

(** A published strategy starts without peers. *)
Lemma rs_origin_starts rand cfg msg payload st p :
  sizes_ok cfg (Z.of_nat (length payload)) ->
  NewOrigin (NewScheme rand cfg) msg payload = Some (Ok (st, p)) -> starts true st /\ p = preamble st.
Proof using rs_encode_systematic rs_new_counts.
  intros Hsz E. simpl in E. destruct (newOriginStrategy sha256 rs_new rs_encode cfg payload) as [[o|e]|] eqn:Eo; [|done|done].
  simpl in E. injection E as <- <-. split; [|done].
  pose proof (newOrigin_spec sha256 rs_new rs_encode rs_new_counts rs_encode_systematic cfg payload o Hsz Eo) as [_ _ _ _ _ Hw _ _ _].
  destruct (no_peers o) as [H1 H2]; [by eapply newOrigin_peers|]. split; [exact Hw|]. split; [exact H1|]. split; [exact H2|done].
Qed.

(** A decoded payload has the hash its preamble announced. *)
Lemma rs_decode_hash s d : Decode s = Ok d -> sha256 d = MessageHash (preamble s).
Proof.
  simpl. unfold strategy_Decode, tryDecode. destruct (rs_new _ _); [|done]. simpl. destruct (rs_reconstruct _ _ _); [|done].
  destruct (_ || _); [done|]. case_bool_decide; [|done]. by intros [= <-].
Qed.

(** Whatever the peers of a Reed-Solomon channel send, every message its
    subscriber is sent hashes to the message hash of a preamble for which at
    least as many chunks as it announces data chunks were accepted. *)
Theorem rs_delivered_hash `{!ChunkIdentI ChunkIdent} `{!Types.Wire (option Bitmap)} `{!Types.Wire Preamble}
    choice (choice_perm : forall n X, choice n X ≡ₚ elements X) rand cfg a a' :
  initial a -> rtc (step (NewScheme rand cfg) choice) a a' ->
  Forall (fun m => exists st, strategy_wf st /\ DataChunks (preamble st) <= Z.of_nat (OnesCount (have st)) /\
                     sha256 (fm_data m) = MessageHash (preamble st)) (sent (ac_tr a')).
Proof.
  intros Hi Hr. destruct (inv_reachable (NewScheme rand cfg) choice choice_perm a a' (inv_initial a Hi) Hr) as [_ _ _ Hs _].
  eapply Forall_impl; [exact Hs|]. intros m (_ & st & Hw & Hc & Hd). exists st. split; [exact Hw|].
  split; [by apply (w_complete st Hw) in Hc as [_ ?]|]. by apply rs_decode_hash.
Qed.
End scheme.

(** ** A channel run on events *)

Definition demo_hash (x : bytes) : bytes := x.
Definition demo_payload : bytes := [Byte.x05; Byte.x06].
Definition demo_msg : MessageID := [Byte.x4d].
Definition demo_cid : ChannelID := [Byte.x43].
Definition demo_scheme : Scheme ChunkIdent (option Bitmap) Preamble strategy :=
  NewScheme demo_hash rep_new rep_encode (fun _ => 7) demo_cfg.
Definition demo_choice (n : nat) (X : gset bytes) : list bytes := elements X.

Lemma demo_choice_perm n X : demo_choice n X ≡ₚ elements X.
Proof. done. Qed.

(** Protobuf stand-ins: an index is one byte, and every preamble announces the
    demo payload repeated three times. *)
Definition demo_ci_marshal (i : Z) : result error bytes := Ok [z2b i].
Definition demo_ci_unmarshal (b : bytes) : result error Z :=
  match b with [x] => Ok (b2z x) | _ => Err "chunk ident"%string end.
Definition demo_pre_unmarshal (b : bytes) : result error (Z * Z * Z * list bytes * bytes) :=
  Ok (1, 2, 2, [demo_payload; demo_payload; demo_payload], demo_payload).

#[local] Instance demo_CI : ChunkIdentI ChunkIdent := rs_ChunkIdent demo_ci_marshal demo_ci_unmarshal.
#[local] Instance demo_R : Types.Wire (option Bitmap) := rs_Bitmap_Wire.
#[local] Instance demo_P : Types.Wire Preamble := {
  w_Marshal := Preamble_Marshal (fun _ => Ok []); w_Unmarshal := Preamble_Unmarshal demo_pre_unmarshal }.
#[local] Instance demo_St : Strategy ChunkIdent (option Bitmap) strategy := rs_Strategy demo_hash rep_new rep_reconstruct.
#[local] Instance demo_L : StrategyLaws ChunkIdent (option Bitmap) strategy := rs_laws demo_hash rep_new rep_reconstruct.

Definition demo_w0 : world := mk_world ∅ ∅ ∅ [] 0 0.
Definition demo_tr0 : channel_state strategy := mk_channel demo_cid (Some (mk_sub 4 [] 0)) ∅ ∅ ∅.

Definition bindable (tr : channel_state strategy) (evt : channelEvent strategy) : bool :=
  match evt with
  | channelPeerChange p (Some c) => bool_decide (tr_members tr !! p = None \/ tr_members tr !! p = Some c)
  | channelPublish _ _ _ => false
  | _ => true
  end.

Lemma bindable_ok tr evt : bindable tr evt = true -> ev_ok demo_scheme tr evt.
Proof.
  destruct evt as [|m|e|m p id d|p msg pre u|p [c|]|m st pre|m p h er n|p m d|m p|m p c|m p id d v|m r]; simpl; try done.
  - intros _ _. apply rs_relay_ok. intros q [= <-]. reflexivity.
  - apply bool_decide_eq_true.
Qed.

Fixpoint demo_events (evs : list (channelEvent strategy)) (tr : channel_state strategy) (w : world)
  : option (channel_state strategy * world) :=
  match evs with
  | [] => Some (tr, w)
  | e :: evs => if bindable tr e then letp r := handle demo_scheme demo_choice rs_attached 0 e tr w in demo_events evs r.1 r.2 else None
  end.

Lemma demo_events_wf evs : forall tr w tr' w', channel_wf tr -> demo_events evs tr w = Some (tr', w') -> channel_wf tr'.
Proof.
  induction evs as [|e evs IH]; intros tr w tr' w' Hw E; cbn [demo_events] in E; [by injection E as <- <-|].
  destruct (bindable tr e) eqn:Eb; [|done]. apply bindable_ok in Eb.
  destruct (handle_ok demo_scheme demo_choice demo_choice_perm (fun _ => True) True 0 e tr w Hw Eb) as (tr1 & w1 & E1 & H & _); [done|done|].
  change (handle demo_scheme demo_choice rs_attached 0 e tr w = Some (tr1, w1)) in E1. rewrite E1 in E. cbn [mbind option_bind fst snd] in E.
  eapply IH; [|exact E]. apply H.
Qed.

(** Two peers, an open, a chunk stream that is read and its payload, which
    completes the relay. *)
Definition demo_stream : channelChunkStream := mk_chunkStream demo_peer demo_msg [Byte.x02] 2 9.
Definition demo_setup : list (channelEvent strategy) :=
  [channelPeerChange demo_peer (Some 1%nat); channelPeerChange demo_other (Some 2%nat); channelSessionOpen demo_peer demo_msg [] [];
   channelChunk demo_stream].

Definition demo_state : option (channel_state strategy * world) := demo_events demo_setup demo_tr0 demo_w0.

Lemma demo_tr0_wf : channel_wf demo_tr0.
Proof. split; intros *; unfold demo_tr0; simpl; done. Qed.

(** The state reached, and queries of it. *)
Lemma demo_reached :
  exists tr w s, demo_state = Some (tr, w) /\ channel_wf tr /\ tr_sessions tr !! demo_msg = Some s /\ session_wf s /\
    forall {A} (f : channel_state strategy -> session_state strategy -> world -> A) a,
      (letp r := demo_state in s ← tr_sessions r.1 !! demo_msg; Some (f r.1 s r.2)) = Some a -> f tr s w = a.
Proof.
  assert (match demo_state with Some _ => true | None => false end = true) as Hs by (vm_compute; reflexivity).
  destruct demo_state as [[tr w]|] eqn:E; [clear Hs|discriminate].
  assert (channel_wf tr) as Hw by (eapply demo_events_wf; [exact demo_tr0_wf|exact E]).
  destruct (tr_sessions tr !! demo_msg) as [s|] eqn:Es.
  - exists tr, w, s. split; [reflexivity|]. split; [exact Hw|]. split; [exact Es|]. split; [by apply (cw_session _ _ Hw _ _ Es)|].
    intros A f a Hq. cbn [mbind option_bind fst snd] in Hq. rewrite Es in Hq. by injection Hq.
  - exfalso. assert ((letp r := demo_state in tr_sessions r.1 !! demo_msg ≫= fun _ => Some tt) = Some tt) as Hq by (vm_compute; reflexivity).
    rewrite E in Hq. cbn [mbind option_bind fst snd] in Hq. rewrite Es in Hq. done.
Qed.

(** ** The guarantees in the state reached *)

(** [demo_fact Hq f a H] evaluates [f] in the state reached, to [a]. *)
Tactic Notation "demo_fact" hyp(Hq) uconstr(f) uconstr(a) ident(H) :=
  let g := constr:(f : channel_state strategy -> session_state strategy -> world -> _) in
  assert ((letp r := demo_state in s ← tr_sessions r.1 !! demo_msg; Some (g r.1 s r.2)) = Some a) as H by (vm_compute; reflexivity);
  apply (Hq _ g a) in H; cbv beta in H.

(** The payload completes the relay: the session starts to decode.  A second
    stream that arrives instead is read beside the first one. *)
Lemma session_handlers_safe_witness :
  exists tr w s, demo_state = Some (tr, w) /\ tr_sessions tr !! demo_msg = Some s /\
    (exists s' w', handle_session demo_choice (SevChunkData demo_peer [Byte.x02] demo_payload) s w = Some (s', w') /\
       session_wf s' /\ ss_stage s' = stageDecoding /\ FxStartDecode (ss_messageID s) ∈ w_log w') /\
    (exists s' w', handle_session demo_choice (SevChunkStream demo_other [Byte.x01] 2 10) s w = Some (s', w') /\
       session_wf s' /\ tracked s' w' 10 /\ (fun t => rd_stream (rt_read t)) <$> ss_readers s' = [9%nat; 10%nat]).
Proof.
  destruct demo_reached as (tr & w & s & E & _ & Es & Hs & Hq). exists tr, w, s. split; [exact E|]. split; [exact Es|]. split.
  - destruct (session_handlers_safe demo_choice demo_choice_perm (SevChunkData demo_peer [Byte.x02] demo_payload) s w Hs) as (s' & w' & Eh & H & _).
    assert (ss_stage s = stageConsuming /\ ss_stage s' = stageDecoding) as [E0 E1].
    { demo_fact Hq (fun tr s w => (fun r => ss_stage r.1) <$> handle_session demo_choice (SevChunkData demo_peer [Byte.x02] demo_payload) s w) (Some stageDecoding) Hf.
      rewrite Eh in Hf. simpl in Hf. demo_fact Hq (fun tr s w => ss_stage s) stageConsuming Hg. split; congruence. }
    exists s', w'. split; [exact Eh|]. split; [exact (hd_wf _ _ _ _ _ H)|]. split; [exact E1|]. apply (hd_started _ _ _ _ _ H). congruence.
  - destruct (session_handlers_safe demo_choice demo_choice_perm (SevChunkStream demo_other [Byte.x01] 2 10) s w Hs) as (s' & w' & Eh & H & T & _).
    exists s', w'. split; [exact Eh|]. split; [exact (hd_wf _ _ _ _ _ H)|]. split; [exact T|].
    demo_fact Hq (fun tr s w => (fun r => (fun t => rd_stream (rt_read t)) <$> ss_readers r.1) <$>
      handle_session demo_choice (SevChunkStream demo_other [Byte.x01] 2 10) s w) (Some [9%nat; 10%nat]) Hf.
    rewrite Eh in Hf. simpl in Hf. congruence.
Defined.

Lemma peer_dropped_clean_witness :
  exists tr w s s' w', demo_state = Some (tr, w) /\ tr_sessions tr !! demo_msg = Some s /\
    is_Some (ss_peers s !! demo_other) /\ handlePeerDropped demo_other s w = (s', w') /\ dropped demo_other s w s' w'.
Proof.
  destruct demo_reached as (tr & w & s & E & _ & Es & Hs & Hq).
  destruct (peer_dropped_clean demo_other s w Hs) as (s' & w' & Eh & H & _).
  exists tr, w, s, s', w'. split; [exact E|]. split; [exact Es|]. split; [|split; [exact Eh|exact H]].
  demo_fact Hq (fun tr s w => bool_decide (is_Some (ss_peers s !! demo_other))) true Hf.
  by apply bool_decide_eq_true in Hf.
Defined.

Lemma sendChunk_accounted_witness :
  exists tr w s s' w', demo_state = Some (tr, w) /\ tr_sessions tr !! demo_msg = Some s /\
    sendChunk (mk_dispatch demo_other (mk_ChunkIdent 2) demo_payload) s w = Some (s', w') /\
    sent_or_reported (mk_dispatch demo_other (mk_ChunkIdent 2) demo_payload) s w s' w'.
Proof.
  destruct demo_reached as (tr & w & s & E & _ & Es & Hs & Hq).
  destruct (sendChunk_accounted (mk_dispatch demo_other (mk_ChunkIdent 2) demo_payload) s w Hs) as (s' & w' & Eh & _ & H).
  { demo_fact Hq (fun tr s w => bool_decide (demo_other ∈ rs_attached (ss_strategy s) ∖ rs_done (ss_strategy s))) true Hf.
    by apply bool_decide_eq_true in Hf. }
  exists tr, w, s, s', w'. split; [exact E|]. split; [exact Es|]. split; [exact Eh|exact H].
Defined.

(** The stream being read is cancelled when the session is closed. *)
Lemma close_releases_witness :
  exists tr w s w' c, demo_state = Some (tr, w) /\ tr_sessions tr !! demo_msg = Some s /\
    (closeWithCode demo_choice Refused s w).2 = w' /\ FxStreamEnd 9 c ∈ w_log w'.
Proof.
  destruct demo_reached as (tr & w & s & E & _ & Es & Hs & Hq).
  destruct (close_releases demo_choice demo_choice_perm Refused s w) as (s' & w' & Eh & _ & _ & _ & Ht & _).
  destruct (Ht 9%nat) as [c Hc].
  { left. demo_fact Hq (fun tr s w => (fun t => rd_stream (rt_read t)) <$> ss_readers s) [9%nat] Hf.
    destruct (ss_readers s) as [|t l]; [discriminate|]. injection Hf as Hf _. exists t. split; [left|exact Hf]. }
  exists tr, w, s, w', c. split; [exact E|]. split; [exact Es|]. rewrite Eh. split; [reflexivity|exact Hc].
Defined.

(** A second stream for the open message is taken over. *)
Lemma channel_handle_safe_witness :
  exists tr w tr' w', demo_state = Some (tr, w) /\
    handle demo_scheme demo_choice rs_attached 5 (channelChunk (mk_chunkStream demo_other demo_msg [Byte.x01] 2 10)) tr w = Some (tr', w') /\
    channel_wf tr' /\ owned tr' w' 10.
Proof.
  destruct demo_reached as (tr & w & s & E & Hw & Es & _ & Hq).
  destruct (channel_handle_safe demo_scheme demo_choice demo_choice_perm 5 (channelChunk (mk_chunkStream demo_other demo_msg [Byte.x01] 2 10)) tr w Hw I)
    as (tr' & w' & Eh & H & Ho).
  exists tr, w, tr', w'. split; [exact E|]. split; [exact Eh|]. split; [exact (ch_wf _ _ _ _ _ _ _ H)|]. by apply (Ho (mk_chunkStream demo_other demo_msg [Byte.x01] 2 10)).
Defined.

Lemma peer_unbound_clean_witness :
  exists tr w tr' w', demo_state = Some (tr, w) /\ handlePeerUnbound demo_choice demo_peer tr w = (tr', w') /\
    tr_members tr' = delete demo_peer (tr_members tr) /\ tr_members tr !! demo_peer = Some 1%nat.
Proof.
  destruct demo_reached as (tr & w & s & E & Hw & Es & _ & Hq).
  destruct (peer_unbound_clean demo_choice demo_choice_perm demo_peer tr w Hw) as (tr' & w' & Eh & _ & Hm & _).
  exists tr, w, tr', w'. split; [exact E|]. split; [exact Eh|]. split; [exact Hm|].
  demo_fact Hq (fun tr s w => tr_members tr !! demo_peer) (Some 1%nat) Hf. exact Hf.
Defined.

Lemma peer_bound_everywhere_witness :
  exists tr w tr' w', demo_state = Some (tr, w) /\ handlePeerBound demo_choice rs_attached [Byte.x63] 3 tr w = Some (tr', w') /\
    tr_members tr' = <[[Byte.x63] := 3%nat]> (tr_members tr).
Proof.
  destruct demo_reached as (tr & w & s & E & Hw & Es & _ & Hq).
  destruct (peer_bound_everywhere demo_choice demo_choice_perm [Byte.x63] 3 tr w Hw) as (tr' & w' & Eh & Hm & _).
  { demo_fact Hq (fun tr s w => tr_members tr !! [Byte.x63]) None Hf. exact Hf. }
  exists tr, w, tr', w'. split; [exact E|]. split; [exact Eh|exact Hm].
Defined.

(** The demo's session was created at time 0 and is gone after five minutes. *)
Lemma expiry_exact_witness :
  exists tr w tr' w', demo_state = Some (tr, w) /\ expireDue demo_choice activeSessionTTL tr w = (tr', w') /\
    is_Some (tr_sessions tr !! demo_msg) /\ tr_sessions tr' !! demo_msg = None.
Proof.
  destruct demo_reached as (tr & w & s & E & Hw & Es & _ & Hq).
  destruct (expiry_exact demo_choice demo_choice_perm activeSessionTTL tr w Hw) as (tr' & w' & Eh & _ & _ & Hs & _).
  exists tr, w, tr', w'. split; [exact E|]. split; [exact Eh|]. split; [by exists s|].
  destruct (tr_sessions tr' !! demo_msg) as [s'|] eqn:E'; [|reflexivity]. exfalso. apply Hs in E' as [E' Hl]. rewrite Es in E'. injection E' as <-.
  demo_fact Hq (fun tr s w => ss_createdAt s) 0 Hf. rewrite Hf in Hl. lia.
Defined.

Lemma shutdown_releases_witness :
  exists tr w c, demo_state = Some (tr, w) /\ FxStreamEnd 9 c ∈ w_log (shutdown demo_choice [] tr w) /\
    last (w_log (shutdown demo_choice [] tr w)) = Some FxSubscriptionClosed.
Proof.
  destruct demo_reached as (tr & w & s & E & Hw & Es & _ & Hq).
  destruct (shutdown_releases demo_choice demo_choice_perm [] tr w) as (_ & Ho & _ & Hl).
  destruct (Ho 9%nat) as [c Hc].
  { right. left. exists demo_msg, s. split; [exact Es|]. left.
    demo_fact Hq (fun tr s w => (fun t => rd_stream (rt_read t)) <$> ss_readers s) [9%nat] Hf.
    destruct (ss_readers s) as [|t l]; [discriminate|]. injection Hf as Hf _. exists t. split; [left|exact Hf]. }
  exists tr, w, c. split; [exact E|]. split; [exact Hc|]. apply Hl.
  exists (mk_sub 4 [] 0). demo_fact Hq (fun tr s w => tr_sub tr) (Some (mk_sub 4 [] 0)) Hf. exact Hf.
Defined.

Lemma publish_installs_origin_witness :
  exists st tr' w' s', newOriginStrategy demo_hash rep_new rep_encode demo_cfg demo_payload = Some (Ok st) /\
    handlePublish demo_choice rs_attached 0 demo_msg st [] demo_tr0 demo_w0 = Some (tr', w') /\
    tr_sessions tr' !! demo_msg = Some s' /\ ss_stage s' = stageOrigin.
Proof.
  assert (match newOriginStrategy demo_hash rep_new rep_encode demo_cfg demo_payload with Some (Ok _) => true | _ => false end = true) as Ho by (vm_compute; reflexivity).
  destruct (newOriginStrategy demo_hash rep_new rep_encode demo_cfg demo_payload) as [[st|]|] eqn:E; [|discriminate|discriminate].
  destruct (publish_installs_origin demo_choice demo_choice_perm 0 demo_msg st [] demo_tr0 demo_w0 demo_tr0_wf) as (tr' & w' & Eh & _ & _ & _ & s' & Es & Est).
  { apply (rs_origin_starts demo_hash rep_new rep_encode rep_reconstruct rep_new_counts rep_systematic (fun _ => 7) demo_cfg demo_msg demo_payload st (preamble st)).
    - unfold sizes_ok. simpl. split; [reflexivity|lia].
    - cbn [NewScheme NewOrigin]. rewrite E. reflexivity. }
  exists st, tr', w', s'. split; [reflexivity|]. split; [exact Eh|]. split; [exact Es|exact Est].
Defined.

(** ** A run of the actor *)

Inductive action :=
| APost (evt : channelEvent strategy)
| AHandle
| AReadPost (msg : MessageID) (i : nat) (r : reader)
| ADecode (msg : MessageID).

(** One step, when it is enabled and the event is one the demo may handle. *)
Definition act (x : action) (a : actor (St := strategy)) : option actor :=
  let '(mk_actor tr w inbox taken opened) := a in
  if (channelInboxCap <=? length inbox)%nat then None
  else match x with
  | APost evt => match evt with
                 | channelReadDone _ | channelChunkData _ _ _ _ | channelDecoded _ _ => None
                 | _ => Some (mk_actor tr w (inbox ++ [evt]) taken opened)
                 end
  | AHandle => match inbox with
               | evt :: inbox => if bindable tr evt then
                   letp r := handle demo_scheme demo_choice rs_attached 0 evt tr w in
                   Some (mk_actor r.1 r.2 inbox (taken ++ stream_of evt) (opened ++ open_of evt)) else None
               | [] => None
               end
  | AReadPost msg i r =>
      s ← tr_sessions tr !! msg; t ← ss_readers s !! i;
      match readChunkData r (rd_dataLen (rt_read t)) with
      | Ok buf => Some (mk_actor tr w (inbox ++ [channelChunkData msg (rd_peer (rt_read t)) (rd_chunkID (rt_read t)) buf]) taken opened)
      | Err _ => None
      end
  | ADecode msg =>
      s ← tr_sessions tr !! msg;
      if bool_decide (ss_stage s = stageDecoding)
      then Some (mk_actor tr w (inbox ++ [channelDecoded msg (strategy_Decode demo_hash rep_new rep_reconstruct (ss_strategy s))]) taken opened) else None
  end.

Fixpoint acts (l : list action) (a : actor) : option actor :=
  match l with [] => Some a | x :: l => letp b := act x a in acts l b end.

Lemma act_step x a b : act x a = Some b -> step demo_scheme demo_choice a b.
Proof.
  destruct a as [tr w inbox taken opened]. unfold act. destruct (Nat.leb_spec channelInboxCap (length inbox)) as [|Hroom]; [done|].
  destruct x as [evt| |msg i r|msg].
  - destruct evt; try done; intros [= <-]; by apply step_post.
  - destruct inbox as [|evt inbox]; [done|]. destruct (bindable tr evt) eqn:Eb; [|done]. apply bindable_ok in Eb.
    destruct (handle demo_scheme demo_choice rs_attached 0 evt tr w) as [[tr' w']|] eqn:E; [|done]. intros [= <-]. by eapply (step_handle demo_scheme demo_choice 0).
  - destruct (tr_sessions tr !! msg) as [s|] eqn:Es; [|done]. simpl. destruct (ss_readers s !! i) as [t|] eqn:Et; [|done]. simpl.
    destruct (readChunkData _ _) eqn:Er; [|done]. intros [= <-]. eapply step_read_post; [exact Es|by eapply list_elem_of_lookup_2|exact Er|exact Hroom].
  - destruct (tr_sessions tr !! msg) as [s|] eqn:Es; [|done]. simpl. case_bool_decide as Ed; [|done]. intros [= <-].
    exact (step_decode demo_scheme demo_choice msg s tr w inbox taken opened Es Ed Hroom).
Qed.

Lemma acts_rtc l : forall a b, acts l a = Some b -> rtc (step demo_scheme demo_choice) a b.
Proof.
  induction l as [|x l IH]; intros a b E; simpl in E; [injection E as <-; done|].
  destruct (act x a) as [c|] eqn:Ex; [|done]. simpl in E. eapply rtc_l; [by apply act_step in Ex|by apply IH].
Qed.

(** An open, a chunk stream, its payload, the decode and the delivery. *)
Definition demo_actions : list action :=
  [APost (channelPeerChange demo_peer (Some 1%nat)); APost (channelSessionOpen demo_peer demo_msg [] []); APost (channelChunk demo_stream);
   AHandle; AHandle; AHandle;
   AReadPost demo_msg 0 (mk_reader (AppendFrame [] dataFrame demo_payload) EOF); AHandle; ADecode demo_msg; AHandle].

Definition demo_actor0 : actor := mk_actor demo_tr0 demo_w0 [] [] [].

Lemma demo_initial : initial demo_actor0.
Proof. exists demo_cid, 4%nat, demo_w0. split; [right; reflexivity|reflexivity]. Qed.

Lemma demo_acted l : match acts l demo_actor0 with Some _ => true | None => false end = true -> exists a, acts l demo_actor0 = Some a.
Proof. destruct (acts l demo_actor0) as [a|]; [by exists a|done]. Qed.

Lemma actor_delivery_witness :
  exists a, rtc (step demo_scheme demo_choice) demo_actor0 a /\ sent (ac_tr a) = [mk_FullMessage demo_cid demo_msg demo_payload] /\
    (delivered (ac_tr a) demo_msg <= opens_of demo_msg (ac_opened a))%nat.
Proof.
  destruct (demo_acted demo_actions) as [a E]; [vm_compute; reflexivity|]. exists a.
  pose proof (acts_rtc _ _ _ E) as Hr. split; [exact Hr|].
  destruct (actor_delivery demo_scheme demo_choice demo_choice_perm demo_actor0 a demo_initial Hr) as [_ Hd]. split; [|apply Hd].
  assert ((fun a => sent (ac_tr a)) <$> acts demo_actions demo_actor0 = Some [mk_FullMessage demo_cid demo_msg demo_payload]) as Hq by (vm_compute; reflexivity).
  rewrite E in Hq. by injection Hq.
Defined.

Lemma actor_streams_accounted_witness :
  exists a, rtc (step demo_scheme demo_choice) demo_actor0 a /\ ac_taken a = [9%nat] /\ owned (ac_tr a) (ac_w a) 9.
Proof.
  destruct (demo_acted (take 6 demo_actions)) as [a E]; [vm_compute; reflexivity|]. exists a.
  pose proof (acts_rtc _ _ _ E) as Hr. split; [exact Hr|].
  destruct (actor_streams_accounted demo_scheme demo_choice demo_choice_perm demo_actor0 a demo_initial Hr) as [_ Hd].
  assert (ac_taken <$> acts (take 6 demo_actions) demo_actor0 = Some [9%nat]) as Hq by (vm_compute; reflexivity).
  rewrite E in Hq. injection Hq as Hq. split; [exact Hq|]. rewrite Hq in Hd. exact (proj1 (Forall_singleton _ _) Hd).
Defined.

Lemma actor_progress_witness :
  exists a b, rtc (step demo_scheme demo_choice) demo_actor0 a /\ ac_inbox a = [channelChunk demo_stream] /\
    step demo_scheme demo_choice a b /\ ac_inbox b = [].
Proof.
  set (l := [APost (channelChunk demo_stream)]).
  destruct (demo_acted l) as [a E]; [vm_compute; reflexivity|].
  pose proof (acts_rtc _ _ _ E) as Hr.
  assert (ac_inbox <$> acts l demo_actor0 = Some [channelChunk demo_stream]) as Hq by (vm_compute; reflexivity).
  rewrite E in Hq. injection Hq as Hq.
  destruct (actor_progress demo_scheme demo_choice demo_choice_perm demo_actor0 a (channelChunk demo_stream) [] demo_initial Hr Hq I) as (b & Hb & Hi).
  exists a, b. split; [exact Hr|]. split; [exact Hq|]. split; [exact Hb|exact Hi].
Defined.

Lemma rs_delivered_hash_witness :
  exists (a : actor (St := strategy)) (st : strategy), sent (ac_tr a) = [mk_FullMessage demo_cid demo_msg demo_payload] /\ strategy_wf st /\
    demo_hash demo_payload = MessageHash (preamble st).
Proof.
  destruct (demo_acted demo_actions) as [a E]; [vm_compute; reflexivity|]. exists a.
  pose proof (rs_delivered_hash demo_hash rep_new rep_encode rep_reconstruct demo_choice demo_choice_perm (fun _ => 7) demo_cfg
    demo_actor0 a demo_initial (acts_rtc _ _ _ E)) as Hd.
  assert ((fun a => sent (ac_tr a)) <$> acts demo_actions demo_actor0 = Some [mk_FullMessage demo_cid demo_msg demo_payload]) as Hq by (vm_compute; reflexivity).
  rewrite E in Hq. injection Hq as Hq. rewrite Hq in Hd. destruct (proj1 (Forall_singleton _ _) Hd) as (st & Hw & _ & Hh).
  exists st. split; [exact Hq|]. split; [exact Hw|exact Hh].
Defined.
