(* ===== verification/Queue.v ===== *)
(** * Queue: the unbounded hand-off queues

    [fifo] of src/broadcast/queue.go and [streamQueue] of src/transport/queue.go.
    Each operation runs under the queue's mutex, so it is atomic; [q_ready] is
    whether the wake channel (capacity 1) holds its token.  A consumer pops
    until the queue is empty and then waits for the token, as
    [runChunkAcceptLoop] of src/broadcast/peer.go does. *)

From S2P Require Import Prelude.

Record fifo (T : Type) := mk_fifo { q_items : list T; q_ready : bool; q_closed : bool }.
Arguments mk_fifo {T}.
Arguments q_items {T}.
Arguments q_ready {T}.
Arguments q_closed {T}.

Section fifo.
Context {T : Type}.
Implicit Types (q : fifo T).

Definition newFIFO : fifo T := mk_fifo [] false false.

Definition q_signal q : fifo T := mk_fifo (q_items q) true (q_closed q).

Definition q_push (v : T) q : bool * fifo T :=
  if q_closed q then (false, q) else (true, q_signal (mk_fifo (q_items q ++ [v]) (q_ready q) (q_closed q))).

Definition q_pop q : option T * fifo T :=
  match q_items q with
  | [] => (None, q)
  | v :: rest =>
      let q := mk_fifo rest (q_ready q) (q_closed q) in
      (Some v, if (0 <? length rest)%nat then q_signal q else q)
  end.

(** [close]'s loop: remove the front until the list is empty. *)
Fixpoint close_loop (fuel : nat) (items pending : list T) : list T :=
  match fuel, items with
  | S fuel, v :: items => close_loop fuel items (pending ++ [v])
  | _, _ => pending
  end.

Definition q_close q : list T * fifo T :=
  (close_loop (length (q_items q)) (q_items q) [], mk_fifo [] (q_ready q) true).

(** [<-q.ready]. *)
Definition take_token q : fifo T := mk_fifo (q_items q) false (q_closed q).

(** [streamQueue]: a slice instead of a linked list. *)
Definition sq_push (item : T) q : bool * fifo T :=
  if q_closed q then (false, q) else (true, q_signal (mk_fifo (q_items q ++ [item]) (q_ready q) (q_closed q))).

Definition sq_tryPop q : option T * fifo T :=
  match q_items q !! 0 with
  | None => (None, q)
  | Some item =>
      let q := mk_fifo (drop 1 (q_items q)) (q_ready q) (q_closed q) in
      (Some item, if negb (length (q_items q) =? 0)%nat then q_signal q else mk_fifo [] (q_ready q) (q_closed q))
  end.

Definition sq_close q : list T * fifo T := (q_items q, mk_fifo [] (q_ready q) true).

(** ** Both queues behave alike *)

Lemma close_loop_all items : forall pending, close_loop (length items) items pending = pending ++ items.
Proof. induction items as [|v l IH]; intros p; simpl; [by rewrite app_nil_r|]. by rewrite IH, <-app_assoc. Qed.

Lemma queues_agree q v : sq_push v q = q_push v q /\ sq_tryPop q = q_pop q /\ sq_close q = q_close q.
Proof.
  split; [done|]. split.
  - unfold sq_tryPop, q_pop. destruct (q_items q) as [|x l]; [done|]. simpl. rewrite drop_0. by destruct l.
  - unfold sq_close, q_close. by rewrite close_loop_all.
Qed.

(** ** A producer and a consumer

    Producers push, one consumer takes the token, pops while awake and sleeps
    when it finds the queue empty; somebody may close the queue. *)

Record handoff := mk_handoff {
  h_q : fifo T;
  h_awake : bool;
  h_accepted : list T;
  h_out : list T;
  h_drained : list T }.

Inductive handoff_step : handoff -> handoff -> Prop :=
| hs_push v q a acc out dr b q' :
    q_push v q = (b, q') ->
    handoff_step (mk_handoff q a acc out dr) (mk_handoff q' a (if b then acc ++ [v] else acc) out dr)
| hs_wake q acc out dr :
    q_ready q = true ->
    handoff_step (mk_handoff q false acc out dr) (mk_handoff (take_token q) true acc out dr)
| hs_pop q acc out dr r q' :
    q_pop q = (r, q') ->
    handoff_step (mk_handoff q true acc out dr)
      (mk_handoff q' (match r with Some _ => true | None => false end) acc (out ++ option_list r) dr)
| hs_close q a acc out dr l q' :
    q_close q = (l, q') ->
    handoff_step (mk_handoff q a acc out dr) (mk_handoff q' a acc out (dr ++ l)).

Definition start : handoff := mk_handoff newFIFO true [] [] [].

Record handoff_inv (h : handoff) : Prop := {
  hi_order : h_accepted h = h_out h ++ h_drained h ++ q_items (h_q h);
  hi_drained : h_drained h <> [] -> q_closed (h_q h) = true;
  hi_closed : q_closed (h_q h) = true -> q_items (h_q h) = [];
  hi_wake : q_items (h_q h) <> [] -> q_ready (h_q h) = true \/ h_awake h = true }.

Lemma handoff_inv_step h h' : handoff_inv h -> handoff_step h h' -> handoff_inv h'.
Proof.
  intros [I1 I2 I3 I4] Hs. destruct Hs as [v q a acc out dr b q' E|q acc out dr Hr|q acc out dr r q' E|q a acc out dr l q' E]; simpl in *.
  - unfold q_push in E. destruct (q_closed q) eqn:Ec; injection E as <- <-; [split; simpl; rewrite ?Ec; auto|].
    split; simpl; [|done|done|by left]. rewrite I1. by rewrite <-!app_assoc.
  - split; simpl; [done|done|done|by right].
  - unfold q_pop in E. destruct (q_items q) as [|v l] eqn:Ei; injection E as <- <-; simpl.
    + rewrite app_nil_r. split; simpl; rewrite ?Ei; done.
    + assert (q_closed q = false) as Ec by (destruct (q_closed q); [by specialize (I3 eq_refl)|done]).
      assert (dr = []) as -> by (destruct dr; [done|exfalso; rewrite I2 in Ec by done; done]).
      split; destruct l; simpl; try done; try (by rewrite ?Ec); try (by left); by rewrite I1, <-!app_assoc.
  - unfold q_close in E. injection E as <- <-. rewrite close_loop_all. simpl. split; simpl; [|done|done|done].
    by rewrite app_nil_r, I1.
Qed.

(** C35. The hand-off loses and reorders nothing, whichever of the two queues is
    used: in every reachable state of producers, consumer and a close, the
    accepted values are, in order, those the consumer got, those the close
    returned and those still queued; a closed queue is empty and accepts
    nothing; and a value is never stranded: while one is queued the token is
    there or the consumer is awake. *)
Theorem handoff_lossless h v :
  rtc handoff_step start h ->
  h_accepted h = h_out h ++ h_drained h ++ q_items (h_q h) /\
  (q_closed (h_q h) = true -> q_items (h_q h) = [] /\ (q_push v (h_q h)).1 = false) /\
  (q_items (h_q h) <> [] -> q_ready (h_q h) = true \/ h_awake h = true) /\
  sq_push v (h_q h) = q_push v (h_q h) /\ sq_tryPop (h_q h) = q_pop (h_q h) /\ sq_close (h_q h) = q_close (h_q h).
Proof.
  intros Hr. assert (handoff_inv h) as [I1 I2 I3 I4].
  { assert (handoff_inv start) as Hi by (by split). revert Hi. induction Hr as [|a b c Hab _ IH]; [done|].
    intros Hi. apply IH. by eapply handoff_inv_step. }
  split; [done|]. split; [|split; [done|apply queues_agree]].
  intros Ec. split; [by apply I3|]. unfold q_push. by rewrite Ec.
Qed.
End fifo.

(** Two pushes, a pop, then a close returns the second value. *)
Lemma handoff_lossless_witness :
  exists h : handoff (T := nat), rtc handoff_step start h /\ h_accepted h = [1; 2] /\ h_out h = [1] /\ h_drained h = [2].
Proof.
  set (h := mk_handoff (mk_fifo [] true true) true [1; 2] [1] [2]). exists h.
  assert (rtc (handoff_step (T := nat)) start h) as Hr.
  { eapply rtc_l; [exact (hs_push 1 newFIFO true [] [] [] true (mk_fifo [1] true false) eq_refl)|].
    eapply rtc_l; [exact (hs_push 2 (mk_fifo [1] true false) true [1] [] [] true (mk_fifo [1; 2] true false) eq_refl)|].
    eapply rtc_l; [exact (hs_pop (mk_fifo [1; 2] true false) [1; 2] [] [] (Some 1) (mk_fifo [2] true false) eq_refl)|].
    eapply rtc_l; [exact (hs_close (mk_fifo [2] true false) true [1; 2] [1] [] [2] (mk_fifo [] true true) eq_refl)|]. apply rtc_refl. }
  destruct (handoff_lossless h 3 Hr) as (E & _). split; [exact Hr|]. split; [exact E|]. split; reflexivity.
Defined.
