(* ===== verification/Engine.v ===== *)
(** * Engine: the engine actor (src/broadcast/engine.go) and the state it keeps of
    each peer binding (src/broadcast/peer.go, peer_in.go)

    The engine's maps and the fields of a [PeerConn] it owns change only on its
    goroutine, so an event is a function on the engine and the [world].  A
    binding, a channel handle, a family peer and a stream are numbers, their
    identities.  [en_posted] is what it sent to the inboxes of channels, in
    order, while its context is alive: the membership changes
    [channelPeerChange].  A post to a channel whose actor has exited has no
    reader, so it is listed too.  [None] is a panic or a blocked send. *)

From S2P Require Import Prelude Wire Types CtrlOut Session Queue.
Open Scope Z_scope.

#[local] Set Default Proof Using "Type".

Definition streamQueueCap : nat := 64.

Record peerConn := mk_peerConn {
  pc_id : PeerID;
  pc_announced : list ChannelID;
  pc_subs : option (gset ChannelID);          (* nil until the handshake *)
  pc_inboxes : gmap ChannelID nat;
  pc_handshakeDone : bool;
  pc_stopped : bool;                          (* its context has ended *)
  pc_closed : bool;                           (* closeOnce *)
  pc_bcastAccepted : bool;
  pc_bcastIn : list nat;
  pc_sessionIn : list nat;
  pc_chunkIn : fifo nat }.

Record engine := mk_engine {
  en_channels : gmap ChannelID nat;
  en_peers : gmap PeerID nat;
  en_bindings : gmap nat nat;
  en_conns : gmap nat peerConn;
  en_posted : list (nat * PeerID * option nat) }.

(** ** Updates *)

Definition with_channels (m : gmap ChannelID nat) (e : engine) : engine := mk_engine m (en_peers e) (en_bindings e) (en_conns e) (en_posted e).
Definition with_peers (m : gmap PeerID nat) (e : engine) : engine := mk_engine (en_channels e) m (en_bindings e) (en_conns e) (en_posted e).
Definition with_bindings (m : gmap nat nat) (e : engine) : engine := mk_engine (en_channels e) (en_peers e) m (en_conns e) (en_posted e).
Definition on_conn (p : nat) (f : peerConn -> peerConn) (e : engine) : engine :=
  mk_engine (en_channels e) (en_peers e) (en_bindings e) (alter f p (en_conns e)) (en_posted e).
Definition post_change (h : nat) (pid : PeerID) (ref : option nat) (e : engine) : engine :=
  mk_engine (en_channels e) (en_peers e) (en_bindings e) (en_conns e) (en_posted e ++ [(h, pid, ref)]).

Definition with_inboxes (m : gmap ChannelID nat) (c : peerConn) : peerConn :=
  mk_peerConn (pc_id c) (pc_announced c) (pc_subs c) m (pc_handshakeDone c) (pc_stopped c) (pc_closed c) (pc_bcastAccepted c) (pc_bcastIn c) (pc_sessionIn c) (pc_chunkIn c).
Definition with_subs (x : option (gset ChannelID)) (c : peerConn) : peerConn :=
  mk_peerConn (pc_id c) (pc_announced c) x (pc_inboxes c) (pc_handshakeDone c) (pc_stopped c) (pc_closed c) (pc_bcastAccepted c) (pc_bcastIn c) (pc_sessionIn c) (pc_chunkIn c).
Definition with_handshakeDone (c : peerConn) : peerConn :=
  mk_peerConn (pc_id c) (pc_announced c) (pc_subs c) (pc_inboxes c) true (pc_stopped c) (pc_closed c) (pc_bcastAccepted c) (pc_bcastIn c) (pc_sessionIn c) (pc_chunkIn c).
Definition with_stopped (b closed : bool) (c : peerConn) : peerConn :=
  mk_peerConn (pc_id c) (pc_announced c) (pc_subs c) (pc_inboxes c) (pc_handshakeDone c) b closed (pc_bcastAccepted c) (pc_bcastIn c) (pc_sessionIn c) (pc_chunkIn c).
Definition with_queues (a : bool) (b s : list nat) (q : fifo nat) (c : peerConn) : peerConn :=
  mk_peerConn (pc_id c) (pc_announced c) (pc_subs c) (pc_inboxes c) (pc_handshakeDone c) (pc_stopped c) (pc_closed c) a b s q.

(** ** Peer bindings *)

Definition channelInboxFor (c : peerConn) (id : ChannelID) : option nat := pc_inboxes c !! id.
Definition BindChannel (id : ChannelID) (h : nat) (c : peerConn) : peerConn := with_inboxes (<[id := h]> (pc_inboxes c)) c.
Definition UnbindChannel (id : ChannelID) (c : peerConn) : peerConn := with_inboxes (delete id (pc_inboxes c)) c.

Definition newPeerConn (id : PeerID) (announced : list ChannelID) : peerConn :=
  mk_peerConn id announced None ∅ false false false false [] [] newFIFO.

Definition cancel_all (l : list nat) (w : world) : world := foldl (fun w st => CancelRead st Unspecified w) w l.

Inductive protocol := BCAST | SESS | CHUNK.

(** A send on the full one-element [bcastIn] would block the actor: [None]. *)
Definition acceptBcast (stream : nat) (c : peerConn) (w : world) : option (peerConn * world) :=
  if pc_bcastAccepted c then Some (c, CancelRead stream Refused w)
  else if (length (pc_bcastIn c) <? 1)%nat then Some (with_queues true (pc_bcastIn c ++ [stream]) (pc_sessionIn c) (pc_chunkIn c) c, w)
  else None.

Definition enqueueStream (pr : protocol) (stream : nat) (c : peerConn) (w : world) : option (peerConn * world) :=
  if pc_stopped c then Some (c, CancelRead stream Unspecified w)
  else match pr with
  | BCAST => acceptBcast stream c w
  | SESS => if (length (pc_sessionIn c) <? streamQueueCap)%nat
            then Some (with_queues (pc_bcastAccepted c) (pc_bcastIn c) (pc_sessionIn c ++ [stream]) (pc_chunkIn c) c, w)
            else Some (c, CancelRead stream Unspecified w)
  | CHUNK => let '(ok, q) := q_push stream (pc_chunkIn c) in
             Some (with_queues (pc_bcastAccepted c) (pc_bcastIn c) (pc_sessionIn c) q c,
                   if ok then w else CancelRead stream Unspecified w)
  end.

Definition disposeQueuedStreams (c : peerConn) (w : world) : peerConn * world :=
  let '(l, q) := q_close (pc_chunkIn c) in
  let w := cancel_all (pc_sessionIn c) (cancel_all (pc_bcastIn c) (cancel_all l w)) in
  (with_queues (pc_bcastAccepted c) [] [] q c, w).

Section engine.
Context (choice : nat -> gset bytes -> list bytes).
Implicit Types (e : engine) (w : world).

(** [stop], then once: the queued streams. *)
Definition Close (p : nat) e w : engine * world :=
  match en_conns e !! p with
  | Some c =>
      if pc_closed c then (e, w)
      else
        let w := on_ctrl p ctrl_close w in
        let '(c, w) := disposeQueuedStreams (with_stopped true true c) w in
        (mk_engine (en_channels e) (en_peers e) (en_bindings e) (<[p := c]> (en_conns e)) (en_posted e), w)
  | None => (e, w)
  end.

(** ** Enrolment *)

Definition enrolPeerToChannel (p : nat) (pid : PeerID) (id : ChannelID) e : engine :=
  match en_channels e !! id with
  | None => e
  | Some h => post_change h pid (Some p) (on_conn p (BindChannel id h) e)
  end.

Definition unenrolPeerFromChannel (p : nat) (pid : PeerID) (id : ChannelID) e : engine :=
  let e := on_conn p (UnbindChannel id) e in
  match en_channels e !! id with
  | None => e
  | Some h => post_change h pid None e
  end.

Definition subscribes e (p : nat) (id : ChannelID) : bool :=
  match en_conns e !! p with
  | Some c => match pc_subs c with Some m => bool_decide (id ∈ m) | None => false end
  | None => false
  end.

(** [for _, p := range e.peers] of [addChannel]. *)
Fixpoint attach_peers (id : ChannelID) (order : list PeerID) e w : engine * world :=
  match order with
  | [] => (e, w)
  | pid :: order =>
      match en_peers e !! pid with
      | Some p =>
          let e := if subscribes e p id then enrolPeerToChannel p pid id e else e in
          attach_peers id order e (on_ctrl p (fun c => announce c id true) w)
      | None => attach_peers id order e w
      end
  end.

Definition addChannel (id : ChannelID) (h : nat) e w : engine * world :=
  match en_channels e !! id with
  | Some _ => (e, observe (OnChannelAttached id (Some "channel already exists"%string)) (emit (FxCancelChannel h) w))
  | None =>
      let e := with_channels (<[id := h]> (en_channels e)) e in
      let w := observe (OnChannelAttached id None) w in
      let '(order, w) := range choice (dom (en_peers e)) w in
      attach_peers id order e w
  end.

Fixpoint detach_peers (id : ChannelID) (order : list PeerID) e w : engine * world :=
  match order with
  | [] => (e, w)
  | pid :: order =>
      match en_peers e !! pid with
      | Some p => detach_peers id order (on_conn p (UnbindChannel id) e) (on_ctrl p (fun c => announce c id false) w)
      | None => detach_peers id order e w
      end
  end.

Definition removeChannel (id : ChannelID) e w : engine * world :=
  match en_channels e !! id with
  | None => (e, w)
  | Some _ =>
      let '(order, w) := range choice (dom (en_peers e)) w in
      let '(e, w) := detach_peers id order e w in
      (with_channels (delete id (en_channels e)) e, observe (OnChannelDropped id) w)
  end.

(** A write to the nil [subs] map panics. *)
Definition peerSubscribed (p : nat) (id : ChannelID) e w : option (engine * world) :=
  letp c := en_conns e !! p in
  if decide (en_peers e !! pc_id c = Some p) then
    match pc_subs c with
    | None => None
    | Some m => if bool_decide (id ∈ m) then Some (e, w)
                else Some (enrolPeerToChannel p (pc_id c) id (on_conn p (with_subs (Some ({[id]} ∪ m))) e),
                           observe (OnPeerSubscribed (pc_id c) id) w)
    end
  else Some (e, w).

Definition peerUnsubscribed (p : nat) (id : ChannelID) e w : option (engine * world) :=
  letp c := en_conns e !! p in
  if decide (en_peers e !! pc_id c = Some p) then
    match pc_subs c with
    | None => Some (e, w)
    | Some m => if bool_decide (id ∈ m)
                then Some (unenrolPeerFromChannel p (pc_id c) id (on_conn p (with_subs (Some (m ∖ {[id]}))) e),
                           observe (OnPeerUnsubscribed (pc_id c) id) w)
                else Some (e, w)
    end
  else Some (e, w).

(** ** Bindings *)

(** [live] is whether the family peer's context is still alive. *)
Definition bindPeer (peer : nat) (pid : PeerID) (live : bool) e w : engine * world :=
  if live then
    let '(p, w) := fresh w in
    let '(announced, w) := range choice (dom (en_channels e)) w in
    let w := on_ctrl p (fun _ => newCtrlOutState) w in
    (mk_engine (en_channels e) (en_peers e) (<[peer := p]> (en_bindings e)) (<[p := newPeerConn pid announced]> (en_conns e)) (en_posted e), w)
  else (e, w).

Fixpoint announce_all (p : nat) (b : bool) (ids : list ChannelID) w : world :=
  match ids with
  | [] => w
  | id :: ids => announce_all p b ids (on_ctrl p (fun c => announce c id b) w)
  end.

(** The loop that fills [subs] and enrols. *)
Fixpoint enrol_all (p : nat) (pid : PeerID) (ids : list ChannelID) (subs : gset ChannelID) e : gset ChannelID * engine :=
  match ids with
  | [] => (subs, e)
  | id :: ids => if bool_decide (id ∈ subs) then enrol_all p pid ids subs e
                 else enrol_all p pid ids ({[id]} ∪ subs) (enrolPeerToChannel p pid id e)
  end.

(** Closing [handshakeDone] twice panics. *)
Definition handlePeerHandshake (p : nat) (channels : list ChannelID) e w : option (engine * world) :=
  letp c := en_conns e !! p in
  if pc_stopped c then Some (e, w)
  else
    let e := with_peers (<[pc_id c := p]> (en_peers e)) e in
    let w := on_ctrl p (fun s => announceInitial s (pc_announced c)) w in
    let '(order, w) := range choice (dom (en_channels e)) w in
    let w := announce_all p true (filter (fun id => id ∉ pc_announced c) order) w in
    let w := announce_all p false (filter (fun id => en_channels e !! id = None) (pc_announced c)) w in
    let '(subs, e) := enrol_all p (pc_id c) channels ∅ e in
    let e := on_conn p (with_subs (Some subs)) e in
    if pc_handshakeDone c then None
    else
      let e := on_conn p with_handshakeDone e in
      let w := observe (OnPeerHandshook (pc_id c) channels) w in
      Some (e, foldl (fun w id => observe (OnPeerSubscribed (pc_id c) id) w) w channels).

Fixpoint unenrol_all (p : nat) (pid : PeerID) (ids : list ChannelID) e : engine :=
  match ids with [] => e | id :: ids => unenrol_all p pid ids (unenrolPeerFromChannel p pid id e) end.

Definition removePeer (p : nat) e w : option (engine * world) :=
  letp c := en_conns e !! p in
  if decide (en_peers e !! pc_id c = Some p) then
    let e := with_peers (delete (pc_id c) (en_peers e)) e in
    let '(order, w) := range choice (default ∅ (pc_subs c)) w in
    Some (unenrol_all p (pc_id c) order e, observe (OnPeerGone (pc_id c)) w)
  else Some (e, w).

Definition handlePeerGone (p : nat) e w : option (engine * world) :=
  letp r := removePeer p e w in Some (Close p r.1 r.2).

(** ** Deliveries *)

(** What the family hands over: [bidi] is whether the stream is a [Stream] and
    not only a [ReceiveStream]. *)
Inductive delivery :=
| PeerUp (peer : nat) (pid : PeerID) (live : bool)
| StreamIn (peer : nat) (pr : protocol) (bidi : bool) (stream : nat)
| PeerDown (peer : nat).

Definition event_Cancel (code : Code) (d : delivery) w : world :=
  match d with
  | StreamIn _ _ bidi stream => let w := CancelRead stream code w in if bidi : bool then CancelWrite stream code w else w
  | _ => w
  end.
Definition event_Reject (d : delivery) w : world := event_Cancel Refused d w.

(** [closing] is whether the engine's context has ended. *)
Definition handleStreamEvent (closing : bool) (peer : nat) (pr : protocol) (bidi : bool) (stream : nat) e w : option (engine * world) :=
  if closing then Some (e, event_Cancel Unspecified (StreamIn peer pr bidi stream) w)
  else if bidi then Some (e, event_Reject (StreamIn peer pr bidi stream) w)
  else match en_bindings e !! peer with
  | None => Some (e, event_Reject (StreamIn peer pr bidi stream) w)
  | Some p =>
      letp c := en_conns e !! p in
      letp r := enqueueStream pr stream c w in
      Some (on_conn p (fun _ => r.1) e, r.2)
  end.

Definition handleDelivery (closing : bool) (d : delivery) e w : option (engine * world) :=
  match d with
  | PeerUp peer pid live => Some (bindPeer peer pid live e w)
  | StreamIn peer pr bidi stream => handleStreamEvent closing peer pr bidi stream e w
  | PeerDown peer =>
      match en_bindings e !! peer with
      | None => Some (e, w)
      | Some p => handlePeerGone p (with_bindings (delete peer (en_bindings e)) e) w
      end
  end.

(** The bindings are closed in the map's order; the channels' actors are then
    waited for, which changes nothing here. *)
Fixpoint close_all (order : list nat) e w : engine * world :=
  match order with [] => (e, w) | p :: order => let '(e, w) := Close p e w in close_all order e w end.

Definition shutdown (pending : list delivery) (order : list nat) e w : engine * world :=
  close_all order e (foldl (fun w d => event_Cancel Unspecified d w) w pending).

(** ** Events of the loop *)

Inductive engine_event :=
| EvDelivery (d : delivery)
| EvAddChannel (id : ChannelID) (h : nat)
| EvDropChannel (id : ChannelID)
| EvSubscribe (p : nat) (id : ChannelID)
| EvUnsubscribe (p : nat) (id : ChannelID)
| EvHandshake (p : nat) (channels : list ChannelID)
| EvGone (p : nat).

Definition engine_handle (evt : engine_event) e w : option (engine * world) :=
  match evt with
  | EvDelivery d => handleDelivery false d e w
  | EvAddChannel id h => Some (addChannel id h e w)
  | EvDropChannel id => Some (removeChannel id e w)
  | EvSubscribe p id => peerSubscribed p id e w
  | EvUnsubscribe p id => peerUnsubscribed p id e w
  | EvHandshake p channels => handlePeerHandshake p channels e w
  | EvGone p => handlePeerGone p e w
  end.
End engine.

(** ** What a channel's actor is told

    The membership of [pid] in the channel with handle [h] after the posts [l],
    as [handlePeerBound] and [handlePeerUnbound] apply them; [None] when a bind
    found another connection bound. *)

Definition seat_step (h : nat) (pid : PeerID) (acc : option (option nat)) (x : nat * PeerID * option nat) : option (option nat) :=
  letp a := acc in
  if decide (x.1 = (h, pid)) then
    match x.2 with
    | Some p => if decide (a = None \/ a = Some p) then Some (Some p) else None
    | None => Some None
    end
  else Some a.

Definition seat (h : nat) (pid : PeerID) (l : list (nat * PeerID * option nat)) : option (option nat) :=
  foldl (seat_step h pid) (Some None) l.

Lemma seat_snoc h pid l x : seat h pid (l ++ [x]) = seat_step h pid (seat h pid l) x.
Proof. unfold seat. by rewrite foldl_app. Qed.

Lemma seat_none h pid l : (forall r, (h, pid, r) ∉ l) -> seat h pid l = Some None.
Proof.
  induction l as [|x l IH] using rev_ind; intros H; [done|]. rewrite seat_snoc, IH.
  - unfold seat_step. simpl. rewrite decide_False; [done|]. intros E. apply (H x.2). rewrite <-E. destruct x as [[? ?] ?]. simpl.
    apply elem_of_app. right. by apply list_elem_of_singleton.
  - intros r Hr. apply (H r). apply elem_of_app. by left.
Qed.

(** ** Membership and routing

    [D id pid] is the binding that channel [id] should have for [pid]. *)

Definition desired (e : engine) (id : ChannelID) (pid : PeerID) : option nat :=
  p ← en_peers e !! pid; if subscribes e p id then Some p else None.

Record linked (D : ChannelID -> PeerID -> option nat) (e : engine) : Prop := {
  lk_seat : forall id h pid, en_channels e !! id = Some h -> seat h pid (en_posted e) = Some (D id pid);
  lk_box : forall p c id, en_conns e !! p = Some c ->
           pc_inboxes c !! id = if decide (D id (pc_id c) = Some p) then en_channels e !! id else None;
  lk_inj : forall id1 id2 h, en_channels e !! id1 = Some h -> en_channels e !! id2 = Some h -> id1 = id2 }.

Definition upd (D : ChannelID -> PeerID -> option nat) (id : ChannelID) (pid : PeerID) (r : option nat) : ChannelID -> PeerID -> option nat :=
  fun i q => if decide (i = id /\ q = pid) then r else D i q.

Lemma upd_same D id pid r : upd D id pid r id pid = r.
Proof. unfold upd. by rewrite decide_True. Qed.
Lemma upd_other D id pid r i q : i <> id \/ q <> pid -> upd D id pid r i q = D i q.
Proof. intros H. unfold upd. rewrite decide_False; [done|]. naive_solver. Qed.

Lemma linked_ext D D' e : (forall id pid, D id pid = D' id pid) -> linked D e -> linked D' e.
Proof. intros H [L1 L2 L3]. split; [intros; rewrite <-H; by apply L1|intros; rewrite <-H; by apply L2|done]. Qed.

(** A change of one binding's table and one post, for one channel and peer. *)
Lemma linked_change D e p c id h pid r f :
  linked D e -> en_conns e !! p = Some c -> pc_id c = pid -> en_channels e !! id = Some h ->
  D id pid = None \/ D id pid = Some p -> r = Some p \/ r = None ->
  pc_id (f c) = pc_id c -> (forall i, pc_inboxes (f c) !! i = if decide (i = id) then (if r then Some h else None) else pc_inboxes c !! i) ->
  linked (upd D id pid r) (post_change h pid r (on_conn p f e)).
Proof.
  intros [L1 L2 L3] Hc Hid Hh HD Hr Hf1 Hf2. split; simpl; [..|done].
  - intros i k q Hk. rewrite seat_snoc. unfold seat_step. simpl. rewrite (L1 i k q Hk). simpl.
    destruct (decide (k = h)) as [->|Hne].
    + assert (i = id) as -> by by eapply L3. destruct (decide (q = pid)) as [->|Hq].
      * rewrite decide_True, upd_same by done. destruct Hr as [-> | ->]; [|done]. by rewrite decide_True.
      * rewrite decide_False by congruence. by rewrite upd_other by naive_solver.
    + rewrite decide_False by congruence. rewrite upd_other; [done|]. left. intros ->. congruence.
  - intros q cq i Hq. destruct (decide (p = q)) as [<-|Hne].
    + rewrite lookup_alter_eq, Hc in Hq. injection Hq as <-. rewrite Hf1, Hf2, Hid. destruct (decide (i = id)) as [->|Hi].
      * rewrite upd_same. destruct Hr as [-> | ->]; [by rewrite decide_True|by rewrite decide_False].
      * rewrite upd_other by auto. rewrite <-Hid. by apply L2.
    + rewrite lookup_alter_ne in Hq by done. rewrite (L2 q cq i Hq). destruct (decide (i = id /\ pc_id cq = pid)) as [[-> ->]|Hi].
      * rewrite upd_same, !decide_False; [done| |]; [destruct Hr as [-> | ->]; congruence|destruct HD as [-> | ->]; congruence].
      * rewrite upd_other; [done|]. destruct (decide (i = id)); [right|by left]. naive_solver.
Qed.

(** Without such a channel there is nothing to post, and no table has an entry. *)
Lemma linked_absent D e id pid r : linked D e -> en_channels e !! id = None -> linked (upd D id pid r) e.
Proof.
  intros [L1 L2 L3] Hn. split; [..|done].
  - intros i k q Hk. rewrite (L1 i k q Hk). rewrite upd_other; [done|]. left. congruence.
  - intros q c i Hq. rewrite (L2 q c i Hq). destruct (decide (i = id)) as [->|Hne]; [rewrite Hn; repeat case_decide; done|].
    by rewrite upd_other by auto.
Qed.

(** A change that leaves the tables alone. *)
Lemma linked_conn D e p f :
  linked D e -> (forall c, pc_id (f c) = pc_id c /\ pc_inboxes (f c) = pc_inboxes c) -> linked D (on_conn p f e).
Proof.
  intros [L1 L2 L3] Hf. split; simpl; [done| |done]. intros q cq i Hq.
  destruct (decide (p = q)) as [<-|Hne]; [|rewrite lookup_alter_ne in Hq by done; by apply L2].
  rewrite lookup_alter_Some in Hq. destruct Hq as [(_ & c & Hc & ->)|[]]; [|done]. destruct (Hf c) as [-> ->]. by apply L2.
Qed.

Lemma enrol_linked D e p c id pid :
  linked D e -> en_conns e !! p = Some c -> pc_id c = pid -> D id pid = None \/ D id pid = Some p ->
  linked (upd D id pid (Some p)) (enrolPeerToChannel p pid id e).
Proof.
  intros HL Hc Hid HD. unfold enrolPeerToChannel. destruct (en_channels e !! id) as [h|] eqn:Eh; [|by apply linked_absent].
  eapply linked_change; [done..|by left|done|]. intros i. simpl. case_decide as E; [subst; by rewrite lookup_insert_eq|by rewrite lookup_insert_ne].
Qed.

Lemma unenrol_linked D e p c id pid :
  linked D e -> en_conns e !! p = Some c -> pc_id c = pid -> D id pid = None \/ D id pid = Some p ->
  linked (upd D id pid None) (unenrolPeerFromChannel p pid id e).
Proof.
  intros HL Hc Hid HD. unfold unenrolPeerFromChannel. simpl. destruct (en_channels e !! id) as [h|] eqn:Eh.
  - eapply linked_change; [done..|by right|done|]. intros i. simpl. case_decide as E; [subst; by rewrite lookup_delete_eq|by rewrite lookup_delete_ne].
  - apply (linked_absent _ _ id pid None) in HL; [|done].
    destruct HL as [L1 L2 L3]. split; simpl; [done| |done]. intros q cq i Hq.
    destruct (decide (p = q)) as [<-|Hne]; [|rewrite lookup_alter_ne in Hq by done; by apply L2].
    rewrite lookup_alter_Some in Hq. destruct Hq as [(_ & c' & Hc' & ->)|[]]; [|done]. simpl. rewrite <-(L2 p c' i Hc').
    destruct (decide (i = id)) as [->|]; [|by rewrite lookup_delete_ne]. rewrite lookup_delete_eq, (L2 p c' id Hc'), Eh. by case_decide.
Qed.

(** ** The invariant *)

Definition quiet (w : world) (p : nat) : Prop := closed (ctrlState w p) = true.

(** The bounds of the handoff queues; the BCAST slot is free until it is used. *)
Definition queues_ok (c : peerConn) : Prop :=
  (pc_bcastAccepted c = false -> pc_bcastIn c = []) /\ (length (pc_bcastIn c) <= 1)%nat /\ (length (pc_sessionIn c) <= streamQueueCap)%nat.

(** [X] are the bindings whose family peer is gone but which are not yet closed. *)
Record engine_inv (X : gset nat) (e : engine) (w : world) : Prop := {
  ei_linked : linked (desired e) e;
  ei_peer : forall pid p, en_peers e !! pid = Some p ->
    exists c m, en_conns e !! p = Some c /\ pc_id c = pid /\ pc_subs c = Some m /\ pc_closed c = false;
  ei_bound : forall peer p, en_bindings e !! peer = Some p -> is_Some (en_conns e !! p);
  ei_open : forall p c, p ∉ X -> en_conns e !! p = Some c -> pc_closed c = false -> exists peer, en_bindings e !! peer = Some p;
  ei_single : forall b1 b2 p1 p2 c1 c2, en_bindings e !! b1 = Some p1 -> en_bindings e !! b2 = Some p2 ->
    en_conns e !! p1 = Some c1 -> en_conns e !! p2 = Some c2 -> pc_id c1 = pc_id c2 -> b1 = b2;
  ei_stopped : forall p c, en_conns e !! p = Some c -> pc_closed c = true -> pc_stopped c = true;
  ei_fresh : forall p, is_Some (en_conns e !! p) -> (p < w_fresh w)%nat;
  ei_wanted : forall pid p, en_peers e !! pid = Some p ->
    quiet w p \/ (ctrl_wf (ctrlState w p) /\ wanted (ctrlState w p) = dom (en_channels e));
  ei_young : forall p c, en_conns e !! p = Some c -> pc_handshakeDone c = false ->
    pc_subs c = None /\ (quiet w p \/ ctrlState w p = newCtrlOutState);
  ei_queues : forall p c, en_conns e !! p = Some c -> queues_ok c }.

Lemma peer_conn X e w pid p : engine_inv X e w -> en_peers e !! pid = Some p -> exists c, en_conns e !! p = Some c /\ pc_id c = pid.
Proof. intros Hi Hp. destruct (ei_peer _ _ _ Hi _ _ Hp) as (c & m & Hc & Hid & _). by exists c. Qed.

(** A binding belongs to one peer. *)
Lemma peers_inj X e w pid p c : engine_inv X e w -> en_conns e !! p = Some c -> en_peers e !! pid = Some p -> pid = pc_id c.
Proof. intros Hi Hc Hp. destruct (peer_conn _ _ _ _ _ Hi Hp) as (c' & Hc' & <-). congruence. Qed.

(** ** Loops *)

Definition same_but_boxes (c c' : peerConn) : Prop := exists m, c' = with_inboxes m c.

(** The engine but for tables and posts. *)
Record boxed (e e' : engine) : Prop := {
  bx_channels : en_channels e' = en_channels e;
  bx_peers : en_peers e' = en_peers e;
  bx_bindings : en_bindings e' = en_bindings e;
  bx_conns : forall p, option_Forall2 same_but_boxes (en_conns e !! p) (en_conns e' !! p) }.

#[global] Instance boxed_preorder : PreOrder boxed.
Proof.
  split.
  - intros e. split; try done. intros p. destruct (en_conns e !! p) as [c|]; constructor. exists (pc_inboxes c). by destruct c.
  - intros a b c [] []. split; [congruence..|]. intros p. specialize (bx_conns0 p). specialize (bx_conns1 p).
    destruct bx_conns0 as [x y [m ->]|]; [|inversion bx_conns1; constructor]. inversion bx_conns1 as [x' y' [m' ->]|]; subst. constructor. by exists m'.
Qed.

Lemma boxed_conn e e' p c : boxed e e' -> en_conns e !! p = Some c -> exists m, en_conns e' !! p = Some (with_inboxes m c).
Proof. intros H Hc. pose proof (bx_conns _ _ H p) as Hb. rewrite Hc in Hb. inversion Hb as [? ? [m ->] E|]; subst. by exists m. Qed.

Lemma boxed_conn_inv e e' p c : boxed e e' -> en_conns e' !! p = Some c -> exists c0 m, en_conns e !! p = Some c0 /\ c = with_inboxes m c0.
Proof. intros H Hc. pose proof (bx_conns _ _ H p) as Hb. rewrite Hc in Hb. inversion Hb as [c0 ? [m ->] E|]; subst. by exists c0, m. Qed.

Lemma boxed_subscribes e e' p id : boxed e e' -> subscribes e' p id = subscribes e p id.
Proof. intros H. unfold subscribes. destruct (bx_conns _ _ H p) as [c c' [m ->]|]; done. Qed.

Lemma boxed_desired e e' id pid : boxed e e' -> desired e' id pid = desired e id pid.
Proof.
  intros H. unfold desired. rewrite (bx_peers _ _ H). destruct (en_peers e !! pid) as [p|]; [|done]. simpl. by rewrite (boxed_subscribes e e').
Qed.

Lemma boxed_on_conn e p f : (forall c, same_but_boxes c (f c)) -> boxed e (on_conn p f e).
Proof.
  intros Hf. split; try done. intros q. simpl. destruct (decide (p = q)) as [<-|Hne].
  - rewrite lookup_alter_eq. destruct (en_conns e !! p) as [c|]; constructor. apply Hf.
  - rewrite lookup_alter_ne by done. apply (bx_conns e e); done.
Qed.

Lemma boxed_post e h pid r : boxed e (post_change h pid r e).
Proof. split; try done. apply (bx_conns e e); done. Qed.

Lemma boxed_enrol p pid id e : boxed e (enrolPeerToChannel p pid id e).
Proof.
  unfold enrolPeerToChannel. destruct (en_channels e !! id); [|done]. etrans; [|apply boxed_post]. apply boxed_on_conn. intros c. by eexists.
Qed.
Lemma boxed_unenrol p pid id e : boxed e (unenrolPeerFromChannel p pid id e).
Proof.
  unfold unenrolPeerFromChannel. assert (boxed e (on_conn p (UnbindChannel id) e)) as H by (apply boxed_on_conn; intros c; by eexists).
  destruct (_ !! id); [|done]. etrans; [exact H|apply boxed_post].
Qed.

Lemma ctrlState_on p f w q : ctrlState (on_ctrl p f w) q = if decide (q = p) then f (ctrlState w p) else ctrlState w q.
Proof. unfold ctrlState, on_ctrl. simpl. case_decide as E; [subst; by rewrite lookup_insert_eq|by rewrite lookup_insert_ne]. Qed.

Lemma desired_Some e id pid p : desired e id pid = Some p <-> en_peers e !! pid = Some p /\ subscribes e p id = true.
Proof.
  unfold desired. destruct (en_peers e !! pid) as [q|]; simpl; [|split; [done|by intros [? _]]].
  destruct (subscribes e q id) eqn:E; split; [by intros [= <-]|by intros [[= <-] _]|done|]. intros [[= <-] H]. congruence.
Qed.

(** A new channel reaches every subscribed peer, and is announced to all. *)
Lemma attach_peers_spec id order : forall e w D,
  linked D e -> NoDup order ->
  (forall pid p, en_peers e !! pid = Some p -> exists c, en_conns e !! p = Some c /\ pc_id c = pid) ->
  (forall pid, D id pid = None \/ D id pid = desired e id pid) ->
  exists e' w', attach_peers id order e w = (e', w') /\ boxed e e' /\
    linked (fun i q => if decide (i = id /\ q ∈ order) then desired e id q else D i q) e' /\ w_fresh w' = w_fresh w /\
    (forall q, (forall pid, pid ∈ order -> en_peers e !! pid <> Some q) -> ctrlState w' q = ctrlState w q) /\
    (forall pid q, pid ∈ order -> en_peers e !! pid = Some q -> ctrlState w' q = announce (ctrlState w q) id true).
Proof.
  induction order as [|pid order IH]; intros e w D HL Hnd Hc HD; simpl.
  { do 2 eexists. split; [done|]. split; [done|]. split; [|split; [done|split; [done|]]]; [|by intros ? ? ?%elem_of_nil].
    eapply linked_ext; [|exact HL]. intros i q. by rewrite decide_False by (by intros [_ ?%elem_of_nil]). }
  apply NoDup_cons in Hnd as [Hni Hnd]. destruct (en_peers e !! pid) as [p|] eqn:Ep.
  2:{ destruct (IH e w D HL Hnd Hc HD) as (e' & w' & -> & Hb & HL' & Hf & H1 & H2). do 2 eexists. split; [done|]. split; [done|]. split; [|split; [done|split]].
      - eapply linked_ext; [|exact HL']. intros i q. simpl.
        destruct (decide (i = id /\ q ∈ order)) as [[-> Hq]|Hn]; [rewrite decide_True; [done|split; [done|by right]]|].
        destruct (decide (i = id /\ q ∈ pid :: order)) as [[-> Hq]|]; [|done]. apply elem_of_cons in Hq as [->|Hq]; [|naive_solver].
        destruct (HD pid) as [E|]; [|done]. rewrite E. unfold desired. by rewrite Ep.
      - intros q Hq. apply H1. intros pid' Hp. apply Hq. by apply elem_of_cons; right.
      - intros pid' q [-> |Hp]%elem_of_cons; [congruence|by apply H2]. }
  destruct (Hc pid p Ep) as (c & Hcp & Hid).
  set (e1 := if subscribes e p id then enrolPeerToChannel p pid id e else e).
  assert (boxed e e1) as Hb1 by (unfold e1; destruct (subscribes e p id); [apply boxed_enrol|done]).
  assert (linked (upd D id pid (desired e id pid)) e1) as HL1.
  { unfold e1, desired. rewrite Ep. simpl. destruct (subscribes e p id) eqn:Es.
    - eapply enrol_linked; [done..|]. destruct (HD pid) as [|E]; [by left|right]. rewrite E. by apply desired_Some.
    - eapply linked_ext; [|exact HL]. intros i q. unfold upd. destruct (decide (i = id /\ q = pid)) as [[-> ->]|]; [|done].
      destruct (HD pid) as [|E]; [done|]. rewrite E. unfold desired. rewrite Ep. simpl. by rewrite Es. }
  destruct (IH e1 (on_ctrl p (fun c => announce c id true) w) (upd D id pid (desired e id pid)) HL1 Hnd) as (e' & w' & -> & Hb & HL' & Hf & H1 & H2).
  { intros pid' q Hq. rewrite (bx_peers _ _ Hb1) in Hq. destruct (Hc pid' q Hq) as (c' & Hc' & <-). destruct (boxed_conn _ _ _ _ Hb1 Hc') as [m Hm].
    eexists. split; [exact Hm|done]. }
  { intros q. rewrite (boxed_desired e e1) by done. destruct (decide (q = pid)) as [->|Hne]; [right; by rewrite upd_same|].
    rewrite upd_other by auto. apply HD. }
  do 2 eexists. split; [done|]. split; [by etrans|]. split; [|split; [by rewrite Hf|split]].
  - eapply linked_ext; [|exact HL']. intros i q. simpl. rewrite (boxed_desired e e1) by done. unfold upd.
    destruct (decide (i = id)) as [->|Hi]; [|rewrite !decide_False by (by intros [? _]); done].
    destruct (decide (q ∈ order)) as [Hq|Hq]; [rewrite !decide_True; [done|split; [done|by right]|done]|].
    rewrite decide_False by (by intros [_ ?]). destruct (decide (q = pid)) as [->|Hn]; [rewrite !decide_True; [done|split; [done|by left]|done]|].
    rewrite !decide_False; [done| |by intros [_ ?]]. intros [_ [?|?]%elem_of_cons]; done.
  - intros q Hq. rewrite H1, ctrlState_on, decide_False; [done| |].
    + intros ->. by apply (Hq pid); [left|].
    + intros pid' Hp. rewrite (bx_peers _ _ Hb1). apply Hq. by right.
  - intros pid' q Hp Eq. destruct (decide (q = p)) as [->|Hne].
    + destruct (Hc pid' p Eq) as (c' & Hc' & Hid'). assert (pid' = pid) as -> by congruence.
      rewrite H1, ctrlState_on, decide_True; [done|done|]. intros pid'' Hp'' Eq''. rewrite (bx_peers _ _ Hb1) in Eq''.
      destruct (Hc pid'' p Eq'') as (c'' & Hc'' & Hid''). assert (pid'' = pid) as -> by congruence. done.
    + apply elem_of_cons in Hp as [-> |Hp]; [congruence|]. rewrite (H2 pid' q Hp) by (by rewrite (bx_peers _ _ Hb1)). by rewrite ctrlState_on, decide_False.
Qed.

Lemma detach_peers_spec id order : forall e w,
  NoDup order ->
  (forall pid p, en_peers e !! pid = Some p -> exists c, en_conns e !! p = Some c /\ pc_id c = pid) ->
  exists e' w', detach_peers id order e w = (e', w') /\ boxed e e' /\ en_posted e' = en_posted e /\ w_fresh w' = w_fresh w /\
    (forall p c', en_conns e' !! p = Some c' -> exists c, en_conns e !! p = Some c /\ pc_id c' = pc_id c /\
       (forall i, i <> id -> pc_inboxes c' !! i = pc_inboxes c !! i) /\
       (pc_inboxes c' !! id = None \/ (pc_inboxes c' !! id = pc_inboxes c !! id /\ forall pid, pid ∈ order -> en_peers e !! pid <> Some p))) /\
    (forall q, (forall pid, pid ∈ order -> en_peers e !! pid <> Some q) -> ctrlState w' q = ctrlState w q) /\
    (forall pid q, pid ∈ order -> en_peers e !! pid = Some q -> ctrlState w' q = announce (ctrlState w q) id false).
Proof.
  induction order as [|pid order IH]; intros e w Hnd Hc; simpl.
  { do 2 eexists. repeat (split; [done|]). split; [|split; [done|by intros ? ? ?%elem_of_nil]]. intros p c' Hp. exists c'. repeat (split; [done|]).
    right. split; [done|]. by intros ? ?%elem_of_nil. }
  apply NoDup_cons in Hnd as [Hni Hnd]. destruct (en_peers e !! pid) as [p|] eqn:Ep.
  2:{ destruct (IH e w Hnd Hc) as (e' & w' & -> & Hb & Hp & Hf & Hx & H1 & H2). do 2 eexists. repeat (split; [done|]). split; [|split].
      - intros q c' Hq. destruct (Hx q c' Hq) as (c & A & B & C & D). exists c. repeat (split; [done|]). destruct D as [?|[? D]]; [by left|right].
        split; [done|]. intros pid' [-> |?]%elem_of_cons; [congruence|by apply D].
      - intros q Hq. apply H1. intros pid' ?. apply Hq. by right.
      - intros pid' q [-> |?]%elem_of_cons; [congruence|by apply H2]. }
  destruct (Hc pid p Ep) as (cp & Hcp & Hid). set (e1 := on_conn p (UnbindChannel id) e).
  assert (boxed e e1) as Hb1 by (apply boxed_on_conn; intros c; by eexists).
  destruct (IH e1 (on_ctrl p (fun c => announce c id false) w) Hnd) as (e' & w' & -> & Hb & Hp & Hf & Hx & H1 & H2).
  { intros pid' q Hq. destruct (Hc pid' q Hq) as (c' & Hc' & <-). destruct (boxed_conn _ _ _ _ Hb1 Hc') as [m Hm]. eexists. split; [exact Hm|done]. }
  change (en_peers e1) with (en_peers e) in *. do 2 eexists. split; [done|]. split; [by etrans|]. split; [done|]. split; [done|]. split; [|split].
  - intros q c' Hq. destruct (Hx q c' Hq) as (c1 & A & B & C & D). unfold e1 in A. simpl in A. rewrite lookup_alter_Some in A.
    destruct A as [(<- & c & A & ->)|[Hne A]].
    + exists c. split; [done|]. split; [done|]. split; [intros i Hi; rewrite C by done; simpl; by rewrite lookup_delete_ne|].
      left. destruct D as [|[D _]]; [done|]. rewrite D. simpl. apply lookup_delete_eq.
    + exists c1. repeat (split; [done|]). destruct D as [|[D1 D2]]; [by left|right]. split; [done|].
      intros pid' [-> |?]%elem_of_cons; [congruence|by apply D2].
  - intros q Hq. rewrite H1, ctrlState_on, decide_False; [done| |].
    + intros ->. by apply (Hq pid); [left|].
    + intros pid' ?. apply Hq. by right.
  - intros pid' q Hin Eq. destruct (decide (q = p)) as [->|Hne].
    + assert (forall x, en_peers e !! x = Some p -> x = pid) as Hu by (intros x Hx'; destruct (Hc x p Hx') as (c' & ? & <-); congruence).
      rewrite H1, ctrlState_on, decide_True; [done|done|]. intros x Hx' Ex. by rewrite (Hu x Ex) in Hx'.
    + apply elem_of_cons in Hin as [-> |Hin]; [congruence|]. rewrite (H2 pid' q Hin Eq). by rewrite ctrlState_on, decide_False.
Qed.

Lemma enrol_all_spec p pid ids : forall subs e D,
  linked D e -> (exists c, en_conns e !! p = Some c /\ pc_id c = pid) -> (forall id, D id pid = None \/ D id pid = Some p) ->
  exists e', enrol_all p pid ids subs e = (subs ∪ list_to_set ids, e') /\ boxed e e' /\
    linked (fun i q => if decide (q = pid /\ i ∈ (list_to_set ids ∖ subs : gset ChannelID)) then Some p else D i q) e'.
Proof.
  induction ids as [|id ids IH]; intros subs e D HL (c & Hc & Hid) HD; simpl.
  { exists e. split; [f_equal; set_solver|]. split; [done|]. eapply linked_ext; [|exact HL]. intros i q. rewrite decide_False; [done|]. set_solver. }
  case_bool_decide as Hin.
  - destruct (IH subs e D HL) as (e' & -> & Hb & HL'); [by exists c|done|]. exists e'. split; [f_equal; set_solver|]. split; [done|].
    eapply linked_ext; [|exact HL']. intros i q. apply decide_ext. set_solver.
  - destruct (boxed_conn _ _ _ _ (boxed_enrol p pid id e) Hc) as [m Hm].
    destruct (IH ({[id]} ∪ subs) (enrolPeerToChannel p pid id e) (upd D id pid (Some p))) as (e' & -> & Hb & HL').
    + by eapply enrol_linked.
    + eexists. split; [exact Hm|done].
    + intros i. destruct (decide (i = id)) as [->|]; [right; apply upd_same|rewrite upd_other by auto; apply HD].
    + exists e'. split; [f_equal; set_solver|]. split; [etrans; [apply boxed_enrol|done]|].
      eapply linked_ext; [|exact HL']. intros i q. unfold upd. destruct (decide (q = pid)) as [->|Hq]; [|rewrite !decide_False by naive_solver; done].
      destruct (decide (i = id)) as [->|Hi]; [repeat (case_decide; try done); set_solver|]. rewrite (decide_False (P := i = id /\ _)) by naive_solver.
      apply decide_ext. set_solver.
Qed.

Lemma unenrol_all_spec p pid ids : forall e D,
  linked D e -> (exists c, en_conns e !! p = Some c /\ pc_id c = pid) -> (forall id, D id pid = None \/ D id pid = Some p) ->
  boxed e (unenrol_all p pid ids e) /\
  linked (fun i q => if decide (q = pid /\ i ∈ ids) then None else D i q) (unenrol_all p pid ids e).
Proof.
  induction ids as [|id ids IH]; intros e D HL (c & Hc & Hid) HD; simpl.
  { split; [done|]. eapply linked_ext; [|exact HL]. intros i q. rewrite decide_False; [done|]. by intros [_ ?%elem_of_nil]. }
  destruct (boxed_conn _ _ _ _ (boxed_unenrol p pid id e) Hc) as [m Hm].
  destruct (IH (unenrolPeerFromChannel p pid id e) (upd D id pid None)) as [Hb HL'].
  - by eapply unenrol_linked.
  - eexists. split; [exact Hm|done].
  - intros i. destruct (decide (i = id)) as [->|]; [left; apply upd_same|rewrite upd_other by auto; apply HD].
  - split; [etrans; [apply boxed_unenrol|done]|]. eapply linked_ext; [|exact HL']. intros i q. unfold upd.
    destruct (decide (q = pid)) as [->|Hq]; [|rewrite !decide_False by naive_solver; done].
    destruct (decide (i ∈ ids)) as [Hi|Hi]; [rewrite !decide_True; [done|split; [done|by right]|done]|]. rewrite decide_False by naive_solver.
    destruct (decide (i = id)) as [->|Hn]; [rewrite !decide_True; [done|split; [done|by left]|done]|].
    rewrite !decide_False; [done| |naive_solver]. intros [_ [?|?]%elem_of_cons]; done.
Qed.

Lemma announce_closed c id b : closed c = true -> announce c id b = c.
Proof. intros E. unfold announce. by rewrite E. Qed.

Lemma announce_all_spec p b ids : forall w,
  w_fresh (announce_all p b ids w) = w_fresh w /\
  (forall q, q <> p -> ctrlState (announce_all p b ids w) q = ctrlState w q) /\
  (quiet w p -> quiet (announce_all p b ids w) p) /\
  (ctrl_wf (ctrlState w p) -> ctrl_wf (ctrlState (announce_all p b ids w) p) /\
     wanted (ctrlState (announce_all p b ids w) p) =
       if b then wanted (ctrlState w p) ∪ list_to_set ids else wanted (ctrlState w p) ∖ list_to_set ids).
Proof.
  induction ids as [|id ids IH]; intros w; simpl.
  { split; [done|]. split; [done|]. split; [done|]. intros H. split; [done|]. destruct b; set_solver. }
  destruct (IH (on_ctrl p (fun c => announce c id b) w)) as (H1 & H2 & H3 & H4). unfold quiet in *. rewrite !ctrlState_on, !decide_True in * by done.
  split; [done|]. split; [intros q Hq; rewrite H2 by done; by rewrite ctrlState_on, decide_False|]. split.
  - intros Hq. apply H3. by rewrite announce_closed.
  - intros Hw. destruct (announce_ok (ctrlState w p) id b Hw) as (A & _ & B). destruct (H4 A) as [C E]. split; [done|]. rewrite E, B. destruct b; set_solver.
Qed.

(** ** Keeping the invariant *)

(** The parts of the invariant that tables, queues and posts do not touch. *)
Definition same_conn (c c' : peerConn) : Prop :=
  pc_id c' = pc_id c /\ pc_subs c' = pc_subs c /\ pc_closed c' = pc_closed c /\ (pc_stopped c = true -> pc_stopped c' = true) /\
  pc_handshakeDone c' = pc_handshakeDone c /\ (queues_ok c -> queues_ok c').

Lemma inv_same X e w e' w' :
  engine_inv X e w -> en_peers e' = en_peers e -> en_bindings e' = en_bindings e ->
  (forall p, option_Forall2 same_conn (en_conns e !! p) (en_conns e' !! p)) -> linked (desired e') e' ->
  (w_fresh w <= w_fresh w')%nat ->
  (forall pid p, en_peers e !! pid = Some p -> quiet w' p \/ (ctrl_wf (ctrlState w' p) /\ wanted (ctrlState w' p) = dom (en_channels e'))) ->
  (forall p c, en_conns e !! p = Some c -> pc_handshakeDone c = false -> quiet w p \/ ctrlState w p = newCtrlOutState ->
     quiet w' p \/ ctrlState w' p = newCtrlOutState) ->
  engine_inv X e' w'.
Proof.
  intros [I1 I2 I3 I4 I5 I6 I7 I8 I9 I10] Ep Eb Hc HL Hf Hw Hy.
  assert (forall p c', en_conns e' !! p = Some c' -> exists c, en_conns e !! p = Some c /\ same_conn c c') as Hback.
  { intros p c' H. specialize (Hc p). rewrite H in Hc. inversion Hc as [c ? Hs E|]; subst. by exists c. }
  assert (forall p c, en_conns e !! p = Some c -> exists c', en_conns e' !! p = Some c' /\ same_conn c c') as Hforth.
  { intros p c H. specialize (Hc p). rewrite H in Hc. inversion Hc as [? c' Hs E|]; subst. by exists c'. }
  split; rewrite ?Ep, ?Eb; try done.
  - intros pid p H. destruct (I2 _ _ H) as (c & m & A & B & C & D). destruct (Hforth _ _ A) as (c' & A' & S1 & S2 & S3 & _). exists c', m. split; [done|]. by rewrite S1, S2, S3.
  - intros b p H. destruct (I3 _ _ H) as [c Hc']. destruct (Hforth _ _ Hc') as (c' & ? & _). by exists c'.
  - intros p c' HX H Hcl. destruct (Hback _ _ H) as (c & A & S1 & S2 & S3 & _). apply (I4 p c HX A). by rewrite <-S3.
  - intros b1 b2 p1 p2 c1 c2 H1 H2 Hc1 Hc2 Hid. destruct (Hback _ _ Hc1) as (d1 & A1 & S1 & _). destruct (Hback _ _ Hc2) as (d2 & A2 & S2 & _).
    eapply (I5 b1 b2 p1 p2); [done..|]. congruence.
  - intros p c' H Hcl. destruct (Hback _ _ H) as (c & A & S1 & S2 & S3 & S4 & _). apply S4, (I6 p c A). by rewrite <-S3.
  - intros p [c' H]. destruct (Hback _ _ H) as (c & A & _). specialize (I7 p ltac:(by eexists)). lia.
  - intros p c' H Hd. destruct (Hback _ _ H) as (c & A & S1 & S2 & S3 & S4 & S5 & _). rewrite S5 in Hd. destruct (I9 p c A Hd) as [B C]. split; [by rewrite S2|by eapply Hy].
  - intros p c' H. destruct (Hback _ _ H) as (c & A & S1 & S2 & S3 & S4 & S5 & S6). by apply S6, (I10 p).
Qed.

Lemma boxed_same e e' p : boxed e e' -> option_Forall2 same_conn (en_conns e !! p) (en_conns e' !! p).
Proof. intros H. destruct (bx_conns _ _ H p) as [c c' [m ->]|]; constructor. by repeat (split; [done|]). Qed.

Lemma same_refl e p : option_Forall2 same_conn (en_conns e !! p) (en_conns e !! p).
Proof. destruct (en_conns e !! p); constructor. by repeat (split; [done|]). Qed.

(** Nothing but the log and the counters of the world. *)
Lemma inv_world X e w w' :
  engine_inv X e w -> w_fresh w' = w_fresh w -> (forall p, ctrlState w' p = ctrlState w p) -> engine_inv X e w'.
Proof.
  intros Hi Hf Hc. apply (inv_same X e w); try done; [apply same_refl|apply Hi|lia| |].
  - intros pid p Hp. unfold quiet. rewrite !Hc. by apply (ei_wanted _ _ _ Hi pid p).
  - intros p c _ _. unfold quiet. by rewrite !Hc.
Qed.

(** *** Subscriptions *)

Lemma subscribes_subs e p c X q id :
  en_conns e !! p = Some c ->
  subscribes (on_conn p (with_subs (Some X)) e) q id = if decide (q = p) then bool_decide (id ∈ X) else subscribes e q id.
Proof.
  intros Hc. unfold subscribes. simpl. case_decide as E; [subst; by rewrite lookup_alter_eq, Hc|by rewrite lookup_alter_ne].
Qed.

Lemma desired_subs X0 e w p c X id q :
  engine_inv X0 e w -> en_conns e !! p = Some c -> en_peers e !! pc_id c = Some p ->
  desired (on_conn p (with_subs (Some X)) e) id q = if decide (q = pc_id c) then (if bool_decide (id ∈ X) then Some p else None) else desired e id q.
Proof.
  intros Hi Hc Hp. unfold desired. change (en_peers (on_conn p (with_subs (Some X)) e)) with (en_peers e). case_decide as E.
  - subst q. rewrite Hp. simpl. rewrite (subscribes_subs e p c) by done. by rewrite decide_True.
  - destruct (en_peers e !! q) as [p'|] eqn:Eq; [|done]. simpl. rewrite (subscribes_subs e p c) by done. rewrite decide_False; [done|].
    intros ->. apply E. by eapply peers_inj.
Qed.

Lemma inv_subs X0 e w p c m X e' w' :
  engine_inv X0 e w -> en_conns e !! p = Some c -> en_peers e !! pc_id c = Some p -> pc_subs c = Some m ->
  boxed (on_conn p (with_subs (Some X)) e) e' -> linked (desired e') e' ->
  w_fresh w' = w_fresh w -> (forall p, ctrlState w' p = ctrlState w p) -> engine_inv X0 e' w'.
Proof.
  intros Hi Hc Hp Hm Hb HL Hf Hct. assert (pc_handshakeDone c = true) as Hd.
  { destruct (pc_handshakeDone c) eqn:E; [done|]. destruct (ei_young _ _ _ Hi p c Hc E). congruence. }
  destruct Hi as [I1 I2 I3 I4 I5 I6 I7 I8 I9 I10].
  assert (forall q c', en_conns e' !! q = Some c' -> exists c0, en_conns e !! q = Some c0 /\ pc_id c' = pc_id c0 /\ pc_closed c' = pc_closed c0 /\
    pc_stopped c' = pc_stopped c0 /\ pc_handshakeDone c' = pc_handshakeDone c0 /\ (q <> p -> pc_subs c' = pc_subs c0) /\ (q = p -> pc_subs c' = Some X)) as Hback.
  { intros q c' Hq. destruct (boxed_conn_inv _ _ _ _ Hb Hq) as (c1 & mm & H1 & ->). simpl in H1. rewrite lookup_alter_Some in H1.
    destruct H1 as [(<- & c0 & H0 & ->)|[Hne H0]]; [exists c0; by repeat split|exists c1; by repeat split]. }
  assert (forall q c0, en_conns e !! q = Some c0 -> exists c', en_conns e' !! q = Some c') as Hforth.
  { intros q c0 Hq. destruct (boxed_conn (on_conn p (with_subs (Some X)) e) e' q (if decide (q = p) then with_subs (Some X) c0 else c0) Hb) as [mm Hm']; [|by eexists].
    simpl. case_decide as E; [subst; by rewrite lookup_alter_eq, Hq|by rewrite lookup_alter_ne]. }
  split; rewrite ?(bx_peers _ _ Hb), ?(bx_bindings _ _ Hb); simpl; try done.
  - intros pid q Hq. destruct (I2 _ _ Hq) as (c0 & m0 & A & B & C & D). destruct (Hforth q c0 A) as [c' A']. destruct (Hback q c' A') as (c1 & E1 & E2 & E3 & _ & _ & E6 & E7).
    exists c'. destruct (decide (q = p)) as [->|Hne]; [exists X|exists m0]; (split; [done|]); (split; [congruence|]); (split; [|congruence]); [by apply E7|rewrite E6 by done; congruence].
  - intros b q Hq. destruct (I3 _ _ Hq) as [c0 H0]. by destruct (Hforth q c0 H0) as [c' ?]; exists c'.
  - intros q c' HX Hq Hcl. destruct (Hback q c' Hq) as (c0 & A & _ & B & _). apply (I4 q c0 HX A). congruence.
  - intros b1 b2 p1 p2 c1 c2 H1 H2 Hc1 Hc2 Hid. destruct (Hback _ _ Hc1) as (d1 & A1 & B1 & _). destruct (Hback _ _ Hc2) as (d2 & A2 & B2 & _).
    eapply (I5 b1 b2 p1 p2); [done..|]. congruence.
  - intros q c' Hq Hcl. destruct (Hback q c' Hq) as (c0 & A & _ & B & C & _). rewrite C. apply (I6 q c0 A). congruence.
  - intros q [c' Hq]. destruct (Hback q c' Hq) as (c0 & A & _). rewrite Hf. apply I7. by eexists.
  - intros pid q Hq. unfold quiet. rewrite Hct, (bx_channels _ _ Hb). by apply (I8 pid q).
  - intros q c' Hq Hn. destruct (Hback q c' Hq) as (c0 & A & B & C & D & F & G & _). rewrite F in Hn. unfold quiet. rewrite Hct.
    destruct (decide (q = p)) as [->|Hne]; [congruence|]. rewrite G by done. by apply I9.
  - intros q c' Hq. destruct (boxed_conn_inv _ _ _ _ Hb Hq) as (c1 & mm & H1 & ->). simpl in H1. rewrite lookup_alter_Some in H1.
    destruct H1 as [(<- & c0 & H0 & ->)|[Hne H0]]; by apply (I10 _ _ H0).
Qed.

Lemma peerSubscribed_inv X p id e w :
  engine_inv X e w -> is_Some (en_conns e !! p) -> exists e' w', peerSubscribed p id e w = Some (e', w') /\ engine_inv X e' w'.
Proof.
  intros Hi [c Hc]. unfold peerSubscribed. rewrite Hc. cbn [mbind option_bind]. case_decide as Hp; [|by do 2 eexists].
  destruct (ei_peer _ _ _ Hi _ _ Hp) as (c' & m & Hc' & _ & Hm & _). assert (c' = c) as -> by congruence. rewrite Hm.
  case_bool_decide as Hin; [by do 2 eexists|]. do 2 eexists. split; [done|].
  set (e1 := on_conn p (with_subs (Some ({[id]} ∪ m))) e).
  assert (linked (upd (desired e) id (pc_id c) (Some p)) (enrolPeerToChannel p (pc_id c) id e1)) as HL.
  { apply (enrol_linked _ _ p (with_subs (Some ({[id]} ∪ m)) c)).
    - apply linked_conn; [apply Hi|done].
    - unfold e1. simpl. by rewrite lookup_alter_eq, Hc.
    - done.
    - left. unfold desired. rewrite Hp. simpl. unfold subscribes. rewrite Hc, Hm. by rewrite bool_decide_eq_false_2. }
  eapply inv_subs; [done..|apply boxed_enrol| |done|done].
  eapply linked_ext; [|exact HL]. intros i q. rewrite (boxed_desired e1) by apply boxed_enrol. unfold e1. rewrite (desired_subs X e w p c) by done. unfold upd.
  destruct (decide (q = pc_id c)) as [->|Hq]; [|by rewrite decide_False by (by intros [_ ?])].
  destruct (decide (i = id)) as [->|Hne]; [rewrite decide_True, bool_decide_eq_true_2 by set_solver; done|]. rewrite decide_False by (by intros [? _]).
  unfold desired. rewrite Hp. simpl. unfold subscribes. rewrite Hc, Hm. erewrite bool_decide_ext; [done|]. set_solver.
Qed.

Lemma peerUnsubscribed_inv X p id e w :
  engine_inv X e w -> is_Some (en_conns e !! p) -> exists e' w', peerUnsubscribed p id e w = Some (e', w') /\ engine_inv X e' w'.
Proof.
  intros Hi [c Hc]. unfold peerUnsubscribed. rewrite Hc. cbn [mbind option_bind]. case_decide as Hp; [|by do 2 eexists].
  destruct (ei_peer _ _ _ Hi _ _ Hp) as (c' & m & Hc' & _ & Hm & _). assert (c' = c) as -> by congruence. rewrite Hm.
  case_bool_decide as Hin; [|by do 2 eexists]. do 2 eexists. split; [done|].
  set (e1 := on_conn p (with_subs (Some (m ∖ {[id]}))) e).
  assert (linked (upd (desired e) id (pc_id c) None) (unenrolPeerFromChannel p (pc_id c) id e1)) as HL.
  { apply (unenrol_linked _ _ p (with_subs (Some (m ∖ {[id]})) c)).
    - apply linked_conn; [apply Hi|done].
    - unfold e1. simpl. by rewrite lookup_alter_eq, Hc.
    - done.
    - unfold desired. rewrite Hp. simpl. destruct (subscribes e p id); auto. }
  eapply inv_subs; [done..|apply boxed_unenrol| |done|done].
  eapply linked_ext; [|exact HL]. intros i q. rewrite (boxed_desired e1) by apply boxed_unenrol. unfold e1. rewrite (desired_subs X e w p c) by done. unfold upd.
  destruct (decide (q = pc_id c)) as [->|Hq]; [|by rewrite decide_False by (by intros [_ ?])].
  destruct (decide (i = id)) as [->|Hne]; [rewrite decide_True, bool_decide_eq_false_2 by set_solver; done|]. rewrite decide_False by (by intros [? _]).
  unfold desired. rewrite Hp. simpl. unfold subscribes. rewrite Hc, Hm. erewrite bool_decide_ext; [done|]. set_solver.
Qed.
(** *** One binding changes *)

Lemma inv_update X X' e w e' w' p c c' :
  engine_inv X e w -> en_conns e !! p = Some c -> en_conns e' !! p = Some c' -> pc_id c' = pc_id c ->
  (forall q, q <> p -> option_Forall2 same_conn (en_conns e !! q) (en_conns e' !! q)) ->
  (forall pid q, en_peers e' !! pid = Some q -> if decide (q = p) then pid = pc_id c /\ is_Some (pc_subs c') /\ pc_closed c' = false
                                                else en_peers e !! pid = Some q) ->
  en_bindings e' = en_bindings e ->
  (forall q, q <> p -> q ∉ X' -> q ∉ X) -> (p ∉ X' -> pc_closed c' = false -> p ∉ X /\ pc_closed c = false) ->
  (pc_closed c' = true -> pc_stopped c' = true) -> linked (desired e') e' -> (w_fresh w <= w_fresh w')%nat ->
  (forall pid q, en_peers e' !! pid = Some q -> quiet w' q \/ (ctrl_wf (ctrlState w' q) /\ wanted (ctrlState w' q) = dom (en_channels e'))) ->
  (forall q, q <> p -> ctrlState w' q = ctrlState w q) ->
  (pc_handshakeDone c' = false -> pc_subs c' = None /\ (quiet w' p \/ ctrlState w' p = newCtrlOutState)) ->
  (queues_ok c -> queues_ok c') -> engine_inv X' e' w'.
Proof.
  intros [I1 I2 I3 I4 I5 I6 I7 I8 I9 I10] Hc Hc' Hid Hs Hp Hb HX1 HX2 Hst HL Hf Hw Hct Hy Hqu.
  assert (forall q d', en_conns e' !! q = Some d' -> (q = p /\ d' = c') \/ (q <> p /\ exists d, en_conns e !! q = Some d /\ same_conn d d')) as Hback.
  { intros q d' Hq. destruct (decide (q = p)) as [->|Hne]; [left; split; [done|congruence]|right]. split; [done|]. specialize (Hs q Hne). rewrite Hq in Hs.
    inversion Hs as [d ? Hsd E|]; subst. by exists d. }
  split; rewrite ?Hb; try done.
  - intros pid q Hq. specialize (Hp pid q Hq). case_decide as E; [subst q; destruct Hp as (-> & [m Hm] & Hcl); by exists c', m|].
    destruct (I2 pid q Hp) as (d & m & A & B & C & D). specialize (Hs q E). rewrite A in Hs. inversion Hs as [? d' (S1 & S2 & S3 & _) F|]; subst. exists d', m. split; [done|]. by rewrite S1, S2, S3.
  - intros b q Hq. destruct (decide (q = p)) as [->|Hne]; [by eexists|]. destruct (I3 b q Hq) as [d Hd]. specialize (Hs q Hne). rewrite Hd in Hs. inversion Hs. by eexists.
  - intros q d' HX Hq Hcl. destruct (Hback q d' Hq) as [[-> ->]|(Hne & d & Hd & S1 & S2 & S3 & _)].
    + destruct (HX2 HX Hcl). by apply (I4 p c).
    + apply (I4 q d); [by apply HX1|done|congruence].
  - intros b1 b2 p1 p2 c1 c2 H1 H2 Hc1 Hc2 Heq.
    assert (forall q d', en_conns e' !! q = Some d' -> exists d, en_conns e !! q = Some d /\ pc_id d' = pc_id d) as Hi.
    { intros q d' Hq. destruct (Hback q d' Hq) as [[-> ->]|(_ & d & Hd & S1 & _)]; [by exists c|by exists d]. }
    destruct (Hi _ _ Hc1) as (d1 & A1 & B1). destruct (Hi _ _ Hc2) as (d2 & A2 & B2). eapply (I5 b1 b2 p1 p2); [done..|]. congruence.
  - intros q d' Hq Hcl. destruct (Hback q d' Hq) as [[-> ->]|(Hne & d & Hd & S1 & S2 & S3 & S4 & _)]; [by apply Hst|]. apply S4, (I6 q d Hd). congruence.
  - intros q [d' Hq]. assert (is_Some (en_conns e !! q)) as Hsm by (destruct (Hback q d' Hq) as [[-> ->]|(_ & d & Hd & _)]; by eexists). specialize (I7 q Hsm). lia.
  - intros q d' Hq Hn. destruct (Hback q d' Hq) as [[-> ->]|(Hne & d & Hd & S1 & S2 & S3 & S4 & S5 & _)]; [by apply Hy|]. unfold quiet. rewrite Hct, S2 by done. apply (I9 q d Hd). congruence.
  - intros q d' Hq. destruct (Hback q d' Hq) as [[-> ->]|(Hne & d & Hd & S1 & S2 & S3 & S4 & S5 & S6)]; [by apply Hqu, (I10 p)|]. by apply S6, (I10 q).
Qed.

Lemma linked_peers D e m : linked D e -> linked D (with_peers m e).
Proof. intros [L1 L2 L3]. by split. Qed.

Section events.
Context (choice : nat -> gset bytes -> list bytes).
Hypothesis choice_perm : forall n X, choice n X ≡ₚ elements X.

Lemma choice_NoDup n X : NoDup (choice n X).
Proof using choice_perm. rewrite choice_perm. apply NoDup_elements. Qed.

Lemma elem_choice n X x : x ∈ choice n X <-> x ∈ X.
Proof using choice_perm. rewrite choice_perm. apply elem_of_elements. Qed.

Lemma addChannel_inv X id h e w :
  engine_inv X e w -> (forall i, en_channels e !! i <> Some h) -> (forall pid r, (h, pid, r) ∉ en_posted e) ->
  exists e' w', addChannel choice id h e w = (e', w') /\ engine_inv X e' w'.
Proof using choice_perm.
  intros Hi Hh1 Hh2. unfold addChannel. destruct (en_channels e !! id) as [h0|] eqn:Eh.
  { do 2 eexists. split; [done|]. by eapply inv_world. }
  cbv zeta. set (e1 := with_channels _ e). unfold range. set (w1 := mk_world _ _ _ _ _ _).
  destruct (ei_linked _ _ _ Hi) as [L1 L2 L3].
  assert (linked (fun i q => if decide (i = id) then None else desired e i q) e1) as HL1.
  { split; simpl.
    - intros i k pid. rewrite lookup_insert_Some. intros [[<- <-]|[Hne Hk]].
      + rewrite decide_True by done. apply seat_none. intros r. apply Hh2.
      + rewrite decide_False by done. by apply L1.
    - intros p c i Hc. rewrite (L2 p c i Hc). destruct (decide (i = id)) as [->|Hne]; [rewrite Eh; by case_decide|]. by rewrite lookup_insert_ne.
    - intros i1 i2 k H1 H2. apply lookup_insert_Some in H1 as [[E1 E1']|[N1 H1]], H2 as [[E2 E2']|[N2 H2]]; [congruence| | |by eapply L3].
      + exfalso. apply (Hh1 i2). congruence.
      + exfalso. apply (Hh1 i1). congruence. }
  destruct (attach_peers_spec id (choice (w_ranges (observe (OnChannelAttached id None) w)) (dom (en_peers e1))) e1 w1 _ HL1) as (e' & w' & -> & Hb & HL & Hf & H1 & H2).
  { apply choice_NoDup. }
  { intros pid p Hp. by apply (peer_conn _ _ _ pid p Hi). }
  { intros pid. left. by rewrite decide_True. }
  do 2 eexists. split; [done|].
  assert (forall pid p, en_peers e !! pid = Some p -> ctrlState w' p = announce (ctrlState w p) id true) as Hann.
  { intros pid p Hp. apply (H2 pid p); [|done]. apply elem_choice. by apply elem_of_dom_2 in Hp. }
  apply (inv_same X e w); [done|by rewrite (bx_peers _ _ Hb)|by rewrite (bx_bindings _ _ Hb)|intros p; by apply (boxed_same e1 e')| |by rewrite Hf| |].
  - eapply linked_ext; [|exact HL]. intros i q. simpl. rewrite (boxed_desired e1 e') by done. destruct (decide (i = id)) as [->|Hi']; [|rewrite decide_False by naive_solver; done].
    case_decide as Hq; [done|]. unfold desired. destruct (en_peers e1 !! q) as [p|] eqn:Ep; [|done]. exfalso. apply Hq. split; [done|]. apply elem_choice. by apply elem_of_dom_2 in Ep.
  - intros pid p Hp. unfold quiet. rewrite (Hann pid p Hp). destruct (ei_wanted _ _ _ Hi pid p Hp) as [Hq|[Hw Hd]].
    + left. by rewrite announce_closed.
    + right. destruct (announce_ok _ id true Hw) as (A & _ & B). split; [done|]. rewrite B, Hd, (bx_channels _ _ Hb). simpl. by rewrite dom_insert_L.
  - intros p c Hc Hd Hy. unfold quiet. rewrite H1; [done|]. intros pid _ Hp. destruct (ei_peer _ _ _ Hi _ _ Hp) as (c' & m & Hc' & _ & Hs & _).
    destruct (ei_young _ _ _ Hi p c Hc Hd) as [Hn _]. congruence.
Qed.

Lemma removeChannel_inv X id e w :
  engine_inv X e w -> exists e' w', removeChannel choice id e w = (e', w') /\ engine_inv X e' w'.
Proof using choice_perm.
  intros Hi. unfold removeChannel. destruct (en_channels e !! id) as [h0|] eqn:Eh; [|by do 2 eexists].
  unfold range. set (w1 := mk_world _ _ _ _ _ _). destruct (ei_linked _ _ _ Hi) as [L1 L2 L3].
  destruct (detach_peers_spec id (choice (w_ranges w) (dom (en_peers e))) e w1 (choice_NoDup _ _)) as (e' & w' & -> & Hb & Hp & Hf & Hx & H1 & H2).
  { intros pid p Hp. by apply (peer_conn _ _ _ pid p Hi). }
  assert (forall pid p, en_peers e !! pid = Some p -> pid ∈ choice (w_ranges w) (dom (en_peers e))) as Hin
    by (intros pid p H; apply elem_choice; by apply elem_of_dom_2 in H).
  do 2 eexists. split; [done|].
  apply (inv_same X e w); [done|by rewrite <-(bx_peers _ _ Hb)|by rewrite <-(bx_bindings _ _ Hb)|intros p; by apply (boxed_same e e')| |change (w_fresh w <= w_fresh w')%nat; by rewrite Hf| |].
  - apply (linked_ext (desired e)); [intros i q; symmetry; by apply (boxed_desired e e')|]. split; simpl; rewrite (bx_channels _ _ Hb).
    + intros i k pid. rewrite lookup_delete_Some, Hp. intros [_ ?]. by apply L1.
    + intros p c' i Hc'. destruct (Hx p c' Hc') as (c & Hc & Hid & Hne & Hd). rewrite Hid. destruct (decide (i = id)) as [->|Hi'].
      * rewrite lookup_delete_eq. destruct Hd as [->|[-> Hno]]; [by case_decide|]. rewrite (L2 p c id Hc). case_decide as HD; [|done].
        apply desired_Some in HD as [HD _]. exfalso. by apply (Hno (pc_id c)); [eapply Hin|].
      * rewrite Hne, lookup_delete_ne by done. by apply L2.
    + intros i1 i2 k. rewrite !lookup_delete_Some. intros [_ ?] [_ ?]. by eapply L3.
  - intros pid p Hpp. change (quiet w' p \/ ctrl_wf (ctrlState w' p) /\ wanted (ctrlState w' p) = dom (delete id (en_channels e'))).
    unfold quiet. rewrite (H2 pid p (Hin pid p Hpp) Hpp). change (ctrlState w1 p) with (ctrlState w p).
    destruct (ei_wanted _ _ _ Hi pid p Hpp) as [Hq|[Hw Hd]]; [left; by rewrite announce_closed|right].
    destruct (announce_ok _ id false Hw) as (A & _ & B). split; [done|]. rewrite B, Hd, (bx_channels _ _ Hb). by rewrite dom_delete_L.
  - intros p c Hc Hd Hy. change (quiet w' p \/ ctrlState w' p = newCtrlOutState). unfold quiet. rewrite H1; [done|].
    intros pid _ Hpp. destruct (ei_peer _ _ _ Hi _ _ Hpp) as (c' & m & Hc' & _ & Hs & _).
    destruct (ei_young _ _ _ Hi p c Hc Hd) as [Hn _]. congruence.
Qed.

Lemma bindPeer_inv X peer pid live e w :
  engine_inv X e w -> en_bindings e !! peer = None ->
  (forall b p c, en_bindings e !! b = Some p -> en_conns e !! p = Some c -> pc_id c <> pid) ->
  engine_inv X (bindPeer choice peer pid live e w).1 (bindPeer choice peer pid live e w).2.
Proof.
  intros Hi Hb Hu. unfold bindPeer. destruct live; [|done]. cbn [fresh range fst snd]. set (p := w_fresh w). set (w' := on_ctrl p _ _). cbn [fst snd].
  assert (en_conns e !! p = None) as Hp.
  { destruct (en_conns e !! p) as [c|] eqn:E; [|done]. pose proof (ei_fresh _ _ _ Hi p ltac:(by eexists)). unfold p in *. lia. }
  destruct Hi as [I1 I2 I3 I4 I5 I6 I7 I8 I9 I10].
  assert (forall q, ctrlState w' q = if decide (q = p) then newCtrlOutState else ctrlState w q) as Hct by (intros q; unfold w'; by rewrite ctrlState_on).
  assert (forall pid' q, en_peers e !! pid' = Some q -> q <> p) as Hpn by (intros pid' q Hq ->; destruct (I2 _ _ Hq) as (c & ? & Hc & _); congruence).
  split; simpl; try done.
  - assert (forall i q, desired (mk_engine (en_channels e) (en_peers e) (<[peer := p]> (en_bindings e)) (<[p := newPeerConn pid (choice (w_ranges w) (dom (en_channels e)))]> (en_conns e)) (en_posted e)) i q = desired e i q) as Hd.
    { intros i q. unfold desired. simpl. destruct (en_peers e !! q) as [q'|] eqn:Eq; [|done]. simpl. unfold subscribes. simpl.
      rewrite lookup_insert_ne; [done|]. intros E. by apply (Hpn q q' Eq). }
    eapply linked_ext; [intros; symmetry; apply Hd|]. destruct I1 as [L1 L2 L3]. split; simpl; [done| |done].
    intros q c i. rewrite lookup_insert_Some. intros [[<- <-]|[_ Hq]]; [|by apply L2]. simpl. rewrite lookup_empty. case_decide as HD; [|done].
    apply desired_Some in HD as [HD _]. by apply Hpn in HD.
  - intros pid' q Hq. destruct (I2 _ _ Hq) as (c & m & Hc & A). exists c, m. rewrite lookup_insert_ne; [done|]. intros E. by apply (Hpn pid' q Hq).
  - intros b q. rewrite lookup_insert_Some. intros [[<- <-]|[_ Hq]]; [rewrite lookup_insert_eq; by eexists|]. apply lookup_insert_is_Some'. right. by eapply I3.
  - intros q c HX. rewrite lookup_insert_Some. intros [[<- <-]|[Hne Hq]] Hcl; [exists peer; by rewrite lookup_insert_eq|].
    destruct (I4 q c HX Hq Hcl) as [b Hbq]. exists b. rewrite lookup_insert_ne; [done|]. congruence.
  - assert (forall b q c, <[peer := p]> (en_bindings e) !! b = Some q ->
      <[p := newPeerConn pid (choice (w_ranges w) (dom (en_channels e)))]> (en_conns e) !! q = Some c ->
      (b = peer /\ pc_id c = pid) \/ (en_bindings e !! b = Some q /\ en_conns e !! q = Some c)) as Hcase.
    { intros b q c Hbq Hcq. apply lookup_insert_Some in Hbq as [[<- <-]|[Hne Hbq]]; [rewrite lookup_insert_eq in Hcq; injection Hcq as <-; by left|right].
      rewrite lookup_insert_ne in Hcq; [done|]. intros <-. destruct (I3 b p Hbq). congruence. }
    intros b1 b2 p1 p2 c1 c2 H1 H2 H3 H4 Hid.
    destruct (Hcase _ _ _ H1 H3) as [[-> E1]|[A1 B1]], (Hcase _ _ _ H2 H4) as [[-> E2]|[A2 B2]]; [done| | |by eapply I5].
    + exfalso. apply (Hu b2 p2 c2 A2 B2). congruence.
    + exfalso. apply (Hu b1 p1 c1 A1 B1). congruence.
  - intros q c. rewrite lookup_insert_Some. intros [[<- <-]|[_ Hq]] Hcl; [done|]. by eapply I6.
  - intros q. rewrite lookup_insert_is_Some'. intros [<-|Hq]; [unfold p; lia|]. specialize (I7 q Hq). lia.
  - intros pid' q Hq. unfold quiet. rewrite Hct, decide_False by (by eapply Hpn). by apply (I8 pid').
  - intros q c. rewrite lookup_insert_Some. unfold quiet. rewrite Hct. intros [[<- <-]|[Hne Hq]] Hn; [rewrite decide_True by done; auto|].
    rewrite decide_False by done. by apply I9.
  - intros q c. rewrite lookup_insert_Some. intros [[<- <-]|[_ Hq]]; [|by apply (I10 q)]. repeat split; simpl; lia.
Qed.

(** *** The handshake *)

Lemma announceInitial_wanted ids :
  ctrl_wf (announceInitial newCtrlOutState ids) /\ wanted (announceInitial newCtrlOutState ids) = list_to_set ids.
Proof.
  destruct (initial_ok ids) as [H1 H2]. split; [done|]. rewrite <-H2.
  destruct (announceInitial_told ids ∅ newCtrlOutState) as [H _]; [done|done|]. change (announceInitial newCtrlOutState ids) with (set_channels newCtrlOutState (announceInitial_loop ∅ ids)).
  apply set_eq. intros id. rewrite elem_wanted, elem_told. split; intros (x & Hx & _); exists x; (split; [done|]); by rewrite (H id x Hx).
Qed.

Lemma observes_world {A} (f : A -> observation) l : forall w,
  let w' := foldl (fun w x => observe (f x) w) w l in w_fresh w' = w_fresh w /\ forall p, ctrlState w' p = ctrlState w p.
Proof. induction l as [|x l IH]; intros w; simpl; [done|]. destruct (IH (observe (f x) w)) as [-> H]. split; [done|]. intros p. by rewrite H. Qed.

(** The control state a peer starts with: what its Hello carried, then what changed. *)
Definition handshake_world (p : nat) (c : peerConn) e w : world :=
  let w := on_ctrl p (fun s => announceInitial s (pc_announced c)) w in
  let '(order, w) := range choice (dom (en_channels e)) w in
  let w := announce_all p true (filter (fun id => id ∉ pc_announced c) order) w in
  announce_all p false (filter (fun id => en_channels e !! id = None) (pc_announced c)) w.

Lemma handshake_world_spec p c e w :
  let w' := handshake_world p c e w in
  w_fresh w' = w_fresh w /\ (forall q, q <> p -> ctrlState w' q = ctrlState w q) /\ (quiet w p -> quiet w' p) /\
  (ctrlState w p = newCtrlOutState -> ctrl_wf (ctrlState w' p) /\ wanted (ctrlState w' p) = dom (en_channels e)).
Proof using choice_perm.
  unfold handshake_world, range. set (w1 := on_ctrl p _ w). set (w2 := mk_world _ _ _ _ _ _).
  assert (forall q, ctrlState w2 q = ctrlState w1 q) as E2 by done.
  set (l1 := filter _ (choice _ _)). set (l2 := filter _ (pc_announced c)).
  destruct (announce_all_spec p true l1 w2) as (A1 & A2 & A3 & A4). destruct (announce_all_spec p false l2 (announce_all p true l1 w2)) as (B1 & B2 & B3 & B4).
  cbv zeta. split; [by rewrite B1, A1|]. split; [|split].
  - intros q Hq. rewrite B2, A2, E2 by done. unfold w1. by rewrite ctrlState_on, decide_False.
  - intros Hq. apply B3, A3. unfold quiet in *. rewrite E2. unfold w1. rewrite ctrlState_on, decide_True by done. unfold announceInitial. by rewrite Hq.
  - intros Hn. destruct (announceInitial_wanted (pc_announced c)) as [C1 C2].
    assert (ctrlState w2 p = announceInitial newCtrlOutState (pc_announced c)) as Ew by (rewrite E2; unfold w1; rewrite ctrlState_on, decide_True by done; by rewrite Hn).
    rewrite Ew in A4. destruct (A4 C1) as [D1 D2]. destruct (B4 D1) as [F1 F2]. split; [done|]. rewrite F2, D2, C2.
    assert (forall x, x ∈ l1 <-> x ∉ pc_announced c /\ x ∈ dom (en_channels e)) as M1 by (intros x; unfold l1; by rewrite list_elem_of_filter, elem_choice).
    assert (forall x, x ∈ l2 <-> x ∉ dom (en_channels e) /\ x ∈ pc_announced c) as M2 by (intros x; unfold l2; by rewrite list_elem_of_filter, not_elem_of_dom).
    apply set_eq. intros x. rewrite elem_of_difference, elem_of_union, !elem_of_list_to_set, M1, M2.
    destruct (decide (x ∈ pc_announced c)), (decide (x ∈ dom (en_channels e))); tauto.
Qed.

(** A binding that has not handshaken is not listed as a peer. *)
Lemma young_unlisted p c e w : engine_inv ∅ e w -> en_conns e !! p = Some c -> pc_handshakeDone c = false -> pc_closed c = false -> en_peers e !! pc_id c = None.
Proof.
  intros Hi Hc Hd Hcl. destruct (en_peers e !! pc_id c) as [q|] eqn:Eq; [|done]. exfalso. destruct (ei_peer _ _ _ Hi _ _ Eq) as (d & m & Hd' & Hid & Hm & Hdc).
  destruct (ei_young _ _ _ Hi p c Hc Hd) as [Hsub _].
  destruct (ei_open _ _ _ Hi p c ltac:(done) Hc Hcl) as [b Hb]. destruct (ei_open _ _ _ Hi q d ltac:(done) Hd' Hdc) as [b' Hb'].
  assert (b = b') as <- by (by eapply (ei_single _ _ _ Hi b b' p q c d)). congruence.
Qed.

(** After its handshake it is wanted where it subscribes. *)
Lemma handshaken_desired p c d X e e2 e' w : engine_inv ∅ e w -> en_conns e !! p = Some c -> en_peers e !! pc_id c = None -> boxed (with_peers (<[pc_id c := p]> (en_peers e)) e) e2 ->
  en_conns e' !! p = Some d -> pc_subs d = Some X -> (forall q, q <> p -> en_conns e' !! q = en_conns e2 !! q) -> en_peers e' = <[pc_id c := p]> (en_peers e) ->
  forall i q, desired e' i q = if decide (q = pc_id c /\ i ∈ X) then Some p else desired e i q.
Proof.
  clear choice_perm choice. intros Hi Hc Hnp Hb2 Hc' HX Hoth Ep i q. unfold desired. rewrite Ep. destruct (decide (q = pc_id c)) as [->|Hne].
  - rewrite lookup_insert_eq, Hnp. simpl. unfold subscribes. rewrite Hc'. simpl. rewrite HX. case_bool_decide; case_decide; try done; exfalso; set_solver.
  - rewrite lookup_insert_ne by done. rewrite decide_False by (by intros [? _]). destruct (en_peers e !! q) as [q'|] eqn:Eq; [|done]. simpl.
    assert (q' <> p) by (intros ->; apply Hne; by eapply peers_inj). unfold subscribes. rewrite Hoth by done.
    pose proof (bx_conns _ _ Hb2 q') as Hb. change (en_conns (with_peers (<[pc_id c := p]> (en_peers e)) e) !! q') with (en_conns e !! q') in Hb. by destruct Hb as [x y [mm ->]|].
Qed.

Lemma handlePeerHandshake_inv p c channels e w :
  engine_inv ∅ e w -> en_conns e !! p = Some c -> pc_handshakeDone c = false ->
  exists e' w', handlePeerHandshake choice p channels e w = Some (e', w') /\ engine_inv ∅ e' w'.
Proof using choice_perm.
  intros Hi Hc Hd. unfold handlePeerHandshake. rewrite Hc. cbn [mbind option_bind]. destruct (pc_stopped c) eqn:Est; [by do 2 eexists|].
  assert (pc_closed c = false) as Hcl by (destruct (pc_closed c) eqn:E; [by rewrite (ei_stopped _ _ _ Hi p c Hc E) in Est|done]).
  destruct (ei_young _ _ _ Hi p c Hc Hd) as [Hsub Hyoung].
  assert (en_peers e !! pc_id c = None) as Hnp by (by eapply young_unlisted).
  cbv zeta. set (e1 := with_peers _ e). set (wh := handshake_world p c e1 w).
  destruct (handshake_world_spec p c e1 w) as (Hf & Hct & Hq & Hw). fold wh in Hf, Hct, Hq, Hw.
  assert (forall i, desired e i (pc_id c) = None) as Hdn by (intros i; unfold desired; by rewrite Hnp).
  destruct (enrol_all_spec p (pc_id c) channels ∅ e1 (desired e)) as (e2 & Ee & Hb2 & HL2).
  { apply linked_peers, Hi. }
  { by exists c. }
  { intros i. left. apply Hdn. }
  change (exists e' w', (let '(subs, e3) := enrol_all p (pc_id c) channels ∅ e1 in
    if pc_handshakeDone c then None else Some (on_conn p with_handshakeDone (on_conn p (with_subs (Some subs)) e3),
      foldl (fun w id => observe (OnPeerSubscribed (pc_id c) id) w) (observe (OnPeerHandshook (pc_id c) channels) wh) channels)) = Some (e', w') /\ engine_inv ∅ e' w').
  rewrite Ee, Hd. do 2 eexists. split; [done|].
  destruct (observes_world (OnPeerSubscribed (pc_id c)) channels (observe (OnPeerHandshook (pc_id c) channels) wh)) as [Hfo Hco].
  set (w' := foldl _ _ channels) in *. set (X := ∅ ∪ list_to_set channels) in *.
  destruct (boxed_conn e1 e2 p c Hb2 Hc) as [m Hm2]. set (e' := on_conn p with_handshakeDone _).
  assert (en_conns e' !! p = Some (with_handshakeDone (with_subs (Some X) (with_inboxes m c)))) as Hc'.
  { unfold e'. simpl. by rewrite !lookup_alter_eq, Hm2. }
  assert (forall q, q <> p -> en_conns e' !! q = en_conns e2 !! q) as Hoth by (intros q Hne; unfold e'; simpl; by rewrite !lookup_alter_ne).
  assert (en_peers e' = <[pc_id c := p]> (en_peers e)) as Ep by (unfold e'; simpl; by rewrite (bx_peers _ _ Hb2)).
  assert (forall i q, desired e' i q = if decide (q = pc_id c /\ i ∈ (list_to_set channels ∖ ∅ : gset ChannelID)) then Some p else desired e i q) as Hde.
  { replace (list_to_set channels ∖ ∅ : gset ChannelID) with X by (unfold X; set_solver). by eapply handshaken_desired. }
  eapply (inv_update ∅ ∅ e w e' w' p c); [done|done|exact Hc'|done|..].
  - intros q Hne. rewrite Hoth by done. by apply (boxed_same e1 e2).
  - intros pid q. rewrite Ep, lookup_insert_Some. intros [[<- <-]|[Hne Hq']]; [rewrite decide_True by done; by repeat eexists|].
    rewrite decide_False; [done|]. intros ->. apply Hne. symmetry. by eapply peers_inj.
  - unfold e'. simpl. by rewrite (bx_bindings _ _ Hb2).
  - done.
  - intros _ _. by split.
  - simpl. congruence.
  - apply (linked_ext (fun i q => if decide (q = pc_id c /\ i ∈ (list_to_set channels ∖ ∅ : gset ChannelID)) then Some p else desired e i q)); [intros; by rewrite Hde|].
    apply linked_conn; [|done]. by apply linked_conn.
  - rewrite Hfo. simpl. by rewrite Hf.
  - intros pid q. rewrite Ep, lookup_insert_Some. unfold quiet. rewrite !Hco. change (en_channels e') with (en_channels e2). rewrite (bx_channels _ _ Hb2).
    change (ctrlState (observe (OnPeerHandshook (pc_id c) channels) wh)) with (ctrlState wh).
    intros [[<- <-]|[Hne Hq']].
    + destruct Hyoung as [Hy|Hy]; [left; by apply Hq|right; by apply Hw].
    + assert (q <> p) by (intros ->; apply Hne; symmetry; by eapply peers_inj). rewrite Hct by done. by apply (ei_wanted _ _ _ Hi pid q).
  - intros q Hne. rewrite Hco. by apply Hct.
  - done.
  - done.
Qed.

(** *** Leaving *)

Lemma cancel_all_world l : forall w, w_fresh (cancel_all l w) = w_fresh w /\ forall p, ctrlState (cancel_all l w) p = ctrlState w p.
Proof.
  unfold cancel_all. induction l as [|x l IH]; intros w; simpl; [done|]. destruct (IH (CancelRead x Unspecified w)) as [-> H]. split; [done|].
  intros p. by rewrite H.
Qed.

Lemma dispose_spec c w :
  exists c' w', disposeQueuedStreams c w = (c', w') /\ (exists q, c' = with_queues (pc_bcastAccepted c) [] [] q c) /\
    w_fresh w' = w_fresh w /\ forall p, ctrlState w' p = ctrlState w p.
Proof.
  unfold disposeQueuedStreams. destruct (q_close (pc_chunkIn c)) as [l q]. do 2 eexists. split; [done|]. split; [by repeat eexists|].
  destruct (cancel_all_world (pc_sessionIn c) (cancel_all (pc_bcastIn c) (cancel_all l w))) as [-> A].
  destruct (cancel_all_world (pc_bcastIn c) (cancel_all l w)) as [-> B]. destruct (cancel_all_world l w) as [-> C].
  split; [done|]. intros p. by rewrite A, B, C.
Qed.

(** [Close] of a binding that is no current peer. *)
Lemma Close_inv X p c e w :
  engine_inv X e w -> en_conns e !! p = Some c -> (forall pid, en_peers e !! pid <> Some p) -> (X ⊆ {[p]}) ->
  exists e' w', Close p e w = (e', w') /\ engine_inv ∅ e' w' /\ is_Some (en_conns e' !! p).
Proof.
  intros Hi Hc Hn HX. unfold Close. rewrite Hc. destruct (pc_closed c) eqn:Ecl.
  { do 2 eexists. split; [done|]. split; [|by eexists]. eapply (inv_update X ∅ e w e w p c c); try done.
    - intros q _. apply same_refl.
    - intros pid q Hq. rewrite decide_False; [done|]. intros ->. by apply Hn in Hq.
    - clear -HX. set_solver.
    - congruence.
    - apply (ei_stopped _ _ _ Hi p c Hc).
    - apply Hi.
    - apply (ei_wanted _ _ _ Hi).
    - apply (ei_young _ _ _ Hi p c Hc). }
  destruct (dispose_spec (with_stopped true true c) (on_ctrl p ctrl_close w)) as (c' & w' & -> & (q & ->) & Hf & Hct).
  do 2 eexists. split; [done|]. split; [|simpl; rewrite lookup_insert_eq; by eexists].
  eapply (inv_update X ∅ e w _ w' p c (with_queues (pc_bcastAccepted c) [] [] q (with_stopped true true c))); try done; simpl.
  - by rewrite lookup_insert_eq.
  - intros x Hx. rewrite lookup_insert_ne by done. apply same_refl.
  - intros pid x Hx. rewrite decide_False; [done|]. intros ->. by apply Hn in Hx.
  - clear -HX. set_solver.
  - destruct (ei_linked _ _ _ Hi) as [L1 L2 L3].
    assert (forall i x, desired (mk_engine (en_channels e) (en_peers e) (en_bindings e) (<[p := with_queues (pc_bcastAccepted c) [] [] q (with_stopped true true c)]> (en_conns e)) (en_posted e)) i x = desired e i x) as Hde.
    { intros i x. unfold desired. simpl. destruct (en_peers e !! x) as [y|] eqn:Ey; [|done]. simpl. unfold subscribes. simpl.
      rewrite lookup_insert_ne; [done|]. intros ->. by apply Hn in Ey. }
    eapply linked_ext; [intros; symmetry; apply Hde|]. split; simpl; [done| |done].
    intros x d i. rewrite lookup_insert_Some. intros [[<- <-]|[_ Hx]]; [simpl; by apply L2|by apply L2].
  - rewrite Hf. simpl. done.
  - intros pid x Hx. unfold quiet. rewrite Hct, ctrlState_on, decide_False by (intros ->; by apply Hn in Hx). by apply (ei_wanted _ _ _ Hi pid x).
  - intros x Hx. by rewrite Hct, ctrlState_on, decide_False.
  - intros Hd. destruct (ei_young _ _ _ Hi p c Hc Hd) as [A _]. split; [done|]. left. unfold quiet. by rewrite Hct, ctrlState_on, decide_True.
  - intros _. repeat split; simpl; lia.
Qed.

Lemma handlePeerGone_inv X p e w :
  engine_inv X e w -> is_Some (en_conns e !! p) -> X ⊆ {[p]} ->
  exists e' w', handlePeerGone choice p e w = Some (e', w') /\ engine_inv ∅ e' w'.
Proof using choice_perm.
  intros Hi [c Hc] HX. unfold handlePeerGone, removePeer. rewrite Hc. cbn [mbind option_bind]. case_decide as Hp.
  2:{ cbn [mbind option_bind fst snd]. destruct (Close_inv X p c e w Hi Hc) as (e' & w' & -> & H & _); [|done|by do 2 eexists].
      intros pid Hpp. apply Hp. by rewrite <-(peers_inj _ _ _ _ _ _ Hi Hc Hpp). }
  destruct (ei_peer _ _ _ Hi _ _ Hp) as (c' & m & Hc' & _ & Hm & Hcl). assert (c' = c) as -> by congruence. rewrite Hm. unfold range. cbn [default mbind option_bind fst snd].
  set (e1 := with_peers (delete (pc_id c) (en_peers e)) e). set (order := choice (w_ranges w) m). set (w1 := mk_world _ _ _ _ _ _).
  destruct (unenrol_all_spec p (pc_id c) order e1 (desired e)) as [Hb HL].
  { apply linked_peers, Hi. }
  { by exists c. }
  { intros i. unfold desired. rewrite Hp. simpl. destruct (subscribes e p i); auto. }
  set (e2 := unenrol_all p (pc_id c) order e1) in *. set (w2 := observe (OnPeerGone (pc_id c)) w1).
  destruct (boxed_conn e1 e2 p c Hb Hc) as [mm Hm2].
  assert (forall i q, desired e2 i q = if decide (q = pc_id c /\ i ∈ order) then None else desired e i q) as Hde.
  { intros i q. rewrite (boxed_desired e1 e2) by done. unfold desired at 1. simpl. destruct (decide (q = pc_id c)) as [->|Hne].
    - rewrite lookup_delete_eq. simpl. case_decide as Hin; [done|]. unfold desired. rewrite Hp. simpl. unfold subscribes. rewrite Hc, Hm.
      case_bool_decide as Him; [|done]. exfalso. apply Hin. split; [done|]. unfold order. by rewrite elem_choice.
    - rewrite lookup_delete_ne by done. rewrite decide_False by (by intros [? _]). done. }
  assert (engine_inv X e2 w2) as Hi2.
  { eapply (inv_update X X e w e2 w2 p c (with_inboxes mm c)); try done; simpl.
    - intros q _. by apply (boxed_same e1 e2).
    - intros pid q. rewrite (bx_peers _ _ Hb). simpl. rewrite lookup_delete_Some. intros [Hne Hq]. rewrite decide_False; [done|]. intros ->. apply Hne. symmetry. by eapply peers_inj.
    - by rewrite (bx_bindings _ _ Hb).
    - apply (ei_stopped _ _ _ Hi p c Hc).
    - eapply linked_ext; [|exact HL]. intros i q. by rewrite Hde.
    - intros pid q. rewrite (bx_peers _ _ Hb), (bx_channels _ _ Hb). simpl. rewrite lookup_delete_Some. intros [_ Hq]. by apply (ei_wanted _ _ _ Hi pid q).
    - apply (ei_young _ _ _ Hi p c Hc). }
  destruct (Close_inv X p (with_inboxes mm c) e2 w2 Hi2 Hm2) as (e' & w' & E & H & _); [|done|].
  { intros pid. rewrite (bx_peers _ _ Hb). simpl. rewrite lookup_delete_Some. intros [Hne Hq]. apply Hne. symmetry. exact (peers_inj _ _ _ _ _ _ Hi Hc Hq). }
  change (exists e' w', Some (Close p e2 w2) = Some (e', w') /\ engine_inv ∅ e' w'). rewrite E. by do 2 eexists.
Qed.

(** *** Streams *)

Lemma enqueueStream_spec pr stream c w :
  queues_ok c ->
  exists c' w', enqueueStream pr stream c w = Some (c', w') /\ (exists a b s q, c' = with_queues a b s q c) /\ queues_ok c' /\
    w_fresh w' = w_fresh w /\ forall p, ctrlState w' p = ctrlState w p.
Proof.
  intros Hqs. pose proof Hqs as (Q1 & Q2 & Q3). assert (exists a b s q, c = with_queues a b s q c) as Hsame by (exists (pc_bcastAccepted c), (pc_bcastIn c), (pc_sessionIn c), (pc_chunkIn c); by destruct c).
  unfold enqueueStream, acceptBcast. destruct (pc_stopped c); [by do 2 eexists|]. destruct pr.
  - destruct (pc_bcastAccepted c); [by do 2 eexists|]. rewrite Q1 by done. simpl. do 2 eexists. split; [done|]. split; [by repeat eexists|].
    split; [|done]. split; [done|]. simpl. lia.
  - destruct (_ <? _)%nat eqn:E; [|by do 2 eexists]. do 2 eexists. split; [done|]. split; [by repeat eexists|]. split; [|done].
    apply Nat.ltb_lt in E. split; [done|]. simpl. rewrite length_app. simpl. lia.
  - destruct (q_push stream (pc_chunkIn c)) as [ok q]. do 2 eexists. split; [done|]. split; [by repeat eexists|]. split; [by repeat (split; [done|])|].
    by destruct ok.
Qed.

(** Only queues and the log change. *)
Lemma inv_queues X p c f e w w' :
  engine_inv X e w -> en_conns e !! p = Some c -> (exists a b s q, f c = with_queues a b s q c) -> queues_ok (f c) ->
  w_fresh w' = w_fresh w -> (forall p, ctrlState w' p = ctrlState w p) -> engine_inv X (on_conn p f e) w'.
Proof.
  intros Hi Hc (a & b & s & q & Ef) Hq Hf Hct.
  assert (forall x, option_Forall2 same_conn (en_conns e !! x) (en_conns (on_conn p f e) !! x)) as Hs.
  { intros x. simpl. destruct (decide (p = x)) as [<-|Hne]; [|rewrite lookup_alter_ne by done; apply same_refl].
    rewrite lookup_alter_eq, Hc. constructor. rewrite Ef. rewrite Ef in Hq. repeat (split; [done|]). by intros _. }
  apply (inv_same X e w); try done; [|lia| |].
  - assert (forall i x, desired (on_conn p f e) i x = desired e i x) as Hde.
    { intros i x. unfold desired. simpl. destruct (en_peers e !! x) as [y|]; [|done]. simpl. unfold subscribes.
      destruct (Hs y) as [d d' (_ & -> & _)|]; done. }
    eapply linked_ext; [intros; symmetry; apply Hde|]. destruct (ei_linked _ _ _ Hi) as [L1 L2 L3]. split; simpl; [done| |done].
    intros x d i. rewrite lookup_alter_Some. intros [(<- & d0 & Hd & ->)|[_ Hx]]; [|by apply L2].
    assert (d0 = c) as -> by congruence. rewrite Ef. exact (L2 p c i Hc).
  - intros pid x Hx. unfold quiet. rewrite !Hct. by apply (ei_wanted _ _ _ Hi pid x).
  - intros x d _ _. unfold quiet. by rewrite !Hct.
Qed.

Lemma event_Cancel_world code d w : w_fresh (event_Cancel code d w) = w_fresh w /\ forall p, ctrlState (event_Cancel code d w) p = ctrlState w p.
Proof. destruct d as [| ? ? [] ?|]; done. Qed.

Lemma handleDelivery_inv d e w :
  engine_inv ∅ e w ->
  match d with
  | PeerUp peer pid _ => en_bindings e !! peer = None /\ (forall b p c, en_bindings e !! b = Some p -> en_conns e !! p = Some c -> pc_id c <> pid)
  | _ => True
  end -> exists e' w', handleDelivery choice false d e w = Some (e', w') /\ engine_inv ∅ e' w'.
Proof using choice_perm.
  intros Hi Hok. destruct d as [peer pid live|peer pr bidi stream|peer]; simpl.
  - destruct Hok as [H1 H2]. pose proof (bindPeer_inv ∅ peer pid live e w Hi H1 H2) as H. destruct (bindPeer _ _ _ _ _ _) as [e' w']. by do 2 eexists.
  - unfold handleStreamEvent. destruct bidi; [do 2 eexists; split; [done|]; by eapply inv_world|].
    destruct (en_bindings e !! peer) as [p|] eqn:Ep; [|do 2 eexists; split; [done|]; by eapply inv_world].
    destruct (ei_bound _ _ _ Hi peer p Ep) as [c Hc]. rewrite Hc. cbn [mbind option_bind].
    destruct (enqueueStream_spec pr stream c w (ei_queues _ _ _ Hi p c Hc)) as (c' & w' & -> & Hw & Hq & Hf & Hct). cbn [mbind option_bind fst snd].
    do 2 eexists. split; [done|]. by eapply inv_queues.
  - destruct (en_bindings e !! peer) as [p|] eqn:Ep; [|by do 2 eexists].
    apply (handlePeerGone_inv {[p]}); [|by apply (ei_bound _ _ _ Hi peer p)|done].
    destruct Hi as [I1 I2 I3 I4 I5 I6 I7 I8 I9 I10]. split; simpl; try done.
    + destruct I1 as [L1 L2 L3]. by split.
    + intros b q. rewrite lookup_delete_Some. intros [_ Hq]. by eapply I3.
    + intros q c HX Hc Hcl. destruct (I4 q c ltac:(done) Hc Hcl) as [b Hb]. exists b. rewrite lookup_delete_ne; [done|].
      intros ->. apply HX, elem_of_singleton. congruence.
    + intros b1 b2 p1 p2 c1 c2. rewrite !lookup_delete_Some. intros [_ H1] [_ H2]. by eapply I5.
Qed.
End events.

(** ** Runs of the engine beside the goroutines of its peers *)

Definition NewEngine : engine := mk_engine ∅ ∅ ∅ ∅ [].

(** What sessions and the control loop do to a peer's outbound control state. *)
Inductive worker_step : ctrlOutState -> ctrlOutState -> Prop :=
| ws_open s o : worker_step s (openSession s o)
| ws_close s k : worker_step s (closeSession s k)
| ws_close_stream s k : worker_step s (closeSessionStream s k)
| ws_routing s r : worker_step s (setRouting s r).1
| ws_next s o1 o2 ev s' : covers o1 s -> covers o2 s -> next o1 o2 s = Some (ev, s') -> worker_step s s'.

Lemma worker_closed s s' : worker_step s s' -> closed s = true -> closed s' = true.
Proof.
  intros H Hc. destruct H as [s o|s k|s k|s r|s o1 o2 ev s' _ _ E].
  - unfold openSession. by rewrite Hc.
  - unfold closeSession. by rewrite Hc.
  - unfold closeSessionStream. by rewrite Hc.
  - unfold setRouting. by rewrite Hc.
  - unfold next in E. rewrite Hc in E. by injection E as _ <-.
Qed.

Lemma worker_wanted s s' : worker_step s s' -> ctrl_wf s -> ctrl_wf s' /\ wanted s' = wanted s.
Proof.
  intros H Hw. pose proof (cw_open s Hw) as Hc. destruct H as [s o|s k|s k|s r|s o1 o2 ev s' H1 H2 E].
  - split; [exact (proj1 (step_ok _ _ _ (st_open _ _) Hw))|]. unfold openSession. rewrite Hc. destruct (session s _) as [out s1] eqn:E.
    apply chan_ext. simpl. by eapply session_channels.
  - split; [exact (proj1 (step_ok _ _ _ (st_close _ _) Hw))|]. unfold closeSession. rewrite Hc. destruct (session s _) as [out s1] eqn:E.
    apply chan_ext. simpl. by eapply session_channels.
  - split; [exact (proj1 (step_ok _ _ _ (st_close_stream _ _) Hw))|]. unfold closeSessionStream. rewrite Hc. destruct (session s _) as [out s1] eqn:E.
    apply chan_ext. simpl. by eapply session_channels.
  - split; [exact (proj1 (step_ok _ _ _ (st_routing _ _) Hw))|]. unfold setRouting. rewrite Hc. by destruct (sessions s !! _).
  - split; [exact (proj1 (step_ok _ _ _ (st_next _ _ _ _ _ H1 H2 E) Hw))|].
    destruct (next_ok o1 o2 s) as (ev' & s2 & E' & T); [apply Hw|done|done|done|]. simplify_eq.
    apply same_wanted. intros id. eapply chan_step_want, (ph_chan _ _ _ (tl_phase _ _ _ _ _ T)).
Qed.

(** A stream leaves a handoff queue: [handshake] takes the BCAST stream, the accept loops the others. *)
Inductive takes (c : peerConn) : nat -> peerConn -> Prop :=
| tk_bcast x l : pc_bcastIn c = x :: l -> takes c x (with_queues (pc_bcastAccepted c) l (pc_sessionIn c) (pc_chunkIn c) c)
| tk_session x l : pc_sessionIn c = x :: l -> takes c x (with_queues (pc_bcastAccepted c) (pc_bcastIn c) l (pc_chunkIn c) c)
| tk_chunk x q : q_pop (pc_chunkIn c) = (Some x, q) -> takes c x (with_queues (pc_bcastAccepted c) (pc_bcastIn c) (pc_sessionIn c) q c).

Definition streams_of (evt : engine_event) : list nat :=
  match evt with EvDelivery (StreamIn _ _ _ stream) => [stream] | _ => [] end.

(** What the engine's clients respect: the stack delivers a peer ID's [PeerDown]
    before its next [PeerUp] and uses a new handle for it, a channel's handle is
    new, [Run] posts one handshake, and posts are about bindings. *)
Definition event_ok (evt : engine_event) (e : engine) : Prop :=
  match evt with
  | EvDelivery (PeerUp peer pid _) =>
      en_bindings e !! peer = None /\ forall b p c, en_bindings e !! b = Some p -> en_conns e !! p = Some c -> pc_id c <> pid
  | EvDelivery _ | EvDropChannel _ => True
  | EvAddChannel _ h => (forall i, en_channels e !! i <> Some h) /\ forall pid r, (h, pid, r) ∉ en_posted e
  | EvSubscribe p _ | EvUnsubscribe p _ | EvGone p => is_Some (en_conns e !! p)
  | EvHandshake p _ => exists c, en_conns e !! p = Some c /\ pc_handshakeDone c = false
  end.

(** ** Where a stream is *)

Definition held (c : peerConn) : list nat := pc_bcastIn c ++ pc_sessionIn c ++ q_items (pc_chunkIn c).

Definition queued (e : engine) (s : nat) : Prop :=
  exists p c, en_conns e !! p = Some c /\ pc_closed c = false /\ s ∈ held c.
Definition ended (w : world) (s : nat) : Prop := exists how, FxStreamEnd s how ∈ w_log w.

(** A step keeps every queued stream or ends it. *)
Record keeps (e : engine) (w : world) (e' : engine) (w' : world) : Prop := {
  kp_conns : forall p c, en_conns e !! p = Some c -> exists c', en_conns e' !! p = Some c' /\
    forall s, pc_closed c = false -> s ∈ held c -> (pc_closed c' = false /\ s ∈ held c') \/ ended w' s;
  kp_log : w_log w ⊆ w_log w' }.

Lemma keeps_stream e w e' w' s : keeps e w e' w' -> queued e s \/ ended w s -> queued e' s \/ ended w' s.
Proof.
  intros [K1 K2] [(p & c & Hc & Hcl & Hs)|(how & Hh)]; [|right; exists how; by apply K2].
  destruct (K1 p c Hc) as (c' & Hc' & H). destruct (H s Hcl Hs) as [[A B]|A]; [left; by exists p, c'|by right].
Qed.

Lemma keeps_trans e w e1 w1 e2 w2 : keeps e w e1 w1 -> keeps e1 w1 e2 w2 -> keeps e w e2 w2.
Proof.
  intros [K1 K2] [J1 J2]. split; [|by etrans]. intros p c Hc. destruct (K1 p c Hc) as (c1 & Hc1 & H1). destruct (J1 p c1 Hc1) as (c2 & Hc2 & H2).
  exists c2. split; [done|]. intros s Hcl Hs. destruct (H1 s Hcl Hs) as [[A B]|(how & A)]; [by apply H2|right; exists how; by apply J2].
Qed.

Lemma keeps_conns e w e' w' : en_conns e' = en_conns e -> w_log w ⊆ w_log w' -> keeps e w e' w'.
Proof. intros E H. split; [|done]. intros p c Hc. exists c. rewrite E. split; [done|]. intros s A B. by left. Qed.

Lemma keeps_on_conn e w p f w' :
  (forall c, held (f c) = held c /\ pc_closed (f c) = pc_closed c) -> w_log w ⊆ w_log w' -> keeps e w (on_conn p f e) w'.
Proof.
  intros Hf Hl. split; [|done]. intros q c Hc. simpl. destruct (decide (p = q)) as [<-|Hne].
  - exists (f c). rewrite lookup_alter_eq, Hc. split; [done|]. destruct (Hf c) as [-> ->]. auto.
  - exists c. rewrite lookup_alter_ne by done. auto.
Qed.

Lemma keeps_boxed e w e' w' : boxed e e' -> w_log w ⊆ w_log w' -> keeps e w e' w'.
Proof.
  intros Hb Hl. split; [|done]. intros p c Hc. destruct (boxed_conn e e' p c Hb Hc) as [m Hm]. exists (with_inboxes m c).
  split; [done|]. intros s A B. by left.
Qed.

Lemma cancel_all_ends l : forall w, w_log w ⊆ w_log (cancel_all l w) /\ forall s, s ∈ l -> ended (cancel_all l w) s.
Proof.
  unfold cancel_all. induction l as [|x l IH]; intros w; simpl; [split; [done|by intros s ?%elem_of_nil]|].
  destruct (IH (CancelRead x Unspecified w)) as [H1 H2].
  assert (w_log w ⊆ w_log (CancelRead x Unspecified w)) as H0 by (simpl; set_solver).
  split; [by etrans|]. intros s [->|Hs]%elem_of_cons; [|by apply H2]. exists (Some Unspecified). apply H1. simpl. set_solver.
Qed.

Lemma dispose_ends c w :
  w_log w ⊆ w_log (disposeQueuedStreams c w).2 /\ forall s, s ∈ held c -> ended (disposeQueuedStreams c w).2 s.
Proof.
  unfold disposeQueuedStreams, q_close. rewrite close_loop_all. simpl.
  destruct (cancel_all_ends (q_items (pc_chunkIn c)) w) as [A1 A2]. set (w1 := cancel_all _ w) in *.
  destruct (cancel_all_ends (pc_bcastIn c) w1) as [B1 B2]. set (w2 := cancel_all _ w1) in *.
  destruct (cancel_all_ends (pc_sessionIn c) w2) as [C1 C2]. set (w3 := cancel_all _ w2) in *.
  split; [by etrans; [|etrans]|]. unfold held. intros s. rewrite !elem_of_app. intros [H|[H|H]].
  - destruct (B2 s H) as [h Hh]. exists h. by apply C1.
  - by apply C2.
  - destruct (A2 s H) as [h Hh]. exists h. by apply C1, B1.
Qed.

Lemma Close_keeps p e w : keeps e w (Close p e w).1 (Close p e w).2.
Proof.
  unfold Close. destruct (en_conns e !! p) as [c|] eqn:Hc; [|by apply keeps_conns]. destruct (pc_closed c) eqn:Ecl; [by apply keeps_conns|].
  cbv zeta. pose proof (dispose_ends (with_stopped true true c) (on_ctrl p ctrl_close w)) as [H1 H2].
  destruct (disposeQueuedStreams _ _) as [c' w']. simpl in *. split; [|done]. intros q d Hd. simpl. destruct (decide (p = q)) as [<-|Hne].
  - exists c'. rewrite lookup_insert_eq. split; [done|]. assert (d = c) as -> by congruence. intros s _ Hs. right. by apply H2.
  - exists d. rewrite lookup_insert_ne by done. auto.
Qed.

Lemma attach_keeps id order : forall e w,
  let r := attach_peers id order e w in boxed e r.1 /\ w_log r.2 = w_log w.
Proof.
  induction order as [|pid order IH]; intros e w; simpl; [done|]. destruct (en_peers e !! pid) as [p|]; [|apply IH].
  destruct (IH (if subscribes e p id then enrolPeerToChannel p pid id e else e) (on_ctrl p (fun c => announce c id true) w)) as [A B].
  split; [etrans; [|exact A]; destruct (subscribes e p id); [apply boxed_enrol|done]|exact B].
Qed.

Lemma detach_keeps id order : forall e w,
  let r := detach_peers id order e w in boxed e r.1 /\ w_log r.2 = w_log w.
Proof.
  induction order as [|pid order IH]; intros e w; simpl; [done|]. destruct (en_peers e !! pid) as [p|]; [|apply IH].
  destruct (IH (on_conn p (UnbindChannel id) e) (on_ctrl p (fun c => announce c id false) w)) as [A B].
  split; [|exact B]. etrans; [|exact A]. apply boxed_on_conn. intros c. by eexists.
Qed.

Lemma enrol_all_boxed p pid ids : forall subs e, boxed e (enrol_all p pid ids subs e).2.
Proof.
  induction ids as [|id ids IH]; intros subs e; simpl; [done|]. case_bool_decide; [apply IH|]. etrans; [apply boxed_enrol|apply IH].
Qed.
Lemma unenrol_all_boxed p pid ids : forall e, boxed e (unenrol_all p pid ids e).
Proof. induction ids as [|id ids IH]; intros e; simpl; [done|]. etrans; [apply boxed_unenrol|apply IH]. Qed.

Lemma announce_all_log p b ids : forall w, w_log (announce_all p b ids w) = w_log w.
Proof. induction ids as [|id ids IH]; intros w; simpl; [done|]. by rewrite IH. Qed.
Lemma observes_log {A} (f : A -> observation) l : forall w, w_log w ⊆ w_log (foldl (fun w x => observe (f x) w) w l).
Proof. induction l as [|x l IH]; intros w; simpl; [done|]. etrans; [|apply IH]. simpl. set_solver. Qed.

Lemma peerSubscribed_keeps p id e w e' w' : peerSubscribed p id e w = Some (e', w') -> keeps e w e' w'.
Proof.
  unfold peerSubscribed. destruct (en_conns e !! p) as [c|]; [|done]. cbn [mbind option_bind]. case_decide; [|intros [= <- <-]; by apply keeps_conns].
  destruct (pc_subs c) as [m|]; [|done]. case_bool_decide; intros [= <- <-]; [by apply keeps_conns|].
  eapply (keeps_trans _ _ (on_conn p (with_subs (Some ({[id]} ∪ m))) e) w); [by apply keeps_on_conn|].
  apply keeps_boxed; [apply boxed_enrol|simpl; set_solver].
Qed.

Lemma peerUnsubscribed_keeps p id e w e' w' : peerUnsubscribed p id e w = Some (e', w') -> keeps e w e' w'.
Proof.
  unfold peerUnsubscribed. destruct (en_conns e !! p) as [c|]; [|done]. cbn [mbind option_bind]. case_decide; [|intros [= <- <-]; by apply keeps_conns].
  destruct (pc_subs c) as [m|]; [|intros [= <- <-]; by apply keeps_conns]. case_bool_decide; intros [= <- <-]; [|by apply keeps_conns].
  eapply (keeps_trans _ _ (on_conn p (with_subs (Some (m ∖ {[id]}))) e) w); [by apply keeps_on_conn|].
  apply keeps_boxed; [apply boxed_unenrol|simpl; set_solver].
Qed.

Lemma enqueueStream_keeps pr stream c w c' w' :
  enqueueStream pr stream c w = Some (c', w') ->
  pc_closed c' = pc_closed c /\ w_log w ⊆ w_log w' /\ (forall s, s ∈ held c -> s ∈ held c') /\
  ((pc_stopped c = false /\ stream ∈ held c') \/ ended w' stream).
Proof.
  assert (forall code, ended (CancelRead stream code w) stream) as Hend by (intros code; exists (Some code); simpl; set_solver).
  unfold enqueueStream, acceptBcast, q_push. destruct (pc_stopped c) eqn:Es; [intros [= <- <-]; repeat split; [simpl; set_solver|done|by right]|].
  destruct pr.
  - destruct (pc_bcastAccepted c); [intros [= <- <-]; repeat split; [simpl; set_solver|done|by right]|].
    destruct (_ <? _)%nat; [|done]. intros [= <- <-]. unfold held. simpl. repeat split; [done|set_solver|left; set_solver].
  - destruct (_ <? _)%nat; intros [= <- <-]; [|repeat split; [simpl; set_solver|done|by right]]. unfold held. simpl. repeat split; [done|set_solver|left; set_solver].
  - destruct (q_closed _); intros [= <- <-]; unfold held; simpl; repeat split; [set_solver|done|by right|done|set_solver|left; set_solver].
Qed.

Section handlers_keep.
Context (choice : nat -> gset bytes -> list bytes).
Implicit Types (e : engine) (w : world).

Lemma addChannel_keeps id h e w : let r := addChannel choice id h e w in keeps e w r.1 r.2.
Proof.
  unfold addChannel. destruct (en_channels e !! id); [apply keeps_conns; [done|simpl; set_solver]|]. cbv zeta. unfold range.
  set (e1 := with_channels _ e). set (w1 := mk_world _ _ _ _ _ _). destruct (attach_keeps id (choice (w_ranges (observe (OnChannelAttached id None) w)) (dom (en_peers e1))) e1 w1) as [A B].
  eapply (keeps_trans e w e1 w1); [apply keeps_conns; [done|simpl; set_solver]|]. apply keeps_boxed; [exact A|by rewrite B].
Qed.

Lemma removeChannel_keeps id e w : let r := removeChannel choice id e w in keeps e w r.1 r.2.
Proof.
  unfold removeChannel. destruct (en_channels e !! id); [|by apply keeps_conns]. cbv zeta. unfold range. set (w1 := mk_world _ _ _ _ _ _).
  destruct (detach_keeps id (choice (w_ranges w) (dom (en_peers e))) e w1) as [A B]. destruct (detach_peers _ _ _ _) as [e2 w2]. simpl in *.
  eapply (keeps_trans e w e2 w2); [apply keeps_boxed; [done|by rewrite B]|]. apply keeps_conns; [done|simpl; set_solver].
Qed.

Lemma handlePeerHandshake_keeps p chs e w e' w' : handlePeerHandshake choice p chs e w = Some (e', w') -> keeps e w e' w'.
Proof.
  unfold handlePeerHandshake. destruct (en_conns e !! p) as [c|]; [|done]. cbn [mbind option_bind]. destruct (pc_stopped c); [intros [= <- <-]; by apply keeps_conns|].
  cbv zeta. unfold range. set (e1 := with_peers _ e). set (w1 := announce_all p false _ _).
  assert (w_log w1 = w_log w) as Hl by (unfold w1; by rewrite !announce_all_log).
  pose proof (enrol_all_boxed p (pc_id c) chs ∅ e1) as Hb. destruct (enrol_all _ _ _ _ _) as [subs e2]. simpl in Hb.
  destruct (pc_handshakeDone c); [done|]. intros [= <- <-].
  eapply (keeps_trans e w e1 w1); [apply keeps_conns; [done|by rewrite Hl]|].
  eapply (keeps_trans e1 w1 e2 w1); [by apply keeps_boxed|].
  eapply (keeps_trans e2 w1 (on_conn p (with_subs (Some subs)) e2) w1); [by apply keeps_on_conn|].
  apply keeps_on_conn; [done|]. etrans; [|apply observes_log]. simpl. set_solver.
Qed.

Lemma handlePeerGone_keeps p e w e' w' : handlePeerGone choice p e w = Some (e', w') -> keeps e w e' w'.
Proof.
  unfold handlePeerGone. destruct (removePeer choice p e w) as [[e1 w1]|] eqn:E; [|done]. cbn [mbind option_bind fst snd].
  assert (keeps e w e1 w1) as H1.
  { unfold removePeer in E. destruct (en_conns e !! p) as [c|]; [|done]. cbn [mbind option_bind] in E. case_decide; [|injection E as <- <-; by apply keeps_conns].
    unfold range in E. injection E as <- <-. eapply (keeps_trans e w (with_peers (delete (pc_id c) (en_peers e)) e) w); [by apply keeps_conns|].
    apply keeps_boxed; [apply unenrol_all_boxed|simpl; set_solver]. }
  intros [= E']. pose proof (Close_keeps p e1 w1) as H2. rewrite E' in H2. by eapply keeps_trans.
Qed.

Lemma bindPeer_keeps peer pid live e w :
  (forall p, is_Some (en_conns e !! p) -> (p < w_fresh w)%nat) -> let r := bindPeer choice peer pid live e w in keeps e w r.1 r.2.
Proof.
  intros Hf. unfold bindPeer. destruct live; [|by apply keeps_conns]. simpl. split; [|done]. intros p c Hc. exists c. simpl.
  rewrite lookup_insert_ne; [auto|]. intros <-. specialize (Hf _ (mk_is_Some _ _ Hc)). lia.
Qed.

End handlers_keep.

Section runs.
Context (choice : nat -> gset bytes -> list bytes).

(** [H] are the streams handed over so far, [T] those the peers' goroutines took. *)
Inductive engine_run : engine -> world -> list nat -> list nat -> Prop :=
| er_new w : engine_run NewEngine w [] []
| er_event evt e w e' w' H T : engine_run e w H T -> event_ok evt e -> engine_handle choice evt e w = Some (e', w') ->
    engine_run e' w' (H ++ streams_of evt) T
(** a binding's context ends; [Run]'s [stop] also closes the control state *)
| er_cancel p e w H T : engine_run e w H T -> engine_run (on_conn p (fun c => with_stopped true (pc_closed c) c) e) w H T
| er_stop p e w H T : engine_run e w H T -> engine_run e (on_ctrl p ctrl_close w) H T
| er_worker p c s e w H T : engine_run e w H T -> en_conns e !! p = Some c -> pc_handshakeDone c = true ->
    worker_step (ctrlState w p) s -> engine_run e (on_ctrl p (fun _ => s) w) H T
| er_take p c x c' e w H T : engine_run e w H T -> en_conns e !! p = Some c -> takes c x c' ->
    engine_run (on_conn p (fun _ => c') e) w H (T ++ [x])
(** the chunk accept loop wakes *)
| er_token p c e w H T : engine_run e w H T -> en_conns e !! p = Some c ->
    engine_run (on_conn p (fun _ => with_queues (pc_bcastAccepted c) (pc_bcastIn c) (pc_sessionIn c) (take_token (pc_chunkIn c)) c) e) w H T
(** other goroutines: identities and log entries *)
| er_other w' e w H T : engine_run e w H T -> (forall p, ctrlState w' p = ctrlState w p) -> (w_fresh w <= w_fresh w')%nat ->
    w_log w ⊆ w_log w' -> engine_run e w' H T.

Hypothesis choice_perm : forall n X, choice n X ≡ₚ elements X.

Lemma engine_handle_inv evt e w :
  engine_inv ∅ e w -> event_ok evt e -> exists e' w', engine_handle choice evt e w = Some (e', w') /\ engine_inv ∅ e' w'.
Proof using choice_perm.
  intros Hi Hok. destruct evt as [d|id h|id|p id|p id|p chs|p]; simpl in *.
  - apply handleDelivery_inv; [done|done|]. by destruct d.
  - destruct Hok as [H1 H2]. destruct (addChannel_inv choice choice_perm ∅ id h e w Hi H1 H2) as (e' & w' & -> & H). by do 2 eexists.
  - destruct (removeChannel_inv choice choice_perm ∅ id e w Hi) as (e' & w' & -> & H). by do 2 eexists.
  - by apply peerSubscribed_inv.
  - by apply peerUnsubscribed_inv.
  - destruct Hok as (c & Hc & Hd). by eapply handlePeerHandshake_inv.
  - by eapply handlePeerGone_inv.
Qed.

Lemma takes_spec c x c' : takes c x c' -> (exists a b s q, c' = with_queues a b s q c) /\ (queues_ok c -> queues_ok c').
Proof.
  intros H. destruct H as [x l E|x l E|x q E]; (split; [by repeat eexists|]); intros (Q1 & Q2 & Q3); split; simpl in *; try done.
  - intros Ha. specialize (Q1 Ha). congruence.
  - rewrite E in Q2. simpl in Q2. split; [lia|done].
  - rewrite E in Q3. simpl in Q3. split; [done|lia].
Qed.

Lemma NewEngine_inv w : engine_inv ∅ NewEngine w.
Proof.
  split; simpl; try (by intros *; rewrite lookup_empty).
  split; simpl; by intros *; rewrite lookup_empty.
Qed.

Lemma engine_run_inv e w H T : engine_run e w H T -> engine_inv ∅ e w.
Proof using choice_perm.
  intros Hr. induction Hr as [w|evt e w e' w' H T _ IH Hok E|p e w H T _ IH|p e w H T _ IH|p c s e w H T _ IH Hc Hd Hs|p c x c' e w H T _ IH Hc Ht|p c e w H T _ IH Hc|w' e w H T _ IH Hct Hf _].
  - apply NewEngine_inv.
  - destruct (engine_handle_inv evt e w IH Hok) as (e1 & w1 & E1 & Hi). congruence.
  - apply (inv_same ∅ e w); try done.
    + intros q. simpl. destruct (decide (p = q)) as [<-|Hne]; [|rewrite lookup_alter_ne by done; apply same_refl].
      rewrite lookup_alter_eq. destruct (en_conns e !! p); constructor. by repeat (split; [done|]).
    + assert (forall i q, desired (on_conn p (fun c => with_stopped true (pc_closed c) c) e) i q = desired e i q) as Hde.
      { intros i q. unfold desired. simpl. destruct (en_peers e !! q) as [y|]; [|done]. simpl. unfold subscribes. simpl.
        destruct (decide (p = y)) as [<-|Hne]; [rewrite lookup_alter_eq; by destruct (en_conns e !! p)|by rewrite lookup_alter_ne]. }
      eapply linked_ext; [intros; symmetry; apply Hde|]. apply linked_conn; [apply IH|done].
    + apply (ei_wanted _ _ _ IH).
  - apply (inv_same ∅ e w); try done; [apply same_refl|apply IH| |].
    + intros pid q Hq. unfold quiet. rewrite ctrlState_on. case_decide; [by left|]. by apply (ei_wanted _ _ _ IH pid q).
    + intros q c _ _ Hy. unfold quiet. rewrite ctrlState_on. case_decide; [by left|done].
  - apply (inv_same ∅ e w); try done; [apply same_refl|apply IH| |].
    + intros pid q Hq. unfold quiet. rewrite ctrlState_on. case_decide as Eq; [|by apply (ei_wanted _ _ _ IH pid q)]. subst q.
      destruct (ei_wanted _ _ _ IH pid p Hq) as [A|[A <-]]; [left; by eapply worker_closed|right; by apply worker_wanted].
    + intros q d Hq Hn Hy. unfold quiet. rewrite ctrlState_on. case_decide; [subst; congruence|done].
  - destruct (takes_spec c x c' Ht) as [A B]. eapply inv_queues; [done|done|done|by apply B, (ei_queues _ _ _ IH p)|done|done].
  - eapply (inv_queues _ p c); [done|done|by repeat eexists|exact (ei_queues _ _ _ IH p c Hc)|done|done].
  - apply (inv_same ∅ e w); try done; [apply same_refl|apply IH| |].
    + intros pid q Hq. unfold quiet. rewrite !Hct. by apply (ei_wanted _ _ _ IH pid q).
    + intros q c _ _. unfold quiet. by rewrite !Hct.
Qed.

(** C5. The engine keeps channels, routing tables and announcements consistent
    whatever the interleaving of family deliveries, channel changes, peers'
    subscriptions, handshakes and exits with the peers' own goroutines: the
    membership changes posted to a channel, applied in order, never find another
    connection bound and leave as its members exactly the current connections
    whose peer subscribes to it; a connection's lock-free table routes an ID to
    the channel's handle exactly while the connection is such a member; and every
    current peer, unless it is stopping, is to be told exactly the channels that
    exist. *)
Theorem engine_membership e w H T :
  engine_run e w H T ->
  (forall id h pid, en_channels e !! id = Some h ->
     exists r, seat h pid (en_posted e) = Some r /\
       forall p, r = Some p <-> en_peers e !! pid = Some p /\ subscribes e p id = true) /\
  (forall p c id h, en_conns e !! p = Some c ->
     channelInboxFor c id = Some h <-> en_channels e !! id = Some h /\ en_peers e !! pc_id c = Some p /\ subscribes e p id = true) /\
  (forall pid p, en_peers e !! pid = Some p -> closed (ctrlState w p) = false -> wanted (ctrlState w p) = dom (en_channels e)).
Proof using choice_perm.
  intros Hr. pose proof (engine_run_inv e w H T Hr) as Hi. destruct (ei_linked _ _ _ Hi) as [L1 L2 L3]. split; [|split].
  - intros id h pid Hh. exists (desired e id pid). split; [by apply L1|]. intros p. apply desired_Some.
  - intros p c id h Hc. unfold channelInboxFor. rewrite (L2 p c id Hc). rewrite <-desired_Some. case_decide as E; [|by split; [|intros [_ ?]]]. tauto.
  - intros pid p Hp Hcl. destruct (ei_wanted _ _ _ Hi pid p Hp) as [A|[_ A]]; [unfold quiet in A; congruence|done].
Qed.

(** No event panics or blocks the engine's actor: in every reachable state,
    every event its clients may send is handled, the nil subscription map is
    never written, [handshakeDone] is never closed twice, and the one-element
    BCAST slot has room whenever a stream is put into it. *)
Theorem engine_never_stuck evt e w H T :
  engine_run e w H T -> event_ok evt e -> is_Some (engine_handle choice evt e w).
Proof using choice_perm.
  intros Hr Hok. destruct (engine_handle_inv evt e w (engine_run_inv e w H T Hr) Hok) as (e' & w' & -> & _). by eexists.
Qed.

Lemma handleStreamEvent_keeps peer pr bidi stream e w e' w' :
  engine_inv ∅ e w -> handleStreamEvent false peer pr bidi stream e w = Some (e', w') ->
  keeps e w e' w' /\ (queued e' stream \/ ended w' stream).
Proof.
  intros Hi. assert (forall code, let w1 := event_Cancel code (StreamIn peer pr bidi stream) w in keeps e w e w1 /\ ended w1 stream) as Hcan.
  { intros code. split; [apply keeps_conns; [done|]|exists (Some code)]; destruct bidi; simpl; rewrite ?elem_of_app, ?list_elem_of_singleton; auto;
      intros x Hx; rewrite !elem_of_app; auto. }
  unfold handleStreamEvent. destruct bidi; [intros [= <- <-]; destruct (Hcan Refused); auto|].
  destruct (en_bindings e !! peer) as [p|]; [|intros [= <- <-]; destruct (Hcan Refused); auto].
  destruct (en_conns e !! p) as [c|] eqn:Hc; [|done]. cbn [mbind option_bind].
  destruct (enqueueStream pr stream c w) as [[c' w1]|] eqn:Eq; [|done]. cbn [mbind option_bind fst snd]. intros [= <- <-].
  destruct (enqueueStream_keeps pr stream c w c' w1 Eq) as (K1 & K2 & K3 & K4). split.
  - split; [|done]. intros q d Hd. simpl. destruct (decide (p = q)) as [<-|Hne]; [|exists d; rewrite lookup_alter_ne by done; auto].
    exists c'. rewrite lookup_alter_eq, Hc. split; [done|]. assert (d = c) as -> by congruence. rewrite K1. auto.
  - destruct K4 as [[A B]|A]; [left|by right]. exists p, c'. split; [simpl; by rewrite lookup_alter_eq, Hc|]. split; [|done]. rewrite K1.
    destruct (pc_closed c) eqn:Ecl; [|done]. by rewrite (ei_stopped _ _ _ Hi p c Hc Ecl) in A.
Qed.

Lemma engine_handle_keeps evt e w e' w' :
  engine_inv ∅ e w -> engine_handle choice evt e w = Some (e', w') ->
  keeps e w e' w' /\ forall s, s ∈ streams_of evt -> queued e' s \/ ended w' s.
Proof.
  intros Hi E. assert (forall r : engine * world, Some r = Some (e', w') -> keeps e w r.1 r.2 -> keeps e w e' w') as Hpair by (by intros r [= ->]).
  destruct evt as [[peer pid live|peer pr bidi stream|peer]|id h|id|p id|p id|p chs|p]; simpl in *;
    try (split; [|by intros s ?%elem_of_nil]).
  - eapply Hpair; [exact E|]. apply bindPeer_keeps, Hi.
  - destruct (handleStreamEvent_keeps _ _ _ _ _ _ _ _ Hi E) as [A B]. split; [done|]. by intros s ->%list_elem_of_singleton.
  - destruct (en_bindings e !! peer) as [p|]; [|injection E as <- <-; by apply keeps_conns].
    eapply keeps_trans; [|by eapply handlePeerGone_keeps]. by apply keeps_conns.
  - eapply Hpair; [exact E|apply addChannel_keeps].
  - eapply Hpair; [exact E|apply removeChannel_keeps].
  - by eapply peerSubscribed_keeps.
  - by eapply peerUnsubscribed_keeps.
  - by eapply handlePeerHandshake_keeps.
  - by eapply handlePeerGone_keeps.
Qed.

Lemma takes_held c x c' : takes c x c' -> pc_closed c' = pc_closed c /\ forall s, s ∈ held c -> s = x \/ s ∈ held c'.
Proof.
  intros H. destruct H as [x l E|x l E|x q E]; (split; [done|]); intros s; unfold held; simpl.
  - rewrite E. rewrite !elem_of_app, elem_of_cons. tauto.
  - rewrite E. rewrite !elem_of_app, elem_of_cons. tauto.
  - unfold q_pop in E. destruct (q_items (pc_chunkIn c)) as [|y l]; [done|]. injection E as -> <-. rewrite !elem_of_app, elem_of_cons.
    destruct (_ <? _)%nat; simpl; tauto.
Qed.

Lemma engine_run_streams e w H T : engine_run e w H T -> forall s, s ∈ H -> s ∈ T \/ queued e s \/ ended w s.
Proof using choice_perm.
  intros Hr. induction Hr as [w|evt e w e' w' H T Hr IH Hok E|p e w H T _ IH|p e w H T _ IH|p c s e w H T _ IH Hc Hd Hs|p c x c' e w H T _ IH Hc Ht|p c e w H T _ IH Hc|w' e w H T _ IH Hct Hf Hl]; intros z Hz.
  - by apply elem_of_nil in Hz.
  - destruct (engine_handle_keeps evt e w e' w' (engine_run_inv e w H T Hr) E) as [A B]. apply elem_of_app in Hz as [Hz|Hz]; [|right; by apply B].
    destruct (IH z Hz) as [?|Hq]; [by left|right]. by eapply keeps_stream.
  - destruct (IH z Hz) as [?|Hq]; [by left|right]. eapply keeps_stream; [|exact Hq]. by apply keeps_on_conn.
  - destruct (IH z Hz) as [?|Hq]; [by left|by right].
  - destruct (IH z Hz) as [?|Hq]; [by left|by right].
  - rewrite elem_of_app, list_elem_of_singleton. destruct (IH z Hz) as [?|[(q & d & Hq & Hcl & Hh)|Hq]]; [by auto| |by auto].
    destruct (takes_held c x c' Ht) as [A B]. destruct (decide (p = q)) as [<-|Hne].
    + assert (d = c) as -> by congruence. destruct (B z Hh) as [->|Hh']; [by auto|]. right. left. exists p, c'. simpl. rewrite lookup_alter_eq, Hc. split; [done|]. by rewrite A.
    + right. left. exists q, d. simpl. rewrite lookup_alter_ne by done. auto.
  - destruct (IH z Hz) as [?|[(q & d & Hq & Hcl & Hh)|Hq]]; [by auto| |by auto]. right. left. destruct (decide (p = q)) as [<-|Hne].
    + assert (d = c) as -> by congruence. eexists p, _. simpl. by rewrite lookup_alter_eq, Hc.
    + exists q, d. simpl. rewrite lookup_alter_ne by done. auto.
  - destruct (IH z Hz) as [?|[Hq|(how & Hq)]]; [by auto|by auto|]. right. right. exists how. by apply Hl.
Qed.

(** *** Shutting down *)

Lemma Close_closes p e w :
  let r := Close p e w in
  (forall c, en_conns e !! p = Some c -> exists c', en_conns r.1 !! p = Some c' /\ pc_closed c' = true) /\
  (forall q, (forall c, en_conns e !! q = Some c -> pc_closed c = true) -> forall c, en_conns r.1 !! q = Some c -> pc_closed c = true).
Proof.
  unfold Close. destruct (en_conns e !! p) as [c|] eqn:Hc; [|by split].
  destruct (pc_closed c) eqn:Ecl; [split; [intros d [= <-]; by exists c|done]|]. simpl. split.
  - intros d [= <-]. rewrite lookup_insert_eq. by eexists.
  - intros q Hq d. rewrite lookup_insert_Some. intros [[<- <-]|[Hne Hd]]; [done|by apply Hq].
Qed.

Lemma close_all_spec order : forall e w,
  let r := close_all order e w in
  keeps e w r.1 r.2 /\ forall q, q ∈ order \/ (forall c, en_conns e !! q = Some c -> pc_closed c = true) -> forall c, en_conns r.1 !! q = Some c -> pc_closed c = true.
Proof.
  induction order as [|p order IH]; intros e w; simpl.
  - split; [by apply keeps_conns|]. intros q [?%elem_of_nil|H]; [done|exact H].
  - pose proof (Close_keeps p e w) as K. pose proof (Close_closes p e w) as [C1 C2]. destruct (Close p e w) as [e1 w1] eqn:E. simpl in *.
    destruct (IH e1 w1) as [K' C']. split; [by eapply keeps_trans|]. intros q Hq. apply C'. destruct Hq as [Hq|Hq]; [|right; by apply C2].
    apply elem_of_cons in Hq as [->|Hq]; [|by left]. right. intros d Hd. destruct (en_conns e !! p) as [c|] eqn:Hc.
    + destruct (C1 c eq_refl) as (c' & Hc' & H). congruence.
    + exfalso. unfold Close in E. rewrite Hc in E. by injection E as <- <-; rewrite Hc in Hd.
Qed.

Lemma pending_log l : forall w, w_log w ⊆ w_log (foldl (fun w d => event_Cancel Unspecified d w) w l).
Proof.
  induction l as [|d l IH]; intros w; simpl; [done|]. etrans; [|apply IH]. intros x Hx.
  destruct d as [| ? ? [] ?|]; simpl; rewrite ?elem_of_app; auto.
Qed.

Lemma pending_ends l s : forall w, s ∈ (l ≫= fun d => streams_of (EvDelivery d)) -> ended (foldl (fun w d => event_Cancel Unspecified d w) w l) s.
Proof.
  induction l as [|d l IH]; intros w; simpl; [by intros ?%elem_of_nil|]. rewrite elem_of_app. intros [H|H]; [|by apply IH].
  destruct d as [|? ? b ?|]; simpl in H; [by apply elem_of_nil in H| |by apply elem_of_nil in H]. apply list_elem_of_singleton in H as <-.
  exists (Some Unspecified). apply pending_log. destruct b; simpl; rewrite !elem_of_app, ?list_elem_of_singleton; auto.
Qed.

(** C6. The engine leaks no stream: in every reachable state, each stream the
    family handed over was taken by one of the peer's goroutines, sits in a
    queue of a binding that is not closed, or has been cancelled; and a shutdown
    cancels all the rest, those of deliveries still pending with the family
    included, and leaves every binding closed. *)
Theorem engine_streams_accounted e w H T pending order :
  engine_run e w H T -> order ≡ₚ (map_to_list (en_bindings e)).*2 ->
  (forall s, s ∈ H -> s ∈ T \/ queued e s \/ ended w s) /\
  let r := shutdown pending order e w in
  (forall s, s ∈ H ++ (pending ≫= fun d => streams_of (EvDelivery d)) -> s ∈ T \/ ended r.2 s) /\
  (forall p c, en_conns r.1 !! p = Some c -> pc_closed c = true).
Proof using choice_perm.
  intros Hr Hord. pose proof (engine_run_streams e w H T Hr) as Hs. pose proof (engine_run_inv e w H T Hr) as Hi. split; [done|].
  unfold shutdown. set (w1 := foldl _ w pending). destruct (close_all_spec order e w1) as [K C]. cbv zeta.
  assert (forall p c, en_conns (close_all order e w1).1 !! p = Some c -> pc_closed c = true) as Hall.
  { intros p c Hc. apply (C p); [|done]. destruct (en_conns e !! p) as [d|] eqn:Hd; [|by right]. destruct (pc_closed d) eqn:Ed; [by right; intros ? [= <-]|].
    left. rewrite Hord. destruct (ei_open _ _ _ Hi p d ltac:(set_solver) Hd Ed) as [b Hb]. apply list_elem_of_fmap. exists (b, p). by rewrite elem_of_map_to_list. }
  split; [|done]. intros s Hin.
  assert (s ∈ T \/ queued e s \/ ended w1 s) as [?|Hq]; [|by left|].
  { apply elem_of_app in Hin as [Hin|Hin]; [|right; right; by apply pending_ends].
    destruct (Hs s Hin) as [?|[?|(how & ?)]]; [by auto|by auto|]. right. right. exists how. by apply pending_log. }
  right. destruct (keeps_stream _ _ _ _ s K Hq) as [(p & c & Hc & Hcl & _)|?]; [|done]. by rewrite (Hall p c Hc) in Hcl.
Qed.
End runs.

(** ** A concrete run

    A peer comes up, its BCAST stream arrives, it shakes hands subscribing to a
    channel that is attached afterwards. *)

Definition demo_choice (_ : nat) (X : gset bytes) : list bytes := elements X.
Definition demo_chan : ChannelID := [Byte.x63].
Definition demo_peer : PeerID := [Byte.x70].
Definition demo_events : list engine_event :=
  [EvDelivery (PeerUp 3%nat demo_peer true); EvDelivery (StreamIn 3%nat BCAST false 5%nat); EvHandshake 0%nat [demo_chan]; EvAddChannel demo_chan 7%nat].
Definition demo_at (k : nat) : engine * world :=
  default (NewEngine, mk_world ∅ ∅ ∅ [] 0 0)
    (foldl (fun r evt => letp r := r in engine_handle demo_choice evt r.1 r.2) (Some (NewEngine, mk_world ∅ ∅ ∅ [] 0 0)) (take k demo_events)).

Lemma demo_step k evt H :
  demo_events !! k = Some evt -> engine_run demo_choice (demo_at k).1 (demo_at k).2 H [] -> event_ok evt (demo_at k).1 ->
  engine_handle demo_choice evt (demo_at k).1 (demo_at k).2 = Some ((demo_at (S k)).1, (demo_at (S k)).2) ->
  engine_run demo_choice (demo_at (S k)).1 (demo_at (S k)).2 (H ++ streams_of evt) [].
Proof. intros _ Hr Hok E. by eapply er_event. Qed.

Lemma demo_reach : engine_run demo_choice (demo_at 4).1 (demo_at 4).2 [5%nat] [].
Proof.
  apply (demo_step 3 (EvAddChannel demo_chan 7%nat) [5%nat] eq_refl); [..|vm_compute; reflexivity].
  - apply (demo_step 2 (EvHandshake 0%nat [demo_chan]) [5%nat] eq_refl); [..|vm_compute; reflexivity].
    + apply (demo_step 1 (EvDelivery (StreamIn 3%nat BCAST false 5%nat)) [] eq_refl); [|done|vm_compute; reflexivity].
      apply (demo_step 0 (EvDelivery (PeerUp 3%nat demo_peer true)) [] eq_refl); [apply er_new| |vm_compute; reflexivity].
      split; [done|]. intros b p c. simpl. by rewrite lookup_empty.
    + eexists. split; vm_compute; reflexivity.
  - assert (en_channels (demo_at 3).1 = ∅) as E1 by (vm_compute; reflexivity). assert (en_posted (demo_at 3).1 = []) as E2 by (vm_compute; reflexivity).
    simpl. rewrite E1, E2. split; [intros i; by rewrite lookup_empty|intros pid r; apply not_elem_of_nil].
Qed.

Lemma engine_membership_witness :
  exists e w, engine_run demo_choice e w [5%nat] [] /\ en_channels e !! demo_chan = Some 7%nat /\
    (exists c, en_conns e !! 0%nat = Some c /\ channelInboxFor c demo_chan = Some 7%nat) /\ seat 7 demo_peer (en_posted e) = Some (Some 0%nat).
Proof.
  exists (demo_at 4).1, (demo_at 4).2. pose proof demo_reach as Hr.
  destruct (engine_membership demo_choice (fun n X => reflexivity _) _ _ _ _ Hr) as (H1 & H2 & _).
  assert (en_channels (demo_at 4).1 !! demo_chan = Some 7%nat) as Hc by (vm_compute; reflexivity).
  assert (en_peers (demo_at 4).1 !! demo_peer = Some 0%nat) as Hp by (vm_compute; reflexivity).
  assert (subscribes (demo_at 4).1 0 demo_chan = true) as Hsub by (vm_compute; reflexivity).
  assert (pc_id <$> en_conns (demo_at 4).1 !! 0%nat = Some demo_peer) as Hid by (vm_compute; reflexivity).
  split; [exact Hr|]. split; [exact Hc|]. split.
  - destruct (en_conns (demo_at 4).1 !! 0%nat) as [c|] eqn:E; [|discriminate]. exists c. split; [reflexivity|]. injection Hid as Hid.
    apply (H2 0%nat c demo_chan 7%nat E). rewrite Hid. auto.
  - destruct (H1 demo_chan 7%nat demo_peer Hc) as (r & -> & Hm). f_equal. apply Hm. auto.
Defined.

Lemma engine_never_stuck_witness :
  exists e w, engine_run demo_choice e w [5%nat] [] /\ is_Some (engine_handle demo_choice (EvDropChannel demo_chan) e w).
Proof.
  exists (demo_at 4).1, (demo_at 4).2. split; [exact demo_reach|].
  exact (engine_never_stuck demo_choice (fun n X => reflexivity _) (EvDropChannel demo_chan) _ _ _ _ demo_reach I).
Defined.

(** The stream is still queued, a second one is pending; the shutdown cancels both. *)
Lemma engine_streams_accounted_witness :
  exists e w, engine_run demo_choice e w [5%nat] [] /\ queued e 5 /\
    let r := shutdown [StreamIn 3%nat CHUNK false 6%nat] (map_to_list (en_bindings e)).*2 e w in ended r.2 5 /\ ended r.2 6.
Proof.
  exists (demo_at 4).1, (demo_at 4).2.
  destruct (engine_streams_accounted demo_choice (fun n X => reflexivity _) _ _ _ _ [StreamIn 3%nat CHUNK false 6%nat] _ demo_reach (reflexivity _)) as (_ & H & _).
  split; [exact demo_reach|]. split.
  - assert ((fun c => (pc_closed c, held c)) <$> en_conns (demo_at 4).1 !! 0%nat = Some (false, [5%nat])) as Hq by (vm_compute; reflexivity).
    destruct (en_conns (demo_at 4).1 !! 0%nat) as [c|] eqn:E; [|discriminate]. exists 0%nat, c. injection Hq as Hcl Hh. rewrite Hcl, Hh.
    repeat split; [exact E|left].
  - split; [destruct (H 5%nat) as [X|X]|destruct (H 6%nat) as [X|X]]; try (by apply elem_of_nil in X); try exact X; simpl; set_solver.
Defined.
