(* ===== verification/PeerIo.v ===== *)
(** * PeerIo: what the goroutines of a peer binding do their work on

    The messages of the broadcast protocols (src/broadcast/pb/broadcast.proto,
    whose encoding is a parameter), the codes a failed stream is ended with
    (src/broadcast/protocol.go, [TimeoutOr] of src/wire/wire.go), the rules by
    which a stream ends (src/stream.go) and the environment of a goroutine.

    A goroutine is a function of its state and of an [environment]: at its
    [n]-th step the environment answers whether the binding's context has ended
    by then, whether a callback registered with [OnCancel]
    (src/internal/ctxutil/cancel.go) has run, whether the stream operation of
    the step fails and which ready case a [select] takes.  Theorems hold for
    every environment, so for every interleaving with the other goroutines. *)

From S2P Require Import Prelude Wire Types CtrlOut Session Reader Engine.
Open Scope Z_scope.

#[local] Set Default Proof Using "Type".

(** ** Errors and codes *)

(** [ctx.Err()]. *)
Inductive ctx_err := CtxCanceled | CtxDeadline.

(** A value that may be a [net.Error]: [timeout] is whether it reports one.  Every
    [net.Error] among the errors of streams and contexts does, so that the first
    one found decides is the same as any one. *)
Class Timeouts (E : Type) := timeout : E -> bool.

#[global] Instance io_timeouts : Timeouts io_err := fun e => match e with ErrDeadline => true | _ => false end.
#[global] Instance ctx_timeouts : Timeouts ctx_err := fun e => match e with CtxDeadline => true | _ => false end.
#[global] Instance read_timeouts : Timeouts read_err :=
  fun e => match e with ReadFailed (FrameIO e) => timeout e | _ => false end.
(** [errors.Join]: one of the two, where they are errors. *)
#[global] Instance opt_timeouts {E} `{!Timeouts E} : Timeouts (option E) := fun e => match e with Some e => timeout e | None => false end.
#[global] Instance join_timeouts {E F} `{!Timeouts E} `{!Timeouts F} : Timeouts (E * F) := fun e => timeout e.1 || timeout e.2.

Definition TimeoutOr {E} `{!Timeouts E} (e : E) (other : Code) : Code := if timeout e then Timeout else other.

Definition streamFailureCode {E} `{!Timeouts E} (e : E) : Code := TimeoutOr e Unspecified.

(** [streamCancellationCode(errors.Join(err, ctx.Err()))] for an error of a
    read; [errUnexpectedFrame] wraps [errStreamRefused]. *)
Definition readFailureCode (e : read_err) (c : option ctx_err) : Code :=
  if timeout (e, c) then Timeout
  else match e with errUnexpectedFrame => Refused | _ => Unspecified end.

(** The error of a failed [writeFrame]. *)
Inductive write_err := MarshalFailed (e : error) | WriteFailed (e : io_err).
#[global] Instance write_timeouts : Timeouts write_err := fun e => match e with WriteFailed e => timeout e | _ => false end.

(** [resetError]: a QUIC stream error becomes a [ResetError] with its code. *)
Definition ResetError (e : io_err) : option Code :=
  match e with ErrStream raw => Some (ParseCode raw) | _ => None end.

Definition failure_code (c : Code) : Prop := c = Timeout \/ c = Unspecified.

Lemma failure_code_ok {E} `{!Timeouts E} (e : E) : failure_code (streamFailureCode e).
Proof. unfold failure_code, streamFailureCode, TimeoutOr. destruct (timeout e); auto. Qed.

(** The peer decodes it as itself. *)
Lemma failure_code_parse c : failure_code c -> ParseCode (Wire.Wire c) <> Reconstructed.
Proof. by intros [-> | ->]. Qed.

(** ** Messages *)

Record Bcast_Handshake := mk_Handshake { hs_version : Z; hs_channels : list ChannelID }.
Record Bcast_Subscribe := mk_Subscribe { sub_channel : ChannelID }.
Record Bcast_Unsubscribe := mk_Unsubscribe { unsub_channel : ChannelID }.
Record Sess_Open := mk_Sess_Open { so_channel : ChannelID; so_objectId : MessageID; so_preamble : bytes; so_initialUpdate : bytes }.
Record Sess_Update := mk_Sess_Update { su_data : bytes }.
Record Chunk_Header := mk_Chunk_Header { hd_channel : ChannelID; hd_objectId : MessageID; hd_chunkId : bytes; hd_dataLength : Z }.

Definition handshakeFrame : Z := 0.
Definition subscribeFrame : Z := 1.
Definition unsubscribeFrame : Z := 2.
Definition openFrame : Z := 0.
Definition updateFrame : Z := 1.
Definition headerFrame : Z := 0.

(** What the protobuf library documents: a message it encoded decodes to itself. *)
Class WireLaws (M : Type) `{!Types.Wire M} := wire_roundtrip : forall (m : M) b, w_Marshal m = Ok b -> w_Unmarshal b = Ok m.

(** The bytes of a message as one frame; none when it has no encoding. *)
Definition frame_of {M} `{!Types.Wire M} (typ : Z) (msg : M) : bytes :=
  match Reader.writeFrame typ msg with Ok b => b | Err _ => [] end.

Lemma AppendFrame_nonempty typ d : AppendFrame [] typ d <> [].
Proof. rewrite AppendFrame_split. intros E. apply app_eq_nil in E as [E _]. by apply AppendUvarint_nonempty in E. Qed.

(** ** The send side of a stream *)

Inductive stream_end := Fin | Reset (c : Code).

#[global] Instance stream_end_eq_dec : EqDecision stream_end.
Proof. solve_decision. Defined.

Record send_side := mk_side { sd_protocol : protocol; sd_bytes : bytes; sd_end : option stream_end }.

#[global] Instance protocol_eq_dec : EqDecision protocol.
Proof. solve_decision. Defined.
#[global] Instance send_side_eq_dec : EqDecision send_side.
Proof. solve_decision. Defined.

(** The first cancellation wins; one after [Close] still aborts delivery. *)
Definition side_cancel (c : Code) (s : send_side) : send_side :=
  mk_side (sd_protocol s) (sd_bytes s) (match sd_end s with Some (Reset c') => Some (Reset c') | _ => Some (Reset c) end).
Definition side_write (data : bytes) (s : send_side) : send_side := mk_side (sd_protocol s) (sd_bytes s ++ data) (sd_end s).
Definition side_fin (s : send_side) : send_side := mk_side (sd_protocol s) (sd_bytes s) (Some Fin).

(** ** Environments *)

Record answer := mk_answer {
  a_done : option ctx_err;   (* the context has ended by now, with this error *)
  a_fire : bool;             (* a pending callback has run *)
  a_fail : option io_err;    (* the stream operation fails *)
  a_short : nat;             (* after writing this much *)
  a_send : bool;             (* a select whose send and Done are both ready sends *)
  a_late : bool }.           (* a derived deadline has passed; another context has ended *)

Abbreviation environment := (nat -> answer) (only parsing).

(** Nothing fails and nothing ends. *)
Definition calm : environment := fun _ => mk_answer None false None 0 true false.
