(* ===== verification/PeerOut.v ===== *)
(** * PeerOut: the outbound goroutines of a peer binding (src/broadcast/peer_ctrl.go)

    [runCtrlLoop] turns the events of [CtrlOut] into frames on the BCAST stream
    and on one SESS stream per session, and tells [runDataLoop] through
    [slotCh] which chunk outboxes to serve; [runDataLoop] writes each chunk to a
    CHUNK stream of its own.  Each loop owns the streams it opens, so each has
    its own [out] state: the streams with what was written to them, the
    binding's context, the updates sent on [slotCh] and the chunk results
    posted.  A send on [slotCh] or on a result channel waits for room; the
    environment decides only whether the context ends first. *)

From S2P Require Import Prelude Wire Types CtrlOut Session Reader Engine PeerIo.
Open Scope Z_scope.

#[local] Set Default Proof Using "Type".

(** [None]: the slot is removed. *)
Record slotUpdate := mk_slot { su_key : sessionKey; su_slot : option nat }.

(** [applySlot]: what the data loop makes of an update. *)
Definition applySlot (slots : gmap sessionKey nat) (u : slotUpdate) : gmap sessionKey nat :=
  match su_slot u with Some b => <[su_key u := b]> slots | None => delete (su_key u) slots end.

Record chunkSent := mk_sent {
  cn_messageID : MessageID; cn_peerID : PeerID; cn_handle : ChunkHandle; cn_err : option error; cn_size : Z }.

Record out := mk_out {
  o_clock : nat;
  o_ctx : option ctx_err;                 (* p.ctx.Err() *)
  o_next : nat;
  o_streams : gmap nat send_side;
  o_slots : list slotUpdate;
  o_results : list chunkSent }.

Definition on_streams (f : gmap nat send_side -> gmap nat send_side) (w : out) : out :=
  mk_out (o_clock w) (o_ctx w) (o_next w) (f (o_streams w)) (o_slots w) (o_results w).

Section out.
Context (env : environment).
Context `{WS : !Types.Wire Bcast_Subscribe} `{WU : !Types.Wire Bcast_Unsubscribe} `{WO : !Types.Wire Sess_Open} `{WD : !Types.Wire Sess_Update} `{WH : !Types.Wire Chunk_Header}.
Implicit Types (w : out) (ss : gmap sessionKey nat).

(** ** Operations *)

(** One step: the environment's answer, after which the context may have ended. *)
Definition tick w : answer * out :=
  let a := env (o_clock w) in
  (a, mk_out (S (o_clock w)) (match o_ctx w with Some e => Some e | None => a_done a end)
        (o_next w) (o_streams w) (o_slots w) (o_results w)).

(** [p.cancel()]. *)
Definition p_cancel w : out :=
  mk_out (o_clock w) (match o_ctx w with Some e => Some e | None => Some CtxCanceled end)
    (o_next w) (o_streams w) (o_slots w) (o_results w).

Definition OpenUniStream (pr : protocol) w : option nat * out :=
  let '(a, w) := tick w in
  match a_fail a with
  | Some _ => (None, w)
  | None => (Some (o_next w),
             mk_out (o_clock w) (o_ctx w) (S (o_next w)) (<[o_next w := mk_side pr [] None]> (o_streams w)) (o_slots w) (o_results w))
  end.

Definition CancelWrite (s : nat) (c : Code) w : out := on_streams (alter (side_cancel c) s) w.

(** A write on an ended side fails; a failed write may have sent a part. *)
Definition Write (s : nat) (data : bytes) w : option io_err * out :=
  let '(a, w) := tick w in
  match o_streams w !! s with
  | Some (mk_side _ _ None) =>
      match a_fail a with
      | None => (None, on_streams (alter (side_write data) s) w)
      | Some e => (Some e, on_streams (alter (side_write (take (a_short a) data)) s) w)
      end
  | _ => (Some (ErrStream 0), w)
  end.

Definition CloseWrite (s : nat) w : option io_err * out :=
  let '(a, w) := tick w in
  match o_streams w !! s with
  | Some (mk_side _ _ None) =>
      match a_fail a with
      | None => (None, on_streams (alter side_fin s) w)
      | Some e => (Some e, w)
      end
  | _ => (Some (ErrStream 0), w)
  end.

(** [writeFrame] on a stream. *)
Definition writeFrame {M} `{!Types.Wire M} (s : nat) (typ : Z) (msg : M) w : option write_err * out :=
  match w_Marshal msg with
  | Err e => (Some (MarshalFailed e), w)
  | Ok data => let '(err, w) := Write s (AppendFrame [] typ data) w in (WriteFailed <$> err, w)
  end.

(** A point where the callback of [OnCancel(p.ctx, ...)] for [s] may run: the
    context has ended and [stop] was not called yet. *)
Definition callback (s : nat) w : out :=
  let '(a, w) := tick w in
  match o_ctx w with
  | Some e => if a_fire a then CancelWrite s (streamFailureCode e) w else w
  | None => w
  end.

(** A write under [OnCancel]. *)
Definition guardedWrite {M} `{!Types.Wire M} (s : nat) (typ : Z) (msg : M) w : option write_err * out :=
  let '(err, w) := writeFrame s typ msg (callback s w) in (err, callback s w).

(** [select { case slotCh <- u: case <-p.ctx.Done(): }]; whether it was sent. *)
Definition sendSlot (u : slotUpdate) w : bool * out :=
  let '(a, w) := tick w in
  match o_ctx w with
  | Some _ => if a_send a then (true, mk_out (o_clock w) (o_ctx w) (o_next w) (o_streams w) (o_slots w ++ [u]) (o_results w)) else (false, w)
  | None => (true, mk_out (o_clock w) (o_ctx w) (o_next w) (o_streams w) (o_slots w ++ [u]) (o_results w))
  end.

(** ** Control events *)

(** [Close], and [CancelWrite] when it fails. *)
Definition close_or_cancel (s : nat) w : out :=
  let '(err, w) := CloseWrite s w in
  match err with Some e => CancelWrite s (streamFailureCode e) w | None => w end.

Definition open_msg (e : peerOpenSession) : Sess_Open :=
  mk_Sess_Open (k_channel (po_key e)) (k_message (po_key e)) (po_preamble e) (po_initialRouting e).

Definition retire_previous (key : sessionKey) ss w : bool * gmap sessionKey nat * out :=
  match ss !! key with
  | Some previous =>
      let w := close_or_cancel previous w in
      let '(sent, w) := sendSlot (mk_slot key None) w in
      (sent, delete key ss, w)
  | None => (true, ss, w)
  end.

(** The new stream with its OPEN frame, and the session's chunk outbox. *)
Definition open_stream (e : peerOpenSession) ss w : gmap sessionKey nat * out :=
  match OpenUniStream SESS w with
  | (None, w) => (ss, p_cancel w)
  | (Some s, w) =>
      let '(err, w) := guardedWrite s openFrame (open_msg e) w in
      match err with
      | Some er => (ss, p_cancel (CancelWrite s (streamFailureCode er) w))
      | None =>
          let '(_, w) := sendSlot (mk_slot (po_key e) (Some (po_chunkOutbox e))) w in
          (<[po_key e := s]> ss, callback s w)
      end
  end.

Definition handleSessionOpen (e : peerOpenSession) ss w : gmap sessionKey nat * out :=
  let '(go, ss, w) := retire_previous (po_key e) ss w in
  if negb go then (ss, w) else open_stream e ss w.

Definition writeCtrl {M} `{!Types.Wire M} (ctrlOut : nat) (typ : Z) (msg : M) w : out :=
  let '(err, w) := guardedWrite ctrlOut typ msg w in
  match err with
  | Some er => p_cancel (callback ctrlOut (CancelWrite ctrlOut (streamFailureCode er) w))
  | None => w
  end.

Definition handleSendRoutingUpdate (e : peerSendRouting) ss w : gmap sessionKey nat * out :=
  match ss !! pr_key e with
  | None => (ss, w)
  | Some stream =>
      let '(err, w) := guardedWrite stream updateFrame (mk_Sess_Update (pr_update e)) w in
      match err with
      | Some er => (delete (pr_key e) ss, CancelWrite stream (streamFailureCode er) w)
      | None => (ss, w)
      end
  end.

Definition handleSessionDone (key : sessionKey) ss w : gmap sessionKey nat * out :=
  let w := match ss !! key with Some s => close_or_cancel s w | None => w end in
  (delete key ss, (sendSlot (mk_slot key None) w).2).

Definition handleCtrl (ctrlOut : nat) (evt : peerCtrlEvent) ss w : gmap sessionKey nat * out :=
  match evt with
  | EvOpenSession e => handleSessionOpen e ss w
  | EvSendRouting e => handleSendRoutingUpdate e ss w
  | CtrlOut.EvSubscribe id => (ss, writeCtrl ctrlOut subscribeFrame (mk_Subscribe id) w)
  | CtrlOut.EvUnsubscribe id => (ss, writeCtrl ctrlOut unsubscribeFrame (mk_Unsubscribe id) w)
  | EvCloseSession key => handleSessionDone key ss w
  | EvCloseStream key =>
      match ss !! key with
      | Some s => (delete key ss, CancelWrite s Reconstructed w)
      | None => (ss, w)
      end
  end.

(** ** The control loop *)

(** The deferred cleanup. *)
Definition ctrl_cleanup (ctrlOut : nat) ss w : out :=
  foldl (fun w s => CancelWrite s Unspecified w) (CancelWrite ctrlOut Unspecified w) (snd <$> map_to_list ss).

(** [polls] are the results of the successive calls of [ctrlState.next]; where
    they end the loop is still waiting.  The first result is whether the loop
    returned, the second lists the events it handled. *)
Fixpoint ctrl_loop (ctrlOut : nat) (polls : list (option peerCtrlEvent)) ss w
  : bool * list peerCtrlEvent * gmap sessionKey nat * out :=
  match polls with
  | [] => (false, [], ss, w)
  | poll :: polls =>
      let w := (tick w).2 in
      match o_ctx w with
      | Some _ => (true, [], ss, ctrl_cleanup ctrlOut ss w)
      | None =>
          let '(a, w) := tick w in
          match poll, o_ctx w with
          | Some evt, None =>
              let '(ss, w) := handleCtrl ctrlOut evt ss w in
              let '(ret, evs, ss, w) := ctrl_loop ctrlOut polls ss w in
              (ret, evt :: evs, ss, w)
          | None, None => ctrl_loop ctrlOut polls ss w
          | None, Some _ => if a_send a then ctrl_loop ctrlOut polls ss w else (true, [], ss, ctrl_cleanup ctrlOut ss w)
          | Some _, Some _ => (true, [], ss, ctrl_cleanup ctrlOut ss w)
          end
      end
  end.

Definition runCtrlLoop (ctrlOut : nat) (polls : list (option peerCtrlEvent)) w
  : bool * list peerCtrlEvent * gmap sessionKey nat * out := ctrl_loop ctrlOut polls ∅ w.

(** ** Chunks *)

(** A point where the callback on the chunk's deadline context may run. *)
Definition chunk_callback (s : nat) w : out :=
  let '(a, w) := tick w in
  let late := if a_late a then Some CtxDeadline else None in
  match o_ctx w, late with
  | None, None => w
  | c, l => if a_fire a then CancelWrite s (streamFailureCode (l, c)) w else w
  end.

Definition chunk_header (e : peerSendChunk) : Chunk_Header :=
  mk_Chunk_Header (sc_channelID e) (sc_messageID e) (sc_chunkID e) (u32 (Z.of_nat (length (sc_payload e)))).

Definition chunk_head (e : peerSendChunk) (header : bytes) : bytes :=
  AppendFrameHead (AppendFrame [] headerFrame header) dataFrame (Z.of_nat (length (sc_payload e))).

(** A failure after the stream was opened ends it. *)
Definition chunk_fail (s : nat) (err : io_err) w : result error Z * out :=
  (Err ErrChunkWriteFail, chunk_callback s (CancelWrite s (streamFailureCode err) (chunk_callback s w))).

Definition doSendChunk (e : peerSendChunk) w : result error Z * out :=
  let '(a, w) := tick w in
  if a_late a then (Err ErrChunkCancelled, w)
  else
    match OpenUniStream CHUNK w with
    | (None, w) => (Err ErrChunkWriteFail, w)
    | (Some s, w) =>
        let w := chunk_callback s w in
        match w_Marshal (chunk_header e) with
        | Err _ => (Err ErrChunkWriteFail, chunk_callback s (CancelWrite s Unspecified w))
        | Ok header =>
            match Write s (chunk_head e header) w with
            | (Some err, w) => chunk_fail s err w
            | (None, w) =>
                match Write s (sc_payload e) (chunk_callback s w) with
                | (Some err, w) => chunk_fail s err w
                | (None, w) =>
                    match CloseWrite s (chunk_callback s w) with
                    | (Some err, w) => chunk_fail s err w
                    | (None, w) => (Ok (Z.of_nat (length (sc_payload e))), chunk_callback s w)
                    end
                end
            end
        end
    end.

(** The result is posted unless the session or the binding ends first. *)
Definition handleSendChunk (e : peerSendChunk) w : out :=
  let '(r, w) := doSendChunk e w in
  let '(a, w) := tick w in
  let sent := match r with
              | Ok size => mk_sent (sc_messageID e) (sc_peerID e) (sc_handle e) None size
              | Err err => mk_sent (sc_messageID e) (sc_peerID e) (sc_handle e) (Some err) 0
              end in
  if (a_late a || match o_ctx w with Some _ => true | None => false end) && negb (a_send a) then w
  else mk_out (o_clock w) (o_ctx w) (o_next w) (o_streams w) (o_slots w) (o_results w ++ [sent]).
End out.

(** ** What an operation touches *)

(** [w'] differs from [w] in the stream [s], by [R], and in that the context may
    have ended. *)
Record only (s : nat) (R : send_side -> send_side -> Prop) (w w' : out) : Prop := {
  only_next : o_next w' = o_next w;
  only_ctx : forall e, o_ctx w = Some e -> o_ctx w' = Some e;
  only_other : forall s', s' <> s -> o_streams w' !! s' = o_streams w !! s';
  only_this : forall sd, o_streams w !! s = Some sd -> exists sd', o_streams w' !! s = Some sd' /\ R sd sd' }.

Lemma only_trans s (R1 R2 R3 : send_side -> send_side -> Prop) w1 w2 w3 :
  only s R1 w1 w2 -> only s R2 w2 w3 ->
  (forall a b c, o_streams w1 !! s = Some a -> o_streams w2 !! s = Some b -> R1 a b -> R2 b c -> R3 a c) -> only s R3 w1 w3.
Proof.
  intros [N1 C1 O1 T1] [N2 C2 O2 T2] H. split; [congruence|auto| |].
  - intros s' Hs. by rewrite O2, O1.
  - intros sd Hsd. destruct (T1 sd Hsd) as (b & Hb & R). destruct (T2 b Hb) as (c & Hc & R'). eauto.
Qed.

Lemma only_impl s (R1 R2 : send_side -> send_side -> Prop) w1 w2 :
  only s R1 w1 w2 -> (forall a b, o_streams w1 !! s = Some a -> R1 a b -> R2 a b) -> only s R2 w1 w2.
Proof. intros [N C O T] H. split; auto. intros sd Hsd. destruct (T sd Hsd) as (b & ? & ?). eauto. Qed.

Lemma only_then s (R1 R2 : send_side -> send_side -> Prop) w1 w2 w3 :
  only s R1 w1 w2 -> only s R2 w2 w3 -> only s (fun a c => exists b, R1 a b /\ R2 b c) w1 w3.
Proof. intros H1 H2. eapply only_trans; [exact H1|exact H2|]. eauto. Qed.

(** A failing binding may have reset the stream. *)
Definition failed (sd sd' : send_side) : Prop := exists c, failure_code c /\ sd' = side_cancel c sd.
Definition may_fail (sd sd' : send_side) : Prop := sd' = sd \/ failed sd sd'.

Lemma side_cancel_twice c1 c2 sd : side_cancel c2 (side_cancel c1 sd) = side_cancel c1 sd.
Proof. unfold side_cancel. simpl. by destruct (sd_end sd) as [[|]|]. Qed.

Lemma may_fail_trans a b c : may_fail a b -> may_fail b c -> may_fail a c.
Proof.
  intros [->|(c1 & H1 & ->)] [->|(c2 & H2 & ->)]; [by left|by right; exists c2|by right; exists c1|].
  right. exists c1. by rewrite side_cancel_twice.
Qed.

Lemma may_fail_failed a b c : may_fail a b -> failed b c -> failed a c.
Proof.
  intros [->|(c1 & H1 & ->)] (c2 & H2 & ->); [by exists c2|]. exists c1. by rewrite side_cancel_twice.
Qed.

Section facts.
Context (env : environment).
Context `{WS : !Types.Wire Bcast_Subscribe} `{WU : !Types.Wire Bcast_Unsubscribe} `{WO : !Types.Wire Sess_Open} `{WD : !Types.Wire Sess_Update} `{WH : !Types.Wire Chunk_Header}.
Implicit Types (w : out) (ss : gmap sessionKey nat).

Lemma only_refl s w : only s eq w w.
Proof. split; eauto. Qed.

Lemma tick_same w : exists c, (tick env w).2 = mk_out (S (o_clock w)) c (o_next w) (o_streams w) (o_slots w) (o_results w) /\
  forall e, o_ctx w = Some e -> c = Some e.
Proof. unfold tick. eexists. split; [done|]. by intros e ->. Qed.

Lemma tick_only s w : only s eq w (tick env w).2.
Proof. destruct (tick_same w) as (c & -> & Hc). split; simpl; eauto. Qed.

Lemma p_cancel_only s w : only s eq w (p_cancel w) /\ is_Some (o_ctx (p_cancel w)).
Proof. unfold p_cancel. split; [|simpl; by destruct (o_ctx w)]. split; simpl; eauto. by intros e ->. Qed.

Lemma alter_only s f w : only s (fun sd sd' => sd' = f sd) w (on_streams (alter f s) w).
Proof.
  split; simpl; eauto.
  - intros s' Hs. by rewrite lookup_alter_ne.
  - intros sd Hsd. rewrite lookup_alter_eq, Hsd. simpl. eauto.
Qed.

Lemma CancelWrite_only s c w : only s (fun sd sd' => sd' = side_cancel c sd) w (CancelWrite s c w).
Proof. apply alter_only. Qed.

Lemma callback_only s w :
  only s (fun sd sd' => may_fail sd sd' /\ (sd' <> sd -> is_Some (o_ctx (callback env s w)))) w (callback env s w).
Proof.
  unfold callback. destruct (tick env w) as [a w1] eqn:E. pose proof (tick_only s w) as H. rewrite E in H. simpl in H.
  assert (only s (fun sd sd' => sd' = sd) w w1) as H' by (eapply only_impl; [exact H|by intros ? ? _ ->]).
  destruct (o_ctx w1) as [e|] eqn:Ec.
  - destruct (a_fire a).
    + eapply only_trans; [exact H'|apply CancelWrite_only|]. intros x y z _ _ -> ->. split.
      * right. eexists. split; [apply (failure_code_ok e)|done].
      * intros _. simpl. rewrite Ec. by eexists.
    + eapply only_impl; [exact H'|]. intros x y _ ->. split; [by left|done].
  - eapply only_impl; [exact H'|]. intros x y _ ->. split; [by left|done].
Qed.

Lemma callback_may_fail s w : only s may_fail w (callback env s w).
Proof. eapply only_impl; [apply callback_only|]. by intros x y _ [? _]. Qed.

Lemma sendSlot_only s u w : only s eq w (sendSlot env u w).2.
Proof.
  unfold sendSlot. destruct (tick env w) as [a w1] eqn:E. pose proof (tick_only s w) as H. rewrite E in H. simpl in H.
  destruct H as [N C O T]. destruct (o_ctx w1) eqn:Ec; [destruct (a_send a)|]; simpl; split; simpl; eauto; by rewrite Ec.
Qed.

Lemma side_write_nil sd : side_write [] sd = sd.
Proof. destruct sd. unfold side_write. simpl. by rewrite app_nil_r. Qed.

Lemma Write_only s data w :
  only s (fun sd sd' => match (Write env s data w).1 with
                        | None => sd_end sd = None /\ sd' = side_write data sd
                        | Some _ => exists p, p `prefix_of` data /\ sd' = side_write p sd /\ (sd_end sd <> None -> p = [])
                        end) w (Write env s data w).2.
Proof.
  unfold Write. destruct (tick_same w) as (c & E & _). pose proof (tick_only s w) as H.
  destruct (tick env w) as [a w1]. simpl in E, H.
  assert (o_streams w1 = o_streams w) as Es by (by rewrite E).
  destruct (o_streams w1 !! s) as [[pr bs [en|]]|] eqn:El; [|destruct (a_fail a)|]; simpl.
  - eapply only_impl; [exact H|]. intros x y _ ->. exists []. split; [apply prefix_nil|]. by rewrite side_write_nil.
  - eapply only_trans; [exact H|apply alter_only|]. intros x y z Hx _ -> ->. rewrite Es in El. simplify_eq.
    eexists. split; [apply prefix_take|]. by split.
  - eapply only_trans; [exact H|apply alter_only|]. intros x y z Hx _ -> ->. rewrite Es in El. by simplify_eq.
  - eapply only_impl; [exact H|]. intros x y Hx ->. exists []. split; [apply prefix_nil|]. by rewrite side_write_nil.
Qed.

Lemma CloseWrite_only s w :
  only s (fun sd sd' => match (CloseWrite env s w).1 with
                        | None => sd_end sd = None /\ sd' = side_fin sd
                        | Some _ => sd' = sd
                        end) w (CloseWrite env s w).2.
Proof.
  unfold CloseWrite. destruct (tick_same w) as (c & E & _). pose proof (tick_only s w) as H.
  destruct (tick env w) as [a w1]. simpl in E, H.
  assert (o_streams w1 = o_streams w) as Es by (by rewrite E).
  destruct (o_streams w1 !! s) as [[pr bs [en|]]|] eqn:El; [|destruct (a_fail a)|]; simpl;
    try (eapply only_impl; [exact H|by intros x y _ ->]).
  eapply only_trans; [exact H|apply alter_only|]. intros x y z Hx _ -> ->. rewrite Es in El. by simplify_eq.
Qed.

Lemma writeFrame_only {M} `{WM : !Types.Wire M} s typ (msg : M) w :
  only s (fun sd sd' => match (writeFrame env s typ msg w).1 with
                        | None => sd_end sd = None /\ sd' = side_write (frame_of typ msg) sd /\ frame_of typ msg <> []
                        | Some _ => exists p, p `prefix_of` frame_of typ msg /\ sd' = side_write p sd /\ (sd_end sd <> None -> p = [])
                        end) w (writeFrame env s typ msg w).2.
Proof.
  unfold writeFrame, frame_of, Reader.writeFrame. destruct (w_Marshal msg) as [data|e]; simpl.
  - pose proof (Write_only s (AppendFrame [] typ data) w) as H. destruct (Write env s _ w) as [[e|] w']; [exact H|].
    eapply only_impl; [exact H|]. intros x y _ [? ?]. split_and!; [done|done|apply AppendFrame_nonempty].
  - eapply only_impl; [apply only_refl|]. intros x y _ ->. exists []. by rewrite side_write_nil.
Qed.

(** The stream is ended: with its FIN when nothing failed. *)
Lemma close_or_cancel_only s w :
  only s (fun sd sd' => (sd_end sd = None /\ sd' = side_fin sd) \/ failed sd sd') w (close_or_cancel env s w).
Proof.
  unfold close_or_cancel. pose proof (CloseWrite_only s w) as H. destruct (CloseWrite env s w) as [[e|] w1]; simpl in H.
  - eapply only_trans; [exact H|apply CancelWrite_only|]. intros x y z _ _ -> ->. right. eexists. split; [|done].
    apply failure_code_ok.
  - eapply only_impl; [exact H|]. intros x y _ [? ?]. by left.
Qed.

(** An ended side stays as it is; an open one may have been reset. *)
Definition worse (a b : option stream_end) : Prop :=
  b = a \/ a = None /\ exists c, failure_code c /\ b = Some (Reset c).

Lemma may_fail_worse sd sd' : may_fail sd sd' -> sd_end sd <> Some Fin ->
  sd_protocol sd' = sd_protocol sd /\ sd_bytes sd' = sd_bytes sd /\ worse (sd_end sd) (sd_end sd').
Proof.
  intros [->|(c & Hc & ->)] Hf; [by split_and!; [| |left]|]. simpl. split; [done|]. split; [done|].
  destruct (sd_end sd) as [[|c']|]; [done|by left|right]. eauto.
Qed.

Lemma worse_trans a b c : worse a b -> worse b c -> worse a c.
Proof. intros [->|(-> & x & Hx & ->)] [->|(? & y & Hy & ->)]; unfold worse; naive_solver. Qed.

Definition written (ok : bool) (f : bytes) (w' : out) (sd sd' : send_side) : Prop :=
  sd_end sd <> Some Fin ->
  sd_protocol sd' = sd_protocol sd /\ worse (sd_end sd) (sd_end sd') /\
  (if ok then sd_end sd = None /\ sd_bytes sd' = sd_bytes sd ++ f /\ (sd_end sd' = None \/ is_Some (o_ctx w')) /\ f <> []
   else exists p, p `prefix_of` f /\ sd_bytes sd' = sd_bytes sd ++ p /\ (sd_end sd <> None -> p = [])).

Lemma guardedWrite_only {M} `{WM : !Types.Wire M} s typ (msg : M) w :
  let r := guardedWrite env s typ msg w in
  only s (written (match r.1 with None => true | Some _ => false end) (frame_of typ msg) r.2) w r.2.
Proof.
  unfold guardedWrite. set (w1 := callback env s w). pose proof (callback_may_fail s w) as H1. fold w1 in H1.
  pose proof (writeFrame_only s typ msg w1) as H2. destruct (writeFrame env s typ msg w1) as [err w2]. simpl in H2 |- *.
  pose proof (callback_only s w2) as H3. set (w3 := callback env s w2) in *.
  eapply only_impl; [exact (only_then _ _ _ _ _ _ H1 (only_then _ _ _ _ _ _ H2 H3))|].
  intros a d _ (b & Hab & b2 & Hw & Hm & Hx) Hf.
  destruct (may_fail_worse a b Hab Hf) as (P1 & B1 & E1).
  assert (sd_end b <> Some Fin) as Hf1 by (destruct E1 as [->|(_ & ? & _ & ->)]; done).
  assert (sd_protocol b2 = sd_protocol b /\ sd_end b2 = sd_end b) as [P2 E2] by (destruct err; naive_solver).
  assert (sd_end b2 <> Some Fin) as Hf2 by congruence.
  destruct (may_fail_worse b2 d Hm Hf2) as (P3 & B3 & E3).
  split; [congruence|]. split; [eapply worse_trans; [exact E1|]; by rewrite <-E2|].
  destruct err as [er|].
  - destruct Hw as (p & Hp & -> & Hn). exists p. split; [done|]. split; [rewrite B3; simpl; by rewrite B1|].
    intros Ha. apply Hn. destruct E1 as [->|(? & _)]; done.
  - destruct Hw as (Hb0 & -> & Hne). split; [destruct E1 as [<-|(-> & _)]; done|]. split; [rewrite B3; simpl; by rewrite B1|].
    split; [|done]. destruct (decide (sd_end d = None)) as [|Hd]; [by left|right]. apply Hx. intros ->. by simpl in Hd.
Qed.
End facts.

(** ** What the streams carry *)

(** Events that end the SESS stream of [key]. *)
Definition retires (key : sessionKey) (ev : peerCtrlEvent) : bool :=
  match ev with
  | EvOpenSession e => bool_decide (po_key e = key)
  | EvCloseSession k | EvCloseStream k => bool_decide (k = key)
  | _ => false
  end.
Definition quiet_for (key : sessionKey) (evs : list peerCtrlEvent) : Prop := Forall (fun ev => retires key ev = false) evs.

Definition update_of (key : sessionKey) (ev : peerCtrlEvent) : option bytes :=
  match ev with EvSendRouting r => if decide (pr_key r = key) then Some (pr_update r) else None | _ => None end.

Section script.
Context `{WS : !Types.Wire Bcast_Subscribe} `{WU : !Types.Wire Bcast_Unsubscribe} `{WO : !Types.Wire Sess_Open} `{WD : !Types.Wire Sess_Update}.

(** The OPEN frame and an UPDATE frame for each routing event of the session. *)
Definition sess_script (e : peerOpenSession) (evs : list peerCtrlEvent) : bytes :=
  frame_of openFrame (open_msg e) ++ mjoin ((fun u => frame_of updateFrame (mk_Sess_Update u)) <$> omap (update_of (po_key e)) evs).

Definition ctrl_frame (ev : peerCtrlEvent) : bytes :=
  match ev with
  | CtrlOut.EvSubscribe id => frame_of subscribeFrame (mk_Subscribe id)
  | CtrlOut.EvUnsubscribe id => frame_of unsubscribeFrame (mk_Unsubscribe id)
  | _ => []
  end.
(** A frame for each subscription and unsubscription; the messages of the
    events in question have an encoding. *)
Definition ctrl_script (evs : list peerCtrlEvent) : bytes := mjoin (ctrl_frame <$> evs).

Definition ctrl_encoded (ev : peerCtrlEvent) : Prop :=
  match ev with CtrlOut.EvSubscribe _ | CtrlOut.EvUnsubscribe _ => ctrl_frame ev <> [] | _ => True end.
Definition sess_encoded (e : peerOpenSession) (evs : list peerCtrlEvent) : Prop :=
  frame_of openFrame (open_msg e) <> [] /\
  Forall (fun u => frame_of updateFrame (mk_Sess_Update u) <> []) (omap (update_of (po_key e)) evs).

Lemma sess_encoded_app e evs ev : update_of (po_key e) ev = None -> sess_encoded e evs -> sess_encoded e (evs ++ [ev]).
Proof. intros Hu [? ?]. split; [done|]. rewrite omap_app. simpl. by rewrite Hu, app_nil_r. Qed.

Lemma sess_encoded_update e evs r : pr_key r = po_key e -> frame_of updateFrame (mk_Sess_Update (pr_update r)) <> [] ->
  sess_encoded e evs -> sess_encoded e (evs ++ [EvSendRouting r]).
Proof.
  intros Hk Hn [? ?]. split; [done|]. rewrite omap_app. simpl. rewrite decide_True by done.
  apply Forall_app. split; [done|]. by apply Forall_singleton.
Qed.

Lemma sess_script_app e evs ev : update_of (po_key e) ev = None -> sess_script e (evs ++ [ev]) = sess_script e evs.
Proof. intros Hu. unfold sess_script. rewrite omap_app. simpl. by rewrite Hu, app_nil_r. Qed.

Lemma sess_script_update e evs r : pr_key r = po_key e ->
  sess_script e (evs ++ [EvSendRouting r]) = sess_script e evs ++ frame_of updateFrame (mk_Sess_Update (pr_update r)).
Proof.
  intros Hk. unfold sess_script. rewrite omap_app. simpl. rewrite decide_True by done.
  rewrite fmap_app, join_app. simpl. by rewrite app_nil_r, app_assoc.
Qed.

Lemma ctrl_script_app evs ev : ctrl_script (evs ++ [ev]) = ctrl_script evs ++ ctrl_frame ev.
Proof. unfold ctrl_script. rewrite fmap_app, join_app. simpl. by rewrite app_nil_r. Qed.

(** [s] is the SESS stream of the open event [e], after the events [h]. *)
Definition is_live (h : list peerCtrlEvent) (w : out) (key : sessionKey) (s : nat) : Prop :=
  exists e pre mid sd, po_key e = key /\ h = pre ++ EvOpenSession e :: mid /\ (quiet_for key mid /\ sess_encoded e mid) /\
    o_streams w !! s = Some sd /\ sd_protocol sd = SESS /\ sd_bytes sd = sess_script e mid /\
    match sd_end sd with
    | None => True
    | Some Fin => False
    | Some (Reset c) => failure_code c /\ is_Some (o_ctx w)
    end.

(** A stream that was ended carries a part of its session's frames: all of them
    when it was closed or reset with [Reconstructed], which only the event that
    retires the session does. *)
Definition is_ended (h : list peerCtrlEvent) (w : out) (s : nat) : Prop :=
  exists e pre mid post sd en, h = pre ++ EvOpenSession e :: mid ++ post /\ quiet_for (po_key e) mid /\
    o_streams w !! s = Some sd /\ sd_protocol sd = SESS /\ sd_end sd = Some en /\
    (sd_bytes sd = [] \/ sess_encoded e mid /\ sd_bytes sd `prefix_of` sess_script e mid) /\
    match en with
    | Fin => (sess_encoded e mid /\ sd_bytes sd = sess_script e mid) /\
        exists ev post', post = ev :: post' /\ retires (po_key e) ev = true /\ ev <> EvCloseStream (po_key e)
    | Reset c => failure_code c \/
        c = Reconstructed /\ sd_bytes sd = sess_script e mid /\ exists post', post = EvCloseStream (po_key e) :: post'
    end.

(** The control stream carries a frame for every event handled, until it is
    reset because the binding ends. *)
Definition ctrl_live (h : list peerCtrlEvent) (w : out) (c : nat) : Prop :=
  exists sd h', o_streams w !! c = Some sd /\ sd_protocol sd = BCAST /\
    (h' `prefix_of` h /\ Forall ctrl_encoded h' /\ sd_bytes sd `prefix_of` ctrl_script h') /\
    match sd_end sd with
    | None => h' = h /\ sd_bytes sd = ctrl_script h
    | Some Fin => False
    | Some (Reset c) => failure_code c /\ is_Some (o_ctx w)
    end.

Record ctrl_inv (c : nat) (h : list peerCtrlEvent) (ss : gmap sessionKey nat) (w : out) : Prop := {
  ci_bound : forall s, is_Some (o_streams w !! s) -> (s < o_next w)%nat;
  ci_ctrl : ctrl_live h w c;
  ci_live : forall key s, ss !! key = Some s -> s <> c /\ is_live h w key s;
  ci_inj : forall k1 k2 s, ss !! k1 = Some s -> ss !! k2 = Some s -> k1 = k2;
  ci_ended : forall s, is_Some (o_streams w !! s) -> s <> c -> (forall key, ss !! key <> Some s) -> is_ended h w s }.

(** ** Preservation *)

Lemma is_live_keep h w w' key s ev :
  is_live h w key s -> retires key ev = false -> update_of key ev = None ->
  o_streams w' !! s = o_streams w !! s -> (forall e, o_ctx w = Some e -> o_ctx w' = Some e) ->
  is_live (h ++ [ev]) w' key s.
Proof.
  intros (e & pre & mid & sd & Hk & -> & Hq & Hs & Hp & Hb & He) Hr Hu Hsame Hctx. subst key.
  exists e, pre, (mid ++ [ev]), sd. split; [done|]. split; [by rewrite <-app_assoc|]. split; [destruct Hq; split; [apply Forall_app; split; [done|by apply Forall_singleton]|by apply sess_encoded_app]|].
  split; [by rewrite Hsame|]. split; [done|]. split; [by rewrite sess_script_app|].
  destruct (sd_end sd) as [[|c]|]; [done| |done]. destruct He as [? [x Hx]]. split; [done|]. exists x. by apply Hctx.
Qed.

Lemma is_ended_keep h w w' s ev :
  is_ended h w s -> o_streams w' !! s = o_streams w !! s -> is_ended (h ++ [ev]) w' s.
Proof.
  intros (e & pre & mid & post & sd & en & -> & Hq & Hs & Hp & He & Hb & Hm) Hsame.
  exists e, pre, mid, (post ++ [ev]), sd, en. split; [by rewrite <-app_assoc; simpl; rewrite <-app_assoc|]. rewrite Hsame.
  do 5 (split; [done|]). destruct en as [|c].
  - destruct Hm as (? & ev' & post' & -> & ? & ?). split; [done|]. by exists ev', (post' ++ [ev]).
  - destruct Hm as [Hm|(? & ? & post' & ->)]; [by left|right]. split; [done|]. split; [done|]. by exists (post' ++ [ev]).
Qed.

Lemma is_live_retired h w w' key s ev sd sd' :
  is_live h w key s -> o_streams w !! s = Some sd -> o_streams w' !! s = Some sd' ->
  retires key ev = true ->
  (sd_end sd = None /\ sd' = side_fin sd /\ ev <> EvCloseStream key) \/ failed sd sd' \/ (sd' = side_cancel Reconstructed sd /\ ev = EvCloseStream key) ->
  is_ended (h ++ [ev]) w' s.
Proof.
  intros (e & pre & mid & sd0 & Hk & -> & Hq & Hs & Hp & Hb & He) Hs0 Hs' Hr Hcase. assert (sd0 = sd) as -> by congruence. subst key.
  exists e, pre, mid, [ev], sd'.
  destruct Hcase as [(H1 & -> & Hne)|[(c & Hc & ->)|[-> ->]]].
  - exists Fin. split; [by rewrite <-app_assoc|]. split; [by destruct Hq|]. do 3 (split; [done|]). destruct Hq as [_ Hq].
    split; [right; split; [done|simpl; by rewrite Hb]|]. simpl. rewrite Hb. split; [done|]. eauto.
  - unfold side_cancel in Hs' |- *. rewrite Hb in *. destruct (sd_end sd) as [[|c']|]; [done|exists (Reset c')|exists (Reset c)];
      (split; [by rewrite <-app_assoc|]); destruct Hq; do 4 (split; [done|]); (split; [by right|]); left; [by destruct He|done].
  - unfold side_cancel in Hs' |- *. rewrite Hb in *. destruct (sd_end sd) as [[|c']|]; [done|exists (Reset c')|exists (Reset Reconstructed)];
      (split; [by rewrite <-app_assoc|]); destruct Hq; do 4 (split; [done|]); (split; [by right|]); [left; by destruct He|right; eauto].
Qed.

Lemma ctrl_live_keep h w w' c ev :
  ctrl_live h w c -> ctrl_frame ev = [] -> ctrl_encoded ev -> o_streams w' !! c = o_streams w !! c ->
  (forall e, o_ctx w = Some e -> o_ctx w' = Some e) -> ctrl_live (h ++ [ev]) w' c.
Proof.
  intros (sd & h' & Hs & Hp & (Hh & Hen & Hb) & He) Hf Hev Hsame Hctx.
  destruct (sd_end sd) as [[|x]|] eqn:E; [done| |].
  - exists sd, h'. rewrite Hsame. split; [done|]. split; [done|]. split; [split_and!; [by apply prefix_app_r|done|done]|]. rewrite E.
    destruct He as [? [y Hy]]. split; [done|]. exists y. auto.
  - destruct He as [-> Hb']. exists sd, (h ++ [ev]). rewrite Hsame, E, ctrl_script_app, Hf, app_nil_r. split; [done|]. split; [done|].
    split; [|done]. split; [done|]. split; [|done]. apply Forall_app. split; [done|]. by apply Forall_singleton.
Qed.

(** What a handler for [key] leaves of the invariant to check: the session's old
    stream and the stream it may have opened. *)
Definition settled (h : list peerCtrlEvent) (ss' : gmap sessionKey nat) (w' : out) (key : sessionKey) (s : nat) : Prop :=
  (ss' !! key = Some s /\ is_live h w' key s) \/ (ss' !! key <> Some s /\ is_ended h w' s).

Record handles (h : list peerCtrlEvent) (ev : peerCtrlEvent) (key : sessionKey) (ss : gmap sessionKey nat) (w : out) (ss' : gmap sessionKey nat) (w' : out) : Prop := {
  hd_keys : forall k, k <> key -> ss' !! k = ss !! k;
  hd_ctx : forall e, o_ctx w = Some e -> o_ctx w' = Some e;
  hd_next : (o_next w <= o_next w')%nat;
  hd_same : forall s, ss !! key <> Some s -> (s < o_next w)%nat -> o_streams w' !! s = o_streams w !! s;
  hd_old : forall s, ss !! key = Some s -> settled (h ++ [ev]) ss' w' key s;
  hd_new : forall s, (o_next w <= s)%nat -> is_Some (o_streams w' !! s) -> (s < o_next w')%nat /\ settled (h ++ [ev]) ss' w' key s;
  hd_mine : forall s, ss' !! key = Some s -> ss !! key = Some s \/ (o_next w <= s)%nat /\ is_Some (o_streams w' !! s) }.

Lemma handles_inv c h ev key ss w ss' w' :
  ctrl_inv c h ss w ->
  (forall k, k <> key -> retires k ev = false /\ update_of k ev = None) -> ctrl_frame ev = [] -> ctrl_encoded ev ->
  handles h ev key ss w ss' w' -> ctrl_inv c (h ++ [ev]) ss' w'.
Proof.
  intros [Hb Hc Hl Hi He] Hev Hf Henc [K X N S O W M].
  assert (c < o_next w)%nat as Hcn by (apply Hb; destruct Hc as (sd & ? & -> & _); by eexists).
  assert (ss !! key <> Some c) as Hck by (intros Hk; by destruct (Hl _ _ Hk)).
  assert (forall k s, ss !! k = Some s -> (s < o_next w)%nat) as Hlt.
  { intros k s Hk. destruct (Hl k s Hk) as (_ & e & pre & mid & sd & _ & _ & _ & Hs & _). apply Hb. by rewrite Hs. }
  assert (forall k s, k <> key -> ss !! k = Some s -> ss !! key <> Some s) as Hne.
  { intros k s Hk Hs Hs'. apply Hk. by apply (Hi k key s). }
  split.
  - intros s Hs. destruct (decide (o_next w <= s)%nat) as [Hle|Hlt']; [by apply W|lia].
  - apply (ctrl_live_keep h w); [done|done|done| |done]. by apply S.
  - intros k s Hk. destruct (decide (k = key)) as [->|Hkk].
    + destruct (M s Hk) as [Ho|[Hn Hs]].
      * split; [by apply (Hl key)|]. by destruct (O s Ho) as [[_ ?]|[? _]].
      * split; [intros ->; lia|]. by destruct (proj2 (W s Hn Hs)) as [[_ ?]|[? _]].
    + rewrite K in Hk by done. destruct (Hl k s Hk) as [? Hlive]. split; [done|]. destruct (Hev k Hkk).
      apply (is_live_keep h w); [done|done|done| |done]. apply S; [by apply (Hne k)|by apply (Hlt k)].
  - assert (forall k s, k <> key -> ss' !! k = Some s -> ss' !! key = Some s -> False) as Hcross.
    { intros k s Hk Hs Hs'. rewrite K in Hs by done. destruct (M s Hs') as [Ho|[Hn _]].
      - by apply (Hne k s Hk Hs).
      - pose proof (Hlt k s Hs). lia. }
    intros k1 k2 s H1 H2. destruct (decide (k1 = key)) as [->|], (decide (k2 = key)) as [->|]; [done| | |].
    + destruct (Hcross k2 s); done.
    + destruct (Hcross k1 s); done.
    + rewrite K in H1, H2 by done. by apply (Hi k1 k2 s).
  - intros s Hs Hsc Hno. destruct (decide (o_next w <= s)%nat) as [Hle|Hlt'].
    + destruct (W s Hle Hs) as [_ [[Hk _]|[_ ?]]]; [by destruct (Hno key)|done].
    + destruct (decide (ss !! key = Some s)) as [Ho|Ho].
      * destruct (O s Ho) as [[Hk _]|[_ ?]]; [by destruct (Hno key)|done].
      * assert (o_streams w' !! s = o_streams w !! s) as Hsame by (apply S; [done|lia]).
        apply (is_ended_keep h w); [|done]. apply He; [by rewrite <-Hsame|done|].
        intros k Hk. destruct (decide (k = key)) as [->|]; [done|]. apply (Hno k). by rewrite K.
Qed.
End script.

Section handlers.
Context (env : environment).
Context `{WS : !Types.Wire Bcast_Subscribe} `{WU : !Types.Wire Bcast_Unsubscribe} `{WO : !Types.Wire Sess_Open} `{WD : !Types.Wire Sess_Update} `{WH : !Types.Wire Chunk_Header}.
Implicit Types (w : out) (ss : gmap sessionKey nat).

(** A handler that opens nothing and removes the session's entry. *)
Lemma handles_removed h ev key ss w w' s0 R :
  (forall s, is_Some (o_streams w !! s) -> (s < o_next w)%nat) ->
  ss !! key = Some s0 -> is_live h w key s0 -> only s0 R w w' ->
  (forall sd sd', o_streams w !! s0 = Some sd -> o_streams w' !! s0 = Some sd' -> R sd sd' -> is_ended (h ++ [ev]) w' s0) ->
  handles h ev key ss w (delete key ss) w'.
Proof.
  intros Hb Hk Hl [N X S T] He.
  assert (exists sd, o_streams w !! s0 = Some sd) as [sd Hsd] by (destruct Hl as (? & ? & ? & sd & _ & _ & _ & ? & _); eauto).
  destruct (T sd Hsd) as (sd' & Hsd' & HR).
  split; [| done | lia | | | |].
  - intros k Hkk. by apply lookup_delete_ne.
  - intros s Hs _. apply S. congruence.
  - intros s Hs. simplify_eq. right. split; [by rewrite lookup_delete_eq|]. by apply (He sd sd').
  - intros s Hs [x Hx]. exfalso. destruct (decide (s = s0)) as [->|].
    + assert (s0 < o_next w)%nat by (apply Hb; by rewrite Hsd). lia.
    + rewrite S in Hx by done. assert (s < o_next w)%nat by (apply Hb; by rewrite Hx). lia.
  - intros s. by rewrite lookup_delete_eq.
Qed.

(** A handler that finds no entry and touches no stream. *)
Lemma handles_nothing h ev key ss ss' w w' :
  (forall s, is_Some (o_streams w !! s) -> (s < o_next w)%nat) ->
  ss !! key = None -> (forall k, ss' !! k = ss !! k) ->
  o_streams w' = o_streams w -> o_next w' = o_next w -> (forall e, o_ctx w = Some e -> o_ctx w' = Some e) ->
  handles h ev key ss w ss' w'.
Proof.
  intros Hb Hk Hss Hs Hn Hx. split; [by intros k _|done|lia|by rewrite Hs| | |].
  - by rewrite Hk.
  - rewrite Hs. intros s Hle Hss'. apply Hb in Hss'. lia.
  - intros s. by rewrite Hss, Hk.
Qed.

Lemma is_ended_same h w w' s : is_ended h w s -> o_streams w' !! s = o_streams w !! s -> is_ended h w' s.
Proof. unfold is_ended. by intros H ->. Qed.

Lemma handles_then h ev key ss w ss1 w1 ss2 w2 :
  ss1 !! key = None -> (forall s, is_Some (o_streams w !! s) -> (s < o_next w)%nat) ->
  (forall s, ss !! key = Some s -> (s < o_next w)%nat) ->
  handles h ev key ss w ss1 w1 -> handles h ev key ss1 w1 ss2 w2 -> handles h ev key ss w ss2 w2.
Proof.
  intros Hk Hb Hlt [K1 X1 N1 S1 O1 W1 M1] [K2 X2 N2 S2 O2 W2 M2].
  assert (forall s, (s < o_next w1)%nat -> settled (h ++ [ev]) ss1 w1 key s -> settled (h ++ [ev]) ss2 w2 key s) as Hc.
  { intros s Hs [[Hk' _]|[_ He]]; [congruence|]. right. split.
    - intros Hk2. destruct (M2 s Hk2) as [?|[? _]]; [congruence|lia].
    - apply (is_ended_same _ w1); [done|]. apply S2; [congruence|done]. }
  split; [|auto|lia| | | |].
  - intros k Hkk. by rewrite K2, K1.
  - intros s Hs Hn. rewrite S2; [by apply S1|congruence|lia].
  - intros s Hs. pose proof (Hlt s Hs). apply Hc; [lia|]. by apply O1.
  - intros s Hs Hss. destruct (decide (o_next w1 <= s)%nat) as [Hle|Hle]; [by apply W2|].
    assert (is_Some (o_streams w1 !! s)) as Hs1 by (rewrite <-(S2 s); [done|congruence|lia]).
    split; [lia|]. apply Hc; [lia|]. by apply W1.
  - intros s Hs. destruct (M2 s Hs) as [?|[? ?]]; [congruence|right]. split; [lia|done].
Qed.

Lemma only_streams s w w' : only s eq w w' -> is_Some (o_streams w !! s) -> o_streams w' = o_streams w.
Proof.
  intros [_ _ S T] [sd Hsd]. apply map_eq. intros s'. destruct (decide (s' = s)) as [->|]; [|by apply S].
  destruct (T sd Hsd) as (sd' & -> & ->). done.
Qed.

Lemma tick_facts w : o_streams (tick env w).2 = o_streams w /\ o_next (tick env w).2 = o_next w /\
  (forall e, o_ctx w = Some e -> o_ctx (tick env w).2 = Some e).
Proof. destruct (tick_same env w) as (c & -> & Hc). by split_and!. Qed.

Lemma sendSlot_facts u w : o_streams (sendSlot env u w).2 = o_streams w /\ o_next (sendSlot env u w).2 = o_next w /\
  (forall e, o_ctx w = Some e -> o_ctx (sendSlot env u w).2 = Some e).
Proof.
  unfold sendSlot. pose proof (tick_facts w) as H. destruct (tick env w) as [a w1]. simpl in H.
  destruct H as (H1 & H2 & H3). destruct (o_ctx w1) eqn:E; [destruct (a_send a)|]; simpl; rewrite ?E; by split_and!.
Qed.

(** The stream of a new session, after its OPEN frame. *)
Lemma fresh_live h e w w' s sd :
  o_streams w' !! s = Some sd -> sd_protocol sd = SESS -> sd_bytes sd = frame_of openFrame (open_msg e) ->
  worse None (sd_end sd) -> (sd_end sd = None \/ is_Some (o_ctx w')) -> frame_of openFrame (open_msg e) <> [] ->
  is_live (h ++ [EvOpenSession e]) w' (po_key e) s.
Proof.
  intros Hs Hp Hb Hw Hx Hn. exists e, h, [], sd. split; [done|]. split; [done|]. split; [split; [by apply Forall_nil|split; [done|by apply Forall_nil]]|].
  split; [done|]. split; [done|]. split; [unfold sess_script; simpl; by rewrite app_nil_r|].
  destruct Hw as [->|(_ & c & Hc & Hc')]; [done|]. rewrite Hc' in *. split; [done|]. by destruct Hx.
Qed.

Lemma fresh_ended h e w' s sd en :
  o_streams w' !! s = Some sd -> sd_protocol sd = SESS -> sd_bytes sd `prefix_of` frame_of openFrame (open_msg e) ->
  sd_end sd = Some (Reset en) -> failure_code en ->
  is_ended (h ++ [EvOpenSession e]) w' s.
Proof.
  intros Hs Hp Hb He Hne. exists e, h, [], [], sd, (Reset en). split; [done|]. split; [by apply Forall_nil|].
  split; [done|]. split; [done|]. split; [done|]. split; [|by left].
  destruct (sd_bytes sd) as [|b bs] eqn:Eb; [by left|right]. unfold sess_script. simpl. rewrite app_nil_r. split; [|done].
  split; [|by apply Forall_nil]. intros E. rewrite E in Hb. by apply prefix_nil_inv in Hb.
Qed.

(** A stream opened at [w] that the handler leaves as the session's. *)
Lemma handles_fresh h ev key ss w ss' w' :
  (forall s, is_Some (o_streams w !! s) -> (s < o_next w)%nat) -> ss !! key = None ->
  (forall k, k <> key -> ss' !! k = ss !! k) -> (forall e, o_ctx w = Some e -> o_ctx w' = Some e) ->
  o_next w' = S (o_next w) -> (forall s, s <> o_next w -> o_streams w' !! s = o_streams w !! s) ->
  (forall s, ss' !! key = Some s -> s = o_next w /\ is_Some (o_streams w' !! s)) ->
  settled (h ++ [ev]) ss' w' key (o_next w) -> handles h ev key ss w ss' w'.
Proof.
  intros Hb Hk HK Hx Hn Hs Hm Hset. split; [done|done|lia| | | |].
  - intros s _ Hlt. apply Hs. lia.
  - by rewrite Hk.
  - intros s Hle Hss. destruct (decide (s = o_next w)) as [->|]; [split; [lia|done]|].
    rewrite Hs in Hss by done. apply Hb in Hss. lia.
  - intros s Hs'. destruct (Hm s Hs') as [-> ?]. right. split; [lia|done].
Qed.

Lemma open_stream_handles h e ss w :
  (forall s, is_Some (o_streams w !! s) -> (s < o_next w)%nat) -> ss !! po_key e = None ->
  handles h (EvOpenSession e) (po_key e) ss w (open_stream env e ss w).1 (open_stream env e ss w).2.
Proof.
  intros Hb Hk. unfold open_stream, OpenUniStream.
  destruct (tick_facts w) as (T1 & T2 & T3). destruct (tick env w) as [a w1]. simpl in T1, T2, T3.
  destruct (a_fail a) as [er|]; simpl.
  { apply handles_nothing; simpl; try done. intros x Hx. by rewrite (T3 x Hx). }
  rewrite T2. set (s := o_next w). set (w2 := mk_out _ _ _ _ _ _).
  assert (o_streams w2 !! s = Some (mk_side SESS [] None)) as Hs by apply lookup_insert_eq.
  assert (forall s', s' <> s -> o_streams w2 !! s' = o_streams w !! s') as Ho by (intros s' ?; simpl; rewrite T1; by apply lookup_insert_ne).
  pose proof (guardedWrite_only env s openFrame (open_msg e) w2) as H. cbn zeta in H.
  destruct (guardedWrite env s openFrame (open_msg e) w2) as [err w3]. simpl in H. destruct H as [N3 X3 S3 R3].
  destruct (R3 _ Hs) as (sd & Hsd & Hw). destruct (Hw ltac:(done)) as (P & E & B). clear R3 Hw. simpl in P, E, B.
  destruct err as [er|].
  - destruct B as (p & Hp & Hbs & _).
    destruct (p_cancel_only s (CancelWrite s (streamFailureCode er) w3)) as [[N4 X4 S4 R4] _].
    pose proof (alter_only s (side_cancel (streamFailureCode er)) w3) as [N5 X5 S5 R5]. fold (CancelWrite s (streamFailureCode er) w3) in *.
    apply handles_fresh; [done|done|done| | | | |]; cbn [fst snd].
    + auto.
    + by rewrite N4, N5, N3.
    + intros s' Hs'. by rewrite S4, S5, S3, Ho.
    + by rewrite Hk.
    + right. split; [by rewrite Hk|]. destruct (R5 _ Hsd) as (sd5 & Hsd5 & ->). destruct (R4 _ Hsd5) as (sd6 & Hsd6 & <-).
      destruct E as [E|(_ & c & Hc & E)]; eapply fresh_ended; try exact Hsd6; simpl; rewrite ?E; try done; try by rewrite Hbs.
      apply failure_code_ok.
  - destruct B as (_ & Hbs & Hend & Hopen). destruct (sendSlot_facts (mk_slot (po_key e) (Some (po_chunkOutbox e))) w3) as (F1 & F2 & F3).
    destruct (sendSlot env _ w3) as [b w4]. simpl in F1, F2, F3.
    pose proof (callback_only env s w4) as [N5 X5 S5 R5]. rewrite <-F1 in Hsd. destruct (R5 _ Hsd) as (sd5 & Hsd5 & Hm & Hc).
    assert (sd_end sd <> Some Fin) as Hnf by (destruct E as [->|(_ & ? & _ & ->)]; done).
    destruct (may_fail_worse sd sd5 Hm Hnf) as (P5 & B5 & E5).
    apply handles_fresh; [done|done| | | | | |]; cbn [fst snd].
    + intros k Hkk. by apply lookup_insert_ne.
    + auto.
    + by rewrite N5, F2, N3.
    + intros s' Hs'. by rewrite S5, F1, S3, Ho.
    + intros s'. rewrite lookup_insert_eq. intros [= <-]. by rewrite Hsd5.
    + left. split; [apply lookup_insert_eq|]. apply (fresh_live h e w _ s sd5); [done|by rewrite P5|by rewrite B5|by eapply worse_trans| |done].
      destruct (decide (sd5 = sd)) as [->|Hne]; [|right; by apply Hc]. destruct Hend as [?|[x Hx]]; [by left|right]. exists x. auto.
Qed.

Lemma handleSessionOpen_handles h e ss w c :
  ctrl_inv c h ss w ->
  handles h (EvOpenSession e) (po_key e) ss w (handleSessionOpen env e ss w).1 (handleSessionOpen env e ss w).2.
Proof.
  intros [Hb _ Hl _ _]. unfold handleSessionOpen, retire_previous. destruct (ss !! po_key e) as [s0|] eqn:Hk; [|by apply open_stream_handles].
  destruct (Hl _ _ Hk) as [_ Hlive]. pose proof (close_or_cancel_only env s0 w) as Hc. set (w1 := close_or_cancel env s0 w) in *.
  pose proof (sendSlot_only env s0 (mk_slot (po_key e) None) w1) as Hs. destruct (sendSlot env _ w1) as [sent w2]. simpl in Hs.
  pose proof (only_then _ _ _ _ _ _ Hc Hs) as Hcs.
  assert (handles h (EvOpenSession e) (po_key e) ss w (delete (po_key e) ss) w2) as H1.
  { eapply handles_removed; [done|done|done|exact Hcs|]. intros sd sd' H1 H2 (sd1 & Hcase & <-).
    eapply is_live_retired; [exact Hlive|exact H1|exact H2|by apply bool_decide_true|].
    destruct Hcase as [[? ?]|?]; [left; by split_and!|by right; left]. }
  destruct sent; [|exact H1]. cbn [negb].
  assert (forall s, is_Some (o_streams w2 !! s) -> (s < o_next w2)%nat) as Hb2.
  { destruct Hcs as [N _ S R]. rewrite N. intros s [x Hx]. destruct (decide (s = s0)) as [->|Hne].
    - apply Hb. destruct Hlive as (? & ? & ? & sd & _ & _ & _ & -> & _). by eexists.
    - rewrite S in Hx by done. apply Hb. by rewrite Hx. }
  eapply handles_then; [| | |exact H1|apply open_stream_handles; [exact Hb2|apply lookup_delete_eq]].
  - apply lookup_delete_eq.
  - done.
  - intros s Hs'. rewrite Hk in Hs'. simplify_eq. apply Hb. destruct Hlive as (? & ? & ? & sd & _ & _ & _ & -> & _). by eexists.
Qed.

Lemma handleSessionDone_handles h key ss w c :
  ctrl_inv c h ss w ->
  handles h (EvCloseSession key) key ss w (handleSessionDone env key ss w).1 (handleSessionDone env key ss w).2.
Proof.
  intros [Hb _ Hl _ _]. unfold handleSessionDone. simpl. destruct (ss !! key) as [s0|] eqn:Hk.
  - destruct (Hl _ _ Hk) as [_ Hlive].
    eapply handles_removed; [done|done|done|exact (only_then _ _ _ _ _ _ (close_or_cancel_only env s0 w) (sendSlot_only env s0 _ _))|].
    intros sd sd' H1 H2 (sd1 & Hcase & <-). eapply is_live_retired; [exact Hlive|exact H1|exact H2|by apply bool_decide_true|].
    destruct Hcase as [[? ?]|?]; [left; by split_and!|by right; left].
  - destruct (sendSlot_facts (mk_slot key None) w) as (F1 & F2 & F3). apply handles_nothing; try done.
    intros k. destruct (decide (k = key)) as [->|]; [by rewrite lookup_delete_eq|by rewrite lookup_delete_ne].
Qed.

Lemma close_stream_handles h key ss w c :
  ctrl_inv c h ss w ->
  let r := match ss !! key with Some s => (delete key ss, CancelWrite s Reconstructed w) | None => (ss, w) end in
  handles h (EvCloseStream key) key ss w r.1 r.2.
Proof.
  intros [Hb _ Hl _ _]. destruct (ss !! key) as [s0|] eqn:Hk; simpl; [|by apply handles_nothing].
  destruct (Hl _ _ Hk) as [_ Hlive]. eapply handles_removed; [done|done|done|apply CancelWrite_only|].
  intros sd sd' H1 H2 ->. eapply is_live_retired; [exact Hlive|exact H1|exact H2|by apply bool_decide_true|by right; right].
Qed.

(** A stream the update was written to, or that failed on the way. *)
Lemma live_updated h w w' key s r sd sd' :
  is_live h w key s -> pr_key r = key -> o_streams w !! s = Some sd -> o_streams w' !! s = Some sd' ->
  (forall e, o_ctx w = Some e -> o_ctx w' = Some e) ->
  (written true (frame_of updateFrame (mk_Sess_Update (pr_update r))) w' sd sd' -> is_live (h ++ [EvSendRouting r]) w' key s) /\
  (forall sd1 c, written false (frame_of updateFrame (mk_Sess_Update (pr_update r))) w' sd sd1 ->
     failure_code c -> sd' = side_cancel c sd1 -> is_ended (h ++ [EvSendRouting r]) w' s).
Proof.
  intros (e & pre & mid & sd0 & He & -> & Hq & Hs & Hp & Hb & Hend) Hr Hsd Hsd' Hx. assert (sd0 = sd) as -> by congruence. subst key.
  assert (sd_end sd <> Some Fin) as Hnf by (destruct (sd_end sd) as [[|]|]; done).
  destruct Hq as [Hq Hen].
  assert (quiet_for (po_key e) (mid ++ [EvSendRouting r])) as Hq' by (apply Forall_app; split; [done|by apply Forall_singleton]).
  split.
  - intros Hw. destruct (Hw Hnf) as (P & E & Hn & B & Hc & Hne). exists e, pre, (mid ++ [EvSendRouting r]), sd'.
    split; [done|]. split; [by rewrite <-app_assoc|]. split; [split; [done|by apply sess_encoded_update]|]. split; [done|]. split; [congruence|].
    split; [by rewrite B, Hb, sess_script_update|]. rewrite Hn in E. destruct E as [->|(_ & x & Hx' & E)]; [done|].
    rewrite E in *. split; [done|]. by destruct Hc.
  - intros sd1 c Hw Hc ->. destruct (Hw Hnf) as (P & E & p & Hp' & B & Hn).
    assert (exists x, sd_end (side_cancel c sd1) = Some (Reset x) /\ failure_code x) as (x & Hx1 & Hx2).
    { simpl. destruct E as [->|(_ & y & ? & ->)]; [|eauto]. destruct (sd_end sd) as [[|y]|]; [done| |eauto]. exists y. by destruct Hend. }
    destruct p as [|b p].
    + exists e, pre, mid, [EvSendRouting r], (side_cancel c sd1), (Reset x).
      split; [by rewrite <-app_assoc|]. split; [done|]. split; [done|]. split; [simpl; congruence|]. split; [done|].
      split; [|by left]. right. split; [done|]. simpl. by rewrite B, Hb, app_nil_r.
    + exists e, pre, (mid ++ [EvSendRouting r]), [], (side_cancel c sd1), (Reset x).
      split; [by rewrite <-app_assoc, app_nil_r|]. split; [done|]. split; [done|]. split; [simpl; congruence|]. split; [done|].
      split; [|by left]. right. split; [apply sess_encoded_update; [done| |done]; intros Ef; rewrite Ef in Hp'; by apply prefix_nil_inv in Hp'|].
      simpl. rewrite B, Hb, sess_script_update by done. by apply prefix_app.
Qed.

Lemma handleSendRoutingUpdate_handles h r ss w c :
  ctrl_inv c h ss w ->
  handles h (EvSendRouting r) (pr_key r) ss w (handleSendRoutingUpdate env r ss w).1 (handleSendRoutingUpdate env r ss w).2.
Proof.
  intros [Hb _ Hl _ _]. unfold handleSendRoutingUpdate. destruct (ss !! pr_key r) as [s0|] eqn:Hk; [|by apply handles_nothing].
  destruct (Hl _ _ Hk) as [_ Hlive].
  pose proof (guardedWrite_only env s0 updateFrame (mk_Sess_Update (pr_update r)) w) as H. cbn zeta in H.
  destruct (guardedWrite env s0 _ _ w) as [err w1]. simpl in H. destruct err as [er|]; cbn [fst snd].
  - pose proof (only_then _ _ _ _ _ _ H (CancelWrite_only s0 (streamFailureCode er) w1)) as Hc.
    eapply handles_removed; [done|done|done|exact Hc|]. intros sd sd' H1 H2 (sd1 & Hw & ->).
    eapply live_updated; [exact Hlive|done|exact H1|exact H2|apply Hc|exact Hw|apply failure_code_ok|done].
  - assert (exists sd, o_streams w !! s0 = Some sd) as [sd Hsd] by (destruct Hlive as (? & ? & ? & sd & _ & _ & _ & ? & _); eauto).
    destruct H as [N X S R]. destruct (R _ Hsd) as (sd' & Hsd' & Hw).
    split; [done|done|lia| | | |].
    + intros s Hs _. apply S. congruence.
    + intros s Hs. simplify_eq. left. split; [done|]. eapply live_updated; [exact Hlive|done|exact Hsd|exact Hsd'|done|exact Hw].
    + intros s Hle [x Hs]. exfalso. destruct (decide (s = s0)) as [->|].
      * assert (s0 < o_next w)%nat by (apply Hb; by rewrite Hsd). lia.
      * rewrite S in Hs by done. assert (s < o_next w)%nat by (apply Hb; by rewrite Hs). lia.
    + by left.
Qed.

(** The control stream after a write to it. *)
Lemma writeCtrl_inv {M} `{WM : !Types.Wire M} c h ev ss w typ (msg : M) :
  ctrl_inv c h ss w -> ctrl_frame ev = frame_of typ msg ->
  (forall k, retires k ev = false /\ update_of k ev = None) ->
  ctrl_inv c (h ++ [ev]) ss (writeCtrl env c typ msg w).
Proof.
  intros [Hb Hc Hl Hi He] Hf Hev.
  set (w' := writeCtrl env c typ msg w).
  assert (exists R, only c R w w' /\ forall sd sd', o_streams w !! c = Some sd -> o_streams w' !! c = Some sd' -> R sd sd' ->
            ctrl_live (h ++ [ev]) w' c) as (R & [N X S T] & HR).
  { unfold w', writeCtrl. pose proof (guardedWrite_only env c typ msg w) as H. cbn zeta in H.
    destruct (guardedWrite env c typ msg w) as [err w1]. simpl in H.
    destruct Hc as (sd & h' & Hsd & Hp & (Hh & Hen & Hbs) & Hend).
    assert (sd_end sd <> Some Fin) as Hnf by (destruct (sd_end sd) as [[|]|]; done).
    assert (frame_of typ msg <> [] -> Forall ctrl_encoded h -> Forall ctrl_encoded (h ++ [ev])) as Happ.
    { intros Hne Hf'. apply Forall_app. split; [done|]. apply Forall_singleton. rewrite <-Hf in Hne. by destruct ev. }
    destruct err as [er|].
    - set (w2 := CancelWrite c _ w1). pose proof (callback_only env c w2) as H3. set (w3 := callback env c w2) in *.
      destruct (p_cancel_only c w3) as [H4 H5].
      pose proof (only_then _ _ _ _ _ _ (only_then _ _ _ _ _ _ H (CancelWrite_only c (streamFailureCode er) w1)) (only_then _ _ _ _ _ _ H3 H4)) as Hall.
      eexists. split; [exact Hall|]. intros a b Ha Hb' (x & (y & Hw & ->) & z & [Hm _] & <-). assert (a = sd) as -> by congruence.
      destruct (Hw Hnf) as (P & E & p & Hp' & B & Hn).
      assert (exists q, sd_end (side_cancel (streamFailureCode er) y) = Some (Reset q) /\ failure_code q) as (q & Hq1 & Hq2).
      { simpl. pose proof (failure_code_ok er) as Hq0. destruct E as [->|(_ & q & ? & ->)]; [|eauto].
        destruct (sd_end sd) as [[|q]|]; [done| |eauto]. exists q. by destruct Hend. }
      assert (z = side_cancel (streamFailureCode er) y) as ->.
      { destruct Hm as [->|(q' & ? & ->)]; [done|]. by rewrite side_cancel_twice. }
      destruct p as [|b0 p0].
      + exists (side_cancel (streamFailureCode er) y), h'. split; [exact Hb'|]. split; [simpl; congruence|]. rewrite Hq1. split; [|done].
        split; [by apply prefix_app_r|]. split; [done|]. simpl. by rewrite B, app_nil_r.
      + assert (sd_end sd = None) as Hsn by (destruct (sd_end sd); [by discriminate (Hn ltac:(done))|done]).
        rewrite Hsn in Hend. destruct Hend as [-> Hbe].
        assert (frame_of typ msg <> []) as Hne by (intros Ef; rewrite Ef in Hp'; by apply prefix_nil_inv in Hp').
        exists (side_cancel (streamFailureCode er) y), (h ++ [ev]). split; [exact Hb'|]. split; [simpl; congruence|]. rewrite Hq1. split; [|done].
        split; [done|]. split; [by apply Happ|]. simpl. rewrite B, Hbe, ctrl_script_app, Hf. by apply prefix_app.
    - eexists. split; [exact H|]. intros a b Ha Hb' Hw. assert (a = sd) as -> by congruence. destruct (Hw Hnf) as (P & E & Hn & B & Hx & Hne).
      rewrite Hn in E, Hend. destruct Hend as [-> Hbe]. exists b, (h ++ [ev]). split; [done|]. split; [congruence|].
      split; [split_and!; [done|by apply Happ|by rewrite B, Hbe, ctrl_script_app, Hf]|].
      destruct E as [->|(_ & q & Hq & Eq)]; [split; [done|]; by rewrite B, Hbe, ctrl_script_app, Hf|]. rewrite Eq in *. split; [done|]. by destruct Hx. }
  assert (exists sd, o_streams w !! c = Some sd) as [sd Hsd] by (destruct Hc as (sd & ? & ? & _); eauto).
  destruct (T _ Hsd) as (sd' & Hsd' & HRR).
  split.
  - rewrite N. intros s [x Hx]. destruct (decide (s = c)) as [->|]; [apply Hb; by rewrite Hsd|].
    apply Hb. rewrite <-S by done. by rewrite Hx.
  - by apply (HR sd sd').
  - intros k s Hk. destruct (Hl k s Hk) as [Hne Hlive]. split; [done|]. destruct (Hev k). by apply (is_live_keep h w); auto.
  - done.
  - intros s Hs Hne Hno. rewrite S in Hs by done. apply (is_ended_keep h w); [by apply He|by apply S].
Qed.

Lemma handleCtrl_inv c h ev ss w :
  ctrl_inv c h ss w -> ctrl_inv c (h ++ [ev]) (handleCtrl env c ev ss w).1 (handleCtrl env c ev ss w).2.
Proof.
  intros Hi. destruct ev as [e|r|id|id|key|key]; cbn [handleCtrl].
  - apply (handles_inv c h _ (po_key e) ss w); [done| |done|done|by apply (handleSessionOpen_handles h e ss w c)].
    intros k Hk. split; [by apply bool_decide_false|done].
  - apply (handles_inv c h _ (pr_key r) ss w); [done| |done|done|by apply (handleSendRoutingUpdate_handles h r ss w c)].
    intros k Hk. split; [done|]. simpl. by rewrite decide_False.
  - by apply writeCtrl_inv.
  - by apply writeCtrl_inv.
  - apply (handles_inv c h _ key ss w); [done| |done|done|by apply (handleSessionDone_handles h key ss w c)].
    intros k Hk. split; [by apply bool_decide_false|done].
  - apply (handles_inv c h _ key ss w); [done| |done|done|by apply (close_stream_handles h key ss w c)].
    intros k Hk. split; [by apply bool_decide_false|done].
Qed.

Lemma tick_inv c h ss w : ctrl_inv c h ss w -> ctrl_inv c h ss (tick env w).2.
Proof.
  intros [Hb Hc Hl Hi He]. destruct (tick_facts w) as (T1 & T2 & T3). set (w' := (tick env w).2) in *.
  assert (is_Some (o_ctx w) -> is_Some (o_ctx w')) as Hx by (intros [x Hx]; exists x; auto).
  split.
  - by rewrite T1, T2.
  - destruct Hc as (sd & h' & ? & ? & ? & Hend). exists sd, h'. rewrite T1. do 3 (split; [done|]).
    destruct (sd_end sd) as [[|]|]; [done| |done]. destruct Hend. split; [done|]. by apply Hx.
  - intros k s Hk. destruct (Hl k s Hk) as (? & e & pre & mid & sd & ? & ? & ? & ? & ? & ? & Hend). split; [done|].
    exists e, pre, mid, sd. rewrite T1. do 6 (split; [done|]).
    destruct (sd_end sd) as [[|]|]; [done| |done]. destruct Hend. split; [done|]. by apply Hx.
  - done.
  - rewrite T1. intros s Hs Hne Hno. apply (is_ended_same _ w); [by apply He|by rewrite T1].
Qed.

Lemma foldl_cancel_streams l : forall w s sd, o_streams w !! s = Some sd ->
  exists sd', o_streams (foldl (fun w s => CancelWrite s Unspecified w) w l) !! s = Some sd' /\
    sd_bytes sd' = sd_bytes sd /\ sd_protocol sd' = sd_protocol sd /\
    (s ∉ l -> sd' = sd) /\ (s ∈ l -> sd' = side_cancel Unspecified sd).
Proof.
  induction l as [|x l IH]; intros w s sd Hs; simpl.
  { exists sd. do 4 (split; [done|]). by intros ?%elem_of_nil. }
  destruct (decide (s = x)) as [->|Hne].
  - destruct (IH (CancelWrite x Unspecified w) x (side_cancel Unspecified sd)) as (sd' & H1 & H2 & H3 & H4 & H5).
    { simpl. by rewrite lookup_alter_eq, Hs. }
    exists sd'. do 3 (split; [done|]). split; [by intros [? _]%not_elem_of_cons|]. intros _.
    destruct (decide (x ∈ l)) as [Hin|Hin]; [rewrite (H5 Hin); apply side_cancel_twice|by apply H4].
  - destruct (IH (CancelWrite x Unspecified w) s sd) as (sd' & H1 & H2 & H3 & H4 & H5).
    { simpl. by rewrite lookup_alter_ne. }
    exists sd'. do 3 (split; [done|]). split; [intros [_ ?]%not_elem_of_cons; by apply H4|].
    intros [?|?]%elem_of_cons; [done|by apply H5].
Qed.

Lemma foldl_cancel_None l : forall w s, o_streams w !! s = None ->
  o_streams (foldl (fun w s => CancelWrite s Unspecified w) w l) !! s = None.
Proof.
  induction l as [|y l IH]; intros w s Hn; simpl; [done|]. apply IH. simpl.
  destruct (decide (s = y)) as [->|]; [by rewrite lookup_alter_eq, Hn|by rewrite lookup_alter_ne].
Qed.

(** When the loop has returned every stream it opened is ended, and so is its
    control stream. *)
Definition all_ended (c : nat) (h : list peerCtrlEvent) (w : out) : Prop :=
  (exists sd x h', o_streams w !! c = Some sd /\ sd_end sd = Some (Reset x) /\
     h' `prefix_of` h /\ Forall ctrl_encoded h' /\ sd_bytes sd `prefix_of` ctrl_script h') /\
  forall s, is_Some (o_streams w !! s) -> s <> c -> is_ended h w s.

Lemma ctrl_cleanup_ended c h ss w : ctrl_inv c h ss w -> all_ended c h (ctrl_cleanup c ss w).
Proof.
  intros [Hb Hc Hl Hi He]. unfold ctrl_cleanup. set (l := snd <$> map_to_list ss).
  assert (forall s, s ∈ l <-> exists k, ss !! k = Some s) as Hin.
  { intros s. unfold l. rewrite list_elem_of_fmap.
    split; [intros ([k s'] & -> & H); exists k; by apply elem_of_map_to_list|intros [k H]; exists (k, s); split; [done|by apply elem_of_map_to_list]]. }
  set (w1 := CancelWrite c Unspecified w).
  assert (forall s, s <> c -> o_streams w1 !! s = o_streams w !! s) as Hs1 by (intros s ?; simpl; by rewrite lookup_alter_ne).
  assert (c ∉ l) as Hcl by (rewrite Hin; intros [k Hk]; by destruct (Hl k c Hk)).
  split.
  - destruct Hc as (sd & h' & Hsd & _ & (Hh & Hen & Hbs) & Hend). destruct (foldl_cancel_streams l w1 c (side_cancel Unspecified sd)) as (sd' & H1 & H2 & _ & H4 & _).
    { simpl. by rewrite lookup_alter_eq, Hsd. }
    rewrite (H4 Hcl) in H1. simpl in H2. exists (side_cancel Unspecified sd).
    destruct (sd_end sd) as [[|x]|] eqn:E; [done|exists x|exists Unspecified]; exists h'; (split; [done|]); simpl; by rewrite E.
  - intros s [x Hx] Hne. destruct (o_streams w1 !! s) as [sd|] eqn:Hsd.
    2:{ by rewrite foldl_cancel_None in Hx. }
    destruct (foldl_cancel_streams l w1 s sd Hsd) as (sd' & H1 & H2 & H3 & H4 & H5). rewrite Hs1 in Hsd by done.
    destruct (decide (s ∈ l)) as [Hs|Hs].
    + rewrite (H5 Hs) in *. apply Hin in Hs as [k Hk]. destruct (Hl k s Hk) as (_ & e & pre & mid & sd0 & He0 & Hh & Hq & Hs0 & Hp & Hb0 & Hend).
      assert (sd0 = sd) as -> by congruence. subst k.
      exists e, pre, mid, [], (side_cancel Unspecified sd).
      destruct (sd_end sd) as [[|y]|] eqn:E; [done|exists (Reset y)|exists (Reset Unspecified)];
        (split; [by rewrite app_nil_r|]); destruct Hq; (split; [done|]); (split; [done|]); (split; [done|]); simpl; rewrite E, Hb0;
        (split; [done|]); (split; [by right|]); left; [by destruct Hend|by right].
    + apply (is_ended_same _ w); [|by rewrite H1, (H4 Hs), Hsd]. apply He; [by rewrite Hsd|done|].
      intros k Hk. apply Hs, Hin. by exists k.
Qed.

Lemma ctrl_loop_inv c polls : forall h ss w, ctrl_inv c h ss w ->
  let '(ret, evs, ss', w') := ctrl_loop env c polls ss w in
  evs `prefix_of` omap id polls /\
  if ret : bool then all_ended c (h ++ evs) w' else ctrl_inv c (h ++ evs) ss' w' /\ evs = omap id polls.
Proof.
  induction polls as [|poll polls IH]; intros h ss w Hi; cbn [ctrl_loop].
  { split; [done|]. by rewrite app_nil_r. }
  apply tick_inv in Hi. set (w1 := (tick env w).2) in *. pose proof (tick_inv _ _ _ _ Hi) as Hi2.
  destruct (o_ctx w1); [split; [apply prefix_nil|]; rewrite app_nil_r; by apply ctrl_cleanup_ended|].
  destruct (tick env w1) as [a w2]. simpl in Hi2.
  assert (all_ended c (h ++ []) (ctrl_cleanup c ss w2)) as Hret by (rewrite app_nil_r; by apply ctrl_cleanup_ended).
  destruct poll as [evt|], (o_ctx w2) as [e|].
  - split; [apply prefix_nil|done].
  - pose proof (handleCtrl_inv c h evt ss w2 Hi2) as Hi3. destruct (handleCtrl env c evt ss w2) as [ss3 w3]. simpl in Hi3.
    specialize (IH _ _ _ Hi3). destruct (ctrl_loop env c polls ss3 w3) as [[[ret evs] ss4] w4]. simpl.
    rewrite <-app_assoc in IH. simpl in IH. destruct IH as [Hp IH]. split; [by apply prefix_cons|].
    destruct ret; [done|]. destruct IH as [? ->]. done.
  - destruct (a_send a); [|split; [apply prefix_nil|done]]. exact (IH _ _ _ Hi2).
  - exact (IH _ _ _ Hi2).
Qed.
End handlers.

(** ** Chunks *)

Section chunks.
Context (env : environment).
Context `{WS : !Types.Wire Bcast_Subscribe} `{WU : !Types.Wire Bcast_Unsubscribe} `{WO : !Types.Wire Sess_Open} `{WD : !Types.Wire Sess_Update} `{WH : !Types.Wire Chunk_Header}.
Implicit Types (w : out).

Lemma chunk_callback_only s w : only s may_fail w (chunk_callback env s w).
Proof.
  unfold chunk_callback. pose proof (tick_only env s w) as H. destruct (tick env w) as [a w1]. simpl in H.
  assert (only s may_fail w w1) as H' by (eapply only_impl; [exact H|intros x y _ ->; by left]).
  assert (forall c, failure_code c -> only s may_fail w (CancelWrite s c w1)) as Hc.
  { intros c Hc. eapply only_trans; [exact H|apply CancelWrite_only|]. intros x y z _ _ -> ->. right. by exists c. }
  destruct (o_ctx w1), (a_late a), (a_fire a); first [exact H'|apply Hc, failure_code_ok].
Qed.

(** The bytes of a chunk: its HEADER frame and one DATA frame. *)
Definition chunk_bytes (e : peerSendChunk) (header : bytes) : bytes := chunk_head e header ++ sc_payload e.

Lemma chunk_bytes_frames e header :
  chunk_bytes e header = AppendFrame [] headerFrame header ++ AppendFrame [] dataFrame (sc_payload e).
Proof.
  unfold chunk_bytes, chunk_head. unfold AppendFrame at 3. unfold AppendFrameHead.
  rewrite !(AppendUvarint_dst (AppendUvarint _ _)), !(AppendUvarint_dst (AppendFrame _ _ _)). by rewrite <-!app_assoc.
Qed.

(** What a side may be after a failure: reset, its bytes a part of the chunk's. *)
Definition chunk_failed (e : peerSendChunk) (sd : send_side) : Prop :=
  sd_protocol sd = CHUNK /\ (exists c, sd_end sd = Some (Reset c) /\ failure_code c) /\
  (sd_bytes sd = [] \/ exists header, w_Marshal (chunk_header e) = Ok header /\ sd_bytes sd `prefix_of` chunk_bytes e header).

Definition chunk_written (e : peerSendChunk) (sd : send_side) : Prop :=
  sd_protocol sd = CHUNK /\ (exists header, w_Marshal (chunk_header e) = Ok header /\ sd_bytes sd = chunk_bytes e header) /\
  (sd_end sd = Some Fin \/ exists c, sd_end sd = Some (Reset c) /\ failure_code c).

(** The streams after an attempt: nothing else changed, and a stream that was
    opened is ended; it carries the whole chunk when the attempt succeeded. *)
Definition chunk_outcome (e : peerSendChunk) w (r : result error Z) (w' : out) : Prop :=
  (forall s, s <> o_next w -> o_streams w' !! s = o_streams w !! s) /\
  (o_next w <= o_next w')%nat /\ (forall x, o_ctx w = Some x -> o_ctx w' = Some x) /\
  match r with
  | Ok n => n = Z.of_nat (length (sc_payload e)) /\ o_next w' = S (o_next w) /\ exists sd, o_streams w' !! o_next w = Some sd /\ chunk_written e sd
  | Err _ => (o_next w' = o_next w /\ o_streams w' !! o_next w = o_streams w !! o_next w) \/
             (o_next w' = S (o_next w) /\ exists sd, o_streams w' !! o_next w = Some sd /\ chunk_failed e sd)
  end.

(** An open side of a chunk under way. *)
Definition chunk_open (bs : bytes) (sd : send_side) : Prop :=
  sd_protocol sd = CHUNK /\ sd_bytes sd = bs /\ (sd_end sd = None \/ exists c, sd_end sd = Some (Reset c) /\ failure_code c).

Lemma chunk_open_failed bs sd sd' c :
  chunk_open bs sd -> failure_code c -> may_fail (side_cancel c sd) sd' ->
  sd_protocol sd' = CHUNK /\ sd_bytes sd' = bs /\ exists c, sd_end sd' = Some (Reset c) /\ failure_code c.
Proof.
  intros (P & B & E) Hc Hm. assert (sd' = side_cancel c sd) as ->.
  { destruct Hm as [->|(x & _ & ->)]; [done|]. apply side_cancel_twice. }
  simpl. split; [done|]. split; [done|]. destruct E as [->|(x & -> & ?)]; eauto.
Qed.

Lemma chunk_open_callback bs sd sd' : chunk_open bs sd -> may_fail sd sd' -> chunk_open bs sd'.
Proof.
  intros (P & B & E) [->|(c & Hc & ->)]; [done|]. split; [done|]. split; [done|]. simpl. right.
  destruct E as [->|(x & -> & ?)]; eauto.
Qed.

(** A state in which the attempt's stream [o_next w] is at [P]. *)
Definition chunk_at w (P : send_side -> Prop) (w1 : out) : Prop :=
  (forall s, s <> o_next w -> o_streams w1 !! s = o_streams w !! s) /\ o_next w1 = S (o_next w) /\
  (forall x, o_ctx w = Some x -> o_ctx w1 = Some x) /\ exists sd, o_streams w1 !! o_next w = Some sd /\ P sd.

Lemma chunk_at_only w (P Q : send_side -> Prop) R w1 w2 :
  chunk_at w P w1 -> only (o_next w) R w1 w2 -> (forall a b, P a -> R a b -> Q b) -> chunk_at w Q w2.
Proof.
  intros (A & B & C & sd & Hsd & HP) [N X S T] H. split; [intros s Hs; by rewrite S, A|]. split; [congruence|].
  split; [auto|]. destruct (T sd Hsd) as (sd' & ? & ?). eauto.
Qed.

Lemma chunk_at_map w (P : send_side -> Prop) R w1 w2 :
  chunk_at w P w1 -> only (o_next w) R w1 w2 -> chunk_at w (fun b => exists a, P a /\ R a b) w2.
Proof. intros H1 H2. eapply chunk_at_only; [exact H1|exact H2|]. eauto. Qed.

Lemma chunk_at_ok e w w1 : chunk_at w (chunk_written e) w1 -> chunk_outcome e w (Ok (Z.of_nat (length (sc_payload e)))) w1.
Proof. intros (A & B & C & D). split; [done|]. split; [lia|]. by split_and!. Qed.

Lemma chunk_at_err e w w1 err : chunk_at w (chunk_failed e) w1 -> chunk_outcome e w (Err err) w1.
Proof. intros (A & B & C & D). split; [done|]. split; [lia|]. split; [done|]. by right. Qed.

(** [chunk_fail] on a side that has a part of the chunk. *)
Lemma chunk_fail_at e w w1 bs err :
  chunk_at w (chunk_open bs) w1 -> (bs = [] \/ exists header, w_Marshal (chunk_header e) = Ok header /\ bs `prefix_of` chunk_bytes e header) ->
  chunk_outcome e w (chunk_fail env (o_next w) err w1).1 (chunk_fail env (o_next w) err w1).2.
Proof.
  intros Hat Hbs. unfold chunk_fail. apply chunk_at_err.
  pose proof (chunk_at_only _ _ _ _ _ _ Hat (chunk_callback_only _ _) (chunk_open_callback bs)) as H1.
  pose proof (chunk_at_map _ _ _ _ _ H1 (CancelWrite_only _ (streamFailureCode err) _)) as H2.
  eapply chunk_at_only; [exact H2|apply chunk_callback_only|].
  intros a b (x & Hx & ->) Hm.
  destruct (chunk_open_failed bs x b _ Hx (failure_code_ok err) Hm) as (P & B & c & Ec & Hc).
  split; [done|]. split; [eauto|]. by rewrite B.
Qed.

Lemma doSendChunk_outcome e w : o_streams w !! o_next w = None ->
  chunk_outcome e w (doSendChunk env e w).1 (doSendChunk env e w).2.
Proof.
  intros Hfresh. unfold doSendChunk, OpenUniStream.
  assert (forall w1, o_streams w1 = o_streams w -> o_next w1 = o_next w -> (forall x, o_ctx w = Some x -> o_ctx w1 = Some x) ->
    forall err, chunk_outcome e w (Err err) w1) as Hnone.
  { intros w1 E1 E2 E3 err. split; [by intros s _; rewrite E1|]. split; [lia|]. split; [done|]. left. by rewrite E1. }
  destruct (tick_facts env w) as (T1 & T2 & T3). destruct (tick env w) as [a w1]. simpl in T1, T2, T3.
  destruct (a_late a); [by apply Hnone|].
  destruct (tick_facts env w1) as (U1 & U2 & U3). destruct (tick env w1) as [a2 w2]. simpl in U1, U2, U3.
  destruct (a_fail a2); [cbn [fst snd]; apply Hnone; [by rewrite U1|by rewrite U2|auto]|].
  replace (o_next w2) with (o_next w) by congruence. set (s := o_next w). set (w3 := mk_out _ _ _ _ _ _).
  assert (chunk_at w (chunk_open []) w3) as H3.
  { unfold chunk_at, w3. cbn [o_streams o_next o_ctx]. split; [intros s' Hs'; rewrite lookup_insert_ne by done; congruence|].
    split; [done|]. split; [auto|]. eexists. split; [apply lookup_insert_eq|]. split; [done|]. split; [done|]. by left. }
  pose proof (chunk_at_only _ _ _ _ _ _ H3 (chunk_callback_only s w3) (chunk_open_callback [])) as H4.
  set (w4 := chunk_callback env s w3) in *.
  destruct (w_Marshal (chunk_header e)) as [header|er] eqn:Em; cycle 1.
  { apply chunk_at_err. eapply chunk_at_only; [exact (chunk_at_map _ _ _ _ _ H4 (CancelWrite_only _ Unspecified _))|apply chunk_callback_only|].
    intros x y (z & Hz & ->) Hm. destruct (chunk_open_failed [] z y Unspecified Hz ltac:(by right) Hm) as (P & B & c & Ec & Hc).
      split; [done|]. split; [eauto|]. by left. }
  assert (forall bs data wi, chunk_at w (chunk_open bs) wi -> let r := Write env s data wi in
    chunk_at w (fun sd => match r.1 with None => chunk_open (bs ++ data) sd | Some _ => exists p, p `prefix_of` data /\ chunk_open (bs ++ p) sd end) r.2) as Hw.
  { intros bs data wi Hi. eapply chunk_at_only; [exact Hi|apply Write_only|]. intros x y (P & B & E) Hxy.
    destruct (Write env s data wi) as [[er|] wo]; simpl in *.
    - destruct Hxy as (p & Hp & -> & Hn). exists p. split; [done|]. split; [done|]. simpl. by rewrite B.
    - destruct Hxy as [En ->]. split; [done|]. simpl. rewrite B. by split. }
  pose proof (Hw _ (chunk_head e header) _ H4) as H5. destruct (Write env s (chunk_head e header) w4) as [[er|] w5]; cbn [fst snd] in H5.
  { destruct H5 as (A & B & C & sd & Hsd & p & Hp & Ho). apply (chunk_fail_at e w w5 p); [exact (conj A (conj B (conj C (ex_intro _ sd (conj Hsd Ho)))))|].
    right. exists header. split; [done|]. by apply prefix_app_r. }
  pose proof (chunk_at_only _ _ _ _ _ _ H5 (chunk_callback_only s w5) (chunk_open_callback _)) as H6.
  set (w6 := chunk_callback env s w5) in *.
  pose proof (Hw _ (sc_payload e) _ H6) as H7. destruct (Write env s (sc_payload e) w6) as [[er|] w7]; cbn [fst snd] in H7.
  { destruct H7 as (A & B & C & sd & Hsd & p & Hp & Ho). apply (chunk_fail_at e w w7 (chunk_head e header ++ p)); [exact (conj A (conj B (conj C (ex_intro _ sd (conj Hsd Ho)))))|].
    right. exists header. split; [done|]. by apply prefix_app. }
  pose proof (chunk_at_only _ _ _ _ _ _ H7 (chunk_callback_only s w7) (chunk_open_callback _)) as H8.
  set (w8 := chunk_callback env s w7) in *.
  pose proof (CloseWrite_only env s w8) as H9. destruct (CloseWrite env s w8) as [[er|] w9]; cbn [fst snd] in H9.
  { apply (chunk_fail_at e w w9 (chunk_bytes e header)); [|by eauto].
    eapply chunk_at_only; [exact H8|exact H9|]. by intros x y ? ->. }
  apply chunk_at_ok. eapply chunk_at_only; [exact (chunk_at_map _ _ _ _ _ H8 H9)|apply chunk_callback_only|].
  intros x y (z & (P & B & _) & _ & ->) Hm. destruct Hm as [->|(c & Hc & ->)]; simpl;
    (split; [done|]); (split; [by exists header|]); [by left|]. right. by exists c.
Qed.
End chunks.

(** ** The loop as a whole *)

(** The loop's state when it takes over the control stream [c]. *)
Definition fresh_out (c : nat) (w : out) : Prop := o_streams w = {[c := mk_side BCAST [] None]} /\ (c < o_next w)%nat /\ o_slots w = [].

(** The outbox each session is served from: its last open decides until it is
    closed; ending only the stream keeps it. *)
Definition slot_step (m : gmap sessionKey nat) (ev : peerCtrlEvent) : gmap sessionKey nat :=
  match ev with
  | EvOpenSession e => <[po_key e := po_chunkOutbox e]> m
  | EvCloseSession key => delete key m
  | _ => m
  end.

Section whole.
Context (env : environment).
Context `{WS : !Types.Wire Bcast_Subscribe} `{WU : !Types.Wire Bcast_Unsubscribe} `{WO : !Types.Wire Sess_Open} `{WD : !Types.Wire Sess_Update} `{WH : !Types.Wire Chunk_Header}.
Implicit Types (w : out) (ss : gmap sessionKey nat).

Lemma fresh_inv c w : fresh_out c w -> ctrl_inv c [] ∅ w.
Proof.
  intros (Hs & Hn & _). split.
  - rewrite Hs. intros s [x Hx]. apply lookup_singleton_Some in Hx as [<- _]. done.
  - eexists _, []. rewrite Hs, lookup_singleton_eq. split; [done|]. by split_and!.
  - done.
  - done.
  - rewrite Hs. intros s [x Hx] Hne _. by apply lookup_singleton_Some in Hx as [<- _].
Qed.


(** No update is sent, and a context that is alive was alive. *)
Definition mute w w' : Prop := o_slots w' = o_slots w /\ (o_ctx w' = None -> o_ctx w = None).

Lemma mute_trans w1 w2 w3 : mute w1 w2 -> mute w2 w3 -> mute w1 w3.
Proof. intros [] []. split; [congruence|auto]. Qed.
Lemma mute_streams f w : mute w (on_streams f w).
Proof. done. Qed.
Lemma tick_mute w : mute w (tick env w).2.
Proof. split; [done|]. cbn. by destruct (o_ctx w). Qed.
Lemma callback_mute s w : mute w (callback env s w).
Proof.
  unfold callback. pose proof (tick_mute w) as H. destruct (tick env w) as [a w1]. cbn [snd] in H.
  destruct (o_ctx w1) as [e|] eqn:E; [|done]. destruct (a_fire a); [|done]. exact H.
Qed.
Lemma Write_mute s data w : mute w (Write env s data w).2.
Proof.
  unfold Write. pose proof (tick_mute w) as H. destruct (tick env w) as [a w1]. cbn [snd] in H.
  destruct (o_streams w1 !! s) as [[pr bs [en|]]|]; [|destruct (a_fail a)|]; exact H.
Qed.
Lemma CloseWrite_mute s w : mute w (CloseWrite env s w).2.
Proof.
  unfold CloseWrite. pose proof (tick_mute w) as H. destruct (tick env w) as [a w1]. cbn [snd] in H.
  destruct (o_streams w1 !! s) as [[pr bs [en|]]|]; [|destruct (a_fail a)|]; exact H.
Qed.
Lemma guardedWrite_mute {M} `{WM : !Types.Wire M} s typ (msg : M) w : mute w (guardedWrite env s typ msg w).2.
Proof.
  unfold guardedWrite, writeFrame. pose proof (callback_mute s w) as H1. set (w1 := callback env s w) in *.
  destruct (w_Marshal msg) as [data|e]; [|eapply mute_trans; [exact H1|apply callback_mute]].
  pose proof (Write_mute s (AppendFrame [] typ data) w1) as H2. destruct (Write env s _ w1) as [err w2].
  eapply mute_trans; [exact H1|]. eapply mute_trans; [exact H2|]. apply callback_mute.
Qed.
Lemma close_or_cancel_mute s w : mute w (close_or_cancel env s w).
Proof. unfold close_or_cancel. pose proof (CloseWrite_mute s w) as H. destruct (CloseWrite env s w) as [[e|] w1]; exact H. Qed.

Lemma sendSlot_alive u w : o_ctx (sendSlot env u w).2 = None ->
  (sendSlot env u w).1 = true /\ o_slots (sendSlot env u w).2 = o_slots w ++ [u] /\ o_ctx w = None.
Proof.
  unfold sendSlot. pose proof (tick_mute w) as [H1 H2]. destruct (tick env w) as [a w1]. cbn [snd] in H1, H2.
  destruct (o_ctx w1) as [e|] eqn:E; [destruct (a_send a)|]; cbn; intros Hx; [congruence|congruence|]. split_and!; [done|by rewrite H1|auto].
Qed.

(** While the context is alive the updates sent leave exactly the slots of the
    sessions that are open. *)
Definition slots_right (h : list peerCtrlEvent) w : Prop :=
  o_ctx w = None -> foldl applySlot ∅ (o_slots w) = foldl slot_step ∅ h.

Lemma slots_mute h ev w w' : slots_right h w -> mute w w' -> (forall m, slot_step m ev = m) -> slots_right (h ++ [ev]) w'.
Proof. intros H [E1 E2] Hs Hx. rewrite E1, foldl_snoc, Hs. auto. Qed.

Lemma open_stream_slots h e ss w :
  (o_ctx w = None -> delete (po_key e) (foldl applySlot ∅ (o_slots w)) = delete (po_key e) (foldl slot_step ∅ h)) ->
  slots_right (h ++ [EvOpenSession e]) (open_stream env e ss w).2.
Proof.
  intros H. unfold open_stream, OpenUniStream. pose proof (tick_mute w) as [H1 H2]. destruct (tick env w) as [a w1]. cbn [snd] in H1, H2.
  destruct (a_fail a); [intros Hx; cbn in Hx; by destruct (o_ctx w1)|]. set (w2 := mk_out _ _ _ _ _ _).
  pose proof (guardedWrite_mute (o_next w1) openFrame (open_msg e) w2) as [H3 H4]. destruct (guardedWrite env _ openFrame _ w2) as [err w3]. cbn [snd] in H3, H4.
  destruct err as [er|]; [intros Hx; cbn in Hx; by destruct (o_ctx w3)|].
  pose proof (sendSlot_alive (mk_slot (po_key e) (Some (po_chunkOutbox e))) w3) as Hsl. destruct (sendSlot env _ w3) as [b w4]. cbn [fst snd] in Hsl.
  intros Hx. cbn [snd] in Hx |- *. destruct (callback_mute (o_next w1) w4) as [E1 E2]. destruct (Hsl (E2 Hx)) as (_ & E3 & E4).
  rewrite E1, E3, !foldl_snoc, H3. cbn [applySlot slot_step su_slot su_key]. unfold w2. cbn [o_slots]. rewrite H1.
  rewrite <-(insert_delete_eq (foldl applySlot _ _)), <-(insert_delete_eq (foldl slot_step _ _)). by rewrite H by auto.
Qed.

Lemma handleCtrl_slots c h ev ss w : slots_right h w -> slots_right (h ++ [ev]) (handleCtrl env c ev ss w).2.
Proof.
  intros H. destruct ev as [e|r|id|id|key|key]; cbn [handleCtrl].
  - unfold handleSessionOpen, retire_previous. destruct (ss !! po_key e) as [s0|]; [|apply open_stream_slots; intros Hx; by rewrite H].
    destruct (close_or_cancel_mute s0 w) as [E1 E2]. set (w1 := close_or_cancel env s0 w) in *.
    pose proof (sendSlot_alive (mk_slot (po_key e) None) w1) as Hsl. destruct (sendSlot env _ w1) as [b w2]. cbn [fst snd] in Hsl.
    destruct b; cbn [negb].
    + apply open_stream_slots. intros Hx. destruct (Hsl Hx) as (_ & E3 & E4). rewrite E3, foldl_snoc. cbn [applySlot su_slot su_key].
      rewrite delete_delete_eq, E1. by rewrite H by auto.
    + intros Hx. by destruct (Hsl Hx) as [? _].
  - unfold handleSendRoutingUpdate. destruct (ss !! pr_key r) as [s0|]; [|by apply (slots_mute h _ w)].
    pose proof (guardedWrite_mute s0 updateFrame (mk_Sess_Update (pr_update r)) w) as Hm. destruct (guardedWrite env s0 _ _ w) as [[er|] w1];
      by apply (slots_mute h _ w).
  - apply (slots_mute h _ w); [done| |done]. unfold writeCtrl. pose proof (guardedWrite_mute c subscribeFrame (mk_Subscribe id) w) as Hm.
    destruct (guardedWrite env c _ _ w) as [[er|] w1]; [|done]. eapply mute_trans; [exact Hm|]. eapply mute_trans; [apply (mute_streams (alter (side_cancel (streamFailureCode er)) c))|].
    eapply mute_trans; [apply callback_mute|]. split; [done|]. cbn. by destruct (o_ctx _).
  - apply (slots_mute h _ w); [done| |done]. unfold writeCtrl. pose proof (guardedWrite_mute c unsubscribeFrame (mk_Unsubscribe id) w) as Hm.
    destruct (guardedWrite env c _ _ w) as [[er|] w1]; [|done]. eapply mute_trans; [exact Hm|]. eapply mute_trans; [apply (mute_streams (alter (side_cancel (streamFailureCode er)) c))|].
    eapply mute_trans; [apply callback_mute|]. split; [done|]. cbn. by destruct (o_ctx _).
  - unfold handleSessionDone. set (w1 := match ss !! key with Some s => _ | None => w end).
    assert (mute w w1) as [E1 E2] by (unfold w1; destruct (ss !! key); [apply close_or_cancel_mute|done]).
    intros Hx. cbn [snd] in Hx |- *. destruct (sendSlot_alive _ _ Hx) as (_ & E3 & E4). rewrite E3, !foldl_snoc, E1. cbn [applySlot su_slot su_key slot_step].
    by rewrite H by auto.
  - destruct (ss !! key); by apply (slots_mute h _ w).
Qed.

Lemma ctrl_loop_slots c polls : forall h ss w, slots_right h w ->
  let '(ret, evs, ss', w') := ctrl_loop env c polls ss w in ret = false -> slots_right (h ++ evs) w'.
Proof.
  induction polls as [|poll polls IH]; intros h ss w H; cbn [ctrl_loop].
  { intros _. by rewrite app_nil_r. }
  assert (forall x, slots_right h x -> slots_right h (tick env x).2) as Ht.
  { intros x Hx Hn. destruct (tick_mute x) as [E1 E2]. rewrite E1. auto. }
  apply Ht in H. set (w1 := (tick env w).2) in *. pose proof (Ht _ H) as H2.
  destruct (o_ctx w1); [done|]. destruct (tick env w1) as [a w2]. cbn [snd] in H2.
  destruct poll as [evt|], (o_ctx w2) as [e|]; [done| | |].
  - pose proof (handleCtrl_slots c h evt ss w2 H2) as H3. destruct (handleCtrl env c evt ss w2) as [ss3 w3]. cbn [snd] in H3.
    specialize (IH _ ss3 w3 H3). destruct (ctrl_loop env c polls ss3 w3) as [[[ret evs] ss4] w4]. intros Hr. rewrite <-app_assoc in IH. by apply IH.
  - destruct (a_send a); [|done]. exact (IH _ ss w2 H2).
  - exact (IH _ ss w2 H2).
Qed.

(** C16. The control loop accounts for its streams: whatever it is asked to send
    and whatever fails, it handles the events in order; a stream that is not
    ended is the control stream or the stream of one open session, and once the
    loop has returned every stream it opened is ended.  While the binding lives,
    the updates it sent leave the data loop with exactly the outboxes of the
    sessions that are open, a session whose stream alone was ended included. *)
Theorem ctrl_loop_settles c polls w ret evs ss w' :
  fresh_out c w -> runCtrlLoop env c polls w = (ret, evs, ss, w') ->
  evs `prefix_of` omap id polls /\
  (forall s sd, o_streams w' !! s = Some sd -> sd_end sd = None ->
     ret = false /\ (s = c \/ exists key, ss !! key = Some s /\ forall key', ss !! key' = Some s -> key' = key)) /\
  (ret = false -> o_ctx w' = None -> foldl applySlot ∅ (o_slots w') = foldl slot_step ∅ evs).
Proof.
  intros Hf HR. pose proof (ctrl_loop_inv env c polls [] ∅ w (fresh_inv c w Hf)) as HI. unfold runCtrlLoop in HR. rewrite HR in HI.
  pose proof (ctrl_loop_slots c polls [] ∅ w) as HS. rewrite HR in HS. destruct Hf as (_ & _ & Hn).
  simpl in HI, HS. destruct HI as [Hp HI]. split; [done|]. split.
  - intros s sd Hs He. destruct ret.
    + exfalso. destruct HI as [(sd0 & x & h' & Hs0 & Hx & _) Ha]. destruct (decide (s = c)) as [->|Hne]; [congruence|].
      destruct (Ha s ltac:(by rewrite Hs) Hne) as (? & ? & ? & ? & sd1 & en & _ & _ & Hs1 & _ & Hen & _). congruence.
    + split; [done|]. destruct HI as [[_ _ Hl Hi Ha] _]. destruct (decide (s = c)) as [->|Hne]; [by left|right].
      destruct (decide (map_Exists (fun _ s' => s' = s) ss)) as [(k & ? & Hk & ->)|Hno].
      * exists k. split; [done|]. intros k' Hk'. by apply (Hi k' k s).
      * exfalso. destruct (Ha s ltac:(by rewrite Hs) Hne) as (? & ? & ? & ? & sd1 & en & _ & _ & Hs1 & _ & Hen & _); [|congruence].
        intros k Hk. apply Hno. by exists k, s.
  - intros -> Hx. apply HS; [|done|done]. intros _. by rewrite Hn.
Qed.
End whole.
