(* ===== verification/DataLoop.v ===== *)
(** * DataLoop: the data loop of a peer binding (runDataLoop, applySlot of
    src/broadcast/peer_ctrl.go)

    The loop serves the chunk outboxes the control loop registered through
    [slotCh].  A state has the loop's map and program counter and what it shares
    with the other goroutines: the updates waiting on [slotCh], the outboxes
    (Go channels of capacity 16), the token of [wakeCh] and the binding's
    context.  A session deposits a chunk and then signals; [d_owed] counts the
    deposits whose signal is still to come.  Each step is one channel operation,
    so runs have every interleaving. *)

From S2P Require Import Prelude Wire Types CtrlOut Session Reader Engine PeerIo PeerOut.

#[local] Set Default Proof Using "Type".

Definition slotUpdateCap : nat := 32.

(** Draining [slotCh]; in the round-robin with the keys still to try; waiting. *)
Inductive data_pc := AtDrain | AtServe (rest : list sessionKey) | AtWait | Returned.

Record data := mk_data {
  d_pc : data_pc;
  d_slots : gmap sessionKey nat;
  d_pending : list slotUpdate;
  d_boxes : gmap nat (list peerSendChunk);
  d_closed : gset nat;
  d_wake : bool;
  d_owed : nat;
  d_done : bool;
  d_seen : list slotUpdate;                  (* received from slotCh *)
  d_given : list (nat * peerSendChunk);      (* deposited *)
  d_sent : list (nat * peerSendChunk) }.     (* received and passed to handleSendChunk *)

Implicit Types (d : data).

Definition box d (b : nat) : list peerSendChunk := default [] (d_boxes d !! b).

Definition at_pc (pc : data_pc) d : data :=
  mk_data pc (d_slots d) (d_pending d) (d_boxes d) (d_closed d) (d_wake d) (d_owed d) (d_done d) (d_seen d) (d_given d) (d_sent d).

(** [case upd := <-slotCh: applySlot(slots, upd)]. *)
Definition take_update (u : slotUpdate) (rest : list slotUpdate) d : data :=
  mk_data AtDrain (applySlot (d_slots d) u) rest (d_boxes d) (d_closed d) (d_wake d) (d_owed d) (d_done d) (d_seen d ++ [u]) (d_given d) (d_sent d).

(** [case chunk := <-slot: p.handleSendChunk(chunk)], then [continue]. *)
Definition take_chunk (b : nat) (c : peerSendChunk) (rest : list peerSendChunk) d : data :=
  mk_data AtDrain (d_slots d) (d_pending d) (<[b := rest]> (d_boxes d)) (d_closed d) (d_wake d) (d_owed d) (d_done d) (d_seen d) (d_given d) (d_sent d ++ [(b, c)]).

Definition take_wake d : data :=
  mk_data AtDrain (d_slots d) (d_pending d) (d_boxes d) (d_closed d) false (d_owed d) (d_done d) (d_seen d) (d_given d) (d_sent d).

(** A receive found the slot closed and empty: [delete(slots, key)]. *)
Definition drop_slot (key : sessionKey) (rest : list sessionKey) d : data :=
  mk_data (AtServe rest) (delete key (d_slots d)) (d_pending d) (d_boxes d) (d_closed d) (d_wake d) (d_owed d) (d_done d) (d_seen d) (d_given d) (d_sent d).

(** Which ready case a [select] takes. *)
Inductive ready_case := CaseUpdate | CaseWake | CaseDone.

(** One step of the loop: [order] is the order in which [range slots] visits the
    keys, [pick] the case the last [select] takes; [None] when that case is not
    ready. *)
Definition data_next (order : list sessionKey) (pick : ready_case) d : option data :=
  match d_pc d with
  | AtDrain => Some (match d_pending d with u :: rest => take_update u rest d | [] => at_pc (AtServe order) d end)
  | AtServe [] => Some (at_pc AtWait d)
  | AtServe (key :: rest) =>
      Some (match d_slots d !! key with
            | None => at_pc (AtServe rest) d
            | Some b => match box d b with
                        | c :: cs => take_chunk b c cs d
                        | [] => if bool_decide (b ∈ d_closed d) then drop_slot key rest d else at_pc (AtServe rest) d
                        end
            end)
  | AtWait =>
      match pick with
      | CaseUpdate => match d_pending d with u :: rest => Some (take_update u rest d) | [] => None end
      | CaseWake => if d_wake d then Some (take_wake d) else None
      | CaseDone => if d_done d then Some (at_pc Returned d) else None
      end
  | Returned => None
  end.

Definition loop_step d d' : Prop :=
  exists order pick, order ≡ₚ (map_to_list (d_slots d)).*1 /\ data_next order pick d = Some d'.

(** The other goroutines: the control loop, sessions ([sendChunk]), whoever
    closes an outbox, and what ends the context. *)
Inductive other_step : data -> data -> Prop :=
| os_update d u : (length (d_pending d) < slotUpdateCap)%nat ->
    other_step d (mk_data (d_pc d) (d_slots d) (d_pending d ++ [u]) (d_boxes d) (d_closed d) (d_wake d) (d_owed d) (d_done d) (d_seen d) (d_given d) (d_sent d))
| os_deposit d b c : (length (box d b) < chunkOutboxCap)%nat -> b ∉ d_closed d ->
    other_step d (mk_data (d_pc d) (d_slots d) (d_pending d) (<[b := box d b ++ [c]]> (d_boxes d)) (d_closed d) (d_wake d) (S (d_owed d)) (d_done d)
                   (d_seen d) (d_given d ++ [(b, c)]) (d_sent d))
| os_signal d n : d_owed d = S n ->
    other_step d (mk_data (d_pc d) (d_slots d) (d_pending d) (d_boxes d) (d_closed d) true n (d_done d) (d_seen d) (d_given d) (d_sent d))
| os_close d b :
    other_step d (mk_data (d_pc d) (d_slots d) (d_pending d) (d_boxes d) ({[b]} ∪ d_closed d) (d_wake d) (d_owed d) (d_done d) (d_seen d) (d_given d) (d_sent d))
| os_done d :
    other_step d (mk_data (d_pc d) (d_slots d) (d_pending d) (d_boxes d) (d_closed d) (d_wake d) (d_owed d) true (d_seen d) (d_given d) (d_sent d)).

Definition data_init : data := mk_data AtDrain ∅ [] ∅ ∅ false 0 false [] [] [].

Definition data_step d d' : Prop := loop_step d d' \/ other_step d d'.
Definition data_run d : Prop := rtc data_step data_init d.

(** ** Invariant *)

Definition of_box (b : nat) (l : list (nat * peerSendChunk)) : list peerSendChunk :=
  omap (fun x => if decide (x.1 = b) then Some x.2 else None) l.

(** Someone will make the loop look again. *)
Definition alarmed d : Prop := d_wake d = true \/ (0 < d_owed d)%nat \/ d_pending d <> [].

Definition unvisited d : list sessionKey :=
  match d_pc d with AtServe rest => rest | _ => [] end.
Definition scanning d : Prop :=
  match d_pc d with AtServe _ | AtWait => True | _ => False end.

Record data_inv d : Prop := {
  di_fifo : forall b, of_box b (d_given d) = of_box b (d_sent d) ++ box d b;
  di_slots : forall key, d_slots d !! key = foldl applySlot ∅ (d_seen d) !! key \/
      d_slots d !! key = None /\ exists b, foldl applySlot ∅ (d_seen d) !! key = Some b /\ b ∈ d_closed d /\ box d b = [];
  di_alarm : scanning d -> forall key b, d_slots d !! key = Some b -> box d b <> [] -> alarmed d \/ key ∈ unvisited d;
  di_rest : forall rest, d_pc d = AtServe rest -> (length rest <= size (d_slots d))%nat;
  di_returned : d_pc d = Returned -> d_done d = true }.

#[local] Arguments of_box : simpl never.

Lemma of_box_app b l1 l2 : of_box b (l1 ++ l2) = of_box b l1 ++ of_box b l2.
Proof. apply omap_app. Qed.
Lemma of_box_same b c : of_box b [(b, c)] = [c].
Proof. unfold of_box. simpl. by rewrite decide_True. Qed.
Lemma of_box_other b b' c : b' <> b -> of_box b [(b', c)] = [].
Proof. intros Hne. unfold of_box. simpl. by rewrite decide_False. Qed.

Lemma box_insert d b cs x : default [] (<[b := cs]> (d_boxes d) !! x) = if decide (x = b) then cs else box d x.
Proof. destruct (decide (x = b)) as [->|]; [by rewrite lookup_insert_eq|by rewrite lookup_insert_ne]. Qed.

Lemma applySlot_other slots u key : key <> su_key u -> applySlot slots u !! key = slots !! key.
Proof. intros H. unfold applySlot. destruct (su_slot u); [by rewrite lookup_insert_ne|by rewrite lookup_delete_ne]. Qed.
Lemma applySlot_this s1 s2 u : applySlot s1 u !! su_key u = applySlot s2 u !! su_key u.
Proof. unfold applySlot. destruct (su_slot u); [by rewrite !lookup_insert_eq|by rewrite !lookup_delete_eq]. Qed.

Lemma take_update_inv u rest d : data_inv d -> d_pending d = u :: rest -> data_inv (take_update u rest d).
Proof.
  intros [F S A R T] Hp. split; cbn; [exact F| |done|done|done].
  intros key. rewrite foldl_snoc. destruct (decide (key = su_key u)) as [->|Hne]; [left; apply applySlot_this|].
  rewrite !applySlot_other by done. apply S.
Qed.

Lemma take_chunk_inv key b c cs d : data_inv d -> d_slots d !! key = Some b -> box d b = c :: cs -> data_inv (take_chunk b c cs d).
Proof.
  intros [F S A R T] Hk Hb. split; cbn; [| |done|done|done].
  - intros x. unfold box. cbn. rewrite box_insert, of_box_app, F. destruct (decide (x = b)) as [->|Hne].
    + rewrite of_box_same, <-app_assoc. by rewrite Hb.
    + by rewrite of_box_other, app_nil_r.
  - intros k. destruct (S k) as [?|(? & x & ? & ? & Hx)]; [by left|right]. split; [done|]. exists x. split; [done|]. split; [done|].
    unfold box. cbn. rewrite box_insert. destruct (decide (x = b)) as [->|]; [congruence|done].
Qed.

Lemma serve_next_inv key rest d : data_inv d -> d_pc d = AtServe (key :: rest) ->
  (forall b, d_slots d !! key = Some b -> box d b = []) -> data_inv (at_pc (AtServe rest) d).
Proof.
  intros [F S A R T] Hpc He. split; cbn; [exact F|exact S| | |done].
  - intros _ k b Hk Hb. destruct (A ltac:(unfold scanning; by rewrite Hpc) k b Hk Hb) as [?|Hin]; [by left|right].
    unfold unvisited in Hin. rewrite Hpc in Hin. apply elem_of_cons in Hin as [->|Hin]; [destruct Hb; exact (He b Hk)|done].
  - intros r [= ->]. specialize (R _ Hpc). simpl in R. lia.
Qed.

Lemma drop_slot_inv key b rest d : data_inv d -> d_pc d = AtServe (key :: rest) ->
  d_slots d !! key = Some b -> box d b = [] -> b ∈ d_closed d -> data_inv (drop_slot key rest d).
Proof.
  intros [F S A R T] Hpc Hk Hb Hcl. split; cbn; [exact F| | | |done].
  - intros k. destruct (decide (k = key)) as [->|Hne]; [|rewrite lookup_delete_ne by done; apply S].
    right. rewrite lookup_delete_eq. split; [done|]. exists b. destruct (S key) as [E|[E _]]; [|congruence]. by rewrite <-E.
  - intros _ k x Hx Hxb. apply lookup_delete_Some in Hx as [Hne Hx].
    destruct (A ltac:(unfold scanning; by rewrite Hpc) k x Hx Hxb) as [?|Hin]; [by left|right].
    unfold unvisited in Hin. rewrite Hpc in Hin. by apply elem_of_cons in Hin as [->|Hin].
  - intros r [= ->]. specialize (R _ Hpc). simpl in R. rewrite map_size_delete, Hk. simpl. lia.
Qed.

Lemma loop_step_inv d d' : data_inv d -> loop_step d d' -> data_inv d'.
Proof.
  intros HI (order & pick & Hperm & Hn). unfold data_next in Hn. pose proof HI as [F S A R T].
  destruct (d_pc d) as [|[|key rest]| |] eqn:Epc; [| | | |done].
  - destruct (d_pending d) as [|u rest] eqn:Ep; simplify_eq; [|by apply take_update_inv].
    split; cbn; [exact F|exact S| | |done].
    + intros _ k b Hk Hb. right. unfold unvisited. cbn. rewrite Hperm. apply list_elem_of_fmap. exists (k, b). split; [done|]. by apply elem_of_map_to_list.
    + intros r [= <-]. rewrite Hperm, length_fmap, length_map_to_list. done.
  - simplify_eq. split; cbn; [exact F|exact S| |done|done]. intros _ k b Hk Hb.
    destruct (A ltac:(unfold scanning; by rewrite Epc) k b Hk Hb) as [?|Hin]; [by left|]. unfold unvisited in Hin. rewrite Epc in Hin. by apply elem_of_nil in Hin.
  - destruct (d_slots d !! key) as [b|] eqn:Ek; simplify_eq; [|by apply (serve_next_inv key); [..|intros b; rewrite Ek]].
    destruct (box d b) as [|c cs] eqn:Eb; [|by apply (take_chunk_inv key)].
    destruct (bool_decide (b ∈ d_closed d)) eqn:Ec; [apply bool_decide_eq_true in Ec; by apply (drop_slot_inv key b)|].
    apply (serve_next_inv key); [done|done|]. intros b' Hb'. congruence.
  - destruct pick.
    + destruct (d_pending d) as [|u rest] eqn:Ep; simplify_eq. by apply take_update_inv.
    + destruct (d_wake d); simplify_eq. split; cbn; [exact F|exact S|done|done|done].
    + destruct (d_done d) eqn:Ed; simplify_eq. split; cbn; [exact F|exact S|done|done|done].
Qed.

Lemma other_step_inv d d' : data_inv d -> other_step d d' -> data_inv d'.
Proof.
  intros [F S A R T] Hs. destruct Hs as [d u Hlen|d b c Hlen Hcl|d n Hn|d b|d].
  - split; cbn; [exact F|exact S| |exact R|exact T]. intros Hsc k x Hk Hx. left. right. right. cbn. by destruct (d_pending d).
  - split; cbn; [| | |exact R|exact T].
    + intros x. unfold box. cbn. rewrite box_insert, of_box_app, F. destruct (decide (x = b)) as [->|].
      * by rewrite of_box_same, <-app_assoc.
      * by rewrite of_box_other, app_nil_r.
    + intros k. destruct (S k) as [?|(? & x & ? & ? & Hx)]; [by left|right]. split; [done|]. exists x. split; [done|]. split; [done|].
      unfold box. cbn. rewrite box_insert. by destruct (decide (x = b)) as [->|].
    + intros _ k x _ _. left. right. left. cbn. lia.
  - split; cbn; [exact F|exact S| |exact R|exact T]. intros _ k x _ _. left. by left.
  - split; cbn; [exact F| |exact A|exact R|exact T]. intros k. destruct (S k) as [?|(? & x & ? & ? & ?)]; [by left|right].
    split; [done|]. exists x. split; [done|]. split; [set_solver|done].
  - split; cbn; [exact F|exact S|exact A|exact R|done].
Qed.

Lemma data_run_inv d : data_run d -> data_inv d.
Proof.
  intros Hr. revert d Hr. apply rtc_ind_r.
  - split; cbn; try done. by intros key; left.
  - intros d d' _ [Hs|Hs] IH; [by eapply loop_step_inv|by eapply other_step_inv].
Qed.

(** ** Termination *)

Definition items d : nat := map_sum length (d_boxes d).
Definition breadth d : nat := (size (d_slots d) + length (d_pending d))%nat.
Definition units d : nat := (items d + length (d_pending d) + (if d_wake d then 1 else 0))%nat.
Definition rank d : nat :=
  match d_pc d with AtDrain => breadth d + 3 | AtServe l => length l + 2 | AtWait => 1 | Returned => 0 end.
Definition measure d : nat := (units d * (breadth d + 4) + rank d)%nat.

Lemma measure_drop d d' :
  (units d' < units d)%nat -> (breadth d' <= breadth d)%nat -> (rank d' <= breadth d' + 3)%nat -> (measure d' < measure d)%nat.
Proof. unfold measure. intros. nia. Qed.

Lemma measure_rank d d' :
  units d' = units d -> (breadth d' <= breadth d)%nat -> (rank d' < rank d)%nat -> (measure d' < measure d)%nat.
Proof. unfold measure. intros. nia. Qed.

Lemma applySlot_size slots u : (size (applySlot slots u) <= S (size slots))%nat.
Proof.
  unfold applySlot. destruct (su_slot u).
  - rewrite map_size_insert. destruct (slots !! su_key u); simpl; lia.
  - rewrite map_size_delete. destruct (slots !! su_key u); simpl; lia.
Qed.

Lemma take_update_measure u rest d : d_pending d = u :: rest -> (measure (take_update u rest d) < measure d)%nat.
Proof.
  intros Hp. pose proof (applySlot_size (d_slots d) u). apply measure_drop.
  - unfold units, items. cbn. rewrite Hp. cbn. lia.
  - unfold breadth. cbn. rewrite Hp. cbn. lia.
  - unfold rank. cbn. lia.
Qed.

Lemma loop_step_measure d d' : data_inv d -> loop_step d d' -> (measure d' < measure d)%nat.
Proof.
  intros [_ _ _ R _] (order & pick & Hperm & Hn). unfold data_next in Hn.
  destruct (d_pc d) as [|[|key rest]| |] eqn:Epc; [| | | |done].
  - destruct (d_pending d) as [|u rest] eqn:Ep; simplify_eq; [|by apply take_update_measure].
    apply measure_rank; [done|done|]. unfold rank. cbn. rewrite Epc, Hperm, length_fmap, length_map_to_list. unfold breadth. lia.
  - simplify_eq. apply measure_rank; [done|done|]. unfold rank. cbn. rewrite Epc. simpl. lia.
  - assert (measure (at_pc (AtServe rest) d) < measure d)%nat as Hnext.
    { apply measure_rank; [done|done|]. unfold rank. cbn. rewrite Epc. simpl. lia. }
    destruct (d_slots d !! key) as [b|] eqn:Ek; simplify_eq; [|done].
    destruct (box d b) as [|c cs] eqn:Eb.
    + destruct (bool_decide (b ∈ d_closed d)); [|done]. apply measure_rank; [done| |unfold rank; cbn; rewrite Epc; simpl; lia].
      unfold breadth. cbn. rewrite map_size_delete, Ek. simpl. lia.
    + unfold box in Eb. destruct (d_boxes d !! b) as [l|] eqn:Ebx; [|done]. simpl in Eb. subst l.
      pose proof (map_sum_alter length (d_boxes d) b (c :: cs) cs Ebx) as Hsum. simpl in Hsum.
      apply measure_drop; [unfold units, items; cbn; lia|done|]. unfold rank, breadth. cbn. lia.
  - destruct pick.
    + destruct (d_pending d) as [|u rest] eqn:Ep; simplify_eq. by apply take_update_measure.
    + destruct (d_wake d) eqn:Ew; simplify_eq. apply measure_drop; [unfold units, items; cbn; rewrite Ew; lia|done|unfold rank, breadth; cbn; lia].
    + destruct (d_done d); simplify_eq. apply measure_rank; [done|done|]. unfold rank. cbn. rewrite Epc. lia.
Qed.

(** Nothing for the loop to do. *)
Definition idle_loop d : Prop := d_pc d = AtWait /\ d_pending d = [] /\ d_wake d = false.

Lemma loop_enabled d : data_inv d -> d_done d = false -> idle_loop d \/ exists d', loop_step d d'.
Proof.
  intros HI Hd. destruct (d_pc d) as [|l| |] eqn:Epc.
  - right. eexists _, _, CaseDone. split; [done|]. unfold data_next. by rewrite Epc.
  - right. destruct l as [|key l]; eexists _, _, CaseDone; (split; [done|]); unfold data_next; by rewrite Epc.
  - destruct (d_pending d) as [|u rest] eqn:Ep; [destruct (d_wake d) eqn:Ew|].
    + right. eexists _, _, CaseWake. split; [done|]. unfold data_next. by rewrite Epc, Ew.
    + left. by split.
    + right. eexists _, _, CaseUpdate. split; [done|]. unfold data_next. by rewrite Epc, Ep.
  - by rewrite (di_returned d HI Epc) in Hd.
Qed.

Lemma loop_step_keeps d d' : loop_step d d' -> d_done d' = d_done d /\ d_owed d' = d_owed d.
Proof.
  intros (order & pick & _ & Hn). unfold data_next in Hn. repeat (case_match; simplify_eq/=); done.
Qed.

Lemma loop_settles d : data_inv d -> d_done d = false -> exists d', rtc loop_step d d' /\ idle_loop d' /\ data_inv d' /\ d_owed d' = d_owed d.
Proof.
  remember (measure d) as n eqn:Hn. revert d Hn. induction (lt_wf n) as [n _ IH]. intros d -> HI Hd.
  destruct (loop_enabled d HI Hd) as [?|[d1 Hs]]; [by exists d|].
  destruct (loop_step_keeps d d1 Hs) as [E1 E2].
  destruct (IH (measure d1) (loop_step_measure d d1 HI Hs) d1 eq_refl (loop_step_inv d d1 HI Hs) ltac:(by rewrite E1)) as (d' & H1 & H2 & H3 & H4).
  exists d'. split; [by eapply rtc_l|]. split; [done|]. split; [done|]. by rewrite H4.
Qed.

(** C17. The data loop neither loses, reorders nor strands chunks: in every
    interleaving with the control loop and the sessions, what was deposited in an
    outbox is what the loop passed to handleSendChunk, in order, followed by what
    is still in it; the slots it serves are those the updates it received leave
    registered, less outboxes found closed and empty; its own steps are finite
    between two of the others'; and when it has nothing left to do but wait and no
    deposit still owes its wake signal, every registered outbox is empty. *)
Theorem data_loop_lossless d : data_run d ->
  (forall b, of_box b (d_given d) = of_box b (d_sent d) ++ box d b) /\
  (forall key b, d_slots d !! key = Some b -> foldl applySlot ∅ (d_seen d) !! key = Some b) /\
  (forall d', loop_step d d' -> (measure d' < measure d)%nat) /\
  (idle_loop d -> d_owed d = 0%nat -> forall key b, d_slots d !! key = Some b -> box d b = []) /\
  (d_done d = false -> d_owed d = 0%nat ->
     exists d', rtc loop_step d d' /\ idle_loop d' /\ forall key b, d_slots d' !! key = Some b -> box d' b = []).
Proof.
  intros Hr. pose proof (data_run_inv d Hr) as HI.
  assert (forall x, data_inv x -> idle_loop x -> d_owed x = 0%nat -> forall key b, d_slots x !! key = Some b -> box x b = []) as Hidle.
  { intros x [_ _ A _ _] (E1 & E2 & E3) Ho key b Hk. destruct (box x b) as [|c cs] eqn:Eb; [done|].
    destruct (A ltac:(unfold scanning; by rewrite E1) key b Hk ltac:(by rewrite Eb)) as [[Hw|[Hw|Hw]]|Hin]; [congruence|lia|done|].
    unfold unvisited in Hin. rewrite E1 in Hin. by apply elem_of_nil in Hin. }
  split; [apply HI|]. split.
  { intros key b Hk. destruct (di_slots d HI key) as [<-|[E _]]; [done|congruence]. }
  split; [by intros d'; apply loop_step_measure|]. split; [by apply Hidle|].
  intros Hd Ho. destruct (loop_settles d HI Hd) as (d' & H1 & H2 & H3 & H4). exists d'. split; [done|]. split; [done|].
  apply Hidle; [done|done|congruence].
Qed.

(** A session is registered, deposits a chunk and signals; the loop serves it. *)
Definition demo_slot : slotUpdate := mk_slot (mk_key [Byte.x63] [Byte.x6d]) (Some 9%nat).
Definition demo_send : peerSendChunk := mk_send [Byte.x70] [Byte.x63] [Byte.x6d] 4 [Byte.x0a] [Byte.x11] 0.
Definition demo_data : data :=
  mk_data AtDrain ∅ [demo_slot] {[9%nat := [demo_send]]} ∅ true 0 false [] [(9%nat, demo_send)] [].

Lemma demo_data_run : data_run demo_data.
Proof.
  eapply rtc_l; [right; apply (os_update _ demo_slot); vm_compute; lia|].
  eapply rtc_l; [right; apply (os_deposit _ 9%nat demo_send); [vm_compute; lia|set_solver]|].
  eapply rtc_l; [right; by apply (os_signal _ 0)|]. apply rtc_refl.
Qed.

Lemma data_loop_lossless_witness :
  data_run demo_data /\ exists d', rtc loop_step demo_data d' /\ idle_loop d' /\ forall key b, d_slots d' !! key = Some b -> box d' b = [].
Proof.
  split; [exact demo_data_run|]. destruct (data_loop_lossless demo_data demo_data_run) as (_ & _ & _ & _ & H). apply H; reflexivity.
Defined.
