(* ===== verification/PeerIn.v ===== *)
(** * PeerIn: the inbound goroutines of a peer binding (src/broadcast/peer_in.go,
    [runCtrlReader] of peer_ctrl.go)

    A reader owns one inbound stream.  Its input is a [reader]: the bytes that
    arrive and what ends them (FIN, a reset, a deadline).  Its state [inb] has the
    context of the binding, the context of the channel it posts to, how the
    stream ended on our side and what was posted, in order.  The loops recurse
    on the input with fuel: one more than the bytes left, since a frame has at
    least one byte. *)

From S2P Require Import Prelude Wire Types CtrlOut Session Reader Channel Engine PeerIo.
Open Scope Z_scope.

#[local] Set Default Proof Using "Type".

(** How a stream ended: read to its end ([None]) or cancelled. *)
Abbreviation read_end := (option Code) (only parsing).

Record inb (St : Type) := mk_in {
  i_clock : nat;
  i_ctx : option ctx_err;                   (* p.ctx.Err() *)
  i_chan : bool;                            (* the channel's context has ended *)
  i_end : option read_end;
  i_posts : list (nat * channelEvent St);   (* to the inbox of a handle *)
  i_events : list engine_event;             (* to the engine *)
  i_opened : list (ChannelID * MessageID) }. (* OnPreambleOpened *)
Arguments mk_in {St}.
Arguments i_clock {St}.
Arguments i_ctx {St}.
Arguments i_chan {St}.
Arguments i_end {St}.
Arguments i_posts {St}.
Arguments i_events {St}.
Arguments i_opened {St}.

Inductive sent := Posted | ChanDone | PeerDone.

Section inbound.
Context {St : Type}.
Context (env : environment).
Context `{WS : !Types.Wire Bcast_Subscribe} `{WU : !Types.Wire Bcast_Unsubscribe} `{WO : !Types.Wire Sess_Open} `{WD : !Types.Wire Sess_Update} `{WH : !Types.Wire Chunk_Header}.
(** The binding: its identity, its peer and the inboxes bound to it when asked. *)
Context (p : nat) (id : PeerID) (inboxFor : ChannelID -> option nat).
Abbreviation io := (inb St).
Implicit Types (w : io) (r : reader).

(** ** Operations *)

Definition itick w : answer * io :=
  let a := env (i_clock w) in
  (a, mk_in (S (i_clock w)) (match i_ctx w with Some e => Some e | None => a_done a end) (i_chan w || a_late a)
        (i_end w) (i_posts w) (i_events w) (i_opened w)).

(** The first end of a stream is the one that counts. *)
Definition set_end (e : read_end) w : io :=
  mk_in (i_clock w) (i_ctx w) (i_chan w) (match i_end w with Some e => Some e | None => Some e end) (i_posts w) (i_events w) (i_opened w).
Definition cancelRead (c : Code) w : io := set_end (Some c) w.

Definition ctx_code w : Code := streamFailureCode (i_ctx w).

(** Points where the callbacks on the binding's and the channel's context may run. *)
Definition ctx_callback w : io :=
  let '(a, w) := itick w in
  match i_ctx w with Some _ => if a_fire a then cancelRead (ctx_code w) w else w | None => w end.
Definition chan_callback w : io :=
  let '(a, w) := itick w in
  if i_chan w && a_fire a then cancelRead Unspecified w else w.
Definition callbacks w : io := chan_callback (ctx_callback w).

(** A read on a stream that was cancelled reports the cancellation. *)
Definition readMsg {M} `{!Types.Wire M} (want : Z) r w : result read_err M * reader :=
  match i_end w with
  | Some (Some c) => (Err (ReadFailed (FrameIO (ErrStream (Wire.Wire c)))), r)
  | _ => readFrame r want
  end.

Definition add_post (h : nat) (ev : channelEvent St) w : io :=
  mk_in (i_clock w) (i_ctx w) (i_chan w) (i_end w) (i_posts w ++ [(h, ev)]) (i_events w) (i_opened w).

(** [select { case inbox <- ev: case <-ch.ctx.Done(): case <-p.ctx.Done(): }]. *)
Definition post (h : nat) (ev : channelEvent St) w : sent * io :=
  let '(a, w) := itick w in
  match i_ctx w, i_chan w with
  | None, false => (Posted, add_post h ev w)
  | c, ch =>
      if a_send a then (Posted, add_post h ev w)
      else if ch && (a_fire a || match c with None => true | _ => false end) then (ChanDone, w) else (PeerDone, w)
  end.

(** ** SESS streams *)

(** The loop over UPDATE frames; the flag is [reconstructed]. *)
Fixpoint session_loop (fuel : nat) (h : nat) (msg : MessageID) r w : option (bool * io) :=
  match fuel with
  | O => None
  | S fuel =>
      let w := callbacks w in
      match readMsg updateFrame r w with
      | (Err e, _) =>
          let w := callbacks w in
          match e with
          | ReadFailed (FrameIO EOF) => Some (false, set_end None w)
          | ReadFailed (FrameIO (ErrStream raw)) =>
              let w := set_end None w in
              if decide (ParseCode raw = Reconstructed) then Some (true, (post h (channelPeerReconstructed msg id) w).2)
              else Some (false, w)
          | _ => Some (false, cancelRead (readFailureCode e (i_ctx w)) w)
          end
      | (Ok ru, r) =>
          match post h (channelRoutingUpdate id msg (su_data ru)) w with
          | (Posted, w) => session_loop fuel h msg r w
          | (ChanDone, w) => Some (false, cancelRead Unspecified w)
          | (PeerDone, w) => Some (false, cancelRead (ctx_code w) w)
          end
      end
  end.

Definition runInboundSession r w : option io :=
  let w := ctx_callback w in
  match readMsg openFrame r w with
  | (Err e, _) =>
      let w := ctx_callback w in
      Some (cancelRead (readFailureCode e (i_ctx w)) w)
  | (Ok so, r) =>
      let w := mk_in (i_clock w) (i_ctx w) (i_chan w) (i_end w) (i_posts w) (i_events w) (i_opened w ++ [(so_channel so, so_objectId so)]) in
      match inboxFor (so_channel so) with
      | None => Some (cancelRead Refused (ctx_callback w))
      | Some h =>
          match post h (channelSessionOpen id (so_objectId so) (so_preamble so) (so_initialUpdate so)) (callbacks w) with
          | (ChanDone, w) => Some (cancelRead Unspecified w)
          | (PeerDone, w) => Some (cancelRead (ctx_code w) w)
          | (Posted, w) =>
              letp x := session_loop (S (length (rd_data r))) h (so_objectId so) r w in
              let '(reconstructed, w) := (x : bool * io) in
              if reconstructed : bool then Some w
              else Some (post h (channelPeerSessionEnded (so_objectId so) id p) w).2
          end
      end
  end.

(** ** CHUNK streams *)

(** What is left of the stream goes to the channel with its header, unless the
    stream was ended here. *)
Definition processChunk (stream : nat) r w : reader * io :=
  let w := ctx_callback w in
  let '(res, r') := readMsg headerFrame r w in
  let w := ctx_callback w in
  match res with
  | Err e => (r', cancelRead (readFailureCode e (i_ctx w)) w)
  | Ok fr =>
      let w := (itick w).2 in
      match i_ctx w with
      | Some _ => (r', cancelRead (ctx_code w) w)
      | None =>
          match inboxFor (hd_channel fr) with
          | None => (r', cancelRead Refused w)
          | Some h =>
              match post h (channelChunk (mk_chunkStream id (hd_objectId fr) (hd_chunkId fr) (hd_dataLength fr) stream)) w with
              | (Posted, w) => let w := (itick w).2 in (r', if i_chan w then cancelRead Unspecified w else w)
              | (ChanDone, w) => (r', cancelRead Unspecified w)
              | (PeerDone, w) => (r', cancelRead (ctx_code w) w)
              end
          end
      end
  end.

(** ** The BCAST stream *)

(** One frame and the engine event it stands for; HANDSHAKE comes only first. *)
Definition ctrlFrame r : result read_err engine_event * reader :=
  match ReadFrame r maxBroadcastFrame with
  | (Err e, r') => (Err (ReadFailed e), r')
  | (Ok (typ, data), r') =>
      (if typ =? subscribeFrame then
         match w_Unmarshal data with Ok m => Ok (EvSubscribe p (sub_channel m)) | Err e => Err (UnmarshalFailed e) end
       else if typ =? unsubscribeFrame then
         match w_Unmarshal data with Ok m => Ok (EvUnsubscribe p (unsub_channel m)) | Err e => Err (UnmarshalFailed e) end
       else Err errUnexpectedFrame, r')
  end.

Definition readCtrl r w : result read_err engine_event * reader :=
  match i_end w with
  | Some (Some c) => (Err (ReadFailed (FrameIO (ErrStream (Wire.Wire c)))), r)
  | _ => ctrlFrame r
  end.

(** [engine.post(p.ctx.Done(), ...)]: dropped only when the binding or the engine
    (whose end ends the binding) has ended. *)
Definition post_engine (ev : engine_event) w : io :=
  let '(a, w) := itick w in
  match i_ctx w with
  | Some _ => if a_send a then mk_in (i_clock w) (i_ctx w) (i_chan w) (i_end w) (i_posts w) (i_events w ++ [ev]) (i_opened w) else w
  | None => mk_in (i_clock w) (i_ctx w) (i_chan w) (i_end w) (i_posts w) (i_events w ++ [ev]) (i_opened w)
  end.

(** The deferred [p.cancel()]. *)
Definition i_cancel w : io :=
  mk_in (i_clock w) (match i_ctx w with Some e => Some e | None => Some CtxCanceled end) (i_chan w) (i_end w) (i_posts w) (i_events w) (i_opened w).

Fixpoint ctrl_reader (fuel : nat) r w : option io :=
  match fuel with
  | O => None
  | S fuel =>
      let w := ctx_callback w in
      match readCtrl r w with
      | (Err e, _) => let w := ctx_callback w in Some (i_cancel (cancelRead (readFailureCode e (i_ctx w)) w))
      | (Ok ev, r) => ctrl_reader fuel r (post_engine ev w)
      end
  end.

Definition runCtrlReader r w : option io := ctrl_reader (S (length (rd_data r))) r w.
End inbound.

(** ** The frames of a stream

    The reference reading of a SESS stream after its OPEN frame: the updates it
    carries and the error that ends them. *)

Section reading.
Context `{WD : !Types.Wire Sess_Update}.

Inductive parses : reader -> list Sess_Update -> read_err -> Prop :=
| parses_end r e r' : readFrame r updateFrame = (Err e, r') -> parses r [] e
| parses_next r u r' us e : readFrame r updateFrame = (Ok u, r') -> parses r' us e -> parses r (u :: us) e.

Lemma maxBroadcastFrame_range : 0 <= maxBroadcastFrame < 2 ^ 63.
Proof. unfold maxBroadcastFrame. lia. Qed.
#[local] Hint Resolve maxBroadcastFrame_range : core.

Lemma readFrame_Ok {M} `{WM : !Types.Wire M} r want (m : M) r' :
  readFrame r want = (Ok m, r') ->
  exists d, w_Unmarshal d = Ok m /\ ReadFrame r maxBroadcastFrame = (Ok (want, d), r') /\
    rd_data r = AppendFrame [] want d ++ rd_data r' /\ rd_end r' = rd_end r /\ (length (rd_data r') < length (rd_data r))%nat.
Proof.
  unfold readFrame. destruct (ReadFrame r maxBroadcastFrame) as [[[typ d]|e] r1] eqn:E; [|done].
  destruct (typ =? want) eqn:Et; [|done]. z_bool. subst typ. destruct (w_Unmarshal d) as [m'|] eqn:Em; [|done]. intros [= -> ->].
  exists d. split; [done|]. destruct (ReadFrame_consumes _ _ _ _ _ maxBroadcastFrame_range E) as (H1 & H2 & _).
  do 3 (split; [done|]). rewrite H1, length_app. pose proof (AppendFrame_nonempty want d). destruct (AppendFrame [] want d); [done|]. simpl. lia.
Qed.

Lemma parses_total r : exists us e, parses r us e.
Proof.
  remember (length (rd_data r)) as n eqn:Hn. revert r Hn. induction (lt_wf n) as [n _ IH]. intros r ->.
  destruct (readFrame r updateFrame) as [[u|e] r'] eqn:E; [|by exists [], e; econstructor].
  destruct (readFrame_Ok _ _ _ _ E) as (d & _ & _ & _ & _ & Hlt).
  destruct (IH _ Hlt r' eq_refl) as (us & e & Hp). exists (u :: us), e. by econstructor.
Qed.
End reading.

(** The peer reset the stream with [Reconstructed]. *)
Definition is_reconstructed (e : read_err) : bool :=
  match e with ReadFailed (FrameIO (ErrStream raw)) => bool_decide (ParseCode raw = Reconstructed) | _ => false end.

Section shape.
Context {St : Type}.
Context (env : environment).
Context `{WS : !Types.Wire Bcast_Subscribe} `{WU : !Types.Wire Bcast_Unsubscribe} `{WO : !Types.Wire Sess_Open} `{WD : !Types.Wire Sess_Update} `{WH : !Types.Wire Chunk_Header}.
Context (p : nat) (id : PeerID) (inboxFor : ChannelID -> option nat).
Implicit Types (w : inb St) (r : reader).

(** The binding or the channel has ended. *)
Definition dead w : Prop := is_Some (i_ctx w) \/ i_chan w = true.

(** The stream is open, or a callback ended it. *)
Definition cancelled_only w : Prop :=
  match i_end w with
  | None => True
  | Some None => False
  | Some (Some c) => failure_code c /\ dead w
  end.

(** Time passes: contexts may end, nothing is posted. *)
Record waits w w' : Prop := {
  wa_dead : dead w -> dead w';
  wa_ctx : forall e, i_ctx w = Some e -> i_ctx w' = Some e;
  wa_end : forall e, i_end w = Some e -> i_end w' = Some e;
  wa_posts : i_posts w' = i_posts w;
  wa_events : i_events w' = i_events w }.

Lemma waits_refl w : waits w w.
Proof. by split. Qed.
Lemma waits_trans w1 w2 w3 : waits w1 w2 -> waits w2 w3 -> waits w1 w3.
Proof. intros [] []. split; [auto|auto|auto|congruence|congruence]. Qed.

Lemma itick_waits w : waits w (itick env w).2 /\ i_end (itick env w).2 = i_end w.
Proof.
  split; [|done]. split; simpl; try done; [|by intros e ->].
  unfold dead. simpl. intros [[e ->]| ->]; [by left; eexists|by right].
Qed.

Lemma set_end_waits e w : waits w (set_end e w).
Proof. split; try done. simpl. by intros ? ->. Qed.

Lemma ctx_callback_waits w : waits w (ctx_callback env w) /\ (cancelled_only w -> cancelled_only (ctx_callback env w)).
Proof.
  unfold ctx_callback. destruct (itick_waits w) as [H E]. destruct (itick env w) as [a w1]. simpl in H, E.
  assert (cancelled_only w -> cancelled_only w1) as H1.
  { unfold cancelled_only. rewrite E. destruct (i_end w) as [[c|]|]; [|done|done]. intros [? ?]. split; [done|]. by apply H. }
  destruct (i_ctx w1) as [x|] eqn:Ec; [|done]. destruct (a_fire a); [|done].
  split; [eapply waits_trans; [exact H|apply set_end_waits]|]. intros Hc. specialize (H1 Hc). unfold cancelled_only in *. simpl.
  destruct (i_end w1) as [[c|]|]; [done|done|]. split; [|left; by exists x]. apply failure_code_ok.
Qed.

Lemma chan_callback_waits w : waits w (chan_callback env w) /\ (cancelled_only w -> cancelled_only (chan_callback env w)).
Proof.
  unfold chan_callback. destruct (itick_waits w) as [H E]. destruct (itick env w) as [a w1]. simpl in H, E.
  assert (cancelled_only w -> cancelled_only w1) as H1.
  { unfold cancelled_only. rewrite E. destruct (i_end w) as [[c|]|]; [|done|done]. intros [? ?]. split; [done|]. by apply H. }
  destruct (i_chan w1 && a_fire a) eqn:Ec; [|done]. apply andb_true_iff in Ec as [Ec _].
  split; [eapply waits_trans; [exact H|apply set_end_waits]|]. intros Hc. specialize (H1 Hc). unfold cancelled_only in *. simpl.
  destruct (i_end w1) as [[c|]|]; [done|done|]. split; [by right|by right].
Qed.

Lemma callbacks_waits w : waits w (callbacks env w) /\ (cancelled_only w -> cancelled_only (callbacks env w)).
Proof.
  unfold callbacks. destruct (ctx_callback_waits w) as [H1 C1], (chan_callback_waits (ctx_callback env w)) as [H2 C2].
  split; [by eapply waits_trans|auto].
Qed.

(** A post happens, or a context has ended. *)
Lemma post_spec h ev w :
  let '(x, w') := post env h ev w in
  exists w1, waits w w1 /\ i_end w1 = i_end w /\
    match x with Posted => w' = add_post h ev w1 | _ => w' = w1 /\ dead w1 end.
Proof.
  unfold post. destruct (itick_waits w) as [H E]. destruct (itick env w) as [a w1]. simpl in H, E.
  destruct (i_ctx w1) as [e|] eqn:Ec; [destruct (i_chan w1) eqn:Eh|destruct (i_chan w1) eqn:Eh]; destruct (a_send a);
    [| | | | | | |]; try (exists w1; by split_and!).
  - destruct (a_fire a); exists w1; (split_and!; [done|done|done|left; by eexists]).
  - exists w1. split_and!; [done|done|done|left; by eexists].
  - rewrite orb_true_r. exists w1. split_and!; [done|done|done|by right].
Qed.

Definition update_post (h : nat) (msg : MessageID) (u : Sess_Update) : nat * channelEvent St := (h, channelRoutingUpdate id msg (su_data u)).

Lemma set_end_Some e w : is_Some (i_end (set_end e w)).
Proof. simpl. by destruct (i_end w). Qed.

Lemma waits_dead w w' : waits w w' -> dead w -> dead w'.
Proof. by intros []. Qed.

(** The loop posts the updates in order, ends the stream, and stops early only
    when a context ended. *)
Definition loop_did (h : nat) (msg : MessageID) (us : list Sess_Update) (e : read_err) w (o : option (bool * inb St)) : Prop :=
  exists rc w' k t, o = Some (rc, w') /\
    i_posts w' = i_posts w ++ (update_post h msg <$> take k us) ++ t /\ is_Some (i_end w') /\
    (if rc : bool then is_reconstructed e = true /\ (t = [(h, channelPeerReconstructed msg id)] \/ t = [] /\ dead w')
     else t = [] /\ (dead w' \/ is_reconstructed e = false)) /\
    (dead w' \/ (length us <= k)%nat) /\ (dead w -> dead w').

(** It ends the stream, posting nothing. *)
Lemma loop_quits h msg us e w c x : waits w x -> dead x \/ is_reconstructed e = false /\ us = [] -> loop_did h msg us e w (Some (false, set_end c x)).
Proof.
  intros Hw Hd. exists false, (set_end c x), 0%nat, []. split; [done|].
  split; [rewrite (wa_posts _ _ (waits_trans _ _ _ Hw (set_end_waits _ _))), take_0; simpl; by rewrite app_nil_r|].
  split; [apply set_end_Some|]. split; [split; [done|destruct Hd as [?|[? _]]; auto]|].
  split; [destruct Hd as [?|[_ ->]]; [by left|right; simpl; lia]|]. exact (waits_dead _ _ (waits_trans _ _ _ Hw (set_end_waits c x))).
Qed.

(** The peer's reset with Reconstructed is posted. *)
Lemma loop_reconstructed h msg e w x : waits w x -> is_Some (i_end x) -> is_reconstructed e = true ->
  loop_did h msg [] e w (Some (true, (post env h (channelPeerReconstructed msg id) x).2)).
Proof.
  intros Hw He Hr. pose proof (post_spec h (channelPeerReconstructed msg id) x) as Hpost.
  destruct (post env h _ x) as [y w3]. destruct Hpost as (w4 & W4 & E4 & Hx4). pose proof (waits_trans _ _ _ Hw W4) as W04.
  assert (is_Some (i_end w4)) as He4 by (by rewrite E4). exists true. cbn [snd].
  destruct y; [subst w3|destruct Hx4 as [-> D4]|destruct Hx4 as [-> D4]].
  - exists (add_post h (channelPeerReconstructed msg id) w4), 0%nat, [(h, channelPeerReconstructed msg id)]. split; [done|].
    split; [simpl; by rewrite (wa_posts _ _ W04)|]. split; [done|]. split; [split; [done|by left]|].
    split; [right; simpl; lia|]. intros Hdw. exact (waits_dead w w4 W04 Hdw).
  - exists w4, 0%nat, []. split; [done|]. split; [simpl; by rewrite (wa_posts _ _ W04), app_nil_r|]. split; [done|].
    split; [split; [done|by right]|]. split; [by left|done].
  - exists w4, 0%nat, []. split; [done|]. split; [simpl; by rewrite (wa_posts _ _ W04), app_nil_r|]. split; [done|].
    split; [split; [done|by right]|]. split; [by left|done].
Qed.

Lemma session_loop_spec h msg fuel : forall r us e w,
  parses r us e -> (length (rd_data r) < fuel)%nat -> cancelled_only w -> loop_did h msg us e w (session_loop env id fuel h msg r w).
Proof.
  induction fuel as [|fuel IH]; intros r us e w Hp Hf Hc; [lia|]. cbn [session_loop].
  destruct (callbacks_waits w) as [Wa Ca]. specialize (Ca Hc). set (w1 := callbacks env w) in *.
  destruct (callbacks_waits w1) as [Wb _]. set (w2 := callbacks env w1) in *. pose proof (waits_trans _ _ _ Wa Wb) as Wab.
  unfold readMsg. destruct (i_end w1) as [[c|]|] eqn:Ee.
  - (* a callback ended the stream *)
    unfold cancelled_only in Ca. rewrite Ee in Ca. destruct Ca as [Cc Cd].
    rewrite decide_False by (by apply failure_code_parse). apply loop_quits; [done|]. left. by apply (waits_dead w1).
  - unfold cancelled_only in Ca. by rewrite Ee in Ca.
  - destruct (readFrame r updateFrame) as [[u|e'] r'] eqn:Er.
    + assert (exists us', us = u :: us' /\ parses r' us' e) as (us' & -> & Hp').
      { inversion Hp as [? ? ? Hx|? u2 r2 us' ? Hx Hp']; subst; rewrite Er in Hx; [done|]. injection Hx as <- <-. eauto. }
      pose proof (post_spec h (channelRoutingUpdate id msg (su_data u)) w1) as Hpost.
      destruct (post env h _ w1) as [x w3]. destruct Hpost as (w4 & W4 & E4 & Hx4). pose proof (waits_trans _ _ _ Wa W4) as W04.
      destruct x; [subst w3|destruct Hx4 as [-> D4]; apply loop_quits; auto..].
      destruct (readFrame_Ok _ _ _ _ Er) as (_ & _ & _ & _ & _ & Hlt).
      destruct (IH r' us' e (add_post h (channelRoutingUpdate id msg (su_data u)) w4)) as (rc & w' & k & t & H1 & H2 & H3 & H4 & H5 & H6); [done|lia| |].
      { unfold cancelled_only. simpl. by rewrite E4, Ee. }
      exists rc, w', (S k), t. split; [done|]. split; [rewrite H2; simpl; rewrite (wa_posts _ _ W04), <-app_assoc; done|].
      split; [done|]. split; [done|]. split; [destruct H5; [by left|right; simpl; lia]|]. intros Hdw. apply H6. exact (waits_dead w w4 W04 Hdw).
    + assert (us = [] /\ e' = e) as [-> ->].
      { inversion Hp as [? ? ? Hx|? u2 r2 us' ? Hx Hp']; subst; rewrite Er in Hx; [|done]. by injection Hx as <- <-. }
      destruct e as [[[| |raw|]| | |]| |]; try (apply loop_quits; [done|by right]).
      cbn [is_reconstructed]. destruct (decide (ParseCode raw = Reconstructed)) as [Hr|Hr].
      * apply loop_reconstructed; [eapply waits_trans; [exact Wab|apply set_end_waits]|apply set_end_Some|by apply bool_decide_true].
      * apply loop_quits; [done|]. right. split; [by apply bool_decide_false|done].
Qed.

(** What a SESS stream [r] makes the channel see: its OPEN, its updates in order
    and one end, cut short only when a context has ended. *)
Definition session_shape r (l : list (nat * channelEvent St)) w' : Prop :=
  match readFrame r openFrame with
  | (Err e, _) => l = [] /\ (dead w' \/ i_end w' = Some (Some (readFailureCode e None)))
  | (Ok so, r') =>
      match inboxFor (so_channel so) with
      | None => l = [] /\ (dead w' \/ i_end w' = Some (Some Refused))
      | Some h => (l = [] /\ dead w') \/
          exists us e k t, parses r' us e /\
            l = (h, channelSessionOpen id (so_objectId so) (so_preamble so) (so_initialUpdate so)) ::
                (update_post h (so_objectId so) <$> take k us) ++ t /\
            (t = [] /\ dead w' \/
             t = [(h, channelPeerReconstructed (so_objectId so) id)] /\ is_reconstructed e = true \/
             t = [(h, channelPeerSessionEnded (so_objectId so) id p)] /\ (dead w' \/ is_reconstructed e = false)) /\
            (dead w' \/ (length us <= k)%nat)
      end
  end.

Lemma cancelRead_fresh c w : i_end w = None -> i_end (cancelRead c w) = Some (Some c).
Proof. intros E. simpl. by rewrite E. Qed.

Lemma alive_open w : cancelled_only w -> ~ dead w -> i_end w = None.
Proof. unfold cancelled_only. destruct (i_end w) as [[c|]|]; [|done|done]. by intros [_ ?]. Qed.

#[local] Instance ctx_err_eq_dec : EqDecision ctx_err.
Proof. solve_decision. Defined.
Lemma dead_dec w : dead w \/ ~ dead w.
Proof. unfold dead. destruct (i_ctx w) as [e|], (i_chan w); [by left; left; eexists|by left; left; eexists|by left; right|]. right. by intros [[? ?]|?]. Qed.

Lemma not_dead_ctx w : ~ dead w -> i_ctx w = None.
Proof. intros H. destruct (i_ctx w) eqn:E; [|done]. destruct H. left. by eexists. Qed.

(** After its OPEN was posted: the updates, and one end. *)
Lemma inbound_rest h so r' w w4 : cancelled_only w4 ->
  i_posts w4 = i_posts w ++ [(h, channelSessionOpen id (so_objectId so) (so_preamble so) (so_initialUpdate so))] ->
  exists w', (letp x := session_loop env id (S (length (rd_data r'))) h (so_objectId so) r' w4 in
              let '(reconstructed, w) := (x : bool * inb St) in
              if reconstructed : bool then Some w else Some (post env h (channelPeerSessionEnded (so_objectId so) id p) w).2) = Some w' /\
    is_Some (i_end w') /\ exists l, i_posts w' = i_posts w ++ l /\
    exists us e k t, parses r' us e /\
      l = (h, channelSessionOpen id (so_objectId so) (so_preamble so) (so_initialUpdate so)) :: (update_post h (so_objectId so) <$> take k us) ++ t /\
      (t = [] /\ dead w' \/
       t = [(h, channelPeerReconstructed (so_objectId so) id)] /\ is_reconstructed e = true \/
       t = [(h, channelPeerSessionEnded (so_objectId so) id p)] /\ (dead w' \/ is_reconstructed e = false)) /\
      (dead w' \/ (length us <= k)%nat).
Proof.
  intros C4 P4. destruct (parses_total r') as (us & e & Hp).
  destruct (session_loop_spec h (so_objectId so) (S (length (rd_data r'))) r' us e w4 Hp ltac:(lia) C4)
    as (rc & w6 & k & t & -> & Hposts & Hend & Hrc & Hk & Hdd). cbn [mbind option_bind].
  destruct rc.
  - exists w6. split; [done|]. split; [done|]. eexists. split; [rewrite Hposts, P4, <-app_assoc; reflexivity|].
    exists us, e, k, t. split; [done|]. split; [done|]. split; [|done]. destruct Hrc as [? [->|[-> ?]]]; [right; left|left]; done.
  - destruct Hrc as [-> Hrc]. rewrite app_nil_r in Hposts.
    pose proof (post_spec h (channelPeerSessionEnded (so_objectId so) id p) w6) as Hpost.
    destruct (post env h _ w6) as [x w7]. destruct Hpost as (w8 & W8 & E8 & Hx8).
    assert (is_Some (i_end w8)) as He8 by (by rewrite E8).
    assert (dead w8 \/ (length us <= k)%nat) as Hk8 by (destruct Hk; [left; by apply (waits_dead _ _ W8)|by right]).
    destruct x; [subst w7|destruct Hx8 as [-> D]|destruct Hx8 as [-> D]]; (eexists; split; [done|]); (split; [done|]); eexists.
    + split; [simpl; rewrite (wa_posts _ _ W8), Hposts, P4, <-!app_assoc; reflexivity|].
      exists us, e, k, [(h, channelPeerSessionEnded (so_objectId so) id p)]. split; [done|]. split; [done|]. split; [|done].
      right. right. split; [done|]. destruct Hrc; [left; by apply (waits_dead _ _ W8)|by right].
    + split; [simpl; rewrite (wa_posts _ _ W8), Hposts, P4, <-!app_assoc; reflexivity|].
      exists us, e, k, []. rewrite app_nil_r. split; [done|]. split; [done|]. split; [by left|done].
    + split; [simpl; rewrite (wa_posts _ _ W8), Hposts, P4, <-!app_assoc; reflexivity|].
      exists us, e, k, []. rewrite app_nil_r. split; [done|]. split; [done|]. split; [by left|done].
Qed.

Lemma inbound_session_spec r w : i_end w = None ->
  exists w', runInboundSession env p id inboxFor r w = Some w' /\ is_Some (i_end w') /\
    exists l, i_posts w' = i_posts w ++ l /\ session_shape r l w'.
Proof.
  intros He. assert (cancelled_only w) as Hc by (unfold cancelled_only; by rewrite He).
  unfold runInboundSession, session_shape. destruct (ctx_callback_waits w) as [Wa Ca]. specialize (Ca Hc).
  set (w1 := ctx_callback env w) in *. destruct (ctx_callback_waits w1) as [Wb Cb]. specialize (Cb Ca).
  set (w2 := ctx_callback env w1) in *. pose proof (waits_trans _ _ _ Wa Wb) as Wab.
  assert (forall x l, waits w x -> l = [] -> i_posts x = i_posts w ++ l) as Hnil by (intros x l Hx ->; by rewrite (wa_posts _ _ Hx), app_nil_r).
  unfold readMsg. destruct (i_end w1) as [[c|]|] eqn:Ee.
  { unfold cancelled_only in Ca. rewrite Ee in Ca. destruct Ca as [_ Cd].
    assert (dead (set_end (Some (readFailureCode (ReadFailed (FrameIO (ErrStream (Wire.Wire c)))) (i_ctx w2))) w2)) as Hd by exact (waits_dead _ _ Wb Cd).
    eexists. split; [done|]. split; [apply set_end_Some|]. exists [].
    split; [apply Hnil; [eapply waits_trans; [exact Wab|apply set_end_waits]|done]|].
    destruct (readFrame r openFrame) as [[so|e] r']; [|split; [done|by left]]. destruct (inboxFor (so_channel so)); [by left|]. split; [done|by left]. }
  { unfold cancelled_only in Ca. by rewrite Ee in Ca. }
  destruct (readFrame r openFrame) as [[so|e] r'] eqn:Er.
  2:{ eexists. split; [done|]. split; [apply set_end_Some|]. exists [].
      split; [apply Hnil; [eapply waits_trans; [exact Wab|apply set_end_waits]|done]|]. split; [done|].
      destruct (dead_dec w2) as [?|Hn]; [by left|right]. rewrite (not_dead_ctx _ Hn). apply cancelRead_fresh. by apply alive_open. }
  set (w1o := mk_in _ _ _ _ _ _ _). assert (waits w w1o) as Wo by (split; [exact (wa_dead _ _ Wa)|exact (wa_ctx _ _ Wa)|by rewrite He|exact (wa_posts _ _ Wa)|exact (wa_events _ _ Wa)]).
  assert (cancelled_only w1o) as Co by done.
  destruct (inboxFor (so_channel so)) as [h|] eqn:Eh.
  2:{ destruct (ctx_callback_waits w1o) as [W3 C3]. specialize (C3 Co).
      eexists. split; [done|]. split; [apply set_end_Some|]. exists [].
      split; [apply Hnil; [eapply waits_trans; [exact Wo|eapply waits_trans; [exact W3|apply set_end_waits]]|done]|]. split; [done|].
      destruct (dead_dec (ctx_callback env w1o)) as [?|Hn]; [by left|right]. apply cancelRead_fresh. by apply alive_open. }
  destruct (callbacks_waits w1o) as [W3 C3]. specialize (C3 Co). set (w3 := callbacks env w1o) in *.
  pose proof (waits_trans _ _ _ Wo W3) as W03.
  pose proof (post_spec h (channelSessionOpen id (so_objectId so) (so_preamble so) (so_initialUpdate so)) w3) as Hpost.
  destruct (post env h _ w3) as [x w4]. destruct Hpost as (w5 & W5 & E5 & Hx). pose proof (waits_trans _ _ _ W03 W5) as W05.
  destruct x; [subst w4|destruct Hx as [-> D]|destruct Hx as [-> D]].
  2,3: eexists; (split; [done|]); (split; [apply set_end_Some|]); exists [];
    (split; [apply Hnil; [eapply waits_trans; [exact W05|apply set_end_waits]|done]|]); by left.
  set (w4 := add_post _ _ w5).
  assert (cancelled_only w4) as C4.
  { unfold cancelled_only in C3 |- *. unfold w4. simpl. rewrite E5. destruct (i_end w3) as [[c|]|]; [|done|done]. destruct C3 as [? D3].
    split; [done|]. exact (waits_dead _ _ W5 D3). }
  assert (i_posts w4 = i_posts w ++ [(h, channelSessionOpen id (so_objectId so) (so_preamble so) (so_initialUpdate so))]) as P4
    by (unfold w4; simpl; by rewrite (wa_posts _ _ W05)).
  destruct (inbound_rest h so r' w w4 C4 P4) as (w' & E & He' & l & Hl & Hs). exists w'. split; [exact E|]. split; [done|]. exists l. split; [done|]. by right.
Qed.

(** A CHUNK stream is handed to the channel with its header, or ended here. *)
Definition chunk_shape (stream : nat) r (l : list (nat * channelEvent St)) (r' : reader) w' : Prop :=
  match readFrame r headerFrame with
  | (Err e, _) => l = [] /\ is_Some (i_end w') /\ (dead w' \/ i_end w' = Some (Some (readFailureCode e None)))
  | (Ok fr, rest) =>
      match inboxFor (hd_channel fr) with
      | None => l = [] /\ is_Some (i_end w') /\ (dead w' \/ i_end w' = Some (Some Refused))
      | Some h =>
          (l = [] /\ is_Some (i_end w') /\ dead w') \/
          (l = [(h, channelChunk (mk_chunkStream id (hd_objectId fr) (hd_chunkId fr) (hd_dataLength fr) stream))] /\
           r' = rest /\ (i_end w' = None /\ i_chan w' = false \/ is_Some (i_end w') /\ dead w'))
      end
  end.

Lemma processChunk_spec stream r w : i_end w = None ->
  let '(r', w') := processChunk env id inboxFor stream r w in
  exists l, i_posts w' = i_posts w ++ l /\ chunk_shape stream r l r' w'.
Proof.
  intros He. assert (cancelled_only w) as Hc by (unfold cancelled_only; by rewrite He).
  unfold processChunk, chunk_shape. destruct (ctx_callback_waits w) as [Wa Ca]. specialize (Ca Hc).
  set (w1 := ctx_callback env w) in *. destruct (ctx_callback_waits w1) as [Wb Cb]. specialize (Cb Ca).
  set (w2 := ctx_callback env w1) in *. pose proof (waits_trans _ _ _ Wa Wb) as Wab.
  assert (forall x, waits w x -> i_posts x = i_posts w ++ []) as Hnil by (intros x Hx; by rewrite (wa_posts _ _ Hx), app_nil_r).
  assert (forall x y, waits w x -> waits w (set_end y x)) as Hs by (intros x y Hx; eapply waits_trans; [exact Hx|apply set_end_waits]).
  destruct (itick_waits w2) as [W3 E3]. set (w3 := (itick env w2).2) in *. pose proof (waits_trans _ _ _ Wab W3) as W03.
  unfold readMsg. destruct (i_end w1) as [[c|]|] eqn:Ee.
  { unfold cancelled_only in Ca. rewrite Ee in Ca. destruct Ca as [_ Cd]. pose proof (waits_dead _ _ Wb Cd) as Cd2.
    exists []. split; [by apply Hnil, Hs|]. pose proof (set_end_Some (Some (readFailureCode (ReadFailed (FrameIO (ErrStream (Wire.Wire c)))) (i_ctx w2))) w2).
    destruct (readFrame r headerFrame) as [[fr|e] r']; [|split_and!; [done|done|by left]].
    destruct (inboxFor (hd_channel fr)); [left|]; split_and!; try done. by left. }
  { unfold cancelled_only in Ca. by rewrite Ee in Ca. }
  destruct (readFrame r headerFrame) as [[fr|e] r'] eqn:Er.
  2:{ exists []. split; [by apply Hnil, Hs|]. split; [done|]. split; [apply set_end_Some|].
      destruct (dead_dec w2) as [?|Hn]; [by left|right]. rewrite (not_dead_ctx _ Hn). apply cancelRead_fresh. by apply alive_open. }
  destruct (i_ctx w3) as [x|] eqn:Ec.
  { exists []. split; [by apply Hnil, Hs|]. pose proof (set_end_Some (Some (ctx_code w3)) w3). assert (dead (cancelRead (ctx_code w3) w3)) by (left; by exists x).
    destruct (inboxFor (hd_channel fr)); [left|]; split_and!; try done. by left. }
  assert (cancelled_only w3) as C3.
  { unfold cancelled_only in *. rewrite E3. destruct (i_end w2) as [[c|]|]; [|done|done]. destruct Cb. split; [done|]. by apply (waits_dead _ _ W3). }
  destruct (inboxFor (hd_channel fr)) as [h|].
  2:{ exists []. split; [by apply Hnil, Hs|]. split; [done|]. split; [apply set_end_Some|].
      destruct (dead_dec w3) as [?|Hn]; [by left|right]. apply cancelRead_fresh. by apply alive_open. }
  pose proof (post_spec h (channelChunk (mk_chunkStream id (hd_objectId fr) (hd_chunkId fr) (hd_dataLength fr) stream)) w3) as Hpost.
  destruct (post env h _ w3) as [x w4]. destruct Hpost as (w5 & W5 & E5 & Hx). pose proof (waits_trans _ _ _ W03 W5) as W05.
  destruct x; [subst w4|destruct Hx as [-> D]|destruct Hx as [-> D]].
  2,3: exists []; (split; [by apply Hnil, Hs|]); left; (split_and!; [done|apply set_end_Some|done]).
  set (w4 := add_post _ _ w5). destruct (itick_waits w4) as [W6 E6]. set (w6 := (itick env w4).2) in *.
  eexists. split; [destruct (i_chan w6); [unfold cancelRead; rewrite (wa_posts _ _ (set_end_waits _ _))|]; rewrite (wa_posts _ _ W6); unfold w4; simpl; by rewrite (wa_posts _ _ W05)|].
  right. split; [done|]. split; [done|]. destruct (i_chan w6) eqn:Eh; [right; split; [apply set_end_Some|by right]|].
  assert (i_end w6 = i_end w3) as E63 by (rewrite E6; unfold w4; simpl; by rewrite E5).
  destruct (i_end w6) eqn:E7; [right|by left]. split; [by eexists|].
  assert (dead w3) as D3 by (unfold cancelled_only in C3; rewrite <-E63 in C3; destruct o as [c|]; [by destruct C3|done]).
  apply (waits_dead _ _ W6). exact (waits_dead _ _ W5 D3).
Qed.

(** ** The control reader *)

Inductive ctrl_parses : reader -> list engine_event -> read_err -> Prop :=
| cp_end r e r' : ctrlFrame p r = (Err e, r') -> ctrl_parses r [] e
| cp_next r ev r' evs e : ctrlFrame p r = (Ok ev, r') -> ctrl_parses r' evs e -> ctrl_parses r (ev :: evs) e.

Lemma ctrlFrame_Ok r ev r' : ctrlFrame p r = (Ok ev, r') ->
  exists typ d, ReadFrame r maxBroadcastFrame = (Ok (typ, d), r') /\ (length (rd_data r') < length (rd_data r))%nat /\
    ((typ = subscribeFrame /\ exists m, w_Unmarshal d = Ok m /\ ev = EvSubscribe p (sub_channel m)) \/
     (typ = unsubscribeFrame /\ exists m, w_Unmarshal d = Ok m /\ ev = EvUnsubscribe p (unsub_channel m))).
Proof.
  unfold ctrlFrame. destruct (ReadFrame r maxBroadcastFrame) as [[[typ d]|e] r1] eqn:E; [|done]. intros H.
  destruct (ReadFrame_consumes _ _ _ _ _ maxBroadcastFrame_range E) as (H1 & _ & _).
  assert (length (rd_data r1) < length (rd_data r))%nat.
  { rewrite H1, length_app. pose proof (AppendFrame_nonempty typ d). destruct (AppendFrame [] typ d); [done|]. simpl. lia. }
  exists typ, d. destruct (typ =? subscribeFrame) eqn:E1; [|destruct (typ =? unsubscribeFrame) eqn:E2; [|done]].
  - destruct (w_Unmarshal d) as [m|] eqn:Em; [|done]. simplify_eq. z_bool. split; [done|]. split; [done|]. left. eauto.
  - destruct (w_Unmarshal d) as [m|] eqn:Em; [|done]. simplify_eq. z_bool. split; [done|]. split; [done|]. right. eauto.
Qed.

Lemma ctrl_parses_total r : exists evs e, ctrl_parses r evs e.
Proof.
  remember (length (rd_data r)) as n eqn:Hn. revert r Hn. induction (lt_wf n) as [n _ IH]. intros r ->.
  destruct (ctrlFrame p r) as [[ev|e] r'] eqn:E; [|by exists [], e; econstructor].
  destruct (ctrlFrame_Ok _ _ _ E) as (typ & d & _ & Hlt & _).
  destruct (IH _ Hlt r' eq_refl) as (evs & e & Hp). exists (ev :: evs), e. by econstructor.
Qed.

Lemma post_engine_spec ev w :
  i_end (post_engine env ev w) = i_end w /\
  exists l, i_events (post_engine env ev w) = i_events w ++ l /\ l `sublist_of` [ev] /\
    ((forall n, a_done (env n) = None) -> i_ctx w = None -> l = [ev] /\ i_ctx (post_engine env ev w) = None).
Proof.
  unfold post_engine, itick. set (w1 := (mk_in (S _) _ _ _ _ _ _ : inb St)).
  assert (i_ctx w1 = match i_ctx w with Some e => Some e | None => a_done (env (i_clock w)) end) as Ec by done.
  destruct (i_ctx w1) as [x|] eqn:Ex; [destruct (a_send (env (i_clock w)))|].
  - split; [done|]. exists [ev]. split; [done|]. split; [done|]. intros Hn Hx. by rewrite Hx, Hn in Ec.
  - split; [done|]. exists []. split; [by rewrite app_nil_r|]. split; [apply sublist_nil_l|].
    intros Hn Hx. by rewrite Hx, Hn in Ec.
  - split; [done|]. by exists [ev].
Qed.

Lemma ctx_callback_quiet w : (forall n, a_done (env n) = None) -> i_ctx w = None -> i_end w = None ->
  i_ctx (ctx_callback env w) = None /\ i_end (ctx_callback env w) = None.
Proof. intros Hn Hc He. unfold ctx_callback, itick. cbn. by rewrite Hc, Hn. Qed.

(** It always ends, with the stream and the binding; every event read before the
    binding ended is posted, in order. *)
Lemma ctrl_reader_spec fuel : forall r w, (length (rd_data r) < fuel)%nat -> i_end w <> Some None ->
  exists w' evs e l, ctrl_reader env p fuel r w = Some w' /\ ctrl_parses r evs e /\
    i_events w' = i_events w ++ l /\ l `sublist_of` evs /\ is_Some (i_end w') /\ is_Some (i_ctx w') /\
    ((forall n, a_done (env n) = None) -> i_ctx w = None -> i_end w = None ->
       l = evs /\ i_end w' = Some (Some (readFailureCode e None))).
Proof.
  induction fuel as [|fuel IH]; intros r w Hf Hc; [lia|]. cbn [ctrl_reader].
  destruct (ctx_callback_waits w) as [Wa _]. set (w1 := ctx_callback env w) in *.
  destruct (ctx_callback_waits w1) as [Wb _]. set (w2 := ctx_callback env w1) in *.
  assert (forall c, is_Some (i_end (i_cancel (cancelRead c w2))) /\ is_Some (i_ctx (i_cancel (cancelRead c w2)))) as Hdone.
  { intros c. split; [apply set_end_Some|]. simpl. by destruct (i_ctx w2). }
  assert (i_events w1 = i_events w) as V1 by apply (wa_events _ _ Wa).
  assert (forall c, i_events (i_cancel (cancelRead c w2)) = i_events w ++ []) as V2.
  { intros c. simpl. by rewrite (wa_events _ _ Wb), V1, app_nil_r. }
  unfold readCtrl. destruct (i_end w1) as [[c|]|] eqn:Ee.
  - destruct (ctrl_parses_total r) as (evs & e & Hp). eexists _, evs, e, []. split; [done|]. split; [done|]. split; [apply V2|].
    split; [apply sublist_nil_l|]. destruct (Hdone (readFailureCode (ReadFailed (FrameIO (ErrStream (Wire.Wire c)))) (i_ctx w2))). split; [done|]. split; [done|].
    intros Hn Hx Hy. destruct (ctx_callback_quiet w Hn Hx Hy) as [_ H']. fold w1 in H'. congruence.
  - exfalso. unfold w1, ctx_callback in Ee. destruct (itick_waits w) as [_ E']. destruct (itick env w) as [a w3]. simpl in E'.
    destruct (i_ctx w3); [destruct (a_fire a)|]; simpl in Ee; rewrite E' in Ee; [destruct (i_end w) as [[]|]; congruence|congruence|congruence].
  - destruct (ctrlFrame p r) as [[ev|e] r'] eqn:Er.
    + destruct (ctrlFrame_Ok _ _ _ Er) as (typ & d & _ & Hlt & _).
      destruct (post_engine_spec ev w1) as (P1 & l1 & P3 & P4 & P5).
      destruct (IH r' (post_engine env ev w1)) as (w' & evs & e & l & H1 & H2 & H3 & H4 & H5 & H6 & H7); [lia|by rewrite P1, Ee|].
      exists w', (ev :: evs), e, (l1 ++ l). split; [done|]. split; [by econstructor|]. split; [rewrite H3, P3, V1; by rewrite app_assoc|].
      split; [by apply (sublist_app l1 [ev] l evs)|]. split; [done|]. split; [done|]. intros Hn Hx Hy.
      destruct (ctx_callback_quiet w Hn Hx Hy) as [Hq1 Hq2]. fold w1 in Hq1, Hq2. destruct (P5 Hn Hq1) as [-> Hq3].
      destruct H7 as [-> ?]; [done|done|by rewrite P1|]. done.
    + eexists _, [], e, []. split; [done|]. split; [by econstructor|]. split; [apply V2|]. split; [done|].
      destruct (Hdone (readFailureCode e (i_ctx w2))). split; [done|]. split; [done|]. intros Hn Hx Hy. split; [done|].
      destruct (ctx_callback_quiet w Hn Hx Hy) as [Hq1 Hq2]. fold w1 in Hq1, Hq2.
      destruct (ctx_callback_quiet w1 Hn Hq1 Hq2) as [Hq3 Hq4]. fold w2 in Hq3, Hq4. simpl. by rewrite Hq3, Hq4.
Qed.
End shape.
