(* ===== verification/PeerWire.v ===== *)
(** * PeerWire: two peer bindings and the streams between them

    The sender's goroutines of [PeerOut] and the receiver's of [PeerIn] composed
    over QUIC: what a receiver gets of a stream is a prefix of the bytes written
    to it, ended by the FIN only after all of them, or by the code the sender
    reset it with. *)

From S2P Require Import Prelude Wire Types CtrlOut Session Reader Channel Engine PeerIo PeerOut PeerIn.
Open Scope Z_scope.


(** ** QUIC streams *)

(** What arrives of a stream, as QUIC documents it; a local deadline may cut it. *)
Definition arrives (sd : send_side) (r : reader) : Prop :=
  rd_data r `prefix_of` sd_bytes sd /\
  match rd_end r with
  | EOF => sd_end sd = Some Fin /\ rd_data r = sd_bytes sd
  | ErrStream raw => exists c, sd_end sd = Some (Reset c) /\ raw = Wire.Wire c
  | _ => True
  end.

(** ** Frames in a prefix *)

Lemma ReadFrame_type r m typ d r' : ReadFrame r m = (Ok (typ, d), r') -> 0 <= typ < 2 ^ 64.
Proof.
  unfold ReadFrame. destruct (readMinimalUvarint r) as [[t|] r1] eqn:E1; [|done].
  apply readMinimalUvarint_Ok in E1 as (_ & _ & Ht).
  destruct (readMinimalUvarint r1) as [[len|] r2]; [|done]. destruct (u64 m <? len); [done|].
  destruct (read_full r2 (Z.to_nat len)) as [[p|] r3]; [|done]. by intros [= <- _ _].
Qed.

(** A frame read from a prefix of a sequence of frames is the first of them. *)
Lemma frame_of_prefix r m typ d r' t0 d0 rest :
  0 <= m < 2 ^ 63 -> 0 <= t0 < 2 ^ 64 -> Z.of_nat (length d0) < 2 ^ 63 ->
  rd_data r `prefix_of` AppendFrame [] t0 d0 ++ rest -> ReadFrame r m = (Ok (typ, d), r') ->
  typ = t0 /\ d = d0 /\ rd_data r' `prefix_of` rest /\ rd_end r' = rd_end r.
Proof.
  intros Hm Ht Hd [q Hq] HR. pose proof (ReadFrame_type _ _ _ _ _ HR) as Ht'.
  destruct (ReadFrame_consumes _ _ _ _ _ Hm HR) as (E1 & E2 & E3). rewrite E1, <-app_assoc in Hq.
  set (n := Z.max (Z.of_nat (length d0)) (Z.of_nat (length d))).
  pose proof (ReadFrame_append t0 d0 rest EOF n Ht ltac:(lia) ltac:(lia)) as HA.
  rewrite Hq, (ReadFrame_append typ d (rd_data r' ++ q) EOF n Ht' ltac:(lia) ltac:(lia)) in HA.
  injection HA as -> -> <-. split; [done|]. split; [done|]. split; [by eexists|done].
Qed.

(** Conversely a frame that arrived whole is read. *)
Lemma frame_arrived typ d data e rest :
  0 <= typ < 2 ^ 64 -> Z.of_nat (length d) <= maxBroadcastFrame -> data = AppendFrame [] typ d ++ rest ->
  ReadFrame (mk_reader data e) maxBroadcastFrame = (Ok (typ, d), mk_reader rest e).
Proof. intros Ht Hd ->. apply ReadFrame_append; [done|apply maxBroadcastFrame_range|done]. Qed.

(** An encoding is a Go slice: its length fits an [int]. *)
Class WireBound (M : Type) `{!Types.Wire M} := wire_bound : forall (m : M) b, w_Marshal m = Ok b -> Z.of_nat (length b) < 2 ^ 63.

Lemma frame_of_Ok {M} `{WM : !Types.Wire M} typ (m : M) : frame_of typ m <> [] ->
  exists b, w_Marshal m = Ok b /\ frame_of typ m = AppendFrame [] typ b.
Proof. unfold frame_of, Reader.writeFrame. destruct (w_Marshal m) as [b|e]; [|done]. intros _. by exists b. Qed.

Section sess.
Context `{WO : !Types.Wire Sess_Open} `{LO : !WireLaws Sess_Open} `{BO : !WireBound Sess_Open}.
Context `{WD : !Types.Wire Sess_Update} `{LD : !WireLaws Sess_Update} `{BD : !WireBound Sess_Update}.

Lemma readFrame_prefix {M} `{WM : !Types.Wire M} `{LM : !WireLaws M} `{BM : !WireBound M} r typ (m0 m : M) rest r' :
  0 <= typ < 2 ^ 64 -> frame_of typ m0 <> [] -> rd_data r `prefix_of` frame_of typ m0 ++ rest ->
  readFrame r typ = (Ok m, r') -> m = m0 /\ rd_data r' `prefix_of` rest /\ rd_end r' = rd_end r.
Proof.
  intros Ht Hn Hp HR. destruct (frame_of_Ok typ m0 Hn) as (b & Hb & E). rewrite E in Hp.
  destruct (readFrame_Ok _ _ _ _ HR) as (d & Hd & HF & _).
  destruct (frame_of_prefix _ _ _ _ _ _ _ _ maxBroadcastFrame_range Ht (wire_bound m0 b Hb) Hp HF) as (_ & -> & ? & ?).
  rewrite (wire_roundtrip m0 b Hb) in Hd. by simplify_eq.
Qed.

(** The updates read from a part of the script are the first ones of it. *)
Lemma parses_prefix us0 : forall r us e,
  Forall (fun u => frame_of updateFrame (mk_Sess_Update u) <> []) us0 ->
  rd_data r `prefix_of` mjoin ((fun u => frame_of updateFrame (mk_Sess_Update u)) <$> us0) ->
  parses r us e -> (su_data <$> us) `prefix_of` us0.
Proof.
  induction us0 as [|u0 us0 IH]; intros r us e Hf Hp HP.
  - simpl in Hp. apply prefix_nil_inv in Hp. destruct HP as [|r u r' us e E HP']; [apply prefix_nil|].
    destruct (readFrame_Ok _ _ _ _ E) as (d & _ & _ & Hd & _). rewrite Hp in Hd. symmetry in Hd.
    apply app_eq_nil in Hd as [Hd _]. by apply AppendFrame_nonempty in Hd.
  - apply Forall_cons in Hf as [Hu Hf]. destruct HP as [|r u r' us e E HP']; [apply prefix_nil|].
    destruct (readFrame_prefix r updateFrame (mk_Sess_Update u0) u _ r' ltac:(done) Hu Hp E) as (-> & Hp' & _).
    simpl. apply prefix_cons. by apply (IH r' us e).
Qed.

(** All of them when the whole script arrived and the frames are within the
    limit of the reader. *)
Definition fits {M} `{!Types.Wire M} (m : M) : Prop := exists b, w_Marshal m = Ok b /\ Z.of_nat (length b) <= maxBroadcastFrame.

Lemma readFrame_fits {M} `{WM : !Types.Wire M} `{LM : !WireLaws M} typ (m : M) rest e :
  0 <= typ < 2 ^ 64 -> fits m -> readFrame (mk_reader (frame_of typ m ++ rest) e) typ = (Ok m, mk_reader rest e).
Proof.
  intros Ht (b & Hb & Hl). unfold readFrame, frame_of, Reader.writeFrame. rewrite Hb. simpl.
  rewrite (frame_arrived typ b _ e rest Ht Hl eq_refl), Z.eqb_refl. by rewrite (wire_roundtrip m b Hb).
Qed.

Lemma parses_all us0 : forall e us er,
  Forall (fun u => fits (mk_Sess_Update u)) us0 ->
  parses (mk_reader (mjoin ((fun u => frame_of updateFrame (mk_Sess_Update u)) <$> us0)) e) us er -> e = EOF ->
  (su_data <$> us) = us0 /\ er = ReadFailed (FrameIO EOF).
Proof.
  induction us0 as [|u0 us0 IH]; intros e us er Hf HP ->.
  - change (mjoin _) with (@nil Byte.byte) in HP. inversion HP as [? ? ? E|? ? ? ? ? E]; subst; [|done]. unfold readFrame, ReadFrame in E. simpl in E. by simplify_eq.
  - apply Forall_cons in Hf as [Hu Hf]. pose proof (readFrame_fits updateFrame (mk_Sess_Update u0)
      (mjoin ((fun u => frame_of updateFrame (mk_Sess_Update u)) <$> us0)) EOF ltac:(done) Hu) as HR.
    change (mjoin (_ <$> u0 :: us0)) with (frame_of updateFrame (mk_Sess_Update u0) ++ mjoin ((fun u => frame_of updateFrame (mk_Sess_Update u)) <$> us0)) in HP.
    inversion HP as [? ? ? E|? u r' us' ? E HP']; subst; rewrite HR in E; simplify_eq.
    destruct (IH EOF us' er Hf HP' eq_refl) as [<- ->]. done.
Qed.
End sess.

(** ** Resets *)

(** A read reports a reset only when the stream ended with it. *)
Lemma read_full_stream r n raw r' : read_full r n = (Err (ErrStream raw), r') -> rd_end r = ErrStream raw.
Proof.
  unfold read_full. destruct (n <=? length (rd_data r))%nat; [done|]. intros [= H _].
  destruct (rd_data r), (rd_end r); naive_solver.
Qed.

Lemma read_full_end r n x r' : read_full r n = (x, r') -> rd_end r' = rd_end r.
Proof. unfold read_full. destruct (n <=? length (rd_data r))%nat; by intros [= _ <-]. Qed.

Lemma read_loop_stream k : forall i x s r cnt raw r' n,
  Uvarint.read_loop k i x s r cnt = (Err (Uvarint.UvIO (ErrStream raw)), r', n) -> rd_end r = ErrStream raw.
Proof.
  induction k as [|k IH]; intros i x s r cnt raw r' n; cbn [Uvarint.read_loop]; [done|].
  destruct (read_full r 1) as [[bs|e] r1] eqn:E.
  - pose proof (read_full_end _ _ _ _ E) as He. destruct (b2z _ <? 128); [destruct (_ && _); done|]. intros H. apply IH in H. congruence.
  - intros [= H _ _]. assert (e = ErrStream raw) as ->; [|by apply read_full_stream in E]. destruct i, e; naive_solver.
Qed.

Lemma readMinimalUvarint_stream r raw r' : readMinimalUvarint r = (Err (FrameIO (ErrStream raw)), r') -> rd_end r = ErrStream raw.
Proof.
  unfold readMinimalUvarint, Uvarint.ReadUvarint. destruct (Uvarint.read_loop _ _ _ _ _ _) as [[[v|e] r1] n] eqn:E.
  - by destruct (_ =? _)%nat.
  - intros [= H _]. destruct e as [e|]; [|done]. simpl in H. simplify_eq. by eapply read_loop_stream.
Qed.

Lemma ReadFrame_stream r m raw r' : ReadFrame r m = (Err (FrameIO (ErrStream raw)), r') -> rd_end r = ErrStream raw.
Proof.
  unfold ReadFrame. destruct (readMinimalUvarint r) as [[t|e] r1] eqn:E1.
  2:{ intros [= -> _]. by apply readMinimalUvarint_stream in E1. }
  apply readMinimalUvarint_Ok in E1 as (_ & He1 & _).
  destruct (readMinimalUvarint r1) as [[len|e] r2] eqn:E2.
  2:{ intros [= H _]. destruct e as [[]| | |]; try done. simpl in H. simplify_eq. apply readMinimalUvarint_stream in E2. congruence. }
  apply readMinimalUvarint_Ok in E2 as (_ & He2 & _). destruct (u64 m <? len); [done|].
  destruct (read_full r2 (Z.to_nat len)) as [[d|e] r3] eqn:E3; [done|].
  intros [= H _]. destruct e; try done. simpl in H. simplify_eq. apply read_full_stream in E3. congruence.
Qed.

Lemma parses_reconstructed `{WD : !Types.Wire Sess_Update} r us e :
  parses r us e -> is_reconstructed e = true -> exists raw, rd_end r = ErrStream raw /\ ParseCode raw = Reconstructed.
Proof.
  induction 1 as [r e r' E|r u r' us e E HP IH]; intros Hr.
  - destruct e as [[[| |raw|]| | |]| |]; try done. cbn in Hr. apply bool_decide_eq_true in Hr. exists raw. split; [|done].
    unfold readFrame in E. destruct (ReadFrame r maxBroadcastFrame) as [[[typ d]|e] r1] eqn:ER.
    + destruct (typ =? updateFrame); [destruct (w_Unmarshal d)|]; done.
    + simplify_eq. by eapply ReadFrame_stream.
  - destruct (readFrame_Ok _ _ _ _ E) as (_ & _ & _ & _ & He & _). destruct (IH Hr) as (raw & ? & ?). exists raw. by rewrite <-He.
Qed.

(** ** Sessions *)

Section delivery.
Context {St : Type}.
Context `{WS : !Types.Wire Bcast_Subscribe} `{LS : !WireLaws Bcast_Subscribe} `{BS : !WireBound Bcast_Subscribe}.
Context `{WU : !Types.Wire Bcast_Unsubscribe} `{LU : !WireLaws Bcast_Unsubscribe} `{BU : !WireBound Bcast_Unsubscribe}.
Context `{WO : !Types.Wire Sess_Open} `{LO : !WireLaws Sess_Open} `{BO : !WireBound Sess_Open}.
Context `{WD : !Types.Wire Sess_Update} `{LD : !WireLaws Sess_Update} `{BD : !WireBound Sess_Update}.
Context `{WH : !Types.Wire Chunk_Header} `{LH : !WireLaws Chunk_Header} `{BH : !WireBound Chunk_Header}.

(** What a SESS stream carries, whatever became of it. *)
Lemma stream_script env c polls w ret evs ss w' s sd :
  fresh_out c w -> runCtrlLoop env c polls w = (ret, evs, ss, w') -> o_streams w' !! s = Some sd -> s <> c ->
  sd_protocol sd = SESS /\
  exists e pre mid post, evs = pre ++ EvOpenSession e :: mid ++ post /\ quiet_for (po_key e) mid /\
    (sd_bytes sd = [] \/ sess_encoded e mid /\ sd_bytes sd `prefix_of` sess_script e mid) /\
    (sd_end sd = Some Fin -> (sess_encoded e mid /\ sd_bytes sd = sess_script e mid) /\
       exists ev post', post = ev :: post' /\ retires (po_key e) ev = true /\ ev <> EvCloseStream (po_key e)) /\
    (forall x, sd_end sd = Some (Reset x) -> failure_code x \/ x = Reconstructed /\ exists post', post = EvCloseStream (po_key e) :: post').
Proof.
  intros Hf HR Hs Hne. pose proof (ctrl_loop_inv env c polls [] ∅ w (fresh_inv c w Hf)) as HI. unfold runCtrlLoop in HR. rewrite HR in HI.
  simpl in HI. destruct HI as [_ HI].
  assert (is_ended evs w' s \/ exists key, is_live evs w' key s) as [He|[key Hl]].
  { destruct ret; [left; apply HI; [by rewrite Hs|done]|]. destruct HI as [[_ _ Hl _ He] _].
    destruct (decide (map_Exists (fun _ s' => s' = s) ss)) as [(k & ? & Hk & ->)|Hno].
    - right. exists k. by apply Hl.
    - left. apply He; [by rewrite Hs|done|]. intros k Hk. apply Hno. exists k, s. done. }
  - destruct He as (e & pre & mid & post & sd0 & en & Hh & Hq & Hs0 & Hp & Hen & Hb & Hm). assert (sd0 = sd) as -> by congruence.
    split; [done|]. exists e, pre, mid, post. split; [done|]. split; [done|]. split; [done|]. rewrite Hen. split.
    + intros [= ->]. done.
    + intros x [= ->]. destruct Hm as [?|(? & _ & ?)]; [by left|by right].
  - destruct Hl as (e & pre & mid & sd0 & Hk & Hh & [Hq Hen] & Hs0 & Hp & Hb & Hm). assert (sd0 = sd) as -> by congruence. subst key.
    split; [done|]. exists e, pre, mid, []. split; [by rewrite app_nil_r|]. split; [done|]. split; [right; by rewrite Hb|].
    destruct (sd_end sd) as [[|x]|]; [done| |done]. split; [done|]. intros y [= <-]. left. by destruct Hm.
Qed.

Definition open_post (id : PeerID) (e : peerOpenSession) : channelEvent St :=
  channelSessionOpen id (k_message (po_key e)) (po_preamble e) (po_initialRouting e).
Definition routing_posts (id : PeerID) (e : peerOpenSession) (us : list bytes) : list (channelEvent St) :=
  (fun u => channelRoutingUpdate id (k_message (po_key e)) u) <$> us.

(** The posts to the session's channel for the open event [e], the updates [us]
    handled while it was open, and what followed. *)
Definition delivered (p : nat) (id : PeerID) (e : peerOpenSession) (us : list bytes) (post : list peerCtrlEvent) (gone : Prop)
    (l : list (channelEvent St)) : Prop :=
  exists k t, l = open_post id e :: routing_posts id e (take k us) ++ t /\
    (t = [] /\ gone \/
     t = [channelPeerSessionEnded (k_message (po_key e)) id p] \/
     t = [channelPeerReconstructed (k_message (po_key e)) id] /\ exists post', post = EvCloseStream (po_key e) :: post').

Lemma posts_map (id : PeerID) h e (us : list Sess_Update) k us0 :
  (su_data <$> us) `prefix_of` us0 ->
  update_post (St := St) id h (k_message (po_key e)) <$> take k us = (h,.) <$> routing_posts id e (take (min k (length us)) us0).
Proof.
  intros [q ->]. unfold routing_posts, update_post. rewrite take_app_le by (rewrite length_fmap; lia).
  rewrite <-!list_fmap_compose. rewrite <-fmap_take, <-list_fmap_compose. rewrite <-(firstn_all us) at 1. rewrite take_take. done.
Qed.

(** What the receiver [w] of a SESS stream becomes ([w2]) when the sender handled
    [evs]: it saw a part of what one open event and its updates stand for, and all
    of it when the stream arrived whole, its frames are within the reader's
    limit and nothing ended meanwhile. *)
Definition session_result (p : nat) (id : PeerID) (inboxFor : ChannelID -> option nat) (evs : list peerCtrlEvent) (r : reader) (w w2 : inb St) : Prop :=
  exists l h, i_posts w2 = i_posts w ++ ((h,.) <$> l) /\
    exists e pre mid post, evs = pre ++ EvOpenSession e :: mid ++ post /\ quiet_for (po_key e) mid /\
      (l = [] \/ inboxFor (k_channel (po_key e)) = Some h /\ delivered p id e (omap (update_of (po_key e)) mid) post (dead w2) l) /\
      (forall h', rd_end r = EOF -> ~ dead w2 -> inboxFor (k_channel (po_key e)) = Some h' ->
       fits (open_msg e) -> Forall (fun u => fits (mk_Sess_Update u)) (omap (update_of (po_key e)) mid) ->
       h' = h /\ l = open_post id e :: routing_posts id e (omap (update_of (po_key e)) mid) ++ [channelPeerSessionEnded (k_message (po_key e)) id p]).

(** Nothing was posted, or the open, some updates and an end. *)
Lemma session_nothing p id inboxFor evs r w w2 e pre mid post : evs = pre ++ EvOpenSession e :: mid ++ post -> quiet_for (po_key e) mid ->
  i_posts w2 = i_posts w ++ [] ->
  (forall h', rd_end r = EOF -> ~ dead w2 -> inboxFor (k_channel (po_key e)) = Some h' -> fits (open_msg e) ->
     Forall (fun u => fits (mk_Sess_Update u)) (omap (update_of (po_key e)) mid) -> False) -> session_result p id inboxFor evs r w w2.
Proof.
  intros Hev Hq Hp Hno. exists [], 0%nat. split; [done|]. exists e, pre, mid, post. split; [done|]. split; [done|].
  split; [by left|]. intros h' H3 H4 H5 H6 H7. destruct (Hno h' H3 H4 H5 H6 H7).
Qed.

Lemma session_something p id inboxFor evs r w w2 e pre mid post h k t0 : let us0 := omap (update_of (po_key e)) mid in
  evs = pre ++ EvOpenSession e :: mid ++ post -> quiet_for (po_key e) mid -> inboxFor (k_channel (po_key e)) = Some h ->
  i_posts w2 = i_posts w ++ (h, open_post id e) :: ((h,.) <$> routing_posts id e (take k us0)) ++ ((h,.) <$> t0) ->
  (t0 = [] /\ dead w2 \/ t0 = [channelPeerSessionEnded (k_message (po_key e)) id p] \/
   t0 = [channelPeerReconstructed (k_message (po_key e)) id] /\ exists post', post = EvCloseStream (po_key e) :: post') ->
  (rd_end r = EOF -> ~ dead w2 -> fits (open_msg e) -> Forall (fun u => fits (mk_Sess_Update u)) us0 ->
     take k us0 = us0 /\ t0 = [channelPeerSessionEnded (k_message (po_key e)) id p]) -> session_result p id inboxFor evs r w w2.
Proof.
  intros us0 Hev Hq Hin Hp Ht HE. exists (open_post id e :: routing_posts id e (take k us0) ++ t0), h.
  split; [by rewrite Hp, fmap_cons, fmap_app|]. exists e, pre, mid, post. split; [done|]. split; [done|].
  split; [right; split; [done|]; by exists k, t0|]. intros h' H3 H4 H5 H6 H7. split; [congruence|]. destruct (HE H3 H4 H6 H7) as [E ->]. fold us0. by rewrite E.
Qed.

Lemma session_delivery_lemma env1 env2 c polls w0 ret evs ss w1 s sd r p id inboxFor (w : inb St) :
  fresh_out c w0 -> runCtrlLoop env1 c polls w0 = (ret, evs, ss, w1) -> o_streams w1 !! s = Some sd -> s <> c ->
  arrives sd r -> i_end w = None ->
  exists w2, runInboundSession env2 p id inboxFor r w = Some w2 /\ is_Some (i_end w2) /\ session_result p id inboxFor evs r w w2.
Proof.
  intros Hf HR Hs Hne [Ha Hb] Hend.
  destruct (stream_script env1 c polls w0 ret evs ss w1 s sd Hf HR Hs Hne) as (_ & e & pre & mid & post & Hev & Hq & Hbytes & Hfin & Hreset).
  destruct (inbound_session_spec env2 p id inboxFor r w Hend) as (w2 & H2 & He2 & l & Hl & Hsh).
  set (us0 := omap (update_of (po_key e)) mid) in *.
  (* the whole script, for the last clause *)
  assert (rd_end r = EOF -> r = mk_reader (frame_of openFrame (open_msg e) ++ mjoin ((fun u => frame_of updateFrame (mk_Sess_Update u)) <$> us0)) EOF) as Hwhole.
  { intros HE. rewrite HE in Hb. destruct Hb as [Hb1 Hb2]. destruct (Hfin Hb1) as [[_ Hb3] _]. destruct r as [data x]. simpl in *. subst x data.
    by rewrite Hb3. }
  exists w2. split; [done|]. split; [done|].
  unfold session_shape in Hsh. destruct (readFrame r openFrame) as [[so|er] r'] eqn:ER; cycle 1.
  { destruct Hsh as [-> _]. apply (session_nothing p id inboxFor evs r w w2 e pre mid post); auto. intros h' HE _ _ Ho _. rewrite (Hwhole HE), readFrame_fits in ER by done. done. }
  assert (sess_encoded e mid /\ sd_bytes sd `prefix_of` sess_script e mid) as [Henc Hpre].
  { destruct Hbytes as [Hnil|?]; [|done]. rewrite Hnil in Ha. apply prefix_nil_inv in Ha.
    destruct (readFrame_Ok _ _ _ _ ER) as (d & _ & _ & Hd & _). rewrite Ha in Hd. symmetry in Hd.
    apply app_eq_nil in Hd as [Hd _]. by apply AppendFrame_nonempty in Hd. }
  destruct (readFrame_prefix r openFrame (open_msg e) so _ r' ltac:(done) (proj1 Henc) ltac:(by etrans) ER) as (-> & Hp' & Hend').
  cbn [so_channel so_objectId so_preamble so_initialUpdate open_msg] in Hsh.
  destruct (inboxFor (k_channel (po_key e))) as [h|] eqn:Eh; cycle 1.
  { destruct Hsh as [-> _]. apply (session_nothing p id inboxFor evs r w w2 e pre mid post); auto. intros h' _ _ H5. congruence. }
  destruct Hsh as [[Hl0 Hd]|(us & er & k & t & HP & Hl0 & Ht & Hk)].
  { subst l. by apply (session_nothing p id inboxFor evs r w w2 e pre mid post). }
  pose proof (parses_prefix us0 r' us er (proj2 Henc) Hp' HP) as Hus.
  rewrite (posts_map id h e us k us0 Hus) in Hl0. set (k' := min k (length us)) in *.
  assert (rd_end r = EOF -> ~ dead w2 -> fits (open_msg e) -> Forall (fun u => fits (mk_Sess_Update u)) us0 ->
    take k' us0 = us0 /\ is_reconstructed er = false) as Hall.
  { intros HE Hnd Ho Hu. rewrite (Hwhole HE), readFrame_fits in ER by done. injection ER as <-.
    destruct (parses_all us0 EOF us er Hu HP eq_refl) as [Hus' ->]. split; [|done]. destruct Hk as [?|Hk]; [done|].
    apply take_ge. rewrite <-Hus', length_fmap. unfold k'. lia. }
  rewrite Hl0 in Hl.
  destruct Ht as [[-> Hd]|[[-> Hr]|[-> Hr]]].
  - apply (session_something p id inboxFor evs r w w2 e pre mid post h k' []); auto. by intros.
  - apply (session_something p id inboxFor evs r w w2 e pre mid post h k' [channelPeerReconstructed (k_message (po_key e)) id]); auto.
    + right. right. split; [done|]. destruct (parses_reconstructed _ _ _ HP Hr) as (raw & HE & Hraw). rewrite Hend' in HE. rewrite HE in Hb.
      destruct Hb as (x & Hx & ->). destruct (Hreset x Hx) as [Hfc|[_ ?]]; [|done]. by destruct (failure_code_parse x Hfc).
    + intros H3 H4 H6 H7. destruct (Hall H3 H4 H6 H7) as [_ ?]. congruence.
  - apply (session_something p id inboxFor evs r w w2 e pre mid post h k' [channelPeerSessionEnded (k_message (po_key e)) id p]); auto.
    intros H3 H4 H6 H7. by destruct (Hall H3 H4 H6 H7).
Qed.

(** ** Subscriptions *)

(** The engine events that the frames of [evs] stand for at the binding [p]. *)
Definition ctrl_event (p : nat) (ev : peerCtrlEvent) : option engine_event :=
  match ev with
  | CtrlOut.EvSubscribe ch => Some (Engine.EvSubscribe p ch)
  | CtrlOut.EvUnsubscribe ch => Some (Engine.EvUnsubscribe p ch)
  | _ => None
  end.

Lemma ctrl_parses_prefix p h : forall r l e,
  Forall ctrl_encoded h -> rd_data r `prefix_of` ctrl_script h -> ctrl_parses p r l e ->
  exists n, l = omap (ctrl_event p) (take n h).
Proof.
  induction h as [|ev h IH]; intros r l e Hf Hp HP.
  - apply prefix_nil_inv in Hp. exists 0%nat. destruct HP as [|r ev r' evs e E HP']; [done|].
    destruct (ctrlFrame_Ok _ _ _ _ E) as (typ & d & _ & Hlt & _). rewrite Hp in Hlt. simpl in Hlt. lia.
  - apply Forall_cons in Hf as [He Hf]. change (ctrl_script (ev :: h)) with (ctrl_frame ev ++ ctrl_script h) in Hp.
    assert (forall M (WM : Types.Wire M) (LM : WireLaws M) (BM : WireBound M) typ (m0 : M), 0 <= typ < 2 ^ 64 ->
      ctrl_frame ev = frame_of typ m0 -> frame_of typ m0 <> [] -> forall ev' r', ctrlFrame p r = (Ok ev', r') ->
      exists d, ReadFrame r maxBroadcastFrame = (Ok (typ, d), r') /\ w_Unmarshal d = Ok m0 /\ rd_data r' `prefix_of` ctrl_script h) as Hread.
    { intros M WM LM BM typ m0 Ht Ef Hn ev' r' E. rewrite Ef in Hp. destruct (frame_of_Ok typ m0 Hn) as (b & Hb & Eb). rewrite Eb in Hp.
      destruct (ctrlFrame_Ok _ _ _ _ E) as (typ' & d & HF & _).
      destruct (frame_of_prefix _ _ _ _ _ _ _ _ maxBroadcastFrame_range Ht (wire_bound m0 b Hb) Hp HF) as (-> & -> & ? & _).
      exists b. split; [done|]. split; [by apply wire_roundtrip|done]. }
    destruct ev as [o|o|ch|ch|key|key]; try (destruct (IH r l e Hf Hp HP) as [n ->]; by exists (S n)).
    + destruct HP as [|r ev' r' evs e E HP']; [by exists 0%nat|].
      destruct (Hread _ _ _ _ subscribeFrame (mk_Subscribe ch) ltac:(done) eq_refl He ev' r' E) as (d & HF & Hd & Hp').
      destruct (ctrlFrame_Ok _ _ _ _ E) as (typ & d' & HF' & _ & Hcase). rewrite HF in HF'. injection HF' as <- <-.
      destruct (IH r' evs e Hf Hp' HP') as [n ->]. exists (S n). destruct Hcase as [(_ & m & Hm & ->)|(? & _)]; [|done].
      rewrite Hd in Hm. by injection Hm as <-.
    + destruct HP as [|r ev' r' evs e E HP']; [by exists 0%nat|].
      destruct (Hread _ _ _ _ unsubscribeFrame (mk_Unsubscribe ch) ltac:(done) eq_refl He ev' r' E) as (d & HF & Hd & Hp').
      destruct (ctrlFrame_Ok _ _ _ _ E) as (typ & d' & HF' & _ & Hcase). rewrite HF in HF'. injection HF' as <- <-.
      destruct (IH r' evs e Hf Hp' HP') as [n ->]. exists (S n). destruct Hcase as [(? & _)|(_ & m & Hm & ->)]; [done|].
      rewrite Hd in Hm. by injection Hm as <-.
Qed.

(** Each of them fits a frame. *)
Definition ctrl_fits (ev : peerCtrlEvent) : Prop :=
  match ev with
  | CtrlOut.EvSubscribe ch => fits (mk_Subscribe ch)
  | CtrlOut.EvUnsubscribe ch => fits (mk_Unsubscribe ch)
  | _ => True
  end.

Lemma ctrlFrame_fits p ev0 ev rest e : ctrl_event p ev0 = Some ev -> ctrl_fits ev0 ->
  ctrlFrame p (mk_reader (ctrl_frame ev0 ++ rest) e) = (Ok ev, mk_reader rest e).
Proof.
  intros Hev Hf. destruct ev0; try done; simpl in Hev, Hf; injection Hev as <-; destruct Hf as (b & Hb & Hl);
    unfold ctrl_frame, frame_of, Reader.writeFrame, ctrlFrame; rewrite Hb; cbn [rbind].
  - rewrite (frame_arrived subscribeFrame b _ e rest ltac:(done) Hl eq_refl). cbn -[w_Unmarshal]. by rewrite (wire_roundtrip _ b Hb).
  - rewrite (frame_arrived unsubscribeFrame b _ e rest ltac:(done) Hl eq_refl). cbn -[w_Unmarshal]. by rewrite (wire_roundtrip _ b Hb).
Qed.

Lemma ctrl_parses_all p h : forall e l er, Forall ctrl_fits h ->
  ctrl_parses p (mk_reader (ctrl_script h) e) l er -> l = omap (ctrl_event p) h.
Proof.
  induction h as [|ev h IH]; intros e l er Hf HP.
  - change (ctrl_script []) with (@nil Byte.byte) in HP. inversion HP as [|? ev' r' evs ? E HP']; subst; [done|].
    destruct (ctrlFrame_Ok _ _ _ _ E) as (typ & d & _ & Hlt & _). simpl in Hlt. lia.
  - apply Forall_cons in Hf as [He Hf]. change (ctrl_script (ev :: h)) with (ctrl_frame ev ++ ctrl_script h) in HP. cbn [omap list_omap].
    destruct (ctrl_event p ev) as [x|] eqn:Ex.
    + pose proof (ctrlFrame_fits p ev x (ctrl_script h) e Ex He) as HF.
      inversion HP as [? ? ? E|? ev' r' evs ? E HP']; subst; rewrite HF in E; [done|]. injection E as <- <-. f_equal. by apply (IH e evs er).
    + assert (ctrl_frame ev = []) as E0 by (by destruct ev). rewrite E0 in HP. by apply (IH e l er).
Qed.

(** How the engine of the receiver applies them: [sets] is what it counts the
    peer subscribed to. *)
Definition sub_step (R : gset ChannelID) (ev : peerCtrlEvent) : gset ChannelID :=
  match ev with
  | CtrlOut.EvSubscribe ch => {[ch]} ∪ R
  | CtrlOut.EvUnsubscribe ch => R ∖ {[ch]}
  | _ => R
  end.

(** Without a protocol error the sender's view of the peer is this one. *)
Lemma peer_view_step evs : forall R R', foldl (fun R e => letp R := R in peer_view R e) (Some R) evs = Some R' -> foldl sub_step R evs = R'.
Proof.
  assert (forall l, foldl (fun R e => letp R := R in peer_view R e) None l = None) as Hnone by (by intros l; induction l).
  induction evs as [|ev evs IH]; intros R R' H; [by injection H as ->|]. cbn [foldl mbind option_bind] in H |- *.
  destruct ev as [o|o|ch|ch|key|key]; cbn [peer_view sub_step] in H |- *; try (by apply IH);
    destruct (bool_decide (ch ∈ R)) eqn:E; try (by rewrite Hnone in H); by apply IH.
Qed.

(** Only the subscriptions matter. *)
Definition ev_step (R : gset ChannelID) (ev : engine_event) : gset ChannelID :=
  match ev with Engine.EvSubscribe _ ch => {[ch]} ∪ R | Engine.EvUnsubscribe _ ch => R ∖ {[ch]} | _ => R end.

Lemma sub_step_events p evs : forall R, foldl sub_step R evs = foldl ev_step R (omap (ctrl_event p) evs).
Proof. induction evs as [|ev evs IH]; intros R; [done|]. cbn [omap list_omap foldl]. destruct ev; cbn [ctrl_event sub_step foldl ev_step]; apply IH. Qed.

Lemma peer_view_prefix evs1 evs2 R R' : foldl (fun R e => letp R := R in peer_view R e) (Some R) (evs1 ++ evs2) = Some R' ->
  exists R1, foldl (fun R e => letp R := R in peer_view R e) (Some R) evs1 = Some R1.
Proof.
  rewrite foldl_app. destruct (foldl _ (Some R) evs1) as [R1|]; [by eexists|]. intros H. exfalso. revert H.
  assert (forall l, foldl (fun R e => letp R := R in peer_view R e) None l = None) as -> by (by intros l; induction l). done.
Qed.
End delivery.

Section engine_side.
Context (choice : nat -> gset bytes -> list bytes).

(** The receiver's engine has the binding [p] with the subscriptions [R]. *)
Definition has_subs (e : engine) (p : nat) (R : gset ChannelID) : Prop :=
  exists c, en_conns e !! p = Some c /\ en_peers e !! pc_id c = Some p /\ pc_subs c = Some R.

Fixpoint engine_events (l : list engine_event) (e : engine) (w : world) : option (engine * world) :=
  match l with
  | [] => Some (e, w)
  | ev :: l => letp x := engine_handle choice ev e w in engine_events l x.1 x.2
  end.

Lemma engine_sub p e w ch R : has_subs e p R ->
  exists e' w', engine_handle choice (Engine.EvSubscribe p ch) e w = Some (e', w') /\ has_subs e' p ({[ch]} ∪ R).
Proof.
  intros (c & Hc & Hp & Hs). cbn [engine_handle]. unfold peerSubscribed. rewrite Hc. cbn [mbind option_bind]. rewrite decide_True by done. rewrite Hs.
  destruct (bool_decide (ch ∈ R)) eqn:E.
  - apply bool_decide_eq_true in E. eexists _, _. split; [done|]. exists c. split; [done|]. split; [done|]. rewrite Hs. f_equal. set_solver.
  - eexists _, _. split; [done|]. unfold enrolPeerToChannel.
    destruct (en_channels _ !! ch) as [h|]; unfold has_subs; simpl; rewrite ?lookup_alter_eq, Hc; simpl;
      eexists; (split; [reflexivity|]); done.
Qed.

Lemma engine_unsub p e w ch R : has_subs e p R ->
  exists e' w', engine_handle choice (Engine.EvUnsubscribe p ch) e w = Some (e', w') /\ has_subs e' p (R ∖ {[ch]}).
Proof.
  intros (c & Hc & Hp & Hs). cbn [engine_handle]. unfold peerUnsubscribed. rewrite Hc. cbn [mbind option_bind]. rewrite decide_True by done. rewrite Hs.
  destruct (bool_decide (ch ∈ R)) eqn:E.
  - eexists _, _. split; [done|]. unfold unenrolPeerFromChannel.
    destruct (en_channels _ !! ch) as [h|]; unfold has_subs; simpl; rewrite ?lookup_alter_eq, Hc; simpl;
      eexists; (split; [reflexivity|]); done.
  - apply bool_decide_eq_false in E. eexists _, _. split; [done|]. exists c. split; [done|]. split; [done|]. rewrite Hs. f_equal. set_solver.
Qed.

Lemma engine_events_subs p evs : forall e w R, has_subs e p R ->
  exists e' w', engine_events (omap (ctrl_event p) evs) e w = Some (e', w') /\ has_subs e' p (foldl sub_step R evs).
Proof.
  induction evs as [|ev evs IH]; intros e w R H; [by eexists _, _|]. cbn [omap list_omap].
  destruct ev as [o|o|ch|ch|key|key]; cbn [ctrl_event sub_step foldl]; try (by apply IH).
  - destruct (engine_sub p e w ch R H) as (e1 & w1 & H1 & H2). cbn [engine_events]. rewrite H1. cbn [mbind option_bind fst snd]. by apply IH.
  - destruct (engine_unsub p e w ch R H) as (e1 & w1 & H1 & H2). cbn [engine_events]. rewrite H1. cbn [mbind option_bind fst snd]. by apply IH.
Qed.
End engine_side.

(** ** Chunks *)

Section chunk_side.
Context {St : Type}.
Context `{WS : !Types.Wire Bcast_Subscribe} `{WU : !Types.Wire Bcast_Unsubscribe} `{WO : !Types.Wire Sess_Open} `{WD : !Types.Wire Sess_Update}.
Context `{WH : !Types.Wire Chunk_Header} `{LH : !WireLaws Chunk_Header} `{BH : !WireBound Chunk_Header}.

Lemma AppendFrame_inj t d1 d2 : 0 <= t < 2 ^ 64 -> Z.of_nat (length d1) < 2 ^ 63 -> Z.of_nat (length d2) < 2 ^ 63 ->
  AppendFrame [] t d1 = AppendFrame [] t d2 -> d1 = d2.
Proof.
  intros Ht H1 H2 E. set (n := Z.max (Z.of_nat (length d1)) (Z.of_nat (length d2))).
  pose proof (ReadFrame_append t d1 [] EOF n Ht ltac:(lia) ltac:(lia)) as HA.
  rewrite E, (ReadFrame_append t d2 [] EOF n Ht ltac:(lia) ltac:(lia)) in HA. by injection HA as ->.
Qed.

Lemma chunk_side_bytes e r0 w0 w1 sd : o_streams w0 !! o_next w0 = None -> chunk_outcome e w0 r0 w1 -> o_streams w1 !! o_next w0 = Some sd ->
  (sd_bytes sd = [] \/ frame_of headerFrame (chunk_header e) <> [] /\
     sd_bytes sd `prefix_of` frame_of headerFrame (chunk_header e) ++ AppendFrame [] dataFrame (sc_payload e)) /\
  (sd_end sd = Some Fin -> is_ok r0 = true) /\
  (is_ok r0 = true -> sd_bytes sd = frame_of headerFrame (chunk_header e) ++ AppendFrame [] dataFrame (sc_payload e)).
Proof.
  intros Hfresh (_ & _ & _ & Ho) Hs.
  assert (forall header, w_Marshal (chunk_header e) = Ok header ->
    chunk_bytes e header = frame_of headerFrame (chunk_header e) ++ AppendFrame [] dataFrame (sc_payload e) /\
    frame_of headerFrame (chunk_header e) <> []) as Hh.
  { intros header Hm. rewrite chunk_bytes_frames. unfold frame_of, Reader.writeFrame. rewrite Hm. split; [done|apply AppendFrame_nonempty]. }
  destruct r0 as [n|err].
  - destruct Ho as (_ & _ & sd0 & Hs0 & _ & (header & Hm & Hb) & _). assert (sd0 = sd) as -> by congruence.
    destruct (Hh header Hm) as [E1 E2]. rewrite Hb, E1. split; [by right|done].
  - destruct Ho as [[_ Hs0]|(_ & sd0 & Hs0 & _ & (c & Hc & _) & Hb)]; [congruence|]. assert (sd0 = sd) as -> by congruence.
    split; [|split; [by rewrite Hc|done]]. destruct Hb as [?|(header & Hm & Hb)]; [by left|right].
    destruct (Hh header Hm) as [E1 E2]. by rewrite <-E1.
Qed.

(** What a receiver makes of the header and the payload of a chunk stream. *)
Lemma chunk_delivery_lemma env1 env2 e w0 r0 w1 sd r id inboxFor stream (w : inb St) r' w2 :
  o_streams w0 !! o_next w0 = None -> doSendChunk env1 e w0 = (r0, w1) -> o_streams w1 !! o_next w0 = Some sd -> arrives sd r ->
  i_end w = None -> processChunk env2 id inboxFor stream r w = (r', w2) -> Z.of_nat (length (sc_payload e)) < 2 ^ 32 ->
  (forall h ev, i_posts w2 = i_posts w ++ [(h, ev)] ->
     inboxFor (sc_channelID e) = Some h /\
     ev = channelChunk (mk_chunkStream id (sc_messageID e) (sc_chunkID e) (Z.of_nat (length (sc_payload e))) stream) /\
     forall d, readChunkData r' (Z.of_nat (length (sc_payload e))) = Ok d -> d = sc_payload e /\ is_ok r0 = true) /\
  (forall h, is_ok r0 = true -> rd_end r = EOF -> fits (chunk_header e) -> inboxFor (sc_channelID e) = Some h -> ~ dead w2 ->
     (exists ev, i_posts w2 = i_posts w ++ [(h, ev)]) /\ i_end w2 = None /\
     readChunkData r' (Z.of_nat (length (sc_payload e))) = Ok (sc_payload e)).
Proof.
  intros Hfresh Hsend Hs [Ha Hb] Hend Hproc Hlen. pose proof (doSendChunk_outcome env1 e w0 Hfresh) as Ho. rewrite Hsend in Ho. cbn [fst snd] in Ho.
  destruct (chunk_side_bytes e r0 w0 w1 sd Hfresh Ho Hs) as (Hbytes & Hfin & Hall).
  pose proof (processChunk_spec env2 id inboxFor stream r w Hend) as Hsp. rewrite Hproc in Hsp. destruct Hsp as (l & Hl & Hsh).
  assert (u32 (Z.of_nat (length (sc_payload e))) = Z.of_nat (length (sc_payload e))) as Hu by (apply u32_small; lia).
  unfold chunk_shape in Hsh. split.
  - intros h ev Hpost. rewrite Hl in Hpost. apply app_inv_head in Hpost. subst l.
    destruct (readFrame r headerFrame) as [[fr|er] rest] eqn:ER; [|by destruct Hsh].
    destruct Hbytes as [Hnil|[Hne Hpre]].
    { rewrite Hnil in Ha. apply prefix_nil_inv in Ha. destruct (readFrame_Ok _ _ _ _ ER) as (d & _ & _ & Hd & _). rewrite Ha in Hd. symmetry in Hd.
      apply app_eq_nil in Hd as [Hd _]. by apply AppendFrame_nonempty in Hd. }
    destruct (readFrame_prefix r headerFrame (chunk_header e) fr _ rest ltac:(done) Hne ltac:(by etrans) ER) as (-> & Hp' & Hend').
    cbn [hd_channel hd_objectId hd_chunkId hd_dataLength chunk_header] in Hsh. rewrite Hu in Hsh.
    destruct (inboxFor (sc_channelID e)) as [h'|]; [|by destruct Hsh]. destruct Hsh as [[? _]|([= -> ->] & -> & _)]; [done|].
    split; [done|]. split; [done|]. intros d Hd. apply readChunkData_ok in Hd as (Hd1 & Hd2 & Hd3); [|lia].
    rewrite Hend' in Hd2. rewrite Hd2 in Hb. destruct Hb as [Hb1 Hb2]. pose proof (Hfin Hb1) as Hok. split; [|done].
    destruct (readFrame_Ok _ _ _ _ ER) as (b & _ & HF & Hdata & _). rewrite Hb2, (Hall Hok) in Hdata.
    destruct (frame_of_Ok headerFrame (chunk_header e) Hne) as (b0 & Hb0 & E0). rewrite E0 in Hdata.
    destruct (frame_of_prefix r maxBroadcastFrame _ _ rest headerFrame b0 (AppendFrame [] dataFrame (sc_payload e)) maxBroadcastFrame_range ltac:(done) (wire_bound _ b0 Hb0)
      ltac:(rewrite Hb2, (Hall Hok), E0; done) HF) as (_ & -> & _).
    apply app_inv_head in Hdata. rewrite Hd1 in Hdata. symmetry. by apply (AppendFrame_inj dataFrame); [done|lia|lia|].
  - intros h Hok HE Hfit Hbox Hnd. rewrite HE in Hb. destruct Hb as [_ Hb2]. rewrite (Hall Hok) in Hb2.
    assert (r = mk_reader (frame_of headerFrame (chunk_header e) ++ AppendFrame [] dataFrame (sc_payload e)) EOF) as ->
      by (destruct r; simpl in *; by subst).
    rewrite readFrame_fits in Hsh by done. cbn [hd_channel hd_objectId hd_chunkId hd_dataLength chunk_header] in Hsh. rewrite Hbox in Hsh.
    destruct Hsh as [(_ & _ & ?)|(-> & -> & Hc)]; [done|]. split; [by eexists|]. split; [by destruct Hc as [[? _]|[_ ?]]|].
    apply readChunkData_ok; [lia|]. done.
Qed.
End chunk_side.

Section claims.
Context {St : Type}.
Context `{WS : !Types.Wire Bcast_Subscribe} `{LS : !WireLaws Bcast_Subscribe} `{BS : !WireBound Bcast_Subscribe}.
Context `{WU : !Types.Wire Bcast_Unsubscribe} `{LU : !WireLaws Bcast_Unsubscribe} `{BU : !WireBound Bcast_Unsubscribe}.
Context `{WO : !Types.Wire Sess_Open} `{LO : !WireLaws Sess_Open} `{BO : !WireBound Sess_Open}.
Context `{WD : !Types.Wire Sess_Update} `{LD : !WireLaws Sess_Update} `{BD : !WireBound Sess_Update}.
Context `{WH : !Types.Wire Chunk_Header} `{LH : !WireLaws Chunk_Header} `{BH : !WireBound Chunk_Header}.

(** C13. Session streams between two peers, whatever fails or ends on either side:
    the receiver of a SESS stream always returns with the stream ended, and what
    it posts to the channel is, in order, the open event of one session the
    sender handled, the first of that session's routing updates and then at most
    one end, which is Reconstructed only if the sender's next event for the
    session was to reset its stream with that code.  When the whole stream
    arrives within the frame limit and nothing ends meanwhile, it posts all the
    updates and the end. *)
Theorem session_delivery env1 env2 c polls w0 ret evs ss w1 s sd r p id inboxFor (w : inb St) :
  fresh_out c w0 -> runCtrlLoop env1 c polls w0 = (ret, evs, ss, w1) -> o_streams w1 !! s = Some sd -> s <> c ->
  arrives sd r -> i_end w = None ->
  evs `prefix_of` omap Datatypes.id polls /\
  exists w2, runInboundSession env2 p id inboxFor r w = Some w2 /\ is_Some (i_end w2) /\ session_result p id inboxFor evs r w w2.
Proof.
  intros Hf HR Hs Hne Ha He. split; [|by eapply session_delivery_lemma].
  pose proof (ctrl_loop_inv env1 c polls [] ∅ w0 (fresh_inv c w0 Hf)) as HI. unfold runCtrlLoop in HR. rewrite HR in HI. apply HI.
Qed.

(** C14. Subscriptions between two peers: let the sender's control state emit
    events in any legal way and let its control loop write them to the BCAST
    stream, failing anywhere.  However much of the stream arrives, the
    receiver's reader returns, what it posts to its engine are the
    subscriptions of a prefix of the events the loop handled, the engine applies
    them without a panic, and the channels it then counts the peer subscribed to
    are exactly what the sender counts as told after that prefix; when all of an
    unbroken stream arrived they are what the sender's state has announced. *)
Theorem control_delivery env1 env2 choice ids s c polls w0 ret evs ss w1 sd r p (w : inb St) en wd :
  ctrl_run (announceInitial newCtrlOutState ids) (omap Datatypes.id polls) s ->
  fresh_out c w0 -> runCtrlLoop env1 c polls w0 = (ret, evs, ss, w1) -> o_streams w1 !! c = Some sd -> arrives sd r ->
  (forall n, a_done (env2 n) = None) -> i_ctx w = None -> i_end w = None -> has_subs en p (list_to_set ids) ->
  exists w2 n l R en' wd', runCtrlReader env2 p r w = Some w2 /\ i_events w2 = i_events w ++ l /\
    l = omap (ctrl_event p) (take n evs) /\
    foldl (fun R e => letp R := R in peer_view R e) (Some (list_to_set ids)) (take n evs) = Some R /\
    engine_events choice l en wd = Some (en', wd') /\ has_subs en' p R /\
    (sd_end sd = None -> rd_data r = sd_bytes sd -> Forall ctrl_fits evs -> R = told s).
Proof.
  intros Hrun Hf HR Hs [Ha _] Hq Hx He Hsubs. destruct (ctrl_run_view ids _ s Hrun) as [Hview _].
  pose proof (ctrl_loop_inv env1 c polls [] ∅ w0 (fresh_inv c w0 Hf)) as HI. unfold runCtrlLoop in HR. rewrite HR in HI.
  destruct HI as [[rest Hrest] HI]. simpl in HI.
  assert (exists h', h' `prefix_of` evs /\ Forall ctrl_encoded h' /\ sd_bytes sd `prefix_of` ctrl_script h' /\
    (sd_end sd = None -> sd_bytes sd = ctrl_script evs /\ evs = omap Datatypes.id polls)) as (h' & [q Hq'] & Hen & Hpre & Hnone).
  { destruct ret.
    - destruct HI as [(sd0 & x & h' & Hs0 & Hx0 & Hh & Hen & Hb) _]. assert (sd0 = sd) as -> by congruence. exists h'. split_and!; try done. by rewrite Hx0.
    - destruct HI as [[_ (sd0 & h' & Hs0 & _ & (Hh & Hen & Hb) & Hm) _ _ _] Hev]. assert (sd0 = sd) as -> by congruence.
      exists h'. split_and!; try done. intros Hn. rewrite Hn in Hm. by destruct Hm. }
  destruct (ctrl_reader_spec env2 p (S (length (rd_data r))) r w ltac:(lia) ltac:(by rewrite He)) as (w2 & l0 & e0 & l & H1 & H2 & H3 & _ & _ & _ & H7).
  destruct (H7 Hq Hx He) as [-> _].
  destruct (ctrl_parses_prefix p h' r l0 e0 Hen ltac:(by etrans) H2) as [n Hn].
  assert (l0 = omap (ctrl_event p) (take (min n (length h')) evs)) as Hm.
  { rewrite Hn, Hq'. rewrite take_app_le by lia. rewrite <-(firstn_all h') at 1. by rewrite take_take. }
  set (m := min n (length h')) in *.
  rewrite Hrest, <-(take_drop m evs), <-app_assoc in Hview. destruct (peer_view_prefix _ _ _ _ Hview) as [R HR0].
  destruct (engine_events_subs choice p (take m evs) en wd _ Hsubs) as (en' & wd' & E1 & E2). rewrite (peer_view_step _ _ _ HR0), <-Hm in *.
  exists w2, m, l0, R, en', wd'. split; [done|]. split; [done|]. split; [done|]. split; [done|]. split; [done|]. split; [done|].
  intros Hn0 Hd Hfit. destruct (Hnone Hn0) as [Hb Hev]. rewrite app_assoc, take_drop, <-Hrest, <-Hev in Hview.
  apply peer_view_step in Hview. apply peer_view_step in HR0. rewrite <-Hview, <-HR0, !(sub_step_events p), <-Hm. f_equal.
  destruct r as [data x]. simpl in Hd. subst data. rewrite Hb in H2. by eapply ctrl_parses_all.
Qed.

(** C15. Chunks between two peers: whatever a send attempt came to and however much
    of its stream arrives, the receiver hands the channel at most the chunk's own
    identifiers and length, and a payload it then reads in full is exactly the
    payload that was sent, by an attempt that reported success; a chunk sent
    successfully whose stream arrives whole is handed over, open, and read back. *)
Theorem chunk_delivery env1 env2 e w0 r0 w1 sd r id inboxFor stream (w : inb St) r' w2 :
  o_streams w0 !! o_next w0 = None -> doSendChunk env1 e w0 = (r0, w1) -> o_streams w1 !! o_next w0 = Some sd -> arrives sd r ->
  i_end w = None -> processChunk env2 id inboxFor stream r w = (r', w2) -> Z.of_nat (length (sc_payload e)) < 2 ^ 32 ->
  (forall h ev, i_posts w2 = i_posts w ++ [(h, ev)] ->
     inboxFor (sc_channelID e) = Some h /\
     ev = channelChunk (mk_chunkStream id (sc_messageID e) (sc_chunkID e) (Z.of_nat (length (sc_payload e))) stream) /\
     forall d, readChunkData r' (Z.of_nat (length (sc_payload e))) = Ok d -> d = sc_payload e /\ is_ok r0 = true) /\
  (forall h, is_ok r0 = true -> rd_end r = EOF -> fits (chunk_header e) -> inboxFor (sc_channelID e) = Some h -> ~ dead w2 ->
     (exists ev, i_posts w2 = i_posts w ++ [(h, ev)]) /\ i_end w2 = None /\
     readChunkData r' (Z.of_nat (length (sc_payload e))) = Ok (sc_payload e)).
Proof. apply chunk_delivery_lemma. Qed.
End claims.

(** ** A run

    An encoding that satisfies the laws: fields of fewer than 256 bytes, each
    after its length. *)

Module Demo.

Definition enc (l : list bytes) : bytes := mjoin ((fun f => z2b (Z.of_nat (length f)) :: f) <$> l).
Fixpoint dec (n : nat) (b : bytes) : option (list bytes) :=
  match n, b with
  | O, [] => Some []
  | S n, x :: b => let k := Z.to_nat (b2z x) in fs ← dec n (drop k b); Some (take k b :: fs)
  | _, _ => None
  end.
Definition short (f : bytes) : bool := (length f <? 256)%nat.

Lemma dec_enc l : forallb short l = true -> dec (length l) (enc l) = Some l.
Proof.
  induction l as [|f l IH]; [done|]. cbn [forallb]. intros [Hf Hl]%andb_true_iff. unfold short in Hf. z_bool.
  change (enc (f :: l)) with (z2b (Z.of_nat (length f)) :: (f ++ enc l)). cbn [length dec].
  rewrite b2z_z2b_small, Nat2Z.id, drop_app_length, take_app_length by lia. by rewrite (IH Hl).
Qed.

Definition max_len : nat := 2048.

(** A message given by its fields. *)
Section codec.
Context {M : Type} (n : nat) (fields : M -> list bytes) (build : list bytes -> option M).
Definition codec : Types.Wire M := {|
  w_Marshal m := if forallb short (fields m) && (length (enc (fields m)) <? max_len)%nat then Ok (enc (fields m)) else Err "too long"%string;
  w_Unmarshal b := match dec n b ≫= build with Some m => Ok m | None => Err "bad message"%string end |}.
Hypothesis count : forall m, length (fields m) = n.
Hypothesis inverse : forall m, forallb short (fields m) = true -> build (fields m) = Some m.
Lemma codec_laws : @WireLaws M codec.
Proof.
  intros m b. cbn [w_Marshal w_Unmarshal codec]. destruct (forallb short (fields m)) eqn:E; [|done]. cbn [andb]. destruct (_ <? _)%nat; [|done]. intros [= <-].
  rewrite <-(count m), dec_enc by done. cbn [mbind option_bind]. by rewrite inverse.
Qed.
Lemma codec_bound : @WireBound M codec.
Proof. intros m b. cbn [w_Marshal codec]. destruct (_ && _) eqn:E; [|done]. intros [= <-]. z_bool. unfold max_len in *. lia. Qed.
End codec.

Definition sub_fields (m : Bcast_Subscribe) : list bytes := [sub_channel m].
Definition sub_build (l : list bytes) : option Bcast_Subscribe := match l with [c] => Some (mk_Subscribe c) | _ => None end.
Definition unsub_fields (m : Bcast_Unsubscribe) : list bytes := [unsub_channel m].
Definition unsub_build (l : list bytes) : option Bcast_Unsubscribe := match l with [c] => Some (mk_Unsubscribe c) | _ => None end.
Definition open_fields (m : Sess_Open) : list bytes := [so_channel m; so_objectId m; so_preamble m; so_initialUpdate m].
Definition open_build (l : list bytes) : option Sess_Open := match l with [a; b; c; d] => Some (mk_Sess_Open a b c d) | _ => None end.
Definition update_fields (m : Sess_Update) : list bytes := [su_data m].
Definition update_build (l : list bytes) : option Sess_Update := match l with [a] => Some (mk_Sess_Update a) | _ => None end.
(** The length as that many zero bytes. *)
Definition header_fields (m : Chunk_Header) : list bytes :=
  [hd_channel m; hd_objectId m; hd_chunkId m; if (0 <=? hd_dataLength m) && (hd_dataLength m <? 256) then replicate (Z.to_nat (hd_dataLength m)) Byte.x00 else replicate 256 Byte.x00].
Definition header_build (l : list bytes) : option Chunk_Header := match l with [a; b; c; d] => Some (mk_Chunk_Header a b c (Z.of_nat (length d))) | _ => None end.

#[global] Instance sub_wire : Types.Wire Bcast_Subscribe := codec 1 sub_fields sub_build.
#[global] Instance unsub_wire : Types.Wire Bcast_Unsubscribe := codec 1 unsub_fields unsub_build.
#[global] Instance open_wire : Types.Wire Sess_Open := codec 4 open_fields open_build.
#[global] Instance update_wire : Types.Wire Sess_Update := codec 1 update_fields update_build.
#[global] Instance header_wire : Types.Wire Chunk_Header := codec 4 header_fields header_build.
#[global] Instance sub_laws : WireLaws Bcast_Subscribe.
Proof. apply codec_laws; by intros []. Qed.
#[global] Instance unsub_laws : WireLaws Bcast_Unsubscribe.
Proof. apply codec_laws; by intros []. Qed.
#[global] Instance open_laws : WireLaws Sess_Open.
Proof. apply codec_laws; by intros []. Qed.
#[global] Instance update_laws : WireLaws Sess_Update.
Proof. apply codec_laws; by intros []. Qed.
#[global] Instance header_laws : WireLaws Chunk_Header.
Proof.
  apply codec_laws; [done|]. intros [a b c n]. unfold header_fields, header_build. cbn [hd_channel hd_objectId hd_chunkId hd_dataLength].
  destruct ((0 <=? n) && (n <? 256)) eqn:E.
  - intros _. z_bool. rewrite length_replicate, Z2Nat.id by lia. done.
  - intros H. exfalso. cbn [forallb] in H. rewrite !andb_true_iff in H. destruct H as (_ & _ & _ & H & _). done.
Qed.
#[global] Instance sub_bound : WireBound Bcast_Subscribe.
Proof. apply codec_bound. Qed.
#[global] Instance unsub_bound : WireBound Bcast_Unsubscribe.
Proof. apply codec_bound. Qed.
#[global] Instance open_bound : WireBound Sess_Open.
Proof. apply codec_bound. Qed.
#[global] Instance update_bound : WireBound Sess_Update.
Proof. apply codec_bound. Qed.
#[global] Instance header_bound : WireBound Chunk_Header.
Proof. apply codec_bound. Qed.

Definition key : sessionKey := mk_key [Byte.x63] [Byte.x6d].
Definition polls : list (option peerCtrlEvent) :=
  [Some (CtrlOut.EvSubscribe [Byte.x64]); Some (EvOpenSession (mk_open key [Byte.x01] [Byte.x02] 9)); None;
   Some (EvSendRouting (mk_routing key [Byte.x03])); Some (EvCloseSession key)].
Definition w0 : out := mk_out 0 None 1 {[0%nat := mk_side BCAST [] None]} [] [].
Definition ran : bool * list peerCtrlEvent * gmap sessionKey nat * out := runCtrlLoop calm 0 polls w0.
Lemma ran_eq : runCtrlLoop calm 0 polls w0 = (ran.1.1.1, ran.1.1.2, ran.1.2, ran.2).
Proof. unfold ran. by destruct (runCtrlLoop _ _ _ _) as [[[? ?] ?] ?]. Qed.
Definition stream (s : nat) : send_side := default (mk_side BCAST [] None) (o_streams ran.2 !! s).
Definition arrived (s : nat) (e : io_err) : reader := mk_reader (sd_bytes (stream s)) e.
(** The sender told of one channel announces another. *)
Definition start : ctrlOutState := announce (announceInitial newCtrlOutState [demo_chan]) [Byte.x64] true.
Definition sub_state : ctrlOutState := (drain 3 start).2.
Definition sub_polls : list (option peerCtrlEvent) := Some <$> (drain 3 start).1.
Definition sub_ran : bool * list peerCtrlEvent * gmap sessionKey nat * out := runCtrlLoop calm 0 sub_polls w0.
Definition sub_stream : send_side := default (mk_side BCAST [] None) (o_streams sub_ran.2 !! 0%nat).
Lemma sub_ran_eq : runCtrlLoop calm 0 sub_polls w0 = (sub_ran.1.1.1, sub_ran.1.1.2, sub_ran.1.2, sub_ran.2).
Proof. unfold sub_ran. by destruct (runCtrlLoop _ _ _ _) as [[[? ?] ?] ?]. Qed.
Lemma sub_run : ctrl_run (announceInitial newCtrlOutState [demo_chan]) (omap Datatypes.id sub_polls) sub_state.
Proof.
  assert (omap Datatypes.id sub_polls = [] ++ (drain 3 start).1) as -> by (vm_compute; reflexivity).
  eapply run_step; [apply (st_announce _ [Byte.x64] true)|]. apply drain_run.
Qed.

Definition chunk : peerSendChunk := mk_send [Byte.x70] [Byte.x63] [Byte.x6d] 4 [Byte.x0a] [Byte.x11; Byte.x12; Byte.x13] 0.
Definition chunk_ran : result error Z * out := doSendChunk calm chunk w0.
Definition chunk_side : send_side := default (mk_side BCAST [] None) (o_streams chunk_ran.2 !! 1%nat).
Definition in0 : inb unit := mk_in 0 None false None [] [] [].
Definition inbox (c : ChannelID) : option nat := if decide (c = [Byte.x63]) then Some 5%nat else None.
End Demo.

Import Demo.

Lemma session_delivery_witness :
  exists w2, runInboundSession calm 7 [Byte.x70] inbox (arrived 1 EOF) in0 = Some w2 /\
    i_posts w2 = [(5%nat, channelSessionOpen [Byte.x70] [Byte.x6d] [Byte.x01] [Byte.x02]);
                  (5%nat, channelRoutingUpdate [Byte.x70] [Byte.x6d] [Byte.x03]);
                  (5%nat, channelPeerSessionEnded [Byte.x6d] [Byte.x70] 7)] /\
    session_result 7 [Byte.x70] inbox ran.1.1.2 (arrived 1 EOF) in0 w2.
Proof.
  destruct (session_delivery calm calm 0 polls w0 ran.1.1.1 ran.1.1.2 ran.1.2 ran.2 1 (stream 1) (arrived 1 EOF) 7 [Byte.x70] inbox in0)
    as (_ & w2 & H1 & _ & H3).
  - split; [reflexivity|]. split; [cbn; lia|reflexivity].
  - apply ran_eq.
  - vm_compute. reflexivity.
  - discriminate.
  - split; [reflexivity|]. vm_compute. split; reflexivity.
  - reflexivity.
  - exists w2. split; [exact H1|]. split; [|exact H3].
    vm_compute in H1. injection H1 as <-. reflexivity.
Defined.

Lemma control_delivery_witness :
  exists w2 en' wd', runCtrlReader calm 0 (mk_reader (sd_bytes sub_stream) ErrDeadline) in0 = Some w2 /\
    engine_events demo_choice (i_events w2) (demo_at 4).1 (demo_at 4).2 = Some (en', wd') /\ has_subs en' 0 (told sub_state).
Proof.
  assert (exists c, en_conns (demo_at 4).1 !! 0%nat = Some c /\ pc_id c = demo_peer /\ pc_subs c = Some {[demo_chan]}) as (c & Hc & Hid & Hs).
  { assert (match en_conns (demo_at 4).1 !! 0%nat with
            | Some c => bool_decide (pc_id c = demo_peer /\ pc_subs c = Some {[demo_chan]}) | None => false end = true) as H by (vm_compute; reflexivity).
    destruct (en_conns (demo_at 4).1 !! 0%nat) as [c|]; [|discriminate]. apply bool_decide_eq_true in H as [H1 H2].
    exists c. split; [reflexivity|]. split; [exact H1|exact H2]. }
  destruct (control_delivery calm calm demo_choice [demo_chan] sub_state 0 sub_polls w0 sub_ran.1.1.1 sub_ran.1.1.2 sub_ran.1.2 sub_ran.2 sub_stream
    (mk_reader (sd_bytes sub_stream) ErrDeadline) 0 in0 (demo_at 4).1 (demo_at 4).2)
    as (w2 & n & l & R & en' & wd' & H1 & H2 & H3 & H4 & H5 & H6 & H7).
  - exact sub_run.
  - split; [reflexivity|]. split; [cbn; lia|reflexivity].
  - exact sub_ran_eq.
  - vm_compute. reflexivity.
  - split; [reflexivity|exact I].
  - reflexivity.
  - reflexivity.
  - reflexivity.
  - exists c. split; [exact Hc|]. rewrite Hid. split; [vm_compute; reflexivity|]. rewrite Hs. reflexivity.
  - rewrite H7 in H6; [|vm_compute; reflexivity|reflexivity|].
    + exists w2, en', wd'. split; [exact H1|]. rewrite H2. split; [exact H5|exact H6].
    + assert (sub_ran.1.1.2 = [CtrlOut.EvSubscribe [Byte.x64]]) as -> by (vm_compute; reflexivity).
      constructor; [|constructor]. eexists. split; [vm_compute; reflexivity|]. vm_compute. discriminate.
Defined.

Lemma chunk_delivery_witness :
  let '(r', w2) := processChunk calm [Byte.x70] inbox 8 (mk_reader (sd_bytes chunk_side) EOF) in0 in
  (exists ev, i_posts w2 = i_posts in0 ++ [(5%nat, ev)]) /\ i_end w2 = None /\ readChunkData r' 3 = Ok [Byte.x11; Byte.x12; Byte.x13].
Proof.
  destruct (processChunk calm [Byte.x70] inbox 8 (mk_reader (sd_bytes chunk_side) EOF) in0) as [r' w2] eqn:E.
  assert (doSendChunk calm chunk w0 = (Ok 3, chunk_ran.2)) as Hsend by (vm_compute; reflexivity).
  apply (chunk_delivery calm calm chunk w0 (Ok 3) chunk_ran.2 chunk_side (mk_reader (sd_bytes chunk_side) EOF) [Byte.x70] inbox 8 in0 r' w2).
  - reflexivity.
  - exact Hsend.
  - vm_compute. reflexivity.
  - split; [reflexivity|]. vm_compute. split; reflexivity.
  - reflexivity.
  - exact E.
  - vm_compute. reflexivity.
  - reflexivity.
  - reflexivity.
  - eexists. split; [vm_compute; reflexivity|]. vm_compute. discriminate.
  - reflexivity.
  - assert (w2 = (processChunk calm [Byte.x70] inbox 8 (mk_reader (sd_bytes chunk_side) EOF) in0).2) as -> by (rewrite E; reflexivity).
    vm_compute. intros [[? X]|X]; discriminate X.
Defined.

(** The open session's stream is the one that is not ended. *)
Lemma ctrl_loop_settles_witness :
  let open_polls := take 2 polls in
  let '(ret, evs, ss, w') := runCtrlLoop calm 0 open_polls w0 in
  evs = omap Datatypes.id open_polls /\ ss !! key = Some 1%nat /\ foldl applySlot ∅ (o_slots w') = foldl slot_step ∅ evs.
Proof.
  cbv zeta. destruct (runCtrlLoop calm 0 (take 2 polls) w0) as [[[ret evs] ss] w'] eqn:E.
  destruct (ctrl_loop_settles calm 0 (take 2 polls) w0 ret evs ss w') as (_ & _ & H).
  - split; [reflexivity|]. split; [cbn; lia|reflexivity].
  - exact E.
  - assert (ret = false /\ o_ctx w' = None /\ evs = omap Datatypes.id (take 2 polls) /\ ss !! key = Some 1%nat) as (H1 & H2 & H3 & H4).
    { pose proof (f_equal (fun x => x.1.1.1) E) as E1. pose proof (f_equal (fun x => o_ctx x.2) E) as E2.
      pose proof (f_equal (fun x => x.1.1.2) E) as E3. pose proof (f_equal (fun x => x.1.2 !! key) E) as E4. cbn [fst snd] in E1, E2, E3, E4.
      rewrite <-E1, <-E2, <-E3, <-E4. vm_compute. split; [reflexivity|]. split; [reflexivity|]. split; reflexivity. }
    split; [exact H3|]. split; [exact H4|]. exact (H H1 H2).
Defined.
