(* ===== verification/Handshake.v ===== *)
(** * Handshake: the BCAST handshake of a peer binding ([handshake] of
    src/broadcast/peer.go)

    Each side opens its outbound BCAST stream and writes its Handshake while it
    reads the peer's from the inbound one.  The two halves run concurrently and
    meet only in the context the call derives from the binding's, with its
    timeout: so each half has its own state and environment, in which that
    context may end at any step, for whatever reason, the failure of the other
    half included.  [o_ctx] and [i_ctx] are the derived context here. *)

From S2P Require Import Prelude Wire Types CtrlOut Session Reader Channel Engine PeerIo PeerOut PeerIn PeerWire.
Open Scope Z_scope.

Inductive hs_err := HsOpen (e : io_err) | HsWrite (e : write_err) | HsRead (e : read_err) | HsCtx (e : ctx_err).
Inductive handshake_err := Joined (read write : option hs_err) | ErrProtocolMismatch.

#[global] Instance hs_timeouts : Timeouts hs_err := fun e =>
  match e with HsOpen e => timeout e | HsWrite e => timeout e | HsRead e => timeout e | HsCtx e => timeout e end.

Section handshake.
Context {St : Type}.
Context `{WB : !Types.Wire Bcast_Handshake}.
Implicit Types (w : out) (wi : inb St).

Definition handshake_msg (announced : list ChannelID) : Bcast_Handshake := mk_Handshake ProtocolV1 announced.

(** The writing half: the stream, if one was opened, and the error. *)
Definition hs_write (env : environment) (announced : list ChannelID) w : option nat * option hs_err * out :=
  match OpenUniStream env BCAST w with
  | (None, w') => (None, HsOpen <$> a_fail (env (o_clock w)), p_cancel w')
  | (Some s, w') =>
      let '(err, w') := guardedWrite env s handshakeFrame (handshake_msg announced) w' in
      let w' := (tick env w').2 in
      let err := match err with Some e => Some (HsWrite e) | None => HsCtx <$> o_ctx w' end in
      match err with
      | Some e => (Some s, Some e, p_cancel (CancelWrite s (streamFailureCode e) w'))
      | None => (Some s, None, w')
      end
  end.

(** [streamCancellationCode(errors.Join(err, ctx.Err()))]. *)
Definition hs_read_code (e : hs_err) (c : option ctx_err) : Code :=
  match e with HsRead e => readFailureCode e c | _ => streamFailureCode (e, c) end.

(** Reading from a stream that was taken: what is left of it, too. *)
Definition hs_receive (env : environment) (r : reader) wi : result hs_err Bcast_Handshake * reader * inb St :=
  let '(res, r') := readMsg handshakeFrame r (ctx_callback env wi) in
  let wi := (itick env (ctx_callback env (ctx_callback env wi))).2 in
  let res := match res, i_ctx wi with
             | Err e, _ => Err (HsRead e)
             | Ok m, Some e => Err (HsCtx e)
             | Ok m, None => Ok m
             end in
  match res with
  | Err e => (Err e, r', cancelRead (hs_read_code e (i_ctx wi)) wi)
  | Ok m => (Ok m, r', wi)
  end.

(** The reading half.  The flag is whether it took the stream from [bcastIn];
    when none arrives the [select] ends with the context, by its deadline at the
    latest. *)
Definition hs_read (env : environment) (arrived : option reader) wi : result hs_err Bcast_Handshake * bool * reader * inb St :=
  let '(a, wi) := itick env wi in
  let gone := match i_ctx wi with Some _ => negb (a_send a) | None => false end in
  match arrived with
  | Some r =>
      if gone then (Err (HsCtx (default CtxDeadline (i_ctx wi))), false, r, i_cancel wi)
      else let '(res, r', wi) := hs_receive env r wi in
           (res, true, r', match res with Err _ => i_cancel wi | Ok _ => wi end)
  | None => (Err (HsCtx (default CtxDeadline (i_ctx wi))), false, mk_reader [] EOF, i_cancel wi)
  end.

(** Both halves joined.  A result has the outbound stream, what is left to read
    of the inbound one and the peer's channels. *)
Definition handshake (env1 env2 : environment) (announced : list ChannelID) (arrived : option reader) w wi
  : result handshake_err (nat * reader * list ChannelID) * bool * out * inb St :=
  let '(s, werr, w) := hs_write env1 announced w in
  let '(res, taken, r, wi) := hs_read env2 arrived wi in
  match res, werr, s with
  | Ok response, None, Some s =>
      if hs_version response <? ProtocolV1 then (Err ErrProtocolMismatch, taken, CancelWrite s Refused w, cancelRead Refused wi)
      else (Ok (s, r, hs_channels response), taken, w, wi)
  | Ok _, Some e, _ => (Err (Joined None (Some e)), taken, w, cancelRead (streamFailureCode e) wi)
  | Err e, None, Some s => (Err (Joined (Some e) None), taken, CancelWrite s (streamFailureCode e) w, wi)
  | Err e, werr, _ => (Err (Joined (Some e) werr), taken, w, wi)
  | Ok _, None, None => (Err (Joined None None), taken, w, wi)   (* no stream without an error *)
  end.

(** ** The writing half *)

Definition reset_side (sd : send_side) : Prop := exists c, sd_end sd = Some (Reset c).

Lemma reset_cancel c sd : sd_end sd <> Some Fin -> reset_side (side_cancel c sd).
Proof. unfold reset_side. simpl. destruct (sd_end sd) as [[|c']|]; [done|eauto|eauto]. Qed.

(** [w'] has at most one stream more than [w]. *)
Definition one_more w w' : Prop := forall s, s <> o_next w -> o_streams w' !! s = o_streams w !! s.

Lemma cancel_more s c w w1 sd : one_more w w1 -> o_streams w1 !! s = Some sd -> s = o_next w ->
  one_more w (CancelWrite s c w1) /\ o_streams (CancelWrite s c w1) !! s = Some (side_cancel c sd).
Proof.
  intros Ho Hs ->. unfold CancelWrite, on_streams. cbn [o_streams]. split; [|by rewrite lookup_alter_eq, Hs].
  intros s' Hne. unfold CancelWrite. cbn [o_streams]. by rewrite lookup_alter_ne, Ho.
Qed.

(** A stream that was opened carries the frame, or a part of it and a reset. *)
Definition wrote (announced : list ChannelID) w (s : option nat) (err : option hs_err) w' : Prop :=
  let frame := frame_of handshakeFrame (handshake_msg announced) in
  one_more w w' /\
  match s, err with
  | None, Some _ => o_streams w' !! o_next w = None
  | Some s, None => s = o_next w /\ frame <> [] /\ o_ctx w' = None /\ o_streams w' !! s = Some (mk_side BCAST frame None)
  | Some s, Some _ => s = o_next w /\ exists sd, o_streams w' !! s = Some sd /\ reset_side sd /\ sd_protocol sd = BCAST /\ sd_bytes sd `prefix_of` frame
  | None, None => False
  end.

Lemma hs_write_spec env announced w : o_streams w !! o_next w = None ->
  let '(s, err, w') := hs_write env announced w in wrote announced w s err w'.
Proof.
  intros Hn. unfold hs_write, OpenUniStream, wrote. destruct (tick_same env w) as (c & E & _).
  assert ((tick env w).1 = env (o_clock w)) as Ea by done. destruct (tick env w) as [a w1]. cbn [fst snd] in *. subst a w1. cbn [o_next o_clock o_ctx o_streams o_slots o_results].
  destruct (a_fail (env (o_clock w))) as [e|]; [by split|].
  set (s := o_next w). set (w2 := mk_out _ _ _ _ _ _).
  assert (o_streams w2 !! s = Some (mk_side BCAST [] None)) as H2 by apply lookup_insert_eq.
  assert (one_more w w2) as O2 by (intros s' Hs; by apply lookup_insert_ne).
  set (msg := handshake_msg announced). pose proof (guardedWrite_only env s handshakeFrame msg w2) as H3. cbn zeta in H3.
  destruct (guardedWrite env s handshakeFrame msg w2) as [err w3]. cbn [fst snd] in H3.
  pose proof (tick_only env s w3) as H4. set (w4 := (tick env w3).2) in *.
  destruct (only_this _ _ _ _ H3 _ H2) as (sd3 & L3 & Hw). destruct (only_this _ _ _ _ H4 _ L3) as (sd & L4 & <-).
  destruct (Hw ltac:(done)) as (P & Wo & B). cbn [sd_protocol sd_end sd_bytes] in *.
  assert (one_more w w4) as O4 by (intros s' Hs; by rewrite (only_other _ _ _ _ H4), (only_other _ _ _ _ H3), O2).
  assert (sd_end sd3 <> Some Fin) as Hnf by (destruct Wo as [->|(_ & ? & _ & ->)]; done).
  assert (forall e, sd_bytes sd3 `prefix_of` frame_of handshakeFrame msg ->
    wrote announced w (Some s) (Some e) (p_cancel (CancelWrite s (streamFailureCode e) w4))) as Hfail.
  { intros e Hp. destruct (cancel_more s (streamFailureCode e) w w4 sd3 O4 L4 eq_refl) as [A B']. split; [exact A|]. split; [done|].
    eexists. split; [exact B'|]. split; [by apply reset_cancel|done]. }
  destruct err as [er|]; [destruct B as (p & Hp & Hb & _); apply Hfail; by rewrite Hb|].
  destruct B as (_ & Hb & Hor & Hne). destruct (o_ctx w4) as [x|] eqn:Ex; cbn [fmap option_fmap option_map]; [apply Hfail; by rewrite Hb|].
  assert (sd_end sd3 = None) as He.
  { destruct Hor as [?|[x Hx]]; [done|]. pose proof (only_ctx _ _ _ _ H4 x Hx). congruence. }
  split; [done|]. split_and!; [done|done|done|]. rewrite L4. destruct sd3. simpl in *. by subst.
Qed.

(** ** The reading half *)

(** A message was read from an open stream; otherwise what was taken is ended. *)
Definition hs_got (arrived : option reader) (res : result hs_err Bcast_Handshake) (taken : bool) (r' : reader) wi' : Prop :=
  match res with
  | Ok m => taken = true /\ i_end wi' = None /\ i_ctx wi' = None /\ exists r, arrived = Some r /\ readFrame r handshakeFrame = (Ok m, r')
  | Err _ => (taken = true -> is_Some (i_end wi')) /\ is_Some (i_ctx wi')
  end.

Lemma ctx_callback_end env wi : i_ctx (ctx_callback env wi) = None -> i_end (ctx_callback env wi) = i_end wi /\ i_ctx wi = None.
Proof.
  intros H. destruct (ctx_callback_waits env wi) as [Wa _]. split; [|destruct (i_ctx wi) as [e|] eqn:E; [|done]; by rewrite (wa_ctx _ _ Wa e E) in H].
  revert H. unfold ctx_callback. destruct (itick_waits env wi) as [_ E]. destruct (itick env wi) as [a w1]. cbn [snd] in E.
  destruct (i_ctx w1) eqn:Ex; [|done]. destruct (a_fire a); simpl; congruence.
Qed.

Lemma hs_read_spec env arrived wi : i_end wi = None ->
  let '(res, taken, r', wi') := hs_read env arrived wi in hs_got arrived res taken r' wi'.
Proof.
  intros He. unfold hs_read. destruct (itick_waits env wi) as [_ E1]. destruct (itick env wi) as [a w1]. cbn [snd] in E1. rewrite He in E1.
  assert (forall x, is_Some (i_ctx (i_cancel (St := St) x))) as Hcan by (intros x; simpl; by destruct (i_ctx x)).
  destruct arrived as [r|]; [|by split]. destruct (match i_ctx w1 with Some _ => negb (a_send a) | None => false end); [by split|].
  unfold hs_receive. set (w2 := ctx_callback env w1). set (w3 := ctx_callback env w2).
  destruct (itick_waits env w3) as [Wc Ec]. set (w4 := (itick env w3).2) in *.
  destruct (readMsg handshakeFrame r w2) as [[m|e] r'] eqn:Er; [|split; [intros _; apply set_end_Some|apply Hcan]].
  destruct (i_ctx w4) as [x|] eqn:Ex; [split; [intros _; apply set_end_Some|apply Hcan]|].
  assert (i_ctx w3 = None) as X3 by (destruct (i_ctx w3) as [e|] eqn:E; [|done]; by rewrite (wa_ctx _ _ Wc e E) in Ex).
  destruct (ctx_callback_end env w2 X3) as [E3 X2]. destruct (ctx_callback_end env w1 X2) as [E2 X1]. fold w3 in E3. fold w2 in E2.
  split; [done|]. split; [congruence|]. split; [done|]. exists r. split; [done|]. revert Er. unfold readMsg. by rewrite E2, E1.
Qed.

(** ** Both *)

(** With a result both streams are open, ours carries our Handshake and the
    peer's carried its own; without one, every stream involved is ended. *)
Definition handshook (announced : list ChannelID) (arrived : option reader) w
    (res : result handshake_err (nat * reader * list ChannelID)) (taken : bool) w' wi' : Prop :=
  one_more w w' /\
  match res with
  | Ok (s, r', chs) =>
      s = o_next w /\ taken = true /\ i_end wi' = None /\ o_ctx w' = None /\
      frame_of handshakeFrame (handshake_msg announced) <> [] /\
      o_streams w' !! s = Some (mk_side BCAST (frame_of handshakeFrame (handshake_msg announced)) None) /\
      exists r m, arrived = Some r /\ readFrame r handshakeFrame = (Ok m, r') /\ ProtocolV1 <= hs_version m /\ chs = hs_channels m
  | Err _ =>
      (taken = true -> is_Some (i_end wi')) /\
      forall sd, o_streams w' !! o_next w = Some sd ->
        reset_side sd /\ sd_protocol sd = BCAST /\ sd_bytes sd `prefix_of` frame_of handshakeFrame (handshake_msg announced)
  end.

Lemma handshake_spec env1 env2 announced arrived w wi : o_streams w !! o_next w = None -> i_end wi = None ->
  let '(res, taken, w', wi') := handshake env1 env2 announced arrived w wi in handshook announced arrived w res taken w' wi'.
Proof.
  intros Hn He. unfold handshake. pose proof (hs_write_spec env1 announced w Hn) as HW.
  destruct (hs_write env1 announced w) as [[s werr] w']. pose proof (hs_read_spec env2 arrived wi He) as HR.
  destruct (hs_read env2 arrived wi) as [[[res taken] r'] wi']. destruct HW as [Ho HW].
  assert (forall c, s = Some (o_next w) -> werr = None ->
    one_more w (CancelWrite (o_next w) c w') /\ forall sd, o_streams (CancelWrite (o_next w) c w') !! o_next w = Some sd ->
      reset_side sd /\ sd_protocol sd = BCAST /\ sd_bytes sd `prefix_of` frame_of handshakeFrame (handshake_msg announced)) as Hc.
  { intros c -> ->. destruct HW as (_ & _ & _ & Hs). destruct (cancel_more _ c w w' _ Ho Hs eq_refl) as [A B]. split; [done|].
    intros sd. rewrite B. intros [= <-]. split; [by apply reset_cancel|done]. }
  destruct res as [m|e].
  - destruct HR as (-> & E & _ & r & -> & Hr). destruct werr as [we|].
    + split; [done|]. split; [intros _; apply set_end_Some|]. intros sd Hsd. destruct s as [s|]; [|congruence].
      destruct HW as [-> (sd' & Hs & ?)]. by simplify_eq.
    + destruct s as [s|]; [|done]. destruct (HW) as (-> & Hne & Hx & Hs). destruct (hs_version m <? ProtocolV1) eqn:Ev; z_bool.
      * destruct (Hc Refused eq_refl eq_refl) as [A B]. split; [exact A|]. split; [intros _; apply set_end_Some|exact B].
      * split; [done|]. do 6 (split; [done|]). exists r, m. done.
  - destruct HR as [HT _]. destruct werr as [we|].
    + assert (forall sd, o_streams w' !! o_next w = Some sd ->
        reset_side sd /\ sd_protocol sd = BCAST /\ sd_bytes sd `prefix_of` frame_of handshakeFrame (handshake_msg announced)) as H.
      { intros sd Hsd. destruct s as [s|]; [|congruence]. destruct HW as [-> (sd' & Hs & ?)]. by simplify_eq. }
      by destruct s.
    + destruct s as [s|]; [|done]. pose proof HW as (-> & _). destruct (Hc (streamFailureCode e) eq_refl eq_refl) as [A B]. by split.
Qed.

(** ** When nothing fails *)

Definition quiet (env : environment) : Prop := forall n, a_done (env n) = None /\ a_fail (env n) = None.

Lemma quiet_tick env w : quiet env -> o_ctx w = None ->
  tick env w = (env (o_clock w), mk_out (S (o_clock w)) None (o_next w) (o_streams w) (o_slots w) (o_results w)).
Proof. intros Hq Hx. unfold tick. rewrite Hx. by destruct (Hq (o_clock w)) as [-> _]. Qed.

Lemma quiet_callback env s w : quiet env -> o_ctx w = None ->
  callback env s w = mk_out (S (o_clock w)) None (o_next w) (o_streams w) (o_slots w) (o_results w).
Proof. intros Hq Hx. unfold callback. by rewrite quiet_tick. Qed.

Lemma quiet_write env announced w : quiet env -> o_ctx w = None -> is_ok (w_Marshal (handshake_msg announced)) = true ->
  exists s w', hs_write env announced w = (Some s, None, w').
Proof.
  intros Hq Hx Hm. unfold hs_write, OpenUniStream. rewrite quiet_tick by done. destruct (Hq (o_clock w)) as [_ ->].
  unfold guardedWrite. rewrite quiet_callback by done. cbn [o_clock o_ctx o_next o_streams o_slots o_results].
  unfold writeFrame. destruct (w_Marshal (handshake_msg announced)) as [d|]; [|done].
  unfold Write. rewrite quiet_tick by done. cbn [o_clock o_ctx o_next o_streams o_slots o_results].
  rewrite lookup_insert_eq. destruct (Hq (S (S (o_clock w)))) as [_ ->]. cbn [fmap option_fmap option_map].
  unfold on_streams. rewrite quiet_callback by done. rewrite quiet_tick by done. cbn [o_clock o_ctx o_next o_streams o_slots o_results snd fmap option_fmap option_map].
  by do 2 eexists.
Qed.

Lemma quiet_itick env wi : quiet env -> i_ctx wi = None -> i_ctx (itick env wi).2 = None /\ i_end (itick env wi).2 = i_end wi.
Proof. intros Hq Hx. unfold itick. simpl. rewrite Hx. by destruct (Hq (i_clock wi)) as [-> _]. Qed.

Lemma quiet_ctx_callback env wi : quiet env -> i_ctx wi = None -> i_ctx (ctx_callback env wi) = None /\ i_end (ctx_callback env wi) = i_end wi.
Proof.
  intros Hq Hx. unfold ctx_callback. destruct (quiet_itick env wi Hq Hx) as [A B]. destruct (itick env wi) as [a w1]. cbn [snd] in *.
  by rewrite A.
Qed.

Lemma quiet_read env r m r' wi : quiet env -> i_ctx wi = None -> i_end wi = None -> readFrame r handshakeFrame = (Ok m, r') ->
  exists wi', hs_read env (Some r) wi = (Ok m, true, r', wi').
Proof.
  intros Hq Hx He Hr. unfold hs_read. destruct (quiet_itick env wi Hq Hx) as [X1 E1]. destruct (itick env wi) as [a w1]. cbn [snd] in *. rewrite X1.
  unfold hs_receive. destruct (quiet_ctx_callback env w1 Hq X1) as [X2 E2]. set (w2 := ctx_callback env w1) in *.
  destruct (quiet_ctx_callback env w2 Hq X2) as [X3 _]. set (w3 := ctx_callback env w2) in *.
  destruct (quiet_itick env w3 Hq X3) as [X4 _]. unfold readMsg. rewrite E2, E1, He, Hr, X4. by eexists.
Qed.

(** ** Two peers *)

Context `{LB : !WireLaws Bcast_Handshake} `{BB : !WireBound Bcast_Handshake}.

(** C21. The handshake of two peers.  Whatever fails or times out on either side:
    with an error the side has ended every stream it opened or took, so nothing
    leaks; with a result its own stream is open and carries exactly its
    Handshake, the peer's is open, the channels are exactly those the peer
    announced, in order, and what is left to read is what the peer wrote after
    its Handshake.  When nothing fails and the peer's frame, within the size
    limit, arrives, there is a result. *)
Theorem handshake_agreement eA1 eA2 eB1 eB2 annA annB arrB wA wiA wB wiB resA takenA wA' wiA' resB takenB wB' wiB' sdB r rest :
  o_streams wA !! o_next wA = None -> i_end wiA = None -> o_streams wB !! o_next wB = None -> i_end wiB = None ->
  handshake eB1 eB2 annB arrB wB wiB = (resB, takenB, wB', wiB') -> o_streams wB' !! o_next wB = Some sdB ->
  (is_ok resB = false -> rest = []) -> rd_data r `prefix_of` sd_bytes sdB ++ rest ->
  handshake eA1 eA2 annA (Some r) wA wiA = (resA, takenA, wA', wiA') ->
  handshook annA (Some r) wA resA takenA wA' wiA' /\
  (forall s r' chs, resA = Ok (s, r', chs) -> chs = annB /\ rd_data r' `prefix_of` rest /\ rd_end r' = rd_end r) /\
  (quiet eA1 -> quiet eA2 -> o_ctx wA = None -> i_ctx wiA = None -> is_ok resB = true -> rd_data r = sd_bytes sdB ++ rest ->
   fits (handshake_msg annA) -> fits (handshake_msg annB) -> is_ok resA = true).
Proof.
  intros HnA HeA HnB HeB HB HsB Hrest Hr HA.
  pose proof (handshake_spec eA1 eA2 annA (Some r) wA wiA HnA HeA) as SA. rewrite HA in SA.
  pose proof (handshake_spec eB1 eB2 annB arrB wB wiB HnB HeB) as SB. rewrite HB in SB.
  set (fB := frame_of handshakeFrame (handshake_msg annB)) in *.
  assert (sd_bytes sdB `prefix_of` fB /\ (is_ok resB = true -> sd_bytes sdB = fB /\ fB <> [])) as [Hp Hok].
  { destruct SB as [_ SB]. destruct resB as [[[sB rB] cB]|eB].
    - destruct SB as (-> & _ & _ & _ & Hne & Hs & _). rewrite HsB in Hs. injection Hs as ->. by split.
    - destruct SB as [_ SB]. by destruct (SB sdB HsB) as (_ & _ & ?). }
  assert (rd_data r `prefix_of` fB ++ rest) as Hr'.
  { destruct (is_ok resB) eqn:Eo; [by destruct (Hok eq_refl) as [<- _]|]. rewrite (Hrest eq_refl), app_nil_r in *. by etrans. }
  split; [done|]. split.
  - intros s r' chs ->. destruct SA as (_ & _ & _ & _ & _ & _ & _ & r0 & m & [= <-] & HR & _ & ->).
    destruct (decide (fB = [])) as [E|Hne].
    + exfalso. assert (rest = []) as -> by (destruct (is_ok resB); [by destruct (Hok eq_refl)|auto]).
      rewrite E in Hr'. apply prefix_nil_inv in Hr'. destruct (readFrame_Ok _ _ _ _ HR) as (d & _ & _ & Hd & _).
      rewrite Hr' in Hd. symmetry in Hd. apply app_eq_nil in Hd as [Hd _]. by apply AppendFrame_nonempty in Hd.
    + by destruct (readFrame_prefix r handshakeFrame (handshake_msg annB) m rest r' ltac:(done) Hne Hr' HR) as (-> & ? & ?).
  - intros Q1 Q2 X1 X2 Eo Hd FA FB. destruct (Hok Eo) as [Hb _]. rewrite Hb in Hd. destruct r as [data en]. cbn [rd_data] in Hd. subst data.
    pose proof (readFrame_fits handshakeFrame (handshake_msg annB) rest en ltac:(done) FB) as HR.
    destruct (quiet_write eA1 annA wA Q1 X1) as (s & w1 & EW); [destruct FA as (b & -> & _); done|].
    destruct (quiet_read eA2 _ _ _ wiA Q2 X2 HeA HR) as (wi1 & ER). unfold handshake in HA. fold fB in HR. rewrite EW in HA.
    change (frame_of handshakeFrame (handshake_msg annB)) with fB in ER. rewrite ER in HA. cbn [hs_version handshake_msg] in HA.
    rewrite Z.ltb_irrefl in HA. by injection HA as <- _ _ _.
Qed.
End handshake.

(** ** A run *)

Module HandshakeDemo.

(** An encoding: version, number of channels, the channels. *)
Definition hs_small (m : Bcast_Handshake) : bool :=
  (0 <=? hs_version m) && (hs_version m <? 256) && (length (hs_channels m) <? 256)%nat && forallb Demo.short (hs_channels m) &&
  (length (Demo.enc (hs_channels m)) <? Demo.max_len)%nat.
#[global] Instance hs_wire : Types.Wire Bcast_Handshake := {|
  w_Marshal m := if hs_small m then Ok (z2b (hs_version m) :: z2b (Z.of_nat (length (hs_channels m))) :: Demo.enc (hs_channels m)) else Err "too long"%string;
  w_Unmarshal b := match b with
                   | v :: n :: rest => match Demo.dec (Z.to_nat (b2z n)) rest with Some l => Ok (mk_Handshake (b2z v) l) | None => Err "bad"%string end
                   | _ => Err "bad"%string
                   end |}.
#[global] Instance hs_laws : WireLaws Bcast_Handshake.
Proof.
  intros m b. cbn [w_Marshal w_Unmarshal hs_wire]. destruct (hs_small m) eqn:E; [|done]. intros [= <-]. unfold hs_small in E.
  rewrite !andb_true_iff in E. destruct E as [[[[E1 E2] E3] E4] _]. z_bool.
  rewrite !b2z_z2b_small, Nat2Z.id, Demo.dec_enc by (done || lia). by destruct m.
Qed.
#[global] Instance hs_bound : WireBound Bcast_Handshake.
Proof.
  intros m b. cbn [w_Marshal hs_wire]. destruct (hs_small m) eqn:E; [|done]. intros [= <-]. unfold hs_small in E.
  rewrite !andb_true_iff in E. destruct E as [_ E]. z_bool. cbn [length]. unfold Demo.max_len in E. lia.
Qed.

Definition ann : list ChannelID := [[Byte.x63]; [Byte.x64; Byte.x65]].
Definition w0 : out := mk_out 0 None 0 ∅ [] [].
Definition in0 : inb unit := mk_in 0 None false None [] [] [].
Definition peer_frame : reader := mk_reader (frame_of handshakeFrame (handshake_msg ann)) ErrDeadline.
(** The other side announces nothing; each reads the other's frame. *)
Definition other : result handshake_err (nat * reader * list ChannelID) * bool * out * inb unit :=
  handshake calm calm ann (Some (mk_reader (frame_of handshakeFrame (handshake_msg [])) ErrDeadline)) w0 in0.
Definition mine : result handshake_err (nat * reader * list ChannelID) * bool * out * inb unit := handshake calm calm [] (Some peer_frame) w0 in0.
End HandshakeDemo.

Lemma handshake_agreement_witness :
  exists s r', HandshakeDemo.mine.1.1.1 = Ok (s, r', HandshakeDemo.ann).
Proof.
  destruct (handshake_agreement calm calm calm calm [] HandshakeDemo.ann (Some (mk_reader (frame_of handshakeFrame (handshake_msg [])) ErrDeadline))
    HandshakeDemo.w0 HandshakeDemo.in0 HandshakeDemo.w0 HandshakeDemo.in0
    HandshakeDemo.mine.1.1.1 HandshakeDemo.mine.1.1.2 HandshakeDemo.mine.1.2 HandshakeDemo.mine.2
    HandshakeDemo.other.1.1.1 HandshakeDemo.other.1.1.2 HandshakeDemo.other.1.2 HandshakeDemo.other.2
    (mk_side BCAST (frame_of handshakeFrame (handshake_msg HandshakeDemo.ann)) None) HandshakeDemo.peer_frame []) as (_ & H1 & H2);
    try reflexivity.
  - destruct HandshakeDemo.mine.1.1.1 as [[[s r'] chs]|e].
    + exists s, r'. destruct (H1 s r' chs eq_refl) as [-> _]. reflexivity.
    + discriminate H2; try reflexivity.
      * intros n. split; reflexivity.
      * intros n. split; reflexivity.
      * eexists. split; [vm_compute; reflexivity|]. vm_compute. discriminate.
      * eexists. split; [vm_compute; reflexivity|]. vm_compute. discriminate.
Defined.
