(* ===== verification/PeerLife.v ===== *)
(** * PeerLife: the lifecycle of a peer binding ([Run], [Close], [stop] and the
    accept loops of src/broadcast/peer.go, [acceptSession] and [acceptChunk] of
    peer_in.go)

    A state has the program counter of every goroutine of one binding: [Run],
    the five workers it starts, one reader for each admitted SESS and CHUNK
    stream, and [Close] on the engine's actor.  They share the binding (the
    [peerConn] of [Engine], whose hand-off queues the engine fills) and the
    world.  A step is one goroutine's next action, so runs have every
    interleaving; what the handshake and the readers do between their first and
    last action is the functions of [Handshake] and [PeerIn], for any
    environment. *)

From S2P Require Import Prelude Wire Types CtrlOut Session Reader Channel Queue Engine PeerIo PeerOut PeerIn PeerWire Handshake.

Definition maxInboundChunkStreams : nat := 5.

(** Where [Run] is.  A stream it owns: the inbound BCAST stream. *)
Inductive run_pc :=
| RunHandshake (taken : option nat)
| RunWaiting (x : nat)            (* the select on handshakeDone *)
| RunLock (x : nat)               (* about to take handlersMu *)
| RunActive                       (* workers started *)
| RunDefer (own : option nat)     (* returning: the control loops have not taken [own] *)
| RunJoin (own : option nat)      (* stopped, in wg.Wait *)
| RunGone.

Inductive close_pc := CloseIdle | CloseStopped | CloseClaimed | CloseReturned.

(** [runCtrlLoop]: between events, or past its check of the context. *)
Inductive ctrl_pc := CtrlOff | CtrlTop | CtrlNext.

(** The accept loops: at their [select] or first check, about to pop, holding a
    stream, waiting for the queue. *)
Inductive acc_pc := AccOff | AccTop | AccPop | AccHold (x : nat) | AccWait.

Record life (St : Type) := mk_life {
  l_run : run_pc; l_close : close_pc; l_claimed : bool;
  l_ctrl : ctrl_pc; l_data : bool; l_reader : option nat; l_sacc : acc_pc; l_cacc : acc_pc;
  l_sess : list nat; l_chunk : list nat;          (* one reader each *)
  l_conn : peerConn; l_w : world;
  l_out : bool;                                   (* ctrlOut is open *)
  l_posts : list (nat * channelEvent St);
  l_given : list nat }.                           (* handed to the binding *)
Arguments mk_life {St}.
Arguments l_run {St}.
Arguments l_close {St}.
Arguments l_claimed {St}.
Arguments l_ctrl {St}.
Arguments l_data {St}.
Arguments l_reader {St}.
Arguments l_sacc {St}.
Arguments l_cacc {St}.
Arguments l_sess {St}.
Arguments l_chunk {St}.
Arguments l_conn {St}.
Arguments l_w {St}.
Arguments l_out {St}.
Arguments l_posts {St}.
Arguments l_given {St}.

Section life.
Context {St : Type}.
Context `{WB : !Types.Wire Bcast_Handshake} `{WS : !Types.Wire Bcast_Subscribe} `{WU : !Types.Wire Bcast_Unsubscribe}.
Context `{WO : !Types.Wire Sess_Open} `{WD : !Types.Wire Sess_Update} `{WH : !Types.Wire Chunk_Header}.
Context (p : nat).
Implicit Types (l : life St).

Definition set_run r l := mk_life r (l_close l) (l_claimed l) (l_ctrl l) (l_data l) (l_reader l) (l_sacc l) (l_cacc l) (l_sess l) (l_chunk l) (l_conn l) (l_w l) (l_out l) (l_posts l) (l_given l).
Definition set_close c l := mk_life (l_run l) c (l_claimed l) (l_ctrl l) (l_data l) (l_reader l) (l_sacc l) (l_cacc l) (l_sess l) (l_chunk l) (l_conn l) (l_w l) (l_out l) (l_posts l) (l_given l).
Definition set_claimed l := mk_life (l_run l) (l_close l) true (l_ctrl l) (l_data l) (l_reader l) (l_sacc l) (l_cacc l) (l_sess l) (l_chunk l) (l_conn l) (l_w l) (l_out l) (l_posts l) (l_given l).
Definition set_ctrl c l := mk_life (l_run l) (l_close l) (l_claimed l) c (l_data l) (l_reader l) (l_sacc l) (l_cacc l) (l_sess l) (l_chunk l) (l_conn l) (l_w l) (l_out l) (l_posts l) (l_given l).
Definition set_data d l := mk_life (l_run l) (l_close l) (l_claimed l) (l_ctrl l) d (l_reader l) (l_sacc l) (l_cacc l) (l_sess l) (l_chunk l) (l_conn l) (l_w l) (l_out l) (l_posts l) (l_given l).
Definition set_reader r l := mk_life (l_run l) (l_close l) (l_claimed l) (l_ctrl l) (l_data l) r (l_sacc l) (l_cacc l) (l_sess l) (l_chunk l) (l_conn l) (l_w l) (l_out l) (l_posts l) (l_given l).
Definition set_sacc a l := mk_life (l_run l) (l_close l) (l_claimed l) (l_ctrl l) (l_data l) (l_reader l) a (l_cacc l) (l_sess l) (l_chunk l) (l_conn l) (l_w l) (l_out l) (l_posts l) (l_given l).
Definition set_cacc a l := mk_life (l_run l) (l_close l) (l_claimed l) (l_ctrl l) (l_data l) (l_reader l) (l_sacc l) a (l_sess l) (l_chunk l) (l_conn l) (l_w l) (l_out l) (l_posts l) (l_given l).
Definition set_readers s c l := mk_life (l_run l) (l_close l) (l_claimed l) (l_ctrl l) (l_data l) (l_reader l) (l_sacc l) (l_cacc l) s c (l_conn l) (l_w l) (l_out l) (l_posts l) (l_given l).
Definition set_conn c l := mk_life (l_run l) (l_close l) (l_claimed l) (l_ctrl l) (l_data l) (l_reader l) (l_sacc l) (l_cacc l) (l_sess l) (l_chunk l) c (l_w l) (l_out l) (l_posts l) (l_given l).
Definition set_world w l := mk_life (l_run l) (l_close l) (l_claimed l) (l_ctrl l) (l_data l) (l_reader l) (l_sacc l) (l_cacc l) (l_sess l) (l_chunk l) (l_conn l) w (l_out l) (l_posts l) (l_given l).
Definition set_out o l := mk_life (l_run l) (l_close l) (l_claimed l) (l_ctrl l) (l_data l) (l_reader l) (l_sacc l) (l_cacc l) (l_sess l) (l_chunk l) (l_conn l) (l_w l) o (l_posts l) (l_given l).
Definition add_posts ps l := mk_life (l_run l) (l_close l) (l_claimed l) (l_ctrl l) (l_data l) (l_reader l) (l_sacc l) (l_cacc l) (l_sess l) (l_chunk l) (l_conn l) (l_w l) (l_out l) (l_posts l ++ ps) (l_given l).
Definition add_given x l := mk_life (l_run l) (l_close l) (l_claimed l) (l_ctrl l) (l_data l) (l_reader l) (l_sacc l) (l_cacc l) (l_sess l) (l_chunk l) (l_conn l) (l_w l) (l_out l) (l_posts l) (l_given l ++ [x]).

(** [newPeerConn], about to run. *)
Definition new_life (id : PeerID) (announced : list ChannelID) (w : world) : life St :=
  mk_life (RunHandshake None) CloseIdle false CtrlOff false None AccOff AccOff [] [] (newPeerConn id announced) w false [] [].

Definition done l : bool := pc_stopped (l_conn l).

(** [p.cancel()]. *)
Definition cancel l : life St := set_conn (with_stopped true (pc_closed (l_conn l)) (l_conn l)) l.

(** [stop]: the context, then the control state. *)
Definition stop l : life St := let l := cancel l in set_world (on_ctrl p ctrl_close (l_w l)) l.

Definition end_stream (x : nat) (how : option Code) l : life St := set_world (emit (FxStreamEnd x how) (l_w l)) l.

(** [wg.Wait] returns. *)
Definition wg_zero l : bool :=
  match l_ctrl l, l_data l, l_reader l, l_sacc l, l_cacc l, l_sess l, l_chunk l with
  | CtrlOff, false, None, AccOff, AccOff, [], [] => true
  | _, _, _, _, _, _, _ => false
  end.

(** The state a goroutine starts in. *)
Definition out0 : out := mk_out 0 None 0 ∅ [] [].
Definition in0 : inb St := mk_in 0 None false None [] [] [].

(** ** Run *)

(** [handshake] returned, having taken [t] from [bcastIn]. *)
Definition finish_handshake (env1 env2 : environment) (r : reader) (t : option nat) l : option (life St) :=
  let arrived := match t with Some _ => Some r | None => None end in
  let '(res, taken, _, wi) := handshake env1 env2 (pc_announced (l_conn l)) arrived out0 in0 in
  match t with
  | None => Some (set_run (RunDefer None) l)
  | Some x =>
      if negb taken then None
      else match res with
           | Ok _ => Some (set_out true (set_run (RunWaiting x) l))
           | Err _ => Some (set_run (RunDefer None) (end_stream x (default None (i_end wi)) l))
           end
  end.

(** Workers start under [handlersMu]. *)
Definition start_workers (x : nat) l : life St :=
  let l := set_run RunActive (set_claimed l) in
  set_cacc AccTop (set_sacc AccTop (set_reader (Some x) (set_data true (set_ctrl CtrlTop l)))).

(** One step of [Run]: [take] is whether the handshake's [select] receives, [e]
    is [p.ctx.Err()] at the end. *)
Definition run_next (take : bool) (e : ctx_err) (env1 env2 : environment) (r : reader) l : option (life St) :=
  let c := l_conn l in
  match l_run l with
  | RunHandshake None =>
      if take then
        match pc_bcastIn c with
        | x :: rest => Some (set_run (RunHandshake (Some x)) (set_conn (with_queues (pc_bcastAccepted c) rest (pc_sessionIn c) (pc_chunkIn c) c) l))
        | [] => None
        end
      else finish_handshake env1 env2 r None l
  | RunHandshake (Some x) => finish_handshake env1 env2 r (Some x) l
  | RunWaiting x => if pc_handshakeDone c || done l then Some (set_run (RunLock x) l) else None
  | RunLock x => Some (if done l || l_claimed l then set_run (RunDefer (Some x)) l else start_workers x l)
  | RunActive => if done l then Some (set_run (RunDefer None) l) else None
  | RunDefer own => Some (set_run (RunJoin own) (stop l))
  | RunJoin own =>
      if wg_zero l then
        Some (set_run RunGone (match own with Some x => set_out false (end_stream x (Some (streamFailureCode e)) l) | None => l end))
      else None
  | RunGone => None
  end.

(** ** Close *)

Definition close_next l : option (life St) :=
  match l_close l with
  | CloseIdle => Some (set_close CloseStopped (stop l))
  | CloseStopped => Some (set_close CloseClaimed (set_claimed l))
  | CloseClaimed =>
      if wg_zero l then
        let '(c, w) := disposeQueuedStreams (with_stopped true true (l_conn l)) (l_w l) in
        Some (set_close CloseReturned (set_world w (set_conn c l)))
      else None
  | CloseReturned => None
  end.

(** ** The accept loops *)

(** [pick] is whether a [select] with other cases ready takes the first. *)
Definition acceptSession (pick : bool) (x : nat) l : life St :=
  if (length (l_sess l) <? streamQueueCap)%nat && (negb (done l) || pick) then set_readers (l_sess l ++ [x]) (l_chunk l) l
  else end_stream x (Some Unspecified) l.

Definition acceptChunk (pick : bool) (x : nat) l : option (life St) :=
  if (length (l_chunk l) <? maxInboundChunkStreams)%nat && (negb (done l) || pick) then Some (set_readers (l_sess l) (l_chunk l ++ [x]) l)
  else if done l then Some (end_stream x (Some Unspecified) l)
  else None.

Definition runSessionAcceptLoop (pick : bool) l : option (life St) :=
  let c := l_conn l in
  match l_sacc l with
  | AccTop =>
      match pc_sessionIn c with
      | x :: rest =>
          if done l && negb pick then Some (set_sacc AccOff l)
          else Some (set_sacc (AccHold x) (set_conn (with_queues (pc_bcastAccepted c) (pc_bcastIn c) rest (pc_chunkIn c) c) l))
      | [] => if done l then Some (set_sacc AccOff l) else None
      end
  | AccHold x => Some (set_sacc AccTop (acceptSession pick x l))
  | _ => None
  end.

Definition runChunkAcceptLoop (pick : bool) l : option (life St) :=
  let c := l_conn l in
  let with_chunks q := set_conn (with_queues (pc_bcastAccepted c) (pc_bcastIn c) (pc_sessionIn c) q c) l in
  match l_cacc l with
  | AccTop => Some (set_cacc (if done l then AccOff else AccPop) l)
  | AccPop =>
      match q_pop (pc_chunkIn c) with
      | (Some x, q) => Some (set_cacc (AccHold x) (with_chunks q))
      | (None, q) => Some (set_cacc AccWait (with_chunks q))
      end
  | AccHold x => set_cacc AccTop <$> acceptChunk pick x l
  | AccWait =>
      if q_ready (pc_chunkIn c) && (negb (done l) || pick) then Some (set_cacc AccTop (with_chunks (take_token (pc_chunkIn c))))
      else if done l then Some (set_cacc AccOff l) else None
  | AccOff => None
  end.

(** ** Steps *)

(** The binding's own goroutines. *)
Inductive own_step : life St -> life St -> Prop :=
| os_run take e env1 env2 r l l' : run_next take e env1 env2 r l = Some l' -> own_step l l'
| os_close l l' : l_close l <> CloseIdle -> close_next l = Some l' -> own_step l l'
| os_sessions pick l l' : runSessionAcceptLoop pick l = Some l' -> own_step l l'
| os_chunks pick l l' : runChunkAcceptLoop pick l = Some l' -> own_step l l'
(** [runCtrlLoop] checks the context, takes an event, and returns with its streams ended *)
| os_ctrl_check l : l_ctrl l = CtrlTop -> done l = false -> own_step l (set_ctrl CtrlNext l)
| os_ctrl_next l s : l_ctrl l = CtrlNext -> worker_step (ctrlState (l_w l) p) s \/ s = ctrlState (l_w l) p ->
    own_step l (set_ctrl CtrlTop (set_world (on_ctrl p (fun _ => s) (l_w l)) l))
| os_ctrl_return l : l_ctrl l <> CtrlOff -> done l = true -> own_step l (set_out false (set_ctrl CtrlOff l))
| os_data_return l : l_data l = true -> done l = true -> own_step l (set_data false l)
| os_reader env r x l w' : l_reader l = Some x -> runCtrlReader env p r in0 = Some w' ->
    own_step l (cancel (set_reader None (end_stream x (default None (i_end w')) l)))
| os_session env inboxFor r x s1 s2 l w' : l_sess l = s1 ++ x :: s2 -> runInboundSession env p (pc_id (l_conn l)) inboxFor r in0 = Some w' ->
    own_step l (set_readers (s1 ++ s2) (l_chunk l) (add_posts (i_posts w') (end_stream x (default None (i_end w')) l)))
| os_chunk env inboxFor r x s1 s2 l r' w' : l_chunk l = s1 ++ x :: s2 ->
    processChunk env (pc_id (l_conn l)) inboxFor x r in0 = (r', w') ->
    own_step l (set_readers (l_sess l) (s1 ++ s2) (add_posts (i_posts w') (match i_end w' with Some how => end_stream x how l | None => l end))).

(** The engine's actor, which is not available while it runs [Close], and what
    ends the context: the engine, the family's peer, a failed write. *)
Inductive outer_step : life St -> life St -> Prop :=
| xs_enqueue pr x l c w : l_close l = CloseIdle \/ l_close l = CloseReturned -> enqueueStream pr x (l_conn l) (l_w l) = Some (c, w) ->
    outer_step l (add_given x (set_world w (set_conn c l)))
| xs_bound l : l_close l = CloseIdle -> (forall t, l_run l <> RunHandshake t) -> outer_step l (set_conn (with_handshakeDone (l_conn l)) l)
| xs_cancel l : outer_step l (cancel l)
| xs_close l l' : l_close l = CloseIdle -> close_next l = Some l' -> outer_step l l'.

(** ** Where a stream is *)

Definition run_owns (r : run_pc) : option nat :=
  match r with
  | RunHandshake t => t
  | RunWaiting x | RunLock x => Some x
  | RunDefer own | RunJoin own => own
  | _ => None
  end.
Definition acc_owns (a : acc_pc) : option nat := match a with AccHold x => Some x | _ => None end.

(** A goroutine of the binding has it. *)
Definition working l (x : nat) : Prop :=
  run_owns (l_run l) = Some x \/ l_reader l = Some x \/ acc_owns (l_sacc l) = Some x \/ acc_owns (l_cacc l) = Some x \/
  x ∈ l_sess l \/ x ∈ l_chunk l.
(** A channel was sent it, as the rest of a CHUNK stream. *)
Definition handed l (x : nat) : Prop := exists h cs, (h, channelChunk cs) ∈ l_posts l /\ cs_stream cs = x.
Definition finished l (x : nat) : Prop := ended (l_w l) x \/ handed l x.
Definition located l (x : nat) : Prop := x ∈ held (l_conn l) \/ working l x \/ finished l x.

Definition life_step l l' : Prop := own_step l l' \/ outer_step l l'.
Definition life_run id announced w l : Prop := rtc life_step (new_life id announced w) l.
End life.

(** ** Invariant *)

Section facts.
Context {St : Type}.
Context `{WB : !Types.Wire Bcast_Handshake} `{WS : !Types.Wire Bcast_Subscribe} `{WU : !Types.Wire Bcast_Unsubscribe}.
Context `{WO : !Types.Wire Sess_Open} `{WD : !Types.Wire Sess_Update} `{WH : !Types.Wire Chunk_Header}.
Context (p : nat).
Implicit Types (l : life St).

Lemma wg_zero_spec l : wg_zero l = true <->
  l_ctrl l = CtrlOff /\ l_data l = false /\ l_reader l = None /\ l_sacc l = AccOff /\ l_cacc l = AccOff /\ l_sess l = [] /\ l_chunk l = [].
Proof.
  unfold wg_zero. split; [|by intros (-> & -> & -> & -> & -> & -> & ->)].
  destruct (l_ctrl l); try done. destruct (l_data l); try done. destruct (l_reader l); try done. destruct (l_sacc l); try done.
  destruct (l_cacc l); try done. destruct (l_sess l); try done. by destruct (l_chunk l).
Qed.

(** The workers run, or ran. *)
Definition active (r : run_pc) : Prop := r = RunActive \/ r = RunDefer None \/ r = RunJoin None.

Record life_inv l : Prop := {
  li_sess : (length (l_sess l) <= streamQueueCap)%nat;
  li_chunk : (length (l_chunk l) <= maxInboundChunkStreams)%nat;
  li_start : wg_zero l = false -> pc_handshakeDone (l_conn l) = true /\ l_claimed l = true /\ active (l_run l);
  li_lock : forall x, l_run l = RunLock x -> pc_handshakeDone (l_conn l) = true \/ done l = true;
  li_claim : l_close l = CloseClaimed \/ l_close l = CloseReturned -> l_claimed l = true;
  li_stopped : l_close l <> CloseIdle -> done l = true;
  li_returned : l_close l = CloseReturned -> wg_zero l = true /\ held (l_conn l) = [];
  li_out : l_out l = true -> l_ctrl l <> CtrlOff \/ (is_Some (run_owns (l_run l)) /\ forall t, l_run l <> RunHandshake t);
  li_wait : l_cacc l = AccWait -> q_items (pc_chunkIn (l_conn l)) = [] \/ q_ready (pc_chunkIn (l_conn l)) = true;
  li_sacc : match l_sacc l with AccPop | AccWait => False | _ => True end;
  li_given : forall x, x ∈ l_given l -> located l x }.

Lemma new_life_inv id announced w : life_inv (new_life id announced w).
Proof. split; simpl; try done; try lia; try by intros [|]. intros x ?%elem_of_nil. done. Qed.

(** A stream stays where it is or moves on. *)
Lemma located_step l l' : (forall x, x ∈ held (l_conn l) \/ working l x -> located l' x) ->
  w_log (l_w l) ⊆ w_log (l_w l') -> l_posts l ⊆ l_posts l' -> forall x, located l x -> located l' x.
Proof.
  intros H1 H2 H3 x [H|[H|[(how & H)|(h & cs & H & Hx)]]]; [by apply H1; left|by apply H1; right| |].
  - right. right. left. exists how. by apply H2.
  - right. right. right. exists h, cs. split; [by apply H3|done].
Qed.

Lemma end_stream_ended x how l : ended (l_w (end_stream x how l)) x.
Proof. exists how. simpl. apply elem_of_app. right. by left. Qed.

Lemma emit_log e w : w_log w ⊆ w_log (emit e w).
Proof. simpl. intros y Hy. apply elem_of_app. by left. Qed.

Lemma finish_handshake_spec env1 env2 r t l l' : finish_handshake env1 env2 r t l = Some l' ->
  (exists x, t = Some x /\ l' = set_out true (set_run (RunWaiting x) l)) \/
  (exists x how, t = Some x /\ l' = set_run (RunDefer None) (end_stream x how l)) \/
  (t = None /\ l' = set_run (RunDefer None) l).
Proof.
  unfold finish_handshake. destruct t as [x|]; [|destruct (handshake _ _ _ _ _ _) as [[[? ?] ?] ?]; intros [= <-]; auto].
  destruct (handshake _ _ _ _ _ _) as [[[res taken] w'] wi]. destruct taken; [|done]. cbn [negb].
  destruct res; intros [= <-]; eauto 6.
Qed.

(** Facts of a state where no worker runs. *)
Lemma idle_workers l : life_inv l -> ~ active (l_run l) -> wg_zero l = true.
Proof. intros HI Hn. destruct (wg_zero l) eqn:E; [done|]. by destruct (li_start l HI E) as (_ & _ & ?). Qed.

(** The invariant from its parts: the streams are accounted for separately. *)
Lemma life_inv_moves l l' : life_inv l -> l_given l' = l_given l -> w_log (l_w l) ⊆ w_log (l_w l') -> l_posts l ⊆ l_posts l' ->
  (forall x, x ∈ held (l_conn l) \/ working l x -> located l' x) ->
  ((forall x, x ∈ l_given l' -> located l' x) -> life_inv l') -> life_inv l'.
Proof. intros HI Hg Hw Hp Hm H. apply H. rewrite Hg. intros x Hx. apply (located_step l l' Hm Hw Hp). by apply (li_given l HI). Qed.

(** A step of [l] that moves streams; then the other parts, those the step does
    not touch by the invariant of [l]. *)
Ltac by_moves l HI :=
  apply (life_inv_moves l _ HI); [done|simpl; try done; try apply emit_log|simpl; try done|intros y Hy|
    intros Hg; split; simpl; try done;
    first [exact (li_sess l HI)|exact (li_chunk l HI)|exact (li_start l HI)|exact (li_lock l HI)|exact (li_claim l HI)|exact (li_stopped l HI)
          |exact (li_returned l HI)|exact (li_out l HI)|exact (li_wait l HI)|exact (li_sacc l HI)|exact Hg|idtac]].

Ltac still_there Er := unfold located, working in *; rewrite ?Er in *; simpl in *; tauto.

(** [Run], one point at a time. *)
Lemma run_taken_inv x take e env1 env2 r l l' : life_inv l -> l_run l = RunHandshake (Some x) -> run_next p take e env1 env2 r l = Some l' -> life_inv l'.
Proof.
  intros HI Er. unfold run_next. rewrite Er.
  pose proof (idle_workers l HI ltac:(rewrite Er; by intros [|[|]])) as Hz.
  intros H. apply finish_handshake_spec in H as [(? & [= <-] & ->)|[(? & how & [= <-] & ->)|[? _]]]; [| |done]; by_moves l HI.
  + still_there Er.
  + intros Hf. change (wg_zero l = false) in Hf. congruence.
  + intros _. right. split; [by eexists|done].
  + unfold located, working in *. rewrite Er in Hy. simpl in *. destruct Hy as [?|[[= <-]|?]]; [tauto| |tauto].
    right. right. left. apply (end_stream_ended x how l).
  + intros Hf. change (wg_zero l = false) in Hf. congruence.
  + intros Ho. destruct (li_out l HI Ho) as [?|[_ Ht]]; [by left|]. by destruct (Ht (Some x)).
Qed.

Lemma run_handshake_inv take e env1 env2 r l l' : life_inv l -> l_run l = RunHandshake None -> run_next p take e env1 env2 r l = Some l' -> life_inv l'.
Proof.
  intros HI Er. unfold run_next. rewrite Er.
  pose proof (idle_workers l HI ltac:(rewrite Er; by intros [|[|]])) as Hz. destruct take.
  + destruct (pc_bcastIn (l_conn l)) as [|x rest] eqn:Eb; [done|]. intros [= <-]. by_moves l HI.
    * unfold located, working, held in *. rewrite Er, Eb in Hy. simpl in *. set_solver.
    * intros Hf. change (wg_zero l = false) in Hf. congruence.
    * intros Hc. destruct (li_returned l HI Hc) as [? Hh]. unfold held in Hh. by rewrite Eb in Hh.
    * intros Ho. destruct (li_out l HI Ho) as [?|[_ Ht]]; [by left|]. by destruct (Ht None).
  + intros H. apply finish_handshake_spec in H as [(? & ? & _)|[(? & ? & ? & _)|[_ ->]]]; [done|done|]. by_moves l HI.
    * still_there Er.
    * intros Hf. change (wg_zero l = false) in Hf. congruence.
    * intros Ho. destruct (li_out l HI Ho) as [?|[_ Ht]]; [by left|]. by destruct (Ht None).
Qed.

Lemma run_waiting_inv x take e env1 env2 r l l' : life_inv l -> l_run l = RunWaiting x -> run_next p take e env1 env2 r l = Some l' -> life_inv l'.
Proof.
  intros HI Er. unfold run_next. rewrite Er.
  pose proof (idle_workers l HI ltac:(rewrite Er; by intros [|[|]])) as Hz.
  destruct (_ || _) eqn:E; [|done]. intros [= <-]. apply orb_true_iff in E. by_moves l HI.
  + still_there Er.
  + intros Hf. change (wg_zero l = false) in Hf. congruence.
  + intros Ho. right. split; [by eexists|done].
Qed.

Lemma run_lock_inv x take e env1 env2 r l l' : life_inv l -> l_run l = RunLock x -> run_next p take e env1 env2 r l = Some l' -> life_inv l'.
Proof.
  intros HI Er. unfold run_next. rewrite Er.
  pose proof (idle_workers l HI ltac:(rewrite Er; by intros [|[|]])) as Hz. intros [= <-].
  destruct (done l || l_claimed l) eqn:E.
  + by_moves l HI.
    * still_there Er.
    * intros Hf. change (wg_zero l = false) in Hf. congruence.
    * intros Ho. right. split; [by eexists|done].
  + apply orb_false_iff in E as [Ed Ec]. apply wg_zero_spec in Hz as (Z1 & Z2 & Z3 & Z4 & Z5 & Z6 & Z7). by_moves l HI.
    * unfold located, working in *. rewrite Er, Z3, Z4, Z5, Z6, Z7 in Hy. simpl in *. rewrite ?Z6, ?Z7. naive_solver.
    * intros _. split; [|by split; [|left]]. destruct (li_lock l HI x Er) as [?|?]; congruence.
    * intros H. pose proof (li_claim l HI (or_intror H)). congruence.
    * intros _. by left.
Qed.

Lemma run_active_inv take e env1 env2 r l l' : life_inv l -> l_run l = RunActive -> run_next p take e env1 env2 r l = Some l' -> life_inv l'.
Proof.
  intros HI Er. unfold run_next. rewrite Er.
  destruct (done l) eqn:Ed; [|done]. intros [= <-]. by_moves l HI.
  + still_there Er.
  + intros Hf. destruct (li_start l HI Hf) as (? & ? & _). split; [done|]. split; [done|]. right. by left.
  + intros Ho. destruct (li_out l HI Ho) as [?|[[z Hz] _]]; [by left|]. by rewrite Er in Hz.
Qed.

Lemma run_defer_inv own take e env1 env2 r l l' : life_inv l -> l_run l = RunDefer own -> run_next p take e env1 env2 r l = Some l' -> life_inv l'.
Proof.
  intros HI Er. unfold run_next. rewrite Er.
  intros [= <-]. by_moves l HI.
  + still_there Er.
  + intros Hf. destruct (li_start l HI Hf) as (? & ? & Ha). rewrite Er in Ha. split; [done|]. split; [done|].
    destruct Ha as [|[[= ->]|]]; [done|right; by right|done].
  + intros Ho. destruct (li_out l HI Ho) as [?|[Hz _]]; [by left|]. rewrite Er in Hz. right. by split.
Qed.

Lemma run_join_inv own take e env1 env2 r l l' : life_inv l -> l_run l = RunJoin own -> run_next p take e env1 env2 r l = Some l' -> life_inv l'.
Proof.
  intros HI Er. unfold run_next. rewrite Er.
  destruct (wg_zero l) eqn:Hz; [|done]. apply wg_zero_spec in Hz as Hz'. destruct Hz' as (Z1 & Z2 & Z3 & Z4 & Z5 & Z6 & Z7).
  intros [= <-]. destruct own as [x|]; by_moves l HI.
  + unfold located, working in *. rewrite Er in Hy. simpl in *. destruct Hy as [?|[[= <-]|?]]; [tauto| |tauto].
    right. right. left. apply (end_stream_ended x (Some (streamFailureCode e)) l).
  + intros Hf. change (wg_zero l = false) in Hf. congruence.
  + still_there Er.
  + intros Hf. change (wg_zero l = false) in Hf. congruence.
  + intros Ho. destruct (li_out l HI Ho) as [?|[Hx _]]; [done|]. rewrite Er in Hx. by destruct Hx.
Qed.

Lemma life_run_next_inv take e env1 env2 r l l' : life_inv l -> run_next p take e env1 env2 r l = Some l' -> life_inv l'.
Proof.
  intros HI HN. destruct (l_run l) as [[x|]|x|x| |own|own|] eqn:Er.
  - by eapply run_taken_inv.
  - by eapply run_handshake_inv.
  - by eapply run_waiting_inv.
  - by eapply run_lock_inv.
  - by eapply run_active_inv.
  - by eapply run_defer_inv.
  - by eapply run_join_inv.
  - unfold run_next in HN. by rewrite Er in HN.
Qed.

Lemma cancel_inv l : life_inv l -> life_inv (cancel l).
Proof.
  intros HI. by_moves l HI.
  - by destruct Hy; [left|right; left].
  - intros x Hx. by right.
Qed.

Lemma stop_inv l : life_inv l -> life_inv (stop p l).
Proof.
  intros HI. by_moves l HI.
  - by destruct Hy; [left|right; left].
  - intros x Hx. by right.
Qed.

Lemma close_next_inv l l' : life_inv l -> close_next p l = Some l' -> life_inv l'.
Proof.
  intros HI. unfold close_next. destruct (l_close l) eqn:Ec; [| | |done].
  - intros [= <-]. by_moves l HI.
    + by destruct Hy; [left|right; left].
    + intros x Hx. by right.
    + by intros [|].
  - intros [= <-]. by_moves l HI.
    + by destruct Hy; [left|right; left].
    + intros Hf. destruct (li_start l HI Hf) as (? & _ & ?). by split.
    + intros _. apply (li_stopped l HI). by rewrite Ec.
  - destruct (wg_zero l) eqn:Hz; [|done]. apply wg_zero_spec in Hz as Hz'. destruct Hz' as (Z1 & Z2 & Z3 & Z4 & Z5 & Z6 & Z7).
    destruct (dispose_ends (with_stopped true true (l_conn l)) (l_w l)) as [D1 D2].
    destruct (disposeQueuedStreams _ _) as [c w] eqn:Ed. cbn [snd] in *. intros [= <-].
    assert (exists q, c = with_queues (pc_bcastAccepted (l_conn l)) [] [] q (with_stopped true true (l_conn l)) /\ q_items q = []) as (q & Eq & Hq).
    { unfold disposeQueuedStreams, q_close in Ed. injection Ed as <- <-. by eexists. }
    by_moves l HI.
    + destruct Hy as [Hy|Hy]; [right; right; left; by apply D2|by right; left].
    + intros Hf. destruct (li_start l HI Hf) as (? & ? & ?). split; [by subst c|done].
    + intros x Hx. right. unfold done. simpl. by subst c.
    + intros _. apply (li_claim l HI). by left.
    + intros _. unfold done. simpl. by subst c.
    + intros _. split; [exact Hz|]. subst c. unfold held. simpl. by rewrite Hq.
    + congruence.
Qed.

(** A running loop is counted. *)
Lemma counted l : life_inv l -> wg_zero l = false -> pc_handshakeDone (l_conn l) = true /\ l_claimed l = true /\ active (l_run l) /\ l_close l <> CloseReturned.
Proof.
  intros HI Hz. destruct (li_start l HI Hz) as (? & ? & ?). do 3 (split; [done|]). intros Hc. destruct (li_returned l HI Hc). congruence.
Qed.

Lemma running l : l_ctrl l <> CtrlOff \/ l_data l = true \/ is_Some (l_reader l) \/ l_sacc l <> AccOff \/ l_cacc l <> AccOff \/ l_sess l <> [] \/ l_chunk l <> [] ->
  wg_zero l = false.
Proof.
  intros H. destruct (wg_zero l) eqn:E; [|done]. apply wg_zero_spec in E as (E1 & E2 & E3 & E4 & E5 & E6 & E7). exfalso.
  destruct H as [?|[?|[[? ?]|[?|[?|[?|?]]]]]]; congruence.
Qed.

(** A step of a worker keeps what is not about streams. *)
Lemma worker_inv l l' : life_inv l -> wg_zero l = false ->
  l_given l' = l_given l -> w_log (l_w l) ⊆ w_log (l_w l') -> l_posts l ⊆ l_posts l' ->
  l_run l' = l_run l -> l_close l' = l_close l -> l_claimed l' = l_claimed l -> pc_handshakeDone (l_conn l') = pc_handshakeDone (l_conn l) ->
  (done l = true -> done l' = true) -> (l_out l' = false \/ l_out l' = l_out l /\ (l_ctrl l <> CtrlOff -> l_ctrl l' <> CtrlOff)) ->
  (length (l_sess l') <= streamQueueCap)%nat -> (length (l_chunk l') <= maxInboundChunkStreams)%nat ->
  (l_cacc l' = AccWait -> q_items (pc_chunkIn (l_conn l')) = [] \/ q_ready (pc_chunkIn (l_conn l')) = true) ->
  match l_sacc l' with AccPop | AccWait => False | _ => True end ->
  (forall x, x ∈ held (l_conn l) \/ working l x -> located l' x) -> life_inv l'.
Proof.
  intros HI Hz Hgi Hw Hp Er Ec Em Eh Hd Ho Hs Hc Hq Ha Hm. destruct (counted l HI Hz) as (C1 & C2 & C3 & C4).
  apply (life_inv_moves l l' HI Hgi Hw Hp Hm). intros Hg. split; try done; rewrite ?Er, ?Ec, ?Em, ?Eh; try done.
  - intros x Hx. left. done.
  - intros Hn. apply Hd, (li_stopped l HI Hn).
  - intros H. left. destruct Ho as [Ho|[Ho Hk]]; [congruence|]. apply Hk. rewrite Ho in H. destruct (li_out l HI H) as [?|[[x Hx] _]]; [done|].
    exfalso. by destruct C3 as [E|[E|E]]; rewrite E in Hx.
Qed.

Ltac by_worker l HI Hz :=
  apply (worker_inv l _ HI Hz); simpl; try done; try apply emit_log; try exact (li_sess l HI); try exact (li_chunk l HI); try exact (li_wait l HI); try exact (li_sacc l HI);
    try (by right); try (by left).

Lemma runSessionAcceptLoop_inv pick l l' : life_inv l -> runSessionAcceptLoop pick l = Some l' -> life_inv l'.
Proof.
  intros HI. unfold runSessionAcceptLoop. destruct (l_sacc l) as [| | |x|] eqn:Ea; try done;
    assert (wg_zero l = false) as Hz by (apply running; rewrite Ea; do 3 right; by left).
  - assert (life_inv (set_sacc AccOff l)) as Hoff by (by_worker l HI Hz; intros y Hy; still_there Ea).
    destruct (pc_sessionIn (l_conn l)) as [|x rest] eqn:Es; [by destruct (done l); [intros [= <-]|]|].
    destruct (done l && negb pick); intros [= <-]; [done|]. by_worker l HI Hz.
    intros y Hy. unfold located, working, held in *. rewrite Ea, Es in *. simpl in *. set_solver.
  - unfold acceptSession. destruct (_ && _) eqn:E; intros [= <-]; by_worker l HI Hz.
    + apply andb_true_iff in E as [E _]. z_bool. rewrite length_app. simpl. lia.
    + intros y Hy. unfold located, working in *. rewrite Ea in *. simpl in *. set_solver.
    + intros y Hy. unfold located, working in *. rewrite Ea in *. simpl in *. destruct Hy as [?|[?|[?|[[= <-]|?]]]]; [tauto|tauto|tauto| |tauto].
      right. right. left. apply (end_stream_ended x (Some Unspecified) l).
Qed.

Lemma q_pop_items (q q' : fifo nat) o : q_pop q = (o, q') ->
  q_items q = match o with Some x => x :: q_items q' | None => [] end /\ (o = None -> q' = q).
Proof. unfold q_pop. destruct (q_items q) as [|v rest] eqn:E; intros [= <- <-]; [done|]. destruct (_ <? _)%nat; done. Qed.

Lemma runChunkAcceptLoop_inv pick l l' : life_inv l -> runChunkAcceptLoop pick l = Some l' -> life_inv l'.
Proof.
  intros HI. unfold runChunkAcceptLoop. destruct (l_cacc l) as [| | |x|] eqn:Ea; try done;
    assert (wg_zero l = false) as Hz by (apply running; rewrite Ea; do 4 right; by left).
  - intros [= <-]. by_worker l HI Hz; [by destruct (done l)|]. intros y Hy. destruct (done l); still_there Ea.
  - destruct (q_pop (pc_chunkIn (l_conn l))) as [[x|] q] eqn:Eq; apply q_pop_items in Eq as [Hq Hn]; intros [= <-]; by_worker l HI Hz.
    + intros y Hy. unfold located, working, held in *. rewrite Ea, Hq in *. simpl in *. set_solver.
    + intros _. left. by rewrite (Hn eq_refl).
    + intros y Hy. unfold located, working, held in *. rewrite Ea, (Hn eq_refl) in *. simpl in *. tauto.
  - unfold acceptChunk. destruct (_ && _) eqn:E; [|destruct (done l); [|done]]; intros [= <-]; by_worker l HI Hz.
    + apply andb_true_iff in E as [E _]. z_bool. rewrite length_app. simpl. lia.
    + intros y Hy. unfold located, working in *. rewrite Ea in *. simpl in *. set_solver.
    + intros y Hy. unfold located, working in *. rewrite Ea in *. simpl in *. destruct Hy as [?|[?|[?|[?|[[= <-]|?]]]]]; [tauto|tauto|tauto|tauto| |tauto].
      right. right. left. apply (end_stream_ended x (Some Unspecified) l).
  - destruct (_ && _) eqn:E; [|destruct (done l); [|done]]; intros [= <-]; by_worker l HI Hz; intros y Hy; still_there Ea.
Qed.

(** A reader of a CHUNK stream ends it or hands it on. *)
Lemma processChunk_settles env id inboxFor x r r' (w' : inb St) : processChunk env id inboxFor x r in0 = (r', w') ->
  is_Some (i_end w') \/ exists h cs, (h, channelChunk cs) ∈ i_posts w' /\ cs_stream cs = x.
Proof.
  intros H. pose proof (processChunk_spec env id inboxFor x r (in0 (St := St)) eq_refl) as HS. rewrite H in HS. destruct HS as (ps & Hp & HS). simpl in Hp.
  unfold chunk_shape in HS. destruct (readFrame r headerFrame) as [[fr|e] rest]; [|left; by destruct HS as (_ & ? & _)].
  destruct (inboxFor (hd_channel fr)) as [h|]; [|left; by destruct HS as (_ & ? & _)].
  destruct HS as [(_ & ? & _)|(-> & _)]; [by left|]. right. do 2 eexists. rewrite Hp. split; [by left|done].
Qed.

Lemma own_step_inv l l' : life_inv l -> own_step p l l' -> life_inv l'.
Proof.
  intros HI H. destruct H as [? ? ? ? ? l l' H|l l' _ H|? l l' H|? l l' H|l Hc Hd|l s Hc _|l Hc Hd|l Hc Hd|env r x l w' Hr _|env ib r x s1 s2 l w' Hs _|env ib r x s1 s2 l r' w' Hs HP].
  - by eapply life_run_next_inv.
  - by eapply close_next_inv.
  - by eapply runSessionAcceptLoop_inv.
  - by eapply runChunkAcceptLoop_inv.
  - assert (wg_zero l = false) as Hz by (apply running; rewrite Hc; auto). by_worker l HI Hz. intros y Hy. still_there Hc.
  - assert (wg_zero l = false) as Hz by (apply running; rewrite Hc; auto). by_worker l HI Hz. intros y Hy. still_there Hc.
  - assert (wg_zero l = false) as Hz by (apply running; auto). by_worker l HI Hz. intros y Hy. still_there Hd.
  - assert (wg_zero l = false) as Hz by (apply running; auto). by_worker l HI Hz. intros y Hy. still_there Hd.
  - assert (wg_zero l = false) as Hz by (apply running; rewrite Hr; eauto). apply cancel_inv. by_worker l HI Hz.
    intros y Hy. unfold located, working in *. rewrite Hr in *. simpl in *. destruct Hy as [?|[?|[[= <-]|?]]]; [tauto|tauto| |tauto].
    right. right. left. apply (end_stream_ended x _ l).
  - assert (wg_zero l = false) as Hz by (apply running; rewrite Hs; do 5 right; left; by destruct s1).
    by_worker l HI Hz; [set_solver|pose proof (li_sess l HI) as Hl; rewrite Hs, !length_app in *; simpl in Hl; lia|].
    intros y Hy. destruct (decide (y = x)) as [->|Hne]; [right; right; left; apply (end_stream_ended x _ l)|].
    assert (y ∈ l_sess l -> y ∈ s1 ++ s2) by (rewrite Hs; set_solver). unfold located, working in *. simpl in *. tauto.
  - assert (wg_zero l = false) as Hz by (apply running; rewrite Hs; do 6 right; by destruct s1).
    apply processChunk_settles in HP.
    assert (w_log (l_w l) ⊆ w_log (l_w (match i_end w' with Some how => end_stream x how l | None => l end))) as Hlog
      by (destruct (i_end w'); [apply emit_log|done]).
    apply (worker_inv l _ HI Hz); simpl; try (destruct (i_end w'); done).
    + destruct (i_end w'); apply list_subseteq_app_l; reflexivity.
    + destruct (i_end w'); by right.
    + destruct (i_end w'); apply (li_sess l HI).
    + pose proof (li_chunk l HI) as Hl. rewrite Hs, !length_app in *. simpl in Hl. lia.
    + destruct (i_end w'); apply (li_wait l HI).
    + destruct (i_end w'); apply (li_sacc l HI).
    + intros y Hy. destruct (decide (y = x)) as [->|Hne].
      * right. right. destruct HP as [[how He]|(h & cs & Hin & Hx)].
        -- left. rewrite He. apply (end_stream_ended x how l).
        -- right. exists h, cs. split; [|done]. simpl. apply elem_of_app. by right.
      * assert (y ∈ l_chunk l -> y ∈ s1 ++ s2) by (rewrite Hs; set_solver). unfold located, working in *. destruct (i_end w'); simpl in *; tauto.
Qed.

Lemma enqueue_keeps pr x c w c' w' : enqueueStream pr x c w = Some (c', w') ->
  pc_handshakeDone c' = pc_handshakeDone c /\ pc_stopped c' = pc_stopped c /\ (pc_stopped c = true -> c' = c) /\
  (q_items (pc_chunkIn c) = [] \/ q_ready (pc_chunkIn c) = true -> q_items (pc_chunkIn c') = [] \/ q_ready (pc_chunkIn c') = true).
Proof.
  unfold enqueueStream, acceptBcast, q_push. intros H. destruct (pc_stopped c) eqn:Es; [by injection H as <- <-|].
  destruct pr.
  - destruct (pc_bcastAccepted c); [by injection H as <- <-|]. destruct (_ <? _)%nat; [|done]. by injection H as <- <-.
  - destruct (_ <? _)%nat; by injection H as <- <-.
  - destruct (q_closed (pc_chunkIn c)); injection H as <- <-; split_and!; try done. simpl. auto.
Qed.

Lemma outer_step_inv l l' : life_inv l -> outer_step p l l' -> life_inv l'.
Proof.
  intros HI H. destruct H as [pr x l c w Hc H|l Hc Hr|l|l l' Hc H].
  - destruct (enqueueStream_keeps _ _ _ _ _ _ H) as (K1 & K2 & K3 & K4). destruct (enqueue_keeps _ _ _ _ _ _ H) as (E1 & E2 & E3 & E4).
    assert (forall y, located l y -> located (add_given x (set_world w (set_conn c l))) y) as Hm.
    { apply located_step; [|done|done]. intros y [Hy|Hy]; [left; by apply K3|by right; left]. }
    split; simpl; try apply HI.
    + intros Hf. rewrite E1. by apply (li_start l HI).
    + intros y Hy. unfold done. simpl. rewrite E1, E2. by apply (li_lock l HI y).
    + intros Hn. unfold done. simpl. rewrite E2. by apply (li_stopped l HI).
    + intros Hret. rewrite (E3 (li_stopped l HI ltac:(by rewrite Hret))). by apply (li_returned l HI).
    + intros Hw. by apply E4, (li_wait l HI).
    + intros y [Hy|Hy]%elem_of_app; [by apply Hm, (li_given l HI)|]. apply list_elem_of_singleton in Hy as ->.
      destruct K4 as [[_ ?]|?]; [by left|right; right; by left].
  - by_moves l HI.
    + destruct Hy; [by left|by right; left].
    + intros Hf. destruct (li_start l HI Hf) as (_ & ? & ?). done.
    + intros y Hy. by left.
  - by apply cancel_inv.
  - by eapply close_next_inv.
Qed.

Lemma life_steps_inv l l' : rtc (life_step p) l l' -> life_inv l -> life_inv l'.
Proof.
  induction 1 as [|a b c [Hs|Hs] _ IH]; [done| |]; intros HI; apply IH; [by eapply own_step_inv|by eapply outer_step_inv].
Qed.

Lemma life_run_inv id announced w l : life_run p id announced w l -> life_inv l.
Proof. intros H. apply (life_steps_inv _ _ H), new_life_inv. Qed.
End facts.

(** ** Winding down

    Once the context has ended, every step of the binding's own goroutines
    decreases [effort], and some step is possible until all have returned. *)

Section ends.
Context {St : Type}.
Context `{WB : !Types.Wire Bcast_Handshake} `{WS : !Types.Wire Bcast_Subscribe} `{WU : !Types.Wire Bcast_Unsubscribe}.
Context `{WO : !Types.Wire Sess_Open} `{WD : !Types.Wire Sess_Update} `{WH : !Types.Wire Chunk_Header}.
Context (p : nat).
Implicit Types (l : life St).

Definition run_rank (r : run_pc) : nat :=
  match r with
  | RunHandshake None => 6 | RunHandshake (Some _) => 5 | RunWaiting _ => 4 | RunLock _ => 3
  | RunActive => 3 | RunDefer _ => 2 | RunJoin _ => 1 | RunGone => 0
  end.
Definition close_rank (c : close_pc) : nat := match c with CloseIdle => 3 | CloseStopped => 2 | CloseClaimed => 1 | CloseReturned => 0 end.
Definition ctrl_rank (c : ctrl_pc) : nat := match c with CtrlOff => 0 | CtrlTop => 1 | CtrlNext => 2 end.
Definition acc_rank (a : acc_pc) : nat := match a with AccOff => 0 | AccTop => 1 | AccWait => 2 | AccPop => 3 | AccHold _ => 4 end.
Definition effort l : nat :=
  run_rank (l_run l) + close_rank (l_close l) + ctrl_rank (l_ctrl l) + (if l_data l then 1 else 0) + (if l_reader l then 1 else 0) +
  acc_rank (l_sacc l) + acc_rank (l_cacc l) + length (l_sess l) + length (l_chunk l) +
  5 * length (pc_sessionIn (l_conn l)) + 5 * length (q_items (pc_chunkIn (l_conn l))).

Lemma run_next_effort take e env1 env2 r l l' : done l = true -> run_next p take e env1 env2 r l = Some l' -> done l' = true /\ (effort l' < effort l)%nat.
Proof.
  intros Hd. unfold run_next. destruct (l_run l) as [[x|]|x|x| |own|own|] eqn:Er; intros H.
  - apply finish_handshake_spec in H as [(? & [= <-] & ->)|[(? & how & [= <-] & ->)|[? _]]]; [| |done]; (split; [done|]); unfold effort; rewrite Er; simpl; lia.
  - destruct take.
    + destruct (pc_bcastIn (l_conn l)) as [|x rest]; [done|]. injection H as <-. split; [done|]. unfold effort. rewrite Er. simpl. lia.
    + apply finish_handshake_spec in H as [(? & ? & _)|[(? & ? & ? & _)|[_ ->]]]; [done|done|]. split; [done|]. unfold effort. rewrite Er. simpl. lia.
  - destruct (_ || _); [|done]. injection H as <-. split; [done|]. unfold effort. rewrite Er. simpl. lia.
  - rewrite Hd in H. injection H as <-. split; [done|]. unfold effort. rewrite Er. simpl. lia.
  - rewrite Hd in H. injection H as <-. split; [done|]. unfold effort. rewrite Er. simpl. lia.
  - injection H as <-. split; [done|]. unfold effort. rewrite Er. simpl. lia.
  - destruct (wg_zero l); [|done]. injection H as <-. destruct own; (split; [done|]); unfold effort; rewrite Er; simpl; lia.
  - done.
Qed.

Lemma close_next_effort l l' : done l = true -> close_next p l = Some l' -> done l' = true /\ (effort l' < effort l)%nat.
Proof.
  intros Hd. unfold close_next. destruct (l_close l) eqn:Ec; [| | |done].
  - intros [= <-]. split; [done|]. unfold effort. rewrite Ec. simpl. lia.
  - intros [= <-]. split; [done|]. unfold effort. rewrite Ec. simpl. lia.
  - destruct (wg_zero l); [|done]. unfold disposeQueuedStreams, q_close. intros [= <-]. split; [done|]. unfold effort. rewrite Ec. simpl. lia.
Qed.

Lemma accept_effort pick l l' : done l = true ->
  runSessionAcceptLoop pick l = Some l' \/ runChunkAcceptLoop pick l = Some l' -> done l' = true /\ (effort l' < effort l)%nat.
Proof.
  intros Hd [H|H].
  - unfold runSessionAcceptLoop, acceptSession in H. destruct (l_sacc l) as [| | |x|] eqn:Ea; try done.
    + assert ((effort (set_sacc AccOff l) < effort l)%nat) as Hoff by (unfold effort; rewrite Ea; simpl; lia).
      rewrite Hd in H. destruct (pc_sessionIn (l_conn l)) as [|x rest] eqn:Es; [injection H as <-; done|].
      destruct (true && negb pick); injection H as <-; [done|]. split; [done|]. unfold effort. rewrite Ea, Es. simpl. lia.
    + destruct (_ && _); injection H as <-; (split; [done|]); unfold effort; rewrite Ea; simpl; rewrite ?length_app; simpl; lia.
  - unfold runChunkAcceptLoop, acceptChunk in H. destruct (l_cacc l) as [| | |x|] eqn:Ea; try done.
    + rewrite Hd in H. injection H as <-. split; [done|]. unfold effort. rewrite Ea. simpl. lia.
    + destruct (q_pop (pc_chunkIn (l_conn l))) as [[x|] q] eqn:Eq; apply q_pop_items in Eq as [Hq Hn]; injection H as <-; (split; [done|]);
        unfold effort; rewrite Ea, Hq; simpl; [lia|]. rewrite (Hn eq_refl), Hq. simpl. lia.
    + rewrite Hd in H. destruct (_ && _); injection H as <-; (split; [done|]); unfold effort; rewrite Ea; simpl; rewrite ?length_app; simpl; lia.
    + rewrite Hd in H. destruct (_ && _); injection H as <-; (split; [done|]); unfold effort; rewrite Ea; simpl; lia.
Qed.

Lemma own_step_effort l l' : done l = true -> own_step p l l' -> done l' = true /\ (effort l' < effort l)%nat.
Proof.
  intros Hd H. destruct H as [? ? ? ? ? l l' H|l l' _ H|pick l l' H|pick l l' H|l Hc Hn|l s Hc _|l Hc _|l Hc _|env r x l w' Hr _|env ib r x s1 s2 l w' Hs _|env ib r x s1 s2 l r' w' Hs _].
  - by eapply run_next_effort.
  - by eapply close_next_effort.
  - by apply (accept_effort pick); [|left].
  - by apply (accept_effort pick); [|right].
  - congruence.
  - split; [done|]. unfold effort. rewrite Hc. simpl. lia.
  - split; [done|]. unfold effort. destruct (l_ctrl l); [done| |]; simpl; lia.
  - split; [done|]. unfold effort. rewrite Hc. simpl. lia.
  - split; [done|]. unfold effort. rewrite Hr. simpl. lia.
  - split; [done|]. unfold effort. rewrite Hs. simpl. rewrite !length_app. simpl. lia.
  - split; [by destruct (i_end w')|]. unfold effort. destruct (i_end w'); simpl; rewrite Hs, !length_app; simpl; lia.
Qed.

(** All goroutines have returned. *)
Definition at_rest l : Prop := l_run l = RunGone /\ wg_zero l = true /\ (l_close l = CloseIdle \/ l_close l = CloseReturned).

(** A worker that runs can return. *)
Lemma worker_enabled l : life_inv l -> done l = true -> wg_zero l = false -> exists l', own_step p l l'.
Proof.
  intros HI Hd Hz. assert (l_ctrl l = CtrlOff \/ l_ctrl l <> CtrlOff) as [E1|Hc] by (destruct (l_ctrl l); auto); [|eexists; by apply os_ctrl_return].
  destruct (l_data l) eqn:E2; [eexists; by apply os_data_return|].
    destruct (l_reader l) as [x|] eqn:E3.
    { destruct (ctrl_reader_spec calm p 1 (mk_reader [] EOF) (in0 (St := St)) ltac:(simpl; lia) ltac:(done)) as (w' & _ & _ & _ & Hw & _).
      eexists. by apply (os_reader p calm (mk_reader [] EOF) x l w'). }
    destruct (l_sacc l) as [| | |x|] eqn:E4.
    - destruct (l_cacc l) as [| | |x|] eqn:E5.
      + destruct (l_sess l) as [|x s] eqn:E6.
        * destruct (l_chunk l) as [|x s] eqn:E7; [exfalso; unfold wg_zero in Hz; by rewrite E1, E2, E3, E4, E5, E6, E7 in Hz|].
          destruct (processChunk calm (pc_id (l_conn l)) (fun _ => None) x (mk_reader [] EOF) (in0 (St := St))) as [r' w'] eqn:EP.
          eexists. by apply (os_chunk p calm (fun _ => None) (mk_reader [] EOF) x [] s l r' w').
        * destruct (inbound_session_spec calm p (pc_id (l_conn l)) (fun _ => None) (mk_reader [] EOF) (in0 (St := St)) eq_refl) as (w' & Hw & _).
          eexists. by apply (os_session p calm (fun _ => None) (mk_reader [] EOF) x [] s l w').
      + eexists. apply (os_chunks p true). unfold runChunkAcceptLoop. by rewrite E5.
      + destruct (q_pop (pc_chunkIn (l_conn l))) as [[y|] q] eqn:Eq; eexists; apply (os_chunks p true); unfold runChunkAcceptLoop; by rewrite E5, Eq.
      + eexists. apply (os_chunks p false). unfold runChunkAcceptLoop, acceptChunk. rewrite E5, Hd. by rewrite andb_false_r.
      + eexists. apply (os_chunks p false). unfold runChunkAcceptLoop. rewrite E5, Hd. by rewrite andb_false_r.
    - destruct (pc_sessionIn (l_conn l)) eqn:Es; eexists; apply (os_sessions p false); unfold runSessionAcceptLoop; by rewrite E4, Hd, Es.
    - pose proof (li_sacc l HI) as Hs. by rewrite E4 in Hs.
    - eexists. apply (os_sessions p true). unfold runSessionAcceptLoop. by rewrite E4.
    - pose proof (li_sacc l HI) as Hs. by rewrite E4 in Hs.
Qed.

(** The handshake takes a stream that arrived before its context ended. *)
Lemma handshake_takes announced : (handshake calm calm announced (Some (mk_reader [] EOF)) out0 (in0 (St := St))).1.1.2 = true.
Proof.
  unfold handshake. destruct (hs_write calm announced out0) as [[s werr] w]. unfold hs_read. cbn [itick fst snd i_ctx in0 calm a_done].
  destruct (hs_receive (St := St) calm _ _) as [[res r'] wi]. destruct res, werr, s; try done; by destruct (_ <? _)%Z.
Qed.

Lemma own_enabled l : life_inv l -> done l = true -> at_rest l \/ exists l', own_step p l l'.
Proof.
  intros HI Hd. destruct (wg_zero l) eqn:Hz; [|right; by apply worker_enabled].
  assert (forall l', run_next p false CtxCanceled calm calm (mk_reader [] EOF) l = Some l' -> exists l', own_step p l l') as Hrun
    by (intros l' H; exists l'; by eapply os_run).
  unfold run_next in Hrun. destruct (l_run l) as [[x|]|x|x| |own|own|] eqn:Er; try (right; by eapply Hrun); rewrite ?Hd, ?Hz, ?orb_true_r in Hrun; try (right; by eapply Hrun).
  - right. unfold finish_handshake in Hrun. pose proof (handshake_takes (pc_announced (l_conn l))) as HT.
    destruct (handshake _ _ _ _ _ _) as [[[res taken] w'] wi]. cbn [fst snd] in HT. subst taken. destruct res; by eapply Hrun.
  - right. unfold finish_handshake in Hrun. destruct (handshake _ _ _ _ _ _) as [[[res taken] w'] wi]. by eapply Hrun.
  - destruct (l_close l) eqn:Ec; [left; by split_and!; auto| | |left; by split_and!; auto]; right.
    + eexists. apply os_close; [by rewrite Ec|]. unfold close_next. by rewrite Ec.
    + eexists. apply os_close; [by rewrite Ec|]. unfold close_next. by rewrite Ec, Hz.
Qed.

(** C18. A peer binding neither loses a stream nor outgrows its bounds, in every
    interleaving of [Run], its workers and readers, [Close] and the engine: a
    stream handed to it is queued, held by one of its goroutines, ended, or passed
    to a channel; at most 64 SESS and 5 CHUNK readers run; workers run only after
    the engine bound the peer's channels; the chunk accept loop never sleeps on
    a queued stream; once [Close] has returned nothing runs, ever again, and
    nothing is queued; and once [Run] has returned too, every stream was ended or
    passed to a channel, the control stream included. *)
Theorem peer_life_accounts id announced w l : life_run p id announced w l ->
  (forall x, x ∈ l_given l -> located l x) /\
  (length (l_sess l) <= streamQueueCap)%nat /\ (length (l_chunk l) <= maxInboundChunkStreams)%nat /\
  (wg_zero l = false -> pc_handshakeDone (l_conn l) = true) /\
  (l_cacc l = AccWait -> q_ready (pc_chunkIn (l_conn l)) = false -> q_items (pc_chunkIn (l_conn l)) = []) /\
  (l_close l = CloseReturned -> wg_zero l = true /\ held (l_conn l) = []) /\
  (l_run l = RunGone -> wg_zero l = true /\ l_out l = false /\
     forall x, x ∈ l_given l -> (l_close l <> CloseReturned /\ x ∈ held (l_conn l)) \/ finished l x).
Proof.
  intros Hr. pose proof (life_run_inv p id announced w l Hr) as HI.
  split; [apply HI|]. split; [apply HI|]. split; [apply HI|]. split; [intros Hz; by apply (li_start l HI)|].
  split; [intros Ha Hq; destruct (li_wait l HI Ha); congruence|]. split; [apply HI|].
  intros Eg. assert (wg_zero l = true) as Hz by (apply idle_workers; [done|]; rewrite Eg; by intros [|[|]]).
  split; [done|]. apply wg_zero_spec in Hz as (Z1 & Z2 & Z3 & Z4 & Z5 & Z6 & Z7). split.
  - destruct (l_out l) eqn:Eo; [|done]. exfalso. destruct (li_out l HI Eo) as [?|[[x Hx] _]]; [done|]. by rewrite Eg in Hx.
  - intros x Hx. destruct (li_given l HI x Hx) as [Hh|[Hk|?]]; [| |by right].
    + left. split; [|done]. intros Ec. destruct (li_returned l HI Ec) as [_ E]. rewrite E in Hh. by apply elem_of_nil in Hh.
    + exfalso. unfold working in Hk. rewrite Eg, Z3, Z4, Z5, Z6, Z7 in Hk. simpl in Hk. set_solver.
Qed.

(** C19. A peer binding winds down: once its context has ended no schedule of its
    own goroutines goes on for ever, since each of their steps decreases a
    measure, and none deadlocks: while anything still runs, or [Close] has begun
    and not returned, one of them can go on. *)
Theorem peer_life_winds_down id announced w l : life_run p id announced w l -> done l = true ->
  (forall l', own_step p l l' -> done l' = true /\ (effort l' < effort l)%nat) /\
  ((forall l', ~ own_step p l l') -> at_rest l) /\
  exists l', rtc (own_step p) l l' /\ at_rest l'.
Proof.
  intros Hr Hd. pose proof (life_run_inv p id announced w l Hr) as HI. split; [intros l'; by apply own_step_effort|]. split.
  - intros Hn. destruct (own_enabled l HI Hd) as [?|[l' Hs]]; [done|]. by destruct (Hn l').
  - clear Hr. remember (effort l) as n eqn:Hn. revert l Hn HI Hd. induction (lt_wf n) as [n _ IH]. intros l -> HI Hd.
    destruct (own_enabled l HI Hd) as [?|[l1 Hs]]; [by exists l|]. destruct (own_step_effort l l1 Hd Hs) as [Hd1 Hlt].
    destruct (IH _ Hlt l1 eq_refl (own_step_inv p l l1 HI Hs) Hd1) as (l2 & H1 & H2). exists l2. split; [by eapply rtc_l|done].
Qed.

(** ** The engine's view of a binding *)

Context (choice : nat -> gset bytes -> list bytes).

(** What a step does to the shared state. *)
Inductive seen : peerConn -> world -> list nat -> peerConn -> world -> Prop :=
| seen_same c w w' : (forall q, ctrlState w' q = ctrlState w q) -> (w_fresh w <= w_fresh w')%nat -> w_log w ⊆ w_log w' -> seen c w [] c w'
| seen_cancel c w : seen c w [] (with_stopped true (pc_closed c) c) w
| seen_stop c w : seen c w [] (with_stopped true (pc_closed c) c) (on_ctrl p ctrl_close w)
| seen_take c w x c' : takes c x c' -> seen c w [x] c' w
| seen_token c w : seen c w [] (with_queues (pc_bcastAccepted c) (pc_bcastIn c) (pc_sessionIn c) (take_token (pc_chunkIn c)) c) w
| seen_worker c w s : pc_handshakeDone c = true -> worker_step (ctrlState w p) s -> seen c w [] c (on_ctrl p (fun _ => s) w).

Lemma seen_engine e w H T c xs c' w' : engine_run choice e w H T -> en_conns e !! p = Some c -> seen c w xs c' w' ->
  exists e', engine_run choice e' w' H (T ++ xs) /\ en_conns e' !! p = Some c' /\ forall q, q <> p -> en_conns e' !! q = en_conns e !! q.
Proof.
  intros Hr Hc Hs. assert (forall f c', c' = f c -> en_conns (on_conn p f e) !! p = Some c' /\ forall q, q <> p -> en_conns (on_conn p f e) !! q = en_conns e !! q) as Ho.
  { intros f c1 ->. simpl. split; [by rewrite lookup_alter_eq, Hc|]. intros q Hq. by apply lookup_alter_ne. }
  destruct Hs as [c w w' H1 H2 H3|c w|c w|c w x c' Ht|c w|c w s Hd Hs]; rewrite ?app_nil_r.
  - exists e. split; [by eapply er_other|]. done.
  - eexists. split; [by apply (er_cancel _ p)|by apply Ho].
  - eexists. split; [by apply er_stop, (er_cancel _ p)|by apply Ho].
  - eexists. split; [by apply (er_take _ p c x c')|by apply Ho].
  - eexists. split; [by apply (er_token _ p c)|by apply Ho].
  - exists e. split; [by eapply er_worker|]. done.
Qed.

Lemma seen_end c w x how : seen c w [] c (emit (FxStreamEnd x how) w).
Proof. apply seen_same; [done|done|apply emit_log]. Qed.
Lemma seen_refl c w : seen c w [] c w.
Proof. by apply seen_same. Qed.

(** A step is at most two moves. *)
Definition moves l l' : Prop :=
  exists xs c w, seen (l_conn l) (l_w l) xs c w /\ seen c w [] (l_conn l') (l_w l').

Lemma moves_one l l' xs : seen (l_conn l) (l_w l) xs (l_conn l') (l_w l') -> moves l l'.
Proof. intros H. exists xs, (l_conn l'), (l_w l'). split; [done|apply seen_refl]. Qed.

Lemma run_next_moves take e env1 env2 r l l' : run_next p take e env1 env2 r l = Some l' -> moves l l'.
Proof.
  unfold run_next. destruct (l_run l) as [[x|]|x|x| |own|own|] eqn:Er; intros H.
  - apply finish_handshake_spec in H as [(? & [= <-] & ->)|[(? & how & [= <-] & ->)|[? _]]]; [| |done]; eapply moves_one; [apply seen_refl|apply seen_end].
  - destruct take.
    + destruct (pc_bcastIn (l_conn l)) as [|x rest] eqn:Eb; [done|]. injection H as <-. eapply moves_one, seen_take. by eapply tk_bcast.
    + apply finish_handshake_spec in H as [(? & ? & _)|[(? & ? & ? & _)|[_ ->]]]; [done|done|]. eapply moves_one, seen_refl.
  - destruct (_ || _); [|done]. injection H as <-. eapply moves_one, seen_refl.
  - injection H as <-. destruct (_ || _); eapply moves_one, seen_refl.
  - destruct (done l); [|done]. injection H as <-. eapply moves_one, seen_refl.
  - injection H as <-. eapply moves_one, seen_stop.
  - destruct (wg_zero l); [|done]. injection H as <-. destruct own; eapply moves_one; [apply seen_end|apply seen_refl].
  - done.
Qed.

Lemma accept_moves pick l l' : runSessionAcceptLoop pick l = Some l' \/ runChunkAcceptLoop pick l = Some l' -> moves l l'.
Proof.
  intros [H|H].
  - unfold runSessionAcceptLoop, acceptSession in H. destruct (l_sacc l) as [| | |x|]; try done.
    + destruct (pc_sessionIn (l_conn l)) as [|x rest] eqn:Es; [destruct (done l); [|done]; injection H as <-; eapply moves_one, seen_refl|].
      destruct (_ && _); injection H as <-; [eapply moves_one, seen_refl|]. eapply moves_one, seen_take. by eapply tk_session.
    + destruct (_ && _); injection H as <-; eapply moves_one; [apply seen_refl|apply seen_end].
  - unfold runChunkAcceptLoop, acceptChunk in H. destruct (l_cacc l) as [| | |x|]; try done.
    + injection H as <-. eapply moves_one, seen_refl.
    + destruct (q_pop (pc_chunkIn (l_conn l))) as [[x|] q] eqn:Eq; injection H as <-.
      * eapply moves_one, seen_take. by eapply tk_chunk.
      * apply q_pop_items in Eq as [_ Hn]. rewrite (Hn eq_refl). eapply moves_one. simpl. destruct (l_conn l). apply seen_refl.
    + destruct (_ && _); [injection H as <-; eapply moves_one, seen_refl|]. destruct (done l); [|done]. injection H as <-. eapply moves_one, seen_end.
    + destruct (_ && _); [injection H as <-; eapply moves_one, seen_token|]. destruct (done l); [|done]. injection H as <-. eapply moves_one, seen_refl.
Qed.

Lemma own_step_moves l l' : life_inv l -> own_step p l l' -> l_close l' = l_close l -> moves l l'.
Proof.
  intros HI H Hcl. destruct H as [? ? ? ? ? l l' H|l l' _ H|pick l l' H|pick l l' H|l Hc Hn|l s Hc Hs|l Hc _|l Hc _|env r x l w' Hr _|env ib r x s1 s2 l w' Hs _|env ib r x s1 s2 l r' w' Hs _].
  - by eapply run_next_moves.
  - exfalso. revert H Hcl. unfold close_next. destruct (l_close l) eqn:Ec; [by intros [= <-]|by intros [= <-]| |done].
    destruct (wg_zero l); [|done]. destruct (disposeQueuedStreams _ _). by intros [= <-].
  - apply (accept_moves pick). by left.
  - apply (accept_moves pick). by right.
  - eapply moves_one, seen_refl.
  - eapply moves_one. destruct Hs as [Hs| ->].
    + apply seen_worker; [|done]. assert (wg_zero l = false) as Hz by (apply running; rewrite Hc; auto). by apply (li_start l HI).
    + apply seen_same; [|done|done]. intros q. simpl. unfold set_world, l_w. rewrite ctrlState_on. by case_decide; subst.
  - eapply moves_one, seen_refl.
  - eapply moves_one, seen_refl.
  - do 3 eexists. split; [apply seen_end|]. apply seen_cancel.
  - eapply moves_one, seen_end.
  - eapply moves_one. destruct (i_end w'); [apply seen_end|apply seen_refl].
Qed.

(** C20. The goroutines of a binding respect what the engine's theorems assume of
    them: every step but [Close]'s, in any reachable state of the binding, is one
    of the moves of the other goroutines in the runs of the engine, so those runs
    have every behaviour of the bindings. *)
Theorem peer_life_refines_engine id announced w0 l l' e H T :
  life_run p id announced w0 l -> own_step p l l' -> l_close l' = l_close l ->
  engine_run choice e (l_w l) H T -> en_conns e !! p = Some (l_conn l) ->
  exists e' xs, engine_run choice e' (l_w l') H (T ++ xs) /\ en_conns e' !! p = Some (l_conn l') /\
    forall q, q <> p -> en_conns e' !! q = en_conns e !! q.
Proof.
  intros Hr Hs Hc He Hp. destruct (own_step_moves l l' (life_run_inv p id announced w0 l Hr) Hs Hc) as (xs & c & w & S1 & S2).
  destruct (seen_engine e _ H T _ xs c w He Hp S1) as (e1 & R1 & P1 & O1).
  destruct (seen_engine e1 w H (T ++ xs) c [] _ _ R1 P1 S2) as (e2 & R2 & P2 & O2). rewrite app_nil_r in R2.
  exists e2, xs. split; [done|]. split; [done|]. intros q Hq. by rewrite O2, O1.
Qed.
End ends.

(** ** A run

    The peer's BCAST stream arrives, the handshake takes it and succeeds, the
    engine binds the channels and the workers start. *)

Module LifeDemo.

Definition peer_frame : reader := HandshakeDemo.peer_frame.
Definition d0 : life unit := new_life demo_peer [] (demo_at 1).2.
Definition d1 : life unit :=
  match enqueueStream BCAST 5 (l_conn d0) (l_w d0) with Some (c, w) => add_given 5 (set_world w (set_conn c d0)) | None => d0 end.
Definition nx (l : life unit) : life unit := default l (run_next 0 true CtxCanceled calm calm peer_frame l).
Definition d2 : life unit := nx d1.
Definition d3 : life unit := nx d2.
Definition d4 : life unit := set_conn (with_handshakeDone (l_conn d3)) d3.
Definition d5 : life unit := nx d4.
Definition d6 : life unit := nx d5.

Lemma step_nx l : bool_decide (is_Some (run_next 0 true CtxCanceled calm calm peer_frame l)) = true -> life_step 0 l (nx l).
Proof. intros [l' E]%bool_decide_eq_true. left. unfold nx. rewrite E. by eapply os_run. Qed.

Lemma run1 : life_run 0 demo_peer [] (demo_at 1).2 d1.
Proof.
  eapply rtc_l; [|apply rtc_refl]. right. eapply (xs_enqueue 0 BCAST 5 d0 (l_conn d1) (l_w d1)); [by left|vm_compute; reflexivity].
Qed.
Lemma run6 : life_run 0 demo_peer [] (demo_at 1).2 d6.
Proof.
  unfold life_run. etrans; [exact run1|].
  apply (rtc_l _ d1 d2); [apply (step_nx d1); vm_compute; reflexivity|].
  apply (rtc_l _ d2 d3); [apply (step_nx d2); vm_compute; reflexivity|].
  apply (rtc_l _ d3 d4); [right; apply (xs_bound 0 d3); [vm_compute; reflexivity|]|].
  { assert (l_run d3 = RunWaiting 5) as -> by (vm_compute; reflexivity). done. }
  apply (rtc_l _ d4 d5); [apply (step_nx d4); vm_compute; reflexivity|].
  apply (rtc_l _ d5 d6); [apply (step_nx d5); vm_compute; reflexivity|]. apply rtc_refl.
Qed.
End LifeDemo.

Import LifeDemo.

Lemma peer_life_accounts_witness : l_run d6 = RunActive /\ l_reader d6 = Some 5%nat /\ located d6 5 /\ pc_handshakeDone (l_conn d6) = true.
Proof.
  destruct (peer_life_accounts 0 demo_peer [] (demo_at 1).2 d6 run6) as (H1 & _ & _ & H4 & _).
  split; [vm_compute; reflexivity|]. split; [vm_compute; reflexivity|]. split.
  - apply H1. assert (l_given d6 = [5%nat]) as -> by (vm_compute; reflexivity). left.
  - apply H4. vm_compute. reflexivity.
Defined.

Lemma peer_life_winds_down_witness : exists l', rtc (own_step 0) (cancel d6) l' /\ at_rest l'.
Proof.
  apply (peer_life_winds_down 0 demo_peer [] (demo_at 1).2 (cancel d6)).
  - eapply rtc_r; [exact run6|]. right. apply xs_cancel.
  - reflexivity.
Defined.

Lemma peer_life_refines_engine_witness :
  exists e' xs, engine_run demo_choice e' (l_w d2) [5%nat] xs /\ en_conns e' !! 0%nat = Some (l_conn d2).
Proof.
  destruct (peer_life_refines_engine 0 demo_choice demo_peer [] (demo_at 1).2 d1 d2 (demo_at 2).1 [5%nat] []) as (e' & xs & H1 & H2 & _).
  - exact run1.
  - apply (os_run 0 true CtxCanceled calm calm peer_frame). vm_compute. reflexivity.
  - vm_compute. reflexivity.
  - assert (l_w d1 = (demo_at 2).2) as -> by (vm_compute; reflexivity).
    apply (demo_step 1 (EvDelivery (StreamIn 3%nat BCAST false 5%nat)) [] eq_refl); [|exact I|vm_compute; reflexivity].
    apply (demo_step 0 (EvDelivery (PeerUp 3%nat demo_peer true)) [] eq_refl); [apply er_new| |vm_compute; reflexivity].
    split; [reflexivity|]. intros b p c. cbn. rewrite lookup_empty. discriminate.
  - vm_compute. reflexivity.
  - exists e', xs. split; [exact H1|exact H2].
Defined.
