(* ===== verification/Rlp.v ===== *)
(** * Rlp: recursive length prefixes (src/enr/rlp.go)

    An item keeps the bytes it was decoded from.  A decoder is in
    [option (result error _)]: [None] is an index out of range, or the fuel of
    the recursion running out, which [decodeRLP_total] excludes.  A slice's
    length is a Go [int], so the theorems are about inputs shorter than [2^63]. *)

From S2P Require Import Prelude Types.
From stdpp Require Import pretty.
Open Scope Z_scope.

(** A decoder's sequencing: a panic and an error both end it. *)
Definition ebind {A B} (r : option (result error A)) (k : A -> option (result error B)) : option (result error B) :=
  match r with Some (Ok a) => k a | Some (Err e) => Some (Err e) | None => None end.
Notation "'lete' x := r 'in' k" := (ebind r (fun x => k))
  (at level 10, x pattern, r at level 100, k at level 200) : ethp2p_scope.
Abbreviation fails e := (Some (Err e%string)).
Abbreviation succeeds a := (Some (Ok a)).

(** ** Items *)

Inductive rlpKind := rlpString | rlpList.
Inductive rlpItem := mk_item (kind : rlpKind) (payload raw : bytes) (children : list rlpItem).

Definition kind (i : rlpItem) : rlpKind := let '(mk_item k _ _ _) := i in k.
Definition payload (i : rlpItem) : bytes := let '(mk_item _ p _ _) := i in p.
Definition raw (i : rlpItem) : bytes := let '(mk_item _ _ r _) := i in r.
Definition children (i : rlpItem) : list rlpItem := let '(mk_item _ _ _ c) := i in c.

#[global] Instance rlpKind_eq_dec : EqDecision rlpKind.
Proof. solve_decision. Defined.

(** ** Decoding *)

(** [for _, b := range l { v = v<<8 | uint64(b) }] *)
Definition be_u64 (l : bytes) : Z := foldl (fun v b => Z.lor (u64 (Z.shiftl v 8)) (b2z b)) 0 l.

Definition decodeLongLength (input : bytes) (lengthBytes : nat) : option (result error (nat * nat)) :=
  if (8 <? lengthBytes)%nat || (length input <? 1 + lengthBytes)%nat then fails "invalid RLP length prefix"
  else
    let encoded := take lengthBytes (drop 1 input) in
    letp first := encoded !! 0%nat in
    if b2z first =? 0 then fails "non-canonical RLP length prefix"
    else
      let len := be_u64 encoded in
      if len >? Z.of_nat (length input) then fails "RLP length exceeds input"
      else succeeds (Z.to_nat len, (1 + lengthBytes)%nat).

(** The loop of [decodeRLPList] over the payload. *)
Fixpoint decode_children (decode : bytes -> option (result error (rlpItem * bytes))) (fuel : nat) (remaining : bytes)
    (acc : list rlpItem) : option (result error (list rlpItem)) :=
  match remaining with
  | [] => succeeds acc
  | _ :: _ =>
      match fuel with
      | O => None
      | S fuel => lete (child, rest) := decode remaining in decode_children decode fuel rest (acc ++ [child])
      end
  end.

Definition decodeRLPList (decode : bytes -> option (result error (rlpItem * bytes))) (input : bytes) (start stop : nat) : option (result error rlpItem) :=
  let p := take (stop - start) (drop start input) in
  lete l := decode_children decode (length p) p [] in
  succeeds (mk_item rlpList p (take stop input) l).

Fixpoint decode_fuel (fuel : nat) (input : bytes) : option (result error (rlpItem * bytes)) :=
  match fuel with
  | O => None
  | S fuel =>
      match input with
      | [] => fails "truncated RLP item"
      | b :: _ =>
          let prefix := b2z b in
          if prefix <? 0x80 then succeeds (mk_item rlpString (take 1 input) (take 1 input) [], drop 1 input)
          else if prefix <=? 0xb7 then
            let len := Z.to_nat (prefix - 0x80) in
            if (length input <? 1 + len)%nat then fails "truncated RLP string"
            else
              let p := take len (drop 1 input) in
              letp short := (if (len =? 1)%nat then letp x := p !! 0%nat in Some (b2z x <? 0x80) else Some false) in
              if short : bool then fails "non-canonical RLP string"
              else succeeds (mk_item rlpString p (take (1 + len) input) [], drop (1 + len) input)
          else if prefix <=? 0xbf then
            lete (len, offset) := decodeLongLength input (Z.to_nat (prefix - 0xb7)) in
            if (len <? 56)%nat then fails "non-canonical long RLP string"
            else if (length input - offset <? len)%nat then fails "truncated RLP string"
            else succeeds (mk_item rlpString (take len (drop offset input)) (take (offset + len) input) [], drop (offset + len) input)
          else if prefix <=? 0xf7 then
            let len := Z.to_nat (prefix - 0xc0) in
            if (length input <? 1 + len)%nat then fails "truncated RLP list"
            else lete item := decodeRLPList (decode_fuel fuel) input 1 (1 + len) in succeeds (item, drop (1 + len) input)
          else
            lete (len, offset) := decodeLongLength input (Z.to_nat (prefix - 0xf7)) in
            if (len <? 56)%nat then fails "non-canonical long RLP list"
            else if (length input - offset <? len)%nat then fails "truncated RLP list"
            else lete item := decodeRLPList (decode_fuel fuel) input offset (offset + len) in succeeds (item, drop (offset + len) input)
      end
  end.

(** One unit of fuel per list level, and every level is shorter than the one around it. *)
Definition decodeRLP (input : bytes) : option (result error (rlpItem * bytes)) := decode_fuel (S (length input)) input.

(** [size] is the width of [T] in bytes. *)
Definition decodeUint (size : nat) (item : rlpItem) : option (result error Z) :=
  if decide (kind item = rlpString) then
    if (size <? length (payload item))%nat then fails ("RLP integer exceeds " ++ pretty size ++ " bytes")
    else match payload item with
         | b :: _ => if b2z b =? 0 then fails "RLP integer has a leading zero" else succeeds (be_u64 (payload item) mod 256 ^ Z.of_nat size)
         | [] => succeeds 0
         end
  else fails "RLP integer is not a string".

Definition decodeSingleRLP (input : bytes) : option (result error rlpItem) :=
  lete (item, rest) := decodeRLP input in
  if (length rest =? 0)%nat then succeeds item else fails "trailing bytes after RLP item".

Definition decodeBytes (input : bytes) : option (result error bytes) :=
  lete item := decodeSingleRLP input in
  if decide (kind item = rlpString) then succeeds (payload item) else fails "RLP item is not a byte string".

(** ** Encoding *)

(** [binary.BigEndian.PutUint64] *)
Definition be8 (v : Z) : bytes := (fun i => z2b (Z.shiftr v (8 * (7 - Z.of_nat i)))) <$> seq 0 8.

(** [for len(l) > 1 && l[0] == 0 { l = l[1:] }] *)
Fixpoint trim (l : bytes) : bytes :=
  match l with
  | b :: rest => if (1 <? length l)%nat && (b2z b =? 0) then trim rest else l
  | [] => l
  end.

Definition encodeLongItem (offset : Z) (p : bytes) : bytes :=
  let lengthBytes := trim (be8 (Z.of_nat (length p))) in
  z2b (offset + Z.of_nat (length lengthBytes)) :: lengthBytes ++ p.

Definition encodeBytes (p : bytes) : bytes :=
  let long := if (length p <=? 55)%nat then z2b (0x80 + Z.of_nat (length p)) :: p else encodeLongItem 0xb7 p in
  match p with
  | [b] => if b2z b <? 0x80 then [b] else long
  | _ => long
  end.

Definition encodeRLPList (p : bytes) : bytes :=
  if (length p <=? 55)%nat then z2b (0xc0 + Z.of_nat (length p)) :: p else encodeLongItem 0xf7 p.

(** [for encoded[0] == 0]: the value is not 0, so the slice does not run out. *)
Fixpoint trim_all (l : bytes) : bytes :=
  match l with
  | b :: rest => if b2z b =? 0 then trim_all rest else l
  | [] => []
  end.

Definition encodeUint (value : Z) : bytes :=
  if value =? 0 then encodeBytes [] else encodeBytes (trim_all (be8 value)).

(** ** Big-endian numbers *)

Definition bev (l : bytes) : Z := foldl (fun v b => 256 * v + b2z b) 0 l.

Lemma bev_snoc l b : bev (l ++ [b]) = 256 * bev l + b2z b.
Proof. unfold bev. by rewrite foldl_app. Qed.

Lemma bev_range l : 0 <= bev l < 256 ^ Z.of_nat (length l).
Proof.
  induction l as [|b l IH] using rev_ind; [done|]. rewrite bev_snoc, length_app, Nat2Z.inj_add, Z.pow_add_r by lia.
  pose proof (b2z_range b). change (Z.of_nat (length [b])) with 1. lia.
Qed.

Lemma bev_app l l' : bev (l ++ l') = bev l * 256 ^ Z.of_nat (length l') + bev l'.
Proof.
  induction l' as [|b l' IH] using rev_ind; [rewrite app_nil_r; simpl; unfold bev at 3; simpl; lia|].
  rewrite app_assoc, !bev_snoc, IH, length_app, Nat2Z.inj_add, Z.pow_add_r by lia. change (Z.of_nat (length [b])) with 1. lia.
Qed.

Lemma bev_cons b l : bev (b :: l) = b2z b * 256 ^ Z.of_nat (length l) + bev l.
Proof. change (b :: l) with ([b] ++ l). rewrite bev_app. done. Qed.

Lemma bev_inj_length l : forall l', length l = length l' -> bev l = bev l' -> l = l'.
Proof.
  induction l as [|b l IH] using rev_ind; intros l' Hl E; [by destruct l'|].
  destruct l' as [|b' l' _] using rev_ind; [rewrite length_app in Hl; simpl in Hl; lia|].
  rewrite !bev_snoc in E. rewrite !length_app in Hl. simpl in Hl. pose proof (b2z_range b). pose proof (b2z_range b').
  rewrite (IH l') by lia. by rewrite (b2z_inj b b') by lia.
Qed.

(** No leading zero. *)
Definition minimal (l : bytes) : Prop := forall b, head l = Some b -> b2z b <> 0.

Lemma minimal_low b l : minimal (b :: l) -> 256 ^ Z.of_nat (length l) <= bev (b :: l).
Proof. intros H. specialize (H b eq_refl). rewrite bev_cons. pose proof (b2z_range b). pose proof (bev_range l). nia. Qed.

Lemma bev_inj l l' : minimal l -> minimal l' -> bev l = bev l' -> l = l'.
Proof.
  intros H H' E. apply bev_inj_length; [|done].
  assert (forall x y, minimal x -> minimal y -> bev x = bev y -> (length x <= length y)%nat) as Hle.
  { intros x y Hx Hy Exy. destruct x as [|b x]; [simpl; lia|]. pose proof (minimal_low b x Hx). pose proof (bev_range y).
    assert (256 ^ Z.of_nat (length x) < 256 ^ Z.of_nat (length y)) as Hp by lia. apply Z.pow_lt_mono_r_iff in Hp; simpl; lia. }
  pose proof (Hle l l' H H' E). pose proof (Hle l' l H' H (eq_sym E)). lia.
Qed.

Lemma be_u64_bev l : (length l <= 8)%nat -> be_u64 l = bev l.
Proof.
  induction l as [|b l IH] using rev_ind; [done|]. rewrite length_app. simpl. intros Hl. unfold be_u64 in *. rewrite foldl_app, bev_snoc. simpl.
  rewrite IH by lia. pose proof (bev_range l). pose proof (b2z_range b).
  assert (256 ^ Z.of_nat (length l) <= 256 ^ 7) by (apply Z.pow_le_mono_r; lia).
  rewrite u64_small by (rewrite Z.shiftl_mul_pow2; lia). rewrite Z.lor_comm, lor_disjoint; lia.
Qed.

Lemma minimal_trim l : (0 < length l)%nat -> (0 < length (trim l) <= length l)%nat /\ bev (trim l) = bev l /\ (0 < bev l -> minimal (trim l)).
Proof.
  induction l as [|b l IH]; simpl length; [lia|]. intros _. simpl trim. destruct ((1 <? S (length l))%nat && (b2z b =? 0)) eqn:E.
  - apply andb_true_iff in E as [E1 E2]. apply Nat.ltb_lt in E1. apply Z.eqb_eq in E2. destruct IH as (A & B & C); [lia|].
    rewrite bev_cons, E2, Z.mul_0_l, Z.add_0_l. split; [lia|]. done.
  - split; [simpl; lia|]. split; [done|]. intros Hp c [= <-] H0. apply andb_false_iff in E as [E|E]; [|rewrite H0 in E; done].
    apply Nat.ltb_ge in E. destruct l; [|simpl in E; lia]. rewrite bev_cons, H0 in Hp. done.
Qed.

Lemma minimal_trim_all l : (length (trim_all l) <= length l)%nat /\ bev (trim_all l) = bev l /\ minimal (trim_all l).
Proof.
  induction l as [|b l (A & B & C)]; simpl; [done|]. destruct (b2z b =? 0) eqn:E; z_bool.
  - rewrite bev_cons, E, Z.mul_0_l, Z.add_0_l. split; [lia|]. done.
  - split; [done|]. split; [done|]. by intros c [= <-].
Qed.

Lemma be8_spec v : 0 <= v < 2 ^ 64 -> length (be8 v) = 8%nat /\ bev (be8 v) = v.
Proof.
  intros Hv. split; [done|]. unfold be8, bev. simpl. rewrite !b2z_z2b, !Z.shiftr_div_pow2 by lia. simpl Z.sub.
  change (2 ^ (8 * 7)) with (2 ^ 56). change (2 ^ (8 * 0)) with 1. rewrite Z.div_1_r.
  change (2 ^ 64) with 18446744073709551616 in Hv. change (2 ^ 56) with 72057594037927936. change (2 ^ (8 * 6)) with 281474976710656.
  change (2 ^ (8 * 5)) with 1099511627776. change (2 ^ (8 * 4)) with 4294967296. change (2 ^ (8 * 3)) with 16777216. change (2 ^ (8 * 2)) with 65536. change (2 ^ (8 * 1)) with 256.
  Z.to_euclidean_division_equations. lia.
Qed.

(** The minimal big-endian form of a number, and that it is the only one. *)
Lemma trim_be8 v : 0 < v < 2 ^ 64 ->
  let l := trim (be8 v) in (1 <= length l <= 8)%nat /\ bev l = v /\ minimal l /\ trim_all (be8 v) = l.
Proof.
  intros Hv l. destruct (be8_spec v) as [H1 H2]; [lia|]. destruct (minimal_trim (be8 v)) as (A & B & C); [lia|]. rewrite H2 in *. rewrite H1 in A.
  specialize (C ltac:(lia)). split; [unfold l; lia|]. split; [done|]. split; [done|]. destruct (minimal_trim_all (be8 v)) as (_ & D & E).
  apply bev_inj; [done|done|]. unfold l. congruence.
Qed.

Lemma trim_be8_unique l : (1 <= length l <= 8)%nat -> minimal l -> trim (be8 (bev l)) = l.
Proof.
  intros Hl Hm. pose proof (bev_range l). assert (256 ^ Z.of_nat (length l) <= 256 ^ 8) by (apply Z.pow_le_mono_r; lia).
  assert (0 < bev l). { destruct l as [|b l]; [simpl in Hl; lia|]. pose proof (minimal_low b l Hm). pose proof (Z.pow_pos_nonneg 256 (Z.of_nat (length l))). lia. }
  destruct (trim_be8 (bev l)) as (A & B & C & _); [lia|]. by apply bev_inj.
Qed.

#[global] Arguments be8 : simpl never.
#[global] Arguments trim : simpl never.

(** ** Well-formed items

    The items that stand for one canonical encoding. *)

Inductive item_wf : rlpItem -> Prop :=
| wf_string p : item_wf (mk_item rlpString p (encodeBytes p) [])
| wf_list l : Forall item_wf l -> item_wf (mk_item rlpList (concat (raw <$> l)) (encodeRLPList (concat (raw <$> l))) l).

Abbreviation len p := (Z.of_nat (length p)).

Lemma encodeBytes_cases p :
  (exists b, p = [b] /\ b2z b < 0x80 /\ encodeBytes p = [b]) \/
  (encodeBytes p = (if (length p <=? 55)%nat then z2b (0x80 + len p) :: p else encodeLongItem 0xb7 p) /\ forall b, p = [b] -> 0x80 <= b2z b).
Proof.
  destruct p as [|b [|c p]]; [by right| |by right]. unfold encodeBytes. destruct (b2z b <? 0x80) eqn:E; z_bool; [left; by exists b|right].
  split; [done|]. by intros ? [= <-].
Qed.

(** *** Length prefixes *)

Lemma decodeLongLength_encode b p rest :
  (56 <= length p)%nat -> len p < 2 ^ 63 ->
  let lb := trim (be8 (len p)) in
  (1 <= length lb <= 8)%nat /\ decodeLongLength (b :: lb ++ p ++ rest) (length lb) = succeeds (length p, (1 + length lb)%nat).
Proof.
  intros Hp Hlt lb. destruct (trim_be8 (len p)) as (A & B & C & _); [lia|]. fold lb in A, B, C. clearbody lb. split; [done|].
  unfold decodeLongLength. simpl length. rewrite length_app.
  rewrite (proj2 (Nat.ltb_ge 8 (length lb))), (proj2 (Nat.ltb_ge _ (1 + length lb))) by lia. cbn [orb]. cbv zeta. simpl drop. rewrite drop_0, take_app_length.
  destruct lb as [|x lb']; [simpl in A; lia|]. cbn [lookup list_lookup mbind option_bind].
  rewrite (proj2 (Z.eqb_neq (b2z x) 0)) by (by apply C). rewrite be_u64_bev, B by lia.
  rewrite Z.gtb_ltb, (proj2 (Z.ltb_ge _ _)) by (rewrite !length_app; lia). by rewrite Nat2Z.id.
Qed.

Lemma decodeLongLength_sound input n l off :
  (1 <= n)%nat -> decodeLongLength input n = succeeds (l, off) ->
  off = (1 + n)%nat /\ exists b lb tl, input = b :: lb ++ tl /\ length lb = n /\ lb = trim (be8 (Z.of_nat l)).
Proof.
  intros Hn. unfold decodeLongLength. destruct ((8 <? n)%nat || (length input <? 1 + n)%nat) eqn:E; [done|]. apply orb_false_iff in E as [E1 E2]. apply Nat.ltb_ge in E1, E2.
  cbv zeta. destruct input as [|b input]; [simpl in E2; lia|]. simpl drop. rewrite drop_0. simpl length in E2 |- *. set (lb := take n input).
  assert (length lb = n) as Hl by (unfold lb; rewrite length_take; lia).
  destruct lb as [|x lb'] eqn:Elb; [simpl in Hl; lia|]. cbn [lookup list_lookup mbind option_bind]. destruct (b2z x =? 0) eqn:Ex; [done|]. apply Z.eqb_neq in Ex.
  rewrite be_u64_bev by lia. destruct (_ >? _); [done|]. intros [= <- <-]. split; [done|].
  exists b, lb, (drop n input). rewrite Elb. rewrite <-Elb at 1. unfold lb. rewrite take_drop. split; [done|]. split; [done|].
  rewrite Z2Nat.id by apply bev_range. symmetry. apply trim_be8_unique; [lia|]. by intros y [= <-].
Qed.

(** *** Decoding what was encoded *)

Lemma encode_nonempty i : item_wf i -> (0 < length (raw i))%nat.
Proof.
  intros H. destruct H as [p|l _]; simpl.
  - destruct (encodeBytes_cases p) as [(b & _ & _ & ->)|[-> _]]; [apply Nat.lt_0_succ|]. destruct (length p <=? 55)%nat; apply Nat.lt_0_succ.
  - unfold encodeRLPList. destruct (length _ <=? 55)%nat; apply Nat.lt_0_succ.
Qed.

Lemma decode_children_encode decode l : forall fuel acc,
  (forall i rest, i ∈ l -> decode (raw i ++ rest) = succeeds (i, rest)) -> (forall i, i ∈ l -> (0 < length (raw i))%nat) -> (length (concat (raw <$> l)) <= fuel)%nat ->
  decode_children decode fuel (concat (raw <$> l)) acc = succeeds (acc ++ l).
Proof.
  induction l as [|i l IH]; intros fuel acc Hd Hpos Hf; [destruct fuel; simpl; by rewrite app_nil_r|].
  change (concat (raw <$> i :: l)) with (raw i ++ concat (raw <$> l)) in *. rewrite length_app in Hf. pose proof (Hpos i (list_elem_of_here _ _)) as Hi.
  destruct fuel as [|fuel]; [lia|].
  assert (forall z, (0 < length z)%nat -> decode_children decode (S fuel) z acc = lete (child, rest) := decode z in decode_children decode fuel rest (acc ++ [child])) as Hun
    by (intros [|? ?] Hz; [simpl in Hz; lia|done]).
  rewrite Hun by (rewrite length_app; lia).
  rewrite Hd by apply list_elem_of_here. cbn [ebind]. rewrite IH; [by rewrite <-app_assoc| | |lia].
  - intros j rest Hj. apply Hd. by right.
  - intros j Hj. apply Hpos. by right.
Qed.

(** The prefix byte decides the branch. *)
Ltac prefix_branch :=
  cbn [decode_fuel]; rewrite ?b2z_z2b_small by lia;
  repeat match goal with
  | |- context [(?a <? ?b)] => first [rewrite (proj2 (Z.ltb_lt a b)) by lia | rewrite (proj2 (Z.ltb_ge a b)) by lia]
  | |- context [(?a <=? ?b)] => first [rewrite (proj2 (Z.leb_le a b)) by lia | rewrite (proj2 (Z.leb_gt a b)) by lia]
  end.

Lemma take_cons_app {A} (b : A) (p rest : list A) : take (1 + length p) (b :: p ++ rest) = b :: p.
Proof. simpl. by rewrite take_app_length. Qed.
Lemma drop_cons_app {A} (b : A) (p rest : list A) : drop (1 + length p) (b :: p ++ rest) = rest.
Proof. simpl. by rewrite drop_app_length. Qed.
Lemma take_head_app {A} (b : A) (lb p rest : list A) : take (1 + length lb + length p) (b :: lb ++ p ++ rest) = b :: lb ++ p.
Proof. rewrite app_assoc, <-Nat.add_assoc, <-length_app. apply take_cons_app. Qed.
Lemma drop_head_app {A} (b : A) (lb p rest : list A) : drop (1 + length lb + length p) (b :: lb ++ p ++ rest) = rest.
Proof. rewrite app_assoc, <-Nat.add_assoc, <-length_app. apply drop_cons_app. Qed.

Lemma decode_string fuel p rest : len p < 2 ^ 63 -> decode_fuel (S fuel) (encodeBytes p ++ rest) = succeeds (mk_item rlpString p (encodeBytes p) [], rest).
Proof.
  intros Hp. destruct (encodeBytes_cases p) as [(b & -> & Hb & ->)|[-> Hn]]; [simpl app; by prefix_branch|].
  destruct (length p <=? 55)%nat eqn:E; [apply Nat.leb_le in E|apply Nat.leb_gt in E].
  - rewrite <-app_comm_cons. prefix_branch. replace (Z.to_nat (128 + len p - 128)) with (length p) by lia.
    rewrite (proj2 (Nat.ltb_ge _ _)) by (simpl; rewrite length_app; lia). rewrite take_cons_app, drop_cons_app. cbv zeta. simpl drop. rewrite drop_0, take_app_length.
    destruct (length p =? 1)%nat eqn:E1; [|done]. apply Nat.eqb_eq in E1. destruct p as [|x [|]]; [done| |done]. specialize (Hn x eq_refl).
    cbn [lookup list_lookup mbind option_bind]. by rewrite (proj2 (Z.ltb_ge _ _)).
  - unfold encodeLongItem. cbv zeta. rewrite <-app_comm_cons, <-app_assoc.
    destruct (decodeLongLength_encode (z2b (183 + len (trim (be8 (len p))))) p rest) as [A B]; [lia|done|].
    set (lb := trim (be8 (len p))) in *. clearbody lb. prefix_branch. replace (Z.to_nat (183 + len lb - 183)) with (length lb) by lia. rewrite B. cbn [ebind].
    rewrite (proj2 (Nat.ltb_ge _ _)), (proj2 (Nat.ltb_ge _ _)) by (simpl; rewrite ?length_app; lia).
    rewrite take_head_app, drop_head_app. replace (drop (1 + length lb) (z2b (183 + len lb) :: lb ++ p ++ rest)) with (p ++ rest) by (by rewrite drop_cons_app).
    by rewrite take_app_length.
Qed.

Lemma decode_list fuel p l rest :
  len p < 2 ^ 63 -> decode_children (decode_fuel fuel) (length p) p [] = succeeds l ->
  decode_fuel (S fuel) (encodeRLPList p ++ rest) = succeeds (mk_item rlpList p (encodeRLPList p) l, rest).
Proof.
  intros Hp Hl. unfold encodeRLPList. destruct (length p <=? 55)%nat eqn:E; [apply Nat.leb_le in E|apply Nat.leb_gt in E].
  - rewrite <-app_comm_cons. prefix_branch. replace (Z.to_nat (192 + len p - 192)) with (length p) by lia.
    rewrite (proj2 (Nat.ltb_ge _ _)) by (simpl; rewrite length_app; lia). unfold decodeRLPList. cbv zeta. rewrite take_cons_app, drop_cons_app.
    replace (take (1 + length p - 1) (drop 1 (z2b (192 + len p) :: p ++ rest))) with p.
    2:{ simpl drop. rewrite drop_0. replace (1 + length p - 1)%nat with (length p) by lia. by rewrite take_app_length. }
    by rewrite Hl.
  - unfold encodeLongItem. cbv zeta. rewrite <-app_comm_cons, <-app_assoc.
    destruct (decodeLongLength_encode (z2b (247 + len (trim (be8 (len p))))) p rest) as [A B]; [lia|done|].
    set (lb := trim (be8 (len p))) in *. clearbody lb. prefix_branch. replace (Z.to_nat (247 + len lb - 247)) with (length lb) by lia. rewrite B. cbn [ebind].
    rewrite (proj2 (Nat.ltb_ge _ _)), (proj2 (Nat.ltb_ge _ _)) by (simpl; rewrite ?length_app; lia). unfold decodeRLPList. cbv zeta.
    rewrite take_head_app, drop_head_app.
    replace (take (1 + length lb + length p - (1 + length lb)) (drop (1 + length lb) (z2b (247 + len lb) :: lb ++ p ++ rest))) with p.
    2:{ rewrite drop_cons_app. replace (1 + length lb + length p - (1 + length lb))%nat with (length p) by lia. by rewrite take_app_length. }
    by rewrite Hl.
Qed.

Lemma length_encodeBytes p : (length p <= length (encodeBytes p))%nat.
Proof.
  destruct (encodeBytes_cases p) as [(b & -> & _ & ->)|[-> _]]; [done|]. destruct (length p <=? 55)%nat; [apply Nat.le_succ_diag_r|].
  unfold encodeLongItem. cbn [length]. rewrite length_app. lia.
Qed.
Lemma length_encodeRLPList p : (length p < length (encodeRLPList p))%nat.
Proof.
  unfold encodeRLPList. destruct (length p <=? 55)%nat; [apply Nat.lt_succ_diag_r|]. unfold encodeLongItem. cbn [length]. rewrite length_app. lia.
Qed.
Lemma length_child i l : i ∈ l -> (length (raw i) <= length (concat (raw <$> l)))%nat.
Proof.
  induction 1 as [i l|i j l _ IH]; change (concat (raw <$> ?x :: l)) with (raw x ++ concat (raw <$> l)).
  - change (concat (raw <$> i :: l)) with (raw i ++ concat (raw <$> l)). rewrite length_app. lia.
  - change (concat (raw <$> j :: l)) with (raw j ++ concat (raw <$> l)). rewrite length_app. lia.
Qed.

Lemma decode_encode fuel : forall i rest,
  item_wf i -> (length (raw i) < fuel)%nat -> len (raw i) < 2 ^ 63 -> decode_fuel fuel (raw i ++ rest) = succeeds (i, rest).
Proof.
  induction fuel as [|fuel IH]; intros i rest Hw Hf Hlt; [lia|]. destruct Hw as [p|l Hl]; cbn [raw] in *.
  - apply decode_string. pose proof (length_encodeBytes p). lia.
  - set (p := concat (raw <$> l)) in *. pose proof (length_encodeRLPList p). rewrite Forall_forall in Hl. apply decode_list; [lia|].
    unfold p at 2. apply decode_children_encode; [|intros i Hi; by apply encode_nonempty, Hl|done].
    intros i r Hi. pose proof (length_child i l Hi) as Hc. fold p in Hc. apply IH; [by apply Hl|lia|lia].
Qed.

(** *** Encoding what was decoded *)

Definition decode_sound (decode : bytes -> option (result error (rlpItem * bytes))) (n : nat) : Prop :=
  forall input i rest, (length input <= n)%nat -> decode input = succeeds (i, rest) -> item_wf i /\ input = raw i ++ rest.

Lemma decode_children_sound decode n fuel : forall p acc l,
  decode_sound decode n -> (length p <= n)%nat -> decode_children decode fuel p acc = succeeds l ->
  exists l', l = acc ++ l' /\ Forall item_wf l' /\ p = concat (raw <$> l').
Proof.
  induction fuel as [|fuel IH]; intros p acc l Hd Hp E.
  - destruct p; [|done]. injection E as <-. exists []. by rewrite app_nil_r.
  - destruct p as [|x p]; [injection E as <-; exists []; by rewrite app_nil_r|]. cbn [decode_children] in E.
    destruct (decode (x :: p)) as [[[i rest]|]|] eqn:Ed; [|done..]. cbn [ebind] in E. destruct (Hd _ _ _ Hp Ed) as [Hw Hi].
    destruct (IH rest (acc ++ [i]) l Hd) as (l' & -> & Hl & ->); [rewrite Hi, length_app in Hp; lia|done|].
    exists (i :: l'). rewrite <-app_assoc. split; [done|]. split; [by constructor|done].
Qed.

(** Cutting the input where the decoder cuts it. *)
Lemma split_at {A} n (l : list A) : (n <= length l)%nat -> exists p q, l = p ++ q /\ length p = n /\ take n l = p /\ drop n l = q.
Proof. intros H. exists (take n l), (drop n l). rewrite take_drop, length_take. split; [done|]. split; [lia|done]. Qed.

Lemma byte_of_prefix b z : 0 <= z < 256 -> b2z b = z -> b = z2b z.
Proof. intros Hz E. apply b2z_inj. by rewrite b2z_z2b_small. Qed.

Lemma decodeRLPList_sound decode n b hd tl l i :
  decode_sound decode n -> (length tl <= n)%nat -> (l <= length tl)%nat ->
  decodeRLPList decode (b :: hd ++ tl) (1 + length hd) (1 + length hd + l) = succeeds i ->
  exists p rest cs, tl = p ++ rest /\ length p = l /\ i = mk_item rlpList p (b :: hd ++ p) cs /\ Forall item_wf cs /\ p = concat (raw <$> cs).
Proof.
  intros Hd Hn Hl. destruct (split_at l tl Hl) as (p & rest & -> & Hp & _ & _). unfold decodeRLPList. cbv zeta.
  replace (1 + length hd + l - (1 + length hd))%nat with (length p) by lia. rewrite drop_cons_app, take_app_length.
  destruct (decode_children _ _ _ _) as [[cs|]|] eqn:E; [|done..]. cbn [ebind]. rewrite <-Hp, take_head_app. intros [= <-].
  rewrite length_app in Hn. destruct (decode_children_sound decode n _ p [] cs Hd ltac:(lia) E) as (l' & -> & H1 & H2). by exists p, rest, l'.
Qed.

Lemma decode_fuel_sound fuel : forall n, decode_sound (decode_fuel fuel) n.
Proof.
  induction fuel as [|fuel IH]; intros n input i rest Hn E; [done|]. destruct input as [|b tl]; [done|]. pose proof (b2z_range b) as Hb. cbn [decode_fuel] in E. cbv zeta in E.
  assert (Hlong : forall k, (1 <= Z.to_nat (b2z b - k))%nat -> forall l off, decodeLongLength (b :: tl) (Z.to_nat (b2z b - k)) = succeeds (l, off) ->
     exists lb q, b :: tl = b :: lb ++ q /\ tl = lb ++ q /\ length lb = Z.to_nat (b2z b - k) /\ lb = trim (be8 (Z.of_nat l)) /\ off = (1 + length lb)%nat).
  { intros k Hk l off Eq. destruct (decodeLongLength_sound _ _ _ _ Hk Eq) as (-> & b' & lb & q & E1 & E2 & E3). injection E1 as <- ->. exists lb, q. by rewrite E2. }
  destruct (b2z b <? 0x80) eqn:E1; [|apply Z.ltb_ge in E1].
  { injection E as <- <-. simpl. rewrite take_0, drop_0. split; [|done]. apply Z.ltb_lt in E1.
    assert (encodeBytes [b] = [b]) as Hs by (unfold encodeBytes; by rewrite (proj2 (Z.ltb_lt _ _))). rewrite <-Hs at 2. constructor. }
  destruct (b2z b <=? 0xb7) eqn:E2; [apply Z.leb_le in E2|apply Z.leb_gt in E2].
  { destruct (_ <? _)%nat eqn:El; [done|]. apply Nat.ltb_ge in El. simpl in El. destruct (split_at (Z.to_nat (b2z b - 128)) tl) as (p & q & -> & Hp & _ & _); [lia|].
    rewrite <-Hp, take_cons_app, drop_cons_app in E. simpl drop in E. rewrite drop_0, take_app_length in E.
    assert (b = z2b (0x80 + len p)) as Hbp by (apply byte_of_prefix; lia).
    assert ((forall x, p = [x] -> 0x80 <= b2z x) /\ i = mk_item rlpString p (b :: p) [] /\ rest = q) as (Hs & -> & ->).
    { destruct p as [|x [|y p]]; simpl in E; [injection E as <- <-; done| |injection E as <- <-; done].
      destruct (b2z x <? 128) eqn:Ex; [done|]. apply Z.ltb_ge in Ex. injection E as <- <-. split; [by intros ? [= <-]|done]. }
    split; [|done]. replace (b :: p) with (encodeBytes p); [constructor|].
    destruct (encodeBytes_cases p) as [(x & Hx & Hlt & _)|[-> _]]; [specialize (Hs x Hx); lia|]. rewrite (proj2 (Nat.leb_le _ _)) by lia. by rewrite Hbp. }
  destruct (b2z b <=? 0xbf) eqn:E3; [apply Z.leb_le in E3|apply Z.leb_gt in E3].
  { destruct (decodeLongLength _ _) as [[[l off]|]|] eqn:Eq; [|done..]. cbn [ebind] in E. destruct (Hlong 0xb7 ltac:(lia) l off Eq) as (lb & q & _ & -> & Hlb & Hmin & ->).
    destruct (_ <? 56)%nat eqn:E56; [done|]. apply Nat.ltb_ge in E56. destruct (_ <? l)%nat eqn:El; [done|]. apply Nat.ltb_ge in El. simpl in El. rewrite length_app in El.
    destruct (split_at l q) as (p & r & -> & Hp & _ & _); [lia|]. rewrite <-Hp in E. rewrite take_head_app, drop_head_app, drop_cons_app, take_app_length in E.
    injection E as <- <-. split; [|simpl; by rewrite app_assoc].
    replace (b :: lb ++ p) with (encodeBytes p); [constructor|]. destruct (encodeBytes_cases p) as [(x & -> & _ & _)|[-> _]]; [simpl in Hp; lia|].
    rewrite (proj2 (Nat.leb_gt _ _)) by lia. unfold encodeLongItem. cbv zeta. rewrite Hp, <-Hmin. f_equal. symmetry. apply byte_of_prefix; lia. }
  destruct (b2z b <=? 0xf7) eqn:E4; [apply Z.leb_le in E4|apply Z.leb_gt in E4].
  { destruct (_ <? _)%nat eqn:El; [done|]. apply Nat.ltb_ge in El. simpl in El. destruct (decodeRLPList _ _ _ _) as [[it|]|] eqn:Ei; [|done..]. cbn [ebind] in E. injection E as <- <-.
    destruct (decodeRLPList_sound (decode_fuel fuel) (length tl) b [] tl (Z.to_nat (b2z b - 192)) it (IH _) ltac:(done) ltac:(lia) Ei) as (p & q & cs & -> & Hp & -> & Hcs & Hc).
    rewrite <-Hp, drop_app_length. split; [|done]. rewrite Hc at 1. replace (b :: [] ++ p) with (encodeRLPList p); [rewrite Hc; by constructor|].
    unfold encodeRLPList. rewrite (proj2 (Nat.leb_le _ _)) by lia. simpl. f_equal. symmetry. apply byte_of_prefix; lia. }
  destruct (decodeLongLength _ _) as [[[l off]|]|] eqn:Eq; [|done..]. cbn [ebind] in E. destruct (Hlong 0xf7 ltac:(lia) l off Eq) as (lb & q & _ & -> & Hlb & Hmin & ->).
  destruct (_ <? 56)%nat eqn:E56; [done|]. apply Nat.ltb_ge in E56. destruct (_ <? l)%nat eqn:El; [done|]. apply Nat.ltb_ge in El. simpl in El. rewrite length_app in El.
  destruct (decodeRLPList _ _ _ _) as [[it|]|] eqn:Ei; [|done..]. cbn [ebind] in E. injection E as <- <-.
  destruct (decodeRLPList_sound (decode_fuel fuel) (length q) b lb q l it (IH _) ltac:(done) ltac:(lia) Ei) as (p & r & cs & -> & Hp & -> & Hcs & Hc).
  match goal with |- context [drop ?k ?x] => change (drop k x) with (drop (1 + length lb + l) (b :: lb ++ p ++ r)) end.
  rewrite <-Hp, drop_head_app. split; [|simpl; by rewrite app_assoc]. rewrite Hc at 1. replace (b :: lb ++ p) with (encodeRLPList p); [rewrite Hc; by constructor|].
  unfold encodeRLPList. rewrite (proj2 (Nat.leb_gt _ _)) by lia. unfold encodeLongItem. cbv zeta. rewrite Hp, <-Hmin. f_equal. symmetry. apply byte_of_prefix; lia.
Qed.

(** *** Totality *)

Lemma ebind_total {A B} (r : option (result error A)) (k : A -> option (result error B)) :
  r <> None -> (forall a, r = succeeds a -> k a <> None) -> ebind r k <> None.
Proof. destruct r as [[a|e]|]; simpl; auto. Qed.

Lemma decodeLongLength_total input n : (1 <= n)%nat -> decodeLongLength input n <> None.
Proof.
  intros Hn. unfold decodeLongLength. destruct (_ || _) eqn:E; [done|]. apply orb_false_iff in E as [_ E]. apply Nat.ltb_ge in E.
  destruct (lookup_lt_is_Some_nat (take n (drop 1 input)) 0) as [x Hx]; [rewrite length_take, length_drop; lia|]. cbv zeta. rewrite Hx. cbn [mbind option_bind].
  destruct (b2z x =? 0); [done|]. by destruct (_ >? _).
Qed.

Lemma decode_children_total decode n fuel : forall p acc,
  (forall q, (length q <= n)%nat -> decode q <> None) -> decode_sound decode n -> (length p <= n)%nat -> (length p <= fuel)%nat ->
  decode_children decode fuel p acc <> None.
Proof.
  induction fuel as [|fuel IH]; intros p acc Ht Hs Hn Hf; [by destruct p; [|simpl in Hf; lia]|]. destruct p as [|x p]; [done|]. cbn [decode_children].
  apply ebind_total; [by apply Ht|]. intros [i rest] E. destruct (Hs _ _ _ Hn E) as [Hw Hi]. pose proof (encode_nonempty i Hw).
  apply (f_equal length) in Hi. rewrite length_app in Hi. apply IH; [done|done|lia|lia].
Qed.

Lemma decodeRLPList_total fuel input start stop :
  (1 <= start)%nat -> (forall q, (length q < length input)%nat -> decode_fuel fuel q <> None) -> (1 <= length input)%nat ->
  decodeRLPList (decode_fuel fuel) input start stop <> None.
Proof.
  intros Hs Ht Hi. unfold decodeRLPList. apply ebind_total; [|done].
  apply (decode_children_total _ (length input - 1)); [|apply decode_fuel_sound| |done].
  - intros q Hq. apply Ht. lia.
  - rewrite length_take, length_drop. lia.
Qed.

Lemma decode_fuel_total fuel : forall input, (length input < fuel)%nat -> decode_fuel fuel input <> None.
Proof.
  induction fuel as [|fuel IH]; intros input Hf; [lia|]. destruct input as [|b tl]; [done|]. cbn [decode_fuel]. cbv zeta.
  assert (forall start stop, (1 <= start)%nat -> decodeRLPList (decode_fuel fuel) (b :: tl) start stop <> None) as HL.
  { intros start stop Hs. apply decodeRLPList_total; [done| |simpl; lia]. intros q Hq. apply IH. simpl in *. lia. }
  destruct (b2z b <? 128) eqn:E1; [done|]. apply Z.ltb_ge in E1. destruct (b2z b <=? 183) eqn:E2; [|apply Z.leb_gt in E2].
  { destruct (_ <? _)%nat eqn:El; [done|]. apply Nat.ltb_ge in El. destruct (Z.to_nat (b2z b - 128) =? 1)%nat eqn:Eo.
    - apply Nat.eqb_eq in Eo. rewrite Eo in *. destruct tl as [|x tl]; [simpl in El; lia|]. simpl. by destruct (b2z x <? 128).
    - done. }
  destruct (b2z b <=? 191) eqn:E3; [|apply Z.leb_gt in E3].
  { apply ebind_total; [apply decodeLongLength_total; lia|]. intros [l off] _. by repeat (destruct (_ <? _)%nat; [done|]). }
  destruct (b2z b <=? 247) eqn:E4; [|apply Z.leb_gt in E4].
  { destruct (_ <? _)%nat; [done|]. by apply ebind_total; [apply HL; lia|]. }
  apply ebind_total; [apply decodeLongLength_total; lia|]. intros [l off] Eq. repeat (destruct (_ <? _)%nat; [done|]).
  apply decodeLongLength_sound in Eq as [-> _]; [|lia]. by apply ebind_total; [apply HL; lia|].
Qed.

(** ** The theorems *)

Lemma decodeRLP_spec input i rest :
  len input < 2 ^ 63 -> decodeRLP input = succeeds (i, rest) <-> item_wf i /\ input = raw i ++ rest.
Proof.
  intros Hlt. split.
  - by apply (decode_fuel_sound _ (length input)).
  - intros [Hw ->]. rewrite length_app in Hlt. apply decode_encode; [done|rewrite length_app; lia|lia].
Qed.

(** The decoder accepts exactly the canonical encodings: it returns an item
    and the rest of the input if and only if the input is the item's canonical
    encoding, recursively for the children of a list, followed by that rest.  So
    a record has one encoding, and what was signed is what was decoded. *)
Theorem decodeRLP_exact input i rest :
  len input < 2 ^ 63 -> decodeRLP input = succeeds (i, rest) <-> item_wf i /\ input = raw i ++ rest.
Proof. apply decodeRLP_spec. Qed.

(** Decoding terminates without an index out of range on every input: the
    recursion is at most as deep as the input is long, and it returns an item
    or one of the errors. *)
Theorem decodeRLP_total input : exists r, decodeRLP input = Some r.
Proof. destruct (decodeRLP input) eqn:E; [by eexists|]. by apply decode_fuel_total in E; [|lia]. Qed.

Lemma decodeSingleRLP_spec input i : len input < 2 ^ 63 -> decodeSingleRLP input = succeeds i <-> item_wf i /\ input = raw i.
Proof.
  intros Hlt. unfold decodeSingleRLP. split.
  - destruct (decodeRLP input) as [[[j rest]|]|] eqn:E; [|done..]. cbn [ebind]. destruct (length rest =? 0)%nat eqn:Er; [|done]. apply Nat.eqb_eq in Er.
    intros [= <-]. apply decodeRLP_spec in E as [Hw ->]; [|done]. destruct rest; [|done]. by rewrite app_nil_r.
  - intros [Hw ->]. rewrite (proj2 (decodeRLP_spec _ i [] Hlt)); [done|]. by rewrite app_nil_r.
Qed.

Lemma item_wf_string i : item_wf i -> kind i = rlpString -> i = mk_item rlpString (payload i) (encodeBytes (payload i)) [].
Proof. by intros []. Qed.

Lemma decodeBytes_spec input p : len input < 2 ^ 63 -> decodeBytes input = succeeds p <-> input = encodeBytes p.
Proof.
  intros Hlt. unfold decodeBytes. split.
  - destruct (decodeSingleRLP input) as [[i|]|] eqn:E; [|done..]. cbn [ebind]. case_decide as Hk; [|done]. intros [= <-].
    apply decodeSingleRLP_spec in E as [Hw ->]; [|done]. by rewrite (item_wf_string i Hw Hk).
  - intros ->. rewrite (proj2 (decodeSingleRLP_spec _ (mk_item rlpString p (encodeBytes p) []) Hlt)); [by cbn [ebind]; rewrite decide_True|].
    split; [constructor|done].
Qed.

Definition uint_size (size : nat) : Prop := (1 <= size <= 8)%nat.

(** The payload of a number's encoding, and the item it is. *)
Definition uint_payload (v : Z) : bytes := if v =? 0 then [] else trim_all (be8 v).
Definition uint_item (v : Z) : rlpItem := mk_item rlpString (uint_payload v) (encodeUint v) [].

Lemma encodeUint_payload v : encodeUint v = encodeBytes (uint_payload v).
Proof. unfold encodeUint, uint_payload. by destruct (v =? 0). Qed.

Lemma uint_item_wf v : item_wf (uint_item v).
Proof. unfold uint_item. rewrite encodeUint_payload. constructor. Qed.

Lemma uint_payload_spec v : 0 <= v < 2 ^ 64 -> minimal (uint_payload v) /\ bev (uint_payload v) = v.
Proof.
  intros Hv. unfold uint_payload. destruct (v =? 0) eqn:E; [apply Z.eqb_eq in E; by subst|].
  destruct (minimal_trim_all (be8 v)) as (_ & A & B). destruct (be8_spec v Hv) as [_ C]. split; [done|congruence].
Qed.

Lemma length_encodeUint v : (length (encodeUint v) <= 9)%nat.
Proof.
  rewrite encodeUint_payload. assert (length (uint_payload v) <= 8)%nat as Hl.
  { unfold uint_payload. destruct (v =? 0); [simpl; lia|]. apply (minimal_trim_all (be8 v)). }
  destruct (encodeBytes_cases (uint_payload v)) as [(b & _ & _ & ->)|[-> _]]; [simpl; lia|]. rewrite (proj2 (Nat.leb_le _ _)) by lia. cbn [length]. lia.
Qed.

Lemma minimal_length p (size : nat) : minimal p -> bev p < 256 ^ Z.of_nat size -> (length p <= size)%nat.
Proof.
  intros Hm Hv. destruct p as [|b p]; [simpl; lia|]. pose proof (minimal_low b p Hm). assert (256 ^ Z.of_nat (length p) < 256 ^ Z.of_nat size) as H' by lia.
  apply Z.pow_lt_mono_r_iff in H'; simpl; lia.
Qed.

Lemma decodeUint_payload (size : nat) p r cs :
  (length p <= size <= 8)%nat -> minimal p -> decodeUint size (mk_item rlpString p r cs) = succeeds (bev p).
Proof.
  intros Hl Hm. unfold decodeUint. simpl. rewrite (proj2 (Nat.ltb_ge _ _)) by lia. destruct p as [|b p]; [done|].
  rewrite (proj2 (Z.eqb_neq _ _)) by (by apply Hm). rewrite be_u64_bev by lia. pose proof (bev_range (b :: p)).
  rewrite Z.mod_small; [done|]. assert (256 ^ len (b :: p) <= 256 ^ Z.of_nat size) by (apply Z.pow_le_mono_r; lia). lia.
Qed.

Lemma decodeUint_item (size : nat) i v :
  uint_size size -> item_wf i -> decodeUint size i = succeeds v <-> 0 <= v < 256 ^ Z.of_nat size /\ i = uint_item v.
Proof.
  intros Hs Hw. unfold uint_size in Hs. assert (256 ^ Z.of_nat size <= 2 ^ 64) as Hp by (change (2 ^ 64) with (256 ^ 8); apply Z.pow_le_mono_r; lia). split.
  - intros Hd. assert (kind i = rlpString) as Hk by (unfold decodeUint in Hd; by case_decide). rewrite (item_wf_string i Hw Hk) in Hd |- *.
    set (p := payload i) in *. clearbody p.
    assert (minimal p /\ (length p <= size)%nat) as [Hm Hl].
    { unfold decodeUint in Hd. simpl in Hd. destruct (_ <? _)%nat eqn:El; [done|]. apply Nat.ltb_ge in El. split; [|done]. destruct p as [|b p]; [done|].
      destruct (b2z b =? 0) eqn:Eb; [done|]. apply Z.eqb_neq in Eb. by intros ? [= <-]. }
    rewrite decodeUint_payload in Hd by (lia || done). injection Hd as <-. pose proof (bev_range p).
    assert (256 ^ len p <= 256 ^ Z.of_nat size) by (apply Z.pow_le_mono_r; lia). split; [lia|].
    destruct (uint_payload_spec (bev p)) as [Hq Eq]; [lia|]. unfold uint_item. rewrite encodeUint_payload. by rewrite <-(bev_inj p (uint_payload (bev p))).
  - intros [Hv ->]. destruct (uint_payload_spec v) as [Hm Hb]; [lia|]. unfold uint_item.
    pose proof (minimal_length (uint_payload v) size Hm ltac:(lia)). rewrite decodeUint_payload; [by rewrite Hb|lia|done].
Qed.

(** C39. RLP integers of one to eight bytes: an item decodes to a number exactly
    when it is the number's only encoding, and the number then fits the width
    asked for; a number out of the width's range never decodes. *)
Theorem decodeUint_exact (size : nat) input v :
  uint_size size -> len input < 2 ^ 63 ->
  (lete i := decodeSingleRLP input in decodeUint size i) = succeeds v <-> 0 <= v < 256 ^ Z.of_nat size /\ input = encodeUint v.
Proof.
  intros Hs Hlt. split.
  - destruct (decodeSingleRLP input) as [[i|]|] eqn:E; [|done..]. cbn [ebind]. apply decodeSingleRLP_spec in E as [Hw ->]; [|done].
    rewrite decodeUint_item by done. by intros [Hv ->].
  - intros [Hv ->]. rewrite (proj2 (decodeSingleRLP_spec _ (uint_item v) Hlt)) by (split; [apply uint_item_wf|done]). cbn [ebind].
    apply decodeUint_item; [done|apply uint_item_wf|done].
Qed.

(** The list of one string "cat", then a byte that is left over. *)
Definition demo_cat : rlpItem :=
  mk_item rlpList [Byte.x83; Byte.x63; Byte.x61; Byte.x74] [Byte.xc4; Byte.x83; Byte.x63; Byte.x61; Byte.x74]
    [mk_item rlpString [Byte.x63; Byte.x61; Byte.x74] [Byte.x83; Byte.x63; Byte.x61; Byte.x74] []].

Lemma decodeRLP_exact_witness :
  item_wf demo_cat /\ [Byte.xc4; Byte.x83; Byte.x63; Byte.x61; Byte.x74; Byte.x00] = raw demo_cat ++ [Byte.x00].
Proof.
  apply (decodeRLP_exact [Byte.xc4; Byte.x83; Byte.x63; Byte.x61; Byte.x74; Byte.x00] demo_cat [Byte.x00]); [reflexivity|].
  vm_compute. reflexivity.
Defined.

(** Port 9000 in two bytes. *)
Lemma decodeUint_exact_witness :
  (lete i := decodeSingleRLP [Byte.x82; Byte.x23; Byte.x28] in decodeUint 2 i) = succeeds 9000.
Proof. apply (decodeUint_exact 2 [Byte.x82; Byte.x23; Byte.x28] 9000); [split; lia|reflexivity|]. split; [lia|vm_compute; reflexivity]. Defined.
