(* ===== verification/Identity.v ===== *)
(** * Identity: node identity keys (src/identity/identity.go)

    The secp256k1 implementation and protobuf's wire primitives are third-party
    code: classes of operations, with what their documentation promises as
    laws.  The end of the file has instances that satisfy the laws. *)

From S2P Require Import Prelude Types Rlp.
From stdpp Require Import pretty.
Open Scope Z_scope.

(** ** The libraries *)

Class Secp256k1 := {
  PublicKey : Type;
  PrivateKey : Type;
  ModNScalar : Type;
  Signature : Type;
  PubKeyBytesLenCompressed : nat;
  SerializeCompressed : PublicKey -> bytes;
  secp_ParsePubKey : bytes -> result error PublicKey;
  IsEqual : PublicKey -> PublicKey -> bool;
  PrivKeyFromBytes : bytes -> PrivateKey;
  Serialize : PrivateKey -> bytes;
  Key_IsZero : PrivateKey -> bool;
  PrivateKey_PubKey : PrivateKey -> PublicKey;
  ecdsa_Sign : PrivateKey -> bytes -> Signature;
  Signature_Serialize : Signature -> bytes;
  ParseDERSignature : bytes -> result error Signature;
  SignCompact : PrivateKey -> bytes -> bool -> bytes;
  SetByteSlice : bytes -> ModNScalar * bool;           (* the scalar and whether it overflowed *)
  IsZero : ModNScalar -> bool;
  IsOverHalfOrder : ModNScalar -> bool;
  NewSignature : ModNScalar -> ModNScalar -> Signature;
  Signature_Verify : Signature -> bytes -> PublicKey -> bool;
  Sum256 : bytes -> bytes }.

(** A compressed key parses to the key it was written from; a secret survives
    its 32 bytes; a signature verifies, in either form, and the compact form is
    a recovery byte and two scalars in range with low S. *)
Class Secp256k1Laws (SC : Secp256k1) : Prop := {
  secp_len : forall k, length (SerializeCompressed k) = PubKeyBytesLenCompressed;
  secp_len_33 : PubKeyBytesLenCompressed = 33%nat;
  secp_parse : forall k, secp_ParsePubKey (SerializeCompressed k) = Ok k;
  secp_secret : forall k, PrivKeyFromBytes (Serialize k) = k;
  secp_der : forall s, ParseDERSignature (Signature_Serialize s) = Ok s;
  secp_sign : forall k h, length h = 32%nat -> Signature_Verify (ecdsa_Sign k h) h (PrivateKey_PubKey k) = true;
  secp_hash : forall m, length (Sum256 m) = 32%nat;
  secp_compact : forall k h, length h = 32%nat -> exists v rb sb r s,
    SignCompact k h true = v :: rb ++ sb /\ length rb = 32%nat /\ length sb = 32%nat /\
    SetByteSlice rb = (r, false) /\ IsZero r = false /\ SetByteSlice sb = (s, false) /\ IsZero s = false /\
    IsOverHalfOrder s = false /\ Signature_Verify (NewSignature r s) h (PrivateKey_PubKey k) = true }.

(** protowire: a negative length reports malformed input. *)
Class Protowire := {
  AppendTag : bytes -> Z -> Z -> bytes;
  AppendVarint : bytes -> Z -> bytes;
  AppendBytes : bytes -> bytes -> bytes;
  ConsumeTag : bytes -> Z * Z * Z;
  ConsumeVarint : bytes -> Z * Z;
  ConsumeBytes : bytes -> bytes * Z;
  ConsumeFieldValue : Z -> Z -> bytes -> Z;
  ParseError : Z -> error }.
Definition VarintType : Z := 0.
Definition BytesType : Z := 2.

Class ProtowireLaws (PW : Protowire) : Prop := {
  pw_tag_app : forall b n t, AppendTag b n t = b ++ AppendTag [] n t;
  pw_varint_app : forall b v, AppendVarint b v = b ++ AppendVarint [] v;
  pw_bytes_app : forall b x, AppendBytes b x = b ++ AppendBytes [] x;
  pw_tag : forall n t rest, n = 1 /\ t = VarintType \/ n = 2 /\ t = BytesType ->
    ConsumeTag (AppendTag [] n t ++ rest) = (n, t, len (AppendTag [] n t));
  pw_tag_consumes : forall b n t k, ConsumeTag b = (n, t, k) -> 0 <= k -> 0 < k;
  pw_tag_pos : forall n t, (0 < length (AppendTag [] n t))%nat;
  pw_varint : forall v rest, 0 <= v < 2 ^ 64 -> ConsumeVarint (AppendVarint [] v ++ rest) = (v, len (AppendVarint [] v));
  pw_bytes : forall x rest, len x < 2 ^ 63 -> ConsumeBytes (AppendBytes [] x ++ rest) = (x, len (AppendBytes [] x)) }.

Definition secp256k1KeyType : Z := 2.
Definition ErrInvalidKey : error := "invalid secp256k1 key"%string.
Definition ErrUnsupportedKey : error := "unsupported key type: secp256k1 required"%string.

Section identity.
Context {SC : Secp256k1} {PW : Protowire}.

Record PrivKey := mk_priv { priv_key : PrivateKey }.
Record PubKey := mk_pub { pub_key : PublicKey }.

(** ** Private keys *)

Definition ParsePrivKey (secret : bytes) : result error PrivKey :=
  let key := PrivKeyFromBytes secret in
  if negb (bool_decide (Serialize key = secret)) || Key_IsZero key then Err ErrInvalidKey else Ok (mk_priv key).

Definition PrivKey_Bytes (k : PrivKey) : bytes := Serialize (priv_key k).
Definition Public (k : PrivKey) : PubKey := mk_pub (PrivateKey_PubKey (priv_key k)).
Definition Sign (k : PrivKey) (message : bytes) : bytes := Signature_Serialize (ecdsa_Sign (priv_key k) (Sum256 message)).
Definition SignHash (k : PrivKey) (hash : bytes) : bytes := drop 1 (SignCompact (priv_key k) hash true).

(** ** Public keys *)

Definition ParsePubKey (compressed : bytes) : result error PubKey :=
  if negb (length compressed =? PubKeyBytesLenCompressed)%nat then
    Err (ErrInvalidKey ++ ": compressed key is " ++ pretty (length compressed) ++ " bytes, want " ++ pretty PubKeyBytesLenCompressed)%string
  else match secp_ParsePubKey compressed with
       | Err e => Err (ErrInvalidKey ++ ": " ++ e)%string
       | Ok key => Ok (mk_pub key)
       end.

Definition PubKey_Bytes (k : PubKey) : bytes := SerializeCompressed (pub_key k).

Definition Marshal (k : PubKey) : bytes :=
  let wire := AppendTag [] 1 VarintType in
  let wire := AppendVarint wire secp256k1KeyType in
  let wire := AppendTag wire 2 BytesType in
  AppendBytes wire (PubKey_Bytes k).

Definition PubKey_PeerID (k : PubKey) : bytes :=
  let raw := Marshal k in
  let id := AppendVarint [Byte.x00] (len raw) in
  id ++ raw.

Definition Equal (k other : PubKey) : bool := IsEqual (pub_key k) (pub_key other).

(** The loop of [UnmarshalPubKey]: the key's type and its data, nil at first.
    Each turn consumes a tag, so the length of the input is enough fuel. *)
Fixpoint unmarshal_loop (fuel : nat) (wire : bytes) (keyType : Z) (keyData : option bytes) : option (result error (Z * option bytes)) :=
  match wire with
  | [] => succeeds (keyType, keyData)
  | _ :: _ =>
      match fuel with
      | O => None
      | S fuel =>
          let '(number, wireType, n) := ConsumeTag wire in
          if n <? 0 then fails ("malformed public key: " ++ ParseError n)
          else
            let wire := drop (Z.to_nat n) wire in
            let '(keyType, keyData, n) :=
              if (number =? 1) && (wireType =? VarintType) then let '(v, n) := ConsumeVarint wire in (v, keyData, n)
              else if (number =? 2) && (wireType =? BytesType) then let '(d, n) := ConsumeBytes wire in (keyType, Some d, n)
              else (keyType, keyData, ConsumeFieldValue number wireType wire) in
            if n <? 0 then fails ("malformed public key: " ++ ParseError n)
            else unmarshal_loop fuel (drop (Z.to_nat n) wire) keyType keyData
      end
  end.

Definition UnmarshalPubKey (wire : bytes) : option (result error PubKey) :=
  lete (keyType, keyData) := unmarshal_loop (length wire) wire 0 None in
  if negb (keyType =? secp256k1KeyType) then fails ErrUnsupportedKey
  else match keyData with
       | None => fails ErrUnsupportedKey
       | Some d => Some (ParsePubKey d)
       end.

(** ** Signatures *)

Definition Verify (k : PubKey) (message signature : bytes) : bool :=
  match ParseDERSignature signature with
  | Err _ => false
  | Ok sig => Signature_Verify sig (Sum256 message) (pub_key k)
  end.

Definition VerifyHash (k : PubKey) (hash signature : bytes) : bool :=
  if negb (length signature =? 64)%nat then false
  else
    let '(r, r_over) := SetByteSlice (take 32 signature) in
    let '(s, s_over) := SetByteSlice (drop 32 signature) in
    if r_over || IsZero r || s_over || IsZero s || IsOverHalfOrder s then false
    else Signature_Verify (NewSignature r s) hash (pub_key k).

(** ** Properties *)

Context {SL : Secp256k1Laws SC}.

Lemma ParsePubKey_Bytes k : ParsePubKey (PubKey_Bytes k) = Ok k.
Proof.
  unfold ParsePubKey, PubKey_Bytes. rewrite secp_len, Nat.eqb_refl. simpl. rewrite secp_parse. by destruct k.
Qed.

Lemma VerifyHash_SignHash k h : length h = 32%nat -> length (SignHash k h) = 64%nat /\ VerifyHash (Public k) h (SignHash k h) = true.
Proof.
  intros Hh. destruct (secp_compact (priv_key k) h Hh) as (v & rb & sb & r & s & E & Hr & Hs & E1 & E2 & E3 & E4 & E5 & E6).
  assert (SignHash k h = rb ++ sb) as Es by (unfold SignHash; by rewrite E). rewrite Es, length_app, Hr, Hs. split; [done|].
  unfold VerifyHash. rewrite length_app, Hr, Hs. simpl. rewrite <-Hr, take_app_length, drop_app_length, E1, E3, E2, E4, E5. simpl. exact E6.
Qed.

Lemma Verify_Sign k m : Verify (Public k) m (Sign k m) = true.
Proof using SL. unfold Verify, Sign. rewrite secp_der. apply secp_sign, secp_hash. Qed.

Context {PL : ProtowireLaws PW}.

Lemma unmarshal_field1 fuel v rest t d :
  0 <= v < 2 ^ 64 ->
  unmarshal_loop (S fuel) (AppendTag [] 1 VarintType ++ AppendVarint [] v ++ rest) t d = unmarshal_loop fuel rest v d.
Proof.
  intros Hv. pose proof (pw_tag_pos 1 VarintType) as Hp. destruct (AppendTag [] 1 VarintType) as [|x tg] eqn:Et; [simpl in Hp; lia|].
  rewrite <-app_comm_cons. cbn [unmarshal_loop]. rewrite app_comm_cons. rewrite <-Et, pw_tag by auto.
  rewrite (proj2 (Z.ltb_ge _ _)) by lia. rewrite Nat2Z.id, drop_app_length. change ((1 =? 1) && (VarintType =? VarintType)) with true. cbv iota.
  rewrite pw_varint by done. rewrite (proj2 (Z.ltb_ge _ _)) by lia. by rewrite Nat2Z.id, drop_app_length.
Qed.

Lemma unmarshal_field2 fuel x rest t d :
  len x < 2 ^ 63 -> unmarshal_loop (S fuel) (AppendTag [] 2 BytesType ++ AppendBytes [] x ++ rest) t d = unmarshal_loop fuel rest t (Some x).
Proof.
  intros Hx. pose proof (pw_tag_pos 2 BytesType) as Hp. destruct (AppendTag [] 2 BytesType) as [|y tg] eqn:Et; [simpl in Hp; lia|].
  rewrite <-app_comm_cons. cbn [unmarshal_loop]. rewrite app_comm_cons. rewrite <-Et, pw_tag by auto.
  rewrite (proj2 (Z.ltb_ge _ _)) by lia. rewrite Nat2Z.id, drop_app_length. change ((2 =? 1) && (BytesType =? VarintType)) with false.
  change ((2 =? 2) && (BytesType =? BytesType)) with true. cbv iota.
  rewrite pw_bytes by done. rewrite (proj2 (Z.ltb_ge _ _)) by lia. by rewrite Nat2Z.id, drop_app_length.
Qed.

Lemma Marshal_fields k :
  Marshal k = AppendTag [] 1 VarintType ++ AppendVarint [] secp256k1KeyType ++ AppendTag [] 2 BytesType ++ AppendBytes [] (PubKey_Bytes k).
Proof. unfold Marshal. cbv zeta. by rewrite pw_bytes_app, pw_tag_app, pw_varint_app, <-!app_assoc. Qed.

Lemma unmarshal_marshal k fuel rest t d :
  unmarshal_loop (2 + fuel) (Marshal k ++ rest) t d = unmarshal_loop fuel rest secp256k1KeyType (Some (PubKey_Bytes k)).
Proof using SL PL.
  rewrite Marshal_fields, <-!app_assoc. simpl plus. rewrite unmarshal_field1 by (unfold secp256k1KeyType; lia).
  apply unmarshal_field2. unfold PubKey_Bytes. rewrite secp_len, secp_len_33. lia.
Qed.

Lemma length_Marshal k : (2 <= length (Marshal k))%nat.
Proof. rewrite Marshal_fields, !length_app. pose proof (pw_tag_pos 1 VarintType). pose proof (pw_tag_pos 2 BytesType). lia. Qed.

Lemma UnmarshalPubKey_Marshal k : UnmarshalPubKey (Marshal k) = succeeds k.
Proof using SL PL.
  unfold UnmarshalPubKey. pose proof (length_Marshal k). replace (length (Marshal k)) with (2 + (length (Marshal k) - 2))%nat by lia.
  rewrite <-(app_nil_r (Marshal k)) at 2. rewrite unmarshal_marshal. destruct (length (Marshal k) - 2)%nat; cbn [unmarshal_loop ebind];
    rewrite Z.eqb_refl; simpl; by rewrite ParsePubKey_Bytes.
Qed.

Lemma unmarshal_loop_total fuel : forall wire t d, (length wire <= fuel)%nat -> is_Some (unmarshal_loop fuel wire t d).
Proof using PL.
  induction fuel as [|fuel IH]; intros [|b wire] t d Hf; simpl in Hf; [by eexists|lia|by eexists|]. cbn [unmarshal_loop].
  destruct (ConsumeTag (b :: wire)) as [[number wireType] n] eqn:Et. pose proof (pw_tag_consumes _ _ _ _ Et) as Hn. destruct (Z.ltb_spec n 0); [by eexists|]. cbv zeta.
  destruct (if _ && _ then _ else _) as [[t' d'] m]. destruct (m <? 0); [by eexists|]. apply IH. rewrite !length_drop. simpl. lia.
Qed.

Lemma UnmarshalPubKey_total wire : is_Some (UnmarshalPubKey wire).
Proof using PL.
  unfold UnmarshalPubKey. destruct (unmarshal_loop_total (length wire) wire 0 None) as [[[t d]|e] ->]; [done| |by eexists]. cbn [ebind].
  destruct (negb _); [by eexists|]. destruct d; by eexists.
Qed.

Lemma PeerID_inj k k' : len (Marshal k) < 2 ^ 63 -> len (Marshal k') < 2 ^ 63 -> PubKey_PeerID k = PubKey_PeerID k' -> k = k'.
Proof using SL PL.
  intros Hk Hk' E. unfold PubKey_PeerID in E. cbv zeta in E. rewrite !(pw_varint_app [Byte.x00]), <-!app_assoc in E. injection E as E.
  pose proof (f_equal ConsumeVarint E) as Ec. rewrite !pw_varint in Ec by lia. injection Ec as En El.
  apply app_eq_length_inv in E as [_ E]; [|lia]. pose proof (f_equal UnmarshalPubKey E) as Eu. rewrite !UnmarshalPubKey_Marshal in Eu. by injection Eu.
Qed.

(** A key survives each of its encodings: the compressed form, the libp2p
    message, and the peer ID, which determines the key; a secret scalar that is
    not zero survives its 32 bytes; [UnmarshalPubKey] returns on every input;
    and both kinds of signatures verify under
    the signer's public key. *)
Theorem identity_roundtrips (k k' : PubKey) (x : PrivKey) message hash :
  length hash = 32%nat -> Key_IsZero (priv_key x) = false ->
  ParsePubKey (PubKey_Bytes k) = Ok k /\ UnmarshalPubKey (Marshal k) = succeeds k /\ (len (Marshal k) < 2 ^ 63 -> len (Marshal k') < 2 ^ 63 -> PubKey_PeerID k = PubKey_PeerID k' -> k = k') /\
  ParsePrivKey (PrivKey_Bytes x) = Ok x /\ (forall wire, is_Some (UnmarshalPubKey wire)) /\
  Verify (Public x) message (Sign x message) = true /\ VerifyHash (Public x) hash (SignHash x hash) = true.
Proof using SL PL.
  intros Hh Hz. split; [apply ParsePubKey_Bytes|]. split; [apply UnmarshalPubKey_Marshal|]. split; [|split; [|split; [|split]]].
  - apply PeerID_inj.
  - unfold ParsePrivKey, PrivKey_Bytes. rewrite secp_secret, Hz. rewrite bool_decide_eq_true_2 by done. by destruct x.
  - apply UnmarshalPubKey_total.
  - apply Verify_Sign.
  - by apply VerifyHash_SignHash.
Qed.

(** The encoding is not unique: fields may repeat, and the last one counts. *)
Theorem UnmarshalPubKey_repeats k k' : UnmarshalPubKey (Marshal k' ++ Marshal k) = succeeds k.
Proof using SL PL.
  unfold UnmarshalPubKey. rewrite length_app. pose proof (length_Marshal k). pose proof (length_Marshal k').
  replace (length (Marshal k') + length (Marshal k))%nat with (2 + (2 + (length (Marshal k') + length (Marshal k) - 4)))%nat by lia.
  rewrite unmarshal_marshal. rewrite <-(app_nil_r (Marshal k)) at 2. rewrite unmarshal_marshal.
  destruct (_ - 4)%nat; cbn [unmarshal_loop ebind]; rewrite Z.eqb_refl; simpl; by rewrite ParsePubKey_Bytes.
Qed.
End identity.

(** ** Instances of the laws: one key whose every signature is valid, and fixed-width integers *)

#[local] Instance demo_secp : Secp256k1 := {|
  PublicKey := unit; PrivateKey := unit; ModNScalar := unit; Signature := unit; PubKeyBytesLenCompressed := 33;
  SerializeCompressed _ := repeat Byte.x02 33; secp_ParsePubKey _ := Ok tt; IsEqual _ _ := true;
  PrivKeyFromBytes _ := tt; Serialize _ := repeat Byte.x01 32; Key_IsZero _ := false; PrivateKey_PubKey _ := tt;
  ecdsa_Sign _ _ := tt; Signature_Serialize _ := []; ParseDERSignature _ := Ok tt; SignCompact _ _ _ := repeat Byte.x03 65;
  SetByteSlice _ := (tt, false); IsZero _ := false; IsOverHalfOrder _ := false; NewSignature _ _ := tt; Signature_Verify _ _ _ := true;
  Sum256 _ := repeat Byte.x04 32 |}.

#[local] Instance demo_secp_laws : Secp256k1Laws demo_secp.
Proof.
  split; try (by intros []); try done.
  intros k h _. exists Byte.x03, (repeat Byte.x03 32), (repeat Byte.x03 32), tt, tt. done.
Qed.

#[local] Instance demo_protowire : Protowire := {|
  AppendTag b n t := b ++ [z2b (8 * n + t)]; AppendVarint b v := b ++ be8 v; AppendBytes b x := b ++ be8 (len x) ++ x;
  ConsumeTag b := match b with x :: _ => (b2z x / 8, b2z x mod 8, 1) | [] => (0, 0, -1) end;
  ConsumeVarint b := (bev (take 8 b), 8);
  ConsumeBytes b := let n := Z.to_nat (bev (take 8 b)) in (take n (drop 8 b), 8 + Z.of_nat n);
  ConsumeFieldValue _ _ _ := -1; ParseError _ := "malformed"%string |}.

#[local] Instance demo_protowire_laws : ProtowireLaws demo_protowire.
Proof.
  split; try done.
  - intros n t rest [[-> ->]|[-> ->]]; vm_compute; reflexivity.
  - intros [|x b] n t k [= <- <- <-]; lia.
  - intros n t. simpl. lia.
  - intros v rest Hv. change ((bev (take 8 (be8 v ++ rest)), 8) = (v, len (be8 v))). destruct (be8_spec v Hv) as [H1 H2]. by rewrite take_app_length', H2, H1.
  - intros x rest Hx. destruct (be8_spec (len x) ltac:(lia)) as [H1 H2].
    change (let n := Z.to_nat (bev (take 8 ((be8 (len x) ++ x) ++ rest))) in (take n (drop 8 ((be8 (len x) ++ x) ++ rest)), 8 + Z.of_nat n) = (x, len (be8 (len x) ++ x))).
    rewrite <-app_assoc. cbv zeta.
    rewrite take_app_length', H2, Nat2Z.id, drop_app_length', take_app_length, length_app, H1 by done. f_equal. lia.
Qed.

Lemma identity_roundtrips_witness :
  let k := mk_pub (SC := demo_secp) tt in UnmarshalPubKey (Marshal k) = succeeds k /\ ParsePrivKey (PrivKey_Bytes (mk_priv (SC := demo_secp) tt)) = Ok (mk_priv (SC := demo_secp) tt).
Proof.
  destruct (identity_roundtrips (mk_pub (SC := demo_secp) tt) (mk_pub (SC := demo_secp) tt) (mk_priv (SC := demo_secp) tt) [] (repeat Byte.x04 32) eq_refl eq_refl)
    as (_ & H1 & _ & H2 & _). split; [exact H1|exact H2].
Defined.
