(* ===== verification/Enr.v ===== *)
(** * Enr: Ethereum node records (src/enr/enr.go, entry.go)

    [Decode] parses and verifies a record, [Sign] builds one.  The hash and the
    signature scheme are parameters (see [Identity]), the IP addresses are
    netip's.  A record's entries are a map from key to the raw RLP of the value.
    [None] is a panic. *)

From S2P Require Import Prelude Types Rlp Identity.
From stdpp Require Import pretty.
From Stdlib Require Strings.String.
Open Scope Z_scope.

#[local] Set Default Proof Using "Type".

Definition str (s : String.string) : bytes := String.list_byte_of_string s.
Definition quote (b : bytes) : error := String.string_of_list_byte b.

(** ** netip.Addr

    Invalid, four bytes, or sixteen bytes with a zone. *)

Inductive Addr := AddrInvalid | Addr4 (b : bytes) | Addr6 (b : bytes) (zone : String.string).

#[global] Instance Addr_eq_dec : EqDecision Addr.
Proof. solve_decision. Defined.

Definition addr_ok (a : Addr) : Prop :=
  match a with AddrInvalid => True | Addr4 b => length b = 4%nat | Addr6 b _ => length b = 16%nat end.

Definition IsValid (a : Addr) : bool := match a with AddrInvalid => false | _ => true end.
Definition Is4 (a : Addr) : bool := match a with Addr4 _ => true | _ => false end.
Definition Is6 (a : Addr) : bool := match a with Addr6 _ _ => true | _ => false end.
Definition Is4In6 (a : Addr) : bool :=
  match a with Addr6 b _ => bool_decide (take 12 b = repeat Byte.x00 10 ++ [Byte.xff; Byte.xff]) | _ => false end.
Definition Unmap (a : Addr) : Addr :=
  match a with Addr6 b _ => if Is4In6 a then Addr4 (drop 12 b) else a | _ => a end.
Definition IsUnspecified (a : Addr) : bool := bool_decide (a = Addr4 (repeat Byte.x00 4)) || bool_decide (a = Addr6 (repeat Byte.x00 16) String.EmptyString).
Definition IsMulticast (a : Addr) : bool :=
  match Unmap a with
  | Addr4 (x :: _) => Z.land (b2z x) 0xf0 =? 0xe0
  | Addr6 (x :: _) _ => b2z x =? 0xff
  | _ => false
  end.
Definition AsSlice (a : Addr) : bytes := match a with AddrInvalid => [] | Addr4 b => b | Addr6 b _ => b end.
Definition AddrFromSlice (b : bytes) : Addr :=
  if (length b =? 4)%nat then Addr4 b else if (length b =? 16)%nat then Addr6 b String.EmptyString else AddrInvalid.

(** Go compares strings and byte slices lexicographically. *)
Fixpoint bcompare (a b : bytes) : comparison :=
  match a, b with
  | [], [] => Eq
  | [], _ :: _ => Lt
  | _ :: _, [] => Gt
  | x :: a, y :: b => match (b2z x ?= b2z y) with Eq => bcompare a b | c => c end
  end.

Lemma bcompare_refl a : bcompare a a = Eq.
Proof. induction a as [|x a IH]; simpl; [done|]. by rewrite Z.compare_refl. Qed.
Lemma bcompare_eq a : forall b, bcompare a b = Eq -> a = b.
Proof.
  induction a as [|x a IH]; intros [|y b]; simpl; try done. destruct (b2z x ?= b2z y) eqn:E; try done. intros H.
  apply Z.compare_eq in E. by rewrite (b2z_inj x y E), (IH b H).
Qed.
Lemma bcompare_antisym a : forall b, bcompare b a = CompOpp (bcompare a b).
Proof. induction a as [|x a IH]; intros [|y b]; simpl; try done. rewrite (Z.compare_antisym (b2z x) (b2z y)). destruct (b2z x ?= b2z y); simpl; [apply IH|done|done]. Qed.
Lemma bcompare_trans a : forall b c, bcompare a b = Lt -> bcompare b c = Lt -> bcompare a c = Lt.
Proof.
  induction a as [|x a IH]; intros [|y b] [|z c]; simpl; try done.
  destruct (b2z x ?= b2z y) eqn:E1, (b2z y ?= b2z z) eqn:E2; try done; rewrite ?Z.compare_eq_iff, ?Z.compare_lt_iff in *;
    intros H1 H2; destruct (b2z x ?= b2z z) eqn:E3; rewrite ?Z.compare_eq_iff, ?Z.compare_lt_iff, ?Z.compare_gt_iff in *; try done; try lia.
  by apply (IH b).
Qed.

Definition blt (a b : bytes) : Prop := bcompare a b = Lt.
#[global] Instance blt_trans : Transitive blt.
Proof. intros a b c. apply bcompare_trans. Qed.
#[global] Instance blt_irrefl : Irreflexive blt.
Proof. intros a. unfold complement, blt. by rewrite bcompare_refl. Qed.

Definition maxRecordSize : nat := 300.
Definition ErrMissing : error := "ENR key is missing"%string.

Section enr.
Context {SC : Secp256k1} {PW : Protowire}.
Context (keccak256 : bytes -> bytes) (Addr_String : Addr -> error).

(** ** Entries

    [EntryApp] is an entry type an application declares. *)

Inductive Entry :=
| EntryIP (a : Addr)
| EntryIP6 (a : Addr)
| EntryQUIC (port : Z)
| EntryQUIC6 (port : Z)
| EntryID (id : bytes)
| EntrySecp256k1 (k : PubKey)
| EntryApp (key : bytes) (value : result error bytes).

Definition Key (e : Entry) : bytes :=
  match e with
  | EntryIP _ => str "ip"
  | EntryIP6 _ => str "ip6"
  | EntryQUIC _ => str "quic"
  | EntryQUIC6 _ => str "quic6"
  | EntryID _ => str "id"
  | EntrySecp256k1 _ => str "secp256k1"
  | EntryApp key _ => key
  end.

Definition checkIP (addr : Addr) (size : nat) : option error :=
  if negb (IsValid addr) then Some "invalid address"%string
  else if ((size =? 4)%nat && negb (Is4 addr)) || ((size =? 16)%nat && (negb (Is6 addr) || Is4In6 addr)) then
    Some ("address " ++ Addr_String addr ++ " is not " ++ pretty size ++ " bytes")%string
  else if IsUnspecified addr || IsMulticast addr then Some ("address " ++ Addr_String addr ++ " is unspecified or multicast")%string
  else None.

Definition marshalIP (addr : Addr) (size : nat) : result error bytes :=
  match checkIP addr size with Some e => Err e | None => Ok (encodeBytes (AsSlice addr)) end.

Definition unmarshalIP (raw : bytes) (size : nat) : option (result error Addr) :=
  lete payload := decodeBytes raw in
  if negb (length payload =? size)%nat then fails ("address must be " ++ pretty size ++ " bytes")
  else
    let addr := AddrFromSlice payload in
    match checkIP addr size with Some e => Some (Err e) | None => succeeds addr end.

Definition marshalPort (port : Z) : result error bytes :=
  if port =? 0 then Err "port 0"%string else Ok (encodeUint port).

Definition unmarshalPort (raw : bytes) : option (result error Z) :=
  lete item := decodeSingleRLP raw in
  lete port := decodeUint 2 item in
  if port =? 0 then fails "port 0" else succeeds port.

Definition unmarshalSecp256k1 (raw : bytes) : option (result error PubKey) :=
  lete compressed := decodeBytes raw in Some (ParsePubKey compressed).

Definition MarshalValue (e : Entry) : result error bytes :=
  match e with
  | EntryIP a => marshalIP (Unmap a) 4
  | EntryIP6 a => marshalIP a 16
  | EntryQUIC port | EntryQUIC6 port => marshalPort port
  | EntryID id => Ok (encodeBytes id)
  | EntrySecp256k1 k => Ok (encodeBytes (PubKey_Bytes k))
  | EntryApp _ value => value
  end.

Definition EndpointEntries (addr : Addr) (port : Z) : list Entry :=
  if Is6 (Unmap addr) then [EntryIP6 (Unmap addr); EntryQUIC6 port] else [EntryIP addr; EntryQUIC port].

(** ** Records *)

Record ENR := mk_record { r_raw : bytes; r_seq : Z; r_pub : PubKey; r_entries : gmap bytes bytes }.

(** [Record.Get] on the entries; [unmarshal] is the entry type's [UnmarshalValue]. *)
Definition Get {A} (key : bytes) (unmarshal : bytes -> option (result error A)) (entries : gmap bytes bytes) : option (result error A) :=
  match entries !! key with
  | None => fails (ErrMissing ++ ": " ++ quote key)
  | Some raw =>
      match unmarshal raw with
      | Some (Err e) => fails ("ENR key " ++ quote key ++ ": " ++ e)
      | r => r
      end
  end.

Definition GetID : gmap bytes bytes -> option (result error bytes) := Get (str "id") decodeBytes.
Definition GetSecp256k1 : gmap bytes bytes -> option (result error PubKey) := Get (str "secp256k1") unmarshalSecp256k1.
Definition GetIP : gmap bytes bytes -> option (result error Addr) := Get (str "ip") (fun raw => unmarshalIP raw 4).
Definition GetIP6 : gmap bytes bytes -> option (result error Addr) := Get (str "ip6") (fun raw => unmarshalIP raw 16).
Definition GetQUIC : gmap bytes bytes -> option (result error Z) := Get (str "quic") unmarshalPort.
Definition GetQUIC6 : gmap bytes bytes -> option (result error Z) := Get (str "quic6") unmarshalPort.

Definition Encode (r : ENR) : bytes := r_raw r.
Definition Seq (r : ENR) : Z := r_seq r.
Definition ENR_PeerID (r : ENR) : bytes := PubKey_PeerID (r_pub r).

Definition endpoint (ip : result error Addr) (port : result error Z) : list (Addr * Z) :=
  match ip, port with Ok a, Ok p => [(a, p)] | _, _ => [] end.

Definition QUIC (r : ENR) : option (list (Addr * Z)) :=
  letp ip := GetIP (r_entries r) in
  letp port := GetQUIC (r_entries r) in
  letp ip6 := GetIP6 (r_entries r) in
  letp port6 := GetQUIC6 (r_entries r) in
  Some (endpoint ip port ++ endpoint ip6 port6).

(** ** Decoding *)

(** The loop over the entries, two children at a time. *)
Fixpoint decode_entries (l : list rlpItem) (previous : option bytes) (entries : gmap bytes bytes) : option (result error (gmap bytes bytes)) :=
  match l with
  | [] => succeeds entries
  | [_] => None
  | key :: value :: l =>
      if decide (kind key <> rlpString) then fails "ENR key must be an RLP byte string"
      else if match previous with Some p => negb (bool_decide (bcompare p (payload key) = Lt)) | None => false end then
        fails "ENR keys must be strictly ascending"
      else decode_entries l (Some (payload key)) (<[payload key := raw value]> entries)
  end.

Definition wrap (prefix : error) {A} (r : option (result error A)) : option (result error A) :=
  match r with Some (Err e) => Some (Err (prefix ++ e)%string) | r => r end.

Definition Decode (raw : bytes) : option (result error ENR) :=
  if (maxRecordSize <? length raw)%nat then fails ("ENR exceeds " ++ pretty maxRecordSize ++ "-byte limit")
  else
    lete (root, rest) := wrap "invalid RLP: " (decodeRLP raw) in
    if negb (length rest =? 0)%nat then fails "trailing bytes after ENR"
    else if decide (kind root <> rlpList) then fails "ENR must be an RLP list"
    else if (length (children root) <? 2)%nat || negb ((length (children root) - 2) mod 2 =? 0)%nat then
      fails "ENR must contain a signature, sequence, and entries"
    else
      letp signature := children root !! 0%nat in
      if (if decide (kind signature = rlpString) then negb (length (payload signature) =? 64)%nat else true) then
        fails "ENR signature must contain 64 bytes"
      else
        letp seq_item := children root !! 1%nat in
        lete seq := wrap "invalid ENR sequence: " (decodeUint 8 seq_item) in
        lete entries := decode_entries (drop 2 (children root)) None ∅ in
        lete id := GetID entries in
        if negb (bool_decide (id = str "v4")) then fails ("ENR identity scheme " ++ quote id ++ " is not v4")
        else
          lete publicKey := GetSecp256k1 entries in
          let content := concat (Rlp.raw <$> drop 1 (children root)) in
          let hash := keccak256 (encodeRLPList content) in
          if negb (VerifyHash publicKey hash (payload signature)) then fails "invalid ENR signature"
          else succeeds (mk_record raw seq publicKey entries).

(** ** Signing *)

Abbreviation entry := (bytes * bytes)%type.

Definition encodeSignedContent (seq : Z) (entries : list entry) : bytes :=
  foldl (fun content e => (content ++ encodeBytes e.1) ++ e.2) (encodeUint seq) entries.

Definition key_le (a b : entry) : Prop := bcompare a.1 b.1 <> Gt.
#[global] Instance key_le_dec : RelDecision key_le.
Proof. intros a b. unfold key_le. apply _. Defined.

#[global] Instance key_le_trans : Transitive key_le.
Proof.
  intros a b c. unfold key_le. destruct (bcompare a.1 b.1) eqn:E1; [|destruct (bcompare b.1 c.1) eqn:E2|done].
  - apply bcompare_eq in E1. by rewrite E1.
  - apply bcompare_eq in E2. by rewrite <-E2, E1.
  - by rewrite (bcompare_trans _ _ _ E1 E2).
  - done.
Qed.
#[global] Instance key_le_total : Total key_le.
Proof. intros a b. unfold key_le. rewrite (bcompare_antisym b.1). destruct (bcompare b.1 a.1); simpl; auto. Qed.

(** [slices.SortFunc]: with two equal keys the order is unspecified, and the
    record is then rejected whichever comes first. *)
Definition signEntries (key : PrivKey) (seq : Z) (entries : list entry) : bytes :=
  let entries := merge_sort key_le entries in
  let content := encodeSignedContent seq entries in
  let signature := SignHash key (keccak256 (encodeRLPList content)) in
  encodeRLPList (encodeBytes signature ++ content).

Fixpoint marshal_all (l : list Entry) (signed : list entry) : result error (list entry) :=
  match l with
  | [] => Ok signed
  | e :: l => match MarshalValue e with
              | Err x => Err ("ENR key " ++ quote (Key e) ++ ": " ++ x)%string
              | Ok value => marshal_all l (signed ++ [(Key e, value)])
              end
  end.

(** [seq] is a [uint64]. *)
Definition Sign (key : option PrivKey) (seq : Z) (entries : list Entry) : option (result error ENR) :=
  match key with
  | None => fails "nil ENR signing key"
  | Some key =>
      match marshal_all ([EntryID (str "v4"); EntrySecp256k1 (Public key)] ++ entries) [] with
      | Err e => Some (Err e)
      | Ok signed => Decode (signEntries key seq signed)
      end
  end.

(** ** What a record is *)

Definition str_item (k : bytes) : rlpItem := mk_item rlpString k (encodeBytes k) [].

(** The children that the entries of a record are. *)
Definition items (es : list (bytes * rlpItem)) : list rlpItem := es ≫= fun e => [str_item e.1; e.2].

Definition sorted_from (previous : option bytes) (keys : list bytes) : Prop :=
  match previous with None => StronglySorted blt keys | Some p => StronglySorted blt (p :: keys) end.

Definition put (m : gmap bytes bytes) (e : bytes * rlpItem) : gmap bytes bytes := <[e.1 := Rlp.raw e.2]> m.

Lemma decode_entries_sound n : forall l prev m m',
  (length l <= n)%nat -> Forall item_wf l -> decode_entries l prev m = succeeds m' ->
  exists es, l = items es /\ Forall (fun e => item_wf e.2) es /\ sorted_from prev es.*1 /\ m' = foldl put m es.
Proof.
  induction n as [|n IH]; intros l prev m m' Hn Hw E.
  - destruct l; [|simpl in Hn; lia]. injection E as <-. exists []. split; [done|]. split; [done|]. split; [|done]. destruct prev; repeat constructor.
  - destruct l as [|k [|v l]]; [injection E as <-; exists []; split; [done|]; split; [done|]; split; [|done]; destruct prev; repeat constructor|done|].
    apply Forall_cons in Hw as [Hk Hw]. apply Forall_cons in Hw as [Hv Hw]. cbn [decode_entries] in E. case_decide as Hkind; [done|].
    pose proof (item_wf_string k Hk Hkind) as Ek.
    destruct (match prev with Some p => _ | None => _ end) eqn:Ep; [done|].
    destruct (IH l (Some (payload k)) (<[payload k := Rlp.raw v]> m) m') as (es & -> & Hes & Hs & ->); [simpl in Hn; lia|done|done|].
    exists ((payload k, v) :: es). split; [by rewrite Ek|]. split; [by constructor|]. split; [|done]. simpl in Hs |- *.
    destruct prev as [p|]; [|done]. apply negb_false_iff, bool_decide_eq_true in Ep. constructor; [done|]. constructor; [done|].
    apply StronglySorted_inv in Hs as [_ Hf]. eapply Forall_impl; [exact Hf|]. intros x Hx. by apply (bcompare_trans p (payload k) x).
Qed.

Lemma decode_entries_complete es : forall prev m, sorted_from prev es.*1 -> decode_entries (items es) prev m = succeeds (foldl put m es).
Proof.
  induction es as [|[k v] es IH]; intros prev m Hs; [done|]. cbn [items mbind list_bind app decode_entries kind str_item]. rewrite decide_False by (intros H; by apply H).
  simpl in Hs. assert (StronglySorted blt (k :: es.*1)) as Hk by (destruct prev; [by apply StronglySorted_inv in Hs as [? _]|done]).
  replace (match prev with Some p => negb (bool_decide (bcompare p (payload (str_item k)) = Lt)) | None => false end) with false.
  { by apply (IH (Some k)). }
  destruct prev as [p|]; [|done]. simpl. apply StronglySorted_inv in Hs as [_ Hf]. apply Forall_cons in Hf as [Hp _]. symmetry. apply negb_false_iff. by apply bool_decide_eq_true.
Qed.

Lemma foldl_put es : NoDup es.*1 -> foldl put ∅ es = list_to_map ((fun e => (e.1, Rlp.raw e.2)) <$> es).
Proof.
  induction es as [|[k v] es IH] using rev_ind; intros Hn; [done|]. rewrite fmap_app in Hn. apply NoDup_app in Hn as (Hn & Hd & _).
  rewrite foldl_app, fmap_app. simpl. rewrite IH by done. symmetry. apply list_to_map_snoc. intros Hin. apply (Hd k); [|simpl; by left].
  rewrite <-list_fmap_compose in Hin. exact Hin.
Qed.

Lemma sorted_NoDup ks : StronglySorted blt ks -> NoDup ks.
Proof.
  induction 1 as [|k ks _ IH Hf]; constructor; [|done]. intros Hin. rewrite Forall_forall in Hf. specialize (Hf k Hin).
  unfold blt in Hf. by rewrite bcompare_refl in Hf.
Qed.

Lemma content_spec seq l : encodeSignedContent seq l = encodeUint seq ++ concat ((fun e => encodeBytes e.1 ++ e.2) <$> l).
Proof.
  unfold encodeSignedContent. generalize (encodeUint seq). induction l as [|e l IH]; intros c; simpl; [by rewrite app_nil_r|]. by rewrite IH, <-!app_assoc.
Qed.

Lemma items_raw es : concat (Rlp.raw <$> items es) = concat ((fun e : entry => encodeBytes e.1 ++ e.2) <$> ((fun e : bytes * rlpItem => (e.1, Rlp.raw e.2)) <$> es)).
Proof. induction es as [|[k v] es IH]; [done|]. simpl. rewrite <-app_assoc. do 2 f_equal. exact IH. Qed.

Lemma entry_length seq l k v : (k, v) ∈ l -> (length v <= length (encodeSignedContent seq l))%nat.
Proof.
  intros Hin. rewrite content_spec, length_app. apply list_elem_of_split in Hin as (l1 & l2 & ->). rewrite fmap_app, concat_app, length_app. simpl. rewrite !length_app. lia.
Qed.

Record is_record (raw : bytes) (r : ENR) (signature : bytes) (l : list entry) : Prop := {
  ir_raw : r_raw r = raw;
  ir_size : (length raw <= maxRecordSize)%nat;
  ir_form : raw = encodeRLPList (encodeBytes signature ++ encodeSignedContent (r_seq r) l);
  ir_seq : 0 <= r_seq r < 2 ^ 64;
  ir_sig : length signature = 64%nat;
  ir_sorted : StronglySorted blt l.*1;
  ir_values : Forall (fun e => exists i, item_wf i /\ e.2 = Rlp.raw i) l;
  ir_entries : r_entries r = list_to_map l;
  ir_id : r_entries r !! str "id" = Some (encodeBytes (str "v4"));
  ir_key : exists pk, r_entries r !! str "secp256k1" = Some (encodeBytes pk) /\ ParsePubKey pk = Ok (r_pub r);
  ir_verify : VerifyHash (r_pub r) (keccak256 (encodeRLPList (encodeSignedContent (r_seq r) l))) signature = true }.

Lemma lookup_length l k v seq : (list_to_map l : gmap bytes bytes) !! k = Some v -> (length v <= length (encodeSignedContent seq l))%nat.
Proof. intros H. apply elem_of_list_to_map_2 in H. by eapply entry_length. Qed.

Lemma Get_succeeds {A} key (unmarshal : bytes -> option (result error A)) m a :
  Get key unmarshal m = succeeds a <-> exists raw, m !! key = Some raw /\ unmarshal raw = succeeds a.
Proof.
  unfold Get. split.
  - destruct (m !! key) as [raw|]; [|done]. destruct (unmarshal raw) as [[x|]|] eqn:E; [|done|done]. intros [= ->]. by exists raw.
  - intros (raw & -> & ->). done.
Qed.

Lemma content_parts seq l es : l = (fun e : bytes * rlpItem => (e.1, Rlp.raw e.2)) <$> es ->
  concat (Rlp.raw <$> uint_item seq :: items es) = encodeSignedContent seq l.
Proof. intros ->. rewrite content_spec, <-items_raw. done. Qed.

(** Reading the parts off a record's root item. *)
Lemma root_split root i0 i1 cs :
  item_wf root -> kind root = rlpList -> children root = i0 :: i1 :: cs ->
  Forall item_wf (i0 :: i1 :: cs) /\ Rlp.raw root = encodeRLPList (Rlp.raw i0 ++ concat (Rlp.raw <$> i1 :: cs)).
Proof. intros Hw. destruct Hw as [p|l Hl]; [done|]. simpl. intros _ ->. split; [done|]. done. Qed.

Lemma wrap_succeeds {A} prefix (r : option (result error A)) a : wrap prefix r = succeeds a <-> r = succeeds a.
Proof. unfold wrap. by destruct r as [[]|]. Qed.

Lemma ebind_succeeds {A B} (r : option (result error A)) (k : A -> option (result error B)) b :
  ebind r k = succeeds b <-> exists a, r = succeeds a /\ k a = succeeds b.
Proof.
  destruct r as [[a|]|]; simpl; (split; [intros H|intros (x & H1 & H2)]); try done; [by exists a|congruence].
Qed.

Lemma Decode_sound raw r : Decode raw = succeeds r -> exists signature l, is_record raw r signature l.
Proof.
  unfold Decode. destruct (_ <? _)%nat eqn:Esize; [done|]. apply Nat.ltb_ge in Esize. unfold maxRecordSize in Esize.
  intros H. apply ebind_succeeds in H as ([root rest] & H1 & H). rewrite wrap_succeeds in H1.
  destruct (length rest =? 0)%nat eqn:Er; [|done]. apply Nat.eqb_eq in Er. destruct rest; [|done]. cbn [negb] in H.
  apply decodeRLP_spec in H1 as [Hw Eraw]; [|lia]. rewrite app_nil_r in Eraw. case_decide as Hkl; [done|].
  destruct (_ || _) eqn:Elen; [done|]. apply orb_false_iff in Elen as [El _]. apply Nat.ltb_ge in El.
  destruct (children root) as [|i0 [|i1 cs]] eqn:Ech; [simpl in El; lia|simpl in El; lia|]. cbn [lookup list_lookup mbind option_bind] in H.
  destruct (root_split root i0 i1 cs Hw Hkl Ech) as [Hcs Hform]. apply Forall_cons in Hcs as [Hw0 Hcs]. apply Forall_cons in Hcs as [Hw1 Hcs].
  destruct (decide (kind i0 = rlpString)) as [Hk0|]; [|done]. destruct (length (payload i0) =? 64)%nat eqn:E64; [|done]. apply Nat.eqb_eq in E64. cbn [negb] in H.
  apply ebind_succeeds in H as (seq & Hseq & H). rewrite wrap_succeeds in Hseq. apply decodeUint_item in Hseq as [Hsr ->]; [|split; lia|done].
  apply ebind_succeeds in H as (m & Hm & H). simpl drop in Hm. rewrite drop_0 in Hm.
  destruct (decode_entries_sound _ _ _ _ _ (le_n _) Hcs Hm) as (es & -> & Hes & Hsorted & ->). simpl in Hsorted.
  rewrite foldl_put in H by (by apply sorted_NoDup). set (l := (fun e => (e.1, Rlp.raw e.2)) <$> es) in *.
  assert (Rlp.raw i0 = encodeBytes (payload i0)) as E0 by (by rewrite (item_wf_string i0 Hw0 Hk0)).
  rewrite (content_parts seq l es eq_refl), E0 in Hform.
  assert (length (encodeSignedContent seq l) < 300)%nat as Hcl.
  { pose proof (length_encodeRLPList (encodeBytes (payload i0) ++ encodeSignedContent seq l)) as Hx. rewrite <-Hform, <-Eraw, length_app in Hx. lia. }
  apply ebind_succeeds in H as (id & Hid & H). apply Get_succeeds in Hid as (rid & Erid & Hid).
  pose proof (lookup_length _ _ _ seq Erid). apply decodeBytes_spec in Hid; [|lia]. subst rid. case_bool_decide as Ev; [|done]. subst id. cbn [negb] in H.
  apply ebind_succeeds in H as (pub & Hpub & H). apply Get_succeeds in Hpub as (rpk & Erpk & Hpk). pose proof (lookup_length _ _ _ seq Erpk).
  unfold unmarshalSecp256k1 in Hpk. apply ebind_succeeds in Hpk as (pk & Hpk & Hparse). apply decodeBytes_spec in Hpk; [|lia]. subst rpk. injection Hparse as Hparse.
  cbv zeta in H. simpl drop in H.
  rewrite (content_parts seq l es eq_refl) in H. destruct (VerifyHash _ _ _) eqn:Evh; [|done]. injection H as <-.
  exists (payload i0), l. split; simpl; try done.
  - by rewrite <-Hform.
  - assert (l.*1 = es.*1) as -> by (unfold l; by rewrite <-list_fmap_compose). done.
  - unfold l. apply Forall_fmap. eapply Forall_impl; [exact Hes|]. intros e He. by exists e.2.
  - by exists pk.
Qed.

Lemma entries_items l :
  Forall (fun e : entry => exists i, item_wf i /\ e.2 = Rlp.raw i) l ->
  exists es : list (bytes * rlpItem), l = (fun e => (e.1, Rlp.raw e.2)) <$> es /\ Forall (fun e => item_wf e.2) es.
Proof.
  induction 1 as [|[k v] l (i & Hi & Ev) _ (es & -> & Hes)]; [by exists []|]. exists ((k, i) :: es). simpl in *. rewrite Ev. split; [done|by constructor].
Qed.

Lemma items_wf es : Forall (fun e => item_wf e.2) es -> Forall item_wf (items es).
Proof. induction 1 as [|e es He _ IH]; [constructor|]. unfold items. simpl. constructor; [constructor|]. by constructor. Qed.

Lemma length_items es : (length (items es) mod 2 = 0)%nat.
Proof.
  induction es as [|e es IH]; [done|]. change (length (items (e :: es))) with (2 + length (items es))%nat.
  rewrite (Nat.Div0.add_mod 2), IH. done.
Qed.

Lemma Decode_complete raw r signature l : is_record raw r signature l -> Decode raw = succeeds r.
Proof.
  intros [E1 Hsize Hform Hseq Hsig Hsorted Hvals Hent Hid (pk & Hpk & Hparse) Hver]. unfold maxRecordSize in Hsize.
  destruct (entries_items l Hvals) as (es & El & Hes). assert (es.*1 = l.*1) as Ekeys by (rewrite El, <-list_fmap_compose; done).
  set (cs := str_item signature :: uint_item (r_seq r) :: items es).
  assert (concat (Rlp.raw <$> cs) = encodeBytes signature ++ encodeSignedContent (r_seq r) l) as Hcs.
  { unfold cs. rewrite <-(content_parts (r_seq r) l es El). done. }
  set (root := mk_item rlpList (concat (Rlp.raw <$> cs)) raw cs).
  assert (item_wf root) as Hroot.
  { unfold root. rewrite Hform, <-Hcs. constructor. constructor; [constructor|]. constructor; [apply uint_item_wf|]. by apply items_wf. }
  assert (decodeRLP raw = succeeds (root, [])) as Hdec by (apply decodeRLP_spec; [lia|]; split; [done|by rewrite app_nil_r]).
  assert (length (encodeSignedContent (r_seq r) l) < 300)%nat as Hcl.
  { pose proof (length_encodeRLPList (encodeBytes signature ++ encodeSignedContent (r_seq r) l)) as Hx. rewrite <-Hform, length_app in Hx. lia. }
  unfold Decode. rewrite (proj2 (Nat.ltb_ge _ _)) by (unfold maxRecordSize; lia). rewrite Hdec. cbn [wrap ebind].
  change (length ([] : bytes) =? 0)%nat with true. cbn [negb]. rewrite decide_False by (intros H; by apply H). change (children root) with cs.
  assert (length cs = 2 + length (items es))%nat as Hlen by done. rewrite Hlen. rewrite (proj2 (Nat.ltb_ge _ _)) by lia.
  replace (2 + length (items es) - 2)%nat with (length (items es)) by lia. rewrite length_items. cbn [Nat.eqb negb orb].
  change (cs !! 0%nat) with (Some (str_item signature)). change (cs !! 1%nat) with (Some (uint_item (r_seq r))). cbn [mbind option_bind]. rewrite decide_True by done. change (payload (str_item signature)) with signature. rewrite Hsig. cbn [Nat.eqb negb].
  rewrite (proj2 (decodeUint_item 8 (uint_item (r_seq r)) (r_seq r) ltac:(split; lia) (uint_item_wf _))) by done. cbn [wrap ebind].
  change (drop 2 cs) with (items es). rewrite decode_entries_complete by (simpl; by rewrite Ekeys). cbn [ebind].
  rewrite foldl_put by (rewrite Ekeys; by apply sorted_NoDup). rewrite <-El, <-Hent.
  rewrite Hent in Hid, Hpk. pose proof (lookup_length _ _ _ (r_seq r) Hid). pose proof (lookup_length _ _ _ (r_seq r) Hpk). rewrite <-Hent in Hid, Hpk.
  assert (GetID (r_entries r) = succeeds (str "v4")) as -> by (apply Get_succeeds; eexists; split; [done|]; apply decodeBytes_spec; [lia|done]).
  cbn [ebind]. rewrite bool_decide_eq_true_2 by done. cbn [negb].
  assert (GetSecp256k1 (r_entries r) = succeeds (r_pub r)) as ->.
  { apply Get_succeeds. eexists. split; [done|]. unfold unmarshalSecp256k1. rewrite (proj2 (decodeBytes_spec (encodeBytes pk) pk ltac:(lia))) by done. cbn [ebind]. by rewrite Hparse. }
  cbn [ebind]. change (drop 1 cs) with (uint_item (r_seq r) :: items es).
  rewrite (content_parts (r_seq r) l es El), Hver. cbn [negb]. destruct r. simpl in *. by subst.
Qed.

(** C37. [Decode] accepts exactly the authentic canonical records: it returns a
    record if and only if the bytes are the canonical encoding, at most 300
    bytes, of a 64-byte signature, a sequence number and entries in strictly
    ascending key order with canonical values, the scheme is v4, and the
    signature verifies under the record's own key over exactly those contents. *)
Theorem Decode_exact raw r : Decode raw = succeeds r <-> exists signature l, is_record raw r signature l.
Proof. split; [apply Decode_sound|]. intros (signature & l & H). by eapply Decode_complete. Qed.

(** ** Decoding never panics *)

Lemma decodeRLP_Some input : decodeRLP input <> None.
Proof. apply decode_fuel_total. lia. Qed.

Lemma decode_entries_total n : forall l prev m, (length l <= n)%nat -> (length l mod 2 = 0)%nat -> decode_entries l prev m <> None.
Proof.
  induction n as [|n IH]; intros l prev m Hn He; [by destruct l; [|simpl in Hn; lia]|]. destruct l as [|k [|v l]]; [done|done|].
  cbn [decode_entries]. case_decide; [done|]. destruct (match prev with Some p => _ | None => _ end); [done|].
  apply IH; [simpl in Hn; lia|]. simpl in He. change (S (S (length l))) with (2 + length l)%nat in He. rewrite Nat.Div0.add_mod in He. simpl in He.
  by rewrite Nat.Div0.mod_mod in He.
Qed.

Lemma decodeSingleRLP_Some input : decodeSingleRLP input <> None.
Proof. unfold decodeSingleRLP. apply ebind_total; [apply decodeRLP_Some|]. intros [i rest] _. by destruct (_ =? 0)%nat. Qed.
Lemma decodeBytes_Some input : decodeBytes input <> None.
Proof. unfold decodeBytes. apply ebind_total; [apply decodeSingleRLP_Some|]. intros i _. by case_decide. Qed.
Lemma decodeUint_Some size i : decodeUint size i <> None.
Proof. unfold decodeUint. case_decide; [|done]. destruct (_ <? _)%nat; [done|]. destruct (payload i) as [|b p]; [done|]. by destruct (b2z b =? 0). Qed.
Lemma wrap_Some {A} prefix (r : option (result error A)) : r <> None -> wrap prefix r <> None.
Proof. by destruct r as [[]|]. Qed.
Lemma Get_Some {A} key (unmarshal : bytes -> option (result error A)) m : (forall raw, unmarshal raw <> None) -> Get key unmarshal m <> None.
Proof. intros H. unfold Get. destruct (m !! key) as [raw|]; [|done]. specialize (H raw). by destruct (unmarshal raw) as [[]|]. Qed.
Lemma unmarshalIP_Some raw size : unmarshalIP raw size <> None.
Proof.
  unfold unmarshalIP. apply ebind_total; [apply decodeBytes_Some|]. intros p _. destruct (negb _); [done|]. by destruct (checkIP _ _).
Qed.
Lemma unmarshalPort_Some raw : unmarshalPort raw <> None.
Proof.
  unfold unmarshalPort. apply ebind_total; [apply decodeSingleRLP_Some|]. intros i _. apply ebind_total; [apply decodeUint_Some|]. intros p _. by destruct (p =? 0).
Qed.

Lemma Decode_Some raw : Decode raw <> None.
Proof.
  unfold Decode. destruct (_ <? _)%nat; [done|]. apply ebind_total; [apply wrap_Some, decodeRLP_Some|]. intros [root rest] _.
  destruct (negb _); [done|]. case_decide; [done|]. destruct (_ || _) eqn:El; [done|]. apply orb_false_iff in El as [El Em]. apply Nat.ltb_ge in El.
  apply negb_false_iff, Nat.eqb_eq in Em. destruct (children root) as [|i0 [|i1 cs]]; [simpl in El; lia|simpl in El; lia|]. cbn [lookup list_lookup mbind option_bind].
  destruct (if decide _ then _ else _); [done|]. apply ebind_total; [apply wrap_Some, decodeUint_Some|]. intros seq _.
  apply ebind_total; [apply (decode_entries_total (length cs)); [simpl; rewrite drop_0; lia|simpl; rewrite drop_0; simpl in Em; by rewrite Nat.sub_0_r in Em]|].
  intros m _. apply ebind_total; [apply Get_Some, decodeBytes_Some|]. intros id _. destruct (negb _); [done|].
  apply ebind_total; [|intros pub _; by destruct (negb _)]. apply Get_Some. intros r. unfold unmarshalSecp256k1. by apply ebind_total; [apply decodeBytes_Some|].
Qed.

(** ** Signing *)

(** An entry whose value is one canonical RLP item, as [MarshalValue] promises. *)
Definition canonical (e : Entry) : Prop := forall v, MarshalValue e = Ok v -> exists i, item_wf i /\ v = Rlp.raw i.

Lemma canonical_builtin e : match e with EntryApp _ _ => False | _ => True end -> canonical e.
Proof.
  assert (forall p, exists i, item_wf i /\ encodeBytes p = Rlp.raw i) as Hs by (intros p; exists (str_item p); split; [constructor|done]).
  assert (forall a n v, marshalIP a n = Ok v -> exists i, item_wf i /\ v = Rlp.raw i) as Hip.
  { intros a n v. unfold marshalIP. destruct (checkIP a n); [done|]. intros [= <-]. apply Hs. }
  assert (forall p v, marshalPort p = Ok v -> exists i, item_wf i /\ v = Rlp.raw i) as Hp.
  { intros p v. unfold marshalPort. destruct (p =? 0); [done|]. intros [= <-]. exists (uint_item p). split; [apply uint_item_wf|done]. }
  intros He v E. destruct e; simpl in E; [by eapply Hip|by eapply Hip|by eapply Hp|by eapply Hp| | |done]; injection E as <-; apply Hs.
Qed.

Lemma marshal_all_spec l : forall acc signed, marshal_all l acc = Ok signed ->
  exists vs, signed = acc ++ vs /\ vs.*1 = Key <$> l /\ Forall2 (fun e kv => MarshalValue e = Ok kv.2) l vs.
Proof.
  induction l as [|e l IH]; intros acc signed E; simpl in E; [injection E as <-; exists []; by rewrite app_nil_r|].
  destruct (MarshalValue e) as [v|x] eqn:Ev; [|done]. destruct (IH _ _ E) as (vs & -> & Hk & Hv). exists ((Key e, v) :: vs).
  rewrite <-app_assoc. split; [done|]. split; [by rewrite !fmap_cons, Hk|by constructor].
Qed.

Lemma sorted_keys (l : list entry) : StronglySorted key_le l -> NoDup l.*1 -> StronglySorted blt l.*1.
Proof.
  induction 1 as [|e l _ IH Hf]; intros Hn; [constructor|]. apply NoDup_cons in Hn as [Hnin Hn]. constructor; [by apply IH|].
  apply Forall_fmap, Forall_forall. rewrite Forall_forall in Hf. intros e' He'. specialize (Hf e' He'). unfold key_le in Hf. simpl. unfold blt. destruct (bcompare e.1 e'.1) eqn:E; [|done|done].
  exfalso. apply Hnin. apply bcompare_eq in E. rewrite E. by apply list_elem_of_fmap_2.
Qed.

Lemma items_inj es : forall es', items es = items es' -> es = es'.
Proof.
  induction es as [|[k v] es IH]; intros [|[k' v'] es'] E; [done|done|done|]. unfold items in E. simpl in E. injection E as -> _ -> E. f_equal. by apply IH.
Qed.

(** The item a signed record decodes to, whatever the order of its keys. *)
Lemma signed_root seq signature l (es : list (bytes * rlpItem)) :
  l = (fun e => (e.1, Rlp.raw e.2)) <$> es -> Forall (fun e => item_wf e.2) es ->
  let raw := encodeRLPList (encodeBytes signature ++ encodeSignedContent seq l) in (length raw <= 300)%nat ->
  exists p, decodeRLP raw = succeeds (mk_item rlpList p raw (str_item signature :: uint_item seq :: items es), []).
Proof.
  intros El Hes raw Hl. set (cs := str_item signature :: uint_item seq :: items es).
  assert (concat (Rlp.raw <$> cs) = encodeBytes signature ++ encodeSignedContent seq l) as Hcs by (unfold cs; by rewrite <-(content_parts seq l es El)).
  exists (concat (Rlp.raw <$> cs)). apply decodeRLP_spec; [lia|]. split; [|by rewrite app_nil_r]. unfold raw. rewrite <-Hcs. constructor.
  constructor; [constructor|]. constructor; [apply uint_item_wf|]. by apply items_wf.
Qed.

(** A record that decodes had distinct keys. *)
Lemma Decode_distinct seq signature l r :
  Forall (fun e : entry => exists i, item_wf i /\ e.2 = Rlp.raw i) l ->
  Decode (encodeRLPList (encodeBytes signature ++ encodeSignedContent seq l)) = succeeds r -> NoDup l.*1.
Proof.
  intros Hv E. pose proof E as E'. destruct (entries_items l Hv) as (es & El & Hes). apply Decode_sound in E' as (sg & l' & Hr).
  destruct (signed_root seq signature l es El Hes (ir_size _ _ _ _ Hr)) as [p Hp]. unfold Decode in E.
  rewrite (proj2 (Nat.ltb_ge _ _)) in E by apply (ir_size _ _ _ _ Hr). rewrite Hp in E. cbn [wrap ebind] in E.
  change (length ([] : bytes) =? 0)%nat with true in E. cbn [negb children kind] in E. rewrite decide_False in E by (intros H; by apply H).
  destruct (_ || _) in E; [done|]. cbn [lookup list_lookup mbind option_bind] in E. destruct (if decide _ then _ else _) in E; [done|].
  apply ebind_succeeds in E as (s' & _ & E). apply ebind_succeeds in E as (m & Hm & _). change (drop 2 _) with (items es) in Hm.
  destruct (decode_entries_sound _ _ _ _ _ (le_n _) (items_wf es Hes) Hm) as (es' & Ees & _ & Hs & _). apply items_inj in Ees as <-. simpl in Hs.
  rewrite El, <-list_fmap_compose. by apply sorted_NoDup.
Qed.

Lemma signed_entries key es signed :
  Forall canonical es -> marshal_all ([EntryID (str "v4"); EntrySecp256k1 (Public key)] ++ es) [] = Ok signed ->
  Forall (fun e : entry => exists i, item_wf i /\ e.2 = Rlp.raw i) signed /\
  (str "id", encodeBytes (str "v4")) ∈ signed /\ (str "secp256k1", encodeBytes (PubKey_Bytes (Public key))) ∈ signed.
Proof.
  intros Hcan Hm. destruct (marshal_all_spec es [(str "id", encodeBytes (str "v4")); (str "secp256k1", encodeBytes (PubKey_Bytes (Public key)))] signed Hm) as (vs & -> & _ & Hv).
  split; [|split; [by left|right; by left]]. apply Forall_app. split.
  - repeat constructor; [by exists (str_item (str "v4")); split; [constructor|]|by exists (str_item (PubKey_Bytes (Public key))); split; [constructor|]].
  - clear -Hv Hcan. induction Hv as [|e kv l vs He _ IH]; [constructor|]. apply Forall_cons in Hcan as [H1 H2]. constructor; [by apply H1|by apply IH].
Qed.

Context {SL : Secp256k1Laws SC}.
Hypothesis keccak_len : forall m, length (keccak256 m) = 32%nat.

Lemma Sign_spec key seq es signed :
  0 <= seq < 2 ^ 64 -> Forall canonical es ->
  marshal_all ([EntryID (str "v4"); EntrySecp256k1 (Public key)] ++ es) [] = Ok signed ->
  match Sign (Some key) seq es with
  | Some (Ok r) => NoDup signed.*1 /\ (length (Encode r) <= maxRecordSize)%nat /\ Seq r = seq /\ r_pub r = Public key /\
                   r_entries r = list_to_map signed /\ Decode (Encode r) = succeeds r
  | Some (Err _) => ~ NoDup signed.*1 \/ (maxRecordSize < length (signEntries key seq signed))%nat
  | None => False
  end.
Proof using SL keccak_len.
  intros Hseq Hcan Hm. unfold Sign. rewrite Hm. set (raw := signEntries key seq signed).
  destruct (signed_entries key es signed Hcan Hm) as (Hvals & Hid & Hpk).
  assert (signed ≡ₚ merge_sort key_le signed) as Hperm by (symmetry; apply merge_sort_Permutation).
  set (l := merge_sort key_le signed) in *. assert (Forall (fun e : entry => exists i, item_wf i /\ e.2 = Rlp.raw i) l) as Hvl by (by rewrite <-Hperm).
  set (sg := SignHash key (keccak256 (encodeRLPList (encodeSignedContent seq l)))).
  destruct (VerifyHash_SignHash key (keccak256 (encodeRLPList (encodeSignedContent seq l))) (keccak_len _)) as [Hsg Hver]. fold sg in Hsg, Hver.
  assert (raw = encodeRLPList (encodeBytes sg ++ encodeSignedContent seq l)) as Hraw by done.
  set (r0 := mk_record raw seq (Public key) (list_to_map l)).
  assert (NoDup signed.*1 -> (length raw <= maxRecordSize)%nat -> Decode raw = succeeds r0 /\ r_entries r0 = list_to_map signed) as Hgood.
  { intros Hnd Hsz. assert (list_to_map l = (list_to_map signed : gmap bytes bytes)) as El by (symmetry; by apply list_to_map_proper). split; [|done].
    eapply (Decode_complete raw r0 sg l). split; try done; simpl; rewrite ?El; [|by apply elem_of_list_to_map_1|exists (PubKey_Bytes (Public key)); split; [by apply elem_of_list_to_map_1|apply ParsePubKey_Bytes]].
    apply sorted_keys; [apply StronglySorted_merge_sort; apply _|by rewrite <-Hperm]. }
  destruct (Decode raw) as [[r|x]|] eqn:Ed; [| |by apply Decode_Some in Ed].
  - assert (NoDup signed.*1) as Hnd by (rewrite Hperm; rewrite Hraw in Ed; by eapply Decode_distinct).
    pose proof Ed as Ed'. apply Decode_sound in Ed' as (sg' & l' & Hr). pose proof (ir_size _ _ _ _ Hr) as Hsz.
    destruct (Hgood Hnd Hsz) as [[= ->] He]. by repeat (split; [done|]).
  - destruct (decide (NoDup signed.*1)) as [Hnd|]; [|by left]. right. destruct (decide (length raw <= maxRecordSize)%nat) as [Hsz|]; [|lia].
    by destruct (Hgood Hnd Hsz) as [[=] _].
Qed.

(** C38. [Sign] signs exactly what can be read back: for entries whose values are
    canonical, it returns a record if and only if no key appears twice, [id] and
    [secp256k1] included, and the record fits its limit; the record then has the
    sequence number, the signer's key and exactly the entries given, and it
    decodes to itself. *)
Theorem Sign_exact key seq es signed :
  0 <= seq < 2 ^ 64 -> Forall canonical es ->
  marshal_all ([EntryID (str "v4"); EntrySecp256k1 (Public key)] ++ es) [] = Ok signed ->
  match Sign (Some key) seq es with
  | Some (Ok r) => NoDup signed.*1 /\ (length (Encode r) <= maxRecordSize)%nat /\ Seq r = seq /\ r_pub r = Public key /\
                   r_entries r = list_to_map signed /\ Decode (Encode r) = succeeds r
  | Some (Err _) => ~ NoDup signed.*1 \/ (maxRecordSize < length (signEntries key seq signed))%nat
  | None => False
  end.
Proof using SL keccak_len. apply Sign_spec. Qed.

(** ** Endpoints *)

(** What an address entry may hold: reachable, and of the entry's own width. *)
Definition usable (size : nat) (a : Addr) : Prop :=
  length (AsSlice a) = size /\ IsUnspecified a = false /\ IsMulticast a = false /\
  if (size =? 4)%nat then Is4 a = true else Is6 a = true /\ Is4In6 a = false.

Lemma checkIP_usable a size : addr_ok a -> size = 4%nat \/ size = 16%nat -> checkIP a size = None <-> usable size a.
Proof.
  intros Hok Hs. unfold checkIP, usable. destruct a as [|b|b z]; simpl in Hok.
  - split; [done|]. intros (H & _). simpl in H. destruct Hs; lia.
  - destruct Hs as [-> | ->]; simpl; [|rewrite Hok; naive_solver]. destruct (IsUnspecified (Addr4 b)), (IsMulticast (Addr4 b)); naive_solver.
  - destruct Hs as [-> | ->]; cbn [IsValid Is4 Is6 negb Nat.eqb andb orb AsSlice]; [rewrite Hok; naive_solver|].
    destruct (Is4In6 (Addr6 b z)), (IsUnspecified (Addr6 b z)), (IsMulticast (Addr6 b z)); naive_solver.
Qed.

Lemma AddrFromSlice_ok b : addr_ok (AddrFromSlice b).
Proof. unfold AddrFromSlice. destruct (length b =? 4)%nat eqn:E; [by apply Nat.eqb_eq in E|]. destruct (length b =? 16)%nat eqn:E'; [by apply Nat.eqb_eq in E'|done]. Qed.

Lemma AsSlice_from b : length b = 4%nat \/ length b = 16%nat -> AsSlice (AddrFromSlice b) = b.
Proof. intros [H|H]; unfold AddrFromSlice; rewrite H; done. Qed.

Lemma unmarshalIP_sound raw size a :
  len raw < 2 ^ 63 -> size = 4%nat \/ size = 16%nat -> unmarshalIP raw size = succeeds a -> usable size a /\ raw = encodeBytes (AsSlice a).
Proof.
  intros Hl Hs E. unfold unmarshalIP in E. apply ebind_succeeds in E as (p & Hp & E). apply decodeBytes_spec in Hp; [|done].
  destruct (length p =? size)%nat eqn:El; [|done]. apply Nat.eqb_eq in El. cbn [negb] in E. cbv zeta in E. destruct (checkIP (AddrFromSlice p) size) eqn:Ec; [done|]. injection E as <-.
  split; [apply checkIP_usable; [apply AddrFromSlice_ok|done|done]|]. rewrite AsSlice_from; [done|]. destruct Hs as [-> | ->]; auto.
Qed.

Lemma unmarshalIP_marshalIP a size v :
  addr_ok a -> size = 4%nat \/ size = 16%nat -> AddrFromSlice (AsSlice a) = a -> marshalIP a size = Ok v -> unmarshalIP v size = succeeds a.
Proof.
  intros Hok Hs Hz E. unfold marshalIP in E. destruct (checkIP a size) eqn:Ec; [done|]. injection E as <-. pose proof Ec as Eu. apply checkIP_usable in Eu as [Hl _]; [|done|done].
  assert (len (encodeBytes (AsSlice a)) < 2 ^ 63) as Hlt.
  { destruct (encodeBytes_cases (AsSlice a)) as [(x & _ & _ & ->)|[-> _]]; [done|]. rewrite Hl. destruct Hs as [-> | ->]; simpl; rewrite Hl; lia. }
  unfold unmarshalIP. rewrite (proj2 (decodeBytes_spec _ (AsSlice a) Hlt)) by done. cbn [ebind]. rewrite Hl, Nat.eqb_refl. cbn [negb]. cbv zeta. by rewrite Hz, Ec.
Qed.

Lemma unmarshalPort_spec raw p : len raw < 2 ^ 63 -> unmarshalPort raw = succeeds p <-> 0 < p < 2 ^ 16 /\ raw = encodeUint p.
Proof.
  intros Hl. unfold unmarshalPort. split.
  - intros E. apply ebind_succeeds in E as (i & Hi & E). apply ebind_succeeds in E as (v & Hv & E). destruct (v =? 0) eqn:E0; [done|]. apply Z.eqb_neq in E0. injection E as ->.
    apply decodeSingleRLP_spec in Hi as [Hw ->]; [|done]. apply decodeUint_item in Hv as [Hr ->]; [|split; lia|done]. simpl in Hr. split; [lia|done].
  - intros [Hp ->]. rewrite (proj2 (decodeSingleRLP_spec _ (uint_item p) Hl)) by (split; [apply uint_item_wf|done]). cbn [ebind].
    rewrite (proj2 (decodeUint_item 2 (uint_item p) p ltac:(split; lia) (uint_item_wf _))) by (split; [simpl; lia|done]). cbn [ebind].
    by rewrite (proj2 (Z.eqb_neq _ _)) by lia.
Qed.

Lemma endpoint_elem ip port a p : (a, p) ∈ endpoint ip port <-> ip = Ok a /\ port = Ok p.
Proof.
  unfold endpoint. destruct ip, port; rewrite ?list_elem_of_singleton, ?elem_of_nil; [|by split; [|intros [??]]..].
  split; [by intros [= -> ->]|by intros [[= ->] [= ->]]].
Qed.

(** [QUIC] returns only endpoints one can dial: for every record [Decode]
    returned, it does not panic, each address is a unicast one that is not
    unspecified and not an IPv4 address in disguise, each port is between 1 and
    65535, and the IPv4 endpoint comes first. *)
Theorem QUIC_usable raw r :
  Decode raw = succeeds r ->
  exists l4 l6, QUIC r = Some (l4 ++ l6) /\ (length l4 <= 1)%nat /\ (length l6 <= 1)%nat /\
    (forall a p, (a, p) ∈ l4 -> usable 4 a /\ 0 < p < 2 ^ 16) /\ (forall a p, (a, p) ∈ l6 -> usable 16 a /\ 0 < p < 2 ^ 16).
Proof.
  intros Hd. apply Decode_sound in Hd as (sg & l & Hr).
  assert (forall k v, r_entries r !! k = Some v -> len v < 2 ^ 63) as Hlen.
  { intros k v Hk. rewrite (ir_entries _ _ _ _ Hr) in Hk. pose proof (lookup_length _ _ _ (r_seq r) Hk).
    pose proof (length_encodeRLPList (encodeBytes sg ++ encodeSignedContent (r_seq r) l)) as Hx. rewrite <-(ir_form _ _ _ _ Hr), length_app in Hx.
    pose proof (ir_size _ _ _ _ Hr). unfold maxRecordSize in *. lia. }
  unfold QUIC. destruct (GetIP (r_entries r)) as [ip|] eqn:E1; [|by apply Get_Some in E1; [|intros; apply unmarshalIP_Some]].
  destruct (GetQUIC (r_entries r)) as [port|] eqn:E2; [|by apply Get_Some in E2; [|apply unmarshalPort_Some]].
  destruct (GetIP6 (r_entries r)) as [ip6|] eqn:E3; [|by apply Get_Some in E3; [|intros; apply unmarshalIP_Some]].
  destruct (GetQUIC6 (r_entries r)) as [port6|] eqn:E4; [|by apply Get_Some in E4; [|apply unmarshalPort_Some]].
  cbn [mbind option_bind]. exists (endpoint ip port), (endpoint ip6 port6). split; [done|].
  assert (forall i p, (length (endpoint i p) <= 1)%nat) as Hl1 by (intros [] []; simpl; lia). split; [apply Hl1|]. split; [apply Hl1|].
  split; intros a p [-> ->]%endpoint_elem.
  - apply Get_succeeds in E1 as (rw & Hk & E1). apply Get_succeeds in E2 as (rw' & Hk' & E2). apply unmarshalIP_sound in E1 as [E1 _]; [|by eapply Hlen|by left].
    apply unmarshalPort_spec in E2 as [E2 _]; [done|by eapply Hlen].
  - apply Get_succeeds in E3 as (rw & Hk & E3). apply Get_succeeds in E4 as (rw' & Hk' & E4). apply unmarshalIP_sound in E3 as [E3 _]; [|by eapply Hlen|by right].
    apply unmarshalPort_spec in E4 as [E4 _]; [done|by eapply Hlen].
Qed.

Lemma Unmap_cases a : addr_ok a -> addr_ok (Unmap a) /\ Is4In6 (Unmap a) = false \/ exists b, Unmap a = Addr4 b /\ length b = 4%nat.
Proof.
  destruct a as [|b|b z]; simpl; [by left|by left|]. intros Hb. case_bool_decide as E; [right|left; split; [done|simpl; by rewrite bool_decide_eq_false_2]].
  exists (drop 12 b). by rewrite length_drop, Hb.
Qed.

Lemma marshal_two e1 e2 acc signed : marshal_all [e1; e2] acc = Ok signed ->
  exists v1 v2, MarshalValue e1 = Ok v1 /\ MarshalValue e2 = Ok v2 /\ signed = acc ++ [(Key e1, v1); (Key e2, v2)].
Proof.
  simpl. destruct (MarshalValue e1) as [v1|]; [|done]. destruct (MarshalValue e2) as [v2|]; [|done]. intros [= <-]. exists v1, v2. by rewrite <-app_assoc.
Qed.

(** Reading one key off a concrete list of entries. *)
Lemma Get_in {A} key (unmarshal : bytes -> option (result error A)) (l : list entry) v r :
  NoDup l.*1 -> (key, v) ∈ l -> unmarshal v = succeeds r -> Get key unmarshal (list_to_map l) = succeeds r.
Proof. intros Hn Hin E. apply Get_succeeds. exists v. split; [by apply elem_of_list_to_map_1|done]. Qed.

Lemma Get_out {A} key (unmarshal : bytes -> option (result error A)) (l : list entry) :
  key ∉ l.*1 -> exists e, Get key unmarshal (list_to_map l) = Some (Err e).
Proof. intros Hn. unfold Get. rewrite not_elem_of_list_to_map_1 by done. by eexists. Qed.

Lemma out4 k1 v1 k2 v2 {i s : bytes} (key : bytes) :
  bool_decide (key ∉ [str "id"; str "secp256k1"; k1; k2]) = true -> key ∉ ([(str "id", i); (str "secp256k1", s)] ++ [(k1, v1); (k2, v2)] : list entry).*1.
Proof. intros H. by apply bool_decide_eq_true in H. Qed.

(** An address without a zone, as a socket has it. *)
Definition unzoned (a : Addr) : Prop := match a with Addr6 _ z => z = String.EmptyString | _ => True end.

(** An advertised endpoint is the one that is read back: if a record signed
    with the entries of an endpoint (an address without a zone and a port) is
    accepted, [QUIC] of it is that endpoint alone, an IPv4-mapped address as
    the IPv4 address it stands for. *)
Theorem endpoint_advertised key seq a port r :
  0 <= seq < 2 ^ 64 -> addr_ok a -> unzoned a -> 0 <= port < 2 ^ 16 ->
  Sign (Some key) seq (EndpointEntries a port) = succeeds r -> QUIC r = Some [(Unmap a, port)].
Proof using SL keccak_len.
  intros Hseq Hok Hz Hport E.
  assert (exists signed, marshal_all ([EntryID (str "v4"); EntrySecp256k1 (Public key)] ++ EndpointEntries a port) [] = Ok signed) as [signed Hm].
  { unfold Sign in E. destruct (marshal_all _ _) as [signed|]; [by exists signed|done]. }
  assert (Forall canonical (EndpointEntries a port)) as Hcan by (unfold EndpointEntries; destruct (Is6 (Unmap a)); repeat constructor; by apply canonical_builtin).
  pose proof (Sign_spec key seq (EndpointEntries a port) signed Hseq Hcan Hm) as Hs. rewrite E in Hs. destruct Hs as (Hnd & _ & _ & _ & Hent & _).
  change (marshal_all (EndpointEntries a port) [(str "id", encodeBytes (str "v4")); (str "secp256k1", encodeBytes (PubKey_Bytes (Public key)))] = Ok signed) in Hm.
  assert (forall v, marshalPort port = Ok v -> unmarshalPort v = succeeds port) as Hp.
  { intros v. unfold marshalPort. destruct (port =? 0) eqn:E0; [done|]. apply Z.eqb_neq in E0. intros [= <-]. apply unmarshalPort_spec; [|split; [lia|done]].
    pose proof (length_encodeUint port). lia. }
  set (vi := encodeBytes (str "v4")) in *. set (vs := encodeBytes (PubKey_Bytes (Public key))) in *. clearbody vi vs.
  unfold EndpointEntries in Hm. destruct (Is6 (Unmap a)) eqn:E6; apply marshal_two in Hm as (v1 & v2 & H1 & H2 & ->); cbn [MarshalValue Key] in *.
  - destruct (Get_out (str "ip") (fun raw => unmarshalIP raw 4) _ (out4 (i := vi) (s := vs) (str "ip6") v1 (str "quic6") v2 (str "ip") eq_refl)) as [e1 G1].
    destruct (Get_out (str "quic") unmarshalPort _ (out4 (i := vi) (s := vs) (str "ip6") v1 (str "quic6") v2 (str "quic") eq_refl)) as [e2 G2].
    rewrite <-Hent in G1, G2. assert (GetQUIC6 (r_entries r) = succeeds port) as G4 by (rewrite Hent; apply (Get_in _ _ _ v2); [done|do 3 right; left|by apply Hp]).
    assert (GetIP6 (r_entries r) = succeeds (Unmap a)) as G3; [|unfold QUIC, GetIP, GetQUIC; by rewrite G1, G2, G3, G4].
    rewrite Hent. apply (Get_in _ _ _ v1); [done|do 2 right; left|].
    destruct a as [|b|b z]; [done|done|]. simpl in Hok, Hz. subst z. destruct (Is4In6 (Addr6 b String.EmptyString)) eqn:Ein; [by simpl in *; rewrite Ein in E6|].
    assert (Unmap (Addr6 b String.EmptyString) = Addr6 b String.EmptyString) as Eu by (unfold Unmap; by rewrite Ein). rewrite Eu in *.
    apply unmarshalIP_marshalIP; [done|by right| |done]. simpl. unfold AddrFromSlice. by rewrite Hok.
  - destruct (Get_out (str "ip6") (fun raw => unmarshalIP raw 16) _ (out4 (i := vi) (s := vs) (str "ip") v1 (str "quic") v2 (str "ip6") eq_refl)) as [e1 G1].
    destruct (Get_out (str "quic6") unmarshalPort _ (out4 (i := vi) (s := vs) (str "ip") v1 (str "quic") v2 (str "quic6") eq_refl)) as [e2 G2].
    rewrite <-Hent in G1, G2. assert (GetQUIC (r_entries r) = succeeds port) as G4 by (rewrite Hent; apply (Get_in _ _ _ v2); [done|do 3 right; left|by apply Hp]).
    assert (GetIP (r_entries r) = succeeds (Unmap a)) as G3; [|unfold QUIC, GetIP6, GetQUIC6; by rewrite G1, G2, G3, G4].
    rewrite Hent. apply (Get_in _ _ _ v1); [done|do 2 right; left|].
    assert (exists b, Unmap a = Addr4 b /\ length b = 4%nat) as (b & Eu & Hb).
    { destruct (Unmap_cases a Hok) as [[Hu _]|?]; [|done]. destruct (Unmap a) as [|b|b z]; [done|by exists b|done]. }
    rewrite Eu in *. apply unmarshalIP_marshalIP; [done|by left| |done]. simpl. unfold AddrFromSlice. by rewrite Hb.
Qed.

(** The unspecified IPv6 address with a zone passes the check when it is signed,
    since netip does not call it unspecified, and the zone is not encoded: the
    value that is published is one that [UnmarshalValue] rejects. *)
Theorem zoned_unspecified_signed :
  exists v, MarshalValue (EntryIP6 (Addr6 (repeat Byte.x00 16) "eth0")) = Ok v /\ exists e, unmarshalIP v 16 = Some (Err e).
Proof. by do 2 eexists; [|eexists]. Qed.
End enr.

(** ** A concrete record

    Signed with the toy key of [Identity], advertising 1.2.3.4:9000. *)

Definition demo_keccak (_ : bytes) : bytes := repeat Byte.x05 32.
Definition demo_addr : Addr := Addr4 [Byte.x01; Byte.x02; Byte.x03; Byte.x04].
Definition demo_entries : list (@Entry demo_secp) := EndpointEntries demo_addr 9000.
Definition demo_sign : option (result error (@ENR demo_secp)) :=
  Sign demo_keccak (fun _ => "1.2.3.4"%string) (Some (mk_priv (SC := demo_secp) tt)) 7 demo_entries.

Lemma demo_signed : exists r, demo_sign = succeeds r.
Proof.
  assert (match demo_sign with Some (Ok _) => true | _ => false end = true) as H by (vm_compute; reflexivity).
  destruct demo_sign as [[r|]|]; [by exists r|discriminate|discriminate].
Qed.

Lemma demo_canonical : Forall (canonical (SC := demo_secp) (fun _ => "1.2.3.4"%string)) demo_entries.
Proof. repeat constructor; by apply canonical_builtin. Qed.

Lemma Sign_exact_witness :
  exists r, demo_sign = succeeds r /\ Seq r = 7 /\ Decode demo_keccak (Encode r) = succeeds r.
Proof.
  destruct demo_signed as [r Hr]. exists r. split; [exact Hr|].
  destruct (marshal_all (SC := demo_secp) (fun _ => "1.2.3.4"%string) ([EntryID (str "v4"); EntrySecp256k1 (Public (mk_priv (SC := demo_secp) tt))] ++ demo_entries) []) as [signed|] eqn:Em; [|vm_compute in Em; discriminate].
  pose proof (Sign_exact (SL := demo_secp_laws) demo_keccak (fun _ => "1.2.3.4"%string) (fun _ => eq_refl) (mk_priv (SC := demo_secp) tt) 7 demo_entries signed ltac:(lia) demo_canonical Em) as H.
  change (match demo_sign with
  | Some (Ok r) => NoDup signed.*1 /\ (length (Encode r) <= maxRecordSize)%nat /\ Seq r = 7 /\ r_pub r = Public (mk_priv (SC := demo_secp) tt) /\
                   r_entries r = list_to_map signed /\ Decode demo_keccak (Encode r) = succeeds r
  | Some (Err _) => ~ NoDup signed.*1 \/ (maxRecordSize < length (signEntries demo_keccak (mk_priv (SC := demo_secp) tt) 7 signed))%nat
  | None => False end) in H.
  rewrite Hr in H. destruct H as (_ & _ & H1 & _ & _ & H2). split; [exact H1|exact H2].
Defined.

Lemma endpoint_advertised_witness :
  exists r, demo_sign = succeeds r /\ QUIC (fun _ => "1.2.3.4"%string) r = Some [(demo_addr, 9000)].
Proof.
  destruct demo_signed as [r Hr]. exists r. split; [exact Hr|].
  exact (endpoint_advertised (SL := demo_secp_laws) demo_keccak (fun _ => "1.2.3.4"%string) (fun _ => eq_refl) (mk_priv (SC := demo_secp) tt) 7 demo_addr 9000 r
    ltac:(lia) eq_refl I ltac:(lia) Hr).
Defined.

Lemma QUIC_usable_witness :
  exists (r : @ENR demo_secp) (l4 l6 : list (Addr * Z)), Decode demo_keccak (Encode r) = succeeds r /\ QUIC (fun _ => "1.2.3.4"%string) r = Some (l4 ++ l6) /\
    forall a p, (a, p) ∈ l4 -> usable 4 a /\ 0 < p < 2 ^ 16.
Proof.
  destruct demo_signed as [r Hr].
  assert (Decode demo_keccak (Encode r) = succeeds r) as Hd.
  { destruct (marshal_all (SC := demo_secp) (fun _ => "1.2.3.4"%string) ([EntryID (str "v4"); EntrySecp256k1 (Public (mk_priv (SC := demo_secp) tt))] ++ demo_entries) []) as [signed|] eqn:Em; [|vm_compute in Em; discriminate].
    pose proof (Sign_spec (SL := demo_secp_laws) demo_keccak (fun _ => "1.2.3.4"%string) (fun _ => eq_refl) (mk_priv (SC := demo_secp) tt) 7 demo_entries signed ltac:(lia) demo_canonical Em) as H.
    unfold demo_sign in Hr. rewrite Hr in H. apply H. }
  destruct (QUIC_usable demo_keccak (fun _ => "1.2.3.4"%string) (Encode r) r Hd) as (l4 & l6 & H1 & _ & _ & H2 & _).
  exists r, l4, l6. split; [exact Hd|]. split; [exact H1|exact H2].
Defined.
