(* ===== verification/Control.v ===== *)
(** * Control: the frames of the control stream (src/control/control.go)

    HELLO and GOAWAY over [Wire].  The protobuf codec of the two messages is a
    parameter: marshalling may fail, unmarshalling returns the message and
    whether unknown fields were left. *)

From S2P Require Import Prelude Wire Types.
From stdpp Require Import pretty.
Open Scope Z_scope.

Definition ControlFamily : Z := 0.
Definition ControlSelector : Selector := mk_selector ControlFamily 0.
Definition MaxFamilies : nat := 1024.
Definition maxControlFrame : Z := Z.shiftl 16 10.
Definition helloFrame : Z := 0.
Definition goAwayFrame : Z := 1.

Definition errInvalidFamilies : error := "invalid family list"%string.

(** The loop of [ValidateFamilies]; [previous] is [families[i-1]]. *)
Fixpoint validate_loop (previous : option Z) (families : list Z) : option error :=
  match families with
  | [] => None
  | family :: rest =>
      if (family =? ControlFamily) || (family =? ReservedFamily) then
        Some (errInvalidFamilies ++ ": family " ++ pretty family ++ " is never announced")%string
      else if match previous with Some p => family <=? p | None => false end then
        Some (errInvalidFamilies ++ ": families must be strictly ascending")%string
      else validate_loop (Some family) rest
  end.

Definition ValidateFamilies (families : list Z) : option error :=
  if (MaxFamilies <? length families)%nat then Some (errInvalidFamilies ++ ": maximum is " ++ pretty MaxFamilies)%string
  else validate_loop None families.

(** The generated messages. *)
Record Hello := mk_Hello { hello_families : list Z; hello_record : bytes }.
Record GoAway := mk_GoAway { goaway_code : Z }.
Record PeerHello := mk_PeerHello { ph_families : list Z; ph_record : bytes }.

Inductive control_err :=
| ErrSelector (e : sel_err)
| ErrFrame (e : frame_err)
| errNotControlStream
| errUnexpectedControlFrame
| errUnknownControlField
| ErrUnmarshal (e : error)
| ErrFamilies (e : error).

Section control.
Context (marshalHello : Hello -> result error bytes) (unmarshalHello : bytes -> result error (Hello * bool)).
Context (marshalGoAway : GoAway -> result error bytes) (unmarshalGoAway : bytes -> result error (GoAway * bool)).

Definition HelloBytes (families : list Z) (record : bytes) : result error bytes :=
  let msg := mk_Hello (u32 <$> families) record in
  match marshalHello msg with
  | Err e => Err e
  | Ok raw =>
      if Z.of_nat (length raw) >? maxControlFrame then Err "frame too large"%string
      else Ok (AppendFrame (AppendSelector [] ControlSelector) helloFrame raw)
  end.

Definition readControlFrame {M} (unmarshal : bytes -> result error (M * bool)) (want : Z) (r : reader) : result control_err M * reader :=
  match ReadFrame r maxControlFrame with
  | (Err e, r) => (Err (ErrFrame e), r)
  | (Ok (typ, raw), r) =>
      if negb (typ =? want) then (Err errUnexpectedControlFrame, r)
      else match unmarshal raw with
           | Err e => (Err (ErrUnmarshal e), r)
           | Ok (m, unknown) => (if unknown : bool then Err errUnknownControlField else Ok m, r)
           end
  end.

(** [None] is [ReadSelector]'s panic. *)
Definition ReadHello (r : reader) : option (result control_err PeerHello) * reader :=
  match ReadSelector r with
  | (None, r) => (None, r)
  | (Some (Err e), r) => (Some (Err (ErrSelector e)), r)
  | (Some (Ok sel), r) =>
      if decide (sel <> ControlSelector) then (Some (Err errNotControlStream), r)
      else match readControlFrame unmarshalHello helloFrame r with
           | (Err e, r) => (Some (Err e), r)
           | (Ok msg, r) =>
               let h := mk_PeerHello (hello_families msg) (hello_record msg) in
               match ValidateFamilies (ph_families h) with
               | Some e => (Some (Err (ErrFamilies e)), r)
               | None => (Some (Ok h), r)
               end
           end
  end.

(** nil when the message does not marshal. *)
Definition GoAwayBytes (code : Code) : option bytes :=
  match marshalGoAway (mk_GoAway (Z.shiftr (Wire.Wire code) 1)) with
  | Err _ => None
  | Ok raw => Some (AppendFrame [] goAwayFrame raw)
  end.

Definition ReadGoAway (r : reader) : result control_err Code * reader :=
  match readControlFrame unmarshalGoAway goAwayFrame r with
  | (Err e, r) => (Err e, r)
  | (Ok msg, r) =>
      if goaway_code msg <=? Z.shiftr (2 ^ 64 - 1) 1 then (Ok (ParseCode (u64 (Z.shiftl (goaway_code msg) 1))), r)
      else (Ok Unspecified, r)
  end.

(** ** Families *)

(** What a peer may announce. *)
Definition families_ok (families : list Z) : Prop :=
  (length families <= MaxFamilies)%nat /\ StronglySorted Z.lt families /\ ControlFamily ∉ families /\ ReservedFamily ∉ families.

Lemma validate_loop_spec families : forall previous,
  validate_loop previous families = None <->
  StronglySorted Z.lt (option_list previous ++ families) /\ ControlFamily ∉ families /\ ReservedFamily ∉ families.
Proof.
  induction families as [|f l IH]; intros previous; simpl.
  - split; [intros _|done]. split; [destruct previous; repeat constructor|]. split; apply not_elem_of_nil.
  - rewrite !not_elem_of_cons. destruct ((f =? ControlFamily) || (f =? ReservedFamily)) eqn:E1.
    { split; [done|]. intros (_ & [H1 _] & [H2 _]). apply orb_true_iff in E1 as [E1|E1]; apply Z.eqb_eq in E1; congruence. }
    apply orb_false_iff in E1 as [E1 E1']. apply Z.eqb_neq in E1, E1'.
    destruct (match previous with Some p => f <=? p | None => false end) eqn:E2.
    { split; [done|]. intros (Hs & _). destruct previous as [p|]; [|done]. apply Z.leb_le in E2. simpl in Hs. apply StronglySorted_inv in Hs as [_ Hf].
      apply Forall_cons in Hf as [Hf _]. lia. }
    rewrite IH. simpl. destruct previous as [p|]; simpl; [|naive_solver]. apply Z.leb_gt in E2. split; [intros (Hs & A & B)|intros (Hs & [_ A] & [_ B])].
    + split; [|naive_solver]. constructor; [done|]. constructor; [done|]. apply StronglySorted_inv in Hs as [_ Hf]. eapply Forall_impl; [exact Hf|]. simpl. intros x Hx. lia.
    + split; [|done]. by apply StronglySorted_inv in Hs as [? _].
Qed.

Lemma ValidateFamilies_spec families : ValidateFamilies families = None <-> families_ok families.
Proof.
  unfold ValidateFamilies, families_ok. destruct (MaxFamilies <? length families)%nat eqn:E; [apply Nat.ltb_lt in E|apply Nat.ltb_ge in E].
  - split; [done|]. intros (H & _). lia.
  - rewrite validate_loop_spec. simpl. naive_solver.
Qed.

(** ** Round trips *)

(** proto: what was marshalled is read back without unknown fields. *)
Hypothesis hello_proto : forall m raw, marshalHello m = Ok raw -> unmarshalHello raw = Ok (m, false).
Hypothesis goaway_proto : forall m raw, marshalGoAway m = Ok raw -> unmarshalGoAway raw = Ok (m, false).

Lemma u32_families l : Forall (fun f => 0 <= f < 2 ^ 32) l -> u32 <$> l = l.
Proof. induction 1 as [|f l Hf _ IH]; [done|]. simpl. rewrite u32_small by done. f_equal. exact IH. Qed.

Lemma readControlFrame_append {M} (unmarshal : bytes -> result error (M * bool)) want raw m rest e :
  want = helloFrame \/ want = goAwayFrame -> Z.of_nat (length raw) <= maxControlFrame -> unmarshal raw = Ok (m, false) ->
  readControlFrame unmarshal want (mk_reader (AppendFrame [] want raw ++ rest) e) = (Ok m, mk_reader rest e).
Proof.
  intros Hw Hl Hu. unfold readControlFrame. rewrite ReadFrame_append; [|destruct Hw as [-> | ->]; unfold helloFrame, goAwayFrame; lia|done|done].
  rewrite Z.eqb_refl. simpl. by rewrite Hu.
Qed.

Lemma ReadHello_bytes families record b rest e :
  families_ok families -> Forall (fun f => 0 <= f < 2 ^ 32) families -> HelloBytes families record = Ok b ->
  ReadHello (mk_reader (b ++ rest) e) = (Some (Ok (mk_PeerHello families record)), mk_reader rest e).
Proof using hello_proto.
  intros Hok H32 E. unfold HelloBytes in E. rewrite u32_families in E by done.
  destruct (marshalHello _) as [raw|] eqn:Em; [|done]. destruct (_ >? _) eqn:El; [done|]. rewrite Z.gtb_ltb in El. apply Z.ltb_ge in El. injection E as <-.
  unfold ReadHello. rewrite AppendFrame_dst, <-app_assoc.
  rewrite (proj1 ReadSelector_both) by (unfold selector_ok, ControlSelector, ControlFamily, ReservedFamily; simpl; lia).
  rewrite decide_False by (intros H; by apply H). rewrite (readControlFrame_append _ _ raw (mk_Hello families record)); [|by left|done|by apply hello_proto].
  simpl. by rewrite (proj2 (ValidateFamilies_spec families)).
Qed.

(** HELLO is read back: for a family list that [ValidateFamilies] accepts and
    any record, [ReadHello] of the bytes [HelloBytes] returns yields the same
    families and record and leaves exactly what follows; and whatever list a
    peer sends, the one [ReadHello] returns has at most 1024 families, strictly
    ascending, without the control and the reserved family. *)
Theorem hello_roundtrip :
  (forall families record b rest e, families_ok families -> Forall (fun f => 0 <= f < 2 ^ 32) families -> HelloBytes families record = Ok b ->
     ReadHello (mk_reader (b ++ rest) e) = (Some (Ok (mk_PeerHello families record)), mk_reader rest e)) /\
  (forall r h r', ReadHello r = (Some (Ok h), r') -> families_ok (ph_families h)).
Proof using hello_proto.
  split.
  - exact ReadHello_bytes.
  - intros r h r' E. unfold ReadHello in E. destruct (ReadSelector r) as [[[sel|]|] r1]; [|done..]. case_decide; [done|].
    destruct (readControlFrame _ _ _) as [[msg|] r2]; [|done]. simpl in E. destruct (ValidateFamilies (hello_families msg)) eqn:Ev; [done|]. injection E as <- <-.
    by apply ValidateFamilies_spec.
Qed.

(** GOAWAY is read back: for every stack code whose message fits a control
    frame, [ReadGoAway] of the bytes [GoAwayBytes] returns yields the code and
    leaves exactly what follows. *)
Theorem goaway_roundtrip code b rest e :
  is_stack_code (code_value code) = true -> code_protocol code = false ->
  (forall raw, marshalGoAway (mk_GoAway (code_value code)) = Ok raw -> Z.of_nat (length raw) <= maxControlFrame) ->
  GoAwayBytes code = Some b -> ReadGoAway (mk_reader (b ++ rest) e) = (Ok code, mk_reader rest e).
Proof using goaway_proto.
  intros Hc Hp Hl E. pose proof (is_stack_code_range _ Hc) as Hr. assert (code_ok code = true) as Hok by (unfold code_ok; by rewrite Hp).
  pose proof (Wire_value code Hok) as Hw. rewrite Hp, Z.add_0_r in Hw. unfold GoAwayBytes in E. rewrite Hw, Z.shiftr_div_pow2 in E by lia.
  replace (2 * code_value code / 2 ^ 1) with (code_value code) in E by (change (2 ^ 1) with 2; rewrite Z.mul_comm, Z.div_mul; lia).
  destruct (marshalGoAway _) as [raw|] eqn:Em; [|done]. injection E as <-. unfold ReadGoAway.
  rewrite (readControlFrame_append _ _ raw (mk_GoAway (code_value code))); [|by right|by apply Hl|by apply goaway_proto]. simpl.
  rewrite (proj2 (Z.leb_le _ _)) by (change (Z.shiftr (2 ^ 64 - 1) 1) with (2 ^ 63 - 1); lia).
  rewrite Z.shiftl_mul_pow2, u64_small by lia. replace (code_value code * 2 ^ 1) with (2 * code_value code) by lia. rewrite ParseCode_even by lia. rewrite Hc.
  destruct code as [v pr]. simpl in *. by subst.
Qed.
End control.

(** ** Instances: a codec that knows one message of each kind *)

#[global] Instance Hello_eq_dec : EqDecision Hello.
Proof. solve_decision. Defined.

Definition demo_hello : Hello := mk_Hello [3; 7] [Byte.x2a].
Definition demo_marshalHello (m : Hello) : result error bytes := if decide (m = demo_hello) then Ok [Byte.x01] else Err "unknown"%string.
Definition demo_unmarshalHello (b : bytes) : result error (Hello * bool) := if decide (b = [Byte.x01]) then Ok (demo_hello, false) else Err "unknown"%string.
Definition demo_marshalGoAway (m : GoAway) : result error bytes := if goaway_code m =? 10 then Ok [Byte.x0a] else Err "unknown"%string.
Definition demo_unmarshalGoAway (b : bytes) : result error (GoAway * bool) := if decide (b = [Byte.x0a]) then Ok (mk_GoAway 10, false) else Err "unknown"%string.

Lemma demo_hello_proto m raw : demo_marshalHello m = Ok raw -> demo_unmarshalHello raw = Ok (m, false).
Proof. unfold demo_marshalHello. case_decide; [|done]. intros [= <-]. by subst. Qed.
Lemma demo_goaway_proto m raw : demo_marshalGoAway m = Ok raw -> demo_unmarshalGoAway raw = Ok (m, false).
Proof. unfold demo_marshalGoAway. destruct (goaway_code m =? 10) eqn:E; [|done]. apply Z.eqb_eq in E. intros [= <-]. destruct m. simpl in E. by subst. Qed.

Lemma demo_families_ok : families_ok [3; 7].
Proof.
  split; [unfold MaxFamilies; simpl; lia|]. split; [repeat constructor; lia|]. unfold ControlFamily, ReservedFamily. rewrite !not_elem_of_cons.
  split; repeat split; try lia; apply not_elem_of_nil.
Qed.

Lemma hello_roundtrip_witness :
  let b := [Byte.x00; Byte.x00; Byte.x00; Byte.x01; Byte.x01] in
  HelloBytes demo_marshalHello [3; 7] [Byte.x2a] = Ok b /\
  ReadHello demo_unmarshalHello (mk_reader (b ++ [Byte.xff]) EOF) = (Some (Ok (mk_PeerHello [3; 7] [Byte.x2a])), mk_reader [Byte.xff] EOF).
Proof.
  intros b. assert (HelloBytes demo_marshalHello [3; 7] [Byte.x2a] = Ok b) as Hb by (vm_compute; reflexivity). split; [exact Hb|].
  apply (proj1 (hello_roundtrip demo_marshalHello demo_unmarshalHello demo_hello_proto)); [exact demo_families_ok|repeat constructor; lia|exact Hb].
Defined.

Lemma goaway_roundtrip_witness :
  let b := [Byte.x01; Byte.x01; Byte.x0a] in
  GoAwayBytes demo_marshalGoAway Closing = Some b /\ ReadGoAway demo_unmarshalGoAway (mk_reader (b ++ []) EOF) = (Ok Closing, mk_reader [] EOF).
Proof.
  intros b. assert (GoAwayBytes demo_marshalGoAway Closing = Some b) as Hb by (vm_compute; reflexivity). split; [exact Hb|].
  apply (goaway_roundtrip demo_marshalGoAway demo_unmarshalGoAway demo_goaway_proto Closing); [reflexivity|reflexivity| |exact Hb].
  intros raw E. vm_compute in E. injection E as <-. vm_compute. discriminate.
Defined.
