(* ===== verification/View.v ===== *)
(** * View: a shared QUIC connection and its two views (src/transport/conn.go,
    errors.go, [libp2pConn] of libp2p.go)

    One authenticated connection serves libp2p and ethp2p.  Two dispatchers
    accept its incoming streams; a bidirectional one is classified by its first
    byte in a goroutine of its own and queued for one of the views.  Either view
    may be released at any time by several goroutines at once; the raw connection
    closes when both are.  A state has the program counters of the dispatchers,
    classifiers and releases; a step is one action of one of them, so runs have
    every interleaving.  quic-go is the environment: which streams it accepts,
    what peeking at one returns and how the connection ends. *)

From S2P Require Import Prelude Wire Types Queue CtrlOut Session Reader Engine PeerIo.
Open Scope Z_scope.

#[local] Set Default Proof Using "Type".

(** ** Errors and codes (errors.go) *)

Inductive conn_err :=
| ViewClosedError (c : Code) (remote : bool)
| ErrViewClosed
| ApplicationError (raw : Z) (remote : bool)
| TransportError | StatelessResetError | IdleTimeoutError
| OtherError (timed : bool).

#[global] Instance conn_timeouts : Timeouts conn_err :=
  fun e => match e with IdleTimeoutError => true | OtherError t => t | _ => false end.

Definition ethp2pError (e : conn_err) : conn_err :=
  match e with
  | ApplicationError raw remote =>
      if negb remote || Z.odd raw then e
      else let code := ParseCode raw in
           if negb (Wire.Wire code =? raw) then e else ViewClosedError code true
  | _ => e
  end.

Definition ConnectionClosed (e : conn_err) : bool :=
  match e with ApplicationError _ _ | TransportError | StatelessResetError | IdleTimeoutError => true | _ => false end.

(** [cause] is the cause of the view's context, [endpoint] whether the endpoint
    has shut down. *)
Definition CloseCode (cause : conn_err) (endpoint : bool) : Code :=
  match ethp2pError cause with
  | ViewClosedError c _ => c
  | e => if endpoint then Closing else TimeoutOr e Unspecified
  end.

(** ** State *)

Inductive side := Libp2p | Ethp2p.

#[global] Instance side_eq_dec : EqDecision side.
Proof. solve_decision. Defined.

Definition side_bit (s : side) : Z := match s with Libp2p => Z.shiftl 1 0 | Ethp2p => Z.shiftl 1 1 end.

Definition maxStreamsPendingClassify : nat := 4.

(** A release by the goroutine that claimed it: [last] is whether it closes the
    connection, with [raw]. *)
Inductive rel_pc := Held | Claimed (last : bool) (raw : Z) (cause : conn_err) | Cancelled (last : bool) (raw : Z) | Draining (last : bool) | Released (last : bool).

(** [drainBidi]: waiting for a token, in [AcceptStream]; [drainUni] likewise. *)
Inductive bi_pc := BiTop | BiAccept | BiDone.
Inductive uni_pc := UniAccept | UniCheck (x : nat) | UniPush (x : nat) | UniDone.
(** A classifier: peeking, or about to push. *)
Inductive stage := Peeking | Pushing (s : side).

Record conn := mk_conn {
  v_closed : Z;
  v_rel : side -> rel_pc;
  v_raw : option conn_err;                 (* why the connection's context ended *)
  v_cause : side -> option conn_err;       (* why the view's did *)
  v_queue : side -> fifo nat;              (* bidirectional *)
  v_uniQ : fifo nat;
  v_sem : nat; v_bi : bi_pc; v_uni : uni_pc;
  v_jobs : list (nat * stage);
  v_hold : list nat;                       (* popped by libp2p's AcceptStream, not checked yet *)
  v_calls : list Z;                        (* CloseWithError on the connection *)
  v_accBi : list nat; v_accUni : list nat; (* accepted *)
  v_gotBi : list nat; v_gotUni : list nat; (* handed to a view's user *)
  v_ended : list (nat * Code);             (* reset *)
  v_lost : list nat }.                     (* ended with the connection *)

Definition fset {A} (s : side) (a : A) (f : side -> A) : side -> A := fun x => if decide (x = s) then a else f x.

Implicit Types (v : conn).

Definition newConn : conn :=
  mk_conn 0 (fun _ => Held) None (fun _ => None) (fun _ => newFIFO) newFIFO maxStreamsPendingClassify BiTop UniAccept [] [] [] [] [] [] [] [] [].

Definition set_claim closed s pc v := mk_conn closed (fset s pc (v_rel v)) (v_raw v) (v_cause v) (v_queue v) (v_uniQ v) (v_sem v) (v_bi v) (v_uni v) (v_jobs v) (v_hold v) (v_calls v) (v_accBi v) (v_accUni v) (v_gotBi v) (v_gotUni v) (v_ended v) (v_lost v).
Definition set_rel s pc v := set_claim (v_closed v) s pc v.
Definition set_causes r c v := mk_conn (v_closed v) (v_rel v) r c (v_queue v) (v_uniQ v) (v_sem v) (v_bi v) (v_uni v) (v_jobs v) (v_hold v) (v_calls v) (v_accBi v) (v_accUni v) (v_gotBi v) (v_gotUni v) (v_ended v) (v_lost v).
Definition set_queue s q v := mk_conn (v_closed v) (v_rel v) (v_raw v) (v_cause v) (fset s q (v_queue v)) (v_uniQ v) (v_sem v) (v_bi v) (v_uni v) (v_jobs v) (v_hold v) (v_calls v) (v_accBi v) (v_accUni v) (v_gotBi v) (v_gotUni v) (v_ended v) (v_lost v).
Definition set_uniQ q v := mk_conn (v_closed v) (v_rel v) (v_raw v) (v_cause v) (v_queue v) q (v_sem v) (v_bi v) (v_uni v) (v_jobs v) (v_hold v) (v_calls v) (v_accBi v) (v_accUni v) (v_gotBi v) (v_gotUni v) (v_ended v) (v_lost v).
Definition set_bi n pc jobs v := mk_conn (v_closed v) (v_rel v) (v_raw v) (v_cause v) (v_queue v) (v_uniQ v) n pc (v_uni v) jobs (v_hold v) (v_calls v) (v_accBi v) (v_accUni v) (v_gotBi v) (v_gotUni v) (v_ended v) (v_lost v).
Definition set_uni pc v := mk_conn (v_closed v) (v_rel v) (v_raw v) (v_cause v) (v_queue v) (v_uniQ v) (v_sem v) (v_bi v) pc (v_jobs v) (v_hold v) (v_calls v) (v_accBi v) (v_accUni v) (v_gotBi v) (v_gotUni v) (v_ended v) (v_lost v).
Definition set_hold h v := mk_conn (v_closed v) (v_rel v) (v_raw v) (v_cause v) (v_queue v) (v_uniQ v) (v_sem v) (v_bi v) (v_uni v) (v_jobs v) h (v_calls v) (v_accBi v) (v_accUni v) (v_gotBi v) (v_gotUni v) (v_ended v) (v_lost v).
Definition add_call c v := mk_conn (v_closed v) (v_rel v) (v_raw v) (v_cause v) (v_queue v) (v_uniQ v) (v_sem v) (v_bi v) (v_uni v) (v_jobs v) (v_hold v) (v_calls v ++ [c]) (v_accBi v) (v_accUni v) (v_gotBi v) (v_gotUni v) (v_ended v) (v_lost v).
Definition add_accepted b u v := mk_conn (v_closed v) (v_rel v) (v_raw v) (v_cause v) (v_queue v) (v_uniQ v) (v_sem v) (v_bi v) (v_uni v) (v_jobs v) (v_hold v) (v_calls v) (v_accBi v ++ b) (v_accUni v ++ u) (v_gotBi v) (v_gotUni v) (v_ended v) (v_lost v).
Definition add_got b u v := mk_conn (v_closed v) (v_rel v) (v_raw v) (v_cause v) (v_queue v) (v_uniQ v) (v_sem v) (v_bi v) (v_uni v) (v_jobs v) (v_hold v) (v_calls v) (v_accBi v) (v_accUni v) (v_gotBi v ++ b) (v_gotUni v ++ u) (v_ended v) (v_lost v).
Definition add_ended e l v := mk_conn (v_closed v) (v_rel v) (v_raw v) (v_cause v) (v_queue v) (v_uniQ v) (v_sem v) (v_bi v) (v_uni v) (v_jobs v) (v_hold v) (v_calls v) (v_accBi v) (v_accUni v) (v_gotBi v) (v_gotUni v) (v_ended v ++ e) (v_lost v ++ l).

(** ** Releases *)

Definition first_cause (c : option conn_err) (e : conn_err) : option conn_err := match c with Some e' => Some e' | None => Some e end.

(** A view's context ends; the first cause stays. *)
Definition cancel_view (s : side) (e : conn_err) v : conn := set_causes (v_raw v) (fset s (first_cause (v_cause v s) e) (v_cause v)) v.

(** The connection's context ends, and with it both views'. *)
Definition raw_ends (e : conn_err) v : conn :=
  match v_raw v with
  | Some _ => v
  | None => set_causes (Some e) (fun s => first_cause (v_cause v s) e) v
  end.

(** [claimRelease]: the returned flags are [first] and [last]. *)
Definition claimRelease (want : side) v : bool * bool * Z :=
  let prev := v_closed v in
  (Z.land prev (side_bit want) =? 0, Z.lor prev (side_bit want) =? Z.lor (side_bit Libp2p) (side_bit Ethp2p), Z.lor prev (side_bit want)).

(** [closeSide], claimed: a later call does nothing. *)
Definition close_claim (want : side) (raw : Z) (cause : conn_err) v : conn :=
  let '(first, last, closed) := claimRelease want v in
  if first : bool then set_claim closed want (Claimed last raw cause) v else v.

(** [CloseWithCode], and [CloseWithError] of the libp2p view. *)
Definition CloseWithCode (c : Code) v : conn := close_claim Ethp2p (Wire.Wire c) (ViewClosedError c false) v.
Definition libp2p_CloseWithError (raw : Z) v : conn := close_claim Libp2p raw ErrViewClosed v.

(** The queued streams are reset with [Closing]. *)
Definition drain_queues (want : side) v : conn :=
  let '(l, q) := sq_close (v_queue v want) in
  let v := add_ended ((fun x => (x, Closing)) <$> l) [] (set_queue want q v) in
  match want with
  | Libp2p => v
  | Ethp2p => let '(l, q) := sq_close (v_uniQ v) in add_ended ((fun x => (x, Closing)) <$> l) [] (set_uniQ q v)
  end.

(** The rest of [closeSide], one action at a time. *)
Definition close_next (want : side) v : option conn :=
  match v_rel v want with
  | Claimed last raw cause => Some (set_rel want (Cancelled last raw) (cancel_view want cause v))
  | Cancelled last raw =>
      Some (set_rel want (Draining last) (if last : bool then raw_ends (ApplicationError raw false) (add_call raw v) else v))
  | Draining last => Some (set_rel want (Released last) (drain_queues want v))
  | Held | Released _ => None
  end.

(** ** Dispatchers *)

Definition multistreamFirstByte : Z := 19.

Inductive peeked := PeekByte (b : byte) | PeekErr (peerReset timed : bool).

(** [drainBidi]: [got] is what [AcceptStream] returned, [None] for an error. *)
Definition drainBidi (got : option nat) v : option conn :=
  match v_bi v with
  | BiTop =>
      match v_sem v with
      | S n => Some (set_bi n BiAccept (v_jobs v) v)
      | O => match v_raw v with Some _ => Some (set_bi O BiDone (v_jobs v) v) | None => None end
      end
  | BiAccept =>
      match got with
      | Some x => Some (add_accepted [x] [] (set_bi (v_sem v) BiTop (v_jobs v ++ [(x, Peeking)]) v))
      | None => Some (set_bi (S (v_sem v)) BiDone (v_jobs v) v)
      end
  | BiDone => None
  end.

(** The deferred return of the token. *)
Definition finish_job (rest : list (nat * stage)) v : conn := set_bi (S (v_sem v)) (v_bi v) rest v.

(** The classifier of [x]: after [classifyBi], and after its check of the view. *)
Definition classify_next (x : nat) (st : stage) (pk : peeked) (rest : list (nat * stage)) v : conn :=
  match st with
  | Peeking =>
      match pk with
      | PeekErr peerReset timed =>
          (* after the peer's reset only the send side is left to end *)
          let code := if peerReset then Unspecified else TimeoutOr (OtherError timed) BadSelector in
          finish_job rest (match v_raw v with None => add_ended [(x, code)] [] v | Some _ => add_ended [] [x] v end)
      | PeekByte b =>
          let s := if b2z b =? multistreamFirstByte then Libp2p else Ethp2p in
          match v_cause v s with
          | Some _ => finish_job rest (add_ended [(x, Closing)] [] v)
          | None => set_bi (v_sem v) (v_bi v) (rest ++ [(x, Pushing s)]) v
          end
      end
  | Pushing s =>
      let '(ok, q) := sq_push x (v_queue v s) in
      finish_job rest (if ok : bool then set_queue s q v else add_ended [(x, Closing)] [] v)
  end.

Definition drainUni (got : option nat) v : option conn :=
  match v_uni v with
  | UniAccept => match got with Some x => Some (add_accepted [] [x] (set_uni (UniCheck x) v)) | None => Some (set_uni UniDone v) end
  | UniCheck x =>
      match v_cause v Ethp2p with
      | Some _ => Some (add_ended [(x, Closing)] [] (set_uni UniAccept v))
      | None => Some (set_uni (UniPush x) v)
      end
  | UniPush x =>
      let '(ok, q) := sq_push x (v_uniQ v) in
      Some (set_uni UniAccept (if ok : bool then set_uniQ q v else add_ended [(x, Closing)] [] v))
  | UniDone => None
  end.

(** ** The views' users *)

(** [NextStream], [NextUniStream] of the ethp2p view after their check of its context. *)
Definition NextStream v : conn :=
  let '(o, q) := sq_tryPop (v_queue v Ethp2p) in add_got (option_list o) [] (set_queue Ethp2p q v).
Definition NextUniStream v : conn :=
  let '(o, q) := sq_tryPop (v_uniQ v) in add_got [] (option_list o) (set_uniQ q v).

(** [AcceptStream] of the libp2p view: the pop, then the check. *)
Definition libp2p_pop v : conn :=
  let '(o, q) := sq_tryPop (v_queue v Libp2p) in set_hold (v_hold v ++ option_list o) (set_queue Libp2p q v).
Definition libp2p_check (x : nat) (rest : list nat) v : conn :=
  match v_cause v Libp2p with
  | Some _ => add_ended [(x, Closing)] [] (set_hold rest v)
  | None => add_got [x] [] (set_hold rest v)
  end.

Inductive step : conn -> conn -> Prop :=
| st_claim want raw cause v : step v (close_claim want raw cause v)
| st_close want v v' : close_next want v = Some v' -> step v v'
| st_raw e v : step v (raw_ends e v)
| st_bi got v v' : drainBidi got v = Some v' -> step v v'
| st_job x st pk j1 j2 v : v_jobs v = j1 ++ (x, st) :: j2 -> step v (classify_next x st pk (j1 ++ j2) v)
| st_uni got v v' : drainUni got v = Some v' -> step v v'
| st_next v : step v (NextStream v)
| st_next_uni v : step v (NextUniStream v)
| st_pop v : step v (libp2p_pop v)
| st_check x h1 h2 v : v_hold v = h1 ++ x :: h2 -> step v (libp2p_check x (h1 ++ h2) v).

Definition reachable v : Prop := rtc step newConn v.

(** ** Invariant *)

Definition claimed (r : rel_pc) : bool := match r with Held => false | _ => true end.
Definition is_last (r : rel_pc) : bool :=
  match r with Held => false | Claimed l _ _ | Cancelled l _ | Draining l | Released l => l end.
(** Past the closing of the connection, and past that of the queues. *)
Definition past_raw (r : rel_pc) : bool := match r with Draining _ | Released _ => true | _ => false end.
Definition released (r : rel_pc) : bool := match r with Released _ => true | _ => false end.
Definition cancelled (r : rel_pc) : bool := match r with Cancelled _ _ | Draining _ | Released _ => true | _ => false end.

Definition uni_pending (pc : uni_pc) : list nat := match pc with UniCheck x | UniPush x => [x] | _ => [] end.

(** Where an accepted stream is. *)
Definition bi_at v (x : nat) : Prop :=
  (exists st, (x, st) ∈ v_jobs v) \/ (exists s, x ∈ q_items (v_queue v s)) \/ x ∈ v_hold v \/ x ∈ v_gotBi v \/ (exists c, (x, c) ∈ v_ended v) \/ x ∈ v_lost v.
Definition uni_at v (x : nat) : Prop :=
  x ∈ uni_pending (v_uni v) \/ x ∈ q_items (v_uniQ v) \/ x ∈ v_gotUni v \/ exists c, (x, c) ∈ v_ended v.

Record view_inv v : Prop := {
  vi_sem : (v_sem v + length (v_jobs v) + (match v_bi v with BiAccept => 1 | _ => 0 end) = maxStreamsPendingClassify)%nat;
  vi_bits : v_closed v = (if claimed (v_rel v Libp2p) then 1 else 0) + (if claimed (v_rel v Ethp2p) then 2 else 0);
  (** one of two claims was the last, one alone was not *)
  vi_last : (if claimed (v_rel v Libp2p) && claimed (v_rel v Ethp2p) then xorb (is_last (v_rel v Libp2p)) (is_last (v_rel v Ethp2p)) = true
             else is_last (v_rel v Libp2p) = false /\ is_last (v_rel v Ethp2p) = false);
  vi_calls : length (v_calls v) = (if (is_last (v_rel v Libp2p) && past_raw (v_rel v Libp2p)) || (is_last (v_rel v Ethp2p) && past_raw (v_rel v Ethp2p)) then 1 else 0)%nat;
  vi_raw : v_calls v <> [] -> is_Some (v_raw v);
  vi_cause : forall s, cancelled (v_rel v s) = true \/ is_Some (v_raw v) -> is_Some (v_cause v s);
  vi_queue : forall s, released (v_rel v s) = true -> q_items (v_queue v s) = [] /\ q_closed (v_queue v s) = true;
  vi_uniQ : released (v_rel v Ethp2p) = true -> q_items (v_uniQ v) = [] /\ q_closed (v_uniQ v) = true;
  vi_uniC : q_closed (v_uniQ v) = true -> is_Some (v_cause v Ethp2p);
  vi_lost : v_lost v <> [] -> is_Some (v_raw v);
  vi_order : v_accUni v = v_gotUni v ++ q_items (v_uniQ v) ++ uni_pending (v_uni v) \/
             (is_Some (v_cause v Ethp2p) /\ (forall x, v_uni v = UniPush x -> q_closed (v_uniQ v) = true) /\ (v_gotUni v ++ q_items (v_uniQ v)) `prefix_of` v_accUni v);
  vi_bi : forall x, x ∈ v_accBi v -> bi_at v x;
  vi_uni : forall x, x ∈ v_accUni v -> uni_at v x }.

Lemma newConn_inv : view_inv newConn.
Proof. split; simpl; try done; try (by left); try (by intros s [|[]]); by intros x ?%elem_of_nil. Qed.

Lemma close_claim_inv want raw cause v : view_inv v -> view_inv (close_claim want raw cause v).
Proof.
  intros HI. unfold close_claim, claimRelease.
  destruct (Z.land (v_closed v) (side_bit want) =? 0) eqn:Ef; [|done]. z_bool.
  pose proof (vi_bits v HI) as Hb. pose proof (vi_last v HI) as Hl. pose proof (vi_calls v HI) as Hc.
  assert (v_rel v want = Held) as Hw.
  { rewrite Hb in Ef. destruct want; [destruct (v_rel v Libp2p) eqn:E, (claimed (v_rel v Ethp2p))|destruct (v_rel v Ethp2p) eqn:E, (claimed (v_rel v Libp2p))]; by vm_compute in Ef. }
  split; simpl; try apply HI.
  - rewrite Hb. destruct want; unfold fset; simpl; rewrite Hw; simpl; [destruct (claimed (v_rel v Ethp2p))|destruct (claimed (v_rel v Libp2p))]; reflexivity.
  - destruct want; unfold fset; simpl; rewrite Hw in Hl, Hb; simpl in Hl, Hb; rewrite Hb.
    + destruct (claimed (v_rel v Ethp2p)); simpl in *; destruct Hl as [_ ->]; done.
    + rewrite andb_false_r in Hl. destruct (claimed (v_rel v Libp2p)); simpl in *; destruct Hl as [-> _]; done.
  - rewrite Hc. destruct want; unfold fset; simpl; rewrite Hw; simpl; by rewrite ?andb_false_r.
  - intros s Hs. apply (vi_cause v HI). unfold fset in Hs. destruct (decide (s = want)) as [->|]; [|done]. destruct Hs as [?|?]; [done|by right].
  - intros s Hs. apply (vi_queue v HI). unfold fset in Hs. by destruct (decide (s = want)).
  - intros Hs. apply (vi_uniQ v HI). unfold fset in Hs. by destruct (decide (Ethp2p = want)).
Qed.

Lemma raw_ends_inv e v : view_inv v -> view_inv (raw_ends e v).
Proof.
  intros HI. unfold raw_ends. destruct (v_raw v) eqn:Er; [done|]. split; simpl; try apply HI; try (intros; by eexists).
  - intros s _. by destruct (v_cause v s).
  - intros _. by destruct (v_cause v Ethp2p).
  - destruct (vi_order v HI) as [?|(? & ? & ?)]; [by left|right]. split; [by destruct (v_cause v Ethp2p)|done].
Qed.

Lemma cancel_view_inv s e v : view_inv v -> view_inv (cancel_view s e v).
Proof.
  intros HI. split; simpl; try apply HI.
  - intros s' Hs. unfold fset. destruct (decide (s' = s)) as [->|]; [by destruct (v_cause v s)|by apply (vi_cause v HI)].
  - intros Hq. destruct (vi_uniC v HI Hq) as [y Hy]. unfold fset. case_decide; [subst; by rewrite Hy|by rewrite Hy].
  - destruct (vi_order v HI) as [?|([y Hy] & ? & ?)]; [by left|right]. split; [|done]. unfold fset. case_decide; [|by rewrite Hy].
    subst. by rewrite Hy.
Qed.

(** A release moves on without closing the connection. *)
Lemma set_rel_inv s pc v : view_inv v -> claimed pc = claimed (v_rel v s) -> is_last pc = is_last (v_rel v s) ->
  is_last pc && past_raw pc = is_last (v_rel v s) && past_raw (v_rel v s) -> is_Some (v_cause v s) ->
  (released pc = true -> (q_items (v_queue v s) = [] /\ q_closed (v_queue v s) = true) /\
                         (s = Ethp2p -> q_items (v_uniQ v) = [] /\ q_closed (v_uniQ v) = true)) ->
  view_inv (set_rel s pc v).
Proof.
  intros HI Hc Hl Hp Hx Hq. split; simpl; try apply HI.
  - rewrite (vi_bits v HI). by destruct s; unfold fset; simpl; rewrite Hc.
  - pose proof (vi_last v HI) as H. destruct s; unfold fset; simpl; by rewrite Hc, Hl.
  - rewrite (vi_calls v HI). by destruct s; unfold fset; simpl; rewrite Hp.
  - intros s' Hs. unfold fset in Hs. destruct (decide (s' = s)) as [->|]; [done|]. by apply (vi_cause v HI).
  - intros s' Hs. unfold fset in Hs. destruct (decide (s' = s)) as [->|]; [by apply Hq|]. by apply (vi_queue v HI).
  - intros Hs. unfold fset in Hs. destruct (decide (Ethp2p = s)) as [<-|]; [by apply Hq|]. by apply (vi_uniQ v HI).
Qed.

Lemma ended_app {v} x l : (exists c, (x, c) ∈ v_ended v) -> exists c, (x, c) ∈ v_ended v ++ l.
Proof. intros [c H]. exists c. apply elem_of_app. by left. Qed.

Lemma closing_in (x : nat) (l : list nat) (k : list (nat * Code)) : x ∈ l -> exists c, (x, c) ∈ k ++ ((fun x => (x, Closing)) <$> l).
Proof. intros H. exists Closing. apply elem_of_app. right. by apply (list_elem_of_fmap_2 (fun x => (x, Closing))). Qed.

(** The queues of a cancelled view are closed. *)
Lemma drain_queues_inv s v : view_inv v -> is_Some (v_cause v s) -> view_inv (drain_queues s v) /\
  v_rel (drain_queues s v) = v_rel v /\ v_cause (drain_queues s v) = v_cause v /\
  (q_items (v_queue (drain_queues s v) s) = [] /\ q_closed (v_queue (drain_queues s v) s) = true) /\
  (s = Ethp2p -> q_items (v_uniQ (drain_queues s v)) = [] /\ q_closed (v_uniQ (drain_queues s v)) = true).
Proof.
  intros HI Hx. unfold drain_queues, sq_close.
  set (v1 := add_ended ((fun x => (x, Closing)) <$> q_items (v_queue v s)) [] (set_queue s (mk_fifo [] (q_ready (v_queue v s)) true) v)).
  assert (view_inv v1) as H1.
  { split; simpl; try apply HI.
    - intros s' Hs. unfold fset. destruct (decide (s' = s)) as [->|]; [done|by apply (vi_queue v HI)].
    - rewrite app_nil_r. apply HI.
    - intros x Hx'. destruct (vi_bi v HI x Hx') as [H|[[s' H]|[H|[H|[H|H]]]]]; unfold bi_at; simpl; [by left| |by auto|by auto| |].
      + unfold fset. destruct (decide (s' = s)) as [->|Hne].
        * do 4 right. left. by apply closing_in.
        * right. left. exists s'. by rewrite decide_False.
      + do 4 right. left. by apply ended_app.
      + do 5 right. by rewrite app_nil_r.
    - intros x Hx'. destruct (vi_uni v HI x Hx') as [H|[H|[H|H]]]; unfold uni_at; simpl; [by left|by auto|by auto|do 3 right; by apply ended_app]. }
  assert (fset s (mk_fifo [] (q_ready (v_queue v s)) true) (v_queue v) s = mk_fifo [] (q_ready (v_queue v s)) true) as Es by (unfold fset; by rewrite decide_True).
  destruct s; [split_and!; try done|]. cbv zeta iota. split; [|split_and!; try done].
  split; simpl; try apply H1.
  - done.
  - rewrite !app_nil_r. apply HI.
  - right. split; [done|]. split; [done|]. rewrite app_nil_r. destruct (vi_order v HI) as [->|(_ & _ & [k Hk])]; [by apply prefix_app_r|].
    rewrite Hk. exists (q_items (v_uniQ v) ++ k). by rewrite <-app_assoc.
  - intros x Hx'. destruct (vi_bi v1 H1 x Hx') as [H|[H|[H|[H|[H|H]]]]]; unfold bi_at; simpl; [by left|by auto|by auto|by auto| |].
    + do 4 right. left. by apply (ended_app (v := v1)).
    + do 5 right. by rewrite app_nil_r.
  - intros x Hx'. destruct (vi_uni v1 H1 x Hx') as [H|[H|[H|H]]]; unfold uni_at; simpl; [by left| |by auto|do 3 right; by apply (ended_app (v := v1))].
    do 3 right. by apply closing_in.
Qed.

Lemma view_close_next_inv want v v' : view_inv v -> close_next want v = Some v' -> view_inv v'.
Proof.
  intros HI. unfold close_next. destruct (v_rel v want) as [|last raw cause|last raw|last|last] eqn:Er; [done| | | |done]; intros [= <-].
  - apply set_rel_inv; simpl; rewrite ?Er; try done; [by apply cancel_view_inv|]. unfold fset. rewrite decide_True by done. by destruct (v_cause v want).
  - assert (is_Some (v_cause v want)) as Hx by (apply (vi_cause v HI); left; by rewrite Er).
    destruct last; [|by apply set_rel_inv; rewrite ?Er].
    pose proof (vi_last v HI) as Hl. pose proof (vi_calls v HI) as Hc. pose proof (vi_bits v HI) as Hb.
    assert (exists cs, v_raw (raw_ends (ApplicationError raw false) (add_call raw v)) = Some cs /\
      set_rel want (Draining true) (raw_ends (ApplicationError raw false) (add_call raw v)) =
      set_causes (Some cs) (v_cause (raw_ends (ApplicationError raw false) v)) (set_rel want (Draining true) (add_call raw v))) as (cs & Ec & ->).
    { unfold raw_ends. simpl. destruct (v_raw v) as [e|] eqn:Ev; simpl; eexists; (split; [done|]); unfold set_rel, set_claim, set_causes, add_call; simpl; by rewrite ?Ev. }
    pose proof (raw_ends_inv (ApplicationError raw false) v HI) as HR.
    assert (forall s, is_Some (v_cause (raw_ends (ApplicationError raw false) v) s)) as Hall.
    { intros s. apply (vi_cause _ HR). right. unfold raw_ends. destruct (v_raw v) eqn:E; [by rewrite E|by eexists]. }
    split; simpl; try apply HI; try done; try (intros; by eexists).
    + rewrite Hb. destruct want; unfold fset; simpl; by rewrite Er.
    + destruct want; unfold fset; simpl; rewrite Er in Hl; exact Hl.
    + rewrite length_app. simpl. rewrite Hc. destruct want; unfold fset; simpl; rewrite Er in *; simpl in *.
      * assert (is_last (v_rel v Ethp2p) = false) as -> by (destruct (claimed (v_rel v Ethp2p)); simpl in *; [by destruct (is_last (v_rel v Ethp2p))|by destruct Hl]). done.
      * assert (is_last (v_rel v Libp2p) = false) as -> by (destruct (claimed (v_rel v Libp2p)); simpl in *; [by destruct (is_last (v_rel v Libp2p))|by destruct Hl]). done.
    + intros s Hs. unfold fset in Hs. destruct (decide (s = want)); [done|]. by apply (vi_queue v HI).
    + intros Hs. unfold fset in Hs. destruct (decide (Ethp2p = want)); [done|]. by apply (vi_uniQ v HI).
    + destruct (vi_order v HI) as [?|(_ & ? & ?)]; [by left|by right].
  - assert (is_Some (v_cause v want)) as Hx by (apply (vi_cause v HI); left; by rewrite Er).
    destruct (drain_queues_inv want v HI Hx) as (H1 & H2 & H3 & H4 & H5).
    apply set_rel_inv; rewrite ?H2, ?H3, ?Er; try done.
Qed.

(** Streams move on: the other parts of the invariant do not change. *)
Lemma sq_push_items (x : nat) q ok q' : sq_push x q = (ok, q') ->
  ok = negb (q_closed q) /\ q_closed q' = q_closed q /\ q_items q' = if ok then q_items q ++ [x] else q_items q.
Proof. unfold sq_push. destruct (q_closed q) eqn:E; intros [= <- <-]; done. Qed.

Lemma sq_tryPop_items (q q' : fifo nat) o : sq_tryPop q = (o, q') -> q_items q = option_list o ++ q_items q' /\ q_closed q' = q_closed q.
Proof.
  destruct (queues_agree q 0%nat) as (_ & -> & _). unfold q_pop. destruct (q_items q) as [|x l] eqn:E; intros [= <- <-]; [by rewrite E|].
  destruct (_ <? _)%nat; done.
Qed.

Lemma drainBidi_inv got v v' : view_inv v -> drainBidi got v = Some v' -> view_inv v'.
Proof.
  intros HI. unfold drainBidi. pose proof (vi_sem v HI) as Hs. destruct (v_bi v) eqn:Eb; [| |done].
  - destruct (v_sem v) as [|n] eqn:En; [destruct (v_raw v) eqn:Ev; [|done]|]; intros [= <-]; split; simpl; try apply HI; try done; try lia; rewrite ?Ev; apply HI.
  - destruct got as [x|]; intros [= <-]; split; simpl; try apply HI; try done; try (rewrite ?length_app; simpl; lia).
    + rewrite app_nil_r. apply HI.
    + intros y [Hy|Hy]%elem_of_app.
      * destruct (vi_bi v HI y Hy) as [[st H]|H]; [left; exists st; apply elem_of_app; by left|by right].
      * apply list_elem_of_singleton in Hy as ->. left. exists Peeking. apply elem_of_app. right. by left.
    + rewrite app_nil_r. apply HI.
Qed.

Lemma classify_inv x st pk j1 j2 v : view_inv v -> v_jobs v = j1 ++ (x, st) :: j2 -> view_inv (classify_next x st pk (j1 ++ j2) v).
Proof.
  intros HI Hj. pose proof (vi_sem v HI) as Hs. rewrite Hj, length_app in Hs. simpl in Hs.
  assert (forall y, y ∈ v_accBi v -> y = x \/ (exists s, (y, s) ∈ j1 ++ j2) \/ (exists s, y ∈ q_items (v_queue v s)) \/ y ∈ v_hold v \/ y ∈ v_gotBi v \/
    (exists c, (y, c) ∈ v_ended v) \/ y ∈ v_lost v) as Hbi.
  { intros y Hy. destruct (vi_bi v HI y Hy) as [[s H]|H]; [|by do 2 right]. rewrite Hj in H. apply elem_of_app in H as [H|[H|H]%elem_of_cons].
    - right. left. exists s. apply elem_of_app. by left.
    - injection H as -> _. by left.
    - right. left. exists s. apply elem_of_app. by right. }
  assert (forall c, view_inv (finish_job (j1 ++ j2) (add_ended [(x, c)] [] v))) as Hend.
  { intros c. split; simpl; try apply HI; [rewrite length_app; lia|rewrite app_nil_r; apply HI| |].
    - intros y Hy. unfold bi_at. simpl. rewrite app_nil_r. destruct (Hbi y Hy) as [->|[H|[H|[H|[H|[H|H]]]]]]; auto 6.
      + do 4 right. left. exists c. apply elem_of_app. right. by left.
      + do 4 right. left. by apply ended_app.
    - intros y Hy. destruct (vi_uni v HI y Hy) as [H|[H|[H|H]]]; unfold uni_at; simpl; auto. do 3 right. by apply ended_app. }
  unfold classify_next. destruct st as [|s].
  - destruct pk as [b|pr ti].
    + set (s := if b2z b =? multistreamFirstByte then Libp2p else Ethp2p). destruct (v_cause v s); [apply Hend|]. split; simpl; try apply HI; [rewrite !length_app; simpl; lia|].
      intros y Hy. unfold bi_at. simpl. destruct (Hbi y Hy) as [->|[[st H]|H]]; [| |by right].
      * left. exists (Pushing s). apply elem_of_app. right. by left.
      * left. exists st. apply elem_of_app. by left.
    + destruct (v_raw v) as [e|] eqn:Ev; [|apply Hend].
      assert (is_Some (v_raw v)) as Hraw by (rewrite Ev; by eexists).
      split; simpl; rewrite ?app_nil_r; try apply HI; try done; [rewrite length_app; lia| |].
      * intros y Hy. unfold bi_at. simpl. rewrite app_nil_r. destruct (Hbi y Hy) as [->|[H|[H|[H|[H|[H|H]]]]]]; auto 6.
        -- do 5 right. apply elem_of_app. right. by left.
        -- do 5 right. apply elem_of_app. by left.
      * intros y Hy. unfold uni_at. simpl. rewrite app_nil_r. by apply (vi_uni v HI).
  - destruct (sq_push x (v_queue v s)) as [ok q] eqn:Eq. apply sq_push_items in Eq as (Eo & Ec & Ei). destruct ok; [|apply Hend].
    split; simpl; try apply HI; [rewrite length_app; lia| |].
    + intros s' Hs'. unfold fset. destruct (decide (s' = s)) as [->|]; [|by apply (vi_queue v HI)].
      destruct (vi_queue v HI s Hs') as [_ H]. by rewrite H in Eo.
    + intros y Hy. unfold bi_at. simpl.
      assert (y = x \/ (exists s', y ∈ q_items (v_queue v s')) -> exists s', y ∈ q_items (fset s q (v_queue v) s')) as Hq.
      { unfold fset. intros [->|[s' H]].
        - exists s. rewrite decide_True, Ei by done. apply elem_of_app. right. by left.
        - exists s'. destruct (decide (s' = s)) as [->|]; [|done]. rewrite Ei. apply elem_of_app. by left. }
      destruct (Hbi y Hy) as [->|[H|[H|[H|[H|[H|H]]]]]]; auto 7.
Qed.

Lemma drainUni_inv got v v' : view_inv v -> drainUni got v = Some v' -> view_inv v'.
Proof.
  intros HI. unfold drainUni. pose proof (vi_order v HI) as Ho. pose proof (vi_uni v HI) as Hu. unfold uni_at in Hu. destruct (v_uni v) as [|x|x|] eqn:Eu; simpl in *; [| | |done].
  - destruct got as [x|]; intros [= <-]; split; simpl; try apply HI; rewrite ?app_nil_r; try apply HI.
    + destruct Ho as [->|(A & B & [k C])]; [left; by rewrite app_nil_r, <-app_assoc|right]. split; [done|]. split; [done|]. exists (k ++ [x]). by rewrite C, <-app_assoc.
    + intros y [Hy|Hy]%elem_of_app; unfold uni_at; simpl; [|by left]. destruct (Hu y Hy) as [H|H]; [by apply elem_of_nil in H|by right].
    + rewrite app_nil_r in Ho. destruct Ho as [?|(A & B & C)]; [by left|by right].
    + intros y Hy. destruct (Hu y Hy) as [H|H]; [by apply elem_of_nil in H|by right].
  - destruct (v_cause v Ethp2p) as [e|] eqn:Ex; intros [= <-]; split; simpl; try apply HI; rewrite ?app_nil_r; try apply HI.
    + right. split; [by rewrite Ex|]. split; [done|]. destruct Ho as [->|(_ & _ & H)]; [|done]. exists [x]. by rewrite <-app_assoc.
    + intros y Hy. destruct (vi_bi v HI y Hy) as [H|[H|[H|[H|[H|H]]]]]; unfold bi_at; simpl; rewrite ?app_nil_r; auto 6. do 4 right. left. by apply ended_app.
    + intros y Hy. unfold uni_at. simpl. destruct (Hu y Hy) as [H|[H|[H|H]]]; auto.
      * apply list_elem_of_singleton in H as ->. do 3 right. exists Closing. apply elem_of_app. right. by left.
      * do 3 right. by apply ended_app.
    + destruct Ho as [?|(A & _)]; [by left|]. destruct A as [? A]. congruence.
    + intros y Hy. exact (Hu y Hy).
  - destruct (sq_push x (v_uniQ v)) as [ok q] eqn:Eq. apply sq_push_items in Eq as (Eo & Ec & Ei). intros [= <-]. destruct ok; split; simpl; try apply HI; rewrite ?app_nil_r; try apply HI.
    + intros Hr. destruct (vi_uniQ v HI Hr) as [_ H]. by rewrite H in Eo.
    + rewrite Ec. apply HI.
    + rewrite Ei. destruct Ho as [->|(_ & B & _)]; [by left|]. specialize (B x eq_refl). by rewrite B in Eo.
    + intros y Hy. unfold uni_at. simpl. rewrite Ei. destruct (Hu y Hy) as [H|[H|[H|H]]]; auto; right; left; apply elem_of_app; auto.
    + right. destruct Ho as [->|(A & B & C)]; [|split_and!; try done].
      split; [|split; [done|exists [x]; by rewrite <-app_assoc]].
      apply (vi_uniC v HI). by destruct (q_closed (v_uniQ v)).
    + intros y Hy. destruct (vi_bi v HI y Hy) as [H|[H|[H|[H|[H|H]]]]]; unfold bi_at; simpl; rewrite ?app_nil_r; auto 6. do 4 right. left. by apply ended_app.
    + intros y Hy. unfold uni_at. simpl. destruct (Hu y Hy) as [H|[H|[H|H]]]; auto.
      * apply list_elem_of_singleton in H as ->. do 3 right. exists Closing. apply elem_of_app. right. by left.
      * do 3 right. by apply ended_app.
Qed.

Lemma users_inv v : view_inv v -> view_inv (NextStream v) /\ view_inv (NextUniStream v) /\ view_inv (libp2p_pop v).
Proof.
  intros HI. unfold NextStream, NextUniStream, libp2p_pop.
  destruct (sq_tryPop (v_queue v Ethp2p)) as [o1 q1] eqn:E1. apply sq_tryPop_items in E1 as [I1 C1].
  destruct (sq_tryPop (v_uniQ v)) as [o2 q2] eqn:E2. apply sq_tryPop_items in E2 as [I2 C2].
  destruct (sq_tryPop (v_queue v Libp2p)) as [o3 q3] eqn:E3. apply sq_tryPop_items in E3 as [I3 C3].
  split_and!; split; simpl; rewrite ?app_nil_r; try apply HI.
  - intros s Hs. pose proof (vi_queue v HI s Hs) as [A B]. unfold fset. case_decide; [|done]. subst. rewrite I1 in A. apply app_eq_nil in A as [_ A]. by rewrite C1.
  - intros x Hx. unfold bi_at. simpl. destruct (vi_bi v HI x Hx) as [H|[[s H]|[H|[H|[H|H]]]]]; auto 7.
    + destruct s.
      * right. left. exists Libp2p. done.
      * rewrite I1 in H. apply elem_of_app in H as [H|H]; [do 3 right; left; apply elem_of_app; by right|right; left; exists Ethp2p; done].
    + do 3 right. left. apply elem_of_app. by left.
  - intros x Hx. unfold uni_at. simpl. rewrite app_nil_r. by apply (vi_uni v HI).
  - intros Hr. destruct (vi_uniQ v HI Hr) as [A B]. rewrite I2 in A. apply app_eq_nil in A as [_ A]. by rewrite C2.
  - rewrite C2. apply HI.
  - pose proof (vi_order v HI) as Ho. rewrite I2, C2 in *. rewrite <-!app_assoc. rewrite <-app_assoc in Ho. done.
  - intros x Hx. unfold bi_at. simpl. rewrite app_nil_r. by apply (vi_bi v HI).
  - intros x Hx. unfold uni_at. simpl. destruct (vi_uni v HI x Hx) as [H|[H|[H|H]]]; auto.
    + rewrite I2 in H. apply elem_of_app in H as [H|H]; [do 2 right; left; apply elem_of_app; by right|by auto].
    + do 2 right. left. apply elem_of_app. by left.
  - intros s Hs. pose proof (vi_queue v HI s Hs) as [A B]. unfold fset. case_decide; [|done]. subst. rewrite I3 in A. apply app_eq_nil in A as [_ A]. by rewrite C3.
  - intros x Hx. unfold bi_at. simpl. destruct (vi_bi v HI x Hx) as [H|[[s H]|[H|[H|[H|H]]]]]; auto 7.
    + destruct s.
      * rewrite I3 in H. apply elem_of_app in H as [H|H]; [do 2 right; left; apply elem_of_app; by right|right; left; exists Libp2p; done].
      * right. left. exists Ethp2p. done.
    + do 2 right. left. apply elem_of_app. by left.
Qed.

Lemma libp2p_check_inv x h1 h2 v : view_inv v -> v_hold v = h1 ++ x :: h2 -> view_inv (libp2p_check x (h1 ++ h2) v).
Proof.
  intros HI Hh. assert (forall y, y ∈ v_hold v -> y = x \/ y ∈ h1 ++ h2) as Hy by (intros y; rewrite Hh, !elem_of_app, elem_of_cons; tauto).
  unfold libp2p_check. destruct (v_cause v Libp2p); split; simpl; rewrite ?app_nil_r; try apply HI.
  - intros y Hi. unfold bi_at. simpl. rewrite app_nil_r. destruct (vi_bi v HI y Hi) as [H|[H|[H|[H|[H|H]]]]]; auto 7.
    + destruct (Hy y H) as [->|?]; [|by auto]. do 4 right. left. exists Closing. apply elem_of_app. right. by left.
    + do 4 right. left. by apply ended_app.
  - intros y Hi. unfold uni_at. simpl. destruct (vi_uni v HI y Hi) as [H|[H|[H|H]]]; auto. do 3 right. by apply ended_app.
  - intros y Hi. unfold bi_at. simpl. destruct (vi_bi v HI y Hi) as [H|[H|[H|[H|[H|H]]]]]; auto 7.
    + destruct (Hy y H) as [->|?]; [|by auto]. do 3 right. left. apply elem_of_app. right. by left.
    + do 3 right. left. apply elem_of_app. by left.
  - intros y Hi. unfold uni_at. simpl. rewrite app_nil_r. by apply (vi_uni v HI).
Qed.

Lemma view_step_inv v v' : view_inv v -> step v v' -> view_inv v'.
Proof.
  intros HI H. destruct H as [want raw cause v|want v v' H|e v|got v v' H|x st pk j1 j2 v Hj|got v v' H|v|v|v|x h1 h2 v Hh].
  - by apply close_claim_inv.
  - by eapply view_close_next_inv.
  - by apply raw_ends_inv.
  - by eapply drainBidi_inv.
  - by apply classify_inv.
  - by eapply drainUni_inv.
  - by apply users_inv.
  - by apply users_inv.
  - by apply users_inv.
  - by apply libp2p_check_inv.
Qed.

Lemma view_reachable_inv v : reachable v -> view_inv v.
Proof.
  intros H. assert (forall a, rtc step a v -> view_inv a -> view_inv v) as Hr; [|apply (Hr _ H), newConn_inv].
  clear H. intros a Ha. induction Ha as [|a b c Hs _ IH]; [done|]. intros HI. by apply IH, (view_step_inv a).
Qed.

(** ** What the views guarantee *)

(** C25. Releasing the views.  Whoever releases which view, how often and in what
    interleaving: the connection is closed at most once, only after both views
    were released, and before the last one's queued streams are reset; when both
    releases are done it is closed; a released view's queues are empty and stay
    closed; and a view that was released, or whose connection ended, has a cause. *)
Theorem view_release v : reachable v ->
  (length (v_calls v) <= 1)%nat /\
  (v_calls v <> [] -> is_Some (v_raw v) /\ forall s, v_rel v s <> Held) /\
  (forall s, v_rel v s = Draining true -> is_Some (v_raw v)) /\
  ((forall s, released (v_rel v s) = true) -> length (v_calls v) = 1%nat) /\
  (forall s, released (v_rel v s) = true -> q_items (v_queue v s) = [] /\ q_closed (v_queue v s) = true) /\
  (released (v_rel v Ethp2p) = true -> q_items (v_uniQ v) = [] /\ q_closed (v_uniQ v) = true) /\
  (forall s, cancelled (v_rel v s) = true \/ is_Some (v_raw v) -> is_Some (v_cause v s)).
Proof.
  intros Hr. pose proof (view_reachable_inv v Hr) as HI. pose proof (vi_calls v HI) as Hc. pose proof (vi_last v HI) as Hl.
  assert (length (v_calls v) = 1%nat -> is_Some (v_raw v)) as Hraw by (intros H; apply (vi_raw v HI); by destruct (v_calls v)).
  split; [rewrite Hc; by destruct (_ || _); lia|]. split.
  - intros Hn. split; [by apply (vi_raw v HI)|]. intros s Hs.
    assert (claimed (v_rel v Libp2p) && claimed (v_rel v Ethp2p) = false) as E by (destruct s; rewrite Hs; [done|by rewrite andb_false_r]).
    rewrite E in Hl. destruct Hl as [E1 E2]. rewrite E1, E2 in Hc. simpl in Hc. by destruct (v_calls v).
  - split; [intros s Hs; apply Hraw; rewrite Hc; destruct s; rewrite Hs; simpl; by rewrite ?orb_true_r|]. split; [|split; [apply HI|split; apply HI]].
    intros Ha. rewrite Hc. pose proof (Ha Libp2p) as A. pose proof (Ha Ethp2p) as B.
    destruct (v_rel v Libp2p) as [| | | |a]; try done. destruct (v_rel v Ethp2p) as [| | | |b]; try done. simpl in *. by destruct a, b.
Qed.

(** C26. Incoming streams.  No stream accepted on the connection is lost: it is
    being classified, queued for a view, handed to the view's user, reset, or
    gone with the connection; at most four are classified at once; and the
    ethp2p user gets the unidirectional ones in the order they were accepted, so
    the first is the peer's first. *)
Theorem view_streams v : reachable v ->
  (forall x, x ∈ v_accBi v -> bi_at v x) /\ (forall x, x ∈ v_accUni v -> uni_at v x) /\ (v_lost v <> [] -> is_Some (v_raw v)) /\
  (length (v_jobs v) <= maxStreamsPendingClassify)%nat /\ v_gotUni v `prefix_of` v_accUni v.
Proof.
  intros Hr. pose proof (view_reachable_inv v Hr) as HI. pose proof (vi_sem v HI) as Hs. split; [apply HI|]. split; [apply HI|]. split; [apply HI|]. split; [lia|].
  destruct (vi_order v HI) as [->|(_ & _ & [k ->])]; [by apply prefix_app_r|]. rewrite <-app_assoc. by apply prefix_app_r.
Qed.

(** ** How a view closed *)

Lemma cause_stays s e v v' : step v v' -> v_cause v s = Some e -> v_cause v' s = Some e.
Proof.
  intros H He. destruct H as [want raw cause v|want v v' H|e' v|got v v' H|x st pk j1 j2 v Hj|got v v' H|v|v|v|x h1 h2 v Hh].
  - unfold close_claim, claimRelease. by destruct (_ =? 0).
  - assert (forall v, v_cause (drain_queues want v) = v_cause v) as Hd by (intros w; unfold drain_queues; simpl; by destruct want).
    assert (forall r w, v_cause w s = Some e -> v_cause (raw_ends r w) s = Some e) as Hraw by (intros r w Hw; unfold raw_ends; destruct (v_raw w); [done|]; simpl; by rewrite Hw).
    unfold close_next in H. destruct (v_rel v want) as [|last raw c|last raw|last|last]; try done; injection H as <-; simpl.
    + unfold fset. case_decide; [subst; by rewrite He|done].
    + destruct last; [by apply Hraw|done].
    + by rewrite Hd.
  - unfold raw_ends. destruct (v_raw v); [done|]. simpl. by rewrite He.
  - unfold drainBidi in H. split_matches H; done.
  - unfold classify_next, finish_job. repeat case_match; done.
  - unfold drainUni in H. destruct (v_uni v); [destruct got|destruct (v_cause v Ethp2p)|destruct (sq_push _ _) as [[] ?]|]; try done; by injection H as <-.
  - unfold NextStream. by destruct (sq_tryPop _).
  - unfold NextUniStream. by destruct (sq_tryPop _).
  - unfold libp2p_pop. by destruct (sq_tryPop _).
  - unfold libp2p_check. by destruct (v_cause v Libp2p).
Qed.

(** The code of a closed view.  The first cause wins: whatever happens after
    a view of a live connection was released with a code, CloseCode reports that
    code, also when the endpoint shuts down; a peer that closes the connection
    with a stack code is reported with exactly that code; and no other close is
    mistaken for one: with a code outside the stack namespace, or by anything
    else, it is Closing after an endpoint shutdown, Timeout for a timeout and
    Unspecified otherwise. *)
Theorem close_code_exact c v v1 v2 endpoint :
  code_ok c = true -> code_protocol c = false -> reachable v -> v_rel v Ethp2p = Held -> v_cause v Ethp2p = None ->
  close_next Ethp2p (CloseWithCode c v) = Some v1 -> rtc step v1 v2 ->
  (exists e, v_cause v2 Ethp2p = Some e /\ CloseCode e endpoint = c) /\
  CloseCode (ApplicationError (Wire.Wire c) true) endpoint = c /\
  (forall raw remote, Z.odd raw = true \/ remote = false \/ Wire.Wire (ParseCode raw) <> raw ->
     CloseCode (ApplicationError raw remote) endpoint = if endpoint then Closing else Unspecified) /\
  (CloseCode IdleTimeoutError endpoint = if endpoint then Closing else Timeout).
Proof.
  intros Hok Hp Hr Hh Hc H1 H2. split; [|split; [|split; [|by destruct endpoint]]].
  - exists (ViewClosedError c false). split; [|done]. assert (v_cause v1 Ethp2p = Some (ViewClosedError c false)) as E1.
    { revert H1. unfold CloseWithCode, close_claim, claimRelease. rewrite (vi_bits v (view_reachable_inv v Hr)), Hh.
      destruct (claimed (v_rel v Libp2p)); simpl; unfold close_next, set_claim; simpl; intros [= <-]; simpl; by rewrite Hc. }
    clear H1. induction H2 as [|a b d Hs _ IH]; [done|]. apply IH. by eapply cause_stays.
  - unfold CloseCode, ethp2pError. assert (Z.odd (Wire.Wire c) = false) as Ho.
    { destruct c as [x pr]. simpl in Hp. subst pr. unfold code_ok, is_stack_code in Hok. simpl in Hok. apply bool_decide_eq_true in Hok. unfold stackCodeNames in Hok.
      repeat (apply elem_of_cons in Hok as [->|Hok]; [reflexivity|]). by apply elem_of_nil in Hok. }
    rewrite Ho. simpl. by rewrite (ParseCode_Wire_ok c Hok), Z.eqb_refl.
  - intros raw remote H. unfold CloseCode, ethp2pError. destruct (negb remote || Z.odd raw) eqn:E; [by destruct endpoint|].
    apply orb_false_iff in E as [E1 E2]. destruct H as [H|[->|H]]; [congruence|done|]. destruct (Wire.Wire (ParseCode raw) =? raw) eqn:Ew; z_bool; [done|]. by destruct endpoint.
Qed.

(** ** A run

    The peer's first unidirectional stream is accepted, queued and taken; then
    libp2p releases its view and the stack its own, with [Closing]. *)

Module ViewDemo.
Definition then_ (o : conn -> option conn) v : conn := default v (o v).
Definition u3 : conn := NextUniStream (then_ (drainUni None) (then_ (drainUni None) (then_ (drainUni (Some 3%nat)) newConn))).
Definition l1 : conn := libp2p_CloseWithError 0 u3.
Definition l4 : conn := then_ (close_next Libp2p) (then_ (close_next Libp2p) (then_ (close_next Libp2p) l1)).
Definition e1 : conn := CloseWithCode Closing l4.
Definition e2 : conn := then_ (close_next Ethp2p) e1.
Definition e4 : conn := then_ (close_next Ethp2p) (then_ (close_next Ethp2p) e2).

Lemma reach_step v v' : reachable v -> step v v' -> reachable v'.
Proof. intros H1 H2. by eapply rtc_r. Qed.
Lemma reach_then (f : conn -> option conn) v : (forall v', f v = Some v' -> step v v') -> reachable v -> reachable (then_ f v).
Proof. intros Hf H. unfold then_. destruct (f v) as [v'|]; [|done]. by eapply reach_step, Hf. Qed.
Lemma reach_u3 : reachable u3.
Proof.
  eapply reach_step; [|apply st_next_uni]. do 3 (apply reach_then; [intros v'; apply st_uni|]). apply rtc_refl.
Qed.
Lemma reach_l4 : reachable l4.
Proof. do 3 (apply reach_then; [intros v'; apply st_close|]). eapply reach_step; [exact reach_u3|apply st_claim]. Qed.
Lemma reach_e4 : reachable e4.
Proof. do 3 (apply reach_then; [intros v'; apply st_close|]). eapply reach_step; [exact reach_l4|apply st_claim]. Qed.
End ViewDemo.

Lemma view_release_witness : length (v_calls ViewDemo.e4) = 1%nat /\ is_Some (v_raw ViewDemo.e4).
Proof.
  destruct (view_release ViewDemo.e4 ViewDemo.reach_e4) as (_ & H2 & _ & H4 & _).
  split; [apply H4; intros s; destruct s; reflexivity|]. apply H2. discriminate.
Defined.

Lemma view_streams_witness : v_accUni ViewDemo.u3 = [3%nat] /\ v_gotUni ViewDemo.u3 = [3%nat] /\ uni_at ViewDemo.u3 3.
Proof.
  destruct (view_streams ViewDemo.u3 ViewDemo.reach_u3) as (_ & H & _). split; [reflexivity|]. split; [reflexivity|]. apply H. left.
Defined.

Lemma close_code_exact_witness : exists e, v_cause ViewDemo.e4 Ethp2p = Some e /\ CloseCode e true = Closing.
Proof.
  destruct (close_code_exact Closing ViewDemo.l4 ViewDemo.e2 ViewDemo.e4 true) as [H _].
  - reflexivity.
  - reflexivity.
  - exact ViewDemo.reach_l4.
  - reflexivity.
  - reflexivity.
  - reflexivity.
  - eapply rtc_l; [apply (st_close Ethp2p); reflexivity|]. eapply rtc_l; [apply (st_close Ethp2p); reflexivity|]. apply rtc_refl.
  - exact H.
Defined.
