(* ===== verification/ControlSession.v ===== *)
(** * ControlSession: the control protocol of a view (src/session.go, [handshake]
    of src/stack.go)

    [openControl] writes HELLO on our control stream; [awaitHello] reads the
    peer's; [close] ends our stream, after GOAWAY when one is owed, cancels the
    peer's and releases the view.  Any goroutine may call [close] at any time
    (the supervisor, a cancelled handshake, a failed read) while another is
    anywhere in [awaitHello] or [readGoAway], so a state has where each of the two
    is and a step is one action of one of them.  Reads, writes and the contexts
    are the environment's; the bytes of the peer's control stream are a
    [reader]. *)

From S2P Require Import Prelude Wire Types CtrlOut Session Reader Channel Engine PeerIo PeerOut PeerIn PeerWire Control View.
Open Scope Z_scope.

#[local] Set Default Proof Using "Type".

(** ** Classifying a failed read *)

(** The whole connection ended, or the read failed. *)
Inductive ctl_err := CtlConn (e : conn_err) | CtlRead (e : control_err).

Definition io_of (e : control_err) : option io_err :=
  match e with ErrSelector (SelIO e) | ErrFrame (FrameIO e) => Some e | _ => None end.

(** The code, whether GOAWAY is owed, and whether anything is left to do. *)
Definition classifyReadError (closing : bool) (e : ctl_err) (first : bool) : Code * bool * bool :=
  if closing || match e with CtlConn e => ConnectionClosed e | _ => false end then (Unspecified, false, false)
  else match e with
       | CtlRead e =>
           match io_of e with
           | Some (ErrStream raw) => if negb (Z.land raw 1 =? 0) then (ControlViolation, true, true) else (ParseCode raw, false, true)
           | Some EOF => if negb first then (Unspecified, false, true) else (ControlViolation, true, true)
           | _ => (ControlViolation, true, true)
           end
       | CtlConn _ => (ControlViolation, true, true)
       end.

(** [helloWriteCode]; [ctx] is [ctx.Err()]. *)
Definition helloWriteCode (ctx : option ctx_err) (e : conn_err) : Code :=
  match ctx with Some CtxCanceled => Closing | _ => TimeoutOr e Unspecified end.

(** ** State *)

(** Where the reader is: in [awaitHello]'s loop, holding the stream it found,
    reading it, returned. *)
Inductive hello_err := HelloClosed (c : Code) (remote : bool) | HelloCtx (e : ctx_err) | HelloFailed (e : ctl_err).
Inductive read_pc := Waiting | Found (r : reader) | Reading (r : reader) | HelloRead (h : PeerHello) (r : reader) | HelloError (e : hello_err).

(** Where [close] is, once it began with a code and [goAway]. *)
Inductive close_pc := CWrite | CFin | CPeer | CRelease | CDone.

Record controlSession := mk_ctl {
  t_read : read_pc;
  t_sent : bytes;                           (* written to our stream *)
  t_end : option stream_end;
  t_found : bool;                           (* the peer's stream was taken from transport's queue *)
  t_peer : bool;                            (* s.peer is set *)
  t_cancelled : option Code;                (* reading the peer's stream was cancelled *)
  t_close : option (Code * bool * close_pc);
  t_released : option Code }.

Implicit Types (s : controlSession).

Definition closing s : bool := match t_close s with Some _ => true | None => false end.

Definition set_read r s := mk_ctl r (t_sent s) (t_end s) (t_found s) (t_peer s) (t_cancelled s) (t_close s) (t_released s).
Definition set_out b e s := mk_ctl (t_read s) b e (t_found s) (t_peer s) (t_cancelled s) (t_close s) (t_released s).
Definition set_stage c s := mk_ctl (t_read s) (t_sent s) (t_end s) (t_found s) (t_peer s) (t_cancelled s) c (t_released s).
Definition cancel_peer c s :=
  mk_ctl (t_read s) (t_sent s) (t_end s) (t_found s) (t_peer s) (match t_cancelled s with Some c' => Some c' | None => Some c end) (t_close s) (t_released s).

Section session.
Context (marshalHello : Hello -> result error bytes) (unmarshalHello : bytes -> result error (Hello * bool)).
Context (marshalGoAway : GoAway -> result error bytes) (unmarshalGoAway : bytes -> result error (GoAway * bool)).

(** ** openControl *)

Record attempt := mk_attempt { at_stream : option (bytes * option stream_end); at_released : Code }.

(** [opened]: what OpenUniStream returns; [wrote]: how the write of HELLO fails,
    after a part of it; [ctx]: the context's error when it did. *)
Definition openControl (ctx : option ctx_err) (opened : option conn_err) (wrote : option (conn_err * nat)) (hello : bytes)
  : result attempt controlSession :=
  match opened with
  | Some e => Err (mk_attempt None (helloWriteCode ctx e))
  | None =>
      match wrote with
      | Some (e, n) =>
          let code := helloWriteCode ctx e in
          Err (mk_attempt (Some (take n hello, if ConnectionClosed e then None else Some (Reset code))) code)
      | None => Ok (mk_ctl Waiting hello None false false None None None)
      end
  end.

(** ** close *)

(** [closeOnce] and [closing]: a later call does nothing. *)
Definition close (code : Code) (goAway : bool) s : controlSession :=
  match t_close s with Some _ => s | None => set_stage (Some (code, goAway, CWrite)) s end.

(** A write on a side that has not ended; [short] is where it fails. *)
Definition write_out (short : option nat) (data : bytes) s : controlSession :=
  match t_end s with
  | None => set_out (t_sent s ++ match short with Some n => take n data | None => data end) None s
  | Some _ => s
  end.
(** The first end of our stream stays: FIN by [close], a reset for the peer's STOP_SENDING. *)
Definition end_out (e : stream_end) s : controlSession :=
  set_out (t_sent s) (match t_end s with None => Some e | Some e' => Some e' end) s.

Definition close_next (short : option nat) s : option controlSession :=
  match t_close s with
  | Some (code, goAway, CWrite) =>
      let s := set_stage (Some (code, goAway, CFin)) s in
      Some (if goAway : bool then match GoAwayBytes marshalGoAway code with Some raw => write_out short raw s | None => s end else s)
  | Some (code, goAway, CFin) => Some (end_out Fin (set_stage (Some (code, goAway, CPeer)) s))
  | Some (code, goAway, CPeer) =>
      let s := set_stage (Some (code, goAway, CRelease)) s in
      let cancelCode := if decide (code = ControlViolation) then ControlViolation else Closing in
      Some (if t_peer s && goAway then cancel_peer cancelCode s else s)
  | Some (code, goAway, CRelease) =>
      let s := set_stage (Some (code, goAway, CDone)) s in
      Some (mk_ctl (t_read s) (t_sent s) (t_end s) (t_found s) (t_peer s) (t_cancelled s) (t_close s) (Some code))
  | Some (_, _, CDone) | None => None
  end.

(** ** awaitHello *)

(** How the wait for the peer's stream ends. *)
Inductive waited := WaitStream (r : reader) | WaitClosed (c : Code) | WaitCtx (e : ctx_err).

(** Whether the read is interrupted: by the end of the connection. *)
Definition hello_failed (ctx : option ctx_err) (e : ctl_err) s : controlSession :=
  match ctx with
  | Some CtxCanceled => set_read (HelloError (HelloCtx CtxCanceled)) s
  | _ =>
      let '(code, goAway, ok) := classifyReadError (closing s) e true in
      if ok : bool then close code goAway (set_read (HelloError (HelloClosed code (negb goAway))) s)
      else set_read (HelloError (HelloFailed e)) s
  end.

Definition awaitHello (w : waited) (ctx : option ctx_err) (broken : option conn_err) s : option controlSession :=
  match t_read s with
  | Waiting =>
      Some (match w with
            | WaitStream r => mk_ctl (Found r) (t_sent s) (t_end s) true (t_peer s) (t_cancelled s) (t_close s) (t_released s)
            | WaitClosed c => set_read (HelloError (HelloClosed c false)) s
            | WaitCtx CtxDeadline => close ControlViolation true (set_read (HelloError (HelloClosed ControlViolation false)) s)
            | WaitCtx CtxCanceled => close Closing true (set_read (HelloError (HelloCtx CtxCanceled)) s)
            end)
  | Found r =>
      if closing s then Some (set_read (HelloError (HelloClosed Closing false)) (cancel_peer Closing s))
      else Some (mk_ctl (Reading r) (t_sent s) (t_end s) (t_found s) true (t_cancelled s) (t_close s) (t_released s))
  | Reading r =>
      match t_cancelled s, broken with
      | Some c, _ => Some (hello_failed ctx (CtlRead (ErrFrame (FrameIO (ErrStream (Wire.Wire c))))) s)
      | None, Some e => Some (hello_failed ctx (CtlConn e) s)
      | None, None =>
          match ReadHello unmarshalHello r with
          | (None, _) => None
          | (Some (Err e), _) => Some (hello_failed ctx (CtlRead e) s)
          | (Some (Ok h), r') => Some (set_read (HelloRead h r') s)
          end
      end
  | _ => None
  end.

(** ** readGoAway *)

Definition readGoAway (broken : option conn_err) (r : reader) s : Code * bool * bool :=
  match t_cancelled s, broken with
  | Some c, _ => classifyReadError (closing s) (CtlRead (ErrFrame (FrameIO (ErrStream (Wire.Wire c))))) false
  | None, Some e => classifyReadError (closing s) (CtlConn e) false
  | None, None =>
      match (ReadGoAway unmarshalGoAway r).1 with
      | Ok parsed => (parsed, false, true)
      | Err e => classifyReadError (closing s) (CtlRead e) false
      end
  end.

(** ** Runs *)

Inductive step : controlSession -> controlSession -> Prop :=
| st_close code goAway s : step s (close code goAway s)
| st_close_next short s s' : close_next short s = Some s' -> step s s'
| st_await w ctx broken s s' : awaitHello w ctx broken s = Some s' -> step s s'
(** the peer asks us to stop sending *)
| st_stop c s : step s (end_out (Reset c) s).

Definition runs (hello : bytes) s : Prop :=
  exists ctx s0, openControl ctx None None hello = Ok s0 /\ rtc step s0 s.

(** ** Invariant *)

(** What follows HELLO on our stream. *)
Definition tail_ok (cl : option (Code * bool * close_pc)) (t : bytes) : Prop :=
  match cl with
  | None | Some (_, _, CWrite) | Some (_, false, _) => t = []
  | Some (code, true, _) => t `prefix_of` default [] (GoAwayBytes marshalGoAway code)
  end.

Definition reading_on (r : read_pc) : bool := match r with Reading _ | HelloRead _ _ => true | _ => false end.

Record session_inv (hello : bytes) s : Prop := {
  si_bytes : exists t, t_sent s = hello ++ t /\ tail_ok (t_close s) t;
  (** the side ends only through [close] or the peer *)
  si_fin : t_end s = Some Fin -> exists code g pc, t_close s = Some (code, g, pc) /\ pc <> CWrite /\ pc <> CFin;
  si_ended : (exists code g pc, t_close s = Some (code, g, pc) /\ pc <> CWrite /\ pc <> CFin) -> is_Some (t_end s);
  (** the view is released once [close] is done, with its code *)
  si_released : t_released s = match t_close s with Some (code, _, CDone) => Some code | _ => None end;
  (** only [close] cancels the peer's stream once it is known *)
  si_cancelled : is_Some (t_cancelled s) -> is_Some (t_close s);
  si_found : t_found s = true -> t_peer s = true \/ (exists r, t_read s = Found r) \/ is_Some (t_cancelled s);
  si_peer : reading_on (t_read s) = true -> t_peer s = true;
  (** a known stream is cancelled when GOAWAY was owed *)
  si_known : t_peer s = true -> (exists code pc, t_close s = Some (code, true, pc) /\ (pc = CRelease \/ pc = CDone)) -> is_Some (t_cancelled s) }.

Lemma open_inv ctx hello s0 : openControl ctx None None hello = Ok s0 -> session_inv hello s0.
Proof.
  intros [= <-]. split; simpl; try done; try (exists []; by rewrite app_nil_r).
  by intros (? & ? & ? & ? & _).
Qed.

Lemma session_close_inv hello code goAway s : session_inv hello s -> session_inv hello (close code goAway s).
Proof.
  intros HI. unfold close. destruct (t_close s) as [x|] eqn:E; [done|]. split; simpl; try apply HI.
  - destruct (si_bytes hello s HI) as (t & Ht & Hk). exists t. rewrite E in Hk. by destruct goAway.
  - intros H. destruct (si_fin hello s HI H) as (? & ? & ? & ? & _). congruence.
  - intros (? & ? & ? & [= <- <- <-] & ? & _). done.
  - rewrite (si_released hello s HI). by rewrite E.
  - intros H. by eexists.
  - intros _ (? & ? & [= _ _ <-] & [|]); done.
Qed.

Lemma set_read_inv hello r s : session_inv hello s -> (reading_on r = true -> t_peer s = true) ->
  (t_found s = true -> t_peer s = true \/ is_Some (t_cancelled s)) -> session_inv hello (set_read r s).
Proof. intros HI H1 H2. split; simpl; try apply HI; [|done]. intros Hf. destruct (H2 Hf); auto. Qed.

Lemma end_out_inv hello c s : session_inv hello s -> session_inv hello (end_out (Reset c) s).
Proof.
  intros HI. split; simpl; try apply HI.
  - intros H. apply (si_fin hello s HI). by destruct (t_end s).
  - intros H. by destruct (t_end s).
Qed.

Lemma session_close_next_inv hello short s s' : session_inv hello s -> close_next short s = Some s' -> session_inv hello s'.
Proof.
  intros HI. unfold close_next. destruct (si_bytes hello s HI) as (t & Ht & Hk). pose proof (si_released hello s HI) as Hr.
  destruct (t_close s) as [[[code g] pc]|] eqn:E; [|done]. destruct pc; intros [= <-].
  - assert (t = []) as -> by (by destruct g). assert (forall x, t_found x = t_found s -> t_end x = t_end s -> t_peer x = t_peer s -> t_read x = t_read s -> t_cancelled x = t_cancelled s -> t_released x = t_released s ->
      t_close x = Some (code, g, CFin) -> (exists t, t_sent x = hello ++ t /\ tail_ok (Some (code, g, CFin)) t) -> session_inv hello x) as Hx.
    { intros x E0 E1 E2 E3 E4 E5 E6 E7. split; rewrite ?E0, ?E1, ?E2, ?E3, ?E4, ?E5, ?E6; try apply HI; try done.
      - intros H. destruct (si_fin hello s HI H) as (? & ? & ? & Hc & ? & ?). rewrite E in Hc. injection Hc as <- <- <-. done.
      - intros (? & ? & ? & [= <- <- <-] & _ & ?). done.
      - intros _ (? & ? & [= _ _ <-] & [|]); done. }
    assert (session_inv hello (set_stage (Some (code, g, CFin)) s)) as H0.
    { apply Hx; try done. exists []. split; [by rewrite app_nil_r in *|]. destruct g; [apply prefix_nil|done]. }
    destruct g; [|done]. destruct (GoAwayBytes marshalGoAway code) as [raw|] eqn:Eg; [|done]. unfold write_out. simpl. destruct (t_end s) eqn:Ee; [done|].
    apply Hx; simpl; try done. rewrite Eg. simpl. rewrite Ht, app_nil_r. eexists. split; [done|]. destruct short; [apply prefix_take|done].
  - split; simpl; try apply HI; try done.
    + exists t. split; [done|]. by destruct g.
    + intros _. by exists code, g, CPeer.
    + intros _. by destruct (t_end s).
    + intros _ (? & ? & [= _ _ <-] & [|]); done.
  - assert (is_Some (t_end s)) as He by (apply (si_ended hello s HI); by exists code, g, CPeer).
    destruct (t_peer s && g) eqn:Ep; split; simpl; try apply HI; try done; try (by exists t; destruct g);
      try (intros _; by exists code, g, CRelease); try (intros _; by eexists).
    + intros _. right. right. by destruct (t_cancelled s).
    + intros _ _. by destruct (t_cancelled s).
    + intros Hp (? & ? & [= _ -> <-] & _). by rewrite Hp in Ep.
  - assert (is_Some (t_end s)) as He by (apply (si_ended hello s HI); by exists code, g, CRelease).
    split; simpl; try apply HI; try done; try (by exists t; destruct g); try (intros _; by exists code, g, CDone); try (intros _; by eexists).
    intros Hp (? & ? & [= <- -> <-] & _). apply (si_known hello s HI Hp). exists code, CRelease. by auto.
Qed.

Lemma hello_failed_inv hello ctx e s : session_inv hello s -> t_peer s = true -> session_inv hello (hello_failed ctx e s).
Proof.
  intros HI Hp. unfold hello_failed. assert (forall x, session_inv hello (set_read (HelloError x) s)) as H by (intros x; apply set_read_inv; [done|done|by left]).
  destruct ctx as [[|]|]; try done; destruct (classifyReadError _ _ _) as [[code g] ok]; destruct ok; try done; by apply session_close_inv.
Qed.

Lemma awaitHello_inv hello w ctx broken s s' : session_inv hello s -> awaitHello w ctx broken s = Some s' -> session_inv hello s'.
Proof.
  intros HI. unfold awaitHello. pose proof (si_found hello s HI) as Hf. destruct (t_read s) as [|r|r|h r|e] eqn:Er; try done.
  - assert (forall r, reading_on r = false -> session_inv hello (set_read r s)) as H.
    { intros r Hr. apply set_read_inv; [done|by rewrite Hr|]. intros Hx. destruct (Hf Hx) as [?|[[? ?]|?]]; [by left|done|by right]. }
    intros [= <-]. destruct w as [r|c|[|]]; try (by apply H); try (apply session_close_inv; by apply H).
    split; simpl; try apply HI; [intros _; right; left; by eexists|done].
  - destruct (closing s) eqn:Ec; intros [= <-]; unfold closing in Ec.
    + apply set_read_inv; [|done|intros _; right; simpl; by destruct (t_cancelled s)].
      split; simpl; try apply HI; [intros _; by destruct (t_close s)|intros _; right; right; by destruct (t_cancelled s)|]. intros _ _. by destruct (t_cancelled s).
    + split; simpl; try apply HI; [by left|done|]. intros _ (? & ? & E & _). by rewrite E in Ec.
  - assert (t_peer s = true) as Hp by (apply (si_peer hello s HI); by rewrite Er).
    destruct (t_cancelled s); [intros [= <-]; by apply hello_failed_inv|]. destruct broken; [intros [= <-]; by apply hello_failed_inv|].
    destruct (ReadHello unmarshalHello r) as [[[h|e]|] r']; [|intros [= <-]; by apply hello_failed_inv|done]. intros [= <-]. apply set_read_inv; [done|done|by left].
Qed.

Lemma runs_inv hello s : runs hello s -> session_inv hello s.
Proof.
  intros (ctx & s0 & H0 & Hr). apply open_inv in H0. induction Hr as [|a b c Hs _ IH]; [done|]. apply IH. clear IH.
  destruct Hs as [code g a|short a b H|w cx br a b H|c' a]; [by apply session_close_inv|by eapply session_close_next_inv|by eapply awaitHello_inv|by apply end_out_inv].
Qed.

(** C27. Ending a view.  Whoever calls close, with which code, while the other
    goroutines are anywhere: our control stream carries HELLO and then nothing
    but GOAWAY with the code of the first call, if that call owed one; the view
    is released only by that call, once, with its code, after our stream was
    ended; and when GOAWAY was owed the peer's control stream, if it was found,
    is then cancelled, or is by the next step of the reader that just found it. *)
Theorem control_close_once hello s : runs hello s ->
  (exists t, t_sent s = hello ++ t /\ tail_ok (t_close s) t) /\
  (forall c, t_released s = Some c <-> exists g, t_close s = Some (c, g, CDone)) /\
  (is_Some (t_released s) -> is_Some (t_end s)) /\
  (forall code, t_close s = Some (code, true, CDone) -> t_found s = true ->
     is_Some (t_cancelled s) \/ forall w ctx broken, exists s', awaitHello w ctx broken s = Some s' /\ is_Some (t_cancelled s')).
Proof.
  intros Hr. pose proof (runs_inv hello s Hr) as HI. pose proof (si_released hello s HI) as Hx.
  split; [apply HI|]. split; [|split].
  - intros c. rewrite Hx. split; [|by intros [g ->]]. destruct (t_close s) as [[[code g] []]|]; try done. intros [= ->]. by exists g.
  - rewrite Hx. destruct (t_close s) as [[[code g] []]|] eqn:E; try (by intros []). intros _. apply (si_ended hello s HI). exists code, g, CDone. by split_and!.
  - intros code Hc Hf. destruct (si_found hello s HI Hf) as [Hp|[[r Hread]|?]]; [left|right|by left].
    + apply (si_known hello s HI Hp). exists code, CDone. by auto.
    + intros w ctx broken. unfold awaitHello. rewrite Hread. unfold closing. rewrite Hc. eexists. split; [done|]. simpl. by destruct (t_cancelled s).
Qed.

(** ** Two peers *)

(** proto: what was marshalled is read back without unknown fields; GOAWAY fits a frame. *)
Hypothesis hello_proto : forall m raw, marshalHello m = Ok raw -> unmarshalHello raw = Ok (m, false).
Hypothesis goaway_proto : forall m raw, marshalGoAway m = Ok raw -> unmarshalGoAway raw = Ok (m, false).
Hypothesis goaway_fits : forall m raw, marshalGoAway m = Ok raw -> Z.of_nat (length raw) <= maxControlFrame.

Lemma maxControlFrame_value : maxControlFrame = 16384.
Proof. reflexivity. Qed.

Lemma maxControlFrame_range : 0 <= maxControlFrame < 2 ^ 63.
Proof. by rewrite maxControlFrame_value. Qed.

Lemma selector_prefix r sel r' sel0 rest : selector_ok sel0 -> rd_data r `prefix_of` AppendSelector [] sel0 ++ rest ->
  ReadSelector r = (Some (Ok sel), r') -> sel = sel0 /\ rd_data r' `prefix_of` rest /\ rd_end r' = rd_end r.
Proof.
  intros H0 [q Hq] HR. destruct ReadSelector_both as [Hread Hsplit]. destruct (Hsplit _ _ _ HR) as (Hs & E1 & E2). rewrite E1, <-app_assoc in Hq.
  pose proof (Hread sel0 rest EOF H0) as HA. rewrite Hq, (Hread sel (rd_data r' ++ q) EOF Hs) in HA. injection HA as -> <-. split; [done|]. split; [by eexists|done].
Qed.

Lemma ReadHello_prefix families record hello rest r h r' :
  Forall (fun f => 0 <= f < 2 ^ 32) families -> HelloBytes marshalHello families record = Ok hello ->
  rd_data r `prefix_of` hello ++ rest -> ReadHello unmarshalHello r = (Some (Ok h), r') ->
  h = mk_PeerHello families record /\ rd_data r' `prefix_of` rest /\ rd_end r' = rd_end r.
Proof using hello_proto.
  intros H32 HB Hp HR. unfold HelloBytes in HB. rewrite u32_families in HB by done.
  destruct (marshalHello _) as [raw|] eqn:Em; [|done]. destruct (_ >? _) eqn:El; [done|]. rewrite Z.gtb_ltb in El. apply Z.ltb_ge in El. injection HB as <-.
  rewrite AppendFrame_dst, <-app_assoc in Hp. unfold ReadHello in HR.
  destruct (ReadSelector r) as [[[sel|e]|] r1] eqn:Es; try done.
  destruct (selector_prefix r sel r1 ControlSelector _ ltac:(unfold selector_ok, ControlSelector, ControlFamily, ReservedFamily; simpl; lia) Hp Es) as (-> & Hp1 & He1).
  rewrite decide_False in HR by (intros H; by apply H). unfold readControlFrame in HR. destruct (ReadFrame r1 maxControlFrame) as [[[typ d]|e] r2] eqn:Ef; [|done].
  destruct (frame_of_prefix r1 maxControlFrame typ d r2 helloFrame raw rest) as (-> & -> & Hp2 & He2); try done; try (clear goaway_fits; rewrite maxControlFrame_value in *; lia).
  rewrite Z.eqb_refl in HR. simpl in HR. rewrite (hello_proto _ _ Em) in HR. simpl in HR. destruct (ValidateFamilies families); [done|]. injection HR as <- <-.
  split; [done|]. split; [done|congruence].
Qed.

Lemma ReadGoAway_prefix code r c r' : is_stack_code (code_value code) = true -> code_protocol code = false ->
  rd_data r `prefix_of` default [] (GoAwayBytes marshalGoAway code) -> ReadGoAway unmarshalGoAway r = (Ok c, r') -> c = code.
Proof using goaway_fits goaway_proto.
  intros Hc Hp Hr HR. destruct (GoAwayBytes marshalGoAway code) as [b|] eqn:Eb; simpl in Hr.
  - pose proof (goaway_roundtrip marshalGoAway unmarshalGoAway goaway_proto code b [] EOF Hc Hp (goaway_fits _) Eb) as HF. rewrite app_nil_r in HF.
    unfold GoAwayBytes in Eb. destruct (marshalGoAway _) as [raw|] eqn:Em; [|done]. injection Eb as <-.
    pose proof (goaway_fits _ _ Em) as Hl. unfold ReadGoAway, readControlFrame in *.
    destruct (ReadFrame r maxControlFrame) as [[[typ d]|e] r2] eqn:Ef; [|done].
    destruct (frame_of_prefix r maxControlFrame typ d r2 goAwayFrame raw []) as (-> & -> & _); try done; try (rewrite maxControlFrame_value in *; lia); [by rewrite app_nil_r|].
    pose proof (ReadFrame_append goAwayFrame raw [] EOF maxControlFrame ltac:(done) ltac:(done) Hl) as HA. rewrite app_nil_r in HA. rewrite HA in HF.
    rewrite Z.eqb_refl in *. simpl in *. rewrite (goaway_proto _ _ Em) in *. destruct (_ <=? _); by injection HR as <- _; injection HF as ->.
  - apply prefix_nil_inv in Hr. exfalso. unfold ReadGoAway, readControlFrame in HR. destruct (ReadFrame r maxControlFrame) as [[[typ d]|e] r2] eqn:Ef; [|done].
    destruct (ReadFrame_consumes _ _ _ _ _ maxControlFrame_range Ef) as (E1 & _). rewrite Hr in E1. symmetry in E1.
    apply app_eq_nil in E1 as [E1 _]. by apply AppendFrame_nonempty in E1.
Qed.

(** C28. Two peers.  However much of a side's control stream reached the other
    and whatever both are doing: a HELLO the peer reads is exactly the one that
    was sent; a code it reads from GOAWAY is the code the side is closing with,
    and it owes no GOAWAY in return.  When the stream arrived whole, the HELLO is
    read, and after a close that owed GOAWAY and wrote it the code too; a close
    that owed none is Unspecified, without a violation. *)
Theorem control_agreement families record hello s r sB :
  families_ok families -> Forall (fun f => 0 <= f < 2 ^ 32) families -> HelloBytes marshalHello families record = Ok hello ->
  runs hello s -> (forall code g pc, t_close s = Some (code, g, pc) -> is_stack_code (code_value code) = true /\ code_protocol code = false) ->
  rd_data r `prefix_of` t_sent s -> t_cancelled sB = None -> t_close sB = None ->
  (forall h r', ReadHello unmarshalHello r = (Some (Ok h), r') ->
     h = mk_PeerHello families record /\
     forall c r2, ReadGoAway unmarshalGoAway r' = (Ok c, r2) ->
       readGoAway None r' sB = (c, false, true) /\ exists pc, t_close s = Some (c, true, pc)) /\
  (rd_data r = t_sent s -> exists r', ReadHello unmarshalHello r = (Some (Ok (mk_PeerHello families record)), r') /\
     (forall code b, t_close s = Some (code, true, CDone) -> GoAwayBytes marshalGoAway code = Some b -> t_sent s = hello ++ b ->
        readGoAway None r' sB = (code, false, true)) /\
     (forall code, t_close s = Some (code, false, CDone) -> rd_end r = EOF -> readGoAway None r' sB = (Unspecified, false, true))).
Proof using hello_proto goaway_proto goaway_fits.
  intros Hok H32 HB Hr Hst Hp HcB HkB. pose proof (runs_inv hello s Hr) as HI. destruct (si_bytes hello s HI) as (t & Ht & Hk). rewrite Ht in Hp. split.
  - intros h r' HR. destruct (ReadHello_prefix families record hello t r h r' H32 HB Hp HR) as (-> & Hp' & _). split; [done|]. intros c r2 HG.
    split; [unfold readGoAway; by rewrite HcB, HG|].
    assert (t = [] -> False) as Hne.
    { intros ->. apply prefix_nil_inv in Hp'. unfold ReadGoAway, readControlFrame in HG. destruct (ReadFrame r' maxControlFrame) as [[[typ d]|e] r3] eqn:Ef; [|done].
      destruct (ReadFrame_consumes _ _ _ _ _ maxControlFrame_range Ef) as (E1 & _). rewrite Hp' in E1. symmetry in E1.
      apply app_eq_nil in E1 as [E1 _]. by apply AppendFrame_nonempty in E1. }
    destruct (t_close s) as [[[code g] pc]|] eqn:Ec; [|by destruct Hne]. destruct (Hst code g pc eq_refl) as [S1 S2].
    assert (g = true /\ t `prefix_of` default [] (GoAwayBytes marshalGoAway code)) as [-> Hpre] by (destruct g; [destruct pc; by split|by destruct pc]).
    exists pc. by rewrite (ReadGoAway_prefix code r' c r2 S1 S2 ltac:(by etrans) HG).
  - intros Hd. destruct r as [data en]. simpl in Hd, Hp. rewrite Ht in Hd. subst data. exists (mk_reader t en).
    split; [by apply (ReadHello_bytes marshalHello unmarshalHello hello_proto)|]. split.
    + intros code b Hc Hb Hs. rewrite Ht in Hs. apply app_inv_head in Hs as ->. destruct (Hst code true CDone Hc) as [S1 S2].
      unfold readGoAway. rewrite HcB. pose proof (goaway_roundtrip marshalGoAway unmarshalGoAway goaway_proto code b [] en S1 S2 (goaway_fits _) Hb) as HF.
      rewrite app_nil_r in HF. by rewrite HF.
    + intros code Hc He. simpl in He. subst en. rewrite Hc in Hk. simpl in Hk. subst t. unfold readGoAway, classifyReadError, closing. by rewrite HcB, HkB.
Qed.
End session.

(** ** A run

    HELLO is written, the peer's arrives and is read, then the supervisor closes
    the view with [Closing]. *)

Module ControlDemo.
Definition hello : bytes := [Byte.x00; Byte.x00; Byte.x00; Byte.x01; Byte.x01].
Definition s0 : controlSession := mk_ctl Waiting hello None false false None None None.
Abbreviation await := (awaitHello demo_unmarshalHello).
Abbreviation next := (close_next demo_marshalGoAway).
Definition then_ (o : controlSession -> option controlSession) (s : controlSession) : controlSession := default s (o s).
Definition peer : reader := mk_reader hello ErrDeadline.
Definition s3 : controlSession := then_ (await (WaitStream peer) None None) (then_ (await (WaitStream peer) None None) (then_ (await (WaitStream peer) None None) s0)).
Definition s8 : controlSession := then_ (next None) (then_ (next None) (then_ (next None) (then_ (next None) (close Closing true s3)))).

Lemma then_runs (o : controlSession -> option controlSession) s :
  (forall s', o s = Some s' -> step demo_unmarshalHello demo_marshalGoAway s s') -> runs demo_unmarshalHello demo_marshalGoAway hello s ->
  runs demo_unmarshalHello demo_marshalGoAway hello (then_ o s).
Proof.
  intros Ho (ctx & x & H1 & H2). unfold then_. destruct (o s) as [s'|] eqn:E; [|by exists ctx, x]. exists ctx, x. split; [done|]. eapply rtc_r; [exact H2|by apply Ho].
Qed.

Lemma runs_s8 : runs demo_unmarshalHello demo_marshalGoAway hello s8.
Proof.
  do 4 (apply then_runs; [intros s' H; by eapply st_close_next|]).
  assert (runs demo_unmarshalHello demo_marshalGoAway hello s3) as (ctx & x & H1 & H2).
  { do 3 (apply then_runs; [intros s' H; by eapply st_await|]). exists None, s0. split; [done|apply rtc_refl]. }
  exists ctx, x. split; [done|]. eapply rtc_r; [exact H2|apply st_close].
Qed.
End ControlDemo.

Import ControlDemo.

Lemma control_close_once_witness : t_released s8 = Some Closing /\ is_Some (t_end s8) /\ t_found s8 = true /\
  exists t, t_sent s8 = hello ++ t /\ tail_ok demo_marshalGoAway (t_close s8) t.
Proof.
  destruct (control_close_once demo_unmarshalHello demo_marshalGoAway hello s8 runs_s8) as (H1 & H2 & H3 & _).
  assert (t_close s8 = Some (Closing, true, CDone)) as Ec by (vm_compute; reflexivity).
  assert (t_released s8 = Some Closing) as E by (apply (proj2 (H2 Closing)); exists true; exact Ec).
  split; [exact E|]. split; [apply H3; rewrite E; eexists; reflexivity|]. split; [vm_compute; reflexivity|exact H1].
Defined.

Lemma demo_goaway_fits m raw : demo_marshalGoAway m = Ok raw -> Z.of_nat (length raw) <= maxControlFrame.
Proof. unfold demo_marshalGoAway. destruct (_ =? 10); [|done]. by intros [= <-]. Qed.

Lemma control_agreement_witness :
  exists r', ReadHello demo_unmarshalHello (mk_reader (t_sent s8) EOF) = (Some (Ok (mk_PeerHello [3; 7] [Byte.x2a])), r') /\
    readGoAway demo_unmarshalGoAway None r' s0 = (Closing, false, true).
Proof.
  destruct (control_agreement demo_marshalHello demo_unmarshalHello demo_marshalGoAway demo_unmarshalGoAway demo_hello_proto demo_goaway_proto demo_goaway_fits
    [3; 7] [Byte.x2a] hello s8 (mk_reader (t_sent s8) EOF) s0) as (_ & H).
  - exact demo_families_ok.
  - repeat constructor; lia.
  - vm_compute. reflexivity.
  - exact runs_s8.
  - intros code g pc E. vm_compute in E. injection E as <- <- <-. split; reflexivity.
  - reflexivity.
  - reflexivity.
  - reflexivity.
  - destruct (H eq_refl) as (r' & H1 & H2 & _). exists r'. split; [exact H1|].
    apply (H2 Closing [Byte.x01; Byte.x01; Byte.x0a]); vm_compute; reflexivity.
Defined.
