(* ===== verification/Endpoint.v ===== *)
(** * Endpoint: the shared QUIC endpoint (src/transport/endpoint.go, ethp2p.go, libp2p.go)

    One socket serves libp2p and ethp2p.  The accept loop and any number of
    [Dial]s make connections and offer their views to two bounded queues;
    [Accept] calls take them; the libp2p listener may be closed and the endpoint
    shut down at any time.  A step is one critical section or one blocking call
    of one goroutine.  quic-go is the environment: what [raw.Dial], [ln.Accept]
    and [raw.Listen] return, except that they fail once [raw.Close] was called,
    and when the goroutines of a connection end.  Connections are numbers; a
    legacy connection is its own libp2p view. *)

From S2P Require Import Prelude Wire Types PeerIo View.

#[local] Set Default Proof Using "Type".
#[local] Open Scope nat_scope.

Definition maxConnsPendingDelivery : nat := 16.

(** Application error codes outside the stack's. *)
Definition appNoError : Z := 0.
Definition appFailure : Z := 1.

Inductive alpn := AlpnLibp2p | AlpnEthp2p | AlpnOther.

Inductive endpoint_err :=
| ErrClosed | ErrDialLegacyPeer | errAlreadyListening | errNotWired | errAlreadyStarted
| EpCtx (e : ctx_err) | EpOther (e : error).

(** The accept loop: in [ln.Accept], with a connection to offer, with its ethp2p
    view still to offer, with its dispatchers to start. *)
Inductive loop_pc := LoopOff | LoopAccept | LoopGot (c : nat) (a : alpn) | LoopEth (c : nat) | LoopStart (c : nat).

(** [Ethp2pTransport.Dial]. *)
Inductive dial_pc :=
| DialNew | DialReserved | DialChecked | DialGot (c : nat) (legacy : bool) | DialStart (c : nat)
| DialReturned (r : result endpoint_err nat).

(** [libp2pListener.Accept]: in its select, with a view taken from the queue. *)
Inductive acc_pc := AccSelect | AccHeld (c : nat) | AccReturned (r : result endpoint_err nat).

(** [Endpoint.Close]. *)
Inductive shut_pc := ShutNew | ShutStopped | ShutCancelled | ShutClosed | ShutReturned.

Record endpoint := mk_endpoint {
  ep_wired : Z;                            (* side bits *)
  ep_started : bool; ep_stopped : bool;
  ep_ctx : bool; ep_raw : bool;            (* the context has ended; raw is closed *)
  ep_libQ : list nat; ep_ethQ : list nat;
  ep_listening : bool; ep_libDone : bool;
  ep_wg : nat;
  ep_loop : loop_pc; ep_dials : list dial_pc; ep_accepts : list acc_pc; ep_shuts : list shut_pc;
  ep_disp : nat;                           (* goroutines of connections *)
  ep_next : nat;                           (* connections so far *)
  ep_offered : side -> list nat;           (* views made, in order *)
  ep_taken : side -> list nat;             (* views handed to libp2p and ethp2p *)
  ep_ended : side -> list (nat * Z) }.     (* views the endpoint released *)

Implicit Types (t : endpoint).

Definition set_flags w st sp cx rw t := mk_endpoint w st sp cx rw (ep_libQ t) (ep_ethQ t) (ep_listening t) (ep_libDone t) (ep_wg t) (ep_loop t) (ep_dials t) (ep_accepts t) (ep_shuts t) (ep_disp t) (ep_next t) (ep_offered t) (ep_taken t) (ep_ended t).
Definition set_queues lq eq t := mk_endpoint (ep_wired t) (ep_started t) (ep_stopped t) (ep_ctx t) (ep_raw t) lq eq (ep_listening t) (ep_libDone t) (ep_wg t) (ep_loop t) (ep_dials t) (ep_accepts t) (ep_shuts t) (ep_disp t) (ep_next t) (ep_offered t) (ep_taken t) (ep_ended t).
Definition set_listen l d t := mk_endpoint (ep_wired t) (ep_started t) (ep_stopped t) (ep_ctx t) (ep_raw t) (ep_libQ t) (ep_ethQ t) l d (ep_wg t) (ep_loop t) (ep_dials t) (ep_accepts t) (ep_shuts t) (ep_disp t) (ep_next t) (ep_offered t) (ep_taken t) (ep_ended t).
Definition set_wg w d t := mk_endpoint (ep_wired t) (ep_started t) (ep_stopped t) (ep_ctx t) (ep_raw t) (ep_libQ t) (ep_ethQ t) (ep_listening t) (ep_libDone t) w (ep_loop t) (ep_dials t) (ep_accepts t) (ep_shuts t) d (ep_next t) (ep_offered t) (ep_taken t) (ep_ended t).
Definition set_loop l t := mk_endpoint (ep_wired t) (ep_started t) (ep_stopped t) (ep_ctx t) (ep_raw t) (ep_libQ t) (ep_ethQ t) (ep_listening t) (ep_libDone t) (ep_wg t) l (ep_dials t) (ep_accepts t) (ep_shuts t) (ep_disp t) (ep_next t) (ep_offered t) (ep_taken t) (ep_ended t).
Definition set_dials l t := mk_endpoint (ep_wired t) (ep_started t) (ep_stopped t) (ep_ctx t) (ep_raw t) (ep_libQ t) (ep_ethQ t) (ep_listening t) (ep_libDone t) (ep_wg t) (ep_loop t) l (ep_accepts t) (ep_shuts t) (ep_disp t) (ep_next t) (ep_offered t) (ep_taken t) (ep_ended t).
Definition set_accepts l t := mk_endpoint (ep_wired t) (ep_started t) (ep_stopped t) (ep_ctx t) (ep_raw t) (ep_libQ t) (ep_ethQ t) (ep_listening t) (ep_libDone t) (ep_wg t) (ep_loop t) (ep_dials t) l (ep_shuts t) (ep_disp t) (ep_next t) (ep_offered t) (ep_taken t) (ep_ended t).
Definition set_shuts l t := mk_endpoint (ep_wired t) (ep_started t) (ep_stopped t) (ep_ctx t) (ep_raw t) (ep_libQ t) (ep_ethQ t) (ep_listening t) (ep_libDone t) (ep_wg t) (ep_loop t) (ep_dials t) (ep_accepts t) l (ep_disp t) (ep_next t) (ep_offered t) (ep_taken t) (ep_ended t).
Definition set_next n t := mk_endpoint (ep_wired t) (ep_started t) (ep_stopped t) (ep_ctx t) (ep_raw t) (ep_libQ t) (ep_ethQ t) (ep_listening t) (ep_libDone t) (ep_wg t) (ep_loop t) (ep_dials t) (ep_accepts t) (ep_shuts t) (ep_disp t) n (ep_offered t) (ep_taken t) (ep_ended t).
Definition set_logs o k e t := mk_endpoint (ep_wired t) (ep_started t) (ep_stopped t) (ep_ctx t) (ep_raw t) (ep_libQ t) (ep_ethQ t) (ep_listening t) (ep_libDone t) (ep_wg t) (ep_loop t) (ep_dials t) (ep_accepts t) (ep_shuts t) (ep_disp t) (ep_next t) o k e.

Definition fapp {A} (s : side) (l : list A) (f : side -> list A) : side -> list A := fset s (f s ++ l) f.
Definition offer_log s c t := set_logs (fapp s [c] (ep_offered t)) (ep_taken t) (ep_ended t) t.
Definition take_log s c t := set_logs (ep_offered t) (fapp s [c] (ep_taken t)) (ep_ended t) t.
Definition end_log s l t := set_logs (ep_offered t) (ep_taken t) (fapp s l (ep_ended t)) t.
Definition wg_add (n : nat) t := set_wg (ep_wg t + n) (ep_disp t) t.
Definition wg_done t := set_wg (pred (ep_wg t)) (ep_disp t) t.

(** ** Wiring and starting *)

Definition NewEndpoint : endpoint :=
  mk_endpoint 0 false false false false [] [] false false 0 LoopOff [] [] [] 0 0 (fun _ => []) (fun _ => []) (fun _ => []).

Definition wire (s : side) t : endpoint := set_flags (Z.lor (ep_wired t) (side_bit s)) (ep_started t) (ep_stopped t) (ep_ctx t) (ep_raw t) t.

(** [listen] is the error [raw.Listen] returns. *)
Definition Start (listen : option error) t : option endpoint_err * endpoint :=
  if negb (ep_wired t =? Z.lor (side_bit Libp2p) (side_bit Ethp2p))%Z then (Some errNotWired, t)
  else if ep_started t then (Some errAlreadyStarted, t)
  else let t := set_flags (ep_wired t) true (ep_stopped t) (ep_ctx t) (ep_raw t) t in
       if ep_stopped t then (Some ErrClosed, t)
       else match listen with
            | Some e => (Some (EpOther e), t)
            | None => (None, set_loop LoopAccept (wg_add 1 t))
            end.

(** ** Offers *)

Definition offerEthp2p (c : nat) t : endpoint :=
  let t := offer_log Ethp2p c t in
  if length (ep_ethQ t) <? maxConnsPendingDelivery then set_queues (ep_libQ t) (ep_ethQ t ++ [c]) t
  else end_log Ethp2p [(c, Wire.Wire Unspecified)] t.

Definition libDetached t : bool := ep_libDone t.

Definition offerLibp2p (c : nat) t : endpoint :=
  let t := offer_log Libp2p c t in
  if libDetached t then end_log Libp2p [(c, appNoError)] t
  else if length (ep_libQ t) <? maxConnsPendingDelivery then set_queues (ep_libQ t ++ [c]) (ep_ethQ t) t
  else end_log Libp2p [(c, appFailure)] t.

Definition detachLibp2p t : endpoint :=
  if libDetached t then t
  else let queued := ep_libQ t in
       end_log Libp2p (map (fun c => (c, Wire.Wire Closing)) queued) (set_queues [] (ep_ethQ t) (set_listen (ep_listening t) true t)).

(** ** The accept loop *)

Definition startDispatchers t : endpoint := set_wg (ep_wg t + 2) (ep_disp t + 2) t.

(** A new connection. *)
Definition fresh t : endpoint := set_next (S (ep_next t)) t.

(** [got] is what [ln.Accept] returns. *)
Definition acceptLoop (got : option alpn) t : option endpoint :=
  match ep_loop t with
  | LoopOff => None
  | LoopAccept =>
      match got with
      | None => Some (wg_done (set_loop LoopOff t))
      | Some a => if ep_raw t then None else Some (fresh (set_loop (LoopGot (ep_next t) a) t))
      end
  | LoopGot c AlpnLibp2p => Some (set_loop LoopAccept (offerLibp2p c t))
  | LoopGot c AlpnEthp2p => Some (set_loop (LoopEth c) (offerLibp2p c t))
  | LoopGot c AlpnOther => Some (set_loop LoopAccept (end_log Libp2p [(c, appFailure)] (offer_log Libp2p c t)))
  | LoopEth c => Some (set_loop (LoopStart c) (offerEthp2p c t))
  | LoopStart c => Some (set_loop LoopAccept (startDispatchers t))
  end.

(** ** Dial *)

Definition set_dial (i : nat) (pc : dial_pc) t : endpoint := set_dials (<[i := pc]> (ep_dials t)) t.
(** Returning runs the deferred [wg.Done]. *)
Definition dial_returns (i : nat) (r : result endpoint_err nat) t : endpoint := wg_done (set_dial i (DialReturned r) t).

(** [got] is what [raw.Dial] returns. *)
Definition Dial (got : result endpoint_err alpn) (i : nat) t : option endpoint :=
  letp pc := ep_dials t !! i in
  match pc with
  | DialNew => Some (wg_add 1 (set_dial i DialReserved t))
  | DialReserved => Some (if ep_stopped t then dial_returns i (Err ErrClosed) t else set_dial i DialChecked t)
  | DialChecked =>
      match got with
      | Err e => Some (dial_returns i (Err (if ep_ctx t then ErrClosed else e)) t)
      | Ok a => if ep_raw t then None
                else Some (fresh (set_dial i (DialGot (ep_next t) (match a with AlpnLibp2p => true | _ => false end)) t))
      end
  | DialGot c true => Some (dial_returns i (Err ErrDialLegacyPeer) (offerLibp2p c t))
  | DialGot c false => Some (set_dial i (DialStart c) (offerLibp2p c t))
  | DialStart c => Some (dial_returns i (Ok c) (take_log Ethp2p c (offer_log Ethp2p c (startDispatchers t))))
  | DialReturned _ => None
  end.

(** ** Accepting *)

(** The branch of a select that is taken. *)
Inductive branch := BrConn | BrDetached | BrClosed | BrCtx (e : ctx_err).

(** [Ethp2pTransport.Accept]: [None] when the branch is not ready. *)
Definition ethp2p_Accept (b : branch) t : option (result endpoint_err nat * endpoint) :=
  match b with
  | BrConn => match ep_ethQ t with c :: q => Some (Ok c, take_log Ethp2p c (set_queues (ep_libQ t) q t)) | [] => None end
  | BrClosed => if ep_ctx t then Some (Err ErrClosed, t) else None
  | BrCtx e => Some (Err (EpCtx e), t)
  | BrDetached => None
  end.

(** [Libp2pTransport.Listen]. *)
Definition Listen t : option endpoint_err * endpoint :=
  if ep_stopped t then (Some ErrClosed, t)
  else if ep_listening t then (Some errAlreadyListening, t)
  else (None, set_listen true (ep_libDone t) t).

Definition set_acc (i : nat) (pc : acc_pc) t : endpoint := set_accepts (<[i := pc]> (ep_accepts t)) t.

(** [libp2pListener.Accept]. *)
Definition libp2p_Accept (b : branch) (i : nat) t : option endpoint :=
  letp pc := ep_accepts t !! i in
  match pc with
  | AccSelect =>
      match b with
      | BrConn => match ep_libQ t with c :: q => Some (set_acc i (AccHeld c) (set_queues q (ep_ethQ t) t)) | [] => None end
      | BrDetached => if ep_libDone t then Some (set_acc i (AccReturned (Err ErrClosed)) t) else None
      | BrClosed => if ep_ctx t then Some (set_acc i (AccReturned (Err ErrClosed)) t) else None
      | BrCtx e => Some (set_acc i (AccReturned (Err (EpCtx e))) t)
      end
  | AccHeld c =>
      Some (if libDetached t || ep_ctx t
            then set_acc i (AccReturned (Err ErrClosed)) (end_log Libp2p [(c, Wire.Wire Closing)] t)
            else set_acc i (AccReturned (Ok c)) (take_log Libp2p c t))
  | AccReturned _ => None
  end.

(** ** Shutdown *)

Definition shutdown (i : nat) t : option endpoint :=
  letp pc := ep_shuts t !! i in
  let at_ pc := set_shuts (<[i := pc]> (ep_shuts t)) in
  match pc with
  | ShutNew => Some (at_ ShutStopped (set_flags (ep_wired t) (ep_started t) true (ep_ctx t) (ep_raw t) t))
  | ShutStopped => Some (at_ ShutCancelled (set_flags (ep_wired t) (ep_started t) (ep_stopped t) true (ep_raw t) t))
  | ShutCancelled => Some (at_ ShutClosed (set_flags (ep_wired t) (ep_started t) (ep_stopped t) (ep_ctx t) true t))
  | ShutClosed => if ep_wg t =? 0 then Some (at_ ShutReturned t) else None
  | ShutReturned => None
  end.

(** ** Runs *)

(** Calls that begin. *)
Inductive outer_step : endpoint -> endpoint -> Prop :=
| os_wire s t : outer_step t (wire s t)
| os_start e t : outer_step t (Start e t).2
| os_listen t : outer_step t (Listen t).2
| os_detach t : outer_step t (detachLibp2p t)
| os_dial t : outer_step t (set_dials (ep_dials t ++ [DialNew]) t)
| os_accept t : outer_step t (set_accepts (ep_accepts t ++ [AccSelect]) t)
| os_shut t : outer_step t (set_shuts (ep_shuts t ++ [ShutNew]) t)
| os_ethp2p b r t t' : ethp2p_Accept b t = Some (r, t') -> outer_step t t'.

(** What goroutines of the endpoint do next.  A connection's goroutine starts
    another for a stream it accepts, which needs the socket. *)
Inductive own_step : endpoint -> endpoint -> Prop :=
| ow_loop got t t' : acceptLoop got t = Some t' -> own_step t t'
| ow_dial got i t t' : Dial got i t = Some t' -> own_step t t'
| ow_accept b i t t' : libp2p_Accept b i t = Some t' -> own_step t t'
| ow_shut i t t' : shutdown i t = Some t' -> own_step t t'
| ow_spawn t : 0 < ep_disp t -> ep_raw t = false -> own_step t (set_wg (S (ep_wg t)) (S (ep_disp t)) t)
| ow_end t : 0 < ep_disp t -> own_step t (set_wg (pred (ep_wg t)) (pred (ep_disp t)) t).

Definition ep_step t t' : Prop := own_step t t' \/ outer_step t t'.
Definition ep_reachable t : Prop := rtc ep_step NewEndpoint t.

(** [Libp2pTransport.Dial]: [ended] tells whether the endpoint's context has. *)
Definition libp2p_Dial (ended : bool) (got : result endpoint_err nat) : result endpoint_err nat :=
  match got with
  | Err e => Err (if ended then ErrClosed else e)
  | Ok c => Ok c
  end.

(** ** Counting *)

Definition occ (x : nat) (l : list nat) : nat := sum_list_with (fun y => if decide (y = x) then 1 else 0) l.

Lemma occ_app x l k : occ x (l ++ k) = occ x l + occ x k.
Proof. apply sum_list_with_app. Qed.

Lemma occ_in x l : x ∈ l <-> occ x l <> 0.
Proof. unfold occ. induction l as [|y l IH]; cbn; [set_solver|]. rewrite elem_of_cons, IH. case_decide; naive_solver lia. Qed.

Lemma occ_NoDup l : NoDup l <-> forall x, occ x l <= 1.
Proof.
  induction l as [|y l IH]; [split; [cbn; lia|constructor]|]. rewrite NoDup_cons, IH, occ_in. unfold occ in *. cbn. split.
  - intros [H1 H2] x. specialize (H2 x). case_decide; subst; lia.
  - intros H. split; [specialize (H y); rewrite decide_True in H by done; lia|]. intros x. specialize (H x). lia.
Qed.

Lemma occ_perm l k : (forall x, occ x l = occ x k) -> l ≡ₚ k.
Proof.
  revert k. induction l as [|y l IH]; intros k H.
  - destruct k as [|z k]; [done|]. specialize (H z). unfold occ in H. cbn in H. rewrite decide_True in H by done. lia.
  - assert (y ∈ k) as Hy. { apply occ_in. rewrite <- H. unfold occ. cbn. rewrite decide_True by done. lia. }
    apply elem_of_Permutation in Hy as [k' Hk]. rewrite Hk. constructor. apply IH. intros x. specialize (H x).
    assert (Hc : occ x k = occ x (y :: k')). { unfold occ. by rewrite Hk. } rewrite Hc in H. unfold occ in *. cbn in H. lia.
Qed.

Lemma sum_insert {A} (f : A -> nat) (l : list A) i x y : l !! i = Some x -> sum_list_with f (<[i := y]> l) + f x = sum_list_with f l + f y.
Proof. revert i. induction l as [|z l IH]; intros [|i] H; simplify_eq/=; [lia|]. specialize (IH i H). lia. Qed.

Lemma occ_bind {A} x (f : A -> list nat) (l : list A) : occ x (l ≫= f) = sum_list_with (fun a => occ x (f a)) l.
Proof. induction l as [|a l IH]; [done|]. change ((a :: l) ≫= f) with (f a ++ (l ≫= f)). rewrite occ_app, IH. done. Qed.

(** Where a view is: queued, held by an [Accept], taken or released. *)
Definition acc_hold (a : acc_pc) : list nat := match a with AccHeld c => [c] | _ => [] end.
Definition queue (s : side) t : list nat := match s with Libp2p => ep_libQ t | Ethp2p => ep_ethQ t end.
Definition held (s : side) t : list nat := match s with Libp2p => ep_accepts t ≫= acc_hold | Ethp2p => [] end.
Definition places (s : side) t : list nat := queue s t ++ held s t ++ ep_taken t s ++ (ep_ended t s).*1.

(** Views still to be offered. *)
Definition loop_pend (s : side) (l : loop_pc) : list nat :=
  match s, l with
  | Libp2p, LoopGot c _ | Ethp2p, LoopGot c AlpnEthp2p | Ethp2p, LoopEth c => [c]
  | _, _ => []
  end.
Definition dial_pend (s : side) (d : dial_pc) : list nat :=
  match s, d with Libp2p, DialGot c _ | Ethp2p, DialGot c false | Ethp2p, DialStart c => [c] | _, _ => [] end.
Definition to_offer (s : side) t : list nat := loop_pend s (ep_loop t) ++ (ep_dials t ≫= dial_pend s).

(** What the wait group counts. *)
Definition dial_live (d : dial_pc) : nat := match d with DialNew | DialReturned _ => 0 | _ => 1 end.
Definition loop_live (l : loop_pc) : nat := match l with LoopOff => 0 | _ => 1 end.
Definition past_check (d : dial_pc) : bool := match d with DialNew | DialReserved | DialReturned _ => false | _ => true end.

Definition shut_ok t (p : shut_pc) : Prop :=
  match p with
  | ShutNew => True
  | ShutStopped => ep_stopped t = true
  | ShutCancelled => ep_ctx t = true
  | ShutClosed => ep_raw t = true
  | ShutReturned => ep_raw t = true /\ ep_disp t = 0 /\ ep_loop t = LoopOff /\ Forall (fun d => past_check d = false) (ep_dials t)
  end.

Record ep_inv t : Prop := {
  ei_places : forall s x, occ x (ep_offered t s) = occ x (places s t);
  ei_once : forall s x, occ x (to_offer s t) + occ x (ep_offered t s) <= if decide (x < ep_next t) then 1 else 0;
  ei_lib : length (ep_libQ t) <= maxConnsPendingDelivery /\ (ep_libDone t = true -> ep_libQ t = []);
  ei_eth : length (ep_ethQ t) <= maxConnsPendingDelivery;
  ei_wg : ep_wg t = sum_list_with dial_live (ep_dials t) + loop_live (ep_loop t) + ep_disp t;
  ei_flags : (ep_raw t = true -> ep_ctx t = true) /\ (ep_ctx t = true -> ep_stopped t = true);
  ei_shuts : Forall (shut_ok t) (ep_shuts t);
  ei_started : ep_started t = false -> ep_loop t = LoopOff }.

(** ** The invariant is kept *)

#[local] Arguments occ : simpl never.
#[local] Arguments maxConnsPendingDelivery : simpl never.

Lemma occ_nil x : occ x [] = 0.
Proof. done. Qed.
Lemma occ_cons x y l : occ x (y :: l) = (if decide (y = x) then 1 else 0) + occ x l.
Proof. done. Qed.
Lemma fapp_eq {A} s (l : list A) f : fapp s l f s = f s ++ l.
Proof. unfold fapp, fset. by rewrite decide_True. Qed.
Lemma fapp_lib {A} (l : list A) f : fapp Libp2p l f Ethp2p = f Ethp2p.
Proof. done. Qed.
Lemma fapp_eth {A} (l : list A) f : fapp Ethp2p l f Libp2p = f Libp2p.
Proof. done. Qed.
Lemma occ_map_fst x (z : Z) (l : list nat) : occ x ((map (fun c => (c, z)) l).*1) = occ x l.
Proof. induction l as [|y l IH]; [done|]. cbn. by rewrite !occ_cons, IH. Qed.

(** The counts of a state, as sums. *)
#[local] Arguments loop_pend !s !l /.
#[local] Arguments dial_pend !s !d /.
#[local] Arguments acc_hold !a /.

Ltac ep_cbn := cbn [set_flags set_queues set_listen set_wg set_loop set_dials set_accepts set_shuts set_next set_logs offer_log take_log end_log wg_add wg_done fresh set_dial dial_returns set_acc startDispatchers
  ep_wired ep_started ep_stopped ep_ctx ep_raw ep_libQ ep_ethQ ep_listening ep_libDone ep_wg ep_loop ep_dials ep_accepts ep_shuts ep_disp ep_next ep_offered ep_taken ep_ended] in *.
Ltac counts := unfold places, to_offer, held, queue in *; ep_cbn;
  rewrite ?fapp_eq, ?fapp_lib, ?fapp_eth in *; rewrite ?fmap_app in *; rewrite ?occ_app, ?occ_bind, ?occ_map_fst, ?sum_list_with_app, ?occ_cons, ?occ_nil in *;
  cbn [fmap list_fmap fst sum_list_with loop_pend dial_pend acc_hold] in *; rewrite ?occ_cons, ?occ_nil in *; repeat case_decide; subst; try lia.

Lemma ei_shut_frame t t' l : Forall (shut_ok t) l ->
  (ep_stopped t = true -> ep_stopped t' = true) -> (ep_ctx t = true -> ep_ctx t' = true) -> (ep_raw t = true -> ep_raw t' = true) ->
  (ep_raw t = true -> ep_disp t = 0 -> ep_loop t = LoopOff -> Forall (fun d => past_check d = false) (ep_dials t) ->
   ep_disp t' = 0 /\ ep_loop t' = LoopOff /\ Forall (fun d => past_check d = false) (ep_dials t')) -> Forall (shut_ok t') l.
Proof. intros H H1 H2 H3 H4. eapply Forall_impl; [exact H|]. intros []; cbn; naive_solver. Qed.

(** Most of the invariant by counting; what is left is the state's own. *)
Ltac ep_solve A1 A2 A7 :=
  constructor; ep_cbn; auto;
  try (let s := fresh "s" in let x := fresh "x" in intros s x; specialize (A1 s x); specialize (A2 s x); destruct s; counts; fail);
  try (apply (ei_shut_frame _ _ _ A7); ep_cbn; (done || auto); fail).

Lemma offerLibp2p_inv c t : ep_inv t -> (forall x, occ x [c] + occ x (to_offer Libp2p t) + occ x (ep_offered t Libp2p) <= if decide (x < ep_next t) then 1 else 0) -> ep_inv (offerLibp2p c t).
Proof.
  intros [A1 A2 A3 A4 A5 A6 A7 A8] Hc. unfold offerLibp2p, libDetached. ep_cbn.
  destruct (ep_libDone t) eqn:Ed; [|destruct (Nat.ltb_spec (length (ep_libQ t)) maxConnsPendingDelivery)].
  all: ep_solve A1 A2 A7; try (intros s x; specialize (A1 s x); specialize (A2 s x); specialize (Hc x); destruct s; counts; fail).
  1, 3: by rewrite Ed.
  rewrite length_app. cbn. split; [lia|]. congruence.
Qed.

Lemma offerEthp2p_inv c t : ep_inv t -> (forall x, occ x [c] + occ x (to_offer Ethp2p t) + occ x (ep_offered t Ethp2p) <= if decide (x < ep_next t) then 1 else 0) -> ep_inv (offerEthp2p c t).
Proof.
  intros [A1 A2 A3 A4 A5 A6 A7 A8] Hc. unfold offerEthp2p. ep_cbn.
  destruct (Nat.ltb_spec (length (ep_ethQ t)) maxConnsPendingDelivery).
  all: ep_solve A1 A2 A7; try (intros s x; specialize (A1 s x); specialize (A2 s x); specialize (Hc x); destruct s; counts; fail).
  rewrite length_app. cbn. lia.
Qed.

Lemma detach_inv t : ep_inv t -> ep_inv (detachLibp2p t).
Proof.
  intros [A1 A2 A3 A4 A5 A6 A7 A8]. unfold detachLibp2p, libDetached. destruct (ep_libDone t) eqn:Ed; [by constructor; rewrite ?Ed|].
  ep_solve A1 A2 A7. cbn. split; [lia|done].
Qed.

(** A goroutine moves on, giving up the connection it holds or keeping it. *)
Lemma loop_move l w n t : ep_inv t -> w + loop_live (ep_loop t) + ep_disp t = ep_wg t + loop_live l + n ->
  (forall s x, occ x (loop_pend s l) <= occ x (loop_pend s (ep_loop t))) -> ep_loop t <> LoopOff -> ep_inv (set_wg w n (set_loop l t)).
Proof.
  intros [A1 A2 A3 A4 A5 A6 A7 A8] Hw Hp Ho. ep_solve A1 A2 A7.
  - intros s x. specialize (A2 s x). specialize (Hp s x). unfold to_offer in *. ep_cbn. rewrite !occ_app in *. lia.
  - lia.
  - intros Hs. by destruct (Ho (A8 Hs)).
Qed.

Lemma dial_move i d d' w n t : ep_inv t -> ep_dials t !! i = Some d -> w + dial_live d + ep_disp t = ep_wg t + dial_live d' + n ->
  (forall s x, occ x (dial_pend s d') <= occ x (dial_pend s d)) ->
  past_check d = true \/ (past_check d' = false \/ ep_stopped t = false) /\ n = ep_disp t -> ep_inv (set_wg w n (set_dial i d' t)).
Proof.
  intros [A1 A2 A3 A4 A5 A6 A7 A8] Hi Hw Hp Hc. ep_solve A1 A2 A7.
  - intros s x. specialize (A2 s x). specialize (Hp s x). pose proof (sum_insert (fun a => occ x (dial_pend s a)) _ _ _ d' Hi).
    unfold to_offer in *. ep_cbn. rewrite !occ_app, !occ_bind in *. lia.
  - pose proof (sum_insert dial_live _ _ _ d' Hi). lia.
  - apply (ei_shut_frame _ _ _ A7); ep_cbn; auto. intros Hr Hn Hl Hd.
    assert (past_check d = false) by (rewrite Forall_lookup in Hd; eauto).
    destruct Hc as [?|[[Hc|Hs] ->]]; [congruence| |rewrite (proj2 A6 (proj1 A6 Hr)) in Hs; congruence].
    split_and!; auto. by apply Forall_insert.
Qed.

Lemma set_wg_id t : set_wg (ep_wg t) (ep_disp t) t = t.
Proof. by destruct t. Qed.

(** A new connection in a goroutine's hands. *)
Lemma once_fresh s t : ep_inv t -> occ (ep_next t) (to_offer s t) + occ (ep_next t) (ep_offered t s) = 0.
Proof. intros HI. pose proof (ei_once t HI s (ep_next t)) as H. rewrite decide_False in H by lia. lia. Qed.

Lemma loop_fresh a t : ep_inv t -> ep_loop t = LoopAccept -> ep_raw t = false -> ep_inv (fresh (set_loop (LoopGot (ep_next t) a) t)).
Proof.
  intros HI El Er. pose proof (once_fresh Libp2p t HI) as F1. pose proof (once_fresh Ethp2p t HI) as F2. pose proof HI as [A1 A2 A3 A4 A5 A6 A7 A8]. ep_solve A1 A2 A7.
  - intros s x. specialize (A2 s x). destruct s; unfold to_offer in *; ep_cbn; rewrite El in *; counts; destruct a; counts.
  - rewrite El in A5. exact A5.
  - apply (ei_shut_frame _ _ _ A7); ep_cbn; auto; congruence.
  - intros Hs. rewrite (A8 Hs) in El. done.
Qed.

Lemma dial_fresh i b t : ep_inv t -> ep_dials t !! i = Some DialChecked -> ep_raw t = false -> ep_inv (fresh (set_dial i (DialGot (ep_next t) b) t)).
Proof.
  intros HI Hi Er. pose proof (once_fresh Libp2p t HI) as F1. pose proof (once_fresh Ethp2p t HI) as F2. pose proof HI as [A1 A2 A3 A4 A5 A6 A7 A8]. ep_solve A1 A2 A7.
  - intros s x. specialize (A2 s x). pose proof (sum_insert (fun a => occ x (dial_pend s a)) _ _ _ (DialGot (ep_next t) b) Hi).
    destruct s; unfold to_offer in *; ep_cbn; rewrite !occ_app, !occ_bind in *; destruct b; counts.
  - pose proof (sum_insert dial_live _ _ _ (DialGot (ep_next t) b) Hi). cbn in *. lia.
  - apply (ei_shut_frame _ _ _ A7); ep_cbn; auto. congruence.
Qed.

Lemma offer_loop l c t : set_loop l (offerLibp2p c t) = offerLibp2p c (set_loop l t).
Proof. unfold offerLibp2p, libDetached. ep_cbn. by destruct (ep_libDone t), (length (ep_libQ t) <? maxConnsPendingDelivery). Qed.
Lemma offer_eth_loop l c t : set_loop l (offerEthp2p c t) = offerEthp2p c (set_loop l t).
Proof. unfold offerEthp2p. ep_cbn. by destruct (length (ep_ethQ t) <? maxConnsPendingDelivery). Qed.
Lemma offer_dial i d c t : set_dial i d (offerLibp2p c t) = offerLibp2p c (set_dial i d t).
Proof. unfold offerLibp2p, libDetached. ep_cbn. by destruct (ep_libDone t), (length (ep_libQ t) <? maxConnsPendingDelivery). Qed.
Lemma offer_wg c t : wg_done (offerLibp2p c t) = offerLibp2p c (wg_done t).
Proof. unfold offerLibp2p, libDetached. ep_cbn. by destruct (ep_libDone t), (length (ep_libQ t) <? maxConnsPendingDelivery). Qed.

(** Releasing a view at once, and handing a dialled one to its caller. *)
Lemma end_offered s c z t : ep_inv t -> (forall x, occ x [c] + occ x (to_offer s t) + occ x (ep_offered t s) <= if decide (x < ep_next t) then 1 else 0) ->
  ep_inv (end_log s [(c, z)] (offer_log s c t)).
Proof.
  intros [A1 A2 A3 A4 A5 A6 A7 A8] Hc. ep_solve A1 A2 A7.
  all: intros s' x; specialize (A1 s' x); specialize (A2 s' x); specialize (Hc x); destruct s, s'; counts.
Qed.
Lemma take_offered c t : ep_inv t -> (forall x, occ x [c] + occ x (to_offer Ethp2p t) + occ x (ep_offered t Ethp2p) <= if decide (x < ep_next t) then 1 else 0) ->
  ep_inv (take_log Ethp2p c (offer_log Ethp2p c t)).
Proof.
  intros [A1 A2 A3 A4 A5 A6 A7 A8] Hc. ep_solve A1 A2 A7.
  all: intros s' x; specialize (A1 s' x); specialize (A2 s' x); specialize (Hc x); destruct s'; counts.
Qed.

(** The connection in hand may be offered once it is out of hand. *)
Lemma loop_once s c l t : ep_inv t -> loop_pend s (ep_loop t) = [c] -> loop_pend s l = [] ->
  forall x, occ x [c] + occ x (to_offer s (set_loop l t)) + occ x (ep_offered (set_loop l t) s) <= if decide (x < ep_next (set_loop l t)) then 1 else 0.
Proof. intros HI H1 H2 x. pose proof (ei_once t HI s x) as H. unfold to_offer in *. ep_cbn. rewrite H1 in H. rewrite H2. rewrite !occ_app, occ_nil in *. lia. Qed.
Lemma dial_once s c i d d' t : ep_inv t -> ep_dials t !! i = Some d -> dial_pend s d = [c] -> dial_pend s d' = [] ->
  forall x, occ x [c] + occ x (to_offer s (set_dial i d' t)) + occ x (ep_offered (set_dial i d' t) s) <= if decide (x < ep_next (set_dial i d' t)) then 1 else 0.
Proof.
  intros HI Hi H1 H2 x. pose proof (ei_once t HI s x) as H. pose proof (sum_insert (fun a => occ x (dial_pend s a)) _ _ _ d' Hi) as G. cbn beta in G. rewrite H1, H2, occ_nil in G.
  unfold to_offer in *. ep_cbn. rewrite !occ_app, !occ_bind in *. lia.
Qed.

Lemma acceptLoop_inv got t t' : ep_inv t -> acceptLoop got t = Some t' -> ep_inv t'.
Proof.
  intros HI. unfold acceptLoop. pose proof (ei_wg t HI) as Hw.
  assert (Hmove : forall l, loop_live l = loop_live (ep_loop t) -> (forall s x, occ x (loop_pend s l) <= occ x (loop_pend s (ep_loop t))) -> ep_loop t <> LoopOff -> ep_inv (set_loop l t)).
  { intros l H1 H2 H3. rewrite <- (set_wg_id (set_loop l t)). apply loop_move; auto. }
  destruct (ep_loop t) as [| |c a|c|c] eqn:El; [done|..].
  - destruct got as [a|]; [destruct (ep_raw t) eqn:Er; [done|]|]; intros [= <-]; [by apply loop_fresh|].
    apply (loop_move LoopOff (pred (ep_wg t)) (ep_disp t)); rewrite ?El; auto. cbn in *. lia.
  - assert (ep_inv (set_loop LoopAccept t)) by (apply Hmove; auto; intros [] x; [|destruct a]; counts).
    destruct a; intros [= <-].
    + rewrite offer_loop. apply offerLibp2p_inv; [done|]. by apply loop_once; rewrite ?El.
    + rewrite offer_loop. apply offerLibp2p_inv; [apply Hmove; auto; intros [] x; counts|]. by apply loop_once; rewrite ?El.
    + apply (end_offered Libp2p c appFailure (set_loop LoopAccept t)); [done|]. by apply loop_once; rewrite ?El.
  - intros [= <-]. rewrite offer_eth_loop. apply offerEthp2p_inv; [apply Hmove; auto; intros [] x; counts|]. by apply loop_once; rewrite ?El.
  - intros [= <-]. apply (loop_move LoopAccept (ep_wg t + 2) (ep_disp t + 2)); auto; rewrite ?El; [cbn; lia|by intros []|done].
Qed.

Ltac moves_dial i d := apply (dial_move i d); auto; cbn in *; try lia; try (intros [] x; counts); auto.

Lemma Dial_inv got i t t' : ep_inv t -> Dial got i t = Some t' -> ep_inv t'.
Proof.
  intros HI. unfold Dial. destruct (ep_dials t !! i) as [d|] eqn:Hi; [|done].
  assert (Hlive : dial_live d <= ep_wg t).
  { pose proof (ei_wg t HI). pose proof (sum_insert dial_live _ _ _ DialNew Hi). cbn in *. lia. }
  destruct d as [| | |c [|]|c|r]; [..|done].
  - intros [= <-]. moves_dial i DialNew.
  - intros [= <-]. destruct (ep_stopped t) eqn:Es.
    + moves_dial i DialReserved.
    + rewrite <- (set_wg_id (set_dial i DialChecked t)). moves_dial i DialReserved.
  - destruct got as [a|e]; [destruct (ep_raw t) eqn:Er; [done|]|]; intros [= <-]; [by apply dial_fresh|].
    moves_dial i DialChecked.
  - intros [= <-]. unfold dial_returns. rewrite offer_dial, offer_wg. apply offerLibp2p_inv.
    + moves_dial i (DialGot c true).
    + exact (dial_once Libp2p c i (DialGot c true) (DialReturned (Err ErrDialLegacyPeer)) t HI Hi eq_refl eq_refl).
  - intros [= <-]. rewrite offer_dial. apply offerLibp2p_inv; [|by eapply (dial_once Libp2p c i (DialGot c false))].
    rewrite <- (set_wg_id (set_dial i (DialStart c) t)). moves_dial i (DialGot c false).
  - intros [= <-]. apply (take_offered c (set_wg (pred (ep_wg t + 2)) (ep_disp t + 2) (set_dial i (DialReturned (Ok c)) t))).
    + moves_dial i (DialStart c).
    + exact (dial_once Ethp2p c i (DialStart c) (DialReturned (Ok c)) t HI Hi eq_refl eq_refl).
Qed.

Lemma acc_returns i a r t : ep_inv t -> ep_accepts t !! i = Some a -> acc_hold a = [] -> ep_inv (set_acc i (AccReturned r) t).
Proof.
  intros [A1 A2 A3 A4 A5 A6 A7 A8] Hi Ha. ep_solve A1 A2 A7.
  intros s x. specialize (A1 s x). pose proof (sum_insert (fun a => occ x (acc_hold a)) _ _ _ (AccReturned r) Hi) as G. cbn beta in G. rewrite Ha in G. destruct s; counts.
Qed.

Lemma libp2p_Accept_inv b i t t' : ep_inv t -> libp2p_Accept b i t = Some t' -> ep_inv t'.
Proof.
  intros HI. unfold libp2p_Accept. destruct (ep_accepts t !! i) as [a|] eqn:Hi; [|done].
  destruct a as [|c|r]; [..|done].
  - destruct b; [|destruct (ep_libDone t); [|done]|destruct (ep_ctx t); [|done]|]; try (intros [= <-]; by eapply acc_returns).
    destruct (ep_libQ t) as [|c q] eqn:Eq; [done|]. intros [= <-]. pose proof HI as [A1 A2 A3 A4 A5 A6 A7 A8]. ep_solve A1 A2 A7.
    + intros s x. specialize (A1 s x). pose proof (sum_insert (fun a => occ x (acc_hold a)) _ _ _ (AccHeld c) Hi) as G. cbn beta in G.
      destruct s; unfold places, queue in *; ep_cbn; rewrite ?Eq in *; counts.
    + rewrite Eq in A3. cbn in A3. split; [lia|]. intros Hd. discriminate (proj2 A3 Hd).
  - intros [= <-]. pose proof HI as [A1 A2 A3 A4 A5 A6 A7 A8]. destruct (libDetached t || ep_ctx t); ep_solve A1 A2 A7.
    all: intros s x; specialize (A1 s x); pose proof (sum_insert (fun a => occ x (acc_hold a)) _ _ _ (AccReturned (Ok c)) Hi) as G;
      pose proof (sum_insert (fun a => occ x (acc_hold a)) _ _ _ (AccReturned (Err ErrClosed)) Hi) as G'; cbn beta in G, G'; destruct s; counts.
Qed.

Lemma shutdown_inv i t t' : ep_inv t -> shutdown i t = Some t' -> ep_inv t'.
Proof.
  intros [A1 A2 A3 A4 A5 A6 A7 A8]. unfold shutdown. destruct (ep_shuts t !! i) as [p|] eqn:Hi; [|done].
  assert (Hp : shut_ok t p) by (rewrite Forall_lookup in A7; eauto).
  destruct p; [..|done].
  - intros [= <-]. ep_solve A1 A2 A7; [naive_solver|]. apply Forall_insert; [|done]. apply (ei_shut_frame _ _ _ A7); ep_cbn; auto.
  - intros [= <-]. ep_solve A1 A2 A7. apply Forall_insert; [|done]. apply (ei_shut_frame _ _ _ A7); ep_cbn; auto.
  - intros [= <-]. ep_solve A1 A2 A7; [naive_solver|]. apply Forall_insert; [|done]. apply (ei_shut_frame _ _ _ A7); ep_cbn; auto.
  - destruct (Nat.eqb_spec (ep_wg t) 0) as [E|]; [|done]. intros [= <-]. ep_solve A1 A2 A7.
    apply Forall_insert; [apply (ei_shut_frame _ _ _ A7); ep_cbn; auto|]. cbn in *. split_and!; [done|lia|destruct (ep_loop t); cbn in *; (done || lia)|].
    apply Forall_lookup. intros j d Hj. pose proof (sum_insert dial_live _ _ _ DialNew Hj). cbn in *. destruct d; cbn in *; (done || lia).
Qed.

Lemma own_inv t t' : own_step t t' -> ep_inv t -> ep_inv t'.
Proof.
  intros [got x x' H|got i x x' H|b i x x' H|i x x' H|x Hd Hr|x Hd] HI; [by eapply acceptLoop_inv|by eapply Dial_inv|by eapply libp2p_Accept_inv|by eapply shutdown_inv|..].
  - destruct HI as [A1 A2 A3 A4 A5 A6 A7 A8]. ep_solve A1 A2 A7; [lia|]. apply (ei_shut_frame _ _ _ A7); ep_cbn; auto; congruence.
  - destruct HI as [A1 A2 A3 A4 A5 A6 A7 A8]. ep_solve A1 A2 A7; [lia|]. apply (ei_shut_frame _ _ _ A7); ep_cbn; auto. intros. split_and!; auto. lia.
Qed.

Lemma outer_inv t t' : outer_step t t' -> ep_inv t -> ep_inv t'.
Proof.
  intros [s x|e x|x|x|x|x|x|b r x x' H] HI; pose proof HI as [A1 A2 A3 A4 A5 A6 A7 A8].
  - ep_solve A1 A2 A7.
  - unfold Start. destruct (negb _); [done|]. destruct (ep_started x) eqn:Es; [done|]. ep_cbn.
    assert (ep_loop x = LoopOff) as El by auto. destruct (ep_stopped x) eqn:Ep.
    { cbn [snd]. ep_solve A1 A2 A7. all: by rewrite Ep. }
    destruct e; cbn [snd]; ep_cbn.
    + ep_solve A1 A2 A7. apply (ei_shut_frame _ _ _ A7); ep_cbn; rewrite ?Ep; auto.
    + ep_solve A1 A2 A7.
      * rewrite El in A5. cbn in *. lia.
      * apply (ei_shut_frame _ _ _ A7); ep_cbn; auto; try congruence. intros Hr. discriminate (proj2 A6 (proj1 A6 Hr)).
      * done.

  - assert (ep_inv (set_listen true (ep_libDone x) x)) by (ep_solve A1 A2 A7). unfold Listen. by destruct (ep_stopped x), (ep_listening x).
  - by apply detach_inv.
  - ep_solve A1 A2 A7.
    + rewrite sum_list_with_app. cbn. lia.
    + apply (ei_shut_frame _ _ _ A7); ep_cbn; auto. intros. split_and!; auto. apply Forall_app; auto.
  - ep_solve A1 A2 A7.
  - ep_solve A1 A2 A7. apply Forall_app. split; [|by repeat constructor]. apply (ei_shut_frame _ _ _ A7); auto.
  - revert H. unfold ethp2p_Accept. destruct b; [|done|destruct (ep_ctx x); [|done]|]; [|by intros [= <- <-]..].
    destruct (ep_ethQ x) as [|c q] eqn:Eq; [done|]. intros [= <- <-]. ep_solve A1 A2 A7.
    + intros s y. specialize (A1 s y). destruct s; unfold places, queue in *; ep_cbn; rewrite ?Eq in *; counts.
    + cbn in A4. lia.
Qed.

Lemma ep_reachable_inv t : ep_reachable t -> ep_inv t.
Proof.
  revert t. apply rtc_ind_r; [constructor; cbn; auto; try (by intros []); try (intros [] x; counts; fail); try done; lia|]. intros y z _ [Hs|Hs] HI; [by eapply own_inv|by eapply outer_inv].
Qed.

(** ** What the endpoint promises *)

(** C29. No view is lost or delivered twice.  In every interleaving of the accept loop,
    dials, accepts, detachment and shutdown, each view made for a side is in
    exactly one place: its queue, the hands of one Accept call, taken by its
    side, or released by the endpoint; the queues never exceed their bound, and
    once libp2p has detached nothing is queued for it. *)
Theorem endpoint_views t : ep_reachable t ->
  (forall s, ep_offered t s ≡ₚ queue s t ++ held s t ++ ep_taken t s ++ (ep_ended t s).*1 /\
     NoDup (queue s t ++ held s t ++ ep_taken t s ++ (ep_ended t s).*1) /\
     length (queue s t) <= maxConnsPendingDelivery) /\
  (ep_libDone t = true -> ep_libQ t = []).
Proof.
  intros HI%ep_reachable_inv. split; [|apply (ei_lib t HI)]. intros s.
  assert (ep_offered t s ≡ₚ places s t) as Hp by (apply occ_perm; apply (ei_places t HI)).
  split_and!; [done| |destruct s; [apply (ei_lib t HI)|apply (ei_eth t HI)]].
  fold (places s t). rewrite <- Hp. apply occ_NoDup. intros x. pose proof (ei_once t HI s x). case_decide; lia.
Qed.

(** Ranks of what is left to do once the socket is closed. *)
Definition dial_rank (d : dial_pc) : nat :=
  match d with DialNew => 3 | DialReserved => 2 | DialChecked => 1 | DialGot _ _ => 5 | DialStart _ => 4 | DialReturned _ => 0 end.
Definition loop_rank (l : loop_pc) : nat :=
  match l with LoopOff => 0 | LoopAccept => 1 | LoopGot _ _ => 6 | LoopEth _ => 5 | LoopStart _ => 4 end.
Definition acc_rank (a : acc_pc) : nat := match a with AccSelect => 2 | AccHeld _ => 1 | AccReturned _ => 0 end.
Definition shut_rank (p : shut_pc) : nat :=
  match p with ShutNew => 4 | ShutStopped => 3 | ShutCancelled => 2 | ShutClosed => 1 | ShutReturned => 0 end.
Definition ep_effort t : nat :=
  sum_list_with dial_rank (ep_dials t) + loop_rank (ep_loop t) + sum_list_with acc_rank (ep_accepts t) + sum_list_with shut_rank (ep_shuts t) + ep_disp t.

Lemma offer_effort c t : ep_effort (offerLibp2p c t) = ep_effort t.
Proof. unfold offerLibp2p, libDetached. ep_cbn. by destruct (ep_libDone t), (length (ep_libQ t) <? maxConnsPendingDelivery). Qed.
Lemma offer_eth_effort c t : ep_effort (offerEthp2p c t) = ep_effort t.
Proof. unfold offerEthp2p. ep_cbn. by destruct (length (ep_ethQ t) <? maxConnsPendingDelivery). Qed.
Lemma offer_raw c t : ep_raw (offerLibp2p c t) = ep_raw t.
Proof. unfold offerLibp2p, libDetached. ep_cbn. by destruct (ep_libDone t), (length (ep_libQ t) <? maxConnsPendingDelivery). Qed.
Lemma offer_eth_raw c t : ep_raw (offerEthp2p c t) = ep_raw t.
Proof. unfold offerEthp2p. ep_cbn. by destruct (length (ep_ethQ t) <? maxConnsPendingDelivery). Qed.

Lemma effort_loop l t : ep_effort (set_loop l t) + loop_rank (ep_loop t) = ep_effort t + loop_rank l.
Proof. unfold ep_effort. ep_cbn. lia. Qed.
Lemma effort_dial i d d' t : ep_dials t !! i = Some d -> ep_effort (set_dial i d' t) + dial_rank d = ep_effort t + dial_rank d'.
Proof. intros Hi. unfold ep_effort. ep_cbn. pose proof (sum_insert dial_rank _ _ _ d' Hi). lia. Qed.
Lemma effort_acc i a a' t : ep_accepts t !! i = Some a -> ep_effort (set_acc i a' t) + acc_rank a = ep_effort t + acc_rank a'.
Proof. intros Hi. unfold ep_effort. ep_cbn. pose proof (sum_insert acc_rank _ _ _ a' Hi). lia. Qed.

Lemma own_effort t t' : ep_inv t -> ep_raw t = true -> own_step t t' -> ep_effort t' < ep_effort t /\ ep_raw t' = true.
Proof.
  intros HI Hr HS. revert HI Hr. destruct HS as [got x x' H|got i x x' H|b i x x' H|i x x' H|x Hd Hr'|x Hd]; intros HI Hr.
  - revert H. unfold acceptLoop. destruct (ep_loop x) as [| |c a|c|c] eqn:El; [done|..].
    + rewrite Hr. destruct got; [done|]. intros [= <-]. split; [|done]. pose proof (effort_loop LoopOff x) as E. rewrite El in E. unfold ep_effort in *. cbn in *. lia.
    + destruct a; intros [= <-]; (split; [|ep_cbn; rewrite ?offer_raw; done]); rewrite ?offer_loop, ?offer_effort.
      * pose proof (effort_loop LoopAccept x) as E. rewrite El in E. cbn [loop_rank] in E. lia.
      * pose proof (effort_loop (LoopEth c) x) as E. rewrite El in E. cbn [loop_rank] in E. lia.
      * pose proof (effort_loop LoopAccept x) as E. rewrite El in E. unfold ep_effort in *. cbn in *. lia.
    + intros [= <-]. split; [|ep_cbn; by rewrite offer_eth_raw]. rewrite offer_eth_loop, offer_eth_effort.
      pose proof (effort_loop (LoopStart c) x) as E. rewrite El in E. cbn [loop_rank] in E. lia.
    + intros [= <-]. split; [|done]. pose proof (effort_loop LoopAccept x) as E. rewrite El in E. unfold ep_effort in *. cbn in *. lia.
  - revert H. unfold Dial. destruct (ep_dials x !! i) as [d|] eqn:Hi; [|done].
    assert (Hret : forall r y, ep_dials y = ep_dials x -> ep_effort (dial_returns i r y) + dial_rank d = ep_effort y).
    { intros r y Hy. assert (Hy' : ep_dials y !! i = Some d) by congruence. pose proof (effort_dial i d (DialReturned r) y Hy') as E.
      unfold ep_effort in *. cbn in *. lia. }
    destruct d as [| | |c [|]|c|r]; [..|done].
    + intros [= <-]. split; [|done]. pose proof (effort_dial i DialNew DialReserved x Hi) as E. unfold ep_effort in *. cbn in *. lia.
    + rewrite (proj2 (ei_flags x HI) (proj1 (ei_flags x HI) Hr)). intros [= <-]. split; [|done].
      specialize (Hret (Err ErrClosed) x eq_refl). cbn [dial_rank] in Hret. lia.
    + rewrite Hr. destruct got; [done|]. intros [= <-]. split; [|done].
      specialize (Hret (Err (if ep_ctx x then ErrClosed else e)) x eq_refl). cbn [dial_rank] in Hret. lia.
    + intros [= <-]. split; [|unfold dial_returns; ep_cbn; by rewrite offer_raw]. specialize (Hret (Err ErrDialLegacyPeer) x eq_refl).
      unfold dial_returns in *. rewrite offer_dial, offer_wg, offer_effort. cbn [dial_rank] in Hret. lia.
    + intros [= <-]. split; [|ep_cbn; by rewrite offer_raw]. rewrite offer_dial, offer_effort.
      pose proof (effort_dial i (DialGot c false) (DialStart c) x Hi) as E. cbn [dial_rank] in E. lia.
    + intros [= <-]. split; [|done]. specialize (Hret (Ok c) x eq_refl). unfold ep_effort in *. cbn in *. lia.
  - revert H. unfold libp2p_Accept. destruct (ep_accepts x !! i) as [a|] eqn:Hi; [|done]. destruct a as [|c|r]; [..|done].
    + destruct b; [destruct (ep_libQ x); [done|]|destruct (ep_libDone x); [|done]|destruct (ep_ctx x); [|done]|]; intros [= <-]; (split; [|done]).
      1: match goal with |- ep_effort (set_acc _ ?a' _) < _ => pose proof (effort_acc _ AccSelect a' x Hi) as E end; unfold ep_effort in *; cbn in *; lia.
      all: match goal with |- ep_effort (set_acc _ ?a' _) < _ => pose proof (effort_acc _ AccSelect a' x Hi) as E end; cbn [acc_rank] in E; lia.
    + intros [= <-]. destruct (libDetached x || ep_ctx x); (split; [|done]);
        match goal with |- ep_effort (set_acc _ ?a' _) < _ => pose proof (effort_acc _ (AccHeld c) a' x Hi) as E end; unfold ep_effort in *; cbn in *; lia.
  - revert H. unfold shutdown. destruct (ep_shuts x !! i) as [p|] eqn:Hi; [|done].
    destruct p; [..|done]; [| | |destruct (_ =? 0); [|done]]; intros [= <-]; (split; [|done]);
      match goal with |- ep_effort (set_shuts (<[_:=?p']> _) _) < _ => pose proof (sum_insert shut_rank _ _ _ p' Hi) as E end; unfold ep_effort; cbn in *; lia.
  - congruence.
  - unfold ep_effort. cbn. split; [lia|done].
Qed.

(** Nothing left to do: every call has returned and every goroutine ended. *)
Definition ep_rest t : Prop :=
  ep_disp t = 0 /\ ep_loop t = LoopOff /\ Forall (fun d => dial_rank d = 0) (ep_dials t) /\
  Forall (fun a => acc_rank a = 0) (ep_accepts t) /\ Forall (fun p => shut_rank p = 0) (ep_shuts t).

#[global] Instance loop_off_dec l : Decision (l = LoopOff).
Proof. destruct l; (left; done) || (right; done). Defined.

Lemma not_rest {A} (f : A -> nat) (l : list A) : Forall (fun a => f a = 0) l \/ exists i a, l !! i = Some a /\ f a <> 0.
Proof.
  destruct (decide (Forall (fun a => f a = 0) l)) as [?|H]; [auto|right].
  apply not_Forall_Exists, Exists_exists in H as (a & [i Hi]%list_elem_of_lookup & ?); [eauto|apply _].
Qed.

Lemma own_progress t : ep_inv t -> ep_raw t = true -> ep_rest t \/ exists t', own_step t t'.
Proof.
  intros HI Hr. pose proof (proj1 (ei_flags t HI) Hr) as Hc.
  destruct (decide (ep_disp t = 0)) as [E1|]; [|right; eexists; apply ow_end; lia].
  destruct (decide (ep_loop t = LoopOff)) as [E2|].
  2: { right. assert (exists t', acceptLoop None t = Some t') as [t' ?] by (unfold acceptLoop; destruct (ep_loop t) as [| |c []|c|c]; eauto; done). eexists. by eapply ow_loop. }
  destruct (not_rest dial_rank (ep_dials t)) as [E3|(i & d & Hi & Hd)].
  2: { right. assert (exists t', Dial (Err ErrClosed) i t = Some t') as [t' ?] by (unfold Dial; rewrite Hi; destruct d as [| | |c []|c|r]; eauto; done). eexists. by eapply ow_dial. }
  destruct (not_rest acc_rank (ep_accepts t)) as [E4|(i & a & Hi & Ha)].
  2: { right. assert (exists t', libp2p_Accept BrClosed i t = Some t') as [t' ?] by (unfold libp2p_Accept; rewrite Hi, Hc; destruct a; eauto; done). eexists. by eapply ow_accept. }
  destruct (not_rest shut_rank (ep_shuts t)) as [E5|(i & p & Hi & Hp)]; [left; by split_and!|].
  right. assert (ep_wg t = 0) as Hw.
  { rewrite (ei_wg t HI), E1, E2. assert (sum_list_with dial_live (ep_dials t) = 0); [|cbn; lia].
    clear -E3. induction E3 as [|d l H _ IH]; [done|]. cbn. destruct d; cbn in *; lia. }
  assert (exists t', shutdown i t = Some t') as [t' ?] by (unfold shutdown; rewrite Hi, Hw; destruct p; cbn; eauto; done). eexists. by eapply ow_shut.
Qed.

(** C30. Close ends the endpoint.  When Close has returned the socket is closed, the
    accept loop and every connection's goroutines have ended and no dial is past
    the check of [stopped], so none will make a connection; and from the moment
    the socket is closed the endpoint's goroutines and calls, if no new calls
    begin, make at most [ep_effort] more steps and stop only when everything has
    ended or returned: neither Close nor an Accept or Dial hangs. *)
Theorem endpoint_shutdown t : ep_reachable t ->
  (ShutReturned ∈ ep_shuts t -> ep_raw t = true /\ ep_disp t = 0 /\ ep_loop t = LoopOff /\ Forall (fun d => past_check d = false) (ep_dials t)) /\
  (ep_raw t = true ->
     (forall t', own_step t t' -> ep_effort t' < ep_effort t /\ ep_raw t' = true) /\
     (ep_rest t \/ exists t', own_step t t')).
Proof.
  intros HI%ep_reachable_inv. split.
  - intros H. pose proof (ei_shuts t HI) as F. rewrite Forall_forall in F. by apply F in H.
  - intros Hr. split; [|by apply own_progress]. intros t' HS. by eapply own_effort.
Qed.

(** ** Examples *)

Definition go (o : endpoint -> option endpoint) t : endpoint := default t (o t).

Lemma go_reach o t : ep_reachable t -> (forall t', o t = Some t' -> own_step t t') -> (if o t then true else false) = true -> ep_reachable (go o t).
Proof.
  unfold go. intros H1 H2 H3. destruct (o t) as [t'|]; [|done]. eapply rtc_r; [exact H1|]. left. by apply H2.
Qed.
Lemma outer_reach t t' : ep_reachable t -> outer_step t t' -> ep_reachable t'.
Proof. intros H1 H2. eapply rtc_r; [exact H1|]. by right. Qed.

Definition serving : endpoint := (Start None (wire Ethp2p (wire Libp2p NewEndpoint))).2.
Lemma serving_reachable : ep_reachable serving.
Proof. unfold serving. repeat (eapply outer_reach; [|constructor]). apply rtc_refl. Qed.

(** A dial is called while the endpoint shuts down. *)
Definition closing0 : endpoint := set_shuts (ep_shuts (set_dials (ep_dials serving ++ [DialNew]) serving) ++ [ShutNew]) (set_dials (ep_dials serving ++ [DialNew]) serving).
Definition ended : endpoint := go (shutdown 0) (go (acceptLoop None) (go (shutdown 0) (go (shutdown 0) (go (shutdown 0) closing0)))).

Lemma ended_reachable : ep_reachable ended.
Proof.
  unfold ended. repeat (apply go_reach; [|intros; econstructor; eassumption|vm_compute; reflexivity]).
  eapply outer_reach; [|constructor]. eapply outer_reach; [apply serving_reachable|constructor].
Qed.

Lemma endpoint_shutdown_witness :
  Forall (fun d => past_check d = false) (ep_dials ended) /\ (ep_rest ended \/ exists t', own_step ended t').
Proof.
  split.
  - apply (proj1 (endpoint_shutdown ended ended_reachable)). left.
  - apply (proj2 (endpoint_shutdown ended ended_reachable)). reflexivity.
Defined.

(** A legacy connection and a shared one are accepted; libp2p takes the first view
    and detaches before it has checked. *)
Definition accepted : endpoint :=
  detachLibp2p (go (libp2p_Accept BrConn 0) (go (acceptLoop None) (go (acceptLoop None) (go (acceptLoop None) (go (acceptLoop (Some AlpnEthp2p))
    (go (acceptLoop None) (go (acceptLoop (Some AlpnLibp2p)) (set_accepts (ep_accepts serving ++ [AccSelect]) serving)))))))).

Lemma accepted_reachable : ep_reachable accepted.
Proof.
  unfold accepted. eapply outer_reach; [|constructor]. repeat (apply go_reach; [|intros; econstructor; eassumption|vm_compute; reflexivity]).
  eapply outer_reach; [apply serving_reachable|constructor].
Qed.

Lemma endpoint_views_witness :
  ep_offered accepted Libp2p ≡ₚ queue Libp2p accepted ++ held Libp2p accepted ++ ep_taken accepted Libp2p ++ (ep_ended accepted Libp2p).*1 /\
  held Libp2p accepted = [0] /\ ep_ended accepted Libp2p = [(1, Wire.Wire Closing)] /\ queue Ethp2p accepted = [1].
Proof.
  split; [|split_and!; vm_compute; reflexivity]. apply (proj1 (proj1 (endpoint_views accepted accepted_reachable) Libp2p)).
Defined.
