(* ===== verification/TlsIdentity.v ===== *)
(** * TlsIdentity: who is at the other end (src/transport/handshake.go, cert.go)

    A connection's TLS certificate carries, in an extension, the peer's identity
    key and its signature over the certificate's own key.  [crypto/x509] and
    [encoding/asn1] are a class of operations, with what their documentation
    says of them as laws; identity keys are those of [Identity].  [None] is a
    panic. *)

From S2P Require Import Prelude Types Rlp Identity.

#[local] Set Default Proof Using "Type".

Definition oid : Type := list Z.

(** Of [x509.Certificate], what the code reads. *)
Record Certificate (key : Type) := mk_cert {
  c_Extensions : list (oid * bytes);
  c_UnhandledCriticalExtensions : list oid;
  c_PublicKey : key;
  c_Raw : bytes }.
Arguments mk_cert {key}.
Arguments c_Extensions {key}.
Arguments c_UnhandledCriticalExtensions {key}.
Arguments c_PublicKey {key}.
Arguments c_Raw {key}.

Class X509 := {
  CertPub : Type;
  CertPriv : Type;
  Template : Type;
  cert_Public : CertPriv -> CertPub;
  MarshalPKIXPublicKey : CertPub -> result error bytes;
  asn1_Marshal : bytes * bytes -> result error bytes;
  asn1_Unmarshal : bytes -> result error (bytes * bytes);
  ParseCertificate : bytes -> result error (Certificate CertPub);
  cert_Verify : Certificate CertPub -> result error unit;             (* against itself as the only root *)
  CreateCertificate : Template -> list (oid * bytes) -> CertPriv -> result error bytes }.

(** The extensions [CreateCertificate] adds itself are X.509's own (2.5.29.x). *)
Definition standard_ext (o : oid) : bool := bool_decide (take 3 o = [2; 5; 29]%Z).

(** asn1 decodes what it encoded; a certificate parses back with its extra
    extensions after the standard ones, none of them critical and unhandled, the
    key it was made for, and is self-signed. *)
Class X509Laws (X : X509) : Prop := {
  x_asn1 : forall v b, asn1_Marshal v = Ok b -> asn1_Unmarshal b = Ok v;
  x_create : forall t exts k der, CreateCertificate t exts k = Ok der ->
    exists pre, Forall (fun e => standard_ext e.1 = true) pre /\
      ParseCertificate der = Ok (mk_cert (pre ++ exts) [] (cert_Public k) der) /\
      cert_Verify (mk_cert (pre ++ exts) [] (cert_Public k) der) = Ok tt }.

(** "libp2p-tls-handshake:" *)
Definition certLibp2pPubkeyDst : bytes :=
  [Byte.x6c; Byte.x69; Byte.x62; Byte.x70; Byte.x32; Byte.x70; Byte.x2d; Byte.x74; Byte.x6c; Byte.x73; Byte.x2d;
   Byte.x68; Byte.x61; Byte.x6e; Byte.x64; Byte.x73; Byte.x68; Byte.x61; Byte.x6b; Byte.x65; Byte.x3a].
Definition certLibp2pPubkeyExt : oid := [1; 3; 6; 1; 4; 1; 53594; 1; 1]%Z.

Section tls.
Context {SC : Secp256k1} {PW : Protowire} {X : X509}.

(** ** Issuing *)

Definition issueCertificate (template : result error Template) (certKey : result error CertPriv) (key : PrivKey) : result error bytes :=
  let! certKey := certKey in
  let! certKeyPub := MarshalPKIXPublicKey (cert_Public certKey) in
  let signature := Sign key (certLibp2pPubkeyDst ++ certKeyPub) in
  let! value := asn1_Marshal (Marshal (Public key), signature) in
  let! template := template in
  CreateCertificate template [(certLibp2pPubkeyExt, value)] certKey.

(** ** Verifying *)

Fixpoint parseChain (rawCerts : list bytes) : result error (list (Certificate CertPub)) :=
  match rawCerts with
  | [] => Ok []
  | raw :: rest => let! cert := ParseCertificate raw in let! chain := parseChain rest in Ok (cert :: chain)
  end.

Definition key_ext (e : oid * bytes) : Prop := e.1 = certLibp2pPubkeyExt.
#[global] Instance key_ext_dec e : Decision (key_ext e) := decide (e.1 = certLibp2pPubkeyExt).

Definition authenticate (chain : list (Certificate CertPub)) : option (result error PubKey) :=
  match chain with
  | [cert] =>
      match list_find key_ext (c_Extensions cert) with
      | None => fails "expected certificate to contain the key extension"
      | Some (_, keyExt) =>
          let verifying := mk_cert (c_Extensions cert) (filter (fun o => o <> keyExt.1) (c_UnhandledCriticalExtensions cert)) (c_PublicKey cert) (c_Raw cert) in
          match cert_Verify verifying with
          | Err e => fails ("certificate verification failed: " ++ e)
          | Ok _ =>
              match asn1_Unmarshal keyExt.2 with
              | Err e => fails ("unmarshalling signed certificate failed: " ++ e)
              | Ok (pubKey, signature) =>
                  letp r := UnmarshalPubKey pubKey in
                  match r with
                  | Err e => fails ("unmarshalling public key failed: " ++ e)
                  | Ok key =>
                      match MarshalPKIXPublicKey (c_PublicKey cert) with
                      | Err e => Some (Err e)
                      | Ok certKey => if Verify key (certLibp2pPubkeyDst ++ certKey) signature then succeeds key else fails "signature invalid"
                      end
                  end
              end
          end
      end
  | _ => fails "expected one certificate in the chain"
  end.

(** [connConfig]'s callback: the key it records in the slot. *)
Definition VerifyPeerCertificate (expect : bytes) (rawCerts : list bytes) : option (result error PubKey) :=
  match parseChain rawCerts with
  | Err e => Some (Err e)
  | Ok chain =>
      letp r := authenticate chain in
      match r with
      | Err e => Some (Err e)
      | Ok key => if negb (bool_decide (expect = [])) && negb (bool_decide (expect = PubKey_PeerID key)) then fails "peer ID mismatch" else succeeds key
      end
  end.

(** ** Properties *)

(** [key] signed the TLS key of the only certificate. *)
Definition vouches (rawCerts : list bytes) (key : PubKey) : Prop :=
  exists raw cert pubKey signature certKey value,
    rawCerts = [raw] /\ ParseCertificate raw = Ok cert /\ (certLibp2pPubkeyExt, value) ∈ c_Extensions cert /\
    asn1_Unmarshal value = Ok (pubKey, signature) /\ UnmarshalPubKey pubKey = succeeds key /\
    MarshalPKIXPublicKey (c_PublicKey cert) = Ok certKey /\ Verify key (certLibp2pPubkeyDst ++ certKey) signature = true /\
    cert_Verify (mk_cert (c_Extensions cert) (filter (fun o => o <> certLibp2pPubkeyExt) (c_UnhandledCriticalExtensions cert)) (c_PublicKey cert) (c_Raw cert)) = Ok tt.

Lemma authenticate_vouches cert raw key : ParseCertificate raw = Ok cert -> authenticate [cert] = succeeds key -> vouches [raw] key.
Proof.
  intros Hp. unfold authenticate. cbv beta iota. destruct (list_find key_ext (c_Extensions cert)) as [[i [o value]]|] eqn:Ef; [|done].
  apply list_find_Some in Ef as (Hi & He & _). cbn in He. unfold key_ext in He. cbn in He. subst o. cbn [fst snd].
  destruct (cert_Verify _) as [[]|] eqn:Ev; [|done]. destruct (asn1_Unmarshal value) as [[pubKey signature]|] eqn:Ea; [|done].
  destruct (UnmarshalPubKey pubKey) as [[k|]|] eqn:Eu; [|done..]. cbn [mbind option_bind].
  destruct (MarshalPKIXPublicKey (c_PublicKey cert)) as [certKey|] eqn:Em; [|done]. destruct (Verify k (certLibp2pPubkeyDst ++ certKey) signature) eqn:Es; [|done].
  intros [= <-]. exists raw, cert, pubKey, signature, certKey, value. split_and!; auto. apply list_elem_of_lookup. eauto.
Qed.

Lemma authenticate_panics_not {PL : ProtowireLaws PW} chain : is_Some (authenticate chain).
Proof using Type.
  unfold authenticate. destruct chain as [|cert [|]]; [by eexists| |by eexists].
  destruct (list_find _ _) as [[i [o value]]|]; [|by eexists]. destruct (cert_Verify _); [|by eexists].
  destruct (asn1_Unmarshal _) as [[pubKey signature]|]; [|by eexists]. destruct (UnmarshalPubKey_total pubKey) as [[k|] ->]; cbn; [|by eexists].
  destruct (MarshalPKIXPublicKey _); [|by eexists]. case_match; by eexists.
Qed.

Lemma parse_one rawCerts cert : parseChain rawCerts = Ok [cert] -> exists raw, rawCerts = [raw] /\ ParseCertificate raw = Ok cert.
Proof.
  destruct rawCerts as [|raw [|raw' rest]]; cbn; [done|..]; destruct (ParseCertificate raw) as [c|] eqn:E; cbn; try done; [intros [= <-]; eauto|].
  destruct (ParseCertificate raw'); cbn; [|done]. destruct (parseChain rest); by intros.
Qed.

Lemma verify_vouches expect rawCerts key : VerifyPeerCertificate expect rawCerts = succeeds key ->
  vouches rawCerts key /\ (expect <> [] -> PubKey_PeerID key = expect).
Proof.
  unfold VerifyPeerCertificate. destruct (parseChain rawCerts) as [chain|] eqn:Ep; [|done].
  destruct (authenticate chain) as [[k|]|] eqn:Ea; [|done..]. cbn [mbind option_bind].
  destruct (_ && _) eqn:Eb; [done|]. intros [= <-]. split.
  - destruct chain as [|cert [|]]; [done| |done]. destruct (parse_one _ _ Ep) as (raw & -> & ?). by eapply authenticate_vouches.
  - intros He. apply andb_false_iff in Eb as [Eb|Eb]; apply negb_false_iff, bool_decide_eq_true in Eb; [done|by symmetry].
Qed.

Context {SL : Secp256k1Laws SC} {PL : ProtowireLaws PW} {XL : X509Laws X}.

(** C31. A pinned dial reaches the peer it names.  For every certificate chain a peer
    may present the callback returns; when it accepts while expecting the peer
    identity of [k], the recorded key is [k] itself and the chain is a single
    certificate that verifies against itself and whose TLS key [k] has signed. *)
Theorem pinned_dial_authenticates (k : PubKey) rawCerts :
  (forall key : PubKey, len (Marshal key) < 2 ^ 63)%Z ->
  is_Some (VerifyPeerCertificate (PubKey_PeerID k) rawCerts) /\
  (forall key, VerifyPeerCertificate (PubKey_PeerID k) rawCerts = succeeds key -> key = k /\ vouches rawCerts k).
Proof using SL PL.
  intros Hlen. split.
  - unfold VerifyPeerCertificate. destruct (parseChain rawCerts) as [chain|]; [|by eexists].
    destruct (authenticate_panics_not chain) as [[key|] ->]; cbn; [|by eexists]. case_match; by eexists.
  - intros key (Hv & Hid)%verify_vouches. assert (key = k) as ->; [|done]. apply PeerID_inj; auto. apply Hid.
    unfold PubKey_PeerID. cbv zeta. by rewrite (pw_varint_app [Byte.x00]).
Qed.

Lemma issued_ext (pre : list (oid * bytes)) value : Forall (fun e => standard_ext e.1 = true) pre ->
  list_find key_ext (pre ++ [(certLibp2pPubkeyExt, value)]) = Some (length pre, (certLibp2pPubkeyExt, value)).
Proof.
  intros Hp. apply list_find_Some. split; [by apply list_lookup_middle|]. split; [done|].
  intros j y Hj Hlt He. unfold key_ext in He. rewrite lookup_app_l in Hj by done. rewrite Forall_lookup in Hp. specialize (Hp j y Hj). cbn in Hp. by rewrite He in Hp.
Qed.

(** The certificate a node issues is the one its peers accept: whatever key and
    template it was made with, the callback records exactly the issuer's public
    key when no identity or the issuer's is expected, and refuses it when
    another is. *)
Theorem certificate_roundtrip template certKey (key : PrivKey) der expect : issueCertificate template certKey key = Ok der ->
  VerifyPeerCertificate expect [der] =
    (if negb (bool_decide (expect = [])) && negb (bool_decide (expect = PubKey_PeerID (Public key))) then fails "peer ID mismatch" else succeeds (Public key)).
Proof using SL PL XL.
  unfold issueCertificate. destruct certKey as [ck|]; [|done]. cbn [rbind]. destruct (MarshalPKIXPublicKey (cert_Public ck)) as [pkix|] eqn:Em; [|done]. cbn [rbind].
  destruct (asn1_Marshal _) as [value|] eqn:Ea; [|done]. cbn [rbind]. destruct template as [tm|]; [|done]. cbn [rbind].
  intros Hc. destruct (x_create _ _ _ _ Hc) as (pre & Hpre & Hp & Hv). unfold VerifyPeerCertificate. cbn [parseChain]. rewrite Hp. cbn [rbind].
  assert (authenticate [mk_cert (pre ++ [(certLibp2pPubkeyExt, value)]) [] (cert_Public ck) der] = succeeds (Public key)) as ->; [|done].
  unfold authenticate. cbn [c_Extensions c_UnhandledCriticalExtensions c_PublicKey c_Raw]. rewrite issued_ext by done. cbn [fst snd]. 
  change (filter (fun o => o <> certLibp2pPubkeyExt) []) with (@nil oid). rewrite Hv, (x_asn1 _ _ Ea), UnmarshalPubKey_Marshal. cbn [mbind option_bind]. rewrite Em.
  by rewrite Verify_Sign.
Qed.
End tls.

(** ** An instance: certificates are the list of their parts *)

#[local] Instance demo_x509 : X509 := {|
  CertPub := unit; CertPriv := unit; Template := unit; cert_Public _ := tt;
  MarshalPKIXPublicKey _ := Ok [Byte.x01];
  asn1_Marshal v := if (len v.1 <? 256)%Z then Ok (z2b (len v.1) :: v.1 ++ v.2) else Err "too long"%string;
  asn1_Unmarshal b := match b with n :: r => Ok (take (Z.to_nat (b2z n)) r, drop (Z.to_nat (b2z n)) r) | [] => Err "empty"%string end;
  ParseCertificate der := Ok (mk_cert [(certLibp2pPubkeyExt, der)] [] tt der);
  cert_Verify _ := Ok tt;
  CreateCertificate _ exts _ := match exts with [(o, v)] => if decide (o = certLibp2pPubkeyExt) then Ok v else Err "extension"%string | _ => Err "extensions"%string end |}.

#[local] Instance demo_x509_laws : X509Laws demo_x509.
Proof.
  split.
  - intros [a b] r. cbn. destruct (Z.ltb_spec (len a) 256); [|done]. intros [= <-]. rewrite b2z_z2b_small by lia.
    by rewrite Nat2Z.id, take_app_length, drop_app_length.
  - intros [] [|[o v] [|]] [] der; cbn; try done. case_decide; [|done]. intros [= <-]. exists []. subst o. done.
Qed.

#[local] Existing Instances demo_secp demo_secp_laws demo_protowire demo_protowire_laws.

Definition demo_key : PrivKey (SC := demo_secp) := mk_priv (SC := demo_secp) tt.
Definition demo_der : bytes := match issueCertificate (X := demo_x509) (Ok tt) (Ok tt) demo_key with Ok d => d | Err _ => [] end.

Lemma certificate_roundtrip_witness :
  VerifyPeerCertificate (PubKey_PeerID (Public demo_key)) [demo_der] = succeeds (Public demo_key) /\ VerifyPeerCertificate [Byte.x01] [demo_der] = fails "peer ID mismatch".
Proof.
  split.
  - rewrite (certificate_roundtrip (X := demo_x509) (Ok tt) (Ok tt) demo_key demo_der (PubKey_PeerID (Public demo_key))); vm_compute; reflexivity.
  - rewrite (certificate_roundtrip (X := demo_x509) (Ok tt) (Ok tt) demo_key demo_der [Byte.x01]); vm_compute; reflexivity.
Defined.

Lemma pinned_dial_authenticates_witness :
  VerifyPeerCertificate (PubKey_PeerID (Public demo_key)) [demo_der] = succeeds (Public demo_key) /\ vouches [demo_der] (Public demo_key).
Proof.
  assert (VerifyPeerCertificate (PubKey_PeerID (Public demo_key)) [demo_der] = succeeds (Public demo_key)) as H by (vm_compute; reflexivity).
  split; [exact H|]. apply (pinned_dial_authenticates (Public demo_key) [demo_der]) with (key := Public demo_key); [|exact H].
  intros [[]]. vm_compute. reflexivity.
Defined.
