(* ===== verification/Family.v ===== *)
(** * Family: registration and the delivery queue of a family (src/family.go)

    A family's state changes only under its mutex, so every operation is atomic.
    A handle is a number; [fm_ready] is the round-robin ring of handles, and
    [d_ready] whether a handle has its element in it.  [fm_log] has what was
    done to streams; [fm_wake] is whether the wake channel holds a token. *)

From S2P Require Import Prelude Wire Types CtrlOut Session Control.
From stdpp Require Import pretty.
Open Scope Z_scope.

Record ProtocolSpec := mk_spec { sp_protocol : Z; sp_maxQueued : Z }.

(** A received stream and whether it is bidirectional. *)
Abbreviation receivedStream := (nat * bool)%type.

Record peerDelivery := mk_delivery {
  d_id : PeerID;
  d_up : bool;
  d_down : bool;
  d_code : Code;
  d_streams : list (Z * receivedStream);
  d_queued : gmap Z Z;
  d_ready : bool }.

Record family := mk_family {
  fm_code : Z;
  fm_protocols : list ProtocolSpec;
  fm_wake : bool;
  fm_ready : list nat;
  fm_peers : gmap nat peerDelivery;
  fm_ended : gset nat;                         (* handles whose context ended *)
  fm_log : list effect }.

Inductive family_event :=
| EvPeerUp (h : nat)
| EvStreamIn (h : nat) (protocol : Z) (s : receivedStream)
| EvPeerDown (h : nat) (code : Code).

(** ** Updates *)

Definition set_ready (r : list nat) (f : family) : family := mk_family (fm_code f) (fm_protocols f) (fm_wake f) r (fm_peers f) (fm_ended f) (fm_log f).
Definition set_peer (h : nat) (d : peerDelivery) (f : family) : family :=
  mk_family (fm_code f) (fm_protocols f) (fm_wake f) (fm_ready f) (<[h := d]> (fm_peers f)) (fm_ended f) (fm_log f).
Definition end_context (h : nat) (f : family) : family :=
  mk_family (fm_code f) (fm_protocols f) (fm_wake f) (fm_ready f) (fm_peers f) ({[h]} ∪ fm_ended f) (fm_log f).
Definition with_ready (b : bool) (d : peerDelivery) : peerDelivery :=
  mk_delivery (d_id d) (d_up d) (d_down d) (d_code d) (d_streams d) (d_queued d) b.

(** [cancelReceived]: the read side and, of a bidirectional stream, the write side. *)
Definition cancelReceived (s : receivedStream) (code : Code) : list effect :=
  FxStreamEnd s.1 (Some code) :: (if s.2 then [FxCancelWrite s.1 code] else []).
Definition log_fx (l : list effect) (f : family) : family :=
  mk_family (fm_code f) (fm_protocols f) (fm_wake f) (fm_ready f) (fm_peers f) (fm_ended f) (fm_log f ++ l).

(** [d.queued[protocol]], 0 when absent. *)
Definition queued_of (d : peerDelivery) (protocol : Z) : Z := default 0 (d_queued d !! protocol).

(** ** Operations *)

Fixpoint maxQueued (specs : list ProtocolSpec) (protocol : Z) : Z :=
  match specs with
  | [] => 0
  | s :: specs => if sp_protocol s =? protocol then sp_maxQueued s else maxQueued specs protocol
  end.

(** [slices.BinarySearch]: the loop keeps [families[i-1] < code <= families[j]]. *)
Fixpoint search_loop (fuel : nat) (families : list Z) (code : Z) (i j : nat) : option nat :=
  match fuel with
  | O => None
  | S fuel =>
      if (i <? j)%nat then
        let h := ((i + j) / 2)%nat in
        letp x := families !! h in
        if x <? code then search_loop fuel families code (h + 1) j else search_loop fuel families code i h
      else Some i
  end.

Definition BinarySearch (families : list Z) (code : Z) : option (nat * bool) :=
  letp i := search_loop (S (length families)) families code 0 (length families) in
  Some (i, match families !! i with Some x => x =? code | None => false end).

Definition sharedWith (f : family) (families : list Z) : option bool :=
  letp r := BinarySearch families (fm_code f) in Some r.2.

Definition signal (f : family) : family :=
  mk_family (fm_code f) (fm_protocols f) true (fm_ready f) (fm_peers f) (fm_ended f) (fm_log f).

(** [schedule] of the handle [h], whose delivery is [d]. *)
Definition schedule (h : nat) (d : peerDelivery) (f : family) : family :=
  signal (if d_ready d then set_peer h d f else set_peer h (with_ready true d) (set_ready (fm_ready f ++ [h]) f)).

Definition addPeer (h : nat) (id : PeerID) (f : family) : family :=
  schedule h (mk_delivery id false false Unspecified [] ∅ false) f.

Definition Next (f : family) : option (option family_event * family) :=
  match fm_ready f with
  | [] => Some (None, f)
  | h :: rest =>
      letp d := fm_peers f !! h in
      let d := with_ready false d in
      let f := set_ready rest f in
      let requeue (d : peerDelivery) :=
        if negb (length (d_streams d) =? 0)%nat || d_down d then set_peer h (with_ready true d) (set_ready (fm_ready f ++ [h]) f) else set_peer h d f in
      if negb (d_up d) then
        Some (Some (EvPeerUp h), requeue (mk_delivery (d_id d) true (d_down d) (d_code d) (d_streams d) (d_queued d) (d_ready d)))
      else match d_streams d with
      | (protocol, s) :: streams =>
          Some (Some (EvStreamIn h protocol s),
                requeue (mk_delivery (d_id d) (d_up d) (d_down d) (d_code d) streams (<[protocol := queued_of d protocol - 1]> (d_queued d)) (d_ready d)))
      | [] => Some (Some (EvPeerDown h (d_code d)), set_peer h d f)
      end
  end.

Definition push (h : nat) (protocol : Z) (s : receivedStream) (f : family) : option family :=
  letp d := fm_peers f !! h in
  if d_down d then Some (log_fx (cancelReceived s UnsupportedSelector) f)
  else if queued_of d protocol >=? maxQueued (fm_protocols f) protocol then Some (log_fx (cancelReceived s Unspecified) f)
  else Some (schedule h (mk_delivery (d_id d) (d_up d) (d_down d) (d_code d) (d_streams d ++ [(protocol, s)])
                           (<[protocol := queued_of d protocol + 1]> (d_queued d)) (d_ready d)) f).

Definition closePeer (h : nat) (code resetCode : Code) (f : family) : option (bool * family) :=
  letp d := fm_peers f !! h in
  if d_down d then Some (false, f)
  else
    let streams := d_streams d in
    let d := mk_delivery (d_id d) (d_up d) true code [] ∅ (d_ready d) in
    let f := end_context h f in
    let f := if negb (d_up d) then
               if d_ready d then set_peer h (with_ready false d) (set_ready (filter (fun x => x <> h) (fm_ready f)) f) else set_peer h d f
             else schedule h d f in
    Some (true, log_fx (streams ≫= fun p => cancelReceived p.2 resetCode) f).

(** ** Registration

    What [Register] reads and writes of the stack. *)

Record registry := mk_registry { rg_closed : bool; rg_started : bool; rg_families : list (Z * list ProtocolSpec) }.

Fixpoint check_protocols (previous : option Z) (l : list ProtocolSpec) : option error :=
  match l with
  | [] => None
  | s :: l =>
      if match previous with Some p => sp_protocol s <=? p | None => false end then Some "protocols must be strictly ascending"%string
      else if sp_maxQueued s <? 1 then Some ("protocol " ++ pretty (sp_protocol s) ++ " needs MaxQueued at least 1")%string
      else check_protocols (Some (sp_protocol s)) l
  end.

(** [wake] is the wake channel's capacity, [None] for a nil channel. *)
Definition Register (code : Z) (protocols : list ProtocolSpec) (wake : option nat) (r : registry) : result error registry :=
  if rg_closed r then Err "stack closed"%string
  else if rg_started r then Err "stack registration is closed"%string
  else if (length protocols =? 0)%nat then Err "family needs at least one protocol"%string
  else if match wake with None => true | Some c => (c =? 0)%nat end then Err "wake channel must have capacity at least one"%string
  else if (code =? ControlFamily) || (code =? ReservedFamily) then Err ("family " ++ pretty code ++ " cannot be registered")%string
  else if (length (rg_families r) =? MaxFamilies)%nat then Err ("too many families: limit " ++ pretty MaxFamilies)%string
  else if bool_decide (code ∈ (rg_families r).*1) then Err ("family " ++ pretty code ++ " already registered")%string
  else match check_protocols None protocols with
       | Some e => Err e
       | None => Ok (mk_registry (rg_closed r) (rg_started r) (rg_families r ++ [(code, protocols)]))
       end.

(** [localFamilies] of src/stack.go. *)
Definition localFamilies (r : registry) : list Z := merge_sort Z.le (rg_families r).*1.

(** ** Runs

    A supervisor adds, feeds and closes handles, handles close themselves, and one
    consumer drains the queue, then waits for the wake token.  A label says what
    happened; [LPush]'s flag is whether the stream was queued. *)

Inductive label :=
| LAdd (h : nat) (id : PeerID)
| LPush (h : nat) (protocol : Z) (s : receivedStream) (queued : bool)
| LClose (h : nat) (code reset : Code)
| LNext (ev : option family_event)
| LWake.

Definition accepts (h : nat) (protocol : Z) (f : family) : bool :=
  match fm_peers f !! h with
  | Some d => negb (d_down d) && (queued_of d protocol <? maxQueued (fm_protocols f) protocol)
  | None => false
  end.

(** The supervisor adds a new handle for a peer only when it has closed the
    peer's former ones.  [awake] is whether the consumer is draining. *)
Inductive family_step : family * bool -> label -> family * bool -> Prop :=
| fs_add h id f aw : fm_peers f !! h = None -> (forall h' d, fm_peers f !! h' = Some d -> d_id d = id -> d_down d = true) ->
    family_step (f, aw) (LAdd h id) (addPeer h id f, aw)
| fs_push h p s f f' aw : push h p s f = Some f' -> family_step (f, aw) (LPush h p s (accepts h p f)) (f', aw)
| fs_close h c r f b f' aw : closePeer h c r f = Some (b, f') -> family_step (f, aw) (LClose h c r) (f', aw)
| fs_next f ev f' : Next f = Some (ev, f') -> family_step (f, true) (LNext ev) (f', match ev with Some _ => true | None => false end)
| fs_wake f : fm_wake f = true ->
    family_step (f, false) LWake (mk_family (fm_code f) (fm_protocols f) false (fm_ready f) (fm_peers f) (fm_ended f) (fm_log f), true).

Inductive family_run (code : Z) (protocols : list ProtocolSpec) : family * bool -> list label -> Prop :=
| fr_new : family_run code protocols (mk_family code protocols false [] ∅ ∅ [], true) []
| fr_step s l s' tr : family_run code protocols s tr -> family_step s l s' -> family_run code protocols s' (tr ++ [l]).

(** ** Histories of a handle *)

Definition of_handle (h : nat) (ev : family_event) : bool :=
  match ev with EvPeerUp h' | EvStreamIn h' _ _ | EvPeerDown h' _ => (h =? h')%nat end.

Definition events (tr : list label) : list family_event := omap (fun l => match l with LNext ev => ev | _ => None end) tr.
Definition events_of (h : nat) (tr : list label) : list family_event := filter (fun ev => of_handle h ev = true) (events tr).
Definition delivered (h : nat) (tr : list label) : list (Z * receivedStream) :=
  omap (fun ev => match ev with EvStreamIn _ p s => Some (p, s) | _ => None end) (events_of h tr).
Definition accepted (h : nat) (tr : list label) : list (Z * receivedStream) :=
  omap (fun l => match l with LPush h' p s true => if (h =? h')%nat then Some (p, s) else None | _ => None end) tr.

Definition reset_in (log : list effect) (s : receivedStream) : Prop := exists code, FxStreamEnd s.1 (Some code) ∈ log.

Definition count_of (p : Z) (l : list (Z * receivedStream)) : Z := Z.of_nat (length (filter (fun x => x.1 = p) l)).

(** What holds of one handle. *)
Record handle_ok (specs : list ProtocolSpec) (inring : bool) (log : list effect) (ended : bool) (tr : list label) (h : nat) (d : peerDelivery) : Prop := {
  ho_ring : d_ready d = inring;
  ho_ended : d_down d = ended;
  ho_down : d_down d = true -> d_streams d = [];
  ho_fresh : d_up d = false -> d_ready d = negb (d_down d);
  ho_pending : d_up d = true -> d_streams d <> [] -> d_ready d = true;
  ho_work : d_up d = true -> d_ready d = true -> d_streams d = [] -> d_down d = true;
  ho_count : d_down d = false -> forall p, queued_of d p = count_of p (d_streams d) /\ (0 < queued_of d p -> queued_of d p <= maxQueued specs p);
  ho_events : events_of h tr =
    if d_up d then EvPeerUp h :: ((fun x => EvStreamIn h x.1 x.2) <$> delivered h tr) ++ (if d_down d && negb (d_ready d) then [EvPeerDown h (d_code d)] else []) else [];
  ho_accepted : exists lost, accepted h tr = delivered h tr ++ lost ++ d_streams d /\ (lost <> [] -> d_down d = true) /\
    forall x, x ∈ lost -> reset_in log x.2 }.

Record family_inv (f : family) (awake : bool) (tr : list label) : Prop := {
  fi_nodup : NoDup (fm_ready f);
  fi_ring : forall h, h ∈ fm_ready f -> is_Some (fm_peers f !! h);
  fi_handle : forall h d, fm_peers f !! h = Some d ->
    handle_ok (fm_protocols f) (bool_decide (h ∈ fm_ready f)) (fm_log f) (bool_decide (h ∈ fm_ended f)) tr h d;
  fi_absent : forall h, fm_peers f !! h = None -> events_of h tr = [] /\ accepted h tr = [] /\ h ∉ fm_ended f;
  fi_live : forall h h' d d', h <> h' -> fm_peers f !! h = Some d -> fm_peers f !! h' = Some d' -> d_id d = d_id d' -> d_down d = true \/ d_down d' = true;
  fi_order : forall l1 h l2 d, fm_ready f = l1 ++ h :: l2 -> fm_peers f !! h = Some d -> d_up d = false ->
    forall h' d', h' ∈ l2 -> fm_peers f !! h' = Some d' -> d_id d' <> d_id d;
  fi_refused : forall h p s, LPush h p s false ∈ tr -> reset_in (fm_log f) s;
  fi_wake : fm_ready f <> [] -> fm_wake f = true \/ awake = true }.

Lemma events_of_snoc h tr l :
  events_of h (tr ++ [l]) = events_of h tr ++ match l with LNext (Some ev) => if of_handle h ev then [ev] else [] | _ => [] end.
Proof.
  unfold events_of, events. rewrite omap_app, filter_app. f_equal. destruct l as [| | |[ev|]|]; try done. cbn [omap list_omap]. rewrite filter_cons, filter_nil.
  case_decide as E; [by rewrite E|]. by destruct (of_handle h ev).
Qed.

Lemma accepted_snoc h tr l :
  accepted h (tr ++ [l]) = accepted h tr ++ match l with LPush h' p s true => if (h =? h')%nat then [(p, s)] else [] | _ => [] end.
Proof.
  unfold accepted. rewrite omap_app. f_equal. destruct l as [|h' p s [] | | |]; try done. simpl. by destruct (h =? h')%nat.
Qed.

(** Only [Next] adds to a handle's events. *)
Lemma quiet h tr l :
  match l with LNext (Some _) => False | _ => True end -> events_of h (tr ++ [l]) = events_of h tr /\ delivered h (tr ++ [l]) = delivered h tr.
Proof.
  intros Hl. assert (events_of h (tr ++ [l]) = events_of h tr) as E; [|split; [done|unfold delivered; by rewrite E]].
  rewrite events_of_snoc. destruct l as [| | |[]|]; rewrite ?app_nil_r; done.
Qed.

(** The handle a label is about. *)
Definition about (l : label) : option nat :=
  match l with
  | LAdd h _ | LPush h _ _ _ | LClose h _ _ => Some h
  | LNext (Some (EvPeerUp h | EvStreamIn h _ _ | EvPeerDown h _)) => Some h
  | LNext None | LWake => None
  end.

Lemma history_other h tr l : about l <> Some h -> events_of h (tr ++ [l]) = events_of h tr /\ accepted h (tr ++ [l]) = accepted h tr.
Proof.
  intros H. rewrite events_of_snoc, accepted_snoc.
  assert (forall h', about l = Some h' -> (h =? h')%nat = false) as Hne by (intros h' E; apply Nat.eqb_neq; congruence).
  destruct l as [|h' p s b| |[[]|]|]; simpl in *; rewrite ?Hne by done; destruct_and?; rewrite ?app_nil_r; try done. by destruct b; rewrite app_nil_r.
Qed.

Lemma handle_mono specs r log log' e tr tr' h d :
  handle_ok specs r log e tr h d -> log ⊆ log' -> events_of h tr' = events_of h tr -> accepted h tr' = accepted h tr -> handle_ok specs r log' e tr' h d.
Proof.
  intros [H1 H2 H3 H4 H5 H5' H6 H7 (lost & A & B & C)] Hl He Ha. assert (delivered h tr' = delivered h tr) as Hd by (unfold delivered; by rewrite He).
  split; rewrite ?He, ?Hd; try done. exists lost. rewrite Ha. split; [done|]. split; [done|]. intros x Hx. destruct (C x Hx) as [c Hc]. exists c. by apply Hl.
Qed.

(** Everything but the handle [h] of the label stays as it was. *)
Lemma inv_touch f aw tr f' aw' l h d' :
  family_inv f aw tr -> about l = Some h ->
  fm_protocols f' = fm_protocols f -> fm_peers f' = <[h := d']> (fm_peers f) ->
  (forall x, x <> h -> x ∈ fm_ready f' <-> x ∈ fm_ready f) -> NoDup (fm_ready f') -> fm_log f ⊆ fm_log f' ->
  (forall x, x <> h -> x ∈ fm_ended f' <-> x ∈ fm_ended f) ->
  handle_ok (fm_protocols f) (bool_decide (h ∈ fm_ready f')) (fm_log f') (bool_decide (h ∈ fm_ended f')) (tr ++ [l]) h d' ->
  (forall x d, x <> h -> fm_peers f !! x = Some d -> d_id d' = d_id d -> d_down d' = true \/ d_down d = true) ->
  (forall l1 x l2 d, fm_ready f' = l1 ++ x :: l2 -> fm_peers f' !! x = Some d -> d_up d = false ->
     forall x' dx, x' ∈ l2 -> fm_peers f' !! x' = Some dx -> d_id dx <> d_id d) ->
  (forall p s, l = LPush h p s false -> reset_in (fm_log f') s) ->
  (fm_ready f' <> [] -> fm_wake f' = true \/ aw' = true) -> family_inv f' aw' (tr ++ [l]).
Proof.
  intros Hi Hl Hp Hf Hr Hn Hlog Hend Hh Hlive Hord Href Hw. split; try done.
  - intros x Hx. rewrite Hf. destruct (decide (x = h)) as [->|Hne]; [by rewrite lookup_insert_eq|]. rewrite lookup_insert_ne by done. apply (fi_ring _ _ _ Hi). by apply Hr.
  - intros x d. rewrite Hf, Hp, lookup_insert_Some. intros [[<- <-]|[Hne Hd]]; [done|]. destruct (history_other x tr l) as [He Ha]; [congruence|].
    pose proof (fi_handle _ _ _ Hi x d Hd) as Hx. rewrite (bool_decide_ext (x ∈ fm_ready f') (x ∈ fm_ready f)) by (by apply Hr).
    rewrite (bool_decide_ext (x ∈ fm_ended f') (x ∈ fm_ended f)) by (by apply Hend). by eapply handle_mono.
  - intros x. rewrite Hf, lookup_insert_None. intros [Hx Hne]. destruct (history_other x tr l) as [-> ->]; [congruence|]. rewrite Hend by done. by apply (fi_absent _ _ _ Hi).
  - intros x y d e Hne. rewrite Hf, !lookup_insert_Some. intros [[<- <-]|[Hx Hd]] [[<- <-]|[Hy He]] E; [done| | |exact (fi_live _ _ _ Hi x y d e Hne Hd He E)].
    + by eapply Hlive.
    + destruct (Hlive x d (not_eq_sym Hx) Hd (eq_sym E)); auto.
  - intros x p s. rewrite elem_of_app, list_elem_of_singleton. intros [Hin|<-]; [destruct (fi_refused _ _ _ Hi x p s Hin) as [c Hc]; exists c; by apply Hlog|].
    injection Hl as ->. by eapply Href.
Qed.

(** Orders of the ring. *)
Lemma app_snoc_inv {A} (r : list A) a l1 h l2 : r ++ [a] = l1 ++ h :: l2 -> (l2 = [] /\ h = a /\ l1 = r) \/ exists l2', l2 = l2' ++ [a] /\ r = l1 ++ h :: l2'.
Proof.
  intros E. destruct l2 as [|x l2' _] using rev_ind; [left; apply app_inj_tail in E as [-> ->]; done|right].
  exists l2'. replace (l1 ++ h :: l2' ++ [x]) with ((l1 ++ h :: l2') ++ [x]) in E by (by rewrite <-app_assoc). by apply app_inj_tail in E as [-> ->].
Qed.

Lemma filter_split {A} (P : A -> Prop) `{!forall x, Decision (P x)} (r l1 : list A) h l2 :
  filter P r = l1 ++ h :: l2 -> exists k1 k2, r = k1 ++ h :: k2 /\ forall x, x ∈ l2 -> x ∈ k2.
Proof.
  revert l1. induction r as [|y r IH]; intros l1; [by destruct l1|]. rewrite filter_cons. case_decide as Hy.
  - destruct l1 as [|z l1]; simpl; intros [= -> E].
    + exists [], r. split; [done|]. intros x Hx. rewrite <-E in Hx. by apply list_elem_of_filter in Hx as [_ ?].
    + destruct (IH l1 E) as (k1 & k2 & -> & Hk). by exists (z :: k1), k2.
  - intros E. destruct (IH l1 E) as (k1 & k2 & -> & Hk). by exists (y :: k1), k2.
Qed.

Lemma count_snoc q l p s : count_of q (l ++ [(p, s)]) = count_of q l + (if p =? q then 1 else 0).
Proof. unfold count_of. rewrite filter_app, length_app, filter_cons, filter_nil. simpl. case_decide; destruct (Z.eqb_spec p q); simpl; try lia; done. Qed.

Lemma count_cons q l p s : count_of q ((p, s) :: l) = count_of q l + (if p =? q then 1 else 0).
Proof. unfold count_of. rewrite filter_cons. simpl. case_decide; destruct (Z.eqb_spec p q); simpl; try lia; done. Qed.

Lemma schedule_spec f h d :
  let f' := schedule h d f in
  fm_protocols f' = fm_protocols f /\ fm_peers f' = <[h := with_ready true d]> (fm_peers f) /\ fm_log f' = fm_log f /\ fm_ended f' = fm_ended f /\
  fm_wake f' = true /\ fm_ready f' = if d_ready d then fm_ready f else fm_ready f ++ [h].
Proof.
  unfold schedule. destruct (d_ready d) eqn:E; simpl; [|done]. destruct d. simpl in E. subst. done.
Qed.

(** Reads the fields of a state, not unfolding the operation that made it. *)
Ltac fields := cbn [log_fx end_context set_ready set_peer fm_code fm_protocols fm_wake fm_ready fm_peers fm_ended fm_log].

Section steps.
Context (f : family) (aw : bool) (tr : list label) (Hi : family_inv f aw tr).

(** A handle in the ring that is not up yet is alive. *)
Lemma waiting_live x d : x ∈ fm_ready f -> fm_peers f !! x = Some d -> d_up d = false -> d_down d = false.
Proof using Hi.
  intros Hx Hd Hu. pose proof (fi_handle _ _ _ Hi x d Hd) as Ho. pose proof (ho_fresh _ _ _ _ _ _ _ Ho Hu) as Hf. pose proof (ho_ring _ _ _ _ _ _ _ Ho) as Hr.
  rewrite bool_decide_eq_true_2 in Hr by done. rewrite Hr in Hf. by destruct (d_down d).
Qed.

(** The order of the ring when some handles leave it and [h] may join at its end. *)
Lemma order_kept f' h d' r :
  fm_peers f' = <[h := d']> (fm_peers f) -> NoDup (fm_ready f') ->
  (forall l1 x l2, r = l1 ++ x :: l2 -> exists k1 k2, fm_ready f = k1 ++ x :: k2 /\ l2 ⊆ k2) ->
  fm_ready f' = r \/ fm_ready f' = r ++ [h] ->
  (h ∈ r -> exists d, fm_peers f !! h = Some d /\ d_id d = d_id d' /\ d_up d = d_up d') ->
  (h ∈ fm_ready f' -> forall x d, x <> h -> fm_peers f !! x = Some d -> d_down d = false -> d_id d <> d_id d') ->
  forall l1 x l2 d, fm_ready f' = l1 ++ x :: l2 -> fm_peers f' !! x = Some d -> d_up d = false ->
    forall x' dx, x' ∈ l2 -> fm_peers f' !! x' = Some dx -> d_id dx <> d_id d.
Proof using Hi.
  intros Hp Hn Hsub Hr Hsame Hl l1 x l2 d E Hd Hu x' dx Hx' Hdx. rewrite Hp in Hd, Hdx.
  assert (x <> x') as Hne. { intros ->. rewrite E in Hn. apply NoDup_app in Hn as (_ & _ & Hn). by apply NoDup_cons in Hn as [? _]. }
  assert (x' ∈ fm_ready f') as Hx'r by (rewrite E; apply elem_of_app; right; by right).
  assert (exists l2', r = l1 ++ x :: l2' /\ (x' ∈ l2' \/ x' = h)) as (l2' & E' & Hin').
  { destruct Hr as [Er|Er]; rewrite Er in E; [exists l2; auto|]. apply app_snoc_inv in E as [(-> & _ & _)|(k & -> & ->)]; [by apply elem_of_nil in Hx'|].
    exists k. split; [done|]. apply elem_of_app in Hx' as [?|H]; [auto|]. apply list_elem_of_singleton in H. auto. }
  destruct (Hsub _ _ _ E') as (k1 & k2 & Ek & Hk). assert (x ∈ fm_ready f) as Hxr by (rewrite Ek; apply elem_of_app; right; by left).
  assert (x' <> h -> x' ∈ k2) as Hk2 by (intros Hx; destruct Hin' as [H|H]; [by apply Hk|done]).
  apply lookup_insert_Some in Hd as [[<- <-]|[Hxh Hd]].
  - destruct Hsame as (d0 & Hd0 & <- & Hu0); [rewrite E'; apply elem_of_app; right; by left|]. rewrite lookup_insert_ne in Hdx by done.
    apply (fi_order _ _ _ Hi k1 h k2 d0 Ek Hd0 (eq_trans Hu0 Hu) x' dx); [by apply Hk2|done].
  - apply lookup_insert_Some in Hdx as [[<- <-]|[Hx'h Hdx]].
    + intros Eid. by apply (Hl Hx'r x d (not_eq_sym Hxh) Hd (waiting_live x d Hxr Hd Hu)).
    + apply (fi_order _ _ _ Hi k1 x k2 d Ek Hd Hu x' dx); [by apply Hk2|done].
Qed.

Lemma ring_NoDup h d : fm_peers f !! h = Some d -> NoDup (if d_ready d then fm_ready f else fm_ready f ++ [h]).
Proof using Hi.
  intros Hd. pose proof (ho_ring _ _ _ _ _ _ _ (fi_handle _ _ _ Hi h d Hd)) as Hr. destruct (d_ready d); [apply Hi|].
  symmetry in Hr. apply bool_decide_eq_false in Hr. apply NoDup_app. split; [apply Hi|]. split; [|apply NoDup_singleton]. intros x Hx Hin. by apply list_elem_of_singleton in Hin as ->.
Qed.

Lemma ring_has h d : fm_peers f !! h = Some d -> forall x, x ∈ (if d_ready d then fm_ready f else fm_ready f ++ [h]) <-> x = h \/ x ∈ fm_ready f.
Proof using Hi.
  intros Hd x. pose proof (ho_ring _ _ _ _ _ _ _ (fi_handle _ _ _ Hi h d Hd)) as Hr. destruct (d_ready d).
  - symmetry in Hr. apply bool_decide_eq_true in Hr. split; [auto|]. by intros [->|?].
  - rewrite elem_of_app, list_elem_of_singleton. tauto.
Qed.

(** The other handles of a live handle's peer are not alive. *)
Lemma others_dead h d : fm_peers f !! h = Some d -> d_down d = false -> forall x dx, x <> h -> fm_peers f !! x = Some dx -> d_down dx = false -> d_id dx <> d_id d.
Proof using Hi. intros Hd Hdn x dx Hx Hdx Hxn E. destruct (fi_live _ _ _ Hi x h dx d Hx Hdx Hd E); congruence. Qed.

Lemma add_inv h id :
  fm_peers f !! h = None -> (forall h' d, fm_peers f !! h' = Some d -> d_id d = id -> d_down d = true) -> family_inv (addPeer h id f) aw (tr ++ [LAdd h id]).
Proof using Hi.
  intros Hn Hold. unfold addPeer. set (d := mk_delivery _ _ _ _ _ _ _). destruct (schedule_spec f h d) as (E1 & E2 & E3 & E4 & E5 & E6).
  assert (h ∉ fm_ready f) as Hnr by (intros Hin; destruct (fi_ring _ _ _ Hi h Hin); congruence). destruct (fi_absent _ _ _ Hi h Hn) as (He & Ha & Hend).
  eapply (inv_touch f aw tr _ aw (LAdd h id) h); [done|done|done|exact E2|..].
  - intros x Hx. rewrite E6. simpl. rewrite elem_of_app, list_elem_of_singleton. naive_solver.
  - rewrite E6. simpl. apply NoDup_app. split; [apply Hi|]. split; [|apply NoDup_singleton]. intros x Hx Hin. by apply list_elem_of_singleton in Hin as ->.
  - by rewrite E3.
  - intros x Hx. by rewrite E4.
  - rewrite E3, E4, E6. simpl. rewrite bool_decide_eq_true_2 by (apply elem_of_app; right; by left).
    rewrite bool_decide_eq_false_2 by done.
    split; simpl; try done; [by rewrite events_of_snoc, app_nil_r|].
    exists []. rewrite accepted_snoc, Ha. unfold delivered. rewrite events_of_snoc, He. split; [done|]. split; [done|]. by intros x ?%elem_of_nil.
  - intros x dx Hx Hdx Eid. right. by apply (Hold x).
  - apply (order_kept _ h (with_ready true d) (fm_ready f)); [done| |by intros l1 x l2 ->; exists l1, l2|right; by rewrite E6|done|].
    + rewrite E6. simpl. apply NoDup_app. split; [apply Hi|]. split; [|apply NoDup_singleton]. intros x Hx Hin. by apply list_elem_of_singleton in Hin as ->.
    + intros _ x dx Hx Hdx Hxn Eid. rewrite (Hold x dx Hdx Eid) in Hxn. done.
  - done.
  - intros _. by left.
Qed.
(** A live handle is scheduled, with [fx] done to streams and, if [b], its context ended. *)
Lemma touch_scheduled h d0 d fx (b : bool) l :
  let f0 := if b then end_context h f else f in
  fm_peers f !! h = Some d0 -> d_down d0 = false -> d_id d = d_id d0 -> d_up d = d_up d0 -> d_ready d = d_ready d0 ->
  about l = Some h -> (forall p s, l <> LPush h p s false) ->
  handle_ok (fm_protocols f) true (fm_log f ++ fx) (bool_decide (h ∈ fm_ended f0)) (tr ++ [l]) h (with_ready true d) ->
  family_inv (log_fx fx (schedule h d f0)) aw (tr ++ [l]).
Proof using Hi.
  intros f0 Hd Hdn Hid Hup Hrd Hl Hne Ho. assert (fm_protocols f0 = fm_protocols f /\ fm_peers f0 = fm_peers f /\ fm_ready f0 = fm_ready f /\ fm_log f0 = fm_log f) as (F1 & F2 & F3 & F4) by (by destruct b).
  destruct (schedule_spec f0 h d) as (E1 & E2 & E3 & E4 & E5 & E6). rewrite Hrd, F3 in E6.
  eapply (inv_touch f aw tr _ aw l h (with_ready true d)); [done|done|by rewrite <-F1|by fields; rewrite E2, F2|..]; fields.
  - intros x Hx. rewrite E6, ring_has by done. naive_solver.
  - rewrite E6. by apply ring_NoDup.
  - rewrite E3, F4. set_solver.
  - intros x Hx. rewrite E4. unfold f0. destruct b; fields; set_solver.
  - rewrite bool_decide_eq_true_2 by (rewrite E6, ring_has by done; by left). by rewrite E3, E4, F4.
  - intros x dx Hx Hdx. cbn [with_ready d_id d_down]. rewrite Hid. intros Eid. right. destruct (d_down dx) eqn:Ed; [done|]. exfalso. by apply (others_dead h d0 Hd Hdn x dx Hx Hdx Ed).
  - apply (order_kept _ h (with_ready true d) (fm_ready f)); [by fields; rewrite E2, F2|fields; rewrite E6; by apply ring_NoDup|by intros l1 x l2 ->; exists l1, l2| |eauto|].
    + fields. rewrite E6. destruct (d_ready d0); auto.
    + intros _ x dx Hx Hdx Hxn. cbn [with_ready d_id]. rewrite Hid. exact (others_dead h d0 Hd Hdn x dx Hx Hdx Hxn).
  - intros p s ->. by destruct (Hne p s).
  - intros _. left. exact E5.
Qed.

Lemma log_nil g : log_fx [] g = g.
Proof using Type. unfold log_fx. rewrite app_nil_r. by destruct g. Qed.

(** A stream is reset and nothing else happens. *)
Lemma refused_inv h d p s code :
  fm_peers f !! h = Some d -> family_inv (log_fx (cancelReceived s code) f) aw (tr ++ [LPush h p s false]).
Proof using Hi.
  intros Hd. assert (reset_in (fm_log f ++ cancelReceived s code) s) as Hres by (exists code; apply elem_of_app; right; by left).
  eapply (inv_touch f aw tr _ aw _ h d); [done|done|done|by simpl; rewrite insert_id|..]; simpl; try done; try apply Hi.
  - set_solver.
  - eapply handle_mono; [exact (fi_handle _ _ _ Hi h d Hd)|set_solver|by rewrite events_of_snoc, app_nil_r|by rewrite accepted_snoc, app_nil_r].
  - intros x dx Hx Hdx Eid. by apply (fi_live _ _ _ Hi h x).
  - intros q t [= <- <-]. done.
Qed.

Lemma push_inv h p s f' : push h p s f = Some f' -> family_inv f' aw (tr ++ [LPush h p s (accepts h p f)]).
Proof using Hi.
  unfold push, accepts. destruct (fm_peers f !! h) as [d|] eqn:Hd; [|done]. simpl. destruct (d_down d) eqn:Hdn; simpl; [intros [= <-]; by eapply refused_inv|].
  rewrite Z.geb_leb. destruct (Z.leb_spec (maxQueued (fm_protocols f) p) (queued_of d p)) as [Hq|Hq]; intros [= <-].
  { replace (queued_of d p <? _) with false by lia. by eapply refused_inv. }
  replace (queued_of d p <? _) with true by lia. rewrite <-(log_nil (schedule _ _ _)). pose proof (fi_handle _ _ _ Hi h d Hd) as Ho.
  apply (touch_scheduled h d _ [] false); try done. simpl. rewrite <-(ho_ended _ _ _ _ _ _ _ Ho), Hdn, app_nil_r.
  split; simpl; rewrite ?Hdn; try done.
  - intros Hu Hr E. by destruct (d_streams d).
  - intros _ q. destruct (ho_count _ _ _ _ _ _ _ Ho Hdn q) as [Hc Hb]. unfold queued_of in *. simpl. rewrite count_snoc. destruct (Z.eqb_spec p q) as [->|Hpq].
    + rewrite lookup_insert_eq. simpl. lia.
    + rewrite lookup_insert_ne by done. split; [lia|done].
  - destruct (quiet h tr (LPush h p s true)) as [-> ->]; [done|]. pose proof (ho_events _ _ _ _ _ _ _ Ho) as He. by rewrite Hdn in He.
  - destruct (ho_accepted _ _ _ _ _ _ _ Ho) as (lost & Ha & Hlost & _). destruct lost as [|x lost]; [|specialize (Hlost ltac:(done)); congruence].
    exists []. rewrite accepted_snoc, Nat.eqb_refl, Ha. destruct (quiet h tr (LPush h p s true)) as [_ ->]; [done|]. rewrite <-app_assoc. split; [done|]. split; [done|]. by intros x ?%elem_of_nil.
Qed.
(** The queued streams of a handle that ends are reset. *)
Lemma reset_all (streams : list (Z * receivedStream)) code log : forall x, x ∈ streams -> reset_in (log ++ (streams ≫= fun p => cancelReceived p.2 code)) x.2.
Proof using Type. intros x Hx. exists code. apply elem_of_app. right. apply list_elem_of_bind. exists x. split; [by left|done]. Qed.

(** The history of a live handle that ends. *)
Lemma closed_accepted h d c r :
  fm_peers f !! h = Some d -> d_down d = false ->
  exists lost, accepted h (tr ++ [LClose h c r]) = delivered h (tr ++ [LClose h c r]) ++ lost ++ [] /\ (lost <> [] -> true = true) /\
    forall x, x ∈ lost -> reset_in (fm_log f ++ (d_streams d ≫= fun p => cancelReceived p.2 r)) x.2.
Proof using Hi.
  intros Hd Hdn. destruct (ho_accepted _ _ _ _ _ _ _ (fi_handle _ _ _ Hi h d Hd)) as (lost & Ha & Hlost & _).
  destruct lost as [|x lost]; [|specialize (Hlost ltac:(done)); congruence].
  exists (d_streams d). destruct (quiet h tr (LClose h c r)) as [_ ->]; [done|]. rewrite accepted_snoc, Ha, !app_nil_r. split; [done|]. split; [done|]. apply reset_all.
Qed.

Lemma close_inv h c r b f' : closePeer h c r f = Some (b, f') -> family_inv f' aw (tr ++ [LClose h c r]).
Proof using Hi.
  unfold closePeer. destruct (fm_peers f !! h) as [d|] eqn:Hd; [|done]. simpl. pose proof (fi_handle _ _ _ Hi h d Hd) as Ho. destruct (d_down d) eqn:Hdn.
  { intros [= <- <-]. eapply (inv_touch f aw tr f aw _ h d); try done; try apply Hi; [by rewrite insert_id| |].
    - eapply handle_mono; [exact Ho|done|by rewrite events_of_snoc, app_nil_r|by rewrite accepted_snoc, app_nil_r].
    - auto. }
  pose proof (closed_accepted h d c r Hd Hdn) as Hacc. pose proof (ho_events _ _ _ _ _ _ _ Ho) as He. rewrite Hdn in He. destruct (d_up d) eqn:Hup; simpl; intros [= <- <-].
  - apply (touch_scheduled h d _ _ true); try done. simpl. rewrite bool_decide_eq_true_2 by set_solver.
    split; simpl; rewrite ?Hup; try done. by destruct (quiet h tr (LClose h c r)) as [-> ->].
  - pose proof (ho_fresh _ _ _ _ _ _ _ Ho Hup) as Hrd. rewrite Hdn in Hrd. rewrite Hrd. cbn [negb]. match goal with |- family_inv ?g _ _ => set (f1 := g) end.
    assert (NoDup (filter (fun x => x <> h) (fm_ready f))) as Hnd by (apply NoDup_filter, Hi).
    eapply (inv_touch f aw tr f1 aw _ h (with_ready false (mk_delivery (d_id d) false true c [] ∅ true))); try done.
    + intros x Hx. unfold f1. fields. rewrite list_elem_of_filter. naive_solver.
    + unfold f1. fields. set_solver.
    + intros x Hx. unfold f1. fields. set_solver.
    + unfold f1. fields. rewrite bool_decide_eq_false_2 by (rewrite list_elem_of_filter; naive_solver). rewrite bool_decide_eq_true_2 by set_solver.
      split; simpl; try done. by rewrite events_of_snoc, app_nil_r.
    + auto.
    + apply (order_kept f1 h (with_ready false (mk_delivery (d_id d) false true c [] ∅ true)) (filter (fun x => x <> h) (fm_ready f))); auto.
      * intros l1 x l2 E. by apply filter_split in E.
      * rewrite list_elem_of_filter. naive_solver.
      * unfold f1. fields. rewrite list_elem_of_filter. naive_solver.
    + intros Hne. apply (fi_wake _ _ _ Hi). intros E. apply Hne. unfold f1. fields. by rewrite E.
Qed.

(** The front handle is taken off the ring and, if [b], put at its end. *)
Lemma touch_next h rest d0 d (b : bool) ev :
  let f' := mk_family (fm_code f) (fm_protocols f) (fm_wake f) (if b then rest ++ [h] else rest) (<[h := with_ready b d]> (fm_peers f)) (fm_ended f) (fm_log f) in
  fm_ready f = h :: rest -> fm_peers f !! h = Some d0 -> (b = true -> d_down d0 = false) -> d_id d = d_id d0 -> d_down d = d_down d0 ->
  about (LNext (Some ev)) = Some h ->
  handle_ok (fm_protocols f) b (fm_log f) (d_down d0) (tr ++ [LNext (Some ev)]) h (with_ready b d) ->
  family_inv f' true (tr ++ [LNext (Some ev)]).
Proof using Hi.
  intros f' Hr Hd Hb Hid Hdn Hl Ho. pose proof (fi_nodup _ _ _ Hi) as Hn. rewrite Hr in Hn. apply NoDup_cons in Hn as [Hnin Hn].
  assert (NoDup (fm_ready f')) as Hn'.
  { unfold f'. fields. destruct b; [|done]. apply NoDup_app. split; [done|]. split; [|apply NoDup_singleton]. intros x Hx Hin. by apply list_elem_of_singleton in Hin as ->. }
  assert (forall x, x <> h -> x ∈ fm_ready f' <-> x ∈ fm_ready f) as Hmem.
  { intros x Hx. unfold f'. fields. rewrite Hr, elem_of_cons. destruct b; rewrite ?elem_of_app, ?list_elem_of_singleton; naive_solver. }
  assert (h ∈ fm_ready f' <-> b = true) as Hin.
  { unfold f'. fields. destruct b; rewrite ?elem_of_app, ?list_elem_of_singleton; naive_solver. }
  eapply (inv_touch f aw tr f' true _ h (with_ready b d)); try done.
  - rewrite (bool_decide_ext _ _ Hin). pose proof (ho_ended _ _ _ _ _ _ _ (fi_handle _ _ _ Hi h d0 Hd)) as He. unfold f'. fields. rewrite <-He. by destruct b.
  - intros x dx Hx Hdx. cbn [with_ready d_id d_down]. rewrite Hid, Hdn. intros Eid. by apply (fi_live _ _ _ Hi h x).
  - apply (order_kept f' h (with_ready b d) rest); try done.
    + intros l1 x l2 ->. exists (h :: l1), l2. by rewrite Hr.
    + unfold f'. fields. destruct b; auto.
    + rewrite Hin. intros Eb x dx Hx Hdx Hxn. cbn [with_ready d_id]. rewrite Hid. exact (others_dead h d0 Hd (Hb Eb) x dx Hx Hdx Hxn).
  - auto.
Qed.
(** The front of the ring was put there, and it is in no other place. *)
Lemma front_ready h rest d : fm_ready f = h :: rest -> fm_peers f !! h = Some d -> d_ready d = true.
Proof using Hi. intros Hr Hd. rewrite (ho_ring _ _ _ _ _ _ _ (fi_handle _ _ _ Hi h d Hd)), Hr. apply bool_decide_eq_true_2. by left. Qed.

Lemma next_up_inv h rest d :
  let b := negb (length (d_streams d) =? 0)%nat in
  fm_ready f = h :: rest -> fm_peers f !! h = Some d -> d_up d = false ->
  family_inv (mk_family (fm_code f) (fm_protocols f) (fm_wake f) (if b then rest ++ [h] else rest)
    (<[h := mk_delivery (d_id d) true (d_down d) (d_code d) (d_streams d) (d_queued d) b]> (fm_peers f)) (fm_ended f) (fm_log f)) true (tr ++ [LNext (Some (EvPeerUp h))]).
Proof using Hi.
  intros b Hr Hd Hup. pose proof (fi_handle _ _ _ Hi h d Hd) as Ho. assert (d_down d = false) as Hdn by (apply (waiting_live h d); [rewrite Hr; by left|done|done]).
  assert (b = true <-> d_streams d <> []) as Hb by (unfold b; by destruct (d_streams d)).
  apply (touch_next h rest d (mk_delivery (d_id d) true (d_down d) (d_code d) (d_streams d) (d_queued d) b) b); try done.
  pose proof (ho_events _ _ _ _ _ _ _ Ho) as He. rewrite Hup in He. assert (delivered h tr = []) as Hde by (unfold delivered; by rewrite He).
  assert (events_of h (tr ++ [LNext (Some (EvPeerUp h))]) = [EvPeerUp h]) as He'. { rewrite events_of_snoc, He. simpl. by rewrite Nat.eqb_refl. }
  assert (delivered h (tr ++ [LNext (Some (EvPeerUp h))]) = []) as Hde' by (unfold delivered; by rewrite He').
  split; simpl; rewrite ?Hdn; try done; [by intros; apply Hb|by intros _ ?%Hb|intros _; exact (ho_count _ _ _ _ _ _ _ Ho Hdn)|by rewrite He', Hde'|].
  rewrite accepted_snoc, app_nil_r, Hde'. pose proof (ho_accepted _ _ _ _ _ _ _ Ho) as Ha. by rewrite Hde, Hdn in Ha.
Qed.

Lemma next_stream_inv h rest d p s streams :
  let b := negb (length streams =? 0)%nat in
  let d' := mk_delivery (d_id d) true (d_down d) (d_code d) streams (<[p := queued_of d p - 1]> (d_queued d)) b in
  fm_ready f = h :: rest -> fm_peers f !! h = Some d -> d_up d = true -> d_streams d = (p, s) :: streams ->
  family_inv (mk_family (fm_code f) (fm_protocols f) (fm_wake f) (if b then rest ++ [h] else rest)
    (<[h := d']> (fm_peers f)) (fm_ended f) (fm_log f)) true
    (tr ++ [LNext (Some (EvStreamIn h p s))]).
Proof using Hi.
  intros b d' Hr Hd Hup Hs. pose proof (fi_handle _ _ _ Hi h d Hd) as Ho.
  assert (d_down d = false) as Hdn by (destruct (d_down d) eqn:E; [|done]; rewrite (ho_down _ _ _ _ _ _ _ Ho E) in Hs; done).
  assert (b = true <-> streams <> []) as Hb by (unfold b; by destruct streams).
  apply (touch_next h rest d d' b); try done. change (with_ready b d') with d'.
  pose proof (ho_events _ _ _ _ _ _ _ Ho) as He. rewrite Hup, Hdn in He. simpl in He. rewrite app_nil_r in He.
  assert (events_of h (tr ++ [LNext (Some (EvStreamIn h p s))]) = events_of h tr ++ [EvStreamIn h p s]) as He'. { rewrite events_of_snoc. simpl. by rewrite Nat.eqb_refl. }
  assert (delivered h (tr ++ [LNext (Some (EvStreamIn h p s))]) = delivered h tr ++ [(p, s)]) as Hde' by (unfold delivered; by rewrite He', omap_app).
  split; simpl; rewrite ?Hdn; try done.
  - by intros; apply Hb.
  - by intros _ ?%Hb.
  - intros _ q. destruct (ho_count _ _ _ _ _ _ _ Ho Hdn q) as [Hc Hq]. rewrite Hs, count_cons in Hc. unfold queued_of in *. simpl. destruct (Z.eqb_spec p q) as [->|Hpq].
    + rewrite lookup_insert_eq. simpl. lia.
    + rewrite lookup_insert_ne by done. split; [lia|done].
  - by rewrite He', Hde', He, fmap_app, app_nil_r.
  - destruct (ho_accepted _ _ _ _ _ _ _ Ho) as (lost & Ha & Hlost & _). destruct lost as [|x lost]; [|specialize (Hlost ltac:(done)); congruence].
    exists []. rewrite accepted_snoc, app_nil_r, Hde', Ha, Hs, <-app_assoc. split; [done|]. split; [done|]. by intros x ?%elem_of_nil.
Qed.

Lemma next_down_inv h rest d :
  fm_ready f = h :: rest -> fm_peers f !! h = Some d -> d_up d = true -> d_streams d = [] ->
  family_inv (mk_family (fm_code f) (fm_protocols f) (fm_wake f) rest
    (<[h := with_ready false d]> (fm_peers f)) (fm_ended f) (fm_log f)) true (tr ++ [LNext (Some (EvPeerDown h (d_code d)))]).
Proof using Hi.
  intros Hr Hd Hup Hs. pose proof (fi_handle _ _ _ Hi h d Hd) as Ho. pose proof (front_ready h rest d Hr Hd) as Hrd. pose proof (ho_work _ _ _ _ _ _ _ Ho Hup Hrd Hs) as Hdn.
  apply (touch_next h rest d d false); try done.
  pose proof (ho_events _ _ _ _ _ _ _ Ho) as He. rewrite Hup, Hdn, Hrd in He. simpl in He. rewrite app_nil_r in He. set (ev := EvPeerDown h (d_code d)).
  assert (events_of h (tr ++ [LNext (Some ev)]) = events_of h tr ++ [ev]) as He'. { rewrite events_of_snoc. simpl. by rewrite Nat.eqb_refl. }
  assert (delivered h (tr ++ [LNext (Some ev)]) = delivered h tr) as Hde' by (unfold delivered; by rewrite He', omap_app, app_nil_r).
  split; simpl; rewrite ?Hdn, ?Hup; try done.
  - by rewrite He', Hde', He.
  - rewrite accepted_snoc, app_nil_r, Hde'. pose proof (ho_accepted _ _ _ _ _ _ _ Ho) as Ha. by rewrite Hdn in Ha.
Qed.
End steps.

(** A label about no handle, the streams and the ring as they were. *)
Lemma still_inv f aw tr f' aw' l :
  family_inv f aw tr -> about l = None -> fm_protocols f' = fm_protocols f -> fm_peers f' = fm_peers f -> fm_ready f' = fm_ready f ->
  fm_ended f' = fm_ended f -> fm_log f' = fm_log f -> (fm_ready f' <> [] -> fm_wake f' = true \/ aw' = true) -> family_inv f' aw' (tr ++ [l]).
Proof.
  intros [A B C D E F G H] Hl E1 E2 E3 E4 E5 Hw. assert (forall h, events_of h (tr ++ [l]) = events_of h tr /\ accepted h (tr ++ [l]) = accepted h tr) as Hh by (intros h; apply history_other; congruence).
  split; rewrite ?E1, ?E2, ?E3, ?E4, ?E5; try done.
  - intros h d Hd. destruct (Hh h). by eapply handle_mono; [apply C| |done|done].
  - intros h Hn. destruct (Hh h) as [-> ->]. by apply D.
  - intros h p s. rewrite elem_of_app, list_elem_of_singleton. intros [?|<-]; [by eapply G|done].
  - by rewrite <-E3.
Qed.

Lemma next_inv f tr ev f' : family_inv f true tr -> Next f = Some (ev, f') -> family_inv f' (match ev with Some _ => true | None => false end) (tr ++ [LNext ev]).
Proof.
  intros Hi. unfold Next. destruct (fm_ready f) as [|h rest] eqn:Hr; [intros [= <- <-]; eapply still_inv; try done; by rewrite Hr|].
  destruct (fm_peers f !! h) as [d|] eqn:Hd; [|done]. simpl. pose proof (fi_handle _ _ _ Hi h d Hd) as Ho. destruct (d_up d) eqn:Hup; simpl.
  - destruct (d_streams d) as [|[p s] streams] eqn:Hs; intros [= <- <-].
    + pose proof (next_down_inv f true tr Hi h rest d Hr Hd Hup Hs) as Hn. unfold with_ready in *. by rewrite Hup in *.
    + assert (d_down d = false) as Hdn by (destruct (d_down d) eqn:E; [|done]; rewrite (ho_down _ _ _ _ _ _ _ Ho E) in Hs; done).
      pose proof (next_stream_inv f true tr Hi h rest d p s streams Hr Hd Hup Hs) as Hn. rewrite Hdn in *. rewrite orb_false_r. by destruct streams.
  - intros [= <- <-]. assert (d_down d = false) as Hdn by (apply (waiting_live f true tr Hi h d); [rewrite Hr; by left|done|done]).
    pose proof (next_up_inv f true tr Hi h rest d Hr Hd Hup) as Hn. rewrite Hdn in *. rewrite orb_false_r. by destruct (d_streams d).
Qed.

Lemma family_run_inv code protocols s tr : family_run code protocols s tr -> family_inv s.1 s.2 tr /\ fm_protocols s.1 = protocols /\ fm_code s.1 = code.
Proof.
  induction 1 as [|s l s' tr Hrun (Hi & Hp & Hc) Hstep].
  - split; [|done]. split; simpl; try done; [apply NoDup_nil_2|by intros h ?%elem_of_nil|by intros h p s ?%elem_of_nil].
  - destruct Hstep as [h id f aw Hn Hold|h p s f f' aw E|h c r f b f' aw E|f ev f' E|f Hw]; simpl in *.
    + split; [by apply add_inv|done].
    + split; [by apply push_inv|]. unfold push, schedule in E. destruct (fm_peers f !! h); [|done]. simpl in E. repeat case_match; by simplify_eq.
    + split; [by eapply close_inv|]. unfold closePeer, schedule in E. destruct (fm_peers f !! h); [|done]. simpl in E. repeat case_match; by simplify_eq.
    + split; [by apply (next_inv f)|]. unfold Next in E. destruct (fm_ready f) as [|h ?]; [by simplify_eq|]. destruct (fm_peers f !! h); [|done]. simpl in E. repeat case_match; by simplify_eq.
    + split; [|done]. eapply still_inv; try done. auto.
Qed.

(** ** Draining *)

(** The events a handle in the ring has left, and those of the ring. *)
Definition pending_of (d : peerDelivery) : nat := (if d_up d then 0 else 1) + length (d_streams d) + (if d_down d then 1 else 0).
Definition pending_at (f : family) (h : nat) : nat := match fm_peers f !! h with Some d => pending_of d | None => 0 end.
Definition pending (f : family) : nat := sum_list_with (pending_at f) (fm_ready f).

(** [Next] until it reports nothing. *)
Fixpoint drain (fuel : nat) (f : family) : option (list family_event * family) :=
  match fuel with
  | O => None
  | S fuel =>
      letp r := Next f in
      match r.1 with
      | None => Some ([], r.2)
      | Some ev => letp r := drain fuel r.2 in Some (ev :: r.1, r.2)
      end
  end.

Lemma sum_ext (g k : nat -> nat) l : (forall x, x ∈ l -> g x = k x) -> sum_list_with g l = sum_list_with k l.
Proof. induction l as [|x l IH]; intros H; [done|]. cbn [sum_list_with]. rewrite (H x) by (by left). rewrite IH; [done|]. intros y Hy. apply H. by right. Qed.

(** One [Next] takes one event off what is pending. *)
Lemma next_pending f tr ev f' : family_inv f true tr -> Next f = Some (ev, f') ->
  match ev with Some _ => pending f = S (pending f') | None => fm_ready f = [] /\ f' = f end.
Proof.
  intros Hi. unfold Next. destruct (fm_ready f) as [|h rest] eqn:Hr; [by intros [= <- <-]|].
  destruct (fm_peers f !! h) as [d|] eqn:Hd; [|done]. simpl. pose proof (fi_handle _ _ _ Hi h d Hd) as Ho. pose proof (front_ready f true tr Hi h rest d Hr Hd) as Hrd.
  pose proof (fi_nodup _ _ _ Hi) as Hn. rewrite Hr in Hn. apply NoDup_cons in Hn as [Hnin Hn].
  assert (forall g d' b, fm_peers g = <[h := d']> (fm_peers f) -> fm_ready g = (if b : bool then rest ++ [h] else rest) -> pending_of d = S (if b then pending_of d' else 0) -> pending f = S (pending g)) as Hp.
  { intros g d' b E1 E2 E3. unfold pending. rewrite E2, Hr. cbn [sum_list_with]. unfold pending_at at 1. rewrite Hd, E3.
    assert (sum_list_with (pending_at f) rest = sum_list_with (pending_at g) rest) as ->.
    { apply sum_ext. intros x Hx. unfold pending_at. rewrite E1, lookup_insert_ne; [done|]. by intros ->. }
    destruct b; [|lia]. rewrite sum_list_with_app. cbn [sum_list_with]. unfold pending_at at 3. rewrite E1, lookup_insert_eq. lia. }
  destruct (d_up d) eqn:Hup; simpl.
  - destruct (d_streams d) as [|[p s] streams] eqn:Hs; intros [= <- <-].
    + eapply (Hp _ _ false); [done|done|]. unfold pending_of. by rewrite Hup, Hs, (ho_work _ _ _ _ _ _ _ Ho Hup Hrd Hs).
    + assert (d_down d = false) as Hdn by (destruct (d_down d) eqn:E; [|done]; rewrite (ho_down _ _ _ _ _ _ _ Ho E) in Hs; done).
      rewrite Hdn, orb_false_r. set (b := negb (length streams =? 0)%nat).
      apply (Hp _ (mk_delivery (d_id d) true false (d_code d) streams (<[p := queued_of (with_ready false d) p - 1]> (d_queued d)) b) b); [by destruct streams|by destruct streams|]. unfold pending_of. rewrite Hup, Hs, Hdn. simpl. by destruct streams.
  - intros [= <- <-]. assert (d_down d = false) as Hdn by (apply (waiting_live f true tr Hi h d); [rewrite Hr; by left|done|done]).
    rewrite Hdn, orb_false_r. set (b := negb (length (d_streams d) =? 0)%nat).
    apply (Hp _ (mk_delivery (d_id d) true false (d_code d) (d_streams d) (d_queued d) b) b); [by destruct (d_streams d)|by destruct (d_streams d)|].
    unfold pending_of. rewrite Hup, Hdn. simpl. by destruct (d_streams d).
Qed.

Lemma run_inv_all code protocols f aw tr : family_run code protocols (f, aw) tr -> family_inv f aw tr /\ fm_protocols f = protocols /\ fm_code f = code.
Proof. apply (family_run_inv code protocols (f, aw)). Qed.

Lemma drain_spec fuel f tr : family_inv f true tr -> (pending f < fuel)%nat ->
  exists evs f', drain fuel f = Some (evs, f') /\ length evs = pending f /\ fm_ready f' = [] /\ family_inv f' false (tr ++ ((fun ev => LNext (Some ev)) <$> evs) ++ [LNext None]).
Proof.
  revert f tr. induction fuel as [|fuel IH]; intros f tr Hi Hf; [lia|]. simpl.
  destruct (Next f) as [[ev f1]|] eqn:En.
  2: { unfold Next in En. destruct (fm_ready f) as [|h r] eqn:Hr; [done|]. destruct (fi_ring _ _ _ Hi h) as [d Hd]; [rewrite Hr; by left|].
       rewrite Hd in En. simpl in En. repeat case_match; done. }
  pose proof (next_pending f tr ev f1 Hi En) as Hp. pose proof (next_inv f tr ev f1 Hi En) as Hi1. simpl. destruct ev as [ev|].
  - destruct (IH f1 (tr ++ [LNext (Some ev)]) Hi1 ltac:(lia)) as (evs & f' & -> & Hl & Hr & Hi'). exists (ev :: evs), f'. simpl. split; [done|]. split; [lia|]. split; [done|].
    rewrite <-app_assoc in Hi'. exact Hi'.
  - destruct Hp as [Hr ->]. exists [], f. split; [done|]. split; [unfold pending; by rewrite Hr|]. done.
Qed.

(** ** Correctness of the queue *)

(** C36. One handle's deliveries.  In every run the events [Next] has returned
    for a handle are nothing, or [PeerUp], then its delivered streams in the
    order they were pushed, then at most one [PeerDown], with the code the
    handle was closed with and only after its context ended.  The streams
    accepted by [push] are the delivered ones, then ones that were reset (only
    once the handle ended), then those still queued; those refused were reset.
    Of each protocol at most [MaxQueued] are queued. *)
Theorem family_delivery code protocols f aw tr h d :
  family_run code protocols (f, aw) tr -> fm_peers f !! h = Some d ->
  (exists tail, events_of h tr = (if d_up d then EvPeerUp h :: ((fun x => EvStreamIn h x.1 x.2) <$> delivered h tr) ++ tail else []) /\
     (tail = [] \/ (tail = [EvPeerDown h (d_code d)] /\ h ∈ fm_ended f))) /\
  (exists lost, accepted h tr = delivered h tr ++ lost ++ d_streams d /\ (lost <> [] -> h ∈ fm_ended f) /\ forall x, x ∈ lost -> reset_in (fm_log f) x.2) /\
  (forall p s, LPush h p s false ∈ tr -> reset_in (fm_log f) s) /\
  (forall p, count_of p (d_streams d) <= Z.max 0 (maxQueued protocols p)).
Proof.
  intros Hrun Hd. destruct (run_inv_all _ _ _ _ _ Hrun) as (Hi & <- & _). pose proof (fi_handle _ _ _ Hi h d Hd) as Ho.
  assert (d_down d = true -> h ∈ fm_ended f) as Hend. { intros E. pose proof (ho_ended _ _ _ _ _ _ _ Ho) as He. rewrite E in He. symmetry in He. by apply bool_decide_eq_true in He. }
  split; [|split; [|split]].
  - eexists. split; [apply Ho|]. destruct (d_down d) eqn:E, (d_ready d); auto.
  - destruct (ho_accepted _ _ _ _ _ _ _ Ho) as (lost & Ha & Hl & Hr). exists lost. auto.
  - intros p s. apply (fi_refused _ _ _ Hi).
  - intros p. destruct (d_down d) eqn:E; [rewrite (ho_down _ _ _ _ _ _ _ Ho E); unfold count_of; simpl; lia|].
    destruct (ho_count _ _ _ _ _ _ _ Ho E p) as [<- Hb]. lia.
Qed.

Lemma turnover_spec f tr h f' d h' d' :
  family_inv f true tr -> Next f = Some (Some (EvPeerUp h), f') ->
  h' <> h -> fm_peers f !! h = Some d -> fm_peers f !! h' = Some d' -> d_id d' = d_id d ->
  events_of h tr = [] /\ (events_of h' tr = [] \/ exists l c, events_of h' tr = l ++ [EvPeerDown h' c]).
Proof.
  intros Hi En Hne Hd Hd' Eid. unfold Next in En. destruct (fm_ready f) as [|x rest] eqn:Hr; [done|].
  destruct (fm_peers f !! x) as [dx|] eqn:Hx; [|done]. simpl in En. destruct (d_up dx) eqn:Hup; simpl in En; [destruct (d_streams dx) as [|[]]; done|].
  injection En as -> _. assert (dx = d) as -> by congruence. pose proof (fi_handle _ _ _ Hi h d Hd) as Ho. pose proof (fi_handle _ _ _ Hi h' d' Hd') as Ho'.
  split; [rewrite (ho_events _ _ _ _ _ _ _ Ho); by rewrite Hup|].
  assert (d_down d = false) as Hdn by (apply (waiting_live f true tr Hi h d); [rewrite Hr; by left|done|done]).
  assert (d_down d' = true) as Hdn'. { destruct (fi_live _ _ _ Hi h' h d' d Hne Hd' Hd Eid); congruence. }
  assert (d_ready d' = false) as Hrd'.
  { rewrite (ho_ring _ _ _ _ _ _ _ Ho'). apply bool_decide_eq_false. rewrite Hr, elem_of_cons. intros [?|Hin]; [done|].
    by apply (fi_order _ _ _ Hi [] h rest d Hr Hd Hup h' d' Hin Hd'). }
  rewrite (ho_events _ _ _ _ _ _ _ Ho'), Hdn', Hrd'. destruct (d_up d'); [right|by left].
  eexists (EvPeerUp h' :: _), _. simpl. reflexivity.
Qed.

(** Handles of one peer do not overlap.  In every run, when [Next] returns
    [PeerUp] for a handle, no event of it was returned before, and every other
    handle of the same peer was either never announced or has had its
    [PeerDown] returned: the consumer sees one binding of a peer at a time. *)
Theorem family_turnover code protocols f tr h f' d h' d' :
  family_run code protocols (f, true) tr -> Next f = Some (Some (EvPeerUp h), f') ->
  h' <> h -> fm_peers f !! h = Some d -> fm_peers f !! h' = Some d' -> d_id d' = d_id d ->
  events_of h tr = [] /\ (events_of h' tr = [] \/ exists l c, events_of h' tr = l ++ [EvPeerDown h' c]).
Proof. intros Hrun. destruct (run_inv_all _ _ _ _ _ Hrun) as (Hi & _). by apply turnover_spec. Qed.

(** No event is lost and draining ends.  In every run an event is pending
    only while the consumer drains or a wake token waits for it; and when it
    drains, it receives exactly the pending events and then nothing, after
    which no live handle has an unannounced or queued delivery and every ended
    handle that was announced has had its [PeerDown]. *)
Theorem family_drains code protocols f aw tr :
  family_run code protocols (f, aw) tr ->
  (fm_ready f <> [] -> fm_wake f = true \/ aw = true) /\
  (aw = true -> exists evs f', drain (S (pending f)) f = Some (evs, f') /\ length evs = pending f /\
     forall h d, fm_peers f' !! h = Some d ->
       d_streams d = [] /\ (d_down d = false -> d_up d = true) /\
       (d_down d = true -> d_up d = true -> exists l, events_of h (tr ++ ((fun ev => LNext (Some ev)) <$> evs) ++ [LNext None]) = l ++ [EvPeerDown h (d_code d)])).
Proof.
  intros Hrun. destruct (run_inv_all _ _ _ _ _ Hrun) as (Hi & _). split; [apply Hi|]. intros ->.
  destruct (drain_spec (S (pending f)) f tr Hi ltac:(lia)) as (evs & f' & E & Hl & Hr & Hi'). exists evs, f'. split; [done|]. split; [done|]. intros h d Hd.
  pose proof (fi_handle _ _ _ Hi' h d Hd) as Ho. assert (d_ready d = false) as Hrd.
  { rewrite (ho_ring _ _ _ _ _ _ _ Ho), Hr. apply bool_decide_eq_false. apply not_elem_of_nil. }
  assert (d_down d = false -> d_up d = true) as Hup.
  { intros Hdn. destruct (d_up d) eqn:Hu; [done|]. pose proof (ho_fresh _ _ _ _ _ _ _ Ho Hu) as Hf. rewrite Hrd, Hdn in Hf. done. }
  split; [|split; [done|]].
  - destruct (d_down d) eqn:Hdn; [by apply (ho_down _ _ _ _ _ _ _ Ho)|]. destruct (d_streams d) as [|x l] eqn:Hs; [done|].
    assert (d_ready d = true); [|congruence]. apply (ho_pending _ _ _ _ _ _ _ Ho); [by apply Hup|]. by rewrite Hs.
  - intros Hdn Hu. rewrite (ho_events _ _ _ _ _ _ _ Ho), Hu, Hdn, Hrd. eexists (EvPeerUp h :: _). simpl. reflexivity.
Qed.

(** ** Family lists *)

Lemma sorted_lookup l : StronglySorted Z.lt l -> forall a b x y, (a <= b)%nat -> l !! a = Some x -> l !! b = Some y -> x <= y.
Proof.
  induction 1 as [|z l Hs IH Hf]; intros a b x y Hab Ha Hb; [done|]. destruct a as [|a], b as [|b]; simpl in *; [simplify_eq; lia| |lia|eapply (IH a b); [lia|done|done]].
  injection Ha as <-. rewrite Forall_lookup in Hf. specialize (Hf _ _ Hb). lia.
Qed.

Section search.
Context (families : list Z) (code : Z) (Hs : StronglySorted Z.lt families).

Definition split_at (i j : nat) : Prop :=
  (forall k x, (k < i)%nat -> families !! k = Some x -> x < code) /\ (forall k x, (j <= k)%nat -> families !! k = Some x -> code <= x).

Lemma search_loop_spec fuel : forall i j, (j - i < fuel)%nat -> (i <= j <= length families)%nat -> split_at i j ->
  exists r, search_loop fuel families code i j = Some r /\ split_at r r.
Proof using Hs.
  induction fuel as [|fuel IH]; intros i j Hf Hij [Hlo Hhi]; [lia|]. simpl. destruct (Nat.ltb_spec i j) as [Hlt|Hge]; [|exists i; split; [done|]; by replace j with i in Hhi by lia].
  set (h := ((i + j) / 2)%nat). assert (i <= h < j)%nat as Hh by (unfold h; split; [apply Nat.div_le_lower_bound; lia|apply Nat.Div0.div_lt_upper_bound; lia]).
  destruct (lookup_lt_is_Some_2 families h) as [x Hx]; [lia|]. change ((i + j) `div` 2)%nat with h. rewrite Hx. simpl. destruct (Z.ltb_spec x code) as [Hc|Hc].
  - apply IH; [lia|lia|]. split; [|done]. intros k y Hk Hy. pose proof (sorted_lookup families Hs k h y x ltac:(lia) Hy Hx). lia.
  - apply IH; [lia|lia|]. split; [done|]. intros k y Hk Hy. pose proof (sorted_lookup families Hs h k x y ltac:(lia) Hx Hy). lia.
Qed.

Lemma BinarySearch_spec : exists i, BinarySearch families code = Some (i, bool_decide (code ∈ families)).
Proof using Hs.
  destruct (search_loop_spec (S (length families)) 0 (length families)) as (i & E & Hlo & Hhi); [lia|lia| |].
  { split; [intros; lia|]. intros k x Hk Hx%lookup_lt_Some. lia. }
  exists i. unfold BinarySearch. rewrite E. simpl. do 2 f_equal. destruct (families !! i) as [x|] eqn:Hx.
  - destruct (Z.eqb_spec x code) as [->|Hne]; [symmetry; apply bool_decide_eq_true; by eapply list_elem_of_lookup_2|]. symmetry. apply bool_decide_eq_false.
    intros [k Hk]%list_elem_of_lookup_1. destruct (decide (k < i)%nat) as [Hki|Hki]; [specialize (Hlo k code Hki Hk); lia|].
    pose proof (sorted_lookup families Hs i k x code ltac:(lia) Hx Hk). specialize (Hhi i x ltac:(lia) Hx). lia.
  - symmetry. apply bool_decide_eq_false. intros [k Hk]%list_elem_of_lookup_1. apply lookup_ge_None in Hx. pose proof (lookup_lt_Some _ _ _ Hk). specialize (Hlo k code ltac:(lia) Hk). lia.
Qed.
End search.

Lemma sharedWith_spec f families : families_ok families -> sharedWith f families = Some (bool_decide (fm_code f ∈ families)).
Proof. intros (_ & Hs & _). unfold sharedWith. by destruct (BinarySearch_spec families (fm_code f) Hs) as [i ->]. Qed.

(** The binary search of [sharedWith] equals membership: on every family list
    [ValidateFamilies] accepts, as [ReadHello] requires of a peer's, it ends
    without reading out of range and tells whether the family's code is listed. *)
Theorem sharedWith_exact f families : ValidateFamilies families = None -> sharedWith f families = Some (bool_decide (fm_code f ∈ families)).
Proof. intros H%ValidateFamilies_spec. by apply sharedWith_spec. Qed.

(** ** Registration *)

Definition spec_ok (l : list ProtocolSpec) : Prop := l <> [] /\ StronglySorted Z.lt (sp_protocol <$> l) /\ Forall (fun s => 1 <= sp_maxQueued s) l.

Record registry_ok (r : registry) : Prop := {
  rk_bound : (length (rg_families r) <= MaxFamilies)%nat;
  rk_codes : NoDup (rg_families r).*1;
  rk_control : ControlFamily ∉ (rg_families r).*1;
  rk_reserved : ReservedFamily ∉ (rg_families r).*1;
  rk_specs : Forall (fun x => spec_ok x.2) (rg_families r) }.

Lemma check_protocols_spec l : forall previous,
  check_protocols previous l = None <-> StronglySorted Z.lt (option_list previous ++ (sp_protocol <$> l)) /\ Forall (fun s => 1 <= sp_maxQueued s) l.
Proof.
  induction l as [|s l IH]; intros previous; simpl; [split; [intros _; split; [destruct previous; repeat constructor|constructor]|done]|].
  destruct (match previous with Some p => sp_protocol s <=? p | None => false end) eqn:E1.
  { split; [done|]. intros [Hs _]. destruct previous as [p|]; [|done]. apply Z.leb_le in E1. simpl in Hs. apply StronglySorted_inv in Hs as [_ Hf]. apply Forall_cons in Hf as [Hf _]. lia. }
  rewrite Forall_cons. destruct (Z.ltb_spec (sp_maxQueued s) 1); [split; [done|]; intros (_ & ? & _); lia|]. rewrite IH. simpl.
  destruct previous as [p|]; simpl; [|naive_solver]. apply Z.leb_gt in E1. split; [intros (Hs & A)|intros (Hs & _ & A)].
  - split; [|done]. constructor; [done|]. constructor; [done|]. apply StronglySorted_inv in Hs as [_ Hf]. eapply Forall_impl; [exact Hf|]. simpl. intros x Hx. lia.
  - split; [|done]. by apply StronglySorted_inv in Hs as [? _].
Qed.

Definition registrable (code : Z) (protocols : list ProtocolSpec) (wake : option nat) (r : registry) : Prop :=
  rg_closed r = false /\ rg_started r = false /\ (exists c, wake = Some c /\ (0 < c)%nat) /\ code <> ControlFamily /\ code <> ReservedFamily /\
  (length (rg_families r) < MaxFamilies)%nat /\ code ∉ (rg_families r).*1 /\ spec_ok protocols.

Lemma Register_spec code protocols wake r r' : registry_ok r ->
  Register code protocols wake r = Ok r' <-> registrable code protocols wake r /\ r' = mk_registry false false (rg_families r ++ [(code, protocols)]).
Proof.
  intros Hk. unfold Register, registrable, spec_ok. pose proof (check_protocols_spec protocols None) as Hc. simpl in Hc. pose proof (rk_bound _ Hk).
  destruct (rg_closed r); [naive_solver|]. destruct (rg_started r); [naive_solver|]. destruct protocols as [|s l]; [simpl; naive_solver|]. cbn [length]. cbn [Nat.eqb].
  destruct wake as [c|]; [|naive_solver]. destruct (Nat.eqb_spec c 0) as [->|Hc0]; [naive_solver lia|].
  destruct (Z.eqb_spec code ControlFamily); [naive_solver|]. destruct (Z.eqb_spec code ReservedFamily); [naive_solver|]. simpl orb. cbv iota.
  destruct (Nat.eqb_spec (length (rg_families r)) MaxFamilies); [naive_solver lia|]. case_bool_decide as Hin; [naive_solver|].
  destruct (check_protocols None (s :: l)) eqn:Ec; [naive_solver|]. destruct (proj1 Hc eq_refl) as [A B].
  split; [intros [= <-]|by intros [_ ->]]. split; [|done]. repeat (split; [done|]). split; [exists c; split; [done|lia]|]. repeat (split; [done|]). split; [lia|]. done.
Qed.

Lemma registered_ok code protocols wake r : registry_ok r -> registrable code protocols wake r -> registry_ok (mk_registry false false (rg_families r ++ [(code, protocols)])).
Proof.
  intros [A B C D E] (_ & _ & _ & H1 & H2 & H3 & H4 & H5). split; simpl; rewrite ?fmap_app, ?length_app; simpl.
  - lia.
  - apply NoDup_app. split; [done|]. split; [|apply NoDup_singleton]. intros x Hx Hin. by apply list_elem_of_singleton in Hin as ->.
  - rewrite elem_of_app, list_elem_of_singleton. naive_solver.
  - rewrite elem_of_app, list_elem_of_singleton. naive_solver.
  - apply Forall_app. split; [done|]. by constructor.
Qed.

Lemma strict_sorted (l : list Z) : StronglySorted Z.le l -> NoDup l -> StronglySorted Z.lt l.
Proof.
  induction 1 as [|x l Hs IH Hf]; intros Hn; [constructor|]. apply NoDup_cons in Hn as [Hx Hn]. constructor; [by apply IH|]. rewrite Forall_forall in *.
  intros y Hy. specialize (Hf y Hy). destruct (decide (x = y)) as [->|]; [done|lia].
Qed.

Lemma localFamilies_ok r : registry_ok r -> families_ok (localFamilies r) /\ localFamilies r ≡ₚ (rg_families r).*1.
Proof.
  intros [A B C D _]. assert (localFamilies r ≡ₚ (rg_families r).*1) as Hp by apply merge_sort_Permutation. split; [|done].
  split; [rewrite Hp, length_fmap; done|]. split; [|split; by rewrite Hp]. apply strict_sorted; [apply (StronglySorted_merge_sort Z.le)|by rewrite Hp].
Qed.

Lemma maxQueued_spec protocols p : Forall (fun s => 1 <= sp_maxQueued s) protocols -> maxQueued protocols p = 0 <-> p ∉ sp_protocol <$> protocols.
Proof.
  induction 1 as [|s l Hs _ IH]; simpl; [split; [intros _; apply not_elem_of_nil|done]|]. rewrite not_elem_of_cons. destruct (Z.eqb_spec (sp_protocol s) p); [|naive_solver]. split; [lia|naive_solver].
Qed.

(** Registration.  From a valid registry [Register] succeeds exactly for a
    registrable family: the stack neither closed nor started, a wake channel
    with room, a code that is neither control, reserved nor taken, fewer than
    1024 families, and protocols nonempty, strictly ascending, each with a
    queue.  It then appends the family and the registry stays valid, [maxQueued]
    is 0 just for protocols not its own, and [localFamilies] lists the codes in
    a form [ValidateFamilies] accepts: what HELLO announces is legal. *)
Theorem Register_exact code protocols wake r r' :
  registry_ok r ->
  (Register code protocols wake r = Ok r' <-> registrable code protocols wake r /\ r' = mk_registry false false (rg_families r ++ [(code, protocols)])) /\
  (Register code protocols wake r = Ok r' ->
     registry_ok r' /\ ValidateFamilies (localFamilies r') = None /\ localFamilies r' ≡ₚ code :: (rg_families r).*1 /\
     forall p, maxQueued protocols p = 0 <-> p ∉ sp_protocol <$> protocols).
Proof.
  intros Hk. pose proof (Register_spec code protocols wake r r' Hk) as Hs. split; [done|]. intros [Hreg ->]%Hs.
  pose proof (registered_ok code protocols wake r Hk Hreg) as Hk'. destruct (localFamilies_ok _ Hk') as [Ho Hp]. split; [done|]. split; [by apply ValidateFamilies_spec|]. split.
  - rewrite Hp. simpl. rewrite fmap_app. simpl. by rewrite <-Permutation_cons_append.
  - intros p. apply maxQueued_spec. by destruct Hreg as (_ & _ & _ & _ & _ & _ & _ & _ & _ & ?).
Qed.

(** ** Running a trace *)

#[local] Instance family_event_eq_dec : EqDecision family_event.
Proof. solve_decision. Defined.

Definition fire (s : family * bool) (l : label) : option (family * bool) :=
  let '(f, aw) := s in
  match l with
  | LAdd h id =>
      if bool_decide (fm_peers f !! h = None /\ map_Forall (fun _ d => d_id d = id -> d_down d = true) (fm_peers f)) then Some (addPeer h id f, aw) else None
  | LPush h p st q => if eqb q (accepts h p f) then letp f := push h p st f in Some (f, aw) else None
  | LClose h c r => letp x := closePeer h c r f in Some (x.2, aw)
  | LNext ev =>
      letp r := Next f in
      if aw && bool_decide (r.1 = ev) then Some (r.2, match ev with Some _ => true | None => false end) else None
  | LWake => if negb aw && fm_wake f then Some (mk_family (fm_code f) (fm_protocols f) false (fm_ready f) (fm_peers f) (fm_ended f) (fm_log f), true) else None
  end.

Lemma fire_sound s l s' : fire s l = Some s' -> family_step s l s'.
Proof.
  destruct s as [f aw], l as [h id|h p st q|h c r|ev|]; simpl.
  - case_bool_decide as H; [|done]. destruct H as [Hn Hf]. intros [= <-]. constructor; [done|]. intros h' d Hd. by apply (Hf h' d).
  - destruct (eqb q (accepts h p f)) eqn:E; [|done]. apply eqb_prop in E as ->. destruct (push h p st f) eqn:E; [|done]. intros [= <-]. by constructor.
  - destruct (closePeer h c r f) as [[b f']|] eqn:E; [|done]. intros [= <-]. by econstructor.
  - destruct (Next f) as [[ev' f']|] eqn:E; [|done]. simpl. destruct aw; [|done]. simpl. case_bool_decide as He; [|done]. subst. intros [= <-]. by constructor.
  - destruct aw; [done|]. destruct (fm_wake f) eqn:E; [|done]. intros [= <-]. by constructor.
Qed.

Definition new_family (code : Z) (protocols : list ProtocolSpec) : family := mk_family code protocols false [] ∅ ∅ [].

Definition fire_all (code : Z) (protocols : list ProtocolSpec) (tr : list label) : option (family * bool) :=
  foldl (fun s l => s ≫= fun s => fire s l) (Some (new_family code protocols, true)) tr.

Lemma fire_all_sound code protocols tr s : fire_all code protocols tr = Some s -> family_run code protocols s tr.
Proof.
  revert s. induction tr as [|l tr IH] using rev_ind; intros s; unfold fire_all in *; [intros [= <-]; constructor|].
  rewrite foldl_snoc. destruct (foldl _ _ tr) as [s0|]; [|done]. simpl. intros E%fire_sound. by eapply fr_step; [apply IH|].
Qed.

Definition demo_specs : list ProtocolSpec := [mk_spec 1 1; mk_spec 4 2].
Definition demo_id : PeerID := [Byte.x07].
(** A peer's handle 1: up, three streams (the second refused), one delivered,
    one reset by the close; then the peer's new handle 2. *)
Definition demo_trace : list label :=
  [LAdd 1 demo_id; LPush 1 1 (10%nat, true) true; LPush 1 1 (11%nat, false) false; LPush 1 4 (12%nat, false) true; LNext (Some (EvPeerUp 1));
   LNext (Some (EvStreamIn 1 1 (10%nat, true))); LClose 1 Closing Unspecified; LAdd 2 demo_id; LNext (Some (EvPeerDown 1 Closing))].
Definition demo_state : family := match fire_all 9 demo_specs demo_trace with Some s => s.1 | None => new_family 0 [] end.
Definition demo_delivery (h : nat) : peerDelivery := default (mk_delivery [] false false Unspecified [] ∅ false) (fm_peers demo_state !! h).

Lemma demo_family_run : family_run 9 demo_specs (demo_state, true) demo_trace.
Proof. apply fire_all_sound. vm_compute. reflexivity. Qed.

Lemma family_delivery_witness :
  d_up (demo_delivery 1) = true /\ delivered 1 demo_trace = [(1, (10%nat, true))] /\
  exists tail, events_of 1 demo_trace = EvPeerUp 1 :: ((fun x => EvStreamIn 1 x.1 x.2) <$> delivered 1 demo_trace) ++ tail.
Proof.
  split; [vm_compute; reflexivity|]. split; [vm_compute; reflexivity|].
  destruct (family_delivery 9 demo_specs demo_state true demo_trace 1 (demo_delivery 1) demo_family_run) as [(tail & E & _) _]; [vm_compute; reflexivity|].
  exists tail. exact E.
Defined.

Lemma family_turnover_witness :
  events_of 2 demo_trace = [] /\ (events_of 1 demo_trace = [] \/ exists l c, events_of 1 demo_trace = l ++ [EvPeerDown 1 c]).
Proof.
  apply (family_turnover 9 demo_specs demo_state demo_trace 2 (match Next demo_state with Some r => r.2 | None => demo_state end) (demo_delivery 2) 1 (demo_delivery 1) demo_family_run);
    [vm_compute; reflexivity|discriminate|vm_compute; reflexivity..].
Defined.

Lemma family_drains_witness : exists evs f', drain (S (pending demo_state)) demo_state = Some (evs, f') /\ length evs = pending demo_state.
Proof.
  destruct (proj2 (family_drains 9 demo_specs demo_state true demo_trace demo_family_run) eq_refl) as (evs & f' & E & Hl & _). exists evs, f'. split; [exact E|exact Hl].
Defined.

Lemma sharedWith_exact_witness : sharedWith demo_state [3; 9; 12] = Some (bool_decide (fm_code demo_state ∈ [3; 9; 12])).
Proof. apply (sharedWith_exact demo_state [3; 9; 12]). vm_compute. reflexivity. Defined.

Lemma empty_registry_ok : registry_ok (mk_registry false false []).
Proof. split; simpl; [unfold MaxFamilies; lia|apply NoDup_nil_2|apply not_elem_of_nil|apply not_elem_of_nil|constructor]. Qed.

Lemma Register_exact_witness :
  Register 9 demo_specs (Some 1%nat) (mk_registry false false []) = Ok (mk_registry false false [(9, demo_specs)]) /\
  ValidateFamilies (localFamilies (mk_registry false false [(9, demo_specs)])) = None.
Proof.
  split; [vm_compute; reflexivity|].
  destruct (proj2 (Register_exact 9 demo_specs (Some 1%nat) (mk_registry false false []) (mk_registry false false [(9, demo_specs)]) empty_registry_ok)) as (_ & H & _);
    [vm_compute; reflexivity|exact H].
Defined.
