(* ===== verification/Opening.v ===== *)
(** * Opening: streams opened through a family's handle

    [OpenUniStream] and [OpenStream] of a [Peer] (src/family.go) over those of a
    view (src/transport/conn.go), with the header they write (src/wire/wire.go).
    What the calls they make return, and when the contexts they check end, is an
    [opening]; theorems hold for every one. *)

From S2P Require Import Prelude Wire Types PeerIo View Control Family.

#[local] Set Default Proof Using "Type".

(** What one open meets. *)
Record opening := mk_opening {
  op_handle : option ctx_err;            (* the handle's context, at first *)
  op_open : option conn_err;             (* the error of Open(Uni)StreamSync *)
  op_view : option conn_err;             (* the cause of the view's context by then *)
  op_write : option (conn_err * nat);    (* the error of the write, and the bytes it took *)
  op_ctx : option ctx_err;               (* the joined context, after the write *)
  op_late : option ctx_err }.            (* the handle's context, at last *)

Inductive open_err := OpenHandle (e : ctx_err) | OpenConn (e : conn_err) | OpenJoined (w : option conn_err) (c : option ctx_err).

(** A stream of ours: what was written, how the write side ended and, of a
    bidirectional one, with what its read side was cancelled. *)
Record opened := mk_opened { os_bidi : bool; os_bytes : bytes; os_write : option stream_end; os_read : option Code }.

(** [Conn.OpenStream], [Conn.OpenUniStream]. *)
Definition Conn_Open (err view : option conn_err) : option conn_err :=
  match err with
  | None => None
  | Some e => Some (match view with Some cause => ethp2pError cause | None => ethp2pError e end)
  end.

(** [WriteSelector]: the error, and the stream after it. *)
Definition WriteSelector (fails : option (conn_err * nat)) (sel : Selector) (s : opened) : option conn_err * opened :=
  let b := AppendSelector [] sel in
  match fails with
  | None => (None, mk_opened (os_bidi s) (os_bytes s ++ b) (os_write s) (os_read s))
  | Some (e, n) => (Some e, mk_opened (os_bidi s) (os_bytes s ++ take n b) (os_write s) (os_read s))
  end.

(** [CancelWrite], and [CancelRead] too of a bidirectional stream. *)
Definition cancel_opened (c : Code) (s : opened) : opened :=
  mk_opened (os_bidi s) (os_bytes s) (Some (Reset c)) (if os_bidi s then Some c else None).

(** [Peer.OpenUniStream] and, with [bidi], [Peer.OpenStream]: the result, and the
    stream left behind by a failure.  [None]: it panics. *)
Definition Open (bidi : bool) (f : family) (protocol : Z) (a : opening) : option (result open_err opened * option opened) :=
  if (maxQueued (fm_protocols f) protocol =? 0)%Z then None
  else Some (
    match op_handle a with
    | Some e => (Err (OpenHandle e), None)
    | None =>
        match Conn_Open (op_open a) (op_view a) with
        | Some e => (Err (OpenConn e), None)
        | None =>
            let '(err, s) := WriteSelector (op_write a) (mk_selector (fm_code f) protocol) (mk_opened bidi [] None None) in
            match err, op_ctx a with
            | None, None =>
                match op_late a with
                | Some e => (Err (OpenHandle e), Some (cancel_opened Unspecified s))
                | None => (Ok s, None)
                end
            | w, c => (Err (OpenJoined w c), Some (cancel_opened (TimeoutOr (w, c) Unspecified) s))
            end
        end
    end).

(** ** What the other side makes of it *)

(** The header's first byte tells the stream from libp2p's. *)
Lemma header_first_byte sel : selector_ok sel -> exists b rest, AppendSelector [] sel = b :: rest /\ b2z b <> multistreamFirstByte.
Proof.
  intros (Hf & _ & Hr). rewrite AppendSelector_split. unfold AppendUvarint at 1. cbn [app].
  unfold Uvarint.append_loop; fold Uvarint.append_loop. destruct (Z.ltb_spec (sel_family sel) 128).
  - eexists _, _. split; [done|]. rewrite b2z_z2b_small by lia. unfold ReservedFamily, multistreamFirstByte in *. lia.
  - eexists _, _. split; [done|]. rewrite Uvarint.append_cont. unfold multistreamFirstByte. pose proof (Z.mod_pos_bound (sel_family sel) 128). lia.
Qed.

(** C34. Opening a stream through a handle, whatever the connection, the contexts and
    the writes do.  It panics exactly for a protocol the family does not own.  A
    stream it returns carries exactly the header of that family and protocol,
    both its sides are open and the handle had not ended at the last look; the
    peer's transport then hands it to ethp2p and its supervisor reads back that
    family and protocol and nothing beyond.  On an error every stream that was
    opened has been reset, on both sides of a bidirectional one, with Timeout or
    Unspecified, having carried at most the header. *)
Theorem open_exact bidi f protocol a :
  let sel := mk_selector (fm_code f) protocol in
  (Open bidi f protocol a = None <-> maxQueued (fm_protocols f) protocol = 0%Z) /\
  (forall s left_, Open bidi f protocol a = Some (Ok s, left_) ->
     left_ = None /\ s = mk_opened bidi (AppendSelector [] sel) None None /\ op_handle a = None /\ op_ctx a = None /\ op_late a = None) /\
  (forall e s, Open bidi f protocol a = Some (Err e, Some s) -> exists c,
     os_write s = Some (Reset c) /\ failure_code c /\ os_read s = (if bidi then Some c else None) /\ os_bytes s `prefix_of` AppendSelector [] sel) /\
  (selector_ok sel -> forall s left_ data e x jobs v, Open bidi f protocol a = Some (Ok s, left_) -> v_cause v Ethp2p = None ->
     ReadSelector (mk_reader (os_bytes s ++ data) e) = (Some (Ok sel), mk_reader data e) /\
     exists b, head (os_bytes s) = Some b /\ classify_next x Peeking (PeekByte b) jobs v = set_bi (v_sem v) (v_bi v) (jobs ++ [(x, Pushing Ethp2p)]) v).
Proof.
  cbv zeta. set (sel := mk_selector (fm_code f) protocol).
  assert (Hok : forall s left_, Open bidi f protocol a = Some (Ok s, left_) ->
     left_ = None /\ s = mk_opened bidi (AppendSelector [] sel) None None /\ op_handle a = None /\ op_ctx a = None /\ op_late a = None).
  { intros s left_. unfold Open. destruct (Z.eqb_spec (maxQueued (fm_protocols f) protocol) 0); [done|]. destruct (op_handle a); [done|].
    destruct (Conn_Open _ _); [done|]. unfold WriteSelector. destruct (op_write a) as [[e n']|]; [by intros|]. destruct (op_ctx a); [done|].
    destruct (op_late a); [done|]. by intros [= <- <-]. }
  split_and!; [|exact Hok| |].
  - unfold Open. by destruct (Z.eqb_spec (maxQueued (fm_protocols f) protocol) 0).
  - intros e s. unfold Open. destruct (Z.eqb_spec (maxQueued (fm_protocols f) protocol) 0); [done|]. destruct (op_handle a); [done|].
    destruct (Conn_Open _ _); [done|]. unfold WriteSelector. cbn [os_bytes os_bidi os_write os_read app]. fold sel.
    destruct (op_write a) as [[e' n']|].
    + intros [= <- <-]. eexists. split; [done|]. split; [apply (failure_code_ok (Some e', op_ctx a))|]. split; [done|]. apply prefix_take.
    + destruct (op_ctx a) as [x|].
      * intros [= <- <-]. eexists. split; [done|]. split; [apply (failure_code_ok (@None conn_err, Some x))|]. by split.
      * destruct (op_late a); [|done]. intros [= <- <-]. eexists. split; [done|]. split; [by right|]. by split.
  - intros Hsel s left_ data e x jobs v (_ & -> & _)%Hok Hv. split; [by apply ReadSelector_both|].
    destruct (header_first_byte sel Hsel) as (b & rest & E & Hb). exists b. cbn [os_bytes]. rewrite E. split; [done|].
    unfold classify_next. rewrite (proj2 (Z.eqb_neq _ _) Hb). by rewrite Hv.
Qed.

Definition demo_family : family := mk_family 300 [mk_spec 1 4] false [] ∅ ∅ [].
Definition fine : opening := mk_opening None None None None None None.

Lemma open_exact_witness : exists s, Open true demo_family 1 fine = Some (Ok s, None) /\
  ReadSelector (mk_reader (os_bytes s ++ [Byte.x07]) EOF) = (Some (Ok (mk_selector 300 1)), mk_reader [Byte.x07] EOF).
Proof.
  destruct (Open true demo_family 1 fine) as [[[s|] left_]|] eqn:E; [|discriminate..].
  assert (left_ = None) as -> by (vm_compute in E; by injection E). exists s. split; [reflexivity|].
  assert (selector_ok (mk_selector (fm_code demo_family) 1)) as Hs by (vm_compute; intuition discriminate).
  apply (proj1 (proj2 (proj2 (proj2 (open_exact true demo_family 1 fine))) Hs s None [Byte.x07] EOF 0%nat [] newConn E eq_refl)).
Defined.
