(* ===== verification/Supervisor.v ===== *)
(** * Supervisor: views and their admission (src/supervisor.go, src/stack.go)

    A peer's supervisor is the only goroutine that changes its view, routes and
    handles; the stack's tables change under its mutex.  A request of the inbox
    is one step of the supervisor, so between two requests any other goroutine
    may run: header reads, GOAWAY readers, releases, consumers and other
    supervisors.  A view is its connection's number; a handle, a supervisor and a
    stream are numbers too.  [sup_running] is what [drainInbox] took and has not
    run yet.  [None] is a nil dereference. *)

From S2P Require Import Prelude Wire Types CtrlOut Session Rlp Identity Enr Control Family.
Open Scope Z_scope.

#[local] Set Default Proof Using "Type".

Definition maxHeaderReads : Z := 4.

(** A view whose HELLO was read, and what its connection knows. *)
Record pendingView := mk_view { v_conn : nat; v_peer : PeerID; v_outbound : bool; v_hello : PeerHello }.

Record ConnInfo := mk_info { ci_id : Z; ci_peer : PeerID; ci_outbound : bool; ci_since : Z }.

(** Why [attach] refused: [ViewClosedError], [ErrStackClosed], [ErrDisconnected]. *)
Inductive attach_err := ViewClosed (code : Code) | StackClosed | Disconnected.

(** The outcome of reading a stream header: what [ConnectionClosed], a peer's
    reset and a timeout are told apart by, and everything else. *)
Inductive header_err := HConnClosed | HReset | HTimeout | HCancelled | HOther.

Inductive request :=
| ReqAttach (v : pendingView) (result : option nat) (now : Z)
| ReqHeaderRead (conn : nat) (bidi : bool) (s : nat) (r : result header_err Selector)
| ReqGoAway (conn : nat) (code : Code) (goAway : bool)
| ReqHandleClosed
| ReqDrop (done : option nat).

(** A family's handle for a view ([Peer]). *)
Record Peer := mk_peer { pr_id : PeerID; pr_sup : nat; pr_family : nat; pr_conn : nat }.

Inductive dialState := dialInFlight | dialDisconnected | dialDriverGone | dialDone.

(** A goroutine that releases a view: [closeView], which accounts its traffic, or
    [reject]. *)
Record releasing := mk_releasing { rl_conn : nat; rl_code : Code; rl_goAway : bool; rl_account : bool; rl_done : option nat }.

(** What the stack does to the world: [ctl.close] ran on a view, Connect's result
    was sent, a [done] channel closed. *)
Inductive stack_effect :=
| SxReleased (conn : nat) (code : Code) (goAway : bool)
| SxResult (result : nat) (r : option attach_err)
| SxDone (done : nat)
| SxStream (e : effect).

Definition info_le (a b : ConnInfo) : Prop := ci_id a <= ci_id b.
#[global] Instance info_le_dec a b : Decision (info_le a b) := decide (ci_id a <= ci_id b).

Section supervisor.
Context {SC : Secp256k1} {PW : Protowire} (keccak256 : bytes -> bytes) (localID : PeerID).

Record dialAttempt := mk_dial { da_rec : ENR; da_state : dialState; da_cancelled : bool }.

Record peerSupervisor := mk_sup {
  sup_id : PeerID;
  sup_record : option ENR;
  sup_wake : bool;
  sup_inbox : list request;
  sup_running : list request;
  sup_info : option ConnInfo;
  sup_conn : option nat;
  sup_routes : gmap (Z * Z) (nat * nat);
  sup_handles : list (nat * nat);
  sup_reading : Z * Z }.

Record stack := mk_stack {
  st_closed : bool;
  st_families : list (family * bool);          (* and whether its consumer drains *)
  st_peers : gmap PeerID nat;
  st_sups : gmap nat peerSupervisor;
  st_views : gset nat;
  st_dials : gmap PeerID dialAttempt;
  st_nextID : Z;
  st_sent : Z;
  st_received : Z;
  st_handles : gmap nat Peer;
  st_reads : list (nat * nat * receivedStream);   (* supervisor, view, stream: a header read *)
  st_queues : gmap nat (list nat * list nat);     (* transport: unidirectional, bidirectional *)
  st_releasing : list releasing;
  st_fresh : nat;
  st_log : list stack_effect }.

Implicit Types (s : stack) (sup : peerSupervisor).

(** ** Updates *)

Definition with_families (x : list (family * bool)) s : stack :=
  mk_stack (st_closed s) x (st_peers s) (st_sups s) (st_views s) (st_dials s) (st_nextID s) (st_sent s) (st_received s) (st_handles s) (st_reads s) (st_queues s) (st_releasing s) (st_fresh s) (st_log s).
Definition with_peers (x : gmap PeerID nat) s : stack :=
  mk_stack (st_closed s) (st_families s) x (st_sups s) (st_views s) (st_dials s) (st_nextID s) (st_sent s) (st_received s) (st_handles s) (st_reads s) (st_queues s) (st_releasing s) (st_fresh s) (st_log s).
Definition with_sups (x : gmap nat peerSupervisor) s : stack :=
  mk_stack (st_closed s) (st_families s) (st_peers s) x (st_views s) (st_dials s) (st_nextID s) (st_sent s) (st_received s) (st_handles s) (st_reads s) (st_queues s) (st_releasing s) (st_fresh s) (st_log s).
Definition with_dials (x : gmap PeerID dialAttempt) s : stack :=
  mk_stack (st_closed s) (st_families s) (st_peers s) (st_sups s) (st_views s) x (st_nextID s) (st_sent s) (st_received s) (st_handles s) (st_reads s) (st_queues s) (st_releasing s) (st_fresh s) (st_log s).
Definition with_closed s : stack :=
  mk_stack true (st_families s) (st_peers s) (st_sups s) (st_views s) (st_dials s) (st_nextID s) (st_sent s) (st_received s) (st_handles s) (st_reads s) (st_queues s) (st_releasing s) (st_fresh s) (st_log s).
Definition with_reads (x : list (nat * nat * receivedStream)) (q : gmap nat (list nat * list nat)) s : stack :=
  mk_stack (st_closed s) (st_families s) (st_peers s) (st_sups s) (st_views s) (st_dials s) (st_nextID s) (st_sent s) (st_received s) (st_handles s) x q (st_releasing s) (st_fresh s) (st_log s).
Definition with_releasing (x : list releasing) s : stack :=
  mk_stack (st_closed s) (st_families s) (st_peers s) (st_sups s) (st_views s) (st_dials s) (st_nextID s) (st_sent s) (st_received s) (st_handles s) (st_reads s) (st_queues s) x (st_fresh s) (st_log s).
Definition with_traffic (v : gset nat) (a b : Z) s : stack :=
  mk_stack (st_closed s) (st_families s) (st_peers s) (st_sups s) v (st_dials s) (st_nextID s) a b (st_handles s) (st_reads s) (st_queues s) (st_releasing s) (st_fresh s) (st_log s).
Definition slog (x : list stack_effect) s : stack :=
  mk_stack (st_closed s) (st_families s) (st_peers s) (st_sups s) (st_views s) (st_dials s) (st_nextID s) (st_sent s) (st_received s) (st_handles s) (st_reads s) (st_queues s) (st_releasing s) (st_fresh s) (st_log s ++ x).
Definition on_sup (k : nat) (f : peerSupervisor -> peerSupervisor) s : stack := with_sups (alter f k (st_sups s)) s.
(** A new number, and the handle it names. *)
Definition new_handle (p : Peer) s : nat * stack :=
  (st_fresh s,
   mk_stack (st_closed s) (st_families s) (st_peers s) (st_sups s) (st_views s) (st_dials s) (st_nextID s) (st_sent s) (st_received s) (<[st_fresh s := p]> (st_handles s)) (st_reads s) (st_queues s) (st_releasing s) (S (st_fresh s)) (st_log s)).

Definition sup_post (r : request) sup : peerSupervisor :=
  mk_sup (sup_id sup) (sup_record sup) true (sup_inbox sup ++ [r]) (sup_running sup) (sup_info sup) (sup_conn sup) (sup_routes sup) (sup_handles sup) (sup_reading sup).
Definition sup_view (info : option ConnInfo) (conn : option nat) (routes : gmap (Z * Z) (nat * nat)) (handles : list (nat * nat)) (reading : Z * Z) sup : peerSupervisor :=
  mk_sup (sup_id sup) (sup_record sup) (sup_wake sup) (sup_inbox sup) (sup_running sup) info conn routes handles reading.
Definition sup_set_record (r : option ENR) sup : peerSupervisor :=
  mk_sup (sup_id sup) r (sup_wake sup) (sup_inbox sup) (sup_running sup) (sup_info sup) (sup_conn sup) (sup_routes sup) (sup_handles sup) (sup_reading sup).
Definition sup_set_running (w : bool) (inbox running : list request) sup : peerSupervisor :=
  mk_sup (sup_id sup) (sup_record sup) w inbox running (sup_info sup) (sup_conn sup) (sup_routes sup) (sup_handles sup) (sup_reading sup).
Definition sup_set_reading (reading : Z * Z) sup : peerSupervisor :=
  mk_sup (sup_id sup) (sup_record sup) (sup_wake sup) (sup_inbox sup) (sup_running sup) (sup_info sup) (sup_conn sup) (sup_routes sup) (sup_handles sup) reading.

Definition reading_of (bidi : bool) (r : Z * Z) : Z := if bidi then r.2 else r.1.
Definition set_reading (bidi : bool) (n : Z) (r : Z * Z) : Z * Z := if bidi then (r.1, n) else (n, r.2).

(** An operation on the family at index [i]. *)
Definition on_family (i : nat) (f : family -> option family) s : option stack :=
  letp x := st_families s !! i in
  letp y := f x.1 in
  Some (with_families (<[i := (y, x.2)]> (st_families s)) s).

(** ** The inbox *)

Definition post (k : nat) (r : request) s : bool * stack :=
  match st_sups s !! k with
  | Some sup => if decide (st_peers s !! sup_id sup = Some k) then (true, on_sup k (sup_post r) s) else (false, s)
  | None => (false, s)
  end.

Definition drainInbox (k : nat) s : stack := on_sup k (fun sup => sup_set_running (sup_wake sup) [] (sup_running sup ++ sup_inbox sup) sup) s.

Definition tryExit (k : nat) s : option stack :=
  letp sup := st_sups s !! k in
  if (length (sup_inbox sup) =? 0)%nat then Some (with_peers (delete (sup_id sup) (st_peers s)) s) else Some s.

Definition updateRecord (rec : option ENR) sup : peerSupervisor :=
  match rec with
  | None => sup
  | Some rec =>
      match sup_record sup with
      | Some old => if Seq rec >? Seq old then sup_set_record (Some rec) sup else sup
      | None => sup_set_record (Some rec) sup
      end
  end.

(** ** Views *)

Definition reject (v : pendingView) (code : Code) s : stack :=
  with_releasing (st_releasing s ++ [mk_releasing (v_conn v) code true false None]) s.

Definition closeView (conn : nat) (code : Code) (goAway : bool) (done : option nat) s : stack :=
  with_releasing (st_releasing s ++ [mk_releasing conn code goAway true done]) s.

(** [for _, h := range handles { h.closePeer(code, wire.Closing) }] *)
Fixpoint close_handles (handles : list (nat * nat)) (code : Code) s : option stack :=
  match handles with
  | [] => Some s
  | (i, h) :: handles =>
      letp s := on_family i (fun f => letp r := closePeer h code Closing f in Some r.2) s in
      close_handles handles code s
  end.

Definition dropView (k : nat) (code : Code) (goAway : bool) (done : option nat) s : option stack :=
  letp sup := st_sups s !! k in
  match sup_conn sup with
  | None => Some (match done with Some d => slog [SxDone d] s | None => s end)
  | Some conn =>
      let s := on_sup k (sup_view (sup_info sup) None ∅ [] (0, 0)) s in
      letp s := close_handles (sup_handles sup) code s in
      let s := on_sup k (fun sup => sup_view None (sup_conn sup) (sup_routes sup) (sup_handles sup) (sup_reading sup) sup) s in
      Some (closeView conn code goAway done s)
  end.

(** [for _, h := range sup.handles]: whether every handle is down. *)
Fixpoint all_down (handles : list (nat * nat)) s : option bool :=
  match handles with
  | [] => Some true
  | (i, h) :: handles =>
      letp x := st_families s !! i in
      letp d := fm_peers x.1 !! h in
      if d_down d then all_down handles s else Some false
  end.

Definition handleClosed (k : nat) s : option stack :=
  letp sup := st_sups s !! k in
  match sup_conn sup with
  | None => Some s
  | Some _ =>
      letp down := all_down (sup_handles sup) s in
      if (down : bool) then dropView k NoSharedProtocols true None s else Some s
  end.

(** One direction of [readHeaders]: up to the slots that are free. *)
Fixpoint read_direction (slots : nat) (k conn : nat) (bidi : bool) s : stack :=
  match slots with
  | O => s
  | S slots =>
      let q := default ([], []) (st_queues s !! conn) in
      match (if bidi then q.2 else q.1) with
      | [] => s
      | x :: rest =>
          let q := if bidi then (q.1, rest) else (rest, q.2) in
          let s := with_reads (st_reads s ++ [(k, conn, (x, bidi))]) (<[conn := q]> (st_queues s)) s in
          read_direction slots k conn bidi
            (on_sup k (fun sup => sup_set_reading (set_reading bidi (reading_of bidi (sup_reading sup) + 1) (sup_reading sup)) sup) s)
      end
  end.

Definition readHeaders (k : nat) s : option stack :=
  letp sup := st_sups s !! k in
  letp conn := sup_conn sup in
  let s := read_direction (Z.to_nat (maxHeaderReads - reading_of false (sup_reading sup))) k conn false s in
  letp sup := st_sups s !! k in
  Some (read_direction (Z.to_nat (maxHeaderReads - reading_of true (sup_reading sup))) k conn true s).

(** [for _, family := range sup.stack.families]: those shared with the peer. *)
Fixpoint shared_families (i : nat) (families : list (family * bool)) (codes : list Z) : option (list nat) :=
  match families with
  | [] => Some []
  | (f, _) :: families =>
      letp b := sharedWith f codes in
      letp rest := shared_families (S i) families codes in
      Some (if (b : bool) then i :: rest else rest)
  end.

(** [for _, family := range families]: a handle for each, and its routes. *)
Fixpoint add_handles (k conn : nat) (id : PeerID) (families : list nat) (routes : gmap (Z * Z) (nat * nat)) (handles : list (nat * nat)) s
  : option (gmap (Z * Z) (nat * nat) * list (nat * nat) * stack) :=
  match families with
  | [] => Some (routes, handles, s)
  | i :: families =>
      let '(h, s) := new_handle (mk_peer id k i conn) s in
      letp s := on_family i (fun f => Some (addPeer h id f)) s in
      letp x := st_families s !! i in
      let routes := foldl (fun m spec => <[(fm_code x.1, sp_protocol spec) := (i, h)]> m) routes (fm_protocols x.1) in
      add_handles k conn id families routes (handles ++ [(i, h)]) s
  end.
(** The record of the HELLO: absent, or valid and of this peer. *)
Definition helloRecord (id : PeerID) (raw : bytes) : option (option (option ENR)) :=
  if (length raw =? 0)%nat then Some (Some None)
  else
    letp r := Enr.Decode keccak256 raw in
    match r with
    | Err _ => Some None
    | Ok rec => if decide (ENR_PeerID rec <> id) then Some None else Some (Some (Some rec))
    end.

(** Whether a new view loses to the current one: opposite directions, and the
    peer with the higher identity dialled it. *)
Definition duplicate (info : ConnInfo) (id : PeerID) (outbound : bool) : bool :=
  if negb (Bool.eqb (ci_outbound info) outbound) then negb (Bool.eqb outbound (bool_decide (bcompare localID id = Lt))) else false.

(** The commit of a view, under the stack's mutex. *)
Definition commit_view (k : nat) (v : pendingView) (now : Z) (rec : option ENR) s : option (ConnInfo * stack) :=
  letp sup := st_sups s !! k in
  let id := sup_id sup in
  let n := u64 (st_nextID s + 1) in
  let info := mk_info n id (v_outbound v) now in
  let s := mk_stack (st_closed s) (st_families s) (st_peers s) (st_sups s) ({[v_conn v]} ∪ st_views s) (st_dials s) n (st_sent s) (st_received s) (st_handles s) (st_reads s) (st_queues s) (st_releasing s) (st_fresh s) (st_log s) in
  let s := on_sup k (fun sup => sup_view (Some info) (sup_conn sup) (sup_routes sup) (sup_handles sup) (sup_reading sup) sup) s in
  let s := match st_dials s !! id with Some d => on_sup k (updateRecord (Some (da_rec d))) s | None => s end in
  Some (info, on_sup k (updateRecord rec) s).

Definition attach (k : nat) (v : pendingView) (now : Z) s : option (option attach_err * stack) :=
  letp sup := st_sups s !! k in
  let id := sup_id sup in
  let conn := v_conn v in
  letp r := helloRecord id (ph_record (v_hello v)) in
  match r with
  | None => Some (Some (ViewClosed ControlViolation), reject v ControlViolation s)
  | Some rec =>
      letp families := shared_families 0 (st_families s) (ph_families (v_hello v)) in
      if (length families =? 0)%nat then Some (Some (ViewClosed NoSharedProtocols), reject v NoSharedProtocols s)
      else if st_closed s then Some (Some StackClosed, reject v Closing s)
      else if v_outbound v && match st_dials s !! id with Some d => match da_state d with dialDisconnected => true | _ => false end | None => false end then
        Some (Some Disconnected, reject v Closing s)
      else
        letp dup := match sup_conn sup with
                    | Some _ => letp info := sup_info sup in Some (duplicate info id (v_outbound v))
                    | None => Some false
                    end in
        if (dup : bool) then Some (None, reject v Duplicate s)
        else
          letp c := commit_view k v now rec s in
          letp s := match sup_conn sup with Some _ => dropView k Duplicate true None c.2 | None => Some c.2 end in
          letp a := add_handles k conn id families ∅ [] s in
          let '(routes, handles, s) := a in
          letp s := readHeaders k (on_sup k (fun sup => sup_view (Some c.1) (Some conn) routes handles (sup_reading sup) sup) s) in
          Some (None, s)
  end.

(** ** Streams *)

Definition cancel_stream (x : receivedStream) (code : Code) : list stack_effect := SxStream <$> cancelReceived x code.

(** What [readHeader] does to the stream before it returns.  [HCancelled]: the
    context ended otherwise than by its deadline, and its hook ran. *)
Definition readHeader (x : receivedStream) (r : result header_err Selector) : list stack_effect :=
  match r with
  | Ok _ | Err HConnClosed => []
  | Err HCancelled => cancel_stream x Closing
  | Err HReset => if x.2 then [SxStream (FxCancelWrite x.1 Unspecified)] else []
  | Err HTimeout => cancel_stream x Timeout
  | Err HOther => cancel_stream x BadSelector
  end.

(** The goroutine of the [i]-th header read ends. *)
Definition finish_read (i : nat) (r : result header_err Selector) s : option stack :=
  letp t := st_reads s !! i in
  let '(k, conn, x) := t in
  let s := slog (readHeader x r) (with_reads (delete i (st_reads s)) (st_queues s) s) in
  let '(ok, s) := post k (ReqHeaderRead conn x.2 x.1 r) s in
  Some (if negb ok && match r with Ok _ => true | Err _ => false end then slog (cancel_stream x Closing) s else s).

Definition headerRead (k conn : nat) (bidi : bool) (x : nat) (r : result header_err Selector) s : option stack :=
  letp sup := st_sups s !! k in
  if decide (sup_conn sup <> Some conn) then
    Some (match r with Ok _ => slog (cancel_stream (x, bidi) Closing) s | Err _ => s end)
  else
    let s := on_sup k (sup_set_reading (set_reading bidi (reading_of bidi (sup_reading sup) - 1) (sup_reading sup))) s in
    match r with
    | Err _ => readHeaders k s
    | Ok sel =>
        if sel_family sel =? ControlFamily then dropView k ControlViolation true None (slog (cancel_stream (x, bidi) ControlViolation) s)
        else match sup_routes sup !! (sel_family sel, sel_protocol sel) with
             | None => readHeaders k (slog (cancel_stream (x, bidi) UnsupportedSelector) s)
             | Some (i, h) => letp s := on_family i (push h (sel_protocol sel) (x, bidi)) s in readHeaders k s
             end
    end.

(** ** The supervisor's loop *)

Definition run_request (k : nat) (r : request) s : option stack :=
  match r with
  | ReqAttach v result now =>
      letp a := attach k v now s in
      Some (match result with Some c => slog [SxResult c a.1] a.2 | None => a.2 end)
  | ReqHeaderRead conn bidi x r => headerRead k conn bidi x r s
  | ReqGoAway conn code goAway =>
      letp sup := st_sups s !! k in
      if decide (sup_conn sup = Some conn) then dropView k code goAway None s else Some s
  | ReqHandleClosed => handleClosed k s
  | ReqDrop done => dropView k Closing true done s
  end.

(** The end of a turn of [run]. *)
Definition run_tail (k : nat) s : option stack :=
  letp sup := st_sups s !! k in
  match sup_conn sup with None => tryExit k s | Some _ => Some s end.

(** [<-sup.wake]: [drainInbox]; then the taken requests run one by one. *)
Definition run_wake (k : nat) s : option stack :=
  letp sup := st_sups s !! k in
  if sup_wake sup then
    let s := drainInbox k (on_sup k (fun sup => sup_set_running false (sup_inbox sup) (sup_running sup) sup) s) in
    if (length (sup_inbox sup) =? 0)%nat then run_tail k s else Some s
  else None.

Definition run_next (k : nat) s : option stack :=
  letp sup := st_sups s !! k in
  match sup_running sup with
  | [] => None
  | r :: rest =>
      letp s := run_request k r (on_sup k (fun sup => sup_set_running (sup_wake sup) (sup_inbox sup) rest sup) s) in
      if (length rest =? 0)%nat then run_tail k s else Some s
  end.

Definition run_streams (k : nat) s : option stack := letp s := readHeaders k s in run_tail k s.
Definition run_done (k : nat) (code : Code) s : option stack := letp s := dropView k code false None s in run_tail k s.

(** ** The stack *)

Definition Stack_attach (v : pendingView) (result : option nat) (now : Z) s : bool * stack :=
  if st_closed s then (false, s)
  else
    let id := v_peer v in
    let '(k, s) :=
      match st_peers s !! id with
      | Some k => (k, s)
      | None =>
          let k := st_fresh s in
          let sup := mk_sup id None false [] [] None None ∅ [] (0, 0) in
          (k, mk_stack (st_closed s) (st_families s) (<[id := k]> (st_peers s)) (<[k := sup]> (st_sups s)) (st_views s) (st_dials s) (st_nextID s) (st_sent s) (st_received s)
                (st_handles s) (st_reads s) (st_queues s) (st_releasing s) (S (st_fresh s)) (st_log s))
      end in
    (true, on_sup k (sup_post (ReqAttach v result now)) s).

(** The goroutine of the [i]-th release ends; [sent], [received] are the
    connection's counters. *)
Definition finish_release (i : nat) (sent received : Z) s : option stack :=
  letp t := st_releasing s !! i in
  let s := slog [SxReleased (rl_conn t) (rl_code t) (rl_goAway t)] (with_releasing (delete i (st_releasing s)) s) in
  let s := if rl_account t && bool_decide (rl_conn t ∈ st_views s)
           then with_traffic (st_views s ∖ {[rl_conn t]}) (u64 (st_sent s + sent)) (u64 (st_received s + received)) s else s in
  Some (match rl_done t with Some d => slog [SxDone d] s | None => s end).

(** [Peer.Close] by a consumer. *)
Definition Peer_Close (h : nat) (code : Code) s : option stack :=
  letp p := st_handles s !! h in
  letp x := st_families s !! pr_family p in
  letp r := closePeer h code UnsupportedSelector x.1 in
  let s := with_families (<[pr_family p := (r.2, x.2)]> (st_families s)) s in
  Some (if (r.1 : bool) then (post (pr_sup p) ReqHandleClosed s).2 else s).

Definition Disconnect (id : PeerID) (done : nat) s : stack :=
  let s := match st_dials s !! id with
           | Some d => match da_state d with
                       | dialInFlight => with_dials (<[id := mk_dial (da_rec d) dialDisconnected true]> (st_dials s)) s
                       | _ => s
                       end
           | None => s
           end in
  match st_peers s !! id with
  | None => s
  | Some k => on_sup k (sup_post (ReqDrop (Some done))) s
  end.

(** The critical section of [Close]: the loop over [peers] appends and, once the
    accept loop has returned, signals. *)
Definition Stack_Close s : stack :=
  if st_closed s then s
  else
    let s := with_dials ((fun d => mk_dial (da_rec d) (da_state d) true) <$> st_dials s) (with_closed s) in
    with_sups (map_imap (fun k sup => Some (if decide (st_peers s !! sup_id sup = Some k) then sup_post (ReqDrop None) sup else sup)) (st_sups s)) s.

Definition Connections s : list ConnInfo :=
  let infos := omap (fun x => st_sups s !! x.2 ≫= sup_info) (map_to_list (st_peers s)) in
  merge_sort info_le infos.

Definition Traffic (stats : nat -> Z * Z) s : Z * Z :=
  foldl (fun acc c => (u64 (acc.1 + (stats c).1), u64 (acc.2 + (stats c).2))) (st_sent s, st_received s) (elements (st_views s)).
End supervisor.
