(* ===== verification/StackInv.v ===== *)
(** * StackInv: the stack's invariant, kept in every interleaving

    [stack_run] interleaves the supervisors with header reads, GOAWAY readers,
    releases, consumers, dials and the stack's methods.  The invariant ties the
    handles of the families to the supervisors' views, which is what discharges
    the assumption under which [Family] is proved: a family gets a new handle for
    a peer only when the peer's former handles have ended. *)

From S2P Require Import Prelude Wire Types CtrlOut Session Rlp Identity Enr Control Family Supervisor.
Open Scope Z_scope.

#[local] Set Default Proof Using "Type".

(** ** How a family evolves *)

(** Handles stay, keep their identity and never come back to life. *)
Record evolves (f f' : family) : Prop := {
  ev_code : fm_code f' = fm_code f;
  ev_protocols : fm_protocols f' = fm_protocols f;
  ev_kept : forall h d, fm_peers f !! h = Some d -> exists d', fm_peers f' !! h = Some d' /\ d_id d' = d_id d /\ (d_down d = true -> d_down d' = true);
  ev_known : forall h, fm_peers f !! h = None -> fm_peers f' !! h = None }.

Lemma evolves_set f h d d' f' :
  fm_peers f !! h = Some d -> fm_code f' = fm_code f -> fm_protocols f' = fm_protocols f -> fm_peers f' = <[h := d']> (fm_peers f) ->
  d_id d' = d_id d -> (d_down d = true -> d_down d' = true) -> evolves f f'.
Proof.
  intros Hd E1 E2 E3 Hid Hdn. split; [done|done| |].
  - intros x dx Hx. rewrite E3. destruct (decide (x = h)) as [->|Hne]; [|rewrite lookup_insert_ne by done; eauto].
    rewrite lookup_insert_eq. assert (dx = d) as -> by congruence. eauto.
  - intros x Hx. rewrite E3, lookup_insert_ne; [done|]. intros ->. congruence.
Qed.

Lemma evolves_refl f : evolves f f.
Proof. split; eauto. Qed.

Lemma evolves_same f f' : fm_code f' = fm_code f -> fm_protocols f' = fm_protocols f -> fm_peers f' = fm_peers f -> evolves f f'.
Proof. intros E1 E2 E3. split; rewrite ?E3; eauto. Qed.

Lemma push_evolves h p x f : is_Some (fm_peers f !! h) -> exists f', push h p x f = Some f' /\ evolves f f'.
Proof.
  intros [d Hd]. unfold push. rewrite Hd. simpl. destruct (d_down d) eqn:Hdn; [eexists; split; [done|by apply evolves_same]|].
  destruct (_ >=? _); [eexists; split; [done|by apply evolves_same]|]. eexists. split; [done|].
  unfold schedule. simpl. destruct (d_ready d); eapply evolves_set; try done; congruence.
Qed.

Lemma closePeer_evolves h c r f : is_Some (fm_peers f !! h) ->
  exists b f' d', closePeer h c r f = Some (b, f') /\ evolves f f' /\ fm_peers f' !! h = Some d' /\ d_down d' = true.
Proof.
  intros [d Hd]. unfold closePeer. rewrite Hd. simpl. destruct (d_down d) eqn:Hdn; [do 3 eexists; split; [done|]; split; [apply evolves_refl|done]|].
  unfold schedule. destruct (d_up d), (d_ready d); simpl; do 3 eexists; (split; [done|]); (split; [by eapply evolves_set|]); (split; [apply lookup_insert_eq|done]).
Qed.

Lemma Next_evolves f ev f' : Next f = Some (ev, f') -> evolves f f'.
Proof.
  unfold Next. destruct (fm_ready f) as [|h rest]; [intros [= <- <-]; apply evolves_refl|]. destruct (fm_peers f !! h) as [d|] eqn:Hd; [|done]. simpl.
  destruct (d_up d); simpl; [destruct (d_streams d) as [|[p x] l]|]; intros [= <- <-]; repeat case_match; by eapply evolves_set.
Qed.

Section stack.
(** [K]: the supervisors whose view a running operation has announced in the
    stack's table and not yet installed. *)
Context {SC : Secp256k1} (K : nat -> Prop).
Implicit Types (s : stack) (sup : peerSupervisor).

(** ** The invariant *)

(** The handle [h] of the family at index [i] has delivery state [d]. *)
Definition delivery_at s (i h : nat) (d : peerDelivery) : Prop := exists x, st_families s !! i = Some x /\ fm_peers x.1 !! h = Some d.

Definition req_ok (r : request) : Prop := match r with ReqAttach v _ _ => families_ok (ph_families (v_hello v)) | _ => True end.

(** [k] is its peer's supervisor and has not exited. *)
Definition alive s (k : nat) sup : Prop := st_peers s !! sup_id sup = Some k.

Record sup_ok s (k : nat) sup : Prop := {
  so_fresh : (k < st_fresh s)%nat;
  so_idle : sup_conn sup = None -> (~ K k -> sup_info sup = None) /\ sup_routes sup = ∅ /\ sup_handles sup = [] /\ sup_reading sup = (0, 0);
  so_info : forall c, sup_conn sup = Some c -> exists info, sup_info sup = Some info /\ ci_peer info = sup_id sup;
  so_exited : ~ alive s k sup -> sup_conn sup = None /\ sup_running sup = [];
  so_handles : forall i h, (i, h) ∈ sup_handles sup -> exists d, delivery_at s i h d /\ d_id d = sup_id sup;
  so_routes : forall c p i h, sup_routes sup !! (c, p) = Some (i, h) ->
    (i, h) ∈ sup_handles sup /\ exists x, st_families s !! i = Some x /\ fm_code x.1 = c /\ p ∈ sp_protocol <$> fm_protocols x.1;
  so_requests : Forall req_ok (sup_inbox sup ++ sup_running sup) }.

(** [X]: live handles that a running operation has between two owners. *)
Record stack_inv (X : gset (nat * nat)) s : Prop := {
  si_run : forall i f aw, st_families s !! i = Some (f, aw) -> exists tr, family_run (fm_code f) (fm_protocols f) (f, aw) tr;
  si_known : forall i h d, delivery_at s i h d -> (h < st_fresh s)%nat;
  si_handle : forall h p, st_handles s !! h = Some p -> exists d, delivery_at s (pr_family p) h d;
  si_live : forall i h d, delivery_at s i h d -> d_down d = false ->
    (i, h) ∈ X \/ exists k sup, st_peers s !! d_id d = Some k /\ st_sups s !! k = Some sup /\ (i, h) ∈ sup_handles sup;
  si_peers : forall id k, st_peers s !! id = Some k -> exists sup, st_sups s !! k = Some sup /\ sup_id sup = id;
  si_sups : forall k sup, st_sups s !! k = Some sup -> sup_ok s k sup }.

(** ** What does not touch the invariant *)

(** The supervisor's part that matters: everything but its record, wake token and
    read counters; requests may be added that are well formed. *)
Record sup_same sup sup' : Prop := {
  ss_id : sup_id sup' = sup_id sup;
  ss_info : sup_info sup' = sup_info sup;
  ss_conn : sup_conn sup' = sup_conn sup;
  ss_routes : sup_routes sup' = sup_routes sup;
  ss_handles : sup_handles sup' = sup_handles sup;
  ss_reading : sup_conn sup = None -> sup_reading sup' = sup_reading sup;
  ss_running : sup_running sup = [] -> sup_running sup' = [];
  ss_requests : Forall req_ok (sup_inbox sup ++ sup_running sup) -> Forall req_ok (sup_inbox sup' ++ sup_running sup') }.

Lemma sup_same_refl sup : sup_same sup sup.
Proof. by split. Qed.

Record same s s' : Prop := {
  sm_families : st_families s' = st_families s;
  sm_peers : st_peers s' = st_peers s;
  sm_handles : st_handles s' = st_handles s;
  sm_fresh : st_fresh s' = st_fresh s;
  sm_sups : forall k, option_relation sup_same (fun _ => False) (fun _ => False) (st_sups s !! k) (st_sups s' !! k) }.

Lemma same_sups s s' :
  st_families s' = st_families s -> st_peers s' = st_peers s -> st_handles s' = st_handles s -> st_fresh s' = st_fresh s -> st_sups s' = st_sups s -> same s s'.
Proof. intros ? ? ? ? E. split; try done. intros k. rewrite E. destruct (st_sups s !! k); simpl; [apply sup_same_refl|done]. Qed.

Lemma same_on s k f : (forall sup, st_sups s !! k = Some sup -> sup_same sup (f sup)) -> same s (on_sup k f s).
Proof.
  intros H. split; try done. intros j. unfold on_sup. simpl. destruct (decide (j = k)) as [->|Hne].
  - rewrite lookup_alter_eq. destruct (st_sups s !! k); simpl; auto.
  - rewrite lookup_alter_ne by done. destruct (st_sups s !! j); simpl; [apply sup_same_refl|done].
Qed.

Lemma delivery_families s s' i h d : st_families s' = st_families s -> delivery_at s' i h d <-> delivery_at s i h d.
Proof. unfold delivery_at. by intros ->. Qed.

Lemma sup_ok_same s s' k sup sup' : same s s' -> sup_same sup sup' -> sup_ok s k sup -> sup_ok s' k sup'.
Proof.
  intros Hs [A B C D E Rd F G] [H1 H2 H3 H4 H5 H6 H7]. pose proof (sm_families _ _ Hs) as Ef. split.
  - by rewrite (sm_fresh _ _ Hs).
  - rewrite C, B, D, E. intros Hc. destruct (H2 Hc) as (? & ? & ? & ?). rewrite Rd by done. done.
  - rewrite C, B, A. done.
  - unfold alive. rewrite A, (sm_peers _ _ Hs), C. intros Ha. destruct (H4 Ha) as [? ?]. auto.
  - rewrite E, A. intros i h Hin. destruct (H5 i h Hin) as (d & Hd & ?). exists d. by rewrite delivery_families.
  - rewrite D, E, Ef. done.
  - auto.
Qed.

Lemma st_inv_same X s s' : same s s' -> stack_inv X s -> stack_inv X s'.
Proof.
  intros Hs [A B C D E F]. pose proof (sm_families _ _ Hs) as Ef.
  assert (forall k sup', st_sups s' !! k = Some sup' -> exists sup, st_sups s !! k = Some sup /\ sup_same sup sup') as Hr.
  { intros k sup' Hk. pose proof (sm_sups _ _ Hs k) as H. rewrite Hk in H. destruct (st_sups s !! k); simpl in H; [eauto|done]. }
  assert (forall k sup, st_sups s !! k = Some sup -> exists sup', st_sups s' !! k = Some sup' /\ sup_same sup sup') as Hl.
  { intros k sup Hk. pose proof (sm_sups _ _ Hs k) as H. rewrite Hk in H. destruct (st_sups s' !! k); simpl in H; [eauto|done]. }
  split.
  - by rewrite Ef.
  - intros i h d. rewrite (delivery_families s s') by done. rewrite (sm_fresh _ _ Hs). apply B.
  - intros h p. rewrite (sm_handles _ _ Hs). intros Hp. destruct (C h p Hp) as [d Hd]. exists d. by rewrite (delivery_families s s').
  - intros i h d. rewrite (delivery_families s s') by done. intros Hd Hdn. destruct (D i h d Hd Hdn) as [?|(k & sup & Hk & Hsup & Hin)]; [by left|right].
    destruct (Hl k sup Hsup) as (sup' & Hsup' & Hss). exists k, sup'. rewrite (sm_peers _ _ Hs), (ss_handles _ _ Hss). done.
  - intros id k. rewrite (sm_peers _ _ Hs). intros Hk. destruct (E id k Hk) as (sup & Hsup & Hid). destruct (Hl k sup Hsup) as (sup' & ? & Hss). exists sup'. by rewrite (ss_id _ _ Hss).
  - intros k sup' Hk. destruct (Hr k sup' Hk) as (sup & Hsup & Hss). by eapply sup_ok_same; [..|apply F].
Qed.
(** ** Steps of one family *)

Lemma delivery_insert s i x y j h d :
  st_families s !! i = Some x -> evolves x.1 y.1 -> delivery_at (with_families (<[i := y]> (st_families s)) s) j h d ->
  (j = i /\ fm_peers y.1 !! h = Some d /\ exists d0, delivery_at s j h d0 /\ d_id d = d_id d0 /\ (d_down d0 = true -> d_down d = true)) \/ (j <> i /\ delivery_at s j h d).
Proof.
  intros Hx He (z & Hz & Hd). simpl in Hz. destruct (decide (j = i)) as [->|Hne].
  - rewrite list_lookup_insert_eq in Hz by (by eapply lookup_lt_Some). injection Hz as <-. left. split; [done|]. split; [done|].
    destruct (fm_peers x.1 !! h) as [d0|] eqn:Hd0; [|apply (ev_known _ _ He) in Hd0; congruence].
    destruct (ev_kept _ _ He h d0 Hd0) as (d1 & Hd1 & Hid & Hdn). assert (d1 = d) as -> by congruence. exists d0. split; [by exists x|done].
  - rewrite list_lookup_insert_ne in Hz by done. right. split; [done|]. by exists z.
Qed.

Lemma delivery_keep s i x y j h d :
  st_families s !! i = Some x -> evolves x.1 y.1 -> delivery_at s j h d ->
  exists d', delivery_at (with_families (<[i := y]> (st_families s)) s) j h d' /\ d_id d' = d_id d.
Proof.
  intros Hx He (z & Hz & Hd). destruct (decide (j = i)) as [->|Hne].
  - assert (z = x) as -> by congruence. destruct (ev_kept _ _ He h d Hd) as (d' & Hd' & Hid & _). exists d'. split; [|done]. exists y. split; [|done].
    simpl. by rewrite list_lookup_insert_eq by (by eapply lookup_lt_Some).
  - exists d. split; [|done]. exists z. simpl. by rewrite list_lookup_insert_ne.
Qed.

Lemma families_insert s i x y j z :
  st_families s !! i = Some x -> evolves x.1 y.1 -> st_families s !! j = Some z ->
  exists z', <[i := y]> (st_families s) !! j = Some z' /\ fm_code z'.1 = fm_code z.1 /\ fm_protocols z'.1 = fm_protocols z.1.
Proof.
  intros Hx He Hz. destruct (decide (j = i)) as [->|Hne]; [|exists z; by rewrite list_lookup_insert_ne].
  exists y. rewrite list_lookup_insert_eq by (by eapply lookup_lt_Some). assert (z = x) as -> by congruence. split; [done|]. split; apply He.
Qed.

Lemma sup_ok_family s i x y k sup :
  st_families s !! i = Some x -> evolves x.1 y.1 -> sup_ok s k sup -> sup_ok (with_families (<[i := y]> (st_families s)) s) k sup.
Proof.
  intros Hx He [A B C D E F G]. split; try done.
  - intros j h Hin. destruct (E j h Hin) as (d & Hd & Hid). destruct (delivery_keep s i x y j h d Hx He Hd) as (d' & Hd' & Hid'). exists d'. split; [done|congruence].
  - intros c p j h Hr. destruct (F c p j h Hr) as (Hin & z & Hz & Hc & Hp). split; [done|]. destruct (families_insert s i x y j z Hx He Hz) as (z' & Hz' & Hc' & Hp').
    exists z'. simpl. rewrite Hc', Hp'. done.
Qed.

Lemma inv_family X X' s i x y l :
  stack_inv X s -> st_families s !! i = Some x -> family_step x l y -> evolves x.1 y.1 ->
  (forall j h d, (j, h) ∈ X -> delivery_at (with_families (<[i := y]> (st_families s)) s) j h d -> d_down d = false -> (j, h) ∈ X') ->
  stack_inv X' (with_families (<[i := y]> (st_families s)) s).
Proof.
  intros [A B C D E F] Hx Hl He HX. split.
  - intros j f aw. simpl. destruct (decide (j = i)) as [->|Hne]; [|rewrite list_lookup_insert_ne by done; apply A].
    rewrite list_lookup_insert_eq by (by eapply lookup_lt_Some). intros [= ->]. destruct x as [f0 aw0]. destruct (A i f0 aw0 Hx) as [tr Htr].
    simpl in He. rewrite (ev_code _ _ He), (ev_protocols _ _ He). exists (tr ++ [l]). by eapply fr_step.
  - intros j h d Hd. simpl. destruct (delivery_insert s i x y j h d Hx He Hd) as [(-> & _ & d0 & Hd0 & _)|[_ Hd0]]; by eapply B.
  - intros h p Hp. destruct (C h p Hp) as [d Hd]. destruct (delivery_keep s i x y _ h d Hx He Hd) as (d' & Hd' & _). by exists d'.
  - intros j h d Hd Hdn. assert (exists d0, delivery_at s j h d0 /\ d_id d = d_id d0 /\ d_down d0 = false) as (d0 & Hd0 & Hid & Hdn0).
    { destruct (delivery_insert s i x y j h d Hx He Hd) as [(-> & _ & d0 & Hd0 & Hid & Hm)|[_ Hd0]]; [|by exists d]. exists d0. split; [done|]. split; [done|].
      destruct (d_down d0); [|done]. by rewrite Hm in Hdn. }
    destruct (D j h d0 Hd0 Hdn0) as [Hin|H]; [left; by eapply HX|right]. by rewrite Hid.
  - done.
  - intros k sup Hk. eapply sup_ok_family; [done|done|]. by apply F.
Qed.

(** ** Ending handles *)

Lemma delivery_fun s i h d d' : delivery_at s i h d -> delivery_at s i h d' -> d = d'.
Proof. intros (x & Hx & Hd) (y & Hy & Hd'). assert (x = y) by congruence. by simplify_eq. Qed.

Lemma close_handle_inv X s i h c r d :
  stack_inv X s -> delivery_at s i h d ->
  exists s', on_family i (fun f => letp r := closePeer h c r f in Some r.2) s = Some s' /\ stack_inv (X ∖ {[(i, h)]}) s' /\
    st_sups s' = st_sups s /\ st_peers s' = st_peers s /\ st_fresh s' = st_fresh s /\ length (st_families s') = length (st_families s) /\ (forall j h' d', delivery_at s j h' d' -> exists d'', delivery_at s' j h' d'' /\ d_id d'' = d_id d').
Proof.
  intros Hi (x & Hx & Hd). destruct (closePeer_evolves h c r x.1) as (b & f' & d' & Ec & He & Hd' & Hdn); [by exists d|].
  unfold on_family. rewrite Hx. simpl. rewrite Ec. simpl. eexists. split; [done|]. split.
  - eapply (inv_family X _ s i x (f', x.2) (LClose h c r)); [done|done| |done|].
    + destruct x as [f aw]. by econstructor.
    + intros j h' e Hin (z & Hz & He') Hen. apply elem_of_difference. split; [done|]. intros [= -> ->]%elem_of_singleton. simpl in Hz.
      rewrite list_lookup_insert_eq in Hz by (by eapply lookup_lt_Some). injection Hz as <-. simpl in He'. congruence.
  - repeat (split; [done|]). split; [apply length_insert|]. intros j h' e He'. exact (delivery_keep s i x (f', x.2) j h' e Hx He He').
Qed.

Lemma close_handles_inv c : forall handles X s,
  stack_inv X s -> (forall i h, (i, h) ∈ handles -> exists d, delivery_at s i h d) ->
  exists s', close_handles handles c s = Some s' /\ stack_inv (X ∖ list_to_set handles) s' /\ st_sups s' = st_sups s /\ st_peers s' = st_peers s /\ st_fresh s' = st_fresh s /\
    length (st_families s') = length (st_families s).
Proof.
  induction handles as [|[i h] handles IH]; intros X s Hi Hk; simpl; [exists s; rewrite difference_empty_L; done|].
  destruct (Hk i h) as [d Hd]; [by left|]. destruct (close_handle_inv X s i h c Closing d Hi Hd) as (s1 & -> & Hi1 & E1 & E2 & E3 & E4 & Hkeep). simpl.
  destruct (IH _ s1 Hi1) as (s' & -> & Hi' & F1 & F2 & F3 & F4).
  { intros j h' Hin. destruct (Hk j h') as [d' Hd']; [by right|]. destruct (Hkeep j h' d' Hd') as (d'' & ? & _). by exists d''. }
  exists s'. split; [done|]. split; [by rewrite difference_difference_l_L in Hi'|]. split; [congruence|]. split; [congruence|]. split; congruence.
Qed.
(** ** Changing one supervisor *)

Lemma sup_ok_ext s s' k sup : st_families s' = st_families s -> st_peers s' = st_peers s -> st_fresh s' = st_fresh s -> sup_ok s k sup -> sup_ok s' k sup.
Proof.
  intros E1 E2 E3 [A B C D E F G]. split; try done.
  - by rewrite E3.
  - unfold alive. by rewrite E2.
  - intros i h Hin. destruct (E i h Hin) as (d & Hd & ?). exists d. by rewrite (delivery_families s s').
  - by rewrite E1.
Qed.

Lemma inv_sup X X' s k sup f :
  stack_inv X s -> st_sups s !! k = Some sup -> sup_id (f sup) = sup_id sup -> sup_ok s k (f sup) ->
  (forall i h d, delivery_at s i h d -> d_down d = false -> (i, h) ∈ X \/ (d_id d = sup_id sup /\ (i, h) ∈ sup_handles sup) ->
     (i, h) ∈ X' \/ (alive s k sup /\ d_id d = sup_id sup /\ (i, h) ∈ sup_handles (f sup))) ->
  stack_inv X' (on_sup k f s).
Proof.
  intros [A B C D E F] Hk Hid Hok HX. assert (st_sups (on_sup k f s) !! k = Some (f sup)) as Hk' by (simpl; by rewrite lookup_alter_eq, Hk).
  split; try done.
  - intros i h d Hd Hdn. destruct (D i h d Hd Hdn) as [Hin|(j & sup' & Hj & Hsup' & Hin)].
    + destruct (HX i h d Hd Hdn) as [?|(Ha & Hi & Hin')]; [by left|by left|right]. exists k, (f sup). unfold alive in Ha. rewrite <-Hi in Ha. done.
    + destruct (decide (j = k)) as [->|Hne].
      * assert (sup' = sup) as -> by congruence. assert (d_id d = sup_id sup) as Heq. { destruct (E _ _ Hj) as (sup' & ? & ?). congruence. }
        destruct (HX i h d Hd Hdn) as [?|(Ha & Hi & Hin')]; [by right|by left|right]. by exists k, (f sup).
      * right. exists j, sup'. simpl. by rewrite lookup_alter_ne.
  - intros id j Hj. destruct (E id j Hj) as (sup' & Hsup' & Hi'). destruct (decide (j = k)) as [->|Hne]; [exists (f sup); split; [done|congruence]|].
    exists sup'. simpl. by rewrite lookup_alter_ne.
  - intros j sup' Hj. destruct (decide (j = k)) as [->|Hne].
    + assert (sup' = f sup) as -> by congruence. by apply (sup_ok_ext s).
    + simpl in Hj. rewrite lookup_alter_ne in Hj by done. apply (sup_ok_ext s); [done|done|done|]. by apply F.
Qed.

(** ** Dropping a view *)

(** After [dropView]: no view, what belongs to other components unchanged. *)
Record dropped s (k : nat) sup s' : Prop := {
  dr_inv : stack_inv ∅ s';
  dr_sup : exists sup', st_sups s' !! k = Some sup' /\ sup_id sup' = sup_id sup /\ sup_conn sup' = None /\ sup_inbox sup' = sup_inbox sup /\ sup_running sup' = sup_running sup;
  dr_peers : st_peers s' = st_peers s;
  dr_fresh : st_fresh s' = st_fresh s;
  dr_families : length (st_families s') = length (st_families s) }.

Lemma close_handles_on c k g : forall handles s, close_handles handles c (on_sup k g s) = on_sup k g <$> close_handles handles c s.
Proof.
  induction handles as [|[i h] handles IH]; intros s; [done|]. cbn [close_handles]. unfold on_family. change (st_families (on_sup k g s)) with (st_families s).
  destruct (st_families s !! i) as [x|]; [|done]. simpl. destruct (closePeer h c Closing x.1) as [r|]; [|done]. simpl. exact (IH (with_families (<[i := (r.2, x.2)]> (st_families s)) s)).
Qed.

Lemma on_sup_twice k f g s : on_sup k g (on_sup k f s) = on_sup k (fun sup => g (f sup)) s.
Proof. unfold on_sup. simpl. unfold with_sups. simpl. f_equal. apply map_eq. intros j. destruct (decide (j = k)) as [->|Hne]; [rewrite !lookup_alter_eq; by destruct (st_sups s !! k)|by rewrite !lookup_alter_ne]. Qed.

Lemma dropView_inv s k sup c goAway done :
  stack_inv ∅ s -> st_sups s !! k = Some sup -> exists s', dropView k c goAway done s = Some s' /\ dropped s k sup s'.
Proof.
  intros Hi Hk. unfold dropView. rewrite Hk. simpl. pose proof (si_sups _ _ Hi k sup Hk) as Ho. destruct (sup_conn sup) as [conn|] eqn:Hc.
  2: { eexists. split; [reflexivity|]. split; [apply (st_inv_same ∅ s); [by destruct done; apply same_sups|assumption]|exists sup; by destruct done|by destruct done..]. }
  set (f := sup_view (sup_info sup) None ∅ [] (0, 0)). set (g := fun sup : peerSupervisor => sup_view None (sup_conn sup) (sup_routes sup) (sup_handles sup) (sup_reading sup) sup).
  assert (stack_inv (list_to_set (sup_handles sup)) (on_sup k g (on_sup k f s))) as Hi1.
  { rewrite on_sup_twice. eapply inv_sup; [done|done|done| |].
    - destruct Ho as [O1 O2 O3 O4 O5 O6 O7]. split; simpl; try done; [intros Ha; by destruct (O4 Ha)|by intros i h ?%elem_of_nil].
    - intros i h d _ _ [?|[_ Hin]]; [set_solver|]. left. by apply elem_of_list_to_set. }
  destruct (close_handles_inv c (sup_handles sup) _ _ Hi1) as (s' & Es & Hi' & E1 & E2 & E3 & E4).
  { intros i h Hin. destruct (so_handles _ _ _ Ho i h Hin) as (d & Hd & _). by exists d. }
  rewrite close_handles_on in Es. destruct (close_handles (sup_handles sup) c (on_sup k f s)) as [s2|]; [|done]. simpl in Es. injection Es as <-. simpl.
  eexists. split; [reflexivity|]. split.
  - rewrite difference_diag_L in Hi'. by apply (st_inv_same ∅ (on_sup k g s2)); [apply same_sups|].
  - exists (g (f sup)). change (st_sups (closeView _ _ _ _ ?x)) with (st_sups x). rewrite E1, on_sup_twice. simpl. by rewrite lookup_alter_eq, Hk.
  - exact E2.
  - exact E3.
  - exact E4.
Qed.
(** ** Header reads *)

Lemma sup_same_trans a b c : sup_same a b -> sup_same b c -> sup_same a c.
Proof. intros [] []. split; try congruence; try tauto. intros H. rewrite ss_reading1; [auto|congruence]. Qed.

Lemma same_trans s1 s2 s3 : same s1 s2 -> same s2 s3 -> same s1 s3.
Proof.
  intros [A B C D E] [A' B' C' D' E']. split; try congruence. intros k. specialize (E k). specialize (E' k).
  destruct (st_sups s1 !! k), (st_sups s2 !! k), (st_sups s3 !! k); simpl in *; try done. by eapply sup_same_trans.
Qed.

Lemma st_same_refl s : same s s.
Proof. by apply same_sups. Qed.

Lemma same_sup s s' k sup : same s s' -> st_sups s !! k = Some sup -> exists sup', st_sups s' !! k = Some sup' /\ sup_same sup sup'.
Proof. intros H Hk. pose proof (sm_sups _ _ H k) as E. rewrite Hk in E. destruct (st_sups s' !! k); simpl in E; [eauto|done]. Qed.

Lemma read_direction_same slots k conn bidi : forall s sup c, st_sups s !! k = Some sup -> sup_conn sup = Some c -> same s (read_direction slots k conn bidi s).
Proof.
  induction slots as [|slots IH]; intros s sup c Hk Hc; cbn [read_direction]; [apply st_same_refl|]. destruct (if bidi then _ else _) as [|x rest]; [apply st_same_refl|].
  match goal with |- same s (read_direction _ _ _ _ (on_sup k ?g ?s0)) => set (f := g); set (s1 := s0) end.
  assert (same s (on_sup k f s1)) as H1.
  { apply (same_trans _ s1); [by apply same_sups|]. apply same_on. intros sup' Hk'. assert (sup' = sup) as -> by (unfold s1 in Hk'; simpl in Hk'; congruence). by split; [..|congruence| |]. }
  apply (same_trans _ _ _ H1). destruct (same_sup _ _ _ _ H1 Hk) as (sup' & Hk' & Hs). eapply IH; [done|]. by rewrite (ss_conn _ _ Hs).
Qed.

Lemma readHeaders_same s k sup c : st_sups s !! k = Some sup -> sup_conn sup = Some c -> exists s', readHeaders k s = Some s' /\ same s s'.
Proof.
  intros Hk Hc. unfold readHeaders. rewrite Hk. simpl. rewrite Hc. simpl. set (n := Z.to_nat _).
  pose proof (read_direction_same n k c false s sup c Hk Hc) as H1. destruct (same_sup _ _ _ _ H1 Hk) as (sup' & Hk' & Hs). rewrite Hk'. simpl.
  eexists. split; [done|]. eapply same_trans; [done|]. eapply read_direction_same; [done|]. by rewrite (ss_conn _ _ Hs).
Qed.

(** ** New handles *)

Lemma addPeer_spec h id f :
  exists d, fm_peers (addPeer h id f) = <[h := d]> (fm_peers f) /\ d_id d = id /\ d_down d = false /\
    fm_code (addPeer h id f) = fm_code f /\ fm_protocols (addPeer h id f) = fm_protocols f.
Proof. eexists. split; [reflexivity|done]. Qed.
#[local] Opaque addPeer.

(** A handle for the peer of supervisor [k] in the family at index [i]. *)
Definition with_handle (k conn i : nat) (id : PeerID) (x : family * bool) s : stack :=
  with_families (<[i := (addPeer (st_fresh s) id x.1, x.2)]> (st_families s)) (new_handle (mk_peer id k i conn) s).2.

Lemma with_handle_delivery k conn i id x s j h d :
  st_families s !! i = Some x -> fm_peers x.1 !! st_fresh s = None -> delivery_at (with_handle k conn i id x s) j h d <->
    (j = i /\ h = st_fresh s /\ fm_peers (addPeer (st_fresh s) id x.1) !! st_fresh s = Some d) \/ delivery_at s j h d.
Proof.
  intros Hx Hn. unfold delivery_at. simpl. destruct (addPeer_spec (st_fresh s) id x.1) as (d0 & E & _). rewrite E, lookup_insert_eq. destruct (decide (j = i)) as [->|Hne].
  - rewrite list_lookup_insert_eq by (by eapply lookup_lt_Some). split.
    + intros (z & [= <-] & Hd). simpl in Hd. rewrite E in Hd. apply lookup_insert_Some in Hd as [[<- <-]|[Hh Hd]]; [by left|right]. by exists x.
    + intros [(_ & -> & [= <-])|(z & Hz & Hd)]; (eexists; split; [done|]); simpl; rewrite E; [apply lookup_insert_eq|].
      rewrite lookup_insert_ne; [congruence|]. intros <-. congruence.
  - rewrite list_lookup_insert_ne by done. split; [by right|]. by intros [(? & _)|?].
Qed.

Lemma with_handle_inv X s k sup conn i x :
  stack_inv X s -> st_sups s !! k = Some sup -> alive s k sup -> sup_handles sup = [] -> st_families s !! i = Some x -> (forall h, (i, h) ∉ X) ->
  stack_inv ({[(i, st_fresh s)]} ∪ X) (with_handle k conn i (sup_id sup) x s) /\
  exists d, delivery_at (with_handle k conn i (sup_id sup) x s) i (st_fresh s) d /\ d_id d = sup_id sup.
Proof.
  intros Hi Hk Ha Hh Hx HX. destruct Hi as [A B C D E F]. set (id := sup_id sup).
  assert (fm_peers x.1 !! st_fresh s = None) as Hn. { destruct (fm_peers x.1 !! st_fresh s) as [d|] eqn:Hd; [|done]. assert (delivery_at s i (st_fresh s) d) as H%B by (by exists x). lia. }
  destruct (addPeer_spec (st_fresh s) id x.1) as (d0 & E0 & Eid & Edn & Ec & Ep).
  assert (forall j h d, delivery_at (with_handle k conn i id x s) j h d <-> (j = i /\ h = st_fresh s /\ d = d0) \/ delivery_at s j h d) as Hdel.
  { intros j h d. rewrite with_handle_delivery by done. rewrite E0, lookup_insert_eq. naive_solver. }
  split; [|exists d0; rewrite Hdel; auto]. split.
  - intros j f aw. simpl. destruct (decide (j = i)) as [->|Hne]; [|rewrite list_lookup_insert_ne by done; apply A].
    rewrite list_lookup_insert_eq by (by eapply lookup_lt_Some). intros [= <- <-]. rewrite Ec, Ep. destruct x as [f aw]. destruct (A i f aw Hx) as [tr Htr]. exists (tr ++ [LAdd (st_fresh s) id]).
    eapply fr_step; [done|]. constructor; [done|]. intros h d Hd Hid. destruct (d_down d) eqn:Hdn; [done|].
    destruct (D i h d) as [Hin|(j & sup' & Hj & Hsup' & Hin)]; [by exists (f, aw)|done|by apply HX in Hin|]. rewrite Hid in Hj. unfold alive in Ha. fold id in Ha.
    assert (j = k) as -> by congruence. assert (sup' = sup) as -> by congruence. rewrite Hh in Hin. by apply elem_of_nil in Hin.
  - intros j h d. rewrite Hdel. simpl. intros [(_ & -> & _)|Hd%B]; lia.
  - intros h p. simpl. rewrite lookup_insert_Some. intros [[<- <-]|[_ Hp]]; [exists d0; rewrite Hdel; auto|]. destruct (C h p Hp) as [d Hd]. exists d. rewrite Hdel. auto.
  - intros j h d. rewrite Hdel. intros [(-> & -> & _)|Hd] Hdn; [left; set_solver|]. destruct (D j h d Hd Hdn) as [?|?]; [left; set_solver|by right].
  - done.
  - intros j sup' Hj. destruct (F j sup' Hj) as [O1 O2 O3 O4 O5 O6 O7]. split; try done.
    + simpl. lia.
    + intros i' h Hin. destruct (O5 i' h Hin) as (d & Hd & Hid). exists d. rewrite Hdel. auto.
    + intros c p i' h Hr. destruct (O6 c p i' h Hr) as (Hin & z & Hz & Hc & Hp). split; [done|]. simpl. destruct (decide (i' = i)) as [->|Hne].
      * rewrite list_lookup_insert_eq by (by eapply lookup_lt_Some). eexists. split; [done|]. simpl. rewrite Ec, Ep. assert (z = x) as -> by congruence. done.
      * rewrite list_lookup_insert_ne by done. by exists z.
Qed.
Lemma routes_lookup (c : Z) (v : nat * nat) specs : forall (m : gmap (Z * Z) (nat * nat)) q w,
  foldl (fun m spec => <[(c, sp_protocol spec) := v]> m) m specs !! q = Some w -> (w = v /\ q.1 = c /\ q.2 ∈ sp_protocol <$> specs) \/ m !! q = Some w.
Proof.
  induction specs as [|spec specs IH]; intros m q w; simpl; [by right|]. intros [(-> & ? & ?)|H]%IH; [left; split; [done|]; split; [done|by right]|].
  apply lookup_insert_Some in H as [[<- <-]|[_ H]]; [left|by right]. split; [done|]. split; [done|by left].
Qed.

Definition routes_ok s (handles : list (nat * nat)) (routes : gmap (Z * Z) (nat * nat)) : Prop :=
  forall c p i h, routes !! (c, p) = Some (i, h) -> (i, h) ∈ handles /\ exists x, st_families s !! i = Some x /\ fm_code x.1 = c /\ p ∈ sp_protocol <$> fm_protocols x.1.

Definition handles_of s (id : PeerID) (handles : list (nat * nat)) : Prop := forall i h, (i, h) ∈ handles -> exists d, delivery_at s i h d /\ d_id d = id.

Lemma add_handles_inv k conn sup : forall l routes hs s,
  stack_inv (list_to_set hs) s -> st_sups s !! k = Some sup -> alive s k sup -> sup_handles sup = [] ->
  NoDup l -> (forall i, i ∈ l -> (i < length (st_families s))%nat) -> (forall i h, (i, h) ∈ hs -> i ∉ l) -> handles_of s (sup_id sup) hs -> routes_ok s hs routes ->
  exists routes' hs' s', add_handles k conn (sup_id sup) l routes hs s = Some (routes', hs', s') /\ stack_inv (list_to_set hs') s' /\
    st_sups s' = st_sups s /\ st_peers s' = st_peers s /\ handles_of s' (sup_id sup) hs' /\ routes_ok s' hs' routes'.
Proof.
  induction l as [|i l IH]; intros routes hs s Hi Hk Ha Hh Hn Hlt Hdis Hof Hro; [by exists routes, hs, s|].
  apply NoDup_cons in Hn as [Hil Hn]. destruct (lookup_lt_is_Some_2 (st_families s) i) as [x Hx]; [apply Hlt; by left|].
  destruct (with_handle_inv (list_to_set hs) s k sup conn i x Hi Hk Ha Hh Hx) as (Hi1 & d & Hd & Hid).
  { intros h Hin%elem_of_list_to_set. apply (Hdis i h Hin). by left. }
  destruct (addPeer_spec (st_fresh s) (sup_id sup) x.1) as (d0 & E0 & _ & _ & Ec & Ep).
  assert (fm_peers x.1 !! st_fresh s = None) as Hnone.
  { destruct (fm_peers x.1 !! st_fresh s) as [e|] eqn:He; [|done]. assert (st_fresh s < st_fresh s)%nat; [|lia]. apply (si_known _ _ Hi i _ e). by exists x. }
  set (s1 := with_handle k conn i (sup_id sup) x s) in *. set (v := (i, st_fresh s)).
  assert (st_families s1 !! i = Some (addPeer (st_fresh s) (sup_id sup) x.1, x.2)) as Hx1 by (simpl; apply list_lookup_insert_eq; by eapply lookup_lt_Some).
  set (routes1 := foldl (fun m spec => <[(fm_code x.1, sp_protocol spec) := v]> m) routes (fm_protocols x.1)).
  assert (add_handles k conn (sup_id sup) (i :: l) routes hs s = add_handles k conn (sup_id sup) l routes1 (hs ++ [v]) s1) as ->.
  { cbn [add_handles new_handle]. unfold on_family. cbn [st_families]. rewrite Hx. cbn [mbind option_bind].
    match goal with |- (letp z := st_families ?y !! i in _) = _ => change y with s1 end. rewrite Hx1. cbn [mbind option_bind fst]. by rewrite Ec, Ep. }
  apply (IH routes1 (hs ++ [v]) s1); try done.
  - replace (list_to_set (hs ++ [v])) with ({[v]} ∪ list_to_set hs : gset (nat * nat)) by set_solver. exact Hi1.
  - intros j Hj. simpl. rewrite length_insert. apply Hlt. by right.
  - intros j h. rewrite elem_of_app, list_elem_of_singleton. intros [Hin|[= -> ->]]; [|done]. intros Hj. apply (Hdis j h Hin). by right.
  - intros j h. rewrite elem_of_app, list_elem_of_singleton. intros [Hin|[= -> ->]]; [|by exists d]. destruct (Hof j h Hin) as (e & He & ?). exists e. split; [|done].
    apply with_handle_delivery; auto.
  - intros c p j h Hr. unfold routes1 in Hr. apply routes_lookup in Hr as [(Ev & Eq & Hp)|Hr].
    + injection Ev as -> ->. simpl in Eq, Hp. split; [apply elem_of_app; right; by left|]. eexists. split; [exact Hx1|]. cbn [fst]. rewrite Ec, Ep. by split.
    + destruct (Hro c p j h Hr) as (Hin & z & Hz & Hc & Hp). split; [apply elem_of_app; by left|]. simpl. destruct (decide (j = i)) as [->|Hne].
      * assert (z = x) as -> by congruence. eexists. split; [exact Hx1|]. cbn [fst]. by rewrite Ec, Ep.
      * exists z. by rewrite list_lookup_insert_ne.
Qed.
End stack.

(** ** Admission *)

Section admission.
Context {SC : Secp256k1} {PW : Protowire} (keccak256 : bytes -> bytes) (localID : PeerID).
Implicit Types (s : stack) (sup : peerSupervisor).

Abbreviation inv := (stack_inv (fun _ => False)).

Lemma inv_announced X s k : inv X s -> stack_inv (eq k) X s.
Proof.
  intros [A B C D E F]. split; try done. intros j sup Hj. destruct (F j sup Hj) as [O1 O2 O3 O4 O5 O6 O7]. split; try done.
  intros Hc. destruct (O2 Hc) as (H & ?). split; [|done]. intros _. apply H. intros [].
Qed.

Lemma inv_installed X s k sup : stack_inv (eq k) X s -> st_sups s !! k = Some sup -> sup_conn sup <> None -> inv X s.
Proof.
  intros [A B C D E F] Hk Hc. split; try done. intros j sup' Hj. destruct (F j sup' Hj) as [O1 O2 O3 O4 O5 O6 O7]. split; try done.
  intros Hc'. destruct (O2 Hc') as (H & ?). split; [|done]. intros _. apply H. intros ->. congruence.
Qed.

Lemma updateRecord_spec (r : option ENR) sup : exists r', updateRecord r sup = sup_set_record r' sup.
Proof.
  assert (sup = sup_set_record (sup_record sup) sup) as E by (by destruct sup). unfold updateRecord. destruct r; [|eexists; exact E].
  destruct (sup_record sup) eqn:Er; [|by eexists]. destruct (_ >? _); [by eexists|eexists; exact E].
Qed.

Lemma updateRecord_sup_same (r : option ENR) sup : sup_same sup (updateRecord r sup).
Proof. destruct (updateRecord_spec r sup) as [r' ->]. by split. Qed.

(** Committing a view only announces it. *)
Lemma commit_view_inv s k sup v now rec :
  inv ∅ s -> st_sups s !! k = Some sup ->
  exists info s' sup', commit_view k v now rec s = Some (info, s') /\ ci_peer info = sup_id sup /\ stack_inv (eq k) ∅ s' /\ st_sups s' !! k = Some sup' /\
    sup_id sup' = sup_id sup /\ sup_conn sup' = sup_conn sup /\ (sup_running sup = [] -> sup_running sup' = []) /\
    st_peers s' = st_peers s /\ st_fresh s' = st_fresh s /\ length (st_families s') = length (st_families s).
Proof.
  intros Hi Hk. unfold commit_view. rewrite Hk. simpl. set (info := mk_info _ _ _ _). set (s0 := mk_stack _ _ _ _ _ _ _ _ _ _ _ _ _ _ _).
  set (g := fun sup : peerSupervisor => sup_view (Some info) (sup_conn sup) (sup_routes sup) (sup_handles sup) (sup_reading sup) sup).
  assert (stack_inv (eq k) ∅ (on_sup k g s0)) as Hi1.
  { assert (stack_inv (eq k) ∅ s0) as Hi0 by (apply (st_inv_same _ ∅ s); [by apply same_sups|by apply inv_announced]).
    pose proof (si_sups _ _ _ Hi0 k sup Hk) as [O1 O2 O3 O4 O5 O6 O7].
    eapply (inv_sup (eq k) ∅ ∅ s0 k sup); [done|done|done| |].
    - split; simpl; try done; [|by eexists]. intros Hc. destruct (O2 Hc) as (_ & ?). by split.
    - intros i h d Hd Hdn [?|[Hid Hin]]; [set_solver|]. right. split; [|done]. destruct (O5 i h Hin) as (d' & Hd' & Hid').
      destruct (si_live _ _ _ Hi0 i h d Hd Hdn) as [?|(j & sup' & Hj & Hsup' & Hin')]; [set_solver|]. destruct (decide (st_peers s0 !! sup_id sup = Some k)) as [?|Hna]; [done|].
      destruct (O4 Hna) as [Hc _]. destruct (O2 Hc) as (_ & _ & Hh & _). rewrite Hh in Hin. by apply elem_of_nil in Hin. }
  set (s1 := match st_dials _ !! _ with Some d => _ | None => _ end).
  assert (same (on_sup k g s0) s1) as H1. { unfold s1. destruct (st_dials s !! sup_id sup); [apply same_on; intros; apply updateRecord_sup_same|apply st_same_refl]. }
  assert (same s1 (on_sup k (updateRecord rec) s1)) as H2 by (apply same_on; intros; apply updateRecord_sup_same).
  assert (same (on_sup k g s0) (on_sup k (updateRecord rec) s1)) as H3 by (by eapply same_trans).
  assert (st_sups (on_sup k g s0) !! k = Some (g sup)) as Hk0 by (simpl; by rewrite lookup_alter_eq, Hk).
  destruct (same_sup _ _ _ _ H3 Hk0) as (sup' & Hk' & Hs). exists info, (on_sup k (updateRecord rec) s1), sup'. split; [done|]. split; [done|].
  split; [by eapply st_inv_same|]. split; [done|]. split; [by rewrite (ss_id _ _ Hs)|]. split; [by rewrite (ss_conn _ _ Hs)|].
  split; [exact (ss_running _ _ Hs)|]. by rewrite (sm_peers _ _ H3), (sm_fresh _ _ H3), (sm_families _ _ H3).
Qed.

Lemma helloRecord_total id raw : exists r, helloRecord keccak256 id raw = Some r.
Proof.
  unfold helloRecord. destruct (_ =? _)%nat; [by eexists|]. destruct (Decode keccak256 raw) as [[rec|e]|] eqn:E; [|by eexists|by apply Decode_Some in E].
  simpl. case_decide; by eexists.
Qed.

Lemma shared_families_total codes : families_ok codes -> forall l i,
  exists r, shared_families i l codes = Some r /\ NoDup r /\ forall j, j ∈ r -> (i <= j < i + length l)%nat.
Proof.
  intros Hok. induction l as [|[f aw] l IH]; intros i; simpl; [exists []; split; [done|]; split; [apply NoDup_nil_2|by intros j ?%elem_of_nil]|].
  rewrite sharedWith_spec by done. simpl. destruct (IH (S i)) as (r & -> & Hn & Hr). simpl. eexists. split; [done|]. case_bool_decide.
  - split; [apply NoDup_cons; split; [intros Hin%Hr; lia|done]|]. intros j [->|Hj%Hr]%elem_of_cons; lia.
  - split; [done|]. intros j Hj%Hr. lia.
Qed.

(** What a request of supervisor [k] leaves: the invariant, and [k] as it was found. *)
Record stepped s (k : nat) sup s' : Prop := {
  sp_inv : inv ∅ s';
  sp_sup : exists sup', st_sups s' !! k = Some sup' /\ sup_id sup' = sup_id sup /\ (sup_running sup = [] -> sup_running sup' = []);
  sp_peers : st_peers s' = st_peers s }.

Lemma stepped_same s k sup s' : inv ∅ s -> st_sups s !! k = Some sup -> same s s' -> stepped s k sup s'.
Proof.
  intros Hi Hk Hs. destruct (same_sup _ _ _ _ Hs Hk) as (sup' & Hk' & Hss). split; [by eapply st_inv_same|exists sup'; split; [done|]; split; apply Hss|apply Hs].
Qed.

Lemma stepped_dropped s k sup s' : dropped (fun _ => False) s k sup s' -> stepped s k sup s'.
Proof. intros [A (sup' & B & C & _ & _ & D) E _ _]. split; [done|exists sup'; split; [done|]; split; [done|congruence]|done]. Qed.

(** The admitted view: handles for the shared families, then its routes. *)
Lemma install_inv s k sup info conn families :
  stack_inv (eq k) ∅ s -> st_sups s !! k = Some sup -> alive s k sup -> sup_conn sup = None -> ci_peer info = sup_id sup ->
  NoDup families -> (forall i, i ∈ families -> (i < length (st_families s))%nat) ->
  exists routes handles s' s'', add_handles k conn (sup_id sup) families ∅ [] s = Some (routes, handles, s') /\
    readHeaders k (on_sup k (fun sup => sup_view (Some info) (Some conn) routes handles (sup_reading sup) sup) s') = Some s'' /\ stepped s k sup s''.
Proof.
  intros Hi Hk Ha Hc Hinfo Hn Hlt. pose proof (si_sups _ _ _ Hi k sup Hk) as Ho. destruct (so_idle _ _ _ _ Ho Hc) as (_ & _ & Hh & _).
  destruct (add_handles_inv (eq k) k conn sup families ∅ [] s) as (routes & handles & s' & Ea & Hi' & E1 & E2 & Hof & Hro); try done; [by intros i h ?%elem_of_nil..|].
  exists routes, handles, s'. set (f := fun sup : peerSupervisor => sup_view (Some info) (Some conn) routes handles (sup_reading sup) sup).
  assert (st_sups s' !! k = Some sup) as Hk' by (by rewrite E1). assert (alive s' k sup) as Ha' by (unfold alive; by rewrite E2).
  assert (st_sups (on_sup k f s') !! k = Some (f sup)) as Hk'' by (simpl; by rewrite lookup_alter_eq, Hk').
  assert (inv ∅ (on_sup k f s')) as Hi''.
  { eapply inv_installed; [|exact Hk''|done]. destruct (si_sups _ _ _ Hi' k sup Hk') as [O1 O2 O3 O4 O5 O6 O7]. eapply inv_sup; [exact Hi'|done|done| |].
    - split; simpl; try done; [intros c [= <-]; by exists info].
    - intros i h d Hd Hdn [Hin%elem_of_list_to_set|[_ Hin]]; [|rewrite Hh in Hin; by apply elem_of_nil in Hin]. right. split; [done|].
      destruct (Hof i h Hin) as (d' & Hd' & Hid). assert (d = d') as -> by (by eapply delivery_fun). done. }
  destruct (readHeaders_same (on_sup k f s') k (f sup) conn Hk'' eq_refl) as (s'' & Er & Hs). exists s''. split; [done|]. split; [done|].
  destruct (same_sup _ _ _ _ Hs Hk'') as (sup' & Hks & Hss). split; [by eapply st_inv_same| |by rewrite (sm_peers _ _ Hs)].
  exists sup'. split; [done|]. split; [by rewrite (ss_id _ _ Hss)|exact (ss_running _ _ Hss)].
Qed.
Lemma stepped_peers s k sup s1 sup1 s2 :
  stepped s1 k sup1 s2 -> st_peers s1 = st_peers s -> sup_id sup1 = sup_id sup -> (sup_running sup = [] -> sup_running sup1 = []) -> stepped s k sup s2.
Proof. intros [A (sup' & B & C & D) E] Ep Ei Er. split; [done|exists sup'; split; [done|]; split; [congruence|auto]|congruence]. Qed.

Lemma attach_inv s k sup v now :
  inv ∅ s -> st_sups s !! k = Some sup -> alive s k sup -> families_ok (ph_families (v_hello v)) ->
  exists r s', attach keccak256 localID k v now s = Some (r, s') /\ stepped s k sup s'.
Proof.
  intros Hi Hk Ha Hok. unfold attach. rewrite Hk. cbn [mbind option_bind]. destruct (helloRecord_total (sup_id sup) (ph_record (v_hello v))) as [[rec|] ->]; cbn [mbind option_bind];
    [|do 2 eexists; split; [done|]; apply stepped_same; [done|done|by apply same_sups]].
  destruct (shared_families_total _ Hok (st_families s) 0) as (l & -> & Hn & Hl). cbn [mbind option_bind].
  destruct (length l =? 0)%nat; [do 2 eexists; split; [done|]; apply stepped_same; [done|done|by apply same_sups]|].
  destruct (st_closed s); [do 2 eexists; split; [done|]; apply stepped_same; [done|done|by apply same_sups]|].
  destruct (v_outbound v && _); [do 2 eexists; split; [done|]; apply stepped_same; [done|done|by apply same_sups]|].
  assert (exists dup, match sup_conn sup with Some _ => letp info := sup_info sup in Some (duplicate localID info (sup_id sup) (v_outbound v)) | None => Some false end = Some dup) as [dup Edup].
  { destruct (sup_conn sup) as [c|] eqn:Hc; [|by eexists]. destruct (so_info _ _ _ _ (si_sups _ _ _ Hi k sup Hk) c Hc) as (info & -> & _). by eexists. }
  rewrite Edup. cbn [mbind option_bind]. destruct dup; [do 2 eexists; split; [done|]; apply stepped_same; [done|done|by apply same_sups]|].
  destruct (commit_view_inv s k sup v now rec Hi Hk) as (info & s1 & sup1 & -> & Hinfo & Hi1 & Hk1 & Hid1 & Hc1 & Hr1 & Hp1 & Hf1 & Hl1). cbn [mbind option_bind fst snd].
  assert (exists s2 sup2, match sup_conn sup with Some _ => dropView k Duplicate true None s1 | None => Some s1 end = Some s2 /\ stack_inv (eq k) ∅ s2 /\
    st_sups s2 !! k = Some sup2 /\ sup_id sup2 = sup_id sup /\ sup_conn sup2 = None /\ (sup_running sup = [] -> sup_running sup2 = []) /\ st_peers s2 = st_peers s /\
    length (st_families s2) = length (st_families s)) as (s2 & sup2 & -> & Hi2 & Hk2 & Hid2 & Hc2 & Hr2 & Hp2 & Hl2).
  { destruct (sup_conn sup) as [c|] eqn:Hc; [|by exists s1, sup1]. destruct (dropView_inv (eq k) s1 k sup1 Duplicate true None Hi1 Hk1) as (s2 & -> & [A (sup2 & B & C & D & _ & E) F G H]).
    exists s2, sup2. split; [done|]. split; [done|]. split; [done|]. split; [congruence|]. split; [done|]. split; [rewrite E; auto|]. split; congruence. }
  cbn [mbind option_bind]. rewrite <-Hid2. destruct (install_inv s2 k sup2 info (v_conn v) l) as (routes & handles & s3 & s4 & -> & Er & Hst); try done.
  - unfold alive. by rewrite Hp2, Hid2.
  - congruence.
  - intros i Hin%Hl. rewrite Hl2. lia.
  - cbn [mbind option_bind]. rewrite Er. cbn [mbind option_bind]. do 2 eexists. split; [done|]. by eapply stepped_peers.
Qed.

(** ** The other requests *)

Lemma handleClosed_inv s k sup : inv ∅ s -> st_sups s !! k = Some sup -> exists s', handleClosed k s = Some s' /\ stepped s k sup s'.
Proof.
  intros Hi Hk. unfold handleClosed. rewrite Hk. simpl. destruct (sup_conn sup) as [c|] eqn:Hc; [|eexists; split; [done|]; apply stepped_same; [done|done|apply st_same_refl]].
  assert (forall l, (forall i h, (i, h) ∈ l -> (i, h) ∈ sup_handles sup) -> exists b, all_down l s = Some b) as Hall.
  { induction l as [|[i h] l IH]; intros Hl; simpl; [by eexists|]. destruct (so_handles _ _ _ _ (si_sups _ _ _ Hi k sup Hk) i h) as (d & (x & -> & Hd) & _); [apply Hl; by left|].
    simpl. rewrite Hd. simpl. destruct (d_down d); [|by eexists]. apply IH. intros j h' Hin. apply Hl. by right. }
  destruct (Hall (sup_handles sup)) as [b ->]; [done|]. simpl. destruct b; [|eexists; split; [done|]; apply stepped_same; [done|done|apply st_same_refl]].
  destruct (dropView_inv _ s k sup NoSharedProtocols true None Hi Hk) as (s' & E & Hd). exists s'. split; [done|]. by apply stepped_dropped.
Qed.

Lemma readHeaders_stepped s0 k sup0 s sup c :
  inv ∅ s -> st_sups s !! k = Some sup -> sup_conn sup = Some c -> st_peers s = st_peers s0 -> sup_id sup = sup_id sup0 -> (sup_running sup0 = [] -> sup_running sup = []) ->
  exists s', readHeaders k s = Some s' /\ stepped s0 k sup0 s'.
Proof.
  intros Hi Hk Hc E1 E2 E3. destruct (readHeaders_same s k sup c Hk Hc) as (s' & E & Hs). exists s'. split; [done|]. eapply stepped_peers; [by apply stepped_same|done..].
Qed.

Lemma headerRead_inv s k sup conn bidi x r :
  inv ∅ s -> st_sups s !! k = Some sup -> exists s', headerRead k conn bidi x r s = Some s' /\ stepped s k sup s'.
Proof.
  intros Hi Hk. unfold headerRead. rewrite Hk. simpl. case_decide as Hc; [eexists; split; [done|]; apply stepped_same; [done|done|by destruct r; apply same_sups]|].
  set (f := sup_set_reading _). assert (same s (on_sup k f s)) as H1. { apply same_on. intros sup' Hs'. by split; [..|congruence| |]. }
  assert (inv ∅ (on_sup k f s)) as Hi1 by (by eapply st_inv_same). assert (st_sups (on_sup k f s) !! k = Some (f sup)) as Hk1 by (simpl; by rewrite lookup_alter_eq, Hk).
  destruct r as [sel|e]; [|by eapply readHeaders_stepped]. destruct (sel_family sel =? ControlFamily).
  { destruct (dropView_inv (fun _ => False) (slog (cancel_stream (x, bidi) ControlViolation) (on_sup k f s)) k (f sup) ControlViolation true None) as (s' & -> & Hd); [by apply (st_inv_same _ ∅ (on_sup k f s)); [apply same_sups|]|exact Hk1|].
    exists s'. split; [done|]. by eapply stepped_peers; [apply stepped_dropped|..]. }
  destruct (sup_routes sup !! _) as [[i h]|] eqn:Hr.
  - destruct (so_routes _ _ _ _ (si_sups _ _ _ Hi k sup Hk) _ _ i h Hr) as (Hin & y & Hy & _). destruct (so_handles _ _ _ _ (si_sups _ _ _ Hi k sup Hk) i h Hin) as (d & (y' & Hy' & Hd) & _).
    assert (y' = y) as -> by congruence. destruct (push_evolves h (sel_protocol sel) (x, bidi) y.1) as (f' & Ep & Hev); [by exists d|].
    unfold on_family. change (st_families (on_sup k f s)) with (st_families s). rewrite Hy. simpl. rewrite Ep. simpl.
    eapply (readHeaders_stepped s k sup _ (f sup)); try done. destruct y as [fy aw]. eapply (inv_family _ ∅ ∅ (on_sup k f s) i (fy, aw) (f', aw)); try done. by econstructor.
  - eapply (readHeaders_stepped s k sup _ (f sup)); try done. by apply (st_inv_same _ ∅ (on_sup k f s)); [apply same_sups|].
Qed.

Lemma run_request_inv s k sup r : inv ∅ s -> st_sups s !! k = Some sup -> alive s k sup -> req_ok r -> exists s', run_request keccak256 localID k r s = Some s' /\ stepped s k sup s'.
Proof.
  intros Hi Hk Ha Hr. destruct r as [v result now|conn bidi x r|conn code goAway| |done]; cbn [run_request].
  - destruct (attach_inv s k sup v now Hi Hk Ha Hr) as (res & s' & -> & [A B C]). simpl. eexists. split; [reflexivity|].
    destruct result; [|by split]. split; [by apply (st_inv_same _ ∅ s'); [apply same_sups|]|exact B|exact C].
  - by apply headerRead_inv.
  - rewrite Hk. simpl. case_decide; [|eexists; split; [done|]; apply stepped_same; [done|done|apply st_same_refl]].
    destruct (dropView_inv _ s k sup code goAway None Hi Hk) as (s' & E & Hd). exists s'. split; [done|]. by apply stepped_dropped.
  - by apply handleClosed_inv.
  - destruct (dropView_inv _ s k sup Closing true done Hi Hk) as (s' & E & Hd). exists s'. split; [done|]. by apply stepped_dropped.
Qed.
(** ** Turns of a supervisor *)

(** At the end of a turn nothing taken from the inbox is left to run. *)
Lemma run_tail_inv s k sup : inv ∅ s -> st_sups s !! k = Some sup -> alive s k sup -> sup_running sup = [] -> exists s', run_tail k s = Some s' /\ inv ∅ s'.
Proof.
  intros Hi Hk Ha Hr. unfold run_tail. rewrite Hk. simpl. destruct (sup_conn sup) as [c|] eqn:Hc; [by eexists|]. unfold tryExit. rewrite Hk. simpl.
  destruct (length (sup_inbox sup) =? 0)%nat; [|by eexists]. eexists. split; [done|].
  pose proof (so_idle _ _ _ _ (si_sups _ _ _ Hi k sup Hk) Hc) as (Hinfo & _ & Hh & _). pose proof Hi as [A B C D E F]. unfold alive in Ha.
  split; try done.
  - intros i h d Hd Hdn. destruct (D i h d Hd Hdn) as [?|(j & sup' & Hj & Hsup' & Hin)]; [by left|right]. exists j, sup'. split; [|done]. simpl. apply lookup_delete_Some. split; [|done].
    intros E'. assert (j = k) as -> by congruence. assert (sup' = sup) as -> by congruence. rewrite Hh in Hin. by apply elem_of_nil in Hin.
  - intros id j. simpl. rewrite lookup_delete_Some. intros [_ Hj]. by apply E.
  - intros j sup' Hj. simpl in Hj. destruct (F j sup' Hj) as [O1 O2 O3 O4 O5 O6 O7]. split; try done. unfold alive. simpl. rewrite lookup_delete_Some. intros Hna.
    destruct (decide (st_peers s !! sup_id sup' = Some j)) as [Haj|]; [|by apply O4]. destruct (decide (sup_id sup = sup_id sup')) as [Eid|Hne]; [|by destruct Hna].
    assert (j = k) as -> by congruence. by assert (sup' = sup) as -> by congruence.
Qed.

(** A request, taken off what [drainInbox] took, and the end of the turn. *)
Lemma run_next_inv s k sup :
  inv ∅ s -> st_sups s !! k = Some sup -> alive s k sup -> sup_running sup <> [] -> exists s', run_next keccak256 localID k s = Some s' /\ inv ∅ s'.
Proof.
  intros Hi Hk Ha Hr. unfold run_next. rewrite Hk. simpl. destruct (sup_running sup) as [|r rest] eqn:Er; [done|]. set (f := fun sup : peerSupervisor => _).
  pose proof (so_requests _ _ _ _ (si_sups _ _ _ Hi k sup Hk)) as Hreq. rewrite Er, Forall_app, Forall_cons in Hreq. destruct Hreq as (Hin & Hr0 & Hrest).
  assert (same s (on_sup k f s)) as Hs.
  { apply same_on. intros sup' Hk'. assert (sup' = sup) as -> by congruence. split; try done; [by rewrite Er|]. intros _. simpl. by apply Forall_app. }
  assert (st_sups (on_sup k f s) !! k = Some (f sup)) as Hk1 by (simpl; by rewrite lookup_alter_eq, Hk).
  destruct (run_request_inv (on_sup k f s) k (f sup) r) as (s' & -> & [Hi' (sup' & Hk' & Hid & Hrun) Hp]); [by eapply st_inv_same|done|done|done|]. simpl.
  destruct (length rest =? 0)%nat eqn:El; [|by eexists]. apply Nat.eqb_eq, length_zero_iff_nil in El. subst rest.
  apply (run_tail_inv s' k sup'); [done|done|unfold alive; by rewrite Hp, Hid|by apply Hrun].
Qed.

Lemma run_wake_inv s k sup :
  inv ∅ s -> st_sups s !! k = Some sup -> alive s k sup -> sup_running sup = [] -> sup_wake sup = true -> exists s', run_wake k s = Some s' /\ inv ∅ s'.
Proof.
  intros Hi Hk Ha Hr Hw. unfold run_wake. rewrite Hk. simpl. rewrite Hw. unfold drainInbox. rewrite on_sup_twice. set (f := fun sup : peerSupervisor => _).
  assert (st_sups (on_sup k f s) !! k = Some (f sup)) as Hk1 by (simpl; by rewrite lookup_alter_eq, Hk).
  assert (inv ∅ (on_sup k f s)) as Hi1.
  { pose proof (si_sups _ _ _ Hi k sup Hk) as [O1 O2 O3 O4 O5 O6 O7]. eapply (inv_sup _ ∅ ∅ s k sup); [done|done|done| |].
    - split; try done. simpl. rewrite Hr in *. by rewrite app_nil_r in O7.
    - intros i h d _ _ [?|[? ?]]; [set_solver|by right]. }
  destruct (length (sup_inbox sup) =? 0)%nat eqn:El; [|by eexists]. apply Nat.eqb_eq, length_zero_iff_nil in El.
  apply (run_tail_inv _ k (f sup)); [done|done|done|]. simpl. by rewrite Hr, El.
Qed.

Lemma run_streams_inv s k sup c :
  inv ∅ s -> st_sups s !! k = Some sup -> alive s k sup -> sup_running sup = [] -> sup_conn sup = Some c -> exists s', run_streams k s = Some s' /\ inv ∅ s'.
Proof.
  intros Hi Hk Ha Hr Hc. unfold run_streams. destruct (readHeaders_same s k sup c Hk Hc) as (s' & -> & Hs). simpl. destruct (same_sup _ _ _ _ Hs Hk) as (sup' & Hk' & Hss).
  apply (run_tail_inv s' k sup'); [by eapply st_inv_same|done|unfold alive; by rewrite (sm_peers _ _ Hs), (ss_id _ _ Hss)|by apply Hss].
Qed.

Lemma run_done_inv s k sup code :
  inv ∅ s -> st_sups s !! k = Some sup -> alive s k sup -> sup_running sup = [] -> exists s', run_done k code s = Some s' /\ inv ∅ s'.
Proof.
  intros Hi Hk Ha Hr. unfold run_done. destruct (dropView_inv _ s k sup code false None Hi Hk) as (s' & -> & Hd). simpl.
  destruct (stepped_dropped _ _ _ _ Hd) as [Hi' (sup' & Hk' & Hid & Hrun) Hp]. apply (run_tail_inv s' k sup'); [done|done|unfold alive; by rewrite Hp, Hid|by apply Hrun].
Qed.

(** ** The other goroutines *)

Lemma sup_post_same r sup : req_ok r -> sup_same sup (sup_post r sup).
Proof. intros Hr. split; try done. simpl. rewrite !Forall_app, Forall_singleton. intros [? ?]. by repeat split. Qed.

Lemma post_same k r s : req_ok r -> same s (post k r s).2.
Proof.
  intros Hr. unfold post. destruct (st_sups s !! k) as [sup|] eqn:Hk; [|apply st_same_refl]. case_decide; [|apply st_same_refl]. apply same_on. intros sup' _. by apply sup_post_same.
Qed.

Lemma finish_read_same i r s s' : finish_read i r s = Some s' -> same s s'.
Proof.
  unfold finish_read. destruct (st_reads s !! i) as [[[k conn] x]|]; [|done]. simpl. set (s0 := slog _ _). pose proof (post_same k (ReqHeaderRead conn x.2 x.1 r) s0 I) as H.
  destruct (post _ _ s0) as [ok s1]. simpl in *. intros [= <-]. apply (same_trans _ s0); [by apply same_sups|]. apply (same_trans _ s1); [done|]. destruct (_ && _); by apply same_sups.
Qed.

Lemma finish_release_same i a b s s' : finish_release i a b s = Some s' -> same s s'.
Proof.
  unfold finish_release. destruct (st_releasing s !! i) as [t|]; [|done]. simpl. intros [= <-]. destruct (_ && _), (rl_done t); by apply same_sups.
Qed.

Lemma Stack_attach_inv v result now s : inv ∅ s -> families_ok (ph_families (v_hello v)) -> inv ∅ (Stack_attach v result now s).2.
Proof.
  intros Hi Hok. unfold Stack_attach. destruct (st_closed s); [done|]. destruct (st_peers s !! v_peer v) as [k|] eqn:Hp.
  { simpl. eapply st_inv_same; [|done]. apply same_on. intros sup _. by apply sup_post_same. }
  simpl. eapply st_inv_same; [apply same_on; intros sup _; by apply sup_post_same|]. set (k := st_fresh s).
  assert (st_sups s !! k = None) as Hk. { destruct (st_sups s !! k) as [sup|] eqn:E; [|done]. pose proof (so_fresh _ _ _ _ (si_sups _ _ _ Hi k sup E)). unfold k in *. lia. }
  destruct Hi as [A B C D E F]. split; try done.
  - intros i h d Hd. simpl. specialize (B i h d Hd). unfold k in *. lia.
  - intros i h d Hd Hdn. destruct (D i h d Hd Hdn) as [?|(j & sup & Hj & Hsup & Hin)]; [by left|right]. exists j, sup. simpl.
    rewrite lookup_insert_ne by congruence. rewrite lookup_insert_ne by congruence. done.
  - intros id j. simpl. rewrite lookup_insert_Some. intros [[<- <-]|[Hne Hj]]; [eexists; by rewrite lookup_insert_eq|]. destruct (E id j Hj) as (sup & Hsup & Hid). exists sup.
    rewrite lookup_insert_ne by congruence. done.
  - intros j sup. simpl. rewrite lookup_insert_Some. intros [[<- <-]|[Hne Hj]].
    + split; simpl; try done; [lia|by intros i h ?%elem_of_nil].
    + destruct (F j sup Hj) as [O1 O2 O3 O4 O5 O6 O7]. split; try done; [simpl; lia|]. unfold alive. simpl. intros Hna. apply O4. unfold alive. intros Ha. apply Hna.
      rewrite lookup_insert_ne; [done|]. congruence.
Qed.

Lemma Peer_Close_inv h code s : inv ∅ s -> is_Some (st_handles s !! h) -> exists s', Peer_Close h code s = Some s' /\ inv ∅ s'.
Proof.
  intros Hi [p Hp]. unfold Peer_Close. rewrite Hp. simpl. destruct (si_handle _ _ _ Hi h p Hp) as (d & x & Hx & Hd). rewrite Hx. simpl.
  destruct (closePeer_evolves h code UnsupportedSelector x.1) as (b & f' & d' & Ec & He & _); [by exists d|]. rewrite Ec. simpl. eexists. split; [reflexivity|].
  set (s1 := with_families _ s). assert (inv ∅ s1) as Hi1. { destruct x as [f aw]. by eapply (inv_family _ ∅ ∅ s _ (f, aw) (f', aw) (LClose h code UnsupportedSelector)); [..|by econstructor| |]. }
  destruct b; [|done]. eapply st_inv_same; [by apply post_same|done].
Qed.

Lemma Disconnect_same id done s : same s (Disconnect id done s).
Proof.
  unfold Disconnect. set (s1 := match st_dials s !! id with Some d => _ | None => _ end). assert (same s s1) as H1 by (unfold s1; destruct (st_dials s !! id) as [d|]; [destruct (da_state d)|]; by apply same_sups).
  destruct (st_peers s1 !! id) as [k|]; [|exact H1]. eapply same_trans; [exact H1|]. apply same_on. intros sup _. by apply sup_post_same.
Qed.

Lemma Stack_Close_same s : same s (Stack_Close s).
Proof.
  unfold Stack_Close. destruct (st_closed s); [apply st_same_refl|]. split; try done. intros k. simpl. rewrite map_lookup_imap. destruct (st_sups s !! k) as [sup|]; simpl; [|done].
  case_decide; [by apply sup_post_same|apply sup_same_refl].
Qed.
End admission.
