(* ===== verification/StackRun.v ===== *)
(** * StackRun: the stack in every interleaving (src/stack.go, src/supervisor.go)

    Runs of the whole stack, and what holds in each of their states: the families
    behave as [Family] assumes, no supervisor gets stuck, and no view and no
    incoming stream is lost. *)

From S2P Require Import Prelude Wire Types CtrlOut Session Rlp Identity Enr Control Family Supervisor StackInv.
Open Scope Z_scope.

#[local] Set Default Proof Using "Type".

(** ** Where a stream handed to a family is *)

Definition holds (f : family) (x : nat) : Prop :=
  (exists h d p b, fm_peers f !! h = Some d /\ (p, (x, b)) ∈ d_streams d) \/ exists c, FxStreamEnd x (Some c) ∈ fm_log f.

Lemma holds_set f f' h d' x :
  fm_peers f' = <[h := d']> (fm_peers f) -> fm_log f ⊆ fm_log f' ->
  (forall d p b, fm_peers f !! h = Some d -> (p, (x, b)) ∈ d_streams d -> (p, (x, b)) ∈ d_streams d' \/ exists c, FxStreamEnd x (Some c) ∈ fm_log f') ->
  holds f x -> holds f' x.
Proof.
  intros Ep El Hd [(g & d & p & b & Hg & Hin)|[c Hc]]; [|right; exists c; by apply El]. destruct (decide (g = h)) as [->|Hne].
  - destruct (Hd d p b Hg Hin) as [H|H]; [left|by right]. exists h, d', p, b. rewrite Ep, lookup_insert_eq. done.
  - left. exists g, d, p, b. rewrite Ep, lookup_insert_ne by done. done.
Qed.

Lemma holds_log f l x : holds f x -> holds (log_fx l f) x.
Proof. intros [?|[c Hc]]; [by left|right]. exists c. simpl. apply elem_of_app. by left. Qed.

Lemma push_holds h p x b f f' : push h p (x, b) f = Some f' -> holds f' x /\ forall y, holds f y -> holds f' y.
Proof.
  unfold push. destruct (fm_peers f !! h) as [d|] eqn:Hd; [|done]. simpl.
  assert (forall c, holds (log_fx (cancelReceived (x, b) c) f) x) as Hres by (intros c; right; exists c; simpl; apply elem_of_app; right; by left).
  destruct (d_down d); [intros [= <-]; split; [apply Hres|intros; by apply holds_log]|]. destruct (_ >=? _); [intros [= <-]; split; [apply Hres|intros; by apply holds_log]|].
  intros [= <-]. match goal with |- context [schedule h ?d1 f] => destruct (schedule_spec f h d1) as (_ & Ep & El & _) end. split.
  - left. exists h. eexists _, p, b. rewrite Ep, lookup_insert_eq. split; [done|]. simpl. apply elem_of_app. right. by left.
  - intros y. eapply holds_set; [exact Ep|by rewrite El|]. intros d0 q c Hd0 Hin. left. simpl. apply elem_of_app. left. congruence.
Qed.

Lemma closePeer_holds h c r f b f' : closePeer h c r f = Some (b, f') -> forall y, holds f y -> holds f' y.
Proof.
  unfold closePeer. destruct (fm_peers f !! h) as [d|] eqn:Hd; [|done]. simpl. destruct (d_down d); [by intros [= <- <-]|]. intros [= <- <-] y.
  match goal with |- _ -> holds (log_fx ?l ?g) y => set (fx := l); set (f1 := g) end.
  assert (exists d', fm_peers (log_fx fx f1) = <[h := d']> (fm_peers f) /\ fm_log (log_fx fx f1) = fm_log f ++ fx) as (d' & Ep & El).
  { unfold f1, schedule. destruct (d_up d), (d_ready d); simpl; by eexists. }
  eapply holds_set; [exact Ep|rewrite El; set_solver|]. intros d0 p q Hd0 Hin. right. exists r. rewrite El. apply elem_of_app. right. apply list_elem_of_bind.
  exists (p, (y, q)). split; [by left|congruence].
Qed.

Lemma Next_holds f ev f' : Next f = Some (ev, f') -> forall y, holds f y -> holds f' y \/ exists h p b, ev = Some (EvStreamIn h p (y, b)).
Proof.
  unfold Next. destruct (fm_ready f) as [|h rest]; [intros [= <- <-]; by left|]. destruct (fm_peers f !! h) as [d|] eqn:Hd; [|done]. simpl. intros E y Hy.
  assert (fm_log f' = fm_log f /\ exists d', fm_peers f' = <[h := d']> (fm_peers f) /\ (d_streams d' = d_streams d \/ exists p s, d_streams d = (p, s) :: d_streams d' /\ ev = Some (EvStreamIn h p s)))
    as (El & d' & Ep & Hs).
  { destruct (d_up d); simpl in E; [destruct (d_streams d) as [|[p x] l] eqn:Hs|]; injection E as <- <-; split; try (by repeat case_match); repeat case_match;
      eexists; (split; [reflexivity|]); simpl; rewrite ?Hs; eauto. }
  destruct Hy as [(g & d0 & q & b & Hg & Hin)|[c Hc]]; [|left; right; exists c; by rewrite El]. destruct (decide (g = h)) as [->|Hne].
  - assert (d0 = d) as -> by congruence. destruct Hs as [Hs|(p & x & Hs & ->)].
    + left. left. exists h, d', q, b. rewrite Ep, lookup_insert_eq, Hs. done.
    + rewrite Hs in Hin. apply elem_of_cons in Hin as [[= <- <-]|Hin]; [right; eauto|]. left. left. exists h, d', q, b. rewrite Ep, lookup_insert_eq. done.
  - left. left. exists g, d0, q, b. rewrite Ep, lookup_insert_ne by done. done.
Qed.

Lemma addPeer_holds h id f : fm_peers f !! h = None -> forall y, holds f y -> holds (addPeer h id f) y.
Proof.
  intros Hn y. unfold addPeer. match goal with |- context [schedule h ?d1 f] => destruct (schedule_spec f h d1) as (_ & Ep & El & _) end.
  eapply holds_set; [exact Ep|by rewrite El|]. intros d p b Hd. congruence.
Qed.

(** ** Where a view and a stream are *)

Section places.
Context {SC : Secp256k1}.
Implicit Types (s : stack) (sup : peerSupervisor).

Definition requests sup : list request := sup_inbox sup ++ sup_running sup.

(** A supervisor that runs has [r] before it. *)
Definition pending s (r : request) : Prop := exists k sup, st_sups s !! k = Some sup /\ alive s k sup /\ r ∈ requests sup.

Definition in_family s (x : nat) : Prop := exists i y, st_families s !! i = Some y /\ holds y.1 x.

(** Waiting for admission, admitted, being released or released. *)
Definition view_at s (c : nat) : Prop :=
  (exists v res now, v_conn v = c /\ pending s (ReqAttach v res now)) \/ (exists k sup, st_sups s !! k = Some sup /\ sup_conn sup = Some c) \/
  (exists t, t ∈ st_releasing s /\ rl_conn t = c) \/ exists code g, SxReleased c code g ∈ st_log s.

(** In transport's queue, its header being read or read, with a family, or reset. *)
Definition stream_at s (x : nat) : Prop :=
  (exists c q, st_queues s !! c = Some q /\ (x ∈ q.1 \/ x ∈ q.2)) \/ (exists k c b, (k, c, (x, b)) ∈ st_reads s) \/
  (exists c b sel, pending s (ReqHeaderRead c b x (Ok sel))) \/ in_family s x \/ exists code, SxStream (FxStreamEnd x (Some code)) ∈ st_log s.

Record keeps s s' : Prop := { kp_view : forall c, view_at s c -> view_at s' c; kp_stream : forall x, stream_at s x -> stream_at s' x }.

Lemma keeps_refl s : keeps s s.
Proof. by split. Qed.
Lemma st_keeps_trans s1 s2 s3 : keeps s1 s2 -> keeps s2 s3 -> keeps s1 s3.
Proof. intros [A B] [C D]. split; auto. Qed.

Lemma keeps_grow s s' :
  (forall r, pending s r -> pending s' r) -> (forall k sup c, st_sups s !! k = Some sup -> sup_conn sup = Some c -> view_at s' c) ->
  st_releasing s ⊆ st_releasing s' -> st_log s ⊆ st_log s' -> st_reads s ⊆ st_reads s' -> st_queues s' = st_queues s -> (forall x, in_family s x -> in_family s' x) -> keeps s s'.
Proof.
  intros Hp Hc Hr Hl Hrd Hq Hf. split.
  - intros c [(v & res & now & <- & H)|[(k & sup & Hk & Hs)|[(t & Ht & <-)|(code & g & H)]]].
    + left. exists v, res, now. auto.
    + by eapply Hc.
    + right. right. left. exists t. auto.
    + right. right. right. exists code, g. auto.
  - intros x [H|[(k & c & b & H)|[(c & b & sel & H)|[H|[code H]]]]]; unfold stream_at; rewrite Hq; [by left|right; left; eauto|right; right; left; eauto 6|right; right; right; left; auto|].
    right. right. right. right. eauto.
Qed.

(** Changes of one supervisor that drop neither a request nor its view. *)
Lemma pending_on s k f r :
  (forall sup, st_sups s !! k = Some sup -> sup_id (f sup) = sup_id sup /\ requests sup ⊆ requests (f sup)) -> pending s r -> pending (on_sup k f s) r.
Proof.
  intros Hf (j & sup & Hj & Ha & Hr). destruct (decide (j = k)) as [->|Hne].
  - destruct (Hf sup Hj) as [Hid Hsub]. exists k, (f sup). simpl. rewrite lookup_alter_eq, Hj. split; [done|]. split; [unfold alive; by rewrite Hid|auto].
  - exists j, sup. simpl. by rewrite lookup_alter_ne.
Qed.

Lemma keeps_on s k f :
  (forall sup, st_sups s !! k = Some sup -> sup_id (f sup) = sup_id sup /\ requests sup ⊆ requests (f sup) /\ (sup_conn sup <> None -> sup_conn (f sup) = sup_conn sup)) ->
  keeps s (on_sup k f s).
Proof.
  intros Hf. apply keeps_grow; try done.
  - intros r. apply pending_on. intros sup Hk. destruct (Hf sup Hk) as (? & ? & _). done.
  - intros j sup c Hj Hc. right. left. destruct (decide (j = k)) as [->|Hne].
    + exists k, (f sup). simpl. rewrite lookup_alter_eq, Hj. destruct (Hf sup Hj) as (_ & _ & H). rewrite H by congruence. done.
    + exists j, sup. simpl. by rewrite lookup_alter_ne.
Qed.

(** Only the tables that places do not mention, or that only grow. *)
Lemma keeps_sups s s' :
  st_sups s' = st_sups s -> st_peers s' = st_peers s -> st_releasing s ⊆ st_releasing s' -> st_log s ⊆ st_log s' -> st_reads s' = st_reads s -> st_queues s' = st_queues s ->
  (forall x, in_family s x -> in_family s' x) -> keeps s s'.
Proof.
  intros E1 E2 E3 E4 E5 E6 Hf. apply keeps_grow; try done.
  - intros r. unfold pending, alive. by rewrite E1, E2.
  - intros k sup c Hk Hc. right. left. exists k, sup. by rewrite E1.
  - by rewrite E5.
Qed.

Lemma in_family_insert s i x y z : st_families s !! i = Some x -> (holds x.1 z -> holds y.1 z) -> in_family s z -> in_family (with_families (<[i := y]> (st_families s)) s) z.
Proof.
  intros Hx Hy (j & w & Hw & Hz). destruct (decide (j = i)) as [->|Hne].
  - assert (w = x) as -> by congruence. exists i, y. split; [simpl; apply list_lookup_insert_eq; by eapply lookup_lt_Some|auto].
  - exists j, w. simpl. by rewrite list_lookup_insert_ne.
Qed.

(** ** Ending and adding handles *)

Lemma close_handles_only c : forall handles s s', close_handles handles c s = Some s' -> s' = with_families (st_families s') s /\ forall x, in_family s x -> in_family s' x.
Proof.
  induction handles as [|[i h] handles IH]; intros s s'; simpl; [intros [= <-]; split; [by destruct s|done]|]. unfold on_family.
  destruct (st_families s !! i) as [x|] eqn:Hx; [|done]. simpl. destruct (closePeer h c Closing x.1) as [[b f']|] eqn:Ec; [|done]. simpl. intros H%IH. destruct H as [E Hf].
  split; [by rewrite E|]. intros y Hy. apply Hf. eapply in_family_insert; [done| |done]. by eapply closePeer_holds.
Qed.

Lemma dropView_keeps k c goAway done s s' : dropView k c goAway done s = Some s' -> keeps s s'.
Proof.
  unfold dropView. destruct (st_sups s !! k) as [sup|] eqn:Hk; [|done]. simpl. destruct (sup_conn sup) as [conn|] eqn:Hc.
  2: { intros [= <-]. destruct done; [|apply keeps_refl]. apply keeps_sups; try done. simpl. set_solver. }
  set (f := sup_view (sup_info sup) None ∅ [] (0, 0)). destruct (close_handles (sup_handles sup) c (on_sup k f s)) as [s2|] eqn:Es; [|done]. simpl. intros [= <-].
  apply close_handles_only in Es as [Es Hfam]. set (g := fun sup : peerSupervisor => _).
  assert (st_sups s2 = alter f k (st_sups s) /\ st_peers s2 = st_peers s /\ st_releasing s2 = st_releasing s /\ st_log s2 = st_log s /\ st_reads s2 = st_reads s /\ st_queues s2 = st_queues s)
    as (E1 & E2 & E3 & E4 & E5 & E6) by (by rewrite Es).
  apply keeps_grow; simpl; rewrite ?E3, ?E4, ?E5, ?E6; try done.
  - intros r Hr. assert (pending s2 r) as Hr2. { destruct (pending_on s k f r) as (j & sup' & Hj & Ha & Hin); [by intros|done|]. exists j, sup'. unfold alive. rewrite E1, E2. done. }
    apply (pending_on s2 k g r); [by intros|done].
  - intros j sup' c' Hj Hc'. destruct (decide (j = k)) as [->|Hne].
    + right. right. left. eexists. split; [simpl; rewrite E3; apply elem_of_app; right; by left|]. simpl. congruence.
    + right. left. exists j, sup'. simpl. rewrite lookup_alter_ne by done. rewrite E1, lookup_alter_ne by done. done.
  - set_solver.
Qed.
(** ** Header reads *)

(** The first stream of a queue becomes a header read. *)
Lemma take_stream_keeps k conn (bidi : bool) x rest s :
  let q := default ([], []) (st_queues s !! conn) in
  (if bidi then q.2 else q.1) = x :: rest ->
  keeps s (with_reads (st_reads s ++ [(k, conn, (x, bidi))]) (<[conn := if bidi then (q.1, rest) else (rest, q.2)]> (st_queues s)) s).
Proof.
  intros q Hq. set (s' := with_reads _ _ s). split.
  - intros c H. exact H.
  - assert (forall y, (exists k c b, (k, c, (y, b)) ∈ st_reads s') -> stream_at s' y) as Hread by (intros y H; right; by left).
    intros y [(c & q0 & Hc & Hy)|[(k' & c & b & H)|H]]; [|apply Hread; exists k', c, b; simpl; apply elem_of_app; by left|right; by right].
    destruct (decide (c = conn)) as [->|Hne]; [|left; exists c, q0; simpl; rewrite lookup_insert_ne by done; done].
    assert (q = q0) as <- by (unfold q; by rewrite Hc).
    assert (y = x \/ y ∈ (if bidi then (q.1, rest) else (rest, q.2)).1 \/ y ∈ (if bidi then (q.1, rest) else (rest, q.2)).2) as [->|H].
    { destruct bidi; simpl; rewrite Hq, elem_of_cons in Hy; intuition. }
    + apply Hread. exists k, conn, bidi. simpl. apply elem_of_app. right. by left.
    + left. exists conn. eexists. split; [apply lookup_insert_eq|done].
Qed.

Lemma read_direction_keeps slots k conn bidi : forall s, keeps s (read_direction slots k conn bidi s).
Proof.
  induction slots as [|slots IH]; intros s; cbn [read_direction]; [apply keeps_refl|]. destruct (if bidi then _ else _) as [|x rest] eqn:Hq; [apply keeps_refl|].
  eapply st_keeps_trans; [by apply (take_stream_keeps k conn bidi x rest s)|]. eapply st_keeps_trans; [|apply IH]. by apply keeps_on.
Qed.

Lemma readHeaders_keeps k s s' : readHeaders k s = Some s' -> keeps s s'.
Proof.
  unfold readHeaders. destruct (st_sups s !! k) as [sup|]; [|done]. simpl. destruct (sup_conn sup) as [conn|]; [|done]. simpl. set (s1 := read_direction _ _ _ _ s).
  destruct (st_sups s1 !! k) as [sup1|]; [|done]. simpl. intros [= <-]. eapply st_keeps_trans; apply read_direction_keeps.
Qed.

(** ** Admission *)

Lemma add_handles_keeps k conn id : forall l routes hs s routes' hs' s',
  (forall i x, st_families s !! i = Some x -> forall h, (st_fresh s <= h)%nat -> fm_peers x.1 !! h = None) ->
  add_handles k conn id l routes hs s = Some (routes', hs', s') -> keeps s s' /\ st_sups s' = st_sups s.
Proof.
  induction l as [|i l IH]; intros routes hs s routes' hs' s' Hfresh; cbn [add_handles]; [intros [= <- <- <-]; split; [apply keeps_refl|done]|].
  cbn [new_handle]. unfold on_family. cbn [st_families]. destruct (st_families s !! i) as [x|] eqn:Hx; [|done]. cbn [mbind option_bind].
  match goal with |- (letp z := st_families ?g !! i in _) = _ -> _ => set (s1 := g) end. destruct (st_families s1 !! i) as [z|]; [|done]. cbn [mbind option_bind]. intros H. apply IH in H as [Hk Hs].
  - split; [|by rewrite Hs]. eapply st_keeps_trans; [|exact Hk]. apply keeps_sups; try done. intros y Hy.
    apply (in_family_insert s i x (addPeer (st_fresh s) id x.1, x.2) y Hx); [|done]. apply addPeer_holds. by apply (Hfresh i x Hx).
  - intros j w Hw h Hh. simpl in Hw, Hh. destruct (decide (j = i)) as [->|Hne].
    + rewrite list_lookup_insert_eq in Hw by (by eapply lookup_lt_Some). injection Hw as <-. cbn [fst]. destruct (addPeer_spec (st_fresh s) id x.1) as (d & -> & _).
      rewrite lookup_insert_ne by lia. apply (Hfresh i x Hx). lia.
    + rewrite list_lookup_insert_ne in Hw by done. apply (Hfresh j w Hw). lia.
Qed.

Lemma reject_keeps v code s : keeps s (reject v code s) /\ view_at (reject v code s) (v_conn v).
Proof.
  split; [apply keeps_sups; try done; simpl; set_solver|]. right. right. left. eexists. split; [simpl; apply elem_of_app; right; by left|done].
Qed.
Lemma handleClosed_keeps k s s' : handleClosed k s = Some s' -> keeps s s'.
Proof.
  unfold handleClosed. destruct (st_sups s !! k) as [sup|]; [|done]. simpl. destruct (sup_conn sup); [|intros [= <-]; apply keeps_refl].
  destruct (all_down _ _) as [[]|]; [| |done]; simpl; [apply dropView_keeps|intros [= <-]; apply keeps_refl].
Qed.

Lemma reset_stream s x b code : stream_at (slog (cancel_stream (x, b) code) s) x.
Proof. right. right. right. right. exists code. simpl. apply elem_of_app. right. by left. Qed.

Lemma slog_keeps s l : keeps s (slog l s).
Proof. apply keeps_sups; try done. simpl. set_solver. Qed.

End places.

Section admission_keeps.
Context {SC : Secp256k1} {PW : Protowire} (keccak256 : bytes -> bytes) (localID : PeerID).
Implicit Types (s : stack) (sup : peerSupervisor).

Lemma commit_view_keeps k v now rec s info s' : commit_view k v now rec s = Some (info, s') -> keeps s s'.
Proof.
  unfold commit_view. destruct (st_sups s !! k) as [sup|]; [|done]. simpl. intros [= _ <-].
  assert (forall r (s0 : stack), keeps s0 (on_sup k (updateRecord r) s0)) as Hu.
  { intros r s0. apply keeps_on. intros sup' _. destruct (updateRecord_spec r sup') as [r' ->]. done. }
  eapply st_keeps_trans; [|apply Hu]. match goal with |- keeps s (match st_dials _ !! _ with Some d => _ | None => ?g end) => assert (keeps s g) as H1 end.
  { eapply st_keeps_trans; [|apply keeps_on; by intros]. by apply keeps_sups. }
  destruct (st_dials s !! sup_id sup); [|exact H1]. eapply st_keeps_trans; [exact H1|apply Hu].
Qed.

Lemma fresh_handles K X s : stack_inv K X s -> forall i x, st_families s !! i = Some x -> forall h, (st_fresh s <= h)%nat -> fm_peers x.1 !! h = None.
Proof.
  intros Hi i x Hx h Hh. destruct (fm_peers x.1 !! h) as [d|] eqn:E; [|done]. assert (h < st_fresh s)%nat; [|lia]. apply (si_known _ _ _ Hi i h d). by exists x.
Qed.
(** A view given to [attach] is rejected or installed. *)
Lemma st_attach_keeps s k sup v now r s' :
  stack_inv (fun _ => False) ∅ s -> st_sups s !! k = Some sup -> attach keccak256 localID k v now s = Some (r, s') -> keeps s s' /\ view_at s' (v_conn v).
Proof.
  intros Hi Hk. unfold attach. rewrite Hk. cbn [mbind option_bind]. destruct (helloRecord _ _ _) as [[rec|]|]; cbn [mbind option_bind]; [|intros [= <- <-]; apply reject_keeps|done].
  destruct (shared_families _ _ _) as [l|]; [|done]. cbn [mbind option_bind]. destruct (length l =? 0)%nat; [intros [= <- <-]; apply reject_keeps|].
  destruct (st_closed s); [intros [= <- <-]; apply reject_keeps|]. destruct (v_outbound v && _); [intros [= <- <-]; apply reject_keeps|].
  destruct (match sup_conn sup with Some _ => _ | None => _ end) as [dup|] eqn:Ed; [|done]. cbn [mbind option_bind]. destruct dup; [intros [= <- <-]; apply reject_keeps|].
  destruct (commit_view_inv s k sup v now rec Hi Hk) as (info & s1 & sup1 & Ec & _ & Hi1 & Hk1 & _ & Hc1 & _). rewrite Ec. cbn [mbind option_bind fst snd].
  destruct (match sup_conn sup with Some _ => dropView _ _ _ _ _ | None => _ end) as [s2|] eqn:Es2; [|done]. cbn [mbind option_bind].
  assert (keeps s1 s2 /\ exists sup2, st_sups s2 !! k = Some sup2 /\ sup_conn sup2 = None /\ stack_inv (eq k) ∅ s2) as (K12 & sup2 & Hk2 & Hc2 & Hi2).
  { destruct (sup_conn sup) eqn:Hc; [|injection Es2 as <-; split; [apply keeps_refl|by exists sup1]].
    destruct (dropView_inv (eq k) s1 k sup1 Duplicate true None Hi1 Hk1) as (s2' & Es2' & [A (sup2 & B & _ & C & _) _ _ _]). assert (s2' = s2) as -> by congruence.
    split; [by eapply dropView_keeps|by exists sup2]. }
  destruct (add_handles _ _ _ _ _ _ s2) as [[[routes handles] s3]|] eqn:Ea; [|done]. cbn [mbind option_bind].
  destruct (add_handles_keeps k (v_conn v) (sup_id sup) l ∅ [] s2 routes handles s3 (fresh_handles _ _ _ Hi2) Ea) as [K23 E3].
  set (f := fun sup : peerSupervisor => sup_view (Some info) (Some (v_conn v)) routes handles (sup_reading sup) sup).
  destruct (readHeaders k (on_sup k f s3)) as [s4|] eqn:Er; [|done]. cbn [mbind option_bind]. intros [= <- <-]. apply readHeaders_keeps in Er.
  assert (st_sups s3 !! k = Some sup2) as Hk3 by (by rewrite E3).
  assert (keeps s3 (on_sup k f s3)) as K3. { apply keeps_on. intros sup' Hk'. assert (sup' = sup2) as -> by congruence. done. }
  split.
  - apply (st_keeps_trans _ s1); [by eapply commit_view_keeps|]. apply (st_keeps_trans _ s2); [done|]. apply (st_keeps_trans _ s3); [done|]. by apply (st_keeps_trans _ (on_sup k f s3)).
  - apply Er. right. left. exists k, (f sup2). simpl. by rewrite lookup_alter_eq, Hk3.
Qed.

(** A stream whose header was read reaches its family or is reset. *)
Lemma headerRead_keeps k conn bidi x r s s' :
  headerRead k conn bidi x r s = Some s' -> keeps s s' /\ ((exists sel, r = Ok sel) -> stream_at s' x).
Proof.
  unfold headerRead. destruct (st_sups s !! k) as [sup|] eqn:Hk; [|done]. simpl. case_decide.
  { destruct r as [sel|e]; intros [= <-]; (split; [first [apply slog_keeps|apply keeps_refl]|]); [intros _; apply reset_stream|by intros [sel ?]]. }
  set (f := sup_set_reading _). assert (keeps s (on_sup k f s)) as K1 by (by apply keeps_on).
  destruct r as [sel|e]; [|intros Er%readHeaders_keeps; split; [by eapply st_keeps_trans|by intros [sel ?]]].
  assert (forall c s0, stream_at (slog (cancel_stream (x, bidi) c) s0) x /\ (keeps s s0 -> keeps s (slog (cancel_stream (x, bidi) c) s0))) as Hcut.
  { intros c s0. split; [apply reset_stream|]. intros H0. eapply st_keeps_trans; [done|apply slog_keeps]. }
  destruct (sel_family sel =? ControlFamily).
  { intros Ed%dropView_keeps. destruct (Hcut ControlViolation (on_sup k f s)) as [A B]. split; [eapply st_keeps_trans; [by apply B|done]|intros _; by apply Ed]. }
  destruct (sup_routes sup !! _) as [[i h]|].
  - unfold on_family. change (st_families (on_sup k f s)) with (st_families s). destruct (st_families s !! i) as [y|] eqn:Hy; [|done]. simpl.
    destruct (push h (sel_protocol sel) (x, bidi) y.1) as [f'|] eqn:Ep; [|done]. simpl. apply push_holds in Ep as [Hx Hm]. intros Er%readHeaders_keeps.
    set (s1 := with_families _ _) in *. assert (keeps (on_sup k f s) s1) as K2. { apply keeps_sups; try done. intros z. apply (in_family_insert (on_sup k f s) i y); [done|apply Hm]. }
    split; [eapply st_keeps_trans; [exact K1|]; by eapply st_keeps_trans|]. intros _. apply Er. right. right. right. left. exists i, (f', y.2). split; [|done]. simpl. apply list_lookup_insert_eq. by eapply lookup_lt_Some.
  - intros Er%readHeaders_keeps. destruct (Hcut UnsupportedSelector (on_sup k f s)) as [A B]. split; [eapply st_keeps_trans; [by apply B|done]|intros _; by apply Er].
Qed.

(** What a request was about has its place when it has run. *)
Lemma run_request_keeps s k sup r s' :
  stack_inv (fun _ => False) ∅ s -> st_sups s !! k = Some sup -> run_request keccak256 localID k r s = Some s' ->
  keeps s s' /\ match r with ReqAttach v _ _ => view_at s' (v_conn v) | ReqHeaderRead _ _ x (Ok _) => stream_at s' x | _ => True end.
Proof.
  intros Hi Hk. destruct r as [v result now|conn bidi x r|conn code goAway| |done]; cbn [run_request].
  - destruct (attach keccak256 localID k v now s) as [[res s1]|] eqn:Ea; [|done]. cbn [mbind option_bind fst snd]. destruct (st_attach_keeps s k sup v now res s1 Hi Hk Ea) as [A B].
    intros [= <-]. destruct result; [|done]. split; [eapply st_keeps_trans; [done|apply slog_keeps]|by apply slog_keeps].
  - intros [A B]%headerRead_keeps. split; [done|]. destruct r; [by apply B; eexists|done].
  - rewrite Hk. simpl. case_decide; [intros E%dropView_keeps; done|intros [= <-]; split; [apply keeps_refl|done]].
  - intros E%handleClosed_keeps. done.
  - intros E%dropView_keeps. done.
Qed.
(** ** Turns and other goroutines *)

Lemma run_tail_keeps s k sup s' : st_sups s !! k = Some sup -> alive s k sup -> sup_running sup = [] -> run_tail k s = Some s' -> keeps s s'.
Proof.
  intros Hk Ha Hr. unfold run_tail. rewrite Hk. simpl. destruct (sup_conn sup) as [c|] eqn:Hc; [intros [= <-]; apply keeps_refl|]. unfold tryExit. rewrite Hk. simpl.
  destruct (length (sup_inbox sup) =? 0)%nat eqn:El; [|intros [= <-]; apply keeps_refl]. apply Nat.eqb_eq, length_zero_iff_nil in El. intros [= <-]. apply keeps_grow; try done.
  - intros r (j & sup' & Hj & Ha' & Hin). exists j, sup'. split; [done|]. split; [|done]. unfold alive in *. simpl. rewrite lookup_delete_ne; [done|]. intros E.
    assert (j = k) as -> by congruence. assert (sup' = sup) as -> by congruence. unfold requests in Hin. rewrite El, Hr in Hin. by apply elem_of_nil in Hin.
  - intros j sup' c Hj Hc'. right. left. by exists j, sup'.
Qed.

Lemma run_next_keeps s k sup s' :
  stack_inv (fun _ => False) ∅ s -> st_sups s !! k = Some sup -> alive s k sup -> run_next keccak256 localID k s = Some s' -> keeps s s'.
Proof.
  intros Hi Hk Ha. unfold run_next. rewrite Hk. simpl. destruct (sup_running sup) as [|r rest] eqn:Er; [done|]. set (f := fun sup : peerSupervisor => _). set (s0 := on_sup k f s).
  assert (same s s0) as Hs.
  { apply same_on. intros sup' Hk'. assert (sup' = sup) as -> by congruence. split; try done; [by rewrite Er|]. simpl. rewrite Er, !Forall_app, Forall_cons. intros (? & _ & ?). done. }
  assert (inv_s0 : stack_inv (fun _ => False) ∅ s0) by (by eapply st_inv_same).
  assert (st_sups s0 !! k = Some (f sup)) as Hk0 by (unfold s0; simpl; by rewrite lookup_alter_eq, Hk).
  assert (forall r', pending s r' -> pending s0 r' \/ r' = r) as Hpop.
  { intros r' (j & sup' & Hj & Ha' & Hin). destruct (decide (j = k)) as [->|Hne]; [|left; exists j, sup'; unfold s0; simpl; by rewrite lookup_alter_ne].
    assert (sup' = sup) as -> by congruence. unfold requests in Hin. rewrite Er in Hin. rewrite elem_of_app, elem_of_cons in Hin.
    assert (r' ∈ requests (f sup) -> pending s0 r') as Hp by (intros; by exists k, (f sup)). unfold requests in Hp. simpl in Hp. rewrite elem_of_app in Hp.
    destruct Hin as [?|[?|?]]; [left; auto|by right|left; auto]. }
  destruct (run_request keccak256 localID k r s0) as [s1|] eqn:E1; [|done]. simpl. destruct (run_request_keeps s0 k (f sup) r s1 inv_s0 Hk0 E1) as [K1 Hplace].
  assert (keeps s s1) as K.
  { split.
    - intros c [(v & res & now & <- & Hp)|H]; [|apply K1; right; destruct H as [(j & sup' & Hj & Hc)|H]; [left|right; exact H]].
      + destruct (Hpop _ Hp) as [Hp0|<-]; [apply K1; left; eauto|exact Hplace].
      + destruct (decide (j = k)) as [->|Hne]; [exists k, (f sup); split; [done|]; simpl; congruence|exists j, sup'; unfold s0; simpl; by rewrite lookup_alter_ne].
    - intros x [H|[H|[(c & b & sel & Hp)|H]]]; [apply K1; by left|apply K1; right; by left| |apply K1; right; right; by right].
      destruct (Hpop _ Hp) as [Hp0|<-]; [apply K1; right; right; left; eauto|exact Hplace]. }
  destruct (length rest =? 0)%nat eqn:El; [|by intros [= <-]]. apply Nat.eqb_eq, length_zero_iff_nil in El. subst rest. intros Et.
  pose proof (si_sups _ _ _ Hi k sup Hk) as Ho. pose proof (so_requests _ _ _ _ Ho) as Hreq. rewrite Er, Forall_app, Forall_cons in Hreq. destruct Hreq as (_ & Hr0 & _).
  destruct (run_request_inv keccak256 localID s0 k (f sup) r inv_s0 Hk0 Ha Hr0) as (s1' & E1' & [_ (sup1 & Hk1 & Hid & Hrun) Hp]). assert (s1' = s1) as -> by congruence.
  eapply st_keeps_trans; [exact K|]. eapply (run_tail_keeps s1 k sup1); [done|unfold alive; by rewrite Hp, Hid|by apply Hrun|done].
Qed.
End admission_keeps.

Section others.
Context {SC : Secp256k1}.
Implicit Types (s : stack) (sup : peerSupervisor).

Lemma run_wake_keeps s k sup s' : st_sups s !! k = Some sup -> alive s k sup -> sup_running sup = [] -> run_wake k s = Some s' -> keeps s s'.
Proof.
  intros Hk Ha Hr. unfold run_wake. rewrite Hk. simpl. destruct (sup_wake sup); [|done]. unfold drainInbox. rewrite on_sup_twice. set (f := fun sup : peerSupervisor => _).
  assert (keeps s (on_sup k f s)) as K.
  { apply keeps_on. intros sup' Hk'. assert (sup' = sup) as -> by congruence. split; [done|]. split; [|done]. unfold requests. simpl. rewrite Hr, app_nil_r. done. }
  destruct (length (sup_inbox sup) =? 0)%nat eqn:El; [|by intros [= <-]]. apply Nat.eqb_eq, length_zero_iff_nil in El. intros Et.
  eapply st_keeps_trans; [exact K|]. eapply (run_tail_keeps _ k (f sup)); [simpl; by rewrite lookup_alter_eq, Hk|done|simpl; by rewrite Hr, El|done].
Qed.

Lemma run_streams_keeps s k sup c s' : st_sups s !! k = Some sup -> alive s k sup -> sup_running sup = [] -> sup_conn sup = Some c -> run_streams k s = Some s' -> keeps s s'.
Proof.
  intros Hk Ha Hr Hc. unfold run_streams. destruct (readHeaders_same s k sup c Hk Hc) as (s1 & E1 & Hs). rewrite E1. simpl. destruct (same_sup _ _ _ _ Hs Hk) as (sup' & Hk' & Hss). intros Et.
  eapply st_keeps_trans; [by eapply readHeaders_keeps|]. eapply (run_tail_keeps _ k sup'); [done|unfold alive; by rewrite (sm_peers _ _ Hs), (ss_id _ _ Hss)|by apply Hss|done].
Qed.

Lemma run_done_keeps s k sup code s' :
  stack_inv (fun _ => False) ∅ s -> st_sups s !! k = Some sup -> alive s k sup -> sup_running sup = [] -> run_done k code s = Some s' -> keeps s s'.
Proof.
  intros Hi Hk Ha Hr. unfold run_done. destruct (dropView_inv _ s k sup code false None Hi Hk) as (s1 & E1 & Hd). rewrite E1. simpl.
  destruct (stepped_dropped _ _ _ _ Hd) as [_ (sup' & Hk' & Hid & Hrun) Hp]. intros Et. eapply st_keeps_trans; [by eapply dropView_keeps|].
  eapply (run_tail_keeps _ k sup'); [done|unfold alive; by rewrite Hp, Hid|by apply Hrun|done].
Qed.

Lemma sup_post_grows r sup : requests sup ⊆ requests (sup_post r sup) /\ r ∈ requests (sup_post r sup).
Proof. unfold requests. simpl. split; [intros x; rewrite !elem_of_app; intuition|]. rewrite !elem_of_app. left. right. by left. Qed.

Lemma post_keeps k r s : keeps s (post k r s).2 /\ ((post k r s).1 = true -> pending (post k r s).2 r).
Proof.
  unfold post. destruct (st_sups s !! k) as [sup|] eqn:Hk; [|split; [apply keeps_refl|done]]. case_decide as Ha; [|split; [apply keeps_refl|done]]. simpl. split.
  - apply keeps_on. intros sup' _. split; [done|]. split; [apply sup_post_grows|done].
  - intros _. exists k, (sup_post r sup). simpl. rewrite lookup_alter_eq, Hk. split; [done|]. split; [done|apply sup_post_grows].
Qed.

Lemma elem_delete {A} (l : list A) i x y : l !! i = Some x -> y ∈ l -> y = x \/ y ∈ delete i l.
Proof. intros Hx Hy. rewrite (delete_Permutation l i x Hx), elem_of_cons in Hy. exact Hy. Qed.

(** A header read that failed leaves the stream to the peer's reset or the end of
    the connection, unless [readHeader] reset it. *)
Lemma finish_read_keeps i r s s' k conn x b :
  st_reads s !! i = Some (k, conn, (x, b)) -> finish_read i r s = Some s' ->
  (forall c, view_at s c -> view_at s' c) /\ (forall y, stream_at s y -> stream_at s' y \/ (y = x /\ exists e, r = Err e)).
Proof.
  intros Hi. unfold finish_read. rewrite Hi. simpl. set (s0 := slog _ _). destruct (post_keeps k (ReqHeaderRead conn b x r) s0) as [K Hp]. destruct (post _ _ s0) as [ok s1]. simpl in *.
  intros [= <-]. set (s2 := if _ && _ then _ else s1). assert (keeps s1 s2) as K2 by (unfold s2; destruct (_ && _); [apply slog_keeps|apply keeps_refl]).
  assert (forall c, view_at s c -> view_at s0 c) as Hv.
  { intros c [H|[H|[H|(code & g & H)]]]; [by left|right; by left|right; right; by left|]. right. right. right. exists code, g. simpl. apply elem_of_app. by left. }
  split; [intros c Hc; apply K2, K, Hv, Hc|]. intros y Hy.
  assert (stream_at s0 y \/ y = x) as [H| ->].
  { destruct Hy as [H|[(k' & c & b' & H)|[H|[H|[code H]]]]]; [left; by left| |left; right; right; by left|left; right; right; right; by left|].
    - destruct (elem_delete _ _ _ _ Hi H) as [E|H']; [right; congruence|]. left. right. left. exists k', c, b'. exact H'.
    - left. right. right. right. right. exists code. simpl. apply elem_of_app. by left. }
  - left. apply (kp_stream _ _ K2), (kp_stream _ _ K), H.
  - destruct r as [sel|e]; [left|right; split; [done|by eexists]]. destruct ok; [apply K2; right; right; left; exists conn, b, sel; by apply Hp|]. apply reset_stream.
Qed.

Lemma finish_release_keeps i a b s s' : finish_release i a b s = Some s' -> keeps s s'.
Proof.
  unfold finish_release. destruct (st_releasing s !! i) as [t|] eqn:Ht; [|done]. simpl. intros [= <-].
  match goal with |- keeps s (match rl_done t with Some d => _ | None => ?g end) => set (s2 := g) end.
  assert (st_sups s2 = st_sups s /\ st_peers s2 = st_peers s /\ st_reads s2 = st_reads s /\ st_queues s2 = st_queues s /\ st_families s2 = st_families s /\
    st_log s2 = st_log s ++ [SxReleased (rl_conn t) (rl_code t) (rl_goAway t)] /\ st_releasing s2 = delete i (st_releasing s)) as (E1 & E2 & E3 & E4 & E5 & E6 & E7) by (unfold s2; by destruct (_ && _)).
  assert (keeps s s2) as K; [|destruct (rl_done t); [eapply st_keeps_trans; [exact K|apply slog_keeps]|exact K]].
  assert (forall r, pending s r -> pending s2 r) as Hp by (intros r; unfold pending, alive; by rewrite E1, E2).
  split.
  - intros c [(v & res & now & <- & H)|[H|[(t' & H & <-)|(code & g & H)]]].
    + left. exists v, res, now. auto.
    + right. left. by rewrite E1.
    + destruct (elem_delete _ _ _ _ Ht H) as [->|H']; [|right; right; left; exists t'; by rewrite E7]. right. right. right. exists (rl_code t), (rl_goAway t). rewrite E6. apply elem_of_app. right. by left.
    + right. right. right. exists code, g. rewrite E6. apply elem_of_app. by left.
  - intros x. unfold stream_at, in_family. rewrite E3, E4, E5, E6. intros [H|[H|[(c & b' & sel & H)|[H|[code H]]]]]; [by left|right; by left|right; right; left; eauto 6|right; right; right; by left|].
    right. right. right. right. exists code. apply elem_of_app. by left.
Qed.

Lemma Stack_attach_keeps v result now s :
  (forall k sup, st_sups s !! k = Some sup -> (k < st_fresh s)%nat) -> (forall id k, st_peers s !! id = Some k -> exists sup, st_sups s !! k = Some sup /\ sup_id sup = id) ->
  keeps s (Stack_attach v result now s).2 /\ ((Stack_attach v result now s).1 = true -> view_at (Stack_attach v result now s).2 (v_conn v)).
Proof.
  intros Hf Hp. unfold Stack_attach. destruct (st_closed s); [split; [apply keeps_refl|done]|]. set (r := ReqAttach v result now).
  assert (forall k (s0 : stack), (exists sup, st_sups s0 !! k = Some sup /\ alive s0 k sup) -> keeps s0 (on_sup k (sup_post r) s0) /\ view_at (on_sup k (sup_post r) s0) (v_conn v)) as Hpost.
  { intros k s0 (sup & Hk & Ha). split; [apply keeps_on; intros sup' _; split; [done|]; split; [apply sup_post_grows|done]|]. left. exists v, result, now. split; [done|].
    exists k, (sup_post r sup). simpl. rewrite lookup_alter_eq, Hk. split; [done|]. split; [done|apply sup_post_grows]. }
  destruct (st_peers s !! v_peer v) as [k|] eqn:Ek; simpl.
  - destruct (Hp _ _ Ek) as (sup & Hk & Hid). destruct (Hpost k s) as [A B]; [exists sup; split; [done|unfold alive; by rewrite Hid]|]. done.
  - set (s1 := mk_stack _ _ _ _ _ _ _ _ _ _ _ _ _ _ _). destruct (Hpost (st_fresh s) s1) as [A B].
    { eexists. split; [simpl; apply lookup_insert_eq|]. unfold alive. simpl. apply lookup_insert_eq. }
    split; [|done]. eapply st_keeps_trans; [|exact A]. apply keeps_grow; try done.
    + intros r' (k & sup & Hk & Ha & Hin). exists k, sup. unfold alive in *. pose proof (Hf k sup Hk). simpl. rewrite lookup_insert_ne by lia. split; [done|].
      rewrite lookup_insert_ne by congruence. done.
    + intros k sup c Hk Hc. right. left. exists k, sup. pose proof (Hf k sup Hk). simpl. rewrite lookup_insert_ne by lia. done.
Qed.

Lemma Peer_Close_keeps h code s s' : Peer_Close h code s = Some s' -> keeps s s'.
Proof.
  unfold Peer_Close. destruct (st_handles s !! h) as [p|]; [|done]. simpl. destruct (st_families s !! pr_family p) as [x|] eqn:Hx; [|done]. simpl.
  destruct (closePeer h code UnsupportedSelector x.1) as [[b f']|] eqn:Ec; [|done]. simpl. intros [= <-]. set (s1 := with_families _ s).
  assert (keeps s s1) as K. { apply keeps_sups; try done. intros y. eapply in_family_insert; [done|]. by eapply closePeer_holds. }
  destruct b; [|done]. eapply st_keeps_trans; [exact K|]. apply post_keeps.
Qed.

Lemma Disconnect_keeps id done s : keeps s (Disconnect id done s).
Proof.
  unfold Disconnect. set (s1 := match st_dials s !! id with Some d => _ | None => _ end).
  assert (keeps s s1) as H1 by (unfold s1; destruct (st_dials s !! id) as [d|]; [destruct (da_state d)|]; first [apply keeps_refl|by apply keeps_sups]).
  destruct (st_peers s1 !! id) as [k|]; [|exact H1]. eapply st_keeps_trans; [exact H1|]. apply keeps_on. intros sup _. split; [reflexivity|]. split; [apply sup_post_grows|reflexivity].
Qed.

Lemma Stack_Close_keeps s : keeps s (Stack_Close s).
Proof.
  unfold Stack_Close. destruct (st_closed s); [apply keeps_refl|]. set (s1 := with_dials _ _). set (g := fun k sup => _).
  assert (forall k sup, st_sups s !! k = Some sup -> exists sup', map_imap g (st_sups s) !! k = Some sup' /\ sup_id sup' = sup_id sup /\ sup_conn sup' = sup_conn sup /\ requests sup ⊆ requests sup') as Hg.
  { intros k sup Hk. rewrite map_lookup_imap, Hk. simpl. eexists. split; [done|]. case_decide; [|done]. split; [done|]. split; [done|apply sup_post_grows]. }
  apply keeps_grow; try done.
  - intros r (k & sup & Hk & Ha & Hin). destruct (Hg k sup Hk) as (sup' & Hk' & Hid & _ & Hsub). exists k, sup'. split; [done|]. split; [unfold alive; by rewrite Hid|auto].
  - intros k sup c Hk Hc. destruct (Hg k sup Hk) as (sup' & Hk' & _ & Hc' & _). right. left. exists k, sup'. split; [done|congruence].
Qed.
End others.

(** ** Runs *)

(** What happened: views handed to [Stack_attach], streams transport accepted,
    streams delivered to consumers, and streams whose header read failed. *)
Record history := mk_history { hy_views : list nat; hy_streams : list nat; hy_delivered : list nat; hy_failed : list nat }.

Definition saw_view (c : nat) (y : history) : history := mk_history (hy_views y ++ [c]) (hy_streams y) (hy_delivered y) (hy_failed y).
Definition saw_stream (x : nat) (y : history) : history := mk_history (hy_views y) (hy_streams y ++ [x]) (hy_delivered y) (hy_failed y).
Definition saw_event (ev : option family_event) (y : history) : history :=
  mk_history (hy_views y) (hy_streams y) (hy_delivered y ++ match ev with Some (EvStreamIn _ _ s) => [s.1] | _ => [] end) (hy_failed y).
Definition saw_read (x : nat) (r : result header_err Selector) (y : history) : history :=
  mk_history (hy_views y) (hy_streams y) (hy_delivered y) (hy_failed y ++ match r with Err _ => [x] | Ok _ => [] end).

Section runs.
Context {SC : Secp256k1} {PW : Protowire} (keccak256 : bytes -> bytes) (localID : PeerID) (registered : list (Z * list ProtocolSpec)).
Implicit Types (s : stack) (sup : peerSupervisor).

Definition new_stack : stack :=
  mk_stack false ((fun x => (new_family x.1 x.2, true)) <$> registered) ∅ ∅ ∅ ∅ 0 0 0 ∅ [] ∅ [] 0 [].

(** A view after its handshake: the caller releases it when the stack is closed. *)
Definition handover (v : pendingView) (result : option nat) (now : Z) s : stack :=
  let '(ok, s) := Stack_attach v result now s in if (ok : bool) then s else slog [SxReleased (v_conn v) Closing true] s.

(** Transport queues a stream of a view. *)
Definition arrive (c x : nat) (bidi : bool) s : stack :=
  let q := default ([], []) (st_queues s !! c) in
  with_reads (st_reads s) (<[c := if bidi then (q.1, q.2 ++ [x]) else (q.1 ++ [x], q.2)]> (st_queues s)) s.

(** A supervisor that runs and is in its select. *)
Definition selecting s (k : nat) sup : Prop := st_sups s !! k = Some sup /\ alive s k sup /\ sup_running sup = [].

Inductive stack_run : stack -> history -> Prop :=
| sr_new : stack_run new_stack (mk_history [] [] [] [])
| sr_attach v result now s y : stack_run s y -> families_ok (ph_families (v_hello v)) -> stack_run (handover v result now s) (saw_view (v_conn v) y)
(** the supervisors *)
| sr_wake k sup s s' y : stack_run s y -> selecting s k sup -> run_wake k s = Some s' -> stack_run s' y
| sr_request k sup s s' y : stack_run s y -> st_sups s !! k = Some sup -> alive s k sup -> run_next keccak256 localID k s = Some s' -> stack_run s' y
| sr_streams k sup c s s' y : stack_run s y -> selecting s k sup -> sup_conn sup = Some c -> run_streams k s = Some s' -> stack_run s' y
| sr_done k sup c code s s' y : stack_run s y -> selecting s k sup -> sup_conn sup = Some c -> run_done k code s = Some s' -> stack_run s' y
(** transport and the goroutines of a view *)
| sr_stream c x bidi s y : stack_run s y -> stack_run (arrive c x bidi s) (saw_stream x y)
| sr_read i k c x b r s s' y : stack_run s y -> st_reads s !! i = Some (k, c, (x, b)) -> finish_read i r s = Some s' -> stack_run s' (saw_read x r y)
| sr_goaway k c code goAway s y : stack_run s y -> stack_run (post k (ReqGoAway c code goAway) s).2 y
| sr_release i a b s s' y : stack_run s y -> finish_release i a b s = Some s' -> stack_run s' y
(** consumers *)
| sr_next i f ev f' s y : stack_run s y -> st_families s !! i = Some (f, true) -> Next f = Some (ev, f') ->
    stack_run (with_families (<[i := (f', match ev with Some _ => true | None => false end)]> (st_families s)) s) (saw_event ev y)
| sr_woken i f s y : stack_run s y -> st_families s !! i = Some (f, false) -> fm_wake f = true ->
    stack_run (with_families (<[i := (mk_family (fm_code f) (fm_protocols f) false (fm_ready f) (fm_peers f) (fm_ended f) (fm_log f), true)]> (st_families s)) s) y
| sr_close_handle h code s s' y : stack_run s y -> Peer_Close h code s = Some s' -> stack_run s' y
(** the application, and Connect's bookkeeping *)
| sr_disconnect id done s y : stack_run s y -> stack_run (Disconnect id done s) y
| sr_close s y : stack_run s y -> stack_run (Stack_Close s) y
| sr_dials m s y : stack_run s y -> stack_run (with_dials m s) y
| sr_record k rec s y : stack_run s y -> stack_run (on_sup k (updateRecord rec) s) y.

Definition accounted s (y : history) : Prop :=
  (forall c, c ∈ hy_views y -> view_at s c) /\ (forall x, x ∈ hy_streams y -> stream_at s x \/ x ∈ hy_delivered y \/ x ∈ hy_failed y).

Lemma accounted_keeps s s' y : keeps s s' -> accounted s y -> accounted s' y.
Proof. intros K [A B]. split; [intros c Hc; by apply (kp_view _ _ K), A|]. intros x Hx. destruct (B x Hx) as [?|?]; [left; by apply (kp_stream _ _ K)|by right]. Qed.

Lemma new_stack_inv : stack_inv (fun _ => False) ∅ new_stack.
Proof.
  assert (forall i h d, ~ delivery_at new_stack i h d) as Hn.
  { intros i h d (x & Hx & Hd). simpl in Hx. rewrite list_lookup_fmap in Hx. destruct (registered !! i); [|done]. simpl in Hx. injection Hx as <-. done. }
  split; try done.
  - intros i f aw Hx. simpl in Hx. rewrite list_lookup_fmap in Hx. destruct (registered !! i) as [[c p]|]; [|done]. simpl in Hx. injection Hx as <- <-. exists []. constructor.
  - intros i h d Hd. by apply Hn in Hd.
  - intros i h d Hd. by apply Hn in Hd.
Qed.

Lemma arrive_keeps c x bidi s : keeps s (arrive c x bidi s) /\ stream_at (arrive c x bidi s) x.
Proof.
  unfold arrive. set (q := default _ _). set (q' := if bidi then _ else _). split; [split; [by intros|]|].
  - intros y [(c0 & q0 & Hc & Hy)|[H|H]]; [|right; by left|right; by right]. left. destruct (decide (c0 = c)) as [->|Hne]; [|exists c0, q0; simpl; by rewrite lookup_insert_ne].
    exists c, q'. split; [simpl; apply lookup_insert_eq|]. assert (q = q0) as <- by (unfold q; by rewrite Hc). unfold q'. destruct bidi; simpl; rewrite elem_of_app; destruct Hy; auto.
  - left. exists c, q'. split; [simpl; apply lookup_insert_eq|]. unfold q'. destruct bidi; simpl; rewrite elem_of_app, list_elem_of_singleton; auto.
Qed.
Abbreviation inv := (stack_inv (fun _ => False) ∅).

Lemma handover_ok v result now s y :
  inv s -> accounted s y -> families_ok (ph_families (v_hello v)) -> inv (handover v result now s) /\ accounted (handover v result now s) (saw_view (v_conn v) y).
Proof.
  intros Hi Ha Hok. unfold handover. pose proof (Stack_attach_inv v result now s Hi Hok) as Hi1.
  destruct (Stack_attach_keeps v result now s) as [K Hv]; [intros k sup Hk; apply (so_fresh _ _ _ _ (si_sups _ _ _ Hi k sup Hk))|apply Hi|].
  destruct (Stack_attach v result now s) as [ok s1]. simpl in *. set (s2 := if ok then s1 else _).
  assert (keeps s1 s2) as K2 by (unfold s2; destruct ok; [apply keeps_refl|apply slog_keeps]).
  assert (view_at s2 (v_conn v)) as Hv2.
  { unfold s2. destruct ok; [by apply Hv|]. right. right. right. exists Closing, true. simpl. apply elem_of_app. right. by left. }
  split; [unfold s2; destruct ok; [done|]; by apply (st_inv_same _ ∅ s1); [apply same_sups|]|].
  destruct (accounted_keeps _ _ _ (st_keeps_trans _ _ _ K K2) Ha) as [A B]. split; [|done]. simpl. intros c. rewrite elem_of_app, list_elem_of_singleton. intros [?| ->]; auto.
Qed.

Lemma consume_ok i f ev f' aw s y :
  inv s -> accounted s y -> st_families s !! i = Some (f, true) -> Next f = Some (ev, f') -> aw = match ev with Some _ => true | None => false end ->
  inv (with_families (<[i := (f', aw)]> (st_families s)) s) /\ accounted (with_families (<[i := (f', aw)]> (st_families s)) s) (saw_event ev y).
Proof.
  intros Hi [A B] Hf En ->. split.
  - eapply (inv_family _ ∅ ∅ s i (f, true) (f', _)); [done|done|by constructor|by eapply Next_evolves|done].
  - split; [exact A|]. intros x Hx. simpl. destruct (B x Hx) as [Hs|[Hd|He]]; [|right; left; apply elem_of_app; by left|right; by right].
    destruct Hs as [H|[H|[H|[(j & w & Hw & Hh)|H]]]]; [left; by left|left; right; by left|left; right; right; by left| |left; right; right; right; by right].
    destruct (decide (j = i)) as [->|Hne].
    + assert (w = (f, true)) as -> by congruence. destruct (Next_holds f ev f' En x Hh) as [Hh'|(h & p & b & ->)]; [|right; left; apply elem_of_app; right; by left].
      left. right. right. right. left. eexists i, _. split; [simpl; apply list_lookup_insert_eq; by eapply lookup_lt_Some|done].
    + left. right. right. right. left. exists j, w. simpl. by rewrite list_lookup_insert_ne.
Qed.

Lemma stack_run_ok s y : stack_run s y -> inv s /\ accounted s y.
Proof.
  induction 1 as [|v result now s y _ [Hi Ha] Hok|k sup s s' y _ [Hi Ha] (Hk & Hal & Hr) E|k sup s s' y _ [Hi Ha] Hk Hal E|k sup c s s' y _ [Hi Ha] (Hk & Hal & Hr) Hc E
    |k sup c code s s' y _ [Hi Ha] (Hk & Hal & Hr) Hc E|c x bidi s y _ [Hi Ha]|i k c x b r s s' y _ [Hi Ha] Hx E|k c code goAway s y _ [Hi Ha]|i a b s s' y _ [Hi Ha] E
    |i f ev f' s y _ [Hi Ha] Hf E|i f s y _ [Hi Ha] Hf Hw|h code s s' y _ [Hi Ha] E|id done s y _ [Hi Ha]|s y _ [Hi Ha]|m s y _ [Hi Ha]|k rec s y _ [Hi Ha]].
  - split; [apply new_stack_inv|]. by split; intros ? ?%elem_of_nil.
  - by apply handover_ok.
  - destruct (sup_wake sup) eqn:Hw; [|unfold run_wake in E; rewrite Hk in E; simpl in E; by rewrite Hw in E]. destruct (run_wake_inv s k sup Hi Hk Hal Hr Hw) as (s1 & E1 & Hi1).
    assert (s1 = s') as -> by congruence. split; [done|]. eapply accounted_keeps; [by eapply run_wake_keeps|done].
  - assert (sup_running sup <> []) as Hr by (unfold run_next in E; rewrite Hk in E; simpl in E; by destruct (sup_running sup)).
    destruct (run_next_inv keccak256 localID s k sup Hi Hk Hal Hr) as (s1 & E1 & Hi1). assert (s1 = s') as -> by congruence. split; [done|].
    eapply accounted_keeps; [exact (run_next_keeps keccak256 localID s k sup s' Hi Hk Hal E)|done].
  - destruct (run_streams_inv s k sup c Hi Hk Hal Hr Hc) as (s1 & E1 & Hi1). assert (s1 = s') as -> by congruence. split; [done|]. eapply accounted_keeps; [by eapply run_streams_keeps|done].
  - destruct (run_done_inv s k sup code Hi Hk Hal Hr) as (s1 & E1 & Hi1). assert (s1 = s') as -> by congruence. split; [done|]. eapply accounted_keeps; [exact (run_done_keeps s k sup code s' Hi Hk Hal Hr E)|done].
  - destruct (arrive_keeps c x bidi s) as [K Hx]. split; [by apply (st_inv_same _ ∅ s); [apply same_sups|]|]. destruct (accounted_keeps _ _ _ K Ha) as [A B]. split; [done|].
    simpl. intros z. rewrite elem_of_app, list_elem_of_singleton. intros [?| ->]; auto.
  - split; [by eapply st_inv_same; [eapply finish_read_same|]|]. destruct (finish_read_keeps i r s s' k c x b Hx E) as [Kv Ks]. destruct Ha as [A B]. split; [intros z Hz; by apply Kv, A|].
    simpl. intros z Hz. destruct (B z Hz) as [Hs|[?|?]]; [|auto|right; right; apply elem_of_app; by left]. destruct (Ks z Hs) as [?|[-> [e ->]]]; [by left|]. right. right. apply elem_of_app. right. by left.
  - split; [by eapply st_inv_same; [apply post_same|]|]. eapply accounted_keeps; [apply post_keeps|done].
  - split; [by eapply st_inv_same; [eapply finish_release_same|]|]. eapply accounted_keeps; [by eapply finish_release_keeps|done].
  - by apply (consume_ok i f ev f').
  - set (f' := mk_family _ _ _ _ _ _ _). split.
    + eapply (inv_family _ ∅ ∅ s i (f, false) (f', true)); [done|done|by constructor|by apply evolves_same|done].
    + eapply accounted_keeps; [|done]. apply keeps_sups; try done. intros z. eapply in_family_insert; [done|]. by intros [?|?]; [left|right].
  - destruct (st_handles s !! h) as [p|] eqn:Hp; [|unfold Peer_Close in E; by rewrite Hp in E]. destruct (Peer_Close_inv h code s Hi) as (s1 & E1 & Hi1); [by exists p|].
    assert (s1 = s') as -> by congruence. split; [done|]. eapply accounted_keeps; [by eapply Peer_Close_keeps|done].
  - split; [eapply st_inv_same; [apply Disconnect_same|exact Hi]|]. eapply accounted_keeps; [apply Disconnect_keeps|exact Ha].
  - split; [by eapply st_inv_same; [apply Stack_Close_same|]|]. eapply accounted_keeps; [apply Stack_Close_keeps|done].
  - split; [by apply (st_inv_same _ ∅ s); [apply same_sups|]|]. eapply accounted_keeps; [|done]. by apply keeps_sups.
  - split; [by eapply st_inv_same; [apply same_on; intros; apply updateRecord_sup_same|]|]. eapply accounted_keeps; [|done]. apply keeps_on. intros sup _. by destruct (updateRecord_spec rec sup) as [r' ->].
Qed.
(** C9. The stack refines the family queue.  In every state of every run each
    registered family is in a state of a run of [Family]: in particular the
    supervisors only ever add a handle for a peer to a family when all its former
    handles have ended there, so the theorems about [Next], [push] and
    [closePeer] hold of the stack. *)
Theorem stack_refines_families s y i f aw :
  stack_run s y -> st_families s !! i = Some (f, aw) -> exists tr, family_run (fm_code f) (fm_protocols f) (f, aw) tr.
Proof. intros Hr. destruct (stack_run_ok s y Hr) as [Hi _]. apply (si_run _ _ _ Hi). Qed.

Lemma coherent_spec s :
  inv s ->
  (forall i h d, delivery_at s i h d -> d_down d = false ->
     exists k sup c, st_peers s !! d_id d = Some k /\ st_sups s !! k = Some sup /\ sup_conn sup = Some c /\ (i, h) ∈ sup_handles sup) /\
  (forall i h h' d d', delivery_at s i h d -> delivery_at s i h' d' -> d_id d = d_id d' -> d_down d = false -> d_down d' = false -> h = h') /\
  (forall k sup, st_sups s !! k = Some sup ->
     (sup_conn sup = None <-> sup_info sup = None) /\
     forall c p i h, sup_routes sup !! (c, p) = Some (i, h) ->
       exists x d, st_families s !! i = Some x /\ fm_code x.1 = c /\ p ∈ sp_protocol <$> fm_protocols x.1 /\ fm_peers x.1 !! h = Some d /\ d_id d = sup_id sup).
Proof.
  intros Hi. split; [|split].
  - intros i h d Hd Hdn. destruct (si_live _ _ _ Hi i h d Hd Hdn) as [?|(k & sup & Hk & Hsup & Hin)]; [set_solver|]. destruct (sup_conn sup) as [c|] eqn:Hc; [by exists k, sup, c|].
    destruct (so_idle _ _ _ _ (si_sups _ _ _ Hi k sup Hsup) Hc) as (_ & _ & Hh & _). rewrite Hh in Hin. by apply elem_of_nil in Hin.
  - intros i h h' d d' (x & Hx & Hd) (x' & Hx' & Hd') Hid Hdn Hdn'. assert (x' = x) as -> by congruence. destruct x as [f aw]. destruct (si_run _ _ _ Hi i f aw Hx) as [tr Htr].
    destruct (run_inv_all _ _ _ _ _ Htr) as (Hfi & _). destruct (decide (h = h')) as [|Hne]; [done|]. destruct (fi_live _ _ _ Hfi h h' d d' Hne Hd Hd' Hid); congruence.
  - intros k sup Hk. pose proof (si_sups _ _ _ Hi k sup Hk) as Ho. split.
    + split; [intros Hc; destruct (so_idle _ _ _ _ Ho Hc) as (H & _); apply H; by intros []|]. intros Hn. destruct (sup_conn sup) as [c|] eqn:Hc; [|done].
      destruct (so_info _ _ _ _ Ho c Hc) as (info & ? & _). congruence.
    + intros c p j h Hr. destruct (so_routes _ _ _ _ Ho c p j h Hr) as (Hin & x & Hx & Hcode & Hp). destruct (so_handles _ _ _ _ Ho j h Hin) as (d & (x' & Hx' & Hd) & Hid).
      assert (x' = x) as -> by congruence. by exists x, d.
Qed.

(** C10. Handles, views and routes agree.  In every run a live handle of a peer
    belongs to the view its supervisor has now, a peer has at most one live
    handle in each family, a supervisor is listed as connected exactly while it
    has a view, and every route leads to a handle of this peer in the family that
    registered the selector. *)
Theorem stack_coherent s y :
  stack_run s y ->
  (forall i h d, delivery_at s i h d -> d_down d = false ->
     exists k sup c, st_peers s !! d_id d = Some k /\ st_sups s !! k = Some sup /\ sup_conn sup = Some c /\ (i, h) ∈ sup_handles sup) /\
  (forall i h h' d d', delivery_at s i h d -> delivery_at s i h' d' -> d_id d = d_id d' -> d_down d = false -> d_down d' = false -> h = h') /\
  (forall k sup, st_sups s !! k = Some sup ->
     (sup_conn sup = None <-> sup_info sup = None) /\
     forall c p i h, sup_routes sup !! (c, p) = Some (i, h) ->
       exists x d, st_families s !! i = Some x /\ fm_code x.1 = c /\ p ∈ sp_protocol <$> fm_protocols x.1 /\ fm_peers x.1 !! h = Some d /\ d_id d = sup_id sup).
Proof. intros Hr. destruct (stack_run_ok s y Hr) as [Hi _]. by apply coherent_spec. Qed.

(** No supervisor panics.  In every run whatever a running supervisor does
    next is defined: draining its inbox, any request it took, reading headers of
    its view, the end of its connection; and closing any handle is. *)
Theorem stack_never_stuck s y k sup :
  stack_run s y -> st_sups s !! k = Some sup -> alive s k sup ->
  (sup_running sup <> [] -> is_Some (run_next keccak256 localID k s)) /\
  (sup_running sup = [] ->
     (sup_wake sup = true -> is_Some (run_wake k s)) /\
     (forall c, sup_conn sup = Some c -> is_Some (run_streams k s) /\ forall code, is_Some (run_done k code s))) /\
  (forall h code, is_Some (st_handles s !! h) -> is_Some (Peer_Close h code s)).
Proof.
  intros Hr Hk Ha. destruct (stack_run_ok s y Hr) as [Hi _]. split; [|split].
  - intros Hn. destruct (run_next_inv keccak256 localID s k sup Hi Hk Ha Hn) as (s' & -> & _). by eexists.
  - intros He. split; [intros Hw; destruct (run_wake_inv s k sup Hi Hk Ha He Hw) as (s' & -> & _); by eexists|]. intros c Hc. split; [destruct (run_streams_inv s k sup c Hi Hk Ha He Hc) as (s' & -> & _); by eexists|].
    intros code. destruct (run_done_inv s k sup code Hi Hk Ha He) as (s' & -> & _). by eexists.
  - intros h code Hh. destruct (Peer_Close_inv h code s Hi Hh) as (s' & -> & _). by eexists.
Qed.

(** C11. No view and no stream is lost.  In every run every view handed to the
    stack waits for admission, is a peer's view, is being released or was
    released; when no supervisor runs and no release is under way, it was
    released.  Every stream transport accepted is still queued there, has its
    header read, waits to be routed, is with a family, was reset, was delivered,
    or its header read failed. *)
Theorem stack_accounts s y :
  stack_run s y ->
  (forall c, c ∈ hy_views y -> view_at s c) /\
  (st_peers s = ∅ -> st_releasing s = [] -> forall c, c ∈ hy_views y -> exists code g, SxReleased c code g ∈ st_log s) /\
  (forall x, x ∈ hy_streams y -> stream_at s x \/ x ∈ hy_delivered y \/ x ∈ hy_failed y).
Proof.
  intros Hr. destruct (stack_run_ok s y Hr) as [Hi [A B]]. split; [done|]. split; [|done]. intros Ep Er c Hc.
  destruct (A c Hc) as [(v & res & now & _ & k & sup & Hk & Ha & _)|[(k & sup & Hk & Hcc)|[(t & Ht & _)|H]]]; [|exfalso|rewrite Er in Ht; by apply elem_of_nil in Ht|done].
  - unfold alive in Ha. rewrite Ep in Ha. done.
  - destruct (so_exited _ _ _ _ (si_sups _ _ _ Hi k sup Hk)) as [Hn _]; [unfold alive; by rewrite Ep|congruence].
Qed.
End runs.

(** ** Simultaneous views *)

Section duplicates.
Context {SC : Secp256k1} {PW : Protowire} (keccak256 : bytes -> bytes).
Implicit Types (s : stack) (sup : peerSupervisor).

(** Nothing but a duplicate could keep the view from being admitted. *)
Definition admissible s sup (v : pendingView) : Prop :=
  (exists rec, helloRecord keccak256 (sup_id sup) (ph_record (v_hello v)) = Some (Some rec)) /\
  (exists l, shared_families 0 (st_families s) (ph_families (v_hello v)) = Some l /\ l <> []) /\ st_closed s = false /\
  (v_outbound v = true -> forall d, st_dials s !! sup_id sup = Some d -> da_state d <> dialDisconnected).

(** The view that remains, and the other one released as a duplicate. *)
Lemma attach_outcome localID s k sup v now old info r s' :
  stack_inv (fun _ => False) ∅ s -> st_sups s !! k = Some sup -> sup_conn sup = Some old -> sup_info sup = Some info -> admissible s sup v ->
  attach keccak256 localID k v now s = Some (r, s') ->
  r = None /\ exists sup', st_sups s' !! k = Some sup' /\ sup_conn sup' = Some (if duplicate localID info (sup_id sup) (v_outbound v) then old else v_conn v).
Proof.
  intros Hi Hk Hc Hinfo ((rec & Hrec) & (l & Hl & Hne) & Hcl & Hd). unfold attach. rewrite Hk. cbn [mbind option_bind]. rewrite Hrec. cbn [mbind option_bind]. rewrite Hl. cbn [mbind option_bind].
  destruct (length l =? 0)%nat eqn:El; [by apply Nat.eqb_eq, length_zero_iff_nil in El|]. rewrite Hcl.
  assert (v_outbound v && match st_dials s !! sup_id sup with Some d => match da_state d with dialDisconnected => true | _ => false end | None => false end = false) as ->.
  { destruct (v_outbound v) eqn:Ho; [|done]. destruct (st_dials s !! sup_id sup) as [d|] eqn:Ed; [|done]. specialize (Hd eq_refl d eq_refl). by destruct (da_state d). }
  rewrite Hc, Hinfo. cbn [mbind option_bind]. destruct (duplicate localID info (sup_id sup) (v_outbound v)); [intros [= <- <-]; split; [done|by exists sup]|].
  destruct (commit_view_inv s k sup v now rec Hi Hk) as (info' & s1 & sup1 & Ec & _ & Hi1 & Hk1 & _). rewrite Ec. cbn [mbind option_bind fst snd].
  destruct (dropView_inv (eq k) s1 k sup1 Duplicate true None Hi1 Hk1) as (s2 & -> & [Hi2 (sup2 & Hk2 & _) _ _ _]). cbn [mbind option_bind].
  destruct (add_handles _ _ _ _ _ _ s2) as [[[routes handles] s3]|] eqn:Ea; [|done]. cbn [mbind option_bind].
  destruct (add_handles_keeps k (v_conn v) (sup_id sup) l ∅ [] s2 routes handles s3 (fresh_handles _ _ _ Hi2) Ea) as [_ E3].
  set (f := fun sup : peerSupervisor => sup_view (Some info') (Some (v_conn v)) routes handles (sup_reading sup) sup).
  assert (st_sups (on_sup k f s3) !! k = Some (f sup2)) as Hk3 by (simpl; by rewrite lookup_alter_eq, E3, Hk2).
  destruct (readHeaders_same _ k (f sup2) (v_conn v) Hk3 eq_refl) as (s4 & -> & Hs). cbn [mbind option_bind]. intros [= <- <-]. split; [done|].
  destruct (same_sup _ _ _ _ Hs Hk3) as (sup4 & Hk4 & Hss). exists sup4. by rewrite (ss_conn _ _ Hss).
Qed.

(** At one end: [c1] is the view this end dialled and [c2] the one it accepted; one
    of them is the peer's view and the other is offered. *)
Definition contest sup (v : pendingView) (c1 c2 : nat) : Prop :=
  exists info, sup_info sup = Some info /\
    ((sup_conn sup = Some c1 /\ ci_outbound info = true /\ v_conn v = c2 /\ v_outbound v = false) \/
     (sup_conn sup = Some c2 /\ ci_outbound info = false /\ v_conn v = c1 /\ v_outbound v = true)).

Lemma contest_outcome localID s k sup v now c1 c2 r s' :
  stack_inv (fun _ => False) ∅ s -> st_sups s !! k = Some sup -> contest sup v c1 c2 -> admissible s sup v -> attach keccak256 localID k v now s = Some (r, s') ->
  exists sup', st_sups s' !! k = Some sup' /\ sup_conn sup' = Some (if bool_decide (bcompare localID (sup_id sup) = Lt) then c1 else c2).
Proof.
  intros Hi Hk (info & Hinfo & Hcase) Had E. destruct Hcase as [(Hc & Ho & <- & Hv)|(Hc & Ho & <- & Hv)];
    destruct (attach_outcome localID s k sup v now _ info r s' Hi Hk Hc Hinfo Had E) as [_ (sup' & Hk' & Hc')]; exists sup'; (split; [done|]); rewrite Hc'; unfold duplicate; rewrite Ho, Hv; simpl;
    by destruct (bool_decide _).
Qed.

(** C12. Both ends keep the same view.  When two peers dial each other and both
    connections reach admission at both ends, in whatever order at each, both
    ends keep the view that the peer with the lower identity dialled. *)
Theorem duplicate_agreement a b ra rb sa ya sb yb ka kb supa supb va vb c1 c2 nowa nowb oa ob sa' sb' :
  a <> b -> stack_run keccak256 a ra sa ya -> stack_run keccak256 b rb sb yb ->
  st_sups sa !! ka = Some supa -> sup_id supa = b -> st_sups sb !! kb = Some supb -> sup_id supb = a ->
  contest supa va c1 c2 -> contest supb vb c2 c1 -> admissible sa supa va -> admissible sb supb vb ->
  attach keccak256 a ka va nowa sa = Some (oa, sa') -> attach keccak256 b kb vb nowb sb = Some (ob, sb') ->
  let c := if bool_decide (bcompare a b = Lt) then c1 else c2 in
  (exists sup, st_sups sa' !! ka = Some sup /\ sup_conn sup = Some c) /\ exists sup, st_sups sb' !! kb = Some sup /\ sup_conn sup = Some c.
Proof.
  intros Hab Hra Hrb Hka Hida Hkb Hidb Hca Hcb Hada Hadb Ea Eb c. destruct (stack_run_ok _ _ _ sa ya Hra) as [Hia _]. destruct (stack_run_ok _ _ _ sb yb Hrb) as [Hib _].
  destruct (contest_outcome a sa ka supa va nowa c1 c2 oa sa' Hia Hka Hca Hada Ea) as (sup1 & H1 & E1). destruct (contest_outcome b sb kb supb vb nowb c2 c1 ob sb' Hib Hkb Hcb Hadb Eb) as (sup2 & H2 & E2).
  rewrite Hida in E1. rewrite Hidb, (bcompare_antisym a) in E2. unfold c. split; [by exists sup1|]. exists sup2. split; [done|]. rewrite E2. f_equal.
  destruct (bcompare a b) eqn:Ecmp; [by apply bcompare_eq in Ecmp|done|done].
Qed.
End duplicates.

(** ** A concrete run

    One family; the peer's view is admitted, a stream of it is routed to the
    family and delivered, and another stream waits in transport. *)

#[local] Existing Instance demo_secp.
#[local] Existing Instance demo_protowire.

Definition demo_view (c : nat) (peer : PeerID) (outbound : bool) : pendingView := mk_view c peer outbound (mk_PeerHello [3; 9] []).
Definition demo_registered : list (Z * list ProtocolSpec) := [(9, demo_specs)].
Definition demo_a : PeerID := [Byte.x01].
Definition demo_b : PeerID := [Byte.x02].

Definition or_same (f : stack -> option stack) (s : stack) : stack := match f s with Some s' => s' | None => s end.
Definition demo_wake : stack -> stack := or_same (run_wake 0).
Definition demo_next (me : PeerID) : stack -> stack := or_same (run_next demo_keccak me 0).

(** Connection [c] of the other peer, admitted. *)
Definition demo_offered (peer : PeerID) (c : nat) (outbound : bool) : stack := handover (demo_view c peer outbound) None 5 (new_stack demo_registered).
Definition demo_admitted (me peer : PeerID) (c : nat) (outbound : bool) : stack := demo_next me (demo_wake (demo_offered peer c outbound)).
Definition demo_sup (s : stack) : peerSupervisor := default (mk_sup [] None false [] [] None None ∅ [] (0, 0)) (st_sups s !! 0%nat).

Lemma or_same_some f s : is_Some (f s) -> f s = Some (or_same f s).
Proof. unfold or_same. by intros [s' ->]. Qed.

Lemma demo_families_3_9 : families_ok [3; 9].
Proof. apply ValidateFamilies_spec. vm_compute. reflexivity. Qed.

Lemma demo_offered_run me peer c outbound : stack_run demo_keccak me demo_registered (demo_offered peer c outbound) (mk_history [c] [] [] []).
Proof. apply (sr_attach demo_keccak me demo_registered (demo_view c peer outbound) None 5 (new_stack demo_registered) (mk_history [] [] [] [])); [constructor|exact demo_families_3_9]. Qed.

Ltac demo_turns s :=
  eapply (sr_request _ _ _ 0 (demo_sup (demo_wake s)) (demo_wake s)); [|vm_compute; reflexivity|vm_compute; reflexivity|apply or_same_some; vm_compute; by eexists];
  eapply (sr_wake _ _ _ 0 (demo_sup s) s); [apply demo_offered_run|split; [vm_compute; reflexivity|split; vm_compute; reflexivity]|apply or_same_some; vm_compute; by eexists].

Lemma demo_a_run : stack_run demo_keccak demo_a demo_registered (demo_admitted demo_a demo_b 100 true) (mk_history [100%nat] [] [] []).
Proof. demo_turns (demo_offered demo_b 100 true). Qed.

Lemma demo_b_run : stack_run demo_keccak demo_b demo_registered (demo_admitted demo_b demo_a 200 true) (mk_history [200%nat] [] [] []).
Proof. demo_turns (demo_offered demo_a 200 true). Qed.

Lemma stack_refines_families_witness :
  exists f aw tr, st_families (demo_admitted demo_a demo_b 100 true) !! 0%nat = Some (f, aw) /\ family_run (fm_code f) (fm_protocols f) (f, aw) tr.
Proof.
  destruct (st_families (demo_admitted demo_a demo_b 100 true) !! 0%nat) as [[f aw]|] eqn:E; [|vm_compute in E; discriminate E].
  destruct (stack_refines_families demo_keccak demo_a demo_registered _ _ 0 f aw demo_a_run E) as [tr Htr]. exists f, aw, tr. split; [reflexivity|exact Htr].
Defined.

Lemma stack_coherent_witness :
  sup_conn (demo_sup (demo_admitted demo_a demo_b 100 true)) = Some 100%nat /\
  (sup_conn (demo_sup (demo_admitted demo_a demo_b 100 true)) = None <-> sup_info (demo_sup (demo_admitted demo_a demo_b 100 true)) = None).
Proof.
  split; [vm_compute; reflexivity|]. destruct (stack_coherent demo_keccak demo_a demo_registered _ _ demo_a_run) as (_ & _ & H).
  apply (H 0%nat (demo_sup (demo_admitted demo_a demo_b 100 true))). vm_compute. reflexivity.
Defined.

Lemma stack_never_stuck_witness : is_Some (run_streams 0 (demo_admitted demo_a demo_b 100 true)).
Proof.
  destruct (stack_never_stuck demo_keccak demo_a demo_registered _ _ 0 (demo_sup (demo_admitted demo_a demo_b 100 true)) demo_a_run) as (_ & H & _); [vm_compute; reflexivity|vm_compute; reflexivity|].
  destruct H as [_ H]; [vm_compute; reflexivity|]. destruct (H 100%nat) as [Hs _]; [vm_compute; reflexivity|exact Hs].
Defined.

Lemma stack_accounts_witness : view_at (demo_admitted demo_a demo_b 100 true) 100.
Proof. apply (stack_accounts demo_keccak demo_a demo_registered _ _ demo_a_run). left. Defined.

(** Both peers dialled; each end admitted its own view first, and now the other's. *)
Lemma duplicate_agreement_witness :
  exists oa sa' ob sb', attach demo_keccak demo_a 0 (demo_view 200 demo_b false) 6 (demo_admitted demo_a demo_b 100 true) = Some (oa, sa') /\
    attach demo_keccak demo_b 0 (demo_view 100 demo_a false) 6 (demo_admitted demo_b demo_a 200 true) = Some (ob, sb') /\
    (exists sup, st_sups sa' !! 0%nat = Some sup /\ sup_conn sup = Some 100%nat) /\ exists sup, st_sups sb' !! 0%nat = Some sup /\ sup_conn sup = Some 100%nat.
Proof.
  destruct (attach demo_keccak demo_a 0 (demo_view 200 demo_b false) 6 (demo_admitted demo_a demo_b 100 true)) as [[oa sa']|] eqn:Ea; [|vm_compute in Ea; discriminate Ea].
  destruct (attach demo_keccak demo_b 0 (demo_view 100 demo_a false) 6 (demo_admitted demo_b demo_a 200 true)) as [[ob sb']|] eqn:Eb; [|vm_compute in Eb; discriminate Eb].
  exists oa, sa', ob, sb'. split; [reflexivity|]. split; [reflexivity|].
  apply (duplicate_agreement demo_keccak demo_a demo_b demo_registered demo_registered
    (demo_admitted demo_a demo_b 100 true) (mk_history [100%nat] [] [] []) (demo_admitted demo_b demo_a 200 true) (mk_history [200%nat] [] [] []) 0 0 (demo_sup (demo_admitted demo_a demo_b 100 true)) (demo_sup (demo_admitted demo_b demo_a 200 true))
    (demo_view 200 demo_b false) (demo_view 100 demo_a false) 100 200 6 6 oa ob sa' sb');
    [discriminate|exact demo_a_run|exact demo_b_run|vm_compute; reflexivity|vm_compute; reflexivity|vm_compute; reflexivity|vm_compute; reflexivity| | | | |exact Ea|exact Eb].
  - exists (mk_info 1 demo_b true 5). split; [vm_compute; reflexivity|]. left. repeat split; vm_compute; reflexivity.
  - exists (mk_info 1 demo_a true 5). split; [vm_compute; reflexivity|]. left. repeat split; vm_compute; reflexivity.
  - split; [exists None; vm_compute; reflexivity|]. split; [exists [0%nat]; split; [vm_compute; reflexivity|discriminate]|]. split; [vm_compute; reflexivity|]. intros H. discriminate H.
  - split; [exists None; vm_compute; reflexivity|]. split; [exists [0%nat]; split; [vm_compute; reflexivity|discriminate]|]. split; [vm_compute; reflexivity|]. intros H. discriminate H.
Defined.
