(* ===== verification/Dial.v ===== *)
(** * Dial: connecting to a peer ([NewStack], [Start] and [Connect] of src/stack.go)

    Any number of goroutines call [Connect] for one peer.  One of them drives a
    dial attempt, the others wait for it; what an endpoint's dial, handshake and
    admission come to, the peer's view coming and going, Disconnect, Close and
    the end of a caller's context are the environment's.  A step is one critical
    section or one endpoint of one caller, so runs have every interleaving. *)

From S2P Require Import Prelude Wire Types PeerIo Supervisor.

#[local] Set Default Proof Using "Type".
#[local] Open Scope nat_scope.

(** ** Construction *)

(** A stack before it serves: the identities are those of the endpoint and of
    the configured record. *)
Definition NewStack (transport : option bytes) (record : option bytes) : result error unit :=
  match transport with
  | None => Err "nil ethp2p transport"%string
  | Some id =>
      match record with
      | Some id' => if decide (id' <> id) then Err "local record identity mismatch"%string else Ok tt
      | None => Ok tt
      end
  end.

(** [Start]: [hello] is what [HelloBytes] returns for the registered families;
    the result is the new [helloBytes]. *)
Definition Start (closed : bool) (helloBytes : option bytes) (hello : result error bytes) : result error bytes :=
  if closed then Err "stack closed"%string
  else match helloBytes with
       | Some _ => Err "stack already started"%string
       | None => hello
       end.

(** ** Attempts and callers *)

Inductive connect_err :=
| ErrSelf | ErrNoEndpoints | ErrStackClosed | ErrNotStarted
| ErrContext (e : ctx_err) | ErrDisconnected
| ErrDial (failures : list error)            (* errors.Join *)
| ErrViewGone.                               (* admitted, but closed again *)

(** [a_driver] is the caller that drives it, [a_up] whether the peer was connected
    when it finished. *)
Record dialAttempt := mk_attempt {
  a_state : dialState; a_err : option connect_err; a_done : bool; a_cancelled : bool; a_driver : nat; a_up : bool }.

(** What trying one endpoint comes to. *)
Inductive outcome := DialFailed (e : error) | DialLegacy (e : error) | HandshakeFailed (e : error) | NotAttached | Rejected (e : error) | DialAdmitted.

(** A caller: at the top of its loop, waiting for an attempt, woken, driving one
    with endpoints left, about to finish it, returned (for whom: the attempt it
    waited for). *)
Inductive call_pc :=
| CallTop | CallWait (k : nat) | CallWoken (k : nat)
| CallDial (k : nat) (eps : nat) (failures : list error) | CallFinish (k : nat) (failures : list error)
| Returned (r : option connect_err) (for_ : option nat).

(** [c_seq] is the sequence number of the record it connects with. *)
Record caller := mk_caller { c_pc : call_pc; c_seq : Z; c_endpoints : nat; c_ctx : option ctx_err }.

Record stack := mk_stack {
  s_closed : bool; s_started : bool;
  s_up : bool;                         (* the peer's supervisor has a view *)
  s_record : option Z;                 (* and its record, by its sequence number *)
  s_dial : option nat;
  s_attempts : list dialAttempt;
  s_callers : list caller }.

Implicit Types (s : stack) (c : caller).

Definition set_pc (i : nat) (pc : call_pc) s : stack :=
  mk_stack (s_closed s) (s_started s) (s_up s) (s_record s) (s_dial s) (s_attempts s) (alter (fun c => mk_caller pc (c_seq c) (c_endpoints c) (c_ctx c)) i (s_callers s)).
Definition set_attempts d l s : stack := mk_stack (s_closed s) (s_started s) (s_up s) (s_record s) d l (s_callers s).
Definition on_attempt (k : nat) (f : dialAttempt -> dialAttempt) s : stack := set_attempts (s_dial s) (alter f k (s_attempts s)) s.

Definition returns (i : nat) (r : option connect_err) (for_ : option nat) s : stack := set_pc i (Returned r for_) s.

(** [updateRecord] of the peer's supervisor. *)
Definition updateRecord (seq : Z) s : stack :=
  mk_stack (s_closed s) (s_started s) (s_up s)
    (match s_record s with Some old => if (seq >? old)%Z then Some seq else Some old | None => Some seq end)
    (s_dial s) (s_attempts s) (s_callers s).

(** The driving context: the caller's, cancelled with the attempt. *)
Definition dial_ended (k : nat) c s : bool :=
  match c_ctx c with Some _ => true | None => match s_attempts s !! k with Some a => a_cancelled a | None => false end end.

(** ** Connect *)

(** The first critical section. *)
Definition connect_top (i : nat) c s : stack :=
  if s_closed s then returns i (Some ErrStackClosed) None s
  else if negb (s_started s) then returns i (Some ErrNotStarted) None s
  else if s_up s then returns i None None (updateRecord (c_seq c) s)
  else match c_ctx c with
       | Some e => returns i (Some (ErrContext e)) None s
       | None =>
           match s_dial s with
           | Some k => set_pc i (CallWait k) s
           | None =>
               let k := length (s_attempts s) in
               set_pc i (CallDial k (c_endpoints c) [])
                 (set_attempts (Some k) (s_attempts s ++ [mk_attempt dialInFlight None false false i false]) s)
           end
       end.

(** [select] on the caller's context and the attempt. *)
Definition connect_wait (pick : bool) (i k : nat) c s : option stack :=
  let finished := match s_attempts s !! k with Some a => a_done a | None => false end in
  match c_ctx c, finished with
  | Some e, true => Some (if pick then set_pc i (CallWoken k) s else returns i (Some (ErrContext e)) None s)
  | Some e, false => Some (returns i (Some (ErrContext e)) None s)
  | None, true => Some (set_pc i (CallWoken k) s)
  | None, false => None
  end.

(** The second critical section, and what follows it. *)
Definition connect_woken (i k : nat) c s : stack :=
  if s_up s then returns i None None (updateRecord (c_seq c) s)
  else if s_closed s then returns i (Some ErrStackClosed) None s
  else match s_attempts s !! k with
       | Some a =>
           match a_state a, c_ctx c with
           | dialDriverGone, None => set_pc i CallTop s
           | _, _ => returns i (a_err a) (Some k) s
           end
       | None => s
       end.

(** One endpoint. *)
Definition connect_dial (o : outcome) (i k eps : nat) (failures : list error) c s : stack :=
  match eps with
  | O => set_pc i (CallFinish k failures) s
  | S eps =>
      if dial_ended k c s then set_pc i (CallFinish k (failures ++ ["context ended"%string])) s
      else match o with
           | DialFailed e | HandshakeFailed e | Rejected e => set_pc i (CallDial k eps (failures ++ [e])) s
           | DialLegacy e => set_pc i (CallFinish k (failures ++ [e])) s
           | NotAttached | DialAdmitted => set_pc i (CallFinish k failures) s
           end
  end.

(** The last critical section: the attempt's result, for everyone. *)
Definition finish_attempt (failures : list error) c (a : dialAttempt) s : dialAttempt :=
  let '(st, err) :=
    if s_closed s then (a_state a, Some ErrStackClosed)
    else if s_up s then (a_state a, None)
    else match a_state a with
         | dialDisconnected => (a_state a, Some ErrDisconnected)
         | _ => (match c_ctx c with Some _ => dialDriverGone | None => a_state a end,
                 match failures with [] => Some ErrViewGone | _ => Some (ErrDial failures) end)
         end in
  mk_attempt (match st with dialInFlight => dialDone | _ => st end) err true (a_cancelled a) (a_driver a) (s_up s && negb (s_closed s)).

Definition connect_finish (i k : nat) (failures : list error) c s : stack :=
  match s_attempts s !! k with
  | Some a =>
      let a := finish_attempt failures c a s in
      let s := if a_up a then updateRecord (c_seq c) s else s in
      returns i (a_err a) (Some k) (set_attempts None (<[k := a]> (s_attempts s)) s)
  | None => s
  end.

(** The next step of caller [i]. *)
Definition Connect (o : outcome) (pick : bool) (i : nat) s : option stack :=
  match s_callers s !! i with
  | None => None
  | Some c =>
      match c_pc c with
      | CallTop => Some (connect_top i c s)
      | CallWait k => connect_wait pick i k c s
      | CallWoken k => Some (connect_woken i k c s)
      | CallDial k eps failures => Some (connect_dial o i k eps failures c s)
      | CallFinish k failures => Some (connect_finish i k failures c s)
      | Returned _ _ => None
      end
  end.

(** A call: the checks before the loop. *)
Definition call (self : bool) (seq : Z) (endpoints : nat) s : stack :=
  let pc := if self then Returned (Some ErrSelf) None
            else match endpoints with O => Returned (Some ErrNoEndpoints) None | _ => CallTop end in
  mk_stack (s_closed s) (s_started s) (s_up s) (s_record s) (s_dial s) (s_attempts s) (s_callers s ++ [mk_caller pc seq endpoints None]).

(** [Disconnect] and [Close] end the attempt in flight. *)
Definition disconnect s : stack :=
  match s_dial s with
  | Some k => on_attempt k (fun a => match a_state a with
                                     | dialInFlight => mk_attempt dialDisconnected (a_err a) (a_done a) true (a_driver a) (a_up a)
                                     | _ => a
                                     end) s
  | None => s
  end.
Definition close s : stack :=
  if s_closed s then s
  else let s := match s_dial s with
                | Some k => on_attempt k (fun a => mk_attempt (a_state a) (a_err a) (a_done a) true (a_driver a) (a_up a)) s
                | None => s
                end in
       mk_stack true (s_started s) (s_up s) (s_record s) (s_dial s) (s_attempts s) (s_callers s).

Inductive step : stack -> stack -> Prop :=
| st_connect o pick i s s' : Connect o pick i s = Some s' -> step s s'
| st_call self seq n s : step s (call self seq n s)
| st_ctx i e s : step s (mk_stack (s_closed s) (s_started s) (s_up s) (s_record s) (s_dial s) (s_attempts s)
                           (alter (fun c => mk_caller (c_pc c) (c_seq c) (c_endpoints c) (Some (default e (c_ctx c)))) i (s_callers s)))
| st_disconnect s : step s (disconnect s)
| st_close s : step s (close s)
| st_start s : s_closed s = false -> step s (mk_stack (s_closed s) true (s_up s) (s_record s) (s_dial s) (s_attempts s) (s_callers s))
| st_view up rec s : step s (mk_stack (s_closed s) (s_started s) up rec (s_dial s) (s_attempts s) (s_callers s)).

Definition new_stack : stack := mk_stack false false false None None [] [].
Definition reachable s : Prop := rtc step new_stack s.

(** ** Invariant *)

Definition drives (pc : call_pc) : option nat := match pc with CallDial k _ _ | CallFinish k _ => Some k | _ => None end.
Definition waits_for (pc : call_pc) : option nat := match pc with CallWait k | CallWoken k => Some k | _ => None end.

Definition woken (pc : call_pc) : option nat := match pc with CallWoken k => Some k | _ => None end.

(** What a returned caller may report: the peer was connected, its own context or
    the stack ended, or the result of a finished attempt, its own or one it
    waited for, but never that the driver of another's attempt gave up. *)
Definition result_ok s c (r : option connect_err) (for_ : option nat) : Prop :=
  match for_ with
  | None =>
      match r with
      | Some ErrStackClosed => s_closed s = true
      | Some (ErrContext e) => c_ctx c = Some e
      | Some (ErrDial _) | Some ErrDisconnected | Some ErrViewGone => False
      | _ => True
      end
  | Some k => exists a, s_attempts s !! k = Some a /\ a_done a = true /\ r = a_err a /\ (a_state a = dialDriverGone -> is_Some (c_ctx c))
  end.

Record dial_inv s : Prop := {
  di_driver : forall i c k, s_callers s !! i = Some c -> drives (c_pc c) = Some k ->
    s_dial s = Some k /\ exists a, s_attempts s !! k = Some a /\ a_driver a = i;
  di_driven : forall k, s_dial s = Some k -> S k = length (s_attempts s) /\
    exists a c, s_attempts s !! k = Some a /\ a_done a = false /\ (a_state a = dialInFlight \/ a_state a = dialDisconnected) /\
      s_callers s !! a_driver a = Some c /\ drives (c_pc c) = Some k;
  di_open : forall k a, s_attempts s !! k = Some a -> a_done a = false -> s_dial s = Some k;
  di_waiter : forall i c k, s_callers s !! i = Some c -> waits_for (c_pc c) = Some k -> is_Some (s_attempts s !! k);
  di_woken : forall i c k, s_callers s !! i = Some c -> woken (c_pc c) = Some k -> s_dial s <> Some k;
  di_done : forall k a, s_attempts s !! k = Some a -> a_done a = true ->
    a_state a <> dialInFlight /\ (a_err a = None <-> a_up a = true) /\ (a_err a = Some ErrStackClosed -> s_closed s = true) /\
    (a_state a = dialDriverGone -> a_err a <> None /\ exists c, s_callers s !! a_driver a = Some c /\ is_Some (c_ctx c));
  di_result : forall i c r for_, s_callers s !! i = Some c -> c_pc c = Returned r for_ -> result_ok s c r for_ }.

Lemma updateRecord_inv seq s : dial_inv s -> dial_inv (updateRecord seq s).
Proof. by intros []; constructor. Qed.

Definition with_pc (pc : call_pc) c : caller := mk_caller pc (c_seq c) (c_endpoints c) (c_ctx c).

Lemma alter_Some {A} (f : A -> A) i (l : list A) j y : alter f i l !! j = Some y ->
  exists x, l !! j = Some x /\ y = (if decide (i = j) then f x else x).
Proof. rewrite list_lookup_alter. case_decide; subst; [|eauto]. destruct (l !! j); naive_solver. Qed.

Lemma set_pc_lookup i pc s j c : s_callers (set_pc i pc s) !! j = Some c ->
  exists c0, s_callers s !! j = Some c0 /\ c_ctx c = c_ctx c0 /\ (j = i /\ c_pc c = pc \/ j <> i /\ c = c0).
Proof. cbn. intros (c0 & ? & ->)%alter_Some. exists c0. case_decide; naive_solver. Qed.

Lemma set_pc_at i pc s j c : s_callers s !! j = Some c ->
  exists c', s_callers (set_pc i pc s) !! j = Some c' /\ c_ctx c' = c_ctx c /\ c_pc c' = if decide (i = j) then pc else c_pc c.
Proof. cbn. intros H. rewrite list_lookup_alter. case_decide; subst; rewrite ?H; eauto. Qed.

Ltac at_caller H := apply set_pc_lookup in H as (c0 & Hc0 & Ec & [[-> Ep]|[Hne ->]]).

(** A caller moves on without touching an attempt. *)
Lemma set_pc_inv i c pc s : dial_inv s -> s_callers s !! i = Some c -> drives pc = drives (c_pc c) ->
  (forall k, waits_for pc = Some k -> is_Some (s_attempts s !! k)) -> (forall k, woken pc = Some k -> s_dial s <> Some k) ->
  (forall c' r for_, c_ctx c' = c_ctx c -> pc = Returned r for_ -> result_ok s c' r for_) -> dial_inv (set_pc i pc s).
Proof.
  intros [D1 D2 D3 D4 D5 D6 D7] Hi Hd Hw Hk Hr. constructor; cbn [s_dial s_attempts s_closed set_pc]; auto.
  - intros j c' k Hj Hp. at_caller Hj; [|eauto]. apply (D1 i c); congruence.
  - intros k Hk'. destruct (D2 k Hk') as (? & a & c0 & ? & ? & ? & Hc & Hp). split; [done|].
    destruct (set_pc_at i pc s _ _ Hc) as (c' & ? & ? & Hpc). exists a, c'. repeat split; auto.
    rewrite Hpc. case_decide; simplify_eq; congruence.
  - intros j c' k Hj Hp. at_caller Hj; [|eauto]. rewrite Ep in Hp. eauto.
  - intros j c' k Hj Hp. at_caller Hj; [|eauto]. rewrite Ep in Hp. eauto.
  - intros k a Ha Hd'. destruct (D6 k a Ha Hd') as (? & ? & ? & G). split_and!; [done..|].
    intros Hs. destruct (G Hs) as (? & c0 & Hc & ?). split; [done|].
    destruct (set_pc_at i pc s _ _ Hc) as (c' & ? & E & _). exists c'. by rewrite E.
  - intros j c' r for_ Hj Hp. at_caller Hj; [|by apply (D7 j c0)]. apply Hr; congruence.
Qed.

Lemma returns_inv i c r for_ s : dial_inv s -> s_callers s !! i = Some c -> drives (c_pc c) = None ->
  (forall c', c_ctx c' = c_ctx c -> result_ok s c' r for_) -> dial_inv (returns i r for_ s).
Proof. intros HI Hi Hd Hr. apply (set_pc_inv i c); auto; naive_solver. Qed.

(** A caller starts an attempt. *)
Lemma start_inv i c eps s : dial_inv s -> s_callers s !! i = Some c -> drives (c_pc c) = None -> s_dial s = None ->
  dial_inv (set_pc i (CallDial (length (s_attempts s)) eps []) (set_attempts (Some (length (s_attempts s))) (s_attempts s ++ [mk_attempt dialInFlight None false false i false]) s)).
Proof.
  intros [D1 D2 D3 D4 D5 D6 D7] Hi Hd Hn.
  assert (Hold : forall k a, (s_attempts s ++ [mk_attempt dialInFlight None false false i false]) !! k = Some a -> a_done a = true -> s_attempts s !! k = Some a)
    by (intros k a [?|[? [_ <-]%list_lookup_singleton_Some]]%lookup_app_Some; done).
  assert (Hnew : (s_attempts s ++ [mk_attempt dialInFlight None false false i false]) !! length (s_attempts s) = Some (mk_attempt dialInFlight None false false i false))
    by (apply list_lookup_middle; done).
  assert (Hext : forall k a, s_attempts s !! k = Some a -> (s_attempts s ++ [mk_attempt dialInFlight None false false i false]) !! k = Some a)
    by (intros; by apply lookup_app_l_Some).
  constructor; cbn [s_dial s_attempts s_closed set_pc set_attempts].
  - intros j c' k Hj Hp. at_caller Hj; cbn in *; [rewrite Ep in Hp; cbn in Hp; simplify_eq; eauto|]. destruct (D1 _ _ _ Hc0 Hp). congruence.
  - intros k ?. simplify_eq. rewrite length_app. cbn. split; [lia|]. destruct (set_pc_at i (CallDial (length (s_attempts s)) eps []) s _ _ Hi) as (c' & ? & ? & Hpc).
    exists (mk_attempt dialInFlight None false false i false), c'. cbn. split_and!; auto. rewrite Hpc, decide_True by done. done.
  - intros k a [Ha|[Hk Ha]]%lookup_app_Some Hf; [apply D3 in Ha; congruence|]. apply list_lookup_singleton_Some in Ha as [? _]. f_equal. lia.
  - intros j c' k Hj Hp. at_caller Hj; cbn in *; [by rewrite Ep in Hp|]. destruct (D4 _ _ _ Hc0 Hp). eauto.
  - intros j c' k Hj Hp. at_caller Hj; cbn in *; [by rewrite Ep in Hp|]. destruct (D4 j c0 k Hc0) as [a Ha]; [by destruct (c_pc c0)|].
    apply lookup_lt_Some in Ha. intros ?. simplify_eq. lia.
  - intros k a Ha Hf. apply Hold in Ha; [|done]. destruct (D6 k a Ha Hf) as (? & ? & ? & G). split_and!; [done..|].
    intros Hs. destruct (G Hs) as (? & c0 & Hc & ?). split; [done|].
    destruct (set_pc_at i (CallDial (length (s_attempts s)) eps []) s _ _ Hc) as (c' & ? & E & _). exists c'. by rewrite E.
  - intros j c' r for_ Hj Hp. at_caller Hj; cbn in *; [congruence|]. specialize (D7 _ _ _ _ Hc0 Hp). destruct for_; [|done].
    destruct D7 as (a & ? & ?). exists a. eauto.
Qed.

(** The driver finishes its attempt. *)
Lemma finish_attempt_done failures c a s : let a' := finish_attempt failures c a s in
  a_done a' = true /\ a_driver a' = a_driver a /\ a_state a' <> dialInFlight /\ (a_err a' = None <-> a_up a' = true) /\
  (a_err a' = Some ErrStackClosed -> s_closed s = true) /\
  (a_state a = dialInFlight \/ a_state a = dialDisconnected -> a_state a' = dialDriverGone -> a_err a' <> None /\ is_Some (c_ctx c)).
Proof.
  unfold finish_attempt. destruct (s_closed s), (s_up s), (a_state a), (c_ctx c), failures; cbn; naive_solver.
Qed.

Lemma finish_inv i c k failures a s : dial_inv s -> s_callers s !! i = Some c -> drives (c_pc c) = Some k -> s_attempts s !! k = Some a ->
  let a' := finish_attempt failures c a s in
  dial_inv (returns i (a_err a') (Some k) (set_attempts None (<[k := a']> (s_attempts s)) s)).
Proof.
  intros [D1 D2 D3 D4 D5 D6 D7] Hi Hd Ha a'.
  destruct (finish_attempt_done failures c a s) as (F1 & F2 & F3 & F4 & F5 & F6). fold a' in F1, F2, F3, F4, F5, F6.
  destruct (D1 i c k Hi Hd) as [Hk (? & ? & Hdr)]. simplify_eq. destruct (D2 k Hk) as (_ & ? & ? & ? & _ & Hst & _). simplify_eq.
  assert (Hlt : k < length (s_attempts s)) by (eapply lookup_lt_Some; eauto).
  assert (Hnew : <[k := a']> (s_attempts s) !! k = Some a') by (by apply list_lookup_insert_eq).
  constructor; unfold returns; cbn [s_dial s_attempts s_closed set_pc set_attempts]; try done.
  - intros j c' k' Hj Hp. at_caller Hj; cbn in *; [by rewrite Ep in Hp|]. destruct (D1 _ _ _ Hc0 Hp) as [? (? & ? & ?)]. simplify_eq.
  - intros k' b [(? & ? & ?)|(? & Hb)]%list_lookup_insert_Some Hf; simplify_eq; [congruence|]. rewrite (D3 k' b Hb Hf) in Hk. congruence.
  - intros j c' k' Hj Hp. at_caller Hj; cbn in *; [by rewrite Ep in Hp|]. apply lookup_lt_is_Some. rewrite length_insert. apply lookup_lt_is_Some. eauto.
  - intros k' b Hb Hf. apply list_lookup_insert_Some in Hb as [(? & ? & ?)|(? & Hb)]; subst.
    + split_and!; auto. intros Hs. destruct (F6 Hst Hs) as [? Hctx]. split; [done|]. rewrite F2.
      destruct (set_pc_at (a_driver a) (Returned (a_err a') (Some k')) s _ _ Hi) as (c' & ? & E & _). exists c'. rewrite E. naive_solver.
    + destruct (D6 k' b Hb Hf) as (? & ? & ? & G). split_and!; [done..|].
      intros Hs. destruct (G Hs) as (? & c0 & Hc & ?). split; [done|].
      destruct (set_pc_at (a_driver a) (Returned (a_err a') (Some k)) s _ _ Hc) as (c' & ? & E & _). exists c'. by rewrite E.
  - intros j c' r for_ Hj Hp. at_caller Hj; cbn in *.
    + rewrite Ep in Hp. simplify_eq. exists a'. split_and!; auto. intros Hs. rewrite Ec. by apply F6.
    + specialize (D7 _ _ _ _ Hc0 Hp). destruct for_ as [k'|]; [|done]. destruct D7 as (b & Hb & Hf & ?). exists b. split; [|done].
      cbn. rewrite list_lookup_insert_ne; [done|]. intros ->. assert (b = a) by congruence. destruct (D2 k' Hk) as (_ & ? & ? & ? & ? & _). congruence.
Qed.

Ltac ret i c Hp := apply (returns_inv i c); [try apply updateRecord_inv; done|done|by rewrite Hp|cbn; intros; (done || congruence)].

Lemma connect_top_inv i c s : dial_inv s -> s_callers s !! i = Some c -> c_pc c = CallTop -> dial_inv (connect_top i c s).
Proof.
  intros HI Hi Hp. unfold connect_top.
  destruct (s_closed s) eqn:Ec; [ret i c Hp|].
  destruct (negb (s_started s)); [ret i c Hp|].
  destruct (s_up s); [ret i c Hp|].
  destruct (c_ctx c) as [e|] eqn:Ex; [ret i c Hp|].
  destruct (s_dial s) as [k|] eqn:Ed; [|apply (start_inv i c); auto; by rewrite Hp].
  apply (set_pc_inv i c); auto; [by rewrite Hp| |done..]. intros k' ?. simplify_eq/=.
  destruct (di_driven s HI k' Ed) as (_ & a & ? & -> & _). eauto.
Qed.

Lemma connect_wait_inv pick i k c s s' : dial_inv s -> s_callers s !! i = Some c -> c_pc c = CallWait k -> connect_wait pick i k c s = Some s' -> dial_inv s'.
Proof.
  intros HI Hi Hp. unfold connect_wait.
  assert (Hret : forall e, c_ctx c = Some e -> dial_inv (returns i (Some (ErrContext e)) None s))
    by (intros e Ex; ret i c Hp).
  destruct (s_attempts s !! k) as [a|] eqn:Ea; [|destruct (c_ctx c); [intros; simplify_eq; auto|done]].
  assert (Hwk : a_done a = true -> dial_inv (set_pc i (CallWoken k) s)).
  { intros Hf. apply (set_pc_inv i c); auto; [by rewrite Hp| |intros ? ? Hd|done]; intros; simplify_eq/=; eauto.
    destruct (di_driven s HI _ Hd) as (_ & ? & ? & ? & ? & _). simplify_eq. congruence. }
  destruct (c_ctx c), (a_done a), pick; intros; simplify_eq; auto.
Qed.

Lemma connect_woken_inv i k c s : dial_inv s -> s_callers s !! i = Some c -> c_pc c = CallWoken k -> dial_inv (connect_woken i k c s).
Proof.
  intros HI Hi Hp. unfold connect_woken.
  destruct (s_up s); [ret i c Hp|].
  destruct (s_closed s) eqn:Ec; [ret i c Hp|].
  destruct (s_attempts s !! k) as [a|] eqn:Ea; [|done].
  assert (Hf : a_done a = true).
  { destruct (a_done a) eqn:E; [done|]. by destruct (di_woken s HI i c k Hi (f_equal woken Hp) (di_open s HI k a Ea E)). }
  assert (Hret : (a_state a = dialDriverGone -> is_Some (c_ctx c)) -> dial_inv (returns i (a_err a) (Some k) s)).
  { intros Hs. apply (returns_inv i c); auto; [by rewrite Hp|]. intros c' E. exists a. rewrite E. auto. }
  destruct (a_state a) eqn:Es, (c_ctx c) eqn:Ex; try (apply Hret; by eauto).
  apply (set_pc_inv i c); auto; [by rewrite Hp|done..].
Qed.

Lemma connect_dial_inv o i k eps failures c s : dial_inv s -> s_callers s !! i = Some c -> c_pc c = CallDial k eps failures -> dial_inv (connect_dial o i k eps failures c s).
Proof.
  intros HI Hi Hp. assert (Hset : forall pc, drives pc = Some k -> dial_inv (set_pc i pc s)).
  { intros pc Hd. apply (set_pc_inv i c); auto; [by rewrite Hd, Hp|destruct pc; naive_solver..]. }
  unfold connect_dial. destruct eps; [auto|]. destruct (dial_ended k c s); [auto|]. destruct o; auto.
Qed.

Lemma Connect_inv o pick i s s' : dial_inv s -> Connect o pick i s = Some s' -> dial_inv s'.
Proof.
  intros HI. unfold Connect. destruct (s_callers s !! i) as [c|] eqn:Hi; [|done].
  destruct (c_pc c) as [|k|k|k eps failures|k failures|] eqn:Hp; intros; simplify_eq.
  - by apply connect_top_inv.
  - by eapply connect_wait_inv.
  - by apply connect_woken_inv.
  - by apply connect_dial_inv.
  - destruct (di_driver s HI i c k Hi) as [_ (a & Ha & _)]; [by rewrite Hp|]. unfold connect_finish. rewrite Ha.
    pose proof (finish_inv i c k failures a s HI Hi (f_equal drives Hp) Ha) as G. cbv zeta in G |- *.
    destruct (a_up _); [|done]. by apply (updateRecord_inv (c_seq c)) in G.
Qed.

Lemma call_inv self seq n s : dial_inv s -> dial_inv (call self seq n s).
Proof.
  intros [D1 D2 D3 D4 D5 D6 D7]. unfold call. set (pc := if self then _ else _).
  assert (Hpc : drives pc = None /\ waits_for pc = None /\ woken pc = None /\ forall r for_ c, pc = Returned r for_ -> result_ok s c r for_)
    by (unfold pc; destruct self, n; naive_solver).
  destruct Hpc as (P1 & P2 & P3 & P4).
  assert (Hat : forall j c, (s_callers s ++ [mk_caller pc seq n None]) !! j = Some c -> s_callers s !! j = Some c \/ c_pc c = pc)
    by (intros j c [?|[_ [_ <-]%list_lookup_singleton_Some]]%lookup_app_Some; auto).
  constructor; cbn [s_dial s_attempts s_closed s_callers]; auto.
  - intros j c k [?|E]%Hat ?; [eauto|]. congruence.
  - intros k Hk. destruct (D2 k Hk) as (? & a & c & ? & ? & ? & ? & ?). split; [done|]. exists a, c. split_and!; auto. by apply lookup_app_l_Some.
  - intros j c k [?|E]%Hat ?; [eauto|]. congruence.
  - intros j c k [?|E]%Hat ?; [eauto|]. congruence.
  - intros k a Ha Hd. destruct (D6 k a Ha Hd) as (? & ? & ? & G). split_and!; [done..|]. intros Hs.
    destruct (G Hs) as (? & c & ? & ?). split; [done|]. exists c. split; [by apply lookup_app_l_Some|done].
  - intros j c r for_ [Hj|E]%Hat Hp; [exact (D7 j c r for_ Hj Hp)|]. apply P4. congruence.
Qed.

Lemma ctx_inv i e s : dial_inv s ->
  dial_inv (mk_stack (s_closed s) (s_started s) (s_up s) (s_record s) (s_dial s) (s_attempts s)
    (alter (fun c => mk_caller (c_pc c) (c_seq c) (c_endpoints c) (Some (default e (c_ctx c)))) i (s_callers s))).
Proof.
  intros [D1 D2 D3 D4 D5 D6 D7].
  assert (Hat : forall j c, alter (fun c => mk_caller (c_pc c) (c_seq c) (c_endpoints c) (Some (default e (c_ctx c)))) i (s_callers s) !! j = Some c ->
    exists c0, s_callers s !! j = Some c0 /\ c_pc c = c_pc c0 /\ (forall x, c_ctx c0 = Some x -> c_ctx c = Some x)).
  { intros j c (c0 & ? & ->)%alter_Some. exists c0. case_decide; [|done]. split_and!; [done..|]. by cbn; intros x ->. }
  assert (Hto : forall j c0, s_callers s !! j = Some c0 -> exists c,
    alter (fun c => mk_caller (c_pc c) (c_seq c) (c_endpoints c) (Some (default e (c_ctx c)))) i (s_callers s) !! j = Some c /\ c_pc c = c_pc c0 /\ (is_Some (c_ctx c0) -> is_Some (c_ctx c))).
  { intros j c0 Hj. rewrite list_lookup_alter. case_decide; subst; rewrite Hj; eexists; split; [done|split; [done|]|done|done]. cbn. eauto. }
  constructor; cbn [s_dial s_attempts s_closed s_callers]; auto.
  - intros j c k (c0 & ? & E & _)%Hat Hp. rewrite E in Hp. eauto.
  - intros k Hk. destruct (D2 k Hk) as (? & a & c & ? & ? & ? & Hc & ?). split; [done|]. destruct (Hto _ _ Hc) as (c' & ? & E & _). exists a, c'. rewrite E. auto.
  - intros j c k (c0 & ? & E & _)%Hat Hp. rewrite E in Hp. eauto.
  - intros j c k (c0 & ? & E & _)%Hat Hp. rewrite E in Hp. eauto.
  - intros k a Ha Hd. destruct (D6 k a Ha Hd) as (? & ? & ? & G). split_and!; [done..|]. intros Hs.
    destruct (G Hs) as (? & c & Hc & ?). split; [done|]. destruct (Hto _ _ Hc) as (c' & ? & _ & ?). eauto.
  - intros j c r for_ (c0 & Hj & E & Ex)%Hat Hp. rewrite E in Hp. specialize (D7 j c0 r for_ Hj Hp).
    destruct for_ as [k|]; [|destruct r as [[]|]; try done; by apply Ex].
    destruct D7 as (a & ? & ? & ? & Hs). exists a. split_and!; [done..|]. intros Hg. destruct (Hs Hg) as [x Hx]. exists x. auto.
Qed.

(** Cancelling an attempt in flight, and marking it disconnected. *)
Lemma on_attempt_inv k f s : dial_inv s -> s_dial s = Some k ->
  (forall a, a_done (f a) = a_done a /\ a_driver (f a) = a_driver a) ->
  (forall a, a_state a = dialInFlight \/ a_state a = dialDisconnected -> a_state (f a) = dialInFlight \/ a_state (f a) = dialDisconnected) -> dial_inv (on_attempt k f s).
Proof.
  intros [D1 D2 D3 D4 D5 D6 D7] Hk Hf Hst. destruct (D2 k Hk) as (_ & a & _ & Ha & Hd & _).
  assert (Hdone : forall j b, a_done b = true -> alter f k (s_attempts s) !! j = Some b -> s_attempts s !! j = Some b).
  { intros j b Hb (x & Hx & ->)%alter_Some. destruct (Hf x) as [E _]. case_decide; [|done]. simplify_eq. congruence. }
  assert (Hat : forall j b, s_attempts s !! j = Some b -> exists b', alter f k (s_attempts s) !! j = Some b' /\ a_done b' = a_done b /\ a_driver b' = a_driver b /\ (a_done b = true -> b' = b) /\
    (a_state b = dialInFlight \/ a_state b = dialDisconnected -> a_state b' = dialInFlight \/ a_state b' = dialDisconnected)).
  { intros j b Hb. rewrite list_lookup_alter. case_decide; subst; rewrite Hb; eexists; (split; [done|]); [|auto].
    destruct (Hf b) as [E1 E2]. simplify_eq. split_and!; auto; congruence. }
  constructor; cbn [s_dial s_attempts s_closed s_callers on_attempt set_attempts]; auto.
  - intros j c k' Hj Hp. destruct (D1 _ _ _ Hj Hp) as (? & b & Hb & ?). destruct (Hat _ _ Hb) as (b' & ? & ? & E & _). split; [done|]. exists b'. by rewrite E.
  - intros k' Hk'. destruct (D2 k' Hk') as (? & b & c & Hb & ? & ? & ? & ?). rewrite length_alter. split; [done|].
    destruct (Hat _ _ Hb) as (b' & ? & E1 & E2 & _ & E3). exists b', c. rewrite E1, E2. auto 10.
  - intros j b (x & Hx & ->)%alter_Some Hb. case_decide; [|eauto]. destruct (Hf x) as [E _]. rewrite E in Hb. eauto.
  - intros j c k' Hj Hp. destruct (D4 _ _ _ Hj Hp) as [b Hb]. destruct (Hat _ _ Hb) as (? & -> & _). eauto.
  - intros j b Hb Hx. apply Hdone in Hb; [|done]. by apply D6 in Hb.
  - intros j c r for_ Hj Hp. specialize (D7 _ _ _ _ Hj Hp). destruct for_ as [k'|]; [|done]. destruct D7 as (b & Hb & Hx & ?).
    destruct (Hat _ _ Hb) as (b' & ? & _ & _ & E & _). exists b. rewrite <- (E Hx). rewrite (E Hx) in *. auto.
Qed.

Lemma dial_step_inv s s' : step s s' -> dial_inv s -> dial_inv s'.
Proof.
  intros [o pick i x x' HC|self seq n x|i e x|x|x|x Hc|up rec x] HI; [by eapply Connect_inv|by apply call_inv|by apply ctx_inv|..].
  - unfold disconnect. destruct (s_dial x) eqn:E; [|done]. apply on_attempt_inv; auto; intros a; destruct (a_state a) eqn:Es; cbn; rewrite ?Es; auto.
  - unfold close. destruct (s_closed x) eqn:Ec; [done|].
    assert (dial_inv (match s_dial x with Some k => on_attempt k (fun a => mk_attempt (a_state a) (a_err a) (a_done a) true (a_driver a) (a_up a)) x | None => x end)) as [].
    { destruct (s_dial x) eqn:E; [|done]. apply on_attempt_inv; auto. }
    constructor; cbn; auto.
    + intros k a Ha Hd. destruct (di_done0 k a Ha Hd) as (? & ? & _ & ?). auto.
    + intros j c r for_ Hj Hp. specialize (di_result0 _ _ _ _ Hj Hp). destruct for_; [done|]. by destruct r as [[]|].
  - by destruct HI; constructor.
  - by destruct HI; constructor.
Qed.

Lemma dial_reachable_inv s : reachable s -> dial_inv s.
Proof.
  revert s. apply rtc_ind_r; [constructor; cbn; intros; done|]. intros y z _ Hs HI. by eapply dial_step_inv.
Qed.

(** ** Results and progress *)

(** How far a caller is from returning.  Waiting again costs an attempt, and an
    attempt costs a caller that drives it and then returns, so [idle] callers
    bound the attempts to come. *)
Definition is_idle c : nat := match c_pc c with CallTop | CallWait _ | CallWoken _ => 1 | _ => 0 end.
Definition idle s : nat := sum_list_with is_idle (s_callers s).
Definition busy s : nat := match s_dial s with Some _ => 1 | None => 0 end.
Definition weight s c : nat :=
  match c_pc c with
  | CallTop => 3 * (idle s + busy s) + c_endpoints c + 5
  | CallWait k => 3 * (length (s_attempts s) + idle s - k) + c_endpoints c + 4
  | CallWoken k => 3 * (length (s_attempts s) + idle s - k) + c_endpoints c + 3
  | CallDial _ eps _ => eps + 2
  | CallFinish _ _ => 1
  | Returned _ _ => 0
  end.
Definition steps_left s : nat := sum_list_with (weight s) (s_callers s).

Lemma sum_alter {A} (f f' : A -> nat) g (l : list A) i x : l !! i = Some x ->
  (forall j y, l !! j = Some y -> j <> i -> f' y <= f y) ->
  sum_list_with f' (alter g i l) + f x <= sum_list_with f l + f' (g x).
Proof.
  revert i. induction l as [|y l IH]; intros [|i] Hi H; simplify_eq/=.
  - assert (sum_list_with f' l <= sum_list_with f l); [|lia]. clear IH.
    assert (forall y, y ∈ l -> f' y <= f y) by (intros y [j Hj]%list_elem_of_lookup; by apply (H (S j))).
    clear H. induction l as [|z l IH]; [done|]. cbn. pose proof (H0 z ltac:(set_solver)). opose proof (IH _); [set_solver|]. lia.
  - pose proof (H 0 y eq_refl ltac:(done)). opose proof (IH i Hi _); [|lia]. intros j z Hj ?. apply (H (S j)); [done|lia].
Qed.

Lemma idle_alter i c pc s s' : s_callers s !! i = Some c -> s_callers s' = alter (with_pc pc) i (s_callers s) ->
  idle s' + is_idle c <= idle s + is_idle (with_pc pc c).
Proof. intros Hi Hs. unfold idle. rewrite Hs. by apply (sum_alter is_idle is_idle (with_pc pc)). Qed.

(** A step of a caller makes it come closer, and none goes further away. *)
Lemma weight_decreases i c pc s s' : s_callers s !! i = Some c -> s_callers s' = alter (with_pc pc) i (s_callers s) ->
  length (s_attempts s') + idle s' <= length (s_attempts s) + idle s -> idle s' + busy s' <= idle s + busy s ->
  weight s' (with_pc pc c) < weight s c -> steps_left s' < steps_left s.
Proof.
  intros Hi Hs H1 H2 H3. unfold steps_left. rewrite Hs.
  opose proof (sum_alter (weight s) (weight s') (with_pc pc) (s_callers s) i c Hi _) as G; [|lia].
  intros j y Hj _. unfold weight. destruct (c_pc y); lia.
Qed.

(** Steps that leave the attempts alone. *)
Lemma pc_decreases i c pc s s' : s_callers s !! i = Some c -> s_callers s' = alter (with_pc pc) i (s_callers s) ->
  s_attempts s' = s_attempts s -> s_dial s' = s_dial s -> is_idle (with_pc pc c) <= is_idle c ->
  (forall n, n + is_idle c <= idle s + is_idle (with_pc pc c) -> idle s' = n -> weight s' (with_pc pc c) < weight s c) -> steps_left s' < steps_left s.
Proof.
  intros Hi Hs Ha Hd Hle Hw. pose proof (idle_alter i c pc s s' Hi Hs).
  apply (weight_decreases i c pc); auto; [rewrite Ha; lia|unfold busy; rewrite Hd; lia|by eapply Hw].
Qed.

Ltac measure i c pc Hi Hp :=
  apply (pc_decreases i c pc); [exact Hi|reflexivity|reflexivity|reflexivity|unfold is_idle; rewrite Hp; cbn; lia|];
  intros n Hn En; unfold weight, is_idle, busy in *; rewrite ?En, ?Hp in *; cbn in *; try lia.

Lemma Connect_decreases o pick i s s' : dial_inv s -> Connect o pick i s = Some s' -> steps_left s' < steps_left s.
Proof.
  intros HI. unfold Connect. destruct (s_callers s !! i) as [c|] eqn:Hi; [|done].
  destruct (c_pc c) as [|k|k|k eps failures|k failures|] eqn:Hp; intros HC; simplify_eq.
  - unfold connect_top.
    destruct (s_closed s); [measure i c (Returned (Some ErrStackClosed) None) Hi Hp|].
    destruct (negb (s_started s)); [measure i c (Returned (Some ErrNotStarted) None) Hi Hp|].
    destruct (s_up s); [measure i c (Returned None None) Hi Hp|].
    destruct (c_ctx c) as [e|]; [measure i c (Returned (Some (ErrContext e)) None) Hi Hp|].
    destruct (s_dial s) as [k|] eqn:Ed.
    + destruct (di_driven s HI k Ed) as [Hk _]. measure i c (CallWait k) Hi Hp. rewrite Ed. lia.
    + set (s' := set_pc _ _ _).
      pose proof (idle_alter i c (CallDial (length (s_attempts s)) (c_endpoints c) []) s s' Hi eq_refl) as Hn. replace (is_idle c) with 1 in Hn by (unfold is_idle; by rewrite Hp). change (is_idle (with_pc _ c)) with 0 in Hn.
      apply (weight_decreases i c (CallDial (length (s_attempts s)) (c_endpoints c) [])); auto.
      * assert (length (s_attempts s') = S (length (s_attempts s))) by (cbn; rewrite length_app; cbn; lia). lia.
      * assert (busy s' = 1) by done. assert (busy s = 0) by (unfold busy; by rewrite Ed). lia.
      * unfold weight. rewrite Hp. cbn. lia.
  - pose proof (di_waiter s HI i c k Hi (f_equal waits_for Hp)) as Hk%lookup_lt_is_Some. revert HC. unfold connect_wait.
    destruct (c_ctx c) as [e|], (match s_attempts s !! k with Some a => a_done a | None => false end); [destruct pick|..]; intros; simplify_eq;
      first [measure i c (CallWoken k) Hi Hp|measure i c (Returned (Some (ErrContext e)) None) Hi Hp].
  - pose proof (di_waiter s HI i c k Hi (f_equal waits_for Hp)) as Hk. destruct Hk as [a Ha]. unfold connect_woken. rewrite Ha.
    pose proof (lookup_lt_Some _ _ _ Ha) as Hlt.
    destruct (s_up s); [measure i c (Returned None None) Hi Hp|].
    destruct (s_closed s); [measure i c (Returned (Some ErrStackClosed) None) Hi Hp|].
    destruct (a_state a), (c_ctx c); try measure i c (Returned (a_err a) (Some k)) Hi Hp.
    measure i c CallTop Hi Hp. destruct (s_dial s) as [k'|] eqn:Ed; [|lia].
    pose proof (di_woken s HI i c k Hi (f_equal woken Hp)). destruct (di_driven s HI k' Ed) as [? _].
    assert (k <> k') by congruence. lia.
  - unfold connect_dial. destruct eps as [|eps]; [measure i c (CallFinish k failures) Hi Hp|].
    destruct (dial_ended k c s); [measure i c (CallFinish k (failures ++ ["context ended"%string])) Hi Hp|].
    destruct o; first [measure i c (CallFinish k failures) Hi Hp|measure i c (CallFinish k (failures ++ [e])) Hi Hp|measure i c (CallDial k eps (failures ++ [e])) Hi Hp].
  - destruct (di_driver s HI i c k Hi) as [Hd (a & Ha & _)]; [by rewrite Hp|]. unfold connect_finish. rewrite Ha. cbv zeta.
    set (a' := finish_attempt failures c a s). set (s' := returns _ _ _ _).
    assert (Hs : s_callers s' = alter (with_pc (Returned (a_err a') (Some k))) i (s_callers s)) by (unfold s'; by destruct (a_up a')).
    pose proof (idle_alter i c _ s s' Hi Hs) as Hn. replace (is_idle c) with 0 in Hn by (unfold is_idle; by rewrite Hp). change (is_idle (with_pc _ c)) with 0 in Hn.
    assert (length (s_attempts s') = length (s_attempts s)) by (unfold s'; destruct (a_up a'); cbn; apply length_insert).
    apply (weight_decreases i c _ s s' Hi Hs); [lia| |unfold weight; rewrite Hp; cbn; lia].
    assert (busy s' = 0) by (unfold s', busy; by destruct (a_up a')). lia.
Qed.

(** Everything but a new call. *)
Inductive quiet : stack -> stack -> Prop :=
| q_ctx i e s : quiet s (mk_stack (s_closed s) (s_started s) (s_up s) (s_record s) (s_dial s) (s_attempts s)
                           (alter (fun c => mk_caller (c_pc c) (c_seq c) (c_endpoints c) (Some (default e (c_ctx c)))) i (s_callers s)))
| q_disconnect s : quiet s (disconnect s)
| q_close s : quiet s (close s)
| q_view up rec s : quiet s (mk_stack (s_closed s) (s_started s) up rec (s_dial s) (s_attempts s) (s_callers s)).

(** A run without new calls in which the callers make [n] steps. *)
Inductive runs : nat -> stack -> stack -> Prop :=
| runs_nil s : runs 0 s s
| runs_connect n o pick i s s' s'' : Connect o pick i s = Some s' -> runs n s' s'' -> runs (S n) s s''
| runs_quiet n s s' s'' : quiet s s' -> runs n s' s'' -> runs n s s''.

Lemma quiet_step s s' : quiet s s' -> step s s'.
Proof. intros []; constructor. Qed.

Lemma sum_alter_eq {A} (f f' : A -> nat) g (l : list A) i :
  (forall x, f' x = f x) -> (forall x, f (g x) = f x) -> sum_list_with f' (alter g i l) = sum_list_with f l.
Proof.
  intros H1 H2. revert i. induction l as [|y l IH]; [done|]. intros [|i]; cbn; [|by rewrite IH, H1].
  rewrite H1, H2. f_equal. clear IH. induction l; cbn; [done|]. by rewrite H1, IHl.
Qed.

Lemma steps_left_eq s s' : s_callers s' = s_callers s -> length (s_attempts s') = length (s_attempts s) -> s_dial s' = s_dial s -> steps_left s' = steps_left s.
Proof.
  intros H1 H2 H3. unfold steps_left. rewrite H1. assert (Hw : forall c, weight s' c = weight s c).
  { intros c. unfold weight, idle, busy. by rewrite H1, H2, H3. }
  clear H1 H2 H3. induction (s_callers s) as [|c l IH]; cbn; [done|]. by rewrite Hw, IH.
Qed.

Lemma quiet_steps_left s s' : quiet s s' -> steps_left s' = steps_left s.
Proof.
  intros [i e x|x|x|up rec x].
  - unfold steps_left. apply sum_alter_eq; [|by intros []].
    intros c. unfold weight, busy, idle. cbn. by rewrite (sum_alter_eq is_idle is_idle) by done.
  - unfold disconnect. destruct (s_dial x) eqn:E; [|done]. apply steps_left_eq; cbn; [done|apply length_alter|done].
  - unfold close. destruct (s_closed x); [done|]. destruct (s_dial x) eqn:E; apply steps_left_eq; cbn; auto. apply length_alter.
  - by apply steps_left_eq.
Qed.

Lemma runs_bound n s s' : runs n s s' -> dial_inv s -> dial_inv s' /\ n + steps_left s' <= steps_left s.
Proof.
  induction 1 as [|n o pick i s s' s'' HC _ IH|n s s' s'' HQ _ IH]; intros HI; [split; [done|lia]|..].
  - pose proof (Connect_decreases _ _ _ _ _ HI HC). destruct IH; [by eapply Connect_inv|]. split; [done|lia].
  - rewrite <- (quiet_steps_left _ _ HQ). apply IH. eapply dial_step_inv; [by apply quiet_step|done].
Qed.

Lemma driver_steps o pick i c k s : s_callers s !! i = Some c -> drives (c_pc c) = Some k -> is_Some (Connect o pick i s).
Proof. intros Hi Hd. unfold Connect. rewrite Hi. destruct (c_pc c); simplify_eq/=; eauto. Qed.

Lemma caller_progress s : dial_inv s -> (exists i c, s_callers s !! i = Some c /\ forall r for_, c_pc c <> Returned r for_) ->
  exists i, forall o pick, is_Some (Connect o pick i s).
Proof.
  intros HI (i & c & Hi & Hp).
  destruct (c_pc c) as [|k|k|k eps failures|k failures|r for_] eqn:Ep; [..|by destruct (Hp r for_)].
  2: { destruct (di_waiter s HI i c k Hi) as [a Ha]; [by rewrite Ep|].
       destruct (c_ctx c) as [e|] eqn:Ex; [|destruct (a_done a) eqn:Ed].
       - exists i. intros o pick. unfold Connect, connect_wait. rewrite Hi, Ep, Ha, Ex. destruct (a_done a); eauto.
       - exists i. intros o pick. unfold Connect, connect_wait. rewrite Hi, Ep, Ha, Ex, Ed. eauto.
       - destruct (di_driven s HI k) as (_ & a' & d & ? & ? & ? & Hd & Hk); [by eapply di_open|]. exists (a_driver a'). intros o pick. by eapply driver_steps. }
  all: exists i; intros o pick; unfold Connect; rewrite Hi, Ep; eauto.
Qed.

(** C22. However many goroutines call Connect for a peer, and whatever else happens,
    at most one drives a dial attempt; it is the one in the stack's table, and a
    caller that waits does so for an attempt that has finished or is being driven:
    nobody waits for an attempt without a driver. *)
Theorem connect_single_flight s : reachable s ->
  (forall i j c d k l, s_callers s !! i = Some c -> s_callers s !! j = Some d ->
     drives (c_pc c) = Some k -> drives (c_pc d) = Some l -> i = j /\ k = l /\ s_dial s = Some k) /\
  (forall i c k, s_callers s !! i = Some c -> waits_for (c_pc c) = Some k ->
     exists a, s_attempts s !! k = Some a /\
       (a_done a = true \/ exists d, s_callers s !! a_driver a = Some d /\ drives (c_pc d) = Some k)).
Proof.
  intros HI%dial_reachable_inv. split.
  - intros i j c d k l Hi Hj Hc Hd. destruct (di_driver s HI i c k Hi Hc) as [E (a & ? & <-)].
    destruct (di_driver s HI j d l Hj Hd) as [? (? & ? & <-)]. by simplify_eq.
  - intros i c k Hi Hw. destruct (di_waiter s HI i c k Hi Hw) as [a Ha]. exists a. split; [done|].
    destruct (a_done a) eqn:E; [auto|right]. destruct (di_driven s HI k (di_open s HI k a Ha E)) as (_ & b & d & ? & _ & _ & ? & ?). simplify_eq. eauto.
Qed.

(** Two callers: the first drives the attempt, the second waits for it. *)
Definition two_callers : stack :=
  default new_stack (let s := call false 2 2 (call false 1 1 (mk_stack false true false None None [] [])) in
  Connect DialAdmitted true 0 s ≫= Connect DialAdmitted true 1).

Lemma two_callers_reachable : reachable two_callers.
Proof.
  apply (rtc_l _ _ (mk_stack false true false None None [] [])); [by apply (st_start new_stack)|].
  eapply rtc_l; [apply (st_call false 1 1)|]. eapply rtc_l; [apply (st_call false 2 2)|].
  eapply rtc_l; [by apply (st_connect DialAdmitted true 0)|]. eapply rtc_l; [by apply (st_connect DialAdmitted true 1)|]. apply rtc_refl.
Qed.

Lemma connect_single_flight_witness :
  (exists a, s_attempts two_callers !! 0 = Some a /\
    (a_done a = true \/ exists d, s_callers two_callers !! a_driver a = Some d /\ drives (c_pc d) = Some 0)) /\
  s_callers two_callers !! 1 = Some (mk_caller (CallWait 0) 2 2 None).
Proof.
  split; [|reflexivity]. apply (proj2 (connect_single_flight two_callers two_callers_reachable) 1 (mk_caller (CallWait 0) 2 2 None)); reflexivity.
Defined.

(** A nil result is returned by a step that sees the peer connected and offers it
    the caller's record, or is that of an attempt that ended so. *)
Lemma connect_nil o pick i c s s' : dial_inv s -> s_callers s !! i = Some c -> Connect o pick i s = Some s' ->
  (exists for_, s_callers s' !! i = Some (with_pc (Returned None for_) c)) ->
  (s_up s' = true /\ exists seq, s_record s' = Some seq /\ (c_seq c <= seq)%Z) \/
  (exists k a, c_pc c = CallWoken k /\ s_attempts s' !! k = Some a /\ a_done a = true /\ a_up a = true).
Proof.
  intros HI Hi HC [for_ Hr].
  assert (Hup : forall x y, s_up x = true -> s_up (updateRecord y x) = true /\ exists seq, s_record (updateRecord y x) = Some seq /\ (y <= seq)%Z).
  { intros x y Hu. split; [done|]. cbn. destruct (s_record x) as [old|]; [|eexists; split; [done|lia]]. destruct (Z.gtb_spec y old); eexists; split; [done|lia|done|lia]. }
  assert (Hpc : forall x pc, s_callers (set_pc i pc x) !! i = Some (with_pc (Returned None for_) c) -> pc = Returned None for_).
  { intros x pc (c0 & _ & _ & [[_ E]|[? _]])%set_pc_lookup; [by rewrite <- E|done]. }
  revert HC. unfold Connect. rewrite Hi. destruct (c_pc c) as [|k|k|k eps failures|k failures|] eqn:Hp; intros HC; simplify_eq.
  - revert Hr. unfold connect_top, returns. destruct (s_closed s); [by intros ?%Hpc|]. destruct (negb _); [by intros ?%Hpc|].
    destruct (s_up s) eqn:Eu; [intros _; left; by apply Hup|]. destruct (c_ctx c); [by intros ?%Hpc|].
    destruct (s_dial s); by intros ?%Hpc.
  - revert HC. unfold connect_wait, returns. destruct (c_ctx c), (match s_attempts s !! k with Some a => a_done a | None => false end); [destruct pick|..];
      intros; simplify_eq; by apply Hpc in Hr.
  - revert Hr. unfold connect_woken, returns. destruct (s_up s) eqn:Eu; [intros _; left; by apply Hup|]. destruct (s_closed s); [by intros ?%Hpc|].
    destruct (di_waiter s HI i c k Hi (f_equal waits_for Hp)) as [a Ha]. rewrite Ha. intros Hr.
    assert (Hf : a_done a = true).
    { destruct (a_done a) eqn:E; [done|]. by destruct (di_woken s HI i c k Hi (f_equal woken Hp) (di_open s HI k a Ha E)). }
    destruct (di_done s HI k a Ha Hf) as (_ & Hiff & _).
    destruct (a_state a), (c_ctx c); apply Hpc in Hr; simplify_eq; right; exists k, a; split_and!; auto; by apply Hiff.
  - revert Hr. unfold connect_dial. destruct eps; [by intros ?%Hpc|]. destruct (dial_ended k c s); [by intros ?%Hpc|]. destruct o; by intros ?%Hpc.
  - destruct (di_driver s HI i c k Hi) as [_ (a & Ha & _)]; [by rewrite Hp|]. revert Hr. unfold connect_finish. rewrite Ha. cbv zeta.
    destruct (finish_attempt_done failures c a s) as (_ & _ & _ & F4 & _ & _).
    destruct (a_up (finish_attempt failures c a s)) eqn:Eu.
    + intros _. left. assert (Hu : s_up s = true) by (revert Eu; cbn; unfold finish_attempt; repeat case_match; cbn; by destruct (s_up s)).
      apply (Hup s (c_seq c) Hu).
    + intros [=E%F4]%Hpc. congruence.
Qed.

(** C24. What Connect returns.  A call that ends reports nil only if, at that step, the
    peer is connected and its record is at least as new as the caller's, or the
    attempt it waited for ended with the peer connected; a call that has returned
    reports the end of its own context, a closed stack, a refusal before the loop
    or exactly the result of a finished attempt, and a waiter whose own context
    has not ended never reports that another caller gave up driving. *)
Theorem connect_results s : reachable s ->
  (forall o pick i c s' for_, s_callers s !! i = Some c -> Connect o pick i s = Some s' ->
     s_callers s' !! i = Some (with_pc (Returned None for_) c) ->
     (s_up s' = true /\ exists seq, s_record s' = Some seq /\ (c_seq c <= seq)%Z) \/
     (exists k a, c_pc c = CallWoken k /\ s_attempts s' !! k = Some a /\ a_done a = true /\ a_up a = true)) /\
  (forall i c r for_, s_callers s !! i = Some c -> c_pc c = Returned r for_ ->
     result_ok s c r for_ /\
     (forall k, for_ = Some k -> exists a, s_attempts s !! k = Some a /\ (r = None <-> a_up a = true) /\
        (r = Some ErrStackClosed -> s_closed s = true) /\ a_state a <> dialInFlight)).
Proof.
  intros HI%dial_reachable_inv. split.
  - intros o pick i c s' for_ Hi HC Hr. eapply connect_nil; eauto.
  - intros i c r for_ Hi Hp. pose proof (di_result s HI i c r for_ Hi Hp) as Hok. split; [done|].
    intros k ->. destruct Hok as (a & Ha & Hd & -> & _). exists a. destruct (di_done s HI k a Ha Hd) as (? & ? & ? & _). auto.
Qed.

(** The driver's view was admitted: both callers return nil. *)
Definition two_connected : stack :=
  let up s := mk_stack (s_closed s) (s_started s) true (Some 1%Z) (s_dial s) (s_attempts s) (s_callers s) in
  default new_stack (Connect DialAdmitted true 0 two_callers ≫= fun s => Connect DialAdmitted true 0 (up s) ≫= Connect DialAdmitted true 1).

Lemma two_connected_reachable : reachable two_connected.
Proof.
  unfold reachable. etrans; [exact two_callers_reachable|].
  eapply rtc_l; [by apply (st_connect DialAdmitted true 0)|]. eapply rtc_l; [apply (st_view true (Some 1%Z))|].
  eapply rtc_l; [by apply (st_connect DialAdmitted true 0)|]. eapply rtc_l; [by apply (st_connect DialAdmitted true 1)|]. apply rtc_refl.
Qed.

Lemma connect_results_witness : exists s', Connect DialAdmitted true 1 two_connected = Some s' /\ s_up s' = true /\ s_record s' = Some 2%Z.
Proof.
  destruct (Connect DialAdmitted true 1 two_connected) as [s'|] eqn:E; [|discriminate]. exists s'. split; [reflexivity|].
  destruct (proj1 (connect_results two_connected two_connected_reachable) DialAdmitted true 1
    (mk_caller (CallWoken 0) 2 2 None) s' None eq_refl E) as [[Hup _]|(k & a & _ & Ha & _)].
  - vm_compute in E. injection E as <-. reflexivity.
  - split; [exact Hup|]. vm_compute in E. injection E as <-. reflexivity.
  - vm_compute in E. injection E as <-. split; reflexivity.
Defined.

Definition has_returned c : bool := match c_pc c with Returned _ _ => true | _ => false end.

(** C23. Every call returns.  In any run without new calls, whatever the endpoints,
    the peer's view, Disconnect, Close and the contexts do, the callers make at
    most [steps_left] steps between them, and as long as one of them has not
    returned some caller can take its next step whatever its endpoint comes to. *)
Theorem connect_returns n s s' : reachable s -> runs n s s' ->
  n <= steps_left s /\
  ((forall i c, s_callers s' !! i = Some c -> exists r for_, c_pc c = Returned r for_) \/
   (exists i, forall o pick, is_Some (Connect o pick i s'))).
Proof.
  intros HI%dial_reachable_inv HR. destruct (runs_bound n s s' HR HI) as [HI' ?]. split; [lia|].
  destruct (decide (Forall (fun c => has_returned c = true) (s_callers s'))) as [Hall|Hsome].
  - left. intros i c Hi. rewrite Forall_lookup in Hall. specialize (Hall i c Hi). unfold has_returned in Hall. destruct (c_pc c); naive_solver.
  - right. apply caller_progress; [done|]. apply not_Forall_Exists, Exists_exists in Hsome as (c & [i Hi]%list_elem_of_lookup & Hc); [|apply _].
    exists i, c. split; [done|]. intros r for_ E. apply Hc. unfold has_returned. by rewrite E.
Qed.

Lemma connect_returns_witness : 1 <= steps_left two_callers /\ exists i, forall o pick, is_Some (Connect o pick i (default new_stack (Connect (DialFailed "x"%string) true 0 two_callers))).
Proof.
  destruct (connect_returns 1 two_callers (default new_stack (Connect (DialFailed "x"%string) true 0 two_callers))) as [H1 [H2|H2]].
  - exact two_callers_reachable.
  - eapply (runs_connect 0 (DialFailed "x"%string) true 0); [reflexivity|apply runs_nil].
  - exfalso. destruct (H2 0 (mk_caller (CallDial 0 0 ["x"%string]) 1 1 None) eq_refl) as (r & f & E). discriminate E.
  - split; [exact H1|exact H2].
Defined.
