(* ===== verification/OnCancel.v ===== *)
(** * OnCancel: a callback tied to a context (src/internal/ctxutil/cancel.go)

    [OnCancel] registers the callback with [context.AfterFunc] and returns a
    [stop] that any number of goroutines may call.  The state is the context,
    the registration, [stopOnce] and where each call of [stop] is; every
    interleaving with the end of the context and the callback is a run. *)

From S2P Require Import Prelude.

#[local] Set Default Proof Using "Type".

(** The registration: armed, taken back by [stopAfterFunc], its callback started,
    and returned, which closes [done]. *)
Inductive callback := Armed | TakenBack | Running | Finished.

Inductive once := OnceFree | OnceBusy (caller : nat) | OnceDone.

(** A call of [stop]: at [stopOnce.Do], at [stopAfterFunc()], at [<-done], returned. *)
Inductive stop_pc := AtOnce | AtStop | AtDone | Returned.

Record oncancel := mk_oncancel {
  oc_ended : bool;
  oc_callback : callback;
  oc_once : once;
  oc_calls : gmap nat stop_pc;
  oc_starts : nat }.                  (* how often the callback was started *)

Implicit Types o : oncancel.

Definition OnCancel (ended : bool) : oncancel := mk_oncancel ended Armed OnceFree ∅ 0.

(** [context.AfterFunc]'s stop: whether it kept the callback from starting. *)
Definition stopAfterFunc o : bool * oncancel :=
  match oc_callback o with
  | Armed => (true, mk_oncancel (oc_ended o) TakenBack (oc_once o) (oc_calls o) (oc_starts o))
  | _ => (false, o)
  end.

Definition set_once x o : oncancel := mk_oncancel (oc_ended o) (oc_callback o) x (oc_calls o) (oc_starts o).
Definition set_stop (i : nat) pc o : oncancel := mk_oncancel (oc_ended o) (oc_callback o) (oc_once o) (<[i := pc]> (oc_calls o)) (oc_starts o).

(** One step of call [i]; [None] while it waits. *)
Definition stop (i : nat) (pc : stop_pc) o : option oncancel :=
  match pc with
  | AtOnce => match oc_once o with
              | OnceFree => Some (set_stop i AtStop (set_once (OnceBusy i) o))
              | OnceBusy _ => None
              | OnceDone => Some (set_stop i Returned o)
              end
  | AtStop => let '(stopped, o) := stopAfterFunc o in
              Some (if stopped : bool then set_stop i Returned (set_once OnceDone o) else set_stop i AtDone o)
  | AtDone => match oc_callback o with Finished => Some (set_stop i Returned (set_once OnceDone o)) | _ => None end
  | Returned => None
  end.

Inductive oc_step : oncancel -> oncancel -> Prop :=
| oc_call i o : oc_calls o !! i = None -> oc_step o (set_stop i AtOnce o)
| oc_end o : oc_step o (mk_oncancel true (oc_callback o) (oc_once o) (oc_calls o) (oc_starts o))
| oc_own o o' : oc_move o o' -> oc_step o o'
(** What goes on without anyone's doing. *)
with oc_move : oncancel -> oncancel -> Prop :=
| oc_fire o : oc_ended o = true -> oc_callback o = Armed -> oc_move o (mk_oncancel true Running (oc_once o) (oc_calls o) (S (oc_starts o)))
| oc_finish o : oc_callback o = Running -> oc_move o (mk_oncancel (oc_ended o) Finished (oc_once o) (oc_calls o) (oc_starts o))
| oc_stop i pc o o' : oc_calls o !! i = Some pc -> stop i pc o = Some o' -> oc_move o o'.

(** ** The invariant *)

Definition started o : bool := match oc_callback o with Running | Finished => true | _ => false end.

Record oc_inv o : Prop := {
  oi_starts : oc_starts o = if started o then 1 else 0;
  oi_ended : started o = true -> oc_ended o = true;
  oi_busy : forall i pc, oc_calls o !! i = Some pc -> pc = AtStop \/ pc = AtDone -> oc_once o = OnceBusy i;
  oi_owner : forall i, oc_once o = OnceBusy i -> oc_calls o !! i = Some AtStop \/ oc_calls o !! i = Some AtDone;
  oi_atdone : forall i, oc_calls o !! i = Some AtDone -> started o = true;
  oi_returned : forall i, oc_calls o !! i = Some Returned -> oc_once o = OnceDone;
  oi_once : oc_once o = OnceDone -> oc_callback o = TakenBack \/ oc_callback o = Finished;
  oi_taken : oc_callback o = TakenBack -> oc_once o = OnceDone }.

#[local] Ltac calls := repeat match goal with H : <[_ := _]> _ !! _ = Some _ |- _ => apply lookup_insert_Some in H as [[? ?]|[? ?]]; simplify_eq end.

Lemma oc_stop_inv i pc o o' : oc_inv o -> oc_calls o !! i = Some pc -> stop i pc o = Some o' -> oc_inv o'.
Proof.
  intros [I1 I2 I3 I4 I5 I6 I7 I8] Hc. unfold stop, stopAfterFunc. destruct pc; [|..|done].
  - destruct (oc_once o) as [|k|] eqn:Eo; [intros [= <-]|done|intros [= <-]]; split; simpl; rewrite ?Eo; try done.
    + intros j pc Hj Hp. calls; [done|]. exfalso. specialize (I3 _ _ H0 Hp). congruence.
    + intros j [= <-]. left. apply lookup_insert_eq.
    + intros j Hj. calls. by eapply I5.
    + intros j Hj. calls. specialize (I6 _ H0). congruence.
    + intros Ht. specialize (I8 Ht). congruence.
    + intros j pc Hj Hp. calls; [by destruct Hp|]. specialize (I3 _ _ H0 Hp). congruence.
    + intros j Hj. calls. by eapply I5.
  - specialize (I3 i AtStop Hc ltac:(auto)) as Eo.
    assert (oc_callback o <> TakenBack) as Hn by (intros E; rewrite (I8 E) in Eo; done).
    destruct (oc_callback o) eqn:Ec; [|done|..]; intros [= <-]; split; unfold started in *; simpl; rewrite ?Eo, ?Ec in *; try done.
    + intros j pc Hj Hp. calls; [by destruct Hp|]. specialize (I3 _ _ H0 Hp). congruence.
    + intros j Hj. calls. by eapply I5.
    + intros _. by left.
    + intros j pc Hj Hp. calls; [done|]. by eapply I3.
    + intros j [= <-]. right. apply lookup_insert_eq.
    + intros j Hj. calls. by eapply I6.
    + intros j pc Hj Hp. calls; [done|]. by eapply I3.
    + intros j [= <-]. right. apply lookup_insert_eq.
    + intros j Hj. calls. by eapply I6.
  - specialize (I3 i AtDone Hc ltac:(auto)) as Eo. destruct (oc_callback o) eqn:Ec; try done. intros [= <-]; split; unfold started in *; simpl; rewrite ?Eo, ?Ec in *; try done.
    + intros j pc Hj Hp. calls; [by destruct Hp|]. specialize (I3 _ _ H0 Hp). congruence.
    + intros _. by right.
Qed.

Lemma oc_step_inv o o' : oc_inv o -> oc_step o o' -> oc_inv o'.
Proof.
  intros Hi H. destruct H as [i o Hc|o|o o' [o1 He Ea|o1 Er|i pc o1 o2 Hc Hs]].
  - destruct Hi as [I1 I2 I3 I4 I5 I6 I7 I8]. split; simpl; try done.
    + intros j pc Hj Hp. calls; [by destruct Hp|by eapply I3].
    + intros j Hj. destruct (I4 j Hj) as [A|A]; [left|right]; (rewrite lookup_insert_ne; [done|congruence]).
    + intros j Hj. calls. by eapply I5.
    + intros j Hj. calls. by eapply I6.
  - destruct Hi. by split.
  - destruct Hi as [I1 I2 I3 I4 I5 I6 I7 I8]. unfold started in *. rewrite Ea in *. split; simpl; try done.
    + by rewrite I1.
    + intros Ho. by destruct (I7 Ho).
  - destruct Hi as [I1 I2 I3 I4 I5 I6 I7 I8]. unfold started in *. rewrite Er in *. split; simpl; try done. auto.
  - by eapply oc_stop_inv.
Qed.

Lemma OnCancel_inv b o : rtc oc_step (OnCancel b) o -> oc_inv o.
Proof.
  intros H. assert (oc_inv (OnCancel b)) as Hi by (split; simpl; done || (intros; by rewrite lookup_empty in *)).
  clear -H Hi. induction H as [|x y z Hs _ IH]; [done|]. apply IH. by eapply oc_step_inv.
Qed.

(** ** Termination *)

Definition pc_effort (pc : stop_pc) : nat := match pc with AtOnce => 3 | AtStop => 2 | AtDone => 1 | Returned => 0 end.
Definition callback_effort (c : callback) : nat := match c with Armed => 2 | Running => 1 | _ => 0 end.
Definition oc_effort o : nat := map_sum pc_effort (oc_calls o) + callback_effort (oc_callback o).

Lemma move_effort o o' : oc_move o o' -> oc_effort o' < oc_effort o.
Proof.
  unfold oc_effort. destruct 1 as [o He Ea|o Er|i pc o o' Hc Hs]; simpl; [rewrite Ea; simpl; lia|rewrite Er; simpl; lia|].
  pose proof (map_sum_alter pc_effort (oc_calls o) i pc) as Hi. destruct pc; unfold stop, stopAfterFunc in Hs.
  - destruct (oc_once o); [injection Hs as <-; specialize (Hi AtStop Hc)|done|injection Hs as <-; specialize (Hi Returned Hc)]; simpl in *; lia.
  - destruct (oc_callback o) eqn:Ec; injection Hs as <-; simpl; rewrite ?Ec; simpl; [specialize (Hi Returned Hc)|specialize (Hi AtDone Hc)..]; simpl in *; lia.
  - destruct (oc_callback o) eqn:Ec; try done. injection Hs as <-. simpl. rewrite Ec. specialize (Hi Returned Hc). simpl in *. lia.
  - done.
Qed.

(** [OnCancel].  In every interleaving of any number of calls of [stop] with
    the end of the context and the callback: the callback starts at most once
    and only after the context ended; once a call of [stop] has returned the
    callback is not running and never runs again, whatever happens later, so
    the resource it would touch can be handed on; and a call that has not
    returned can go on, or another call, or the callback, can: every call
    returns once the callback does, in a bounded number of steps. *)
Theorem OnCancel_exact b o : rtc oc_step (OnCancel b) o ->
  oc_starts o <= 1 /\ (0 < oc_starts o -> oc_ended o = true) /\
  (forall i, oc_calls o !! i = Some Returned ->
     oc_callback o <> Running /\ forall o', rtc oc_step o o' -> oc_starts o' = oc_starts o /\ oc_callback o' = oc_callback o) /\
  (forall i pc, oc_calls o !! i = Some pc -> pc <> Returned -> exists o', oc_move o o') /\
  (forall o', oc_move o o' -> oc_effort o' < oc_effort o).
Proof.
  intros H. pose proof (OnCancel_inv _ _ H) as Hi. split_and!.
  - rewrite (oi_starts _ Hi). destruct (started o); lia.
  - rewrite (oi_starts _ Hi). intros Hs. apply (oi_ended _ Hi). destruct (started o); [done|lia].
  - intros i Hr. pose proof (oi_once _ Hi (oi_returned _ Hi i Hr)) as Hc. split; [by destruct Hc as [-> | ->]|]. intros o' Hs.
    induction Hs as [|x y z Hs _ IH]; [done|]. pose proof (oc_step_inv _ _ Hi Hs) as Hy.
    assert (oc_calls y !! i = Some Returned /\ oc_callback y = oc_callback x /\ oc_starts y = oc_starts x) as (E1 & E2 & E3).
    { destruct Hs as [j x Hj|x|x y [x1 He Ea|x1 Er|j pc x1 y1 Hj Hst]]; simpl; [|done|rewrite Ea in Hc; by destruct Hc|rewrite Er in Hc; by destruct Hc|].
      - split; [|done]. rewrite lookup_insert_ne; [done|congruence].
      - assert (pc = AtOnce) as ->.
        { destruct pc; [done|exfalso..]; [| |done]; pose proof (oi_busy _ Hi j _ Hj ltac:(auto)) as A; rewrite (oi_returned _ Hi i Hr) in A; done. }
        simpl in Hst. rewrite (oi_returned _ Hi i Hr) in Hst. injection Hst as <-. simpl. split; [|done]. destruct (decide (j = i)) as [->|]; [by rewrite lookup_insert_eq|by rewrite lookup_insert_ne]. }
    rewrite <-E2, <-E3. apply IH; [by eapply rtc_r|done|done|by rewrite E2].
  - intros i pc Hc Hn. assert (forall k, oc_once o = OnceBusy k -> exists o', oc_move o o') as Hb.
    { intros k Hk. destruct (oi_owner _ Hi k Hk) as [Hp|Hp]; [destruct (stopAfterFunc o) as [st o2] eqn:Es; eexists; apply (oc_stop k AtStop _ _ Hp); simpl; by rewrite Es|].
      pose proof (oi_atdone _ Hi k Hp) as Hs. unfold started in Hs. destruct (oc_callback o) eqn:Ec; try done; [eexists; by apply oc_finish|].
      eexists. apply (oc_stop k AtDone); [done|]. simpl. by rewrite Ec. }
    destruct pc; [|by apply (Hb i), (oi_busy _ Hi i _ Hc); auto..|done].
    destruct (oc_once o) as [|k|] eqn:Eo; [|by apply (Hb k)|]; eexists; apply (oc_stop i AtOnce _ _ Hc); simpl; by rewrite Eo.
  - apply move_effort.
Qed.

(** Two callers race the callback. *)
Lemma OnCancel_exact_witness : exists o, oc_calls o !! 1 = Some Returned /\ oc_calls o !! 2 = Some AtOnce /\ oc_callback o = Finished /\ (exists o', oc_move o o') /\
  forall o', rtc oc_step o o' -> oc_callback o' = Finished.
Proof.
  set (o := mk_oncancel true Finished OnceDone {[1 := Returned; 2 := AtOnce]} 1).
  assert (rtc oc_step (OnCancel false) o) as Hr.
  { eapply rtc_l; [by apply (oc_call 1)|]. eapply rtc_l; [apply oc_end|]. eapply rtc_l; [by apply oc_own, oc_fire|].
    eapply rtc_l; [apply oc_own; eapply (oc_stop 1 AtOnce); [by vm_compute|simpl; reflexivity]|]. eapply rtc_l; [apply (oc_call 2); by vm_compute|].
    eapply rtc_l; [apply oc_own; eapply (oc_stop 1 AtStop); [by vm_compute|simpl; reflexivity]|]. eapply rtc_l; [by apply oc_own, oc_finish|].
    eapply rtc_l; [apply oc_own; eapply (oc_stop 1 AtDone); [by vm_compute|simpl; reflexivity]|]. match goal with |- rtc _ ?x _ => replace x with o by by vm_compute end. apply rtc_refl. }
  destruct (OnCancel_exact false o Hr) as (_ & _ & H1 & H2 & _). exists o. split; [done|]. split; [done|]. split; [done|]. split; [by apply (H2 2 AtOnce)|].
  intros o' Ho. by destruct (proj2 (H1 1 eq_refl) o' Ho).
Defined.
