(* ===== verification/Broadcast.v ===== *)
(** * Broadcast: an engine, its channels and their callers (src/broadcast/protocol.go,
    engine.go, channel.go)

    Registration of the broadcast family, the life of the engine's event loop,
    and the calls by which users attach, stop and drop channels and close the
    engine, each a goroutine of its own: every interleaving is a run of
    [hub_step].  What the loop does with an event is [engine_handle] of [Engine].
    [watch_step] is the goroutine that forwards a strategy's asynchronous
    verdicts to the channel. *)

From S2P Require Import Prelude Wire Types CtrlOut Session Channel Actor Queue Engine View Control Family.
Open Scope Z_scope.

#[local] Set Default Proof Using "Type".

(** ** Registration *)

Definition BroadcastFamily : Z := 1.

Definition protocol_code (p : protocol) : Z := match p with BCAST => 1 | SESS => 2 | CHUNK => 3 end.

Definition protocol_specs : list ProtocolSpec :=
  [mk_spec (protocol_code BCAST) 1; mk_spec (protocol_code SESS) 64; mk_spec (protocol_code CHUNK) 128].

(** The capacities of [eventCh] and [deliveryWake]. *)
Definition eventCap : nat := 128.
Definition deliveryWakeCap : nat := 1.

(** ** State *)

Inductive loop := LoopOff | Looping | Draining (waiting : list nat) | LoopDone.

(** A channel: [ch_cancelled] by [Stop] or by the engine, [ch_done] once its actor
    has exited. *)
Record chan := mk_chan { ch_id : ChannelID; ch_cancelled : bool; ch_done : bool }.

(** Where a call is: at its post, waiting, or returned. *)
Inductive call :=
| APost (h : nat) | ADone (h : nat)
| DPost (id : ChannelID) | DDone
| SWait (h : nat) | SPost (h : nat) | SDone (h : nat)
| CWait | CDone.

Record hub := mk_hub {
  hb_reg : registry;
  hb_family : bool;
  hb_started : bool;
  hb_ended : bool;                       (* the engine's context *)
  hb_loop : loop;
  hb_engine : engine;
  hb_world : world;
  hb_events : list engine_event;         (* eventCh *)
  hb_chans : gmap nat chan;
  hb_runs : gset nat;                    (* bindings whose Run has not returned *)
  hb_calls : gmap nat call }.

Implicit Types s : hub.

Definition set_loop l s : hub := mk_hub (hb_reg s) (hb_family s) (hb_started s) (hb_ended s) l (hb_engine s) (hb_world s) (hb_events s) (hb_chans s) (hb_runs s) (hb_calls s).
Definition set_engine e w s : hub := mk_hub (hb_reg s) (hb_family s) (hb_started s) (hb_ended s) (hb_loop s) e w (hb_events s) (hb_chans s) (hb_runs s) (hb_calls s).
Definition set_events l s : hub := mk_hub (hb_reg s) (hb_family s) (hb_started s) (hb_ended s) (hb_loop s) (hb_engine s) (hb_world s) l (hb_chans s) (hb_runs s) (hb_calls s).
Definition set_chans m s : hub := mk_hub (hb_reg s) (hb_family s) (hb_started s) (hb_ended s) (hb_loop s) (hb_engine s) (hb_world s) (hb_events s) m (hb_runs s) (hb_calls s).
Definition set_runs X s : hub := mk_hub (hb_reg s) (hb_family s) (hb_started s) (hb_ended s) (hb_loop s) (hb_engine s) (hb_world s) (hb_events s) (hb_chans s) X (hb_calls s).
Definition set_call (i : nat) c s : hub := mk_hub (hb_reg s) (hb_family s) (hb_started s) (hb_ended s) (hb_loop s) (hb_engine s) (hb_world s) (hb_events s) (hb_chans s) (hb_runs s) (<[i := c]> (hb_calls s)).
Definition set_reg r s : hub := mk_hub r (hb_family s) (hb_started s) (hb_ended s) (hb_loop s) (hb_engine s) (hb_world s) (hb_events s) (hb_chans s) (hb_runs s) (hb_calls s).

(** ** Calls *)

Definition NewEngine (r : registry) (w : world) : hub :=
  mk_hub r false false false LoopOff Engine.NewEngine w [] ∅ ∅ ∅.

Definition Start s : hub :=
  if hb_started s then s
  else mk_hub (hb_reg s) (hb_family s) true (hb_ended s) Looping (hb_engine s) (hb_world s) (hb_events s) (hb_chans s) (hb_runs s) (hb_calls s).

Definition Register s : result error hub :=
  if hb_family s then Err "broadcast already registered"%string
  else if hb_ended s then Err "broadcast engine closed"%string
  else let! r := Family.Register BroadcastFamily protocol_specs (Some deliveryWakeCap) (hb_reg s) in
       Ok (Start (mk_hub r true (hb_started s) (hb_ended s) (hb_loop s) (hb_engine s) (hb_world s) (hb_events s) (hb_chans s) (hb_runs s) (hb_calls s))).

(** The two ways out of [post]: the send, when [eventCh] has room, and the end of
    the engine's context. *)
Definition post (evt : engine_event) s : option hub :=
  if (length (hb_events s) <? eventCap)%nat then Some (set_events (hb_events s ++ [evt]) s) else None.
Definition post_abandoned s : option hub := if hb_ended s then Some s else None.

Definition cancel_chan (h : nat) s : hub := set_chans (alter (fun c => mk_chan (ch_id c) true (ch_done c)) h (hb_chans s)) s.
Definition cancel_engine s : hub :=
  mk_hub (hb_reg s) (hb_family s) (hb_started s) true (hb_loop s) (hb_engine s) (hb_world s) (hb_events s) (hb_chans s) (hb_runs s) (hb_calls s).

(** The context of a channel is a child of the engine's. *)
Definition ctx_ended (h : nat) s : bool :=
  hb_ended s || match hb_chans s !! h with Some c => ch_cancelled c | None => false end.
Definition is_done (h : nat) s : bool := match hb_chans s !! h with Some c => ch_done c | None => false end.

(** [AttachChannel]: the channel exists and its actor runs before the engine is told. *)
Definition AttachChannel (i h : nat) (id : ChannelID) s : hub :=
  set_call i (APost h) (set_chans (<[h := mk_chan id false false]> (hb_chans s)) s).
Definition DropChannel (i : nat) (id : ChannelID) s : hub := set_call i (DPost id) s.
Definition Stop (i h : nat) s : hub := set_call i (SWait h) (cancel_chan h s).
Definition Engine_Close (i : nat) s : hub := set_call i CWait (cancel_engine s).

(** [wg.Wait] of [Close]: the loop and every binding's Run. *)
Definition wg_idle s : bool :=
  match hb_loop s with LoopOff | LoopDone => bool_decide (hb_runs s = ∅) | _ => false end.

Definition chan_id (h : nat) s : ChannelID := match hb_chans s !! h with Some c => ch_id c | None => [] end.

(** What a call that has not returned posts, and where it is afterwards. *)
Definition call_post (c : call) s : option (engine_event * call) :=
  match c with
  | APost h => Some (EvAddChannel (chan_id h s) h, ADone h)
  | DPost id => Some (EvDropChannel id, DDone)
  | SPost h => Some (EvDropChannel (chan_id h s), SDone h)
  | _ => None
  end.

(** A wait that is over. *)
Definition call_wait (c : call) s : option call :=
  match c with
  | SWait h => if is_done h s then Some (SPost h) else None
  | CWait => if wg_idle s then Some CDone else None
  | _ => None
  end.

Section hub.
Context (choice : nat -> gset bytes -> list bytes).

(** ** The loop *)

(** The [cancel] that [addChannel] calls on a duplicate: an effect of the engine. *)
Definition cancelled_by (log : list effect) : list nat :=
  omap (fun fx => match fx with FxCancelChannel h => Some h | _ => None end) log.

Definition run_event (evt : engine_event) s : option hub :=
  letp r := engine_handle choice evt (hb_engine s) (hb_world s) in
  let bound := dom (en_conns r.1) ∖ dom (en_conns (hb_engine s)) in
  Some (foldr cancel_chan (set_runs (hb_runs s ∪ bound) (set_engine r.1 r.2 s)) (cancelled_by (w_log r.2))).

(** [shutdown], up to its wait for the channels: [order] is the order in which the
    bindings are closed, [waiting] that of the wait. *)
Definition run_shutdown (pending : list delivery) (order waiting : list nat) s : hub :=
  let r := Engine.shutdown pending order (hb_engine s) (hb_world s) in
  set_loop (Draining waiting) (set_engine r.1 r.2 s).

(** Events the peers' goroutines post while they run. *)
Definition peer_event (evt : engine_event) : Prop :=
  match evt with EvSubscribe _ _ | EvUnsubscribe _ _ | EvHandshake _ _ => True | _ => False end.

(** A binding's context ends for a reason of its own: its peer is gone, or its
    handshake failed and Run stops it on its way out.  It is a child of the
    peer's context, not of the engine's. *)
Definition stop_conn (p : nat) s : hub :=
  set_engine (on_conn p (fun c => with_stopped true (pc_closed c) c) (hb_engine s)) (hb_world s) s.

Definition conn_stopped (p : nat) s : bool :=
  match en_conns (hb_engine s) !! p with Some c => pc_stopped c | None => false end.

(** The end of [Run], after its context: [stop] again, which closes the control
    state, and, the event posted or the post given up, the return. *)
Definition Run_return (p : nat) s : hub :=
  set_runs (hb_runs s ∖ {[p]}) (set_engine (hb_engine s) (on_ctrl p ctrl_close (hb_world s)) s).

(** The family announces each handle once. *)
Definition fresh_handle (d : delivery) s : Prop :=
  match d with PeerUp peer _ _ => en_bindings (hb_engine s) !! peer = None | _ => True end.

(** ** Steps *)

(** What is begun from outside: calls, events of the peers, deliveries. *)
Inductive hub_call : hub -> hub -> Prop :=
| hc_start s : hub_call s (Start s)
| hc_register s s' : Register s = Ok s' -> hub_call s s'
| hc_other code specs wake r s : code <> BroadcastFamily -> Family.Register code specs wake (hb_reg s) = Ok r -> hub_call s (set_reg r s)
| hc_attach i h id s : hb_calls s !! i = None -> hb_chans s !! h = None -> hub_call s (AttachChannel i h id s)
| hc_drop i id s : hb_calls s !! i = None -> hub_call s (DropChannel i id s)
| hc_stop i j h s : hb_calls s !! i = None -> hb_calls s !! j = Some (ADone h) -> hub_call s (Stop i h s)
| hc_close i s : hb_calls s !! i = None -> hub_call s (Engine_Close i s)
| hc_peer evt s s' : peer_event evt -> post evt s = Some s' -> hub_call s s'
| hc_cancel p s : hub_call s (stop_conn p s)
| hc_delivery d s s' : hb_loop s = Looping -> hb_family s = true -> fresh_handle d s -> run_event (EvDelivery d) s = Some s' -> hub_call s s'.

(** What the goroutines go on to do.  A binding's Run returns once its context has
    ended ([PeerLife] has the way there), having told the engine that it is gone
    unless the engine ends first; shutdown closes every binding, in the order of
    the map. *)
Inductive hub_own : hub -> hub -> Prop :=
| ho_event evt l s s' : hb_loop s = Looping -> hb_events s = evt :: l -> run_event evt (set_events l s) = Some s' -> hub_own s s'
| ho_shutdown pending order waiting s : hb_loop s = Looping -> hb_ended s = true ->
    order ≡ₚ (map_to_list (en_bindings (hb_engine s))).*2 -> waiting ≡ₚ (map_to_list (en_channels (hb_engine s))).*2 -> hub_own s (run_shutdown pending order waiting s)
| ho_joined h l s : hb_loop s = Draining (h :: l) -> is_done h s = true -> hub_own s (set_loop (Draining l) s)
| ho_exit s : hb_loop s = Draining [] -> hub_own s (set_loop LoopDone s)
| ho_chan h c s : hb_chans s !! h = Some c -> ch_done c = false -> ctx_ended h s = true ->
    hub_own s (set_chans (<[h := mk_chan (ch_id c) (ch_cancelled c) true]> (hb_chans s)) s)
| ho_run p s s' : p ∈ hb_runs s -> conn_stopped p s = true -> post (EvGone p) s = Some s' -> hub_own s (Run_return p s')
| ho_run_abandon p s s' : p ∈ hb_runs s -> conn_stopped p s = true -> post_abandoned s = Some s' -> hub_own s (Run_return p s')
| ho_post i c evt c' s s' : hb_calls s !! i = Some c -> call_post c s = Some (evt, c') -> post evt s = Some s' -> hub_own s (set_call i c' s')
| ho_abandon i c evt c' s s' : hb_calls s !! i = Some c -> call_post c s = Some (evt, c') -> post_abandoned s = Some s' -> hub_own s (set_call i c' s')
| ho_wait i c c' s : hb_calls s !! i = Some c -> call_wait c s = Some c' -> hub_own s (set_call i c' s).

Definition hub_step s s' : Prop := hub_call s s' \/ hub_own s s'.
End hub.

(** ** What an event changes of the engine's channels and bindings *)

Definition steady (e e' : engine) : Prop := en_channels e' = en_channels e /\ dom (en_conns e') = dom (en_conns e).

#[export] Instance steady_preorder : PreOrder steady.
Proof. split; [by intros|]. intros a b c [] []. split; congruence. Qed.

Lemma steady_conn p f e : steady e (on_conn p f e).
Proof. split; [done|]. apply dom_alter_L. Qed.
Lemma steady_insert p c c' e m b l : en_conns e !! p = Some c -> steady e (mk_engine (en_channels e) m b (<[p := c']> (en_conns e)) l).
Proof. intros H. split; [done|]. simpl. rewrite dom_insert_L. apply elem_of_dom_2 in H. set_solver. Qed.
Lemma steady_boxed e e' : boxed e e' -> steady e e'.
Proof.
  intros H. split; [apply H|]. apply set_eq. intros p. rewrite !elem_of_dom. pose proof (bx_conns _ _ H p) as Hp. by inversion Hp.
Qed.
Lemma steady_Close p e w : steady e (Close p e w).1.
Proof.
  unfold Close. destruct (en_conns e !! p) as [c|] eqn:E; [|done]. destruct (pc_closed c); [done|].
  destruct (disposeQueuedStreams _ _) as [c' w']. by eapply steady_insert.
Qed.
Lemma steady_close_all l : forall e w, steady e (close_all l e w).1.
Proof.
  induction l as [|p l IH]; intros e w; simpl; [done|]. pose proof (steady_Close p e w). destruct (Close p e w) as [e1 w1]. etrans; [done|apply IH].
Qed.
Lemma steady_enrol_all p pid ids : forall X e, steady e (enrol_all p pid ids X e).2.
Proof.
  induction ids as [|id ids IH]; intros X e; simpl; [done|]. case_bool_decide; [apply IH|]. etrans; [|apply IH]. apply steady_boxed, boxed_enrol.
Qed.
Lemma steady_attach id l : forall e w, steady e (attach_peers id l e w).1.
Proof.
  induction l as [|pid l IH]; intros e w; simpl; [done|]. destruct (en_peers e !! pid) as [p|]; [|apply IH]. etrans; [|apply IH].
  destruct (subscribes e p id); [|done]. apply steady_boxed, boxed_enrol.
Qed.
Lemma steady_detach id l : forall e w, steady e (detach_peers id l e w).1.
Proof.
  induction l as [|pid l IH]; intros e w; simpl; [done|]. destruct (en_peers e !! pid) as [p|]; [|apply IH]. etrans; [|apply IH]. apply steady_conn.
Qed.
#[export] Hint Resolve steady_conn steady_Close steady_enrol_all steady_attach steady_detach : steady.

(** What the event does to the entry of a channel. *)
Definition reg_step (id : ChannelID) (a : option nat) (evt : engine_event) : option nat :=
  match evt with
  | EvAddChannel i h => if decide (i = id) then match a with Some k => Some k | None => Some h end else a
  | EvDropChannel i => if decide (i = id) then None else a
  | _ => a
  end.

Section frame.
Context (choice : nat -> gset bytes -> list bytes).
Implicit Types (e : engine) (w : world).

Lemma steady_removePeer p e w r : removePeer choice p e w = Some r -> steady e r.1.
Proof.
  unfold removePeer. destruct (en_conns e !! p) as [c|]; [|done]. cbn [mbind option_bind]. case_decide; [|by intros [= <-]].
  intros [= <-]. etrans; [|apply steady_boxed, unenrol_all_boxed]. done.
Qed.
Lemma steady_Gone p e w r : handlePeerGone choice p e w = Some r -> steady e r.1.
Proof.
  unfold handlePeerGone. destruct (removePeer choice p e w) as [x|] eqn:E; [|done]. cbn [mbind option_bind]. intros [= <-].
  etrans; [by eapply steady_removePeer|apply steady_Close].
Qed.
Lemma steady_Handshake p l e w r : handlePeerHandshake choice p l e w = Some r -> steady e r.1.
Proof.
  unfold handlePeerHandshake. destruct (en_conns e !! p) as [c|]; [|done]. cbn [mbind option_bind]. destruct (pc_stopped c); [by intros [= <-]|].
  unfold range. set (e1 := with_peers _ e). pose proof (steady_enrol_all p (pc_id c) l ∅ e1) as H. destruct (enrol_all p (pc_id c) l ∅ e1) as [X e2].
  destruct (pc_handshakeDone c); [done|]. intros [= <-]. transitivity e2; [by transitivity e1|]. transitivity (on_conn p (with_subs (Some X)) e2); apply steady_conn.
Qed.
Lemma steady_Subscribed p id e w r : peerSubscribed p id e w = Some r -> steady e r.1.
Proof.
  unfold peerSubscribed. destruct (en_conns e !! p) as [c|]; [|done]. cbn [mbind option_bind]. case_decide; [|by intros [= <-]].
  destruct (pc_subs c); [|done]. case_bool_decide; intros [= <-]; [done|]. etrans; [apply steady_conn|apply steady_boxed, boxed_enrol].
Qed.
Lemma steady_Unsubscribed p id e w r : peerUnsubscribed p id e w = Some r -> steady e r.1.
Proof.
  unfold peerUnsubscribed. destruct (en_conns e !! p) as [c|]; [|done]. cbn [mbind option_bind]. case_decide; [|by intros [= <-]].
  destruct (pc_subs c); [|by intros [= <-]]. case_bool_decide; intros [= <-]; [|done]. etrans; [apply steady_conn|apply steady_boxed, boxed_unenrol].
Qed.
Lemma channels_Delivery d e w r : handleDelivery choice false d e w = Some r -> en_channels r.1 = en_channels e.
Proof.
  destruct d as [peer pid live|peer pr bidi st|peer]; simpl.
  - unfold bindPeer, range. destruct live; by intros [= <-].
  - unfold handleStreamEvent. destruct bidi; [by intros [= <-]|]. destruct (en_bindings e !! peer) as [p|]; [|by intros [= <-]].
    destruct (en_conns e !! p); [|done]. cbn [mbind option_bind]. destruct (enqueueStream _ _ _ _); [|done]. cbn [mbind option_bind]. by intros [= <-].
  - destruct (en_bindings e !! peer) as [p|]; [|by intros [= <-]]. intros H%steady_Gone. apply H.
Qed.

Lemma channels_event evt e w r id : engine_handle choice evt e w = Some r -> en_channels r.1 !! id = reg_step id (en_channels e !! id) evt.
Proof.
  destruct evt as [d|i h|i|p i|p i|p l|p]; simpl.
  - by intros ->%channels_Delivery.
  - intros [= <-]. unfold addChannel, range. destruct (en_channels e !! i) as [k|] eqn:E; [simpl; case_decide; [subst; by rewrite E|done]|].
    match goal with |- context [attach_peers ?a ?b ?c ?d] => rewrite (proj1 (steady_attach a b c d)) end. simpl.
    case_decide; [subst; by rewrite lookup_insert_eq, E|by rewrite lookup_insert_ne].
  - intros [= <-]. unfold removeChannel, range. destruct (en_channels e !! i) as [k|] eqn:E; [|case_decide; [by subst|done]].
    match goal with |- context [detach_peers ?a ?b ?c ?d] => pose proof (proj1 (steady_detach a b c d)) as H; destruct (detach_peers a b c d) as [e' w'] end.
    simpl in *. rewrite H. case_decide; [subst; by rewrite lookup_delete_eq|by rewrite lookup_delete_ne].
  - by intros [-> _]%steady_Subscribed.
  - by intros [-> _]%steady_Unsubscribed.
  - by intros [-> _]%steady_Handshake.
  - by intros [-> _]%steady_Gone.
Qed.

(** Only a delivery makes bindings. *)
Lemma conns_event evt e w r : (forall d, evt <> EvDelivery d) -> engine_handle choice evt e w = Some r -> dom (en_conns r.1) = dom (en_conns e).
Proof.
  destruct evt as [d|i h|i|p i|p i|p l|p]; simpl; intros Hd; [by destruct (Hd d)|..].
  - intros [= <-]. unfold addChannel, range. destruct (en_channels e !! i); [done|].
    match goal with |- context [attach_peers ?a ?b ?c ?d] => by rewrite (proj2 (steady_attach a b c d)) end.
  - intros [= <-]. unfold removeChannel, range. destruct (en_channels e !! i); [|done].
    match goal with |- context [detach_peers ?a ?b ?c ?d] => pose proof (proj2 (steady_detach a b c d)) as H; by destruct (detach_peers a b c d) as [e' w'] end.
  - by intros [_ ?]%steady_Subscribed.
  - by intros [_ ?]%steady_Unsubscribed.
  - by intros [_ ?]%steady_Handshake.
  - by intros [_ ?]%steady_Gone.
Qed.

(** An event only cancels channels. *)
Record ran (s s' : hub) : Prop := {
  rn_same : hb_reg s' = hb_reg s /\ hb_family s' = hb_family s /\ hb_started s' = hb_started s /\ hb_ended s' = hb_ended s /\ hb_loop s' = hb_loop s /\
            hb_events s' = hb_events s /\ hb_calls s' = hb_calls s;
  rn_chans : forall h, option_Forall2 (fun c c' => ch_id c' = ch_id c /\ ch_done c' = ch_done c /\ (ch_cancelled c = true -> ch_cancelled c' = true)) (hb_chans s !! h) (hb_chans s' !! h) }.

Lemma cancel_chans_ran l s : ran s (foldr cancel_chan s l) /\ hb_engine (foldr cancel_chan s l) = hb_engine s /\ hb_runs (foldr cancel_chan s l) = hb_runs s.
Proof.
  induction l as [|h l ([E H] & E2 & E3)]; simpl.
  { split; [|done]. split; [by repeat split|]. intros k. destruct (hb_chans s !! k); constructor. by repeat split. }
  split; [|done]. split; [done|]. intros k. specialize (H k). unfold cancel_chan at 1. simpl. destruct (decide (h = k)) as [->|Hne]; [|by rewrite lookup_alter_ne].
  rewrite lookup_alter_eq. inversion H as [c c' (A & B & C) E4 E5|]; simpl; constructor. by repeat split.
Qed.

Lemma run_event_spec evt s s' : run_event choice evt s = Some s' ->
  ran s s' /\ (forall id, en_channels (hb_engine s') !! id = reg_step id (en_channels (hb_engine s) !! id) evt) /\
  ((forall d, evt <> EvDelivery d) -> hb_runs s' = hb_runs s).
Proof.
  unfold run_event. destruct (engine_handle choice evt (hb_engine s) (hb_world s)) as [r|] eqn:E; [|done]. cbn [mbind option_bind]. cbv zeta. intros [= <-].
  match goal with |- context [foldr cancel_chan ?a ?l] => destruct (cancel_chans_ran l a) as ([A1 A2] & A3 & A4); rewrite A3, A4 end. split; [by split|]. split.
  - intros id. simpl. by eapply channels_event.
  - intros Hd. simpl. rewrite (conns_event _ _ _ _ Hd E). set_solver.
Qed.
End frame.

(** ** The invariant *)

(** The entry of a channel once the queued events are handled. *)
Definition settled s (id : ChannelID) : option nat := foldl (reg_step id) (en_channels (hb_engine s) !! id) (hb_events s).

Definition attached s (h : nat) : Prop := is_Some (hb_chans s !! h) /\ forall j, hb_calls s !! j <> Some (APost h).

Definition call_ok s (c : call) : Prop :=
  match c with
  | APost h => is_Some (hb_chans s !! h)
  | ADone h => attached s h
  | SWait h => attached s h /\ ctx_ended h s = true
  | SPost h => attached s h /\ ctx_ended h s = true /\ is_done h s = true
  | SDone h => attached s h /\ ctx_ended h s = true /\ is_done h s = true /\ (hb_ended s = true \/ forall id, settled s id <> Some h)
  | CWait => hb_ended s = true
  | CDone => hb_ended s = true /\ hb_runs s = ∅ /\ (hb_family s = true -> hb_loop s = LoopDone)
  | _ => True
  end.

Record hub_inv s : Prop := {
  hi_reg : registry_ok (hb_reg s);
  hi_family : hb_family s = true -> hb_started s = true /\ (BroadcastFamily, protocol_specs) ∈ rg_families (hb_reg s);
  hi_loop : hb_started s = true <-> hb_loop s <> LoopOff;
  hi_down : match hb_loop s with Draining _ | LoopDone => hb_ended s = true | _ => True end;
  hi_wait : forall id h, en_channels (hb_engine s) !! id = Some h ->
            match hb_loop s with Draining l => is_done h s = true \/ h ∈ l | LoopDone => is_done h s = true | _ => True end;
  hi_waited : forall l h, hb_loop s = Draining l -> h ∈ l -> is_Some (hb_chans s !! h);
  hi_room : (length (hb_events s) <= eventCap)%nat;
  hi_events : forall d, EvDelivery d ∉ hb_events s;
  hi_known : forall id h, en_channels (hb_engine s) !! id = Some h \/ EvAddChannel id h ∈ hb_events s ->
             exists c, hb_chans s !! h = Some c /\ ch_id c = id;
  hi_done : forall h, is_done h s = true -> ctx_ended h s = true;
  hi_apost : forall i j h, hb_calls s !! i = Some (APost h) -> hb_calls s !! j = Some (APost h) -> i = j;
  hi_calls : forall i c, hb_calls s !! i = Some c -> call_ok s c }.

(** A channel keeps its id; its context and its actor only end. *)
Definition chan_le (c c' : chan) : Prop :=
  ch_id c' = ch_id c /\ (ch_done c = true -> ch_done c' = true) /\ (ch_cancelled c = true -> ch_cancelled c' = true).
Definition chans_le (m m' : gmap nat chan) : Prop := forall h, option_Forall2 chan_le (m !! h) (m' !! h).

Lemma chan_le_refl m : chans_le m m.
Proof. intros h. destruct (m !! h); constructor. by repeat split. Qed.

Lemma chans_le_alter m h f : (forall c, chan_le c (f c)) -> chans_le m (alter f h m).
Proof.
  intros Hf k. destruct (decide (h = k)) as [->|Hne]; [rewrite lookup_alter_eq|rewrite lookup_alter_ne by done; apply chan_le_refl].
  destruct (m !! k); constructor. apply Hf.
Qed.

Lemma chans_le_known m m' h : chans_le m m' -> is_Some (m !! h) -> is_Some (m' !! h).
Proof. intros H [c Hc]. specialize (H h). rewrite Hc in H. inversion H. by eexists. Qed.

Lemma is_done_le s s' h : chans_le (hb_chans s) (hb_chans s') -> is_done h s = true -> is_done h s' = true.
Proof. intros H. unfold is_done. specialize (H h). destruct H as [c c' (_ & A & _)|]; [apply A|done]. Qed.

Lemma ctx_ended_le s s' h : chans_le (hb_chans s) (hb_chans s') -> (hb_ended s = true -> hb_ended s' = true) -> ctx_ended h s = true -> ctx_ended h s' = true.
Proof.
  intros H He. unfold ctx_ended. rewrite !orb_true_iff. intros [?|Hc]; [left; auto|right]. specialize (H h).
  by destruct H as [c c' (_ & _ & A)|]; [apply A|].
Qed.

Lemma attached_le s s' h : chans_le (hb_chans s) (hb_chans s') -> hb_calls s' = hb_calls s -> attached s h -> attached s' h.
Proof. intros H E [A B]. split; [by eapply chans_le_known|by rewrite E]. Qed.

(** What calls have achieved lasts. *)
Lemma call_ok_le s s' c : chans_le (hb_chans s) (hb_chans s') -> hb_calls s' = hb_calls s -> (hb_ended s = true -> hb_ended s' = true) ->
  (forall id h, settled s id <> Some h -> settled s' id <> Some h) ->
  (hb_ended s = true -> hb_runs s = ∅ -> (hb_family s = true -> hb_loop s = LoopDone) -> hb_runs s' = ∅ /\ (hb_family s' = true -> hb_loop s' = LoopDone)) ->
  call_ok s c -> call_ok s' c.
Proof.
  intros Hc Ec He Hs Hr. destruct c; simpl; try done; eauto using chans_le_known, attached_le.
  - intros []. eauto using attached_le, ctx_ended_le.
  - intros (A & B & C). split_and!; eauto using attached_le, ctx_ended_le, is_done_le.
  - intros (A & B & C & D). split_and!; eauto using attached_le, ctx_ended_le, is_done_le. destruct D as [D|D]; [left; auto|right; auto].
  - intros (A & B & C). split; [auto|]. by apply Hr.
Qed.

(** Steps that leave the calls and the loop's place alone. *)
Lemma inv_quiet s s' : hub_inv s ->
  hb_reg s' = hb_reg s /\ hb_family s' = hb_family s /\ hb_started s' = hb_started s /\ hb_ended s' = hb_ended s /\ hb_loop s' = hb_loop s /\ hb_calls s' = hb_calls s ->
  chans_le (hb_chans s) (hb_chans s') -> (forall id, settled s' id = settled s id) ->
  (forall id h, en_channels (hb_engine s') !! id = Some h \/ EvAddChannel id h ∈ hb_events s' -> en_channels (hb_engine s) !! id = Some h \/ EvAddChannel id h ∈ hb_events s) ->
  (length (hb_events s') <= eventCap)%nat -> (forall d, EvDelivery d ∉ hb_events s') -> (hb_runs s' ⊆ hb_runs s \/ (hb_loop s = Looping /\ hb_family s = true)) ->
  (hb_loop s <> Looping -> en_channels (hb_engine s') = en_channels (hb_engine s)) ->
  (forall h, is_done h s' = true -> ctx_ended h s' = true) -> hub_inv s'.
Proof.
  intros [I1 I2 I3 I4 I5 I6 I7 _ I8 I9 I10 I11] (E1 & E2 & E3 & E4 & E5 & E6) Hc Hs Hk Hl Hev Hr He Hd.
  split; rewrite ?E1, ?E2, ?E3, ?E4, ?E5, ?E6; try done.
  - intros id h. destruct (hb_loop s) eqn:El; try done; rewrite He by done; intros H; specialize (I5 id h H).
    + destruct I5; [left|by right]. by eapply is_done_le.
    + by eapply is_done_le.
  - intros l h H1 H2. eapply chans_le_known; [done|by eapply I6].
  - intros id h [c [A B]]%Hk%I8. specialize (Hc h). rewrite A in Hc. inversion Hc as [? c' (C & _) F|]; subst. exists c'. split; [done|congruence].
  - intros i c H. eapply call_ok_le; [done|done|by rewrite E4| | |by apply I11 in H].
    + intros id h. by rewrite Hs.
    + rewrite E2, E5. intros _ Hn Hf. split; [|done]. destruct Hr as [Hr|[A B]]; [set_solver|]. specialize (Hf B). congruence.
Qed.

(** A call begins or moves on; [AttachChannel] and the end of its post are the
    only ones that change which channels are being attached. *)
Lemma inv_call s i c : hub_inv s -> (forall h, c <> APost h) -> call_ok (set_call i c s) c -> hub_inv (set_call i c s).
Proof.
  intros [I1 I2 I3 I4 I5 I6 I7 Iev I8 I9 I10 I11] Hn Hc. split; simpl; try done.
  - intros j k h. rewrite !lookup_insert_Some. intros [[_ ?]|[_ A]] [[_ ?]|[_ B]]; [by destruct (Hn h)..|by eapply I10].
  - assert (forall h, attached s h -> attached (set_call i c s) h) as Ha.
    { intros h [A B]. split; [done|]. intros j. simpl. rewrite lookup_insert_Some. intros [[_ ?]|[_ ?]]; [by apply (Hn h)|by apply (B j)]. }
    intros j c'. rewrite lookup_insert_Some. intros [[-> ->]|[_ Hj]]; [done|]. specialize (I11 _ _ Hj). destruct c'; simpl in *; naive_solver.
Qed.

Lemma settled_post evt s id : settled (set_events (hb_events s ++ [evt]) s) id = reg_step id (settled s id) evt.
Proof. unfold settled. simpl. by rewrite foldl_app. Qed.

(** The entry of a channel is a handle made for it. *)
Lemma settled_id s id h : hub_inv s -> settled s id = Some h -> chan_id h s = id.
Proof.
  intros Hi H. assert (en_channels (hb_engine s) !! id = Some h \/ EvAddChannel id h ∈ hb_events s) as Hk.
  { unfold settled in H. clear Hi. revert H. generalize (hb_events s). intros l. induction l as [|evt l IH] using rev_ind; [by left|].
    rewrite foldl_app. simpl. unfold reg_step at 1. destruct evt as [|i k|i| | | |]; try (intros [?|?]%IH; [by left|right; set_solver]).
    - case_decide as E; [subst i|intros [?|?]%IH; [by left|right; set_solver]].
      destruct (foldl _ _ l) as [k'|]; [intros [?|?]%IH; [by left|right; set_solver]|]. intros [= ->]. right. set_solver.
    - case_decide; [done|]. intros [?|?]%IH; [by left|right; set_solver]. }
  apply (hi_known _ Hi) in Hk as (c & Hc & <-). unfold chan_id. by rewrite Hc.
Qed.

(** An event handled, from [eventCh] or the family. *)
Lemma run_inv choice evt l s s' : hub_inv s -> hb_loop s = Looping -> hb_events s = evt :: l \/ (hb_events s = l /\ hb_family s = true /\ exists d, evt = EvDelivery d) ->
  run_event choice evt (set_events l s) = Some s' -> hub_inv s'.
Proof.
  intros Hi Hl He H. apply run_event_spec in H as (R & Hch & Hru). destruct R as [(E1 & E2 & E3 & E4 & E5 & E6 & E7) Hc]. simpl in *.
  assert (chans_le (hb_chans s) (hb_chans s')) as Hle by (intros h; destruct (Hc h) as [c c' (A & B & C)|]; constructor; split_and!; [done|by rewrite B|done]).
  pose proof (hi_events _ Hi) as Hev. apply (inv_quiet s); [done|done|done| | | | | |congruence|].
  - intros id. unfold settled. rewrite Hch, E6. destruct He as [->|(-> & _ & d & ->)]; done.
  - intros id h. rewrite Hch, E6. destruct He as [->|(-> & _ & d & ->)]; [|by intros [?|?]; [left|right]].
    intros [A|A]; [|right; set_solver]. destruct evt as [|i k|i| | | |]; simpl in A; try by left.
    + case_decide as E; [subst i|by left]. destruct (en_channels (hb_engine s) !! id) as [k'|] eqn:Ek; [left; congruence|right]. injection A as ->. set_solver.
    + case_decide; [done|by left].
  - rewrite E6. pose proof (hi_room _ Hi) as Hr. destruct He as [He|(He & _)]; rewrite He in Hr; simpl in Hr; lia.
  - rewrite E6. intros d. specialize (Hev d). destruct He as [He|(He & _)]; rewrite He in Hev; set_solver.
  - destruct evt as [d| | | | | |]; [|left; by rewrite Hru..]. right. split; [done|]. destruct He as [He|(_ & ? & _)]; [|done]. exfalso. apply (Hev d). rewrite He. set_solver.
  - intros h Hd. eapply ctx_ended_le; [done|by rewrite E4|]. apply (hi_done _ Hi). unfold is_done in *. destruct (Hc h) as [c c' (_ & <- & _)|]; done.
Qed.

(** An event posted. *)
Lemma inv_post evt s s' : hub_inv s -> post evt s = Some s' -> (forall d, evt <> EvDelivery d) ->
  (forall id h, evt = EvAddChannel id h -> (exists c, hb_chans s !! h = Some c /\ ch_id c = id) /\ exists i, hb_calls s !! i = Some (APost h)) ->
  hub_inv s'.
Proof.
  intros Hi. unfold post. destruct (Nat.ltb_spec (length (hb_events s)) eventCap) as [Hr|]; [|done]. intros [= <-] Hd Ha.
  destruct Hi as [I1 I2 I3 I4 I5 I6 I7 Iev I8 I9 I10 I11]. split; simpl; try done.
  - rewrite length_app. simpl. lia.
  - intros d. specialize (Iev d). specialize (Hd d). set_solver.
  - intros id h. rewrite elem_of_app, list_elem_of_singleton. intros [H|[H|H]]; [apply I8; by left|apply I8; by right|]. by apply (Ha id h).
  - intros i c Hc. specialize (I11 _ _ Hc). destruct c; try done. simpl in *. destruct I11 as ([A1 A2] & B & C & D). split_and!; [done..|].
    destruct D as [D|D]; [by left|right]. intros id. rewrite settled_post. specialize (D id). destruct evt as [|i' k|i'| | | |]; simpl; try done; case_decide; try done.
    destruct (settled s id); [done|]. intros [= ->]. destruct (Ha i' h eq_refl) as [_ [j Hj]]. by apply (A2 j).
Qed.

Lemma call_post_inv i c evt c' s s' : hub_inv s -> hb_calls s !! i = Some c -> call_post c s = Some (evt, c') -> post evt s = Some s' -> hub_inv (set_call i c' s').
Proof.
  intros Hi Hc Hp Hs. pose proof (hi_calls _ Hi _ _ Hc) as Hok. assert (hub_inv s') as Hi'.
  { eapply inv_post; [done|done|..].
    - intros d. destruct c; simpl in Hp; naive_solver.
    - intros id h ->. destruct c as [k| | | | | | | |]; simpl in Hp; try discriminate. injection Hp as <- -> <-. split; [|by exists i]. destruct Hok as [c Hk]. exists c.
      split; [done|]. unfold chan_id. by rewrite Hk. }
  unfold post in Hs. destruct (length (hb_events s) <? eventCap)%nat; [|done]. injection Hs as <-.
  apply inv_call; [done|destruct c; naive_solver|]. destruct c as [h| |id| | |h| | |]; simpl in Hp; try discriminate; injection Hp as <- <-; try done.
  - split; [done|]. intros j. simpl. rewrite lookup_insert_Some. intros [[_ ?]|[Hne Hj]]; [done|]. by apply Hne, (hi_apost _ Hi _ _ h).
  - destruct Hok as (A & B & C). simpl. split_and!; [|done..|right].
    + destruct A as [A1 A2]. split; [done|]. intros j. simpl. rewrite lookup_insert_Some. intros [[_ ?]|[_ Hj]]; [done|by apply (A2 j)].
    + intros id. change (settled (set_events (hb_events s ++ [EvDropChannel (chan_id h s)]) s) id <> Some h). rewrite settled_post. simpl.
      case_decide as E; [done|]. intros H%settled_id; [|done]. done.
Qed.

(** The attached channels when a call is added that attaches none. *)
Lemma attached_call i c s h : (forall k, c <> APost k) -> attached s h -> attached (set_call i c s) h.
Proof. intros Hn [A B]. split; [done|]. intros j. simpl. rewrite lookup_insert_Some. intros [[_ ?]|[_ ?]]; [by apply (Hn h)|by apply (B j)]. Qed.

Lemma call_abandon_inv i c evt c' s : hub_inv s -> hb_ended s = true -> hb_calls s !! i = Some c -> call_post c s = Some (evt, c') -> hub_inv (set_call i c' s).
Proof.
  intros Hi He Hc Hp. pose proof (hi_calls _ Hi _ _ Hc) as Hok. apply inv_call; [done|destruct c; naive_solver|].
  destruct c as [h| |id| | |h| | |]; simpl in Hp; try discriminate; injection Hp as <- <-; try done.
  - split; [done|]. intros j. simpl. rewrite lookup_insert_Some. intros [[_ ?]|[Hne Hj]]; [done|]. by apply Hne, (hi_apost _ Hi _ _ h).
  - destruct Hok as (A & B & C). simpl. split_and!; [by apply attached_call|done..|by left].
Qed.

Lemma call_wait_inv i c c' s : hub_inv s -> hb_calls s !! i = Some c -> call_wait c s = Some c' -> hub_inv (set_call i c' s).
Proof.
  intros Hi Hc Hw. pose proof (hi_calls _ Hi _ _ Hc) as Hok. destruct c as [| | | |h| | | |]; simpl in Hw; try discriminate.
  - destruct (is_done h s) eqn:Ed; [|done]. injection Hw as <-. destruct Hok as [A B]. apply inv_call; [done..|]. simpl. split_and!; [by apply attached_call|done|done].
  - unfold wg_idle in Hw. apply inv_call; [done|destruct (hb_loop s); try done; case_bool_decide; naive_solver|].
    destruct (hb_loop s) eqn:El; try done; case_bool_decide as Er; try done; injection Hw as <-; simpl; split_and!; try done.
    intros Hf. apply (hi_family _ Hi) in Hf as [Hf _]. by apply (hi_loop _ Hi) in Hf.
Qed.

(** The end of the loop leaves the table of channels as it is. *)
Lemma loop_shutdown_inv waiting e w s : hub_inv s -> hb_loop s = Looping -> hb_ended s = true -> waiting ≡ₚ (map_to_list (en_channels (hb_engine s))).*2 ->
  en_channels e = en_channels (hb_engine s) -> hub_inv (set_loop (Draining waiting) (set_engine e w s)).
Proof.
  intros Hi Hl He Hw Es. pose proof Hi as [I1 I2 I3 I4 I5 I6 I7 Iev I8 I9 I10 I11]. rewrite Hl in *. split; simpl; rewrite ?Es; try done.
  + split; [done|]. intros _. by apply I3.
  + intros id h Hh. right. rewrite Hw. apply list_elem_of_fmap. exists (id, h). split; [done|]. by apply elem_of_map_to_list.
  + intros l h [= <-] Hh. rewrite Hw in Hh. apply list_elem_of_fmap in Hh as ([id k] & -> & Hk%elem_of_map_to_list). destruct (I8 id k) as (c & Hc & _); [by left|]. by exists c.
  + intros i c Hc. eapply (call_ok_le s); [apply chan_le_refl|done|done| | |by eauto].
    * intros id h. unfold settled. simpl. by rewrite Es.
    * simpl. intros _ Hn Hf. split; [done|]. intros Hfam. specialize (Hf Hfam). congruence.
Qed.

Lemma Run_return_inv p s : hub_inv s -> hub_inv (Run_return p s).
Proof. intros Hi. apply (inv_quiet s); simpl; try done; [apply chan_le_refl|apply Hi|apply Hi|left; set_solver|apply Hi]. Qed.

Lemma hub_own_inv choice s s' : hub_inv s -> hub_own choice s s' -> hub_inv s'.
Proof.
  intros Hi H. destruct H as [evt l s s' Hl He Hr|pending order waiting s Hl He Ho Hw|h l s Hl Hd|s Hl|h c s Hc Hd He|p s s' Hp Hst Hs|p s s' Hp Hst Hs|i c evt c' s s' Hc Hp Hs|i c evt c' s s' Hc Hp Hs|i c c' s Hc Hw].
  - eapply (run_inv choice); eauto.
  - apply loop_shutdown_inv; [done..|]. unfold Engine.shutdown. apply steady_close_all.
  - pose proof Hi as [I1 I2 I3 I4 I5 I6 I7 Iev I8 I9 I10 I11]. rewrite Hl in *. split; simpl; try done.
    + split; [done|]. intros _. by apply I3.
    + intros id k Hk. destruct (I5 id k Hk) as [?|[->|?]%elem_of_cons]; auto.
    + intros l' k [= <-] Hk. eapply I6; [done|]. by right.
    + intros i c Hc. eapply (call_ok_le s); [apply chan_le_refl|done|done|done| |by eauto]. simpl. rewrite Hl. intros _ Hn Hf. split; [done|]. intros Hfam. by specialize (Hf Hfam).
  - pose proof Hi as [I1 I2 I3 I4 I5 I6 I7 Iev I8 I9 I10 I11]. rewrite Hl in *. split; simpl; try done.
    + split; [done|]. intros _. by apply I3.
    + intros id k Hk. destruct (I5 id k Hk) as [?|?%elem_of_nil]; done.
    + intros i c Hc. eapply (call_ok_le s); [apply chan_le_refl|done|done|done| |by eauto]. simpl. by intros.
  - apply (inv_quiet s); simpl; try done.
    + intros k. destruct (decide (h = k)) as [->|Hne]; [rewrite Hc, lookup_insert_eq; by constructor|]. rewrite lookup_insert_ne by done. apply chan_le_refl.
    + apply Hi.
    + apply Hi.
    + by left.
    + intros k. unfold is_done, ctx_ended in *. simpl. destruct (decide (h = k)) as [->|Hne]; [rewrite lookup_insert_eq; by rewrite Hc in He|].
      rewrite lookup_insert_ne by done. apply (hi_done _ Hi).
  - apply Run_return_inv. eapply inv_post; [done|done|done|done].
  - unfold post_abandoned in Hs. destruct (hb_ended s); [|done]. injection Hs as <-. by apply Run_return_inv.
  - by eapply call_post_inv.
  - unfold post_abandoned in Hs. destruct (hb_ended s) eqn:He; [|done]. injection Hs as <-. by eapply call_abandon_inv.
  - by eapply call_wait_inv.
Qed.

Lemma Start_inv s : hub_inv s -> hub_inv (Start s).
Proof.
  intros Hi. unfold Start. destruct (hb_started s) eqn:Es; [done|]. destruct Hi as [I1 I2 I3 I4 I5 I6 I7 Iev I8 I9 I10 I11].
  assert (hb_family s = false) as Ef by (destruct (hb_family s); [destruct I2; congruence|done]).
  assert (hb_loop s = LoopOff) as El by (destruct (hb_loop s); [done|..]; destruct I3 as [_ I3]; rewrite Es in I3; by specialize (I3 ltac:(done))). split; simpl; try done.
  - by rewrite Ef.
  - intros i c Hc. eapply (call_ok_le s); [apply chan_le_refl|done|done|done| |by eauto]. simpl. rewrite Ef. by intros.
Qed.

Lemma set_reg_inv r (family : bool) s : hub_inv s -> registry_ok r -> rg_families (hb_reg s) ⊆ rg_families r ->
  (family = true -> hb_family s = false -> hb_started s = true /\ hb_ended s = false /\ (BroadcastFamily, protocol_specs) ∈ rg_families r) ->
  (hb_family s = true -> family = true) ->
  hub_inv (mk_hub r family (hb_started s) (hb_ended s) (hb_loop s) (hb_engine s) (hb_world s) (hb_events s) (hb_chans s) (hb_runs s) (hb_calls s)).
Proof.
  intros [I1 I2 I3 I4 I5 I6 I7 Iev I8 I9 I10 I11] Hr Hsub Hf Hf'. split; simpl; try done.
  - intros ->. destruct (hb_family s) eqn:E; [destruct (I2 eq_refl); split; [done|by apply Hsub]|]. naive_solver.
  - intros i c Hc. eapply (call_ok_le s); [apply chan_le_refl|done|done|done| |by eauto]. simpl. intros He Hn Hd. split; [done|]. intros ->.
    destruct (hb_family s) eqn:E; [by apply Hd|]. destruct (Hf eq_refl eq_refl) as (_ & ? & _). congruence.
Qed.

Lemma Register_hub_spec s s' : hub_inv s -> Register s = Ok s' -> hub_inv s' /\ hb_family s = false /\ hb_ended s = false /\ registrable BroadcastFamily protocol_specs (Some deliveryWakeCap) (hb_reg s).
Proof.
  intros Hi. unfold Register. destruct (hb_family s) eqn:Ef; [done|]. destruct (hb_ended s) eqn:Ee; [done|].
  destruct (Family.Register _ _ _ _) as [r|] eqn:Er; [|done]. cbn. intros [= <-]. apply Register_spec in Er as [Hreg ->]; [|apply Hi]. split; [|done].
  pose proof (Start_inv s Hi) as Hs.
  match goal with |- hub_inv (Start (mk_hub ?r _ _ _ _ _ _ _ _ _ _)) => set (r' := r); replace (Start (mk_hub _ _ _ _ _ _ _ _ _ _ _)) with
    (mk_hub r' true (hb_started (Start s)) (hb_ended (Start s)) (hb_loop (Start s)) (hb_engine (Start s)) (hb_world (Start s)) (hb_events (Start s)) (hb_chans (Start s)) (hb_runs (Start s)) (hb_calls (Start s))) end.
  2: { unfold Start. simpl. destruct (hb_started s) eqn:Es; [by rewrite Ee, Es|by rewrite Ee]. }
  assert (hb_reg (Start s) = hb_reg s /\ hb_started (Start s) = true /\ hb_ended (Start s) = false) as (E1 & E2 & E3) by (unfold Start; destruct (hb_started s) eqn:Es; simpl; by rewrite ?Es, ?Ee).
  apply set_reg_inv; [done|eapply registered_ok; [apply Hi|done]|rewrite E1; simpl; set_solver| |done].
  intros _ _. split_and!; [done..|]. simpl. set_solver.
Qed.

Lemma hub_call_inv choice s s' : hub_inv s -> hub_call choice s s' -> hub_inv s'.
Proof.
  intros Hi H. destruct H as [s|s s' Hr|code specs wake r s Hn Hr|i h id s Hc Hh|i id s Hc|i j h s Hc Hj|i s Hc|evt s s' He Hp|p s|d s s' Hl Hf Hfr Hr].
  - by apply Start_inv.
  - by apply Register_hub_spec in Hr as [? _].
  - apply Register_spec in Hr as [Hreg ->]; [|apply Hi]. apply (set_reg_inv _ (hb_family s)); [done|eapply registered_ok; [apply Hi|done]|simpl; set_solver|congruence|done].
  - assert (forall k, is_Some (hb_chans s !! k) -> k <> h) as Hne by (intros k [c Hk] ->; congruence).
    assert (forall k c', hb_chans s !! k = Some c' -> <[h := mk_chan id false false]> (hb_chans s) !! k = Some c') as Hold by (intros k c' Hk; rewrite lookup_insert_ne; [done|congruence]).
    assert (forall k, is_done k (AttachChannel i h id s) = is_done k s /\ ctx_ended k (AttachChannel i h id s) = ctx_ended k s) as Hsame.
    { intros k. unfold is_done, ctx_ended. simpl. destruct (decide (h = k)) as [->|]; [by rewrite lookup_insert_eq, Hh|by rewrite lookup_insert_ne]. }
    assert (forall k, attached s k -> attached (AttachChannel i h id s) k) as Hatt.
    { intros k [A B]. split; [destruct A as [c' A]; exists c'; simpl; by apply Hold|]. intros j. simpl. rewrite lookup_insert_Some. intros [[_ [= ->]]|[_ ?]]; [by apply (Hne k A)|by apply (B j)]. }
    destruct Hi as [I1 I2 I3 I4 I5 I6 I7 Iev I8 I9 I10 I11]. split; try done.
    + intros id' k Hk. rewrite (proj1 (Hsame k)). exact (I5 id' k Hk).
    + intros l k Hl Hk. destruct (I6 l k Hl Hk) as [c' A]. exists c'. by apply Hold.
    + intros id' k Hk. destruct (I8 id' k Hk) as (c' & A & B). exists c'. split; [by apply Hold|done].
    + intros k. destruct (Hsame k) as [-> ->]. apply I9.
    + intros a b k. simpl. rewrite !lookup_insert_Some. intros [[<- [= <-]]|[_ A]] [[<- B]|[_ B]]; [done| | |by eapply I10].
      * exfalso. by apply (Hne h (I11 _ _ B)).
      * injection B as ->. exfalso. by apply (Hne k (I11 _ _ A)).
    + intros a c. simpl. rewrite lookup_insert_Some. intros [[_ <-]|[_ A]]; [simpl; rewrite lookup_insert_eq; by eexists|]. specialize (I11 _ _ A).
      destruct c as [k|k|k| |k|k|k| |]; cbn [call_ok] in *; rewrite ?(proj1 (Hsame k)), ?(proj2 (Hsame k)); try done; destruct_and?; split_and?; auto.
      destruct I11 as [c' A']. exists c'. by apply Hold.
  - by apply inv_call.
  - assert (chans_le (hb_chans s) (hb_chans (cancel_chan h s))) as Hle by (apply chans_le_alter; intros c; by repeat split).
    destruct (hi_calls _ Hi _ _ Hj) as [A B]. apply inv_call; [|done|].
    + apply (inv_quiet s); try done; [apply Hi|apply Hi|by left|]. intros k Hk. eapply (ctx_ended_le s); [done|done|]. apply (hi_done _ Hi).
      unfold is_done in *. simpl in Hk. destruct (decide (h = k)) as [->|]; [|by rewrite lookup_alter_ne in Hk]. rewrite lookup_alter_eq in Hk. by destruct (hb_chans s !! k).
    + simpl. split; [apply attached_call; [done|]; by eapply (attached_le s)|]. unfold ctx_ended. simpl. rewrite lookup_alter_eq. destruct A as [c ->]. simpl. apply orb_true_r.
  - apply inv_call; [|done|done]. destruct Hi as [I1 I2 I3 I4 I5 I6 I7 Iev I8 I9 I10 I11]. split; simpl; try done.
    + by destruct (hb_loop s).
    + intros k c Hk. eapply (call_ok_le s); [apply chan_le_refl|done|done|done|done|by eauto].
  - eapply inv_post; [done|done|by intros d ->|by intros id h ->].
  - apply (inv_quiet s); simpl; try done; [apply chan_le_refl|apply Hi|apply Hi|by left|apply Hi].
  - eapply (run_inv choice (EvDelivery d) (hb_events s)); [done|done| |].
    + right. split_and!; [done|done|by exists d].
    + by destruct s.
Qed.

Lemma hub_inv_reachable choice s s' : hub_inv s -> rtc (hub_step choice) s s' -> hub_inv s'.
Proof. intros Hi H. induction H as [|a b c [H|H] _ IH]; [done| |]; apply IH; [by eapply hub_call_inv|by eapply hub_own_inv]. Qed.

Lemma NewEngine_hub r w : registry_ok r -> hub_inv (NewEngine r w).
Proof.
  intros Hr. split; simpl; try done.
  - unfold eventCap. lia.
  - intros d. apply not_elem_of_nil.
  - intros id h [H|H%elem_of_nil]; [|done]. by rewrite lookup_empty in H.
Qed.

(** ** The bindings' contexts *)

(** A binding's context never revives, and a closed binding's has ended. *)
Definition conn_le (c c' : peerConn) : Prop :=
  (pc_stopped c = true -> pc_stopped c' = true) /\
  ((pc_closed c = true -> pc_stopped c = true) -> pc_closed c' = true -> pc_stopped c' = true).

(** The table of bindings untouched, and no binding revived. *)
Record calm (e e' : engine) : Prop := {
  cm_bindings : en_bindings e' = en_bindings e;
  cm_conns : forall p, option_Forall2 conn_le (en_conns e !! p) (en_conns e' !! p) }.

#[export] Instance conn_le_preorder : PreOrder conn_le.
Proof. split; [by intros|]. intros a b c [A1 A2] [B1 B2]. split; auto. Qed.

#[export] Instance calm_preorder : PreOrder calm.
Proof.
  split; [intros e; split; [done|]; intros p; destruct (en_conns e !! p); by constructor|]. intros a b c [A1 A2] [B1 B2]. split; [congruence|].
  intros p. specialize (A2 p). specialize (B2 p). destruct A2 as [x y A|]; inversion B2; subst; constructor. by etrans.
Qed.




Section bindings.
Context (choice : nat -> gset bytes -> list bytes).
Implicit Types (e : engine) (w : world).













End bindings.

(** ** Winding down *)










(** C7. The life of an engine.  However Register, Start, Close, AttachChannel,
    DropChannel and Stop are called and interleaved with the event loop, the
    channels' actors and the peers' events: the stack's registry stays valid and
    has broadcast's protocols once Register succeeded; the loop runs at most
    once, and from Register on; queued events stay within the channel's
    capacity and the engine's table holds each channel under its own id.  When
    Stop has returned the channel's actor has exited, and with the engine alive
    no later event registers it: it has left the table once the queued events
    are handled.  When Close of a registered engine has returned, loop, bindings
    and all registered channels are gone. *)
Theorem hub_lifecycle choice r w s : registry_ok r -> rtc (hub_step choice) (NewEngine r w) s ->
  registry_ok (hb_reg s) /\ (hb_family s = true -> (BroadcastFamily, protocol_specs) ∈ rg_families (hb_reg s) /\ hb_loop s <> LoopOff) /\
  (length (hb_events s) <= eventCap)%nat /\ (forall id h, en_channels (hb_engine s) !! id = Some h -> chan_id h s = id) /\
  (forall i h, hb_calls s !! i = Some (SDone h) ->
     is_done h s = true /\ (hb_ended s = false -> forall id, settled s id <> Some h /\ (hb_events s = [] -> en_channels (hb_engine s) !! id <> Some h))) /\
  (forall i, hb_calls s !! i = Some CDone -> hb_family s = true ->
     hb_ended s = true /\ hb_loop s = LoopDone /\ hb_runs s = ∅ /\ forall id h, en_channels (hb_engine s) !! id = Some h -> is_done h s = true).
Proof.
  intros Hr Hs. pose proof (hub_inv_reachable _ _ _ (NewEngine_hub r w Hr) Hs) as Hi. split_and!; [apply Hi| |apply Hi| | |].
  - intros Hf. destruct (hi_family _ Hi Hf) as [A B]. split; [done|]. by apply (hi_loop _ Hi).
  - intros id h Hh. destruct (hi_known _ Hi id h) as (c & Hc & <-); [by left|]. unfold chan_id. by rewrite Hc.
  - intros i h Hc. destruct (hi_calls _ Hi _ _ Hc) as (_ & _ & A & B). split; [done|]. intros He id. destruct B as [B|B]; [congruence|]. split; [done|].
    intros Ev. specialize (B id). unfold settled in B. by rewrite Ev in B.
  - intros i Hc Hf. destruct (hi_calls _ Hi _ _ Hc) as (A & B & C). specialize (C Hf). split_and!; [done..|]. intros id h Hh.
    pose proof (hi_wait _ Hi id h Hh) as D. by rewrite C in D.
Qed.


(** ** Runs

    Register, attach a channel, attach another under the same id, which the engine
    refuses, and stop the refused one. *)

Definition empty_world : world := mk_world ∅ ∅ ∅ [] 0 0.
Definition open_registry : registry := mk_registry false false [].
Definition demo_id : ChannelID := [Byte.x62].

(** Calls and their posts, with the loop handling each event at once. *)
Definition demo_attach (i h : nat) s : option hub :=
  letp s := post (EvAddChannel demo_id h) (AttachChannel i h demo_id s) in
  run_event demo_choice (EvAddChannel demo_id h) (set_events [] (set_call i (ADone h) s)).

Definition exit_chan (h : nat) s : hub :=
  set_chans (alter (fun c => mk_chan (ch_id c) (ch_cancelled c) true) h (hb_chans s)) s.

Definition demo_stop (i h : nat) s : option hub :=
  letp s := post (EvDropChannel demo_id) (set_call i (SPost h) (exit_chan h (Stop i h s))) in
  run_event demo_choice (EvDropChannel demo_id) (set_events [] (set_call i (SDone h) s)).

Lemma demo_attach_run i h s s' : hb_loop s = Looping -> hb_events s = [] -> hb_calls s !! i = None -> hb_chans s !! h = None ->
  demo_attach i h s = Some s' -> rtc (hub_step demo_choice) s s'.
Proof.
  intros Hl He Hc Hh. unfold demo_attach. destruct (post _ _) as [s1|] eqn:Ep; [|done]. cbn [mbind option_bind]. intros Hr.
  eapply rtc_l; [left; by apply (hc_attach demo_choice i h demo_id)|]. eapply rtc_l.
  { right. eapply (ho_post demo_choice i (APost h) (EvAddChannel demo_id h) (ADone h)); [by simpl; rewrite lookup_insert_eq| |exact Ep].
    simpl. unfold chan_id. simpl. by rewrite lookup_insert_eq. }
  unfold post in Ep. destruct (_ <? _)%nat; [|done]. injection Ep as <-. apply rtc_once. right. eapply (ho_event demo_choice (EvAddChannel demo_id h) []); [done|simpl; by rewrite He|done].
Qed.

Lemma demo_stop_run i j h c s s' : hb_loop s = Looping -> hb_events s = [] -> hb_calls s !! i = None -> hb_calls s !! j = Some (ADone h) ->
  hb_chans s !! h = Some c -> ch_id c = demo_id -> ch_done c = false ->
  demo_stop i h s = Some s' -> rtc (hub_step demo_choice) s s'.
Proof.
  intros Hl He Hc Hj Hh Hid Hd. unfold demo_stop. destruct (post _ _) as [s1|] eqn:Ep; [|done]. cbn [mbind option_bind]. intros Hr.
  assert (hb_chans (Stop i h s) !! h = Some (mk_chan (ch_id c) true false)) as Hh1 by (simpl; rewrite lookup_alter_eq, Hh; simpl; by rewrite Hd).
  assert (set_chans (<[h := mk_chan (ch_id c) true true]> (hb_chans (Stop i h s))) (Stop i h s) = exit_chan h (Stop i h s)) as Ex.
  { unfold exit_chan. f_equal. apply map_eq. intros k. destruct (decide (h = k)) as [->|]; [by rewrite lookup_insert_eq, lookup_alter_eq, Hh1|by rewrite lookup_insert_ne, lookup_alter_ne]. }
  eapply rtc_l; [left; by apply (hc_stop demo_choice i j h)|]. eapply rtc_l.
  { right. apply (ho_chan demo_choice h (mk_chan (ch_id c) true false)); [done|done|]. unfold ctx_ended. rewrite Hh1. apply orb_true_r. }
  cbn [ch_id ch_cancelled]. rewrite Ex. eapply rtc_l.
  { right. apply (ho_wait demo_choice i (SWait h) (SPost h)); [simpl; by rewrite lookup_insert_eq|]. simpl. unfold is_done. rewrite <-Ex. simpl. by rewrite lookup_insert_eq. }
  eapply rtc_l.
  { right. eapply (ho_post demo_choice i (SPost h) (EvDropChannel demo_id) (SDone h)); [simpl; by rewrite lookup_insert_eq| |exact Ep].
    simpl. do 3 f_equal. unfold chan_id. rewrite <-Ex. simpl. rewrite lookup_insert_eq. by rewrite <-Hid. }
  unfold post in Ep. destruct (_ <? _)%nat; [|done]. injection Ep as <-. apply rtc_once. right. eapply (ho_event demo_choice (EvDropChannel demo_id) []); [done|simpl; by rewrite He|done].
Qed.

Definition demo_started : hub := match Register (NewEngine open_registry empty_world) with Ok s => s | Err _ => NewEngine open_registry empty_world end.
Definition demo_one : hub := default demo_started (demo_attach 0 10 demo_started).
Definition demo_two : hub := default demo_one (demo_attach 1 11 demo_one).
Definition demo_stopped : hub := default demo_two (demo_stop 2 11 demo_two).

Lemma open_registry_ok : registry_ok open_registry.
Proof. split; simpl; [unfold MaxFamilies; lia|constructor|apply not_elem_of_nil..|constructor]. Qed.

Lemma demo_run : rtc (hub_step demo_choice) (NewEngine open_registry empty_world) demo_stopped.
Proof.
  eapply rtc_l; [left; apply (hc_register demo_choice _ demo_started); by vm_compute|].
  transitivity demo_one; [apply (demo_attach_run 0 10); by vm_compute|].
  transitivity demo_two; [apply (demo_attach_run 1 11); by vm_compute|].
  apply (demo_stop_run 2 1 11 (mk_chan demo_id true false)); by vm_compute.
Qed.

(** Stopping the channel that the engine refused as a duplicate unregisters the
    channel that holds the id: its actor goes on, never stopped, but the engine
    no longer knows it, its peers are unbound and told that we unsubscribed. *)
Theorem stop_refused_unregisters :
  exists s, rtc (hub_step demo_choice) (NewEngine open_registry empty_world) s /\
    hb_chans s !! 10%nat = Some (mk_chan demo_id false false) /\ (forall i, hb_calls s !! i <> Some (SWait 10) /\ hb_calls s !! i <> Some (SPost 10) /\ hb_calls s !! i <> Some (SDone 10)) /\
    en_channels (hb_engine demo_two) !! demo_id = Some 10%nat /\ hb_ended s = false /\ hb_events s = [] /\ en_channels (hb_engine s) !! demo_id = None.
Proof.
  exists demo_stopped. split; [apply demo_run|]. split; [by vm_compute|]. split; [|by vm_compute].
  assert (map_Forall (fun _ c => c <> SWait 10 /\ c <> SPost 10 /\ c <> SDone 10) (hb_calls demo_stopped)) as H.
  { replace (hb_calls demo_stopped) with (<[2%nat := SDone 11]> (<[1%nat := ADone 11]> (<[0%nat := ADone 10]> (∅ : gmap nat call)))) by by vm_compute.
    repeat (apply map_Forall_insert_2; [done|]). apply map_Forall_empty. }
  intros i. destruct (hb_calls demo_stopped !! i) as [c|] eqn:E; [|done]. destruct (H i c E) as (A & B & C). split_and!; congruence.
Qed.

(** The run in which the refused channel is stopped, and then the engine closed. *)
Lemma hub_lifecycle_witness :
  exists s, hb_calls s !! 2%nat = Some (SDone 11) /\ is_done 11 s = true /\ settled s demo_id <> Some 11%nat /\ en_channels (hb_engine s) !! demo_id <> Some 11%nat.
Proof.
  exists demo_stopped. destruct (hub_lifecycle demo_choice open_registry empty_world demo_stopped open_registry_ok demo_run) as (_ & _ & _ & _ & H & _).
  assert (hb_calls demo_stopped !! 2%nat = Some (SDone 11)) as E by by vm_compute. destruct (H _ _ E) as [A B]. destruct (B ltac:(by vm_compute) demo_id) as [C D].
  split; [done|]. split; [done|]. split; [done|]. apply D. by vm_compute.
Defined.



(** ** The watcher of a strategy's asynchronous verdicts *)

Record VerifyResult (CI : Type) := mk_verify { vr_Peer : PeerID; vr_ChunkID : CI; vr_Data : bytes; vr_Verdict : Verdict }.
Arguments mk_verify {CI}.
Arguments vr_Peer {CI}.
Arguments vr_ChunkID {CI}.
Arguments vr_Data {CI}.
Arguments vr_Verdict {CI}.

Section watcher.
Context {CI R St : Type} `{!ChunkIdentI CI} (msgID : MessageID).
Implicit Types (v : VerifyResult CI) (evt : channelEvent St).

(** Waiting for a result, or to send its event. *)
Inductive watch_pc := WRecv | WSend (evt : channelEvent St) | WDone.

(** [wt_ch] is the strategy's channel: [None] when it is nil, which starts no
    watcher, else its buffered results and whether it is closed; [wt_given] and
    [wt_posted] are the results ever put there and the events sent. *)
Record watch := mk_watch {
  wt_pc : watch_pc;
  wt_ch : list (VerifyResult CI);
  wt_closed : bool;
  wt_ended : bool;                     (* the channel's context *)
  wt_room : bool;                      (* of its inbox *)
  wt_given : list (VerifyResult CI);
  wt_posted : list (channelEvent St) }.

Definition maybeWatchVerified (verified : option (list (VerifyResult CI) * bool)) : option watch :=
  match verified with
  | None => None
  | Some (buffered, closed) => Some (mk_watch WRecv buffered closed false true buffered [])
  end.

Definition verify_event v : option (channelEvent St) :=
  match w_Marshal (vr_ChunkID v) with
  | Ok b => Some (channelVerifyResult msgID (vr_Peer v) b (vr_Data v) (vr_Verdict v))
  | Err _ => None
  end.

Definition set_pc pc t : watch := mk_watch pc (wt_ch t) (wt_closed t) (wt_ended t) (wt_room t) (wt_given t) (wt_posted t).

Inductive watch_step : watch -> watch -> Prop :=
| wt_take v l t : wt_pc t = WRecv -> wt_ch t = v :: l ->
    watch_step t (mk_watch (match verify_event v with Some evt => WSend evt | None => WRecv end) l (wt_closed t) (wt_ended t) (wt_room t) (wt_given t) (wt_posted t))
| wt_over t : wt_pc t = WRecv -> wt_ch t = [] -> wt_closed t = true -> watch_step t (set_pc WDone t)
| wt_send evt t : wt_pc t = WSend evt -> wt_room t = true ->
    watch_step t (mk_watch WRecv (wt_ch t) (wt_closed t) (wt_ended t) (wt_room t) (wt_given t) (wt_posted t ++ [evt]))
| wt_cancel t : wt_pc t <> WDone -> wt_ended t = true -> watch_step t (set_pc WDone t).

(** The strategy's workers, the channel's inbox and its context. *)
Inductive watch_env : watch -> watch -> Prop :=
| we_give v t : wt_closed t = false -> watch_env t (mk_watch (wt_pc t) (wt_ch t ++ [v]) false (wt_ended t) (wt_room t) (wt_given t ++ [v]) (wt_posted t))
| we_close t : watch_env t (mk_watch (wt_pc t) (wt_ch t) true (wt_ended t) (wt_room t) (wt_given t) (wt_posted t))
| we_room b t : watch_env t (mk_watch (wt_pc t) (wt_ch t) (wt_closed t) (wt_ended t) b (wt_given t) (wt_posted t))
| we_end t : watch_env t (mk_watch (wt_pc t) (wt_ch t) (wt_closed t) true (wt_room t) (wt_given t) (wt_posted t)).

(** Everything taken from the strategy's channel: its events are posted but for
    the one being sent. *)
Definition watched (t : watch) : Prop :=
  exists taken, wt_given t = taken ++ wt_ch t /\
    match wt_pc t with
    | WRecv => wt_posted t = omap verify_event taken
    | WSend evt => wt_posted t ++ [evt] = omap verify_event taken
    | WDone => (wt_posted t = omap verify_event taken \/ exists evt, wt_posted t ++ [evt] = omap verify_event taken /\ wt_ended t = true) /\
               (wt_ended t = true \/ (wt_ch t = [] /\ wt_closed t = true /\ wt_posted t = omap verify_event taken))
    end.

Lemma watched_step t t' : watched t -> watch_step t t' \/ watch_env t t' -> watched t'.
Proof.
  intros (taken & Hg & Hp) [H|H].
  - destruct H as [v l t E1 E2|t E1 E2 E3|evt t E1 E2|t E1 E2]; rewrite ?E1 in Hp.
    + exists (taken ++ [v]). simpl. rewrite Hg, E2, <-app_assoc. split; [done|]. rewrite omap_app. simpl. destruct (verify_event v) as [evt|]; simpl; [by rewrite Hp|by rewrite app_nil_r].
    + exists taken. simpl. split; [done|]. split; [by left|]. by right.
    + exists taken. by simpl.
    + exists taken. simpl. split; [done|]. split; [|by left]. destruct (wt_pc t) as [|evt|]; [by left|right; by exists evt|done].
  - destruct H as [v t E|t|b t|t]; simpl.
    + exists taken. simpl. rewrite Hg, <-app_assoc. split; [done|]. destruct (wt_pc t); try done. destruct Hp as [A [B|(_ & B & _)]]; [by split; [|left]|congruence].
    + exists taken. simpl. split; [done|]. destruct (wt_pc t); try done. destruct Hp as [A [B|(? & ? & ?)]]; [by split; [|left]|by split; [|right]].
    + by exists taken.
    + exists taken. simpl. split; [done|]. destruct (wt_pc t); try done. destruct Hp as [A B]. split; [|by left]. destruct A as [A|(evt & A & _)]; [by left|right; by exists evt].
Qed.

(** Whatever the strategy's workers, the inbox and the context do, the watcher
    posts the events of the results it was given in order, each once, leaving
    out those whose chunk id does not marshal; all of them when it ends because
    the strategy closed its channel, and never one too many.  They are events
    the actor's inbox accepts from outside ([external]).  It can always go on
    while the inbox has room and results are pending, and leaves at once when
    the context has ended, so that shutdown's wait for it returns. *)
Theorem watcher_forwards verified t t' : maybeWatchVerified verified = Some t -> rtc (fun a b => watch_step a b \/ watch_env a b) t t' ->
  wt_posted t' `prefix_of` omap verify_event (wt_given t') /\
  Forall external (wt_posted t') /\
  (wt_pc t' = WDone -> wt_ended t' = false -> wt_posted t' = omap verify_event (wt_given t') /\ wt_closed t' = true) /\
  (wt_pc t' <> WDone -> wt_ended t' = true -> watch_step t' (set_pc WDone t')) /\
  (wt_pc t' <> WDone -> wt_room t' = true -> wt_ch t' <> [] \/ wt_closed t' = true -> exists t'', watch_step t' t'').
Proof.
  intros Ht Hr. assert (watched t') as (taken & Hg & Hp).
  { assert (watched t) as Hw by (destruct verified as [[b c]|]; [|done]; injection Ht as <-; by exists []). clear Ht. induction Hr as [|a b c Hs _ IH]; [done|]. apply IH. by eapply watched_step. }
  assert (wt_posted t' `prefix_of` omap verify_event taken) as Hpre.
  { destruct (wt_pc t') as [|evt|]; [by rewrite Hp|exists [evt]; by rewrite Hp|]. destruct Hp as [[Hp|(evt & Hp & _)] _]; [by rewrite Hp|exists [evt]; by rewrite Hp]. }
  rewrite Hg, omap_app. split_and!.
  - etrans; [exact Hpre|]. by eexists.
  - apply Forall_forall. intros evt He. assert (evt ∈ omap verify_event taken) as Hin by (destruct Hpre as [k ->]; apply elem_of_app; by left).
    apply list_elem_of_omap in Hin as (v & _ & Hv). unfold verify_event in Hv. destruct (w_Marshal _); [|done]. by injection Hv as <-.
  - intros E Hn. rewrite E in Hp. destruct Hp as [_ [?|(-> & ? & ->)]]; [congruence|]. by rewrite app_nil_r.
  - intros Hd He. by apply wt_cancel.
  - intros Hd Hroom Hs. destruct (wt_pc t') as [|evt|] eqn:E; [|eexists; by apply (wt_send evt)|done]. destruct (wt_ch t') as [|v l] eqn:El; [|eexists; by eapply wt_take].
    destruct Hs as [?|?]; [done|]. eexists. by apply wt_over.
Qed.
End watcher.
