(* ===== verification/TlsConfig.v ===== *)
(** * TlsConfig: the settings and handshakes of an endpoint's connections
    (src/transport/config.go, the TLS configurations of handshake.go)

    An endpoint has one certificate; each connection gets a TLS configuration of
    its own whose callback fills a slot of its own.  What [crypto/tls] does with
    a configuration over QUIC is written out: protocol negotiation, when it asks
    for certificates and when it calls the callback.  The peer may send anything.
    quic-go decides only when a handshake goes on, and gives a connection's
    context to its callbacks. *)

From S2P Require Import Prelude Types Rlp Identity TlsIdentity.
Open Scope Z_scope.

#[local] Set Default Proof Using "Type".

(** ** The connection policy *)

Definition Second : Z := 1000000000.
Definition defaultClassifyTimeout : Z := 5 * Second.

Record Config := mk_Config {
  cf_maxIncomingStreams : Z; cf_maxIncomingUniStreams : Z;
  cf_maxStreamReceiveWindow : Z; cf_maxConnectionReceiveWindow : Z;
  cf_keepAlivePeriod : Z; cf_maxIdleTimeout : Z;
  cf_disablePathMTUDiscovery : bool;
  cf_classifyTimeout : Z;
  cf_tracer : bool }.                    (* whether it traces to qlog *)

Definition defaultConfig : Config := mk_Config 0 0 0 0 0 0 false defaultClassifyTimeout false.

Definition Interop : Config :=
  let c := defaultConfig in
  mk_Config 256 256 (Z.shiftl 10 20) (Z.shiftl 15 20) (15 * Second) (cf_maxIdleTimeout c) (cf_disablePathMTUDiscovery c) (cf_classifyTimeout c) (cf_tracer c).

Definition Shadow : Config :=
  let c := defaultConfig in
  mk_Config 16384 16384 (cf_maxStreamReceiveWindow c) (cf_maxConnectionReceiveWindow c) (cf_keepAlivePeriod c) (365 * 24 * 3600 * Second) true (cf_classifyTimeout c) true.

Record quic_Config := mk_quic {
  q_Versions : list Z; q_MaxIncomingStreams : Z; q_MaxIncomingUniStreams : Z; q_MaxStreamReceiveWindow : Z; q_MaxConnectionReceiveWindow : Z;
  q_KeepAlivePeriod : Z; q_MaxIdleTimeout : Z; q_DisablePathMTUDiscovery : bool; q_Tracer : bool; q_EnableDatagrams : bool; q_EnableStreamResetPartialDelivery : bool }.

(** [Version1] is quic-go's. *)
Definition quicConfig (Version1 : Z) (p : Config) : quic_Config :=
  mk_quic [Version1] (cf_maxIncomingStreams p) (cf_maxIncomingUniStreams p) (cf_maxStreamReceiveWindow p) (cf_maxConnectionReceiveWindow p)
    (cf_keepAlivePeriod p) (cf_maxIdleTimeout p) (cf_disablePathMTUDiscovery p) (cf_tracer p) true true.

(** ** TLS configurations *)

Definition proto : Type := String.string.
Definition AlpnEthp2p : proto := "ethp2p_0".
Definition AlpnLibp2p : proto := "libp2p".
Definition VersionTLS13 : Z := 772.

Inductive client_auth := NoClientCert | RequireAnyClientCert.

(** The fields the code sets.  [tc_VerifyPeerCertificate] is the callback's closure:
    its slot and the identity it expects. *)
Record tls_Config := mk_tls {
  tc_MinVersion : Z; tc_InsecureSkipVerify : bool; tc_ClientAuth : client_auth; tc_Certificates : list bytes;
  tc_NextProtos : list proto; tc_SessionTicketsDisabled : bool;
  tc_VerifyPeerCertificate : option (nat * bytes) }.

Record server_Config := mk_server { sv_NextProtos : list proto; sv_GetConfigForClient : nat -> tls_Config }.

Record handshaker := mk_handshaker { hk_peerID : bytes; hk_config : tls_Config }.

(** *** crypto/tls over QUIC *)

(** [negotiateALPN] of the server. *)
Definition negotiateALPN (server client : list proto) : result error proto :=
  match server, client with
  | [], _ => Ok String.EmptyString
  | _ :: _, [] => Err "client did not request an application protocol"%string
  | _, _ =>
      match list_find (fun s => s ∈ client) server with
      | Some (_, s) => Ok s
      | None => if decide ("h2"%string ∈ server /\ "http/1.1"%string ∈ client) then Ok String.EmptyString
                else Err "client requested unsupported application protocols"%string
      end
  end.

(** [checkALPN] of the client. *)
Definition checkALPN (client : list proto) (server : proto) : result error unit :=
  if decide (server = String.EmptyString) then
    match client with [] => Ok tt | _ => Err "server did not select an ALPN protocol"%string end
  else if decide (server ∈ client) then Ok tt else Err "server selected unadvertised ALPN protocol"%string.

Section handshakes.
Context {SC : Secp256k1} {PW : Protowire} {X : X509}.
(** Verification of a chain against the roots of the system. *)
Context (roots : list bytes -> bool).

Definition newHandshaker (template : result error Template) (certKey : result error CertPriv) (key : PrivKey) : result error handshaker :=
  let! cert := issueCertificate template certKey key in
  Ok (mk_handshaker (PubKey_PeerID (Public key)) (mk_tls VersionTLS13 true RequireAnyClientCert [cert] [AlpnEthp2p; AlpnLibp2p] true None)).

Definition connConfig (h : handshaker) (slot : nat) (expect : bytes) : tls_Config :=
  let c := hk_config h in
  mk_tls (tc_MinVersion c) (tc_InsecureSkipVerify c) (tc_ClientAuth c) (tc_Certificates c) (tc_NextProtos c) (tc_SessionTicketsDisabled c) (Some (slot, expect)).

Definition serverConfig (h : handshaker) : server_Config := mk_server [AlpnLibp2p] (fun slot => connConfig h slot []).

(** *** The connections of an endpoint *)

Inductive hs_pc := HsNew | HsCerts (p : proto) | HsDone (p : proto) | HsFailed (e : error).

(** [hs_dial] is the identity a dial expects, [None] for an accepted connection;
    [hs_offer] and [hs_certs] are what the peer sent: as a client its protocols,
    and its certificates. *)
Record hs := mk_hs { hs_slot : nat; hs_dial : option bytes; hs_offer : list proto; hs_certs : list bytes; hs_at : hs_pc }.

Record hss := mk_hss { hn_slots : gmap nat (option PubKey); hn_conns : gmap nat hs }.
Implicit Types s : hss.

Definition no_handshakes : hss := mk_hss ∅ ∅.
Definition set_conn (i : nat) (c : hs) s : hss := mk_hss (hn_slots s) (<[i := c]> (hn_conns s)).
Definition at_pc (pc : hs_pc) (c : hs) : hs := mk_hs (hs_slot c) (hs_dial c) (hs_offer c) (hs_certs c) pc.

(** A dial's own slot, or the one [ConnContext] puts into an accepted connection's
    context: a fresh one. *)
Definition new_conn (i slot : nat) (dial : option bytes) s : hss :=
  mk_hss (<[slot := None]> (hn_slots s)) (<[i := mk_hs slot dial [] [] HsNew]> (hn_conns s)).

(** The configuration of a connection: [Dial]'s, or what [GetConfigForClient] returns
    for the slot of the connection's context. *)
Definition conn_tls (h : handshaker) (c : hs) : tls_Config :=
  match hs_dial c with Some expect => connConfig h (hs_slot c) expect | None => sv_GetConfigForClient (serverConfig h) (hs_slot c) end.

(** The peer's hello: as a client it offers [offer], as a server it selects [sel]. *)
Definition peer_hello (h : handshaker) (i : nat) (c : hs) (offer : list proto) (sel : proto) s : hss :=
  let protos := tc_NextProtos (conn_tls h c) in
  match hs_dial c with
  | None => let c := mk_hs (hs_slot c) None offer (hs_certs c) (hs_at c) in
            match negotiateALPN protos offer with Ok p => set_conn i (at_pc (HsCerts p) c) s | Err e => set_conn i (at_pc (HsFailed e) c) s end
  | Some _ => match checkALPN protos sel with Ok _ => set_conn i (at_pc (HsCerts sel) c) s | Err e => set_conn i (at_pc (HsFailed e) c) s end
  end.

(** The peer's certificates: a client must get one and checks the chain unless told
    not to, a server may insist on one; then the callback, which fills its slot.
    [None] is a panic of the callback. *)
Definition peer_certs (h : handshaker) (i : nat) (c : hs) (p : proto) (raw : list bytes) s : option hss :=
  let cfg := conn_tls h c in
  let c := mk_hs (hs_slot c) (hs_dial c) (hs_offer c) raw (hs_at c) in
  let fail e := Some (set_conn i (at_pc (HsFailed e) c) s) in
  match raw, hs_dial c, tc_ClientAuth cfg with
  | [], Some _, _ => fail "received empty certificates message"%string
  | [], None, RequireAnyClientCert => fail "client didn't provide a certificate"%string
  | [], None, NoClientCert => Some (set_conn i (at_pc (HsDone p) c) s)
  | _ :: _, dial, _ =>
      if (if dial then negb (tc_InsecureSkipVerify cfg) && negb (roots raw) else false) then fail "failed to verify certificate"%string
      else match tc_VerifyPeerCertificate cfg with
           | None => Some (set_conn i (at_pc (HsDone p) c) s)
           | Some (slot, expect) =>
               letp r := VerifyPeerCertificate expect raw in
               match r with
               | Err e => fail e
               | Ok key => Some (mk_hss (<[slot := Some key]> (hn_slots s)) (<[i := at_pc (HsDone p) c]> (hn_conns s)))
               end
           end
  end.

(** All handshakes of an endpoint, interleaved.  A client may offer to resume a
    session, which a server that issues tickets accepts without certificates. *)
Inductive hs_step (h : handshaker) : hss -> hss -> Prop :=
| st_new i slot dial s : hn_conns s !! i = None -> hn_slots s !! slot = None -> hs_step h s (new_conn i slot dial s)
| st_hello i c offer sel s : hn_conns s !! i = Some c -> hs_at c = HsNew -> hs_step h s (peer_hello h i c offer sel s)
| st_certs i c p raw s s' : hn_conns s !! i = Some c -> hs_at c = HsCerts p -> peer_certs h i c p raw s = Some s' -> hs_step h s s'
| st_resume i c p s : hn_conns s !! i = Some c -> hs_at c = HsCerts p -> hs_dial c = None -> tc_SessionTicketsDisabled (conn_tls h c) = false ->
    hs_step h s (set_conn i (at_pc (HsDone p) c) s)
| st_fail i c p e s : hn_conns s !! i = Some c -> hs_at c = HsCerts p -> hs_step h s (set_conn i (at_pc (HsFailed e) c) s).

(** [acceptedPeerID], and the same expression in [Dial]: a nil key panics. *)
Definition acceptedPeerID (c : hs) s : option bytes := letp k := mjoin (hn_slots s !! hs_slot c) in Some (PubKey_PeerID k).

(** ** The invariant *)

Definition proto_ok (c : hs) (p : proto) : Prop :=
  (p = AlpnEthp2p \/ p = AlpnLibp2p) /\ (hs_dial c = None -> p = AlpnEthp2p <-> AlpnEthp2p ∈ hs_offer c).

(** What the key in a connection's slot is worth. *)
Definition identified (c : hs) (k : PubKey) : Prop :=
  vouches (hs_certs c) k /\ forall expect, hs_dial c = Some expect -> expect <> [] -> PubKey_PeerID k = expect.

Definition hs_ok s (c : hs) : Prop :=
  match hs_at c with
  | HsNew => hn_slots s !! hs_slot c = Some None
  | HsCerts p => hn_slots s !! hs_slot c = Some None /\ proto_ok c p
  | HsDone p => (exists k, hn_slots s !! hs_slot c = Some (Some k) /\ identified c k) /\ proto_ok c p
  | HsFailed _ => is_Some (hn_slots s !! hs_slot c)
  end.

Record hss_inv s : Prop := {
  hi_conns : forall i c, hn_conns s !! i = Some c -> hs_ok s c;
  hi_slots : forall i j c d, hn_conns s !! i = Some c -> hn_conns s !! j = Some d -> hs_slot c = hs_slot d -> i = j }.

(** The configuration [newHandshaker] makes. *)
Definition configured (h : handshaker) : Prop :=
  exists cert, hk_config h = mk_tls VersionTLS13 true RequireAnyClientCert [cert] [AlpnEthp2p; AlpnLibp2p] true None.

Lemma newHandshaker_configured template certKey key h : newHandshaker template certKey key = Ok h -> configured h.
Proof. unfold newHandshaker. destruct (issueCertificate _ _ _) as [cert|]; [|done]. intros [= <-]. by exists cert. Qed.

Lemma hs_ok_slot s c : hs_ok s c -> is_Some (hn_slots s !! hs_slot c).
Proof. unfold hs_ok. destruct (hs_at c); intros H; [by eexists|destruct H; by eexists|destruct H as [(k & ? & _) _]; by eexists|done]. Qed.

(** A connection that is not touched keeps what holds of it. *)
Lemma hs_ok_ext s s' c : hn_slots s' !! hs_slot c = hn_slots s !! hs_slot c -> hs_ok s c -> hs_ok s' c.
Proof. unfold hs_ok. by intros ->. Qed.

Lemma inv_set s i c c' : hss_inv s -> hn_conns s !! i = Some c -> hs_slot c' = hs_slot c -> hs_ok s c' -> hss_inv (set_conn i c' s).
Proof.
  intros [H1 H2] Hc Hs Hok. split; cbn.
  - intros j d. rewrite lookup_insert_Some. intros [[_ <-]|[_ Hd]]; [done|by apply (H1 j)].
  - intros j k d e. rewrite !lookup_insert_Some. intros [[<- <-]|[Hj Hd]] [[<- <-]|[Hk He]]; rewrite ?Hs; try done; eauto.
Qed.

Lemma negotiate_ok client p : negotiateALPN [AlpnEthp2p; AlpnLibp2p] client = Ok p -> (p = AlpnEthp2p \/ p = AlpnLibp2p) /\ (p = AlpnEthp2p <-> AlpnEthp2p ∈ client).
Proof.
  unfold negotiateALPN. destruct client as [|q client]; [done|]. generalize (q :: client). clear. intros client. cbn. repeat case_decide; cbn; intros [= <-]; try (split; [by auto|by split]).
  set_solver.
Qed.

Lemma check_ok p : checkALPN [AlpnEthp2p; AlpnLibp2p] p = Ok tt -> p = AlpnEthp2p \/ p = AlpnLibp2p.
Proof. unfold checkALPN. case_decide as E; [done|]. case_decide as E'; [|done]. intros _. rewrite !elem_of_cons, elem_of_nil in E'. naive_solver. Qed.

Lemma peer_hello_inv h i c offer sel s : configured h -> hss_inv s -> hn_conns s !! i = Some c -> hs_at c = HsNew -> hss_inv (peer_hello h i c offer sel s).
Proof.
  intros [cert Hc] Hi Hl Ha. pose proof (hi_conns _ Hi _ _ Hl) as Hok. unfold hs_ok in Hok. rewrite Ha in Hok. unfold peer_hello, conn_tls. cbv zeta.
  destruct (hs_dial c) as [expect|] eqn:Ed; unfold serverConfig, connConfig; cbn [tc_NextProtos sv_GetConfigForClient]; rewrite Hc; cbn [tc_NextProtos].
  - destruct (checkALPN _ sel) as [[]|] eqn:E; apply (inv_set _ _ c); try done; cbn; [|by eexists]. split; [done|]. split; [by apply check_ok|cbn; by rewrite Ed].
  - destruct (negotiateALPN _ offer) as [p|] eqn:E; apply (inv_set _ _ c); try done; cbn; [|by eexists]. split; [done|]. apply negotiate_ok in E as [? ?]. by split.
Qed.

Lemma peer_certs_inv h i c p raw s s' : configured h -> hss_inv s -> hn_conns s !! i = Some c -> hs_at c = HsCerts p -> peer_certs h i c p raw s = Some s' -> hss_inv s'.
Proof.
  intros [cert Hc] Hi Hl Ha. pose proof (hi_conns _ Hi _ _ Hl) as Hok. unfold hs_ok in Hok. rewrite Ha in Hok. destruct Hok as [Hs Hp].
  set (c' := fun pc => at_pc pc (mk_hs (hs_slot c) (hs_dial c) (hs_offer c) raw (hs_at c))).
  assert (forall e, hss_inv (set_conn i (c' (HsFailed e)) s)) as Hfail by (intros e; apply (inv_set _ _ c); try done; cbn; by eexists).
  assert (exists expect, conn_tls h c = connConfig h (hs_slot c) expect /\ default [] (hs_dial c) = expect) as (expect & Ht & He)
    by (unfold conn_tls; destruct (hs_dial c); by eexists).
  unfold peer_certs. rewrite Ht. cbn. rewrite Hc. cbn. destruct raw as [|r raw]; [destruct (hs_dial c); intros [= <-]; apply Hfail|].
  replace (if hs_dial c then false else false) with false by (by destruct (hs_dial c)).
  destruct (VerifyPeerCertificate expect (r :: raw)) as [[key|e]|] eqn:Ev; cbn; [|intros [= <-]; apply Hfail|done].
  intros [= <-]. apply verify_vouches in Ev as [Hv Hid]. destruct Hi as [H1 H2]. split; cbn.
  - intros j d. rewrite lookup_insert_Some. intros [[_ <-]|[Hj Hd]].
    + cbn. split; [|done]. exists key. rewrite lookup_insert_eq. split; [done|]. split; [done|]. cbn. intros x Hx. rewrite Hx in He. cbn in He. subst x. done.
    + apply (hs_ok_ext s); [|by apply (H1 j)]. cbn. rewrite lookup_insert_ne; [done|]. intros E. apply Hj. by apply (H2 i j c d).
  - intros j k d e. rewrite !lookup_insert_Some. intros [[<- <-]|[Hj Hd]] [[<- <-]|[Hk He']]; cbn; try done; eauto.
Qed.

Lemma hs_step_inv h s s' : configured h -> hss_inv s -> hs_step h s s' -> hss_inv s'.
Proof.
  intros Hc Hi. destruct 1 as [i slot dial s Hn Hs|i c offer sel s Hl Ha|i c p raw s s' Hl Ha Hp|i c p s Hl Ha Hd Hr|i c p e s Hl Ha].
  - destruct Hi as [H1 H2]. assert (forall j c, hn_conns s !! j = Some c -> hs_slot c <> slot) as Hf.
    { intros j c Hc' <-. destruct (hs_ok_slot _ _ (H1 _ _ Hc')). congruence. }
    split; cbn.
    + intros j d. rewrite lookup_insert_Some. intros [[_ <-]|[_ Hd]]; [cbn; by rewrite lookup_insert_eq|].
      apply (hs_ok_ext s); [|by apply (H1 j)]. cbn. rewrite lookup_insert_ne; [done|]. intros E. by apply (Hf j d).
    + intros j k d e. rewrite !lookup_insert_Some. intros [[<- <-]|[Hj Hd]] [[<- <-]|[Hk He]]; cbn; try done; [intros E; symmetry in E|intros E|by eauto]; exfalso; eapply Hf; eauto.
  - by apply peer_hello_inv.
  - by eapply peer_certs_inv.
  - exfalso. destruct Hc as [cert Hc]. unfold conn_tls in Hr. rewrite Hd in Hr. cbn in Hr. by rewrite Hc in Hr.
  - apply (inv_set _ _ c); try done. cbn. pose proof (hi_conns _ Hi _ _ Hl) as Hok. by apply hs_ok_slot in Hok.
Qed.

Lemma hss_invariant h s : configured h -> rtc (hs_step h) no_handshakes s -> hss_inv s.
Proof.
  intros Hc H. assert (hss_inv no_handshakes) as H0 by (split; intros i; intros; simplify_map_eq). induction H as [|a b s Hs H IH]; [done|]. apply IH. by eapply hs_step_inv.
Qed.

(** An established connection and its slot no longer change. *)
Lemma established_stable h s s' i c p : hss_inv s -> hs_step h s s' -> hn_conns s !! i = Some c -> hs_at c = HsDone p ->
  hn_conns s' !! i = Some c /\ hn_slots s' !! hs_slot c = hn_slots s !! hs_slot c.
Proof.
  intros [H1 H2] Hst Hi Hp. destruct Hst as [j slot dial s Hn Hs|j d offer sel s Hl Ha|j d q raw s s' Hl Ha Hc|j d q s Hl Ha Hd Hr|j d q e s Hl Ha].
  { destruct (hs_ok_slot _ _ (H1 _ _ Hi)) as [x Hx]. cbn. rewrite !lookup_insert_ne by congruence. done. }
  all: assert (j <> i) as Hj by congruence.
  - unfold peer_hello. cbv zeta. repeat case_match; cbn; by rewrite lookup_insert_ne.
  - assert (hs_slot d <> hs_slot c) as Hne by (intros E; by apply Hj, (H2 j i d c)). revert Hc. unfold peer_certs. cbv zeta.
    assert (exists x, tc_VerifyPeerCertificate (conn_tls h d) = Some (hs_slot d, x)) as [x ->] by (unfold conn_tls; destruct (hs_dial d); by eexists).
    destruct raw; repeat case_match; cbn; try done; intros Hc; try (destruct (VerifyPeerCertificate _ _) as [[]|]); cbn in Hc; simplify_eq; cbn; rewrite ?lookup_insert_ne by done; done.
  - cbn. by rewrite lookup_insert_ne.
  - cbn. by rewrite lookup_insert_ne.
Qed.

(** C32. Identities of connections are not mixed up.  However the handshakes of an
    endpoint's dials and accepts interleave and whatever the peers send, the
    callback never panics, and an established connection has a key that its own
    peer's only certificate vouches for, of the expected identity when one was
    given, so reading the identity back never panics; neither changes later.
    The protocol is one of the two, and a client that offers ethp2p gets it. *)
Theorem connection_identity {PL : ProtowireLaws PW} template certKey key h s i c p :
  newHandshaker template certKey key = Ok h -> rtc (hs_step h) no_handshakes s -> hn_conns s !! i = Some c ->
  (hs_at c = HsCerts p -> forall raw, is_Some (peer_certs h i c p raw s)) /\
  (hs_at c = HsDone p -> exists k, identified c k /\ proto_ok c p /\
     forall s', rtc (hs_step h) s s' -> hn_conns s' !! i = Some c /\ acceptedPeerID c s' = Some (PubKey_PeerID k)).
Proof using Type.
  intros Hh%newHandshaker_configured Hr Hc. pose proof (hss_invariant _ _ Hh Hr) as Hinv. split.
  - intros Ha raw. unfold peer_certs. cbv zeta. assert (forall x, is_Some (VerifyPeerCertificate x raw)) as Hv.
    { intros x. unfold VerifyPeerCertificate. destruct (parseChain raw) as [chain|]; [|by eexists]. destruct (authenticate_panics_not chain) as [[k|] ->]; cbn; [|by eexists]. case_match; by eexists. }
    destruct raw as [|r raw]; [repeat case_match; by eexists|]. destruct (if hs_dial _ then _ else _); [by eexists|]. destruct (tc_VerifyPeerCertificate _) as [[slot x]|]; [|by eexists].
    destruct (Hv x) as [[k|e] ->]; cbn; by eexists.
  - intros Ha. pose proof (hi_conns _ Hinv _ _ Hc) as Hok. unfold hs_ok in Hok. rewrite Ha in Hok. destruct Hok as [(k & Hk & Hid) Hp]. exists k. split; [done|]. split; [done|].
    intros s' Hs'. assert (hn_conns s' !! i = Some c /\ hn_slots s' !! hs_slot c = Some (Some k)) as [Hc' Hk']; [|split; [done|]; unfold acceptedPeerID; by rewrite Hk'].
    clear Hr. induction Hs' as [|a b s' Hab _ IH]; [done|]. destruct (established_stable _ _ _ _ _ _ Hinv Hab Hc Ha) as [Hc1 Hk1]. apply IH; [done|by eapply hs_step_inv|congruence].
Qed.

(** ** Two endpoints *)

(** A dial of endpoint [h] and the accept of endpoint [h'] that answers it, the
    dialer's handshakes first.  What one side is sent is what the other's
    configuration says, in the order of TLS 1.3: the dialer's hello; the
    listener's hello with the protocol it selected; the listener's certificates,
    which the dialer checks before it sends anything else; and only then, from a
    dialer that is satisfied and was asked for them, its own certificates.  A
    dialer that refuses sends an alert instead, which ends the listener's
    handshake. *)
Definition alert : error := "remote error: tls: bad certificate".

Definition sent_certs (own peer : tls_Config) : list bytes :=
  match tc_ClientAuth peer with NoClientCert => [] | RequireAnyClientCert => tc_Certificates own end.

Inductive meet_step (h h' : handshaker) : hss * hss -> hss * hss -> Prop :=
| ms_client_hello a b ca cb : hn_conns a !! 0%nat = Some ca -> hn_conns b !! 0%nat = Some cb -> hs_at ca = HsNew -> hs_at cb = HsNew ->
    meet_step h h' (a, b) (a, peer_hello h' 0 cb (tc_NextProtos (conn_tls h ca)) String.EmptyString b)
| ms_server_hello a b ca cb p : hn_conns a !! 0%nat = Some ca -> hn_conns b !! 0%nat = Some cb -> hs_at ca = HsNew -> hs_at cb = HsCerts p ->
    meet_step h h' (a, b) (peer_hello h 0 ca [] p a, b)
| ms_server_certs a b ca cb p q a' : hn_conns a !! 0%nat = Some ca -> hn_conns b !! 0%nat = Some cb -> hs_at ca = HsCerts p -> hs_at cb = HsCerts q ->
    peer_certs h 0 ca p (tc_Certificates (conn_tls h' cb)) a = Some a' -> meet_step h h' (a, b) (a', b)
| ms_client_certs a b ca cb p q b' : hn_conns a !! 0%nat = Some ca -> hn_conns b !! 0%nat = Some cb -> hs_at ca = HsDone p -> hs_at cb = HsCerts q ->
    peer_certs h' 0 cb q (sent_certs (conn_tls h ca) (conn_tls h' cb)) b = Some b' -> meet_step h h' (a, b) (a, b')
| ms_alert a b ca cb e q : hn_conns a !! 0%nat = Some ca -> hn_conns b !! 0%nat = Some cb -> hs_at ca = HsFailed e -> hs_at cb = HsCerts q ->
    meet_step h h' (a, b) (a, set_conn 0 (at_pc (HsFailed alert) cb) b).

Definition meet_start (expect : bytes) : hss * hss := (new_conn 0 0 (Some expect) no_handshakes, new_conn 0 0 None no_handshakes).

(** What one side of it has come to. *)
Definition met s : option (hs_pc * option bytes) := letp c := hn_conns s !! 0%nat in Some (hs_at c, acceptedPeerID c s).

(** At most one message is under way. *)
Lemma meet_step_det h h' w w1 w2 : meet_step h h' w w1 -> meet_step h h' w w2 -> w1 = w2.
Proof. destruct 1; inversion 1; subst; congruence. Qed.

(** Each side takes the steps of its endpoint. *)
Lemma meet_step_sides h h' w w' : meet_step h h' w w' -> rtc (hs_step h) w.1 w'.1 /\ rtc (hs_step h') w.2 w'.2.
Proof.
  destruct 1; cbn; (split; [|]); try apply rtc_refl; apply rtc_once.
  - by apply st_hello.
  - by apply st_hello.
  - by eapply st_certs.
  - by eapply st_certs.
  - by eapply st_fail.
Qed.

Lemma meet_sides h h' w w' : rtc (meet_step h h') w w' -> rtc (hs_step h) w.1 w'.1 /\ rtc (hs_step h') w.2 w'.2.
Proof.
  induction 1 as [w|w w1 w' Hs _ [IH1 IH2]]; [done|]. apply meet_step_sides in Hs as [H1 H2]. split; by etrans.
Qed.

Lemma start_sides h h' expect : rtc (hs_step h) no_handshakes (meet_start expect).1 /\ rtc (hs_step h') no_handshakes (meet_start expect).2.
Proof. split; apply rtc_once; by apply st_new. Qed.

(** A run that ends somewhere is the only one. *)
Lemma det_ends {A} (R : relation A) x z w :
  (forall x y y', R x y -> R x y' -> y = y') -> rtc R x z -> (forall y, ~ R z y) -> rtc R x w -> rtc R w z.
Proof.
  intros Hd Hz Hn. revert w. induction Hz as [x|x y z Hxy Hyz IH]; intros w Hw.
  - inversion Hw as [|? y ? Hs _]; subst; [done|]. by apply Hn in Hs.
  - inversion Hw as [|? y' ? Hs Hr]; subst; [by eapply rtc_l|]. rewrite (Hd _ _ _ Hs Hxy) in Hr. by apply IH.
Qed.

Context {SL : Secp256k1Laws SC} {PL : ProtowireLaws PW} {XL : X509Laws X}.

(** The states of a meeting of two endpoints: [a] and [b] give the progress. *)
Definition meet_at (expect : bytes) (ka kb : option PubKey) (offer : list proto) (ra rb : list bytes) (pa pb : hs_pc) : hss * hss :=
  (mk_hss {[0%nat := ka]} {[0%nat := mk_hs 0 (Some expect) [] ra pa]}, mk_hss {[0%nat := kb]} {[0%nat := mk_hs 0 None offer rb pb]}).

Lemma meet_at_rest h h' expect ka kb offer ra rb p pb w :
  (forall q, pb <> HsCerts q) -> pb <> HsNew -> ~ meet_step h h' (meet_at expect ka kb offer ra rb p pb) w.
Proof. intros H1 H2. inversion 1; subst; simplify_map_eq; cbn in *; naive_solver. Qed.

(** The first three messages of two endpoints configured by [newHandshaker], and
    what either outcome of the dialer's check leads to. *)
Lemma meet_hellos h1 h2 expect : configured h1 -> configured h2 ->
  rtc (meet_step h1 h2) (meet_start expect)
    (meet_at expect None None [AlpnEthp2p; AlpnLibp2p] [] [] (HsCerts AlpnEthp2p) (HsCerts AlpnEthp2p)).
Proof.
  intros [d1 C1] [d2 C2].
  assert (negotiateALPN [AlpnEthp2p; AlpnLibp2p] [AlpnEthp2p; AlpnLibp2p] = Ok AlpnEthp2p) as N by (vm_compute; reflexivity).
  assert (checkALPN [AlpnEthp2p; AlpnLibp2p] AlpnEthp2p = Ok tt) as K by (vm_compute; reflexivity).
  eapply rtc_l; [by eapply ms_client_hello|]. unfold peer_hello, conn_tls. cbn -[negotiateALPN checkALPN insert]. rewrite C1, C2. cbn -[negotiateALPN checkALPN insert]. rewrite N.
  eapply rtc_l; [eapply ms_server_hello; [done| |done|]; [cbn; by rewrite lookup_insert_eq|done]|].
  unfold peer_hello, conn_tls. cbn -[negotiateALPN checkALPN insert]. rewrite C1. cbn -[checkALPN insert]. rewrite K.
  unfold meet_at, set_conn, new_conn, at_pc. cbn -[insert]. rewrite !insert_insert_eq. apply rtc_refl.
Qed.

Lemma meet_outcome t1 k1 key1 h1 t2 k2 key2 h2 expect :
  newHandshaker t1 k1 key1 = Ok h1 -> newHandshaker t2 k2 key2 = Ok h2 ->
  exists a b,
    rtc (meet_step h1 h2) (meet_at expect None None [AlpnEthp2p; AlpnLibp2p] [] [] (HsCerts AlpnEthp2p) (HsCerts AlpnEthp2p)) (a, b) /\
    (forall w, ~ meet_step h1 h2 (a, b) w) /\
    (expect = [] \/ expect = hk_peerID h2 ->
       met a = Some (HsDone AlpnEthp2p, Some (hk_peerID h2)) /\ met b = Some (HsDone AlpnEthp2p, Some (hk_peerID h1))) /\
    (expect <> [] -> expect <> hk_peerID h2 ->
       exists ea eb, met a = Some (HsFailed ea, None) /\ met b = Some (HsFailed eb, None)).
Proof using SL PL XL.
  unfold newHandshaker. destruct (issueCertificate t1 k1 key1) as [d1|] eqn:E1; [|done]. destruct (issueCertificate t2 k2 key2) as [d2|] eqn:E2; [|done].
  intros [= <-] [= <-]. pose proof (certificate_roundtrip _ _ _ _ expect E2) as V2. pose proof (certificate_roundtrip _ _ _ _ [] E1) as V1.
  change (negb (bool_decide ([] = []))) with false in V1. cbn [andb] in V1. set (offer := [AlpnEthp2p; AlpnLibp2p]).
  destruct (negb (bool_decide (expect = [])) && _) eqn:B.
  - set (e := "peer ID mismatch"%string) in V2. set (w := meet_at expect None None offer [d2] [] (HsFailed e) (HsFailed alert)). exists w.1, w.2. split.
    { eapply rtc_l; [eapply ms_server_certs; [done|done|done|done|cbn -[VerifyPeerCertificate insert]; rewrite V2; reflexivity]|].
      eapply rtc_l; [eapply ms_alert; [cbn; by rewrite lookup_insert_eq|done|done|done]|]. apply rtc_refl. }
    split; [intros w'; by apply (meet_at_rest _ _ expect)|]. apply andb_true_iff in B as [B1 B2]. rewrite negb_true_iff, bool_decide_eq_false in B1, B2.
    split; [by intros [?|?]|]. intros _ _. by exists e, alert.
  - set (w := meet_at expect (Some (Public key2)) (Some (Public key1)) offer [d2] [d1] (HsDone AlpnEthp2p) (HsDone AlpnEthp2p)). exists w.1, w.2. split.
    { eapply rtc_l; [eapply ms_server_certs; [done|done|done|done|cbn -[VerifyPeerCertificate insert]; rewrite V2; reflexivity]|].
      eapply rtc_l; [eapply ms_client_certs; [cbn; by rewrite lookup_insert_eq|done|done|done|cbn -[VerifyPeerCertificate insert]; rewrite V1; reflexivity]|]. apply rtc_refl. }
    split; [intros w'; by apply (meet_at_rest _ _ expect)|]. split; [done|]. intros H1 H2. apply andb_false_iff in B as [B|B]; rewrite negb_false_iff, bool_decide_eq_true in B; done.
Qed.

(** C33. Two endpoints recognise each other or neither is connected.  A dial between
    two endpoints made by [newHandshaker] takes the steps of their own handshakes,
    every run of it can be finished and all end in the same way: when the dialer
    expects the other endpoint's identity, or none, both sides are established with
    the ethp2p protocol, the dialer holding the identity the other endpoint
    reports as its own and the listener the dialer's; when it expects another
    identity both handshakes fail and neither side has an identity. *)
Theorem endpoints_authenticate t1 k1 key1 h1 t2 k2 key2 h2 expect :
  newHandshaker t1 k1 key1 = Ok h1 -> newHandshaker t2 k2 key2 = Ok h2 ->
  exists a b, rtc (hs_step h1) no_handshakes a /\ rtc (hs_step h2) no_handshakes b /\
    (forall w, rtc (meet_step h1 h2) (meet_start expect) w -> rtc (meet_step h1 h2) w (a, b)) /\
    (forall w, ~ meet_step h1 h2 (a, b) w) /\
    (expect = [] \/ expect = hk_peerID h2 ->
       met a = Some (HsDone AlpnEthp2p, Some (hk_peerID h2)) /\ met b = Some (HsDone AlpnEthp2p, Some (hk_peerID h1))) /\
    (expect <> [] -> expect <> hk_peerID h2 ->
       exists ea eb, met a = Some (HsFailed ea, None) /\ met b = Some (HsFailed eb, None)).
Proof using SL PL XL.
  intros N1 N2. pose proof (meet_hellos h1 h2 expect (newHandshaker_configured _ _ _ _ N1) (newHandshaker_configured _ _ _ _ N2)) as Hh.
  destruct (meet_outcome _ _ _ _ _ _ _ _ expect N1 N2) as (a & b & Hm & Hrest & Hout).
  assert (rtc (meet_step h1 h2) (meet_start expect) (a, b)) as Hr by (by etrans).
  destruct (meet_sides _ _ _ _ Hr) as [S1 S2]. destruct (start_sides h1 h2 expect) as [T1 T2].
  exists a, b. split; [by etrans|]. split; [by etrans|]. split; [|done]. intros w Hw. by eapply det_ends; [apply meet_step_det|..].
Qed.
End handshakes.

(** ** An instance *)

#[local] Existing Instances demo_secp demo_secp_laws demo_protowire demo_protowire_laws demo_x509 demo_x509_laws.

Definition demo_handshaker : handshaker :=
  match newHandshaker (X := demo_x509) (Ok tt) (Ok tt) demo_key with Ok h => h | Err _ => mk_handshaker [] (mk_tls 0 false NoClientCert [] [] false None) end.

Lemma demo_handshaker_ok : newHandshaker (X := demo_x509) (Ok tt) (Ok tt) demo_key = Ok demo_handshaker.
Proof. vm_compute. reflexivity. Qed.

Lemma endpoints_authenticate_witness :
  (exists a b, rtc (meet_step (fun _ => false) demo_handshaker demo_handshaker) (meet_start (hk_peerID demo_handshaker)) (a, b) /\
     met a = Some (HsDone AlpnEthp2p, Some (hk_peerID demo_handshaker)) /\ met b = Some (HsDone AlpnEthp2p, Some (hk_peerID demo_handshaker))) /\
  (exists a b ea eb, rtc (meet_step (fun _ => false) demo_handshaker demo_handshaker) (meet_start [Byte.x01]) (a, b) /\
     met a = Some (HsFailed ea, None) /\ met b = Some (HsFailed eb, None)).
Proof.
  pose proof (fun expect => endpoints_authenticate (X := demo_x509) (fun _ => false) (Ok tt) (Ok tt) demo_key demo_handshaker (Ok tt) (Ok tt) demo_key
    demo_handshaker expect demo_handshaker_ok demo_handshaker_ok) as H. split.
  - destruct (H (hk_peerID demo_handshaker)) as (a & b & _ & _ & Hr & _ & Hok & _). exists a, b.
    split; [apply Hr; apply rtc_refl|]. apply Hok. by right.
  - destruct (H [Byte.x01]) as (a & b & _ & _ & Hr & _ & _ & Hno). destruct Hno as (ea & eb & Hab); [discriminate|vm_compute; discriminate|].
    exists a, b, ea, eb. split; [apply Hr; apply rtc_refl|exact Hab].
Defined.

(** A dial without a pinned identity, while another connection is being accepted. *)
Definition demo_start : hss := new_conn 1 7 None (new_conn 0 3 (Some []) no_handshakes).
Definition demo_conn : hs := mk_hs 3 (Some []) [] [] HsNew.
Definition demo_mid : hss := peer_hello demo_handshaker 0 demo_conn [] AlpnEthp2p demo_start.
Definition demo_end : hss := match peer_certs (fun _ => false) demo_handshaker 0 (at_pc (HsCerts AlpnEthp2p) demo_conn) AlpnEthp2p [demo_der] demo_mid with Some s => s | None => demo_mid end.

Lemma connection_identity_witness : exists c k, hn_conns demo_end !! 0%nat = Some c /\ identified c k /\ acceptedPeerID c demo_end = Some (PubKey_PeerID k).
Proof.
  assert (rtc (hs_step (fun _ => false) demo_handshaker) no_handshakes demo_end) as Hr.
  { eapply rtc_l; [apply (st_new _ _ 0 3 (Some [])); by vm_compute|]. eapply rtc_l; [apply (st_new _ _ 1 7 None); by vm_compute|].
    eapply rtc_l; [apply (st_hello _ _ 0 demo_conn [] AlpnEthp2p); by vm_compute|]. apply rtc_once.
    apply (st_certs _ _ 0 (at_pc (HsCerts AlpnEthp2p) demo_conn) AlpnEthp2p [demo_der]); vm_compute; reflexivity. }
  assert (exists c, hn_conns demo_end !! 0%nat = Some c /\ hs_at c = HsDone AlpnEthp2p) as (c & Hc & Ha) by (eexists; split; vm_compute; reflexivity).
  destruct (connection_identity (X := demo_x509) (fun _ => false) (Ok tt) (Ok tt) demo_key demo_handshaker demo_end 0 c AlpnEthp2p demo_handshaker_ok Hr Hc) as [_ H].
  destruct (H Ha) as (k & Hid & _ & Hst). exists c, k. split; [exact Hc|]. split; [exact Hid|]. by apply Hst.
Defined.
