(* ===== verification/SimObserver.v ===== *)
(** * SimObserver: what a simulated node records (src/sim/observer.go,
    trace_observer.go, trace_writer.go)

    The observers hold a mutex for every operation, so a run is a sequence of
    calls in whatever order the node's goroutines make them.  The calls are the
    observations of the broadcast components ([observation] of [Session]). *)

From S2P Require Import Prelude Types Session.
Open Scope Z_scope.

#[local] Set Default Proof Using "Type".

(** ** Sums of 64-bit ints *)

Lemma i64_add x y : i64 (i64 x + y) = i64 (x + y).
Proof. unfold i64. replace ((x + 2 ^ 63) mod 2 ^ 64 - 2 ^ 63 + y + 2 ^ 63) with ((x + 2 ^ 63) mod 2 ^ 64 + y) by lia. rewrite Zplus_mod_idemp_l. do 2 f_equal. lia. Qed.
Lemma i64_add_r x y : i64 (x + i64 y) = i64 (x + y).
Proof. rewrite Z.add_comm, i64_add. f_equal. lia. Qed.

(** ** Counters *)

Record ChunkStats := mk_ChunkStats { cs_Accepted : Z; cs_Redundant : Z; cs_Decoding : Z; cs_Surplus : Z }.

(** [verdicts] is an array of five: a pending verdict has no counter. *)
Definition verdict_index (v : Verdict) : nat :=
  match v with VerdictAccepted => 0 | VerdictRedundant => 1 | VerdictDecoding => 2 | VerdictSurplus => 3 | VerdictInvalid => 4 | VerdictPending => 5 end.

Record Observer := mk_Observer {
  ob_roles : gmap (ChannelID * MessageID) SessionRole;
  ob_origin : Z;                                  (* sent[SessionRoleOrigin] *)
  ob_relay : Z;                                   (* sent[SessionRoleRelay] *)
  ob_verdicts : list Z }.

Definition NewObserver : Observer := mk_Observer ∅ 0 0 [0; 0; 0; 0; 0].

(** A session that was not reported has the zero role. *)
Definition role_of (o : Observer) (ch : ChannelID) (msg : MessageID) : SessionRole := default SessionRoleOrigin (ob_roles o !! (ch, msg)).

Definition obs_started (ch : ChannelID) (msg : MessageID) (role : SessionRole) (o : Observer) : Observer :=
  mk_Observer (<[(ch, msg) := role]> (ob_roles o)) (ob_origin o) (ob_relay o) (ob_verdicts o).
Definition obs_sent (ch : ChannelID) (msg : MessageID) (n : Z) (o : Observer) : Observer :=
  match role_of o ch msg with
  | SessionRoleOrigin => mk_Observer (ob_roles o) (i64 (ob_origin o + n)) (ob_relay o) (ob_verdicts o)
  | SessionRoleRelay => mk_Observer (ob_roles o) (ob_origin o) (i64 (ob_relay o + n)) (ob_verdicts o)
  end.
Definition obs_rcvd (v : Verdict) (o : Observer) : Observer :=
  if (verdict_index v <? length (ob_verdicts o))%nat
  then mk_Observer (ob_roles o) (ob_origin o) (ob_relay o) (alter (fun n => i64 (n + 1)) (verdict_index v) (ob_verdicts o))
  else o.

Definition verdict_count (o : Observer) (v : Verdict) : Z := default 0 (ob_verdicts o !! verdict_index v).
Definition Stats (o : Observer) : Z * Z := (ob_origin o, ob_relay o).
Definition Chunks (o : Observer) : ChunkStats :=
  mk_ChunkStats (verdict_count o VerdictAccepted) (verdict_count o VerdictRedundant) (verdict_count o VerdictDecoding) (verdict_count o VerdictSurplus).

Record ObserverSnapshot := mk_snap { sn_Chunks : ChunkStats; sn_OriginSent : Z; sn_RelaySent : Z }.
Definition Reset (o : Observer) : ObserverSnapshot * Observer :=
  (mk_snap (Chunks o) (ob_origin o) (ob_relay o), mk_Observer (ob_roles o) 0 0 [0; 0; 0; 0; 0]).

(** What the embedded [NoOpObserver] ignores it ignores too. *)
Definition observe_one (o : Observer) (x : observation) : Observer :=
  match x with
  | OnSessionStarted ch msg role => obs_started ch msg role o
  | OnChunkSent _ ch msg n => obs_sent ch msg n o
  | OnChunkRcvd _ _ _ v => obs_rcvd v o
  | _ => o
  end.

(** *** Runs of calls *)

Inductive obs_call := CallObserve (x : observation) | CallReset.

Definition obs_step (s : Observer * list ObserverSnapshot) (c : obs_call) : Observer * list ObserverSnapshot :=
  match c with
  | CallObserve x => (observe_one s.1 x, s.2)
  | CallReset => ((Reset s.1).2, s.2 ++ [(Reset s.1).1])
  end.
Definition obs_run (l : list obs_call) : Observer * list ObserverSnapshot := foldl obs_step (NewObserver, []) l.

(** The reference: what was sent in a role, and how many verdicts came in. *)
Fixpoint sent_as (role : SessionRole) (roles : gmap (ChannelID * MessageID) SessionRole) (l : list obs_call) : Z :=
  match l with
  | [] => 0
  | CallObserve (OnSessionStarted ch msg r) :: l => sent_as role (<[(ch, msg) := r]> roles) l
  | CallObserve (OnChunkSent _ ch msg n) :: l =>
      (match role, default SessionRoleOrigin (roles !! (ch, msg)) with
       | SessionRoleOrigin, SessionRoleOrigin | SessionRoleRelay, SessionRoleRelay => n
       | _, _ => 0
       end) + sent_as role roles l
  | _ :: l => sent_as role roles l
  end.
Fixpoint rcvd_as (v : Verdict) (l : list obs_call) : Z :=
  match l with
  | [] => 0
  | CallObserve (OnChunkRcvd _ _ _ u) :: l => (if decide (u = v) then 1 else 0) + rcvd_as v l
  | _ :: l => rcvd_as v l
  end.

Definition sumZ (l : list Z) : Z := foldr Z.add 0 l.
Lemma sumZ_snoc l x : sumZ (l ++ [x]) = sumZ l + x.
Proof. induction l as [|y l IH]; simpl; [lia|]. rewrite IH. lia. Qed.

(** Counted so far: in the snapshots taken and since. *)
Definition sent_total (role : SessionRole) (s : Observer * list ObserverSnapshot) : Z :=
  match role with
  | SessionRoleOrigin => sumZ (sn_OriginSent <$> s.2) + ob_origin s.1
  | SessionRoleRelay => sumZ (sn_RelaySent <$> s.2) + ob_relay s.1
  end.
Definition stat (v : Verdict) (c : ChunkStats) : Z :=
  match v with VerdictAccepted => cs_Accepted c | VerdictRedundant => cs_Redundant c | VerdictDecoding => cs_Decoding c | VerdictSurplus => cs_Surplus c | _ => 0 end.
Definition reported (v : Verdict) : bool := match v with VerdictInvalid | VerdictPending => false | _ => true end.
Definition rcvd_total (v : Verdict) (s : Observer * list ObserverSnapshot) : Z := sumZ ((fun sn => stat v (sn_Chunks sn)) <$> s.2) + verdict_count s.1 v.

Lemma i64_cong a b k : i64 a = i64 b -> i64 (a + k) = i64 (b + k).
Proof. intros H. by rewrite <-(i64_add a), H, i64_add. Qed.

Lemma sent_step role s c l : i64 (sent_total role (obs_step s c) + sent_as role (ob_roles (obs_step s c).1) l) = i64 (sent_total role s + sent_as role (ob_roles s.1) (c :: l)).
Proof.
  destruct c as [x|]; [|destruct role; simpl; rewrite fmap_app; simpl; rewrite sumZ_snoc; f_equal; lia].
  destruct x as [| |p ch msg n| | |ch msg r| | | | | | | |]; try (by destruct role).
  - simpl. unfold obs_rcvd. case_match; by destruct role.
  - simpl. unfold obs_sent, role_of. destruct (default SessionRoleOrigin (ob_roles s.1 !! (ch, msg))), role; simpl; try (f_equal; lia).
    all: match goal with |- i64 (?a + i64 ?b + ?d) = _ => replace (a + i64 b + d) with (a + d + i64 b) by lia; rewrite i64_add_r; f_equal; lia end.
Qed.

Lemma verdicts_length s c : length (ob_verdicts s.1) = 5%nat -> length (ob_verdicts (obs_step s c).1) = 5%nat.
Proof.
  intros H. destruct c as [x|]; [|done]. destruct x as [| |p ch msg n| | | | | | | | | | |]; try done; simpl.
  - unfold obs_rcvd. case_match; [|done]. simpl. by rewrite length_alter.
  - unfold obs_sent. by destruct (role_of _ _ _).
Qed.

Lemma rcvd_step v s c l : reported v = true -> length (ob_verdicts s.1) = 5%nat ->
  i64 (rcvd_total v (obs_step s c) + rcvd_as v l) = i64 (rcvd_total v s + rcvd_as v (c :: l)).
Proof.
  intros Hv Hl. unfold rcvd_total. destruct c as [x|].
  2: { simpl. rewrite fmap_app. simpl. rewrite sumZ_snoc. set (z := sumZ (_ <$> s.2)). f_equal.
    assert (stat v (Chunks s.1) = verdict_count s.1 v) as -> by by destruct v. assert (verdict_count (Reset s.1).2 v = 0) as Hz by by destruct v. unfold Reset in Hz. simpl in Hz. rewrite Hz. lia. }
  destruct x as [|p ch msg u|p ch msg n| | | | | | | | | | |]; try done; simpl.
  - unfold obs_rcvd. rewrite Hl. destruct (decide (u = v)) as [->|Hne].
    + assert ((verdict_index v <? 5)%nat = true) as -> by (by destruct v). unfold verdict_count. simpl. rewrite list_lookup_alter_eq.
      destruct (lookup_lt_is_Some_2 (ob_verdicts s.1) (verdict_index v)) as [n ->]; [rewrite Hl; destruct v; try done; simpl; lia|]. simpl.
      match goal with |- i64 (?a + i64 ?b + ?d) = _ => replace (a + i64 b + d) with (a + d + i64 b) by lia; rewrite i64_add_r; f_equal; lia end.
    + case_match; [|f_equal; lia]. unfold verdict_count. simpl. rewrite list_lookup_alter_ne by (by destruct u, v). f_equal.
  - unfold obs_sent. by destruct (role_of _ _ _).
Qed.

(** Counters and snapshots.  However observations and resets are interleaved,
    what the snapshots report together with what is counted since is, as a
    64-bit sum, exactly the bytes sent in sessions of that role (a session not
    reported as started counts as origin) and the number of chunks with each
    reported verdict: resetting neither loses nor repeats anything. *)
Theorem observer_conserves l : 
  (forall role, i64 (sent_total role (obs_run l)) = i64 (sent_as role ∅ l)) /\
  (forall v, reported v = true -> i64 (rcvd_total v (obs_run l)) = i64 (rcvd_as v l)).
Proof.
  unfold obs_run. split.
  - intros role. assert (forall s, i64 (sent_total role (foldl obs_step s l)) = i64 (sent_total role s + sent_as role (ob_roles s.1) l)) as H.
    { induction l as [|c l IH]; intros s; [simpl; f_equal; lia|]. change (foldl obs_step s (c :: l)) with (foldl obs_step (obs_step s c) l). by rewrite IH, sent_step. }
    rewrite H. by destruct role.
  - intros v Hv. assert (forall s, length (ob_verdicts s.1) = 5%nat -> i64 (rcvd_total v (foldl obs_step s l)) = i64 (rcvd_total v s + rcvd_as v l)) as H.
    { induction l as [|c l IH]; intros s Hs; [simpl; f_equal; lia|]. change (foldl obs_step s (c :: l)) with (foldl obs_step (obs_step s c) l).
      rewrite IH by by apply verdicts_length. by rewrite rcvd_step. }
    rewrite H by done. by destruct v.
Qed.
