(* ===== verification/SimTrace.v ===== *)
(** * SimTrace: the trace of a simulation run (src/sim/trace_writer.go,
    trace_observer.go, the tracer and the messages of strategy_gossipsub.go)

    encoding/json is a parameter; the [bufio.Writer] is the bytes given to it and
    whether it has failed, which it remembers.  WriteEvent holds the writer's
    mutex, so concurrent events are a sequence in any order: the times in it need
    not ascend. *)

From S2P Require Import Prelude Types Session SimObserver.
Open Scope Z_scope.

#[local] Set Default Proof Using "Type".

(** ** bufio.Writer *)

Record bufw := mk_bufw { bw_data : bytes; bw_failed : bool }.

(** [fails] is whether the underlying writer refuses; the error is kept. *)
Definition bw_Write (data : bytes) (fails : bool) (w : bufw) : result error unit * bufw :=
  if bw_failed w then (Err "write"%string, w)
  else if fails then (Err "write"%string, mk_bufw (bw_data w) true)
  else (Ok tt, mk_bufw (bw_data w ++ data) false).
Definition bw_Flush (fails : bool) (w : bufw) : result error unit * bufw :=
  if bw_failed w || fails then (Err "write"%string, mk_bufw (bw_data w) true) else (Ok tt, w).

(** ** TraceWriter *)

Inductive arg := AStr (b : bytes) | AStrs (l : list bytes) | AInt (z : Z).

Record row := mk_row { r_usec : Z; r_node : Z; r_ev : String.string; r_args : list arg }.

Record TraceWriter := mk_TraceWriter {
  tw_w : bufw;
  tw_offset : Z;
  tw_lastIndexTs : Z;
  tw_index : list (Z * Z) }.

Definition defaultIndexInterval : Z := 100000.
Definition newline : byte := Byte.x0a.

(** Microseconds from [t0] to [ts]; a difference of times saturates. *)
Definition usec_of (t0 ts : Z) : Z := Z.quot (Z.max (- 2 ^ 63) (Z.min (2 ^ 63 - 1) (ts - t0))) 1000.

Definition len (b : bytes) : Z := Z.of_nat (length b).

Section writer.
Context (json_row : row -> result error bytes) (json_footer : Z -> list (Z * Z) -> result error bytes).

(** [hdr] is what marshalling the header gives. *)
Definition NewTraceWriterWithOptions (hdr : result error bytes) (fails : bool) : result error TraceWriter :=
  match hdr with
  | Err _ => Err "marshal trace header"%string
  | Ok data =>
      let data := data ++ [newline] in
      match bw_Write data fails (mk_bufw [] false) with
      | (Err _, _) => Err "write trace header"%string
      | (Ok _, w) => Ok (mk_TraceWriter w (len data) 0 [(0, len data)])
      end
  end.

Definition WriteEvent (r : row) (fails : bool) (tw : TraceWriter) : TraceWriter :=
  match json_row r with
  | Err _ => tw
  | Ok data =>
      let data := data ++ [newline] in
      let '(last, index) := if r_usec r - tw_lastIndexTs tw >=? defaultIndexInterval
                            then (r_usec r, tw_index tw ++ [(r_usec r, tw_offset tw)]) else (tw_lastIndexTs tw, tw_index tw) in
      mk_TraceWriter (bw_Write data fails (tw_w tw)).2 (tw_offset tw + len data) last index
  end.

Definition trace_Close (duration : Z) (fails1 fails2 : bool) (tw : TraceWriter) : result error unit * bufw :=
  match json_footer duration (tw_index tw) with
  | Err _ => (Err "marshal trace footer"%string, tw_w tw)
  | Ok data =>
      match bw_Write (data ++ [newline]) fails1 (tw_w tw) with
      | (Err _, w) => (Err "write trace footer"%string, w)
      | (Ok _, w) => bw_Flush fails2 w
      end
  end.

(** *** What a run leaves in the file *)

Definition write_all (tw : TraceWriter) (l : list (row * bool)) : TraceWriter := foldl (fun tw x => WriteEvent x.1 x.2 tw) tw l.

(** The lines of the events that marshal, in order. *)
Definition line_of (r : row) : option (row * bytes) := match json_row r with Ok data => Some (r, data ++ [newline]) | Err _ => None end.
Definition lines_of (l : list (row * bool)) : list (row * bytes) := omap (fun x => line_of x.1) l.

(** Where line [k] starts. *)
Definition start (hdr : bytes) (lines : list (row * bytes)) (k : nat) : Z := len hdr + len (concat (take k lines.*2)).

(** An index entry: the header's end, or the start of a line with that time. *)
Definition points (hdr : bytes) (lines : list (row * bytes)) (x : Z * Z) : Prop :=
  x = (0, len hdr) \/ exists k r b, lines !! k = Some (r, b) /\ x = (r_usec r, start hdr lines k).

Definition spaced (l : list (Z * Z)) : Prop := StronglySorted (fun x y => x.1 + defaultIndexInterval <= y.1 /\ x.2 <= y.2) l.

Record trace_inv (hdr : bytes) (lines : list (row * bytes)) (tw : TraceWriter) : Prop := {
  ti_data : bw_failed (tw_w tw) = false -> bw_data (tw_w tw) = hdr ++ concat lines.*2;
  ti_offset : tw_offset tw = len hdr + len (concat lines.*2);
  ti_last : exists l off, tw_index tw = l ++ [(tw_lastIndexTs tw, off)] /\ off <= tw_offset tw;
  ti_points : Forall (points hdr lines) (tw_index tw);
  ti_spaced : spaced (tw_index tw);
  ti_covers : forall k r b, lines !! k = Some (r, b) -> exists x, x ∈ tw_index tw /\ x.2 <= start hdr lines k /\ r_usec r < x.1 + defaultIndexInterval }.

Lemma len_app a b : len (a ++ b) = len a + len b.
Proof. unfold len. rewrite length_app. lia. Qed.
Lemma len_nonneg a : 0 <= len a.
Proof. unfold len. lia. Qed.

Lemma start_app hdr lines x k : (k <= length lines)%nat -> start hdr (lines ++ [x]) k = start hdr lines k.
Proof. intros Hk. unfold start. rewrite fmap_app, take_app_le by (by rewrite length_fmap). done. Qed.
Lemma start_end hdr lines : start hdr lines (length lines) = len hdr + len (concat lines.*2).
Proof. unfold start. by rewrite take_ge by (by rewrite length_fmap). Qed.

Lemma points_app hdr lines x y : points hdr lines y -> points hdr (lines ++ [x]) y.
Proof.
  intros [?|(k & r & b & Hk & ->)]; [by left|right]. exists k, r, b. split; [by apply lookup_app_l_Some|]. rewrite start_app; [done|]. apply lookup_lt_Some in Hk. lia.
Qed.

Lemma spaced_snoc l t off u o : spaced (l ++ [(t, off)]) -> t + defaultIndexInterval <= u -> off <= o -> spaced ((l ++ [(t, off)]) ++ [(u, o)]).
Proof.
  unfold spaced. induction l as [|x l IH]; simpl; intros Hs Hu Ho; [repeat constructor; simpl; lia|].
  apply StronglySorted_inv in Hs as [Hs Hf]. constructor; [by apply IH|]. apply Forall_app. split; [done|]. constructor; [|done]. apply Forall_app in Hf as [_ Hf]. apply Forall_cons in Hf as [Hf _]. simpl in *.
  unfold defaultIndexInterval in *. lia.
Qed.

Lemma WriteEvent_inv hdr lines r fails tw : trace_inv hdr lines tw -> trace_inv hdr (lines ++ option_list (line_of r)) (WriteEvent r fails tw).
Proof.
  intros Hi. unfold WriteEvent, line_of. destruct (json_row r) as [data|]; [|by rewrite app_nil_r]. simpl. set (b := data ++ [newline]).
  destruct Hi as [I1 I2 (l & off & Hidx & Hoff) I4 I5 I6]. pose proof (len_nonneg b).
  assert (tw_offset tw = start hdr (lines ++ [(r, b)]) (length lines)) as Hst by (rewrite start_app, start_end by lia; done).
  assert (concat (lines ++ [(r, b)]).*2 = concat lines.*2 ++ b) as Hcat by (rewrite fmap_app, concat_app; simpl; by rewrite app_nil_r).
  destruct (Z.geb_spec (r_usec r - tw_lastIndexTs tw) defaultIndexInterval) as [Hge|Hlt]; split; simpl; rewrite ?Hcat, ?len_app.
  - intros Hf. unfold bw_Write in *. destruct (bw_failed (tw_w tw)) eqn:E; [simpl in Hf; congruence|]. destruct fails; [done|]. simpl. rewrite I1 by done. by rewrite app_assoc.
  - lia.
  - exists (tw_index tw), (tw_offset tw). split; [done|lia].
  - apply Forall_app. split; [eapply Forall_impl; [exact I4|intros; by apply points_app]|]. constructor; [|done]. right. exists (length lines), r, b.
    split; [by rewrite lookup_app_r, Nat.sub_diag|]. by rewrite Hst.
  - rewrite Hidx in *. apply spaced_snoc; [done|lia|lia].
  - intros k r' b' Hk. apply lookup_app_Some in Hk as [Hk|[Hk1 Hk2]].
    + destruct (I6 k r' b' Hk) as (x & A & B & C). exists x. split; [apply elem_of_app; by left|]. rewrite start_app; [done|]. apply lookup_lt_Some in Hk. lia.
    + apply list_lookup_singleton_Some in Hk2 as [Hz [= <- <-]]. exists (r_usec r, tw_offset tw). split; [apply elem_of_app; right; by apply list_elem_of_singleton|]. simpl.
      replace k with (length lines) by lia. split; [lia|]. unfold defaultIndexInterval. lia.
  - intros Hf. unfold bw_Write in *. destruct (bw_failed (tw_w tw)) eqn:E; [simpl in Hf; congruence|]. destruct fails; [done|]. simpl. rewrite I1 by done. by rewrite app_assoc.
  - lia.
  - exists l, off. split; [done|lia].
  - eapply Forall_impl; [exact I4|intros; by apply points_app].
  - done.
  - intros k r' b' Hk. apply lookup_app_Some in Hk as [Hk|[Hk1 Hk2]].
    + destruct (I6 k r' b' Hk) as (x & A & B & C). exists x. split; [done|]. rewrite start_app; [done|]. apply lookup_lt_Some in Hk. lia.
    + apply list_lookup_singleton_Some in Hk2 as [Hz [= <- <-]]. exists (tw_lastIndexTs tw, off). split; [rewrite Hidx; apply elem_of_app; right; by apply list_elem_of_singleton|]. simpl.
      replace k with (length lines) by lia. split; lia.
Qed.

Lemma write_all_inv hdr l : forall lines tw, trace_inv hdr lines tw -> trace_inv hdr (lines ++ lines_of l) (write_all tw l).
Proof.
  induction l as [|x l IH]; intros lines tw Hi; simpl; [by rewrite app_nil_r|]. unfold lines_of. simpl.
  specialize (IH _ _ (WriteEvent_inv hdr lines x.1 x.2 tw Hi)). unfold lines_of in IH. destruct (line_of x.1); simpl in *; [|by rewrite app_nil_r in IH]. by rewrite <-app_assoc in IH.
Qed.

(** A trace file.  Whatever events the nodes' goroutines write, in whatever
    order and with whatever times, if Close reports no error the file is the
    header line, the lines of the events that marshal, in order, and the footer
    line with the index.  Every entry of the index is the end of the header or
    the start of the line of an event with that time; the entries ascend, at
    least an interval apart and pointing further; and every event lies behind an
    entry less than one interval before it, so that a reader seeking a time
    starts at the right place.  A failure of the file is never lost: Close
    reports it. *)
Theorem trace_file_exact hdr fails tw l duration f1 f2 w :
  NewTraceWriterWithOptions (Ok hdr) fails = Ok tw -> trace_Close duration f1 f2 (write_all tw l) = (Ok tt, w) ->
  let h := hdr ++ [newline] in let lines := lines_of l in let index := tw_index (write_all tw l) in
  (exists footer, json_footer duration index = Ok footer /\ bw_data w = h ++ concat lines.*2 ++ footer ++ [newline]) /\
  Forall (points h lines) index /\ spaced index /\
  (forall k r b, lines !! k = Some (r, b) -> exists x, x ∈ index /\ x.2 <= start h lines k /\ r_usec r < x.1 + defaultIndexInterval) /\
  fails = false /\ f1 = false /\ f2 = false /\ Forall (fun x => is_ok (json_row x.1) = true -> x.2 = false) l.
Proof.
  intros Hn Hc. cbv zeta. unfold NewTraceWriterWithOptions, bw_Write in Hn. simpl in Hn. destruct fails; [done|]. injection Hn as Hn.
  assert (trace_inv (hdr ++ [newline]) [] tw) as Hi.
  { rewrite <-Hn. split; simpl; try done; [by rewrite app_nil_r|unfold len; simpl; lia|by exists [], (len (hdr ++ [newline])); split; [|lia]|constructor; [by left|done]|repeat constructor]. }
  apply (write_all_inv _ l) in Hi as [I1 I2 I3 I4 I5 I6]. simpl in *. unfold trace_Close in Hc. destruct (json_footer duration _) as [footer|]; [|done].
  unfold bw_Write in Hc. destruct (bw_failed (tw_w (write_all tw l))) eqn:Ef; [done|]. destruct f1; [done|]. unfold bw_Flush in Hc. simpl in Hc. destruct f2; [done|]. injection Hc as <-.
  split_and!; try done.
  - exists footer. split; [done|]. simpl. rewrite I1 by done. by rewrite <-!app_assoc.
  - clear -Ef. revert tw Ef. induction l as [|x l IH]; intros tw Ef; [constructor|]. simpl in Ef.
    assert (bw_failed (tw_w (WriteEvent x.1 x.2 tw)) = false) as Hf.
    { clear IH. revert Ef. generalize (WriteEvent x.1 x.2 tw). induction l as [|y l IH]; intros t Ht; [done|]. simpl in Ht. apply IH in Ht. unfold WriteEvent, bw_Write in Ht.
      destruct (json_row y.1); [|done]. destruct (_ >=? _), (bw_failed (tw_w t)) eqn:E; simpl in Ht; done || congruence. }
    constructor; [|by eapply IH]. intros Hok. unfold WriteEvent, bw_Write in Hf. destruct (json_row x.1); [|done].
    destruct (_ >=? _), (bw_failed (tw_w tw)) eqn:E, x.2; simpl in Hf; done || congruence.
Qed.
End writer.

(** A JSON of sorts, for a run with three events, the second one late. *)
Definition demo_row (r : row) : result error bytes := Ok [z2b (r_usec r); z2b (r_node r)].
Definition demo_footer (d : Z) (l : list (Z * Z)) : result error bytes := Ok ((fun x => z2b x.2) <$> l).
Definition demo_rows : list (row * bool) :=
  [(mk_row 5 0 "ss" [], false); (mk_row 250000 1 "cs" [AInt 3], false); (mk_row 7 0 "cr" [], false)].
Definition demo_writer : TraceWriter :=
  match NewTraceWriterWithOptions (Ok [Byte.x7b; Byte.x7d]) false with Ok tw => tw | Err _ => mk_TraceWriter (mk_bufw [] true) 0 0 [] end.

Lemma trace_file_exact_witness :
  exists w, trace_Close demo_footer 9 false false (write_all demo_row demo_writer demo_rows) = (Ok tt, w) /\
    tw_index (write_all demo_row demo_writer demo_rows) = [(0, 3); (250000, 6)] /\ spaced (tw_index (write_all demo_row demo_writer demo_rows)).
Proof.
  eexists. split; [reflexivity|]. split; [reflexivity|].
  destruct (trace_file_exact demo_row demo_footer [Byte.x7b; Byte.x7d] false demo_writer demo_rows 9 false false _ eq_refl eq_refl) as (_ & _ & H & _). exact H.
Defined.

(** ** The tracing observer *)

(** A call of [Observer]: those of the model's components, and OnPreambleOpened,
    which a binding makes when it reads an OPEN frame. *)
Inductive obs_event := Observed (x : observation) | PreambleOpened (peer : PeerID) (ch : ChannelID) (msg : MessageID).

Definition role_int (r : SessionRole) : Z := match r with SessionRoleOrigin => 0 | SessionRoleRelay => 1 end.
Definition verdict_int (v : Verdict) : Z := Z.of_nat (verdict_index v).
Definition string_bytes (s : String.string) : bytes := map Ascii.byte_of_ascii (String.list_ascii_of_string s).

(** The event a call writes: the methods of [NoOpObserver] that are not
    overridden write none. *)
Definition trace_event (x : obs_event) : option (String.string * list arg) :=
  match x with
  | Observed (OnPeerHandshook p chs) => Some ("ph"%string, [AStr p; AStrs chs])
  | Observed (OnPeerSubscribed p ch) => Some ("ps"%string, [AStr p; AStr ch])
  | Observed (OnPeerUnsubscribed p ch) => Some ("pu"%string, [AStr p; AStr ch])
  | Observed (OnPeerGone p) => Some ("pg"%string, [AStr p])
  | Observed (OnSessionStarted ch m r) => Some ("ss"%string, [AStr ch; AStr m; AInt (role_int r)])
  | Observed (OnSessionDecoded ch m) => Some ("sd"%string, [AStr ch; AStr m])
  | Observed (OnSessionDisposed ch m reason) => Some ("sx"%string, [AStr ch; AStr m; AStr (string_bytes reason)])
  | Observed (OnChunkSent p ch m n) => Some ("cs"%string, [AStr p; AStr ch; AStr m; AInt n])
  | Observed (OnChunkRcvd p ch m v) => Some ("cr"%string, [AStr p; AStr ch; AStr m; AInt (verdict_int v)])
  | Observed (OnChunkError e) => Some ("ce"%string, [AStr (cpe_channelID e); AStr (cpe_messageID e); AStr (string_bytes (cpe_err e))])
  | Observed (OnRoutingUpdate p ch m) => Some ("ru"%string, [AStr p; AStr ch; AStr m])
  | PreambleOpened p ch m => Some ("po"%string, [AStr p; AStr ch; AStr m])
  | Observed (OnStrategyProgress ch m have need) => Some ("sp"%string, [AStr ch; AStr m; AInt have; AInt need])
  | Observed (OnChannelAttached _ _) | Observed (OnChannelDropped _) => None
  end.

(** [TracingObserver] embeds an [Observer]: the overriding methods call it first. *)
Definition tracing (json_row : row -> result error bytes) (node t0 now : Z) (fails : bool) (x : obs_event) (s : Observer * TraceWriter) : Observer * TraceWriter :=
  (match x with Observed o => observe_one s.1 o | PreambleOpened _ _ _ => s.1 end,
   match trace_event x with
   | Some (ev, args) => WriteEvent json_row (mk_row (usec_of t0 now) node ev args) fails s.2
   | None => s.2
   end).

(** The counters are those of the embedded observer, whatever the trace does, and
    the file gets the events of all calls but those on channels. *)
Lemma tracing_run json_row node t0 (l : list (Z * bool * obs_event)) s :
  let s' := foldl (fun s x => tracing json_row node t0 x.1.1 x.1.2 x.2 s) s l in
  s'.1 = foldl (fun o x => match x.2 with Observed y => observe_one o y | PreambleOpened _ _ _ => o end) s.1 l /\
  s'.2 = write_all json_row s.2 (omap (fun x => (fun y => (mk_row (usec_of t0 x.1.1) node y.1 y.2, x.1.2)) <$> trace_event x.2) l).
Proof.
  revert s. induction l as [|[[now fails] x] l IH]; intros s; [done|]. cbv zeta in *. simpl foldl. destruct (IH (tracing json_row node t0 now fails x s)) as [-> ->].
  split; [done|]. unfold tracing. simpl. destruct (trace_event x) as [[ev args]|]; done.
Qed.

(** ** Messages and traces of gossipsub *)

Definition bar : byte := Byte.x7c.
Definition gossipsubChannelID : bytes := string_bytes "broadcast-test".

Definition encodeGossipsubMessage (messageID data : bytes) : bytes := messageID ++ bar :: data.

(** [bytes.Cut]. *)
Fixpoint cut (sep : byte) (data : bytes) : option (bytes * bytes) :=
  match data with
  | [] => None
  | b :: rest => if decide (b = sep) then Some ([], rest) else letp x := cut sep rest in Some (b :: x.1, x.2)
  end.

Definition decodeGossipsubMessage (data : bytes) : result error (bytes * bytes) :=
  match cut bar data with Some x => Ok x | None => Err "invalid message: no message id"%string end.

Definition gossipsubMessageID (data : bytes) : bytes := match decodeGossipsubMessage data with Ok x => x.1 | Err _ => [] end.
Definition gossipsubMessageIDFromPB (msg : option bytes) : bytes := match msg with None => [] | Some data => gossipsubMessageID data end.

Lemma cut_spec sep data a b : cut sep data = Some (a, b) <-> data = a ++ sep :: b /\ sep ∉ a.
Proof.
  revert a b. induction data as [|x l IH]; intros a b; simpl; [split; [done|intros [H _]; by destruct a]|]. case_decide as E.
  - subst x. split; [intros [= <- <-]; split; [done|apply not_elem_of_nil]|]. intros [H Hn]. destruct a as [|y a]; [by injection H as ->|]. injection H as <- H. set_solver.
  - destruct (cut sep l) as [[a' b']|] eqn:Ec; simpl.
    + split; [intros [= <- <-]; destruct (proj1 (IH a' b') eq_refl) as [-> Hn]; split; [done|set_solver]|]. intros [H Hn]. destruct a as [|y a]; [by injection H|]. injection H as <- H.
      assert (Some (a', b') = Some (a, b)) as [= -> ->] by (apply IH; split; [done|set_solver]). done.
    + split; [done|]. intros [H Hn]. destruct a as [|y a]; [by injection H|]. injection H as <- H. assert (None = Some (a, b)) by (apply IH; split; [done|set_solver]). done.
Qed.

(** A message reads back as it was written exactly when its id has no bar, as the
    ids of [publishMessages] have none; decoding never invents a message, and
    the message id the router deduplicates by is the id of the message. *)
Theorem gossip_roundtrip id data :
  (decodeGossipsubMessage (encodeGossipsubMessage id data) = Ok (id, data) <-> bar ∉ id) /\
  (forall m id' data', decodeGossipsubMessage m = Ok (id', data') -> encodeGossipsubMessage id' data' = m) /\
  (bar ∉ id -> gossipsubMessageIDFromPB (Some (encodeGossipsubMessage id data)) = id).
Proof.
  unfold decodeGossipsubMessage, encodeGossipsubMessage. assert (bar ∉ id -> cut bar (id ++ bar :: data) = Some (id, data)) as H by (intros Hn; by apply cut_spec).
  split_and!.
  - split; [|intros Hn; by rewrite H]. destruct (cut bar _) as [x|] eqn:E; [|done]. intros [= ->]. by apply cut_spec in E as [_ ?].
  - intros m id' data'. destruct (cut bar m) as [x|] eqn:E; [|done]. intros [= ->]. by apply cut_spec in E as [-> _].
  - intros Hn. unfold gossipsubMessageIDFromPB, gossipsubMessageID, decodeGossipsubMessage. by rewrite H.
Qed.

(** The protobuf messages of pubsub, as their getters return them; an absent
    string is empty. *)
Record Message := mk_Message { gm_topic : bytes; gm_data : bytes }.
Record Control := mk_Control { gc_ihave : list (bytes * list bytes); gc_iwant : list (list bytes); gc_idontwant : list (list bytes) }.
Record RPC := mk_RPC { rpc_publish : list Message; rpc_control : option Control }.

Notation trace_row := (String.string * list arg)%type.

(** [gossipsubTrace], nil or not: [writeEvent] on nil writes nothing. *)
Definition writeEvent (tracer : bool) (code : String.string) (args : list arg) : list trace_row := if tracer then [(code, args)] else [].

Definition count (l : list bytes) : arg := AInt (Z.of_nat (length l)).
Definition channel_or (topic : bytes) : bytes := match topic with [] => gossipsubChannelID | _ => topic end.

Definition writeMessageEvent (tracer : bool) (code : String.string) (from channelID messageID : bytes) (args : list arg) : list trace_row :=
  match messageID with [] => [] | _ => writeEvent tracer code ([AStr from; AStr channelID; AStr messageID] ++ args) end.

Definition ValidateMessage (tracer : bool) (from : bytes) (m : Message) : list trace_row :=
  writeMessageEvent tracer "va" from (gm_topic m) (gossipsubMessageID (gm_data m)) [].
Definition UndeliverableMessage (tracer : bool) (m : Message) : list trace_row :=
  writeEvent tracer "ud" [AStr (gm_topic m); AStr (gossipsubMessageID (gm_data m))].

Definition SendRPC (tracer : bool) (rpc : option RPC) (peerID : bytes) : list trace_row :=
  if negb tracer then [] else
  match rpc with
  | None => []
  | Some rpc =>
      flat_map (fun m => writeEvent tracer "ms" [AStr peerID; AStr (channel_or (gm_topic m)); AStr (gossipsubMessageID (gm_data m)); AInt (len (gm_data m))]) (rpc_publish rpc) ++
      match rpc_control rpc with
      | None => []
      | Some ctl =>
          flat_map (fun ihave => flat_map (fun msgID => writeEvent tracer "hs" [AStr peerID; AStr (channel_or ihave.1); AStr msgID; count ihave.2]) ihave.2) (gc_ihave ctl) ++
          flat_map (fun iwant => flat_map (fun msgID => writeEvent tracer "ws" [AStr peerID; AStr gossipsubChannelID; AStr msgID; count iwant]) iwant) (gc_iwant ctl) ++
          flat_map (fun idontwant => flat_map (fun msgID => writeEvent tracer "ns" [AStr peerID; AStr gossipsubChannelID; AStr msgID; count idontwant]) idontwant) (gc_idontwant ctl)
      end
  end.

Definition writeRPCMeta (tracer : bool) (ihaveCode iwantCode idontwantCode : String.string) (peerID : bytes) (meta : option (option Control)) : list trace_row :=
  match meta with
  | None => []
  | Some None => []
  | Some (Some control) =>
      flat_map (fun ihave => flat_map (fun msgID => writeEvent tracer ihaveCode [AStr peerID; AStr (channel_or ihave.1); AStr msgID; count ihave.2]) ihave.2) (gc_ihave control) ++
      flat_map (fun ids => flat_map (fun msgID => writeEvent tracer iwantCode [AStr peerID; AStr gossipsubChannelID; AStr msgID; count ids]) ids) (gc_iwant control) ++
      flat_map (fun ids => flat_map (fun msgID => writeEvent tracer idontwantCode [AStr peerID; AStr gossipsubChannelID; AStr msgID; count ids]) ids) (gc_idontwant control)
  end.

Inductive TraceEvent :=
| REJECT_MESSAGE (from topic messageID reason : bytes)
| DUPLICATE_MESSAGE (from topic messageID : bytes)
| DELIVER_MESSAGE (from topic messageID : bytes)
| ADD_PEER (peerID proto : bytes)
| REMOVE_PEER (peerID : bytes)
| RECV_RPC (from : bytes) (meta : option (option Control))
| JOIN (topic : bytes)
| LEAVE (topic : bytes)
| GRAFT (peerID topic : bytes)
| PRUNE (peerID topic : bytes)
| OTHER_EVENT.

Definition Trace (tracer : bool) (evt : option TraceEvent) : list trace_row :=
  if negb tracer then [] else
  match evt with
  | None => []
  | Some (REJECT_MESSAGE from topic id reason) => writeEvent tracer "rj" [AStr from; AStr topic; AStr id; AStr reason]
  | Some (DUPLICATE_MESSAGE from topic id) => writeEvent tracer "du" [AStr from; AStr topic; AStr id]
  | Some (DELIVER_MESSAGE from topic id) => writeEvent tracer "dl" [AStr from; AStr topic; AStr id]
  | Some (ADD_PEER p proto) => writeEvent tracer "pa" [AStr p; AStr proto]
  | Some (REMOVE_PEER p) => writeEvent tracer "pg" [AStr p]
  | Some (RECV_RPC from meta) => writeRPCMeta tracer "hr" "wr" "nr" from meta
  | Some (JOIN topic) => writeEvent tracer "tj" [AStr topic]
  | Some (LEAVE topic) => writeEvent tracer "tl" [AStr topic]
  | Some (GRAFT p topic) => writeEvent tracer "mg" [AStr p; AStr topic]
  | Some (PRUNE p topic) => writeEvent tracer "mp" [AStr p; AStr topic]
  | Some OTHER_EVENT => []
  end.

(** The code a receiver writes for what a sender wrote. *)
Definition received_code (code : String.string) : String.string :=
  if decide (code = "hs"%string) then "hr"%string else if decide (code = "ws"%string) then "wr"%string else if decide (code = "ns"%string) then "nr"%string else code.
Definition as_received (from : bytes) (r : trace_row) : trace_row :=
  (received_code r.1, match r.2 with _ :: args => AStr from :: args | [] => [] end).

Lemma map_flat {A B C} (f : B -> C) (g : A -> list B) l : map f (flat_map g l) = flat_map (fun x => map f (g x)) l.
Proof. induction l as [|x l IH]; simpl; [done|]. by rewrite map_app, IH. Qed.

(** Both ends of a control message trace it alike: the rows the receiver writes
    are those the sender wrote, with the codes for received messages and the
    sender's id in place of the receiver's. *)
Theorem control_traces_agree sender receiver ctl :
  Trace true (Some (RECV_RPC sender (Some (Some ctl)))) = map (as_received sender) (SendRPC true (Some (mk_RPC [] (Some ctl))) receiver).
Proof.
  unfold Trace, SendRPC, writeRPCMeta. cbn [negb rpc_publish rpc_control flat_map app]. rewrite !map_app, !map_flat. f_equal; [|f_equal]; apply flat_map_ext; intros x; rewrite map_flat; apply flat_map_ext; intros y; reflexivity.
Qed.
