(* ===== verification/SimNet.v ===== *)
(** * SimNet: the simulated network (src/sim/types.go, driver_simnet.go)

    A topology's edges as the peers each node dials and as the latency between
    two nodes.  The table of latencies is completed by a loop over a Go map that
    adds entries to it: the visits of that loop are a relation that leaves the
    order, and whether entries added on the way are visited, open. *)

From S2P Require Import Prelude Types Session SimObserver.
Open Scope Z_scope.

#[local] Set Default Proof Using "Type".

Record NodeSpec := mk_NodeSpec { ns_Num : Z; ns_UploadBWMbps : Z; ns_DownloadBWMbps : Z }.
Record EdgeSpec := mk_EdgeSpec { ed_Source : Z; ed_Target : Z; ed_LatencyMs : Z }.
Record Topology := mk_Topology { tp_Nodes : list NodeSpec; tp_Edges : list EdgeSpec }.

(** ** The peers of a node *)

Definition add_edge (peers : gmap Z (list Z)) (e : EdgeSpec) : gmap Z (list Z) :=
  <[ed_Source e := default [] (peers !! ed_Source e) ++ [ed_Target e]]> peers.
Definition EdgesMap (t : Topology) : gmap Z (list Z) := foldl add_edge ∅ (tp_Edges t).

(** The loop of [RunNode] over its peers: those it dials. *)
Fixpoint dials (nodeNum : Z) (peers : list Z) : list Z :=
  match peers with
  | [] => []
  | p :: peers => if nodeNum >? p then dials nodeNum peers else p :: dials nodeNum peers
  end.

Lemma EdgesMap_spec t n : default [] (EdgesMap t !! n) = ed_Target <$> filter (fun e => ed_Source e = n) (tp_Edges t).
Proof.
  unfold EdgesMap. assert (forall m, default [] (foldl add_edge m (tp_Edges t) !! n) = default [] (m !! n) ++ (ed_Target <$> filter (fun e => ed_Source e = n) (tp_Edges t))) as H.
  { induction (tp_Edges t) as [|e l IH]; intros m; simpl; [by rewrite app_nil_r|]. rewrite IH. unfold add_edge. rewrite filter_cons. case_decide as E.
    - subst n. rewrite lookup_insert_eq. simpl. by rewrite <-app_assoc.
    - by rewrite lookup_insert_ne. }
  by rewrite H.
Qed.

Lemma dials_spec n l : dials n l = filter (fun p => n <= p) l.
Proof.
  induction l as [|p l IH]; simpl; [done|]. rewrite filter_cons, Z.gtb_ltb. destruct (Z.ltb_spec p n); [rewrite decide_False by lia|rewrite decide_True by lia]; by rewrite IH.
Qed.

(** Who dials whom: exactly along the edges whose source is not above their
    target, in the order of the topology.  An edge given only from the higher
    node to the lower one is dialled by neither. *)
Theorem dials_exact t n p : p ∈ dials n (default [] (EdgesMap t !! n)) <-> exists e, e ∈ tp_Edges t /\ ed_Source e = n /\ ed_Target e = p /\ n <= p.
Proof.
  rewrite dials_spec, EdgesMap_spec, list_elem_of_filter, list_elem_of_fmap. split.
  - intros [Hle (e & -> & He)]. apply list_elem_of_filter in He as [Hs He]. by exists e.
  - intros (e & He & Hs & Ht & Hle). split; [done|]. exists e. split; [done|]. by apply list_elem_of_filter.
Qed.

(** ** Latencies *)

Definition Millisecond : Z := 1000000.

Notation table := (gmap Z (gmap Z Z)).

Definition entry (t : table) (a b : Z) : option Z := m ← t !! a; m !! b.
Definition ensure (a : Z) (t : table) : table := match t !! a with Some _ => t | None => <[a := ∅]> t end.
Definition put (a b d : Z) (t : table) : table := <[a := <[b := d]> (default ∅ (t !! a))]> t.

(** The first loop: a later edge between the same nodes replaces an earlier one.
    The product is an [int64]. *)
Definition declare (t : table) (e : EdgeSpec) : table :=
  put (ed_Source e) (ed_Target e) (i64 (ed_LatencyMs e * Millisecond)) (ensure (ed_Source e) t).
Definition declared (edges : list EdgeSpec) : table := foldl declare ∅ edges.

(** The body of the second loop, for the entry [d] from [ss] to [e]. *)
Definition reverse (ss : Z) (t : table) (x : Z * Z) : table :=
  let t := ensure x.1 t in
  match entry t x.1 ss with Some _ => t | None => put x.1 ss x.2 t end.

(** A visit of [ss]: the inner loop goes through [s.latency[ss]], which it does not
    change, in some order. *)
Inductive visit : table * gset Z -> table * gset Z -> Prop :=
| visit_row ss m order t seen :
    t !! ss = Some m -> ss ∉ seen -> order ≡ₚ map_to_list m -> visit (t, seen) (foldl (reverse ss) t order, {[ss]} ∪ seen).

(** [init]'s table: the loop ends once every row it started with was visited; it
    may have visited rows that it added. *)
Definition init_latency (topo : Topology) (t : table) : Prop :=
  exists seen, rtc visit (declared (tp_Edges topo), ∅) (t, seen) /\ dom (declared (tp_Edges topo)) ⊆ seen.

(** ** The table is the symmetric closure of the declared one *)

Lemma entry_ensure a t i j : entry (ensure a t) i j = entry t i j.
Proof.
  unfold entry, ensure. destruct (t !! a) eqn:E; [done|]. destruct (decide (a = i)) as [->|]; [by rewrite lookup_insert_eq, E|by rewrite lookup_insert_ne].
Qed.
Lemma entry_put a b d t i j : entry (put a b d t) i j = if decide (i = a /\ j = b) then Some d else entry t i j.
Proof.
  unfold entry, put. destruct (decide (a = i)) as [->|Hne]; [rewrite lookup_insert_eq|rewrite lookup_insert_ne, decide_False by naive_solver; done]. simpl.
  destruct (decide (b = j)) as [->|Hj]; [by rewrite lookup_insert_eq, decide_True|]. rewrite lookup_insert_ne, decide_False by naive_solver. by destruct (t !! i).
Qed.
Lemma entry_reverse ss t x i j : entry (reverse ss t x) i j = match entry t i j with Some d => Some d | None => if decide (i = x.1 /\ j = ss) then Some x.2 else None end.
Proof.
  unfold reverse. rewrite entry_ensure. destruct (entry t x.1 ss) eqn:E.
  - rewrite entry_ensure. destruct (entry t i j) eqn:E2; [done|]. rewrite decide_False; [done|]. intros [-> ->]. congruence.
  - rewrite entry_put, entry_ensure. case_decide as H; [destruct H as [-> ->]; by rewrite E|]. by destruct (entry t i j).
Qed.

Lemma entry_reverse_all ss l : forall t i j, entry (foldl (reverse ss) t l) i j =
  match entry t i j with Some d => Some d | None => if decide (j = ss) then (list_to_map l : gmap Z Z) !! i else None end.
Proof.
  induction l as [|x l IH]; intros t i j; simpl; [by destruct (entry t i j), (decide (j = ss))|]. rewrite IH, entry_reverse. destruct (entry t i j); [done|].
  destruct (decide (j = ss)) as [->|]; [|rewrite !decide_False by naive_solver; done].
  destruct (decide (i = x.1)) as [->|Hne]; [by rewrite decide_True, lookup_insert_eq|]. by rewrite decide_False, lookup_insert_ne by naive_solver.
Qed.

Lemma entry_visit t seen t' seen' : visit (t, seen) (t', seen') -> exists ss, ss ∉ seen /\ seen' = {[ss]} ∪ seen /\ is_Some (t !! ss) /\
  forall i j, entry t' i j = match entry t i j with Some d => Some d | None => if decide (j = ss) then entry t ss i else None end.
Proof.
  intros H. inversion H as [ss m order t0 seen0 Hm Hs Hp]; subst. exists ss. split; [done|]. split; [done|]. split; [by eexists|]. intros i j.
  rewrite entry_reverse_all. destruct (entry t i j); [done|]. case_decide; [|done]. unfold entry. rewrite Hm. simpl. f_equal.
  rewrite <-(list_to_map_to_list m). apply list_to_map_proper; [|done]. rewrite Hp. apply NoDup_fst_map_to_list.
Qed.

Lemma put_ensure a b d t : put a b d (ensure a t) = put a b d t.
Proof. unfold put, ensure. destruct (t !! a) eqn:E; [by rewrite E|]. rewrite lookup_insert_eq. simpl. by rewrite insert_insert_eq. Qed.

Lemma reverse_eq ss t x : reverse ss t x = match entry t x.1 ss with Some _ => t | None => put x.1 ss x.2 t end.
Proof.
  unfold reverse. rewrite entry_ensure, put_ensure. destruct (entry t x.1 ss) eqn:E; [|done]. unfold ensure, entry in *. by destruct (t !! x.1).
Qed.

(** No row is empty. *)
Definition rows_full (t : table) : Prop := forall a, is_Some (t !! a) <-> exists b, is_Some (entry t a b).

Lemma rows_put a b d t : rows_full t -> rows_full (put a b d t).
Proof.
  intros H c. split; [|intros [b' [x Hx]]; unfold entry in Hx; destruct (put a b d t !! c); [by eexists|done]]. intros Hc.
  destruct (decide (c = a)) as [->|Hne]; [exists b; rewrite entry_put, decide_True by done; by eexists|].
  unfold put in Hc. rewrite lookup_insert_ne in Hc by done. apply H in Hc as [b' Hb]. exists b'. rewrite entry_put, decide_False by naive_solver. done.
Qed.
Lemma rows_declared edges : rows_full (declared edges).
Proof.
  unfold declared. assert (rows_full ∅) as H by (intros a; unfold entry; rewrite lookup_empty; split; [by intros []|by intros [? []]]).
  revert H. generalize (∅ : table). induction edges as [|e l IH]; intros t Ht; simpl; [done|]. apply IH. unfold declare. rewrite put_ensure. by apply rows_put.
Qed.
Lemma rows_visit x y : visit x y -> rows_full x.1 -> rows_full y.1.
Proof.
  intros [ss m order t seen _ _ _] Ht. simpl in *. clear m. revert t Ht. induction order as [|z l IH]; intros t Ht; simpl; [done|]. apply IH. rewrite reverse_eq.
  destruct (entry t z.1 ss); [done|by apply rows_put].
Qed.

(** What the rows hold while the loop runs, [L] being the declared table. *)
Record closing (L t : table) (seen : gset Z) : Prop := {
  cl_rows : rows_full t;
  cl_keeps : forall a b d, entry L a b = Some d -> entry t a b = Some d;
  cl_only : forall a b d, entry t a b = Some d -> entry L a b = Some d \/ (entry L a b = None /\ entry L b a = Some d);
  cl_seen : forall a b d, b ∈ seen -> entry L b a = Some d -> is_Some (entry t a b) }.

Lemma closing_visit L t seen t' seen' : closing L t seen -> visit (t, seen) (t', seen') -> closing L t' seen'.
Proof.
  intros [C0 C1 C2 C3] Hv. pose proof (rows_visit _ _ Hv C0) as C0'. apply entry_visit in Hv as (ss & _ & -> & _ & He). split; [done| | |].
  - intros a b d H. by rewrite He, (C1 a b d H).
  - intros a b d. rewrite He. destruct (entry t a b) as [d'|] eqn:E; [intros [= ->]; by apply C2|]. case_decide as Hb; [subst b|done]. intros Hd.
    assert (entry L a ss = None) as Hn by (destruct (entry L a ss) as [x|] eqn:Ex; [by rewrite (C1 _ _ _ Ex) in E|done]).
    right. split; [done|]. destruct (C2 _ _ _ Hd) as [?|[_ ?]]; [done|congruence].
  - intros a b d Hb Hd. rewrite He. destruct (entry t a b) eqn:E; [by eexists|]. apply elem_of_union in Hb as [->%elem_of_singleton|Hb].
    + rewrite decide_True by done. rewrite (C1 _ _ _ Hd). by eexists.
    + destruct (C3 a b d Hb Hd). congruence.
Qed.

(** The latency from [a] to [b]: as declared, else as declared the other way. *)
Definition symmetric (L : table) (a b : Z) : option Z := match entry L a b with Some d => Some d | None => entry L b a end.

Lemma init_exact topo t : init_latency topo t -> rows_full t /\ forall a b, entry t a b = symmetric (declared (tp_Edges topo)) a b.
Proof.
  intros (seen & Hr & Hseen). set (L := declared (tp_Edges topo)) in *.
  assert (forall x y, rtc visit x y -> closing L x.1 x.2 -> closing L y.1 y.2) as Hind.
  { intros x y H. induction H as [|[t1 s1] [t2 s2] z Hv _ IH]; [done|]. intros Hc. apply IH. by eapply closing_visit. }
  destruct (Hind _ _ Hr) as [C0 C1 C2 C3].
  { split; simpl; [apply rows_declared|done|auto|set_solver]. }
  simpl in *. split; [done|]. intros a b. unfold symmetric. destruct (entry L a b) as [d|] eqn:E; [by apply C1|]. destruct (entry L b a) as [d|] eqn:E2.
  - assert (b ∈ seen) as Hb by (apply Hseen, elem_of_dom; unfold entry in E2; destruct (L !! b); [by eexists|done]).
    destruct (C3 a b d Hb E2) as [d' Hd']. destruct (C2 _ _ _ Hd') as [?|[_ ?]]; congruence.
  - destruct (entry t a b) as [d|] eqn:Et; [|done]. destruct (C2 _ _ _ Et) as [?|[_ ?]]; congruence.
Qed.

(** The declared latency of an edge: the last edge between the nodes decides. *)
Definition edge_latency (edges : list EdgeSpec) (a b : Z) : option Z :=
  (fun e => i64 (ed_LatencyMs e * Millisecond)) <$> last (filter (fun e => ed_Source e = a /\ ed_Target e = b) edges).

Lemma edge_latency_None edges a b : edge_latency edges a b = None <-> forall e, e ∈ edges -> ~ (ed_Source e = a /\ ed_Target e = b).
Proof.
  unfold edge_latency. rewrite fmap_None, last_None. split.
  - intros Hf e Hin Hp. assert (e ∈ filter (fun e => ed_Source e = a /\ ed_Target e = b) edges) as Hx by (by apply list_elem_of_filter). rewrite Hf in Hx. by apply elem_of_nil in Hx.
  - intros Hno. apply elem_of_nil_inv. intros e Hx. apply list_elem_of_filter in Hx as [Hp Hin]. by apply (Hno e).
Qed.

Lemma declared_spec edges a b : entry (declared edges) a b = edge_latency edges a b.
Proof.
  unfold declared, edge_latency. induction edges as [|e l IH] using rev_ind; [done|]. rewrite foldl_app, filter_app. simpl. unfold declare at 1. rewrite put_ensure, entry_put, filter_cons, filter_nil.
  destruct (decide (ed_Source e = a /\ ed_Target e = b)) as [[<- <-]|Hn]; [rewrite last_snoc, !decide_True by done; done|]. rewrite decide_False by naive_solver. by rewrite app_nil_r.
Qed.

(** ** The driver *)

(** A node is what the driver asks of it: its address and its byte counts. *)
Record driver_node := mk_dnode { dn_Addr : bytes; dn_sent : Z; dn_received : Z }.

Record SimnetDriver := mk_driver {
  sd_nodeSpecs : gmap Z NodeSpec;
  sd_latency : table;
  sd_ipToNode : gmap bytes Z;
  sd_nodes : gmap Z driver_node;
  sd_observers : gmap Z Observer }.

(** [init], with the table its loop leaves. *)
Definition driver_init (topo : Topology) (latency : table) : SimnetDriver :=
  mk_driver (foldl (fun m ns => <[ns_Num ns := ns]> m) ∅ (tp_Nodes topo)) latency ∅ ∅ ∅.

(** The spec of an unknown number is the zero value. *)
Definition spec_of (s : SimnetDriver) (nodeNum : Z) : NodeSpec := default (mk_NodeSpec 0 0 0) (sd_nodeSpecs s !! nodeNum).

(** The link settings handed to simnet: up and down, in bits per second; [Mibps]
    is simnet's unit. *)
Definition link_settings (Mibps : Z) (s : SimnetDriver) (nodeNum : Z) : Z * Z :=
  (i64 (ns_UploadBWMbps (spec_of s nodeNum) * Mibps), i64 (ns_DownloadBWMbps (spec_of s nodeNum) * Mibps)).

Section driver.
(** simnet's [IntToPublicIPv4], as the text of the address. *)
Context (IntToPublicIPv4 : Z -> bytes).

(** [made] is what [newParticipant] returns. *)
Definition NewNode (nodeNum : Z) (made : result error driver_node) (s : SimnetDriver) : result error SimnetDriver :=
  let ip := IntToPublicIPv4 nodeNum in
  let ns := spec_of s nodeNum in
  let! nd := made in
  Ok (mk_driver (sd_nodeSpecs s) (sd_latency s) (<[ip := ns_Num ns]> (sd_ipToNode s)) (<[ns_Num ns := nd]> (sd_nodes s)) (<[ns_Num ns := NewObserver]> (sd_observers s))).

(** The latency of a packet; [None] is a panic. *)
Definition latencyFunc (s : SimnetDriver) (from to : bytes) : option Z :=
  let src := default 0 (sd_ipToNode s !! from) in
  let dst := default 0 (sd_ipToNode s !! to) in
  match sd_latency s !! src with
  | None => None
  | Some row => row !! dst
  end.

(** Calls on a nil node panic. *)
Definition NodeAddr (s : SimnetDriver) (nodeNum : Z) : option bytes := dn_Addr <$> sd_nodes s !! nodeNum.

Definition BandwidthByRole (s : SimnetDriver) : gmap Z Z * gmap Z Z := ((fun o => (Stats o).1) <$> sd_observers s, (fun o => (Stats o).2) <$> sd_observers s).
Definition TransportStats (s : SimnetDriver) : gmap Z Z * gmap Z Z := (dn_sent <$> sd_nodes s, dn_received <$> sd_nodes s).
Definition ChunkStatsByNode (s : SimnetDriver) : gmap Z ChunkStats := Chunks <$> sd_observers s.

(** Nodes made one after the other. *)
Definition make_nodes (s : SimnetDriver) (l : list (Z * driver_node)) : SimnetDriver :=
  foldl (fun s x => match NewNode x.1 (Ok x.2) s with Ok s => s | Err _ => s end) s l.

Lemma specs_lookup l n : n ∈ ns_Num <$> l -> exists ns, foldl (fun m ns => <[ns_Num ns := ns]> m) (∅ : gmap Z NodeSpec) l !! n = Some ns /\ ns_Num ns = n.
Proof.
  induction l as [|x l IH] using rev_ind; [intros H; by apply elem_of_nil in H|]. rewrite fmap_app, foldl_app. simpl. intros H.
  destruct (decide (ns_Num x = n)) as [<-|Hne]; [exists x; by rewrite lookup_insert_eq|]. rewrite lookup_insert_ne by done. apply IH.
  apply elem_of_app in H as [?|H]; [done|]. apply list_elem_of_singleton in H. congruence.
Qed.

(** Different nodes of the topology get different addresses. *)
Definition distinct_ips (topo : Topology) : Prop :=
  forall i j, i ∈ ns_Num <$> tp_Nodes topo -> j ∈ ns_Num <$> tp_Nodes topo -> IntToPublicIPv4 i = IntToPublicIPv4 j -> i = j.

Lemma make_nodes_spec topo t l : distinct_ips topo -> Forall (fun x => x.1 ∈ ns_Num <$> tp_Nodes topo) l ->
  let s := make_nodes (driver_init topo t) l in
  sd_latency s = t /\ (forall n, n ∈ l.*1 -> sd_ipToNode s !! IntToPublicIPv4 n = Some n) /\ dom (sd_nodes s) = list_to_set l.*1 /\ dom (sd_observers s) = list_to_set l.*1.
Proof.
  intros Hinj Hl. cbv zeta. assert (sd_nodeSpecs (make_nodes (driver_init topo t) l) = sd_nodeSpecs (driver_init topo t) /\ sd_latency (make_nodes (driver_init topo t) l) = t /\
    (forall n, n ∈ l.*1 -> sd_ipToNode (make_nodes (driver_init topo t) l) !! IntToPublicIPv4 n = Some n) /\
    dom (sd_nodes (make_nodes (driver_init topo t) l)) = list_to_set l.*1 /\ dom (sd_observers (make_nodes (driver_init topo t) l)) = list_to_set l.*1) as H; [|naive_solver].
  induction l as [|[n nd] l IH] using rev_ind; [simpl; split_and!; try done; intros n H; by apply elem_of_nil in H|].
  apply Forall_app in Hl as [Hl Hn]. apply Forall_cons in Hn as [Hn _]. destruct (IH Hl) as (A & B & C & D & E). unfold make_nodes in *. rewrite foldl_app. simpl in *.
  set (s := foldl _ _ l) in *. assert (ns_Num (spec_of s n) = n) as En by (unfold spec_of; rewrite A; destruct (specs_lookup _ _ Hn) as (ns & -> & ?); done).
  rewrite En. split_and!; simpl; [done..| | |].
  - intros m. rewrite fmap_app, elem_of_app. simpl. intros [Hm|Hm%list_elem_of_singleton]; [|subst m; by rewrite lookup_insert_eq].
    destruct (decide (n = m)) as [->|Hne]; [by rewrite lookup_insert_eq|]. rewrite lookup_insert_ne; [by apply C|]. intros Heq. apply Hne, Hinj; [done| |done].
    apply list_elem_of_fmap in Hm as (x & -> & Hx). rewrite Forall_forall in Hl. by apply Hl.
  - rewrite dom_insert_L, D, fmap_app, list_to_set_app_L. simpl. set_solver.
  - rewrite dom_insert_L, E, fmap_app, list_to_set_app_L. simpl. set_solver.
Qed.

(** The simulated network's latencies.  In whatever order Go ranges over the
    table while [init] completes it, and whichever of the rows it adds it also
    visits: a packet between two nodes of the topology takes the latency of the
    last edge given from one to the other, else of the last edge given the other
    way, and the driver panics exactly when there is no edge either way.  Two
    nodes with one edge between them see the same latency in both directions. *)
Theorem latency_exact topo t l a b : distinct_ips topo -> init_latency topo t -> Forall (fun x => x.1 ∈ ns_Num <$> tp_Nodes topo) l -> a ∈ l.*1 -> b ∈ l.*1 ->
  let s := make_nodes (driver_init topo t) l in
  let delay := edge_latency (tp_Edges topo) in
  latencyFunc s (IntToPublicIPv4 a) (IntToPublicIPv4 b) = match delay a b with Some d => Some d | None => delay b a end /\
  (latencyFunc s (IntToPublicIPv4 a) (IntToPublicIPv4 b) = None <-> forall e, e ∈ tp_Edges topo -> ~ (ed_Source e = a /\ ed_Target e = b) /\ ~ (ed_Source e = b /\ ed_Target e = a)) /\
  (delay a b = None \/ delay b a = None -> latencyFunc s (IntToPublicIPv4 a) (IntToPublicIPv4 b) = latencyFunc s (IntToPublicIPv4 b) (IntToPublicIPv4 a)).
Proof.
  intros Hinj Ht Hl Ha Hb. cbv zeta. destruct (make_nodes_spec topo t l Hinj Hl) as (EL & Hip & _). destruct (init_exact topo t Ht) as [_ He].
  set (s := make_nodes (driver_init topo t) l) in *. set (delay := edge_latency (tp_Edges topo)).
  assert (forall i j, i ∈ l.*1 -> j ∈ l.*1 -> latencyFunc s (IntToPublicIPv4 i) (IntToPublicIPv4 j) = match delay i j with Some d => Some d | None => delay j i end) as Hlat.
  { intros i j Hi Hj. unfold latencyFunc. rewrite (Hip i Hi), (Hip j Hj). simpl. rewrite EL. specialize (He i j). unfold symmetric in He. rewrite !declared_spec in He.
    unfold delay. rewrite <-He. unfold entry. by destruct (t !! i). }
  split_and!.
  - by apply Hlat.
  - rewrite Hlat by done. destruct (delay a b) as [d|] eqn:E1.
    + split; [done|]. intros H. exfalso. assert (delay a b = None) by (apply edge_latency_None; intros e Hin; by apply H). congruence.
    + pose proof (proj1 (edge_latency_None _ a b) E1) as H1. unfold delay. rewrite edge_latency_None. split; [intros H e Hin; split; [by apply H1|by apply H]|intros H e Hin; by apply H].
  - intros Hd. rewrite !Hlat by done. destruct (delay a b), (delay b a); try done. by destruct Hd.
Qed.
End driver.

(** Three nodes in a line, one edge given upwards and one downwards. *)
Definition demo_topology : Topology :=
  mk_Topology [mk_NodeSpec 0 50 50; mk_NodeSpec 1 50 50; mk_NodeSpec 2 50 50] [mk_EdgeSpec 0 1 50; mk_EdgeSpec 2 1 30].
Definition demo_ip (n : Z) : bytes := [z2b n].
Definition demo_nodes : list (Z * driver_node) := (fun n => (n, mk_dnode (demo_ip n) 0 0)) <$> [0; 1; 2].
Definition demo_table : table := foldl (reverse 2) (foldl (reverse 0) (declared (tp_Edges demo_topology)) [(1, 50000000)]) [(1, 30000000)].

Lemma demo_init : init_latency demo_topology demo_table.
Proof.
  exists ({[2]} ∪ ({[0]} ∪ ∅)). split; [|vm_compute; intros x; repeat (rewrite ?elem_of_cons); set_solver].
  eapply rtc_l; [apply (visit_row 0 {[1 := 50000000]} [(1, 50000000)]); [by vm_compute|set_solver|by vm_compute]|].
  apply rtc_once. apply (visit_row 2 {[1 := 30000000]} [(1, 30000000)]); [by vm_compute|set_solver|by vm_compute].
Qed.

Lemma latency_exact_witness :
  init_latency demo_topology demo_table /\ latencyFunc (make_nodes demo_ip (driver_init demo_topology demo_table) demo_nodes) (demo_ip 1) (demo_ip 2) = Some 30000000 /\
  latencyFunc (make_nodes demo_ip (driver_init demo_topology demo_table) demo_nodes) (demo_ip 0) (demo_ip 2) = None.
Proof.
  assert (distinct_ips demo_ip demo_topology) as Hd.
  { intros i j Hi Hj H. simpl in Hi, Hj. rewrite !elem_of_cons, elem_of_nil in Hi, Hj. destruct Hi as [->|[->|[->|[]]]], Hj as [->|[->|[->|[]]]]; done || by vm_compute in H. }
  assert (Forall (fun x => x.1 ∈ ns_Num <$> tp_Nodes demo_topology) demo_nodes) as Hn by (repeat constructor; simpl; set_solver).
  split; [apply demo_init|]. split.
  - destruct (latency_exact demo_ip demo_topology demo_table demo_nodes 1 2 Hd demo_init Hn ltac:(simpl; set_solver) ltac:(simpl; set_solver)) as (H & _). rewrite H. by vm_compute.
  - destruct (latency_exact demo_ip demo_topology demo_table demo_nodes 0 2 Hd demo_init Hn ltac:(simpl; set_solver) ltac:(simpl; set_solver)) as (H & _). rewrite H. by vm_compute.
Defined.
