(* ===== verification/SimStats.v ===== *)
(** * SimStats: publishing, receiving and the statistics of a run
    (src/sim/scenario.go, collector.go)

    A node's loop sends each event to every consumer's channel, in order, and
    stops where a context ends; the collector takes events from its two channels
    in the order its select picks them. *)

From S2P Require Import Prelude Types Session SimObserver SimTrace.
From stdpp Require Import pretty.
Open Scope Z_scope.

#[local] Set Default Proof Using "Type".

Record NodeEvent := mk_NodeEvent { ev_MessageID : bytes; ev_Data : bytes; ev_NodeNum : Z; ev_At : Z }.

(** ** Publishing and receiving *)

(** [fmt.Sprintf("msg-%d", i)]. *)
Definition msg_id (i : nat) : bytes := string_bytes ("msg-" ++ pretty i).

(** One round of [publishMessages]: what [rand.Read] gives ([None] on an error),
    the time, the number of channels served before a context ended ([None] if it
    did not), and whether the wait for the next round was cut short. *)
Record publish_round := mk_round { pr_data : option bytes; pr_now : Z; pr_served : option nat; pr_cut : bool }.

(** What it does: [node.Publish] calls, and per consumer the events sent.  [chans]
    is the number of consumers. *)
Record publish_log := mk_plog { pl_published : list (bytes * bytes); pl_sent : list (list NodeEvent) }.

Definition send_upto (k : nat) (ev : NodeEvent) (sent : list (list NodeEvent)) : list (list NodeEvent) :=
  imap (fun j l => if (j <? k)%nat then l ++ [ev] else l) sent.

Fixpoint publishMessages (nodeNum : Z) (i : nat) (rounds : list publish_round) (log : publish_log) : publish_log :=
  match rounds with
  | [] => log
  | r :: rounds =>
      match pr_data r with
      | None => log
      | Some data =>
          let ev := mk_NodeEvent (msg_id i) data nodeNum (pr_now r) in
          let published := pl_published log ++ [(msg_id i, data)] in
          match pr_served r with
          | Some k => mk_plog published (send_upto k ev (pl_sent log))
          | None =>
              let log := mk_plog published (send_upto (length (pl_sent log)) ev (pl_sent log)) in
              if pr_cut r then log else publishMessages nodeNum (S i) rounds log
          end
      end
  end.

(** One round of [receiveMessages]: what [node.Receive] returns, an error being a
    context's ([true]) or another, on which the node panics. *)
Record receive_round := mk_rround { rr_got : result bool (bytes * bytes); rr_now : Z; rr_served : option nat }.

Fixpoint receiveMessages (nodeNum : Z) (rounds : list receive_round) (sent : list (list NodeEvent)) : option (list (list NodeEvent)) :=
  match rounds with
  | [] => Some sent
  | r :: rounds =>
      match rr_got r with
      | Err true => Some sent
      | Err false => None
      | Ok (messageID, data) =>
          let ev := mk_NodeEvent messageID data nodeNum (rr_now r) in
          match rr_served r with
          | Some k => Some (send_upto k ev sent)
          | None => receiveMessages nodeNum rounds (send_upto (length sent) ev sent)
          end
      end
  end.

(** [PushEventsTo]: the channels that are not nil are added. *)
Definition PushEventsTo (published received bandwidth : option nat) (chans : list nat * list nat * list nat) : list nat * list nat * list nat :=
  (chans.1.1 ++ option_list published, chans.1.2 ++ option_list received, chans.2 ++ option_list bandwidth).

(** The events of the rounds: message [i] of round [i]. *)
Definition round_events (nodeNum : Z) (i : nat) (rounds : list publish_round) : list NodeEvent :=
  imap (fun k r => mk_NodeEvent (msg_id (i + k)) (default [] (pr_data r)) nodeNum (pr_now r)) rounds.

Lemma round_events_cons nodeNum i r rounds data : pr_data r = Some data ->
  round_events nodeNum i (r :: rounds) = mk_NodeEvent (msg_id i) data nodeNum (pr_now r) :: round_events nodeNum (S i) rounds.
Proof. intros Ed. unfold round_events. simpl. rewrite Ed, Nat.add_0_r. f_equal. apply imap_ext. intros k x Hx. simpl. do 2 f_equal. lia. Qed.

Lemma send_upto_lookup k ev sent j : send_upto k ev sent !! j = (fun l => if (j <? k)%nat then l ++ [ev] else l) <$> sent !! j.
Proof. unfold send_upto. by rewrite list_lookup_imap. Qed.
Lemma send_upto_length k ev sent : length (send_upto k ev sent) = length sent.
Proof. apply length_imap. Qed.

(** What consumer [j] gets from publishing. *)
Lemma publish_sent nodeNum rounds : forall i log j l, pl_sent log !! j = Some l ->
  exists n, pl_sent (publishMessages nodeNum i rounds log) !! j = Some (l ++ take n (round_events nodeNum i rounds)) /\
    (length (pl_published (publishMessages nodeNum i rounds log)) - 1 <= length (pl_published log) + n)%nat /\ (length (pl_published log) + n <= length (pl_published (publishMessages nodeNum i rounds log)))%nat.
Proof.
  induction rounds as [|r rounds IH]; intros i log j l Hj; simpl; [exists 0%nat; rewrite app_nil_r; split; [done|lia]|].
  destruct (pr_data r) as [data|] eqn:Ed; [|exists 0%nat; simpl; rewrite app_nil_r; split; [done|lia]].
  pose proof (round_events_cons nodeNum i r rounds data Ed) as Er.
  destruct (pr_served r) as [k|].
  - simpl. rewrite send_upto_lookup, Hj, length_app. simpl. destruct (j <? k)%nat; [exists 1%nat|exists 0%nat]; (split; [|lia]); [rewrite Er; done|by rewrite app_nil_r].
  - set (log1 := mk_plog _ _). assert (pl_sent log1 !! j = Some (l ++ [mk_NodeEvent (msg_id i) data nodeNum (pr_now r)])) as Hj1.
    { simpl. rewrite send_upto_lookup, Hj. simpl. apply lookup_lt_Some in Hj. by rewrite (proj2 (Nat.ltb_lt _ _) Hj). }
    assert (length (pl_published log1) = S (length (pl_published log))) as Hl by (simpl; rewrite length_app; simpl; lia).
    destruct (pr_cut r); [exists 1%nat; rewrite Hl; split; [rewrite Er; done|lia]|].
    destruct (IH (S i) log1 j _ Hj1) as (n & A & B & C). exists (S n). rewrite Er. simpl take. split; [by rewrite A, <-app_assoc|lia].
Qed.

Lemma publish_calls nodeNum rounds : forall i log, exists n, pl_published (publishMessages nodeNum i rounds log) = pl_published log ++ ((fun e => (ev_MessageID e, ev_Data e)) <$> take n (round_events nodeNum i rounds)).
Proof.
  induction rounds as [|r rounds IH]; intros i log; simpl; [exists 0%nat; by rewrite app_nil_r|]. destruct (pr_data r) as [data|] eqn:Ed; [|exists 0%nat; simpl; by rewrite app_nil_r].
  pose proof (round_events_cons nodeNum i r rounds data Ed) as Er.
  destruct (pr_served r); [exists 1%nat; by rewrite Er|]. destruct (pr_cut r); [exists 1%nat; by rewrite Er|].
  destruct (IH (S i) (mk_plog (pl_published log ++ [(msg_id i, data)]) (send_upto (length (pl_sent log)) (mk_NodeEvent (msg_id i) data nodeNum (pr_now r)) (pl_sent log)))) as [n Hn].
  exists (S n). rewrite Hn, Er. simpl. by rewrite <-app_assoc.
Qed.

Lemma msg_id_inj i j : msg_id i = msg_id j -> i = j.
Proof.
  unfold msg_id, string_bytes. intros H.
  assert (forall a b, map Ascii.byte_of_ascii (String.list_ascii_of_string a) = map Ascii.byte_of_ascii (String.list_ascii_of_string b) -> a = b) as Hs.
  { intros a b Hab. rewrite <-(String.string_of_list_ascii_of_string a), <-(String.string_of_list_ascii_of_string b). f_equal. apply (f_equal (map Ascii.ascii_of_byte)) in Hab.
    rewrite !List.map_map in Hab. assert (forall l, map (fun x => Ascii.ascii_of_byte (Ascii.byte_of_ascii x)) l = l) as Hid by (intros l; rewrite <-(List.map_id l) at 2; apply List.map_ext; intros; apply Ascii.ascii_of_byte_of_ascii).
    by rewrite !Hid in Hab. }
  apply Hs in H. injection H as H. by apply (inj pretty).
Qed.

(** Every consumer of a publishing node gets the events of the messages published,
    in order and each once, but for the last one when a context ends while it is
    being sent; the messages have different ids. *)
Theorem publish_events nodeNum rounds chans j :
  let log := publishMessages nodeNum 0 rounds (mk_plog [] (replicate chans [])) in
  (j < chans)%nat -> exists l, pl_sent log !! j = Some l /\ ((fun e => (ev_MessageID e, ev_Data e)) <$> l) `prefix_of` pl_published log /\
    (length (pl_published log) <= length l + 1)%nat /\ NoDup (ev_MessageID <$> l) /\ Forall (fun e => ev_NodeNum e = nodeNum) l.
Proof.
  cbv zeta. intros Hj. destruct (publish_sent nodeNum rounds 0 (mk_plog [] (replicate chans [])) j [] ltac:(by apply lookup_replicate)) as (n & H1 & H2 & H3).
  destruct (publish_calls nodeNum rounds 0 (mk_plog [] (replicate chans []))) as [m Hm]. simpl in *. set (log := publishMessages _ _ _ _) in *. set (evs := round_events nodeNum 0 rounds) in *.
  exists (take n evs). split; [done|]. assert (length (pl_published log) <= length evs)%nat as Hle by (rewrite Hm, length_fmap, length_take; lia).
  assert (length (pl_published log) = Nat.min m (length evs)) as Hlen by (rewrite Hm, length_fmap, length_take; done).
  split_and!.
  - rewrite Hm. exists ((fun e => (ev_MessageID e, ev_Data e)) <$> drop n (take m evs)). rewrite <-fmap_app. f_equal. rewrite <-(take_drop n (take m evs)) at 1. f_equal. rewrite take_take.
    destruct (Nat.le_gt_cases n m); [by rewrite Nat.min_l by lia|]. rewrite Nat.min_r by lia. rewrite !take_ge by lia. done.
  - rewrite length_take. lia.
  - rewrite fmap_take. apply (sublist_NoDup _ (ev_MessageID <$> evs)); [|apply sublist_take].
    replace (ev_MessageID <$> evs) with (msg_id <$> seq 0 (length rounds)); [apply NoDup_fmap_2_strong; [intros ? ? _ _; apply msg_id_inj|apply NoDup_seq]|].
    unfold evs, round_events. rewrite <-imap_seq_0. rewrite fmap_imap. apply imap_ext. done.
  - apply Forall_take. apply Forall_forall. intros e He. unfold evs, round_events in He. apply elem_of_lookup_imap in He as (k & r & -> & _). done.
Qed.

(** ** The collector *)

Record ScenarioStats := mk_stats {
  st_PublishedMessages : gmap bytes bytes;
  st_PublishedAt : gmap bytes Z;
  st_ReceivedMessages : gmap Z (gmap bytes bytes);
  st_ReceivedAt : gmap Z (gmap bytes Z);
  st_ReceivedLatency : gmap Z (gmap bytes Z) }.

Definition no_stats : ScenarioStats := mk_stats ∅ ∅ ∅ ∅ ∅.

(** A write to a row that is nil panics. *)
Definition set_row {V} (m : gmap Z (gmap bytes V)) (n : Z) (k : bytes) (v : V) : option (gmap Z (gmap bytes V)) :=
  letp row := m !! n in Some (<[n := <[k := v]> row]> m).

Inductive stats_event := Published (ev : NodeEvent) | Received (ev : NodeEvent).

(** [time.Time.Sub] saturates. *)
Definition time_sub (a b : Z) : Z := Z.max (- 2 ^ 63) (Z.min (2 ^ 63 - 1) (a - b)).

(** One turn of the loop of [StatsCollector.Run]. *)
Definition collect (e : stats_event) (s : ScenarioStats) : option ScenarioStats :=
  match e with
  | Published ev => Some (mk_stats (<[ev_MessageID ev := ev_Data ev]> (st_PublishedMessages s)) (<[ev_MessageID ev := ev_At ev]> (st_PublishedAt s)) (st_ReceivedMessages s) (st_ReceivedAt s) (st_ReceivedLatency s))
  | Received ev =>
      let n := ev_NodeNum ev in let mid := ev_MessageID ev in
      let s := match st_ReceivedMessages s !! n with
               | Some _ => s
               | None => mk_stats (st_PublishedMessages s) (st_PublishedAt s) (<[n := ∅]> (st_ReceivedMessages s)) (<[n := ∅]> (st_ReceivedAt s)) (<[n := ∅]> (st_ReceivedLatency s))
               end in
      letp messages := set_row (st_ReceivedMessages s) n mid (ev_Data ev) in
      letp ats := set_row (st_ReceivedAt s) n mid (ev_At ev) in
      letp latencies := match st_PublishedAt s !! mid with
                        | Some pubTime => set_row (st_ReceivedLatency s) n mid (time_sub (ev_At ev) pubTime)
                        | None => Some (st_ReceivedLatency s)
                        end in
      Some (mk_stats (st_PublishedMessages s) (st_PublishedAt s) messages ats latencies)
  end.

(** [Run] over the events in the order in which the select took them. *)
Fixpoint collector_Run (l : list stats_event) (s : ScenarioStats) : option ScenarioStats :=
  match l with [] => Some s | e :: l => letp s := collect e s in collector_Run l s end.

Definition cell {V} (m : gmap Z (gmap bytes V)) (n : Z) (k : bytes) : option V := row ← m !! n; row !! k.

(** *** The reference *)

Definition is_pub (m : bytes) (e : stats_event) : option NodeEvent := match e with Published ev => if decide (ev_MessageID ev = m) then Some ev else None | _ => None end.
Definition is_rcv (n : Z) (m : bytes) (e : stats_event) : option NodeEvent :=
  match e with Received ev => if decide (ev_NodeNum ev = n /\ ev_MessageID ev = m) then Some ev else None | _ => None end.
Definition last_pub (m : bytes) (l : list stats_event) : option NodeEvent := last (omap (is_pub m) l).
Definition last_rcv (n : Z) (m : bytes) (l : list stats_event) : option NodeEvent := last (omap (is_rcv n m) l).

(** The latency of the last reception that came after a publication. *)
Fixpoint latency_at (n : Z) (m : bytes) (pub : option Z) (acc : option Z) (l : list stats_event) : option Z :=
  match l with
  | [] => acc
  | e :: l =>
      match is_pub m e, is_rcv n m e with
      | Some ev, _ => latency_at n m (Some (ev_At ev)) acc l
      | None, Some ev => latency_at n m pub (match pub with Some t => Some (time_sub (ev_At ev) t) | None => acc end) l
      | None, None => latency_at n m pub acc l
      end
  end.

(** The rows of a node are made together. *)
Definition same_rows (s : ScenarioStats) : Prop :=
  forall n, (is_Some (st_ReceivedAt s !! n) <-> is_Some (st_ReceivedMessages s !! n)) /\ (is_Some (st_ReceivedLatency s !! n) <-> is_Some (st_ReceivedMessages s !! n)).

Lemma set_row_spec {V} (m : gmap Z (gmap bytes V)) n k v : is_Some (m !! n) -> exists m', set_row m n k v = Some m' /\
  (forall i, is_Some (m' !! i) <-> is_Some (m !! i)) /\ forall i j, cell m' i j = if decide (i = n /\ j = k) then Some v else cell m i j.
Proof.
  intros [row Hr]. unfold set_row. rewrite Hr. cbn [mbind option_bind]. eexists. split; [done|]. split.
  - intros i. destruct (decide (n = i)) as [->|]; [rewrite lookup_insert_eq, Hr; split; by eexists|by rewrite lookup_insert_ne].
  - intros i j. unfold cell. destruct (decide (n = i)) as [->|Hn]; [rewrite lookup_insert_eq, Hr; simpl|rewrite lookup_insert_ne, decide_False by naive_solver; done].
    destruct (decide (k = j)) as [->|Hk]; [by rewrite lookup_insert_eq, decide_True|]. by rewrite lookup_insert_ne, decide_False by naive_solver.
Qed.

Lemma new_row {V} (m : gmap Z (gmap bytes V)) n : m !! n = None -> (forall i, is_Some (<[n := ∅]> m !! i) <-> i = n \/ is_Some (m !! i)) /\ forall i j, cell (<[n := ∅]> m) i j = cell m i j.
Proof.
  intros H. split; intros i.
  - rewrite lookup_insert_is_Some'. naive_solver.
  - intros j. unfold cell. destruct (decide (n = i)) as [->|]; [by rewrite lookup_insert_eq, H|by rewrite lookup_insert_ne].
Qed.

(** The rows of the node exist before the writes. *)
Definition with_rows (n : Z) (s : ScenarioStats) : ScenarioStats :=
  match st_ReceivedMessages s !! n with
  | Some _ => s
  | None => mk_stats (st_PublishedMessages s) (st_PublishedAt s) (<[n := ∅]> (st_ReceivedMessages s)) (<[n := ∅]> (st_ReceivedAt s)) (<[n := ∅]> (st_ReceivedLatency s))
  end.

Lemma with_rows_spec n s : same_rows s -> same_rows (with_rows n s) /\ is_Some (st_ReceivedMessages (with_rows n s) !! n) /\
  st_PublishedMessages (with_rows n s) = st_PublishedMessages s /\ st_PublishedAt (with_rows n s) = st_PublishedAt s /\
  (forall i j, cell (st_ReceivedMessages (with_rows n s)) i j = cell (st_ReceivedMessages s) i j /\ cell (st_ReceivedAt (with_rows n s)) i j = cell (st_ReceivedAt s) i j /\
               cell (st_ReceivedLatency (with_rows n s)) i j = cell (st_ReceivedLatency s) i j).
Proof.
  intros Hr. unfold with_rows. destruct (st_ReceivedMessages s !! n) eqn:E; [by split_and!; [done|by eexists|..]|]. destruct (Hr n) as [A B].
  assert (st_ReceivedAt s !! n = None) as E1 by (apply eq_None_not_Some; rewrite A, E; by intros []).
  assert (st_ReceivedLatency s !! n = None) as E2 by (apply eq_None_not_Some; rewrite B, E; by intros []).
  destruct (new_row _ _ E) as [R1 C1], (new_row _ _ E1) as [R2 C2], (new_row _ _ E2) as [R3 C3]. split_and!; simpl; [|by rewrite lookup_insert_eq|done|done|done].
  intros i. simpl. rewrite R1, R2, R3. destruct (Hr i) as [-> ->]. done.
Qed.

Lemma collect_spec e s : same_rows s -> exists s', collect e s = Some s' /\ same_rows s' /\
  (forall m, st_PublishedMessages s' !! m = match is_pub m e with Some ev => Some (ev_Data ev) | None => st_PublishedMessages s !! m end) /\
  (forall m, st_PublishedAt s' !! m = match is_pub m e with Some ev => Some (ev_At ev) | None => st_PublishedAt s !! m end) /\
  (forall n m, cell (st_ReceivedMessages s') n m = match is_rcv n m e with Some ev => Some (ev_Data ev) | None => cell (st_ReceivedMessages s) n m end) /\
  (forall n m, cell (st_ReceivedAt s') n m = match is_rcv n m e with Some ev => Some (ev_At ev) | None => cell (st_ReceivedAt s) n m end) /\
  (forall n m, cell (st_ReceivedLatency s') n m = match is_rcv n m e, st_PublishedAt s !! m with Some ev, Some t => Some (time_sub (ev_At ev) t) | _, _ => cell (st_ReceivedLatency s) n m end).
Proof.
  intros Hr. destruct e as [ev|ev].
  { eexists. split; [done|]. split; [done|]. simpl. split_and!; try done.
    - intros m. case_decide as E; [subst; by rewrite lookup_insert_eq|by rewrite lookup_insert_ne].
    - intros m. case_decide as E; [subst; by rewrite lookup_insert_eq|by rewrite lookup_insert_ne]. }
  destruct (with_rows_spec (ev_NodeNum ev) s Hr) as (W1 & W2 & W3 & W4 & W5). unfold collect. fold (with_rows (ev_NodeNum ev) s). set (s1 := with_rows (ev_NodeNum ev) s) in *.
  destruct (set_row_spec (st_ReceivedMessages s1) (ev_NodeNum ev) (ev_MessageID ev) (ev_Data ev) W2) as (m1 & -> & R1 & C1).
  destruct (set_row_spec (st_ReceivedAt s1) (ev_NodeNum ev) (ev_MessageID ev) (ev_At ev)) as (m2 & -> & R2 & C2); [by apply W1|]. cbn [mbind option_bind].
  assert (exists m3, match st_PublishedAt s1 !! ev_MessageID ev with Some pubTime => set_row (st_ReceivedLatency s1) (ev_NodeNum ev) (ev_MessageID ev) (time_sub (ev_At ev) pubTime) | None => Some (st_ReceivedLatency s1) end = Some m3 /\
    (forall i, is_Some (m3 !! i) <-> is_Some (st_ReceivedLatency s1 !! i)) /\
    forall i j, cell m3 i j = match is_rcv i j (Received ev), st_PublishedAt s1 !! j with Some ev, Some t => Some (time_sub (ev_At ev) t) | _, _ => cell (st_ReceivedLatency s1) i j end) as (m3 & -> & R3 & C3).
  { destruct (st_PublishedAt s1 !! ev_MessageID ev) as [t|] eqn:Et.
    - destruct (set_row_spec (st_ReceivedLatency s1) (ev_NodeNum ev) (ev_MessageID ev) (time_sub (ev_At ev) t)) as (m3 & -> & R3 & C3); [by apply W1|]. exists m3. split; [done|]. split; [done|].
      intros i j. rewrite C3. simpl. destruct (decide (ev_NodeNum ev = i /\ ev_MessageID ev = j)) as [[<- <-]|Hn]; [by rewrite decide_True, Et|rewrite decide_False by naive_solver; done].
    - eexists. split; [done|]. split; [done|]. intros i j. simpl. case_decide as Hd; [destruct Hd as [<- <-]; by rewrite Et|done]. }
  cbn [mbind option_bind]. eexists. split; [done|]. simpl. split.
  { intros i. simpl. rewrite R1, R2, R3. apply W1. }
  rewrite W3, W4. split_and!; [done|done| | |].
  - intros n m. rewrite C1. destruct (W5 n m) as (-> & _ & _). destruct (decide (n = ev_NodeNum ev /\ m = ev_MessageID ev)) as [[-> ->]|Hn]; [by rewrite decide_True|rewrite decide_False by naive_solver; done].
  - intros n m. rewrite C2. destruct (W5 n m) as (_ & -> & _). destruct (decide (n = ev_NodeNum ev /\ m = ev_MessageID ev)) as [[-> ->]|Hn]; [by rewrite decide_True|rewrite decide_False by naive_solver; done].
  - intros n m. rewrite C3, W4. destruct (W5 n m) as (_ & _ & ->). done.
Qed.

Lemma last_omap_cons {A B} (f : A -> option B) x l : last (omap f (x :: l)) = match last (omap f l) with Some b => Some b | None => f x end.
Proof.
  change (omap f (x :: l)) with (match f x with Some b => b :: omap f l | None => omap f l end). destruct (f x) as [b|]; [|by destruct (last (omap f l))]. rewrite last_cons. by destruct (last (omap f l)).
Qed.

Lemma Run_spec l : forall s, same_rows s -> exists s', collector_Run l s = Some s' /\
  (forall m, st_PublishedMessages s' !! m = match last_pub m l with Some ev => Some (ev_Data ev) | None => st_PublishedMessages s !! m end) /\
  (forall m, st_PublishedAt s' !! m = match last_pub m l with Some ev => Some (ev_At ev) | None => st_PublishedAt s !! m end) /\
  (forall n m, cell (st_ReceivedMessages s') n m = match last_rcv n m l with Some ev => Some (ev_Data ev) | None => cell (st_ReceivedMessages s) n m end) /\
  (forall n m, cell (st_ReceivedAt s') n m = match last_rcv n m l with Some ev => Some (ev_At ev) | None => cell (st_ReceivedAt s) n m end) /\
  (forall n m, cell (st_ReceivedLatency s') n m = latency_at n m (st_PublishedAt s !! m) (cell (st_ReceivedLatency s) n m) l).
Proof.
  induction l as [|e l IH]; intros s Hr; [by exists s|]. destruct (collect_spec e s Hr) as (s1 & E1 & Hr1 & A & B & C & D & F). simpl. rewrite E1. cbn [mbind option_bind].
  destruct (IH s1 Hr1) as (s' & -> & A' & B' & C' & D' & F'). exists s'. split; [done|]. unfold last_pub, last_rcv in *. split_and!.
  - intros m. rewrite A', A, last_omap_cons. by destruct (last (omap (is_pub m) l)).
  - intros m. rewrite B', B, last_omap_cons. by destruct (last (omap (is_pub m) l)).
  - intros n m. rewrite C', C, last_omap_cons. by destruct (last (omap (is_rcv n m) l)).
  - intros n m. rewrite D', D, last_omap_cons. by destruct (last (omap (is_rcv n m) l)).
  - intros n m. rewrite F', F, B. simpl. destruct e as [ev|ev]; simpl.
    + by destruct (decide (ev_MessageID ev = m)).
    + case_decide; [|done]. by destruct (st_PublishedAt s !! m).
Qed.

(** The statistics of a run.  In whatever order the collector takes the events it
    never writes to a missing row, and the statistics are: of each message the
    data and time last published, of each node and message those last received,
    and the latency of the last reception that came after a publication, from
    the last publication before it. *)
Theorem stats_exact l : exists s, collector_Run l no_stats = Some s /\
  (forall m, st_PublishedMessages s !! m = ev_Data <$> last_pub m l /\ st_PublishedAt s !! m = ev_At <$> last_pub m l) /\
  (forall n m, cell (st_ReceivedMessages s) n m = ev_Data <$> last_rcv n m l /\ cell (st_ReceivedAt s) n m = ev_At <$> last_rcv n m l) /\
  (forall n m, cell (st_ReceivedLatency s) n m = latency_at n m None None l).
Proof.
  destruct (Run_spec l no_stats) as (s & Hs & A & B & C & D & F); [intros n; simpl; rewrite !lookup_empty; done|]. exists s. split; [done|]. split_and!.
  - intros m. rewrite A, B. destruct (last_pub m l); simpl; by rewrite ?lookup_empty.
  - intros n m. rewrite C, D. destruct (last_rcv n m l); simpl; by rewrite ?lookup_empty.
  - intros n m. rewrite F. simpl. unfold cell. by rewrite !lookup_empty.
Qed.

(** A reception taken before the publication of its message is recorded without
    a latency, though the statistics know both times. *)
Theorem early_reception_unmeasured (sent received : NodeEvent) :
  ev_MessageID received = ev_MessageID sent ->
  exists s, collector_Run [Received received; Published sent] no_stats = Some s /\
    st_PublishedAt s !! ev_MessageID sent = Some (ev_At sent) /\ cell (st_ReceivedAt s) (ev_NodeNum received) (ev_MessageID sent) = Some (ev_At received) /\
    cell (st_ReceivedLatency s) (ev_NodeNum received) (ev_MessageID sent) = None.
Proof.
  intros E. destruct (Run_spec [Received received; Published sent] no_stats) as (s & Hs & A & B & C & D & F); [intros n; simpl; rewrite !lookup_empty; done|].
  exists s. split; [done|]. rewrite B, D, F. unfold last_pub, last_rcv. simpl. rewrite E, !decide_True by done. simpl. unfold cell. simpl. by rewrite !lookup_empty.
Qed.
