(* ===== verification/SimConfig.v ===== *)
(** * SimConfig: the configuration of a run (src/sim/config.go)

    Files are what reading them gives; yaml, json and the derivation of peer ids
    are parameters.  A file that is created is an effect, and so is closing it. *)

From stdpp Require Import pretty.
From S2P Require Import Prelude Types Bitmap Emit RsStrategy Session SimObserver SimTrace SimNet.
Open Scope Z_scope.

#[local] Set Default Proof Using "Type".

Record SimStrategy := mk_SimStrategy { sg_Name : String.string; sg_RS : Config }.
Record RunConfig := mk_RunConfig {
  rc_Driver : String.string; rc_LogFile : String.string; rc_TraceFile : String.string;
  rc_Strategy : SimStrategy;
  rc_TopologyFile : String.string; rc_Generate : bool }.

Notation empty_string := String.EmptyString.

Section config.
(** Reading files, yaml.Unmarshal onto the given defaults, json.Unmarshal of a
    topology; the peer ids of node numbers. *)
Context (ReadFile : String.string -> result error bytes) (yaml : bytes -> RunConfig -> result error RunConfig) (json_topology : bytes -> result error Topology).
Context (gossipsubPeerID nodePeerID : Z -> result error bytes).

(** The value that yaml fills in: only the strategy has defaults. *)
Definition defaults : RunConfig := mk_RunConfig empty_string empty_string empty_string (mk_SimStrategy empty_string DefaultConfig) empty_string false.

Definition LoadRunConfig (path : String.string) : result error RunConfig :=
  match ReadFile path with
  | Err e => Err ("read config: " ++ e)%string
  | Ok data =>
      match yaml data defaults with
      | Err e => Err ("parse config: " ++ e)%string
      | Ok rc =>
          if decide (sg_Name (rc_Strategy rc) = "RS"%string) then
            match Validate (sg_RS (rc_Strategy rc)) with
            | Err e => Err ("invalid RS strategy config: " ++ e)%string
            | Ok _ => Ok rc
            end
          else if decide (sg_Name (rc_Strategy rc) = "gossipsub"%string) then Ok rc
          else Err ("unknown strategy: " ++ sg_Name (rc_Strategy rc))%string
      end
  end.

Definition LoadTopology (rc : RunConfig) : result error Topology :=
  if decide (rc_TopologyFile rc = empty_string) then
    (if rc_Generate rc then Err "topology.generate requires resolution by simctl; use topology.file for direct execution"%string
     else Err "topology.file is required"%string)
  else match ReadFile (rc_TopologyFile rc) with
       | Err e => Err ("read topology file: " ++ e)%string
       | Ok data => match json_topology data with Err e => Err ("parse topology JSON: " ++ e)%string | Ok t => Ok t end
       end.

Record TraceHeaderOptions := mk_TraceHeaderOptions { th_DecoderName : String.string; th_PeerIDs : list bytes }.

(** The loop over the nodes: the first failure ends it. *)
Fixpoint peer_ids (derive : Z -> result error bytes) (what : String.string) (nodes : list NodeSpec) : result error (list bytes) :=
  match nodes with
  | [] => Ok []
  | ns :: nodes => match derive (ns_Num ns) with
                   | Err e => Err ("derive " ++ what ++ " peer id for node " ++ pretty (ns_Num ns) ++ ": " ++ e)%string
                   | Ok id => let! ids := peer_ids derive what nodes in Ok (id :: ids)
                   end
  end.

Definition BuildTraceHeaderOptions (rc : RunConfig) (topo : Topology) : result error TraceHeaderOptions :=
  let name := sg_Name (rc_Strategy rc) in
  if decide (name = "gossipsub"%string) then let! ids := peer_ids gossipsubPeerID "gossipsub" (tp_Nodes topo) in Ok (mk_TraceHeaderOptions "gossipsub" ids)
  else if decide (name = "RS"%string) then let! ids := peer_ids nodePeerID "ethp2p" (tp_Nodes topo) in Ok (mk_TraceHeaderOptions "ethp2p" ids)
  else Err ("unknown strategy: " ++ name)%string.

(** *** NewScenario *)

Inductive file := TraceFile | LogFile.
#[global] Instance file_eq_dec : EqDecision file.
Proof. solve_decision. Defined.
Inductive file_action := Created (f : file) | ClosedFile (f : file).
#[global] Instance file_action_eq_dec : EqDecision file_action.
Proof. solve_decision. Defined.
Inductive driver_kind := ShadowKind | SimnetKind (traced : bool).

(** What creating the two files and writing the trace's header give. *)
Record scenario_env := mk_env { en_trace : option error; en_header : option error; en_logfile : option error }.

Definition NewScenario (env : scenario_env) (rc : RunConfig) (driver : String.string) (logger : bool) : result error (driver_kind * Topology) * list file_action :=
  let driver := if decide (driver = empty_string) then rc_Driver rc else driver in
  if decide (driver = empty_string) then (Err "no driver specified: set simulation.driver in config or pass driver argument"%string, []) else
  match LoadTopology rc with
  | Err e => (Err e, [])
  | Ok topo =>
      let drv :=
        if decide (driver = "shadow"%string) then (Ok ShadowKind, [])
        else if decide (driver = "simnet"%string) then
          (if decide (rc_TraceFile rc = empty_string) then (Ok (SimnetKind false), [])
           else match en_trace env with
                | Some e => (Err ("create trace file: " ++ e)%string, [])
                | None => match BuildTraceHeaderOptions rc topo with
                          | Err e => (Err ("build trace header options: " ++ e)%string, [Created TraceFile; ClosedFile TraceFile])
                          | Ok _ => match en_header env with
                                    | Some e => (Err ("create trace writer: " ++ e)%string, [Created TraceFile; ClosedFile TraceFile])
                                    | None => (Ok (SimnetKind true), [Created TraceFile])
                                    end
                          end
                end)
        else (Err ("unknown driver: " ++ driver)%string, []) in
      match drv with
      | (Err e, log) => (Err e, log)
      | (Ok kind, log) =>
          if logger then (Ok (kind, topo), log)
          else if decide (rc_LogFile rc = empty_string) then (Ok (kind, topo), log)
          else match en_logfile env with
               | Some e => (Err ("create log file: " ++ e)%string, log)
               | None => (Ok (kind, topo), log ++ [Created LogFile])
               end
      end
  end.

(** The files created and not closed. *)
Definition open_files (log : list file_action) : list file :=
  filter (fun f => ClosedFile f ∉ log) (omap (fun x => match x with Created f => Some f | _ => None end) log).

(** A configuration that loads names a known strategy, and one for Reed-Solomon
    is valid: what [NewScheme] is given satisfies [Validate]. *)
Theorem LoadRunConfig_valid path rc : LoadRunConfig path = Ok rc ->
  (exists data, ReadFile path = Ok data /\ yaml data defaults = Ok rc) /\
  (sg_Name (rc_Strategy rc) = "RS"%string /\ Validate (sg_RS (rc_Strategy rc)) = Ok tt \/ sg_Name (rc_Strategy rc) = "gossipsub"%string).
Proof.
  unfold LoadRunConfig. destruct (ReadFile path) as [data|]; [|done]. destruct (yaml data defaults) as [rc'|] eqn:Ey; [|done].
  case_decide as E1; [destruct (Validate _) as [[]|] eqn:Ev; [|done]; intros [= <-]; split; [by exists data|by left]|].
  case_decide as E2; [|done]. intros [= <-]. split; [by exists data|by right].
Qed.

(** The files of a scenario.  When [NewScenario] succeeds the trace file is open
    just for a traced simnet run and the log file just when it is the logger's;
    when it fails nothing stays open, except that a log file that cannot be
    created leaves the trace file open, and its writer without an owner. *)
Theorem NewScenario_files env rc driver logger :
  let '(r, log) := NewScenario env rc driver logger in
  match r with
  | Ok (kind, topo) =>
      LoadTopology rc = Ok topo /\
      (TraceFile ∈ open_files log <-> kind = SimnetKind true) /\ (LogFile ∈ open_files log <-> logger = false /\ rc_LogFile rc <> empty_string) /\
      (kind = SimnetKind true -> rc_TraceFile rc <> empty_string)
  | Err _ =>
      open_files log = [] \/
      (open_files log = [TraceFile] /\ logger = false /\ rc_LogFile rc <> empty_string /\ is_Some (en_logfile env) /\ rc_TraceFile rc <> empty_string)
  end.
Proof.
  unfold NewScenario. cbv zeta. case_decide as Ed; [by left|]. destruct (LoadTopology rc) as [topo|e]; [|by left].
  assert (TraceFile ∉ open_files [] /\ LogFile ∉ open_files [] /\ TraceFile ∈ open_files [Created TraceFile] /\ LogFile ∉ open_files [Created TraceFile] /\
    TraceFile ∉ open_files [Created LogFile] /\ LogFile ∈ open_files [Created LogFile] /\ TraceFile ∈ open_files [Created TraceFile; Created LogFile] /\ LogFile ∈ open_files [Created TraceFile; Created LogFile]) as (A1 & A2 & A3 & A4 & A5 & A6 & A7 & A8).
  { unfold open_files. split_and!; vm_compute; set_solver. }
  set (drv := if decide _ then _ else _). assert (match drv with
    | (Ok kind, log) => (kind = SimnetKind true /\ log = [Created TraceFile] /\ rc_TraceFile rc <> empty_string) \/ (kind <> SimnetKind true /\ log = [])
    | (Err _, log) => open_files log = [] end) as Hdrv.
  { unfold drv. repeat first [case_decide|case_match]; simplify_eq; try done; try (by right; split); by left. }
  clearbody drv.
  destruct drv as [[kind|e] log]; [|by left].
  assert (forall log' : list file_action, log' = log ++ [] -> (TraceFile ∈ open_files log' <-> kind = SimnetKind true) /\ LogFile ∉ open_files log') as Hn.
  { intros ? ->. rewrite app_nil_r. destruct Hdrv as [(-> & -> & _)|(Hk & ->)]; (split; [split; (done || (by intros ?))|done]). }
  assert (kind = SimnetKind true -> rc_TraceFile rc <> empty_string) as Ht by (destruct Hdrv as [(_ & _ & ?)|(? & _)]; [done|by intros ?]).
  destruct (Hn log (eq_sym (app_nil_r log))) as [Hn1 Hn2].
  destruct logger.
  { split_and!; [done|exact Hn1| |done]. split; [by intros ?|by intros [? _]]. }
  destruct (decide (rc_LogFile rc = empty_string)) as [El|El].
  { split_and!; [done|exact Hn1| |done]. split; [by intros ?|by intros [_ ?]]. }
  destruct (en_logfile env) as [e|] eqn:Elog.
  - destruct Hdrv as [(-> & -> & ?)|(Hk & ->)]; [right|by left]. split_and!; done.
  - destruct Hdrv as [(-> & -> & ?)|(Hk & ->)]; (split_and!; [done|split; done|split; done|done]).
Qed.
End config.
