(* ===== verification/SimHost.v ===== *)
(** * SimHost: identities, records and sockets of simulated nodes
    (src/sim/host.go, driver_shadow.go)

    A node's key is derived from its number, so that any node can sign the record
    of any other.  ChaCha8, address parsing, name resolution and sockets are
    parameters; [None] is a panic. *)

From stdpp Require Import pretty.
From S2P Require Import Prelude Types Rlp Identity Enr TlsIdentity TlsConfig.
Open Scope Z_scope.

#[local] Set Default Proof Using "Type".

Definition DefaultListenPort : Z := 8000.

Section host.
Context {SC : Secp256k1} {PW : Protowire} {X : X509}.
Context (keccak256 : bytes -> bytes) (Addr_String : Addr -> error).
(** The first 32 bytes of ChaCha8 for a seed; [netip.ParseAddrPort]. *)
Context (ChaCha8 : bytes -> bytes) (ParseAddrPort : String.string -> result error (Addr * Z)).

(** ** Identities *)

Definition nodeSeed (nodeNum : Z) : bytes := be8 (nodeNum mod 2 ^ 64) ++ repeat Byte.x00 24.

Definition nodeIdentity (nodeNum : Z) : result error (PrivKey * bytes) :=
  match ParsePrivKey (ChaCha8 (nodeSeed nodeNum)) with
  | Err e => Err ("derive identity for node " ++ pretty nodeNum ++ ": " ++ e)%string
  | Ok key => Ok (key, PubKey_PeerID (Public key))
  end.

Definition nodeRecord (nodeNum : Z) (addr : String.string) : option (result error ENR) :=
  match nodeIdentity nodeNum with
  | Err e => Some (Err e)
  | Ok (key, _) =>
      match ParseAddrPort addr with
      | Err e => Some (Err e)
      | Ok (a, port) => Enr.Sign keccak256 Addr_String (Some key) 1 (EndpointEntries a port)
      end
  end.

(** [NewEndpoint] is what the endpoint's constructor makes of the key and the config. *)
Definition newNodeEndpoint {E} (NewEndpoint : PrivKey -> Config -> result error E) (nodeNum : Z) : result error E :=
  let! id := nodeIdentity nodeNum in
  match NewEndpoint id.1 Shadow with Err e => Err ("create endpoint: " ++ e)%string | Ok t => Ok t end.

(** ** Records that any node can derive *)

(** Different nodes have different seeds. *)
Lemma nodeSeed_inj m n : 0 <= m < 2 ^ 63 -> 0 <= n < 2 ^ 63 -> nodeSeed m = nodeSeed n -> m = n.
Proof.
  intros Hm Hn H. unfold nodeSeed in H. rewrite !Z.mod_small in H by lia. apply app_inv_tail in H.
  rewrite <-(proj2 (be8_spec m ltac:(lia))), <-(proj2 (be8_spec n ltac:(lia))). by rewrite H.
Qed.

Context {SL : Secp256k1Laws SC} (keccak_len : forall m, length (keccak256 m) = 32%nat).

(** The record a node derives for another from its number and address names the
    identity that the other's endpoint reports as its own, and the address as
    its only endpoint; it decodes. *)
Theorem derived_record nodeNum addr a port r :
  nodeRecord nodeNum addr = succeeds r -> ParseAddrPort addr = Ok (a, port) -> addr_ok a -> unzoned a -> 0 <= port < 2 ^ 16 ->
  (exists key, nodeIdentity nodeNum = Ok (key, ENR_PeerID r)) /\
  QUIC Addr_String r = Some [(Unmap a, port)] /\ Decode keccak256 (Encode r) = succeeds r /\
  forall template certKey h, newNodeEndpoint (fun key _ => newHandshaker template certKey key) nodeNum = Ok h -> hk_peerID h = ENR_PeerID r.
Proof using SL keccak_len.
  unfold nodeRecord, newNodeEndpoint. destruct (nodeIdentity nodeNum) as [[key id]|] eqn:Ei; [|done]. intros Hs Hp Ha Hz Hport. rewrite Hp in Hs.
  assert (id = PubKey_PeerID (Public key)) as ->. { unfold nodeIdentity in Ei. destruct (ParsePrivKey _); [|done]. by injection Ei as -> <-. }
  pose proof (endpoint_advertised keccak256 Addr_String keccak_len key 1 a port r ltac:(lia) Ha Hz Hport Hs) as Hq.
  assert (exists signed, marshal_all Addr_String ([EntryID (str "v4"); EntrySecp256k1 (Public key)] ++ EndpointEntries a port) [] = Ok signed) as [signed Hm].
  { unfold Enr.Sign in Hs. destruct (marshal_all _ _ _) as [signed|]; [by exists signed|done]. }
  assert (Forall (canonical Addr_String) (EndpointEntries a port)) as Hcan by (unfold EndpointEntries; destruct (Is6 (Unmap a)); repeat constructor; by apply canonical_builtin).
  pose proof (Sign_spec keccak256 Addr_String keccak_len key 1 _ _ ltac:(lia) Hcan Hm) as H. rewrite Hs in H. destruct H as (_ & _ & _ & Hpub & _ & Hd).
  assert (ENR_PeerID r = PubKey_PeerID (Public key)) as Hid by (unfold ENR_PeerID; by rewrite Hpub). rewrite Hid.
  split; [by exists key|]. split; [done|]. split; [done|]. intros t ck h. cbn [rbind fst]. unfold newHandshaker. destruct (issueCertificate t ck key); [|done]. by intros [= <-].
Qed.
End host.

(** ** The Shadow driver *)

Inductive socket_action := SocketOpened | SocketClosed.

Definition hostname (nodeNum : Z) : String.string := ("node" ++ pretty nodeNum)%string.

Section shadow.
Context (LookupHost : String.string -> result error (list String.string)) (ParseIP : String.string -> bytes).

(** [listen] is what ListenUDP returns, [made] what [newParticipant] does. *)
Definition Shadow_NewNode {N} (nodeNum : Z) (listen : bytes * Z -> result error unit) (made : result error N) : result error N * list socket_action :=
  match LookupHost (hostname nodeNum) with
  | Err e => (Err ("resolve own Shadow hostname " ++ hostname nodeNum ++ ": " ++ e)%string, [])
  | Ok [] => (Err ("no addresses for own Shadow hostname " ++ hostname nodeNum)%string, [])
  | Ok (a :: _) =>
      match listen (ParseIP a, DefaultListenPort) with
      | Err e => (Err e, [])
      | Ok _ => (made, [SocketOpened])
      end
  end.

Definition Shadow_NodeAddr (nodeNum : Z) : option (bytes * Z) :=
  match LookupHost (hostname nodeNum) with
  | Ok (a :: _) => Some (ParseIP a, DefaultListenPort)
  | _ => None
  end.
End shadow.

(** A node listens where the others reach it; but when the node itself cannot be
    made the socket stays open: the participant leaves it to its caller, which
    drops it. *)
Theorem shadow_socket {N} LookupHost ParseIP nodeNum listen (made : result error N) :
  let '(r, log) := Shadow_NewNode LookupHost ParseIP nodeNum listen made in
  (log = [SocketOpened] <-> exists addr, Shadow_NodeAddr LookupHost ParseIP nodeNum = Some addr /\ listen addr = Ok tt) /\
  (forall e, made = Err e -> log = [SocketOpened] -> r = Err e) /\ SocketClosed ∉ log.
Proof.
  unfold Shadow_NewNode, Shadow_NodeAddr. destruct (LookupHost _) as [[|a l]|e]; [split_and!; [split; [done|by intros (? & ? & _)]|done|set_solver]| |split_and!; [split; [done|by intros (? & ? & _)]|done|set_solver]].
  destruct (listen _) as [[]|e] eqn:El.
  - split; [split; [by eexists|done]|]. split; [by intros e -> _|set_solver].
  - split; [split; [done|intros (x & [= <-] & ?); congruence]|]. split; [done|set_solver].
Qed.

(** ** The socket of a Shadow node *)

(** [WriteTo]: taking the token, writing, giving it back. *)
Inductive write_pc := WAcquire | WWriting | WRelease | WReturned.

(** [uc_ch] is whether the semaphore's channel holds its one token. *)
Record shadowUDPConn := mk_uconn { uc_ch : bool; uc_writers : gmap nat write_pc }.

Definition WriteTo (i : nat) (pc : write_pc) (c : shadowUDPConn) : option shadowUDPConn :=
  match pc with
  | WAcquire => if uc_ch c then None else Some (mk_uconn true (<[i := WWriting]> (uc_writers c)))
  | WWriting => Some (mk_uconn (uc_ch c) (<[i := WRelease]> (uc_writers c)))
  | WRelease => if uc_ch c then Some (mk_uconn false (<[i := WReturned]> (uc_writers c))) else None
  | WReturned => None
  end.

Inductive uc_step : shadowUDPConn -> shadowUDPConn -> Prop :=
| uc_call i c : uc_writers c !! i = None -> uc_step c (mk_uconn (uc_ch c) (<[i := WAcquire]> (uc_writers c)))
| uc_own i pc c c' : uc_writers c !! i = Some pc -> WriteTo i pc c = Some c' -> uc_step c c'.

Definition holds (pc : write_pc) : bool := match pc with WWriting | WRelease => true | _ => false end.

Record uc_inv (c : shadowUDPConn) : Prop := {
  ui_one : forall i j p q, uc_writers c !! i = Some p -> uc_writers c !! j = Some q -> holds p = true -> holds q = true -> i = j;
  ui_token : uc_ch c = true <-> exists i p, uc_writers c !! i = Some p /\ holds p = true }.

Lemma uc_step_inv c c' : uc_inv c -> uc_step c c' -> uc_inv c'.
Proof.
  intros [H1 H2]. destruct 1 as [i c Hi|i pc c c' Hi Hw].
  - split; cbn.
    + intros j k p q. rewrite !lookup_insert_Some. intros [[<- <-]|[? Hj]] [[<- <-]|[? Hk]]; try done. by apply H1.
    + rewrite H2. split; intros (j & p & Hj & Hp); exists j, p; (split; [|done]); [rewrite lookup_insert_ne; [done|congruence]|]. apply lookup_insert_Some in Hj as [[<- <-]|[_ ?]]; done.
  - destruct pc; cbn in Hw; try done; [destruct (uc_ch c) eqn:Ec; [done|]|..|destruct (uc_ch c) eqn:Ec; [|done]]; injection Hw as <-.
    + assert (forall j p, uc_writers c !! j = Some p -> holds p = false) as Hn. { intros j p Hj. destruct (holds p) eqn:Eh; [|done]. destruct H2 as [_ H2]. assert (false = true); [|done]. apply H2. by exists j, p. }
      split; cbn.
      * intros j k p q. rewrite !lookup_insert_Some. intros [[<- <-]|[? Hj]] [[<- <-]|[? Hk]] Hp Hq; try done; [by rewrite (Hn _ _ Hk) in Hq|by rewrite (Hn _ _ Hj) in Hp|by rewrite (Hn _ _ Hj) in Hp].
      * split; [|done]. intros _. exists i, WWriting. by rewrite lookup_insert_eq.
    + split; cbn.
      * intros j k p q. rewrite !lookup_insert_Some. intros [[<- <-]|[? Hj]] [[<- <-]|[? Hk]] Hp Hq; try done; [by apply (H1 i k WWriting q)|by apply (H1 j i p WWriting)|by apply (H1 j k p q)].
      * split; [|intros _; apply H2; by exists i, WWriting]. intros _. exists i, WRelease. by rewrite lookup_insert_eq.
    + assert (forall j p, j <> i -> uc_writers c !! j = Some p -> holds p = false) as Hn. { intros j p Hne Hj. destruct (holds p) eqn:Eh; [|done]. exfalso. by apply Hne, (H1 j i p WRelease). }
      split; cbn.
      * intros j k p q. rewrite !lookup_insert_Some. intros [[<- <-]|[? Hj]] [[<- <-]|[? Hk]] Hp Hq; try done. exfalso. rewrite (Hn j p) in Hp; done.
      * split; [done|]. intros (j & p & Hj & Hp). apply lookup_insert_Some in Hj as [[_ <-]|[? Hj]]; [done|]. rewrite (Hn j p) in Hp; done.
Qed.

(** Writes to the socket never overlap and never deadlock: at most one call is
    writing, and while one has not returned some call can go on. *)
Theorem shadow_writes c : rtc uc_step (mk_uconn false ∅) c ->
  (forall i j, uc_writers c !! i = Some WWriting -> uc_writers c !! j = Some WWriting -> i = j) /\
  ((exists i pc, uc_writers c !! i = Some pc /\ pc <> WReturned) -> exists i pc, uc_writers c !! i = Some pc /\ is_Some (WriteTo i pc c)).
Proof.
  intros Hr. assert (uc_inv c) as [H1 H2].
  { assert (uc_inv (mk_uconn false ∅)) as H0 by (split; cbn; [intros i j p q; by rewrite lookup_empty|split; [done|intros (i & p & Hi & _); by rewrite lookup_empty in Hi]]).
    induction Hr as [|a b c Hs _ IH]; [done|]. apply IH. by eapply uc_step_inv. }
  split; [intros i j Hi Hj; by apply (H1 i j WWriting WWriting)|]. intros (i & pc & Hi & Hp). destruct (uc_ch c) eqn:Ec.
  - destruct (proj1 H2 eq_refl) as (j & q & Hj & Hq). exists j, q. split; [done|]. destruct q; cbn; rewrite ?Ec; done.
  - exists i, pc. split; [done|]. destruct pc; cbn; rewrite ?Ec; try done. assert (false = true); [|done]. apply H2. by exists i, WRelease.
Qed.
