(* ===== verification/Recorder.v ===== *)
(** * Recorder: the events of a test network (src/internal/trace/broadcast.go,
    src/internal/harness/observer.go, recorder.go, and the waits of harness.go)

    Nodes emit typed events; the recorder orders them and wakes the waiting test.
    The recorder's mutex makes each operation atomic; a test waiting for an event
    is a step function interleaved with the nodes. *)

From S2P Require Import Prelude Types Rlp Identity Enr Session SimObserver SimTrace.
From stdpp Require Import pretty.
Open Scope Z_scope.

#[local] Set Default Proof Using "Type".

(** ** Trace events *)

Inductive Event :=
| ChannelAttached (channel : bytes) (err : option error)
| ChannelDropped (channel : bytes)
| PeerHandshook (peer : bytes) (channels : option (list bytes))   (* [None] is a nil slice *)
| PeerSubscribed (peer channel : bytes)
| PeerUnsubscribed (peer channel : bytes)
| PeerGone (peer : bytes)
| SessionStarted (channel message role : bytes)
| SessionDecoded (channel message : bytes)
| SessionDisposed (channel message reason : bytes)
| ChunkSentEvent (peer channel message : bytes) (bytesSent : Z)
| ChunkRcvd (peer channel message verdict : bytes)
| ChunkError (peer channel message : bytes) (err : option error)
| RoutingUpdateEvent (peer channel message : bytes)
| PreambleOpenedEvent (peer channel message : bytes)
| StrategyProgress (channel message : bytes) (chunksHave chunksNeed : Z).

(** The struct type and the fields, as reflection sees them. *)
Inductive field := FStr (b : bytes) | FStrs (l : option (list bytes)) | FInt (z : Z) | FErr (e : option error).

#[global] Instance field_eq_dec : EqDecision field.
Proof. solve_decision. Defined.

Definition kind (e : Event) : nat :=
  match e with
  | ChannelAttached _ _ => 0 | ChannelDropped _ => 1 | PeerHandshook _ _ => 2 | PeerSubscribed _ _ => 3 | PeerUnsubscribed _ _ => 4 | PeerGone _ => 5
  | SessionStarted _ _ _ => 6 | SessionDecoded _ _ => 7 | SessionDisposed _ _ _ => 8 | ChunkSentEvent _ _ _ _ => 9 | ChunkRcvd _ _ _ _ => 10
  | ChunkError _ _ _ _ => 11 | RoutingUpdateEvent _ _ _ => 12 | PreambleOpenedEvent _ _ _ => 13 | StrategyProgress _ _ _ _ => 14
  end.

Definition fields (e : Event) : list field :=
  match e with
  | ChannelAttached c err => [FStr c; FErr err]
  | ChannelDropped c => [FStr c]
  | PeerHandshook p cs => [FStr p; FStrs cs]
  | PeerSubscribed p c | PeerUnsubscribed p c => [FStr p; FStr c]
  | PeerGone p => [FStr p]
  | SessionStarted c m r => [FStr c; FStr m; FStr r]
  | SessionDecoded c m => [FStr c; FStr m]
  | SessionDisposed c m r => [FStr c; FStr m; FStr r]
  | ChunkSentEvent p c m n => [FStr p; FStr c; FStr m; FInt n]
  | ChunkRcvd p c m v => [FStr p; FStr c; FStr m; FStr v]
  | ChunkError p c m err => [FStr p; FStr c; FStr m; FErr err]
  | RoutingUpdateEvent p c m | PreambleOpenedEvent p c m => [FStr p; FStr c; FStr m]
  | StrategyProgress c m h n => [FStr c; FStr m; FInt h; FInt n]
  end.

(** [peerLabel]: the first four bytes in hexadecimal. *)
Definition hex_digit (z : Z) : byte := z2b (if z <? 10 then 48 + z else 87 + z).
Definition hex (b : bytes) : bytes := flat_map (fun x => [hex_digit (b2z x / 16); hex_digit (b2z x mod 16)]) b.
Definition peerLabel (peer : bytes) : bytes :=
  let encoded := hex peer in if (8 <? length encoded)%nat then take 8 encoded else encoded.

(** [oneLine] after formatting: the replacer's three rules. *)
Definition escape (b : byte) : bytes :=
  match b with Byte.x0a => string_bytes "\n" | Byte.x0d => string_bytes "\r" | Byte.x09 => string_bytes "\t" | _ => [b] end.
Definition oneLine (formatted : bytes) : bytes := flat_map escape formatted.

Definition text := string_bytes.
Definition err_text (e : option error) : bytes := match e with Some s => text s | None => text "<nil>" end.
Definition int_text (z : Z) : bytes := text (pretty z).

Section strings.
(** [fmt]'s %q of a string slice. *)
Context (quote : list bytes -> bytes).

Definition event_String (e : Event) : bytes :=
  match e with
  | ChannelAttached c err => oneLine (text "ChannelAttached ch=" ++ c ++ text " err=" ++ err_text err)
  | ChannelDropped c => oneLine (text "ChannelDropped ch=" ++ c)
  | PeerHandshook p cs => oneLine (text "PeerHandshook peer=" ++ peerLabel p ++ text " channels=" ++ quote (default [] cs))
  | PeerSubscribed p c => oneLine (text "PeerSubscribed peer=" ++ peerLabel p ++ text " ch=" ++ c)
  | PeerUnsubscribed p c => oneLine (text "PeerUnsubscribed peer=" ++ peerLabel p ++ text " ch=" ++ c)
  | PeerGone p => oneLine (text "PeerGone peer=" ++ peerLabel p)
  | SessionStarted c m r => oneLine (text "SessionStarted ch=" ++ c ++ text " msg=" ++ m ++ text " role=" ++ r)
  | SessionDecoded c m => oneLine (text "SessionDecoded ch=" ++ c ++ text " msg=" ++ m)
  | SessionDisposed c m r => oneLine (text "SessionDisposed ch=" ++ c ++ text " msg=" ++ m ++ text " reason=" ++ r)
  | ChunkSentEvent p c m n => oneLine (text "ChunkSent peer=" ++ peerLabel p ++ text " ch=" ++ c ++ text " msg=" ++ m ++ text " bytes=" ++ int_text n)
  | ChunkRcvd p c m v => oneLine (text "ChunkRcvd peer=" ++ peerLabel p ++ text " ch=" ++ c ++ text " msg=" ++ m ++ text " verdict=" ++ v)
  | ChunkError p c m err => oneLine (text "ChunkError peer=" ++ peerLabel p ++ text " ch=" ++ c ++ text " msg=" ++ m ++ text " err=" ++ err_text err)
  | RoutingUpdateEvent p c m => oneLine (text "RoutingUpdate peer=" ++ peerLabel p ++ text " ch=" ++ c ++ text " msg=" ++ m)
  | PreambleOpenedEvent p c m => oneLine (text "PreambleOpened peer=" ++ peerLabel p ++ text " ch=" ++ c ++ text " msg=" ++ m)
  | StrategyProgress c m h n => oneLine (text "StrategyProgress ch=" ++ c ++ text " msg=" ++ m ++ text " have=" ++ int_text h ++ text " need=" ++ int_text n)
  end.

Definition line_break (b : byte) : Prop := b = Byte.x0a \/ b = Byte.x0d \/ b = Byte.x09.

Lemma escape_clean b : Forall (fun c => ~ line_break c) (escape b).
Proof. destruct b; unfold line_break, escape; cbn; repeat constructor; naive_solver. Qed.

(** Whatever channels, messages, reasons and errors contain, an event is one line
    of a timeline, without tabs. *)
Theorem String_one_line e : Forall (fun c => ~ line_break c) (event_String e).
Proof.
  assert (forall b, Forall (fun c => ~ line_break c) (oneLine b)) as H.
  { intros b. unfold oneLine. induction b as [|x b IH]; simpl; [done|]. apply Forall_app. split; [apply escape_clean|done]. }
  destruct e; apply H.
Qed.
End strings.

(** ** The recorder's observer *)

Definition verdict_name (v : Verdict) : bytes :=
  match v with
  | VerdictAccepted => text "accepted" | VerdictRedundant => text "redundant" | VerdictDecoding => text "decoding"
  | VerdictSurplus => text "surplus" | VerdictInvalid => text "invalid" | VerdictPending => text "pending"
  end.

(** [slices.Sort] of strings. *)
Definition ble (a b : bytes) : Prop := bcompare a b <> Gt.
#[global] Instance ble_dec : RelDecision ble.
Proof. intros a b. unfold ble. apply _. Defined.

Definition emitted (x : obs_event) : Event :=
  match x with
  | Observed (OnChannelAttached c err) => ChannelAttached c err
  | Observed (OnChannelDropped c) => ChannelDropped c
  | Observed (OnPeerHandshook p cs) => PeerHandshook p (Some (merge_sort ble cs))
  | Observed (OnPeerSubscribed p c) => PeerSubscribed p c
  | Observed (OnPeerUnsubscribed p c) => PeerUnsubscribed p c
  | Observed (OnPeerGone p) => PeerGone p
  | Observed (OnSessionStarted c m r) => SessionStarted c m (match r with SessionRoleRelay => text "relay" | SessionRoleOrigin => text "origin" end)
  | Observed (OnSessionDecoded c m) => SessionDecoded c m
  | Observed (OnSessionDisposed c m reason) => SessionDisposed c m (text reason)
  | Observed (OnChunkSent p c m n) => ChunkSentEvent p c m n
  | Observed (OnChunkRcvd p c m v) => ChunkRcvd p c m (verdict_name v)
  | Observed (OnChunkError e) => ChunkError (cpe_peer e) (cpe_channelID e) (cpe_messageID e) (Some (cpe_err e))
  | Observed (OnRoutingUpdate p c m) => RoutingUpdateEvent p c m
  | PreambleOpened p c m => PreambleOpenedEvent p c m
  | Observed (OnStrategyProgress c m have need) => StrategyProgress c m have need
  end.

(** ** The recorder *)

Record trace_record := mk_record { rec_Seq : Z; rec_At : Z; rec_Node : bytes; rec_Event : Event }.

(** [rc_changed] names the current wake channel: those before it are closed. *)
Record Recorder := mk_recorder { rc_records : list trace_record; rc_changed : nat; rc_peerNames : gmap bytes bytes }.

Definition newRecorder : Recorder := mk_recorder [] 0 ∅.
Definition registerPeer (id name : bytes) (r : Recorder) : Recorder := mk_recorder (rc_records r) (rc_changed r) (<[id := name]> (rc_peerNames r)).
Definition rec_emit (at_ : Z) (node : bytes) (ev : Event) (r : Recorder) : Recorder :=
  mk_recorder (rc_records r ++ [mk_record (Z.of_nat (length (rc_records r) + 1)) at_ node ev]) (S (rc_changed r)) (rc_peerNames r).
Definition Records (r : Recorder) : list trace_record := rc_records r.
Definition snapshot (r : Recorder) : list trace_record * nat := (rc_records r, rc_changed r).
Definition closed_wake (g : nat) (r : Recorder) : bool := (g <? rc_changed r)%nat.

(** ** Matchers *)

Section matchers.
(** [errors.Is]. *)
Context (errors_Is : option error -> error -> bool).

Definition is_zero (f : field) : bool := match f with FStr [] | FStrs None | FInt 0 | FErr None => true | _ => false end.

Definition field_matches (want got : field) : bool :=
  if is_zero want then true
  else match want, got with
       | FErr (Some e), FErr g => errors_Is g e
       | _, _ => bool_decide (want = got)
       end.

Fixpoint fields_match (want got : list field) : bool :=
  match want, got with
  | [], _ => true
  | w :: want, g :: got => if field_matches w g then fields_match want got else false
  | _ :: _, [] => false
  end.

Definition Match (node : bytes) (event : Event) (rec : trace_record) : bool :=
  if negb (bool_decide (rec_Node rec = node)) then false
  else if negb (kind event =? kind (rec_Event rec))%nat then false
  else fields_match (fields event) (fields (rec_Event rec)).

(** [Where]: [pred] is [None] on events of another type. *)
Definition Where (node : bytes) (pred : Event -> option bool) (rec : trace_record) : bool :=
  if negb (bool_decide (rec_Node rec = node)) then false else default false (pred (rec_Event rec)).
End matchers.

Implicit Types m : trace_record -> bool.

(** [Require]: how many matchers were found, one after the other. *)
Fixpoint require_loop (ms : list (trace_record -> bool)) (recs : list trace_record) : list (trace_record -> bool) :=
  match recs with
  | [] => ms
  | rec :: recs => match ms with
                   | m :: ms' => if m rec then require_loop ms' recs else require_loop ms recs
                   | [] => require_loop [] recs
                   end
  end.
Definition Require_ok (r : Recorder) (ms : list (trace_record -> bool)) : bool := match require_loop ms (Records r) with [] => true | _ => false end.

Definition Count (r : Recorder) m : Z := foldl (fun n rec => if m rec then n + 1 else n) 0 (Records r).

(** The reference: records at ascending places satisfy the matchers in order. *)
Inductive in_order_match : list (trace_record -> bool) -> list trace_record -> Prop :=
| im_nil recs : in_order_match [] recs
| im_skip ms rec recs : in_order_match ms recs -> in_order_match ms (rec :: recs)
| im_take m ms rec recs : m rec = true -> in_order_match ms recs -> in_order_match (m :: ms) (rec :: recs).

Lemma in_order_tail m ms recs : in_order_match (m :: ms) recs -> in_order_match ms recs.
Proof.
  intros H. remember (m :: ms) as l eqn:E. revert m ms E. induction H as [|l rec recs H IH|m' l rec recs Hm H IH]; intros m ms E; [done|subst; apply im_skip; by eapply IH|].
  injection E as -> ->. by apply im_skip.
Qed.

Lemma require_loop_spec recs : forall ms, require_loop ms recs = [] <-> in_order_match ms recs.
Proof.
  induction recs as [|rec recs IH]; intros ms; simpl.
  - split; [intros ->; constructor|]. intros H. by inversion H.
  - destruct ms as [|m ms]; [rewrite IH; split; intros _; constructor|]. destruct (m rec) eqn:Em; rewrite IH.
    + split; [intros H; by apply im_take|]. intros H. inversion H as [|? ? ? H'|? ? ? ? Hm H']; subst; [by eapply in_order_tail|done].
    + split; [intros H; by apply im_skip|]. intros H. inversion H as [|? ? ? H'|? ? ? ? Hm H']; subst; [done|congruence].
Qed.

Lemma Count_spec r m : Count r m = Z.of_nat (length (filter (fun rec => m rec = true) (Records r))).
Proof.
  unfold Count. assert (forall l n, foldl (fun n rec => if m rec then n + 1 else n) n l = n + Z.of_nat (length (filter (fun rec => m rec = true) l))) as H; [|by rewrite H].
  induction l as [|x l IH]; intros n; simpl; [lia|]. rewrite IH, filter_cons. destruct (m x); [rewrite decide_True by done; simpl; lia|rewrite decide_False by done; lia].
Qed.

(** Matching is exact.  [Require], which takes for each matcher the first record
    that satisfies it, succeeds whenever any choice of records in order would;
    a matcher built from an event holds of the records of that node with the
    same type whose fields agree wherever the expected field is not zero. *)
Theorem require_exact errors_Is r ms node want rec :
  (Require_ok r ms = true <-> in_order_match ms (Records r)) /\
  (Match errors_Is node want rec = true <-> rec_Node rec = node /\ kind want = kind (rec_Event rec) /\
     Forall2 (fun w g => is_zero w = true \/ (match w with FErr (Some e) => exists x, g = FErr x /\ errors_Is x e = true | _ => w = g end)) (fields want) (fields (rec_Event rec))).
Proof.
  split.
  - unfold Require_ok. rewrite <-require_loop_spec. by destruct (require_loop ms (Records r)).
  - unfold Match. case_bool_decide as En; simpl; [|naive_solver]. destruct (Nat.eqb_spec (kind want) (kind (rec_Event rec))) as [Ek|Ek]; simpl; [|naive_solver].
    assert (length (fields want) = length (fields (rec_Event rec))) as Hl by (destruct want, (rec_Event rec); done).
    assert (forall a b, length a = length b -> fields_match errors_Is a b = true <->
      Forall2 (fun w g => is_zero w = true \/ (match w with FErr (Some e) => exists x, g = FErr x /\ errors_Is x e = true | _ => w = g end)) a b) as H; [|rewrite (H _ _ Hl); naive_solver].
    induction a as [|w a IH]; intros [|g b] Hab; try done; simpl. injection Hab as Hab. rewrite Forall2_cons, <-(IH b Hab).
    assert (field_matches errors_Is w g = true <-> is_zero w = true \/ (match w with FErr (Some e) => exists x, g = FErr x /\ errors_Is x e = true | _ => w = g end)) as Hw.
    { unfold field_matches. destruct (is_zero w) eqn:Ez; [naive_solver|]. destruct w as [x|x|x|[e|]]; try done; try (rewrite bool_decide_eq_true; naive_solver).
      destruct g; rewrite ?bool_decide_eq_true; naive_solver. }
    destruct (field_matches errors_Is w g) eqn:Ef; [|naive_solver]. destruct Hw as [Hw _]. specialize (Hw eq_refl). naive_solver.
Qed.

(** ** Waiting for a record *)

Inductive await_pc := AwScan | AwWait (changed : nat) | AwFound (rec : trace_record) | AwTimeout.

Record awaiting := mk_awaiting { aw_rec : Recorder; aw_fired : bool; aw_pc : await_pc }.

Definition first_match m (l : list trace_record) : option trace_record := snd <$> list_find (fun rec => m rec = true) l.

(** One step of [await]: a scan of a snapshot, or the select. *)
Inductive await_own m : awaiting -> awaiting -> Prop :=
| aw_scan r f : await_own m (mk_awaiting r f AwScan)
    (mk_awaiting r f (match first_match m (snapshot r).1 with Some rec => AwFound rec | None => AwWait (snapshot r).2 end))
| aw_wake r f g : closed_wake g r = true -> await_own m (mk_awaiting r f (AwWait g)) (mk_awaiting r f AwScan)
| aw_expire r g : await_own m (mk_awaiting r true (AwWait g)) (mk_awaiting r true AwTimeout).

(** The nodes emit; the timer fires. *)
Inductive await_env : awaiting -> awaiting -> Prop :=
| aw_emit at_ node ev r f pc : await_env (mk_awaiting r f pc) (mk_awaiting (rec_emit at_ node ev r) f pc)
| aw_fire r f pc : await_env (mk_awaiting r f pc) (mk_awaiting r true pc).

Record await_inv m (a : awaiting) : Prop := {
  ai_wait : forall g, aw_pc a = AwWait g -> (g <= rc_changed (aw_rec a))%nat /\ (g = rc_changed (aw_rec a) -> first_match m (rc_records (aw_rec a)) = None);
  ai_found : forall rec, aw_pc a = AwFound rec -> first_match m (rc_records (aw_rec a)) = Some rec;
  ai_timeout : aw_pc a = AwTimeout -> aw_fired a = true }.

Lemma first_match_app m l l' rec : first_match m l = Some rec -> first_match m (l ++ l') = Some rec.
Proof.
  unfold first_match. intros H. apply fmap_Some in H as ([i x] & H & ->). by rewrite (list_find_app_l _ _ _ _ _ H).
Qed.

Lemma await_step_inv m a a' : await_inv m a -> await_own m a a' \/ await_env a a' -> await_inv m a'.
Proof.
  intros [I1 I2 I3] [H|H].
  - destruct H as [r f|r f g Hc|r g]; split; simpl; try done.
    + intros g. destruct (first_match m (rc_records r)) eqn:E; [done|]. intros [= <-]. done.
    + intros rec. destruct (first_match m (rc_records r)) eqn:E; [by intros [= ->]|done].
    + by destruct (first_match m (rc_records r)).
  - destruct H as [at_ node ev r f pc|r f pc]; split; simpl in *; try done.
    + intros g Hg. destruct (I1 g Hg) as [A _]. split; [lia|lia].
    + intros rec Hr. apply first_match_app. by apply I2.
Qed.

Definition await_done (a : awaiting) : Prop := match aw_pc a with AwFound _ | AwTimeout => True | _ => False end.

(** Waiting loses no event.  However the nodes' events and the timer interleave
    with a test that awaits a record: if it returns one, that is the first
    matching record of the run; it gives up only after its timer fired; it never
    sleeps on a wake channel that is still open while a matching record exists;
    and once one exists it returns after at most two more steps of its own. *)
Theorem await_exact m r a : rtc (fun a b => await_own m a b \/ await_env a b) (mk_awaiting r false AwScan) a ->
  (forall rec, aw_pc a = AwFound rec -> first_match m (Records (aw_rec a)) = Some rec) /\
  (aw_pc a = AwTimeout -> aw_fired a = true) /\
  (forall g, aw_pc a = AwWait g -> is_Some (first_match m (Records (aw_rec a))) -> closed_wake g (aw_rec a) = true) /\
  (is_Some (first_match m (Records (aw_rec a))) -> await_done a \/
     ((exists b, await_own m a b) /\ forall b, await_own m a b -> await_done b \/ (aw_fired b = aw_fired a /\ (exists c, await_own m b c) /\ forall c, await_own m b c -> await_done c))).
Proof.
  intros H. assert (await_inv m a) as [I1 I2 I3].
  { assert (await_inv m (mk_awaiting r false AwScan)) as Hi by by split. clear -H Hi. induction H as [|x y z Hs _ IH]; [done|]. apply IH. by eapply await_step_inv. }
  assert (forall g, aw_pc a = AwWait g -> is_Some (first_match m (Records (aw_rec a))) -> closed_wake g (aw_rec a) = true) as Hw.
  { intros g Hg [rec Hr]. destruct (I1 g Hg) as [A B]. unfold closed_wake. apply Nat.ltb_lt. destruct (decide (g = rc_changed (aw_rec a))) as [E|E]; [specialize (B E); unfold Records in Hr; congruence|lia]. }
  split_and!; [done|done|done|]. intros [rec Hr]. destruct a as [r' f pc]. simpl in *. unfold Records in *. destruct pc as [|g|rec'|]; [right|right|by left|by left].
  - split; [eexists; constructor|]. intros b Hb. inversion Hb; subst. left. unfold await_done, snapshot. simpl. by rewrite Hr.
  - split; [eexists; by apply aw_wake, (Hw g)|]. intros b Hb. inversion Hb; subst; [|by left]. right. split; [done|]. split; [eexists; constructor|]. intros c Hc. inversion Hc; subst.
    unfold await_done, snapshot. simpl. by rewrite Hr.
Qed.

(** A record emitted while the test sleeps. *)
Lemma await_exact_witness :
  let m := Match (fun _ _ => false) (text "b") (SessionDecoded [] (text "m1")) in
  let a := mk_awaiting (rec_emit 7 (text "b") (SessionDecoded (text "c") (text "m1")) newRecorder) false (AwWait 0) in
  rtc (fun a b => await_own m a b \/ await_env a b) (mk_awaiting newRecorder false AwScan) a /\ closed_wake 0 (aw_rec a) = true.
Proof.
  cbv zeta. set (m := Match _ _ _). set (a := mk_awaiting (rec_emit _ _ _ _) _ _).
  assert (rtc (fun a b => await_own m a b \/ await_env a b) (mk_awaiting newRecorder false AwScan) a) as Hr.
  { eapply rtc_l; [left; apply aw_scan|]. eapply rtc_l; [right; apply aw_emit|]. apply rtc_refl. }
  split; [exact Hr|]. destruct (await_exact m newRecorder a Hr) as (_ & _ & H & _). apply (H 0%nat); [reflexivity|]. exists (mk_record 1 7 (text "b") (SessionDecoded (text "c") (text "m1"))). reflexivity.
Defined.

(** ** The subscribed peers *)

Section peers.
Context (node channel : bytes).

(** The fold of [AwaitPeers] over a snapshot. *)
Definition peers_step (current : gset bytes) (rec : trace_record) : gset bytes :=
  if negb (bool_decide (rec_Node rec = node)) then current
  else match rec_Event rec with
       | PeerSubscribed p c => if bool_decide (c = channel) then {[p]} ∪ current else current
       | PeerUnsubscribed p c => if bool_decide (c = channel) then current ∖ {[p]} else current
       | PeerGone p => current ∖ {[p]}
       | _ => current
       end.
Definition current_peers (l : list trace_record) : gset bytes := foldl peers_step ∅ l.

(** Its comparison: as many, and each wanted one there. *)
Definition peers_matched (want : gset bytes) (l : list trace_record) : bool :=
  (size (current_peers l) =? size want)%nat && bool_decide (set_Forall (fun p => p ∈ current_peers l) want).

(** What a record says about a peer. *)
Definition says (p : bytes) (rec : trace_record) : option bool :=
  if negb (bool_decide (rec_Node rec = node)) then None
  else match rec_Event rec with
       | PeerSubscribed q c => if decide (q = p /\ c = channel) then Some true else None
       | PeerUnsubscribed q c => if decide (q = p /\ c = channel) then Some false else None
       | PeerGone q => if decide (q = p) then Some false else None
       | _ => None
       end.

Lemma current_peers_spec l p : p ∈ current_peers l <-> last (omap (says p) l) = Some true.
Proof.
  unfold current_peers. induction l as [|rec l IH] using rev_ind; [simpl; set_solver|]. rewrite foldl_app, omap_app. simpl.
  assert (p ∈ peers_step (foldl peers_step ∅ l) rec <-> match says p rec with Some b => b = true | None => p ∈ foldl peers_step ∅ l end) as Hs.
  { unfold peers_step, says. destruct (negb _); [done|]. destruct (rec_Event rec); try done.
    - case_bool_decide; [subst|rewrite decide_False by naive_solver; done]. case_decide; set_solver.
    - case_bool_decide; [subst|rewrite decide_False by naive_solver; done]. case_decide; set_solver.
    - case_decide; set_solver. }
  rewrite Hs. destruct (says p rec) as [b|]; simpl; [by rewrite last_snoc; split; [intros ->|intros [= ->]]|by rewrite app_nil_r].
Qed.

(** [AwaitPeers] returns on a snapshot exactly when the peers whose last word about
    the channel is a subscription are the wanted ones: repeated subscriptions do
    not count twice and a peer that is gone is not counted. *)
Theorem await_peers_exact want l : peers_matched want l = true <-> forall p, p ∈ want <-> last (omap (says p) l) = Some true.
Proof.
  unfold peers_matched. rewrite andb_true_iff, Nat.eqb_eq, bool_decide_eq_true. setoid_rewrite <-current_peers_spec. split.
  - intros [Hs Hf] p. split; [apply Hf|]. intros Hp. assert (want = current_peers l) as ->; [|done]. apply set_subseteq_size_eq; [|lia]. intros q Hq. by apply Hf.
  - intros H. assert (current_peers l = want) as -> by (apply set_eq; intros p; by rewrite H). split; [done|]. by intros p.
Qed.
End peers.
