(* ===== verification/Harness.v ===== *)
(** * Harness: nodes for tests and experiments (src/internal/harness/harness.go,
    node.go; the nodes of src/sim/node.go)

    The links of a test network, what a collector requires of deliveries, and how
    a node's parts are made and released.  What the parts' own calls return is
    given; [None] is a panic of the harness. *)

From S2P Require Import Prelude Types Rlp Identity Enr.
Open Scope Z_scope.

#[local] Set Default Proof Using "Type".

(** ** Links *)

(** [makePair]: an unordered pair of addresses. *)
Definition makePair (a b : bytes) : bytes * bytes := if bool_decide (bcompare a b = Gt) then (b, a) else (a, b).

Lemma makePair_comm a b : makePair a b = makePair b a.
Proof.
  unfold makePair. rewrite (bcompare_antisym a b). destruct (bcompare a b) eqn:E; simpl; [|done|done]. apply bcompare_eq in E. by subst.
Qed.

Definition linkLatency : Z := 1000000.

Inductive action :=
| StackDisconnect (a b : nat)            (* a.Stack.Disconnect(b.ID) *)
| CloseLibView (node conn : nat).        (* CloseWithError(0) of a libp2p view *)

Record Net := mk_Net {
  nt_latencies : gmap (bytes * bytes) Z;
  nt_links : list (nat * nat);
  nt_libViews : gmap nat (list (bytes * nat));   (* of each node: remote address, view *)
  nt_log : list action }.

Section net.
(** The address of a node's socket. *)
Context (ip : nat -> bytes).
Implicit Types n : Net.

Definition same_link (a b : nat) (l : nat * nat) : bool := bool_decide (l = (a, b)) || bool_decide (l = (b, a)).

(** [closeLibViewsFor]: the views to one address, or all. *)
Definition closeLibViewsFor (nd : nat) (other : option nat) n : Net :=
  let views := default [] (nt_libViews n !! nd) in
  let closing := match other with None => fun _ => true | Some o => fun v => bool_decide (v.1 = ip o) end in
  mk_Net (nt_latencies n) (nt_links n) (<[nd := filter (fun v => closing v = false) views]> (nt_libViews n))
         (nt_log n ++ ((fun v => CloseLibView nd v.2) <$> filter (fun v => closing v = true) views)).

Definition trackLibView (nd : nat) (remote : bytes) (conn : nat) n : Net :=
  mk_Net (nt_latencies n) (nt_links n) (<[nd := default [] (nt_libViews n !! nd) ++ [(remote, conn)]]> (nt_libViews n)) (nt_log n).

(** [dialled] is what [a.Stack.Connect] returns; an error ends the test. *)
Definition Connect (a b : nat) (dialled : bool) n : option Net :=
  if existsb (same_link a b) (nt_links n) then None
  else
    let n := mk_Net (<[makePair (ip a) (ip b) := linkLatency]> (nt_latencies n)) (nt_links n) (nt_libViews n) (nt_log n) in
    if dialled then Some (mk_Net (nt_latencies n) (nt_links n ++ [(a, b)]) (nt_libViews n) (nt_log n)) else Some n.

(** The loop of [Disconnect]: the kept links, whether one was found, the closes. *)
Fixpoint drop_links (a b : nat) (l : list (nat * nat)) : list (nat * nat) * bool * list action :=
  match l with
  | [] => ([], false, [])
  | c :: l => let '(kept, found, log) := drop_links a b l in
              if same_link a b c then (kept, true, StackDisconnect a b :: log) else (c :: kept, found, log)
  end.

Definition Disconnect (a b : nat) n : option Net :=
  let '(kept, found, log) := drop_links a b (nt_links n) in
  let n := mk_Net (nt_latencies n) kept (nt_libViews n) (nt_log n ++ log) in
  if found then Some (closeLibViewsFor b (Some a) (closeLibViewsFor a (Some b) n)) else None.

Definition touches (nd : nat) (l : nat * nat) : bool := bool_decide (l.1 = nd) || bool_decide (l.2 = nd).

(** The loop of [removeNodeLinks]; [fuel] bounds its turns. *)
Fixpoint removeNodeLinks (fuel : nat) (nd : nat) n : option Net :=
  match fuel with
  | O => None
  | S fuel =>
      match list_find (fun l => touches nd l = true) (nt_links n) with
      | None => Some n
      | Some (_, (a, b)) => letp n := Disconnect a b n in removeNodeLinks fuel nd n
      end
  end.

(** The delay of a packet; an unconnected link panics. *)
Definition latencyFor (from to : bytes) n : option Z := nt_latencies n !! makePair from to.

(** *** No link twice, and a route for every link *)

Lemma NoDup_fmap_filter {A B} (f : A -> B) (P : A -> Prop) `{!forall x, Decision (P x)} l : NoDup (f <$> l) -> NoDup (f <$> filter P l).
Proof.
  induction l as [|x l IH]; [done|]. rewrite fmap_cons. intros [Hx Hn]%NoDup_cons. rewrite filter_cons. case_decide; [|by apply IH]. rewrite fmap_cons. apply NoDup_cons. split; [|by apply IH].
  intros (y & E & [_ Hy]%list_elem_of_filter)%list_elem_of_fmap. apply Hx, list_elem_of_fmap. by exists y.
Qed.

Lemma list_filter_all {A} (P : A -> Prop) `{!forall x, Decision (P x)} l : Forall P l -> filter P l = l.
Proof. induction 1 as [|x l Hx _ IH]; [done|]. by rewrite filter_cons_True, IH. Qed.


Definition link_of (l : nat * nat) : nat * nat := if (l.1 <=? l.2)%nat then l else (l.2, l.1).

Record net_ok n : Prop := {
  no_dup : NoDup (link_of <$> nt_links n);
  no_route : forall a b, (a, b) ∈ nt_links n -> latencyFor (ip a) (ip b) n = Some linkLatency /\ latencyFor (ip b) (ip a) n = Some linkLatency }.

Lemma same_link_spec a b l : same_link a b l = true <-> link_of l = link_of (a, b).
Proof.
  unfold same_link, link_of. rewrite orb_true_iff, !bool_decide_eq_true. destruct l as [c d]. simpl.
  destruct (Nat.leb_spec c d), (Nat.leb_spec a b); split; intros H1; try (destruct H1; simplify_eq; f_equal; lia); injection H1 as -> ->; auto.
Qed.

Lemma drop_links_spec a b l : drop_links a b l = (filter (fun c => same_link a b c = false) l, existsb (same_link a b) l, (fun _ => StackDisconnect a b) <$> filter (fun c => same_link a b c = true) l).
Proof.
  induction l as [|c l IH]; simpl; [done|]. rewrite IH. rewrite !filter_cons. destruct (same_link a b c) eqn:E; simpl; rewrite ?decide_True, ?decide_False by (done || by rewrite ?E); done.
Qed.

Lemma latency_comm x y n : latencyFor x y n = latencyFor y x n.
Proof. unfold latencyFor. by rewrite makePair_comm. Qed.

Lemma Disconnect_links a b n n' : Disconnect a b n = Some n' -> nt_links n' = filter (fun c => same_link a b c = false) (nt_links n) /\ nt_latencies n' = nt_latencies n.
Proof. unfold Disconnect. rewrite drop_links_spec. destruct (existsb _ _); [|done]. by intros [= <-]. Qed.

Lemma Connect_ok a b ok n n' : net_ok n -> Connect a b ok n = Some n' -> net_ok n'.
Proof.
  intros [H1 H2]. unfold Connect. destruct (existsb (same_link a b) (nt_links n)) eqn:E; [done|].
  assert (link_of (a, b) ∉ link_of <$> nt_links n) as Hn.
  { intros Hin. apply list_elem_of_fmap in Hin as (l & He & Hl). assert (existsb (same_link a b) (nt_links n) = true); [|congruence]. apply existsb_exists. exists l.
    split; [by apply list_elem_of_In|]. apply same_link_spec. done. }
  assert (forall x y (m : gmap (bytes * bytes) Z), <[x := linkLatency]> m !! y = Some linkLatency <-> y = x \/ m !! y = Some linkLatency) as Hm.
  { intros x y m. destruct (decide (y = x)) as [->|]; [rewrite lookup_insert_eq; naive_solver|rewrite lookup_insert_ne by done; naive_solver]. }
  destruct ok; intros [= <-]; split; simpl.
  - rewrite fmap_app. apply NoDup_app. split; [done|]. split; [|apply NoDup_singleton]. intros x Hx Hin. apply list_elem_of_singleton in Hin as ->. done.
  - intros c d. rewrite elem_of_app, list_elem_of_singleton. unfold latencyFor in *. simpl. rewrite !Hm. intros [Hl|[= -> ->]]; [destruct (H2 c d Hl); auto|]. split; left; [done|apply makePair_comm].
  - done.
  - intros c d Hl. unfold latencyFor in *. simpl. rewrite !Hm. destruct (H2 c d Hl). auto.
Qed.

Lemma Disconnect_ok a b n n' : net_ok n -> Disconnect a b n = Some n' -> net_ok n'.
Proof.
  intros [H1 H2] H. apply Disconnect_links in H as [E1 E2]. split.
  - rewrite E1. by apply NoDup_fmap_filter.
  - intros c d. rewrite E1. intros [_ Hl]%list_elem_of_filter. unfold latencyFor. rewrite E2. by apply H2.
Qed.

(** Removing a node's links ends, with as many turns as there are links, and
    never panics: afterwards exactly the links of the node are gone, the others
    in their order, and packets still in flight on a removed link have a route.
    No two links ever join the same nodes. *)
Theorem removeNodeLinks_exact nd fuel n : net_ok n -> (length (nt_links n) < fuel)%nat ->
  exists n', removeNodeLinks fuel nd n = Some n' /\ nt_links n' = filter (fun l => touches nd l = false) (nt_links n) /\ nt_latencies n' = nt_latencies n /\ net_ok n'.
Proof.
  revert n. induction fuel as [|fuel IH]; intros n Hn Hl; [lia|]. simpl.
  destruct (list_find (fun l => touches nd l = true) (nt_links n)) as [[i [a b]]|] eqn:Ef.
  - apply list_find_Some in Ef as (Hi & Ht & _). assert (existsb (same_link a b) (nt_links n) = true) as Hex.
    { apply existsb_exists. exists (a, b). split; [apply list_elem_of_In; by eapply list_elem_of_lookup_2|]. by apply same_link_spec. }
    destruct (Disconnect a b n) as [n1|] eqn:Ed; [|unfold Disconnect in Ed; rewrite drop_links_spec, Hex in Ed; done]. cbn [mbind option_bind].
    pose proof (Disconnect_ok _ _ _ _ Hn Ed) as Hn1. apply Disconnect_links in Ed as [E1 E2].
    assert (length (nt_links n1) < length (nt_links n))%nat as Hlt.
    { rewrite E1. apply (length_filter_lt _ _ (a, b)); [by eapply list_elem_of_lookup_2|]. intros Hc. assert (same_link a b (a, b) = true) by (by apply same_link_spec). congruence. }
    destruct (IH n1 Hn1 ltac:(lia)) as (n' & -> & A & B & C). exists n'. split; [done|]. split; [|by rewrite B].
    rewrite A, E1, list_filter_filter. apply list_filter_iff. intros l. split; [by intros [? _]|]. intros Hl'. split; [done|]. destruct (same_link a b l) eqn:Es; [|done].
    unfold same_link in Es. apply orb_true_iff in Es. rewrite !bool_decide_eq_true in Es. unfold touches in *. destruct Es as [-> | ->]; simpl in *; [congruence|]. rewrite orb_comm in Hl'. congruence.
  - apply list_find_None in Ef. exists n. split; [done|]. split; [|done]. symmetry. apply list_filter_all. eapply Forall_impl; [exact Ef|]. intros l H. simpl in H. by destruct (touches nd l).
Qed.
End net.

(** A triangle loses one node. *)
Lemma removeNodeLinks_exact_witness :
  exists n', removeNodeLinks (fun k => replicate k Byte.x01) 4 1
    (mk_Net {[([Byte.x01], [Byte.x01; Byte.x01]) := linkLatency; ([Byte.x01], [Byte.x01; Byte.x01; Byte.x01]) := linkLatency; ([Byte.x01; Byte.x01], [Byte.x01; Byte.x01; Byte.x01]) := linkLatency]}
            [(1, 2); (2, 3); (3, 1)]%nat ∅ []) = Some n' /\ nt_links n' = [(2, 3)%nat].
Proof.
  set (n := mk_Net _ _ _ _).
  assert (net_ok (fun k => replicate k Byte.x01) n) as Hn.
  { split; [by vm_compute; repeat (apply NoDup_cons; split; [set_solver|]); apply NoDup_nil|].
    intros a b Hl. cbn [n nt_links] in Hl. rewrite !elem_of_cons, elem_of_nil in Hl. destruct Hl as [[= -> ->]|[[= -> ->]|[[= -> ->]|[]]]]; split; by vm_compute. }
  destruct (removeNodeLinks_exact (fun k => replicate k Byte.x01) 1 4 n Hn ltac:(cbn; lia)) as (n' & A & B & _). exists n'. split; [exact A|]. rewrite B. reflexivity.
Defined.

(** ** Collectors *)

(** [RequireReceived]: the settled deliveries of a channel hold the message exactly
    once, on that channel and with these bytes; [false] fails the test. *)
Fixpoint received_loop (chan : ChannelID) (id : MessageID) (payload : bytes) (count : Z) (l : list FullMessage) : option Z :=
  match l with
  | [] => Some count
  | m :: l =>
      if negb (bool_decide (fm_messageID m = id)) then received_loop chan id payload count l
      else if negb (bool_decide (fm_channelID m = chan)) then None
      else if negb (bool_decide (fm_data m = payload)) then None
      else received_loop chan id payload (count + 1) l
  end.
Definition RequireReceived (chan : ChannelID) (id : MessageID) (payload : bytes) (l : list FullMessage) : bool :=
  match received_loop chan id payload 0 l with Some count => count =? 1 | None => false end.
Definition RequireNotReceived (id : MessageID) (l : list FullMessage) : bool := forallb (fun m => negb (bool_decide (fm_messageID m = id))) l.

#[local] Instance FullMessage_eq_dec : EqDecision FullMessage.
Proof. solve_decision. Defined.

Lemma received_loop_spec chan id payload l : forall count, received_loop chan id payload count l =
  if decide (Forall (fun m => fm_messageID m = id -> m = mk_FullMessage chan id payload) l) then Some (count + Z.of_nat (length (filter (fun m => fm_messageID m = id) l))) else None.
Proof.
  set (P := fun m => fm_messageID m = id -> m = mk_FullMessage chan id payload). induction l as [|m l IH]; intros count; cbn [received_loop].
  { destruct (decide (Forall P [])) as [_|F]; [by rewrite Z.add_0_r|by destruct F]. }
  assert (forall a b : option Z, P m -> (if decide (Forall P (m :: l)) then a else b) = if decide (Forall P l) then a else b) as Hd.
  { intros a b Hm. destruct (decide (Forall P (m :: l))) as [F|F], (decide (Forall P l)) as [F'|F']; try done; exfalso; [apply Forall_cons in F as [_ ?]; done|by apply F; constructor]. }
  assert (forall a : option Z, ~ P m -> (if decide (Forall P (m :: l)) then a else None) = None) as Hn.
  { intros a Hm. destruct (decide (Forall P (m :: l))) as [F|F]; [|done]. by apply Forall_cons in F as [? _]. }
  case_bool_decide as E1; cbn [negb]; [|rewrite filter_cons_False by done; rewrite Hd by (by intros ?); apply IH]. rewrite filter_cons_True by done.
  case_bool_decide as E2; cbn [negb]; [|rewrite Hn; [done|]; intros Hm; by rewrite (Hm E1) in E2].
  case_bool_decide as E3; cbn [negb]; [|rewrite Hn; [done|]; intros Hm; by rewrite (Hm E1) in E3].
  rewrite Hd, IH by (intros _; destruct m; simpl in *; congruence). cbn [length].
  repeat match goal with |- context [decide ?Q] => destruct (decide Q) end; try done; try contradiction; f_equal; lia.
Qed.

(** The check passes exactly when one delivery has the id, and it is the message. *)
Theorem RequireReceived_exact chan id payload l : RequireReceived chan id payload l = true <-> filter (fun m => fm_messageID m = id) l = [mk_FullMessage chan id payload].
Proof.
  unfold RequireReceived. rewrite received_loop_spec, Z.add_0_l. destruct (decide _) as [F|F].
  - rewrite Z.eqb_eq. split; [|by intros ->]. intros H. destruct (filter (fun m => fm_messageID m = id) l) as [|m [|]] eqn:E; simpl in H; try lia.
    assert (m ∈ filter (fun m => fm_messageID m = id) l) as Hm by (rewrite E; by left). apply list_elem_of_filter in Hm as [Hid Hm]. rewrite Forall_forall in F. by rewrite (F m Hm Hid).
  - split; [done|]. intros H. exfalso. apply F. apply Forall_forall. intros m Hm Hid. assert (m ∈ filter (fun m => fm_messageID m = id) l) as Hin by (by apply list_elem_of_filter).
    rewrite H in Hin. by apply list_elem_of_singleton in Hin.
Qed.

(** ** The node of an experiment *)

Inductive part := PEndpoint | PStack | PEngine | PChannel | PPacket.
#[global] Instance part_eq_dec : EqDecision part.
Proof. solve_decision. Defined.
Inductive part_action := Made (p : part) | Released (p : part).

(** What the calls of [newBroadcastNode] return. *)
Record setup := mk_setup {
  su_endpoint : option error; su_record : option error; su_stack : option error; su_register : option error;
  su_subscribe : option error; su_endpointStart : option error; su_stackStart : option error }.

Definition fail_after (made : list part) (released : list part) (e : error) : result error unit * list part_action :=
  (Err e, (Made <$> made) ++ (Released <$> released)).

Definition newBroadcastNode (u : setup) : result error unit * list part_action :=
  match su_endpoint u with
  | Some e => (Err e, [])
  | None => match su_record u with
  | Some e => fail_after [PEndpoint] [PEndpoint] e
  | None => match su_stack u with
  | Some e => fail_after [PEndpoint] [PEndpoint] e
  | None => match su_register u with
  | Some e => fail_after [PEndpoint; PStack; PEngine] [PStack; PEngine; PEndpoint] e
  | None => match su_subscribe u with
  | Some e => fail_after [PEndpoint; PStack; PEngine; PChannel] [PStack; PChannel; PEngine; PEndpoint] ("failed to subscribe: " ++ e)%string
  | None => match su_endpointStart u with
  | Some e => fail_after [PEndpoint; PStack; PEngine; PChannel] [PStack; PChannel; PEngine; PEndpoint] e
  | None => match su_stackStart u with
  | Some e => fail_after [PEndpoint; PStack; PEngine; PChannel] [PStack; PChannel; PEngine; PEndpoint] e
  | None => (Ok tt, Made <$> [PEndpoint; PStack; PEngine; PChannel])
  end end end end end end end.

(** [Close]: once; later calls return the first one's error. *)
Record node_life := mk_life { nl_closed : option (list error); nl_log : list part_action }.
Definition node_Close (errs : list error) (nd : node_life) : list error * node_life :=
  match nl_closed nd with
  | Some e => (e, nd)
  | None => (errs, mk_life (Some errs) (nl_log nd ++ (Released <$> [PStack; PChannel; PEngine; PEndpoint; PPacket])))
  end.

(** [ResetBandwidthStats]: what was sent and received since the last call. *)
Record bandwidth := mk_bandwidth { bn_baseSent : Z; bn_baseRecv : Z }.
Definition ResetBandwidthStats (sent recv : Z) (b : bandwidth) : (Z * Z) * bandwidth :=
  ((i64 (sent - bn_baseSent b), i64 (recv - bn_baseRecv b)), mk_bandwidth sent recv).

(** Which node a strategy names. *)
Definition newParticipant {N} (name : String.string) (rs gossipsub : result error N) : result error N :=
  if decide (name = "RS"%string) then rs else if decide (name = "gossipsub"%string) then gossipsub else Err ("unknown strategy: " ++ name)%string.

Definition made (l : list part_action) : list part := omap (fun x => match x with Made p => Some p | _ => None end) l.
Definition released (l : list part_action) : list part := omap (fun x => match x with Released p => Some p | _ => None end) l.

(** [p] is released before [q] in [l]. *)
Definition before (p q : part) (l : list part) : Prop := exists l1 l2, l = l1 ++ l2 /\ p ∈ l1 /\ q ∈ l2.

(** Setting a node up.  Whichever call fails, every part made so far is released
    exactly once, nothing else is, and the caller keeps its packet connection;
    a stack is released before the engine whose families it runs, a channel
    before its engine, and the endpoint last.  When all calls succeed all parts
    exist and none is released until the node is closed, which then releases
    each once, however often Close is called. *)
Theorem setup_releases u errs1 errs2 :
  let '(r, log) := newBroadcastNode u in
  PPacket ∉ released log /\ NoDup (made log) /\
  match r with
  | Err _ => released log ≡ₚ made log /\
      (forall p q, p ∈ made log -> q ∈ made log -> (p, q) ∈ [(PStack, PEngine); (PChannel, PEngine); (PStack, PEndpoint); (PEngine, PEndpoint); (PChannel, PEndpoint)] -> before p q (released log))
  | Ok _ => made log = [PEndpoint; PStack; PEngine; PChannel] /\ released log = [] /\
      let '(e1, nd1) := node_Close errs1 (mk_life None log) in let '(e2, nd2) := node_Close errs2 nd1 in
      e2 = e1 /\ released (nl_log nd2) ≡ₚ PPacket :: made log /\ NoDup (released (nl_log nd2))
  end.
Proof.
  assert (forall (l : list part) p q i j, l !! i = Some p -> l !! j = Some q -> (i < j)%nat -> before p q l) as Hb.
  { intros l p q i j Hi Hj Hij. exists (take j l), (drop j l). split; [by rewrite take_drop|]. split; [apply (list_elem_of_lookup_2 _ i); by rewrite lookup_take_lt|].
    apply (list_elem_of_lookup_2 _ 0). by rewrite lookup_drop, Nat.add_0_r. }
  assert (forall l l' : list part, bool_decide (l ≡ₚ l') = true -> l ≡ₚ l') as Hp by (intros l l'; by rewrite bool_decide_eq_true).
  assert (forall l : list part, bool_decide (NoDup l) = true -> NoDup l) as Hd by (intros l; by rewrite bool_decide_eq_true).
  assert (forall l : list part, bool_decide (PPacket ∈ l) = false -> PPacket ∉ l) as Hn by (intros l; by rewrite bool_decide_eq_false).
  unfold newBroadcastNode.
  destruct (su_endpoint u); [|destruct (su_record u); [|destruct (su_stack u); [|destruct (su_register u); [|destruct (su_subscribe u); [|destruct (su_endpointStart u); [|destruct (su_stackStart u)]]]]]];
    (split; [by apply Hn|]); (split; [by apply Hd|]); cbn [fst snd node_Close nl_closed nl_log].
  8: { split; [done|]. split; [done|]. split; [done|]. split; [by apply Hp|by apply Hd]. }
  all: split; [by apply Hp|]; intros p q Hp' Hq' Hin; rewrite !elem_of_cons, elem_of_nil in Hin;
    destruct Hin as [[= -> ->]|[[= -> ->]|[[= -> ->]|[[= -> ->]|[[= -> ->]|[]]]]]]; cbn in Hp', Hq'; try (exfalso; clear -Hp' Hq'; set_solver);
    first [by apply (Hb _ _ _ 0%nat 1%nat); [..|lia]|by apply (Hb _ _ _ 0%nat 2%nat); [..|lia]|by apply (Hb _ _ _ 0%nat 3%nat); [..|lia]|by apply (Hb _ _ _ 1%nat 2%nat); [..|lia]|
           by apply (Hb _ _ _ 1%nat 3%nat); [..|lia]|by apply (Hb _ _ _ 2%nat 3%nat); [..|lia]].
Qed.
